(* ===== verification/_CoqProject ===== *)
-Q . S2P
Prelude.v
Layout.v
Memory.v
TypeCode.v
TypeCodeSpec.v
TypeComplete.v
TypeBuild.v
TypeFunc.v
TypeFuncProps.v
TypeMachine.v
PamiType.v
TypeEnumerator.v
TypeMachineSpec.v
TypeCursorSpec.v
TypeTransfer.v
TypeMachineProps.v
PamiTransfer.v
PamiTypeProps.v
TypeEnumeratorProps.v
Queue.v
QueueSpec.v
QueueProps.v
QueueInterface.v
CircularQueue.v
CircularQueueProps.v
MultiQueue.v
Atomics.v
MutexedQueue.v
GenericDevice.v
GenericDeviceSpec.v
GenericDeviceProps.v
PipeWorkQueue.v
PipeWorkQueueSpec.v
PipeWorkQueueProps.v
Topology.v
TopologyOps.v
TopologySpec.v
TopologyModel.v
TopologyEndpoints.v
TopologyAnalysis.v
TopologyConvert.v
TopologySets.v
TopologySubtract.v
TopologyLocal.v
TopologyGrid.v
TopologyConversion.v
TopologyProps.v
Schedule.v
MultinomialMap.v
MultinomialTree.v
ScheduleCache.v
Barrier.v
BarrierMachine.v
BarrierSystem.v
BarrierInvariant.v
MultinomialSpec.v
ScheduleSpec.v
ScheduleGather.v
TopologyMapSpec.v
ScheduleProps.v
BarrierProps.v
MemoryAllocator.v
EagerSimple.v
EagerData.v
EagerWire.v
EagerEndpoint.v
EagerSend.v
EagerReceive.v
EagerInvariant.v
EagerWorld.v
EagerProgress.v
EagerProps.v
EagerDemo.v
PacketFifo.v
PacketFifoSpec.v
PacketFifoProps.v
ShmemPacket.v
ShmemDispatch.v
ShmemSend.v
ShmemSendProps.v
