(* ===== verification/Prelude.v ===== *)
(** * PAMI: data types, queues, topologies, schedules, barriers, the generic device, eager sends and shared memory

    PAMI is the messaging layer of the Blue Gene and LAPI machines: clients create
    contexts, send and receive active messages, and run collectives over geometries.
    Below the protocols it rests on components that are logic rather than hardware:
    the descriptions of typed data, the queues of pending work, the sets of tasks, the
    schedules of the collectives.
    This library models those components and proves what they promise.

    ** Parts, and how they interact

    - Typed data (src/common/type, src/api/c/pami_type.cc).  A client builds a type with
      PAMI_Type_create, add_simple, add_typed and complete; src/common/type/TypeCode.h
      compiles it into byte code.  The protocols pack and unpack with a type machine
      (TypeMachine.h) that runs the code, applying a copy function of TypeFunc.h to each
      piece; PAMI_Type_transform_data runs two machines against each other, and
      TypeEnumerator.h lists the blocks two types have in common.
    - Queues (src/util/queue).  Elements belong to the clients; Queue.h links them in a
      list with head, tail and size, CircularQueue.h in a ring; QueueInterface.h is what
      both offer.  Messages are in two queues at once, so MultiQueue.h links elements that have a
      pair of links for each kind of queue.
    - The pipe work queue (src/common/default/PipeWorkQueue.h): the buffer a collective's
      producer and consumer share, seen through types by a type machine on either side.
    - Topologies (src/common/default/Topology.h).  The set of tasks of a geometry or a
      multicast, in one of five representations over the torus coordinates of the
      platform's mapping; the collectives convert, cut and intersect them.
    - Schedules (src/algorithms/schedule/MultinomialTree.h and MultinomialMap.h).  Over the
      endpoints of a topology, who sends to whom in which phase of a barrier, an
      allreduce, a reduce or a broadcast: a multinomial tree over a power of two of ranks,
      with a phase before and after for the ranks left over.  An executor reads its
      schedule through ScheduleCache.h (src/algorithms/executor).
    - The barrier executor (src/algorithms/executor/Barrier.h, made by the constructor of
      src/algorithms/protocols/barrier/BarrierT.h): it counts the messages of each phase,
      for two iterations at a time, and goes through the phases of its schedule.
    - The generic device (src/components/devices/generic/Device.h).  Any thread posts work to
      a context: postThread enqueues it, under a mutex, on the posted queue
      (src/util/queue/MutexedQueue.h inside GccThreadSafePostingQueue.h).  The thread that
      advances the context calls the work of its private queue, takes the posted work, calls
      it, and keeps for the next advance what asks to be called again.  The mutexes are those
      of src/components/atomic over the atomic of src/common/default/NativeAtomics.h.
    - The eager send protocol (src/p2p/protocols/send/eager/EagerSimple.h and its four
      _impl.h files).  A message that fits travels in one packet; of a longer one an envelope
      with the header goes ahead (in two parts when the header is long) and the data follow in
      packets of their own, packed by a type machine where the data are typed.  At the target
      the envelope calls the client's dispatch function, which says where the data should go;
      data packets find the state of the receive through the connection of their origin.  A
      remote callback is a ping to the target and a pong back.  States come from the pool of
      src/components/memory/MemoryAllocator.h.
    - Shared memory (src/components/devices/shmem over src/components/fifo).  A packet model posts a
      packet, or a message in several, to the fifo of its destination, when there is room and
      nothing waits; otherwise a message waits in the send queue of the fifo, and its work in the
      generic device, which completes it.  A fifo is an array of packets that any process of the node
      writes without a lock and one reads: LinearFifo.h hands out the slots from the first to the last
      and starts again when all were consumed, WrapFifo.h each as soon as it was consumed.  What comes
      out goes to the receive function of its dispatch id, or waits for that to be registered.

    ** Files

    - [Prelude]: the error monad [res] of the modelled functions, [size_t] and
      [unsigned] arithmetic ([w64], [w32], the congruence [eq64] with its [Proper]
      instances), lemmas on lists, tactics.
    - [Layout]: the abstract specification of a type, a tree [prog] of strided copies and
      shifts, with [layout] the list of the displacements of its bytes; [Memory]: the
      byte-addressed memory of the program.
    - [TypeCode] models TypeCode.h and ReferenceCount.h: the header, the code buffer with
      its prev_opcode words, [Push], [Top], [Pop], the peephole optimisations of
      [AddShift_], [AddSimpleInternal_], [AddTypedInternal_], [Complete] with its passes, the predefined
      types.  [TypeCodeSpec] and [TypeComplete] relate code to [prog]; [TypeBuild] states
      what a whole building session yields.
    - [TypeFunc] models TypeFunc.h and the loops of src/arch/MathInterface.h;
      [TypeFuncProps] has its properties.
    - [TypeMachine] models TypeMachine.h ([Run], [Copy], the Execute functions, [MoveCursor],
      [EnumerateBlocks], [GetContigBytes], [Pack], [Unpack], [SetType]); [TypeMachineSpec],
      [TypeCursorSpec] and [TypeTransfer] prove it against the stream of the layout,
      [TypeMachineProps] states the results.
    - [PamiType] models src/api/c/pami_type.cc, with [PamiTransfer] and [PamiTypeProps];
      [TypeEnumerator] models TypeEnumerator.h, with [TypeEnumeratorProps].
    - [Queue] models Queue.h and the iterator, [QueueSpec] and [QueueProps] its promises;
      [QueueInterface] has the interface as a class with its laws and a client proved
      against it; [CircularQueue] models CircularQueue.h, [CircularQueueProps] has the two
      instances and their equivalence.
    - [PipeWorkQueue] models PipeWorkQueue.h; [PipeWorkQueueSpec] has the arithmetic of its
      counters, [PipeWorkQueueProps] the interleavings of a producer and a consumer as a
      step relation, and its properties.
    - [Topology] models the representations, constructors and queries of Topology.h,
      [TopologyOps] the operations that make topologies.  [TopologySpec] has segments as
      lists of coordinates, [TopologyModel] the relation [denotes] between a topology and
      the list of its tasks; [TopologyEndpoints], [TopologyAnalysis], [TopologyConvert],
      [TopologySets], [TopologySubtract], [TopologyLocal] and [TopologyConversion] prove
      the operations against it; [TopologyGrid] is a machine on which the hypotheses
      hold; [TopologyProps] states the results.
    - [Schedule] has the interface of src/algorithms/interfaces/Schedule.h as a class;
      [MultinomialMap] models MultinomialMap.h with its two maps as instances of a class,
      [MultinomialTree] models MultinomialTree.h over that class.  [MultinomialSpec] has
      what the phases of a tree should be and proves that the code gives them,
      [ScheduleSpec] that sends and receives match, [ScheduleGather] what is gathered;
      [TopologyMapSpec] shows that the map of a topology is as these assume, and
      [ScheduleProps] states the results.
    - [ScheduleCache] models ScheduleCache.h and proves what it keeps; [Barrier] models
      Barrier.h.  [BarrierMachine] has the counting apart from the code, against the class
      [BarrierSchedule] of what it needs of a schedule; [BarrierSystem] the executors of all
      endpoints with the messages under way, as step relations; [BarrierInvariant] what
      holds of them; [BarrierProps] makes the schedules an instance and states the results.

    - [Atomics] models the native atomic, counter and mutex and the mutex over a counter, as
      instances of the classes [Counter] and [Mutex]; [MutexLaws] is what users of a mutex may
      rely on.  [MutexedQueue] models MutexedQueue.h and the iterator of
      GccThreadSafePostingQueue.h for any mutex, and has its sessions.
      [GenericDevice] has postThread and advance as the steps of threads that interleave,
      [GenericDeviceSpec] their invariant and what each step does to it, [GenericDeviceProps]
      the results, for any mutex with the laws.

    - [MemoryAllocator] models MemoryAllocator.h and what a pool promises.  [EagerSimple] models
      the protocol: the sends ([simple_impl], [typed_impl], [immediate_impl]), the functions
      the device calls when a packet comes in ([dispatch]) or a post is done
      ([completed_post]), and the endpoints with the channels between them ([world], [inject],
      [deliver]).  [EagerData] treats the bytes, through a type or not; [EagerWire] the packets
      a message should become, and a channel against the messages sent over it; [EagerEndpoint]
      what holds of one endpoint between two calls.  [EagerSend] proves what a send
      hands to the device, [EagerReceive] what each packet does; [EagerInvariant] joins
      sender, channel and receiver of every pair; [EagerWorld] has the runs of the whole and
      the invariant; [EagerProgress] a measure of the work left.  [EagerProps] states the
      results, [EagerDemo] has two endpoints for which the hypotheses hold.

    - [MultiQueue] models MultiQueue.h and relates each kind of links to a queue of
      [Queue], so that everything known of that holds.
    - [PacketFifo] models LinearFifo.h and WrapFifo.h as one fifo over the class [Tickets] of how a
      producer gets a slot and the consumer gives it back ([linear_take], [wrap_take] and the rest are
      its instances), one access to shared memory a step; [PacketFifoSpec] has the invariant against
      [TicketLaws], [PacketFifoProps] proves those of both fifos and states the results.
    - [ShmemPacket] models FifoPacket.h and ShmemPacket.h: how a packet lies in memory and how the
      writers fill it ([produce_one], [produce_multi], [produce_iov]), and what is read
      of it.  [ShmemDispatch] models ShmemDispatch.h and proves what it promises.
    - [ShmemSend] models the posts of ShmemPacketModel.h, ShmemPacketMessage.h, the send queues of
      ShmemMessage.h and the loops of Device.h that call the work and complete the messages;
      [ShmemSendProps] has the invariant and the results, and relates the packets there to the bytes
      of [ShmemPacket] ([produce_refines]).

    ** State

    An object is a record with the data members of its class.  What is shared is shared
    in the model: type objects live in a [heap] by address with their reference counts,
    queue elements in one map from addresses to links, the task arrays of topologies in
    a map from addresses to lists, user data in a memory of bytes.  A function that may
    fail returns [res]: an assertion that fails ([AssertFail]), a call of abort
    ([Aborted]), undefined behaviour of C++ ([Fault]: access outside of an object,
    through a dangling pointer, a union read at another member), or fuel that ran out
    ([NoFuel]).  Every theorem about a run states that it is [Ok] or which error it is.

    ** What the theorems show

    - Building: C1 to C10 follow a type from the calls that describe
      it to the bytes that move: each operation appends its layout whatever optimisation
      fires, [Complete] computes the header the layout has, packing gathers and
      unpacking scatters the bytes in layout order, transfers between two types move
      each byte to its place, the enumerator lists the common blocks.  [ResizeCodeBuffer]
      loses the previous opcode at the cursor, so whether a session succeeds depends on
      what fresh memory holds: the theorems about building hold for any content [junk] of
      it and end in success, or in a [Fault] that takes a word with one of the opcodes
      [COPY], [CALL] and [SHIFT] (not [harmless]; [resize_loses_prev_opcode] has one).
    - Queues: a session of operations is the session on a list, on both classes, and the
      iterator ends and removes what it should; queues that share elements do not disturb
      each other.
    - Pipe work queues: in any interleaving of single loads and stores the consumer gets
      what the producer published, in order, over counters that wrap; and where views
      through types depart from that ([typed_pipe_departs], [circular_keeps_counters]).
    - Barriers: in any order of starts, messages and completed sends no assertion fails,
      no counter overflows a signed [char] ([char_of]; an unsigned one counts modulo 256),
      nobody leaves a barrier before all have entered, and a barrier that all have entered
      ends.
    - The generic device: whatever the order of the steps of any number of posting threads
      and one that advances, no link is followed that is not there, work is called only
      while it is posted, in order at first, and an advance ends and reaches all that was
      posted before it.  A mutexed queue answers as the plain one.
    - Eager sends: in every run of any number of endpoints, with sends of every kind in
      any order, messages are announced and received in the order of the sends, with their
      bytes where the client wants them, callbacks are called when they are due and not
      before ([eager_delivers]); no step fails while there is memory ([eager_safe]); the
      devices come to rest with everything delivered and every state free
      ([eager_completes]).  Typed sends of more than two pipelines are left out of these,
      because they do not work ([typed_send_overruns]).
    - Shared memory: what a context posts to a fifo gets there in order, whole and once, and its
      completion functions are called then ([shmem_sends_in_order], [shmem_sends_complete]); in
      every interleaving of accesses the fifos deliver the packets in the order of their slots, every
      cell as it was written, and nobody gets stuck ([packet_fifos_in_order],
      [packet_fifos_complete]); messages are put together again from their packets
      ([multi_packets], [iovec_packets]); and the dispatch table loses nothing ([dispatch_in_order]).
      Where the code departs from what it means to do is stated too: [sequence_numbers],
      [iovec_overruns], [dispatch_overtakes], [system_packets_wait], [last_set_wraps],
      [empty_message_lost].
    - Schedules: sends and receives of all endpoints match in every phase, and what
      the phases bring together is what the collective is for.
    - Topologies: queries, endpoints, conversions and node parts agree with the list of
      tasks.  What a difference and an intersection give is stated for every pair of
      topologies ([difference_of], [intersection_of]): the difference or the common tasks
      of the lists where the code does that, and what else it gives where not; likewise
      the conversions that read freed memory ([freed_before_read]).
    - The remaining theorems treat the machine's cursor, the reductions, the C
      interface's error codes, serialization, and where the code departs from its
      documentation.

    ** Bounds and fuel

    Loops whose end is not structural take fuel, and a theorem states that the fuel
    chosen is enough: the machine runs with [run_fuel], a bound on the steps of the code
    for each repetition of the data asked for; the scans of the code in [Complete] with
    [fuel_for], the length of the buffer; Euclid's loop with [gcd_fuel] = 130 for 64-bit
    numbers; the loops over a segment with [loop_fuel], one more than its coordinates.
    The devices of the eager protocol have at most [work] steps to take.
    The halvings of an [unsigned] take 32 turns; a barrier's executor recurses once for
    each phase left ([phase_fuel]).  Barriers are proved for fewer than 2^23 endpoints, so that
    the phases fit in CCMI_BARRIER_MAXPHASES.
    [size_t] is 64 bits wide, [unsigned] and task numbers 32, as on the platforms of the
    repository.

    ** Assumptions

    - Allocation succeeds where the code asserts that it does; malloc gives an address
      that is not in use.  What new memory holds is an argument ([junk]).
    - Floating-point arithmetic is an argument ([float_ops]), and so are user copy
      functions.
    - The platform's mapping between tasks and coordinates is an argument ([Mapping]),
      with [mapping_ok], [node_ok] and [endpoints_ok] as the documented behaviour of the
      mappings under src/common; the endpoint macros of two platforms are modelled and
      meet the last.

    - The steps of the producer and the consumer of a pipe work queue see one memory
      (sequential consistency); the code leaves the fences to its callers.
    - Each event of a barrier's executor (a start, a message, a completed send) runs to its
      end before the next, as under the lock of its context; messages arrive once, in any
      order; a client does not start the next barrier inside the callback that ends
      one.  Whether [char] is signed is an argument.
    - In the generic device one turn of the loop of acquire is a step, and so are the
      statements between acquire and release together, which touch nothing that others look
      at without the mutex but the head of the queue; memory is sequentially consistent, and
      comes cleared, so that a mutex is free at first.  Work objects are posted when they are not
      posted already, and are the client's again once their function returns something
      other than PAMI_EAGAIN; what they return is arbitrary, and their status may change
      at any time.

    - In the eager protocol each call of the client and of the device runs to its end before the next
      on the same endpoint, and callbacks do not send.  The packet model is a parameter of the
      code: it is reliable and keeps the order between two endpoints, as the compile-time
      assertions ask, takes packets at once or later as it likes, and calls completion functions
      once; its own checks on lengths (PacketInterface.h) are not stated.  What a post
      carries is what its buffers hold when it is posted: clients leave them alone until
      local_fn is called.  The heap gives every segment of states memory of its own, apart from what
      the clients use, for up to [max_segments] segments, and clients have a place for each of
      up to [max_calls] messages, as long as the message ([eager_ok]); data are moved by
      copying (no data function), and typed data lie within their type.

    - The accesses of the producers and the consumer of a packet fifo see one memory (sequential
      consistency); the code has its fences between them.  Each producer writes only cells of its own
      packet, one thread consumes, and a run has at most 2^62 steps, so that no counter wraps.  The
      bounded counter is hardware and a parameter ([BoundedCounter]), with its documented behaviour
      ([BoundedCounterLaws]); what memory holds at first is arbitrary.
    - In the send path of shared memory each post and each advance runs to its end, as under the lock
      of the context; callbacks do not post; how many packets a fifo takes before it refuses one is
      arbitrary and may change at any time.  Clients leave the data and the state of a post alone until
      its completion function is called, and buffers of packets do not overlap their sources.  The
      metadata of a message are the bytes they were when it was posted.

    ** Not modelled

    Printing and tracing (Show, dump, the messages of failed calls); TypeCode::Optimize,
    which is declared only.  Of the repository: the other devices under
    src/components/devices and the platform runtimes, which are hardware and system calls; the kernels under
    src/math, which are vector intrinsics and assembly; the geometries and collective protocols,
    templates that glue devices together; tests and bindings.  The other point-to-point
    protocols (rendezvous, put, get, fence), the DMA and collective parts of the shared memory
    device with their fences, the other schedules and executors, the barriers over counters and
    the managers of shared memory carry logic of their own and are left out. *)
From stdpp Require Export base list gmap strings sorting.
From stdpp Require Export list_numbers.
From Stdlib Require Export ZArith Lia.

Open Scope Z_scope.

(** * Outcomes of the modelled code *)

(** How a modelled function can fail: a [PAMI_assert]/[assert] whose condition
    is false, an explicit [abort()], an access the C++ language leaves
    undefined (out of the buffer, through a dangling pointer, a division by
    zero, an instruction read at the wrong type), or the fuel of a loop that
    the model ran out of. *)
Inductive err := AssertFail | Aborted | Fault | NoFuel.

#[export] Instance err_eq_dec : EqDecision err.
Proof. solve_decision. Defined.

Inductive res (A : Type) :=
| Ok (a : A)
| Err (e : err).
Arguments Ok {A} a.
Arguments Err {A} e.

#[export] Instance res_ret : MRet res := @Ok.
#[export] Instance res_bind : MBind res := λ A B f c,
  match c with Ok a => f a | Err e => Err e end.

(** [PAMI_assert(b)] and [PAMI_assert_debug(b)], compiled in at the default [ASSERT_LEVEL]. *)
Definition assert (b : bool) : res () := if b then Ok () else Err AssertFail.

(** A condition the C++ language needs for the behaviour to be defined. *)
Definition defined (b : bool) : res () := if b then Ok () else Err Fault.

Definition of_option {A} (o : option A) : res A :=
  match o with Some a => Ok a | None => Err Fault end.

Lemma bind_Ok {A B} (c : res A) (f : A → res B) b :
  (c ≫= f) = Ok b ↔ ∃ a, c = Ok a ∧ f a = Ok b.
Proof. destruct c; naive_solver. Qed.

Lemma bind_assoc {A B D} (m : res A) (f : A → res B) (g : B → res D) :
  (m ≫= f) ≫= g = m ≫= λ a, f a ≫= g.
Proof. by destruct m. Qed.

Lemma bind_ext {A B} (m : res A) (f g : A → res B) : (∀ a, f a = g a) → m ≫= f = m ≫= g.
Proof. intros H. destruct m; cbn; auto. Qed.

Lemma bind_ret {A B} (a : A) (f : A → res B) : mret a ≫= f = f a.
Proof. done. Qed.

Lemma Ok_bind {A B} (a : A) (f : A → res B) : Ok a ≫= f = f a.
Proof. done. Qed.

Lemma assert_Ok b u : assert b = Ok u ↔ b = true.
Proof. destruct b, u; naive_solver. Qed.

Lemma defined_Ok b u : defined b = Ok u ↔ b = true.
Proof. destruct b, u; naive_solver. Qed.

Lemma of_option_Ok {A} (o : option A) a : of_option o = Ok a ↔ o = Some a.
Proof. destruct o; naive_solver. Qed.

(** Takes apart every successful bind among the hypotheses. *)
Ltac inv_ok :=
  repeat match goal with
  | H : (_ ≫= _) = Ok _ |- _ =>
      apply bind_Ok in H; destruct H as (?&?&H)
  | H : Ok _ = Ok _ |- _ => injection H as H
  | H : mret _ = Ok _ |- _ => injection H as H
  | H : assert _ = Ok _ |- _ => apply assert_Ok in H
  | H : defined _ = Ok _ |- _ => apply defined_Ok in H
  | H : of_option _ = Ok _ |- _ => apply of_option_Ok in H
  | H : Err _ = Ok _ |- _ => discriminate H
  end; simplify_eq/=.

(** * [size_t] arithmetic

    A [size_t] is a [Z] in [0, 2^64); the results of the C++ operators are
    reduced with [w64].  Two integers that denote the same [size_t] are
    related by [eq64]; sums, differences and products respect it, so the
    proofs rewrite under the wrap-around with [setoid_rewrite]. *)

Definition w64 (z : Z) : Z := z mod 2 ^ 64.
Definition w32 (z : Z) : Z := z mod 2 ^ 32.

Definition eq64 (a b : Z) : Prop := w64 a = w64 b.
Infix "≡₆₄" := eq64 (at level 70).

#[export] Instance eq64_equivalence : Equivalence eq64.
Proof. split; unfold eq64; repeat intro; congruence. Qed.

#[export] Instance eq64_add_proper : Proper (eq64 ==> eq64 ==> eq64) Z.add.
Proof.
  intros a b Hab c d Hcd. unfold eq64, w64 in *.
  by rewrite (Z.add_mod a), (Z.add_mod b), Hab, Hcd.
Qed.

#[export] Instance eq64_mul_proper : Proper (eq64 ==> eq64 ==> eq64) Z.mul.
Proof.
  intros a b Hab c d Hcd. unfold eq64, w64 in *.
  by rewrite (Z.mul_mod a), (Z.mul_mod b), Hab, Hcd.
Qed.

#[export] Instance eq64_sub_proper : Proper (eq64 ==> eq64 ==> eq64) Z.sub.
Proof.
  intros a b Hab c d Hcd. unfold eq64, w64 in *.
  by rewrite (Zminus_mod a), (Zminus_mod b), Hab, Hcd.
Qed.

#[export] Instance w64_proper : Proper (eq64 ==> eq) w64.
Proof. intros a b H. exact H. Qed.

Lemma w64_range z : 0 ≤ w64 z < 2 ^ 64.
Proof. unfold w64. apply Z.mod_pos_bound. lia. Qed.

Lemma w64_small z : 0 ≤ z < 2 ^ 64 → w64 z = z.
Proof. unfold w64. apply Z.mod_small. Qed.

Lemma w32_small z : 0 ≤ z < 2 ^ 32 → w32 z = z.
Proof. unfold w32. apply Z.mod_small. Qed.

Lemma w64_eq64 z : w64 z ≡₆₄ z.
Proof. unfold eq64, w64. by rewrite Z.mod_mod. Qed.

Lemma w64_w64 z : w64 (w64 z) = w64 z.
Proof. apply w64_eq64. Qed.

Lemma w64_add_l a b : w64 (w64 a + b) = w64 (a + b).
Proof. unfold w64. apply Zplus_mod_idemp_l. Qed.

Lemma w64_add_r a b : w64 (a + w64 b) = w64 (a + b).
Proof. unfold w64. apply Zplus_mod_idemp_r. Qed.

Lemma w64_mul_l a b : w64 (w64 a * b) = w64 (a * b).
Proof. unfold w64. apply Zmult_mod_idemp_l. Qed.

Lemma w64_mul_r a b : w64 (a * w64 b) = w64 (a * b).
Proof. unfold w64. apply Zmult_mod_idemp_r. Qed.

Create Rewrite HintDb w64.
#[export] Hint Rewrite w64_w64 w64_add_l w64_add_r w64_mul_l w64_mul_r : w64.

Lemma w64_mod z : w64 z = z mod 2 ^ 64.
Proof. reflexivity. Qed.

Lemma eq64_add_mult z k : z + 2 ^ 64 * k ≡₆₄ z.
Proof. unfold eq64, w64. rewrite Z.mul_comm. apply Z_mod_plus_full. Qed.

(** * Lists *)

(** [f d ++ f (d+s) ++ ... ], [n] times: a block repeated at a stride. *)
Fixpoint at_stride {A} (f : Z → list A) (d s : Z) (n : nat) : list A :=
  match n with O => [] | S n => f d ++ at_stride f (d + s) s n end.

Lemma at_stride_add {A} (f : Z → list A) s n m d :
  at_stride f d s (n + m) = at_stride f d s n ++ at_stride f (d + s * Z.of_nat n) s m.
Proof.
  revert d. induction n as [|n IH]; intros d; simpl.
  - f_equal. lia.
  - rewrite IH, (assoc_L (++)). do 2 f_equal. lia.
Qed.

Lemma at_stride_ext {A} (f g : Z → list A) s n d :
  (∀ x, f x = g x) → at_stride f d s n = at_stride g d s n.
Proof. intros H. revert d. induction n; intros; simpl; by rewrite ?H, ?IHn. Qed.

Lemma length_at_stride {A} (f : Z → list A) l s n d :
  (∀ x, length (f x) = l) → length (at_stride f d s n) = (n * l)%nat.
Proof.
  intros H. revert d. induction n; intros; simpl; [done|].
  by rewrite length_app, H, IHn.
Qed.

Lemma at_stride_flatten {A} (f : Z → list A) s n m t d :
  at_stride (λ x, at_stride f x s n) d t m =
  mjoin (map (λ i, at_stride f (d + t * Z.of_nat i) s n) (seq 0 m)).
Proof.
  revert d. induction m as [|m IH]; intros d; simpl; [done|].
  f_equal; [f_equal; lia|]. rewrite IH, <- seq_shift, map_map. f_equal.
  apply map_ext. intros. f_equal. lia.
Qed.

Lemma list_snoc_inv {A} (l : list A) : l = [] ∨ ∃ l' x, l = l' ++ [x].
Proof. destruct l as [|x l _] using rev_ind; eauto. Qed.

Lemma filter_all {A} (P : A → Prop) `{∀ x, Decision (P x)} l : Forall P l → filter P l = l.
Proof. induction 1; [done|]. rewrite filter_cons_True by done. by f_equal. Qed.

Lemma filter_nil_all {A} (P : A → Prop) `{∀ x, Decision (P x)} l : (∀ x, x ∈ l → ¬ P x) → filter P l = [].
Proof.
  induction l as [|x l IH]; intros H'; [done|]. rewrite filter_cons_False by (apply H'; by left).
  apply IH. intros y Hy. apply H'. by right.
Qed.

Lemma filter_one (a : Z) (l1 l2 : list Z) : NoDup (l1 ++ a :: l2) → filter (.≠ a) (l1 ++ a :: l2) = l1 ++ l2.
Proof.
  intros (_&Hd&[Ha _]%NoDup_cons)%NoDup_app. rewrite filter_app, filter_cons_False by naive_solver.
  f_equal; apply filter_all; apply Forall_forall; intros x Hx ->; [|done].
  apply (Hd a Hx). by left.
Qed.

Lemma seqZ_app_add m a b :
  0 ≤ a → 0 ≤ b → seqZ m (a + b) = seqZ m a ++ seqZ (m + a) b.
Proof. intros. by rewrite seqZ_app. Qed.

Lemma seqZ_shift m k n : seqZ (m + k) n = map (Z.add k) (seqZ m n).
Proof.
  unfold seqZ. rewrite map_map. apply map_ext. intros. lia.
Qed.
