(* ===== verification/Layout.v ===== *)
(** Data layouts: the abstract specification the type subsystem
    (src/common/type) implements.  A [prog] is the tree of instructions a
    type's code stands for; [layout] lists the displacement of every data
    byte, in data order; two programs are equivalent when they lay out the same
    bytes at the same displacements modulo [2^64]. *)
From S2P Require Import Prelude.

(** * Programs *)

(** The code of a data type as a tree: the constructors are the instructions
    of [TypeCode], each with the rest of its code; a [PCall] holds the code of
    the sub-type it calls. *)
Inductive prog :=
| PEnd
| PCopy (bytes stride reps : Z) (k : prog)
| PShift (shift : Z) (k : prog)
| PCall (sub : prog) (stride reps : Z) (k : prog).

(** Displacements of the data bytes, in the order of the data, of a program
    whose origin is at displacement [d] (before wrap-around). *)
Fixpoint layout (p : prog) (d : Z) : list Z :=
  match p with
  | PEnd => []
  | PCopy b s r k =>
      at_stride (λ x, seqZ x b) d s (Z.to_nat r) ++ layout k (d + s * r)
  | PShift s k => layout k (d + s)
  | PCall sub s r k =>
      at_stride (layout sub) d s (Z.to_nat r) ++ layout k (d + s * r)
  end.

(** Displacement from the start of one repetition of the type to the next. *)
Fixpoint ext (p : prog) : Z :=
  match p with
  | PEnd => 0
  | PCopy b s r k => s * r + ext k
  | PShift s k => s + ext k
  | PCall sub s r k => s * r + ext k
  end.

(** Number of data bytes. *)
Fixpoint psize (p : prog) : Z :=
  match p with
  | PEnd => 0
  | PCopy b s r k => b * r + psize k
  | PShift s k => psize k
  | PCall sub s r k => psize sub * r + psize k
  end.

(** Number of contiguous blocks the copies move. *)
Fixpoint nblocks (p : prog) : Z :=
  match p with
  | PEnd => 0
  | PCopy b s r k => r + nblocks k
  | PShift s k => nblocks k
  | PCall sub s r k => nblocks sub * r + nblocks k
  end.

(** Greatest common divisor of the block sizes. *)
Fixpoint punit (p : prog) : Z :=
  match p with
  | PEnd => 0
  | PCopy b s r k => Z.gcd b (punit k)
  | PShift s k => punit k
  | PCall sub s r k => Z.gcd (punit sub) (punit k)
  end.

(** Nesting depth of the calls: the number of cursors a traversal needs. *)
Fixpoint pdepth (p : prog) : Z :=
  match p with
  | PEnd => 1
  | PCopy b s r k => pdepth k
  | PShift s k => pdepth k
  | PCall sub s r k => Z.max (pdepth sub + 1) (pdepth k)
  end.

(** Numbers are non-negative: what a [size_t] field guarantees. *)
Fixpoint nonneg (p : prog) : Prop :=
  match p with
  | PEnd => True
  | PCopy b s r k => 0 ≤ b ∧ 0 ≤ r ∧ nonneg k
  | PShift s k => nonneg k
  | PCall sub s r k => nonneg sub ∧ 0 ≤ r ∧ nonneg k
  end.

(** Blocks and repetitions are not empty: what the builder guarantees. *)
Fixpoint proper (p : prog) : Prop :=
  match p with
  | PEnd => True
  | PCopy b s r k => 0 < b ∧ 0 < r ∧ proper k
  | PShift s k => proper k
  | PCall sub s r k => proper sub ∧ 0 < r ∧ proper k
  end.

(** Sequence of two programs. *)
Fixpoint papp (p q : prog) : prog :=
  match p with
  | PEnd => q
  | PCopy b s r k => PCopy b s r (papp k q)
  | PShift s k => PShift s (papp k q)
  | PCall sub s r k => PCall sub s r (papp k q)
  end.

(** The displacements as the [size_t] values the code computes. *)
Definition disps (p : prog) (d : Z) : list Z := map w64 (layout p d).

(** * Basic facts *)

Lemma proper_nonneg p : proper p → nonneg p.
Proof. induction p; simpl; naive_solver lia. Qed.

Lemma psize_nonneg p : nonneg p → 0 ≤ psize p.
Proof. induction p; simpl; try naive_solver lia; intros (?&?&?); nia. Qed.

Lemma pdepth_pos p : 1 ≤ pdepth p.
Proof. induction p; simpl; lia. Qed.


Lemma papp_PEnd p : papp p PEnd = p.
Proof. induction p; simpl; congruence. Qed.

Lemma papp_assoc p q r : papp (papp p q) r = papp p (papp q r).
Proof. induction p; simpl; congruence. Qed.

Lemma ext_papp p q : ext (papp p q) = ext p + ext q.
Proof. induction p; simpl; lia. Qed.

Lemma psize_papp p q : psize (papp p q) = psize p + psize q.
Proof. induction p; simpl; lia. Qed.

Lemma layout_papp p q d : layout (papp p q) d = layout p d ++ layout q (d + ext p).
Proof.
  revert d. induction p as [|b s r k IH|s k IH|sub _ s r k IH]; intros d; simpl.
  - f_equal. lia.
  - rewrite IH, (assoc_L (++)). do 2 f_equal. lia.
  - rewrite IH. do 2 f_equal. lia.
  - rewrite IH, (assoc_L (++)). do 2 f_equal. lia.
Qed.

Lemma nonneg_papp p q : nonneg (papp p q) ↔ nonneg p ∧ nonneg q.
Proof. induction p; simpl; naive_solver. Qed.

Lemma proper_papp p q : proper (papp p q) ↔ proper p ∧ proper q.
Proof. induction p; simpl; naive_solver. Qed.

Lemma at_stride_shift f k s n d :
  (∀ x, f (x + k) = map (Z.add k) (f x)) →
  at_stride f (d + k) s n = map (Z.add k) (at_stride f d s n).
Proof.
  intros Hf. revert d. induction n as [|n IH]; intros d; simpl; [done|].
  rewrite map_app, Hf, <- IH. do 2 f_equal. lia.
Qed.

(** The layout is position independent. *)
Lemma layout_shift p k d : layout p (d + k) = map (Z.add k) (layout p d).
Proof.
  revert d. induction p as [|b s r q IH|s q IH|sub IHs s r q IH]; intros d; simpl.
  - done.
  - rewrite map_app, <- IH. f_equal; [|f_equal; lia].
    apply at_stride_shift. intros. apply seqZ_shift.
  - rewrite <- IH. f_equal. lia.
  - rewrite map_app, <- IH. f_equal; [|f_equal; lia].
    apply at_stride_shift. intros. apply IHs.
Qed.

Lemma length_layout p d : nonneg p → length (layout p d) = Z.to_nat (psize p).
Proof.
  revert d. induction p as [|b s r q IH|s q IH|sub IHs s r q IH]; intros d Hp; simpl in *.
  - done.
  - destruct Hp as (?&?&Hq). rewrite length_app, IH by done.
    rewrite (length_at_stride _ (Z.to_nat b)) by (intros; apply length_seqZ).
    pose proof (psize_nonneg q Hq). rewrite Z2Nat.inj_add, Z2Nat.inj_mul by nia. lia.
  - auto.
  - destruct Hp as (Hs&?&Hq). rewrite length_app, IH by done.
    rewrite (length_at_stride _ (Z.to_nat (psize sub))) by (intros; by apply IHs).
    pose proof (psize_nonneg q Hq). pose proof (psize_nonneg sub Hs).
    rewrite Z2Nat.inj_add, Z2Nat.inj_mul by nia. lia.
Qed.

Lemma map_w64_add k l : map w64 (map (Z.add k) l) = map (λ x, w64 (k + x)) (map w64 l).
Proof.
  rewrite !map_map. apply map_ext. intros a. by rewrite w64_add_r.
Qed.

Lemma disps_shift p k d : disps p (d + k) = map (λ x, w64 (k + x)) (disps p d).
Proof. unfold disps. by rewrite layout_shift, map_w64_add. Qed.

Lemma map_w64_proper a b l : a ≡₆₄ b → map (λ x, w64 (a + x)) l = map (λ x, w64 (b + x)) l.
Proof. intros Hab. apply map_ext. intros. by rewrite Hab. Qed.

#[export] Instance disps_proper : Proper (eq ==> eq64 ==> eq) disps.
Proof.
  intros p ? <- a b Hab.
  replace a with (0 + a) by lia. replace b with (0 + b) by lia.
  rewrite !disps_shift. by apply map_w64_proper.
Qed.

Lemma disps_papp p q d : disps (papp p q) d = disps p d ++ disps q (d + ext p).
Proof. unfold disps. by rewrite layout_papp, map_app. Qed.

Lemma at_stride_w64 (f g : Z → list Z) s t d e n :
  (∀ x y, x ≡₆₄ y → map w64 (f x) = map w64 (g y)) → s ≡₆₄ t → d ≡₆₄ e →
  map w64 (at_stride f d s n) = map w64 (at_stride g e t n).
Proof.
  intros Hfg Hst. revert d e. induction n as [|n IH]; intros d e Hde; simpl; [done|].
  rewrite !map_app, (Hfg d e) by done. f_equal. apply IH. by rewrite Hst, Hde.
Qed.

Lemma seqZ_w64 x y b : x ≡₆₄ y → map w64 (seqZ x b) = map w64 (seqZ y b).
Proof.
  intros Hxy. replace x with (0 + x) by lia. replace y with (0 + y) by lia.
  rewrite !seqZ_shift, !map_w64_add. by apply map_w64_proper.
Qed.

Lemma layout_w64 p x y : x ≡₆₄ y → map w64 (layout p x) = map w64 (layout p y).
Proof. intros Hxy. change (disps p x = disps p y). by rewrite Hxy. Qed.

(** * Equivalence of programs *)

(** Same data size, same extent modulo [2^64], same displacements: the
    contract the optimisations of the builder keep. *)
Record prog_eq (p q : prog) : Prop := {
  prog_eq_size : psize p = psize q;
  prog_eq_ext : ext p ≡₆₄ ext q;
  prog_eq_disps : ∀ d, disps p d = disps q d
}.
Infix "≃ₚ" := prog_eq (at level 70).

#[export] Instance prog_eq_equivalence : Equivalence prog_eq.
Proof.
  split.
  - split; done.
  - intros p q []; split; intros; by symmetry.
  - intros p q r [] []; split; intros; etrans; eauto.
Qed.

#[export] Instance papp_eq_proper : Proper (prog_eq ==> prog_eq ==> prog_eq) papp.
Proof.
  intros p p' [Hs He Hd] q q' [Hs' He' Hd']. split.
  - rewrite !psize_papp. congruence.
  - by rewrite !ext_papp, He, He'.
  - intros d. by rewrite !disps_papp, Hd, Hd', He.
Qed.

#[export] Instance PCopy_eq_proper b :
  Proper (eq64 ==> eq ==> prog_eq ==> prog_eq) (PCopy b).
Proof.
  intros s s' Hs r ? <- k k' [Hk He Hd]. split; simpl.
  - lia.
  - by rewrite Hs, He.
  - intros d. unfold disps; simpl. rewrite !map_app. f_equal.
    + apply at_stride_w64; [|done..]. intros x y Hxy. by apply seqZ_w64.
    + change (disps k (d + s * r) = disps k' (d + s' * r)). by rewrite Hd, Hs.
Qed.

#[export] Instance PShift_eq_proper : Proper (eq64 ==> prog_eq ==> prog_eq) PShift.
Proof.
  intros s s' Hs k k' [Hk He Hd]. split; simpl; [done|by rewrite Hs, He|].
  intros d. change (disps k (d + s) = disps k' (d + s')). by rewrite Hd, Hs.
Qed.

#[export] Instance PCall_eq_proper :
  Proper (prog_eq ==> eq64 ==> eq ==> prog_eq ==> prog_eq) PCall.
Proof.
  intros p p' [Hp Hpe Hpd] s s' Hs r ? <- k k' [Hk He Hd]. split; simpl.
  - congruence.
  - by rewrite Hs, He.
  - intros d. unfold disps; simpl. rewrite !map_app. f_equal.
    + apply at_stride_w64; [|done..]. intros x y Hxy.
      change (disps p x = disps p' y). by rewrite Hpd, Hxy.
    + change (disps k (d + s * r) = disps k' (d + s' * r)). by rewrite Hd, Hs.
Qed.

(** Programs with equal sizes, extents and layouts are equivalent. *)
Lemma prog_eq_layout p q :
  psize p = psize q → ext p = ext q → (∀ d, layout p d = layout q d) → p ≃ₚ q.
Proof.
  intros Hs He Hl. split; [done|by rewrite He|].
  intros d. unfold disps. by rewrite Hl.
Qed.

Ltac layout_eq :=
  apply prog_eq_layout; simpl; [try lia; try nia | try lia; try nia |];
  let d := fresh "d" in intros d.

Lemma at_stride_copy_flat b s n m d :
  at_stride (λ x, at_stride (λ y, seqZ y b) x s n) d (s * Z.of_nat n) m =
  at_stride (λ y, seqZ y b) d s (n * m).
Proof.
  revert d. induction m as [|m IH]; intros d; simpl.
  - by rewrite Nat.mul_0_r.
  - rewrite IH, Nat.mul_succ_r, Nat.add_comm, at_stride_add. done.
Qed.

Lemma at_stride_contig b n d :
  0 ≤ b → at_stride (λ y, seqZ y b) d b n = seqZ d (b * Z.of_nat n).
Proof.
  intros Hb. revert d. induction n as [|n IH]; intros d; simpl.
  - by rewrite Z.mul_0_r.
  - rewrite IH, <- seqZ_app_add by lia. f_equal. lia.
Qed.

(** ** The rewrite rules of the builder *)

Lemma PCopy_zero_bytes s r k : 0 ≤ r → PCopy 0 s r k ≃ₚ PShift (s * r) k.
Proof.
  intros Hr. layout_eq.
  replace (at_stride _ _ _ _) with (@nil Z); [done|].
  generalize (Z.to_nat r) as n. intros n. revert d. induction n; intros; simpl; auto.
Qed.

Lemma PCopy_contig b r k : 0 ≤ b → 0 ≤ r → PCopy b b r k ≃ₚ PCopy (b * r) (b * r) 1 k.
Proof.
  intros Hb Hr. layout_eq. rewrite at_stride_contig by done. simpl.
  rewrite app_nil_r. f_equal; do 2 f_equal; lia.
Qed.

Lemma PCopy_join b1 b2 s k : 0 ≤ b1 → 0 ≤ b2 →
  PCopy b1 b1 1 (PCopy b2 s 1 k) ≃ₚ PCopy (b1 + b2) (b1 + s) 1 k.
Proof.
  intros H1 H2. layout_eq. rewrite !app_nil_r, Z.mul_1_r, (assoc_L (++)).
  rewrite <- seqZ_app_add by done. f_equal; f_equal; lia.
Qed.

Lemma PCopy_reps b s r1 r2 k : 0 ≤ r1 → 0 ≤ r2 →
  PCopy b s r1 (PCopy b s r2 k) ≃ₚ PCopy b s (r1 + r2) k.
Proof.
  intros H1 H2. layout_eq. rewrite Z2Nat.inj_add, at_stride_add, (assoc_L (++)) by done.
  rewrite Z2Nat.id by done. do 2 f_equal; lia.
Qed.

Lemma PShift_shift a c k : PShift a (PShift c k) ≃ₚ PShift (a + c) k.
Proof. layout_eq. f_equal. lia. Qed.

Lemma PCopy_shift b s c k : PCopy b s 1 (PShift c k) ≃ₚ PCopy b (s + c) 1 k.
Proof. layout_eq. do 2 f_equal; lia. Qed.

Lemma PShift_zero k : PShift 0 k ≃ₚ k.
Proof. layout_eq. f_equal. lia. Qed.

Lemma PCopy_zero_reps b s k : PCopy b s 0 k ≃ₚ k.
Proof. layout_eq. f_equal. lia. Qed.

Lemma PCall_zero_reps p s k : PCall p s 0 k ≃ₚ k.
Proof. layout_eq. f_equal. lia. Qed.

Lemma PCall_copy_one b s2 s r k : 0 ≤ r → PCall (PCopy b s2 1 PEnd) s r k ≃ₚ PCopy b s r k.
Proof.
  intros Hr. layout_eq. f_equal. apply at_stride_ext. intros. by rewrite !app_nil_r.
Qed.

Lemma PCall_copy_extent b s2 r2 r k : 0 ≤ r → 0 ≤ r2 →
  PCall (PCopy b s2 r2 PEnd) (s2 * r2) r k ≃ₚ PCopy b s2 (r2 * r) k.
Proof.
  intros Hr Hr2. layout_eq. f_equal; [|f_equal; lia].
  rewrite Z2Nat.inj_mul, <- at_stride_copy_flat, Z2Nat.id by done.
  apply at_stride_ext. intros. by rewrite app_nil_r.
Qed.

Lemma PCall_reps p s r1 r2 k : 0 ≤ r1 → 0 ≤ r2 →
  PCall p s r1 (PCall p s r2 k) ≃ₚ PCall p s (r1 + r2) k.
Proof.
  intros H1 H2. layout_eq. rewrite Z2Nat.inj_add, at_stride_add, (assoc_L (++)) by done.
  rewrite Z2Nat.id by done. do 2 f_equal; lia.
Qed.

(** A program without data lays nothing out. *)
Lemma layout_empty p d : nonneg p → psize p = 0 → layout p d = [].
Proof. intros Hp Hs. apply length_zero_iff_nil. rewrite length_layout by done. lia. Qed.

Lemma at_stride_nil {A} (f : Z → list A) s n d : (∀ x, f x = []) → at_stride f d s n = [].
Proof. intros Hf. revert d. induction n; intros; simpl; [done|]. by rewrite Hf, IHn. Qed.

(** The repetitions of a call may wrap around: they can only do so when the
    sub-type has no data, and then they only move the displacement. *)
Lemma PCall_wrap_reps p s r k : nonneg p → 0 ≤ r → psize p * r < 2 ^ 64 →
  PCall p s (w64 r) k ≃ₚ PCall p s r k.
Proof.
  intros Hp Hr Hsz. pose proof (psize_nonneg p Hp).
  destruct (decide (psize p = 0)) as [H0|H0].
  - split; simpl.
    + by rewrite H0.
    + by rewrite w64_eq64.
    + intros d. unfold disps. simpl. rewrite !at_stride_nil by auto using layout_empty.
      simpl. apply layout_w64. by rewrite w64_eq64.
  - rewrite w64_small by nia. done.
Qed.
