(* ===== verification/Memory.v ===== *)
(** Byte-addressed memory: the address space the type machine and the copy
    functions act on.  Addresses are [Z] in [0, 2^64); a byte is a [Z] in
    [0, 256). *)
From S2P Require Import Prelude.

Notation mem := (Z → Z).

(** The [n] bytes at [from] moved to [to]: all are read before any is written. *)
Definition move (to from n : Z) (m : mem) : mem :=
  λ a, if (to <=? a) && (a <? to + n) then m (from + (a - to)) else m a.

(** Two blocks of [n] bytes do not overlap. *)
Definition disjoint_blocks (a b n : Z) : bool :=
  (n =? 0) || (a + n <=? b) || (b + n <=? a).

Definition in_memory (a n : Z) : bool := (0 <=? a) && (a + n <=? 2 ^ 64).

(** C's [memcpy]: undefined on overlapping blocks. *)
Definition memcpy (to from n : Z) (m : mem) : res mem :=
  defined (in_memory to n && in_memory from n && disjoint_blocks to from n);;
  mret (move to from n m).

(** A load and a store of a scalar of [n] bytes. *)
Definition copy_scalar (to from n : Z) (m : mem) : res mem :=
  defined (in_memory to n && in_memory from n);;
  mret (move to from n m).

(** The bytes of a scalar as a number, in the byte order of the machine. *)
Section endian.
Context (big : bool).

Fixpoint le_combine (l : list Z) : Z :=
  match l with [] => 0 | b :: l => b + 256 * le_combine l end.

Fixpoint le_split (n : nat) (z : Z) : list Z :=
  match n with O => [] | S n => z `mod` 256 :: le_split n (z / 256) end.

Definition bytes_at (a : Z) (n : nat) (m : mem) : list Z :=
  map (λ i, m (a + Z.of_nat i)) (seq 0 n).

Definition load (a : Z) (n : nat) (m : mem) : Z :=
  le_combine (let l := bytes_at a n m in if big then reverse l else l).

Definition store (a : Z) (n : nat) (z : Z) (m : mem) : mem :=
  let l := (let l := le_split n z in if big then reverse l else l) in
  λ x, if (a <=? x) && (x <? a + Z.of_nat n) then nth (Z.to_nat (x - a)) l 0 else m x.

End endian.

(** The [n] bytes at [a]. *)
Definition read_bytes (a n : Z) (s : mem) : list Z := map (λ i, s (a + i)) (seqZ 0 n).

(** * Facts *)

Lemma read_bytes_length a n s : 0 ≤ n → Z.of_nat (length (read_bytes a n s)) = n.
Proof. intros Hn. unfold read_bytes. rewrite length_map, length_seqZ. lia. Qed.

Lemma read_bytes_lookup a n s i : 0 ≤ i < n → read_bytes a n s !! Z.to_nat i = Some (s (a + i)).
Proof.
  intros Hi. unfold read_bytes. rewrite list_lookup_fmap, lookup_seqZ_lt by lia. cbn.
  do 2 f_equal. lia.
Qed.

Lemma read_bytes_app a n1 n2 s : 0 ≤ n1 → 0 ≤ n2 →
  read_bytes a (n1 + n2) s = read_bytes a n1 s ++ read_bytes (a + n1) n2 s.
Proof.
  intros H1 H2. unfold read_bytes. rewrite seqZ_app, map_app by done. f_equal.
  rewrite Z.add_0_l. replace (seqZ n1 n2) with (map (Z.add n1) (seqZ 0 n2)).
  - rewrite map_map. apply map_ext. intros. f_equal. lia.
  - by rewrite <- seqZ_shift, Z.add_0_l.
Qed.

Lemma read_bytes_ext a b n s s' : (∀ i, 0 ≤ i < n → s (a + i) = s' (b + i)) →
  read_bytes a n s = read_bytes b n s'.
Proof.
  intros Hs. unfold read_bytes. apply map_ext_in. intros i Hi%list_elem_of_In%elem_of_seqZ. apply Hs. lia.
Qed.

Lemma move_in to from n m a : to ≤ a < to + n → move to from n m a = m (from + (a - to)).
Proof.
  intros H. unfold move.
  by rewrite (proj2 (Z.leb_le _ _)), (proj2 (Z.ltb_lt _ _)) by lia.
Qed.

Lemma move_out to from n m a : a < to ∨ to + n ≤ a → move to from n m a = m a.
Proof.
  intros H. unfold move. destruct (Z.leb_spec to a), (Z.ltb_spec a (to + n)); try done; lia.
Qed.

Lemma disjoint_blocks_spec a b n : 0 ≤ n →
  disjoint_blocks a b n = true ↔ n = 0 ∨ a + n ≤ b ∨ b + n ≤ a.
Proof. intros. unfold disjoint_blocks. rewrite !orb_true_iff, Z.eqb_eq, !Z.leb_le. lia. Qed.

Lemma in_memory_spec a n : in_memory a n = true ↔ 0 ≤ a ∧ a + n ≤ 2 ^ 64.
Proof. unfold in_memory. by rewrite andb_true_iff, !Z.leb_le. Qed.

Lemma memcpy_Ok to from n m : 0 ≤ n → 0 ≤ to → to + n ≤ 2 ^ 64 → 0 ≤ from →
  from + n ≤ 2 ^ 64 → (n = 0 ∨ to + n ≤ from ∨ from + n ≤ to) →
  memcpy to from n m = Ok (move to from n m).
Proof.
  intros. unfold memcpy. rewrite (proj2 (in_memory_spec to n)), (proj2 (in_memory_spec from n)),
    (proj2 (disjoint_blocks_spec to from n ltac:(done))); auto.
Qed.

Lemma copy_scalar_Ok to from n m : 0 ≤ to → to + n ≤ 2 ^ 64 → 0 ≤ from →
  from + n ≤ 2 ^ 64 → copy_scalar to from n m = Ok (move to from n m).
Proof.
  intros. unfold copy_scalar.
  by rewrite (proj2 (in_memory_spec to n)), (proj2 (in_memory_spec from n)).
Qed.

Lemma length_le_split n z : length (le_split n z) = n.
Proof. revert z. induction n; intros; simpl; auto. Qed.

Lemma le_combine_split n z : 0 ≤ z < 256 ^ Z.of_nat n → le_combine (le_split n z) = z.
Proof.
  revert z. induction n as [|n IH]; intros z Hz; [simpl in *; lia|].
  rewrite Nat2Z.inj_succ, Z.pow_succ_r in Hz by lia. cbn [le_split le_combine].
  rewrite IH.
  - pose proof (Z.div_mod z 256 ltac:(lia)). lia.
  - split; [apply Z.div_pos; lia|apply Z.div_lt_upper_bound; lia].
Qed.

Lemma bytes_at_store big a n z m :
  bytes_at a n (store big a n z m) = (let l := le_split n z in if big then reverse l else l).
Proof.
  apply list_eq_same_length with n.
  - destruct big; by rewrite ?length_reverse, length_le_split.
  - unfold bytes_at. by rewrite length_map, length_seq.
  - intros i x y Hi Hx Hy. unfold bytes_at in Hx.
    rewrite list_lookup_fmap, lookup_seq_lt in Hx by done. cbn in Hx. injection Hx as <-.
    unfold store. rewrite (proj2 (Z.leb_le _ _)), (proj2 (Z.ltb_lt _ _)) by lia. cbn [andb].
    replace (Z.to_nat (a + Z.of_nat i - a)) with i by lia.
    apply nth_lookup_Some with (d := 0) in Hy. done.
Qed.

(** A scalar stored is the scalar loaded. *)
Lemma load_store big a n z m : 0 ≤ z < 256 ^ Z.of_nat n → load big a n (store big a n z m) = z.
Proof.
  intros Hz. unfold load. rewrite bytes_at_store.
  destruct big; rewrite ?reverse_involutive; by apply le_combine_split.
Qed.

Lemma store_out big a n z m x : x < a ∨ a + Z.of_nat n ≤ x → store big a n z m x = m x.
Proof.
  intros H. unfold store. destruct (Z.leb_spec a x), (Z.ltb_spec x (a + Z.of_nat n)); done || lia.
Qed.

Lemma load_ext big a n m m' :
  (∀ x, a ≤ x < a + Z.of_nat n → m x = m' x) → load big a n m = load big a n m'.
Proof.
  intros H. unfold load. replace (bytes_at a n m') with (bytes_at a n m); [done|].
  unfold bytes_at. apply map_ext_in. intros i Hi%in_seq. apply H. lia.
Qed.
