(* ===== verification/TypeCode.v ===== *)
(** The builder of data types, src/common/type/TypeCode.h and
    src/common/type/ReferenceCount.h: the instruction set, the code buffer, the
    peephole optimisations of [AddShift], [AddSimple] and [AddTyped], and
    [Complete], which links the sub-types' code and computes the properties
    kept in the [Begin] header. *)
From S2P Require Import Prelude.

(** * Data *)

(** [TypeCode::Opcode] and the integers the C++ enumeration gives them. *)
Inductive Opcode := BEGIN | COPY | CALL | SHIFT | END.

#[export] Instance Opcode_eq_dec : EqDecision Opcode.
Proof. solve_decision. Defined.

Definition opcode_val (o : Opcode) : Z :=
  match o with BEGIN => 0 | COPY => 1 | CALL => 2 | SHIFT => 3 | END => 4 end.

(** [TypeCode::primitive_type_t]. *)
Inductive primitive_type_t :=
| PRIMITIVE_TYPE_BYTE
| PRIMITIVE_TYPE_SIGNED_CHAR | PRIMITIVE_TYPE_SIGNED_SHORT
| PRIMITIVE_TYPE_SIGNED_INT | PRIMITIVE_TYPE_SIGNED_LONG
| PRIMITIVE_TYPE_SIGNED_LONG_LONG
| PRIMITIVE_TYPE_UNSIGNED_CHAR | PRIMITIVE_TYPE_UNSIGNED_SHORT
| PRIMITIVE_TYPE_UNSIGNED_INT | PRIMITIVE_TYPE_UNSIGNED_LONG
| PRIMITIVE_TYPE_UNSIGNED_LONG_LONG
| PRIMITIVE_TYPE_FLOAT | PRIMITIVE_TYPE_DOUBLE | PRIMITIVE_TYPE_LONG_DOUBLE
| PRIMITIVE_TYPE_LOGICAL1 | PRIMITIVE_TYPE_LOGICAL2
| PRIMITIVE_TYPE_LOGICAL4 | PRIMITIVE_TYPE_LOGICAL8
| PRIMITIVE_TYPE_SINGLE_COMPLEX | PRIMITIVE_TYPE_DOUBLE_COMPLEX
| PRIMITIVE_TYPE_LOC_2INT | PRIMITIVE_TYPE_LOC_2FLOAT
| PRIMITIVE_TYPE_LOC_2DOUBLE | PRIMITIVE_TYPE_LOC_SHORT_INT
| PRIMITIVE_TYPE_LOC_FLOAT_INT | PRIMITIVE_TYPE_LOC_DOUBLE_INT
| PRIMITIVE_TYPE_LOC_LONG_INT | PRIMITIVE_TYPE_LOC_LONGDOUBLE_INT
| PRIMITIVE_TYPE_COUNT
| PRIMITIVE_TYPE_UNDEFINED.

#[export] Instance primitive_type_eq_dec : EqDecision primitive_type_t.
Proof. solve_decision. Defined.

(** [struct Begin]: the header of the code.  [primitive] is a 6-bit field; the
    30 enumerators fit, so it is kept as the enumeration. *)
Record BeginHdr := mkBegin {
  b_contiguous : bool; b_simple : bool; b_primitive : primitive_type_t;
  b_depth : Z; b_code_size : Z; b_data_size : Z; b_extent : Z;
  b_num_blocks : Z; b_unit : Z; b_atom_size : Z
}.

(** The instructions.  The [sub_type] of a [Call] is the address of the sub-type
    before [Complete] and the distance in bytes to the sub-type's code after. *)
Inductive Op :=
| Begin (b : BeginHdr)
| Copy (bytes stride reps : Z)
| Call (sub_type stride reps : Z)
| Shift (shift : Z)
| End.

Definition opcode (o : Op) : Opcode :=
  match o with
  | Begin _ => BEGIN | Copy _ _ _ => COPY | Call _ _ _ => CALL
  | Shift _ => SHIFT | End => END
  end.

(** [sizeof] the structures, on the LP64 targets ([Op] is two 4-byte enums). *)
Definition op_size (o : Opcode) : Z :=
  match o with BEGIN => 64 | COPY => 32 | CALL => 32 | SHIFT => 16 | END => 8 end.

Definition sizeof_Begin := 64.
Definition sizeof_Op := 8.

(** An instruction in the buffer, with the [prev_opcode] word stored in it. *)
Record Slot := mkSlot { s_op : Op; s_prev : Z }.

(** A [TypeCode] object.  The buffer holds [tc_begin], then [tc_body], up to
    [code_cursor]; [tc_top_prev] is the [prev_opcode] word of the instruction
    slot at [code_cursor]; [ref_cnt] is the base class' counter. *)
Record TypeCode := mkTypeCode {
  tc_begin : BeginHdr; tc_body : list Slot; tc_top_prev : Z;
  code_buf_size : Z; prev_cursor : Z; code_cursor : Z;
  completed : bool; ref_cnt : Z
}.

(** The bytes of a completed type's buffer: the header, then the instructions.
    (The [prev_opcode] of the header is never set nor read.) *)
Definition type_code (t : TypeCode) : list Slot :=
  mkSlot (Begin (tc_begin t)) 0 :: tc_body t.

(** [(Op * )(code + pc)]: the instruction that starts at byte [pc]; reading in
    the middle of one, or past the end, is undefined. *)
Fixpoint op_at (C : list Slot) (pc : Z) : option Slot :=
  match C with
  | [] => None
  | s :: C =>
      if pc =? 0 then Some s
      else let n := op_size (opcode (s_op s)) in
           if pc <? n then None else op_at C (pc - n)
  end.

(** The objects the program allocated, by address. *)
Notation heap := (gmap Z TypeCode).

(** * The header and its updates *)

Definition set_begin (b : BeginHdr) (t : TypeCode) : TypeCode :=
  mkTypeCode b (tc_body t) (tc_top_prev t) (code_buf_size t) (prev_cursor t)
    (code_cursor t) (completed t) (ref_cnt t).

(** [Begin::Begin()]; [primitive] is set right after by [TypeCode()]. *)
Definition Begin_init : BeginHdr :=
  mkBegin true true PRIMITIVE_TYPE_BYTE 1 0 0 0 0 0 0.

Definition GetCodeSize (t : TypeCode) : Z := b_code_size (tc_begin t).
Definition GetDataSize (t : TypeCode) : Z := b_data_size (tc_begin t).
Definition GetExtent (t : TypeCode) : Z := b_extent (tc_begin t).
Definition GetDepth (t : TypeCode) : Z := b_depth (tc_begin t).
Definition GetNumBlocks (t : TypeCode) : Z := b_num_blocks (tc_begin t).
Definition GetUnit (t : TypeCode) : Z := b_unit (tc_begin t).
Definition GetAtomSize (t : TypeCode) : Z := b_atom_size (tc_begin t).
Definition GetPrimitive (t : TypeCode) : primitive_type_t := b_primitive (tc_begin t).
Definition IsCompleted (t : TypeCode) : bool := completed t.
Definition IsSimple (t : TypeCode) : bool := b_simple (tc_begin t).
Definition IsContiguous (t : TypeCode) : bool := b_contiguous (tc_begin t).

Definition IsPrimitive (t : TypeCode) : bool :=
  bool_decide (GetPrimitive t ≠ PRIMITIVE_TYPE_COUNT ∧
               GetPrimitive t ≠ PRIMITIVE_TYPE_UNDEFINED).

(** [SetAtomSize]: the modulo is undefined for an atom size of zero. *)
Definition SetAtomSize (atom : Z) (t : TypeCode) : res TypeCode :=
  defined (negb (atom =? 0));;
  assert (GetUnit t `mod` atom =? 0);;
  let b := tc_begin t in
  mret (set_begin (mkBegin (b_contiguous b) (b_simple b) (b_primitive b) (b_depth b)
    (b_code_size b) (b_data_size b) (b_extent b) (b_num_blocks b) (b_unit b) atom) t).

Definition SetSimple (v : bool) (t : TypeCode) : TypeCode :=
  let b := tc_begin t in
  set_begin (mkBegin (b_contiguous b) v (b_primitive b) (b_depth b) (b_code_size b)
    (b_data_size b) (b_extent b) (b_num_blocks b) (b_unit b) (b_atom_size b)) t.

Definition SetPrimitive (v : primitive_type_t) (t : TypeCode) : TypeCode :=
  let b := tc_begin t in
  set_begin (mkBegin (b_contiguous b) (b_simple b) v (b_depth b) (b_code_size b)
    (b_data_size b) (b_extent b) (b_num_blocks b) (b_unit b) (b_atom_size b)) t.

Definition SetContiguous (v : bool) (t : TypeCode) : TypeCode :=
  let b := tc_begin t in
  set_begin (mkBegin v (b_simple b) (b_primitive b) (b_depth b) (b_code_size b)
    (b_data_size b) (b_extent b) (b_num_blocks b) (b_unit b) (b_atom_size b)) t.

Definition AddCodeSize (n : Z) (t : TypeCode) : TypeCode :=
  let b := tc_begin t in
  set_begin (mkBegin (b_contiguous b) (b_simple b) (b_primitive b) (b_depth b)
    (w64 (b_code_size b + n)) (b_data_size b) (b_extent b) (b_num_blocks b)
    (b_unit b) (b_atom_size b)) t.

Definition AddDataSize (n : Z) (t : TypeCode) : TypeCode :=
  let b := tc_begin t in
  set_begin (mkBegin (b_contiguous b) (b_simple b) (b_primitive b) (b_depth b)
    (b_code_size b) (w64 (b_data_size b + n)) (b_extent b) (b_num_blocks b)
    (b_unit b) (b_atom_size b)) t.

Definition AddExtent (n : Z) (t : TypeCode) : TypeCode :=
  let b := tc_begin t in
  set_begin (mkBegin (b_contiguous b) (b_simple b) (b_primitive b) (b_depth b)
    (b_code_size b) (b_data_size b) (w64 (b_extent b + n)) (b_num_blocks b)
    (b_unit b) (b_atom_size b)) t.

Definition AddNumBlocks (n : Z) (t : TypeCode) : TypeCode :=
  let b := tc_begin t in
  set_begin (mkBegin (b_contiguous b) (b_simple b) (b_primitive b) (b_depth b)
    (b_code_size b) (b_data_size b) (b_extent b) (w64 (b_num_blocks b + n))
    (b_unit b) (b_atom_size b)) t.

(** The argument of [UpdateDepth] is an [unsigned int]. *)
Definition UpdateDepth (call_depth : Z) (t : TypeCode) : TypeCode :=
  let b := tc_begin t in
  let d := w32 call_depth in
  if b_depth b <? d then
    set_begin (mkBegin (b_contiguous b) (b_simple b) (b_primitive b) d
      (b_code_size b) (b_data_size b) (b_extent b) (b_num_blocks b) (b_unit b)
      (b_atom_size b)) t
  else t.

(** [Math::GCD] (src/arch/MathInterface.h): Euclid's loop; [fuel] bounds its
    iterations. *)
Fixpoint GCD (fuel : nat) (a b : Z) : res Z :=
  match fuel with
  | O => Err NoFuel
  | S fuel => if b =? 0 then mret a else GCD fuel b (a `mod` b)
  end.

(** Each two iterations halve [b]: 130 iterations are enough for 64-bit
    arguments (theorem [GCD_gcd]). *)
Definition gcd_fuel : nat := 130.

Definition UpdateUnit (new_unit : Z) (t : TypeCode) : res TypeCode :=
  let b := tc_begin t in
  u ← (if b_unit b =? 0 then mret new_unit else GCD gcd_fuel (b_unit b) new_unit);
  mret (set_begin (mkBegin (b_contiguous b) (b_simple b) (b_primitive b) (b_depth b)
    (b_code_size b) (b_data_size b) (b_extent b) (b_num_blocks b) u (b_atom_size b)) t).

(** * The code buffer *)

Section builder.

(** Fresh memory is not initialised: [junk n] is the word found where
    [ResizeCodeBuffer] leaves the [prev_opcode] of the slot at the cursor after
    it allocated [n] bytes (only [code_cursor] bytes are copied). *)
Context (junk : Z → Z).

Definition ResizeCodeBuffer (new_size : Z) (t : TypeCode) : TypeCode :=
  if new_size <=? code_buf_size t then t
  else mkTypeCode (tc_begin t) (tc_body t) (junk new_size) new_size
         (prev_cursor t) (code_cursor t) (completed t) (ref_cnt t).

Definition CheckCodeBuffer (inc_code_size : Z) (t : TypeCode) : TypeCode :=
  if code_buf_size t <? w64 (code_cursor t + inc_code_size)
  then ResizeCodeBuffer (w64 (code_buf_size t * 2)) t
  else t.

(** [Push]: the new instruction keeps the [prev_opcode] of its slot, and its
    opcode is written into the next slot.  Both writes must stay in the
    buffer. *)
Definition Push (op : Op) (t : TypeCode) : res TypeCode :=
  let size := op_size (opcode op) in
  let t := CheckCodeBuffer (size + sizeof_Op) t in
  defined (code_cursor t + size + sizeof_Op <=? code_buf_size t);;
  let t := match op with
           | Begin b => set_begin b t
           | _ => mkTypeCode (tc_begin t) (tc_body t ++ [mkSlot op (tc_top_prev t)])
                    (tc_top_prev t) (code_buf_size t) (prev_cursor t)
                    (code_cursor t) (completed t) (ref_cnt t)
           end in
  mret (AddCodeSize size
    (mkTypeCode (tc_begin t) (tc_body t) (opcode_val (opcode op)) (code_buf_size t)
       (prev_cursor t) (w64 (code_cursor t + size)) (completed t) (ref_cnt t))).

(** [Top]: the last instruction, if the slot at the cursor says it has the
    opcode asked for.  The instruction is read at the type asked for: when the
    bytes before the cursor hold another one, what is read is meaningless. *)
Definition Top (want : Opcode) (t : TypeCode) : res (option Op) :=
  defined (code_cursor t + sizeof_Op <=? code_buf_size t);;
  if tc_top_prev t =? opcode_val want then
    match last (tc_body t) with
    | Some s => defined (bool_decide (opcode (s_op s) = want));; mret (Some (s_op s))
    | None => Err Fault
    end
  else mret None.

(** [Pop]: [op_size] is indexed with the [prev_opcode] at the cursor. *)
Definition Pop (t : TypeCode) : res TypeCode :=
  assert (0 <? code_cursor t);;
  defined (code_cursor t + sizeof_Op <=? code_buf_size t);;
  match last (tc_body t) with
  | Some s =>
      defined (tc_top_prev t =? opcode_val (opcode (s_op s)));;
      let size := op_size (opcode (s_op s)) in
      mret (AddCodeSize (0 - size)
        (mkTypeCode (tc_begin t) (removelast (tc_body t)) (s_prev s)
           (code_buf_size t) (prev_cursor t) (w64 (code_cursor t - size))
           (completed t) (ref_cnt t)))
  | None => Err Fault
  end.

(** [TypeCode::TypeCode()], on a block whose [prev_opcode] word is [junk]. *)
Definition TypeCode_new : res TypeCode :=
  let t := mkTypeCode Begin_init [] 0 0 0 0 false 0 in
  let t := ResizeCodeBuffer (sizeof_Begin + op_size COPY * 4) t in
  t ← Push (Begin Begin_init) t;
  mret (SetPrimitive PRIMITIVE_TYPE_UNDEFINED t).

(** * Adding instructions *)

(** [AddShift] and [AddSimpleInternal] call each other; [fuel] bounds the
    calls ([fuel_for] is enough, theorem [add_shift_total]). *)
Fixpoint AddShift_ (fuel : nat) (t : TypeCode) (shift : Z) {struct fuel} : res TypeCode :=
  match fuel with
  | O => Err NoFuel
  | S fuel =>
    assert (negb (IsCompleted t));;
    if shift =? 0 then mret t else
    prev_shift ← Top SHIFT t;
    match prev_shift with
    | Some (Shift prev) =>
        t ← Pop t;
        AddShift_ fuel t (w64 (prev + shift))
    | _ =>
      prev_copy ← Top COPY t;
      match prev_copy with
      | Some (Copy bytes stride reps) =>
          if reps =? 1 then
            t ← Pop t;
            AddSimpleInternal_ fuel t bytes (w64 (stride + shift)) 1
          else Push (Shift shift) t
      | _ => Push (Shift shift) t
      end
    end
  end
with AddSimpleInternal_ (fuel : nat) (t : TypeCode) (bytes stride reps : Z)
    {struct fuel} : res TypeCode :=
  match fuel with
  | O => Err NoFuel
  | S fuel =>
    if reps =? 0 then mret t else
    if bytes =? 0 then AddShift_ fuel t (w64 (stride * reps)) else
    if (bytes =? stride) && (1 <? reps) then
      AddSimpleInternal_ fuel t (w64 (bytes * reps)) (w64 (stride * reps)) 1
    else
    prev_copy ← Top COPY t;
    match prev_copy with
    | Some (Copy pbytes pstride preps) =>
        if (pbytes =? pstride) && (reps =? 1) then
          t ← Pop t;
          AddSimpleInternal_ fuel t (w64 (pbytes + bytes)) (w64 (pstride + stride)) 1
        else if (pbytes =? bytes) && (pstride =? stride) then
          t ← Pop t;
          AddSimpleInternal_ fuel t bytes stride (w64 (preps + reps))
        else Push (Copy bytes stride reps) t
    | _ => Push (Copy bytes stride reps) t
    end
  end.

(** At most three calls for each instruction popped. *)
Definition fuel_for (t : TypeCode) : nat := 3 * length (tc_body t) + 4.

Definition AddShift (t : TypeCode) (shift : Z) : res TypeCode :=
  AddShift_ (fuel_for t) t shift.

Definition AddSimpleInternal (t : TypeCode) (bytes stride reps : Z) : res TypeCode :=
  AddSimpleInternal_ (fuel_for t) t bytes stride reps.

Definition AddSimple (t : TypeCode) (bytes stride reps : Z) : res TypeCode :=
  assert (negb (IsCompleted t));;
  let t := if bytes =? 0 then t else SetPrimitive PRIMITIVE_TYPE_COUNT t in
  AddSimpleInternal t bytes stride reps.

(** [AddTypedInternal]: [sub] is the object [sub_type] points to. *)
Fixpoint AddTypedInternal_ (fuel : nat) (t : TypeCode) (sub_type : Z) (sub : TypeCode)
    (stride reps : Z) : res TypeCode :=
  match fuel with
  | O => Err NoFuel
  | S fuel =>
    if reps =? 0 then mret t else
    if IsContiguous sub then AddSimpleInternal t (GetDataSize sub) stride reps else
    let call :=
      prev_call ← Top CALL t;
      match prev_call with
      | Some (Call psub pstride preps) =>
          if (psub =? sub_type) && (pstride =? stride) then
            t ← Pop t;
            AddTypedInternal_ fuel t sub_type sub stride (w64 (preps + reps))
          else Push (Call sub_type stride reps) t
      | _ => Push (Call sub_type stride reps) t
      end in
    if IsSimple sub then
      match tc_body sub with
      | mkSlot (Copy sbytes sstride sreps) _ :: _ =>
          if stride =? GetExtent sub then
            AddSimpleInternal t sbytes sstride (w64 (sreps * reps))
          else if sreps =? 1 then AddSimpleInternal t sbytes stride reps
          else call
      | _ => Err AssertFail
      end
    else call
  end.

Definition AddTypedInternal (h : heap) (t : TypeCode) (sub_type stride reps : Z) : res TypeCode :=
  sub ← of_option (h !! sub_type);
  AddTypedInternal_ (fuel_for t) t sub_type sub stride reps.

Definition AddTyped (h : heap) (t : TypeCode) (sub_type stride reps : Z) : res TypeCode :=
  assert (negb (IsCompleted t));;
  sub ← of_option (h !! sub_type);
  assert (IsCompleted sub);;
  let t := if bool_decide (GetPrimitive t = PRIMITIVE_TYPE_UNDEFINED)
           then SetPrimitive (GetPrimitive sub) t else t in
  t ← AddTypedInternal h t sub_type stride reps;
  mret (if bool_decide (GetPrimitive sub = GetPrimitive t) then t
        else SetPrimitive PRIMITIVE_TYPE_COUNT t).

(** * Completing a type *)

(** Makes room for a sub-type's code, and moves the cursor over its copy. *)
Definition make_room (sub t : TypeCode) : TypeCode :=
  let t := AddCodeSize (GetCodeSize sub) t in
  ResizeCodeBuffer (GetCodeSize t) t.

Definition advance_cursor (n : Z) (t : TypeCode) : TypeCode :=
  mkTypeCode (tc_begin t) (tc_body t) (tc_top_prev t) (code_buf_size t) (prev_cursor t)
    (w64 (code_cursor t + n)) (completed t) (ref_cnt t).

(** The loop of [Complete] over the instructions from [pc], up to [END].  It
    returns the instructions of the main code (the calls relocated), the
    sub-types' code copied after them, and the object. *)
Fixpoint complete_ops (h : heap) (pc : Z) (todo : list Slot) (t : TypeCode)
    (linked : list Slot) : res (list Slot * list Slot * TypeCode) :=
  match todo with
  | [] => Err Fault
  | s :: todo =>
    match s_op s with
    | Begin _ =>
        '(done, linked, t) ← complete_ops h (pc + op_size BEGIN) todo t linked;
        mret (s :: done, linked, t)
    | Copy bytes stride reps =>
        let t := if s_prev s =? opcode_val BEGIN then t else SetSimple false t in
        let t := AddDataSize (w64 (bytes * reps)) t in
        let t := AddExtent (w64 (stride * reps)) t in
        let t := AddNumBlocks reps t in
        t ← UpdateUnit bytes t;
        '(done, linked, t) ← complete_ops h (pc + op_size COPY) todo t linked;
        mret (s :: done, linked, t)
    | Call sub_type stride reps =>
        let t := SetSimple false t in
        sub ← of_option (h !! sub_type);
        let t := make_room sub t in
        let s' := mkSlot (Call (w64 (code_cursor t - pc)) stride reps) (s_prev s) in
        defined (code_cursor t + GetCodeSize sub <=? code_buf_size t);;
        let linked := linked ++ type_code sub in
        let t := advance_cursor (GetCodeSize sub) t in
        let t := AddDataSize (w64 (GetDataSize sub * reps)) t in
        let t := AddExtent (w64 (stride * reps)) t in
        let t := UpdateDepth (GetDepth sub + 1) t in
        let t := AddNumBlocks (w64 (GetNumBlocks sub * reps)) t in
        t ← UpdateUnit (GetUnit sub) t;
        '(done, linked, t) ← complete_ops h (pc + op_size CALL) todo t linked;
        mret (s' :: done, linked, t)
    | Shift shift =>
        let t := SetSimple false t in
        let t := AddExtent shift t in
        '(done, linked, t) ← complete_ops h (pc + op_size SHIFT) todo t linked;
        mret (s :: done, linked, t)
    | End =>
        let t := if s_prev s =? opcode_val BEGIN then SetSimple false t else t in
        mret ([s], linked, t)
    end
  end.

(** The check for contiguity, on a simple type's single copy. *)
Definition complete_contiguity (t : TypeCode) : res TypeCode :=
  if negb (IsSimple t) then mret (SetContiguous false t) else
  match tc_body t with
  | mkSlot (Copy bytes stride reps) _ :: _ =>
      if bytes =? stride then assert (reps =? 1);; mret t
      else mret (SetContiguous false t)
  | _ => Err Fault
  end.

Definition Complete (h : heap) (t : TypeCode) : res TypeCode :=
  assert (negb (IsCompleted t));;
  t ← Push End t;
  assert (code_cursor t <=? GetCodeSize t);;
  '(done, linked, t) ← complete_ops h (op_size BEGIN) (tc_body t) t [];
  let t := mkTypeCode (tc_begin t) (done ++ linked) (tc_top_prev t) (code_buf_size t)
             (prev_cursor t) (code_cursor t) (completed t) (ref_cnt t) in
  t ← complete_contiguity t;
  let t := if bool_decide (GetPrimitive t = PRIMITIVE_TYPE_UNDEFINED)
           then SetPrimitive PRIMITIVE_TYPE_COUNT t else t in
  mret (mkTypeCode (tc_begin t) (tc_body t) (tc_top_prev t) (code_buf_size t)
          (prev_cursor t) (code_cursor t) true (ref_cnt t)).

(** * Predefined contiguous types *)

Definition ULONG_MAX := 2 ^ 64 - 1.

(** [sizeof] of the C type of each primitive type on the LP64 targets (the
    switch of [TypeContig(primitive_type_t)]); [None] is the [abort()]. *)
Definition primitive_atom (p : primitive_type_t) : option Z :=
  match p with
  | PRIMITIVE_TYPE_BYTE => Some 1
  | PRIMITIVE_TYPE_SIGNED_CHAR => Some 1
  | PRIMITIVE_TYPE_SIGNED_SHORT => Some 2
  | PRIMITIVE_TYPE_SIGNED_INT => Some 4
  | PRIMITIVE_TYPE_SIGNED_LONG => Some 8
  | PRIMITIVE_TYPE_SIGNED_LONG_LONG => Some 8
  | PRIMITIVE_TYPE_UNSIGNED_CHAR => Some 1
  | PRIMITIVE_TYPE_UNSIGNED_SHORT => Some 2
  | PRIMITIVE_TYPE_UNSIGNED_INT => Some 4
  | PRIMITIVE_TYPE_UNSIGNED_LONG => Some 8
  | PRIMITIVE_TYPE_UNSIGNED_LONG_LONG => Some 8
  | PRIMITIVE_TYPE_FLOAT => Some 4
  | PRIMITIVE_TYPE_DOUBLE => Some 8
  | PRIMITIVE_TYPE_LONG_DOUBLE => Some 16
  | PRIMITIVE_TYPE_LOGICAL1 => Some 1
  | PRIMITIVE_TYPE_LOGICAL2 => Some 2
  | PRIMITIVE_TYPE_LOGICAL4 => Some 4
  | PRIMITIVE_TYPE_LOGICAL8 => Some 8
  | PRIMITIVE_TYPE_SINGLE_COMPLEX => Some 8
  | PRIMITIVE_TYPE_DOUBLE_COMPLEX => Some 16
  | PRIMITIVE_TYPE_LOC_2INT => Some 8
  | PRIMITIVE_TYPE_LOC_2FLOAT => Some 8
  | PRIMITIVE_TYPE_LOC_2DOUBLE => Some 16
  | PRIMITIVE_TYPE_LOC_SHORT_INT => Some 8
  | PRIMITIVE_TYPE_LOC_FLOAT_INT => Some 8
  | PRIMITIVE_TYPE_LOC_DOUBLE_INT => Some 16
  | PRIMITIVE_TYPE_LOC_LONG_INT => Some 16
  | PRIMITIVE_TYPE_LOC_LONGDOUBLE_INT => Some 32
  | PRIMITIVE_TYPE_COUNT | PRIMITIVE_TYPE_UNDEFINED => None
  end.

(** [ReferenceCount::AcquireReference]. *)
Definition AcquireReference (t : TypeCode) : TypeCode :=
  mkTypeCode (tc_begin t) (tc_body t) (tc_top_prev t) (code_buf_size t)
    (prev_cursor t) (code_cursor t) (completed t) (ref_cnt t + 1).

(** [ReferenceCount::ReleaseReference]: the object is deleted (no object is
    left) when the last reference goes. *)
Definition ReleaseReference (t : TypeCode) : res (option TypeCode) :=
  assert (0 <? ref_cnt t);;
  mret (if ref_cnt t =? 1 then None
        else Some (mkTypeCode (tc_begin t) (tc_body t) (tc_top_prev t) (code_buf_size t)
                     (prev_cursor t) (code_cursor t) (completed t) (ref_cnt t - 1))).

(** [TypeContig(size_t atom_size)]. *)
Definition TypeContig_atom (atom_size : Z) : res TypeCode :=
  t ← TypeCode_new;
  assert (0 <? atom_size);;
  let prim_size := ULONG_MAX - ULONG_MAX `mod` atom_size in
  let t := SetPrimitive PRIMITIVE_TYPE_BYTE t in
  t ← AddSimpleInternal t prim_size prim_size 1;
  t ← Complete ∅ t;
  t ← SetAtomSize atom_size t;
  mret (AcquireReference t).

(** [TypeContig(primitive_type_t primitive_type)]. *)
Definition TypeContig_primitive (p : primitive_type_t) : res TypeCode :=
  t ← TypeCode_new;
  match primitive_atom p with
  | None => Err Aborted
  | Some a =>
      let t := SetPrimitive p t in
      t ← AddSimpleInternal t a a 1;
      t ← Complete ∅ t;
      t ← SetAtomSize a t;
      mret (AcquireReference t)
  end.

End builder.
