(* ===== verification/TypeCodeSpec.v ===== *)
(** What the builder of TypeCode.v promises: the optimisations keep the layout,
    [Complete] links code that denotes the layout, and the properties in the
    header are the layout's. *)
From S2P Require Import Prelude.
From S2P Require Import Layout.
From S2P Require Import TypeCode.

(** * Code and the program it denotes *)

(** Length in bytes of a piece of code. *)
Fixpoint clen (C : list Slot) : Z :=
  match C with [] => 0 | s :: C => op_size (opcode (s_op s)) + clen C end.

(** [code_at C pc p]: the code [C] holds the program [p] at byte [pc]. *)
Inductive code_at (C : list Slot) : Z → prog → Prop :=
| at_End pc pr :
    op_at C pc = Some (mkSlot End pr) → code_at C pc PEnd
| at_Copy pc b s r k pr :
    op_at C pc = Some (mkSlot (Copy b s r) pr) →
    code_at C (pc + op_size COPY) k → code_at C pc (PCopy b s r k)
| at_Shift pc s k pr :
    op_at C pc = Some (mkSlot (Shift s) pr) →
    code_at C (pc + op_size SHIFT) k → code_at C pc (PShift s k)
| at_Call pc off sub s r k b pr pr' :
    op_at C pc = Some (mkSlot (Call off s r) pr) → 0 ≤ pc → 0 ≤ off →
    op_at C (pc + off) = Some (mkSlot (Begin b) pr') →
    b_data_size b = psize sub →
    code_at C (pc + off + op_size BEGIN) sub →
    code_at C (pc + op_size CALL) k → code_at C pc (PCall sub s r k).

(** Every number fits a [size_t] and no block or repetition is empty. *)
Fixpoint wf (p : prog) : Prop :=
  match p with
  | PEnd => True
  | PCopy b s r k => 0 < b < 2 ^ 64 ∧ 0 ≤ s < 2 ^ 64 ∧ 0 < r < 2 ^ 64 ∧ wf k
  | PShift s k => 0 ≤ s < 2 ^ 64 ∧ wf k
  | PCall sub s r k => wf sub ∧ 0 ≤ s < 2 ^ 64 ∧ 0 < r < 2 ^ 64 ∧ wf k
  end.

(** [type_denotes t p]: the completed type [t] implements the program [p]; the
    attributes of its header are those of the layout. *)
Record type_denotes (t : TypeCode) (p : prog) : Prop := {
  td_completed : completed t = true;
  td_code : code_at (type_code t) (op_size BEGIN) p;
  td_wf : wf p;
  td_small : psize p < 2 ^ 64;
  td_data_size : GetDataSize t = psize p;
  td_extent : GetExtent t = w64 (ext p);
  td_num_blocks : GetNumBlocks t = w64 (nblocks p);
  td_unit : GetUnit t = punit p;
  td_depth : GetDepth t = pdepth p;
  td_depth_small : pdepth p < 2 ^ 32;
  td_code_size : GetCodeSize t = clen (type_code t);
  td_code_small : clen (type_code t) < 2 ^ 64;
  td_simple : IsSimple t = true →
    ∃ b s r pr pr', tc_body t = [mkSlot (Copy b s r) pr; mkSlot End pr'];
  td_contiguous : IsContiguous t = true → IsSimple t = true ∧ ∃ n, p = PCopy n n 1 PEnd
}.

(** ** Facts about code *)

Lemma op_size_pos o : 0 < op_size o.
Proof. destruct o; simpl; lia. Qed.

Lemma op_size_range o : 8 ≤ op_size o ≤ 64.
Proof. destruct o; simpl; lia. Qed.

Lemma clen_nonneg C : 0 ≤ clen C.
Proof.
  induction C as [|s C IH]; simpl; [lia|]. pose proof (op_size_pos (opcode (s_op s))). lia.
Qed.

Lemma clen_app C D : clen (C ++ D) = clen C + clen D.
Proof. induction C; simpl; lia. Qed.

Lemma op_at_skip C D pc : 0 ≤ pc → op_at (C ++ D) (clen C + pc) = op_at D pc.
Proof.
  intros Hpc. induction C as [|s C IH]; simpl; [done|].
  pose proof (op_size_pos (opcode (s_op s))). pose proof (clen_nonneg C).
  rewrite (proj2 (Z.eqb_neq _ _)), (proj2 (Z.ltb_ge _ _)) by lia.
  rewrite <- IH. f_equal. lia.
Qed.

Lemma op_at_app C D pc s : op_at C pc = Some s → op_at (C ++ D) pc = Some s.
Proof.
  revert pc. induction C as [|s' C IH]; intros pc; simpl; [done|].
  repeat case_match; naive_solver.
Qed.

Lemma op_at_nonneg C pc s : op_at C pc = Some s → 0 ≤ pc.
Proof.
  revert pc. induction C as [|s' C IH]; intros pc; simpl; [done|].
  pose proof (op_size_pos (opcode (s_op s'))).
  destruct (Z.eqb_spec pc 0); [lia|]. destruct (Z.ltb_spec pc (op_size (opcode (s_op s')))); [done|].
  intros Hat%IH. lia.
Qed.

Lemma op_at_head s C : op_at (s :: C) 0 = Some s.
Proof. done. Qed.

Lemma op_at_mid C s D : op_at (C ++ s :: D) (clen C) = Some s.
Proof. rewrite <- (Z.add_0_r (clen C)). by rewrite op_at_skip. Qed.

Lemma op_at_lt C pc s : op_at C pc = Some s → pc + op_size (opcode (s_op s)) ≤ clen C.
Proof.
  revert pc. induction C as [|s' C IH]; intros pc; simpl; [done|].
  pose proof (clen_nonneg C). pose proof (op_size_pos (opcode (s_op s'))).
  destruct (Z.eqb_spec pc 0); [intros; simplify_eq; lia|].
  destruct (Z.ltb_spec pc (op_size (opcode (s_op s')))); [done|].
  intros Hat%IH. lia.
Qed.

(** Code is position independent: a piece of code keeps its meaning wherever it
    is copied. *)
Lemma code_at_relocate A C B pc p :
  code_at C pc p → code_at (A ++ C ++ B) (clen A + pc) p.
Proof.
  assert (Hf : ∀ q s, op_at C q = Some s → op_at (A ++ C ++ B) (clen A + q) = Some s).
  { intros q s Hs. rewrite op_at_skip by eauto using op_at_nonneg. by apply op_at_app. }
  pose proof (clen_nonneg A).
  induction 1.
  - by eapply at_End, Hf.
  - eapply at_Copy; [by apply Hf|]. by rewrite <- Z.add_assoc.
  - eapply at_Shift; [by apply Hf|]. by rewrite <- Z.add_assoc.
  - eapply at_Call; [by apply Hf|lia|done| |done| |].
    + rewrite <- Z.add_assoc. by apply Hf.
    + by rewrite <- !(Z.add_assoc (clen A)).
    + by rewrite <- Z.add_assoc.
Qed.

Lemma code_at_nonneg C pc p : code_at C pc p → 0 ≤ pc.
Proof. destruct 1; eauto using op_at_nonneg. Qed.

Lemma wf_proper p : wf p → proper p.
Proof. induction p; simpl; naive_solver. Qed.

Lemma wf_nonneg p : wf p → nonneg p.
Proof. intros. by apply proper_nonneg, wf_proper. Qed.

Lemma wf_psize p : wf p → 0 ≤ psize p.
Proof. intros. by apply psize_nonneg, wf_nonneg. Qed.

Create HintDb layout.
#[export] Hint Resolve op_size_pos clen_nonneg wf_nonneg wf_psize : layout.

(** * Euclid's algorithm *)

Lemma mod_half a b : 0 < b ≤ a → 2 * (a `mod` b) < a.
Proof.
  intros Hb. pose proof (Z.mod_pos_bound a b ltac:(lia)).
  pose proof (Z.div_mod a b ltac:(lia)). pose proof (Z.div_le_lower_bound a b 1 ltac:(lia) ltac:(lia)).
  nia.
Qed.

Lemma GCD_spec k fuel a b :
  (2 * k + 1 ≤ fuel)%nat → 0 ≤ a → 0 ≤ b < 2 ^ Z.of_nat k → GCD fuel a b = Ok (Z.gcd a b).
Proof.
  revert fuel a b. induction k as [|k IH]; intros fuel a b Hf Ha Hb.
  - destruct fuel as [|fuel]; [lia|]. replace b with 0 by (simpl in Hb; lia).
    simpl. rewrite Z.gcd_0_r_nonneg by done. done.
  - destruct fuel as [|[|[|fuel]]]; try lia.
    assert (Hstep : ∀ x y f, 0 ≤ x → 0 < y → GCD (S f) x y = GCD f y (x `mod` y)).
    { intros x y f Hx Hy. simpl. by rewrite (proj2 (Z.eqb_neq y 0)) by lia. }
    assert (Hg : ∀ x y, 0 ≤ x → 0 < y → Z.gcd x y = Z.gcd y (x `mod` y)).
    { intros x y Hx Hy. rewrite Z.gcd_comm at 1. symmetry. rewrite Z.gcd_comm.
      apply Z.gcd_mod. lia. }
    destruct (Z.eq_dec b 0) as [->|Hb0].
    { simpl. by rewrite Z.gcd_0_r_nonneg. }
    rewrite Hstep, Hg by lia. pose proof (Z.mod_pos_bound a b ltac:(lia)).
    destruct (Z.eq_dec (a `mod` b) 0) as [->|Hm].
    { simpl. by rewrite Z.gcd_0_r_nonneg by lia. }
    rewrite Hstep, Hg by lia. pose proof (Z.mod_pos_bound b (a `mod` b) ltac:(lia)).
    apply IH; [lia|lia|]. pose proof (mod_half b (a `mod` b) ltac:(lia)).
    rewrite Nat2Z.inj_succ, Z.pow_succ_r in Hb by lia. lia.
Qed.

Lemma GCD_fuel a b : 0 ≤ a → 0 ≤ b < 2 ^ 64 → GCD gcd_fuel a b = Ok (Z.gcd a b).
Proof. intros. apply (GCD_spec 64); [unfold gcd_fuel; lia|done|done]. Qed.

(** * The invariant of a type under construction *)

(** A word that is not the opcode [Top] is asked for. *)
Definition harmless (v : Z) : Prop :=
  v ≠ opcode_val COPY ∧ v ≠ opcode_val CALL ∧ v ≠ opcode_val SHIFT.

(** [J v]: fresh memory may hold the word [v]. *)
Section prevs.
Context (J : Z → Prop).

(** The [prev_opcode] of instruction [i] of the body, after an instruction of
    opcode [o]: right, or lost in a resize, which the first three never are. *)
Definition good_prev (i : nat) (o : Opcode) (v : Z) : Prop :=
  v = opcode_val o ∨ (3 ≤ i)%nat ∧ J v.

Fixpoint prevs_ok (i : nat) (o : Opcode) (body : list Slot) (top : Z) : Prop :=
  match body with
  | [] => good_prev i o top
  | s :: body => good_prev i o (s_prev s) ∧ prevs_ok (S i) (opcode (s_op s)) body top
  end.

(** The opcode before the slot at the cursor. *)
Definition last_opcode (body : list Slot) : Opcode :=
  match last body with Some s => opcode (s_op s) | None => BEGIN end.

Lemma prevs_ok_snoc i o body s top :
  prevs_ok i o (body ++ [s]) top ↔
  prevs_ok i o body (s_prev s) ∧
  good_prev (S (i + length body)) (opcode (s_op s)) top.
Proof.
  revert i o. induction body as [|s' body IH]; intros i o; simpl.
  - by rewrite Nat.add_0_r.
  - rewrite IH. rewrite Nat.add_succ_r. simpl. tauto.
Qed.

Lemma prevs_ok_top body top :
  prevs_ok 0 BEGIN body top → good_prev (length body) (last_opcode body) top.
Proof.
  destruct (list_snoc_inv body) as [->|(l & s & ->)]; [done|].
  rewrite prevs_ok_snoc. unfold last_opcode. rewrite last_snoc, length_app. simpl.
  rewrite Nat.add_1_r. tauto.
Qed.

Lemma prevs_ok_retop i o body top top' :
  prevs_ok i o body top → good_prev (i + length body)
    (match last body with Some s => opcode (s_op s) | None => o end) top' →
  prevs_ok i o body top'.
Proof.
  destruct (list_snoc_inv body) as [->|(l & s & ->)].
  - simpl. by rewrite Nat.add_0_r.
  - rewrite !prevs_ok_snoc, last_snoc, length_app. simpl.
    rewrite Nat.add_1_r, Nat.add_succ_r. tauto.
Qed.

(** What an operation on an open type comes to: it succeeds, or it reads an
    instruction at the wrong type, which takes a fresh word that is an opcode
    [Top] is asked for. *)
Definition returns (r : res TypeCode) (P : TypeCode → Prop) : Prop :=
  (∃ t, r = Ok t ∧ P t) ∨ r = Err Fault ∧ ∃ v, J v ∧ ¬ harmless v.

Lemma returns_mono r (P Q : TypeCode → Prop) : returns r P → (∀ t, P t → Q t) → returns r Q.
Proof. intros [(t&Hr&HP)|Hr] HPQ; [left; eauto|by right]. Qed.

Lemma returns_Ok t (P : TypeCode → Prop) : P t → returns (Ok t) P.
Proof. left. eauto. Qed.

Lemma returns_bind r k (P Q : TypeCode → Prop) : returns r P →
  (∀ t, P t → returns (k t) Q) → returns (r ≫= k) Q.
Proof. intros [(t&->&HP)|[-> Hv]] Hk; [by apply Hk|by right]. Qed.

End prevs.

(** [V a]: the address [a] may be called (a completed sub-type is there). *)
Section invariant.
Context (J V : Z → Prop).

(** The instructions the builder pushes, with non-empty blocks; a copy whose
    stride is its block size has a single repetition. *)
Definition instr_ok (o : Op) : Prop :=
  match o with
  | Copy b s r => 0 < b < 2 ^ 64 ∧ 0 ≤ s < 2 ^ 64 ∧ 0 < r < 2 ^ 64 ∧ (b = s → r = 1)
  | Call a s r => 0 ≤ s < 2 ^ 64 ∧ 0 < r < 2 ^ 64 ∧ V a
  | Shift s => 0 ≤ s < 2 ^ 64
  | _ => False
  end.

(** [binv n t]: [t] was built with at most [n] instructions ever pushed. *)
Record binv (n : nat) (t : TypeCode) : Prop := {
  bi_open : completed t = false;
  bi_header : ∃ prim cs, tc_begin t = mkBegin true true prim 1 cs 0 0 0 0 0;
  bi_code_size : GetCodeSize t = code_cursor t;
  bi_cursor : code_cursor t = op_size BEGIN + clen (tc_body t);
  bi_body : Forall (λ s, instr_ok (s_op s)) (tc_body t);
  bi_prevs : prevs_ok J 0 BEGIN (tc_body t) (tc_top_prev t);
  bi_len : (length (tc_body t) ≤ n)%nat;
  bi_room : code_cursor t + sizeof_Op ≤ code_buf_size t;
  bi_buf : 192 ≤ code_buf_size t ≤ 192 + 64 * Z.of_nat n
}.

(** How many instructions the theorems allow: with fewer, no size computed by
    the builder wraps around. *)
Definition max_ops : Z := 2 ^ 48.

Lemma clen_body_le body :
  Forall (λ s, instr_ok (s_op s)) body → clen body ≤ 32 * Z.of_nat (length body).
Proof.
  induction 1 as [|s body Hs _ IH]; simpl; [lia|].
  assert (op_size (opcode (s_op s)) ≤ 32) by (destruct (s_op s); simpl in *; lia || done). lia.
Qed.

Lemma binv_mono n m t : (n ≤ m)%nat → binv n t → binv m t.
Proof. intros Hnm []. split; auto; lia. Qed.

(** The builder never writes outside of its buffer. *)
Lemma binv_bounds n t : binv n t → Z.of_nat n < max_ops →
  code_cursor t + 104 ≤ 2 ^ 60 ∧ code_buf_size t ≤ 2 ^ 60 ∧ 64 ≤ code_cursor t.
Proof.
  intros [] Hn. unfold max_ops in *. pose proof (clen_body_le _ bi_body0).
  pose proof (clen_nonneg (tc_body t)). change (op_size BEGIN) with 64 in *. lia.
Qed.

End invariant.

(** The sizes of the instructions as numbers, for [lia]. *)
Ltac sizes := unfold sizeof_Op, max_ops in *; simpl op_size in *; try lia.

(** ** [Push], [Top] and [Pop] *)

Section ops.

Context (J V : Z → Prop).
Context (junk : Z → Z).
Context (Hjunk : ∀ n, J (junk n)).

(** The program of the instructions of an open type: [G a] is the program of
    the type at address [a]. *)
Context (G : Z → prog).

Fixpoint body_prog (body : list Slot) : prog :=
  match body with
  | [] => PEnd
  | s :: body =>
      match s_op s with
      | Copy b st r => PCopy b st r (body_prog body)
      | Shift sh => PShift sh (body_prog body)
      | Call a st r => PCall (G a) st r (body_prog body)
      | _ => body_prog body
      end
  end.

Lemma body_prog_app l l' : body_prog (l ++ l') = papp (body_prog l) (body_prog l').
Proof. induction l as [|s l IH]; simpl; [done|]. destruct (s_op s); simpl; congruence. Qed.

Record same_meta (t t' : TypeCode) : Prop := {
  sm_primitive : GetPrimitive t' = GetPrimitive t;
  sm_ref_cnt : ref_cnt t' = ref_cnt t
}.

#[local] Instance same_meta_preorder : PreOrder same_meta.
Proof. split; [by split|]. intros t1 t2 t3 [] []. split; congruence. Qed.

(** The result of an addition: the layout of [t] followed by that of [q]. *)
Record added (n : nat) (t t' : TypeCode) (q : prog) : Prop := {
  ad_inv : binv J V n t';
  ad_prog : body_prog (tc_body t') ≃ₚ papp (body_prog (tc_body t)) q;
  ad_meta : same_meta t t'
}.

Lemma CheckCodeBuffer_spec n t o : binv J V n t → Z.of_nat (S n) < max_ops → op_size o ≤ 32 →
  let t' := CheckCodeBuffer junk (op_size o + sizeof_Op) t in
  binv J V (S n) t' ∧ code_cursor t' + op_size o + sizeof_Op ≤ code_buf_size t' ∧
  tc_body t' = tc_body t ∧ same_meta t t'.
Proof.
  intros Hinv Hn Ho. pose proof (binv_bounds J V n t Hinv ltac:(lia)) as (Hc&Hb&Hc').
  pose proof Hinv as [Hopen Hh Hcs Hcur Hbody Hprev Hlen Hroom Hbuf].
  pose proof (op_size_pos o). pose proof (clen_body_le V _ Hbody) as Hcl.
  unfold max_ops in *. change (op_size BEGIN) with 64 in *. change sizeof_Op with 8 in *.
  unfold CheckCodeBuffer. rewrite w64_small by lia.
  destruct (Z.ltb_spec (code_buf_size t) (code_cursor t + (op_size o + 8))) as [Hlt|Hle].
  - unfold ResizeCodeBuffer. rewrite w64_small by lia.
    rewrite (proj2 (Z.leb_gt _ _)) by lia. simpl.
    split; [|split; [lia|]; done].
    split; simpl; sizes; try done.
    eapply prevs_ok_retop; [done|]. right. split; [simpl; lia|apply Hjunk].
  - split; [by apply (binv_mono J V n); [lia|]|]. split; [lia|]. done.
Qed.

Definition pushed (op : Op) (t : TypeCode) : TypeCode :=
  AddCodeSize (op_size (opcode op))
    (mkTypeCode (tc_begin t) (tc_body t ++ [mkSlot op (tc_top_prev t)])
       (opcode_val (opcode op)) (code_buf_size t) (prev_cursor t)
       (w64 (code_cursor t + op_size (opcode op))) (completed t) (ref_cnt t)).

Lemma pushed_binv n t op : binv J V (S n) t → Z.of_nat (S n) < max_ops → instr_ok V op →
  (length (tc_body t) ≤ n)%nat →
  code_cursor t + op_size (opcode op) + sizeof_Op ≤ code_buf_size t →
  binv J V (S n) (pushed op t).
Proof.
  intros Hinv Hn Hop Hlen Hfit.
  pose proof (binv_bounds J V _ t Hinv ltac:(lia)) as (Hc&Hb&Hc').
  destruct Hinv as [Hopen (prim&cs&Hh) Hcs Hcur Hbody Hprev _ Hroom Hbuf].
  unfold GetCodeSize in Hcs. rewrite Hh in Hcs. simpl in Hcs. subst cs.
  pose proof (op_size_range (opcode op)). change sizeof_Op with 8 in *.
  unfold pushed, AddCodeSize. simpl. rewrite Hh. simpl.
  rewrite !w64_small by lia. split; simpl; sizes; try done.
  - eauto.
  - rewrite clen_app. simpl. sizes.
  - apply Forall_app. split; [done|]. by repeat constructor.
  - apply prevs_ok_snoc. split; [done|by left].
  - rewrite length_app. simpl. lia.
Qed.

Lemma instr_ok_size op : instr_ok V op → op_size (opcode op) ≤ 32.
Proof. destruct op; simpl; done || lia. Qed.

Lemma Push_spec n t op : binv J V n t → Z.of_nat (S n) < max_ops → instr_ok V op →
  ∃ t' pv, Push junk op t = Ok t' ∧ binv J V (S n) t' ∧
    tc_body t' = tc_body t ++ [mkSlot op pv] ∧ same_meta t t'.
Proof.
  intros Hinv Hn Hop.
  destruct (CheckCodeBuffer_spec n t (opcode op) Hinv Hn (instr_ok_size _ Hop))
    as (Hinv1&Hfit&Hbody&Hmeta).
  unfold Push. set (t1 := CheckCodeBuffer _ _ _) in *. clearbody t1.
  rewrite (proj2 (Z.leb_le _ _)) by done. simpl.
  exists (pushed op t1), (tc_top_prev t1). split_and!.
  - destruct op; done || by destruct Hop.
  - apply pushed_binv; [done|done|done| |done]. rewrite Hbody. apply Hinv.
  - by rewrite <- Hbody.
  - destruct Hmeta. by split.
Qed.

(** [Top] finds the last instruction when it has the opcode, unless a fresh word
    misleads it. *)
Lemma Top_spec n t o : binv J V n t → o = COPY ∨ o = CALL ∨ o = SHIFT →
  Top o t = Ok None ∨
  (∃ l s, tc_body t = l ++ [s] ∧ opcode (s_op s) = o ∧ Top o t = Ok (Some (s_op s)) ∧
          tc_top_prev t = opcode_val o) ∨
  Top o t = Err Fault ∧ ∃ v, J v ∧ ¬ harmless v.
Proof.
  intros Hinv Ho. pose proof Hinv as [_ _ _ _ Hbody Hprev _ Hroom _].
  unfold Top. rewrite (proj2 (Z.leb_le _ _)) by done. simpl.
  destruct (Z.eqb_spec (tc_top_prev t) (opcode_val o)) as [Heq|Hne]; [|by left].
  right. apply prevs_ok_top in Hprev.
  destruct (decide (last_opcode (tc_body t) = o)) as [Hlast|Hother].
  2: { right. split.
    - unfold last_opcode in Hother. destruct (last (tc_body t)) as [s|]; [|done].
      by rewrite bool_decide_eq_false_2.
    - destruct Hprev as [Hp|[_ HJ]].
      + rewrite Hp in Heq. by destruct (last_opcode (tc_body t)), Ho as [->|[->| ->]].
      + exists (tc_top_prev t). split; [done|]. rewrite Heq. intros (?&?&?).
        by destruct Ho as [->|[->| ->]]. }
  left. unfold last_opcode in Hlast.
  destruct (list_snoc_inv (tc_body t)) as [Hnil|(l & s & Hl)].
  { rewrite Hnil in Hlast. simpl in Hlast. subst o. naive_solver. }
  rewrite Hl, last_snoc in *. exists l, s. split_and!; try done.
  by rewrite bool_decide_eq_true_2.
Qed.

Lemma Pop_spec n t l s : binv J V n t → Z.of_nat n < max_ops → tc_body t = l ++ [s] →
  tc_top_prev t = opcode_val (opcode (s_op s)) →
  ∃ t', Pop t = Ok t' ∧ binv J V n t' ∧ tc_body t' = l ∧ same_meta t t'.
Proof.
  intros Hinv Hn Hl Htop. pose proof (binv_bounds J V n t Hinv ltac:(lia)) as (Hc&Hb&Hc').
  destruct Hinv as [Hopen (prim&cs&Hh) Hcs Hcur Hbody Hprev Hlen Hroom Hbuf].
  unfold GetCodeSize in Hcs. rewrite Hh in Hcs. simpl in Hcs. subst cs.
  pose proof (op_size_range (opcode (s_op s))). pose proof (clen_nonneg l).
  change sizeof_Op with 8 in *. change (op_size BEGIN) with 64 in *.
  rewrite Hl in Hcur, Hbody, Hprev, Hlen. rewrite clen_app in Hcur. simpl in Hcur.
  apply prevs_ok_snoc in Hprev as [Hprev _]. apply Forall_app in Hbody as [Hbody _].
  unfold Pop. change sizeof_Op with 8.
  rewrite (proj2 (Z.ltb_lt _ _)), (proj2 (Z.leb_le _ _)), Hl, last_snoc, Htop, Z.eqb_refl by lia.
  simpl. eexists. split; [reflexivity|]. rewrite removelast_last.
  unfold AddCodeSize. simpl. rewrite Hh. simpl. rewrite !w64_small by lia.
  rewrite length_app in Hlen. simpl in Hlen.
  split; [|split; [done|split; unfold GetPrimitive; simpl; by rewrite ?Hh]].
  split; simpl; unfold GetCodeSize; simpl; sizes; try done; eauto.
Qed.

(** ** The additions *)

Context (HG : ∀ a, wf (G a)).

Lemma added_none n t q : binv J V n t → q ≃ₚ PEnd → added (S n) t t q.
Proof.
  intros Hinv Hq. split; [by apply (binv_mono J V n); [lia|]| |done].
  by rewrite Hq, papp_PEnd.
Qed.

Lemma added_push n t op q : binv J V n t → Z.of_nat (S n) < max_ops → instr_ok V op →
  body_prog [mkSlot op 0] ≃ₚ q → returns J (Push junk op t) (λ t', added (S n) t t' q).
Proof.
  intros Hinv Hn Hop Hq. destruct (Push_spec n t op Hinv Hn Hop) as (t'&pv&->&Hi&Hb&Hm).
  apply returns_Ok. split; [done| |done].
  by rewrite Hb, body_prog_app, <- Hq.
Qed.

Lemma added_pop m t t1 t' l s q q1 :
  tc_body t = l ++ [s] → tc_body t1 = l → same_meta t t1 → added m t1 t' q1 →
  papp (body_prog [s]) q ≃ₚ q1 → added m t t' q.
Proof.
  intros Hl Hl1 Hm [Hi Hp Hm'] Hq. split; [done| |by etrans].
  by rewrite Hp, Hl1, Hl, body_prog_app, papp_assoc, Hq.
Qed.

Lemma added_eq m t t' q q' : added m t t' q → q ≃ₚ q' → added m t t' q'.
Proof. intros [Hi Hp Hm] Hq. split; [done| |done]. by rewrite Hp, Hq. Qed.

Lemma body_wf body : Forall (λ s, instr_ok V (s_op s)) body → wf (body_prog body).
Proof.
  induction 1 as [|s body Hs _ IH]; simpl; [done|].
  destruct (s_op s); simpl in *; naive_solver.
Qed.

Lemma body_psize_nonneg n t : binv J V n t → 0 ≤ psize (body_prog (tc_body t)).
Proof. intros []. by apply wf_psize, body_wf. Qed.

(** Takes out the last instruction [Top] found: the object [t1] after [Pop],
    its invariant, the instruction's own conditions, and the sizes left. *)
Lemma pop_last n t l s o : binv J V n t → Z.of_nat n < max_ops → tc_body t = l ++ [s] →
  opcode (s_op s) = o → tc_top_prev t = opcode_val o →
  ∃ t1, Pop t = Ok t1 ∧ binv J V n t1 ∧ tc_body t1 = l ∧ same_meta t t1 ∧ instr_ok V (s_op s) ∧
    (length (tc_body t) = S (length (tc_body t1)))%nat ∧
    psize (body_prog (tc_body t)) = psize (body_prog (tc_body t1)) + psize (body_prog [s]) ∧
    0 ≤ psize (body_prog (tc_body t1)).
Proof.
  intros Hinv Hn Hl <- Htop. destruct (Pop_spec n t l s Hinv Hn Hl Htop) as (t1&HP&Hi&Hb&Hm).
  exists t1. repeat (split; [done|]). pose proof (bi_body _ _ _ _ Hinv) as HF.
  rewrite Hl in HF. apply Forall_app in HF as [_ HF]. inversion_clear HF.
  split; [done|]. rewrite Hb, Hl, length_app, body_prog_app, psize_papp. simpl.
  split; [lia|]. split; [done|]. rewrite <- Hb. by eapply body_psize_nonneg.
Qed.

Definition shift_ok (fuel : nat) : Prop := ∀ n t sh,
  binv J V n t → Z.of_nat (S n) < max_ops → 0 ≤ sh < 2 ^ 64 →
  (3 * length (tc_body t) + 2 ≤ fuel)%nat → psize (body_prog (tc_body t)) < 2 ^ 64 →
  returns J (AddShift_ junk fuel t sh) (λ t', added (S n) t t' (PShift sh PEnd)).

Definition simple_ok (fuel : nat) : Prop := ∀ n t b s r,
  binv J V n t → Z.of_nat (S n) < max_ops → 0 ≤ b < 2 ^ 64 → 0 ≤ s < 2 ^ 64 → 0 ≤ r < 2 ^ 64 →
  (3 * length (tc_body t) + (if bool_decide (0 < b ∧ r = 1)%Z then 2 else 3) ≤ fuel)%nat →
  psize (body_prog (tc_body t)) + b * r < 2 ^ 64 →
  returns J (AddSimpleInternal_ junk fuel t b s r) (λ t', added (S n) t t' (PCopy b s r PEnd)).

Lemma shift_step fuel : shift_ok fuel → simple_ok fuel → shift_ok (S fuel).
Proof.
  intros IHs IHc n t sh Hinv Hn Hsh Hf Hsz. simpl.
  unfold IsCompleted. rewrite (bi_open _ _ _ _ Hinv). simpl.
  destruct (Z.eqb_spec sh 0) as [->|Hsh0].
  { apply returns_Ok, added_none; [done|]. apply PShift_zero. }
  assert (returns J (Push junk (Shift sh) t) (λ t', added (S n) t t' (PShift sh PEnd)))
    as Hpush by (by apply added_push).
  destruct (Top_spec n t SHIFT Hinv ltac:(auto)) as [Ht|[(l&[o pv]&Hl&Ho&Ht&Htop)|[Ht Hv]]];
    rewrite Ht; simpl; [| |by right].
  - destruct (Top_spec n t COPY Hinv ltac:(auto)) as [Ht'|[(l&[o pv]&Hl&Ho&Ht'&Htop)|[Ht' Hv]]];
      rewrite Ht'; simpl; [done| |by right].
    destruct o as [|b s r| | |]; try done.
    destruct (Z.eqb_spec r 1) as [->|]; [|done].
    destruct (pop_last n t l _ COPY Hinv ltac:(lia) Hl Ho Htop)
      as (t1&->&Hi1&Hb1&Hm1&Hok&Hlen&Hps&Hp0). simpl in *.
    eapply returns_mono; [apply (IHc n t1 b (w64 (s + sh)) 1 Hi1); try lia|cbn beta; intros t' Had].
    { apply w64_range. } { case_bool_decide; lia. }
    eapply added_pop; [done..|]. simpl.
    by rewrite PCopy_shift, w64_eq64.
  - destruct o as [| | |sh'|]; try done.
    destruct (pop_last n t l _ SHIFT Hinv ltac:(lia) Hl Ho Htop)
      as (t1&->&Hi1&Hb1&Hm1&Hok&Hlen&Hps&Hp0). simpl in *.
    eapply returns_mono; [apply (IHs n t1 (w64 (sh' + sh)) Hi1); try lia|cbn beta; intros t' Had].
    { apply w64_range. }
    eapply added_pop; [done..|]. simpl.
    by rewrite PShift_shift, w64_eq64.
Qed.

(** The part of [AddSimpleInternal] that looks at the previous instruction. *)
Definition simple_top (fuel : nat) (t : TypeCode) (bytes stride reps : Z) : res TypeCode :=
  prev_copy ← Top COPY t;
  match prev_copy with
  | Some (Copy pbytes pstride preps) =>
      if (pbytes =? pstride) && (reps =? 1) then
        t ← Pop t;
        AddSimpleInternal_ junk fuel t (w64 (pbytes + bytes)) (w64 (pstride + stride)) 1
      else if (pbytes =? bytes) && (pstride =? stride) then
        t ← Pop t;
        AddSimpleInternal_ junk fuel t bytes stride (w64 (preps + reps))
      else Push junk (Copy bytes stride reps) t
  | _ => Push junk (Copy bytes stride reps) t
  end.

Lemma simple_top_step fuel n t b s r : simple_ok fuel →
  binv J V n t → Z.of_nat (S n) < max_ops → instr_ok V (Copy b s r) →
  (3 * length (tc_body t) + 1 ≤ fuel)%nat → psize (body_prog (tc_body t)) + b * r < 2 ^ 64 →
  returns J (simple_top fuel t b s r) (λ t', added (S n) t t' (PCopy b s r PEnd)).
Proof.
  intros IHc Hinv Hn Hop Hf Hsz. unfold simple_top.
  assert (returns J (Push junk (Copy b s r) t) (λ t', added (S n) t t' (PCopy b s r PEnd)))
    as Hpush by by apply added_push.
  destruct (Top_spec n t COPY Hinv ltac:(auto)) as [Ht|[(l&[o pv]&Hl&Ho&Ht&Htop)|[Ht Hv]]];
    rewrite Ht; simpl; [done| |by right].
  destruct o as [|pb ps pr| | |]; try done.
  destruct (pop_last n t l _ COPY Hinv ltac:(lia) Hl Ho Htop)
      as (t1&HP&Hi1&Hb1&Hm1&Hok&Hlen&Hps&Hp0); rewrite ?HP; simpl in *.
  destruct ((pb =? ps) && (r =? 1)) eqn:Hc1; [|destruct ((pb =? b) && (ps =? s)) eqn:Hc2; [|done]].
  - assert (pb = ps) as <- by lia. assert (r = 1) as -> by lia. assert (pr = 1) as -> by naive_solver.
    rewrite (w64_small (pb + b)) by lia.
    eapply returns_mono; [apply (IHc n t1 (pb + b) (w64 (pb + s)) 1 Hi1); try lia|cbn beta; intros t' Had].
    { apply w64_range. } { case_bool_decide; lia. }
    eapply added_pop; [done..|]. simpl.
    by rewrite PCopy_join, w64_eq64 by lia.
  - assert (pb = b) as -> by lia. assert (ps = s) as -> by lia.
    destruct Hop as (?&?&?&_), Hok as (_&_&?&_).
    assert (Hrs : pr + r ≤ b * (pr + r)) by nia. rewrite Z.mul_add_distr_l in Hrs.
    rewrite (w64_small (pr + r)) by lia.
    eapply returns_mono; [apply (IHc n t1 b s (pr + r) Hi1); try lia|cbn beta; intros t' Had].
    { case_bool_decide; lia. }
    eapply added_pop; [done..|]. simpl.
    by rewrite PCopy_reps by lia.
Qed.

Lemma simple_step fuel : shift_ok fuel → simple_ok fuel → simple_ok (S fuel).
Proof.
  intros IHs IHc n t b s r Hinv Hn Hb Hs Hr Hf Hsz. simpl. fold (simple_top fuel t b s r).
  pose proof (body_psize_nonneg n t Hinv) as Hp.
  destruct (Z.eqb_spec r 0) as [->|Hr0].
  { apply returns_Ok, added_none; [done|]. apply PCopy_zero_reps. }
  destruct (Z.eqb_spec b 0) as [->|Hb0].
  { rewrite bool_decide_eq_false_2 in Hf by lia.
    eapply returns_mono; [apply (IHs n t (w64 (s * r)) Hinv Hn); [apply w64_range|lia|lia]|].
    cbn beta. intros t' Had. eapply added_eq; [done|].
    by rewrite PCopy_zero_bytes, w64_eq64 by lia. }
  assert (Hf' : (3 * length (tc_body t) + 1 ≤ fuel)%nat) by (revert Hf; case_bool_decide; lia).
  destruct (Z.eqb_spec b s) as [<-|Hbs]; [destruct (Z.ltb_spec 1 r) as [H1r|H1r]|]; simpl.
  - rewrite bool_decide_eq_false_2 in Hf by lia.
    assert (0 < b * r) by nia. rewrite (w64_small (b * r)) by lia.
    eapply returns_mono; [apply (IHc n t (b * r) (b * r) 1 Hinv Hn); try lia|cbn beta; intros t' Had].
    { rewrite bool_decide_eq_true_2 by lia. lia. }
    eapply added_eq; [done|].
    by rewrite <- PCopy_contig by lia.
  - apply simple_top_step; [done|done|done|simpl; lia|done|done].
  - apply simple_top_step; [done|done|done|simpl; lia|done|done].
Qed.

Lemma add_ok fuel : shift_ok fuel ∧ simple_ok fuel.
Proof.
  induction fuel as [|fuel [IH1 IH2]].
  - split; unfold shift_ok, simple_ok; intros; [|case_bool_decide]; lia.
  - eauto using shift_step, simple_step.
Qed.

Lemma AddShift_spec n t sh : binv J V n t → Z.of_nat (S n) < max_ops → 0 ≤ sh < 2 ^ 64 →
  psize (body_prog (tc_body t)) < 2 ^ 64 →
  returns J (AddShift junk t sh) (λ t', added (S n) t t' (PShift sh PEnd)).
Proof. intros. apply add_ok; auto. unfold fuel_for. lia. Qed.

Lemma AddSimpleInternal_spec n t b s r : binv J V n t → Z.of_nat (S n) < max_ops →
  0 ≤ b < 2 ^ 64 → 0 ≤ s < 2 ^ 64 → 0 ≤ r < 2 ^ 64 →
  psize (body_prog (tc_body t)) + b * r < 2 ^ 64 →
  returns J (AddSimpleInternal junk t b s r) (λ t', added (S n) t t' (PCopy b s r PEnd)).
Proof.
  intros. apply add_ok; auto. unfold fuel_for. case_bool_decide; lia.
Qed.

Lemma SetPrimitive_binv n t p : binv J V n t → binv J V n (SetPrimitive p t).
Proof.
  intros [Hopen (prim&cs&Hh) Hcs Hcur Hbody Hprev Hlen Hroom Hbuf].
  unfold SetPrimitive. rewrite Hh. unfold GetCodeSize in Hcs. rewrite Hh in Hcs.
  split; simpl in *; eauto.
Qed.

(** Same instructions: the header and the counter may differ. *)
Record layout_added (n : nat) (t t' : TypeCode) (q : prog) : Prop := {
  la_inv : binv J V n t';
  la_prog : body_prog (tc_body t') ≃ₚ papp (body_prog (tc_body t)) q;
  la_ref_cnt : ref_cnt t' = ref_cnt t
}.

Lemma added_layout n t t' q p : added n (SetPrimitive p t) t' q → layout_added n t t' q.
Proof. intros [Hi Hp [_ Hr]]. by split. Qed.

Lemma AddSimple_spec n t b s r : binv J V n t → Z.of_nat (S n) < max_ops →
  0 ≤ b < 2 ^ 64 → 0 ≤ s < 2 ^ 64 → 0 ≤ r < 2 ^ 64 →
  psize (body_prog (tc_body t)) + b * r < 2 ^ 64 →
  returns J (AddSimple junk t b s r) (λ t', layout_added (S n) t t' (PCopy b s r PEnd)).
Proof.
  intros Hinv Hn Hb Hs Hr Hsz. unfold AddSimple, IsCompleted.
  rewrite (bi_open _ _ _ _ Hinv). simpl.
  set (t1 := if b =? 0 then t else _).
  eapply returns_mono; [apply (AddSimpleInternal_spec n t1 b s r); try done|].
  { unfold t1. case_match; [done|]. by apply SetPrimitive_binv. }
  { unfold t1. by case_match. }
  cbn beta. intros t' [Hi Hp [_ Hr']]. unfold t1 in *. by split; case_match.
Qed.

(** ** Adding a sub-type *)

Lemma code_at_copy_inv b s r pr pr' hd p :
  code_at [hd; mkSlot (Copy b s r) pr; mkSlot End pr'] (op_size BEGIN) p →
  opcode (s_op hd) = BEGIN → p = PCopy b s r PEnd.
Proof.
  intros Hc Hhd.
  assert (op_at [hd; mkSlot (Copy b s r) pr; mkSlot End pr'] (op_size BEGIN) =
          Some (mkSlot (Copy b s r) pr)) as H1 by (simpl; by rewrite Hhd).
  assert (op_at [hd; mkSlot (Copy b s r) pr; mkSlot End pr'] (op_size BEGIN + op_size COPY) =
          Some (mkSlot End pr')) as H2 by (simpl; by rewrite Hhd).
  inversion Hc; simplify_eq. f_equal.
  match goal with H : code_at _ _ ?k |- ?k = _ => inversion H; simplify_eq end. done.
Qed.

Lemma td_simple_prog sub p : type_denotes sub p → IsSimple sub = true →
  ∃ b s r pr pr', tc_body sub = [mkSlot (Copy b s r) pr; mkSlot End pr'] ∧ p = PCopy b s r PEnd.
Proof.
  intros Hd (b&s&r&pr&pr'&Hb)%(td_simple _ _ Hd). exists b, s, r, pr, pr'. split; [done|].
  pose proof (td_code _ _ Hd) as Hc. unfold type_code in Hc. rewrite Hb in Hc.
  by eapply code_at_copy_inv.
Qed.

(** The part of [AddTypedInternal] that pushes a call, or extends the last. *)
Definition typed_call (fuel : nat) (t : TypeCode) (sub_type : Z) (sub : TypeCode)
    (stride reps : Z) : res TypeCode :=
  prev_call ← Top CALL t;
  match prev_call with
  | Some (Call psub pstride preps) =>
      if (psub =? sub_type) && (pstride =? stride) then
        t ← Pop t;
        AddTypedInternal_ junk fuel t sub_type sub stride (w64 (preps + reps))
      else Push junk (Call sub_type stride reps) t
  | _ => Push junk (Call sub_type stride reps) t
  end.

Definition typed_ok (fuel : nat) : Prop := ∀ n t a sub s r,
  type_denotes sub (G a) → V a → binv J V n t → Z.of_nat (S n) < max_ops →
  0 ≤ s < 2 ^ 64 → 0 ≤ r < 2 ^ 64 → (length (tc_body t) + 1 ≤ fuel)%nat →
  psize (body_prog (tc_body t)) + psize (G a) * r < 2 ^ 64 →
  returns J (AddTypedInternal_ junk fuel t a sub s r) (λ t', added (S n) t t' (PCall (G a) s r PEnd)).

Lemma typed_call_step fuel n t a sub s r : typed_ok fuel →
  type_denotes sub (G a) → V a → binv J V n t → Z.of_nat (S n) < max_ops →
  0 ≤ s < 2 ^ 64 → 0 < r < 2 ^ 64 → (length (tc_body t) ≤ fuel)%nat →
  psize (body_prog (tc_body t)) + psize (G a) * r < 2 ^ 64 →
  returns J (typed_call fuel t a sub s r) (λ t', added (S n) t t' (PCall (G a) s r PEnd)).
Proof.
  intros IH Hd HV Hinv Hn Hs Hr Hf Hsz. unfold typed_call.
  assert (returns J (Push junk (Call a s r) t) (λ t', added (S n) t t' (PCall (G a) s r PEnd)))
    as Hpush by by apply added_push.
  destruct (Top_spec n t CALL Hinv ltac:(auto)) as [Ht|[(l&[o pv]&Hl&Ho&Ht&Htop)|[Ht Hv]]];
    rewrite Ht; simpl; [done| |by right].
  destruct o as [| |pa ps pr| |]; try done.
  destruct ((pa =? a) && (ps =? s)) eqn:Hc1; [|done].
  assert (pa = a) as -> by lia. assert (ps = s) as -> by lia.
  destruct (pop_last n t l _ CALL Hinv ltac:(lia) Hl Ho Htop)
      as (t1&->&Hi1&Hb1&Hm1&Hok&Hlen&Hps&Hp0); simpl in *.
  pose proof (wf_psize _ (HG a)). destruct Hok as (_&Hpr&_).
  assert (Hsum : psize (G a) * (pr + r) < 2 ^ 64) by nia.
  assert (Hw : 0 ≤ w64 (pr + r) ≤ pr + r).
  { pose proof (w64_range (pr + r)). split; [lia|]. unfold w64. apply Z.mod_le; lia. }
  eapply returns_mono; [apply (IH n t1 a sub s (w64 (pr + r)) Hd HV Hi1); try done; try lia|].
  { apply w64_range. }
  { assert (psize (G a) * w64 (pr + r) ≤ psize (G a) * (pr + r)) by nia. lia. }
  cbn beta. intros t' Had. eapply added_pop; [done..|]. simpl.
  rewrite PCall_reps, PCall_wrap_reps by auto using wf_nonneg with lia. done.
Qed.

Lemma typed_step fuel : typed_ok fuel → typed_ok (S fuel).
Proof.
  intros IH n t a sub s r Hd HV Hinv Hn Hs Hr Hf Hsz. simpl. fold (typed_call fuel t a sub s r).
  pose proof (body_psize_nonneg n t Hinv) as Hp.
  destruct (Z.eqb_spec r 0) as [->|Hr0].
  { apply returns_Ok, added_none; [done|]. apply PCall_zero_reps. }
  assert (returns J (typed_call fuel t a sub s r) (λ t', added (S n) t t' (PCall (G a) s r PEnd)))
    as Hcall by (apply typed_call_step; auto with lia).
  destruct (IsContiguous sub) eqn:Hcont; [|destruct (IsSimple sub) eqn:Hsimp; [|done]].
  - destruct (td_contiguous _ _ Hd Hcont) as (_&m&Hm).
    pose proof (td_small _ _ Hd) as Hsmall. pose proof (td_wf _ _ Hd) as Hwf.
    rewrite (td_data_size _ _ Hd). rewrite Hm in *. simpl in *.
    rewrite Z.mul_1_r, Z.add_0_r in *.
    eapply returns_mono; [apply (AddSimpleInternal_spec n t m s r); try done; lia|cbn beta; intros t' Had].
    eapply added_eq; [done|]. by rewrite PCall_copy_one by lia.
  - destruct (td_simple_prog _ _ Hd Hsimp) as (b&s2&r2&pr&pr'&Hb&Hm). rewrite Hb.
    pose proof (td_wf _ _ Hd) as Hwf. pose proof (td_extent _ _ Hd) as Hext.
    rewrite Hm in *. simpl in Hwf, Hsz, Hext. rewrite Z.add_0_r in *.
    destruct (Z.eqb_spec s (GetExtent sub)) as [Hse|Hse];
      [|destruct (Z.eqb_spec r2 1) as [->|Hr2]; [|done]].
    + assert (r2 * r ≤ b * (r2 * r)) by nia. rewrite (w64_small (r2 * r)) by lia.
      eapply returns_mono; [apply (AddSimpleInternal_spec n t b s2 (r2 * r)); try done; lia|cbn beta; intros t' Had].
      eapply added_eq; [done|].
      rewrite Hse, Hext, w64_eq64. by rewrite PCall_copy_extent by lia.
    + eapply returns_mono; [apply (AddSimpleInternal_spec n t b s r); try done; lia|cbn beta; intros t' Had].
      eapply added_eq; [done|]. by rewrite PCall_copy_one by lia.
Qed.

Lemma typed_all fuel : typed_ok fuel.
Proof.
  induction fuel as [|fuel IH]; [|by apply typed_step].
  unfold typed_ok. intros; lia.
Qed.

(** The completed objects of the heap denote their programs. *)
Definition heap_ok (h : heap) : Prop := ∀ a sub,
  h !! a = Some sub → completed sub = true → type_denotes sub (G a).

Lemma AddTyped_spec h n t a sub s r : heap_ok h → V a →
  h !! a = Some sub → completed sub = true → binv J V n t → Z.of_nat (S n) < max_ops →
  0 ≤ s < 2 ^ 64 → 0 ≤ r < 2 ^ 64 →
  psize (body_prog (tc_body t)) + psize (G a) * r < 2 ^ 64 →
  returns J (AddTyped junk h t a s r) (λ t', layout_added (S n) t t' (PCall (G a) s r PEnd)).
Proof.
  intros Hh HV Ha Hsub Hinv Hn Hs Hr Hsz. unfold AddTyped, AddTypedInternal, IsCompleted.
  rewrite (bi_open _ _ _ _ Hinv), Ha. simpl. rewrite Hsub. simpl.
  set (t1 := if bool_decide _ then _ else t).
  assert (Ht1 : binv J V n t1) by (unfold t1; case_match; [by apply SetPrimitive_binv|done]).
  assert (Hb1 : tc_body t1 = tc_body t) by (unfold t1; by case_match).
  assert (Hr1 : ref_cnt t1 = ref_cnt t) by (unfold t1; by case_match).
  clearbody t1.
  eapply returns_bind; [apply (typed_all (fuel_for t1) n t1 a sub s r); try done|].
  { by apply Hh. } { unfold fuel_for. lia. } { by rewrite Hb1. }
  cbn beta. intros t' [Hi Hp [_ Hr']]. apply returns_Ok. rewrite Hb1 in Hp. case_match; (split; try done; try congruence).
  - by apply SetPrimitive_binv.
  - simpl. congruence.
Qed.

End ops.
