(* ===== verification/TypeComplete.v ===== *)
(** [TypeCode::Complete]: the linked code denotes the layout of the added
    instructions, and the header holds the layout's attributes. *)
From S2P Require Import Prelude.
From S2P Require Import Layout.
From S2P Require Import TypeCode.
From S2P Require Import TypeCodeSpec.

(** * Attributes of well-formed programs *)

Lemma gcd_range a b M : 0 ≤ a < M → 0 ≤ b < M → 0 ≤ Z.gcd a b < M.
Proof.
  intros Ha Hb. split; [apply Z.gcd_nonneg|].
  destruct (Z.eq_dec a 0) as [->|]; [rewrite Z.gcd_0_l_nonneg; lia|].
  pose proof (Z.divide_pos_le (Z.gcd a b) a ltac:(lia) (Z.gcd_divide_l a b)). lia.
Qed.

Lemma punit_range p : wf p → 0 ≤ punit p < 2 ^ 64.
Proof.
  induction p as [|b s r k IH|s k IH|sub IHs s r k IH]; simpl; intros Hp.
  - lia.
  - destruct Hp as (?&?&?&?). apply gcd_range; [lia|auto].
  - destruct Hp. auto.
  - destruct Hp as (?&?&?&?). apply gcd_range; auto.
Qed.

Lemma nblocks_nonneg p : nonneg p → 0 ≤ nblocks p.
Proof. induction p; simpl; try naive_solver lia; intros (?&?&?); nia. Qed.

(** * The loop of [Complete] *)

(** What the loop leaves in [simple]: whether the only instruction is a copy
    right after the header. *)
Fixpoint simple_flag (todo : list Slot) : bool :=
  match todo with
  | [] => false
  | s :: todo =>
      match s_op s with
      | Copy _ _ _ => (s_prev s =? opcode_val BEGIN) && simple_flag todo
      | End => negb (s_prev s =? opcode_val BEGIN)
      | _ => false
      end
  end.

(** Bytes of the sub-types' code that the calls link. *)
Fixpoint linked_size (h : heap) (body : list Slot) : Z :=
  match body with
  | [] => 0
  | s :: body =>
      match s_op s with
      | Call a _ _ => match h !! a with Some sub => GetCodeSize sub | None => 0 end
      | _ => 0
      end + linked_size h body
  end.

(** The header after the loop has gone over the program [p], [n] bytes of
    sub-types linked. *)
Definition header_after (b : BeginHdr) (flag : bool) (n : Z) (p : prog) : BeginHdr :=
  mkBegin (b_contiguous b) (b_simple b && flag) (b_primitive b)
    (Z.max (b_depth b) (pdepth p)) (b_code_size b + n) (w64 (b_data_size b + psize p))
    (w64 (b_extent b + ext p)) (w64 (b_num_blocks b + nblocks p))
    (Z.gcd (b_unit b) (punit p)) (b_atom_size b).

Lemma punit_papp p q : punit (papp p q) = Z.gcd (punit p) (punit q).
Proof.
  induction p; simpl; rewrite ?IHp, ?IHp2, ?Z.gcd_assoc; try done.
  by rewrite Z.gcd_0_l, Z.abs_eq by (clear; induction q; simpl; auto using Z.gcd_nonneg with lia).
Qed.

Lemma nblocks_papp p q : nblocks (papp p q) = nblocks p + nblocks q.
Proof. induction p; simpl; lia. Qed.

Lemma pdepth_papp p q : pdepth (papp p q) = Z.max (pdepth p) (pdepth q).
Proof. induction p; simpl; rewrite ?IHp, ?IHp2; pose proof (pdepth_pos q); lia. Qed.

(** Two stretches of the loop compose. *)
Lemma header_after_after b f1 f2 n1 n2 p q :
  header_after (header_after b f1 n1 p) f2 n2 q =
  header_after b (f1 && f2) (n1 + n2) (papp p q).
Proof.
  unfold header_after. simpl. f_equal.
  - by rewrite andb_assoc.
  - rewrite pdepth_papp. lia.
  - lia.
  - rewrite w64_add_l, psize_papp. f_equal. lia.
  - rewrite w64_add_l, ext_papp. f_equal. lia.
  - rewrite w64_add_l, nblocks_papp. f_equal. lia.
  - by rewrite punit_papp, Z.gcd_assoc.
Qed.

Definition header_ok (b : BeginHdr) : Prop :=
  1 ≤ b_depth b ∧ 0 ≤ b_unit b < 2 ^ 64 ∧ 0 ≤ b_data_size b < 2 ^ 64 ∧
  0 ≤ b_extent b < 2 ^ 64 ∧ 0 ≤ b_num_blocks b < 2 ^ 64.

Lemma header_after_ok b f n p : header_ok b → wf p → header_ok (header_after b f n p).
Proof.
  intros (?&?&?&?&?) Hp. unfold header_ok. simpl. pose proof (punit_range p Hp).
  split; [lia|]. split; [by apply gcd_range|]. auto using w64_range.
Qed.

(** [UpdateUnit] is the greatest common divisor. *)
Lemma UpdateUnit_spec u t : 0 ≤ u < 2 ^ 64 → 0 ≤ b_unit (tc_begin t) →
  UpdateUnit u t = Ok (set_begin (let b := tc_begin t in
    mkBegin (b_contiguous b) (b_simple b) (b_primitive b) (b_depth b)
    (b_code_size b) (b_data_size b) (b_extent b) (b_num_blocks b) (Z.gcd (b_unit b) u)
    (b_atom_size b)) t).
Proof.
  intros Hu Hb. unfold UpdateUnit. destruct (Z.eqb_spec (b_unit (tc_begin t)) 0) as [->|Hne].
  - simpl. by rewrite Z.gcd_0_l_nonneg by lia.
  - by rewrite GCD_fuel by lia.
Qed.

(** [UpdateDepth] is the maximum. *)
Lemma UpdateDepth_spec d t : 0 ≤ d < 2 ^ 32 →
  UpdateDepth d t = set_begin (let b := tc_begin t in
    mkBegin (b_contiguous b) (b_simple b) (b_primitive b) (Z.max (b_depth b) d)
    (b_code_size b) (b_data_size b) (b_extent b) (b_num_blocks b) (b_unit b)
    (b_atom_size b)) t.
Proof.
  intros Hd. unfold UpdateDepth, w32. rewrite Z.mod_small by lia.
  destruct (Z.ltb_spec (b_depth (tc_begin t)) d) as [Hlt|Hge].
  - by rewrite Z.max_r by lia.
  - rewrite Z.max_l by lia. by destruct t as [[]].
Qed.

#[local] Opaque w64.

Section complete.
Context (junk : Z → Z) (h : heap) (G : Z → prog).
Context (Hheap : heap_ok G h).

(** The addresses that can be called. *)
Definition callable (a : Z) : Prop := ∃ sub, h !! a = Some sub ∧ completed sub = true.

Notation instrs_ok := (Forall (λ s, instr_ok callable (s_op s))).

Lemma linked_size_nonneg body : instrs_ok body → 0 ≤ linked_size h body.
Proof.
  induction 1 as [|s body Hs _ IH]; simpl; [lia|].
  destruct (s_op s) as [| |a st r| |]; simpl in *; try lia.
  destruct Hs as (_&_&sub&Hsub&Hc). rewrite Hsub.
  rewrite (td_code_size _ _ (Hheap _ _ Hsub Hc)).
  pose proof (clen_nonneg (type_code sub)). lia.
Qed.

(** The object after the loop. *)
Definition loop_end (t : TypeCode) (flag : bool) (n top buf : Z) (p : prog) : TypeCode :=
  mkTypeCode (header_after (tc_begin t) flag n p) (tc_body t) top buf (prev_cursor t)
    (code_cursor t + n) (completed t) (ref_cnt t).

(** What the loop yields on the instructions [todo] from [pc], the main code
    being [A] before [pc]. *)
Record loop_post (A : list Slot) (todo : list Slot) (instrs : list Slot) (t : TypeCode)
    (linked done extra : list Slot) (t' : TypeCode) : Prop := {
  lp_object : ∃ top buf, t' = loop_end t (simple_flag todo) (linked_size h instrs) top buf
                (body_prog G instrs) ∧ code_cursor t + linked_size h instrs ≤ buf;
  lp_done : clen done = clen todo;
  lp_extra : clen extra = linked_size h instrs;
  lp_code : code_at (A ++ done ++ linked ++ extra) (clen A) (body_prog G instrs);
  lp_plain : simple_flag todo = true → done = todo
}.

(** The conditions under which the loop runs at [pc]. *)
Record loop_pre (A todo instrs linked : list Slot) (t : TypeCode) : Prop := {
  lq_cursor : code_cursor t = clen A + clen todo + clen linked;
  lq_size : GetCodeSize t = code_cursor t;
  lq_fit : code_cursor t ≤ code_buf_size t;
  lq_small : code_cursor t + linked_size h instrs < 2 ^ 62;
  lq_header : header_ok (tc_begin t);
  lq_depth : pdepth (body_prog G instrs) < 2 ^ 32
}.

(** The loop's step over one instruction, of program [q] and linking [sub_code],
    composes with the rest. *)
Lemma loop_step A s' s todo instrs t t1 linked done extra t' q sub_code f cur :
  loop_post (A ++ [s']) todo instrs t1 (linked ++ sub_code) done extra t' →
  op_size (opcode (s_op s')) = op_size (opcode (s_op s)) →
  tc_begin t1 = header_after (tc_begin t) f (clen sub_code) q →
  (∃ top buf, t1 = mkTypeCode (tc_begin t1) (tc_body t) top buf (prev_cursor t) cur
     (completed t) (ref_cnt t)) →
  cur = code_cursor t + clen sub_code →
  linked_size h (s :: instrs) = clen sub_code + linked_size h instrs →
  body_prog G (s :: instrs) = papp q (body_prog G instrs) →
  simple_flag (s :: todo) = f && simple_flag todo → (f = true → s' = s) →
  code_at (A ++ (s' :: done) ++ linked ++ (sub_code ++ extra)) (clen A)
    (body_prog G (s :: instrs)) →
  loop_post A (s :: todo) (s :: instrs) t linked (s' :: done) (sub_code ++ extra) t'.
Proof.
  intros [(top&buf&->&Hbuf) Hd He Hc Hpl] Hsz Hb (top1&buf1&Ht1) Hcur Hls Hbp Hfl Hss Hcode.
  split.
  - exists top, buf. rewrite Hls, Hbp, Hfl. rewrite Ht1 in Hbuf |- *. cbn in Hbuf.
    split; [|lia]. unfold loop_end.
    cbn [tc_begin tc_body prev_cursor code_cursor completed ref_cnt].
    rewrite Hb, header_after_after, Hcur, Z.add_assoc. reflexivity.
  - cbn. lia.
  - rewrite clen_app. lia.
  - exact Hcode.
  - rewrite Hfl. intros [-> Ht]%andb_prop. rewrite Hss, Hpl by done. reflexivity.
Qed.

(** The object after the loop's work on a copy, a shift, and a call. *)
Definition after_copy (s : Slot) (b st r : Z) (t : TypeCode) : TypeCode :=
  set_begin (header_after (tc_begin t) (s_prev s =? opcode_val BEGIN) 0 (PCopy b st r PEnd)) t.
Definition after_shift (sh : Z) (t : TypeCode) : TypeCode :=
  set_begin (header_after (tc_begin t) false 0 (PShift sh PEnd)) t.
Definition after_call (sub : TypeCode) (p : prog) (st r : Z) (t : TypeCode) : TypeCode :=
  set_begin (header_after (tc_begin t) false (GetCodeSize sub) (PCall p st r PEnd))
    (mkTypeCode (tc_begin t) (tc_body t)
       (tc_top_prev (ResizeCodeBuffer junk (code_cursor t + GetCodeSize sub) t))
       (Z.max (code_buf_size t) (code_cursor t + GetCodeSize sub)) (prev_cursor t)
       (code_cursor t + GetCodeSize sub) (completed t) (ref_cnt t)).

(** The updates of the header, on an explicit header: rewriting with these
    composes a chain of updates into one. *)
Section header.
Context (c sm : bool) (pr : primitive_type_t) (d cs ds e nb u a : Z) (t : TypeCode).
Notation hdr := (set_begin (mkBegin c sm pr d cs ds e nb u a) t).

Lemma SetSimple_set v : SetSimple v hdr = set_begin (mkBegin c v pr d cs ds e nb u a) t.
Proof. reflexivity. Qed.
Lemma AddCodeSize_set n :
  AddCodeSize n hdr = set_begin (mkBegin c sm pr d (w64 (cs + n)) ds e nb u a) t.
Proof. reflexivity. Qed.
Lemma AddDataSize_set n :
  AddDataSize n hdr = set_begin (mkBegin c sm pr d cs (w64 (ds + n)) e nb u a) t.
Proof. reflexivity. Qed.
Lemma AddExtent_set n :
  AddExtent n hdr = set_begin (mkBegin c sm pr d cs ds (w64 (e + n)) nb u a) t.
Proof. reflexivity. Qed.
Lemma AddNumBlocks_set n :
  AddNumBlocks n hdr = set_begin (mkBegin c sm pr d cs ds e (w64 (nb + n)) u a) t.
Proof. reflexivity. Qed.
Lemma UpdateDepth_set n : 0 ≤ n < 2 ^ 32 →
  UpdateDepth n hdr = set_begin (mkBegin c sm pr (Z.max d n) cs ds e nb u a) t.
Proof. intros. by rewrite UpdateDepth_spec. Qed.
Lemma UpdateUnit_set n : 0 ≤ n < 2 ^ 64 → 0 ≤ u →
  UpdateUnit n hdr = Ok (set_begin (mkBegin c sm pr d cs ds e nb (Z.gcd u n) a) t).
Proof. intros. by rewrite UpdateUnit_spec. Qed.
Lemma header_after_set f n p :
  header_after (mkBegin c sm pr d cs ds e nb u a) f n p =
  mkBegin c (sm && f) pr (Z.max d (pdepth p)) (cs + n) (w64 (ds + psize p))
    (w64 (e + ext p)) (w64 (nb + nblocks p)) (Z.gcd u (punit p)) a.
Proof. reflexivity. Qed.
Lemma tc_begin_set : tc_begin hdr = mkBegin c sm pr d cs ds e nb u a.
Proof. reflexivity. Qed.
End header.

Create Rewrite HintDb header.
#[local] Hint Rewrite SetSimple_set AddCodeSize_set AddDataSize_set AddExtent_set
  AddNumBlocks_set header_after_set tc_begin_set : header.
#[local] Hint Rewrite UpdateDepth_set UpdateUnit_set using lia : header.

(** Every object has an explicit header. *)
Lemma explicit_header t : ∃ c sm pr d cs ds e nb u a,
  tc_begin t = mkBegin c sm pr d cs ds e nb u a ∧
  t = set_begin (mkBegin c sm pr d cs ds e nb u a) t.
Proof. destruct t as [[]]. repeat eexists. Qed.

(** Equality of two objects that differ in their headers: composes the updates,
    and simplifies the fields under the wrap-around. *)
Ltac header_eq :=
  autorewrite with header; cbn [pdepth psize ext nblocks punit];
  rewrite ?Z.add_0_r, ?w64_add_r, ?andb_true_r, ?andb_false_r, ?Z.gcd_0_r_nonneg,
    ?Z.max_l by lia; try reflexivity.

Lemma after_copy_eq s b st r t : header_ok (tc_begin t) → 0 ≤ b < 2 ^ 64 →
  UpdateUnit b (AddNumBlocks r (AddExtent (w64 (st * r)) (AddDataSize (w64 (b * r))
    (if s_prev s =? opcode_val BEGIN then t else SetSimple false t)))) =
  Ok (after_copy s b st r t).
Proof.
  destruct (explicit_header t) as (c&sm&pr&d&cs&ds&e&nb&u&a&Hh&Ht).
  rewrite Hh. intros (Hd&Hu&_) Hb. cbn in Hd, Hu. unfold after_copy. rewrite Hh, Ht.
  destruct (s_prev s =? opcode_val BEGIN); header_eq.
Qed.

Lemma after_shift_eq sh t : header_ok (tc_begin t) →
  AddExtent sh (SetSimple false t) = after_shift sh t.
Proof.
  destruct (explicit_header t) as (c&sm&pr&d&cs&ds&e&nb&u&a&Hh&Ht).
  rewrite Hh. intros (Hd&Hu&Hds&_&Hnb). cbn in *. unfold after_shift. rewrite Hh, Ht.
  header_eq. by rewrite !(w64_small ds), !(w64_small nb) by lia.
Qed.

Lemma complete_ops_copy b st r pv pc todo t linked :
  header_ok (tc_begin t) → 0 ≤ b < 2 ^ 64 →
  complete_ops junk h pc (mkSlot (Copy b st r) pv :: todo) t linked =
  '(done, linked, t) ← complete_ops junk h (pc + op_size COPY) todo
      (after_copy (mkSlot (Copy b st r) pv) b st r t) linked;
  mret (mkSlot (Copy b st r) pv :: done, linked, t).
Proof.
  intros Ht Hb. pose proof (after_copy_eq (mkSlot (Copy b st r) pv) b st r t Ht Hb) as Heq.
  cbn [s_prev] in Heq. cbn [complete_ops s_op s_prev]. by rewrite Heq.
Qed.

Lemma complete_ops_shift sh pv pc todo t linked : header_ok (tc_begin t) →
  complete_ops junk h pc (mkSlot (Shift sh) pv :: todo) t linked =
  '(done, linked, t) ← complete_ops junk h (pc + op_size SHIFT) todo (after_shift sh t) linked;
  mret (mkSlot (Shift sh) pv :: done, linked, t).
Proof. intros Ht. cbn [complete_ops s_op]. by rewrite after_shift_eq. Qed.

(** The linked size of a call: the sub-type's code. *)
Lemma callable_sub a : callable a → ∃ sub, h !! a = Some sub ∧ type_denotes sub (G a).
Proof. intros (sub&Hs&Hc). eauto. Qed.

(** The object after [make_room]: the header counts the sub-type's code. *)
Definition roomy (sub t : TypeCode) : TypeCode :=
  mkTypeCode (tc_begin t) (tc_body t)
    (tc_top_prev (ResizeCodeBuffer junk (code_cursor t + GetCodeSize sub) t))
    (Z.max (code_buf_size t) (code_cursor t + GetCodeSize sub)) (prev_cursor t)
    (code_cursor t) (completed t) (ref_cnt t).

Lemma make_room_eq sub t :
  GetCodeSize t = code_cursor t → 0 ≤ code_cursor t → 0 ≤ GetCodeSize sub →
  code_cursor t + GetCodeSize sub < 2 ^ 62 →
  make_room junk sub (SetSimple false t) =
  AddCodeSize (GetCodeSize sub) (SetSimple false (roomy sub t)).
Proof.
  intros Hcs Hc Hsub Hsm. unfold make_room. cbv zeta.
  assert (GetCodeSize (AddCodeSize (GetCodeSize sub) (SetSimple false t)) =
          code_cursor t + GetCodeSize sub) as ->.
  { change (w64 (GetCodeSize t + GetCodeSize sub) = code_cursor t + GetCodeSize sub).
    rewrite Hcs. apply w64_small. lia. }
  unfold roomy, ResizeCodeBuffer. cbn [code_buf_size set_begin AddCodeSize SetSimple].
  destruct (Z.leb_spec (code_cursor t + GetCodeSize sub) (code_buf_size t)).
  - rewrite Z.max_l by lia. by destruct t.
  - rewrite Z.max_r by lia. done.
Qed.

Lemma advance_cursor_set n b t :
  advance_cursor n (set_begin b t) = set_begin b (advance_cursor n t).
Proof. reflexivity. Qed.

Lemma after_call_eq sub p st r t : header_ok (tc_begin t) → type_denotes sub p →
  GetCodeSize t = code_cursor t → 0 ≤ code_cursor t →
  code_cursor t + GetCodeSize sub < 2 ^ 62 → pdepth p + 1 < 2 ^ 32 →
  UpdateUnit (GetUnit sub) (AddNumBlocks (w64 (GetNumBlocks sub * r))
    (UpdateDepth (GetDepth sub + 1) (AddExtent (w64 (st * r))
      (AddDataSize (w64 (GetDataSize sub * r))
        (advance_cursor (GetCodeSize sub)
          (AddCodeSize (GetCodeSize sub) (SetSimple false (roomy sub t)))))))) =
  Ok (after_call sub p st r t).
Proof.
  intros (Hd&Hu&_) Hsub Hcs Hc0 Hsm Hdep.
  assert (Hsz : 0 ≤ GetCodeSize sub)
    by (rewrite (td_code_size _ _ Hsub); apply clen_nonneg).
  pose proof (pdepth_pos p). pose proof (punit_range p (td_wf _ _ Hsub)) as Hpu.
  rewrite (td_unit _ _ Hsub), (td_num_blocks _ _ Hsub), (td_depth _ _ Hsub),
    (td_data_size _ _ Hsub), w64_mul_l.
  assert (after_call sub p st r t =
          set_begin (header_after (tc_begin t) false (GetCodeSize sub) (PCall p st r PEnd))
            (advance_cursor (GetCodeSize sub) (roomy sub t))) as ->.
  { unfold after_call, advance_cursor, roomy. cbn [code_cursor tc_begin].
    by rewrite w64_small by lia. }
  unfold GetCodeSize in *.
  destruct (explicit_header t) as (c&sm&pr&d&cs&ds&e&nb&u&a&Hh&_).
  rewrite Hh in *. cbn in Hd, Hu, Hcs.
  assert (roomy sub t = set_begin (mkBegin c sm pr d cs ds e nb u a) (roomy sub t)) as Ht
    by (unfold roomy; by rewrite Hh).
  generalize dependent (roomy sub t). intros t1 Ht. rewrite Ht.
  rewrite SetSimple_set, AddCodeSize_set, !advance_cursor_set. header_eq.
  by rewrite (w64_small (cs + _)), (Z.max_l (pdepth p + 1) 1) by lia.
Qed.

Lemma complete_ops_call sub p a st r pv pc todo t linked :
  header_ok (tc_begin t) → h !! a = Some sub → type_denotes sub p →
  GetCodeSize t = code_cursor t → 0 ≤ code_cursor t → 
  code_cursor t + GetCodeSize sub < 2 ^ 62 → pdepth p + 1 < 2 ^ 32 →
  complete_ops junk h pc (mkSlot (Call a st r) pv :: todo) t linked =
  '(done, linked, t') ← complete_ops junk h (pc + op_size CALL) todo
      (after_call sub p st r t) (linked ++ type_code sub);
  mret (mkSlot (Call (w64 (code_cursor t - pc)) st r) pv :: done, linked, t').
Proof.
  intros Ht Ha Hsub Hcs Hc Hsm Hd.
  assert (Hsz : 0 ≤ GetCodeSize sub)
    by (rewrite (td_code_size _ _ Hsub); apply clen_nonneg).
  pose proof (make_room_eq sub t Hcs Hc Hsz Hsm) as Hroom.
  pose proof (after_call_eq sub p st r t Ht Hsub Hcs Hc Hsm Hd) as Heq.
  rewrite <- Hroom in Heq.
  assert (Hcur : code_cursor (make_room junk sub (SetSimple false t)) = code_cursor t)
    by by rewrite Hroom.
  assert (Hbuf : code_buf_size (make_room junk sub (SetSimple false t)) =
                 code_buf_size t `max` (code_cursor t + GetCodeSize sub))
    by by rewrite Hroom.
  clear Hroom. cbn [complete_ops s_op s_prev]. rewrite Ha. cbn [of_option mbind res_bind].
  generalize dependent (make_room junk sub (SetSimple false t)). intros t1 Heq Hcur Hbuf.
  rewrite Hcur, Hbuf, (proj2 (Z.leb_le _ _)) by lia. cbn [defined mbind res_bind].
  by rewrite Heq.
Qed.

(** ** The loop *)

Definition loop_ok (instrs : list Slot) : Prop := ∀ A pv t linked,
  loop_pre A (instrs ++ [mkSlot End pv]) instrs linked t →
  ∃ done extra t',
    complete_ops junk h (clen A) (instrs ++ [mkSlot End pv]) t linked =
      Ok (done, linked ++ extra, t') ∧
    loop_post A (instrs ++ [mkSlot End pv]) instrs t linked done extra t'.

(** The main code and the linked code, regrouped around one instruction. *)
Lemma code_regroup (A done linked sub_code extra : list Slot) (s : Slot) :
  (A ++ [s]) ++ done ++ (linked ++ sub_code) ++ extra =
  A ++ (s :: done) ++ linked ++ sub_code ++ extra.
Proof. by rewrite <- !(assoc_L (++)). Qed.

Lemma clen_snoc A s : clen (A ++ [s]) = clen A + op_size (opcode (s_op s)).
Proof. rewrite clen_app. cbn. lia. Qed.

Lemma loop_ok_nil : loop_ok [].
Proof.
  intros A pv t linked Hpre. cbn [app] in *.
  exists [mkSlot End pv], [], (loop_end t (negb (pv =? opcode_val BEGIN)) 0
      (tc_top_prev t) (code_buf_size t) PEnd).
  destruct Hpre as [Hcur Hsize Hfit Hsm (Hd&Hu&Hds&He&Hnb) _]. split.
  - cbn [complete_ops app s_op s_prev]. rewrite app_nil_r. unfold loop_end.
    destruct (explicit_header t) as (c&sm&pr&d&cs&ds&e&nb&u&a&Hh&Ht).
    rewrite Hh in *. rewrite Ht. cbn in Hd, Hu, Hds, He, Hnb.
    destruct (pv =? opcode_val BEGIN); cbn [negb]; header_eq;
      rewrite !w64_small by lia; reflexivity.
  - split; [| |done| |done].
    + exists (tc_top_prev t), (code_buf_size t). split; [done|]. cbn. lia.
    + done.
    + cbn [app body_prog]. eapply at_End. apply op_at_mid.
Qed.

Lemma loop_ok_copy b st r pv0 instrs : instr_ok callable (Copy b st r) →
  instrs_ok instrs → loop_ok instrs → loop_ok (mkSlot (Copy b st r) pv0 :: instrs).
Proof.
  intros (Hb&Hst&Hr&_) Hok IH A pv t linked [Hcur Hsize Hfit Hsm Hhdr Hdep].
  set (s := mkSlot (Copy b st r) pv0) in *. cbn [app] in *.
  destruct (IH (A ++ [s]) pv (after_copy s b st r t) linked) as (done&extra&t'&Hrun&Hpost).
  { split; cbn in *; rewrite ?clen_app in *; cbn in *; try done; try lia.
    - unfold GetCodeSize in *. cbn. lia.
    - by apply header_after_ok. }
  exists (s :: done), extra, t'. split.
  - subst s. rewrite complete_ops_copy by (done || lia).
    rewrite clen_snoc in Hrun. cbn [s_op opcode] in Hrun. by rewrite Hrun.
  - change extra with ([] ++ extra).
    eapply loop_step with (q := PCopy b st r PEnd) (f := pv0 =? opcode_val BEGIN)
      (cur := code_cursor t + clen []); try done.
    + rewrite app_nil_r. exact Hpost.
    + reflexivity.
    + exists (tc_top_prev t), (code_buf_size t). cbn. by rewrite Z.add_0_r.
    + eapply at_Copy; [apply op_at_mid|].
      destruct Hpost as [_ _ _ Hc _]. rewrite clen_snoc in Hc.
      rewrite <- (app_nil_r linked) in Hc. rewrite code_regroup in Hc. exact Hc.
Qed.

Lemma loop_ok_shift sh pv0 instrs :
  instrs_ok instrs → loop_ok instrs → loop_ok (mkSlot (Shift sh) pv0 :: instrs).
Proof.
  intros Hok IH A pv t linked [Hcur Hsize Hfit Hsm Hhdr Hdep].
  set (s := mkSlot (Shift sh) pv0) in *. cbn [app] in *.
  destruct (IH (A ++ [s]) pv (after_shift sh t) linked) as (done&extra&t'&Hrun&Hpost).
  { split; cbn in *; rewrite ?clen_app in *; cbn in *; try done; try lia.
    - unfold GetCodeSize in *. cbn. lia.
    - destruct Hhdr as (?&?&?&?&?). unfold header_ok. cbn.
      rewrite Z.gcd_0_r_nonneg by lia. auto 10 using w64_range with lia. }
  exists (s :: done), extra, t'. split.
  - subst s. rewrite complete_ops_shift by done.
    rewrite clen_snoc in Hrun. cbn [s_op opcode] in Hrun. by rewrite Hrun.
  - change extra with ([] ++ extra).
    eapply loop_step with (q := PShift sh PEnd) (f := false)
      (cur := code_cursor t + clen []); try done.
    + rewrite app_nil_r. exact Hpost.
    + reflexivity.
    + exists (tc_top_prev t), (code_buf_size t). cbn. by rewrite Z.add_0_r.
    + eapply at_Shift; [apply op_at_mid|].
      destruct Hpost as [_ _ _ Hc _]. rewrite clen_snoc in Hc.
      rewrite <- (app_nil_r linked) in Hc. rewrite code_regroup in Hc. exact Hc.
Qed.

Lemma loop_ok_call a st r pv0 instrs : instr_ok callable (Call a st r) →
  instrs_ok instrs → loop_ok instrs → loop_ok (mkSlot (Call a st r) pv0 :: instrs).
Proof.
  intros (Hst&Hr&Ha) Hok IH A pv t linked [Hcur Hsize Hfit Hsm Hhdr Hdep].
  destruct (callable_sub a Ha) as (sub&Hsub&Hd). pose proof (td_code_size _ _ Hd) as Hcs.
  pose proof (linked_size_nonneg _ Hok) as Hls. pose proof (clen_nonneg A).
  pose proof (clen_nonneg (type_code sub)). pose proof (clen_nonneg linked).
  cbn [app linked_size s_op body_prog pdepth clen opcode op_size] in *. rewrite Hsub in Hsm.
  pose proof (clen_nonneg instrs). rewrite clen_app in Hcur. cbn [clen s_op opcode op_size] in Hcur.
  set (s := mkSlot (Call a st r) pv0) in *.
  set (s' := mkSlot (Call (w64 (code_cursor t - clen A)) st r) pv0).
  destruct (IH (A ++ [s']) pv (after_call sub (G a) st r t) (linked ++ type_code sub))
    as (done&extra&t'&Hrun&Hpost).
  { assert (Hcur' : code_cursor (after_call sub (G a) st r t) = code_cursor t + GetCodeSize sub)
      by done.
    assert (Hbuf' : code_buf_size (after_call sub (G a) st r t) =
                    Z.max (code_buf_size t) (code_cursor t + GetCodeSize sub)) by done.
    split; rewrite ?clen_app, ?Hcur', ?Hbuf'; cbn [clen s' s_op opcode op_size]; try lia.
    - change (GetCodeSize t + GetCodeSize sub = code_cursor t + GetCodeSize sub). lia.
    - apply header_after_ok; [done|]. pose proof (td_wf _ _ Hd). cbn. auto. }
  exists (s' :: done), (type_code sub ++ extra), t'. split.
  - subst s. rewrite (complete_ops_call sub (G a)) by (done || lia).
    rewrite clen_snoc in Hrun. cbn [s' s_op opcode] in Hrun. rewrite Hrun.
    by rewrite (assoc_L (++)).
  - eapply loop_step with (q := PCall (G a) st r PEnd) (f := false)
      (cur := code_cursor t + clen (type_code sub)); try done.
    + cbn. by rewrite Hcs.
    + rewrite <- Hcs. do 2 eexists. reflexivity.
    + cbn. by rewrite Hsub, Hcs.
    + destruct Hpost as [_ Hdone _ Hc _]. rewrite clen_snoc, code_regroup in Hc.
      assert (Hoff : w64 (code_cursor t - clen A) =
                     op_size CALL + clen done + clen linked).
      { rewrite w64_small by lia. rewrite Hdone, clen_app. cbn. lia. }
      assert (Hpos : clen A + (op_size CALL + clen done + clen linked) =
                     clen (A ++ (s' :: done) ++ linked)).
      { rewrite !clen_app. cbn. lia. }
      assert (Hre : A ++ (s' :: done) ++ linked ++ type_code sub ++ extra =
                    (A ++ (s' :: done) ++ linked) ++ type_code sub ++ extra)
        by by rewrite <- !(assoc_L (++)).
      cbn [body_prog s_op s]. eapply at_Call with (b := tc_begin sub).
      * apply op_at_mid.
      * done.
      * apply w64_range.
      * rewrite Hoff, Hpos, Hre. apply op_at_mid.
      * apply (td_data_size _ _ Hd).
      * rewrite Hoff, Hpos, Hre. apply code_at_relocate. apply (td_code _ _ Hd).
      * exact Hc.
Qed.

Lemma loop_spec instrs : instrs_ok instrs → loop_ok instrs.
Proof.
  induction 1 as [|[o pv] instrs Ho Hok IH]; [apply loop_ok_nil|].
  destruct o; cbn [s_op] in Ho; try done;
    [by apply loop_ok_copy|by apply loop_ok_call|by apply loop_ok_shift].
Qed.

(** ** [Complete] *)

(** What fresh memory may hold. *)
Context (J : Z → Prop) (Hjunk : ∀ n, J (junk n)).
Context (HG : ∀ a, wf (G a)).

(** The object once [End] is pushed. *)
Record ended (t t1 : TypeCode) (pv : Z) : Prop := {
  en_body : tc_body t1 = tc_body t ++ [mkSlot End pv];
  en_prevs : prevs_ok J 0 BEGIN (tc_body t) pv;
  en_header : tc_begin t1 =
    mkBegin true true (GetPrimitive t) 1 (code_cursor t1) 0 0 0 0 0;
  en_cursor : code_cursor t1 = op_size BEGIN + clen (tc_body t1);
  en_fit : code_cursor t1 ≤ code_buf_size t1;
  en_open : completed t1 = false;
  en_ref_cnt : ref_cnt t1 = ref_cnt t
}.

Lemma Push_End_spec n t : binv J callable n t → Z.of_nat (S n) < max_ops →
  ∃ t1 pv, Push junk End t = Ok t1 ∧ ended t t1 pv.
Proof.
  intros Hinv Hn.
  destruct (CheckCodeBuffer_spec J callable junk Hjunk n t END Hinv Hn ltac:(done))
    as (Hinv1&Hfit&Hbody&Hmeta).
  unfold Push. cbn [opcode]. set (t0 := CheckCodeBuffer _ _ _) in *. clearbody t0.
  rewrite (proj2 (Z.leb_le _ _)) by done. cbn [defined mbind res_bind].
  pose proof (binv_bounds J callable _ t0 Hinv1 ltac:(lia)) as (Hc&Hb&Hc').
  destruct Hinv1 as [Hopen (prim&cs&Hh) Hcs Hcur Hok Hprev Hlen Hroom Hbuf].
  destruct Hmeta as [Hprim Href]. unfold GetPrimitive in Hprim. unfold GetCodeSize in Hcs.
  rewrite Hh in *. cbn in Hcs, Hprim. subst cs prim.
  eexists _, (tc_top_prev t0). split; [reflexivity|].
  unfold AddCodeSize. cbn [tc_begin tc_body].
  cbn [op_size] in *. unfold sizeof_Op in *.
  split; cbn [tc_body tc_begin set_begin code_cursor completed ref_cnt code_buf_size
    b_contiguous b_simple b_primitive b_depth b_code_size b_data_size b_extent
    b_num_blocks b_unit b_atom_size]; rewrite ?w64_small by lia; try done; try lia.
  - by rewrite Hbody.
  - by rewrite <- Hbody.
  - rewrite clen_app. cbn. lia.
Qed.

Lemma simple_flag_spec body pv : instrs_ok body → prevs_ok J 0 BEGIN body pv →
  simple_flag (body ++ [mkSlot End pv]) = true →
  ∃ b st r pr, body = [mkSlot (Copy b st r) pr].
Proof.
  intros Hok Hp. destruct body as [|[o1 p1] [|[o2 p2] body]]; cbn.
  - destruct Hp as [->|[Hlt _]]; [done|lia].
  - apply Forall_cons in Hok as [Ho1 _]. intros Hs. destruct o1; try done. by eauto.
  - apply Forall_cons in Hok as [Ho1 Hok]. apply Forall_cons in Hok as [Ho2 _].
    destruct Hp as (_&Hp&_). cbn [s_op] in *. intros Hs.
    destruct o1; try done. apply andb_prop in Hs as [_ Hs].
    destruct o2; try done. apply andb_prop in Hs as [Hs _].
    destruct Hp as [Hp|[? _]]; [|lia]. cbn in *. lia.
Qed.

Lemma simple_flag_copy b st r pr pv :
  prevs_ok J 0 BEGIN [mkSlot (Copy b st r) pr] pv →
  simple_flag [mkSlot (Copy b st r) pr; mkSlot End pv] = true.
Proof. cbn. intros [[Hp|[Hp _]] [Hv|[Hv _]]]; cbn in *; subst; done || lia. Qed.

Lemma clen_zero C : clen C = 0 → C = [].
Proof.
  destruct C as [|s C]; [done|]. cbn. pose proof (clen_nonneg C).
  pose proof (op_size_pos (opcode (s_op s))). lia.
Qed.

(** A simple type is a single copy; it is contiguous when the copy's stride is
    its block size. *)
Definition single_copy (body : list Slot) : bool :=
  match body with [mkSlot (Copy _ _ _) _] => true | _ => false end.
Definition single_block (body : list Slot) : bool :=
  match body with [mkSlot (Copy b st _) _] => b =? st | _ => false end.

Lemma simple_flag_single body pv : instrs_ok body → prevs_ok J 0 BEGIN body pv →
  simple_flag (body ++ [mkSlot End pv]) = single_copy body.
Proof.
  intros Hok Hp. destruct (simple_flag (body ++ [mkSlot End pv])) eqn:Hs.
  - by destruct (simple_flag_spec _ _ Hok Hp Hs) as (b&st&r&pr&->).
  - destruct (single_copy body) eqn:Hc; [|done].
    destruct body as [|[[|b st r| | |] pr] [|]]; try done.
    rewrite <- Hs. by apply simple_flag_copy.
Qed.

(** The object when the loop is done. *)
Definition looped (t t1 : TypeCode) (pv : Z) (t2 : TypeCode) : Prop :=
  ∃ done extra top buf,
    t2 = mkTypeCode (header_after (tc_begin t1) (single_copy (tc_body t))
             (linked_size h (tc_body t)) (body_prog G (tc_body t)))
           (done ++ extra) top buf (prev_cursor t1)
           (code_cursor t1 + linked_size h (tc_body t)) false (ref_cnt t) ∧
    clen done = clen (tc_body t1) ∧ clen extra = linked_size h (tc_body t) ∧
    code_at (mkSlot (Begin (tc_begin t2)) 0 :: done ++ extra) (op_size BEGIN)
      (body_prog G (tc_body t)) ∧
    (single_copy (tc_body t) = true → done ++ extra = tc_body t1).

Lemma looped_spec t t1 pv : instrs_ok (tc_body t) → ended t t1 pv →
  code_cursor t1 + linked_size h (tc_body t) < 2 ^ 62 →
  pdepth (body_prog G (tc_body t)) < 2 ^ 32 →
  ∃ done extra t2, complete_ops junk h (op_size BEGIN) (tc_body t1) t1 [] =
      Ok (done, extra, t2) ∧
    let t3 := mkTypeCode (tc_begin t2) (done ++ extra) (tc_top_prev t2) (code_buf_size t2)
                (prev_cursor t2) (code_cursor t2) (completed t2) (ref_cnt t2) in
    looped t t1 pv t3.
Proof.
  intros Hok [Hbody Hprevs Hhdr Hcur Hfit Hopen Href] Hsm Hdep.
  pose proof (simple_flag_single _ _ Hok Hprevs) as Hflag.
  set (b2 := header_after (tc_begin t1) (single_copy (tc_body t))
               (linked_size h (tc_body t)) (body_prog G (tc_body t))).
  destruct (loop_spec (tc_body t) Hok [mkSlot (Begin b2) 0] pv t1 [])
    as (done&extra&t2&Hrun&[(top&buf&->&Hb) Hdone Hextra Hcode Hplain]).
  { split; cbn [clen]; rewrite ?Hbody in *; try done; try lia.
    - rewrite Hcur. cbn. lia.
    - unfold GetCodeSize. by rewrite Hhdr.
    - rewrite Hhdr. unfold header_ok. cbn. lia. }
  rewrite Hflag in *. cbn [app] in *.
  exists done, extra, (loop_end t1 (single_copy (tc_body t)) (linked_size h (tc_body t)) top buf
    (body_prog G (tc_body t))).
  split; [by rewrite Hbody|]. unfold looped, loop_end. cbn.
  exists done, extra, top, buf. rewrite Hopen, Href. split; [done|].
  rewrite Hbody. split; [done|]. split; [done|]. split; [exact Hcode|].
  intros Hs. rewrite (Hplain Hs). replace extra with (@nil Slot); [by rewrite app_nil_r|].
  symmetry. apply clen_zero. rewrite Hextra.
  destruct (tc_body t) as [|[[] ?] [|]]; done.
Qed.

Lemma contiguity_spec t t1 pv t3 : instrs_ok (tc_body t) → ended t t1 pv →
  looped t t1 pv t3 →
  complete_contiguity t3 = Ok (SetContiguous (single_block (tc_body t)) t3).
Proof.
  intros Hok Hend (done&extra&top&buf&->&_&_&_&Hsingle).
  rewrite (en_body _ _ _ Hend), (en_header _ _ _ Hend) in *.
  unfold complete_contiguity, IsSimple, header_after.
  cbn [tc_begin tc_body b_simple b_contiguous andb].
  destruct (single_copy (tc_body t)) eqn:Hs; cbn [negb].
  - rewrite Hsingle by reflexivity.
    destruct (tc_body t) as [|[[|b st r| | |] pr] [|]]; try done. cbn [app single_block].
    apply Forall_cons in Hok as [(_&_&_&Hnf) _].
    destruct (Z.eqb_spec b st) as [->|Hne]; [|done].
    rewrite Hnf by done. done.
  - replace (single_block (tc_body t)) with false; [done|].
    by destruct (tc_body t) as [|[[|b st r| | |] pr] [|]].
Qed.

Lemma single_block_copy body : instrs_ok body → single_block body = true →
  single_copy body = true ∧ ∃ m, body_prog G body = PCopy m m 1 PEnd.
Proof.
  destruct body as [|[[|b st r| | |] pr] [|]]; try done. cbn.
  intros [(_&_&_&Hnf) _]%Forall_cons Hb. assert (b = st) as <- by lia.
  rewrite Hnf by done. eauto.
Qed.

(** The code after the header does not depend on the header. *)
Lemma op_at_header b b' C pc : op_size BEGIN ≤ pc →
  op_at (mkSlot (Begin b) 0 :: C) pc = op_at (mkSlot (Begin b') 0 :: C) pc.
Proof.
  intros Hpc. cbn in *. rewrite (proj2 (Z.eqb_neq pc 0)) by lia.
  by rewrite (proj2 (Z.ltb_ge pc 64)) by lia.
Qed.

Lemma code_at_header b b' C pc p : op_size BEGIN ≤ pc →
  code_at (mkSlot (Begin b) 0 :: C) pc p → code_at (mkSlot (Begin b') 0 :: C) pc p.
Proof.
  intros Hpc Hc. revert Hpc.
  induction Hc as [pc pr Ho|pc b0 s r k pr Ho _ IH|pc s k pr Ho _ IH
    |pc off sub s r k b0 pr pr' Ho _ Hoff Hb Hd _ IHs _ IH];
    intros Hpc; rewrite (op_at_header b b') in Ho by lia.
  - by eapply at_End.
  - eapply at_Copy; [done|]. apply IH. cbn in *. lia.
  - eapply at_Shift; [done|]. apply IH. cbn in *. lia.
  - rewrite (op_at_header b b') in Hb by lia.
    eapply at_Call; [done|cbn in *; lia|done|done|done|apply IHs|apply IH]; cbn in *; lia.
Qed.

(** The object [Complete] yields, field by field. *)
Definition complete_result (t t1 : TypeCode) (code : list Slot) (top buf : Z) : TypeCode :=
  let p := body_prog G (tc_body t) in
  mkTypeCode
    (mkBegin (single_block (tc_body t)) (single_copy (tc_body t))
       (if bool_decide (GetPrimitive t = PRIMITIVE_TYPE_UNDEFINED)
        then PRIMITIVE_TYPE_COUNT else GetPrimitive t)
       (Z.max 1 (pdepth p)) (code_cursor t1 + linked_size h (tc_body t)) (w64 (0 + psize p))
       (w64 (0 + ext p)) (w64 (0 + nblocks p)) (Z.gcd 0 (punit p)) 0)
    code top buf (prev_cursor t1) (code_cursor t1 + linked_size h (tc_body t)) true (ref_cnt t).

Lemma Complete_result n t : binv J callable n t → Z.of_nat (S n) < max_ops →
  op_size BEGIN + clen (tc_body t) + op_size END + linked_size h (tc_body t) < 2 ^ 62 →
  pdepth (body_prog G (tc_body t)) < 2 ^ 32 →
  ∃ t1 pv code top buf b, ended t t1 pv ∧
    Complete junk h t = Ok (complete_result t t1 code top buf) ∧
    clen code = clen (tc_body t1) + linked_size h (tc_body t) ∧
    code_at (mkSlot (Begin b) 0 :: code) (op_size BEGIN) (body_prog G (tc_body t)) ∧
    (single_copy (tc_body t) = true → code = tc_body t1).
Proof.
  intros Hinv Hn Hsm Hdep. pose proof (bi_body _ _ _ _ Hinv) as Hok.
  destruct (Push_End_spec n t Hinv Hn) as (t1&pv&Hpush&Hend).
  assert (Hc1 : code_cursor t1 = op_size BEGIN + clen (tc_body t) + op_size END).
  { rewrite (en_cursor _ _ _ Hend), (en_body _ _ _ Hend), clen_app. cbn. lia. }
  destruct (looped_spec t t1 pv Hok Hend ltac:(lia) Hdep) as (done&extra&t2&Hrun&Hlp).
  unfold Complete, IsCompleted. rewrite (bi_open _ _ _ _ Hinv). cbn [assert negb mbind res_bind].
  rewrite Hpush. cbn [mbind res_bind].
  assert (Hgcs : GetCodeSize t1 = code_cursor t1)
    by (unfold GetCodeSize; by rewrite (en_header _ _ _ Hend)).
  rewrite Hgcs, Z.leb_refl. cbn [assert mbind res_bind]. rewrite Hrun. cbn [mbind res_bind].
  cbv zeta in *. set (t3 := mkTypeCode _ _ _ _ _ _ _ _) in *. clearbody t3.
  rewrite (contiguity_spec t t1 pv t3) by done. cbn [mbind res_bind].
  destruct Hlp as (d&e&top&buf&->&Hd&He&Hcode&Hsingle).
  rewrite (en_header _ _ _ Hend) in *.
  exists t1, pv, (d ++ e), top, buf. eexists. split; [exact Hend|].
  split; [|split; [rewrite clen_app; lia|split; [exact Hcode|exact Hsingle]]].
  unfold GetPrimitive, SetContiguous, header_after, complete_result.
  cbn [tc_begin b_primitive set_begin].
  destruct (decide (b_primitive (tc_begin t) = PRIMITIVE_TYPE_UNDEFINED)) as [Hu|Hne].
  - rewrite !bool_decide_eq_true_2 by exact Hu. reflexivity.
  - rewrite !bool_decide_eq_false_2 by exact Hne. reflexivity.
Qed.

Lemma Complete_post n t : binv J callable n t → Z.of_nat (S n) < max_ops →
  op_size BEGIN + clen (tc_body t) + op_size END + linked_size h (tc_body t) < 2 ^ 62 →
  pdepth (body_prog G (tc_body t)) < 2 ^ 32 → psize (body_prog G (tc_body t)) < 2 ^ 64 →
  ∃ t', Complete junk h t = Ok t' ∧ type_denotes t' (body_prog G (tc_body t)) ∧
    IsSimple t' = single_copy (tc_body t) ∧ IsContiguous t' = single_block (tc_body t) ∧
    ref_cnt t' = ref_cnt t ∧
    GetPrimitive t' = (if bool_decide (GetPrimitive t = PRIMITIVE_TYPE_UNDEFINED)
                       then PRIMITIVE_TYPE_COUNT else GetPrimitive t).
Proof.
  intros Hinv Hn Hsm Hdep Hsz.
  pose proof (bi_body _ _ _ _ Hinv) as Hok. pose proof (body_wf callable G HG _ Hok) as Hwf.
  destruct (Complete_result n t Hinv Hn Hsm Hdep)
    as (t1&pv&code&top&buf&b&Hend&Hrun&Hlen&Hcode&Hsingle).
  exists (complete_result t t1 code top buf). split; [done|]. split; [|done].
  pose proof (wf_psize _ Hwf). pose proof (punit_range _ Hwf).
  pose proof (pdepth_pos (body_prog G (tc_body t))).
  pose proof (en_cursor _ _ _ Hend) as Hcur.
  split; unfold complete_result; cbn [tc_begin]; try done.
  - by eapply code_at_header.
  - change (w64 (0 + psize (body_prog G (tc_body t))) = psize (body_prog G (tc_body t))).
    by rewrite w64_small by lia.
  - change (Z.gcd 0 (punit (body_prog G (tc_body t))) = punit (body_prog G (tc_body t))).
    by rewrite Z.gcd_0_l_nonneg by lia.
  - change (Z.max 1 (pdepth (body_prog G (tc_body t))) = pdepth (body_prog G (tc_body t))). lia.
  - change (code_cursor t1 + linked_size h (tc_body t) = op_size BEGIN + clen code). lia.
  - change (op_size BEGIN + clen code < 2 ^ 64). rewrite Hlen, (en_body _ _ _ Hend), clen_app.
    change (op_size END) with 8 in *. cbn [clen op_size opcode s_op] in *. lia.
  - unfold IsSimple. cbn. intros Hs. rewrite (Hsingle Hs), (en_body _ _ _ Hend).
    destruct (tc_body t) as [|[[|c st r| | |] pr] [|]]; try done. cbn. eauto 10.
  - unfold IsContiguous, IsSimple. cbn. intros Hs. by apply single_block_copy.
Qed.

End complete.
