(* ===== verification/TypeBuild.v ===== *)
(** Building a data type end to end: a sequence of the builder's operations,
    then [Complete] (src/common/type/TypeCode.h), yields code that denotes the
    layout the operations describe. *)
From S2P Require Import Prelude.
From S2P Require Import Layout.
From S2P Require Import TypeCode.
From S2P Require Import TypeCodeSpec.
From S2P Require Import TypeComplete.

(** * A building session *)

(** The operations a client of [TypeCode] calls on an open type. *)
Inductive type_cmd :=
| add_shift (shift : Z)
| add_simple (bytes stride reps : Z)
| add_typed (sub_type stride reps : Z).

Section build.
Context (junk : Z → Z) (h : heap).

Definition run_cmd (t : TypeCode) (c : type_cmd) : res TypeCode :=
  match c with
  | add_shift s => AddShift junk t s
  | add_simple b s r => AddSimple junk t b s r
  | add_typed a s r => AddTyped junk h t a s r
  end.

Fixpoint run_cmds (t : TypeCode) (cs : list type_cmd) : res TypeCode :=
  match cs with
  | [] => mret t
  | c :: cs => t ← run_cmd t c; run_cmds t cs
  end.

(** A new object, the operations, [Complete]. *)
Definition build (cs : list type_cmd) : res TypeCode :=
  t ← TypeCode_new junk; t ← run_cmds t cs; Complete junk h t.

End build.

(** The layout the operations ask for, before any optimisation. *)
Definition cmd_prog (G : Z → prog) (c : type_cmd) : prog :=
  match c with
  | add_shift s => PShift s PEnd
  | add_simple b s r => PCopy b s r PEnd
  | add_typed a s r => PCall (G a) s r PEnd
  end.

Fixpoint cmds_prog (G : Z → prog) (cs : list type_cmd) : prog :=
  match cs with [] => PEnd | c :: cs => papp (cmd_prog G c) (cmds_prog G cs) end.

(** * The new object *)

Lemma TypeCode_new_eq junk : ∃ t, TypeCode_new junk = Ok t ∧
  tc_begin t = mkBegin true true PRIMITIVE_TYPE_UNDEFINED 1 64 0 0 0 0 0 ∧
  tc_body t = [] ∧ tc_top_prev t = opcode_val BEGIN ∧ code_buf_size t = 192 ∧
  code_cursor t = 64 ∧ completed t = false ∧ ref_cnt t = 0.
Proof. eexists. split; [reflexivity|]. repeat split. Qed.

Lemma TypeCode_new_binv J V junk t : TypeCode_new junk = Ok t → binv J V 0 t.
Proof.
  destruct (TypeCode_new_eq junk) as (t'&->&Hb&Hbody&Htop&Hbuf&Hcur&Hopen&Href).
  intros [= <-]. split; rewrite ?Hbody, ?Htop, ?Hbuf, ?Hcur; try done.
  - rewrite Hb. eauto.
  - unfold GetCodeSize. by rewrite Hb.
  - by left.
Qed.

(** A type may call what the invariant allows it to call. *)
Lemma binv_weaken J (V W : Z → Prop) n t : (∀ a, V a → W a) → binv J V n t → binv J W n t.
Proof.
  intros HVW []. split; auto. eapply Forall_impl; [done|]. intros [o pv] Ho. cbn in *.
  destruct o; cbn in *; naive_solver.
Qed.

(** * The session *)

(** The words fresh memory holds. *)
Definition fresh (junk : Z → Z) (v : Z) : Prop := ∃ n, junk n = v.

Section session.
Context (junk : Z → Z).

Notation J := (fresh junk).

Lemma fresh_junk n : J (junk n).
Proof. by exists n. Qed.

Context (h : heap) (G : Z → prog) (HG : ∀ a, wf (G a)) (Hheap : heap_ok G h).
(** A bound on the code size of the types that are called. *)
Context (M : Z).

(** The sub-types a session may use: completed, of a code size at most [M], and
    not nested to the limit of the [depth] field. *)
Definition usable (a : Z) : Prop :=
  ∃ sub, h !! a = Some sub ∧ completed sub = true ∧ GetCodeSize sub ≤ M ∧
         pdepth (G a) + 1 < 2 ^ 32.

Definition cmd_ok (c : type_cmd) : Prop :=
  match c with
  | add_shift s => 0 ≤ s < 2 ^ 64
  | add_simple b s r => 0 ≤ b < 2 ^ 64 ∧ 0 ≤ s < 2 ^ 64 ∧ 0 ≤ r < 2 ^ 64
  | add_typed a s r => 0 ≤ s < 2 ^ 64 ∧ 0 ≤ r < 2 ^ 64 ∧ usable a
  end.

Lemma cmd_psize_nonneg c : cmd_ok c → 0 ≤ psize (cmd_prog G c).
Proof.
  destruct c as [|b s r|a s r]; cbn; [lia|nia|].
  intros (_&Hr&_). pose proof (wf_psize _ (HG a)). nia.
Qed.

Lemma cmds_psize_nonneg cs : Forall cmd_ok cs → 0 ≤ psize (cmds_prog G cs).
Proof.
  induction 1 as [|c cs Hc _ IH]; cbn [cmds_prog]; [done|].
  rewrite psize_papp. pose proof (cmd_psize_nonneg c Hc). lia.
Qed.

Lemma run_cmd_spec n t c : cmd_ok c → binv J usable n t → Z.of_nat (S n) < max_ops →
  psize (body_prog G (tc_body t)) + psize (cmd_prog G c) < 2 ^ 64 →
  returns J (run_cmd junk h t c) (λ t', layout_added J usable G (S n) t t' (cmd_prog G c)).
Proof.
  intros Hc Hinv Hn Hsz. destruct c as [s|b s r|a s r]; cbn [run_cmd cmd_prog psize] in *.
  - eapply returns_mono; [apply (AddShift_spec J usable junk fresh_junk G HG n t s Hinv Hn); [done|lia]|].
    cbn beta. intros t' [Hi Hp [_ Hr]]. by split.
  - destruct Hc as (?&?&?). apply AddSimple_spec; auto using fresh_junk. lia.
  - destruct Hc as (?&?&Hu). pose proof Hu as (sub&Hsub&Hcmp&_).
    eapply AddTyped_spec; eauto using fresh_junk. lia.
Qed.

Lemma run_cmds_spec cs : Forall cmd_ok cs → ∀ n t, binv J usable n t →
  Z.of_nat (n + length cs) < max_ops →
  psize (body_prog G (tc_body t)) + psize (cmds_prog G cs) < 2 ^ 64 →
  returns J (run_cmds junk h t cs)
    (λ t', layout_added J usable G (n + length cs) t t' (cmds_prog G cs)).
Proof.
  induction 1 as [|c cs Hc Hcs IH]; intros n t Hinv Hn Hsz; cbn [cmds_prog run_cmds length] in *.
  - apply returns_Ok. rewrite Nat.add_0_r. split; [done| |done]. by rewrite papp_PEnd.
  - rewrite psize_papp in Hsz. pose proof (cmds_psize_nonneg cs Hcs).
    eapply returns_bind; [apply (run_cmd_spec n t c Hc Hinv); lia|]. cbn beta.
    intros t1 [Hinv1 Hp1 Hr1]. eapply returns_mono; [apply (IH (S n) t1 Hinv1); [lia|]|].
    { rewrite (prog_eq_size _ _ Hp1), psize_papp. lia. }
    cbn beta. intros t' [Hinv' Hp' Hr']. split.
    + by replace (n + S (length cs))%nat with (S n + length cs)%nat by lia.
    + by rewrite Hp', Hp1, papp_assoc.
    + congruence.
Qed.

(** The code the session links is bounded, and so is its depth. *)
Lemma usable_linked_size body : 0 ≤ M → Forall (λ s, instr_ok usable (s_op s)) body →
  linked_size h body ≤ M * Z.of_nat (length body).
Proof.
  intros HM. induction 1 as [|s body Hs _ IH]; cbn [linked_size length]; [lia|].
  rewrite Nat2Z.inj_succ.
  assert (match s_op s with
          | Call a _ _ => match h !! a with Some sub => GetCodeSize sub | None => 0 end
          | _ => 0 end ≤ M); [|lia].
  destruct (s_op s) as [| |a st r| |]; cbn in Hs; try done.
  destruct Hs as (_&_&sub&->&_&?&_). done.
Qed.

Lemma usable_pdepth body : Forall (λ s, instr_ok usable (s_op s)) body →
  pdepth (body_prog G body) < 2 ^ 32.
Proof.
  induction 1 as [|s body Hs _ IH]; [done|]. cbn.
  destruct (s_op s) as [| |a st r| |]; cbn in *; try done.
  destruct Hs as (_&_&sub&_&_&_&?). lia.
Qed.

Lemma build_spec cs : Forall cmd_ok cs → 0 ≤ M → Z.of_nat (S (length cs)) < max_ops →
  M * Z.of_nat (length cs) < 2 ^ 61 → psize (cmds_prog G cs) < 2 ^ 64 →
  returns J (build junk h cs)
    (λ t, ∃ p, type_denotes t p ∧ p ≃ₚ cmds_prog G cs ∧ ref_cnt t = 0).
Proof.
  intros Hcs HM Hn HMn Hsz. unfold build.
  destruct (TypeCode_new_eq junk) as (t0&Hnew&_&Hb0&_&_&_&_&Hr0). rewrite Hnew.
  pose proof (TypeCode_new_binv J usable junk t0 Hnew) as Hinv0. rewrite bind_ret.
  eapply returns_bind; [apply (run_cmds_spec cs Hcs 0 t0 Hinv0); [lia|]|].
  { rewrite Hb0. cbn. lia. }
  cbn beta. intros t [Hinv Hp Hr]. cbn [Nat.add] in *. rewrite Hb0 in Hp. cbn [body_prog papp] in Hp.
  pose proof (bi_body _ _ _ _ Hinv) as Hbody. pose proof (bi_len _ _ _ _ Hinv) as Hlen.
  pose proof (binv_bounds _ _ _ _ Hinv ltac:(lia)) as (Hcb&_&_).
  pose proof (bi_cursor _ _ _ _ Hinv) as Hcur.
  pose proof (usable_linked_size _ HM Hbody) as Hls.
  assert (Hcall : ∀ a, usable a → callable h a) by (intros a (sub&?&?&_); by exists sub).
  destruct (Complete_post junk h G Hheap J fresh_junk HG (length cs) t) as (t'&Hrun&Htd&_&_&Hr'&_).
  - by eapply binv_weaken.
  - done.
  - assert (M * Z.of_nat (length (tc_body t)) ≤ M * Z.of_nat (length cs))
      by (apply Z.mul_le_mono_nonneg_l; lia).
    change (op_size BEGIN) with 64 in *. change (op_size END) with 8. lia.
  - by apply usable_pdepth.
  - by rewrite (prog_eq_size _ _ Hp).
  - rewrite Hrun. apply returns_Ok. exists (body_prog G (tc_body t)). by rewrite Hr', Hr, Hr0.
Qed.

End session.

(** * A concrete heap

    One completed type at address 1000 that needs calls: two 8-byte blocks 16
    apart, then 4 bytes. *)

Definition quiet (n : Z) : Z := 0.

Lemma quiet_harmless n : harmless (quiet n).
Proof. done. Qed.

Definition demo_cmds : list type_cmd := [add_simple 8 16 2; add_simple 4 4 1].
Definition demo_prog : prog := PCopy 8 16 2 (PCopy 4 4 1 PEnd).

Definition demo_type : TypeCode :=
  Eval vm_compute in match build quiet ∅ demo_cmds with
                     | Ok t => t
                     | Err _ => mkTypeCode Begin_init [] 0 0 0 0 false 0
                     end.

Definition demo_heap : heap := {[ 1000 := demo_type ]}.
Definition demo_G (a : Z) : prog := if a =? 1000 then demo_prog else PEnd.

Lemma demo_denotes : type_denotes demo_type demo_prog.
Proof.
  split; try done; try (by vm_compute).
  - eapply at_Copy; [reflexivity|]. eapply at_Copy; [reflexivity|]. by eapply at_End.
Qed.

Lemma demo_G_wf a : wf (demo_G a).
Proof. unfold demo_G. case_match; cbn; lia. Qed.

Lemma demo_heap_ok : heap_ok demo_G demo_heap.
Proof.
  intros a sub. unfold demo_heap. rewrite lookup_singleton_Some. intros [<- <-] _.
  apply demo_denotes.
Qed.

Lemma demo_usable : usable demo_heap demo_G 256 1000.
Proof.
  exists demo_type. split; [apply lookup_singleton_eq|]. split; [done|].
  split; vm_compute; congruence.
Qed.

(** An open type of one instruction. *)
Definition demo_open : TypeCode :=
  Eval vm_compute in match (t ← TypeCode_new quiet; run_cmds quiet ∅ t [add_simple 8 16 1]) with
                     | Ok t => t
                     | Err _ => demo_type
                     end.

Lemma demo_open_binv J V : binv J V 1 demo_open.
Proof.
  split; try done; try (cbn; lia).
  - by repeat eexists.
  - repeat constructor; cbn; lia.
  - split; [by left|by left].
Qed.

(** * Properties *)

(** C1. Building a type refines the layout its operations describe.  For any
    sequence of [AddShift], [AddSimple] and [AddTyped] within the limits, and
    whatever fresh memory holds, the constructor, the operations and [Complete]
    give completed code that denotes a program equivalent to the operations' own
    (the same bytes, at the same displacements modulo [2^64], with the same size
    and extent; the header's data size, extent, blocks, unit, depth and code size
    are the ones of that program), or an instruction is read at the wrong type.
    The second takes a word of fresh memory that is one of the opcodes [COPY],
    [CALL] and [SHIFT], where [ResizeCodeBuffer] loses the previous opcode: when
    no fresh word is, every session succeeds.  No assertion fails, no write is
    out of the buffer and nothing diverges in either case. *)
Theorem build_correct (junk : Z → Z) (h : heap) (G : Z → prog) (M : Z) (cs : list type_cmd)
  (HG : ∀ a, wf (G a)) (Hheap : heap_ok G h)
  (Hcs : Forall (cmd_ok h G M) cs) (HM : 0 ≤ M) (Hn : Z.of_nat (S (length cs)) < max_ops)
  (HMn : M * Z.of_nat (length cs) < 2 ^ 61) (Hsz : psize (cmds_prog G cs) < 2 ^ 64) :
  (∃ t p, build junk h cs = Ok t ∧ type_denotes t p ∧ p ≃ₚ cmds_prog G cs) ∨
  build junk h cs = Err Fault ∧ ∃ n, ¬ harmless (junk n).
Proof.
  destruct (build_spec junk h G HG Hheap M cs) as [(t&Hb&p&?&?&_)|(Hb&v&[n <-]&Hv)]; eauto 10.
Qed.

Definition demo_session : list type_cmd :=
  [add_simple 4 4 3; add_shift 8; add_typed 1000 64 2; add_typed 1000 64 1].

Lemma demo_session_ok : Forall (cmd_ok demo_heap demo_G 256) demo_session.
Proof.
  pose proof demo_usable. unfold demo_session.
  repeat constructor; cbn [cmd_ok]; try lia; try done.
Qed.

Lemma build_correct_witness : ∃ t p, build quiet demo_heap demo_session = Ok t ∧
  type_denotes t p ∧ p ≃ₚ cmds_prog demo_G demo_session.
Proof.
  destruct (build_correct quiet demo_heap demo_G 256 demo_session demo_G_wf
    demo_heap_ok demo_session_ok) as [Hbuilt|[_ [n Hn]]]; [lia|vm_compute; reflexivity..| |].
  - exact Hbuilt.
  - by destruct Hn; apply quiet_harmless.
Defined.

(** [AddShift] on an open type adds a shift to its layout: merging with a
    shift at the end, folding into the stride of a single block at the end, or
    a new instruction, all lay out the same bytes; it keeps the buffer's
    invariant and leaves the primitive type and the references.  As in C7, it
    succeeds unless a fresh word misleads it. *)
Theorem add_shift_layout (J V : Z → Prop) (junk : Z → Z) (G : Z → prog) (n : nat) (t : TypeCode)
  (shift : Z) (Hjunk : ∀ m, J (junk m)) (HG : ∀ a, wf (G a)) (Hinv : binv J V n t)
  (Hn : Z.of_nat (S n) < max_ops) (Hs : 0 ≤ shift < 2 ^ 64)
  (Hsz : psize (body_prog G (tc_body t)) < 2 ^ 64) :
  (∃ t', AddShift junk t shift = Ok t' ∧ binv J V (S n) t' ∧
     body_prog G (tc_body t') ≃ₚ papp (body_prog G (tc_body t)) (PShift shift PEnd) ∧
     GetPrimitive t' = GetPrimitive t ∧ ref_cnt t' = ref_cnt t) ∨
  AddShift junk t shift = Err Fault ∧ ∃ v, J v ∧ ¬ harmless v.
Proof.
  destruct (AddShift_spec J V junk Hjunk G HG n t shift) as [(t'&?&[? ? []])|?]; eauto 10.
Qed.

Lemma add_shift_layout_witness : ∃ t', AddShift quiet demo_open 24 = Ok t' ∧
  binv harmless (λ _, False) 2 t' ∧
  body_prog demo_G (tc_body t') ≃ₚ papp (PCopy 8 16 1 PEnd) (PShift 24 PEnd) ∧
  GetPrimitive t' = PRIMITIVE_TYPE_COUNT ∧ ref_cnt t' = 0.
Proof.
  destruct (add_shift_layout harmless (λ _, False) quiet demo_G 1 demo_open 24 quiet_harmless demo_G_wf
    (demo_open_binv _ _)) as [Hok|(_&v&Hv&Hno)]; [vm_compute; reflexivity|lia|vm_compute; reflexivity| |].
  - exact Hok.
  - by destruct Hno.
Defined.

(** C7. [AddSimple] on an open type adds [reps] blocks of [bytes], [stride]
    apart, whichever peephole optimisation applies (contiguous repetitions made
    one block, a block joined to a contiguous one before it, repetitions added
    to an equal copy, empty blocks turned into a shift).  [J] is any set of words
    that covers what fresh memory holds, so what the invariant allows as previous
    opcodes lost in a resize; the operation keeps that invariant.  It succeeds,
    or reads an instruction at the wrong type, and the latter only if [J] has one
    of the opcodes [COPY], [CALL] and [SHIFT]: with [J := harmless] it always
    succeeds, with [J] true of all words it says what any memory can do. *)
Theorem add_simple_layout (J V : Z → Prop) (junk : Z → Z) (G : Z → prog) (n : nat) (t : TypeCode)
  (bytes stride reps : Z) (Hjunk : ∀ m, J (junk m)) (HG : ∀ a, wf (G a))
  (Hinv : binv J V n t) (Hn : Z.of_nat (S n) < max_ops) (Hb : 0 ≤ bytes < 2 ^ 64)
  (Hs : 0 ≤ stride < 2 ^ 64) (Hr : 0 ≤ reps < 2 ^ 64)
  (Hsz : psize (body_prog G (tc_body t)) + bytes * reps < 2 ^ 64) :
  (∃ t', AddSimple junk t bytes stride reps = Ok t' ∧ binv J V (S n) t' ∧
     body_prog G (tc_body t') ≃ₚ papp (body_prog G (tc_body t)) (PCopy bytes stride reps PEnd) ∧
     ref_cnt t' = ref_cnt t) ∨
  AddSimple junk t bytes stride reps = Err Fault ∧ ∃ v, J v ∧ ¬ harmless v.
Proof.
  destruct (AddSimple_spec J V junk Hjunk G HG n t bytes stride reps) as [(t'&?&[])|?]; eauto 10.
Qed.

Lemma add_simple_layout_witness : ∃ t', AddSimple quiet demo_open 8 16 3 = Ok t' ∧
  binv harmless (λ _, False) 2 t' ∧
  body_prog demo_G (tc_body t') ≃ₚ papp (PCopy 8 16 1 PEnd) (PCopy 8 16 3 PEnd) ∧
  ref_cnt t' = 0.
Proof.
  destruct (add_simple_layout harmless (λ _, False) quiet demo_G 1 demo_open 8 16 3 quiet_harmless
    demo_G_wf (demo_open_binv _ _)) as [Hok|(_&v&Hv&Hno)];
    [vm_compute; reflexivity|lia..|vm_compute; reflexivity| |].
  - exact Hok.
  - by destruct Hno.
Defined.

(** C8. [AddTyped] on an open type adds [reps] repetitions of a completed
    sub-type, [stride] apart: a contiguous or simple sub-type is inlined as a
    copy, another one is called, and calls of the same type at the same stride
    are joined; the layout is the same in each case.  [J] covers what fresh
    memory holds, as in C7: the operation succeeds and keeps the invariant, or
    reads an instruction at the wrong type, the latter only if [J] has one of
    the opcodes [COPY], [CALL] and [SHIFT]. *)
Theorem add_typed_layout (J V : Z → Prop) (junk : Z → Z) (h : heap) (G : Z → prog) (n : nat)
  (t sub : TypeCode) (a stride reps : Z) (Hjunk : ∀ m, J (junk m))
  (HG : ∀ a, wf (G a)) (Hheap : heap_ok G h) (HV : V a) (Ha : h !! a = Some sub)
  (Hc : completed sub = true) (Hinv : binv J V n t) (Hn : Z.of_nat (S n) < max_ops)
  (Hs : 0 ≤ stride < 2 ^ 64) (Hr : 0 ≤ reps < 2 ^ 64)
  (Hsz : psize (body_prog G (tc_body t)) + psize (G a) * reps < 2 ^ 64) :
  (∃ t', AddTyped junk h t a stride reps = Ok t' ∧ binv J V (S n) t' ∧
     body_prog G (tc_body t') ≃ₚ papp (body_prog G (tc_body t)) (PCall (G a) stride reps PEnd) ∧
     ref_cnt t' = ref_cnt t) ∨
  AddTyped junk h t a stride reps = Err Fault ∧ ∃ v, J v ∧ ¬ harmless v.
Proof.
  destruct (AddTyped_spec J V junk Hjunk G HG h n t a sub stride reps) as [(t'&?&[])|?]; eauto 10.
Qed.

Lemma add_typed_layout_witness : ∃ t', AddTyped quiet demo_heap demo_open 1000 40 3 = Ok t' ∧
  binv harmless (λ a, a = 1000) 2 t' ∧
  body_prog demo_G (tc_body t') ≃ₚ papp (PCopy 8 16 1 PEnd) (PCall demo_prog 40 3 PEnd) ∧
  ref_cnt t' = 0.
Proof.
  destruct (add_typed_layout harmless (λ a, a = 1000) quiet demo_heap demo_G 1 demo_open demo_type
    1000 40 3 quiet_harmless demo_G_wf demo_heap_ok eq_refl (lookup_singleton_eq _ _) eq_refl
    (demo_open_binv _ _)) as [Hok|(_&v&Hv&Hno)]; [vm_compute; reflexivity|lia..|vm_compute; reflexivity| |].
  - exact Hok.
  - by destruct Hno.
Defined.

(** C9. [Complete] on an open type links the sub-types' code and computes the
    header: the code denotes exactly the instructions' program, the data size,
    extent, number of blocks, unit and depth are the layout's; [simple] says
    the body is a single copy, [contiguous] that its blocks touch; an undefined
    primitive type becomes [PRIMITIVE_TYPE_COUNT].  [J] covers what fresh memory
    holds and may be any set: no lost opcode misleads [Complete]. *)
Theorem complete_correct (J : Z → Prop) (junk : Z → Z) (h : heap) (G : Z → prog) (n : nat) (t : TypeCode)
  (Hjunk : ∀ m, J (junk m)) (HG : ∀ a, wf (G a)) (Hheap : heap_ok G h)
  (Hinv : binv J (callable h) n t) (Hn : Z.of_nat (S n) < max_ops)
  (Hfit : op_size BEGIN + clen (tc_body t) + op_size END + linked_size h (tc_body t) < 2 ^ 62)
  (Hdep : pdepth (body_prog G (tc_body t)) < 2 ^ 32)
  (Hsz : psize (body_prog G (tc_body t)) < 2 ^ 64) :
  ∃ t', Complete junk h t = Ok t' ∧ type_denotes t' (body_prog G (tc_body t)) ∧
    IsSimple t' = single_copy (tc_body t) ∧ IsContiguous t' = single_block (tc_body t) ∧
    ref_cnt t' = ref_cnt t ∧
    GetPrimitive t' = (if bool_decide (GetPrimitive t = PRIMITIVE_TYPE_UNDEFINED)
                       then PRIMITIVE_TYPE_COUNT else GetPrimitive t).
Proof. by eapply Complete_post. Qed.

Lemma complete_correct_witness : ∃ t', Complete quiet demo_heap demo_open = Ok t' ∧
  type_denotes t' (PCopy 8 16 1 PEnd) ∧ IsSimple t' = true ∧ IsContiguous t' = false ∧
  ref_cnt t' = 0 ∧ GetPrimitive t' = PRIMITIVE_TYPE_COUNT.
Proof.
  apply (complete_correct harmless quiet demo_heap demo_G 1 demo_open quiet_harmless demo_G_wf
    demo_heap_ok (demo_open_binv _ _)); vm_compute; reflexivity.
Defined.

(** [Math::GCD] ends within the fuel and is the greatest common divisor, for
    any two [size_t]. *)
Theorem GCD_gcd (a b : Z) (Ha : 0 ≤ a < 2 ^ 64) (Hb : 0 ≤ b < 2 ^ 64) :
  GCD gcd_fuel a b = Ok (Z.gcd a b).
Proof. apply GCD_fuel; lia. Qed.

Lemma GCD_gcd_witness : GCD gcd_fuel 12 18 = Ok 6.
Proof. apply (GCD_gcd 12 18); lia. Defined.

(** The predefined types: for each primitive type with a C size [a] the
    constructor [TypeContig] yields a completed type of one block of [a] bytes
    with [a] as its atom size, contiguous, owned once; for the others it
    aborts, whatever fresh memory holds. *)
Theorem TypeContig_primitive_correct (junk : Z → Z) (p : primitive_type_t) :
  match primitive_atom p with
  | None => TypeContig_primitive junk p = Err Aborted
  | Some a => ∃ t, TypeContig_primitive junk p = Ok t ∧ type_denotes t (PCopy a a 1 PEnd) ∧
      IsContiguous t = true ∧ GetPrimitive t = p ∧ GetAtomSize t = a ∧ ref_cnt t = 1
  end.
Proof.
  destruct p; try reflexivity; cbn [primitive_atom];
    (eexists; split; [vm_compute; reflexivity|]; split; [|done]);
    (split; try done; try (by vm_compute); [|by eauto 10|by eauto]);
    (eapply at_Copy; [reflexivity|]; by eapply at_End).
Qed.

(** A session whose last instruction before a resize is later popped. *)
Definition popping_session : list type_cmd :=
  [add_simple 4 8 2; add_simple 4 12 2; add_simple 4 16 2; add_shift 4; add_simple 5 20 1;
   add_shift 4].

(** [ResizeCodeBuffer] loses the [prev_opcode] of the slot at the cursor: the
    same session completes or reads an instruction at the wrong type, depending
    on what freshly allocated memory holds. *)
Theorem resize_loses_prev_opcode :
  build (λ _, opcode_val COPY) ∅ popping_session = Err Fault ∧
  ∃ t, build (λ _, opcode_val BEGIN) ∅ popping_session = Ok t.
Proof. split; [vm_compute; reflexivity|eexists; vm_compute; reflexivity]. Qed.
