(* ===== verification/TypeFunc.v ===== *)
(** The copy functions, src/common/type/TypeFunc.h and the element loops of
    src/arch/MathInterface.h they call: the table from a primitive type and a
    predefined operation to a function, and what the functions do to memory. *)
From S2P Require Import Prelude.
From S2P Require Import Memory.
From S2P Require Import TypeCode.

(** * C types *)

(** The C types the table instantiates the function templates with;
    [primitive_complex] and [primitive_loc] are the structures of
    src/common/type/TypeCode.h, [primitive_loc value index pad0 pad1]. *)
Inductive CType :=
| uint8_t
| signed_char | signed_short | signed_int | signed_long | signed_long_long
| unsigned_char | unsigned_short | unsigned_int | unsigned_long | unsigned_long_long
| float_ | double_ | long_double_
| logical1 | logical2 | logical4 | logical8
| primitive_complex (t : CType)
| primitive_loc (value index : CType) (pad0 pad1 : Z).

#[export] Instance CType_eq_dec : EqDecision CType.
Proof. solve_decision. Defined.

(** Integer types: signedness and bytes (LP64). *)
Definition int_type (t : CType) : option (bool * Z) :=
  match t with
  | uint8_t | unsigned_char | logical1 => Some (false, 1)
  | unsigned_short | logical2 => Some (false, 2)
  | unsigned_int | logical4 => Some (false, 4)
  | unsigned_long | unsigned_long_long | logical8 => Some (false, 8)
  | signed_char => Some (true, 1)
  | signed_short => Some (true, 2)
  | signed_int => Some (true, 4)
  | signed_long | signed_long_long => Some (true, 8)
  | _ => None
  end.

Definition scalar_size (t : CType) : Z :=
  match int_type t with
  | Some (_, w) => w
  | None => match t with float_ => 4 | double_ => 8 | _ => 16 end
  end.

Definition round_up (n a : Z) : Z := (n + a - 1) / a * a.

(** Offset of the index in a [primitive_loc], and the sizes. *)
Definition index_offset (v i : CType) (pad0 : Z) : Z :=
  round_up (scalar_size v + pad0) (scalar_size i).

Definition sizeof (t : CType) : Z :=
  match t with
  | primitive_complex t => 2 * scalar_size t
  | primitive_loc v i pad0 pad1 =>
      round_up (index_offset v i pad0 + scalar_size i + pad1)
        (Z.max (scalar_size v) (scalar_size i))
  | t => scalar_size t
  end.

(** * The functions and their table *)

(** [TypeFunc::primitive_func_t]. *)
Inductive primitive_func_t :=
| PRIMITIVE_FUNC_COPY | PRIMITIVE_FUNC_NOOP | PRIMITIVE_FUNC_MAX | PRIMITIVE_FUNC_MIN
| PRIMITIVE_FUNC_SUM | PRIMITIVE_FUNC_PROD | PRIMITIVE_FUNC_LAND | PRIMITIVE_FUNC_LOR
| PRIMITIVE_FUNC_LXOR | PRIMITIVE_FUNC_BAND | PRIMITIVE_FUNC_BOR | PRIMITIVE_FUNC_BXOR
| PRIMITIVE_FUNC_MAXLOC | PRIMITIVE_FUNC_MINLOC.

#[export] Instance primitive_func_eq_dec : EqDecision primitive_func_t.
Proof. solve_decision. Defined.

Definition all_funcs : list primitive_func_t :=
  [PRIMITIVE_FUNC_COPY; PRIMITIVE_FUNC_NOOP; PRIMITIVE_FUNC_MAX; PRIMITIVE_FUNC_MIN;
   PRIMITIVE_FUNC_SUM; PRIMITIVE_FUNC_PROD; PRIMITIVE_FUNC_LAND; PRIMITIVE_FUNC_LOR;
   PRIMITIVE_FUNC_LXOR; PRIMITIVE_FUNC_BAND; PRIMITIVE_FUNC_BOR; PRIMITIVE_FUNC_BXOR;
   PRIMITIVE_FUNC_MAXLOC; PRIMITIVE_FUNC_MINLOC].

Definition PRIMITIVE_FUNC_COUNT : Z := 14.

(** The functions of [namespace Func], by template argument. *)
Inductive Func :=
| f_error | f_noop
| f_copy (t : CType) | f_max (t : CType) | f_min (t : CType)
| f_sum (t : CType) | f_prod (t : CType)
| f_land (t : CType) | f_lor (t : CType) | f_lxor (t : CType)
| f_band (t : CType) | f_bor (t : CType) | f_bxor (t : CType)
| f_maxloc (t : CType) | f_minloc (t : CType).

#[export] Instance Func_eq_dec : EqDecision Func.
Proof. solve_decision. Defined.

(** The rows of [array] in [GetCopyFunction]. *)
Definition integer_rows : list (list Func) :=
  [
  (* PRIMITIVE_TYPE_BYTE *)
  [f_copy uint8_t; f_noop; f_max uint8_t; f_min uint8_t; f_sum uint8_t; f_prod uint8_t;
   f_land uint8_t; f_lor uint8_t; f_lxor uint8_t; f_band uint8_t; f_bor uint8_t; f_bxor
   uint8_t; f_error; f_error];
  (* PRIMITIVE_TYPE_SIGNED_CHAR *)
  [f_copy signed_char; f_noop; f_max signed_char; f_min signed_char; f_sum signed_char;
   f_prod signed_char; f_land signed_char; f_lor signed_char; f_lxor signed_char; f_band
   signed_char; f_bor signed_char; f_bxor signed_char; f_error; f_error];
  (* PRIMITIVE_TYPE_SIGNED_SHORT *)
  [f_copy signed_short; f_noop; f_max signed_short; f_min signed_short; f_sum signed_short;
   f_prod signed_short; f_land signed_short; f_lor signed_short; f_lxor signed_short; f_band
   signed_short; f_bor signed_short; f_bxor signed_short; f_error; f_error];
  (* PRIMITIVE_TYPE_SIGNED_INT *)
  [f_copy signed_int; f_noop; f_max signed_int; f_min signed_int; f_sum signed_int; f_prod
   signed_int; f_land signed_int; f_lor signed_int; f_lxor signed_int; f_band signed_int;
   f_bor signed_int; f_bxor signed_int; f_error; f_error];
  (* PRIMITIVE_TYPE_SIGNED_LONG *)
  [f_copy signed_long; f_noop; f_max signed_long; f_min signed_long; f_sum signed_long;
   f_prod signed_long; f_land signed_long; f_lor signed_long; f_lxor signed_long; f_band
   signed_long; f_bor signed_long; f_bxor signed_long; f_error; f_error];
  (* PRIMITIVE_TYPE_SIGNED_LONG_LONG *)
  [f_copy signed_long_long; f_noop; f_max signed_long_long; f_min signed_long_long; f_sum
   signed_long_long; f_prod signed_long_long; f_land signed_long_long; f_lor
   signed_long_long; f_lxor signed_long_long; f_band signed_long_long; f_bor
   signed_long_long; f_bxor signed_long_long; f_error; f_error]
  ].

Definition unsigned_rows : list (list Func) :=
  [
  (* PRIMITIVE_TYPE_UNSIGNED_CHAR *)
  [f_copy unsigned_char; f_noop; f_max unsigned_char; f_min unsigned_char; f_sum
   unsigned_char; f_prod unsigned_char; f_land unsigned_char; f_lor unsigned_char; f_lxor
   unsigned_char; f_band unsigned_char; f_bor unsigned_char; f_bxor unsigned_char; f_error;
   f_error];
  (* PRIMITIVE_TYPE_UNSIGNED_SHORT *)
  [f_copy unsigned_short; f_noop; f_max unsigned_short; f_min unsigned_short; f_sum
   unsigned_short; f_prod unsigned_short; f_land unsigned_short; f_lor unsigned_short;
   f_lxor unsigned_short; f_band unsigned_short; f_bor unsigned_short; f_bxor
   unsigned_short; f_error; f_error];
  (* PRIMITIVE_TYPE_UNSIGNED_INT *)
  [f_copy unsigned_int; f_noop; f_max unsigned_int; f_min unsigned_int; f_sum unsigned_int;
   f_prod unsigned_int; f_land unsigned_int; f_lor unsigned_int; f_lxor unsigned_int; f_band
   unsigned_int; f_bor unsigned_int; f_bxor unsigned_int; f_error; f_error];
  (* PRIMITIVE_TYPE_UNSIGNED_LONG *)
  [f_copy unsigned_long; f_noop; f_max unsigned_long; f_min unsigned_long; f_sum
   unsigned_long; f_prod unsigned_long; f_land unsigned_long; f_lor unsigned_long; f_lxor
   unsigned_long; f_band unsigned_long; f_bor unsigned_long; f_bxor unsigned_long; f_error;
   f_error];
  (* PRIMITIVE_TYPE_UNSIGNED_LONG_LONG *)
  [f_copy unsigned_long_long; f_noop; f_max unsigned_long_long; f_min unsigned_long_long;
   f_sum unsigned_long_long; f_prod unsigned_long_long; f_land unsigned_long_long; f_lor
   unsigned_long_long; f_lxor unsigned_long_long; f_band unsigned_long_long; f_bor
   unsigned_long_long; f_bxor unsigned_long_long; f_error; f_error]
  ].

Definition real_rows : list (list Func) :=
  [
  (* PRIMITIVE_TYPE_FLOAT *)
  [f_copy float_; f_noop; f_max float_; f_min float_; f_sum float_; f_prod float_; f_error;
   f_error; f_error; f_error; f_error; f_error; f_error; f_error];
  (* PRIMITIVE_TYPE_DOUBLE *)
  [f_copy double_; f_noop; f_max double_; f_min double_; f_sum double_; f_prod double_;
   f_error; f_error; f_error; f_error; f_error; f_error; f_error; f_error];
  (* PRIMITIVE_TYPE_LONG_DOUBLE *)
  [f_copy long_double_; f_noop; f_max long_double_; f_min long_double_; f_sum long_double_;
   f_prod long_double_; f_error; f_error; f_error; f_error; f_error; f_error; f_error;
   f_error]
  ].

Definition logical_rows : list (list Func) :=
  [
  (* PRIMITIVE_TYPE_LOGICAL1 *)
  [f_copy logical1; f_noop; f_error; f_error; f_error; f_error; f_land logical1; f_lor
   logical1; f_lxor logical1; f_error; f_error; f_error; f_error; f_error];
  (* PRIMITIVE_TYPE_LOGICAL2 *)
  [f_copy logical2; f_noop; f_error; f_error; f_error; f_error; f_land logical2; f_lor
   logical2; f_lxor logical2; f_error; f_error; f_error; f_error; f_error];
  (* PRIMITIVE_TYPE_LOGICAL4 *)
  [f_copy logical4; f_noop; f_error; f_error; f_error; f_error; f_land logical4; f_lor
   logical4; f_lxor logical4; f_error; f_error; f_error; f_error; f_error];
  (* PRIMITIVE_TYPE_LOGICAL8 *)
  [f_copy logical8; f_noop; f_error; f_error; f_error; f_error; f_land logical8; f_lor
   logical8; f_lxor logical8; f_error; f_error; f_error; f_error; f_error]
  ].

Definition complex_rows : list (list Func) :=
  [
  (* PRIMITIVE_TYPE_SINGLE_COMPLEX *)
  [f_copy (primitive_complex float_); f_noop; f_error; f_error; f_sum (primitive_complex
   float_); f_prod (primitive_complex float_); f_error; f_error; f_error; f_error; f_error;
   f_error; f_error; f_error];
  (* PRIMITIVE_TYPE_DOUBLE_COMPLEX *)
  [f_copy (primitive_complex double_); f_noop; f_error; f_error; f_sum (primitive_complex
   double_); f_prod (primitive_complex double_); f_error; f_error; f_error; f_error;
   f_error; f_error; f_error; f_error]
  ].

Definition loc_rows : list (list Func) :=
  [
  (* PRIMITIVE_TYPE_LOC_2INT *)
  [f_copy (primitive_loc signed_int signed_int 0 0); f_noop; f_error; f_error; f_error;
   f_error; f_error; f_error; f_error; f_error; f_error; f_error; f_maxloc (primitive_loc
   signed_int signed_int 0 0); f_minloc (primitive_loc signed_int signed_int 0 0)];
  (* PRIMITIVE_TYPE_LOC_2FLOAT *)
  [f_copy (primitive_loc float_ float_ 0 0); f_noop; f_error; f_error; f_error; f_error;
   f_error; f_error; f_error; f_error; f_error; f_error; f_maxloc (primitive_loc float_
   float_ 0 0); f_minloc (primitive_loc float_ float_ 0 0)];
  (* PRIMITIVE_TYPE_LOC_2DOUBLE *)
  [f_copy (primitive_loc double_ double_ 0 0); f_noop; f_error; f_error; f_error; f_error;
   f_error; f_error; f_error; f_error; f_error; f_error; f_maxloc (primitive_loc double_
   double_ 0 0); f_minloc (primitive_loc double_ double_ 0 0)];
  (* PRIMITIVE_TYPE_LOC_SHORT_INT *)
  [f_copy (primitive_loc signed_short signed_int 0 0); f_noop; f_error; f_error; f_error;
   f_error; f_error; f_error; f_error; f_error; f_error; f_error; f_maxloc (primitive_loc
   signed_short signed_int 2 0); f_minloc (primitive_loc signed_short signed_int 2 0)];
  (* PRIMITIVE_TYPE_LOC_FLOAT_INT *)
  [f_copy (primitive_loc float_ signed_int 0 0); f_noop; f_error; f_error; f_error; f_error;
   f_error; f_error; f_error; f_error; f_error; f_error; f_maxloc (primitive_loc float_
   signed_int 0 0); f_minloc (primitive_loc float_ signed_int 0 0)];
  (* PRIMITIVE_TYPE_LOC_DOUBLE_INT *)
  [f_copy (primitive_loc double_ signed_int 0 4); f_noop; f_error; f_error; f_error;
   f_error; f_error; f_error; f_error; f_error; f_error; f_error; f_maxloc (primitive_loc
   double_ signed_int 0 4); f_minloc (primitive_loc double_ signed_int 0 4)];
  (* PRIMITIVE_TYPE_LOC_LONG_INT *)
  [f_copy (primitive_loc signed_long signed_int 0 4); f_noop; f_error; f_error; f_error;
   f_error; f_error; f_error; f_error; f_error; f_error; f_error; f_maxloc (primitive_loc
   signed_long signed_int 0 4); f_minloc (primitive_loc signed_long signed_int 0 4)];
  (* PRIMITIVE_TYPE_LOC_LONGDOUBLE_INT *)
  [f_copy (primitive_loc long_double_ signed_int 0 12); f_noop; f_error; f_error; f_error;
   f_error; f_error; f_error; f_error; f_error; f_error; f_error; f_maxloc (primitive_loc
   long_double_ signed_int 0 12); f_minloc (primitive_loc long_double_ signed_int 0 12)]
  ].

Definition array : list (list Func) :=
  integer_rows ++ unsigned_rows ++ real_rows ++ logical_rows ++ complex_rows ++ loc_rows.

(** The integers the C++ enumerations give the enumerators. *)
Definition primitive_val (p : primitive_type_t) : Z :=
  match p with
  | PRIMITIVE_TYPE_BYTE => 0
  | PRIMITIVE_TYPE_SIGNED_CHAR => 1 | PRIMITIVE_TYPE_SIGNED_SHORT => 2
  | PRIMITIVE_TYPE_SIGNED_INT => 3 | PRIMITIVE_TYPE_SIGNED_LONG => 4
  | PRIMITIVE_TYPE_SIGNED_LONG_LONG => 5
  | PRIMITIVE_TYPE_UNSIGNED_CHAR => 6 | PRIMITIVE_TYPE_UNSIGNED_SHORT => 7
  | PRIMITIVE_TYPE_UNSIGNED_INT => 8 | PRIMITIVE_TYPE_UNSIGNED_LONG => 9
  | PRIMITIVE_TYPE_UNSIGNED_LONG_LONG => 10
  | PRIMITIVE_TYPE_FLOAT => 11 | PRIMITIVE_TYPE_DOUBLE => 12
  | PRIMITIVE_TYPE_LONG_DOUBLE => 13
  | PRIMITIVE_TYPE_LOGICAL1 => 14 | PRIMITIVE_TYPE_LOGICAL2 => 15
  | PRIMITIVE_TYPE_LOGICAL4 => 16 | PRIMITIVE_TYPE_LOGICAL8 => 17
  | PRIMITIVE_TYPE_SINGLE_COMPLEX => 18 | PRIMITIVE_TYPE_DOUBLE_COMPLEX => 19
  | PRIMITIVE_TYPE_LOC_2INT => 20 | PRIMITIVE_TYPE_LOC_2FLOAT => 21
  | PRIMITIVE_TYPE_LOC_2DOUBLE => 22 | PRIMITIVE_TYPE_LOC_SHORT_INT => 23
  | PRIMITIVE_TYPE_LOC_FLOAT_INT => 24 | PRIMITIVE_TYPE_LOC_DOUBLE_INT => 25
  | PRIMITIVE_TYPE_LOC_LONG_INT => 26 | PRIMITIVE_TYPE_LOC_LONGDOUBLE_INT => 27
  | PRIMITIVE_TYPE_COUNT => 28
  | PRIMITIVE_TYPE_UNDEFINED => 29
  end.

(** [array[type][func]]: outside of the table it is undefined. *)
Definition GetCopyFunction (type func : Z) : res Func :=
  row ← of_option (array !! Z.to_nat type);
  of_option (row !! Z.to_nat func).

(** A [CopyFunction]: a pointer the caller gave, as its address (the predefined
    operations are the small integers), or a function of the table. *)
Inductive CopyFunction :=
| cf_pointer (fn : Z)
| cf_func (f : Func).

(** * What the functions do *)

(** Floating-point arithmetic on the bit patterns of a type: not modelled. *)
Record float_ops := mkFloatOps {
  fl_lt : CType → Z → Z → bool;
  fl_add : CType → Z → Z → Z;
  fl_sub : CType → Z → Z → Z;
  fl_mul : CType → Z → Z → Z
}.

Section functions.
Context (big : bool) (fl : float_ops).

(** The value of a bit pattern of an integer type, and the pattern of a value. *)
Definition int_value (sg : bool) (w z : Z) : Z :=
  if sg && (2 ^ (8 * w - 1) <=? z) then z - 2 ^ (8 * w) else z.
Definition int_bits (w v : Z) : Z := v `mod` 2 ^ (8 * w).

Definition int_fits (sg : bool) (w v : Z) : bool :=
  if sg then (- 2 ^ (8 * w - 1) <=? v) && (v <? 2 ^ (8 * w - 1)) else true.

(** C's integer arithmetic on operands of a type: narrow types are promoted to
    [int]; overflow of a signed type is undefined, an unsigned one wraps; the
    result is converted back to the type. *)
Definition int_arith (sg : bool) (w v : Z) : res Z :=
  let '(sg', w') := if w <? 4 then (true, 4) else (sg, w) in
  defined (int_fits sg' w' v);; mret (int_bits w v).

Definition truth (v : Z) : bool := negb (v =? 0).
Definition of_truth (b : bool) : Z := if b then 1 else 0.

Definition scalar_lt (t : CType) (a b : Z) : bool :=
  match int_type t with
  | Some (sg, w) => int_value sg w a <? int_value sg w b
  | None => fl_lt fl t a b
  end.

Definition scalar_add (t : CType) (a b : Z) : res Z :=
  match int_type t with
  | Some (sg, w) => int_arith sg w (int_value sg w a + int_value sg w b)
  | None => mret (fl_add fl t a b)
  end.

Definition scalar_mul (t : CType) (a b : Z) : res Z :=
  match int_type t with
  | Some (sg, w) => int_arith sg w (int_value sg w a * int_value sg w b)
  | None => mret (fl_mul fl t a b)
  end.

Definition ld (t : CType) (a : Z) (m : mem) : Z := load big a (Z.to_nat (scalar_size t)) m.
Definition st (t : CType) (a z : Z) (m : mem) : mem := store big a (Z.to_nat (scalar_size t)) z m.

(** [for (i = 0; i < count; i++)] over the elements of two arrays, [size] bytes
    apart. *)
Fixpoint for_count (body : Z → Z → mem → res mem) (size : Z) (count : nat) (dst src : Z)
    (m : mem) : res mem :=
  match count with
  | O => mret m
  | S count => m ← body dst src m; for_count body size count (dst + size) (src + size) m
  end.

(** [dst[i] = f (dst[i], src[i])], on a scalar type. *)
Definition update (t : CType) (f : Z → Z → res Z) (d s : Z) (m : mem) : res mem :=
  v ← f (ld t d m) (ld t s m); mret (st t d v m).

(** [if (better (src[i], dst[i])) dst[i] = src[i]]. *)
Definition update_if (t : CType) (better : Z → Z → bool) (d s : Z) (m : mem) : res mem :=
  if better (ld t s m) (ld t d m) then mret (st t d (ld t s m) m) else mret m.

(** [if (better (src[i].value, dst[i].value)) { value; index }]. *)
Definition update_loc (v i : CType) (pad0 : Z) (better : Z → Z → bool) (d s : Z) (m : mem) :
    res mem :=
  if better (ld v s m) (ld v d m) then
    let m := st v d (ld v s m) m in
    mret (st i (d + index_offset v i pad0) (ld i (s + index_offset v i pad0) m) m)
  else mret m.

Definition Math_max (t : CType) : nat → Z → Z → mem → res mem :=
  for_count (update_if t (λ s d, scalar_lt t d s)) (sizeof t).
Definition Math_min (t : CType) : nat → Z → Z → mem → res mem :=
  for_count (update_if t (λ s d, scalar_lt t s d)) (sizeof t).
Definition Math_sum (t : CType) : nat → Z → Z → mem → res mem :=
  for_count (update t (scalar_add t)) (sizeof t).
Definition Math_prod (t : CType) : nat → Z → Z → mem → res mem :=
  for_count (update t (scalar_mul t)) (sizeof t).
Definition Math_land (t : CType) : nat → Z → Z → mem → res mem :=
  for_count (update t (λ a b, mret (of_truth (truth a && truth b)))) (sizeof t).
Definition Math_lor (t : CType) : nat → Z → Z → mem → res mem :=
  for_count (update t (λ a b, mret (of_truth (truth a || truth b)))) (sizeof t).
Definition Math_lxor (t : CType) : nat → Z → Z → mem → res mem :=
  for_count (update t (λ d s, mret (of_truth
    ((truth d && negb (truth s)) || (negb (truth d) && truth s))))) (sizeof t).
Definition Math_band (t : CType) : nat → Z → Z → mem → res mem :=
  for_count (update t (λ a b, mret (Z.land a b))) (sizeof t).
Definition Math_bor (t : CType) : nat → Z → Z → mem → res mem :=
  for_count (update t (λ a b, mret (Z.lor a b))) (sizeof t).
Definition Math_bxor (t : CType) : nat → Z → Z → mem → res mem :=
  for_count (update t (λ a b, mret (Z.lxor a b))) (sizeof t).
Definition Math_maxloc (v i : CType) (pad0 pad1 : Z) : nat → Z → Z → mem → res mem :=
  for_count (update_loc v i pad0 (λ s d, scalar_lt v d s)) (sizeof (primitive_loc v i pad0 pad1)).
Definition Math_minloc (v i : CType) (pad0 pad1 : Z) : nat → Z → Z → mem → res mem :=
  for_count (update_loc v i pad0 (λ s d, scalar_lt v s d)) (sizeof (primitive_loc v i pad0 pad1)).

(** The specialisations of [sum] and [prod] to complex numbers. *)
Definition sum_complex (t : CType) : nat → Z → Z → mem → res mem :=
  for_count (λ d s m,
    m ← update t (scalar_add t) d s m;
    update t (scalar_add t) (d + scalar_size t) (s + scalar_size t) m)
    (sizeof (primitive_complex t)).

Definition prod_complex (t : CType) : nat → Z → Z → mem → res mem :=
  for_count (λ d s m,
    let dr := ld t d m in let di := ld t (d + scalar_size t) m in
    let sr := ld t s m in let si := ld t (s + scalar_size t) m in
    let r := fl_sub fl t (fl_mul fl t dr sr) (fl_mul fl t di si) in
    let i := fl_add fl t (fl_mul fl t di sr) (fl_mul fl t dr si) in
    mret (st t (d + scalar_size t) i (st t d r m))) (sizeof (primitive_complex t)).

(** The loop of each function over [count] elements. *)
Definition func_loop (f : Func) : nat → Z → Z → mem → res mem :=
  match f with
  | f_max t => Math_max t
  | f_min t => Math_min t
  | f_sum (primitive_complex t) => sum_complex t
  | f_sum t => Math_sum t
  | f_prod (primitive_complex t) => prod_complex t
  | f_prod t => Math_prod t
  | f_land t => Math_land t
  | f_lor t => Math_lor t
  | f_lxor t => Math_lxor t
  | f_band t => Math_band t
  | f_bor t => Math_bor t
  | f_bxor t => Math_bxor t
  | f_maxloc (primitive_loc v i pad0 pad1) => Math_maxloc v i pad0 pad1
  | f_minloc (primitive_loc v i pad0 pad1) => Math_minloc v i pad0 pad1
  | _ => λ _ _ _ _, Err Fault
  end.

(** The type a function's elements have. *)
Definition func_type (f : Func) : option CType :=
  match f with
  | f_error | f_noop => None
  | f_copy t | f_max t | f_min t | f_sum t | f_prod t | f_land t | f_lor t | f_lxor t
  | f_band t | f_bor t | f_bxor t | f_maxloc t | f_minloc t => Some t
  end.

(** The number of elements the loop of a function sees: the specialisations to
    complex numbers keep it in an [unsigned]. *)
Definition loop_count (f : Func) (count : Z) : Z :=
  match f with
  | f_sum (primitive_complex _) | f_prod (primitive_complex _) => w32 count
  | _ => count
  end.

(** The call [f (to, from, bytes, cookie)].  The loop's index is an [unsigned]:
    with [2^32] elements or more the loop does not end. *)
Definition call_func (f : Func) (to from bytes : Z) (m : mem) : res mem :=
  match f with
  | f_error => Err Aborted
  | f_noop => mret m
  | f_copy _ => memcpy to from bytes m
  | _ =>
      t ← of_option (func_type f);
      let count := loop_count f (bytes / sizeof t) in
      if 2 ^ 32 <=? count then Err NoFuel else
      defined (in_memory to (count * sizeof t) && in_memory from (count * sizeof t));;
      func_loop f (Z.to_nat count) to from m
  end.

End functions.
