(* ===== verification/TypeFuncProps.v ===== *)
(** The properties of the primitive functions (src/common/type/TypeFunc.h): for
    the predefined integer types the table has functions of their signedness and size
    that mean their operations, and the reduction loops compute what their names say on
    every element. *)
From S2P Require Import Prelude.
From S2P Require Import Memory.
From S2P Require Import TypeCode.
From S2P Require Import TypeFunc.

(** * Bytes *)

(** Every cell of the memory holds a byte. *)
Definition bytes_ok (m : mem) : Prop := ∀ x, 0 ≤ m x < 256.

Lemma le_combine_range l : Forall (λ b, 0 ≤ b < 256) l →
  0 ≤ le_combine l < 256 ^ Z.of_nat (length l).
Proof.
  induction 1 as [|b l Hb _ IH]; cbn [le_combine length]; [lia|].
  rewrite Nat2Z.inj_succ, Z.pow_succ_r by lia. lia.
Qed.

Lemma load_range big a n m : bytes_ok m → 0 ≤ load big a n m < 256 ^ Z.of_nat n.
Proof.
  intros Hm. assert (Hall : Forall (λ b, 0 ≤ b < 256) (bytes_at a n m)).
  { unfold bytes_at. apply Forall_map, Forall_forall. intros. apply Hm. }
  assert (Hlen : length (bytes_at a n m) = n).
  { unfold bytes_at. by rewrite length_map, length_seq. }
  rewrite <- Hlen at 3. unfold load. destruct big; [|by apply le_combine_range].
  rewrite <- length_reverse. apply le_combine_range. by apply Forall_reverse.
Qed.

Lemma le_split_bytes n z : Forall (λ b, 0 ≤ b < 256) (le_split n z).
Proof.
  revert z. induction n as [|n IH]; intros z; cbn [le_split]; constructor; [|apply IH].
  apply Z.mod_pos_bound. lia.
Qed.

Lemma store_bytes_ok big a n z m : bytes_ok m → bytes_ok (store big a n z m).
Proof.
  intros Hm x. unfold store. destruct ((a <=? x) && (x <? a + Z.of_nat n)); [|apply Hm].
  pose proof (le_split_bytes n z) as Hall.
  set (l := if big then reverse (le_split n z) else le_split n z).
  assert (Hl : Forall (λ b, 0 ≤ b < 256) l) by (subst l; destruct big; [by apply Forall_reverse|done]).
  destruct (nth_in_or_default (Z.to_nat (x - a)) l 0) as [Hin| ->]; [|lia].
  by apply (proj1 (Forall_forall _ _) Hl), list_elem_of_In.
Qed.

(** * Loops over elements *)

(** [E a m] observes the element of [size] bytes at [a]. *)
Definition local {A} (E : Z → mem → A) (size : Z) : Prop :=
  ∀ a m m', (∀ x, a ≤ x < a + size → m x = m' x) → E a m = E a m'.

(** [body] combines the element at [d] with the one at [s]. *)
Definition acts {A} (E : Z → mem → A) (size : Z) (op : A → A → res A)
    (body : Z → Z → mem → res mem) : Prop :=
  ∀ d s m v, bytes_ok m → d + size ≤ s ∨ s + size ≤ d → op (E d m) (E s m) = Ok v →
  ∃ m', body d s m = Ok m' ∧ E d m' = v ∧ bytes_ok m' ∧
    ∀ x, x < d ∨ d + size ≤ x → m' x = m x.

Lemma for_count_spec {A} (E : Z → mem → A) size op body : 0 < size → local E size →
  acts E size op body → ∀ n d s m (v : nat → A), bytes_ok m →
  d + Z.of_nat n * size ≤ s ∨ s + Z.of_nat n * size ≤ d →
  (∀ i, (i < n)%nat → op (E (d + Z.of_nat i * size) m) (E (s + Z.of_nat i * size) m) = Ok (v i)) →
  ∃ m', for_count body size n d s m = Ok m' ∧ bytes_ok m' ∧
    (∀ i, (i < n)%nat → E (d + Z.of_nat i * size) m' = v i) ∧
    ∀ x, x < d ∨ d + Z.of_nat n * size ≤ x → m' x = m x.
Proof.
  intros Hsz Hloc Hact n. induction n as [|n IH]; intros d s m v Hm Hdis Hop.
  { exists m. split; [done|]. split; [done|]. split; [lia|done]. }
  rewrite Nat2Z.inj_succ in *.
  pose proof (Hop 0%nat ltac:(lia)) as H0. rewrite !Z.add_0_r in H0.
  destruct (Hact d s m (v 0%nat) Hm) as (m1&Hb&He&Hm1&Hout); [lia|done|].
  destruct (IH (d + size) (s + size) m1 (λ i, v (S i)) Hm1) as (m'&Hrun&Hm'&Hin&Hfr); [lia| |].
  { intros i Hi. rewrite <- (Hop (S i)) by lia. rewrite Nat2Z.inj_succ.
    replace (d + size + Z.of_nat i * size) with (d + Z.succ (Z.of_nat i) * size) by lia.
    replace (s + size + Z.of_nat i * size) with (s + Z.succ (Z.of_nat i) * size) by lia.
    assert (0 ≤ Z.of_nat i * size ≤ Z.of_nat n * size - size) by nia.
    f_equal; apply Hloc; intros x Hx; apply Hout; lia. }
  exists m'. cbn [for_count]. rewrite Hb. split; [exact Hrun|]. split; [done|]. split.
  - intros [|i] Hi.
    + rewrite Z.add_0_r, <- He. apply Hloc. intros x Hx. apply Hfr. lia.
    + replace (d + Z.of_nat (S i) * size) with (d + size + Z.of_nat i * size) by lia. apply Hin. lia.
  - intros x Hx. rewrite Hfr by lia. apply Hout. nia.
Qed.

(** * Scalars *)

Lemma scalar_size_pos t : 0 < scalar_size t.
Proof. destruct t; cbn; lia. Qed.

Section scalars.
Context (big : bool) (fl : float_ops).

Lemma ld_local t : local (ld big t) (scalar_size t).
Proof.
  intros a m m' H. unfold ld. apply load_ext. intros x Hx. apply H.
  pose proof (scalar_size_pos t). lia.
Qed.

Lemma ld_range t a m : bytes_ok m → 0 ≤ ld big t a m < 2 ^ (8 * scalar_size t).
Proof.
  intros Hm. pose proof (load_range big a (Z.to_nat (scalar_size t)) m Hm) as H.
  pose proof (scalar_size_pos t). rewrite Z2Nat.id in H by lia.
  change 256 with (2 ^ 8) in H. rewrite <- Z.pow_mul_r in H by lia. exact H.
Qed.

Lemma ld_st t a z m : 0 ≤ z < 2 ^ (8 * scalar_size t) → ld big t a (st big t a z m) = z.
Proof.
  intros Hz. pose proof (scalar_size_pos t). apply load_store. rewrite Z2Nat.id by lia.
  change 256 with (2 ^ 8). by rewrite <- Z.pow_mul_r by lia.
Qed.

Lemma st_out t a z m x : x < a ∨ a + scalar_size t ≤ x → st big t a z m x = m x.
Proof. intros H. pose proof (scalar_size_pos t). apply store_out. lia. Qed.

Lemma st_bytes_ok t a z m : bytes_ok m → bytes_ok (st big t a z m).
Proof. apply store_bytes_ok. Qed.

Lemma update_acts t op :
  (∀ a b v, 0 ≤ a < 2 ^ (8 * scalar_size t) → 0 ≤ b < 2 ^ (8 * scalar_size t) →
     op a b = Ok v → 0 ≤ v < 2 ^ (8 * scalar_size t)) →
  acts (ld big t) (scalar_size t) op (update big t op).
Proof.
  intros Hr d s m v Hm _ Hop. unfold update. rewrite Hop. eexists. split; [reflexivity|].
  split; [|split; [by apply st_bytes_ok|by intros; apply st_out]].
  apply ld_st. eapply Hr; eauto using ld_range.
Qed.

Lemma update_if_acts t (better : Z → Z → bool) :
  acts (ld big t) (scalar_size t) (λ a b : Z, Ok (if better b a then b else a) : res Z)
    (update_if big t better).
Proof.
  intros d s m v Hm _ [= <-]. unfold update_if. case_match.
  - eexists. split; [reflexivity|]. split; [apply ld_st, ld_range, Hm|].
    split; [by apply st_bytes_ok|by intros; apply st_out].
  - by exists m.
Qed.

(** ** Integer values *)

(** The value of the integer element at [a]. *)
Definition int_at (t : CType) (a : Z) (m : mem) : Z :=
  match int_type t with
  | Some (sg, w) => int_value sg w (ld big t a m)
  | None => ld big t a m
  end.

End scalars.

Lemma int_type_width t sg w : int_type t = Some (sg, w) → w = 1 ∨ w = 2 ∨ w = 4 ∨ w = 8.
Proof. destruct t; cbn; intros [= <- <-]; lia. Qed.

Lemma int_type_size t sg w : int_type t = Some (sg, w) → scalar_size t = w ∧ sizeof t = w.
Proof. intros H. unfold scalar_size. rewrite H. split; [done|]. by destruct t; cbn in *; inv H. Qed.

Lemma int_value_testbit sg w z n : 0 < w → 0 ≤ z < 2 ^ (8 * w) → 0 ≤ n →
  Z.testbit (int_value sg w z) n =
  if n <? 8 * w then Z.testbit z n else sg && Z.testbit z (8 * w - 1).
Proof.
  intros Hw Hz Hn. set (N := 8 * w) in *. assert (HN : 1 ≤ N) by lia.
  assert (Hp : 2 ^ N = 2 * 2 ^ (N - 1)) by (rewrite <- Z.pow_succ_r by lia; f_equal; lia).
  assert (Htop : Z.testbit z (N - 1) = (2 ^ (N - 1) <=? z)).
  { rewrite Z.testbit_eqb by lia. destruct (Z.leb_spec (2 ^ (N - 1)) z).
    - rewrite <- (Z.div_unique z (2 ^ (N - 1)) 1 (z - 2 ^ (N - 1))); [done|lia|lia].
    - by rewrite Z.div_small by lia. }
  unfold int_value. fold N. destruct sg; cbn [andb].
  - destruct (Z.leb_spec (2 ^ (N - 1)) z) as [Hge|Hlt].
    + destruct (Z.ltb_spec n N) as [Hn1|Hn1].
      * rewrite <- (Z.mod_pow2_bits_low (z - 2 ^ N) N n), <- (Z.mod_pow2_bits_low z N n) by lia.
        f_equal. rewrite <- (Z_mod_plus_full z (-1) (2 ^ N)). done || (f_equal; lia).
      * rewrite Htop. rewrite Z.testbit_eqb by lia.
        assert (2 ^ N ≤ 2 ^ n) by (apply Z.pow_le_mono_r; lia).
        by rewrite <- (Z.div_unique (z - 2 ^ N) (2 ^ n) (-1) (z - 2 ^ N + 2 ^ n)) by lia.
    + destruct (Z.ltb_spec n N); [done|]. rewrite Htop.
      rewrite Z.testbit_eqb by lia. assert (2 ^ N ≤ 2 ^ n) by (apply Z.pow_le_mono_r; lia).
      by rewrite Z.div_small by lia.
  - destruct (Z.ltb_spec n N); [done|].
    rewrite Z.testbit_eqb by lia. assert (2 ^ N ≤ 2 ^ n) by (apply Z.pow_le_mono_r; lia).
    by rewrite Z.div_small by lia.
Qed.

Lemma int_value_bitwise (f : Z → Z → Z) (g : bool → bool → bool) sg w x y :
  (∀ a b n, 0 ≤ n → Z.testbit (f a b) n = g (Z.testbit a n) (Z.testbit b n)) →
  g false false = false → 0 < w → 0 ≤ x < 2 ^ (8 * w) → 0 ≤ y < 2 ^ (8 * w) →
  0 ≤ f x y < 2 ^ (8 * w) ∧
  int_value sg w (f x y) = f (int_value sg w x) (int_value sg w y).
Proof.
  intros Hf Hg Hw Hx Hy.
  assert (Hbits : ∀ z n, 0 ≤ z < 2 ^ (8 * w) → 8 * w ≤ n → Z.testbit z n = false).
  { intros z n Hz Hn. rewrite Z.testbit_eqb by lia.
    assert (2 ^ (8 * w) ≤ 2 ^ n) by (apply Z.pow_le_mono_r; lia). by rewrite Z.div_small by lia. }
  assert (Hmod : f x y `mod` 2 ^ (8 * w) = f x y).
  { apply Z.bits_inj'. intros n Hn. destruct (Z.lt_ge_cases n (8 * w)).
    - by rewrite Z.mod_pow2_bits_low by lia.
    - rewrite Z.mod_pow2_bits_high, Hf, !Hbits by lia. by rewrite Hg. }
  assert (Hr : 0 ≤ f x y < 2 ^ (8 * w)).
  { rewrite <- Hmod. apply Z.mod_pos_bound. lia. }
  split; [done|]. apply Z.bits_inj'. intros n Hn.
  rewrite Hf, !int_value_testbit, !Hf by lia. destruct (n <? 8 * w); [done|].
  by destruct sg; cbn [andb].
Qed.

(** ** Integer reductions *)

(** The value a C integer of [w] bytes has after the conversion of [v] to it. *)
Definition wrap (sg : bool) (w v : Z) : Z := int_value sg w (int_bits w v).

(** What each function means on integers. *)
Definition int_op (f : Func) : option (Z → Z → Z) :=
  match f with
  | f_max _ => Some Z.max
  | f_min _ => Some Z.min
  | f_sum _ => Some Z.add
  | f_prod _ => Some Z.mul
  | f_land _ => Some (λ a b, of_truth (truth a && truth b))
  | f_lor _ => Some (λ a b, of_truth (truth a || truth b))
  | f_lxor _ => Some (λ a b, of_truth (xorb (truth a) (truth b)))
  | f_band _ => Some Z.land
  | f_bor _ => Some Z.lor
  | f_bxor _ => Some Z.lxor
  | _ => None
  end.

(** The operands for which C defines the operation: sums and products of a signed
    type, narrow types promoted to [int], must not overflow. *)
Definition int_defined (f : Func) (sg : bool) (w a b : Z) : bool :=
  let '(sg, w) := if w <? 4 then (true, 4) else (sg, w) in
  match f with
  | f_sum _ => int_fits sg w (a + b)
  | f_prod _ => int_fits sg w (a * b)
  | _ => true
  end.

Lemma int_bits_range w v : 0 ≤ int_bits w v < 2 ^ (8 * w) ∨ 8 * w < 0.
Proof.
  destruct (Z.lt_ge_cases (8 * w) 0); [by right|left]. apply Z.mod_pos_bound. lia.
Qed.

Lemma int_bits_value sg w z : 0 < w → 0 ≤ z < 2 ^ (8 * w) → int_bits w (int_value sg w z) = z.
Proof.
  intros Hw Hz. unfold int_bits, int_value. case_match; [|by apply Z.mod_small].
  replace (z - 2 ^ (8 * w)) with (z + (-1) * 2 ^ (8 * w)) by lia.
  rewrite Z_mod_plus_full. by apply Z.mod_small.
Qed.

Lemma wrap_value sg w z : 0 < w → 0 ≤ z < 2 ^ (8 * w) →
  wrap sg w (int_value sg w z) = int_value sg w z.
Proof. intros. unfold wrap. by rewrite int_bits_value. Qed.

Lemma int_value_zero sg w z : 0 < w → 0 ≤ z < 2 ^ (8 * w) → truth (int_value sg w z) = truth z.
Proof.
  intros Hw Hz. unfold truth. f_equal. pose proof (int_bits_value sg w z Hw Hz) as H.
  destruct (Z.eqb_spec (int_value sg w z) 0) as [Heq|Hne], (Z.eqb_spec z 0) as [Hz0|Hz0]; try done.
  - rewrite Heq in H. unfold int_bits in H. rewrite Z.mod_0_l in H by lia. lia.
  - subst z. destruct Hne. unfold int_value. destruct sg; [|done]. cbn [andb].
    by rewrite (proj2 (Z.leb_gt _ _)) by lia.
Qed.

Lemma of_truth_wrap sg w b : 0 < w →
  0 ≤ of_truth b < 2 ^ (8 * w) ∧ int_value sg w (of_truth b) = wrap sg w (of_truth b).
Proof.
  intros Hw. assert (2 ^ 8 ≤ 2 ^ (8 * w)) by (apply Z.pow_le_mono_r; lia).
  assert (Hr : 0 ≤ of_truth b < 2 ^ (8 * w)) by (destruct b; cbn; lia).
  split; [done|]. unfold wrap, int_bits. by rewrite Z.mod_small.
Qed.

Section reductions.
Context (big : bool) (fl : float_ops).

(** [op] computes [g] on the patterns of a type. *)
Definition computes (sg : bool) (w : Z) (ok : Z → Z → bool) (g : Z → Z → Z)
    (op : Z → Z → res Z) : Prop :=
  ∀ a b, 0 ≤ a < 2 ^ (8 * w) → 0 ≤ b < 2 ^ (8 * w) →
    ok (int_value sg w a) (int_value sg w b) = true →
    ∃ v, op a b = Ok v ∧ 0 ≤ v < 2 ^ (8 * w) ∧
      int_value sg w v = wrap sg w (g (int_value sg w a) (int_value sg w b)).

Lemma int_arith_range sg w v x : 0 < w → int_arith sg w v = Ok x → 0 ≤ x < 2 ^ (8 * w).
Proof.
  intros Hw. unfold int_arith. destruct (if w <? 4 then (true, 4) else (sg, w)).
  intros H. inv_ok. destruct (int_bits_range w v); [done|lia].
Qed.

Lemma int_arith_computes sg w (g : Z → Z → Z) (f : Func) : 0 < w →
  (∀ a b, int_defined f sg w a b =
     let '(sg', w') := if w <? 4 then (true, 4) else (sg, w) in int_fits sg' w' (g a b)) →
  computes sg w (int_defined f sg w) g
    (λ a b, int_arith sg w (g (int_value sg w a) (int_value sg w b))).
Proof.
  intros Hw Hdef a b Ha Hb Hok. rewrite Hdef in Hok. unfold int_arith.
  destruct (if w <? 4 then (true, 4) else (sg, w)) as [sg' w']. rewrite Hok.
  eexists. split; [reflexivity|]. split; [|done].
  destruct (int_bits_range w (g (int_value sg w a) (int_value sg w b))); [done|lia].
Qed.

Lemma bitwise_computes sg w (g : Z → Z → Z) (h : bool → bool → bool) ok : 0 < w →
  (∀ a b n, 0 ≤ n → Z.testbit (g a b) n = h (Z.testbit a n) (Z.testbit b n)) →
  h false false = false → computes sg w ok g (λ a b, mret (g a b)).
Proof.
  intros Hw Hbit Hh a b Ha Hb _.
  destruct (int_value_bitwise g h sg w a b Hbit Hh Hw Ha Hb) as [Hr Hv].
  eexists. split; [reflexivity|]. split; [done|]. rewrite <- Hv. by rewrite wrap_value.
Qed.

Lemma truth_computes sg w (h g : bool → bool → bool) ok : 0 < w → (∀ a b, h a b = g a b) →
  computes sg w ok (λ a b, of_truth (g (truth a) (truth b)))
    (λ a b, mret (of_truth (h (truth a) (truth b)))).
Proof.
  intros Hw Hh a b Ha Hb _. rewrite !int_value_zero, <- Hh by done.
  eexists. split; [reflexivity|]. by apply of_truth_wrap.
Qed.

Lemma choice_computes sg w (lt : Z → Z → bool) (g : Z → Z → Z) ok : 0 < w →
  (∀ a b, g (int_value sg w a) (int_value sg w b) = int_value sg w (if lt b a then b else a)) →
  computes sg w ok g (λ a b, Ok (if lt b a then b else a)).
Proof.
  intros Hw Hg a b Ha Hb _. eexists. split; [reflexivity|]. rewrite Hg.
  split; [by case_match|]. by rewrite wrap_value by (done || by case_match).
Qed.

(** The loop of a function on an integer type does what the function means. *)
Definition reduces (t : CType) (sg : bool) (w : Z) (f : Func) (g : Z → Z → Z) : Prop :=
  ∃ op body, func_loop big fl f = for_count body w ∧ acts (ld big t) w op body ∧
    computes sg w (int_defined f sg w) g op.

Lemma reduces_update t sg w f g op : int_type t = Some (sg, w) →
  func_loop big fl f = for_count (update big t op) (sizeof t) →
  (∀ a b v, 0 ≤ a < 2 ^ (8 * w) → 0 ≤ b < 2 ^ (8 * w) → op a b = Ok v → 0 ≤ v < 2 ^ (8 * w)) →
  computes sg w (int_defined f sg w) g op → reduces t sg w f g.
Proof.
  intros Ht Hf Hr Hc. destruct (int_type_size _ _ _ Ht) as [Hs Hz]. rewrite Hz in Hf.
  exists op, (update big t op). split; [done|]. split; [|done]. rewrite <- Hs.
  apply update_acts. by rewrite Hs.
Qed.

Lemma reduces_update_if t sg w f g better : int_type t = Some (sg, w) →
  func_loop big fl f = for_count (update_if big t better) (sizeof t) →
  computes sg w (int_defined f sg w) g (λ a b : Z, Ok (if better b a then b else a) : res Z) →
  reduces t sg w f g.
Proof.
  intros Ht Hf Hc. destruct (int_type_size _ _ _ Ht) as [Hs Hz]. rewrite Hz in Hf.
  exists (λ a b : Z, Ok (if better b a then b else a) : res Z), (update_if big t better).
  split; [done|]. split; [|done]. rewrite <- Hs. apply update_if_acts.
Qed.

(** An operation that always succeeds keeps to the patterns of the type. *)
Lemma computes_range sg w ok g (op : Z → Z → Z) : (∀ a b, ok a b = true) →
  computes sg w ok g (λ a b, mret (op a b)) →
  ∀ a b v, 0 ≤ a < 2 ^ (8 * w) → 0 ≤ b < 2 ^ (8 * w) → mret (op a b) = Ok v →
  0 ≤ v < 2 ^ (8 * w).
Proof. intros Hok Hc a b v Ha Hb [= <-]. destruct (Hc a b Ha Hb (Hok _ _)) as (?&[= <-]&?&_). done. Qed.

Lemma reduces_total t sg w f g (op : Z → Z → Z) : int_type t = Some (sg, w) →
  func_loop big fl f = for_count (update big t (λ a b, mret (op a b))) (sizeof t) →
  (∀ a b, int_defined f sg w a b = true) →
  computes sg w (int_defined f sg w) g (λ a b, mret (op a b)) → reduces t sg w f g.
Proof. intros Ht Hf Hok Hc. eapply reduces_update; eauto using computes_range. Qed.

Lemma scalar_lt_int t sg w a b : int_type t = Some (sg, w) →
  scalar_lt fl t a b = (int_value sg w a <? int_value sg w b).
Proof. intros Ht. unfold scalar_lt. by rewrite Ht. Qed.

#[local] Ltac total := eapply reduces_total; [done|reflexivity|intros; by eauto|].

Lemma func_loop_reduces f t sg w g : func_type f = Some t → int_type t = Some (sg, w) →
  int_op f = Some g → reduces t sg w f g.
Proof.
  intros Hf Ht Hg. assert (Hw : 0 < w) by (destruct (int_type_width _ _ _ Ht); lia).
  assert (Hnc : ∀ t', t ≠ primitive_complex t') by (intros ? ->; done).
  assert (Htot : ∀ (f : Func) a b, match f with f_sum _ | f_prod _ => False | _ => True end →
    int_defined f sg w a b = true).
  { intros f' a b. unfold int_defined. destruct (if w <? 4 then (true, 4) else (sg, w)).
    by destruct f'. }
  destruct f as [| | |u|u|u|u|u|u|u|u|u|u|u|u]; cbn in Hf, Hg; try discriminate;
    injection Hf as ->; injection Hg as <-.
  - eapply reduces_update_if; [done|reflexivity|]. apply choice_computes; [done|].
    intros a b. rewrite (scalar_lt_int t sg w) by done. case_match; lia.
  - eapply reduces_update_if; [done|reflexivity|]. apply choice_computes; [done|].
    intros a b. rewrite (scalar_lt_int t sg w) by done. case_match; lia.
  - apply (reduces_update t sg w _ _ (λ a b, int_arith sg w (int_value sg w a + int_value sg w b)));
      [done|destruct t; by cbn in Ht; inv Ht|by intros; eapply int_arith_range|].
    by apply int_arith_computes.
  - apply (reduces_update t sg w _ _ (λ a b, int_arith sg w (int_value sg w a * int_value sg w b)));
      [done|destruct t; by cbn in Ht; inv Ht|by intros; eapply int_arith_range|].
    by apply int_arith_computes.
  - total. by apply truth_computes.
  - total. by apply truth_computes.
  - total. apply (truth_computes sg w (λ a b, (a && negb b) || (negb a && b)) xorb); [done|].
    by intros [] [].
  - total. apply (bitwise_computes sg w Z.land andb); auto using Z.land_spec.
  - total. apply (bitwise_computes sg w Z.lor orb); auto using Z.lor_spec.
  - total. apply (bitwise_computes sg w Z.lxor xorb); auto using Z.lxor_spec.
Qed.

End reductions.

(** * Values with a location *)

Lemma round_up_ge n a : 0 < a → n ≤ round_up n a.
Proof.
  intros Ha. unfold round_up. pose proof (Z.div_mod (n + a - 1) a ltac:(lia)).
  pose proof (Z.mod_pos_bound (n + a - 1) a Ha). lia.
Qed.

(** The structure holds the value, then the index. *)
Lemma loc_layout v i pad0 pad1 : 0 ≤ pad0 → 0 ≤ pad1 →
  scalar_size v ≤ index_offset v i pad0 ∧
  index_offset v i pad0 + scalar_size i ≤ sizeof (primitive_loc v i pad0 pad1).
Proof.
  intros H0 H1. pose proof (scalar_size_pos v). pose proof (scalar_size_pos i). split.
  - unfold index_offset. pose proof (round_up_ge (scalar_size v + pad0) (scalar_size i)). lia.
  - cbn [sizeof]. pose proof (round_up_ge (index_offset v i pad0 + scalar_size i + pad1)
      (Z.max (scalar_size v) (scalar_size i))). lia.
Qed.

Section loc.
Context (big : bool) (fl : float_ops) (v i : CType) (pad0 pad1 : Z).
Context (Hp0 : 0 ≤ pad0) (Hp1 : 0 ≤ pad1).

(** The value and the index of the element at [a]. *)
Definition loc_at (a : Z) (m : mem) : Z * Z :=
  (ld big v a m, ld big i (a + index_offset v i pad0) m).

Lemma loc_at_local : local loc_at (sizeof (primitive_loc v i pad0 pad1)).
Proof.
  intros a m m' H. destruct (loc_layout v i pad0 pad1 Hp0 Hp1).
  pose proof (scalar_size_pos v). pose proof (scalar_size_pos i).
  unfold loc_at. f_equal; apply ld_local; intros x Hx; apply H; lia.
Qed.

Lemma update_loc_acts (better : Z → Z → bool) :
  acts loc_at (sizeof (primitive_loc v i pad0 pad1))
    (λ a b : Z * Z, Ok (if better b.1 a.1 then b else a) : res (Z * Z))
    (update_loc big v i pad0 better).
Proof.
  intros d s m p Hm Hdis [= <-]. destruct (loc_layout v i pad0 pad1 Hp0 Hp1) as [Hl1 Hl2].
  pose proof (scalar_size_pos v). pose proof (scalar_size_pos i).
  unfold update_loc. cbn [loc_at fst]. case_match; [|by exists m].
  eexists. split; [reflexivity|].
  split; [|split; [by apply st_bytes_ok, st_bytes_ok|]].
  - unfold loc_at. f_equal.
    + rewrite (ld_local big v d _ (st big v d (ld big v s m) m)).
      * apply ld_st, ld_range, Hm.
      * intros x Hx. apply st_out. lia.
    + rewrite ld_st by apply ld_range, st_bytes_ok, Hm. apply ld_local. intros x Hx.
      apply st_out. lia.
  - intros x Hx. rewrite !st_out by lia. done.
Qed.

End loc.

(** * Calls *)

Lemma call_func_loop big fl f t to from bytes m : func_type f = Some t →
  (∀ u, f ≠ f_copy u) →
  (∀ n, loop_count f n = n) → bytes / sizeof t < 2 ^ 32 →
  0 ≤ to → to + bytes / sizeof t * sizeof t ≤ 2 ^ 64 →
  0 ≤ from → from + bytes / sizeof t * sizeof t ≤ 2 ^ 64 →
  call_func big fl f to from bytes m =
  func_loop big fl f (Z.to_nat (bytes / sizeof t)) to from m.
Proof.
  intros Hf Hne Hc Hn H1 H2 H3 H4.
  assert (Hr : (t ← of_option (func_type f);
    let count := loop_count f (bytes / sizeof t) in
    if 2 ^ 32 <=? count then Err NoFuel else
    defined (in_memory to (count * sizeof t) && in_memory from (count * sizeof t));;
    func_loop big fl f (Z.to_nat count) to from m) =
    func_loop big fl f (Z.to_nat (bytes / sizeof t)) to from m).
  { rewrite Hf. cbn [of_option mbind res_bind]. rewrite Hc, (proj2 (Z.leb_gt _ _)) by done.
    by rewrite (proj2 (in_memory_spec to _)), (proj2 (in_memory_spec from _)). }
  destruct f; try exact Hr; [done|done|by destruct (Hne t0)].
Qed.

(** The primitive types that have a size, with the value of the enumeration. *)
Definition func_val (f : primitive_func_t) : Z :=
  match f with
  | PRIMITIVE_FUNC_COPY => 0 | PRIMITIVE_FUNC_NOOP => 1 | PRIMITIVE_FUNC_MAX => 2
  | PRIMITIVE_FUNC_MIN => 3 | PRIMITIVE_FUNC_SUM => 4 | PRIMITIVE_FUNC_PROD => 5
  | PRIMITIVE_FUNC_LAND => 6 | PRIMITIVE_FUNC_LOR => 7 | PRIMITIVE_FUNC_LXOR => 8
  | PRIMITIVE_FUNC_BAND => 9 | PRIMITIVE_FUNC_BOR => 10 | PRIMITIVE_FUNC_BXOR => 11
  | PRIMITIVE_FUNC_MAXLOC => 12 | PRIMITIVE_FUNC_MINLOC => 13
  end.

(** The predefined integer types, by signedness and bytes, and the operations on them. *)
Definition predefined_int (p : primitive_type_t) : option (bool * Z) :=
  match p with
  | PRIMITIVE_TYPE_BYTE | PRIMITIVE_TYPE_UNSIGNED_CHAR => Some (false, 1)
  | PRIMITIVE_TYPE_UNSIGNED_SHORT => Some (false, 2)
  | PRIMITIVE_TYPE_UNSIGNED_INT => Some (false, 4)
  | PRIMITIVE_TYPE_UNSIGNED_LONG | PRIMITIVE_TYPE_UNSIGNED_LONG_LONG => Some (false, 8)
  | PRIMITIVE_TYPE_SIGNED_CHAR => Some (true, 1)
  | PRIMITIVE_TYPE_SIGNED_SHORT => Some (true, 2)
  | PRIMITIVE_TYPE_SIGNED_INT => Some (true, 4)
  | PRIMITIVE_TYPE_SIGNED_LONG | PRIMITIVE_TYPE_SIGNED_LONG_LONG => Some (true, 8)
  | _ => None
  end.

Definition predefined_op (f : primitive_func_t) : option (Z → Z → Z) :=
  match f with
  | PRIMITIVE_FUNC_MAX => Some Z.max
  | PRIMITIVE_FUNC_MIN => Some Z.min
  | PRIMITIVE_FUNC_SUM => Some Z.add
  | PRIMITIVE_FUNC_PROD => Some Z.mul
  | PRIMITIVE_FUNC_LAND => Some (λ a b, of_truth (truth a && truth b))
  | PRIMITIVE_FUNC_LOR => Some (λ a b, of_truth (truth a || truth b))
  | PRIMITIVE_FUNC_LXOR => Some (λ a b, of_truth (xorb (truth a) (truth b)))
  | PRIMITIVE_FUNC_BAND => Some Z.land
  | PRIMITIVE_FUNC_BOR => Some Z.lor
  | PRIMITIVE_FUNC_BXOR => Some Z.lxor
  | _ => None
  end.

(** * Properties *)

(** What the table has for a predefined integer type and an operation on integers is a
    function on elements of that signedness and size that means that operation. *)
Theorem integer_table (p : primitive_type_t) (f : primitive_func_t) (sg : bool) (w : Z) (g : Z → Z → Z)
  (Hp : predefined_int p = Some (sg, w)) (Hf : predefined_op f = Some g) :
  ∃ fn t, GetCopyFunction (primitive_val p) (func_val f) = Ok fn ∧ func_type fn = Some t ∧
    int_type t = Some (sg, w) ∧ int_op fn = Some g.
Proof.
  destruct p; try discriminate Hp; injection Hp as <- <-; destruct f; try discriminate Hf;
    injection Hf as <-; eexists _, _; by repeat split.
Qed.

Section properties.
Context (big : bool) (fl : float_ops).

(** C37. The reductions on integers: on arrays that do not overlap, where C defines
    the operation on every pair of elements, each element of the target becomes
    the operation applied to both elements, converted to the type; the bytes
    after the last whole element, and everything else, do not change. *)
Theorem integer_reduction (f : Func) (t : CType) (sg : bool) (w : Z) (g : Z → Z → Z)
  (to from bytes : Z) (m : mem) (Hf : func_type f = Some t) (Ht : int_type t = Some (sg, w))
  (Hg : int_op f = Some g) (Hm : bytes_ok m) (Hb : 0 ≤ bytes) (Hn : bytes / w < 2 ^ 32)
  (Hto : 0 ≤ to) (Hto' : to + bytes ≤ 2 ^ 64) (Hfr : 0 ≤ from) (Hfr' : from + bytes ≤ 2 ^ 64)
  (Hdis : to + bytes ≤ from ∨ from + bytes ≤ to)
  (Hok : ∀ i, 0 ≤ i < bytes / w →
     int_defined f sg w (int_at big t (to + i * w) m) (int_at big t (from + i * w) m) = true) :
  ∃ m', call_func big fl f to from bytes m = Ok m' ∧ bytes_ok m' ∧
    (∀ i, 0 ≤ i < bytes / w → int_at big t (to + i * w) m' =
       wrap sg w (g (int_at big t (to + i * w) m) (int_at big t (from + i * w) m))) ∧
    ∀ x, x < to ∨ to + bytes / w * w ≤ x → m' x = m x.
Proof.
  destruct (func_loop_reduces big fl f t sg w g Hf Ht Hg) as (op&body&Hl&Hact&Hcomp).
  destruct (int_type_size _ _ _ Ht) as [Hs Hz].
  assert (Hw : 0 < w) by (destruct (int_type_width _ _ _ Ht); lia).
  assert (Hdm : 0 ≤ bytes / w ∧ bytes / w * w ≤ bytes).
  { split; [by apply Z.div_pos|]. rewrite Z.mul_comm. by apply Z.mul_div_le. }
  rewrite (call_func_loop big fl f t) by (rewrite ?Hz; try done; try lia; try (by intros u ->);
    intros k; destruct f as [| | | | |[]|[]| | | | | | | |]; simplify_eq/=; done).
  rewrite Hz, Hl. set (n := bytes / w) in *.
  assert (Hop : ∀ i, 0 ≤ i < n → ∃ v, op (ld big t (to + i * w) m) (ld big t (from + i * w) m) = Ok v ∧
    int_value sg w v = wrap sg w (g (int_at big t (to + i * w) m) (int_at big t (from + i * w) m))).
  { intros i Hi. specialize (Hok i Hi). unfold int_at in *. rewrite Ht in *.
    destruct (Hcomp (ld big t (to + i * w) m) (ld big t (from + i * w) m)) as (v&?&_&?); eauto;
      rewrite <- Hs; by apply ld_range. }
  set (v i := match op (ld big t (to + Z.of_nat i * w) m) (ld big t (from + Z.of_nat i * w) m) with
              | Ok v => v | Err _ => 0 end).
  destruct (for_count_spec (ld big t) w op body Hw) with (n := Z.to_nat n) (d := to) (s := from)
    (m := m) (v := v) as (m'&Hrun&Hm'&Hin&Hout); rewrite ?Z2Nat.id in * by lia; try done.
  - rewrite <- Hs. apply ld_local.
  - lia.
  - intros i Hi. destruct (Hop (Z.of_nat i)) as (x&Hx&_); [lia|]. unfold v. by rewrite Hx.
  - exists m'. split; [done|]. split; [done|]. split; [|done]. intros i Hi.
    destruct (Hop i Hi) as (x&Hx&<-). unfold int_at at 1. rewrite Ht. f_equal.
    specialize (Hin (Z.to_nat i) ltac:(lia)). unfold v in Hin.
    rewrite Z2Nat.id, Hx in Hin by lia. done.
Qed.

(** The reductions to the maximum and minimum with location: each element of
    the target becomes the source's value and index when the source's value is
    strictly better, and stays otherwise (ties keep the target). *)
Theorem loc_reduction (f : Func) (v i : CType) (pad0 pad1 to from n : Z) (m : mem)
  (better : Z → Z → bool)
  (Hf : (f = f_maxloc (primitive_loc v i pad0 pad1) ∧ better = (λ s d, scalar_lt fl v d s)) ∨
        (f = f_minloc (primitive_loc v i pad0 pad1) ∧ better = (λ s d, scalar_lt fl v s d)))
  (Hp0 : 0 ≤ pad0) (Hp1 : 0 ≤ pad1) (Hm : bytes_ok m) (Hn : 0 ≤ n < 2 ^ 32)
  (Hto : 0 ≤ to) (Hto' : to + n * sizeof (primitive_loc v i pad0 pad1) ≤ 2 ^ 64) (Hfr : 0 ≤ from)
  (Hfr' : from + n * sizeof (primitive_loc v i pad0 pad1) ≤ 2 ^ 64)
  (Hdis : to + n * sizeof (primitive_loc v i pad0 pad1) ≤ from ∨
          from + n * sizeof (primitive_loc v i pad0 pad1) ≤ to) :
  ∃ m', call_func big fl f to from (n * sizeof (primitive_loc v i pad0 pad1)) m = Ok m' ∧
    bytes_ok m' ∧
    (∀ k, 0 ≤ k < n →
       let at_k a := loc_at big v i pad0 (a + k * sizeof (primitive_loc v i pad0 pad1)) in
       at_k to m' = if better (at_k from m).1 (at_k to m).1 then at_k from m else at_k to m) ∧
    ∀ x, x < to ∨ to + n * sizeof (primitive_loc v i pad0 pad1) ≤ x → m' x = m x.
Proof.
  destruct (loc_layout v i pad0 pad1 Hp0 Hp1). pose proof (scalar_size_pos v).
  pose proof (scalar_size_pos i). set (sz := sizeof (primitive_loc v i pad0 pad1)) in *.
  assert (Hsz : 0 < sz) by lia.
  assert (Hft : func_type f = Some (primitive_loc v i pad0 pad1)) by (by destruct Hf as [[-> _]|[-> _]]).
  assert (Hfl : func_loop big fl f = for_count (update_loc big v i pad0 better) sz)
    by (by destruct Hf as [[-> ->]|[-> ->]]).
  rewrite (call_func_loop big fl f _ to from _ m Hft); fold sz; rewrite ?Z.div_mul by lia;
    try lia; [|by destruct Hf as [[-> _]|[-> _]]..].
  rewrite Hfl.
  destruct (for_count_spec (loc_at big v i pad0) sz _ _ Hsz (loc_at_local big v i pad0 pad1 Hp0 Hp1)
    (update_loc_acts big v i pad0 pad1 Hp0 Hp1 better) (Z.to_nat n) to from m
    (λ k, let at_k a := loc_at big v i pad0 (a + Z.of_nat k * sz) m in
          if better (at_k from).1 (at_k to).1 then at_k from else at_k to))
    as (m'&Hrun&Hm'&Hin&Hout); rewrite ?Z2Nat.id in * by lia; try done.
  exists m'. split; [done|]. split; [done|]. split; [|done]. intros k Hk. cbn zeta.
  specialize (Hin (Z.to_nat k) ltac:(lia)). cbn zeta in Hin. by rewrite Z2Nat.id in Hin by lia.
Qed.

End properties.

(** Little-endian memory of ones, with one array of two [int]s at 4096 and one at
    8192. *)
Definition ones : mem := λ _, 1.

Definition float_stub : float_ops :=
  mkFloatOps (λ _ _ _, false) (λ _ a _, a) (λ _ a _, a) (λ _ a _, a).

Lemma ones_ok : bytes_ok ones.
Proof. intros x. unfold ones. lia. Qed.

Lemma integer_reduction_witness :
  ∃ m', call_func false float_stub (f_sum signed_int) 4096 8192 8 ones = Ok m' ∧ bytes_ok m' ∧
    (∀ i, 0 ≤ i < 8 / 4 → int_at false signed_int (4096 + i * 4) m' =
       wrap true 4 (int_at false signed_int (4096 + i * 4) ones +
                    int_at false signed_int (8192 + i * 4) ones)) ∧
    ∀ x, x < 4096 ∨ 4096 + 8 / 4 * 4 ≤ x → m' x = ones x.
Proof.
  apply (integer_reduction false float_stub (f_sum signed_int) signed_int true 4 Z.add 4096 8192 8
    ones eq_refl eq_refl eq_refl ones_ok); [lia|reflexivity|lia|lia|lia|lia|lia|].
  intros i _. vm_compute. reflexivity.
Defined.

Lemma loc_reduction_witness :
  ∃ m', call_func false float_stub (f_maxloc (primitive_loc signed_int signed_int 0 0)) 4096 8192
      (2 * sizeof (primitive_loc signed_int signed_int 0 0)) ones = Ok m' ∧
    bytes_ok m' ∧
    (∀ k, 0 ≤ k < 2 →
       let at_k a := loc_at false signed_int signed_int 0
         (a + k * sizeof (primitive_loc signed_int signed_int 0 0)) in
       at_k 4096 m' = if scalar_lt float_stub signed_int (at_k 4096 ones).1 (at_k 8192 ones).1
                      then at_k 8192 ones else at_k 4096 ones) ∧
    ∀ x, x < 4096 ∨ 4096 + 2 * sizeof (primitive_loc signed_int signed_int 0 0) ≤ x →
      m' x = ones x.
Proof.
  apply (loc_reduction false float_stub (f_maxloc (primitive_loc signed_int signed_int 0 0))
    signed_int signed_int 0 0 4096 8192 2 ones
    (λ s d, scalar_lt float_stub signed_int d s) (or_introl (conj eq_refl eq_refl)));
    [lia|lia|apply ones_ok|lia|lia|vm_compute; discriminate|lia|vm_compute; discriminate|].
  left. vm_compute. discriminate.
Defined.

Lemma integer_table_witness : ∃ fn t, GetCopyFunction 3 4 = Ok fn ∧ func_type fn = Some t ∧
  int_type t = Some (true, 4) ∧ int_op fn = Some Z.add.
Proof. exact (integer_table PRIMITIVE_TYPE_SIGNED_INT PRIMITIVE_FUNC_SUM true 4 Z.add eq_refl eq_refl). Defined.
