(* ===== verification/TypeMachine.v ===== *)
(** The type machine, src/common/type/TypeMachine.h: it runs the code of a
    completed type to pack, unpack and enumerate typed data from a cursor. *)
From S2P Require Import Prelude.
From S2P Require Import Memory.
From S2P Require Import TypeCode.
From S2P Require Import TypeFunc.

(** * State *)

(** [struct Cursor]. *)
Record Cursor := mkCursor {
  c_pc : Z; c_disp : Z; c_offset : Z; c_rep_num : Z; c_rep_bytes : Z
}.

Definition SMALL_STACK_DEPTH : Z := 4.
Definition cursor_size : Z := 40.

(** The [stack] up to [top], the cursor at [top] first; the cursors above [top]
    are never read before they are written.  [stack_cap] is the number of
    cursors the stack's storage holds. *)
Record TypeMachine := mkMachine {
  tm_type : Z; orig_type : option Z; cookie : Z; copy_func : CopyFunction;
  stack : list Cursor; stack_cap : Z; deallocate_stack : bool
}.

(** The cursor at the start of a type. *)
Definition Cursor_start : Cursor := mkCursor sizeof_Begin 0 0 0 0.

(** * Instructions *)

(** [ExecuteCall]: pushes a cursor at the sub-type's first instruction. *)
Definition ExecuteCall (cap sub_type : Z) (stk : list Cursor) : res (list Cursor) :=
  match stk with
  | c :: below =>
      defined (Z.of_nat (length stk) <? cap);;
      mret (mkCursor (w64 (c_pc c + sub_type + sizeof_Begin)) (c_disp c) (c_offset c) 0 0
              :: c :: below)
  | [] => Err Fault
  end.

Definition ExecuteShift (shift : Z) (c : Cursor) : Cursor :=
  mkCursor (w64 (c_pc c + op_size SHIFT)) (w64 (c_disp c + shift)) (c_offset c) (c_rep_num c)
    (c_rep_bytes c).

(** [ExecuteEnd]: repeats the type, or returns from the sub-type. *)
Definition ExecuteEnd (code : list Slot) (stk : list Cursor) : res (list Cursor) :=
  match stk with
  | [] => Err Fault
  | [c] => mret [mkCursor sizeof_Begin (c_disp c) (c_offset c) 0 0]
  | c :: old :: below =>
      slot ← of_option (op_at code (c_pc old));
      match s_op slot with
      | Call _ stride reps =>
          let n := w64 (c_rep_num old + 1) in
          let disp := w64 (c_disp old + stride) in
          mret ((if n =? reps
                 then mkCursor (w64 (c_pc old + op_size CALL)) disp (c_offset c) 0 0
                 else mkCursor (c_pc old) disp (c_offset c) n 0) :: below)
      | _ => Err Fault
      end
  end.

(** * Moving data

    [Run] and [Copy] are templates over the function that moves a block,
    [MemCopy]: here they take it, and the state it acts on. *)
Section run.
Context {S : Type} (MemCopy : Z → Z → Z → S → res S).

(** The loop of [Copy] over whole repetitions. *)
Fixpoint copy_loop (fuel : nat) (b st target origin bytes : Z) (c : Cursor) (s : S) :
    res (Z * Z * Cursor * S) :=
  match fuel with
  | O => Err NoFuel
  | Datatypes.S fuel =>
      if b <? bytes then
        s ← MemCopy target (w64 (origin + c_disp c)) b s;
        copy_loop fuel b st (w64 (target + b)) origin (w64 (bytes - b))
          (mkCursor (c_pc c) (w64 (c_disp c + st)) (w64 (c_offset c + b))
             (w64 (c_rep_num c + 1)) (c_rep_bytes c)) s
      else mret (target, bytes, c, s)
  end.

(** What is left of the current repetition, then whole repetitions. *)
Definition copy_reps (b st r target origin bytes : Z) (c : Cursor) (s : S) :
    res (Z * Z * Cursor * S) :=
  let left := w64 (b - c_rep_bytes c) in
  if left <? bytes then
    s ← MemCopy target (w64 (origin + c_disp c + c_rep_bytes c)) left s;
    let bytes := w64 (bytes - left) in
    '(target, bytes, c, s) ← copy_loop (Datatypes.S (Z.to_nat (bytes / b))) b st
      (w64 (target + left)) origin bytes
      (mkCursor (c_pc c) (w64 (c_disp c + st)) (w64 (c_offset c + left))
         (w64 (c_rep_num c + 1)) 0) s;
    assert (c_rep_num c <? r);;
    mret (target, bytes, c, s)
  else mret (target, bytes, c, s).

(** The cursor after the last part of [bytes] bytes. *)
Definition copy_finish (b st r bytes : Z) (c : Cursor) : Cursor :=
  let offset := w64 (c_offset c + bytes) in
  let rep_bytes := w64 (c_rep_bytes c + bytes) in
  if rep_bytes =? b then
    let n := w64 (c_rep_num c + 1) in
    if n =? r then mkCursor (w64 (c_pc c + op_size COPY)) (w64 (c_disp c + st)) offset 0 0
    else mkCursor (c_pc c) (w64 (c_disp c + st)) offset n 0
  else mkCursor (c_pc c) (c_disp c) offset (c_rep_num c) rep_bytes.

Definition Copy (target origin bytes b st r : Z) (c : Cursor) (s : S) : res (Cursor * S) :=
  assert (bytes <=? w64 (b * w64 (r - c_rep_num c) - c_rep_bytes c));;
  '(target, bytes, c, s) ← copy_reps b st r target origin bytes c s;
  assert (bytes <=? w64 (b - c_rep_bytes c));;
  s ← MemCopy target (w64 (origin + c_disp c + c_rep_bytes c)) bytes s;
  mret (copy_finish b st r bytes c, s).

(** [Run]: moves [bytes] bytes from the cursor on; [fuel] bounds the
    instructions executed. *)
Fixpoint Run (fuel : nat) (code : list Slot) (cap target origin bytes : Z)
    (stk : list Cursor) (s : S) : res (list Cursor * S) :=
  match fuel with
  | O => Err NoFuel
  | Datatypes.S fuel =>
    if bytes =? 0 then mret (stk, s) else
    match stk with
    | [] => Err Fault
    | c :: below =>
      slot ← of_option (op_at code (c_pc c));
      match s_op slot with
      | TypeCode.Copy b st r =>
          let bytes_left := w64 (b * w64 (r - c_rep_num c) - c_rep_bytes c) in
          assert (0 <? bytes_left);;
          let n := Z.min bytes_left bytes in
          '(c, s) ← Copy target origin n b st r c s;
          let bytes := w64 (bytes - n) in
          if bytes =? 0 then mret (c :: below, s)
          else Run fuel code cap (w64 (target + n)) origin bytes (c :: below) s
      | Call sub_type _ _ =>
          stk ← ExecuteCall cap sub_type stk;
          Run fuel code cap target origin bytes stk s
      | Shift shift => Run fuel code cap target origin bytes (ExecuteShift shift c :: below) s
      | End => stk ← ExecuteEnd code stk; Run fuel code cap target origin bytes stk s
      | Begin _ => Err AssertFail
      end
    end
  end.

End run.

(** * Enumerating blocks *)

(** The entries written to [disp] and [bytes] for [n] repetitions. *)
Fixpoint emit_blocks (n : nat) (d st b : Z) : list (Z * Z) :=
  match n with O => [] | S n => (d, b) :: emit_blocks n (w64 (d + st)) st b end.

Definition INT_MAX : Z := 2 ^ 31 - 1.

(** The loop of [EnumerateBlocks]: [index] counts the entries already written; it is an
    [int]. *)
Fixpoint EnumerateBlocks_ (fuel : nat) (code : list Slot) (cap count index : Z)
    (stk : list Cursor) : res (list Cursor * list (Z * Z)) :=
  match fuel with
  | O => Err NoFuel
  | S fuel =>
    if count =? 0 then mret (stk, []) else
    match stk with
    | [] => Err Fault
    | c :: below =>
      assert (c_rep_bytes c =? 0);;
      slot ← of_option (op_at code (c_pc c));
      match s_op slot with
      | TypeCode.Copy b st r =>
          let reps_left := w64 (r - c_rep_num c) in
          assert (0 <? reps_left);;
          let n := Z.min reps_left count in
          defined (index + n <=? INT_MAX);;
          let blocks := emit_blocks (Z.to_nat n) (c_disp c) st b in
          let disp := w64 (c_disp c + st * n) in
          let offset := w64 (c_offset c + b * n) in
          let rep_num := w64 (c_rep_num c + n) in
          let c := if rep_num =? r
                   then mkCursor (w64 (c_pc c + op_size COPY)) disp offset 0 (c_rep_bytes c)
                   else mkCursor (c_pc c) disp offset rep_num (c_rep_bytes c) in
          let count := w64 (count - n) in
          if count =? 0 then mret (c :: below, blocks)
          else '(stk, more) ← EnumerateBlocks_ fuel code cap count (index + n) (c :: below);
               mret (stk, blocks ++ more)
      | Call sub_type _ _ =>
          stk ← ExecuteCall cap sub_type stk;
          EnumerateBlocks_ fuel code cap count index stk
      | Shift shift => EnumerateBlocks_ fuel code cap count index (ExecuteShift shift c :: below)
      | End => stk ← ExecuteEnd code stk; EnumerateBlocks_ fuel code cap count index stk
      | Begin _ => Err AssertFail
      end
    end
  end.

(** [GetContigBytes]: runs up to the next copy, and returns the bytes it has
    left. *)
Fixpoint GetContigBytes_ (fuel : nat) (code : list Slot) (cap : Z) (stk : list Cursor) :
    res (list Cursor * Z) :=
  match fuel with
  | O => Err NoFuel
  | S fuel =>
    match stk with
    | [] => Err Fault
    | c :: below =>
      slot ← of_option (op_at code (c_pc c));
      match s_op slot with
      | TypeCode.Copy b st r =>
          let bytes_left := w64 (b * w64 (r - c_rep_num c) - c_rep_bytes c) in
          assert (0 <? bytes_left);;
          mret (stk, bytes_left)
      | Call sub_type _ _ =>
          stk ← ExecuteCall cap sub_type stk; GetContigBytes_ fuel code cap stk
      | Shift shift => GetContigBytes_ fuel code cap (ExecuteShift shift c :: below)
      | End => stk ← ExecuteEnd code stk; GetContigBytes_ fuel code cap stk
      | Begin _ => Err AssertFail
      end
    end
  end.

(** * Moving the cursor *)

(** The loop of [MoveCursor], with its local [pc], [disp] and [offset]; [below]
    are the cursors under [stack[top]]. *)
Fixpoint move_loop (fuel : nat) (code : list Slot) (cap new_offset pc disp offset : Z)
    (below : list Cursor) : res (list Cursor) :=
  match fuel with
  | O => Err NoFuel
  | S fuel =>
      slot ← of_option (op_at code pc);
      match s_op slot with
      | TypeCode.Copy b st r =>
          let copy_size := w64 (b * r) in
          if new_offset <? w64 (offset + copy_size) then
            defined (negb (b =? 0));;
            let diff := w64 (new_offset - offset) in
            let rep_num := diff / b in
            let rep_bytes := w64 (diff - b * rep_num) in
            mret (mkCursor pc (w64 (disp + st * rep_num)) new_offset rep_num rep_bytes :: below)
          else move_loop fuel code cap new_offset (w64 (pc + op_size COPY))
                 (w64 (disp + st * r)) (w64 (offset + copy_size)) below
      | Call sub_type st r =>
          sub ← of_option (op_at code (w64 (pc + sub_type)));
          match s_op sub with
          | Begin hdr =>
              let sub_bytes := b_data_size hdr in
              let copy_size := w64 (sub_bytes * r) in
              if new_offset <? w64 (offset + copy_size) then
                defined (negb (sub_bytes =? 0));;
                let diff := w64 (new_offset - offset) in
                let rep_num := diff / sub_bytes in
                let rep_bytes := w64 (diff - sub_bytes * rep_num) in
                let disp := w64 (disp + st * rep_num) in
                let offset := w64 (new_offset - rep_bytes) in
                defined (Z.of_nat (length below) + 1 <? cap);;
                move_loop fuel code cap new_offset (w64 (pc + (sub_type + sizeof_Begin))) disp
                  offset (mkCursor pc disp offset rep_num 0 :: below)
              else move_loop fuel code cap new_offset (w64 (pc + op_size CALL))
                     (w64 (disp + st * r)) (w64 (offset + copy_size)) below
          | _ => Err Fault
          end
      | Shift shift =>
          move_loop fuel code cap new_offset (w64 (pc + op_size SHIFT)) (w64 (disp + shift))
            offset below
      | End => move_loop fuel code cap new_offset sizeof_Begin disp offset below
      | Begin _ => Err AssertFail
      end
  end.

Definition MoveCursor_ (fuel : nat) (t : TypeCode) (cap new_offset : Z) (stk : list Cursor) :
    res (list Cursor) :=
  match stk with
  | [] => Err Fault
  | c :: _ =>
      if c_offset c =? new_offset then mret stk else
      defined (negb (GetDataSize t =? 0));;
      let skip_reps := new_offset / GetDataSize t in
      move_loop fuel (type_code t) cap new_offset sizeof_Begin (w64 (skip_reps * GetExtent t))
        (w64 (skip_reps * GetDataSize t)) []
  end.

(** * The machine *)

(** What the copy of [size] bytes of memory that holds the instructions [code] has of
    them: the ones that are whole.  To copy more bytes than there are is undefined. *)
Fixpoint code_copy (code : list Slot) (size : Z) : res (list Slot) :=
  if size <=? 0 then mret [] else
  match code with
  | [] => Err Fault
  | s :: code =>
      let n := op_size (opcode (s_op s)) in
      if n <=? size then copied ← code_copy code (size - n); mret (s :: copied) else mret []
  end.

(** [TypeCode(void *code_addr, size_t code_size, bool copy_code_buffer)], where
    memory from the address on holds the instructions [code]: the type copies
    [code_size] bytes of it, or is over the foreign code itself, and then holds an
    extra reference, so that it is never deleted. *)
Definition TypeCode_over (code : list Slot) (code_size : Z) (copy_code_buffer : bool) :
    res TypeCode :=
  held ← (if copy_code_buffer then code_copy code code_size else mret code);
  match held with
  | mkSlot (Begin b) _ :: body =>
      mret (mkTypeCode b body 0 code_size 0 0 true (if copy_code_buffer then 0 else 1))
  | _ => Err Fault
  end.

Definition acquire (h : heap) (a : Z) : res heap :=
  t ← of_option (h !! a); mret (<[a := AcquireReference t]> h).

Definition release (h : heap) (a : Z) : res heap :=
  t ← of_option (h !! a);
  o ← ReleaseReference t;
  mret (match o with Some t => <[a := t]> h | None => delete a h end).

Section machine.
(** The address of [PAMI_TYPE_CONTIG_MAX]; the byte order and the floating-point
    arithmetic of the target; the functions at the addresses clients pass. *)
Context (contig_max : Z) (big : bool) (fl : float_ops).
Context (user : Z → Z → Z → Z → Z → mem → res mem).

(** The end of the constructors: a contiguous type is run as the maximal
    contiguous one, and the stack is the given storage when it is deep enough. *)
Definition machine_on (h : heap) (a cap : Z) : res (heap * TypeMachine) :=
  t ← of_option (h !! a);
  let '(type, orig) := if IsContiguous t then (contig_max, Some a) else (a, None) in
  ty ← of_option (h !! type);
  let '(cap, dealloc) := if GetDepth ty <=? cap then (cap, false) else (GetDepth ty, true) in
  mret (h, mkMachine type orig 0 (cf_pointer 0) [Cursor_start] cap dealloc).

Definition TypeMachine_new (h : heap) (a : Z) : res (heap * TypeMachine) :=
  t ← of_option (h !! a);
  assert (IsCompleted t);;
  h ← acquire h a;
  machine_on h a SMALL_STACK_DEPTH.

Definition TypeMachine_custom (h : heap) (a custom_stack_size : Z) : res (heap * TypeMachine) :=
  t ← of_option (h !! a);
  assert (IsCompleted t);;
  h ← acquire h a;
  machine_on h a (custom_stack_size / cursor_size).

(** [self] is the address of the machine's own [_type]. *)
Definition TypeMachine_code (h : heap) (self : Z) (code : list Slot)
    (code_size custom_stack_size : Z) : res (heap * TypeMachine) :=
  t ← TypeCode_over code code_size false;
  h ← acquire (<[self := t]> h) self;
  machine_on h self (custom_stack_size / cursor_size).

(** The type the client gave. *)
Definition GetType (m : TypeMachine) : Z := default (tm_type m) (orig_type m).

Definition TypeMachine_delete (h : heap) (m : TypeMachine) : res heap := release h (GetType m).

(** [SetType] reads the depth of the old type after it released it. *)
Definition SetType (h : heap) (m : TypeMachine) (new_type : Z) : res (heap * TypeMachine) :=
  t ← of_option (h !! new_type);
  assert (IsCompleted t && negb (new_type =? contig_max));;
  h ← acquire h new_type;
  let type := GetType m in
  h ← release h type;
  let '(new, orig) := if IsContiguous t then (contig_max, Some new_type) else (new_type, None) in
  nt ← of_option (h !! new);
  old ← of_option (h !! type);
  let '(cap, dealloc) :=
    if (GetDepth old <? GetDepth nt) && (SMALL_STACK_DEPTH <? GetDepth nt)
    then (GetDepth nt, true) else (stack_cap m, deallocate_stack m) in
  defined (0 <? cap);;
  mret (h, mkMachine new orig (cookie m) (copy_func m) [Cursor_start] cap dealloc).

(** [SetCopyFunc]: a predefined operation is looked up for the primitive type. *)
Definition SetCopyFunc (h : heap) (m : TypeMachine) (fn ck : Z) : res TypeMachine :=
  t ← of_option (h !! GetType m);
  let prim := GetPrimitive t in
  if bool_decide (prim = PRIMITIVE_TYPE_COUNT) || (PRIMITIVE_FUNC_COUNT <=? fn) then
    mret (mkMachine (tm_type m) (orig_type m) ck (cf_pointer fn) (stack m) (stack_cap m)
            (deallocate_stack m))
  else
    f ← GetCopyFunction (primitive_val prim) fn;
    mret (mkMachine (tm_type m) (orig_type m) (cookie m) (cf_func f) (stack m) (stack_cap m)
            (deallocate_stack m)).

Definition GetCursor (m : TypeMachine) : res Z :=
  match stack m with c :: _ => mret (c_offset c) | [] => Err Fault end.
Definition GetCursorDisp (m : TypeMachine) : res Z :=
  match stack m with c :: _ => mret (c_disp c) | [] => Err Fault end.

Definition set_stack (m : TypeMachine) (stk : list Cursor) : TypeMachine :=
  mkMachine (tm_type m) (orig_type m) (cookie m) (copy_func m) stk (stack_cap m)
    (deallocate_stack m).

Definition MoveCursor (fuel : nat) (h : heap) (m : TypeMachine) (offset : Z) : res TypeMachine :=
  t ← of_option (h !! tm_type m);
  stk ← MoveCursor_ fuel t (stack_cap m) offset (stack m);
  mret (set_stack m stk).

Definition GetContigBytes (fuel : nat) (h : heap) (m : TypeMachine) : res (TypeMachine * Z) :=
  t ← of_option (h !! tm_type m);
  '(stk, n) ← GetContigBytes_ fuel (type_code t) (stack_cap m) (stack m);
  mret (set_stack m stk, n).

(** [EnumerateBlocks]: the entries of [disp] and [bytes]. *)
Definition EnumerateBlocks (fuel : nat) (h : heap) (m : TypeMachine) (count : Z) :
    res (TypeMachine * list (Z * Z)) :=
  t ← of_option (h !! tm_type m);
  '(stk, bs) ← EnumerateBlocks_ fuel (type_code t) (stack_cap m) count 0 (stack m);
  mret (set_stack m stk, bs).

(** [InternalMemCopy]: scalars for the common sizes. *)
Definition InternalMemCopy (to from size : Z) (s : mem) : res mem :=
  if size =? 16 then s ← copy_scalar to from 8 s; copy_scalar (to + 8) (from + 8) 8 s
  else if (size =? 8) || (size =? 4) || (size =? 2) || (size =? 1) then copy_scalar to from size s
  else memcpy to from size s.

(** The call through [copy_func]: the small integers are not addresses of
    functions. *)
Definition call_copy_func (m : TypeMachine) (to from size : Z) (s : mem) : res mem :=
  match copy_func m with
  | cf_func f => call_func big fl f to from size s
  | cf_pointer fn => defined (PRIMITIVE_FUNC_COUNT <=? fn);; user fn to from size (cookie m) s
  end.

(** [MemCopy<PACK, INTERNAL>]. *)
Definition MemCopy (PACK INTERNAL : bool) (m : TypeMachine) (to from size : Z) (s : mem) :
    res mem :=
  let '(to, from) := if PACK then (to, from) else (from, to) in
  if INTERNAL then InternalMemCopy to from size s else call_copy_func m to from size s.

(** [copy_func] is [NULL] or [PAMI_DATA_COPY], which are both zero. *)
Definition internal (m : TypeMachine) : bool :=
  match copy_func m with cf_pointer fn => fn =? 0 | cf_func _ => false end.

Definition run_machine (PACK : bool) (fuel : nat) (h : heap) (m : TypeMachine)
    (buffer typed bytes : Z) (s : mem) : res (TypeMachine * mem) :=
  t ← of_option (h !! tm_type m);
  '(stk, s) ← Run (MemCopy PACK (internal m) m) fuel (type_code t) (stack_cap m) buffer typed
     bytes (stack m) s;
  mret (set_stack m stk, s).

(** [Pack] gathers the typed data at [origin] into the buffer [target];
    [Unpack] scatters the buffer [origin] to the typed data at [target]. *)
Definition Pack (fuel : nat) (h : heap) (m : TypeMachine) (target origin bytes : Z) (s : mem) :
    res (TypeMachine * mem) := run_machine true fuel h m target origin bytes s.
Definition Unpack (fuel : nat) (h : heap) (m : TypeMachine) (target origin bytes : Z) (s : mem) :
    res (TypeMachine * mem) := run_machine false fuel h m origin target bytes s.

End machine.
