(* ===== verification/PamiType.v ===== *)
(** The type interface of the library, src/api/c/pami_type.cc: the functions
    clients call on types, over the objects of the program and its memory. *)
From S2P Require Import Prelude.
From S2P Require Import Memory.
From S2P Require Import TypeCode.
From S2P Require Import TypeFunc.
From S2P Require Import TypeMachine.

(** The results these functions return ([pami_result_t] of src/sys/pami.h). *)
Inductive pami_result_t := PAMI_SUCCESS | PAMI_ERROR | PAMI_INVAL | PAMI_EAGAIN | PAMI_ENOMEM.

#[export] Instance pami_result_eq_dec : EqDecision pami_result_t.
Proof. solve_decision. Defined.

(** The attributes of a query; any other attribute is [Other]. *)
Inductive attribute := PAMI_TYPE_DATA_SIZE | PAMI_TYPE_DATA_EXTENT | PAMI_TYPE_ATOM_SIZE | Other.

(** An element of [config]: its [name] and its [value.intval]. *)
Record pami_configuration_t := mkConfig { config_name : attribute; config_value : Z }.

Section types.
(** What fresh memory holds; [new]'s choice of an address, or none when it throws
    [std::bad_alloc]. *)
Context (junk : Z → Z).

Definition PAMI_Type_create (alloc : option Z) (h : heap) :
    res (pami_result_t * heap * option Z) :=
  match alloc with
  | None => mret (PAMI_ENOMEM, h, None)
  | Some a =>
      type_obj ← TypeCode_new junk;
      mret (PAMI_SUCCESS, <[a := AcquireReference type_obj]> h, Some a)
  end.

Definition PAMI_Type_add_simple (h : heap) (type bytes offset count stride : Z) :
    res (pami_result_t * heap) :=
  type_obj ← of_option (h !! type);
  if IsCompleted type_obj then mret (PAMI_INVAL, h) else
  type_obj ← AddShift junk type_obj offset;
  type_obj ← AddSimple junk type_obj bytes stride count;
  mret (PAMI_SUCCESS, <[type := type_obj]> h).

Definition PAMI_Type_add_typed (h : heap) (type subtype offset count stride : Z) :
    res (pami_result_t * heap) :=
  type_obj ← of_option (h !! type);
  if IsCompleted type_obj then mret (PAMI_INVAL, h) else
  subtype_obj ← of_option (h !! subtype);
  if negb (IsCompleted subtype_obj) then mret (PAMI_INVAL, h) else
  type_obj ← AddShift junk type_obj offset;
  type_obj ← AddTyped junk h type_obj subtype stride count;
  mret (PAMI_SUCCESS, <[type := type_obj]> h).

Definition MIN_ATOM_SIZE : Z := 1.
Definition MAX_ATOM_SIZE : Z := 128.

(** The unit is read, and checked, before [Complete] computes it. *)
Definition PAMI_Type_complete (h : heap) (type atom_size : Z) : res (pami_result_t * heap) :=
  type_obj ← of_option (h !! type);
  if IsCompleted type_obj then mret (PAMI_INVAL, h) else
  if (atom_size <? MIN_ATOM_SIZE) || (MAX_ATOM_SIZE <? atom_size) then mret (PAMI_INVAL, h) else
  if negb (GetUnit type_obj `mod` atom_size =? 0) then mret (PAMI_INVAL, h) else
  type_obj ← Complete junk h type_obj;
  type_obj ← SetAtomSize atom_size type_obj;
  mret (PAMI_SUCCESS, <[type := type_obj]> h).

(** [*type] becomes [NULL]. *)
Definition PAMI_Type_destroy (h : heap) (type : Z) : res (pami_result_t * heap * option Z) :=
  h ← release h type;
  mret (PAMI_SUCCESS, h, None).

(** The address returned is the one of the object's own code: what is there is
    [type_code]. *)
Definition PAMI_Type_serialize (h : heap) (type : Z) :
    res (pami_result_t * option (list Slot * Z)) :=
  type_obj ← of_option (h !! type);
  if negb (IsCompleted type_obj) then mret (PAMI_INVAL, None) else
  mret (PAMI_SUCCESS, Some (type_code type_obj, GetCodeSize type_obj)).

(** [code] is what memory holds from the address on. *)
Definition PAMI_Type_deserialize (alloc : option Z) (h : heap) (code : list Slot) (size : Z) :
    res (pami_result_t * heap * option Z) :=
  match alloc with
  | None => mret (PAMI_INVAL, h, None)
  | Some a =>
      type_obj ← TypeCode_over code size true;
      assert (size =? GetCodeSize type_obj);;
      mret (PAMI_SUCCESS, <[a := AcquireReference type_obj]> h, Some a)
  end.

(** The loop of the query: values are written up to the first unknown attribute. *)
Fixpoint query_loop (t : TypeCode) (config : list pami_configuration_t) :
    pami_result_t * list pami_configuration_t :=
  match config with
  | [] => (PAMI_SUCCESS, [])
  | c :: config =>
      let set v := let '(r, config) := query_loop t config in (r, mkConfig (config_name c) v :: config) in
      match config_name c with
      | PAMI_TYPE_DATA_SIZE => set (GetDataSize t)
      | PAMI_TYPE_DATA_EXTENT => set (GetExtent t)
      | PAMI_TYPE_ATOM_SIZE => set (GetAtomSize t)
      | Other => (PAMI_INVAL, c :: config)
      end
  end.

Definition PAMI_Type_query (h : heap) (type : Z) (config : list pami_configuration_t) :
    res (pami_result_t * list pami_configuration_t) :=
  type_obj ← of_option (h !! type);
  if negb (IsCompleted type_obj) then mret (PAMI_INVAL, config) else
  mret (query_loop type_obj config).

End types.

(** * Transfers *)

Section transfer.
Context (contig_max : Z) (big : bool) (fl : float_ops).
Context (user : Z → Z → Z → Z → Z → mem → res mem).

Definition TMP_BUF_SIZE : Z := 8192.

(** [for (offset = 0; offset < size; offset += TMP_BUF_SIZE)]: pack a part into
    [tmp_buf], unpack it; at most [iterations] times. *)
Fixpoint transform_loop (fuel iterations : nat) (h : heap) (packer unpacker : TypeMachine)
    (tmp_buf src_addr dst_addr offset size : Z) (s : mem) :
    res (TypeMachine * TypeMachine * mem) :=
  match iterations with
  | O => Err NoFuel
  | S iterations =>
      if offset <? size then
        let bytes_to_copy := Z.min (w64 (size - offset)) TMP_BUF_SIZE in
        '(packer, s) ← Pack big fl user fuel h packer tmp_buf src_addr bytes_to_copy s;
        '(unpacker, s) ← Unpack big fl user fuel h unpacker dst_addr tmp_buf bytes_to_copy s;
        transform_loop fuel iterations h packer unpacker tmp_buf src_addr dst_addr
          (w64 (offset + TMP_BUF_SIZE)) size s
      else mret (packer, unpacker, s)
  end.

(** [tmp_buf] is the address of the buffer on the function's stack.  The machines
    are destroyed where their scope ends, the last one first. *)
Definition PAMI_Type_transform_data (fuel : nat) (tmp_buf : Z) (h : heap)
    (src_addr src_type src_offset dst_addr dst_type dst_offset size data_fn cookie : Z) (s : mem) :
    res (pami_result_t * heap * mem) :=
  src_type_obj ← of_option (h !! src_type);
  dst_type_obj ← of_option (h !! dst_type);
  if negb (IsCompleted src_type_obj) || negb (IsCompleted dst_type_obj)
  then mret (PAMI_INVAL, h, s)
  else if IsContiguous src_type_obj && IsContiguous dst_type_obj then
    s ← memcpy (w64 (dst_addr + dst_offset)) (w64 (src_addr + src_offset)) size s;
    mret (PAMI_SUCCESS, h, s)
  else if IsContiguous src_type_obj then
    '(h, unpacker) ← TypeMachine_new contig_max h dst_type;
    unpacker ← SetCopyFunc h unpacker data_fn cookie;
    unpacker ← MoveCursor fuel h unpacker dst_offset;
    '(unpacker, s) ← Unpack big fl user fuel h unpacker dst_addr (w64 (src_addr + src_offset)) size s;
    h ← TypeMachine_delete h unpacker;
    mret (PAMI_SUCCESS, h, s)
  else if IsContiguous dst_type_obj then
    '(h, packer) ← TypeMachine_new contig_max h src_type;
    packer ← SetCopyFunc h packer data_fn cookie;
    packer ← MoveCursor fuel h packer src_offset;
    '(packer, s) ← Pack big fl user fuel h packer (w64 (dst_addr + dst_offset)) src_addr size s;
    h ← TypeMachine_delete h packer;
    mret (PAMI_SUCCESS, h, s)
  else
    '(h, packer) ← TypeMachine_new contig_max h src_type;
    packer ← MoveCursor fuel h packer src_offset;
    '(h, unpacker) ← TypeMachine_new contig_max h dst_type;
    unpacker ← SetCopyFunc h unpacker data_fn cookie;
    unpacker ← MoveCursor fuel h unpacker dst_offset;
    '(packer, unpacker, s) ← transform_loop fuel fuel h packer unpacker tmp_buf src_addr
      dst_addr 0 size s;
    h ← TypeMachine_delete h unpacker;
    h ← TypeMachine_delete h packer;
    mret (PAMI_SUCCESS, h, s).

End transfer.
