(* ===== verification/TypeEnumerator.v ===== *)
(** The blocks common to two types, src/common/type/TypeEnumerator.h: two type
    machines enumerate blocks into arrays of 128; [next] cuts the shorter of the
    two current blocks off both. *)
From S2P Require Import Prelude.
From S2P Require Import TypeCode.
From S2P Require Import TypeMachine.

Definition array_size : Z := 128.

(** [state_t]: the [disp] and [size] of each entry; the entry in use. *)
Record state_t := mkState { entries : list (Z * Z); index : Z }.

Record TypeEnumerator := mkEnumerator {
  input_machine : TypeMachine; output_machine : TypeMachine;
  input_state : state_t; output_state : state_t
}.

Section enumerator.
Context (contig_max : Z).

(** [EnumerateBlocks (state.disp, state.size, array_size)] overwrites the whole
    arrays. *)
Definition refill (fuel : nat) (h : heap) (m : TypeMachine) : res (TypeMachine * state_t) :=
  '(m, bs) ← EnumerateBlocks fuel h m array_size;
  mret (m, mkState bs 0).

Definition TypeEnumerator_new (fuel : nat) (h : heap) (input_type output_type : Z) :
    res (heap * TypeEnumerator) :=
  '(h, im) ← TypeMachine_new contig_max h input_type;
  '(h, om) ← TypeMachine_new contig_max h output_type;
  '(im, ist) ← refill fuel h im;
  '(om, ost) ← refill fuel h om;
  mret (h, mkEnumerator im om ist ost).

(** The entry in use. *)
Definition current (st : state_t) : res (Z * Z) :=
  of_option (entries st !! Z.to_nat (index st)).

(** [size -= n; disp += n; index += (size == 0)], and the next set of blocks when
    the arrays are used up. *)
Definition consume (fuel : nat) (h : heap) (m : TypeMachine) (st : state_t) (n : Z) :
    res (TypeMachine * state_t) :=
  '(disp, size) ← current st;
  let size := w64 (size - n) in
  let st := mkState (<[Z.to_nat (index st) := (w64 (disp + n), size)]> (entries st))
              (if size =? 0 then w64 (index st + 1) else index st) in
  if index st =? array_size then refill fuel h m else mret (m, st).

(** [next]: the input offset, the output offset and the bytes. *)
Definition next (fuel : nat) (h : heap) (e : TypeEnumerator) :
    res (TypeEnumerator * (Z * Z * Z)) :=
  '(input_disp, input_size) ← current (input_state e);
  '(output_disp, output_size) ← current (output_state e);
  let size := Z.min input_size output_size in
  '(im, ist) ← consume fuel h (input_machine e) (input_state e) size;
  '(om, ost) ← consume fuel h (output_machine e) (output_state e) size;
  mret (mkEnumerator im om ist ost, (input_disp, output_disp, size)).

(** Members are destroyed in the reverse of their order. *)
Definition TypeEnumerator_delete (h : heap) (e : TypeEnumerator) : res heap :=
  h ← TypeMachine_delete h (output_machine e);
  TypeMachine_delete h (input_machine e).

End enumerator.
