(* ===== verification/TypeMachineSpec.v ===== *)
(** What the type machine promises: from a cursor at offset [o], [Run],
    [EnumerateBlocks] and [MoveCursor] go through the stream of displacements
    of the type repeated for ever. *)
From S2P Require Import Prelude.
From S2P Require Import Layout.
From S2P Require Import Memory.
From S2P Require Import TypeCode.
From S2P Require Import TypeCodeSpec.
From S2P Require Import TypeComplete.
From S2P Require Import TypeMachine.

#[local] Opaque w64.

(** * The stream of displacements *)

(** Displacement of byte [k] of the data, the type being repeated. *)
Definition stream (P : prog) (k : Z) : Z :=
  w64 (nth (Z.to_nat (k `mod` psize P)) (layout P 0) 0 + k / psize P * ext P).

(** The displacements of the [n] bytes from byte [o] on. *)
Definition slice (P : prog) (o n : Z) : list Z := map (stream P) (seqZ o n).

Lemma slice_app P o a b : 0 ≤ a → 0 ≤ b → slice P o (a + b) = slice P o a ++ slice P (o + a) b.
Proof. intros. unfold slice. by rewrite seqZ_app_add, map_app by done. Qed.

Lemma length_slice P o n : length (slice P o n) = Z.to_nat n.
Proof. unfold slice. by rewrite length_map, length_seqZ. Qed.

Lemma slice_nil P o n : n ≤ 0 → slice P o n = [].
Proof. intros. unfold slice. by rewrite seqZ_nil. Qed.

(** One period of the stream is the layout. *)
Lemma slice_period P j : nonneg P → 0 ≤ j →
  slice P (j * psize P) (psize P) = disps P (ext P * j).
Proof.
  intros HP Hj. pose proof (psize_nonneg P HP) as Hsz.
  destruct (Z.eq_dec (psize P) 0) as [H0|H0].
  { rewrite slice_nil by lia. symmetry. apply length_zero_iff_nil.
    unfold disps. rewrite length_map, length_layout by done. lia. }
  unfold disps. replace (ext P * j) with (0 + ext P * j) by lia.
  rewrite layout_shift, map_map. unfold slice, seqZ. rewrite map_map.
  apply list_eq_same_length with (length (layout P 0)); rewrite ?length_map, ?length_seq.
  { done. } { by rewrite length_layout. }
  intros i x y Hi. rewrite length_layout in Hi by done.
  rewrite !list_lookup_fmap, lookup_seq_lt by done. cbn [fmap option_fmap option_map Nat.add].
  intros [= <-]. destruct (layout P 0 !! i) as [d|] eqn:Hd; [|done]. intros [= <-].
  unfold stream. rewrite Z.add_comm, Z.mod_add, Z.div_add by done.
  rewrite Z.mod_small, Z.div_small, Nat2Z.id by lia.
  apply nth_lookup_Some with (d := 0) in Hd. rewrite Hd. f_equal. lia.
Qed.

(** * Moving a cursor *)

(** What is left of an instruction after [n] repetitions. *)
Definition advance (p : prog) (n : Z) : prog :=
  match p with
  | PCopy b s r k => PCopy b s (r - n) k
  | PCall sub s r k => PCall sub s (r - n) k
  | p => p
  end.

Lemma advance_0 p : advance p 0 = p.
Proof. destruct p; cbn; f_equal; lia. Qed.

(** Instructions executed to go through a program. *)
Fixpoint steps (p : prog) : Z :=
  match p with
  | PEnd => 1
  | PCopy _ _ _ k => 1 + steps k
  | PShift _ k => 1 + steps k
  | PCall sub _ r k => r * (1 + steps sub) + steps k
  end.

Lemma steps_pos p : nonneg p → 1 ≤ steps p.
Proof. induction p; cbn; try naive_solver lia; intros (?&?&?); nia. Qed.

Section code.
Context (C : list Slot).

(** A cursor in the program [p]: at its first instruction, [c_rep_num] of its
    repetitions and [c_rep_bytes] of the current one done. *)
Definition cursor_ok (c : Cursor) (p : prog) : Prop :=
  code_at C (c_pc c) p ∧ wf p ∧ psize p < 2 ^ 64 ∧ 0 ≤ c_offset c < 2 ^ 64 ∧
  match p with
  | PCopy b s r k => 0 ≤ c_rep_num c < r ∧ 0 ≤ c_rep_bytes c < b
  | PCall sub s r k => 0 ≤ c_rep_num c < r ∧ c_rep_bytes c = 0
  | _ => c_rep_num c = 0 ∧ c_rep_bytes c = 0
  end.

(** A cursor at the start of a program. *)
Lemma cursor_ok_start pc d o p : code_at C pc p → wf p → psize p < 2 ^ 64 →
  0 ≤ o < 2 ^ 64 → cursor_ok (mkCursor pc d o 0 0) p.
Proof.
  intros Hat Hwf Hsz Ho. split; [done|]. split; [done|]. split; [done|]. split; [done|].
  destruct p; cbn in *; lia.
Qed.

Lemma wf_nonneg_disps p d : wf p → length (disps p d) = Z.to_nat (psize p).
Proof. intros. unfold disps. rewrite length_map. by apply length_layout, wf_nonneg. Qed.

(** The displacements a cursor has left in its program, and the displacement at
    its end. *)
Definition rest (c : Cursor) (p : prog) : list Z :=
  drop (Z.to_nat (c_rep_bytes c)) (disps (advance p (c_rep_num c)) (c_disp c)).
Definition final (c : Cursor) (p : prog) : Z := c_disp c + ext (advance p (c_rep_num c)).

(** The cursor [c] in [p] went over the displacements [l] to [c'] in [p']. *)
Record moved (c : Cursor) (p : prog) (l : list Z) (c' : Cursor) (p' : prog) : Prop := {
  mv_ok : cursor_ok c' p';
  mv_rest : rest c p = l ++ rest c' p';
  mv_final : final c' p' ≡₆₄ final c p;
  mv_offset : c_offset c' = w64 (c_offset c + Z.of_nat (length l));
  mv_depth : pdepth p' ≤ pdepth p;
  mv_steps : steps (advance p' (c_rep_num c')) ≤ steps (advance p (c_rep_num c))
}.

Lemma moved_trans c1 p1 l1 c2 p2 l2 c3 p3 :
  moved c1 p1 l1 c2 p2 → moved c2 p2 l2 c3 p3 → moved c1 p1 (l1 ++ l2) c3 p3.
Proof.
  intros [Ho1 Hr1 Hf1 Hof1 Hd1 Hs1] [Ho2 Hr2 Hf2 Hof2 Hd2 Hs2]. split.
  - done.
  - by rewrite Hr1, Hr2, (assoc_L (++)).
  - by rewrite Hf2.
  - rewrite Hof2, Hof1, w64_add_l, length_app. f_equal. lia.
  - lia.
  - lia.
Qed.

(** ** Copies *)

(** The displacements of [n] blocks of [b] bytes. *)
Definition blocks (b s d : Z) (n : Z) : list Z :=
  map w64 (at_stride (λ x, seqZ x b) d s (Z.to_nat n)).

Lemma length_blocks b s d n : length (blocks b s d n) = (Z.to_nat n * Z.to_nat b)%nat.
Proof.
  unfold blocks. rewrite length_map. apply length_at_stride. intros. apply length_seqZ.
Qed.

Lemma blocks_cons b s d n : 0 < n →
  blocks b s d n = map w64 (seqZ d b) ++ blocks b s (d + s) (n - 1).
Proof.
  intros Hn. unfold blocks. replace (Z.to_nat n) with (S (Z.to_nat (n - 1))) by lia.
  cbn [at_stride]. by rewrite map_app.
Qed.

Lemma blocks_app b s d n m : 0 ≤ n → 0 ≤ m →
  blocks b s d (n + m) = blocks b s d n ++ blocks b s (d + s * n) m.
Proof.
  intros. unfold blocks. rewrite Z2Nat.inj_add, at_stride_add, map_app by done.
  by rewrite Z2Nat.id by done.
Qed.

Lemma blocks_w64 b s d e n : d ≡₆₄ e → blocks b s d n = blocks b s e n.
Proof.
  intros Hde. apply at_stride_w64; [|done|done]. intros x y. apply seqZ_w64.
Qed.

Lemma disps_PCopy b s r k d : disps (PCopy b s r k) d = blocks b s d r ++ disps k (d + s * r).
Proof. unfold disps, blocks. cbn [layout]. by rewrite map_app. Qed.

Lemma take_drop_add {A} (l : list A) i j :
  drop i l = take j (drop i l) ++ drop (i + j) l.
Proof. by rewrite <- drop_drop, take_drop. Qed.

(** Within a block. *)
Lemma blocks_within b s d n i l : 0 < n → 0 ≤ i → 0 ≤ l → i + l ≤ b →
  drop (Z.to_nat i) (blocks b s d n) =
  map w64 (seqZ (d + i) l) ++ drop (Z.to_nat (i + l)) (blocks b s d n).
Proof.
  intros Hn Hi Hl Hb. rewrite Z2Nat.inj_add by done. rewrite (take_drop_add _ _ (Z.to_nat l)) at 1.
  f_equal. rewrite blocks_cons by done.
  replace b with (i + (l + (b - i - l))) at 1 by lia.
  rewrite seqZ_app_add, map_app by lia. rewrite <- app_assoc, drop_app_length'
    by (rewrite length_map, length_seqZ; done).
  rewrite seqZ_app_add, map_app by lia. rewrite <- app_assoc, take_app_length'
    by (rewrite length_map, length_seqZ; done). done.
Qed.

Lemma blocks_next b s d n : 0 < n →
  drop (Z.to_nat b) (blocks b s d n) = blocks b s (d + s) (n - 1).
Proof.
  intros Hn. rewrite blocks_cons by done.
  by rewrite drop_app_length' by (rewrite length_map, length_seqZ; done).
Qed.

(** The cursor's numbers, in the range of a copy whose data fits [2^64]. *)
Lemma copy_bounds b s r k : wf (PCopy b s r k) → psize (PCopy b s r k) < 2 ^ 64 →
  0 < b < 2 ^ 64 ∧ 0 < r < 2 ^ 64 ∧ b * r < 2 ^ 64 ∧ wf k ∧ psize k < 2 ^ 64.
Proof.
  cbn. intros (Hb&_&Hr&Hk) Hsz. pose proof (wf_psize k Hk).
  assert (0 < b * r) by nia. repeat split; try done; lia.
Qed.

Lemma copy_left b r rn rb : 0 ≤ rn < r → 0 ≤ rb < b → b * r < 2 ^ 64 →
  0 ≤ b * (r - rn) - rb < 2 ^ 64.
Proof.
  intros. assert (b * (r - rn) ≤ b * r) by (apply Z.mul_le_mono_nonneg_l; lia).
  assert (b * 1 ≤ b * (r - rn)) by (apply Z.mul_le_mono_nonneg_l; lia). lia.
Qed.

Lemma code_at_next_copy pc b s r k : code_at C pc (PCopy b s r k) →
  (∃ pv, op_at C pc = Some (mkSlot (TypeCode.Copy b s r) pv)) ∧ code_at C (pc + op_size COPY) k.
Proof. inversion 1; subst; eauto. Qed.

Lemma moved_refl c p : cursor_ok c p → moved c p [] c p.
Proof.
  intros Hok. split; try done. pose proof Hok as (_&_&_&Ho&_). cbn.
  by rewrite Z.add_0_r, w64_small.
Qed.

(** [n] bytes of one block: the cursor [copy_finish] leaves. *)
Lemma move_within c b s r k n : cursor_ok c (PCopy b s r k) →
  0 ≤ n → c_rep_bytes c + n ≤ b → c_pc c + op_size COPY < 2 ^ 64 →
  let all := bool_decide (n = b * (r - c_rep_num c) - c_rep_bytes c) in
  moved c (PCopy b s r k) (map w64 (seqZ (c_disp c + c_rep_bytes c) n))
    (copy_finish b s r n c) (if all then k else PCopy b s r k).
Proof.
  intros (Hat&Hwf&Hsz&Hoff&Hrn&Hrb) Hn Hle Hpc. destruct (copy_bounds b s r k Hwf Hsz) as (?&?&?&?&?).
  destruct (code_at_next_copy _ _ _ _ _ Hat) as [_ Hk]. pose proof (code_at_nonneg _ _ _ Hat).
  assert (Hlen : Z.of_nat (length (map w64 (seqZ (c_disp c + c_rep_bytes c) n))) = n)
    by (rewrite length_map, length_seqZ; lia).
  assert (Hrest : rest c (PCopy b s r k) = map w64 (seqZ (c_disp c + c_rep_bytes c) n) ++
    drop (Z.to_nat (c_rep_bytes c + n)) (disps (advance (PCopy b s r k) (c_rep_num c)) (c_disp c))).
  { unfold rest. cbn [advance]. rewrite !disps_PCopy.
    rewrite !drop_app_le by (rewrite length_blocks; nia).
    rewrite (blocks_within _ _ _ _ _ n) by lia. by rewrite <- app_assoc. }
  unfold copy_finish. rewrite !w64_small by (cbn in *; lia).
  destruct (Z.eqb_spec (c_rep_bytes c + n) b) as [Heq|Hne].
  - rewrite Heq in Hrest. cbn [advance] in Hrest.
    rewrite disps_PCopy, drop_app_le, blocks_next in Hrest by (rewrite ?length_blocks; nia).
    destruct (Z.eqb_spec (c_rep_num c + 1) r) as [Hr|Hr].
    + rewrite bool_decide_eq_true_2 by nia. split; cbn [c_pc c_disp c_offset]; try done.
      * apply cursor_ok_start; auto using w64_range.
      * rewrite Hrest. unfold rest. cbn [c_rep_bytes c_rep_num c_disp drop].
        rewrite advance_0. f_equal. replace (r - c_rep_num c - 1) with 0 by lia.
        unfold blocks. cbn [Z.to_nat at_stride map app]. rewrite w64_eq64.
        replace (r - c_rep_num c) with 1 by lia. by rewrite Z.mul_1_r.
      * unfold final. cbn [c_rep_num c_disp ext advance]. rewrite advance_0, w64_eq64.
        replace (r - c_rep_num c) with 1 by lia. by rewrite Z.mul_1_r, Z.add_assoc.
      * by rewrite Hlen.
      * cbn [c_rep_num]. rewrite advance_0. cbn. lia.
    + rewrite bool_decide_eq_false_2 by nia. split; cbn [c_pc c_disp c_offset]; try done.
      * split; [done|]. split; [done|]. split; [done|]. cbn. auto using w64_range with lia.
      * rewrite Hrest. unfold rest. cbn [c_rep_bytes c_rep_num c_disp advance].
        change (Z.to_nat 0) with 0%nat. rewrite drop_0, disps_PCopy. f_equal. f_equal.
        { replace (r - c_rep_num c - 1) with (r - (c_rep_num c + 1)) by lia.
          apply blocks_w64. by rewrite w64_eq64. }
        rewrite w64_eq64. f_equal. lia.
      * unfold final. cbn [c_rep_num c_disp ext advance]. rewrite w64_eq64.
        by replace (c_disp c + s + (s * (r - (c_rep_num c + 1)) + ext k)) with
          (c_disp c + (s * (r - c_rep_num c) + ext k)) by lia.
      * by rewrite Hlen.
  - rewrite bool_decide_eq_false_2 by nia. split; cbn [c_pc c_disp c_offset]; try done.
    + split; [done|]. split; [done|]. split; [done|]. cbn. auto using w64_range with lia.
    + by rewrite Hlen.
Qed.

End code.

(** * [Copy] *)

(** The displacements of a list of blocks. *)
Definition expand (bs : list (Z * Z)) : list Z :=
  mjoin (map (λ '(d, l), map w64 (seqZ d l)) bs).

Lemma expand_cons d l bs : expand ((d, l) :: bs) = map w64 (seqZ d l) ++ expand bs.
Proof. done. Qed.

Lemma expand_app bs bs' : expand (bs ++ bs') = expand bs ++ expand bs'.
Proof. unfold expand. by rewrite map_app, join_app. Qed.

(** The total size of the blocks. *)
Fixpoint total (bs : list (Z * Z)) : Z :=
  match bs with [] => 0 | (_, l) :: bs => l + total bs end.

Lemma total_app bs bs' : total (bs ++ bs') = total bs + total bs'.
Proof. induction bs as [|[d l] bs IH]; cbn; lia. Qed.

Notation nonempty := (Forall (λ '(_, l), 0 < l)).

Lemma total_expand bs : nonempty bs → Z.of_nat (length (expand bs)) = total bs.
Proof.
  induction 1 as [|[d l] bs Hl _ IH]; [done|].
  rewrite expand_cons, length_app, length_map, length_seqZ. cbn. lia.
Qed.

Lemma total_nonneg bs : nonempty bs → 0 ≤ total bs.
Proof. intros H. rewrite <- total_expand by done. lia. Qed.

(** The blocks moved one after the other, to and from a contiguous buffer. *)
Fixpoint move_all {S} (MemCopy : Z → Z → Z → S → res S) (target origin : Z)
    (bs : list (Z * Z)) (s : S) : res S :=
  match bs with
  | [] => mret s
  | (d, l) :: bs =>
      s ← MemCopy target (w64 (origin + d)) l s;
      move_all MemCopy (w64 (target + l)) origin bs s
  end.

Lemma move_all_app {S} (MemCopy : Z → Z → Z → S → res S) target origin bs bs' s :
  w64 target = target →
  move_all MemCopy target origin (bs ++ bs') s =
  move_all MemCopy target origin bs s ≫=
    move_all MemCopy (w64 (target + total bs)) origin bs'.
Proof.
  revert target s. induction bs as [|[d l] bs IH]; intros target s Ht; cbn [app move_all total].
  - by rewrite Z.add_0_r, Ht.
  - rewrite bind_assoc. apply bind_ext. intros s'. rewrite IH by apply w64_w64.
    by rewrite w64_add_l, Z.add_assoc.
Qed.

Section copy.
Context (C : list Slot) (b st r : Z) (k : prog).
Notation p := (PCopy b st r k).

Lemma copy_loop_spec fuel c bytes : cursor_ok C c p → c_rep_bytes c = 0 →
  c_pc c + op_size COPY < 2 ^ 64 → 0 < bytes ≤ b * (r - c_rep_num c) →
  (Z.to_nat (bytes / b) < fuel)%nat →
  ∃ bs c' bytes', moved C c p (expand bs) c' p ∧ c_rep_bytes c' = 0 ∧ c_pc c' = c_pc c ∧
    bytes = total bs + bytes' ∧ 0 < bytes' ≤ b ∧ bytes' ≤ b * (r - c_rep_num c') ∧
    nonempty bs ∧
    ∀ S (MemCopy : Z → Z → Z → S → res S) target origin s, w64 target = target →
      copy_loop MemCopy fuel b st target origin bytes c s =
      s ← move_all MemCopy target origin bs s;
      mret (w64 (target + total bs), bytes', c', s).
Proof.
  revert c bytes. induction fuel as [|fuel IH]; intros c bytes Hok Hrb Hpc Hby Hf; [lia|].
  pose proof Hok as (Hat&Hwf&Hsz&Hoff&Hrn&_). destruct (copy_bounds b st r k Hwf Hsz) as (?&?&?&?&?).
  cbn [copy_loop]. destruct (Z.ltb_spec b bytes) as [Hlt|Hge].
  - assert (Hrn' : c_rep_num c + 1 < r) by nia.
    pose proof (move_within C c b st r k b Hok ltac:(lia) ltac:(lia) Hpc) as Hmv.
    rewrite bool_decide_eq_false_2 in Hmv by nia. unfold copy_finish in Hmv.
    rewrite Hrb, Z.add_0_l, !Z.add_0_r, (w64_small b), Z.eqb_refl in Hmv by lia.
    rewrite (w64_small (c_rep_num c + 1)) in Hmv by lia.
    rewrite (proj2 (Z.eqb_neq _ _)) in Hmv by lia.
    set (c1 := mkCursor _ _ _ _ _) in Hmv.
    assert (Hdiv : bytes / b = (bytes - b) / b + 1)
      by (rewrite <- Z.div_add by lia; f_equal; lia).
    pose proof (Z.div_pos (bytes - b) b ltac:(lia) ltac:(lia)).
    destruct (IH c1 (bytes - b)) as (bs&c'&bytes'&Hmv'&Hrb'&Hpc'&Htot&Hb'&Hle'&Hne&Heq).
    + apply Hmv.
    + done.
    + done.
    + cbn [c_rep_num c1]. lia.
    + lia.
    + exists ((c_disp c, b) :: bs), c', bytes'.
      split; [rewrite expand_cons; by eapply moved_trans|].
      split; [done|]. split; [done|]. split; [cbn; lia|]. split; [done|]. split; [done|].
      split; [constructor; [lia|done]|].
      intros S MC target origin s Ht. cbn [move_all total]. rewrite bind_assoc.
      apply bind_ext. intros s'. rewrite (w64_small (bytes - b)), (w64_small (c_rep_num c + 1)), Hrb by lia.
      rewrite Heq by apply w64_w64. apply bind_ext. intros s''.
      by rewrite w64_add_l, Z.add_assoc.
  - exists [], c, bytes. split; [by apply moved_refl|].
    repeat split; try done; try lia. intros S MC target origin s Ht. cbn. by rewrite Z.add_0_r, Ht.
Qed.

(** The cursor after a whole block which is not the last. *)
Lemma move_block c : cursor_ok C c p → c_rep_num c + 1 < r → c_pc c + op_size COPY < 2 ^ 64 →
  let left := b - c_rep_bytes c in
  let c1 := mkCursor (c_pc c) (w64 (c_disp c + st)) (w64 (c_offset c + left))
              (c_rep_num c + 1) 0 in
  moved C c p (expand [(c_disp c + c_rep_bytes c, left)]) c1 p.
Proof.
  intros Hok Hr Hpc. pose proof Hok as (Hat&Hwf&Hsz&Hoff&Hrn&Hrb).
  destruct (copy_bounds b st r k Hwf Hsz) as (?&?&?&?&?). cbv zeta.
  pose proof (move_within C c b st r k (b - c_rep_bytes c) Hok ltac:(lia) ltac:(lia) Hpc) as Hmv.
  rewrite bool_decide_eq_false_2 in Hmv by nia. unfold copy_finish in Hmv.
  replace (c_rep_bytes c + (b - c_rep_bytes c)) with b in Hmv by lia.
  rewrite (w64_small b), Z.eqb_refl, (w64_small (c_rep_num c + 1)) in Hmv by lia.
  rewrite (proj2 (Z.eqb_neq (c_rep_num c + 1) r)) in Hmv by lia.
  unfold expand. cbn [map mjoin list_join]. by rewrite app_nil_r.
Qed.

Lemma copy_reps_spec c bytes : cursor_ok C c p → c_pc c + op_size COPY < 2 ^ 64 →
  0 < bytes ≤ b * (r - c_rep_num c) - c_rep_bytes c →
  ∃ bs c' bytes', moved C c p (expand bs) c' p ∧ c_pc c' = c_pc c ∧
    bytes = total bs + bytes' ∧ 0 < bytes' ≤ b - c_rep_bytes c' ∧ nonempty bs ∧
    total bs = b * (r - c_rep_num c) - c_rep_bytes c - (b * (r - c_rep_num c') - c_rep_bytes c') ∧
    ∀ S (MemCopy : Z → Z → Z → S → res S) target origin s, w64 target = target →
      copy_reps MemCopy b st r target origin bytes c s =
      s ← move_all MemCopy target origin bs s;
      mret (w64 (target + total bs), bytes', c', s).
Proof.
  intros Hok Hpc Hby. pose proof Hok as (Hat&Hwf&Hsz&Hoff&Hrn&Hrb).
  destruct (copy_bounds b st r k Hwf Hsz) as (?&?&?&?&?).
  unfold copy_reps. rewrite (w64_small (b - c_rep_bytes c)) by lia.
  destruct (Z.ltb_spec (b - c_rep_bytes c) bytes) as [Hlt|Hge].
  - assert (Hr : c_rep_num c + 1 < r) by nia.
    pose proof (move_block c Hok Hr Hpc) as Hmv. cbv zeta in Hmv.
    set (c1 := mkCursor _ _ _ _ _) in Hmv.
    set (left := b - c_rep_bytes c) in *.
    assert (Hok1 : cursor_ok C c1 p) by apply Hmv.
    destruct (copy_loop_spec (Datatypes.S (Z.to_nat ((bytes - left) / b))) c1 (bytes - left))
      as (bs&c'&bytes'&Hmv'&Hrb'&Hpc'&Htot&Hb'&Hle'&Hne&Heq); try done.
    { cbn [c_rep_num c1]. lia. } { lia. }
    pose proof (mv_ok _ _ _ _ _ _ Hmv') as (_&_&_&_&Hrn'&_).
    pose proof (moved_trans _ _ _ _ _ _ _ _ _ Hmv Hmv') as Hmvs.
    exists ((c_disp c + c_rep_bytes c, left) :: bs), c', bytes'.
    split; [by rewrite <- expand_app in Hmvs|].
    split; [done|]. split; [cbn; lia|]. split; [lia|].
    split; [constructor; [lia|done]|]. split.
    { pose proof (f_equal length (mv_rest _ _ _ _ _ _ Hmv')) as Hlen.
      rewrite length_app in Hlen.
      assert (Hl : ∀ x, cursor_ok C x p → c_rep_bytes x = 0 →
        Z.of_nat (length (rest x p)) = b * (r - c_rep_num x) + psize k).
      { intros x (_&_&_&_&Hx&_) Hx0. unfold rest. rewrite Hx0.
        change (Z.to_nat 0) with 0%nat. rewrite drop_0. cbn [advance].
        rewrite disps_PCopy, length_app, length_blocks, wf_nonneg_disps by done.
        pose proof (wf_psize k ltac:(done)). nia. }
      pose proof (Hl c1 Hok1 eq_refl) as Hl1.
      pose proof (Hl c' (mv_ok _ _ _ _ _ _ Hmv') Hrb') as Hl2.
      pose proof (total_expand bs Hne). cbn [total c_rep_num c1] in *. subst left. lia. }
    intros S MC target origin s Ht. cbn [move_all total]. rewrite bind_assoc.
    replace (origin + (c_disp c + c_rep_bytes c)) with (origin + c_disp c + c_rep_bytes c) by lia.
    apply bind_ext. intros s'. rewrite (w64_small (bytes - left)), (w64_small (c_rep_num c + 1)) by lia.
    rewrite Heq by apply w64_w64. rewrite bind_assoc. apply bind_ext. intros s''. rewrite bind_ret.
    rewrite (proj2 (Z.ltb_lt _ _)) by lia. cbn [assert mbind res_bind].
    by rewrite w64_add_l, Z.add_assoc.
  - exists [], c, bytes. split; [by apply moved_refl|].
    repeat split; try done; try lia. { cbn. lia. }
    intros S MC target origin s Ht. cbn. by rewrite Z.add_0_r, Ht.
Qed.

(** [Copy] on [n] bytes of what the copy has left: a list of blocks, the same for
    every function that moves them. *)
Lemma Copy_spec c n : cursor_ok C c p → c_pc c + op_size COPY < 2 ^ 64 →
  0 < n ≤ b * (r - c_rep_num c) - c_rep_bytes c →
  ∃ bs c', moved C c p (expand bs) c'
      (if bool_decide (n = b * (r - c_rep_num c) - c_rep_bytes c) then k else p) ∧
    total bs = n ∧ nonempty bs ∧
    (n = b * (r - c_rep_num c) - c_rep_bytes c → c_rep_num c' = 0) ∧
    ∀ S (MemCopy : Z → Z → Z → S → res S) target origin s, w64 target = target →
      Copy MemCopy target origin n b st r c s =
      s ← move_all MemCopy target origin bs s; mret (c', s).
Proof.
  intros Hok Hpc Hn. pose proof Hok as (Hat&Hwf&Hsz&Hoff&Hrn&Hrb).
  destruct (copy_bounds b st r k Hwf Hsz) as (?&?&?&?&?).
  destruct (copy_reps_spec c n Hok Hpc Hn) as (bs&c1&n1&Hmv&Hpc1&Htot&Hn1&Hne&Hleft&Heq).
  pose proof (mv_ok _ _ _ _ _ _ Hmv) as Hok1. pose proof Hok1 as (_&_&_&_&Hrn1&Hrb1).
  pose proof (move_within C c1 b st r k n1 Hok1 ltac:(lia) ltac:(lia) ltac:(lia)) as Hmv1.
  cbv zeta in Hmv1.
  exists (bs ++ [(c_disp c1 + c_rep_bytes c1, n1)]), (copy_finish b st r n1 c1).
  split; [|split; [|split; [|split]]].
  - replace (bool_decide (n = _)) with
      (bool_decide (n1 = b * (r - c_rep_num c1) - c_rep_bytes c1))
      by (apply bool_decide_ext; lia).
    rewrite expand_app. eapply moved_trans; [done|]. unfold expand. cbn [map mjoin list_join].
    by rewrite app_nil_r.
  - rewrite total_app. cbn. lia.
  - apply Forall_app. split; [done|]. constructor; [lia|done].
  - intros Hall. unfold copy_finish. assert (n1 = b * (r - c_rep_num c1) - c_rep_bytes c1) by lia.
    assert (c_rep_num c1 + 1 = r ∧ c_rep_bytes c1 + n1 = b) as [-> ->] by nia.
    rewrite (w64_small b), Z.eqb_refl, (w64_small r), Z.eqb_refl by lia. done.
  - intros S MC target origin s Ht. unfold Copy.
    rewrite (w64_small (r - c_rep_num c)) by lia. rewrite (w64_small (b * _ - _)) by (apply copy_left; lia).
    rewrite (proj2 (Z.leb_le _ _)) by lia. cbn [assert]. rewrite bind_ret.
    rewrite Heq, move_all_app, !bind_assoc by done. apply bind_ext. intros s1.
    rewrite bind_ret, (w64_small (b - c_rep_bytes c1)) by lia.
    rewrite (proj2 (Z.leb_le n1 _)) by lia.
    cbn [assert move_all]. rewrite bind_ret, bind_assoc.
    replace (origin + (c_disp c1 + c_rep_bytes c1))
      with (origin + c_disp c1 + c_rep_bytes c1) by lia.
    apply bind_ext. intros s2. done.
Qed.

End copy.

(** * The machine's invariant *)

Lemma app_slice P o n l l' : l ++ l' = slice P o n → 0 ≤ n →
  let len := Z.of_nat (length l) in
  l = slice P o len ∧ l' = slice P (o + len) (n - len) ∧ len ≤ n.
Proof.
  intros Heq Hn. cbv zeta. pose proof (f_equal length Heq) as Hlen.
  rewrite length_app, length_slice in Hlen.
  replace n with (Z.of_nat (length l) + (n - Z.of_nat (length l))) in Heq by lia.
  rewrite slice_app in Heq by lia. apply app_inj_1 in Heq as [-> ->].
  - rewrite length_slice, Nat2Z.id. split; [done|]. split; [|lia]. done.
  - rewrite length_slice. lia.
Qed.

Section machine.
Context (C : list Slot) (P : prog) (cap : Z).

Definition call_stride (p : prog) : Z := match p with PCall _ s _ _ => s | _ => 0 end.

(** The cursors below the top: each is at a call, and its program's
    displacements go on after the repetition in progress. *)
Fixpoint below_ok (b : list (Cursor * prog)) : Prop :=
  match b with
  | [] => True
  | (c, p) :: b =>
      cursor_ok C c p ∧ (∃ sub s r k, p = PCall sub s r k) ∧
      Z.of_nat (length b) + pdepth p ≤ cap ∧ below_ok b
  end.

Fixpoint pending_below (b : list (Cursor * prog)) : list Z :=
  match b with
  | [] => []
  | (c, p) :: b =>
      disps (advance p (c_rep_num c + 1)) (c_disp c + call_stride p) ++ pending_below b
  end.

Fixpoint bottom_final (c : Cursor) (p : prog) (b : list (Cursor * prog)) : Z :=
  match b with [] => final c p | (c', p') :: b => bottom_final c' p' b end.

Fixpoint steps_below (b : list (Cursor * prog)) : Z :=
  match b with
  | [] => 0
  | (c, p) :: b => steps (advance p (c_rep_num c + 1)) + steps_below b
  end.

Definition steps_left (c : Cursor) (p : prog) (b : list (Cursor * prog)) : Z :=
  steps (advance p (c_rep_num c)) + steps_below b.

Definition pending (c : Cursor) (p : prog) (b : list (Cursor * prog)) : list Z :=
  rest c p ++ pending_below b.

(** The machine is at offset [o] of the stream of [P], its top cursor [c] in the
    program [p], the cursors [b] below. *)
Record inv (o : Z) (c : Cursor) (p : prog) (b : list (Cursor * prog)) : Prop := {
  iv_top : cursor_ok C c p;
  iv_depth : Z.of_nat (length b) + pdepth p ≤ cap;
  iv_below : below_ok b;
  iv_offset : 0 ≤ o ∧ c_offset c = w64 o;
  iv_steps : steps_left c p b ≤ steps P;
  iv_stream : ∃ m, 0 ≤ m ∧ o ≤ m * psize P ∧
    pending c p b = slice P o (m * psize P - o) ∧ bottom_final c p b ≡₆₄ ext P * m
}.

Definition cursors (c : Cursor) (b : list (Cursor * prog)) : list Cursor := c :: map fst b.

Lemma length_cursors c b : length (cursors c b) = S (length b).
Proof. unfold cursors. cbn. by rewrite length_map. Qed.

Lemma bottom_final_moved c p l c' p' b : moved C c p l c' p' →
  bottom_final c' p' b ≡₆₄ bottom_final c p b.
Proof. intros [_ _ Hf _ _ _]. by destruct b as [|[] b]. Qed.

(** The top cursor moves over displacements: they are the stream's. *)
Lemma inv_moved o c p b l c' p' : inv o c p b → moved C c p l c' p' →
  inv (o + Z.of_nat (length l)) c' p' b ∧ l = slice P o (Z.of_nat (length l)) ∧
  pending c p b = l ++ pending c' p' b.
Proof.
  intros [Htop Hdep Hb [Ho0 Ho] Hst (m&Hm&Hom&Hpend&Hfin)] Hmv.
  pose proof Htop as (_&_&_&Hoff&_).
  assert (Heq : pending c p b = l ++ pending c' p' b).
  { unfold pending. by rewrite (mv_rest _ _ _ _ _ _ Hmv), (assoc_L (++)). }
  pose proof Hpend as Hpend'. rewrite Heq in Hpend'. apply app_slice in Hpend' as (Hl&Hl'&Hle); [|lia].
  split; [|done]. split.
  - apply Hmv.
  - pose proof (mv_depth _ _ _ _ _ _ Hmv). lia.
  - done.
  - rewrite (mv_offset _ _ _ _ _ _ Hmv), Ho, w64_add_l. split; [lia|done].
  - pose proof (mv_steps _ _ _ _ _ _ Hmv). unfold steps_left in *. lia.
  - exists m. split; [done|]. split; [lia|]. split; [rewrite Hl'; f_equal; lia|].
    by rewrite (bottom_final_moved _ _ _ _ _ _ Hmv).
Qed.

(** ** Control instructions *)

Lemma code_at_op_lt pc p : code_at C pc p → clen C < 2 ^ 64 → 0 ≤ pc ∧ pc + 8 < 2 ^ 64.
Proof.
  intros Hat Hcl. pose proof (code_at_nonneg _ _ _ Hat). split; [done|].
  assert (∃ s, op_at C pc = Some s) as [s Hs] by (destruct Hat; eauto).
  apply op_at_lt in Hs. pose proof (op_size_range (opcode (s_op s))). lia.
Qed.

Context (Hclen : clen C < 2 ^ 64).

Lemma shift_spec c s k : cursor_ok C c (PShift s k) →
  (∃ pv, op_at C (c_pc c) = Some (mkSlot (Shift s) pv)) ∧
  moved C c (PShift s k) [] (ExecuteShift s c) k.
Proof.
  intros (Hat&Hwf&Hsz&Hoff&Hrn&Hrb). inversion Hat as [| |? ? ? pv Hop Hk|]; subst.
  split; [by eexists|]. pose proof (code_at_op_lt _ _ Hk Hclen). pose proof (code_at_nonneg _ _ _ Hat).
  cbn in Hwf, Hsz. destruct Hwf as [_ Hwf]. unfold ExecuteShift. rewrite Hrn, Hrb.
  rewrite w64_small by lia. split.
  - by apply cursor_ok_start.
  - unfold rest. rewrite Hrb, Hrn. cbn [advance c_disp c_rep_num c_rep_bytes app].
    change (Z.to_nat 0) with 0%nat. rewrite !drop_0, advance_0, w64_eq64. done.
  - unfold final. rewrite Hrn. cbn [advance c_disp c_rep_num ext].
    rewrite advance_0, w64_eq64. by rewrite Z.add_assoc.
  - cbn. rewrite Z.add_0_r. by rewrite w64_small.
  - done.
  - cbn [c_rep_num]. rewrite Hrn, !advance_0. cbn. lia.
Qed.

Lemma call_rest c sub s r k : 0 ≤ c_rep_num c < r → c_rep_bytes c = 0 →
  rest c (PCall sub s r k) = disps sub (c_disp c) ++
    disps (advance (PCall sub s r k) (c_rep_num c + 1)) (c_disp c + s).
Proof.
  intros Hrn Hrb. unfold rest. rewrite Hrb. change (Z.to_nat 0) with 0%nat. rewrite drop_0.
  cbn [advance]. unfold disps. cbn [layout].
  replace (Z.to_nat (r - c_rep_num c)) with (S (Z.to_nat (r - (c_rep_num c + 1)))) by lia.
  cbn [at_stride]. rewrite !map_app, <- app_assoc.
  replace (c_disp c + s * (r - c_rep_num c))
    with (c_disp c + s + s * (r - (c_rep_num c + 1))) by lia. done.
Qed.

Lemma call_psize_sub sub s r k : wf (PCall sub s r k) → psize (PCall sub s r k) < 2 ^ 64 →
  wf sub ∧ wf k ∧ psize sub < 2 ^ 64 ∧ psize k < 2 ^ 64 ∧ 0 < r < 2 ^ 64 ∧
  psize sub * r < 2 ^ 64.
Proof.
  cbn. intros (Hs&_&Hr&Hk) Hsz. pose proof (wf_psize _ Hs). pose proof (wf_psize _ Hk).
  assert (psize sub * 1 ≤ psize sub * r) by (apply Z.mul_le_mono_nonneg_l; lia).
  repeat split; try done; lia.
Qed.

(** A call: the sub-type's program on top. *)
Lemma inv_call o c sub s r k b : inv o c (PCall sub s r k) b →
  ∃ off pv c', op_at C (c_pc c) = Some (mkSlot (Call off s r) pv) ∧
    ExecuteCall cap off (cursors c b) = Ok (cursors c' ((c, PCall sub s r k) :: b)) ∧
    inv o c' sub ((c, PCall sub s r k) :: b) ∧
    steps_left c' sub ((c, PCall sub s r k) :: b) = steps_left c (PCall sub s r k) b - 1 ∧
    pending c' sub ((c, PCall sub s r k) :: b) = pending c (PCall sub s r k) b.
Proof.
  intros [Htop Hdep Hb Ho Hst (m&Hm&Hom&Hpend&Hfin)].
  pose proof Htop as (Hat&Hwf&Hsz&Hoff&Hrn&Hrb).
  destruct (call_psize_sub _ _ _ _ Hwf Hsz) as (?&?&?&?&?&?).
  inversion Hat as [| | |? off ? ? ? ? hdr pv pv' Hop Hpc Hoff' Hbeg Hds Hsub Hk]; subst.
  pose proof (code_at_op_lt _ _ Hsub Hclen) as [_ Hlt]. change (op_size BEGIN) with 64 in *.
  cbn [pdepth] in Hdep. pose proof (pdepth_pos sub).
  set (c' := mkCursor (c_pc c + off + 64) (c_disp c) (c_offset c) 0 0).
  assert (Hok : cursor_ok C c' sub) by (by apply cursor_ok_start).
  assert (Hpe : pending c' sub ((c, PCall sub s r k) :: b) = pending c (PCall sub s r k) b).
  { unfold pending. cbn [pending_below call_stride]. rewrite call_rest by done.
    unfold rest. cbn [c' c_rep_num c_rep_bytes c_disp]. change (Z.to_nat 0) with 0%nat.
    by rewrite drop_0, advance_0, (assoc_L (++)). }
  exists off, pv, c'. split; [done|]. split; [|split; [|split; [|done]]].
  - unfold ExecuteCall, cursors. cbn [length]. rewrite length_map.
    rewrite (proj2 (Z.ltb_lt _ _)) by lia. cbn [defined]. rewrite bind_ret.
    unfold sizeof_Begin. rewrite w64_small by lia. done.
  - split; try done.
    + cbn [length]. lia.
    + cbn [below_ok]. split; [done|]. split; [eauto|]. split; [cbn [pdepth]; lia|done].
    + revert Hst. unfold steps_left. cbn [steps_below c' c_rep_num advance].
      rewrite advance_0. cbn [steps]. lia.
    + exists m. split; [done|]. split; [done|]. by rewrite Hpe.
  - unfold steps_left. cbn [steps_below c' c_rep_num advance]. rewrite advance_0.
    cbn [steps]. lia.
Qed.

(** The end of the type: it is repeated. *)
Lemma inv_repeat o c : wf P → psize P < 2 ^ 64 → pdepth P ≤ cap → code_at C sizeof_Begin P →
  inv o c PEnd [] →
  (∃ pv, op_at C (c_pc c) = Some (mkSlot End pv)) ∧ pending c PEnd [] = [] ∧
  ∃ c', ExecuteEnd C (cursors c []) = Ok (cursors c' []) ∧ inv o c' P [] ∧
    steps_left c' P [] = steps P ∧ length (pending c' P []) = Z.to_nat (psize P).
Proof.
  intros HP Hsz Hcap Hcode [Htop Hdep Hb Ho Hst (m&Hm&Hom&Hpend&Hfin)].
  pose proof Htop as (Hat&_&_&Hoff&Hrn&Hrb). inversion Hat as [? pv Hop| | |]; subst.
  split; [by eexists|]. pose proof (wf_psize P HP).
  assert (Hnil : pending c PEnd [] = []).
  { unfold pending, rest, disps. by rewrite Hrb. }
  split; [done|]. rewrite Hnil in Hpend. pose proof (f_equal length Hpend) as Hlen.
  rewrite length_slice in Hlen. cbn in Hlen.
  eexists. split; [reflexivity|].
  assert (Hpd : pending (mkCursor sizeof_Begin (c_disp c) (c_offset c) 0 0) P [] =
                disps P (c_disp c)).
  { unfold pending, rest. cbn [c_rep_bytes c_rep_num c_disp pending_below].
    change (Z.to_nat 0) with 0%nat. by rewrite drop_0, advance_0, app_nil_r. }
  split; [|split].
  - split; try done.
    + by apply cursor_ok_start.
    + unfold steps_left. cbn [c_rep_num steps_below]. rewrite advance_0. lia.
    + exists (m + 1). split; [lia|]. split; [lia|]. rewrite Hpd.
      unfold bottom_final, final in Hfin |- *. cbn [advance ext c_disp c_rep_num] in *.
      rewrite Z.add_0_r in Hfin. rewrite advance_0, Hfin. split.
      * replace o with (m * psize P) by lia.
        replace ((m + 1) * psize P - m * psize P) with (psize P) by lia.
        symmetry. apply slice_period; [by apply wf_nonneg|done].
      * by replace (ext P * m + ext P) with (ext P * (m + 1)) by lia.
  - unfold steps_left. cbn [c_rep_num steps_below]. rewrite advance_0. lia.
  - by rewrite Hpd, wf_nonneg_disps.
Qed.

(** The caller's cursor after a repetition of the sub-type. *)
Definition after_rep (sub : prog) (s r : Z) (k : prog) (o : Z) (c : Cursor) : Cursor * prog :=
  if c_rep_num c + 1 =? r
  then (mkCursor (c_pc c + op_size CALL) (w64 (c_disp c + s)) o 0 0, k)
  else (mkCursor (c_pc c) (w64 (c_disp c + s)) o (c_rep_num c + 1) 0, PCall sub s r k).

Lemma after_rep_spec sub s r k o c : cursor_ok C c (PCall sub s r k) → 0 ≤ o < 2 ^ 64 →
  let '(c', p') := after_rep sub s r k o c in
  cursor_ok C c' p' ∧ c_offset c' = o ∧ pdepth p' ≤ pdepth (PCall sub s r k) ∧
  rest c' p' = disps (advance (PCall sub s r k) (c_rep_num c + 1)) (c_disp c + s) ∧
  final c' p' ≡₆₄ final c (PCall sub s r k) ∧
  steps (advance p' (c_rep_num c')) = steps (advance (PCall sub s r k) (c_rep_num c + 1)).
Proof.
  intros Hok Ho. pose proof Hok as (Hat&Hwf&Hsz&Hoff&Hrn&Hrb).
  destruct (call_psize_sub _ _ _ _ Hwf Hsz) as (?&?&?&?&?&?).
  inversion Hat as [| | |? off ? ? ? ? hdr pv pv' Hop Hpc Hoff' Hbeg Hds Hsub Hk]; subst.
  unfold after_rep. destruct (Z.eqb_spec (c_rep_num c + 1) r) as [Heq|Hne].
  - split; [by apply cursor_ok_start|]. split; [done|]. split; [cbn; lia|]. split; [|split].
    + unfold rest. cbn [c_rep_bytes c_rep_num c_disp]. change (Z.to_nat 0) with 0%nat.
      rewrite drop_0, advance_0, w64_eq64. cbn [advance]. rewrite Heq, Z.sub_diag.
      unfold disps. cbn [layout]. change (Z.to_nat 0) with 0%nat. cbn [at_stride app].
      by rewrite Z.mul_0_r, Z.add_0_r.
    + unfold final. cbn [c_rep_num c_disp]. rewrite advance_0, w64_eq64. cbn [advance ext].
      replace (r - c_rep_num c) with 1 by lia. by rewrite Z.mul_1_r, Z.add_assoc.
    + cbn [c_rep_num]. rewrite advance_0. cbn [advance steps]. rewrite Heq. lia.
  - split.
    { split; [done|]. split; [done|]. split; [done|]. split; [done|]. cbn. lia. }
    split; [done|]. split; [done|]. split; [|split; [|done]].
    + unfold rest. cbn [c_rep_bytes c_rep_num c_disp]. change (Z.to_nat 0) with 0%nat.
      by rewrite drop_0, w64_eq64.
    + unfold final. cbn [c_rep_num c_disp advance ext]. rewrite w64_eq64.
      by replace (c_disp c + s + (s * (r - (c_rep_num c + 1)) + ext k))
        with (c_disp c + (s * (r - c_rep_num c) + ext k)) by lia.
Qed.

(** The end of a sub-type: back to the caller. *)
Lemma inv_return o c old p b : inv o c PEnd ((old, p) :: b) →
  (∃ pv, op_at C (c_pc c) = Some (mkSlot End pv)) ∧
  ∃ c' p', ExecuteEnd C (cursors c ((old, p) :: b)) = Ok (cursors c' b) ∧ inv o c' p' b ∧
    steps_left c' p' b = steps_left c PEnd ((old, p) :: b) - 1 ∧
    pending c' p' b = pending c PEnd ((old, p) :: b).
Proof.
  intros [Htop Hdep (Hold&(sub&s&r&k&->)&Hdb&Hb) Ho Hst0 (m&Hm&Hom&Hpend&Hfin)].
  pose proof Htop as (Hat&_&_&Hoff&Hrn&Hrb). inversion Hat as [? pv Hop| | |]; subst.
  split; [by eexists|].
  pose proof Hold as (Hatc&Hwf&Hsz&_&Hrnc&Hrbc).
  destruct (call_psize_sub _ _ _ _ Hwf Hsz) as (?&?&?&?&?&?).
  inversion Hatc as [| | |? off ? ? ? ? hdr pvc pv' Hopc Hpc Hoff' Hbeg Hds Hsub Hk]; subst.
  pose proof (code_at_op_lt _ _ Hk Hclen) as [_ Hlt].
  pose proof (after_rep_spec sub s r k (c_offset c) old Hold Hoff) as Hafter.
  destruct (after_rep sub s r k (c_offset c) old) as [c' p'] eqn:Har.
  destruct Hafter as (Hok'&Hco'&Hd'&Hrest'&Hfin'&Hst').
  exists c', p'. split; [|split; [|split]].
  - unfold ExecuteEnd, cursors. cbn [map fst]. rewrite Hopc. cbn [of_option]. rewrite bind_ret.
    cbn [s_op]. rewrite (w64_small (c_rep_num old + 1)) by lia. unfold after_rep in Har.
    destruct (c_rep_num old + 1 =? r); injection Har as <- <-; [|done].
    rewrite (w64_small (c_pc old + op_size CALL)) by (change (op_size CALL) with 32 in *; lia).
    done.
  - split; try done.
    + lia.
    + by rewrite Hco'.
    + revert Hst0. unfold steps_left. rewrite Hst'. cbn [steps_below]. rewrite Hrn.
      cbn [advance steps]. lia.
    + exists m. split; [done|]. split; [done|]. split.
      * rewrite <- Hpend. unfold pending. rewrite Hrest'. cbn [pending_below call_stride].
        unfold rest at 1. rewrite Hrb. done.
      * rewrite <- Hfin. destruct b as [|[c2 p2] b]; cbn [bottom_final]; done.
  - unfold steps_left. rewrite Hst'. cbn [steps_below]. rewrite Hrn. cbn [advance steps]. lia.
  - unfold pending. rewrite Hrest'. cbn [pending_below call_stride].
    unfold rest at 1. rewrite Hrb. done.
Qed.


(** ** [Run] *)

Context (HP : wf P) (Hsize : 0 < psize P < 2 ^ 64) (Hcap : pdepth P ≤ cap).
Context (Hcode : code_at C sizeof_Begin P).

(** A bound on the instructions executed to go over [n] bytes: what is left of
    this pass, and whole passes for the bytes it does not have. *)
Definition run_steps (c : Cursor) (p : prog) (b : list (Cursor * prog)) (n : Z) : Z :=
  steps_left c p b + steps P * Z.max 0 (n - Z.of_nat (length (pending c p b))).

Lemma advance_nonneg p n : nonneg p →
  match p with PCopy _ _ r _ | PCall _ _ r _ => n ≤ r | _ => True end → nonneg (advance p n).
Proof. destruct p; cbn; naive_solver lia. Qed.

Lemma steps_below_nonneg b : below_ok b → 0 ≤ steps_below b.
Proof.
  induction b as [|[c p] b IH]; cbn; [lia|].
  intros ((_&Hwf&_&_&Hr)&(sub&s&r&k&->)&_&Hb). cbn in Hr.
  pose proof (steps_pos (advance (PCall sub s r k) (c_rep_num c + 1))
    (advance_nonneg (PCall sub s r k) (c_rep_num c + 1) (wf_nonneg _ Hwf) ltac:(cbn; lia))).
  specialize (IH Hb). lia.
Qed.

Lemma steps_left_pos o c p b : inv o c p b → 1 ≤ steps_left c p b.
Proof.
  intros [(_&Hwf&_&_&Hr) _ Hb _ _ _]. unfold steps_left.
  pose proof (steps_below_nonneg b Hb).
  assert (1 ≤ steps (advance p (c_rep_num c))); [|lia].
  apply steps_pos, advance_nonneg; [by apply wf_nonneg|]. destruct p; lia || done.
Qed.

Lemma run_steps_pos o c p b n : inv o c p b → 1 ≤ run_steps c p b n.
Proof.
  intros Hinv. pose proof (steps_left_pos _ _ _ _ Hinv).
  pose proof (steps_pos P (wf_nonneg P HP)). unfold run_steps.
  assert (0 ≤ steps P * Z.max 0 (n - Z.of_nat (length (pending c p b))))
    by (apply Z.mul_nonneg_nonneg; lia). lia.
Qed.

Lemma run_steps_le o c p b n : inv o c p b → 0 ≤ n →
  run_steps c p b n ≤ steps P * (n + 1).
Proof.
  intros [_ _ _ _ Hst _] Hn. unfold run_steps. pose proof (steps_pos P (wf_nonneg P HP)).
  assert (steps P * Z.max 0 (n - Z.of_nat (length (pending c p b))) ≤ steps P * n)
    by (apply Z.mul_le_mono_nonneg_l; lia). lia.
Qed.

(** A control instruction executed: the displacements stay and an instruction is
    done, or the type is repeated. *)
Record control (o : Z) (c : Cursor) (p : prog) (b : list (Cursor * prog))
    (c' : Cursor) (p' : prog) (b' : list (Cursor * prog)) : Prop := {
  ct_inv : inv o c' p' b';
  ct_zero : c_rep_bytes c' = 0;
  ct_steps :
    steps_left c' p' b' = steps_left c p b - 1 ∧ pending c' p' b' = pending c p b ∨
    steps_left c' p' b' = steps P ∧ pending c p b = [] ∧
      Z.of_nat (length (pending c' p' b')) = psize P
}.

Lemma control_run_steps o c p b c' p' b' n : inv o c p b → control o c p b c' p' b' → 0 < n →
  run_steps c' p' b' n ≤ run_steps c p b n - 1.
Proof.
  intros Hinv [_ _ [[Hst Hpe]|(Hst&Hnil&Hlen)]] Hn; unfold run_steps.
  - rewrite Hst, Hpe. lia.
  - rewrite Hst, Hnil, Hlen. cbn [length].
    pose proof (steps_left_pos _ _ _ _ Hinv). pose proof (steps_pos P (wf_nonneg P HP)).
    assert (steps P * Z.max 0 (n - psize P) ≤ steps P * (Z.max 0 (n - Z.of_nat 0) - 1))
      by (apply Z.mul_le_mono_nonneg_l; lia). lia.
Qed.

Lemma cursor_ok_rep_bytes c p : cursor_ok C c p →
  match p with PCopy _ _ _ _ => True | _ => c_rep_bytes c = 0 end.
Proof. intros (_&_&_&_&H). destruct p; try done; lia. Qed.

Lemma control_call o c sub s r k b : inv o c (PCall sub s r k) b →
  ∃ off pv c', op_at C (c_pc c) = Some (mkSlot (Call off s r) pv) ∧
    ExecuteCall cap off (cursors c b) = Ok (cursors c' ((c, PCall sub s r k) :: b)) ∧
    control o c (PCall sub s r k) b c' sub ((c, PCall sub s r k) :: b).
Proof.
  intros Hinv. destruct (inv_call _ _ _ _ _ _ _ Hinv) as (off&pv&c'&?&Hex&?&Hst&Hpe).
  exists off, pv, c'. split; [done|]. split; [done|]. split; [done| |by left].
  unfold ExecuteCall, cursors in Hex. apply bind_Ok in Hex as (_&_&Hex). by injection Hex as <-.
Qed.

Lemma control_shift o c s k b : inv o c (PShift s k) b →
  (∃ pv, op_at C (c_pc c) = Some (mkSlot (Shift s) pv)) ∧
  control o c (PShift s k) b (ExecuteShift s c) k b.
Proof.
  intros Hinv. destruct (shift_spec _ _ _ (iv_top _ _ _ _ Hinv)) as [Hop Hmv].
  split; [done|]. pose proof (iv_top _ _ _ _ Hinv) as (_&_&_&Hoff&Hrn&Hrb).
  destruct (inv_moved _ _ _ _ _ _ _ Hinv Hmv) as (Hinv'&_&Hpe).
  cbn in Hinv', Hpe. rewrite Z.add_0_r in Hinv'. split; [done|done|]. left. split; [|done].
  unfold steps_left. rewrite Hrn. cbn [ExecuteShift c_rep_num].
  rewrite Hrn, advance_0. cbn [advance steps]. lia.
Qed.

Lemma control_end o c b : inv o c PEnd b →
  (∃ pv, op_at C (c_pc c) = Some (mkSlot End pv)) ∧
  ∃ c' p' b', ExecuteEnd C (cursors c b) = Ok (cursors c' b') ∧ control o c PEnd b c' p' b'.
Proof.
  intros Hinv. destruct b as [|[old p] b].
  - destruct (inv_repeat o c HP ltac:(lia) Hcap Hcode Hinv) as (Hop&Hnil&c'&Hex&Hinv'&Hst&Hlen).
    split; [done|]. exists c', P, []. split; [done|]. split; [done| |right].
    + cbn in Hex. by injection Hex as <-.
    + split; [done|]. split; [done|]. rewrite Hlen. lia.
  - destruct (inv_return _ _ _ _ _ Hinv) as (Hop&c'&p'&Hex&Hinv'&Hst&Hpe).
    split; [done|]. exists c', p', b. split; [done|]. split; [done| |by left].
    unfold ExecuteEnd, cursors in Hex. cbn [map fst] in Hex.
    apply bind_Ok in Hex as (slot&_&Hex). destruct (s_op slot); try discriminate Hex.
    injection Hex as <-. by destruct (_ =? _).
Qed.

(** What a run over [n] bytes from [o] moves: blocks that cover the stream. *)
Definition covers (o n : Z) (bs : list (Z * Z)) : Prop :=
  expand bs = slice P o n ∧ total bs = n ∧ nonempty bs.

Lemma covers_app o n m bs bs' : 0 ≤ n → 0 ≤ m → covers o n bs → covers (o + n) m bs' →
  covers o (n + m) (bs ++ bs').
Proof.
  intros Hn Hm (He&Ht&Hne) (He'&Ht'&Hne'). split; [|split].
  - by rewrite expand_app, He, He', slice_app.
  - rewrite total_app. lia.
  - by apply Forall_app.
Qed.

Lemma covers_moved o c p b bs c' p' n : inv o c p b → moved C c p (expand bs) c' p' →
  total bs = n → nonempty bs →
  inv (o + n) c' p' b ∧ covers o n bs ∧
  Z.of_nat (length (pending c p b)) = n + Z.of_nat (length (pending c' p' b)).
Proof.
  intros Hinv Hmv Ht Hne. pose proof (total_expand bs Hne) as Hlen.
  destruct (inv_moved _ _ _ _ _ _ _ Hinv Hmv) as (Hinv'&Hsl&Hpe).
  rewrite Hlen, Ht in *. split; [done|]. split; [done|].
  rewrite Hpe, length_app. lia.
Qed.

(** [Run], one instruction at a time. *)
Section run_steps.
Context {S : Type} (MemCopy : Z → Z → Z → S → res S).
Context (fuel : nat) (target origin n : Z) (c : Cursor) (b : list (Cursor * prog)) (s : S).
Context (Hn : n ≠ 0).

Lemma Run_copy bb st r pv : op_at C (c_pc c) = Some (mkSlot (TypeCode.Copy bb st r) pv) →
  Run MemCopy (Datatypes.S fuel) C cap target origin n (cursors c b) s =
  let bytes_left := w64 (bb * w64 (r - c_rep_num c) - c_rep_bytes c) in
  assert (0 <? bytes_left);;
  let m := Z.min bytes_left n in
  '(c, s) ← Copy MemCopy target origin m bb st r c s;
  if w64 (n - m) =? 0 then mret (cursors c b, s)
  else Run MemCopy fuel C cap (w64 (target + m)) origin (w64 (n - m)) (cursors c b) s.
Proof. intros Hop. cbn [Run cursors]. rewrite (proj2 (Z.eqb_neq n 0)) by done. by rewrite Hop. Qed.

Lemma Run_shift sh pv : op_at C (c_pc c) = Some (mkSlot (Shift sh) pv) →
  Run MemCopy (Datatypes.S fuel) C cap target origin n (cursors c b) s =
  Run MemCopy fuel C cap target origin n (cursors (ExecuteShift sh c) b) s.
Proof. intros Hop. cbn [Run cursors]. rewrite (proj2 (Z.eqb_neq n 0)) by done. by rewrite Hop. Qed.

Lemma Run_call off st r pv stk : op_at C (c_pc c) = Some (mkSlot (Call off st r) pv) →
  ExecuteCall cap off (cursors c b) = Ok stk →
  Run MemCopy (Datatypes.S fuel) C cap target origin n (cursors c b) s =
  Run MemCopy fuel C cap target origin n stk s.
Proof.
  intros Hop Hex. unfold cursors in Hex |- *. cbn [Run].
  rewrite (proj2 (Z.eqb_neq n 0)) by done. rewrite Hop. cbn [of_option].
  rewrite bind_ret. cbn [s_op]. by rewrite Hex.
Qed.

Lemma Run_end pv stk : op_at C (c_pc c) = Some (mkSlot End pv) →
  ExecuteEnd C (cursors c b) = Ok stk →
  Run MemCopy (Datatypes.S fuel) C cap target origin n (cursors c b) s =
  Run MemCopy fuel C cap target origin n stk s.
Proof.
  intros Hop Hex. unfold cursors in Hex |- *. cbn [Run].
  rewrite (proj2 (Z.eqb_neq n 0)) by done. rewrite Hop. cbn [of_option].
  rewrite bind_ret. cbn [s_op]. by rewrite Hex.
Qed.

End run_steps.

(** What a run yields: blocks that cover the stream, whatever moves them. *)
Definition run_post (fuel : nat) (o n : Z) (c : Cursor) (b : list (Cursor * prog)) : Prop :=
  ∃ bs c' p' b', inv (o + n) c' p' b' ∧ covers o n bs ∧
    ∀ S (MemCopy : Z → Z → Z → S → res S) target origin s, w64 target = target →
      Run MemCopy fuel C cap target origin n (cursors c b) s =
      s ← move_all MemCopy target origin bs s; mret (cursors c' b', s).

Lemma run_post_copy fuel o n c bb st r k b : inv o c (PCopy bb st r k) b → 0 < n < 2 ^ 64 →
  (let left := bb * (r - c_rep_num c) - c_rep_bytes c in left < n →
   ∀ c1, inv (o + left) c1 k b → c_rep_num c1 = 0 →
     Z.of_nat (length (pending c (PCopy bb st r k) b)) =
       left + Z.of_nat (length (pending c1 k b)) →
     run_post fuel (o + left) (n - left) c1 b) →
  run_post (S fuel) o n c b.
Proof.
  intros Hinv Hn IH.
  pose proof (iv_top _ _ _ _ Hinv) as Hok. pose proof Hok as (Hat&Hwf&Hsz&Hoff&Hrn&Hrb).
  destruct (copy_bounds bb st r k Hwf Hsz) as (?&?&?&?&?).
  destruct (code_at_next_copy _ _ _ _ _ _ Hat) as [[pv Hop] Hk].
  pose proof (code_at_op_lt _ _ Hk Hclen) as [_ Hpc]. pose proof (code_at_nonneg _ _ _ Hat).
  pose proof (copy_left bb r (c_rep_num c) (c_rep_bytes c) Hrn Hrb ltac:(lia)) as Hleft.
  assert (Hl0 : 0 < bb * (r - c_rep_num c) - c_rep_bytes c) by nia.
  assert (Hw : w64 (bb * w64 (r - c_rep_num c) - c_rep_bytes c) =
               bb * (r - c_rep_num c) - c_rep_bytes c).
  { rewrite (w64_small (r - c_rep_num c)) by lia. by apply w64_small. }
  set (left := bb * (r - c_rep_num c) - c_rep_bytes c) in *. cbv zeta in IH.
  destruct (Copy_spec C bb st r k c (Z.min left n) Hok ltac:(lia) ltac:(subst left; lia))
    as (bs&c1&Hmv&Htot&Hne&Hrn1&Heq). fold left in Hmv, Hrn1.
  destruct (covers_moved o c _ b bs c1 _ (Z.min left n) Hinv Hmv Htot Hne)
    as (Hinv1&Hcov&Hlen).
  clearbody left. assert (Hn0 : n ≠ 0) by lia. destruct (Z.le_gt_cases n left) as [Hle|Hgt].
  - rewrite Z.min_r in * by lia.
    exists bs, c1, (if bool_decide (n = left) then k else PCopy bb st r k), b.
    split; [done|]. split; [done|]. intros S MC target origin s Ht.
    rewrite (Run_copy _ _ _ _ _ _ _ _ Hn0 _ _ _ _ Hop). cbv zeta.
    rewrite Hw, Z.min_r, Z.sub_diag, (proj2 (Z.ltb_lt 0 left)) by lia. cbn [assert].
    rewrite bind_ret, Heq, bind_assoc by done. apply bind_ext. done.
  - rewrite Z.min_l in * by lia. rewrite bool_decide_eq_true_2 in Hmv, Hinv1, Hlen by done.
    destruct (IH ltac:(lia) c1 Hinv1 (Hrn1 eq_refl) Hlen) as (bs'&c2&p2&b2&Hinv2&Hcov2&Heq2).
    exists (bs ++ bs'), c2, p2, b2. replace (o + n) with (o + left + (n - left)) by lia.
    split; [done|]. split.
    { replace n with (left + (n - left)) at 1 by lia. apply covers_app; done || lia. }
    intros S MC target origin s Ht.
    rewrite (Run_copy _ _ _ _ _ _ _ _ Hn0 _ _ _ _ Hop). cbv zeta.
    rewrite Hw, Z.min_l, (proj2 (Z.ltb_lt 0 left)), (w64_small (n - left)) by lia. cbn [assert].
    rewrite bind_ret, Heq, move_all_app, !bind_assoc by done. apply bind_ext. intros s1.
    rewrite bind_ret, (proj2 (Z.eqb_neq (n - left) 0)) by lia.
    rewrite Htot. apply Heq2, w64_w64.
Qed.

Lemma run_post_control fuel o n c b c' b' : 0 < n →
  (∀ S (MemCopy : Z → Z → Z → S → res S) target origin s,
     Run MemCopy (Datatypes.S fuel) C cap target origin n (cursors c b) s =
     Run MemCopy fuel C cap target origin n (cursors c' b') s) →
  run_post fuel o n c' b' → run_post (S fuel) o n c b.
Proof.
  intros Hn Hstep (bs&c2&p2&b2&Hinv&Hcov&Heq). exists bs, c2, p2, b2.
  split; [done|]. split; [done|]. intros. rewrite Hstep. by apply Heq.
Qed.

Lemma Run_spec fuel : ∀ o c p b n, inv o c p b → 0 ≤ n < 2 ^ 64 →
  run_steps c p b n < Z.of_nat fuel → run_post fuel o n c b.
Proof.
  induction fuel as [|fuel IH]; intros o c p b n Hinv Hn Hfuel.
  { pose proof (run_steps_pos _ _ _ _ n Hinv). lia. }
  destruct (Z.eq_dec n 0) as [->|Hn0].
  { exists [], c, p, b. rewrite Z.add_0_r. split; [done|]. split; [done|]. done. }
  assert (Hctl : ∀ c' p' b', control o c p b c' p' b' → run_post fuel o n c' b').
  { intros c' p' b' Hc. pose proof (control_run_steps _ _ _ _ _ _ _ n Hinv Hc ltac:(lia)).
    apply (IH o c' p' b' n); [apply Hc|done|lia]. }
  destruct p as [|bb st r k|sh k|sub st r k].
  - destruct (control_end o c b Hinv) as ([pv Hop]&c'&p'&b'&Hex&Hc).
    eapply run_post_control; [lia| |by eapply Hctl].
    intros. by eapply Run_end.
  - apply (run_post_copy fuel o n c bb st r k b Hinv); [lia|].
    cbv zeta. intros Hlt c1 Hinv1 Hrn1 Hlen. apply (IH _ _ k); [done| |].
    { pose proof (iv_top _ _ _ _ Hinv) as (_&Hwf&Hsz&_&Hrn&Hrb).
      destruct (copy_bounds bb st r k Hwf Hsz) as (_&_&?&_&_).
      pose proof (copy_left bb r (c_rep_num c) (c_rep_bytes c) Hrn Hrb ltac:(lia)). lia. }
    unfold run_steps, steps_left in *. rewrite Hlen in Hfuel. rewrite Hrn1, advance_0.
    cbn [advance steps] in Hfuel.
    replace (n - (bb * (r - c_rep_num c) - c_rep_bytes c + Z.of_nat (length (pending c1 k b))))
      with (n - (bb * (r - c_rep_num c) - c_rep_bytes c) - Z.of_nat (length (pending c1 k b)))
      in Hfuel by lia. lia.
  - destruct (control_shift o c sh k b Hinv) as ([pv Hop]&Hc).
    eapply run_post_control; [lia| |by eapply Hctl].
    intros. by eapply Run_shift.
  - destruct (control_call o c sub st r k b Hinv) as (off&pv&c'&Hop&Hex&Hc).
    eapply run_post_control; [lia| |by eapply Hctl].
    intros. by eapply Run_call.
Qed.

End machine.
