(* ===== verification/TypeCursorSpec.v ===== *)
(** [MoveCursor], [EnumerateBlocks] and [GetContigBytes] of the type machine:
    the cursor they leave and the blocks they report are the stream's. *)
From S2P Require Import Prelude.
From S2P Require Import Layout.
From S2P Require Import Memory.
From S2P Require Import TypeCode.
From S2P Require Import TypeCodeSpec.
From S2P Require Import TypeComplete.
From S2P Require Import TypeMachine.
From S2P Require Import TypeMachineSpec.

#[local] Opaque w64.

(** * Skipping repetitions *)

(** The displacements of [n] repetitions of a sub-type. *)
Definition subs (sub : prog) (s d n : Z) : list Z :=
  map w64 (at_stride (layout sub) d s (Z.to_nat n)).

Lemma length_subs sub s d n : wf sub → 0 ≤ n →
  Z.of_nat (length (subs sub s d n)) = psize sub * n.
Proof.
  intros Hs Hn. unfold subs. pose proof (wf_psize sub Hs).
  rewrite length_map, (length_at_stride _ (Z.to_nat (psize sub)))
    by (intros; by apply length_layout, wf_nonneg). lia.
Qed.

Lemma disps_advance_copy b s r k d n : 0 ≤ n ≤ r →
  disps (PCopy b s r k) d =
  blocks b s d n ++ disps (advance (PCopy b s r k) n) (d + s * n).
Proof.
  intros Hn. cbn [advance]. rewrite !disps_PCopy. replace r with (n + (r - n)) at 1 by lia.
  rewrite blocks_app, <- app_assoc by lia. do 3 f_equal. lia.
Qed.

Lemma disps_advance_call sub s r k d n : 0 ≤ n ≤ r →
  disps (PCall sub s r k) d =
  subs sub s d n ++ disps (advance (PCall sub s r k) n) (d + s * n).
Proof.
  intros Hn. cbn [advance]. unfold disps, subs. cbn [layout].
  replace (Z.to_nat r) with (Z.to_nat n + Z.to_nat (r - n))%nat by lia.
  rewrite at_stride_add, !map_app, <- app_assoc, Z2Nat.id by lia.
  replace (d + s * n + s * (r - n)) with (d + s * r) by lia. done.
Qed.

Lemma drop_zero {A} (l : list A) : drop (Z.to_nat 0) l = l.
Proof. done. Qed.

Section skip.
Context (C : list Slot) (Hclen : clen C < 2 ^ 64).

(** A cursor at the start of an instruction. *)
Definition fresh (pc d o : Z) : Cursor := mkCursor pc d o 0 0.

Lemma rest_fresh pc d o p : rest (fresh pc d o) p = disps p d.
Proof. unfold rest, fresh. cbn [c_rep_bytes c_rep_num c_disp]. by rewrite drop_zero, advance_0. Qed.

Lemma final_fresh pc d o p : final (fresh pc d o) p = d + ext p.
Proof. unfold final, fresh. cbn [c_rep_num c_disp]. by rewrite advance_0. Qed.

(** Into a copy: [n] bytes from its start. *)
Lemma skip_into_copy pc d o b s r k n : cursor_ok C (fresh pc d o) (PCopy b s r k) →
  0 ≤ n < b * r → o + n < 2 ^ 64 →
  ∃ l, moved C (fresh pc d o) (PCopy b s r k) l
    (mkCursor pc (w64 (d + s * (n / b))) (o + n) (n / b) (n - b * (n / b))) (PCopy b s r k) ∧
    Z.of_nat (length l) = n.
Proof.
  intros (Hat&Hwf&Hsz&Hoff&_) Hn Hon. cbn [c_pc c_offset fresh] in *.
  destruct (copy_bounds b s r k Hwf Hsz) as (?&?&?&?&?).
  pose proof (Z.div_mod n b ltac:(lia)) as Hdm. pose proof (Z.mod_pos_bound n b ltac:(lia)).
  assert (Hrn : 0 ≤ n / b < r).
  { split; [apply Z.div_pos; lia|]. apply Z.div_lt_upper_bound; lia. }
  set (rn := n / b) in *. set (rb := n - b * rn).
  assert (Hl : Z.of_nat (length (blocks b s d rn)) = b * rn) by (rewrite length_blocks; lia).
  exists (blocks b s d rn ++ take (Z.to_nat rb) (disps (advance (PCopy b s r k) rn) (d + s * rn))).
  assert (Htake : Z.of_nat (length (blocks b s d rn ++
    take (Z.to_nat rb) (disps (advance (PCopy b s r k) rn) (d + s * rn)))) = n).
  { assert (b * 1 ≤ b * (r - rn)) by (apply Z.mul_le_mono_nonneg_l; lia).
    assert (Z.of_nat (length (blocks b s (d + s * rn) (r - rn))) = b * (r - rn))
      by (rewrite length_blocks; lia).
    rewrite length_app, length_take_le; [lia|]. cbn [advance].
    rewrite disps_PCopy, length_app. lia. }
  split; [|done]. split.
  - split; [done|]. split; [done|]. split; [done|]. split; [cbn; lia|]. cbn. lia.
  - rewrite rest_fresh, (disps_advance_copy b s r k d rn) by lia. rewrite <- app_assoc.
    f_equal. unfold rest. cbn [c_rep_bytes c_rep_num c_disp]. rewrite w64_eq64.
    by rewrite take_drop.
  - unfold final. cbn [c_rep_num c_disp fresh ext advance]. rewrite w64_eq64.
    by replace (d + s * rn + (s * (r - rn) + ext k)) with (d + (s * (r - 0) + ext k)) by lia.
  - cbn [c_offset fresh]. rewrite Htake, w64_small; lia.
  - done.
  - done.
Qed.

(** Over a whole copy. *)
Lemma skip_copy pc d o b s r k : cursor_ok C (fresh pc d o) (PCopy b s r k) →
  o + b * r < 2 ^ 64 →
  moved C (fresh pc d o) (PCopy b s r k) (blocks b s d r)
    (fresh (w64 (pc + op_size COPY)) (w64 (d + s * r)) (w64 (o + b * r))) k.
Proof.
  intros (Hat&Hwf&Hsz&Hoff&_) Hor. cbn [c_pc c_offset fresh] in *.
  destruct (copy_bounds b s r k Hwf Hsz) as (?&?&?&?&?).
  destruct (code_at_next_copy _ _ _ _ _ _ Hat) as [_ Hk]. pose proof (code_at_nonneg _ _ _ Hat).
  pose proof (code_at_op_lt C _ _ Hk Hclen). rewrite (w64_small (pc + _)) by lia. split.
  - apply cursor_ok_start; auto using w64_range.
  - rewrite !rest_fresh, w64_eq64. apply disps_PCopy.
  - rewrite !final_fresh, w64_eq64. cbn [ext]. by rewrite Z.add_assoc.
  - cbn [c_offset fresh]. rewrite length_blocks. f_equal. lia.
  - done.
  - cbn [c_rep_num fresh]. rewrite !advance_0. cbn. lia.
Qed.

(** Over [n] repetitions of a call, not the last. *)
Lemma skip_into_call pc d o sub s r k n : cursor_ok C (fresh pc d o) (PCall sub s r k) →
  0 ≤ n < r → o + psize sub * n < 2 ^ 64 →
  moved C (fresh pc d o) (PCall sub s r k) (subs sub s d n)
    (mkCursor pc (w64 (d + s * n)) (o + psize sub * n) n 0) (PCall sub s r k).
Proof.
  intros (Hat&Hwf&Hsz&Hoff&_) Hn Hon. cbn [c_pc c_offset fresh] in *.
  destruct (call_psize_sub _ _ _ _ Hwf Hsz) as (?&?&?&?&?&?). pose proof (wf_psize sub ltac:(done)).
  assert (0 ≤ psize sub * n) by (apply Z.mul_nonneg_nonneg; lia). split.
  - split; [done|]. split; [done|]. split; [done|]. split; [cbn; lia|]. cbn. lia.
  - rewrite rest_fresh, (disps_advance_call sub s r k d n) by lia.
    unfold rest. cbn [c_rep_bytes c_rep_num c_disp]. by rewrite drop_zero, w64_eq64.
  - rewrite final_fresh. unfold final. cbn [c_rep_num c_disp ext advance]. rewrite w64_eq64.
    by replace (d + s * n + (s * (r - n) + ext k)) with (d + (s * r + ext k)) by lia.
  - cbn [c_offset fresh]. rewrite length_subs, w64_small by (done || lia). done.
  - done.
  - cbn [c_rep_num fresh advance steps]. pose proof (steps_pos sub ltac:(by apply wf_nonneg)).
    assert ((r - n) * (1 + steps sub) ≤ (r - 0) * (1 + steps sub))
      by (apply Z.mul_le_mono_nonneg_r; lia). lia.
Qed.

(** Over a whole call. *)
Lemma skip_call pc d o sub s r k : cursor_ok C (fresh pc d o) (PCall sub s r k) →
  o + psize sub * r < 2 ^ 64 →
  moved C (fresh pc d o) (PCall sub s r k) (subs sub s d r)
    (fresh (w64 (pc + op_size CALL)) (w64 (d + s * r)) (w64 (o + psize sub * r))) k.
Proof.
  intros (Hat&Hwf&Hsz&Hoff&_) Hor. cbn [c_pc c_offset fresh] in *.
  destruct (call_psize_sub _ _ _ _ Hwf Hsz) as (?&?&?&?&?&?).
  inversion Hat as [| | |? off ? ? ? ? hdr pv pv' Hop Hpc Hoff' Hbeg Hds Hsub Hk]; subst.
  pose proof (code_at_op_lt C _ _ Hk Hclen). pose proof (code_at_nonneg _ _ _ Hat).
  rewrite (w64_small (pc + _)) by (change (op_size CALL) with 32 in *; lia). split.
  - apply cursor_ok_start; auto using w64_range.
  - rewrite !rest_fresh, w64_eq64, (disps_advance_call sub s r k d r) by lia.
    cbn [advance]. f_equal. rewrite Z.sub_diag. unfold disps. cbn [layout].
    change (Z.to_nat 0) with 0%nat. cbn [at_stride app]. by rewrite Z.mul_0_r, Z.add_0_r.
  - rewrite !final_fresh, w64_eq64. cbn [ext]. by rewrite Z.add_assoc.
  - cbn [c_offset fresh]. rewrite length_subs by (done || lia). done.
  - cbn. lia.
  - cbn [c_rep_num fresh]. rewrite !advance_0. cbn [steps].
    pose proof (steps_pos sub ltac:(by apply wf_nonneg)).
    assert (0 ≤ r * (1 + steps sub)) by (apply Z.mul_nonneg_nonneg; lia). lia.
Qed.

End skip.

(** * [MoveCursor] *)

(** Instructions the loop of [MoveCursor] may look at. *)
Fixpoint ops (p : prog) : Z :=
  match p with
  | PEnd => 1
  | PCopy _ _ _ k | PShift _ k => 1 + ops k
  | PCall sub _ _ k => 1 + Z.max (ops sub) (ops k)
  end.

Lemma ops_pos p : 1 ≤ ops p.
Proof. induction p; cbn; lia. Qed.

Section move.
Context (C : list Slot) (P : prog) (cap : Z) (Hclen : clen C < 2 ^ 64).

Notation inv := (inv C P cap).

(** The repetitions skipped in a call, then the call itself. *)
Lemma enter_call pc d o sub s r k n b : inv o (fresh pc d o) (PCall sub s r k) b →
  0 ≤ n < psize sub * r → o + n < 2 ^ 64 →
  let rn := n / psize sub in let o' := o + psize sub * rn in
  ∃ off pv hdr pv', op_at C pc = Some (mkSlot (Call off s r) pv) ∧
    op_at C (w64 (pc + off)) = Some (mkSlot (Begin hdr) pv') ∧ b_data_size hdr = psize sub ∧
    Z.of_nat (length b) + 1 < cap ∧
    inv o' (fresh (w64 (pc + (off + sizeof_Begin))) (w64 (d + s * rn)) o') sub
      ((mkCursor pc (w64 (d + s * rn)) o' rn 0, PCall sub s r k) :: b).
Proof.
  intros Hinv Hn Hon. cbv zeta. pose proof (iv_top _ _ _ _ _ _ _ Hinv) as Hok.
  pose proof Hok as (Hat&Hwf&Hsz&Hoff&_). cbn [c_pc c_offset fresh] in *.
  destruct (call_psize_sub _ _ _ _ Hwf Hsz) as (?&?&?&?&?&?).
  pose proof (wf_psize sub ltac:(done)) as Hsub0.
  assert (Hpos : 0 < psize sub).
  { destruct (Z.eq_dec (psize sub) 0) as [Hz0|]; [rewrite Hz0 in Hn|]; lia. }
  pose proof (Z.div_mod n (psize sub) ltac:(lia)). pose proof (Z.mod_pos_bound n (psize sub) Hpos).
  assert (Hrn : 0 ≤ n / psize sub < r).
  { split; [apply Z.div_pos; lia|]. apply Z.div_lt_upper_bound; lia. }
  set (rn := n / psize sub) in *.
  assert (0 ≤ psize sub * rn) by (apply Z.mul_nonneg_nonneg; lia).
  pose proof (skip_into_call C pc d o sub s r k rn Hok Hrn ltac:(lia)) as Hmv.
  pose proof (length_subs sub s d rn ltac:(done) ltac:(lia)) as Hlen.
  destruct (inv_moved C P cap _ _ _ _ _ _ _ Hinv Hmv) as (Hinv'&_&_).
  rewrite Hlen in Hinv'.
  destruct (inv_call C P cap Hclen _ _ _ _ _ _ _ Hinv') as (off&pv&c'&Hop&Hex&Hinv2&_).
  cbn [c_pc] in Hop.
  inversion Hat as [| | |? off' ? ? ? ? hdr pv2 pv' Hop' Hpc Hoff' Hbeg Hds Hsub Hk]; subst.
  rewrite Hop in Hop'. injection Hop' as <- _.
  unfold ExecuteCall, cursors in Hex. apply bind_Ok in Hex as ([]&Hd&Hex).
  apply defined_Ok, Z.ltb_lt in Hd. cbn [length] in Hd. rewrite length_map in Hd.
  injection Hex as Hc'. cbn [c_pc c_disp c_offset] in Hc'.
  pose proof (code_at_op_lt C _ _ Hsub Hclen) as [_ Hlt]. change (op_size BEGIN) with 64 in *.
  exists off, pv, hdr, pv'. split; [done|]. rewrite w64_small by lia. split; [done|].
  split; [done|]. split; [lia|]. rewrite Z.add_assoc. unfold fresh. rewrite Hc'. done.
Qed.

Lemma move_loop_spec fuel : ∀ pc d o p b N, inv o (fresh pc d o) p b → o ≤ N < o + psize p →
  o + psize p < 2 ^ 64 → ops p ≤ Z.of_nat fuel →
  ∃ c' p' b', move_loop fuel C cap N pc d o (map fst b) = Ok (cursors c' b') ∧ inv N c' p' b'.
Proof.
  induction fuel as [|fuel IH]; intros pc d o p b N Hinv HN Hsm Hf.
  { pose proof (ops_pos p). lia. }
  pose proof (iv_top _ _ _ _ _ _ _ Hinv) as Hok. pose proof Hok as (Hat&Hwf&Hsz&Hoff&_).
  cbn [c_pc c_offset fresh] in Hat, Hoff. cbn [move_loop].
  destruct p as [|bb st r k|sh k|sub st r k]; cbn [psize ops] in *.
  - lia.
  - destruct (copy_bounds bb st r k Hwf Hsz) as (?&?&?&Hwk&?). pose proof (wf_psize k Hwk).
    destruct (code_at_next_copy _ _ _ _ _ _ Hat) as [[pv Hop] Hk]. rewrite Hop.
    cbn [of_option s_op]. rewrite bind_ret. cbn [s_op]. rewrite (w64_small (bb * r)) by lia.
    assert (0 < bb * r) by (apply Z.mul_pos_pos; lia).
    rewrite (w64_small (o + bb * r)) by lia.
    destruct (Z.ltb_spec N (o + bb * r)) as [Hin|Hout].
    + destruct (skip_into_copy C pc d o bb st r k (N - o) Hok ltac:(lia) ltac:(lia))
        as (l&Hmv&Hl). replace (o + (N - o)) with N in Hmv by lia.
      destruct (inv_moved C P cap _ _ _ _ _ _ _ Hinv Hmv) as (Hinv'&_&_).
      rewrite Hl in Hinv'. replace (o + (N - o)) with N in Hinv' by lia.
      rewrite (proj2 (Z.eqb_neq bb 0)) by lia. cbn [negb defined].
      rewrite bind_ret, (w64_small (N - o)) by lia.
      pose proof (Z.div_mod (N - o) bb ltac:(lia)).
      pose proof (Z.mod_pos_bound (N - o) bb ltac:(lia)).
      rewrite (w64_small (N - o - _)) by lia.
      eexists _, _, b. split; [reflexivity|exact Hinv'].
    + pose proof (skip_copy C Hclen pc d o bb st r k Hok ltac:(lia)) as Hmv.
      assert (Hl : Z.of_nat (length (blocks bb st d r)) = bb * r) by (rewrite length_blocks; lia).
      destruct (inv_moved C P cap _ _ _ _ _ _ _ Hinv Hmv) as (Hinv'&_&_).
      rewrite Hl, (w64_small (o + bb * r)) in Hinv' by lia. apply (IH _ _ _ k); done || lia.
  - destruct (shift_spec C Hclen _ _ _ Hok) as [[pv Hop] Hmv]. cbn [c_pc fresh] in Hop.
    rewrite Hop. cbn [of_option]. rewrite bind_ret. cbn [s_op].
    destruct (inv_moved C P cap _ _ _ _ _ _ _ Hinv Hmv) as (Hinv'&_&_).
    cbn [length Z.of_nat] in Hinv'. rewrite Z.add_0_r in Hinv'.
    apply (IH _ _ _ k); done || lia.
  - destruct (call_psize_sub _ _ _ _ Hwf Hsz) as (?&Hwk&?&?&?&?). pose proof (wf_psize k Hwk).
    pose proof (wf_psize sub ltac:(done)). assert (0 ≤ psize sub * r) by (apply Z.mul_nonneg_nonneg; lia).
    destruct (Z.ltb_spec N (o + psize sub * r)) as [Hin|Hout].
    + destruct (enter_call pc d o sub st r k (N - o) b Hinv ltac:(lia) ltac:(lia))
        as (off&pv&hdr&pv'&Hop&Hbeg&Hds&Hcap'&Hinv').
      rewrite Hop. cbn [of_option]. rewrite bind_ret. cbn [s_op]. rewrite Hbeg. cbn [of_option].
      rewrite bind_ret. cbn [s_op]. rewrite Hds.
      assert (Hpos : 0 < psize sub).
      { destruct (Z.eq_dec (psize sub) 0) as [Hz0|]; [rewrite Hz0 in Hin|]; lia. }
      rewrite (w64_small (psize sub * r)), (w64_small (o + psize sub * r)) by lia.
      rewrite (proj2 (Z.ltb_lt _ _)), (proj2 (Z.eqb_neq (psize sub) 0)) by lia.
      cbn [negb defined]. rewrite bind_ret, length_map, (proj2 (Z.ltb_lt _ _)) by lia.
      cbn [defined]. rewrite bind_ret, (w64_small (N - o)) by lia.
      pose proof (Z.div_mod (N - o) (psize sub) ltac:(lia)).
      pose proof (Z.mod_pos_bound (N - o) (psize sub) Hpos).
      rewrite (w64_small (N - o - _)) by lia.
      assert (Hrn : 0 ≤ (N - o) / psize sub < r).
      { split; [apply Z.div_pos; lia|]. apply Z.div_lt_upper_bound; lia. }
      assert (0 ≤ psize sub * ((N - o) / psize sub)) by (apply Z.mul_nonneg_nonneg; lia).
      replace (N - (N - o - psize sub * ((N - o) / psize sub)))
        with (o + psize sub * ((N - o) / psize sub)) by lia.
      rewrite (w64_small (o + psize sub * _)) by lia.
      assert (Hle : psize sub * ((N - o) / psize sub + 1) ≤ psize sub * r)
        by (apply Z.mul_le_mono_nonneg_l; lia).
      destruct (IH _ _ _ sub _ N Hinv') as (c'&p'&b'&Hrun&Hinv2); [lia|lia|lia|].
      exists c', p', b'. split; [exact Hrun|done].
    + pose proof (skip_call C Hclen pc d o sub st r k Hok ltac:(lia)) as Hmv.
      pose proof (length_subs sub st d r ltac:(done) ltac:(lia)) as Hl.
      destruct (inv_moved C P cap _ _ _ _ _ _ _ Hinv Hmv) as (Hinv'&_&_).
      rewrite Hl, (w64_small (o + psize sub * r)) in Hinv' by lia.
      inversion Hat as [| | |? off ? ? ? ? hdr pv pv' Hop Hpc Hoff' Hbeg Hds Hsub Hk]; subst.
      pose proof (code_at_op_lt C _ _ Hsub Hclen) as [_ Hlt]. change (op_size BEGIN) with 64 in *.
      rewrite Hop. cbn [of_option]. rewrite bind_ret. cbn [s_op].
      rewrite (w64_small (pc + off)) by lia. rewrite Hbeg. cbn [of_option].
      rewrite bind_ret. cbn [s_op]. rewrite Hds.
      rewrite (w64_small (psize sub * r)), (w64_small (o + psize sub * r)) by lia.
      rewrite (proj2 (Z.ltb_ge N (o + psize sub * r))) by lia.
      apply (IH _ _ _ k); done || lia.
Qed.

Lemma MoveCursor_spec fuel t o c p b N : wf P → 0 < psize P < 2 ^ 64 → pdepth P ≤ cap →
  type_code t = C → type_denotes t P → inv o c p b → o < 2 ^ 64 → 0 ≤ N →
  (N / psize P + 1) * psize P < 2 ^ 64 → ops P ≤ Z.of_nat fuel →
  ∃ c' p' b', MoveCursor_ fuel t cap N (cursors c b) = Ok (cursors c' b') ∧ inv N c' p' b'.
Proof.
  intros HP Hsz Hcap HC Ht Hinv Ho HN Hbig Hf. unfold MoveCursor_, cursors at 1.
  destruct (iv_offset _ _ _ _ _ _ _ Hinv) as [Ho0 ->]. rewrite (w64_small o) by lia.
  destruct (Z.eqb_spec o N) as [->|Hne]; [by eauto|].
  rewrite (td_data_size _ _ Ht), (td_extent _ _ Ht).
  rewrite (proj2 (Z.eqb_neq (psize P) 0)) by lia. cbn [negb defined]. rewrite bind_ret.
  pose proof (Z.div_pos N (psize P) HN ltac:(lia)) as Hq. set (q := N / psize P) in *.
  assert (HqN : q * psize P ≤ N < (q + 1) * psize P).
  { pose proof (Z.div_mod N (psize P) ltac:(lia)). pose proof (Z.mod_pos_bound N (psize P) ltac:(lia)).
    subst q. lia. }
  assert (0 ≤ q * psize P) by (apply Z.mul_nonneg_nonneg; lia).
  rewrite (w64_small (q * psize P)) by lia. rewrite HC. rewrite w64_mul_r.
  change (@nil Cursor) with (map fst (@nil (Cursor * prog))).
  apply (move_loop_spec fuel _ _ _ P); [|lia|lia|done].
  pose proof (td_code _ _ Ht) as Hcode. rewrite HC in Hcode. split.
  - apply cursor_ok_start; [exact Hcode|done|lia|lia].
  - cbn [length]. lia.
  - done.
  - split; [done|]. cbn [c_offset fresh]. by rewrite w64_small by lia.
  - unfold steps_left. cbn [c_rep_num fresh steps_below]. rewrite advance_0. lia.
  - exists (q + 1). split; [lia|]. split; [lia|]. unfold pending. cbn [pending_below bottom_final].
    rewrite app_nil_r, rest_fresh, final_fresh, w64_eq64. split.
    + replace ((q + 1) * psize P - q * psize P) with (psize P) by lia.
      rewrite slice_period by (by apply wf_nonneg || done). by rewrite (Z.mul_comm q).
    + by replace (q * ext P + ext P) with (ext P * (q + 1)) by lia.
Qed.

End move.

(** * [EnumerateBlocks] *)

Lemma emit_blocks_spec n : ∀ d st b, 0 < b →
  expand (emit_blocks n d st b) = blocks b st d (Z.of_nat n) ∧
  total (emit_blocks n d st b) = b * Z.of_nat n ∧ length (emit_blocks n d st b) = n ∧
  Forall (λ '(_, l), 0 < l) (emit_blocks n d st b).
Proof.
  induction n as [|n IH]; intros d st b Hb; [repeat split; cbn; lia || constructor|].
  destruct (IH (w64 (d + st)) st b Hb) as (He&Ht&Hl&Hne). cbn [emit_blocks].
  split; [|split; [|split]].
  - rewrite expand_cons, He, (blocks_cons b st d) by lia. f_equal.
    rewrite (blocks_w64 b st _ (d + st)) by apply w64_eq64. f_equal. lia.
  - cbn [total]. lia.
  - cbn. lia.
  - by constructor.
Qed.

(** The sizes of the blocks fit a [size_t]. *)
Definition sizes_fit (bs : list (Z * Z)) : Prop := Forall (λ '(_, l), l < 2 ^ 64) bs.

Lemma emit_blocks_fit n d st b : b < 2 ^ 64 → sizes_fit (emit_blocks n d st b).
Proof. intros Hb. revert d. induction n as [|n IH]; intros d; constructor; [done|apply IH]. Qed.

Section enumerate.
Context (C : list Slot) (P : prog) (cap : Z) (Hclen : clen C < 2 ^ 64).
Context (HP : wf P) (Hsize : 0 < psize P < 2 ^ 64) (Hcap : pdepth P ≤ cap).
Context (Hcode : code_at C sizeof_Begin P).

Notation inv := (inv C P cap).

(** The cursor after [n] whole repetitions of a copy. *)
Definition after_reps (b st r n : Z) (c : Cursor) : Cursor :=
  let disp := w64 (c_disp c + st * n) in let offset := w64 (c_offset c + b * n) in
  if w64 (c_rep_num c + n) =? r
  then mkCursor (w64 (c_pc c + op_size COPY)) disp offset 0 (c_rep_bytes c)
  else mkCursor (c_pc c) disp offset (w64 (c_rep_num c + n)) (c_rep_bytes c).

Lemma reps_moved c b st r k n : cursor_ok C c (PCopy b st r k) → c_rep_bytes c = 0 →
  0 < n ≤ r - c_rep_num c →
  moved C c (PCopy b st r k) (blocks b st (c_disp c) n) (after_reps b st r n c)
    (if bool_decide (n = r - c_rep_num c) then k else PCopy b st r k).
Proof.
  intros (Hat&Hwf&Hsz&Hoff&Hrn&_) Hrb Hn. destruct (copy_bounds b st r k Hwf Hsz) as (?&?&?&?&?).
  destruct (code_at_next_copy _ _ _ _ _ _ Hat) as [_ Hk]. pose proof (code_at_nonneg _ _ _ Hat).
  pose proof (code_at_op_lt C _ _ Hk Hclen) as [_ Hpc].
  assert (Hlen : Z.of_nat (length (blocks b st (c_disp c) n)) = b * n)
    by (rewrite length_blocks; lia).
  assert (Hrest : rest c (PCopy b st r k) = blocks b st (c_disp c) n ++
            disps (advance (PCopy b st r k) (c_rep_num c + n)) (c_disp c + st * n)).
  { unfold rest. rewrite Hrb, drop_zero. cbn [advance].
    rewrite (disps_advance_copy b st (r - c_rep_num c) k _ n) by lia.
    cbn [advance]. by replace (r - c_rep_num c - n) with (r - (c_rep_num c + n)) by lia. }
  unfold after_reps. rewrite Hrb, (w64_small (c_rep_num c + n)) by lia.
  destruct (Z.eqb_spec (c_rep_num c + n) r) as [Heq|Hne].
  - rewrite bool_decide_eq_true_2, (w64_small (c_pc c + op_size COPY)) by (cbn in Hpc |- *; lia). split.
    + apply cursor_ok_start; auto using w64_range.
    + rewrite Hrest. f_equal. unfold rest. cbn [c_rep_bytes c_rep_num c_disp advance].
      rewrite drop_zero, advance_0, w64_eq64, Heq, Z.sub_diag, disps_PCopy.
      unfold blocks. cbn [Z.to_nat at_stride map app]. by rewrite Z.mul_0_r, Z.add_0_r.
    + unfold final. cbn [c_rep_num c_disp advance ext]. rewrite advance_0, w64_eq64.
      replace n with (r - c_rep_num c) by lia. by rewrite Z.add_assoc.
    + cbn [c_offset]. by rewrite Hlen.
    + done.
    + cbn [c_rep_num]. rewrite advance_0. cbn. lia.
  - rewrite bool_decide_eq_false_2 by lia. split.
    + split; [done|]. split; [done|]. split; [done|]. cbn. auto using w64_range with lia.
    + rewrite Hrest. f_equal. unfold rest. cbn [c_rep_bytes c_rep_num c_disp].
      by rewrite drop_zero, w64_eq64.
    + unfold final. cbn [c_rep_num c_disp advance ext]. rewrite w64_eq64.
      by replace (c_disp c + st * n + (st * (r - (c_rep_num c + n)) + ext k))
        with (c_disp c + (st * (r - c_rep_num c) + ext k)) by lia.
    + cbn [c_offset]. by rewrite Hlen.
    + done.
    + done.
Qed.

(** A bound on the instructions executed to report [n] blocks. *)
Definition enum_steps (c : Cursor) (p : prog) (b : list (Cursor * prog)) (n : Z) : Z :=
  steps_left c p b + steps P * (if bool_decide (pending c p b = []) then n else n - 1).

Lemma enum_steps_pos o c p b n : inv o c p b → 0 < n → 1 ≤ enum_steps c p b n.
Proof.
  intros Hinv Hn. pose proof (steps_left_pos C P cap Hsize _ _ _ _ Hinv).
  pose proof (steps_pos P (wf_nonneg P HP)). unfold enum_steps.
  assert (0 ≤ steps P * (if bool_decide (pending c p b = []) then n else n - 1))
    by (apply Z.mul_nonneg_nonneg; [lia|case_bool_decide; lia]). lia.
Qed.

Lemma enum_steps_le o c p b n : inv o c p b → 0 < n → enum_steps c p b n ≤ steps P * (n + 1).
Proof.
  intros [_ _ _ _ Hst _] Hn. unfold enum_steps. pose proof (steps_pos P (wf_nonneg P HP)).
  assert (steps P * (if bool_decide (pending c p b = []) then n else n - 1) ≤ steps P * n)
    by (apply Z.mul_le_mono_nonneg_l; [lia|case_bool_decide; lia]). lia.
Qed.

Lemma control_enum_steps o c p b c' p' b' n : inv o c p b → control C P cap o c p b c' p' b' →
  enum_steps c' p' b' n ≤ enum_steps c p b n - 1.
Proof.
  intros Hinv [_ _ [[Hst Hpe]|(Hst&Hnil&Hlen)]]; unfold enum_steps.
  - rewrite Hst, Hpe. lia.
  - rewrite Hst, Hnil, bool_decide_eq_false_2, bool_decide_eq_true_2; [|done|].
    + pose proof (steps_left_pos C P cap Hsize _ _ _ _ Hinv). lia.
    + intros H0. rewrite H0 in Hlen. cbn in Hlen. lia.
Qed.

(** What an enumeration of [n] blocks yields. *)
Definition enum_post (fuel : nat) (o n index : Z) (c : Cursor) (b : list (Cursor * prog)) : Prop :=
  ∃ bs c' p' b', EnumerateBlocks_ fuel C cap n index (cursors c b) = Ok (cursors c' b', bs) ∧
    inv (o + total bs) c' p' b' ∧ c_rep_bytes c' = 0 ∧ covers P o (total bs) bs ∧
    Z.of_nat (length bs) = n ∧ sizes_fit bs.

Lemma enum_post_control fuel o n index c b c' b' :
  EnumerateBlocks_ (S fuel) C cap n index (cursors c b) =
    EnumerateBlocks_ fuel C cap n index (cursors c' b') →
  enum_post fuel o n index c' b' → enum_post (S fuel) o n index c b.
Proof. intros Hstep Hpost. unfold enum_post. by rewrite Hstep. Qed.

Lemma enum_post_copy fuel o n index bb st r k c b : inv o c (PCopy bb st r k) b →
  c_rep_bytes c = 0 → 0 < n → 0 ≤ index → index + n ≤ INT_MAX →
  (let m := r - c_rep_num c in m < n → ∀ c1, inv (o + bb * m) c1 k b →
     c_rep_num c1 = 0 → c_rep_bytes c1 = 0 → pending c (PCopy bb st r k) b ≠ [] →
     enum_post fuel (o + bb * m) (n - m) (index + m) c1 b) →
  enum_post (S fuel) o n index c b.
Proof.
  intros Hinv Hrb Hn Hidx0 Hidx IH. cbv zeta in IH.
  pose proof (iv_top _ _ _ _ _ _ _ Hinv) as Hok. pose proof Hok as (Hat&Hwf&Hsz&Hoff&Hrn&_).
  destruct (copy_bounds bb st r k Hwf Hsz) as (?&?&?&?&?).
  destruct (code_at_next_copy _ _ _ _ _ _ Hat) as [[pv Hop] Hk].
  set (m := Z.min (r - c_rep_num c) n).
  destruct (emit_blocks_spec (Z.to_nat m) (c_disp c) st bb ltac:(lia)) as (He&Ht&Hl&Hne).
  rewrite Z2Nat.id in He, Ht by lia.
  pose proof (emit_blocks_fit (Z.to_nat m) (c_disp c) st bb ltac:(lia)) as Hfit.
  set (bs := emit_blocks _ _ _ _) in *.
  pose proof (reps_moved c bb st r k m Hok Hrb ltac:(lia)) as Hmv. rewrite <- He in Hmv.
  destruct (covers_moved C P cap o c _ b bs _ _ (bb * m) Hinv Hmv Ht Hne) as (Hinv1&Hcov&Hlen).
  assert (Hpend : pending c (PCopy bb st r k) b ≠ []).
  { intros H0'. rewrite H0' in Hlen. cbn [length] in Hlen.
    assert (0 < bb * m) by (apply Z.mul_pos_pos; lia). lia. }
  assert (Hstep : EnumerateBlocks_ (S fuel) C cap n index (cursors c b) =
    if n - m =? 0 then Ok (cursors (after_reps bb st r m c) b, bs)
    else '(stk, more) ← EnumerateBlocks_ fuel C cap (n - m) (index + m)
           (cursors (after_reps bb st r m c) b); mret (stk, bs ++ more)).
  { unfold cursors at 1. cbn [EnumerateBlocks_].
    rewrite (proj2 (Z.eqb_neq n 0)), (proj2 (Z.eqb_eq (c_rep_bytes c) 0)) by lia.
    cbn [assert]. rewrite bind_ret, Hop. cbn [of_option]. rewrite bind_ret. cbn [s_op].
    rewrite (w64_small (r - c_rep_num c)), (proj2 (Z.ltb_lt 0 (r - c_rep_num c))) by lia. cbn [assert].
    rewrite bind_ret. fold m. rewrite (proj2 (Z.leb_le (index + m) INT_MAX)) by lia.
    cbn [defined]. rewrite bind_ret, (w64_small (n - m)) by (unfold INT_MAX in Hidx; lia). done. }
  destruct (Z.le_gt_cases n (r - c_rep_num c)) as [Hle|Hgt].
  - subst m. rewrite Z.min_r in * by lia. rewrite Z.sub_diag, Z.eqb_refl in Hstep.
    eexists bs, _, _, b. split; [exact Hstep|]. rewrite Ht. split; [exact Hinv1|].
    split; [|split; [done|split; [lia|done]]]. unfold after_reps. by destruct (_ =? r).
  - subst m. rewrite Z.min_l in * by lia. rewrite bool_decide_eq_true_2 in Hinv1 by done.
    rewrite (proj2 (Z.eqb_neq _ 0)) in Hstep by lia.
    destruct (IH ltac:(lia) _ Hinv1) as (bs'&c2&p2&b2&Hrun&Hinv2&Hrb2&Hcov2&Hl2&Hfit2).
    + unfold after_reps. by rewrite w64_small, (proj2 (Z.eqb_eq _ r)) by lia.
    + unfold after_reps. by rewrite w64_small, (proj2 (Z.eqb_eq _ r)) by lia.
    + done.
    + exists (bs ++ bs'), c2, p2, b2. rewrite Hstep, Hrun. split; [done|].
      rewrite total_app, Ht, Z.add_assoc. split; [done|]. split; [done|]. split.
      * pose proof (total_nonneg bs' (proj2 (proj2 Hcov2))).
        apply covers_app; try done. apply Z.mul_nonneg_nonneg; lia.
      * split; [rewrite length_app; lia|by apply Forall_app].
Qed.

Lemma EnumerateBlocks_spec fuel : ∀ o c p b n index, inv o c p b → c_rep_bytes c = 0 →
  0 < n → 0 ≤ index → index + n ≤ INT_MAX → enum_steps c p b n ≤ Z.of_nat fuel →
  enum_post fuel o n index c b.
Proof.
  induction fuel as [|fuel IH]; intros o c p b n index Hinv Hrb Hn Hidx0 Hidx Hfuel.
  { pose proof (enum_steps_pos _ _ _ _ n Hinv Hn). lia. }
  assert (Hctl : ∀ c' p' b', control C P cap o c p b c' p' b' → enum_post fuel o n index c' b').
  { intros c' p' b' Hc. pose proof (control_enum_steps _ _ _ _ _ _ _ n Hinv Hc).
    apply (IH o c' p' b' n index); try done; [apply Hc|apply Hc|lia]. }
  assert (Hn0 : (n =? 0) = false) by lia. assert (Hr0 : (c_rep_bytes c =? 0) = true) by lia.
  destruct p as [|bb st r k|sh k|sub st r k].
  - destruct (control_end C P cap Hclen HP Hsize Hcap Hcode o c b Hinv)
      as ([pv Hop]&c'&p'&b'&Hex&Hc).
    eapply enum_post_control; [|by eapply Hctl]. unfold cursors at 1. cbn [EnumerateBlocks_].
    rewrite Hn0, Hr0, Hop. cbn [assert of_option]. rewrite !bind_ret. cbn [s_op].
    change (c :: map fst b) with (cursors c b). by rewrite Hex.
  - apply (enum_post_copy fuel o n index bb st r k c b Hinv); [done|done|done|done|].
    cbv zeta. intros Hlt c1 Hinv1 Hrn1 Hrb1 Hpend.
    pose proof (iv_top _ _ _ _ _ _ _ Hinv) as (_&_&_&_&Hrn&_).
    apply (IH _ _ k); try done; [lia|lia|lia|].
    unfold enum_steps, steps_left in *. rewrite bool_decide_eq_false_2 in Hfuel by done.
    rewrite Hrn1, advance_0. cbn [advance steps] in Hfuel.
    pose proof (steps_pos P (wf_nonneg P HP)).
    assert (steps P * (if bool_decide (pending c1 k b = []) then n - (r - c_rep_num c)
              else n - (r - c_rep_num c) - 1) ≤ steps P * (n - 1))
      by (apply Z.mul_le_mono_nonneg_l; [lia|case_bool_decide; lia]). lia.
  - destruct (control_shift C P cap Hclen o c sh k b Hinv) as ([pv Hop]&Hc).
    eapply enum_post_control; [|by eapply Hctl]. unfold cursors at 1. cbn [EnumerateBlocks_].
    rewrite Hn0, Hr0, Hop. cbn [assert of_option]. by rewrite !bind_ret.
  - destruct (control_call C P cap Hclen o c sub st r k b Hinv) as (off&pv&c'&Hop&Hex&Hc).
    eapply enum_post_control; [|by eapply Hctl]. unfold cursors at 1. cbn [EnumerateBlocks_].
    rewrite Hn0, Hr0, Hop. cbn [assert of_option]. rewrite !bind_ret. cbn [s_op].
    change (c :: map fst b) with (cursors c b). by rewrite Hex.
Qed.

(** * [GetContigBytes] *)

(** It stops at a copy with bytes left: no data is skipped, and the bytes it
    returns are what the whole copy has left. *)
Lemma GetContigBytes_spec fuel : ∀ o c p b, inv o c p b → enum_steps c p b 1 ≤ Z.of_nat fuel →
  ∃ c' b' bb st r k n, GetContigBytes_ fuel C cap (cursors c b) = Ok (cursors c' b', n) ∧
    inv o c' (PCopy bb st r k) b' ∧ n = bb * (r - c_rep_num c') - c_rep_bytes c' ∧ 0 < n.
Proof.
  induction fuel as [|fuel IH]; intros o c p b Hinv Hfuel.
  { pose proof (enum_steps_pos _ _ _ _ 1 Hinv ltac:(lia)). lia. }
  assert (Hctl : ∀ c' p' b', control C P cap o c p b c' p' b' →
    ∃ c2 b2 bb st r k n, GetContigBytes_ fuel C cap (cursors c' b') = Ok (cursors c2 b2, n) ∧
    inv o c2 (PCopy bb st r k) b2 ∧ n = bb * (r - c_rep_num c2) - c_rep_bytes c2 ∧ 0 < n).
  { intros c' p' b' Hc. pose proof (control_enum_steps _ _ _ _ _ _ _ 1 Hinv Hc).
    apply (IH o c' p' b'); [apply Hc|lia]. }
  unfold cursors at 1. cbn [GetContigBytes_].
  destruct p as [|bb st r k|sh k|sub st r k].
  - destruct (control_end C P cap Hclen HP Hsize Hcap Hcode o c b Hinv)
      as ([pv Hop]&c'&p'&b'&Hex&Hc).
    rewrite Hop. cbn [of_option]. rewrite bind_ret. cbn [s_op].
    change (c :: map fst b) with (cursors c b). rewrite Hex. by eapply Hctl.
  - pose proof (iv_top _ _ _ _ _ _ _ Hinv) as (Hat&Hwf&Hsz&Hoff&Hrn&Hrb).
    destruct (copy_bounds bb st r k Hwf Hsz) as (?&?&?&?&?).
    destruct (code_at_next_copy _ _ _ _ _ _ Hat) as [[pv Hop] Hk].
    rewrite Hop. cbn [of_option]. rewrite bind_ret. cbn [s_op].
    pose proof (copy_left bb r (c_rep_num c) (c_rep_bytes c) Hrn Hrb ltac:(lia)).
    assert (bb * 1 ≤ bb * (r - c_rep_num c)) by (apply Z.mul_le_mono_nonneg_l; lia).
    rewrite (w64_small (r - c_rep_num c)), (w64_small (_ - c_rep_bytes c)) by lia.
    rewrite (proj2 (Z.ltb_lt _ _)) by lia. cbn [assert]. rewrite bind_ret.
    eexists c, b, bb, st, r, k, _. split; [reflexivity|]. split; [done|]. split; [done|lia].
  - destruct (control_shift C P cap Hclen o c sh k b Hinv) as ([pv Hop]&Hc).
    rewrite Hop. cbn [of_option]. rewrite bind_ret. cbn [s_op]. by apply (Hctl _ _ _ Hc).
  - destruct (control_call C P cap Hclen o c sub st r k b Hinv) as (off&pv&c'&Hop&Hex&Hc).
    rewrite Hop. cbn [of_option]. rewrite bind_ret. cbn [s_op].
    change (c :: map fst b) with (cursors c b). rewrite Hex. by eapply Hctl.
Qed.

End enumerate.
