(* ===== verification/TypeTransfer.v ===== *)
(** Packing and unpacking: what the type machine's transfers do to memory, from
    its constructors on. *)
From S2P Require Import Prelude.
From S2P Require Import Layout.
From S2P Require Import Memory.
From S2P Require Import TypeCode.
From S2P Require Import TypeCodeSpec.
From S2P Require Import TypeComplete.
From S2P Require Import TypeFunc.
From S2P Require Import TypeMachine.
From S2P Require Import TypeMachineSpec.
From S2P Require Import TypeCursorSpec.

#[local] Opaque w64.

(** * The stream *)

Lemma stream_range P k : 0 ≤ stream P k < 2 ^ 64.
Proof. apply w64_range. Qed.

Lemma slice_lookup P o n i : (i < Z.to_nat n)%nat →
  slice P o n !! i = Some (stream P (o + Z.of_nat i)).
Proof.
  intros Hi. unfold slice. rewrite list_lookup_fmap, lookup_seqZ_lt by lia. done.
Qed.

(** A byte of a layout, modulo [2^64]. *)
Lemma disps_nth P i : nonneg P → (i < Z.to_nat (psize P))%nat →
  disps P 0 !! i = Some (w64 (nth i (layout P 0) 0)).
Proof.
  intros HP Hi. unfold disps. rewrite list_lookup_fmap.
  destruct (nth_lookup_or_length (layout P 0) i 0) as [Hn|Hn]; [by rewrite Hn|].
  rewrite length_layout in Hn by done. lia.
Qed.

(** Equivalent programs have the same stream. *)
Lemma stream_proper P Q k : nonneg P → nonneg Q → P ≃ₚ Q → 0 < psize P → stream P k = stream Q k.
Proof.
  intros HP HQ [Hs He Hd] Hpos. unfold stream. rewrite Hs. rewrite Hs in Hpos.
  pose proof (Z.mod_pos_bound k (psize Q) Hpos) as Hk.
  pose proof (disps_nth P (Z.to_nat (k `mod` psize Q)) HP ltac:(lia)) as Hp.
  pose proof (disps_nth Q (Z.to_nat (k `mod` psize Q)) HQ ltac:(lia)) as Hq.
  rewrite Hd, Hq in Hp. injection Hp as Hp.
  rewrite <- w64_add_l, <- Hp, w64_add_l. by rewrite He.
Qed.

(** The stream of a contiguous type: its bytes in order. *)
Lemma stream_contiguous n k : 0 < n → 0 ≤ k → stream (PCopy n n 1 PEnd) k = w64 k.
Proof.
  intros Hn Hk. unfold stream.
  replace (psize (PCopy n n 1 PEnd)) with n by (cbn; lia).
  replace (ext (PCopy n n 1 PEnd)) with n by (cbn; lia).
  assert (layout (PCopy n n 1 PEnd) 0 = seqZ 0 n) as ->.
  { cbn [layout]. change (Z.to_nat 1) with 1%nat. cbn [at_stride]. by rewrite !app_nil_r. }
  pose proof (Z.mod_pos_bound k n Hn). pose proof (Z.div_mod k n ltac:(lia)).
  rewrite (nth_lookup_Some _ _ _ (k `mod` n)); [f_equal; lia|].
  rewrite lookup_seqZ_lt by lia. f_equal. lia.
Qed.

(** * Moving blocks in memory *)

(** A function that moves a block, between disjoint blocks. *)
Definition moves (f : Z → Z → Z → mem → res mem) : Prop := ∀ to from n m,
  0 ≤ n → 0 ≤ to → to + n ≤ 2 ^ 64 → 0 ≤ from → from + n ≤ 2 ^ 64 →
  to + n ≤ from ∨ from + n ≤ to →
  ∃ m', f to from n m = Ok m' ∧ ∀ a, m' a = move to from n m a.

Lemma memcpy_moves : moves memcpy.
Proof. intros to from n m ??????. rewrite memcpy_Ok by lia. eauto. Qed.

Lemma InternalMemCopy_moves : moves InternalMemCopy.
Proof.
  intros to from n m Hn Hto Hto' Hfrom Hfrom' Hdis. unfold InternalMemCopy.
  destruct (Z.eqb_spec n 16) as [->|H16].
  - rewrite copy_scalar_Ok by lia. rewrite bind_ret, copy_scalar_Ok by lia.
    eexists. split; [reflexivity|]. intros a.
    destruct (Z.le_gt_cases (to + 8) a), (Z.le_gt_cases (to + 16) a), (Z.le_gt_cases to a);
      try lia.
    + rewrite !move_out by lia. done.
    + rewrite move_in by lia. rewrite move_out by lia. rewrite move_in by lia. f_equal. lia.
    + rewrite move_out by lia. rewrite !move_in by lia. done.
    + rewrite !move_out by lia. done.
  - destruct (_ || _).
    + rewrite copy_scalar_Ok by lia. eauto.
    + rewrite memcpy_Ok by lia. eauto.
Qed.

(** The address of the byte of displacement [d] of typed data at [origin]. *)
Definition address (origin d : Z) : Z := w64 (origin + d).

Lemma address_w64 origin d : address origin (w64 d) = address origin d.
Proof. unfold address. apply w64_add_r. Qed.

(** The bytes of typed data lie in [lo, hi), above the null address. *)
Definition within (lo hi origin : Z) (l : list Z) : Prop :=
  ∀ d, d ∈ l → lo ≤ address origin d < hi.

Lemma elem_of_map_seqZ d l i : 0 ≤ i < l → w64 (d + i) ∈ map w64 (seqZ d l).
Proof. intros Hi. apply list_elem_of_fmap. exists (d + i). split; [done|]. apply elem_of_seqZ. lia. Qed.

Section region.
Context (lo hi origin : Z) (Hlo : 0 < lo) (Hhi : hi ≤ 2 ^ 64).

(** A block whose bytes are all in [lo, hi) does not wrap around. *)
Lemma block_address d l i : within lo hi origin (map w64 (seqZ d l)) → 0 ≤ i → i < l →
  address origin (d + i) = address origin d + i ∧ lo ≤ address origin d + i < hi.
Proof.
  intros Hall Hi. assert (Hin : ∀ j, 0 ≤ j < l → lo ≤ address origin (d + j) < hi).
  { intros j Hj. rewrite <- address_w64. by apply Hall, elem_of_map_seqZ. }
  revert i Hi. refine (natlike_ind _ _ _).
  - intros Hl. rewrite !Z.add_0_r. split; [done|]. specialize (Hin 0 ltac:(lia)).
    by rewrite Z.add_0_r in Hin.
  - intros i Hi IH Hl. destruct (IH ltac:(lia)) as [Heq Hb]. specialize (Hin (Z.succ i) ltac:(lia)).
    assert (Hs : address origin (d + Z.succ i) = w64 (address origin d + i + 1)).
    { rewrite <- Heq. unfold address. rewrite w64_add_l. f_equal. lia. }
    rewrite Hs in *. destruct (Z.eq_dec (address origin d + i + 1) (2 ^ 64)) as [H0|H0].
    + rewrite H0 in Hin. change (w64 (2 ^ 64)) with 0 in Hin. lia.
    + rewrite w64_small in * by lia. lia.
Qed.

Lemma within_app l l' : within lo hi origin (l ++ l') ↔
  within lo hi origin l ∧ within lo hi origin l'.
Proof. unfold within. setoid_rewrite elem_of_app. naive_solver. Qed.

(** A block of the typed data is a block of memory. *)
Lemma block_bounds d l : 0 < l → within lo hi origin (map w64 (seqZ d l)) →
  lo ≤ address origin d ∧ address origin d + l ≤ hi.
Proof.
  intros Hl Hw. pose proof (block_address d l 0 Hw ltac:(lia) ltac:(lia)).
  pose proof (block_address d l (l - 1) Hw ltac:(lia) ltac:(lia)). lia.
Qed.

(** ** Gathering *)

Context (f : Z → Z → Z → mem → res mem) (Hf : moves f).

Definition scatter_move (to from n : Z) (s : mem) : res mem := f from to n s.

Lemma move_all_gather bs : ∀ target s, Forall (λ '(_, l), 0 < l) bs →
  within lo hi origin (expand bs) → 0 ≤ target → target + total bs < 2 ^ 64 →
  target + total bs ≤ lo ∨ hi ≤ target →
  ∃ s', move_all f target origin bs s = Ok s' ∧
    (∀ i d, expand bs !! i = Some d → s' (target + Z.of_nat i) = s (address origin d)) ∧
    (∀ x, x < target ∨ target + total bs ≤ x → s' x = s x).
Proof.
  induction bs as [|[d l] bs IH]; intros target s Hne Hw Ht Hsm Hdis.
  { exists s. split; [done|]. split; [done|done]. }
  apply Forall_cons in Hne as [Hl Hne]. rewrite expand_cons, within_app in Hw.
  destruct Hw as [Hwd Hw]. cbn [total] in *. pose proof (total_nonneg bs Hne).
  destruct (block_bounds d l Hl Hwd) as [Hb1 Hb2].
  destruct (Hf target (address origin d) l s) as (s1&Hs1&Hm1); try lia.
  destruct (IH (target + l) s1 Hne Hw) as (s'&Hrun&Hin&Hout); try lia.
  exists s'. cbn [move_all]. fold (address origin d). rewrite Hs1, bind_ret.
  rewrite w64_small by lia. split; [done|]. rewrite expand_cons. split.
  - intros i e. destruct (Z.lt_ge_cases (Z.of_nat i) l) as [Hi|Hi].
    + rewrite lookup_app_l by (rewrite length_map, length_seqZ; lia).
      rewrite list_lookup_fmap, lookup_seqZ_lt by lia. intros [= <-].
      rewrite Hout, Hm1, move_in, address_w64 by lia.
      destruct (block_address d l (Z.of_nat i) Hwd) as [-> _]; [lia|lia|]. f_equal. lia.
    + rewrite lookup_app_r by (rewrite length_map, length_seqZ; lia).
      rewrite length_map, length_seqZ. intros He. specialize (Hin _ _ He).
      replace (target + l + Z.of_nat (i - Z.to_nat l)) with (target + Z.of_nat i) in Hin by lia.
      rewrite Hin, Hm1. apply list_elem_of_lookup_2 in He. specialize (Hw _ He).
      apply move_out. lia.
  - intros x Hx. rewrite Hout by lia. rewrite Hm1. apply move_out. lia.
Qed.

(** ** Scattering *)

Lemma move_all_scatter bs : ∀ target s, Forall (λ '(_, l), 0 < l) bs →
  within lo hi origin (expand bs) → NoDup (map (address origin) (expand bs)) →
  0 ≤ target → target + total bs < 2 ^ 64 → target + total bs ≤ lo ∨ hi ≤ target →
  ∃ s', move_all scatter_move target origin bs s = Ok s' ∧
    (∀ i d, expand bs !! i = Some d → s' (address origin d) = s (target + Z.of_nat i)) ∧
    (∀ x, x ∉ map (address origin) (expand bs) → s' x = s x).
Proof.
  induction bs as [|[d l] bs IH]; intros target s Hne Hw Hnd Ht Hsm Hdis.
  { exists s. split; [done|]. split; [done|done]. }
  apply Forall_cons in Hne as [Hl Hne]. rewrite expand_cons, within_app in Hw.
  destruct Hw as [Hwd Hw]. cbn [total] in *. pose proof (total_nonneg bs Hne).
  destruct (block_bounds d l Hl Hwd) as [Hb1 Hb2].
  rewrite expand_cons, map_app in Hnd. apply NoDup_app in Hnd as (_&Hsep&Hnd).
  destruct (Hf (address origin d) target l s) as (s1&Hs1&Hm1); try lia.
  destruct (IH (target + l) s1 Hne Hw Hnd) as (s'&Hrun&Hin&Hout); try lia.
  exists s'. cbn [move_all]. fold (address origin d).
  change (scatter_move target (address origin d) l s = Ok s1) in Hs1. rewrite Hs1, bind_ret.
  rewrite w64_small by lia. split; [done|]. rewrite expand_cons. split.
  - intros i e. destruct (Z.lt_ge_cases (Z.of_nat i) l) as [Hi|Hi].
    + rewrite lookup_app_l by (rewrite length_map, length_seqZ; lia).
      rewrite list_lookup_fmap, lookup_seqZ_lt by lia. intros [= <-].
      rewrite Hout.
      * rewrite Hm1, address_w64. destruct (block_address d l (Z.of_nat i) Hwd) as [-> _]; [lia|lia|].
        rewrite move_in by lia. f_equal. lia.
      * apply Hsep, list_elem_of_fmap. eexists. split; [reflexivity|]. apply elem_of_map_seqZ. lia.
    + rewrite lookup_app_r by (rewrite length_map, length_seqZ; lia).
      rewrite length_map, length_seqZ. intros He. rewrite (Hin _ _ He), Hm1.
      pose proof (lookup_lt_Some _ _ _ He). pose proof (total_expand bs Hne).
      rewrite move_out by lia. f_equal. lia.
  - intros x Hx. rewrite map_app, not_elem_of_app in Hx. destruct Hx as [Hx1 Hx2].
    rewrite Hout by done. rewrite Hm1. apply move_out.
    destruct (Z.lt_ge_cases x (address origin d)); [by left|].
    destruct (Z.le_gt_cases (address origin d + l) x); [by right|]. destruct Hx1.
    apply list_elem_of_fmap. exists (w64 (d + (x - address origin d))).
    split; [|apply elem_of_map_seqZ; lia]. rewrite address_w64.
    destruct (block_address d l (x - address origin d) Hwd) as [-> _]; lia.
Qed.

End region.

(** * The machine *)

(** The machine [m] over the objects [h] is at offset [o] of the stream of [P]. *)
Definition machine_at (h : heap) (m : TypeMachine) (P : prog) (o : Z) : Prop :=
  ∃ t c p b, h !! tm_type m = Some t ∧ type_denotes t P ∧
    0 < psize P ∧ pdepth P ≤ stack_cap m ∧ stack m = cursors c b ∧
    inv (type_code t) P (stack_cap m) o c p b.

(** Fuel for a run over [n] bytes, and for the enumeration of [n] blocks: a pass
    over the type's instructions for each, and one more. *)
Definition run_fuel (P : prog) (n : Z) : Z := steps P * (n + 1) + 1.

(** The clients' view of a run: blocks that cover the stream from [o] on, the
    same whatever moves them, for any fuel that is large enough. *)
Lemma machine_run h m P o n fuel : machine_at h m P o → 0 ≤ n < 2 ^ 64 →
  run_fuel P n ≤ Z.of_nat fuel → ∃ bs m', covers P o n bs ∧ machine_at h m' P (o + n) ∧
    copy_func m' = copy_func m ∧
    ∀ big fl user PACK buffer typed s, w64 buffer = buffer →
      run_machine big fl user PACK fuel h m buffer typed n s =
      s ← move_all (MemCopy big fl user PACK (internal m) m) buffer typed bs s; mret (m', s).
Proof.
  intros (t&c&p&b&Ht&Hden&Hpos&Hcap&Hstk&Hinv) Hn Hf. unfold run_fuel in Hf.
  pose proof (run_steps_le (type_code t) P (stack_cap m) (td_wf _ _ Hden) o c p b n Hinv
    ltac:(lia)).
  destruct (Run_spec (type_code t) P (stack_cap m) (td_code_small _ _ Hden) (td_wf _ _ Hden)
    (conj Hpos (td_small _ _ Hden)) Hcap (td_code _ _ Hden) fuel o c p b n Hinv Hn)
    as (bs&c'&p'&b'&Hinv'&Hcov&Heq); [lia|].
  exists bs, (set_stack m (cursors c' b')). split; [done|]. split.
  { exists t, c', p', b'. split; [done|]. split; [done|]. done. }
  split; [done|]. intros big fl user PACK buffer typed s Hb. unfold run_machine. rewrite Ht. cbn [of_option].
  rewrite bind_ret, Hstk, Heq, bind_assoc by done. done.
Qed.

Lemma machine_at_fresh h m t P : h !! tm_type m = Some t → type_denotes t P →
  0 < psize P → pdepth P ≤ stack_cap m → stack m = [Cursor_start] →
  machine_at h m P 0.
Proof.
  intros Ht Hden Hpos Hcap Hstk. exists t, Cursor_start, P, [].
  do 5 (split; [done|]). pose proof (td_wf _ _ Hden) as Hwf. pose proof (td_small _ _ Hden). split.
  - apply cursor_ok_start; [apply (td_code _ _ Hden)|done|done|lia].
  - cbn. lia.
  - done.
  - done.
  - unfold steps_left. cbn [Cursor_start c_rep_num steps_below]. rewrite advance_0. lia.
  - exists 1. split; [lia|]. split; [lia|]. unfold pending. cbn [pending_below bottom_final].
    rewrite app_nil_r. unfold rest, final. cbn [Cursor_start c_rep_bytes c_rep_num c_disp].
    rewrite drop_zero, advance_0, Z.sub_0_r, Z.mul_1_l. split.
    + replace (disps P 0) with (disps P (ext P * 0)) by (by rewrite Z.mul_0_r).
      by rewrite <- (slice_period P 0) by (by apply wf_nonneg || done).
    + by rewrite Z.mul_1_r.
Qed.

(** The function that moves the blocks of a machine. *)
Definition mover big fl user (m : TypeMachine) : Z → Z → Z → mem → res mem :=
  if internal m then InternalMemCopy else call_copy_func big fl user m.

Lemma MemCopy_gather big fl user m : MemCopy big fl user true (internal m) m = mover big fl user m.
Proof. unfold MemCopy, mover. by destruct (internal m). Qed.

Lemma MemCopy_scatter big fl user m :
  MemCopy big fl user false (internal m) m = scatter_move (mover big fl user m).
Proof. unfold MemCopy, mover, scatter_move. by destruct (internal m). Qed.

(** The machine copies: no function, [PAMI_DATA_COPY], or a copy function of the
    table. *)
Definition copies (m : TypeMachine) : Prop :=
  match copy_func m with
  | cf_pointer fn => fn = 0
  | cf_func (f_copy _) => True
  | _ => False
  end.

Lemma mover_moves big fl user m : copies m → moves (mover big fl user m).
Proof.
  unfold copies, mover, internal, call_copy_func. destruct (copy_func m) as [fn|f].
  - intros ->. apply InternalMemCopy_moves.
  - destruct f; try done. intros _. apply memcpy_moves.
Qed.

Lemma within_slice lo hi origin P o n : 0 ≤ n → within lo hi origin (slice P o n) ↔
  ∀ k, o ≤ k < o + n → lo ≤ address origin (stream P k) < hi.
Proof.
  intros Hn. unfold within, slice. setoid_rewrite list_elem_of_fmap. split.
  - intros H k Hk. apply H. exists k. split; [done|]. apply elem_of_seqZ. lia.
  - intros H d (k&->&Hk%elem_of_seqZ). apply H. lia.
Qed.

(** The addresses of typed data: [n] bytes from offset [o]. *)
Definition typed_region (lo hi origin : Z) (P : prog) (o n : Z) : Prop :=
  0 < lo ∧ hi ≤ 2 ^ 64 ∧ ∀ k, o ≤ k < o + n → lo ≤ address origin (stream P k) < hi.

Lemma Pack_spec big fl user h m P o n lo hi target origin : machine_at h m P o →
  copies m → 0 ≤ n → typed_region lo hi origin P o n →
  0 ≤ target → target + n < 2 ^ 64 → target + n ≤ lo ∨ hi ≤ target →
  ∀ fuel s, run_fuel P n ≤ Z.of_nat fuel → ∃ m' s',
    Pack big fl user fuel h m target origin n s = Ok (m', s') ∧ machine_at h m' P (o + n) ∧
    copy_func m' = copy_func m ∧
    (∀ i, 0 ≤ i < n → s' (target + i) = s (address origin (stream P (o + i)))) ∧
    (∀ x, x < target ∨ target + n ≤ x → s' x = s x).
Proof.
  intros Hm Hint Hn (Hlo&Hhi&Hw) Ht Htn Hdis.
  intros fuel s Hfuel.
  destruct (machine_run h m P o n fuel Hm ltac:(lia) Hfuel) as (bs&m'&(He&Htot&Hne)&Hm'&Hcf&Hrun). exists m'.
  apply within_slice in Hw; [|done]. rewrite <- He in Hw.
  destruct (move_all_gather lo hi origin Hlo Hhi _ (mover_moves big fl user m Hint) bs target s
    Hne Hw) as (s'&Hmv&Hin&Hout); try lia.
  exists s'. unfold Pack. rewrite Hrun, MemCopy_gather, Hmv by (apply w64_small; lia).
  split; [done|]. split; [done|]. split; [done|]. rewrite Htot in Hout. split; [|done].
  intros i Hi. replace i with (Z.of_nat (Z.to_nat i)) by lia. apply Hin.
  rewrite He. apply slice_lookup. lia.
Qed.

Lemma Unpack_spec big fl user h m P o n lo hi target origin : machine_at h m P o →
  copies m → 0 ≤ n → typed_region lo hi target P o n →
  (∀ j k, o ≤ j < o + n → o ≤ k < o + n → stream P j = stream P k → j = k) →
  0 ≤ origin → origin + n < 2 ^ 64 → origin + n ≤ lo ∨ hi ≤ origin →
  ∀ fuel s, run_fuel P n ≤ Z.of_nat fuel → ∃ m' s',
    Unpack big fl user fuel h m target origin n s = Ok (m', s') ∧ machine_at h m' P (o + n) ∧
    copy_func m' = copy_func m ∧
    (∀ i, 0 ≤ i < n → s' (address target (stream P (o + i))) = s (origin + i)) ∧
    (∀ x, (∀ i, 0 ≤ i < n → x ≠ address target (stream P (o + i))) → s' x = s x).
Proof.
  intros Hm Hint Hn (Hlo&Hhi&Hw) Hinj Ht Htn Hdis.
  intros fuel s Hfuel.
  destruct (machine_run h m P o n fuel Hm ltac:(lia) Hfuel) as (bs&m'&(He&Htot&Hne)&Hm'&Hcf&Hrun). exists m'.
  apply within_slice in Hw; [|done]. rewrite <- He in Hw.
  assert (Hnd : NoDup (map (address target) (expand bs))).
  { rewrite He. unfold slice. rewrite map_map. apply NoDup_fmap_2_strong; [|apply NoDup_seqZ].
    intros j k Hj%elem_of_seqZ Hk%elem_of_seqZ Hjk. apply Hinj; [lia|lia|].
    unfold address in Hjk. rewrite <- (w64_small (stream P j)), <- (w64_small (stream P k))
      by apply stream_range. change (stream P j ≡₆₄ stream P k).
    replace (stream P j) with (target + stream P j - target) by lia.
    replace (stream P k) with (target + stream P k - target) by lia.
    assert (target + stream P j ≡₆₄ target + stream P k) as -> by done. done. }
  destruct (move_all_scatter lo hi target Hlo Hhi _ (mover_moves big fl user m Hint) bs origin s
    Hne Hw Hnd)
    as (s'&Hmv&Hin&Hout); try lia.
  exists s'. unfold Unpack. rewrite Hrun, MemCopy_scatter, Hmv by (apply w64_small; lia).
  split; [done|]. split; [done|]. split; [done|]. split.
  - intros i Hi. replace (origin + i) with (origin + Z.of_nat (Z.to_nat i)) by lia. apply Hin.
    rewrite He, slice_lookup by lia. f_equal. f_equal. lia.
  - intros x Hx. apply Hout. rewrite He. unfold slice. rewrite map_map.
    intros (k&->&Hk%elem_of_seqZ)%list_elem_of_fmap.
    apply (Hx (k - o)); [lia|]. do 2 f_equal. lia.
Qed.

(** ** Decision procedures, for concrete layouts *)

Definition typed_regionb (lo hi origin : Z) (P : prog) (o n : Z) : bool :=
  (0 <? lo) && (hi <=? 2 ^ 64) &&
  forallb (λ d, (lo <=? address origin d) && (address origin d <? hi)) (slice P o n).

Lemma typed_regionb_spec lo hi origin P o n : 0 ≤ n →
  typed_regionb lo hi origin P o n = true → typed_region lo hi origin P o n.
Proof.
  intros Hn. unfold typed_regionb. rewrite !andb_true_iff, forallb_forall, Z.ltb_lt, Z.leb_le.
  intros [[Hlo Hhi] Hall]. split; [done|]. split; [done|]. apply within_slice; [done|].
  intros d Hd%list_elem_of_In. specialize (Hall d Hd). apply andb_prop in Hall as [? ?]. lia.
Qed.

Lemma stream_injective P o n : bool_decide (NoDup (slice P o n)) = true →
  ∀ j k, o ≤ j < o + n → o ≤ k < o + n → stream P j = stream P k → j = k.
Proof.
  intros Hnd%bool_decide_eq_true j k Hj Hk Heq.
  assert (Z.to_nat (j - o) = Z.to_nat (k - o)) as He; [|lia].
  eapply NoDup_lookup; [exact Hnd| |]; rewrite slice_lookup by lia; [reflexivity|].
  f_equal. replace (o + Z.of_nat (Z.to_nat (k - o))) with k by lia.
  replace (o + Z.of_nat (Z.to_nat (j - o))) with j by lia. done.
Qed.
