(* ===== verification/TypeMachineProps.v ===== *)
(** The properties of the type machine (src/common/type/TypeMachine.h): its
    constructors, the transfers, the cursor and the enumeration of blocks, each
    with an instance on concrete objects. *)
From S2P Require Import Prelude.
From S2P Require Import Layout.
From S2P Require Import Memory.
From S2P Require Import TypeCode.
From S2P Require Import TypeCodeSpec.
From S2P Require Import TypeComplete.
From S2P Require Import TypeBuild.
From S2P Require Import TypeFunc.
From S2P Require Import TypeMachine.
From S2P Require Import TypeMachineSpec.
From S2P Require Import TypeCursorSpec.
From S2P Require Import TypeTransfer.

(** * Constructors *)

(** Objects that differ in their counters and their buffers only. *)
Definition same_code (t t' : TypeCode) : Prop :=
  tc_begin t' = tc_begin t ∧ tc_body t' = tc_body t ∧ completed t' = completed t.

#[local] Instance same_code_preorder : PreOrder same_code.
Proof.
  split; [by intros t|]. intros t1 t2 t3 (?&?&?) (?&?&?). repeat split; congruence.
Qed.

Lemma same_code_denotes t t' P : same_code t t' → type_denotes t P → type_denotes t' P.
Proof.
  intros (Hb&Hbody&Hc) []. split; unfold type_code, GetDataSize, GetExtent, GetNumBlocks,
    GetUnit, GetDepth, GetCodeSize, IsSimple, IsContiguous in *; by rewrite ?Hb, ?Hbody, ?Hc.
Qed.

Lemma same_code_eq t t' : same_code t t' →
  type_code t' = type_code t ∧ IsContiguous t' = IsContiguous t ∧ GetDepth t' = GetDepth t.
Proof.
  intros (Hb&Hbody&Hc). unfold type_code, IsContiguous, GetDepth. by rewrite Hb, Hbody.
Qed.

Lemma acquire_same t : same_code t (AcquireReference t).
Proof. done. Qed.

(** The program a machine runs for a type of program [P]. *)
Definition CONTIG_MAX_SIZE : Z := 2 ^ 64 - 1.
Definition contig_prog : prog := PCopy CONTIG_MAX_SIZE CONTIG_MAX_SIZE 1 PEnd.
Definition run_prog (t : TypeCode) (P : prog) : prog := if IsContiguous t then contig_prog else P.

(** Running a contiguous type as the maximal one does not change its stream. *)
Lemma run_prog_stream t P k : type_denotes t P → 0 < psize P → 0 ≤ k →
  stream (run_prog t P) k = stream P k.
Proof.
  intros Ht Hpos Hk. unfold run_prog. destruct (IsContiguous t) eqn:Hc; [|done].
  destruct (td_contiguous _ _ Ht Hc) as (_&n&->). cbn in Hpos.
  unfold contig_prog. by rewrite (stream_contiguous CONTIG_MAX_SIZE), (stream_contiguous n) by (done || lia).
Qed.

(** The objects the program has: [PAMI_TYPE_CONTIG_MAX] is there. *)
Definition has_contig_max (contig_max : Z) (h : heap) : Prop :=
  ∃ t, h !! contig_max = Some t ∧ type_denotes t contig_prog.

(** A completed object that denotes [P]. *)
Definition has_type (h : heap) (a : Z) (P : prog) : Prop :=
  ∃ t, h !! a = Some t ∧ type_denotes t P.

Lemma machine_on_spec contig_max h a t P cap : has_contig_max contig_max h →
  h !! a = Some t → type_denotes t P → 0 < psize P →
  ∃ m, machine_on contig_max h a cap = Ok (h, m) ∧ machine_at h m (run_prog t P) 0 ∧
    copies m ∧ GetType m = a ∧ cap ≤ stack_cap m.
Proof.
  intros (tc&Htc&Hdc) Ha Hden Hpos. unfold machine_on. rewrite Ha. cbn [of_option].
  rewrite bind_ret. unfold run_prog. destruct (IsContiguous t).
  - rewrite Htc. cbn [of_option]. rewrite bind_ret, (td_depth _ _ Hdc).
    destruct (Z.leb_spec (pdepth contig_prog) cap);
      (eexists; split; [reflexivity|]; split; [|split; [done|split; [done|cbn in *; lia]]]);
      eapply machine_at_fresh; cbn [tm_type stack stack_cap]; done || (cbn; lia).
  - rewrite Ha. cbn [of_option]. rewrite bind_ret, (td_depth _ _ Hden).
    destruct (Z.leb_spec (pdepth P) cap);
      (eexists; split; [reflexivity|]; split; [|split; [done|split; [done|cbn in *; lia]]]);
      eapply machine_at_fresh; cbn [tm_type stack stack_cap]; done || lia.
Qed.

Lemma has_contig_max_insert contig_max h a t t' : has_contig_max contig_max h →
  h !! a = Some t → same_code t t' → has_contig_max contig_max (<[a := t']> h).
Proof.
  intros (tc&Htc&Hdc) Ha Hs. destruct (decide (a = contig_max)) as [->|Hne].
  - rewrite Htc in Ha. injection Ha as <-. exists t'. rewrite lookup_insert_eq.
    split; [done|by eapply same_code_denotes].
  - exists tc. by rewrite lookup_insert_ne.
Qed.

Lemma TypeMachine_new_spec contig_max h a t P : has_contig_max contig_max h →
  h !! a = Some t → type_denotes t P → 0 < psize P →
  ∃ m, TypeMachine_new contig_max h a = Ok (<[a := AcquireReference t]> h, m) ∧
    machine_at (<[a := AcquireReference t]> h) m (run_prog t P) 0 ∧
    copies m ∧ GetType m = a ∧ SMALL_STACK_DEPTH ≤ stack_cap m.
Proof.
  intros Hcm Ha Hden Hpos. unfold TypeMachine_new, acquire. rewrite Ha. cbn [of_option].
  rewrite bind_ret. unfold IsCompleted. rewrite (td_completed _ _ Hden). cbn [assert].
  rewrite bind_ret.
  change (run_prog t P) with (run_prog (AcquireReference t) P).
  pose proof (acquire_same t) as Hs. apply machine_on_spec.
  - by eapply has_contig_max_insert.
  - apply lookup_insert_eq.
  - by eapply same_code_denotes.
  - done.
Qed.

(** * [SetType] *)

Lemma release_spec h a t : h !! a = Some t → 1 < ref_cnt t →
  ∃ t', release h a = Ok (<[a := t']> h) ∧ ref_cnt t' = ref_cnt t - 1 ∧ same_code t t'.
Proof.
  intros Ha Hr. unfold release, ReleaseReference. rewrite Ha. cbn [of_option]. rewrite bind_ret.
  rewrite (proj2 (Z.ltb_lt 0 _)), (proj2 (Z.eqb_neq (ref_cnt t) 1)) by lia. cbn [assert].
  eexists. split; [reflexivity|]. done.
Qed.

(** The objects after [SetType] took the new type and let the old one go. *)
Lemma swap_references h old new told tnew : h !! old = Some told → 1 < ref_cnt told →
  h !! new = Some tnew →
  ∃ h' told' tnew', (h ← acquire h new; release h old) = Ok h' ∧
    h' !! old = Some told' ∧ same_code told told' ∧ h' !! new = Some tnew' ∧
    same_code tnew tnew' ∧ ∀ cm, has_contig_max cm h → has_contig_max cm h'.
Proof.
  intros Hold Hr Hnew. unfold acquire. rewrite Hnew. cbn [of_option]. rewrite !bind_ret.
  set (h1 := <[new := AcquireReference tnew]> h).
  assert (∃ told1, h1 !! old = Some told1 ∧ 1 < ref_cnt told1 ∧ same_code told told1)
    as (told1&Hold1&Hr1&Hs1).
  { subst h1. destruct (decide (new = old)) as [->|Hne].
    - rewrite Hold in Hnew. injection Hnew as <-. exists (AcquireReference told).
      rewrite lookup_insert_eq. split; [done|]. split; [cbn; lia|done].
    - exists told. by rewrite lookup_insert_ne. }
  destruct (release_spec h1 old told1 Hold1 Hr1) as (told2&Hrel&_&Hs2).
  assert (∃ tnew2, <[old := told2]> h1 !! new = Some tnew2 ∧ same_code tnew tnew2)
    as (tnew2&Hnew2&Hsn).
  { destruct (decide (new = old)) as [->|Hne].
    - rewrite Hold in Hnew. injection Hnew as <-. exists told2. rewrite lookup_insert_eq.
      split; [done|]. by etrans.
    - exists (AcquireReference tnew). rewrite lookup_insert_ne by done. subst h1.
      by rewrite lookup_insert_eq. }
  exists (<[old := told2]> h1), told2, tnew2. split; [exact Hrel|].
  split; [apply lookup_insert_eq|]. split; [by etrans|]. split; [done|]. split; [done|].
  intros cm Hcm. eapply has_contig_max_insert; [|done|done].
  eapply has_contig_max_insert; [done|done|done].
Qed.

Lemma SetType_spec contig_max h m new told tnew P : has_contig_max contig_max h →
  h !! GetType m = Some told → 1 < ref_cnt told → SMALL_STACK_DEPTH ≤ stack_cap m →
  GetDepth told ≤ stack_cap m → new ≠ contig_max →
  h !! new = Some tnew → type_denotes tnew P → 0 < psize P →
  ∃ h' m', SetType contig_max h m new = Ok (h', m') ∧ machine_at h' m' (run_prog tnew P) 0 ∧
    GetType m' = new ∧ SMALL_STACK_DEPTH ≤ stack_cap m' ∧ copy_func m' = copy_func m.
Proof.
  intros Hcm Hold Hr Hsmall Hdep Hne Hnew Hden Hpos. unfold SetType.
  destruct (swap_references h (GetType m) new told tnew Hold Hr Hnew)
    as (h'&told'&tnew'&Hswap&Hold'&Hso&Hnew'&Hsn&Hcm'). specialize (Hcm' _ Hcm).
  rewrite Hnew. cbn [of_option]. rewrite bind_ret. unfold IsCompleted.
  rewrite (td_completed _ _ Hden), (proj2 (Z.eqb_neq new contig_max)) by done.
  cbn [negb andb assert]. rewrite bind_ret. cbv zeta.
  apply bind_Ok in Hswap as (h1&Hacq&Hrel). rewrite Hacq, bind_ret, Hrel, bind_ret.
  destruct (same_code_eq _ _ Hso) as (_&_&Hdo). destruct (same_code_eq _ _ Hsn) as (Hcn&Hcontn&Hdn).
  pose proof (same_code_denotes _ _ _ Hsn Hden) as Hden'. destruct Hcm' as (tc&Htc&Hdc).
  unfold SMALL_STACK_DEPTH in *. unfold run_prog. destruct (IsContiguous tnew) eqn:Hcont.
  - rewrite Htc. cbn [of_option]. rewrite bind_ret, Hold'. cbn [of_option]. rewrite bind_ret.
    rewrite (td_depth _ _ Hdc). cbn [pdepth contig_prog].
    rewrite (proj2 (Z.ltb_ge 4 1)), andb_false_r by lia. rewrite (proj2 (Z.ltb_lt 0 _)) by lia.
    cbn [defined]. rewrite bind_ret. eexists h', _. split; [reflexivity|].
    split; [|split; [done|split; [done|done]]].
    eapply machine_at_fresh; cbn [tm_type stack stack_cap]; done || (cbn; lia).
  - rewrite Hnew'. cbn [of_option]. rewrite bind_ret, Hold'. cbn [of_option]. rewrite bind_ret.
    rewrite Hdn, Hdo, (td_depth _ _ Hden). pose proof (pdepth_pos P).
    destruct (Z.ltb_spec (GetDepth told) (pdepth P)), (Z.ltb_spec 4 (pdepth P)); cbn [andb];
      (rewrite (proj2 (Z.ltb_lt 0 _)) by lia); cbn [defined]; rewrite bind_ret;
      (eexists h', _; split; [reflexivity|]; split; [|split; [done|split; [cbn; lia|done]]]);
      (eapply machine_at_fresh; cbn [tm_type stack stack_cap];
        [exact Hnew'|done|done|lia|done]).
Qed.

(** * Cursor and blocks *)

Lemma MoveCursor_machine h m P o N : machine_at h m P o → o < 2 ^ 64 → 0 ≤ N →
  (N / psize P + 1) * psize P < 2 ^ 64 →
  ∀ fuel, ops P ≤ Z.of_nat fuel → ∃ m', MoveCursor fuel h m N = Ok m' ∧ machine_at h m' P N ∧
    copy_func m' = copy_func m ∧ GetType m' = GetType m.
Proof.
  intros (t&c&p&b&Ht&Hden&Hpos&Hcap&Hstk&Hinv) Ho HN Hbig fuel Hf. pose proof (ops_pos P).
  destruct (MoveCursor_spec (type_code t) P (stack_cap m) (td_code_small _ _ Hden) fuel t o c p b N (td_wf _ _ Hden)
    (conj Hpos (td_small _ _ Hden)) Hcap eq_refl Hden Hinv Ho HN Hbig)
    as (c'&p'&b'&Hrun&Hinv'); [lia|].
  exists (set_stack m (cursors c' b')). unfold MoveCursor. rewrite Ht. cbn [of_option].
  rewrite bind_ret, Hstk, Hrun. split; [done|]. split; [|done].
  exists t, c', p', b'. do 5 (split; [done|]). done.
Qed.

Lemma GetCursor_machine h m P o : machine_at h m P o → GetCursor m = Ok (w64 o).
Proof.
  intros (t&c&p&b&_&_&_&_&Hstk&Hinv). unfold GetCursor. rewrite Hstk. cbn [cursors].
  by rewrite (proj2 (iv_offset _ _ _ _ _ _ _ Hinv)).
Qed.

(** At the start of a block, as the constructors and the enumerations leave it. *)
Definition at_block (m : TypeMachine) : Prop :=
  match stack m with c :: _ => c_rep_bytes c = 0 | [] => False end.

Lemma EnumerateBlocks_machine h m P o n : machine_at h m P o → at_block m → 0 < n ≤ INT_MAX →
  ∀ fuel, run_fuel P n ≤ Z.of_nat fuel → ∃ m' bs, EnumerateBlocks fuel h m n = Ok (m', bs) ∧
    covers P o (total bs) bs ∧ Z.of_nat (length bs) = n ∧ sizes_fit bs ∧
    machine_at h m' P (o + total bs) ∧ at_block m' ∧ GetType m' = GetType m.
Proof.
  intros (t&c&p&b&Ht&Hden&Hpos&Hcap&Hstk&Hinv) Hblk Hn fuel Hf. unfold run_fuel in Hf.
  pose proof (enum_steps_le (type_code t) P (stack_cap m) (td_wf _ _ Hden) o c p b n Hinv
    ltac:(lia)).
  unfold at_block in Hblk. rewrite Hstk in Hblk. cbn [cursors] in Hblk.
  destruct (EnumerateBlocks_spec (type_code t) P (stack_cap m) (td_code_small _ _ Hden) (td_wf _ _ Hden)
    (conj Hpos (td_small _ _ Hden)) Hcap (td_code _ _ Hden) fuel o c p b n 0 Hinv Hblk)
    as (bs&c'&p'&b'&Hrun&Hinv'&Hrb'&Hcov&Hlen&Hfit); try lia.
  exists (set_stack m (cursors c' b')), bs. unfold EnumerateBlocks. rewrite Ht. cbn [of_option].
  rewrite bind_ret, Hstk, Hrun. do 4 (split; [done|]). split; [|done].
  exists t, c', p', b'. do 5 (split; [done|]). done.
Qed.

Lemma GetContigBytes_machine h m P o : machine_at h m P o →
  ∀ fuel, run_fuel P 1 ≤ Z.of_nat fuel → ∃ m' n, GetContigBytes fuel h m = Ok (m', n) ∧
    machine_at h m' P o ∧ 0 < n.
Proof.
  intros (t&c&p&b&Ht&Hden&Hpos&Hcap&Hstk&Hinv) fuel Hf. unfold run_fuel in Hf.
  pose proof (enum_steps_le (type_code t) P (stack_cap m) (td_wf _ _ Hden) o c p b 1 Hinv
    ltac:(lia)).
  destruct (GetContigBytes_spec (type_code t) P (stack_cap m) (td_code_small _ _ Hden) (td_wf _ _ Hden)
    (conj Hpos (td_small _ _ Hden)) Hcap (td_code _ _ Hden) fuel o c p b Hinv)
    as (c'&b'&bb&st&r&k&n&Hrun&Hinv'&_&Hn); [lia|].
  exists (set_stack m (cursors c' b')), n. unfold GetContigBytes. rewrite Ht. cbn [of_option].
  rewrite bind_ret, Hstk, Hrun. split; [done|]. split; [|done].
  exists t, c', (PCopy bb st r k), b'. do 5 (split; [done|]). done.
Qed.

(** * Concrete objects *)

(** [PAMI_TYPE_CONTIG_MAX], at address 2000, and the type of TypeBuild.v at 1000,
    held by its creator and by another. *)
Definition contig_max_type : TypeCode :=
  Eval vm_compute in match TypeContig_atom quiet 1 with Ok t => t | Err _ => demo_type end.

Definition held_type : TypeCode := AcquireReference (AcquireReference demo_type).

Definition demo_objects : heap := <[2000 := contig_max_type]> {[1000 := held_type]}.

Lemma contig_max_denotes : type_denotes contig_max_type contig_prog.
Proof.
  split; try done; try (by vm_compute).
  - eapply at_Copy; [reflexivity|]. by eapply at_End.
  - cbn. eauto 10.
  - cbn. eauto.
Qed.

Lemma demo_contig_max : has_contig_max 2000 demo_objects.
Proof.
  exists contig_max_type. split; [apply lookup_insert_eq|]. apply contig_max_denotes.
Qed.

Lemma demo_held : demo_objects !! 1000 = Some held_type.
Proof. reflexivity. Qed.

Lemma held_denotes : type_denotes held_type demo_prog.
Proof. by eapply same_code_denotes, demo_denotes. Qed.

(** A machine over it. *)
Definition demo_machine : TypeMachine :=
  mkMachine 1000 None 0 (cf_pointer 0) [Cursor_start] 4 false.

Lemma demo_machine_at : machine_at demo_objects demo_machine demo_prog 0.
Proof.
  eapply machine_at_fresh; [apply demo_held|apply held_denotes|reflexivity|vm_compute; congruence|].
  reflexivity.
Qed.

(** * Properties *)

Section properties.
Context (big : bool) (fl : float_ops) (user : Z → Z → Z → Z → Z → mem → res mem).

(** C4. [Pack] gathers: over a machine at offset [o], packing [n] bytes of typed
    data that lies in memory apart from the buffer ends for any large enough
    fuel, without assertion failure or access outside of the code or the stack;
    byte [i] of the buffer is the byte of the typed data at the displacement of
    byte [o + i] of the type's layout repeated for ever, nothing else changes,
    and the machine is at offset [o + n]. *)
Theorem pack_correct (h : heap) (m : TypeMachine) (P : prog) (o n lo hi target origin : Z)
  (Hm : machine_at h m P o) (Hint : copies m) (Hn : 0 ≤ n)
  (Htyped : typed_region lo hi origin P o n) (Ht : 0 ≤ target) (Htn : target + n < 2 ^ 64)
  (Hdis : target + n ≤ lo ∨ hi ≤ target) :
  ∀ fuel s, run_fuel P n ≤ Z.of_nat fuel → ∃ m' s',
    Pack big fl user fuel h m target origin n s = Ok (m', s') ∧ machine_at h m' P (o + n) ∧
    copy_func m' = copy_func m ∧
    (∀ i, 0 ≤ i < n → s' (target + i) = s (address origin (stream P (o + i)))) ∧
    (∀ x, x < target ∨ target + n ≤ x → s' x = s x).
Proof. by eapply Pack_spec. Qed.

(** C5. [Unpack] scatters: the converse, for a part of the layout that visits no
    byte twice. *)
Theorem unpack_correct (h : heap) (m : TypeMachine) (P : prog) (o n lo hi target origin : Z)
  (Hm : machine_at h m P o) (Hint : copies m) (Hn : 0 ≤ n)
  (Htyped : typed_region lo hi target P o n)
  (Hinj : ∀ j k, o ≤ j < o + n → o ≤ k < o + n → stream P j = stream P k → j = k)
  (Ho : 0 ≤ origin) (Hon : origin + n < 2 ^ 64) (Hdis : origin + n ≤ lo ∨ hi ≤ origin) :
  ∀ fuel s, run_fuel P n ≤ Z.of_nat fuel → ∃ m' s',
    Unpack big fl user fuel h m target origin n s = Ok (m', s') ∧ machine_at h m' P (o + n) ∧
    copy_func m' = copy_func m ∧
    (∀ i, 0 ≤ i < n → s' (address target (stream P (o + i))) = s (origin + i)) ∧
    (∀ x, (∀ i, 0 ≤ i < n → x ≠ address target (stream P (o + i))) → s' x = s x).
Proof. by eapply Unpack_spec. Qed.

(** C6. Packing then unpacking moves the typed data: through a buffer, from the
    typed data at [origin] to the typed data at [dest], each byte of the layout
    arrives where it was. *)
Theorem pack_unpack (h : heap) (m1 m2 : TypeMachine) (P : prog)
  (o n lo hi lo' hi' buffer origin dest : Z)
  (H1 : machine_at h m1 P o) (H2 : machine_at h m2 P o)
  (Hi1 : copies m1) (Hi2 : copies m2) (Hn : 0 ≤ n)
  (Hsrc : typed_region lo hi origin P o n) (Hdst : typed_region lo' hi' dest P o n)
  (Hinj : ∀ j k, o ≤ j < o + n → o ≤ k < o + n → stream P j = stream P k → j = k)
  (Hb : 0 ≤ buffer) (Hbn : buffer + n < 2 ^ 64) (Hbs : buffer + n ≤ lo ∨ hi ≤ buffer)
  (Hbd : buffer + n ≤ lo' ∨ hi' ≤ buffer) :
  ∀ fuel s, run_fuel P n ≤ Z.of_nat fuel → ∃ m1' m2' s1 s2,
    Pack big fl user fuel h m1 buffer origin n s = Ok (m1', s1) ∧
    Unpack big fl user fuel h m2 dest buffer n s1 = Ok (m2', s2) ∧
    ∀ k, o ≤ k < o + n → s2 (address dest (stream P k)) = s (address origin (stream P k)).
Proof.
  intros fuel s Hf.
  destruct (Pack_spec big fl user h m1 P o n lo hi buffer origin H1 Hi1 Hn Hsrc Hb Hbn Hbs fuel s Hf)
    as (m1'&s1&Hp&_&_&Hin&_).
  destruct (Unpack_spec big fl user h m2 P o n lo' hi' dest buffer H2 Hi2 Hn Hdst Hinj Hb Hbn Hbd
    fuel s1 Hf) as (m2'&s2&Hu&_&_&Hin'&_).
  exists m1', m2', s1, s2. split; [done|]. split; [done|]. intros k Hk.
  replace k with (o + (k - o)) by lia. rewrite Hin', Hin by lia. done.
Qed.

End properties.

(** A concrete target: no floating point, no functions of clients. *)
Definition no_float : float_ops :=
  mkFloatOps (λ _ _ _, false) (λ _ a _, a) (λ _ a _, a) (λ _ a _, a).
Definition no_user (fn to from size ck : Z) (s : mem) : res mem := Err Fault.

Definition demo_mem : mem := λ a, a `mod` 256.

Lemma demo_fuel n : 0 ≤ n ≤ 40 → run_fuel demo_prog n ≤ Z.of_nat 1000.
Proof.
  unfold run_fuel. assert (0 ≤ steps demo_prog ≤ 20) by (split; vm_compute; discriminate). nia.
Qed.

Lemma demo_region origin : origin = 4096 ∨ origin = 12288 →
  typed_region 4096 16384 origin demo_prog 0 40.
Proof. intros [-> | ->]; (apply typed_regionb_spec; [lia|vm_compute; reflexivity]). Qed.

Lemma demo_injective j k : 0 ≤ j < 0 + 40 → 0 ≤ k < 0 + 40 →
  stream demo_prog j = stream demo_prog k → j = k.
Proof. apply stream_injective. vm_compute. reflexivity. Qed.

Lemma pack_correct_witness : ∃ m' s',
  Pack false no_float no_user 1000%nat demo_objects demo_machine 65536 4096 40 demo_mem = Ok (m', s') ∧
  machine_at demo_objects m' demo_prog (0 + 40) ∧ copy_func m' = cf_pointer 0 ∧
  (∀ i, 0 ≤ i < 40 → s' (65536 + i) = demo_mem (address 4096 (stream demo_prog (0 + i)))) ∧
  (∀ x, x < 65536 ∨ 65536 + 40 ≤ x → s' x = demo_mem x).
Proof.
  apply (pack_correct false no_float no_user demo_objects demo_machine demo_prog 0 40 4096 16384
    65536 4096 demo_machine_at eq_refl ltac:(lia) (demo_region 4096 (or_introl eq_refl))); [lia|lia|lia|by apply demo_fuel].
Defined.

Lemma unpack_correct_witness : ∃ m' s',
  Unpack false no_float no_user 1000%nat demo_objects demo_machine 4096 65536 40 demo_mem = Ok (m', s') ∧
  machine_at demo_objects m' demo_prog (0 + 40) ∧ copy_func m' = cf_pointer 0 ∧
  (∀ i, 0 ≤ i < 40 → s' (address 4096 (stream demo_prog (0 + i))) = demo_mem (65536 + i)) ∧
  (∀ x, (∀ i, 0 ≤ i < 40 → x ≠ address 4096 (stream demo_prog (0 + i))) → s' x = demo_mem x).
Proof.
  apply (unpack_correct false no_float no_user demo_objects demo_machine demo_prog 0 40 4096 16384
    4096 65536 demo_machine_at eq_refl ltac:(lia) (demo_region 4096 (or_introl eq_refl))
    demo_injective); [lia|lia|lia|by apply demo_fuel].
Defined.

Lemma pack_unpack_witness : ∃ m1' m2' s1 s2,
  Pack false no_float no_user 1000%nat demo_objects demo_machine 65536 4096 40 demo_mem = Ok (m1', s1) ∧
  Unpack false no_float no_user 1000%nat demo_objects demo_machine 12288 65536 40 s1 = Ok (m2', s2) ∧
  ∀ k, 0 ≤ k < 0 + 40 →
    s2 (address 12288 (stream demo_prog k)) = demo_mem (address 4096 (stream demo_prog k)).
Proof.
  apply (pack_unpack false no_float no_user demo_objects demo_machine demo_machine demo_prog 0 40
    4096 16384 4096 16384 65536 4096 12288 demo_machine_at demo_machine_at eq_refl eq_refl
    ltac:(lia) (demo_region 4096 (or_introl eq_refl)) (demo_region 12288 (or_intror eq_refl))
    demo_injective); [lia|lia|lia|lia|by apply demo_fuel].
Defined.

(** The constructor of the machine: on a completed object it takes a
    reference and is at the start of the type's stream.  A contiguous type is
    run as [PAMI_TYPE_CONTIG_MAX], whose stream is the same. *)
Theorem machine_new_correct (contig_max : Z) (h : heap) (a : Z) (t : TypeCode) (P : prog)
  (Hcm : has_contig_max contig_max h) (Ha : h !! a = Some t) (Ht : type_denotes t P)
  (Hpos : 0 < psize P) :
  ∃ m, TypeMachine_new contig_max h a = Ok (<[a := AcquireReference t]> h, m) ∧
    machine_at (<[a := AcquireReference t]> h) m (run_prog t P) 0 ∧
    (∀ k, 0 ≤ k → stream (run_prog t P) k = stream P k) ∧
    copies m ∧ GetType m = a ∧ SMALL_STACK_DEPTH ≤ stack_cap m.
Proof.
  destruct (TypeMachine_new_spec contig_max h a t P) as (m&?&?&?&?&?); try done.
  exists m. eauto 10 using run_prog_stream.
Qed.

Lemma machine_new_correct_witness : ∃ m,
  TypeMachine_new 2000 demo_objects 1000 =
    Ok (<[1000 := AcquireReference held_type]> demo_objects, m) ∧
  machine_at (<[1000 := AcquireReference held_type]> demo_objects) m demo_prog 0 ∧
  (∀ k, 0 ≤ k → stream demo_prog k = stream demo_prog k) ∧
  copies m ∧ GetType m = 1000 ∧ 4 ≤ stack_cap m.
Proof.
  apply (machine_new_correct 2000 demo_objects 1000 held_type demo_prog demo_contig_max demo_held
    held_denotes). vm_compute. reflexivity.
Defined.

(** [MoveCursor] seeks: for any offset whose period fits a [size_t], the
    machine is at that offset of the same stream, whatever offset it was at. *)
Theorem move_cursor_correct (h : heap) (m : TypeMachine) (P : prog) (o N : Z)
  (Hm : machine_at h m P o) (Ho : o < 2 ^ 64) (HN : 0 ≤ N)
  (Hfit : (N / psize P + 1) * psize P < 2 ^ 64) :
  ∀ fuel, ops P ≤ Z.of_nat fuel → ∃ m', MoveCursor fuel h m N = Ok m' ∧
    machine_at h m' P N ∧ copy_func m' = copy_func m ∧ GetType m' = GetType m.
Proof. by eapply MoveCursor_machine. Qed.

Lemma move_cursor_correct_witness : ∃ m', MoveCursor 1000%nat demo_objects demo_machine 53 = Ok m' ∧
    machine_at demo_objects m' demo_prog 53 ∧ copy_func m' = cf_pointer 0 ∧ GetType m' = 1000.
Proof.
  apply (move_cursor_correct demo_objects demo_machine demo_prog 0 53 demo_machine_at);
    [lia|lia|vm_compute; reflexivity|vm_compute; discriminate].
Defined.

(** [EnumerateBlocks] reports [count] non-empty blocks that cover the stream
    from the cursor on, and leaves the machine after them. *)
Theorem enumerate_blocks_correct (h : heap) (m : TypeMachine) (P : prog) (o count : Z)
  (Hm : machine_at h m P o) (Hb : at_block m) (Hc : 0 < count ≤ INT_MAX) :
  ∀ fuel, run_fuel P count ≤ Z.of_nat fuel → ∃ m' bs, EnumerateBlocks fuel h m count = Ok (m', bs) ∧
    covers P o (total bs) bs ∧ Z.of_nat (length bs) = count ∧
    machine_at h m' P (o + total bs) ∧ at_block m'.
Proof.
  intros fuel Hf. destruct (EnumerateBlocks_machine h m P o count Hm Hb Hc fuel Hf)
    as (m'&bs&?&?&?&_&?&?&_). by exists m', bs.
Qed.

Lemma enumerate_blocks_correct_witness : ∃ m' bs,
  EnumerateBlocks 1000%nat demo_objects demo_machine 5 = Ok (m', bs) ∧
  covers demo_prog 0 (total bs) bs ∧ Z.of_nat (length bs) = 5 ∧
  machine_at demo_objects m' demo_prog (0 + total bs) ∧ at_block m'.
Proof.
  apply (enumerate_blocks_correct demo_objects demo_machine demo_prog 0 5 demo_machine_at);
    [done|unfold INT_MAX; lia|by apply demo_fuel].
Defined.

(** [SetType]: a machine whose old type stays referenced, and whose stack
    holds four cursors and the old type's depth, is at the start of the new
    type's stream; its stack is deep enough for it. *)
Theorem set_type_correct (contig_max : Z) (h : heap) (m : TypeMachine) (new : Z)
  (told tnew : TypeCode) (P : prog) (Hcm : has_contig_max contig_max h)
  (Hold : h !! GetType m = Some told) (Href : 1 < ref_cnt told)
  (Hsmall : SMALL_STACK_DEPTH ≤ stack_cap m) (Hdep : GetDepth told ≤ stack_cap m)
  (Hne : new ≠ contig_max) (Hnew : h !! new = Some tnew) (Hden : type_denotes tnew P)
  (Hpos : 0 < psize P) :
  ∃ h' m', SetType contig_max h m new = Ok (h', m') ∧
    machine_at h' m' (run_prog tnew P) 0 ∧ GetType m' = new ∧
    SMALL_STACK_DEPTH ≤ stack_cap m' ∧ copy_func m' = copy_func m.
Proof. by eapply SetType_spec. Qed.

Lemma set_type_correct_witness : ∃ h' m', SetType 2000 demo_objects demo_machine 1000 = Ok (h', m') ∧
  machine_at h' m' demo_prog 0 ∧ GetType m' = 1000 ∧ 4 ≤ stack_cap m' ∧
  copy_func m' = cf_pointer 0.
Proof.
  apply (set_type_correct 2000 demo_objects demo_machine 1000 held_type held_type demo_prog
    demo_contig_max demo_held); try done; try exact held_denotes; cbn; lia.
Defined.

(** [GetContigBytes] finds data: it executes up to the next copy without
    skipping any byte, and returns a positive number. *)
Theorem get_contig_bytes_progress (h : heap) (m : TypeMachine) (P : prog) (o : Z)
  (Hm : machine_at h m P o) :
  ∀ fuel, run_fuel P 1 ≤ Z.of_nat fuel → ∃ m' n, GetContigBytes fuel h m = Ok (m', n) ∧
    machine_at h m' P o ∧ 0 < n.
Proof. by eapply GetContigBytes_machine. Qed.

Lemma get_contig_bytes_progress_witness : ∃ m' n,
  GetContigBytes 1000%nat demo_objects demo_machine = Ok (m', n) ∧
  machine_at demo_objects m' demo_prog 0 ∧ 0 < n.
Proof.
  apply (get_contig_bytes_progress demo_objects demo_machine demo_prog 0 demo_machine_at).
  by apply demo_fuel.
Defined.

(** What [GetContigBytes] returns is not a number of contiguous bytes: on two
    8-byte blocks 16 bytes apart it returns 16, and the ninth byte is not next
    to the eighth. *)
Theorem get_contig_bytes_not_contiguous :
  (∃ m', GetContigBytes 8 demo_objects demo_machine = Ok (m', 16)) ∧
  machine_at demo_objects demo_machine demo_prog 0 ∧
  stream demo_prog 8 ≠ stream demo_prog 7 + 1.
Proof.
  split; [eexists; vm_compute; reflexivity|]. split; [apply demo_machine_at|].
  vm_compute. discriminate.
Qed.

(** A type of two nested calls needs three cursors. *)
Definition deep_type : TypeCode :=
  Eval vm_compute in match build quiet demo_objects [add_typed 1000 64 2; add_simple 4 8 2] with
                     | Ok t => AcquireReference (AcquireReference t)
                     | Err _ => demo_type
                     end.

Definition deep_objects : heap := <[3000 := deep_type]> demo_objects.

(** [SetType] does not grow a custom stack of less than four cursors: after
    it a type that needs two cursors overflows a stack of one. *)
Theorem set_type_overflows_custom_stack :
  ∃ h m h' m', TypeMachine_custom 2000 deep_objects 1000 cursor_size = Ok (h, m) ∧
    SetType 2000 h m 3000 = Ok (h', m') ∧ stack_cap m' < GetDepth deep_type ∧
    Pack false no_float no_user 50 h' m' 65536 4096 8 (λ _, 0) = Err Fault.
Proof.
  eexists _, _, _, _. split; [reflexivity|]. split; [reflexivity|].
  split; vm_compute; reflexivity.
Qed.

(** [SetType] reads the old type after it let it go: when the machine holds the
    last reference, the object is already deleted. *)
Theorem set_type_uses_released_type :
  ∃ h m h', TypeMachine_new 2000 (<[1000 := demo_type]> deep_objects) 1000 = Ok (h, m) ∧
    release (<[3000 := AcquireReference deep_type]> h) 1000 = Ok h' ∧ h' !! 1000 = None ∧
    SetType 2000 h m 3000 = Err Fault.
Proof.
  eexists _, _, _. split; [reflexivity|]. split; [reflexivity|].
  split; vm_compute; reflexivity.
Qed.

(** * From the builder to memory *)

Lemma cmds_nonneg h G M cs : (∀ a, wf (G a)) → Forall (cmd_ok h G M) cs → nonneg (cmds_prog G cs).
Proof.
  intros HG. induction 1 as [|c cs Hc _ IH]; cbn [cmds_prog]; [done|].
  apply nonneg_papp. split; [|done]. pose proof (wf_nonneg _ (HG 0)).
  destruct c; cbn in *; [done|lia|]. split; [by apply wf_nonneg|lia].
Qed.

(** C2. A type that a session built, then packed: the buffer receives the bytes at
    the displacements of the operations that built it, in their order, whatever
    the optimisations and the linking did to its code, and whatever fresh memory
    held (which decides whether the session succeeds, see C1). *)
Theorem built_type_packs (big : bool) (fl : float_ops)
  (user : Z → Z → Z → Z → Z → mem → res mem) (junk : Z → Z) (h h' : heap) (G : Z → prog)
  (M : Z) (cs : list type_cmd) (contig_max a n lo hi target origin : Z) (t : TypeCode)
  (HG : ∀ a, wf (G a)) (Hheap : heap_ok G h)
  (Hcs : Forall (cmd_ok h G M) cs) (HM : 0 ≤ M) (Hlen : Z.of_nat (S (length cs)) < max_ops)
  (HMn : M * Z.of_nat (length cs) < 2 ^ 61) (Hsz : 0 < psize (cmds_prog G cs) < 2 ^ 64)
  (Hbuild : build junk h cs = Ok t) (Hcm : has_contig_max contig_max h') (Ha : h' !! a = Some t)
  (Hn : 0 ≤ n) (Htyped : typed_region lo hi origin (cmds_prog G cs) 0 n)
  (Ht : 0 ≤ target) (Htn : target + n < 2 ^ 64) (Hdis : target + n ≤ lo ∨ hi ≤ target) :
  ∃ h2 m, TypeMachine_new contig_max h' a = Ok (h2, m) ∧
  ∃ f0, ∀ fuel s, (f0 ≤ fuel)%nat → ∃ m' s',
    Pack big fl user fuel h2 m target origin n s = Ok (m', s') ∧
    (∀ i, 0 ≤ i < n → s' (target + i) = s (address origin (stream (cmds_prog G cs) i))) ∧
    (∀ x, x < target ∨ target + n ≤ x → s' x = s x).
Proof.
  destruct (build_spec junk h G HG Hheap M cs) as [(t'&Hb&p&Hden&Heq&_)|[Hb _]];
    [done|done|done|done|lia| |congruence].
  rewrite Hb in Hbuild. injection Hbuild as ->.
  assert (Hpos : 0 < psize p) by (rewrite (prog_eq_size _ _ Heq); lia).
  destruct (TypeMachine_new_spec contig_max h' a t p) as (m&Hnew&Hm&Hint&_); try done.
  assert (Hst : ∀ k, 0 ≤ k → stream (run_prog t p) k = stream (cmds_prog G cs) k).
  { intros k Hk. rewrite run_prog_stream by done.
    apply stream_proper; eauto using cmds_nonneg, wf_nonneg, td_wf. }
  eexists _, m. split; [exact Hnew|]. destruct Htyped as (Hlo&Hhi&Hw).
  exists (Z.to_nat (run_fuel (run_prog t p) n)). intros fuel s Hfuel.
  destruct (Pack_spec big fl user _ m _ 0 n lo hi target origin Hm Hint Hn) with (fuel := fuel)
    (s := s) as (m'&s'&Hp&_&_&Hin&Hout); try done; [|lia|].
  { split; [done|]. split; [done|]. intros k Hk. rewrite Hst by lia. by apply Hw. }
  exists m', s'. split; [done|]. split; [|done]. intros i Hi. rewrite Hin, Z.add_0_l, Hst by lia. done.
Qed.

Definition packed_type : TypeCode :=
  Eval vm_compute in match build quiet demo_heap demo_session with Ok t => t | Err _ => demo_type end.

Definition packed_objects : heap := <[2000 := contig_max_type]> {[4000 := packed_type]}.

Lemma packed_contig_max : has_contig_max 2000 packed_objects.
Proof. exists contig_max_type. split; [apply lookup_insert_eq|]. apply contig_max_denotes. Qed.

Lemma packed_region : typed_region 4096 16384 4096 (cmds_prog demo_G demo_session) 0 60.
Proof. apply typed_regionb_spec; [lia|vm_compute; reflexivity]. Qed.

Lemma built_type_packs_witness : ∃ h2 m, TypeMachine_new 2000 packed_objects 4000 = Ok (h2, m) ∧
  ∃ f0, ∀ fuel s, (f0 ≤ fuel)%nat → ∃ m' s',
    Pack false no_float no_user fuel h2 m 65536 4096 60 s = Ok (m', s') ∧
    (∀ i, 0 ≤ i < 60 →
      s' (65536 + i) = s (address 4096 (stream (cmds_prog demo_G demo_session) i))) ∧
    (∀ x, x < 65536 ∨ 65536 + 60 ≤ x → s' x = s x).
Proof.
  apply (built_type_packs false no_float no_user quiet demo_heap packed_objects demo_G 256
    demo_session 2000 4000 60 4096 16384 65536 4096 packed_type demo_G_wf
    demo_heap_ok demo_session_ok ltac:(lia) eq_refl eq_refl (conj eq_refl eq_refl) eq_refl
    packed_contig_max eq_refl ltac:(lia) packed_region); lia.
Defined.
