(* ===== verification/PamiTransfer.v ===== *)
(** The transfers of src/api/c/pami_type.cc: [PAMI_Type_transform_data] moves the
    data of one type to that of another, whether they are contiguous or not. *)
From S2P Require Import Prelude.
From S2P Require Import Layout.
From S2P Require Import Memory.
From S2P Require Import TypeCode.
From S2P Require Import TypeCodeSpec.
From S2P Require Import TypeFunc.
From S2P Require Import TypeMachine.
From S2P Require Import PamiType.
From S2P Require Import TypeMachineSpec.
From S2P Require Import TypeCursorSpec.
From S2P Require Import TypeTransfer.
From S2P Require Import TypeMachineProps.

#[local] Opaque w64.

(** * Objects *)

(** A machine only reads the code of its type. *)
Lemma machine_at_same h a t t' m P o : h !! a = Some t → same_code t t' →
  machine_at h m P o → machine_at (<[a := t']> h) m P o.
Proof.
  intros Ha Hs (u&c&p&b&Hu&Hden&Hpos&Hcap&Hstk&Hinv).
  destruct (decide (a = tm_type m)) as [->|Hne].
  - rewrite Ha in Hu. injection Hu as <-. exists t', c, p, b. rewrite lookup_insert_eq.
    destruct (same_code_eq _ _ Hs) as (->&_&_). split; [done|].
    split; [by eapply same_code_denotes|]. done.
  - exists u, c, p, b. by rewrite lookup_insert_ne.
Qed.

(** A reference taken then released leaves the objects as they were. *)
Lemma acquire_release h a t : h !! a = Some t → 0 < ref_cnt t →
  release (<[a := AcquireReference t]> h) a = Ok h.
Proof.
  intros Ha Hr. unfold release, ReleaseReference. rewrite lookup_insert_eq. cbn [of_option].
  rewrite bind_ret. cbn [AcquireReference ref_cnt].
  rewrite (proj2 (Z.ltb_lt _ _)), (proj2 (Z.eqb_neq _ _)) by lia. cbn [assert].
  rewrite !bind_ret. f_equal. rewrite insert_insert_eq. apply insert_id. rewrite Ha. f_equal.
  destruct t. unfold AcquireReference. cbn. f_equal. lia.
Qed.

(** A type a client holds and may transfer: completed, not empty. *)
Record client_type (h : heap) (a : Z) (t : TypeCode) (P : prog) : Prop := {
  ct_object : h !! a = Some t;
  ct_denotes : type_denotes t P;
  ct_size : 0 < psize P;
  ct_held : 0 < ref_cnt t;
  ct_primitive : GetPrimitive t ≠ PRIMITIVE_TYPE_UNDEFINED
}.

Lemma client_type_acquire h a t P b u : client_type h a t P → h !! b = Some u →
  ∃ t', client_type (<[b := AcquireReference u]> h) a t' P ∧ IsContiguous t' = IsContiguous t.
Proof.
  intros [Ha Hd Hp Hr Hprim] Hb. destruct (decide (b = a)) as [->|Hne].
  - rewrite Hb in Ha. injection Ha as ->. exists (AcquireReference t). split; [|done].
    split; try done; [apply lookup_insert_eq|by apply (same_code_denotes t)|cbn; lia].
  - exists t. split; [|done]. split; try done. by rewrite lookup_insert_ne.
Qed.

(** Every type has its copy function first in its row. *)
Lemma copy_function_is_copy p : p ≠ PRIMITIVE_TYPE_UNDEFINED → p ≠ PRIMITIVE_TYPE_COUNT →
  ∃ t, GetCopyFunction (primitive_val p) 0 = Ok (f_copy t).
Proof. intros H1 H2. destruct p; try done; eexists; reflexivity. Qed.

Lemma SetCopyFunc_copy h m t P o ck : machine_at h m P o → h !! GetType m = Some t →
  GetPrimitive t ≠ PRIMITIVE_TYPE_UNDEFINED →
  ∃ m', SetCopyFunc h m 0 ck = Ok m' ∧ machine_at h m' P o ∧ copies m' ∧ GetType m' = GetType m.
Proof.
  intros Hm Ht Hu. unfold SetCopyFunc. rewrite Ht. cbn [of_option]. rewrite bind_ret.
  destruct (bool_decide_reflect (GetPrimitive t = PRIMITIVE_TYPE_COUNT)) as [Hc|Hc]; cbn [orb].
  - eexists. split; [reflexivity|]. done.
  - change (PRIMITIVE_FUNC_COUNT <=? 0) with false. cbv iota.
    destruct (copy_function_is_copy (GetPrimitive t) Hu Hc) as (ct&->). rewrite bind_ret.
    eexists. split; [reflexivity|]. done.
Qed.

(** * Typed regions *)

Lemma typed_region_sub lo hi origin P o n o' n' : typed_region lo hi origin P o n →
  o ≤ o' → o' + n' ≤ o + n → typed_region lo hi origin P o' n'.
Proof. intros (?&?&H) ? ?. split; [done|]. split; [done|]. intros k Hk. apply H. lia. Qed.

(** The addresses of distinct displacements are distinct. *)
Lemma address_injective origin a b : 0 ≤ a < 2 ^ 64 → 0 ≤ b < 2 ^ 64 →
  address origin a = address origin b → a = b.
Proof.
  intros Ha Hb Hab. rewrite <- (w64_small a), <- (w64_small b) by done.
  change (a ≡₆₄ b). replace a with (origin + a - origin) by lia.
  replace b with (origin + b - origin) by lia.
  by assert (origin + a ≡₆₄ origin + b) as -> by done.
Qed.

Lemma contiguous_stream t P k : type_denotes t P → IsContiguous t = true → 0 < psize P → 0 ≤ k →
  stream P k = w64 k.
Proof.
  intros Hd Hc Hp Hk. destruct (td_contiguous _ _ Hd Hc) as (_&n&->).
  apply stream_contiguous; [cbn in Hp; lia|done].
Qed.

(** The data of a contiguous type is a block of memory. *)
Lemma contiguous_region t P lo hi origin o n : type_denotes t P → IsContiguous t = true →
  0 < psize P → typed_region lo hi origin P o n → 0 < n → 0 ≤ o →
  lo ≤ w64 (origin + o) ∧ w64 (origin + o) + n ≤ hi ∧
  ∀ i, 0 ≤ i < n → address origin (stream P (o + i)) = w64 (origin + o) + i.
Proof.
  intros Hd Hc Hp (Hlo&Hhi&Hall) Hn Ho.
  assert (Hs : ∀ k, 0 ≤ k → stream P k = w64 k) by (intros; by eapply contiguous_stream).
  assert (Hw : within lo hi origin (map w64 (seqZ o n))).
  { intros d Hd'. apply list_elem_of_fmap in Hd' as (k&->&Hk%elem_of_seqZ).
    rewrite <- Hs by lia. apply Hall. lia. }
  destruct (block_bounds lo hi origin Hlo Hhi o n Hn Hw). split; [done|]. split; [done|].
  intros i Hi. rewrite Hs, address_w64 by lia.
  by destruct (block_address lo hi origin Hlo Hhi o n i Hw) as [-> _]; [lia|lia|].
Qed.

(** * Transfers *)

Section transfer.
Context (contig_max : Z) (big : bool) (fl : float_ops).
Context (user : Z → Z → Z → Z → Z → mem → res mem).
(** The source and the destination: types, addresses and offsets; [n] bytes are
    transferred through a buffer on the stack. *)
Context (P Q : prog) (src so dst do tmp n lo hi lo' hi' : Z).
Context (Hn : 0 < n < 2 ^ 63) (Hso : 0 ≤ so < 2 ^ 64) (Hdo : 0 ≤ do < 2 ^ 64).
Context (Hsrc : typed_region lo hi src P so n) (Hdst : typed_region lo' hi' dst Q do n).
Context (Hinj : ∀ j k, do ≤ j < do + n → do ≤ k < do + n → stream Q j = stream Q k → j = k).
Context (Hhi : hi < 2 ^ 64) (Hhi' : hi' < 2 ^ 64) (Hdis : hi ≤ lo' ∨ hi' ≤ lo).
Context (Htmp : 0 ≤ tmp) (Htmp' : tmp + TMP_BUF_SIZE < 2 ^ 64).
Context (Htd : tmp + TMP_BUF_SIZE ≤ lo ∨ hi ≤ tmp) (Htd' : tmp + TMP_BUF_SIZE ≤ lo' ∨ hi' ≤ tmp).

Notation src_at i := (address src (stream P (so + i))).
Notation dst_at i := (address dst (stream Q (do + i))).

(** From byte [o] on, the bytes of the source are in the destination, and nothing
    else changed but the buffer. *)
Definition transferred (o : Z) (s s' : mem) : Prop :=
  (∀ i, o ≤ i < n → s' (dst_at i) = s (src_at i)) ∧
  (∀ x, (∀ i, o ≤ i < n → x ≠ dst_at i) → x < tmp ∨ tmp + TMP_BUF_SIZE ≤ x → s' x = s x).

Lemma src_bounds i : 0 ≤ i < n → lo ≤ src_at i < hi.
Proof. intros Hi. apply Hsrc. lia. Qed.

Lemma dst_bounds i : 0 ≤ i < n → lo' ≤ dst_at i < hi'.
Proof. intros Hi. apply Hdst. lia. Qed.

Lemma dst_distinct i j : 0 ≤ i < n → 0 ≤ j < n → dst_at i = dst_at j → i = j.
Proof.
  intros Hi Hj He. apply address_injective in He; [|apply stream_range..].
  apply Hinj in He; lia.
Qed.

(** One part through the buffer. *)
Lemma transfer_chunk h packer unpacker o c fuel s : machine_at h packer P (so + o) →
  machine_at h unpacker Q (do + o) → copies packer → copies unpacker →
  0 ≤ o → 0 ≤ c ≤ TMP_BUF_SIZE → o + c ≤ n →
  run_fuel P c ≤ Z.of_nat fuel → run_fuel Q c ≤ Z.of_nat fuel → ∃ packer' unpacker' s1 s2,
    Pack big fl user fuel h packer tmp src c s = Ok (packer', s1) ∧
    Unpack big fl user fuel h unpacker dst tmp c s1 = Ok (unpacker', s2) ∧
    machine_at h packer' P (so + (o + c)) ∧ machine_at h unpacker' Q (do + (o + c)) ∧
    copies packer' ∧ copies unpacker' ∧
    (∀ i, o ≤ i < o + c → s2 (dst_at i) = s (src_at i)) ∧
    (∀ x, (∀ i, o ≤ i < o + c → x ≠ dst_at i) → x < tmp ∨ tmp + TMP_BUF_SIZE ≤ x → s2 x = s x).
Proof.
  intros Hp Hu Hcp Hcu Ho Hc Hoc Hf1 Hf2. unfold TMP_BUF_SIZE in *.
  destruct (Pack_spec big fl user h packer P (so + o) c lo hi tmp src Hp Hcp) with (fuel := fuel)
    (s := s) as (packer'&s1&Hrun&Hp'&Hcf&Hin&Hout); try lia.
  { eapply typed_region_sub; [done|lia|lia]. }
  destruct (Unpack_spec big fl user h unpacker Q (do + o) c lo' hi' dst tmp Hu Hcu) with
    (fuel := fuel) (s := s1) as (unpacker'&s2&Hrun'&Hu'&Hcf'&Hin'&Hout'); try lia.
  { eapply typed_region_sub; [done|lia|lia]. } { intros. apply Hinj; lia || done. }
  exists packer', unpacker', s1, s2. rewrite !Z.add_assoc. split; [done|]. split; [done|].
  split; [done|]. split; [done|]. unfold copies in *. rewrite Hcf, Hcf'.
  split; [done|]. split; [done|]. split.
  - intros i Hi. specialize (Hin' (i - o) ltac:(lia)). specialize (Hin (i - o) ltac:(lia)).
    replace (do + o + (i - o)) with (do + i) in Hin' by lia.
    replace (so + o + (i - o)) with (so + i) in Hin by lia. congruence.
  - intros x Hx Hxt. rewrite Hout', Hout; [done|lia|].
    intros i Hi. replace (do + o + i) with (do + (o + i)) by lia. apply Hx. lia.
Qed.

Lemma transferred_chunk o c s s2 s' : 0 ≤ o → 0 ≤ c → o + c ≤ n →
  (∀ i, o ≤ i < o + c → s2 (dst_at i) = s (src_at i)) →
  (∀ x, (∀ i, o ≤ i < o + c → x ≠ dst_at i) → x < tmp ∨ tmp + TMP_BUF_SIZE ≤ x → s2 x = s x) →
  transferred (o + c) s2 s' → transferred o s s'.
Proof.
  intros Ho Hc Hoc Hin Hout [Hin' Hout']. split.
  - intros i Hi. pose proof (src_bounds i ltac:(lia)). pose proof (dst_bounds i ltac:(lia)).
    destruct (Z.lt_ge_cases i (o + c)) as [Hlt|Hge].
    + rewrite Hout', Hin; [done|lia| |lia]. intros j Hj He. apply dst_distinct in He; lia.
    + rewrite Hin' by lia. apply Hout; [|lia]. intros j Hj He.
      pose proof (dst_bounds j ltac:(lia)). lia.
  - intros x Hx Hxt. rewrite Hout', Hout; [done| |done| |done]; intros i Hi; apply Hx; lia.
Qed.

(** The loop over the buffer. *)
Lemma transform_loop_spec h fuel : run_fuel P n ≤ Z.of_nat fuel → run_fuel Q n ≤ Z.of_nat fuel →
  nonneg P → nonneg Q → ∀ iter packer unpacker o s, machine_at h packer P (so + Z.min o n) →
  machine_at h unpacker Q (do + Z.min o n) → copies packer → copies unpacker →
  0 ≤ o → n - o ≤ (Z.of_nat iter - 1) * TMP_BUF_SIZE → (0 < iter)%nat →
  ∃ packer' unpacker' s', transform_loop big fl user fuel iter h packer unpacker tmp src dst o n s =
    Ok (packer', unpacker', s') ∧ transferred o s s'.
Proof.
  intros Hf1 Hf2 HnP HnQ iter. induction iter as [|iter IH];
    intros packer unpacker o s Hp Hu Hcp Hcu Ho Hit Hpos; [lia|].
  cbn [transform_loop]. destruct (Z.ltb_spec o n) as [Hlt|Hge].
  - rewrite (Z.min_l o n) in Hp, Hu by lia. rewrite (w64_small (n - o)) by lia.
    set (c := Z.min (n - o) TMP_BUF_SIZE). assert (0 < TMP_BUF_SIZE) by done.
    pose proof (steps_pos P HnP). pose proof (steps_pos Q HnQ). unfold run_fuel in *.
    destruct (transfer_chunk h packer unpacker o c fuel s Hp Hu Hcp Hcu)
      as (packer'&unpacker'&s1&s2&Hrun&Hrun'&Hp'&Hu'&Hcp'&Hcu'&Hin&Hout);
      [lia|lia|lia|unfold run_fuel; nia|unfold run_fuel; nia|].
    rewrite Hrun, bind_ret, Hrun', bind_ret. change TMP_BUF_SIZE with 8192 in *.
    rewrite (w64_small (o + 8192)) by lia.
    assert (Hmin : Z.min (o + 8192) n = o + c) by lia.
    destruct (IH packer' unpacker' (o + 8192) s2) as (pk&up&s'&Hloop&Hin'&Hout');
      rewrite ?Hmin; try done; try lia.
    exists pk, up, s'. split; [done|]. apply (transferred_chunk o c s s2); try done; try lia.
    destruct (Z.le_ge_cases (o + 8192) n); [replace (o + c) with (o + 8192) by lia; done|].
    split; intros; [lia|]. apply Hout'; [intros; lia|done].
  - exists packer, unpacker, s. split; [done|]. split; [intros; lia|done].
Qed.

(** ** The four cases *)

Context (h : heap) (a b : Z) (ta tb : TypeCode).
Context (Hcm : has_contig_max contig_max h).
Context (Ha : client_type h a ta P) (Hb : client_type h b tb Q).
Context (Hfa : IsContiguous ta = false → (so / psize P + 1) * psize P < 2 ^ 64).
Context (Hfb : IsContiguous tb = false → (do / psize Q + 1) * psize Q < 2 ^ 64).

(** A machine on a type that is not contiguous. *)
Lemma open_machine g c t R : has_contig_max contig_max g → client_type g c t R →
  IsContiguous t = false → ∃ m,
    TypeMachine_new contig_max g c = Ok (<[c := AcquireReference t]> g, m) ∧
    machine_at (<[c := AcquireReference t]> g) m R 0 ∧ copies m ∧ GetType m = c.
Proof.
  intros Hg [Hc Hd Hp Hr Hprim] Hnc.
  destruct (TypeMachine_new_spec contig_max g c t R Hg Hc Hd Hp) as (m&Hrun&Hm&Hcp&Ht&_).
  unfold run_prog in Hm. rewrite Hnc in Hm. by exists m.
Qed.

(** Such a machine set to copy and moved to an offset. *)
Lemma seek_machine g c t R m N fuel ck : client_type g c t R → machine_at g m R 0 →
  copies m → GetType m = c → 0 ≤ N → (N / psize R + 1) * psize R < 2 ^ 64 →
  ops R ≤ Z.of_nat fuel → ∃ m1 m2, SetCopyFunc g m 0 ck = Ok m1 ∧
    MoveCursor fuel g m1 N = Ok m2 ∧ machine_at g m2 R N ∧ copies m2 ∧ GetType m2 = c.
Proof.
  intros [Hc Hd Hp Hr Hprim] Hm Hcp Ht HN Hfit Hf. rewrite <- Ht in Hc.
  destruct (SetCopyFunc_copy g m t R 0 ck Hm Hc Hprim) as (m1&Hs&Hm1&Hcp1&Ht1).
  destruct (MoveCursor_machine g m1 R 0 N Hm1 ltac:(lia) HN Hfit fuel Hf) as (m2&Hmv&Hm2&Hcf&Ht2).
  exists m1, m2. split; [done|]. split; [done|]. split; [done|]. unfold copies in *. rewrite Hcf.
  split; [done|]. congruence.
Qed.

Lemma run_GetType fuel g m PACK buffer typed k s m' s' :
  run_machine big fl user PACK fuel g m buffer typed k s = Ok (m', s') → GetType m' = GetType m.
Proof.
  unfold run_machine. intros Hr. apply bind_Ok in Hr as (t&_&Hr).
  apply bind_Ok in Hr as ([stk s1]&_&Hr). by injection Hr as <- _.
Qed.

Lemma delete_machine g c t m : g !! c = Some t → 0 < ref_cnt t → GetType m = c →
  TypeMachine_delete (<[c := AcquireReference t]> g) m = Ok g.
Proof. intros Hc Hr Ht. unfold TypeMachine_delete. rewrite Ht. by apply acquire_release. Qed.

Definition transform fuel ck s := PAMI_Type_transform_data contig_max big fl user fuel tmp h src a so
  dst b do n 0 ck s.

(** Enough fuel for every loop. *)
Definition fuel_ok (fuel : nat) : Prop :=
  ops P ≤ Z.of_nat fuel ∧ ops Q ≤ Z.of_nat fuel ∧
  run_fuel P n ≤ Z.of_nat fuel ∧ run_fuel Q n ≤ Z.of_nat fuel.

#[local] Ltac start_transfer Hca Hcb :=
  unfold transform, PAMI_Type_transform_data;
  rewrite (ct_object _ _ _ _ Ha), (ct_object _ _ _ _ Hb); cbn [of_option]; rewrite !bind_ret;
  unfold IsCompleted; rewrite (td_completed _ _ (ct_denotes _ _ _ _ Ha)),
    (td_completed _ _ (ct_denotes _ _ _ _ Hb)); cbn [negb orb];
  rewrite Hca, Hcb; cbn [andb].

Lemma transform_contiguous fuel ck s : IsContiguous ta = true → IsContiguous tb = true →
  ∃ s', transform fuel ck s = Ok (PAMI_SUCCESS, h, s') ∧ transferred 0 s s'.
Proof.
  intros Hca Hcb. start_transfer Hca Hcb.
  destruct (contiguous_region ta P lo hi src so n (ct_denotes _ _ _ _ Ha) Hca (ct_size _ _ _ _ Ha)
    Hsrc ltac:(lia) ltac:(lia)) as (Hs1&Hs2&Hs).
  destruct (contiguous_region tb Q lo' hi' dst do n (ct_denotes _ _ _ _ Hb) Hcb (ct_size _ _ _ _ Hb)
    Hdst ltac:(lia) ltac:(lia)) as (Hd1&Hd2&Hd).
  pose proof (proj1 Hsrc). pose proof (proj1 Hdst).
  rewrite memcpy_Ok, bind_ret by lia. eexists. split; [reflexivity|]. split.
  - intros i Hi. rewrite Hd, Hs, move_in by lia. f_equal. lia.
  - intros x Hx _. apply move_out. destruct (Z.lt_ge_cases x (w64 (dst + do))); [by left|].
    destruct (Z.le_gt_cases (w64 (dst + do) + n) x); [by right|].
    destruct (Hx (x - w64 (dst + do))); [lia|]. rewrite Hd by lia. lia.
Qed.

Lemma transform_unpack fuel ck s : fuel_ok fuel → IsContiguous ta = true →
  IsContiguous tb = false →
  ∃ s', transform fuel ck s = Ok (PAMI_SUCCESS, h, s') ∧ transferred 0 s s'.
Proof.
  intros (_&Hops&_&Hfuel) Hca Hcb. start_transfer Hca Hcb.
  destruct (contiguous_region ta P lo hi src so n (ct_denotes _ _ _ _ Ha) Hca (ct_size _ _ _ _ Ha)
    Hsrc ltac:(lia) ltac:(lia)) as (Hs1&Hs2&Hs). pose proof (proj1 Hsrc).
  destruct (open_machine h b tb Q Hcm Hb Hcb) as (m&Hnew&Hm&Hcp&Ht). rewrite Hnew, bind_ret.
  destruct (client_type_acquire h b tb Q b tb Hb (ct_object _ _ _ _ Hb)) as (tb'&Hb'&_).
  destruct (seek_machine _ b tb' Q m do fuel ck Hb' Hm Hcp Ht (proj1 Hdo) (Hfb Hcb) Hops)
    as (m1&m2&Hset&Hmv&Hm2&Hcp2&Ht2). rewrite Hset, bind_ret, Hmv, bind_ret.
  destruct (Unpack_spec big fl user _ m2 Q do n lo' hi' dst (w64 (src + so)) Hm2 Hcp2) with
    (fuel := fuel) (s := s) as (m3&s'&Hrun&_&_&Hin&Hout); try done; try lia.
  rewrite Hrun, bind_ret. apply run_GetType in Hrun.
  rewrite (delete_machine h b tb) by (try apply Hb; congruence). rewrite bind_ret.
  exists s'. split; [done|]. split.
  - intros i Hi. by rewrite Hin, Hs by lia.
  - intros x Hx _. by apply Hout.
Qed.

Lemma transform_pack fuel ck s : fuel_ok fuel → IsContiguous ta = false →
  IsContiguous tb = true →
  ∃ s', transform fuel ck s = Ok (PAMI_SUCCESS, h, s') ∧ transferred 0 s s'.
Proof.
  intros (Hops&_&Hfuel&_) Hca Hcb. start_transfer Hca Hcb.
  destruct (contiguous_region tb Q lo' hi' dst do n (ct_denotes _ _ _ _ Hb) Hcb (ct_size _ _ _ _ Hb)
    Hdst ltac:(lia) ltac:(lia)) as (Hd1&Hd2&Hd). pose proof (proj1 Hdst).
  destruct (open_machine h a ta P Hcm Ha Hca) as (m&Hnew&Hm&Hcp&Ht). rewrite Hnew, bind_ret.
  destruct (client_type_acquire h a ta P a ta Ha (ct_object _ _ _ _ Ha)) as (ta'&Ha'&_).
  destruct (seek_machine _ a ta' P m so fuel ck Ha' Hm Hcp Ht (proj1 Hso) (Hfa Hca) Hops)
    as (m1&m2&Hset&Hmv&Hm2&Hcp2&Ht2). rewrite Hset, bind_ret, Hmv, bind_ret.
  destruct (Pack_spec big fl user _ m2 P so n lo hi (w64 (dst + do)) src Hm2 Hcp2) with
    (fuel := fuel) (s := s) as (m3&s'&Hrun&_&_&Hin&Hout); try done; try lia.
  rewrite Hrun, bind_ret. apply run_GetType in Hrun.
  rewrite (delete_machine h a ta) by (try apply Ha; congruence). rewrite bind_ret.
  exists s'. split; [done|]. split.
  - intros i Hi. by rewrite Hd, Hin by lia.
  - intros x Hx _. apply Hout. destruct (Z.lt_ge_cases x (w64 (dst + do))); [by left|].
    destruct (Z.le_gt_cases (w64 (dst + do) + n) x); [by right|].
    destruct (Hx (x - w64 (dst + do))); [lia|]. rewrite Hd by lia. lia.
Qed.

Lemma transform_loop_GetType fuel iter g pk up o k s pk' up' s' :
  transform_loop big fl user fuel iter g pk up tmp src dst o k s = Ok (pk', up', s') →
  GetType pk' = GetType pk ∧ GetType up' = GetType up.
Proof.
  revert pk up o s. induction iter as [|iter IH]; intros pk up o s; [done|].
  cbn [transform_loop]. destruct (o <? k); [|by intros [= -> -> _]].
  intros Hr. apply bind_Ok in Hr as ([pk1 s1]&Hp&Hr). apply bind_Ok in Hr as ([up1 s2]&Hu&Hr).
  apply run_GetType in Hp, Hu. apply IH in Hr as [-> ->]. done.
Qed.

Lemma transform_generic fuel ck s : fuel_ok fuel → IsContiguous ta = false →
  IsContiguous tb = false →
  ∃ s', transform fuel ck s = Ok (PAMI_SUCCESS, h, s') ∧ transferred 0 s s'.
Proof.
  intros (Hopsa&Hopsb&Hfa'&Hfb') Hca Hcb. start_transfer Hca Hcb.
  destruct (open_machine h a ta P Hcm Ha Hca) as (m&Hnew&Hm&Hcp&Ht). rewrite Hnew, bind_ret.
  destruct (client_type_acquire h b tb Q a ta Hb (ct_object _ _ _ _ Ha)) as (tb1&Hb1&Hcb1).
  set (h1 := <[a := AcquireReference ta]> h) in *.
  destruct (MoveCursor_machine h1 m P 0 so Hm ltac:(lia) (proj1 Hso) (Hfa Hca) fuel Hopsa)
    as (m1&Hmv&Hm1&Hcf1&Ht1). rewrite Hmv, bind_ret.
  assert (Hcm1 : has_contig_max contig_max h1)
    by (eapply has_contig_max_insert; [done|apply Ha|done]).
  rewrite Hcb in Hcb1.
  destruct (open_machine h1 b tb1 Q Hcm1 Hb1 Hcb1) as (u&Hnewu&Hu&Hcpu&Htu).
  rewrite Hnewu, bind_ret.
  destruct (client_type_acquire h1 b tb1 Q b tb1 Hb1 (ct_object _ _ _ _ Hb1)) as (tb2&Hb2&_).
  destruct (seek_machine _ b tb2 Q u do fuel ck Hb2 Hu Hcpu Htu (proj1 Hdo) (Hfb Hcb) Hopsb)
    as (u1&u2&Hset&Hmvu&Hu2&Hcpu2&Htu2). rewrite Hset, bind_ret, Hmvu, bind_ret.
  apply (machine_at_same h1 b tb1 (AcquireReference tb1)) in Hm1; [|apply Hb1|done].
  pose proof (wf_nonneg _ (td_wf _ _ (ct_denotes _ _ _ _ Ha))) as HnP.
  pose proof (wf_nonneg _ (td_wf _ _ (ct_denotes _ _ _ _ Hb))) as HnQ.
  pose proof (steps_pos P HnP). assert (n + 2 ≤ Z.of_nat fuel) by (unfold run_fuel in *; nia).
  destruct (transform_loop_spec (<[b:=AcquireReference tb1]> h1) fuel Hfa' Hfb' HnP HnQ fuel m1 u2 0 s)
    as (pk&up&s'&Hloop&Htr);
    rewrite ?Z.min_l, ?Z.add_0_r by lia; try done; try lia.
  { unfold copies in *. by rewrite Hcf1. } { unfold TMP_BUF_SIZE. lia. }
  rewrite Hloop, bind_ret. apply transform_loop_GetType in Hloop as [Htp Htu'].
  rewrite (delete_machine h1 b tb1) by (try apply Hb1; congruence). rewrite bind_ret.
  subst h1. rewrite (delete_machine h a ta) by (try apply Ha; congruence). rewrite bind_ret.
  by exists s'.
Qed.

Lemma transform_copies_data fuel ck s : fuel_ok fuel →
  ∃ s', transform fuel ck s = Ok (PAMI_SUCCESS, h, s') ∧ transferred 0 s s'.
Proof.
  intros Hf. assert (Hbool : ∀ c : bool, c = true ∨ c = false) by (intros []; auto).
  destruct (Hbool (IsContiguous ta)), (Hbool (IsContiguous tb)).
  - by apply transform_contiguous.
  - by apply transform_unpack.
  - by apply transform_pack.
  - by apply transform_generic.
Qed.

End transfer.
