(* ===== verification/PamiTypeProps.v ===== *)
(** The properties of the type interface (src/api/c/pami_type.cc): what each call
    adds to a type or answers, its error codes, the round trip of serialization,
    and the transfers. *)
From S2P Require Import Prelude.
From S2P Require Import Layout.
From S2P Require Import Memory.
From S2P Require Import TypeCode.
From S2P Require Import TypeCodeSpec.
From S2P Require Import TypeComplete.
From S2P Require Import TypeBuild.
From S2P Require Import TypeFunc.
From S2P Require Import TypeMachine.
From S2P Require Import PamiType.
From S2P Require Import TypeMachineSpec.
From S2P Require Import TypeCursorSpec.
From S2P Require Import TypeTransfer.
From S2P Require Import TypeMachineProps.
From S2P Require Import PamiTransfer.

#[local] Opaque w64.

(** * Building through the interface *)

Section building.
Context (V : Z → Prop) (junk : Z → Z) (Hjunk : ∀ m, harmless (junk m)).
Context (G : Z → prog) (HG : ∀ a, wf (G a)).

Lemma add_simple_open h type t n bytes offset count stride : h !! type = Some t →
  binv harmless V n t → Z.of_nat (S (S n)) < max_ops → 0 ≤ bytes < 2 ^ 64 → 0 ≤ offset < 2 ^ 64 →
  0 ≤ count < 2 ^ 64 → 0 ≤ stride < 2 ^ 64 →
  psize (body_prog G (tc_body t)) + bytes * count < 2 ^ 64 →
  ∃ t', PAMI_Type_add_simple junk h type bytes offset count stride =
      Ok (PAMI_SUCCESS, <[type := t']> h) ∧ binv harmless V (S (S n)) t' ∧
    body_prog G (tc_body t') ≃ₚ
      papp (body_prog G (tc_body t)) (PShift offset (PCopy bytes stride count PEnd)) ∧
    ref_cnt t' = ref_cnt t.
Proof.
  intros Ht Hinv Hn Hb Ho Hc Hs Hsz. unfold PAMI_Type_add_simple, IsCompleted. rewrite Ht.
  cbn [of_option]. rewrite bind_ret, (bi_open _ _ _ _ Hinv).
  assert (0 ≤ bytes * count) by (apply Z.mul_nonneg_nonneg; lia).
  destruct (AddShift_spec harmless V junk Hjunk G HG n t offset Hinv ltac:(lia) Ho ltac:(lia))
    as [(t1&Hrun&[Hi1 Hp1 [_ Hr1]])|(_&?&?&[])]; [|done]. rewrite Hrun, bind_ret.
  destruct (AddSimple_spec harmless V junk Hjunk G HG (S n) t1 bytes stride count Hi1 Hn Hb Hs Hc)
    as [(t2&Hrun2&[Hi2 Hp2 Hr2])|(_&?&?&[])];
    [rewrite (prog_eq_size _ _ Hp1), psize_papp; cbn [psize]; lia| |done].
  rewrite Hrun2, bind_ret. exists t2. split; [done|]. split; [done|]. split; [|congruence].
  by rewrite Hp2, Hp1, papp_assoc.
Qed.

Lemma add_typed_open h type t sub n subtype offset count stride : heap_ok G h →
  h !! type = Some t → h !! subtype = Some sub → completed sub = true → V subtype →
  binv harmless V n t → Z.of_nat (S (S n)) < max_ops → 0 ≤ offset < 2 ^ 64 →
  0 ≤ count < 2 ^ 64 → 0 ≤ stride < 2 ^ 64 →
  psize (body_prog G (tc_body t)) + psize (G subtype) * count < 2 ^ 64 →
  ∃ t', PAMI_Type_add_typed junk h type subtype offset count stride =
      Ok (PAMI_SUCCESS, <[type := t']> h) ∧ binv harmless V (S (S n)) t' ∧
    body_prog G (tc_body t') ≃ₚ
      papp (body_prog G (tc_body t)) (PShift offset (PCall (G subtype) stride count PEnd)) ∧
    ref_cnt t' = ref_cnt t.
Proof.
  intros Hh Ht Hsub Hcs HV Hinv Hn Ho Hc Hs Hsz. unfold PAMI_Type_add_typed, IsCompleted.
  rewrite Ht. cbn [of_option]. rewrite bind_ret, (bi_open _ _ _ _ Hinv), Hsub. cbn [of_option].
  rewrite bind_ret, Hcs. cbn [negb].
  assert (0 ≤ psize (G subtype) * count)
    by (apply Z.mul_nonneg_nonneg; [by apply wf_psize|lia]).
  destruct (AddShift_spec harmless V junk Hjunk G HG n t offset Hinv ltac:(lia) Ho ltac:(lia))
    as [(t1&Hrun&[Hi1 Hp1 [_ Hr1]])|(_&?&?&[])]; [|done]. rewrite Hrun, bind_ret.
  destruct (AddTyped_spec harmless V junk Hjunk G HG h (S n) t1 subtype sub stride count Hh HV Hsub
    Hcs Hi1 Hn Hs Hc) as [(t2&Hrun2&[Hi2 Hp2 Hr2])|(_&?&?&[])];
    [rewrite (prog_eq_size _ _ Hp1), psize_papp; cbn [psize]; lia| |done].
  rewrite Hrun2, bind_ret. exists t2. split; [done|]. split; [done|]. split; [|congruence].
  by rewrite Hp2, Hp1, papp_assoc.
Qed.

End building.

Section completing.
Context (junk : Z → Z) (Hjunk : ∀ m, harmless (junk m)).
Context (h : heap) (G : Z → prog) (HG : ∀ a, wf (G a)) (Hheap : heap_ok G h).

(** The limits under which a type completes. *)
Record completable (n : nat) (t : TypeCode) : Prop := {
  cp_inv : binv harmless (callable h) n t;
  cp_ops : Z.of_nat (S n) < max_ops;
  cp_fit : op_size BEGIN + clen (tc_body t) + op_size END + linked_size h (tc_body t) < 2 ^ 62;
  cp_depth : pdepth (body_prog G (tc_body t)) < 2 ^ 32;
  cp_size : psize (body_prog G (tc_body t)) < 2 ^ 64
}.

Lemma SetAtomSize_denotes t p atom : type_denotes t p → 0 < atom → punit p `mod` atom = 0 →
  ∃ t', SetAtomSize atom t = Ok t' ∧ type_denotes t' p ∧ GetAtomSize t' = atom ∧
    ref_cnt t' = ref_cnt t.
Proof.
  intros Hd Ha Hu. unfold SetAtomSize. rewrite (proj2 (Z.eqb_neq atom 0)) by lia.
  rewrite (td_unit _ _ Hd), Hu. cbn [negb defined assert]. rewrite !bind_ret.
  eexists. split; [reflexivity|]. split; [|done].
  destruct Hd as [? Hcode ? ? ? ? ? ? ? ? Hcs Hcl ? ?]. split; try done.
  - clear -Hcode. revert Hcode. unfold type_code. cbn.
    destruct (tc_begin t). cbn. intros Hc. by eapply code_at_header.
Qed.

Lemma complete_open type t n atom : h !! type = Some t → completable n t → 1 ≤ atom ≤ 128 →
  let p := body_prog G (tc_body t) in
  if punit p `mod` atom =? 0
  then ∃ t', PAMI_Type_complete junk h type atom = Ok (PAMI_SUCCESS, <[type := t']> h) ∧
         type_denotes t' p ∧ GetAtomSize t' = atom ∧ ref_cnt t' = ref_cnt t
  else PAMI_Type_complete junk h type atom = Err AssertFail.
Proof.
  intros Ht [Hinv Hn Hfit Hdep Hsz] Ha. cbn zeta. unfold PAMI_Type_complete, IsCompleted.
  rewrite Ht. cbn [of_option]. rewrite bind_ret, (bi_open _ _ _ _ Hinv).
  unfold MIN_ATOM_SIZE, MAX_ATOM_SIZE.
  rewrite (proj2 (Z.ltb_ge atom 1)), (proj2 (Z.ltb_ge 128 atom)) by lia. cbn [orb].
  destruct (bi_header _ _ _ _ Hinv) as (prim&cs&Hh). assert (GetUnit t = 0) as -> by (unfold GetUnit; by rewrite Hh).
  rewrite Z.mod_0_l by lia. cbn [Z.eqb negb].
  destruct (Complete_post junk h G Hheap harmless Hjunk HG n t Hinv Hn Hfit Hdep Hsz)
    as (t'&Hrun&Hd&_&_&Hr&_). rewrite Hrun, bind_ret.
  destruct (Z.eqb_spec (punit (body_prog G (tc_body t)) `mod` atom) 0) as [Hu|Hu].
  - destruct (SetAtomSize_denotes t' _ atom Hd ltac:(lia) Hu) as (t2&Hset&Hd2&Hat&Hr2).
    rewrite Hset, bind_ret. exists t2. split; [done|]. split; [done|]. split; [done|congruence].
  - unfold SetAtomSize. rewrite (proj2 (Z.eqb_neq atom 0)), (td_unit _ _ Hd) by lia.
    cbn [negb defined]. rewrite bind_ret, (proj2 (Z.eqb_neq _ 0)) by done. done.
Qed.

End completing.

(** * Serialization and queries *)






(** The answer to one attribute. *)
Definition answer (t : TypeCode) (c : pami_configuration_t) : pami_configuration_t :=
  match config_name c with
  | PAMI_TYPE_DATA_SIZE => mkConfig PAMI_TYPE_DATA_SIZE (GetDataSize t)
  | PAMI_TYPE_DATA_EXTENT => mkConfig PAMI_TYPE_DATA_EXTENT (GetExtent t)
  | PAMI_TYPE_ATOM_SIZE => mkConfig PAMI_TYPE_ATOM_SIZE (GetAtomSize t)
  | Other => c
  end.

Lemma query_loop_known t pre post : Forall (λ c, config_name c ≠ Other) pre →
  query_loop t (pre ++ post) =
  ((query_loop t post).1, map (answer t) pre ++ (query_loop t post).2).
Proof.
  induction 1 as [|c pre Hc _ IH]; cbn [app map query_loop]; [by destruct (query_loop t post)|].
  rewrite IH. unfold answer. destruct (config_name c); done.
Qed.

(** * Concrete objects

    The objects of TypeMachineProps.v, with a type of 8-byte integers at 5000 and
    an open type at 6000. *)

Definition long_type : TypeCode :=
  Eval vm_compute in
    match TypeContig_primitive quiet PRIMITIVE_TYPE_SIGNED_LONG with
    | Ok t => t | Err _ => demo_type end.

Definition open_type : TypeCode := demo_open.

Definition client_objects : heap := <[6000 := open_type]> (<[5000 := long_type]> demo_objects).

Definition client_G (a : Z) : prog :=
  if a =? 1000 then demo_prog else if a =? 2000 then contig_prog
  else if a =? 5000 then PCopy 8 8 1 PEnd else PEnd.

Lemma client_G_wf a : wf (client_G a).
Proof.
  unfold client_G. repeat case_match; cbn; try lia. unfold CONTIG_MAX_SIZE. lia.
Qed.

Lemma long_denotes : type_denotes long_type (PCopy 8 8 1 PEnd).
Proof.
  split; try done; try (by vm_compute).
  - eapply at_Copy; [reflexivity|]. by eapply at_End.
  - cbn. eauto 10.
  - cbn. eauto.
Qed.

Lemma client_heap_ok : heap_ok client_G client_objects.
Proof.
  intros a sub Hsub Hc. unfold client_objects, demo_objects in Hsub.
  repeat (apply lookup_insert_Some in Hsub as [[<- <-]|[_ Hsub]]).
  - done.
  - apply long_denotes.
  - apply contig_max_denotes.
  - apply lookup_singleton_Some in Hsub as [<- <-]. apply held_denotes.
Qed.

Lemma client_contig_max : has_contig_max 2000 client_objects.
Proof. exists contig_max_type. split; [reflexivity|]. apply contig_max_denotes. Qed.

Lemma client_open_completable : completable client_objects client_G 1 open_type.
Proof. split; [apply demo_open_binv|reflexivity..]. Qed.

Lemma client_demo : client_type client_objects 1000 held_type demo_prog.
Proof. split; [reflexivity|apply held_denotes|reflexivity|reflexivity|done]. Qed.

Lemma client_long : client_type client_objects 5000 long_type (PCopy 8 8 1 PEnd).
Proof. split; [reflexivity|apply long_denotes|reflexivity|reflexivity|done]. Qed.

(** * Properties *)

(** C3. [PAMI_Type_transform_data] with the copy function transfers: for any two
    completed types the clients hold, contiguous or not, from any offsets, and
    data that does not overlap, it succeeds for enough fuel; byte [i] of the
    destination's layout from its offset receives byte [i] of the source's, as
    they were before the call; nothing else changes but the buffer on the stack,
    and the objects, with their reference counters, are as before. *)
Theorem transform_data_correct (contig_max : Z) (big : bool) (fl : float_ops)
  (user : Z → Z → Z → Z → Z → mem → res mem) (P Q : prog)
  (src so dst do tmp n lo hi lo' hi' : Z) (h : heap) (a b : Z) (ta tb : TypeCode)
  (Hn : 0 < n < 2 ^ 63) (Hso : 0 ≤ so < 2 ^ 64) (Hdo : 0 ≤ do < 2 ^ 64)
  (Hsrc : typed_region lo hi src P so n) (Hdst : typed_region lo' hi' dst Q do n)
  (Hinj : ∀ j k, do ≤ j < do + n → do ≤ k < do + n → stream Q j = stream Q k → j = k)
  (Hhi : hi < 2 ^ 64) (Hhi' : hi' < 2 ^ 64) (Hdis : hi ≤ lo' ∨ hi' ≤ lo)
  (Htmp : 0 ≤ tmp) (Htmp' : tmp + TMP_BUF_SIZE < 2 ^ 64)
  (Htd : tmp + TMP_BUF_SIZE ≤ lo ∨ hi ≤ tmp) (Htd' : tmp + TMP_BUF_SIZE ≤ lo' ∨ hi' ≤ tmp)
  (Hcm : has_contig_max contig_max h) (Ha : client_type h a ta P) (Hb : client_type h b tb Q)
  (Hfa : IsContiguous ta = false → (so / psize P + 1) * psize P < 2 ^ 64)
  (Hfb : IsContiguous tb = false → (do / psize Q + 1) * psize Q < 2 ^ 64)
  (fuel : nat) (Hfuel : fuel_ok P Q n fuel) (ck : Z) (s : mem) :
  ∃ s', PAMI_Type_transform_data contig_max big fl user fuel tmp h src a so dst b do n 0 ck s =
      Ok (PAMI_SUCCESS, h, s') ∧
    (∀ i, 0 ≤ i < n → s' (address dst (stream Q (do + i))) = s (address src (stream P (so + i)))) ∧
    (∀ x, (∀ i, 0 ≤ i < n → x ≠ address dst (stream Q (do + i))) →
       x < tmp ∨ tmp + TMP_BUF_SIZE ≤ x → s' x = s x).
Proof.
  destruct (transform_copies_data contig_max big fl user P Q src so dst do tmp n lo hi lo' hi'
    Hn Hso Hdo Hsrc Hdst Hinj Hhi Hhi' Hdis Htmp Htmp' Htd Htd' h a b ta tb Hcm Ha Hb Hfa Hfb
    fuel ck s Hfuel) as (s'&Hrun&Htr&Hout).
  by exists s'.
Qed.

Lemma transform_data_correct_witness :
  ∃ s', PAMI_Type_transform_data 2000 false no_float no_user 1000 65536 client_objects
      4096 1000 20 16384 1000 0 20 0 0 demo_mem = Ok (PAMI_SUCCESS, client_objects, s') ∧
    (∀ i, 0 ≤ i < 20 → s' (address 16384 (stream demo_prog (0 + i))) =
                       demo_mem (address 4096 (stream demo_prog (20 + i)))) ∧
    (∀ x, (∀ i, 0 ≤ i < 20 → x ≠ address 16384 (stream demo_prog (0 + i))) →
       x < 65536 ∨ 65536 + TMP_BUF_SIZE ≤ x → s' x = demo_mem x).
Proof.
  apply (transform_data_correct 2000 false no_float no_user demo_prog demo_prog 4096 20 16384 0
    65536 20 4096 8192 16384 32768 client_objects 1000 1000 held_type held_type);
    try (unfold TMP_BUF_SIZE; lia); try exact client_demo; try exact client_contig_max;
    try (intros _; reflexivity).
  - apply typed_regionb_spec; [lia|vm_compute; reflexivity].
  - apply typed_regionb_spec; [lia|vm_compute; reflexivity].
  - apply stream_injective. vm_compute. reflexivity.
  - split; [vm_compute; discriminate|]. split; [vm_compute; discriminate|].
    split; by apply demo_fuel.
Defined.

(** [PAMI_Type_add_simple] places buffers as its documentation says: on an
    open type the layout gets a shift of [offset], then [count] buffers of
    [bytes], [stride] apart; a completed type is refused and nothing changes. *)
Theorem add_simple_places (V : Z → Prop) (junk : Z → Z) (G : Z → prog) (h : heap) (type : Z)
  (t : TypeCode) (n : nat) (bytes offset count stride : Z) (Hjunk : ∀ m, harmless (junk m))
  (HG : ∀ a, wf (G a)) (Ht : h !! type = Some t) :
  (completed t = true →
     PAMI_Type_add_simple junk h type bytes offset count stride = Ok (PAMI_INVAL, h)) ∧
  (binv harmless V n t → Z.of_nat (S (S n)) < max_ops → 0 ≤ bytes < 2 ^ 64 → 0 ≤ offset < 2 ^ 64 →
   0 ≤ count < 2 ^ 64 → 0 ≤ stride < 2 ^ 64 →
   psize (body_prog G (tc_body t)) + bytes * count < 2 ^ 64 →
   ∃ t', PAMI_Type_add_simple junk h type bytes offset count stride =
       Ok (PAMI_SUCCESS, <[type := t']> h) ∧ binv harmless V (S (S n)) t' ∧
     body_prog G (tc_body t') ≃ₚ
       papp (body_prog G (tc_body t)) (PShift offset (PCopy bytes stride count PEnd)) ∧
     ref_cnt t' = ref_cnt t).
Proof.
  split; [|by apply add_simple_open]. intros Hc.
  unfold PAMI_Type_add_simple, IsCompleted. rewrite Ht. cbn [of_option]. by rewrite bind_ret, Hc.
Qed.

Lemma add_simple_places_witness :
  (completed open_type = true →
     PAMI_Type_add_simple quiet client_objects 6000 4 8 3 16 = Ok (PAMI_INVAL, client_objects)) ∧
  (binv harmless (λ _, False) 1 open_type → Z.of_nat 3 < max_ops → 0 ≤ 4 < 2 ^ 64 → 0 ≤ 8 < 2 ^ 64 →
   0 ≤ 3 < 2 ^ 64 → 0 ≤ 16 < 2 ^ 64 → psize (body_prog client_G (tc_body open_type)) + 4 * 3 < 2 ^ 64 →
   ∃ t', PAMI_Type_add_simple quiet client_objects 6000 4 8 3 16 =
       Ok (PAMI_SUCCESS, <[6000 := t']> client_objects) ∧ binv harmless (λ _, False) 3 t' ∧
     body_prog client_G (tc_body t') ≃ₚ
       papp (body_prog client_G (tc_body open_type)) (PShift 8 (PCopy 4 16 3 PEnd)) ∧
     ref_cnt t' = ref_cnt open_type).
Proof.
  exact (add_simple_places (λ _, False) quiet client_G client_objects 6000 open_type 1 4 8 3 16
    quiet_harmless client_G_wf eq_refl).
Defined.

(** [PAMI_Type_add_typed] places buffers of a sub-type likewise; a completed
    type, or an incomplete sub-type, is refused and nothing changes. *)
Theorem add_typed_places (V : Z → Prop) (junk : Z → Z) (G : Z → prog) (h : heap)
  (type subtype : Z) (t sub : TypeCode) (n : nat) (offset count stride : Z)
  (Hjunk : ∀ m, harmless (junk m)) (HG : ∀ a, wf (G a)) (Hheap : heap_ok G h)
  (Ht : h !! type = Some t) (Hsub : h !! subtype = Some sub) :
  (completed t = true ∨ completed sub = false →
     PAMI_Type_add_typed junk h type subtype offset count stride = Ok (PAMI_INVAL, h)) ∧
  (completed sub = true → V subtype → binv harmless V n t → Z.of_nat (S (S n)) < max_ops →
   0 ≤ offset < 2 ^ 64 → 0 ≤ count < 2 ^ 64 → 0 ≤ stride < 2 ^ 64 →
   psize (body_prog G (tc_body t)) + psize (G subtype) * count < 2 ^ 64 →
   ∃ t', PAMI_Type_add_typed junk h type subtype offset count stride =
       Ok (PAMI_SUCCESS, <[type := t']> h) ∧ binv harmless V (S (S n)) t' ∧
     body_prog G (tc_body t') ≃ₚ
       papp (body_prog G (tc_body t)) (PShift offset (PCall (G subtype) stride count PEnd)) ∧
     ref_cnt t' = ref_cnt t).
Proof.
  split; [|intros; by eapply add_typed_open]. intros Hc.
  unfold PAMI_Type_add_typed, IsCompleted. rewrite Ht. cbn [of_option]. rewrite bind_ret.
  destruct (completed t); [done|]. destruct Hc as [|Hc]; [done|]. rewrite Hsub.
  cbn [of_option]. by rewrite bind_ret, Hc.
Qed.

Lemma add_typed_places_witness :
  (completed open_type = true ∨ completed held_type = false →
     PAMI_Type_add_typed quiet client_objects 6000 1000 8 3 40 = Ok (PAMI_INVAL, client_objects)) ∧
  (completed held_type = true → 1000 = 1000 → binv harmless (λ a, a = 1000) 1 open_type →
   Z.of_nat 3 < max_ops → 0 ≤ 8 < 2 ^ 64 → 0 ≤ 3 < 2 ^ 64 → 0 ≤ 40 < 2 ^ 64 →
   psize (body_prog client_G (tc_body open_type)) + psize (client_G 1000) * 3 < 2 ^ 64 →
   ∃ t', PAMI_Type_add_typed quiet client_objects 6000 1000 8 3 40 =
       Ok (PAMI_SUCCESS, <[6000 := t']> client_objects) ∧ binv harmless (λ a, a = 1000) 3 t' ∧
     body_prog client_G (tc_body t') ≃ₚ
       papp (body_prog client_G (tc_body open_type))
         (PShift 8 (PCall (client_G 1000) 40 3 PEnd)) ∧
     ref_cnt t' = ref_cnt open_type).
Proof.
  exact (add_typed_places (λ a, a = 1000) quiet client_G client_objects 6000 1000 open_type
    held_type 1 8 3 40 quiet_harmless client_G_wf client_heap_ok eq_refl eq_refl).
Defined.

(** [PAMI_Type_complete]: a completed type, or an atom size out of [1, 128],
    is refused and nothing changes.  Otherwise the type completes when the atom
    size divides the unit of its layout; when it does not, the assertion of
    [SetAtomSize] fails, since the check that should refuse it reads the unit
    before [Complete] computes it. *)
Theorem complete_atom_size (junk : Z → Z) (h : heap) (G : Z → prog) (type : Z) (t : TypeCode)
  (n : nat) (atom : Z) (Hjunk : ∀ m, harmless (junk m)) (HG : ∀ a, wf (G a))
  (Hheap : heap_ok G h) (Ht : h !! type = Some t) :
  (completed t = true ∨ atom < 1 ∨ 128 < atom →
     PAMI_Type_complete junk h type atom = Ok (PAMI_INVAL, h)) ∧
  (completable h G n t → 1 ≤ atom ≤ 128 →
   let p := body_prog G (tc_body t) in
   if punit p `mod` atom =? 0
   then ∃ t', PAMI_Type_complete junk h type atom = Ok (PAMI_SUCCESS, <[type := t']> h) ∧
          type_denotes t' p ∧ GetAtomSize t' = atom ∧ ref_cnt t' = ref_cnt t
   else PAMI_Type_complete junk h type atom = Err AssertFail).
Proof.
  split; [|intros; by eapply complete_open]. intros Hc.
  unfold PAMI_Type_complete, IsCompleted, MIN_ATOM_SIZE, MAX_ATOM_SIZE. rewrite Ht.
  cbn [of_option]. rewrite bind_ret. destruct (completed t); [done|].
  destruct Hc as [|[Hc|Hc]]; [done|by rewrite (proj2 (Z.ltb_lt atom 1))|].
  by rewrite (proj2 (Z.ltb_lt 128 atom)), orb_true_r.
Qed.

Lemma complete_atom_size_witness :
  (completed open_type = true ∨ 3 < 1 ∨ 128 < 3 →
     PAMI_Type_complete quiet client_objects 6000 3 = Ok (PAMI_INVAL, client_objects)) ∧
  (completable client_objects client_G 1 open_type → 1 ≤ 3 ≤ 128 →
   let p := body_prog client_G (tc_body open_type) in
   if punit p `mod` 3 =? 0
   then ∃ t', PAMI_Type_complete quiet client_objects 6000 3 =
            Ok (PAMI_SUCCESS, <[6000 := t']> client_objects) ∧
          type_denotes t' p ∧ GetAtomSize t' = 3 ∧ ref_cnt t' = ref_cnt open_type
   else PAMI_Type_complete quiet client_objects 6000 3 = Err AssertFail).
Proof.
  exact (complete_atom_size quiet client_objects client_G 6000 open_type 1 3 quiet_harmless
    client_G_wf client_heap_ok eq_refl).
Defined.



(** Without memory for the new type the result is [PAMI_INVAL] (the interface says
    [PAMI_ENOMEM]). *)
Theorem deserialize_out_of_memory (h : heap) (code : list Slot) (size : Z) :
  PAMI_Type_deserialize None h code size = Ok (PAMI_INVAL, h, None).
Proof. done. Qed.

(** [PAMI_Type_query] answers the layout's size and extent and the atom size,
    up to the first attribute it does not know: then it is refused, with the
    attributes before answered and the ones from there on untouched. *)
Theorem query_answers (h : heap) (type : Z) (t : TypeCode) (P : prog)
  (pre : list pami_configuration_t) (Ht : h !! type = Some t) (Hd : type_denotes t P)
  (Hpre : Forall (λ c, config_name c ≠ Other) pre) :
  PAMI_Type_query h type pre = Ok (PAMI_SUCCESS, map (answer t) pre) ∧
  (∀ c post, config_name c = Other →
     PAMI_Type_query h type (pre ++ c :: post) = Ok (PAMI_INVAL, map (answer t) pre ++ c :: post)) ∧
  GetDataSize t = psize P ∧ GetExtent t = w64 (ext P).
Proof.
  unfold PAMI_Type_query, IsCompleted. rewrite Ht. cbn [of_option]. rewrite !bind_ret.
  rewrite (td_completed _ _ Hd). cbn [negb]. split; [|split; [|split; apply Hd]].
  - rewrite <- (app_nil_r pre) at 1. rewrite query_loop_known by done. cbn [query_loop fst snd].
    by rewrite app_nil_r.
  - intros c post Hc. rewrite bind_ret, query_loop_known by done. cbn [query_loop].
    by rewrite Hc, (td_completed _ _ Hd).
Qed.

Lemma query_answers_witness :
  let pre := [mkConfig PAMI_TYPE_DATA_EXTENT 0; mkConfig PAMI_TYPE_DATA_SIZE 0] in
  PAMI_Type_query client_objects 1000 pre = Ok (PAMI_SUCCESS, map (answer held_type) pre) ∧
  (∀ c post, config_name c = Other →
     PAMI_Type_query client_objects 1000 (pre ++ c :: post) =
     Ok (PAMI_INVAL, map (answer held_type) pre ++ c :: post)) ∧
  GetDataSize held_type = psize demo_prog ∧ GetExtent held_type = w64 (ext demo_prog).
Proof.
  apply (query_answers client_objects 1000 held_type demo_prog
    [mkConfig PAMI_TYPE_DATA_EXTENT 0; mkConfig PAMI_TYPE_DATA_SIZE 0] eq_refl held_denotes).
  by repeat constructor.
Defined.

(** Between two contiguous types [PAMI_Type_transform_data] copies whatever
    function it is given: asked for the sum of two [long]s it answers the
    source. *)
Theorem transform_ignores_function (big : bool) (fl : float_ops)
  (user : Z → Z → Z → Z → Z → mem → res mem) (data_fn ck : Z) (s : mem) :
  PAMI_Type_transform_data 2000 big fl user 0 65536 client_objects 4096 5000 0 8192 5000 0 8
    data_fn ck s = Ok (PAMI_SUCCESS, client_objects, move 8192 4096 8 s).
Proof. reflexivity. Qed.

(** An open type does not keep its sub-types alive: a sub-type added, then
    destroyed by its only owner, is deleted, and completing the type reads it. *)
Theorem destroyed_subtype_dangles :
  ∃ h1 h2, PAMI_Type_add_typed quiet (<[1000 := AcquireReference demo_type]> client_objects)
      6000 1000 0 2 64 = Ok (PAMI_SUCCESS, h1) ∧
    PAMI_Type_destroy h1 1000 = Ok (PAMI_SUCCESS, h2, None) ∧ h2 !! 1000 = None ∧
    PAMI_Type_complete quiet h2 6000 1 = Err Fault.
Proof.
  eexists _, _. split; [reflexivity|]. split; [reflexivity|].
  split; vm_compute; reflexivity.
Qed.
