(* ===== verification/TypeEnumeratorProps.v ===== *)
(** The type enumerator (src/common/type/TypeEnumerator.h) goes through the
    streams of both types in step, in blocks contiguous in both. *)
From S2P Require Import Prelude.
From S2P Require Import Layout.
From S2P Require Import Memory.
From S2P Require Import TypeCode.
From S2P Require Import TypeCodeSpec.
From S2P Require Import TypeBuild.
From S2P Require Import TypeFunc.
From S2P Require Import TypeMachine.
From S2P Require Import TypeEnumerator.
From S2P Require Import TypeMachineSpec.
From S2P Require Import TypeCursorSpec.
From S2P Require Import TypeTransfer.
From S2P Require Import TypeMachineProps.
From S2P Require Import PamiTransfer.
From S2P Require Import PamiTypeProps.

#[local] Opaque w64.

(** * Blocks *)

Lemma expand_head d l bs n : 0 ≤ n ≤ l →
  expand ((d, l) :: bs) = map w64 (seqZ d n) ++ map w64 (seqZ (w64 (d + n)) (l - n)) ++ expand bs.
Proof.
  intros Hn. rewrite expand_cons, (assoc_L (++)). f_equal.
  replace l with (n + (l - n)) at 1 by lia. rewrite seqZ_app_add, map_app by lia. f_equal.
  apply seqZ_w64. symmetry. apply w64_eq64.
Qed.

Lemma covers_take P o d l bs n : covers P o (total ((d, l) :: bs)) ((d, l) :: bs) → 0 < n ≤ l →
  map w64 (seqZ d n) = slice P o n ∧
  (n = l → covers P (o + n) (total bs) bs) ∧
  (n < l → covers P (o + n) (total ((w64 (d + n), l - n) :: bs)) ((w64 (d + n), l - n) :: bs)).
Proof.
  intros (He&_&Hne) Hn. pose proof Hne as [Hl Hne']%Forall_cons.
  pose proof (total_nonneg bs Hne'). rewrite (expand_head d l bs n) in He by lia.
  cbn [total] in He. replace (l + total bs) with (n + (l - n + total bs)) in He by lia.
  rewrite slice_app in He by lia. apply app_inj_1 in He as [He1 He2];
    [|by rewrite length_map, length_seqZ, length_slice].
  split; [done|]. split.
  - intros ->. split; [|done]. rewrite Z.sub_diag, seqZ_nil in He2 by lia. cbn [map app] in He2.
    by rewrite He2, Z.add_0_l.
  - intros Hlt. split; [by rewrite expand_cons, He2|]. split; [done|]. constructor; [lia|done].
Qed.

(** * One side *)

(** The entries from the one in use on cover the stream from [o], and the machine
    is where they end. *)
Definition side (h : heap) (m : TypeMachine) (st : state_t) (P : prog) (o : Z) : Prop :=
  ∃ pre e rest, entries st = pre ++ e :: rest ∧ index st = Z.of_nat (length pre) ∧
    Z.of_nat (length (entries st)) = array_size ∧
    covers P o (total (e :: rest)) (e :: rest) ∧ sizes_fit (e :: rest) ∧
    machine_at h m P (o + total (e :: rest)) ∧ at_block m.

Lemma refill_side h m P o fuel : machine_at h m P o → at_block m →
  run_fuel P array_size ≤ Z.of_nat fuel →
  ∃ m' st, refill fuel h m = Ok (m', st) ∧ side h m' st P o ∧ GetType m' = GetType m.
Proof.
  intros Hm Hb Hf. unfold refill.
  destruct (EnumerateBlocks_machine h m P o array_size Hm Hb ltac:(done) fuel Hf)
    as (m'&bs&Hrun&Hcov&Hlen&Hfit&Hm'&Hb'&Ht).
  rewrite Hrun, bind_ret. exists m', (mkState bs 0). split; [done|]. split; [|done].
  destruct bs as [|e rest]; [done|]. exists [], e, rest. done.
Qed.

Lemma current_side h m st P o : side h m st P o → ∃ d l, current st = Ok (d, l) ∧
  0 < l < 2 ^ 64 ∧ ∀ n, 0 < n ≤ l → map w64 (seqZ d n) = slice P o n.
Proof.
  intros (pre&[d l]&rest&He&Hi&_&Hcov&Hfit&_). exists d, l. unfold current.
  rewrite He, Hi, Nat2Z.id, list_lookup_middle by done. split; [done|].
  pose proof Hcov as (_&_&[Hl _]%Forall_cons). apply Forall_cons in Hfit as [Hl' _].
  split; [done|]. intros n Hn. by eapply covers_take.
Qed.

Lemma consume_side h m st P o fuel d l n : side h m st P o → current st = Ok (d, l) →
  0 < n ≤ l → run_fuel P array_size ≤ Z.of_nat fuel →
  ∃ m' st', consume fuel h m st n = Ok (m', st') ∧ side h m' st' P (o + n) ∧
    GetType m' = GetType m.
Proof.
  intros (pre&e&rest&He&Hi&Hlen&Hcov&Hfit&Hm&Hb) Hcur Hn Hf. unfold consume. rewrite Hcur, bind_ret.
  unfold current in Hcur. rewrite He, Hi, Nat2Z.id, list_lookup_middle in Hcur by done.
  injection Hcur as ->. apply Forall_cons in Hfit as [Hl Hfit].
  destruct (covers_take P o d l rest n Hcov Hn) as (_&Heq&Hlt). cbn [total] in Hm.
  rewrite (w64_small (l - n)) by lia. cbn [index]. rewrite He, length_app in Hlen.
  cbn [length] in Hlen. unfold array_size in *.
  destruct (Z.eqb_spec (l - n) 0) as [H0|H0].
  - specialize (Heq ltac:(lia)). replace (o + (l + total rest)) with (o + n + total rest) in Hm by lia.
    rewrite Hi, w64_small by lia. destruct (Z.eqb_spec (Z.of_nat (length pre) + 1) 128) as [H1|H1].
    + destruct rest as [|e' rest]; [|cbn in Hlen; lia]. cbn [total] in Hm.
      rewrite Z.add_0_r in Hm. by apply refill_side.
    + eexists _, _. split; [reflexivity|]. split; [|done].
      destruct rest as [|e' rest]; [cbn in Hlen; lia|].
      exists (pre ++ [(w64 (d + n), l - n)]), e', rest. cbn [entries index].
      rewrite ?Hi, Nat2Z.id, He. replace (length pre) with (length pre + 0)%nat at 1 by lia.
      rewrite insert_app_r. cbn [insert list_insert]. rewrite !length_app. cbn [length].
      split; [by rewrite <- (assoc_L (++))|]. split; [lia|].
      split; [rewrite length_insert, length_app; unfold array_size; cbn [length] in *; lia|]. done.
  - rewrite Hi, (proj2 (Z.eqb_neq _ 128)) by lia. eexists _, _. split; [reflexivity|].
    split; [|done]. exists pre, (w64 (d + n), l - n), rest. cbn [entries index total].
    rewrite ?Hi, Nat2Z.id, He. replace (length pre) with (length pre + 0)%nat at 1 by lia.
    rewrite insert_app_r. cbn [insert list_insert]. split; [done|]. split; [done|].
    split; [rewrite length_insert, length_app; unfold array_size; cbn [length] in *; lia|]. split; [apply Hlt; lia|].
    split; [constructor; [lia|done]|]. split; [|done].
    by replace (o + n + (l - n + total rest)) with (o + (l + total rest)) by lia.
Qed.

(** * The enumerator *)

(** Both sides are at the same offset of their streams. *)
Definition enumerator_at (h : heap) (e : TypeEnumerator) (P Q : prog) (o : Z) : Prop :=
  side h (input_machine e) (input_state e) P o ∧ side h (output_machine e) (output_state e) Q o.

Lemma next_advances h e P Q o fuel : enumerator_at h e P Q o →
  run_fuel P array_size ≤ Z.of_nat fuel → run_fuel Q array_size ≤ Z.of_nat fuel →
  ∃ e' di dn n, next fuel h e = Ok (e', (di, dn, n)) ∧ 0 < n < 2 ^ 64 ∧
    map w64 (seqZ di n) = slice P o n ∧ map w64 (seqZ dn n) = slice Q o n ∧
    enumerator_at h e' P Q (o + n).
Proof.
  intros [Hi Ho] Hfi Hfo. unfold next.
  destruct (current_side _ _ _ _ _ Hi) as (di&li&Hci&Hli&Hsi).
  destruct (current_side _ _ _ _ _ Ho) as (dn&ln&Hcn&Hln&Hsn).
  rewrite Hci, bind_ret, Hcn, bind_ret. set (n := Z.min li ln).
  destruct (consume_side _ _ _ _ _ fuel di li n Hi Hci ltac:(lia) Hfi) as (im&ist&Hri&Hsi'&_).
  destruct (consume_side _ _ _ _ _ fuel dn ln n Ho Hcn ltac:(lia) Hfo) as (om&ost&Hro&Hso'&_).
  rewrite Hri, bind_ret, Hro, bind_ret. eexists _, di, dn, n. split; [reflexivity|].
  split; [lia|]. split; [apply Hsi; lia|]. split; [apply Hsn; lia|]. done.
Qed.

(** [k] calls of [next], and the blocks they report. *)
Fixpoint nexts (fuel : nat) (h : heap) (k : nat) (e : TypeEnumerator) :
    res (TypeEnumerator * list (Z * Z * Z)) :=
  match k with
  | O => mret (e, [])
  | S k =>
      '(e, b) ← next fuel h e;
      '(e, bs) ← nexts fuel h k e;
      mret (e, b :: bs)
  end.

(** The blocks of each side. *)
Definition inputs (l : list (Z * Z * Z)) : list (Z * Z) := map (λ '(i, _, n), (i, n)) l.
Definition outputs (l : list (Z * Z * Z)) : list (Z * Z) := map (λ '(_, o, n), (o, n)) l.

Lemma nexts_spec h P Q fuel k : run_fuel P array_size ≤ Z.of_nat fuel →
  run_fuel Q array_size ≤ Z.of_nat fuel → ∀ e o, enumerator_at h e P Q o →
  ∃ e' bs n, nexts fuel h k e = Ok (e', bs) ∧ length bs = k ∧ covers P o n (inputs bs) ∧
    covers Q o n (outputs bs) ∧ enumerator_at h e' P Q (o + n).
Proof.
  intros Hfp Hfq. induction k as [|k IH]; intros e o He; cbn [nexts].
  - exists e, [], 0. rewrite Z.add_0_r. do 2 (split; [done|]).
    split; [|split; [|done]]; (split; [by rewrite slice_nil|by split]).
  - destruct (next_advances h e P Q o fuel He Hfp Hfq) as (e1&di&dn&n1&Hnext&Hn1&Hdi&Hdn&He1).
    destruct (IH e1 (o + n1) He1) as (e2&bs&n2&Hrun&Hlen&Hci&Hco&He2).
    rewrite Hnext, bind_ret, Hrun, bind_ret. exists e2, ((di, dn, n1) :: bs), (n1 + n2).
    split; [done|]. split; [by cbn; rewrite Hlen|]. rewrite Z.add_assoc. unfold inputs, outputs.
    assert (0 ≤ n2) by (pose proof (total_nonneg _ (proj2 (proj2 Hci))); destruct Hci as (_&<-&_); done).
    cbn [map]. split; [|split; [|done]].
    + apply (covers_app P o n1 n2 [(di, n1)]); [lia|lia| |done].
      split; [by rewrite expand_cons, Hdi, app_nil_r|]. split; [cbn; lia|]. apply Forall_singleton. lia.
    + apply (covers_app Q o n1 n2 [(dn, n1)]); [lia|lia| |done].
      split; [by rewrite expand_cons, Hdn, app_nil_r|]. split; [cbn; lia|]. apply Forall_singleton. lia.
Qed.

(** * Construction *)

Lemma machine_on_stack contig_max h a cap h' m :
  machine_on contig_max h a cap = Ok (h', m) → stack m = [Cursor_start].
Proof.
  unfold machine_on. intros Hr. apply bind_Ok in Hr as (t&_&Hr).
  destruct (IsContiguous t); apply bind_Ok in Hr as (ty&_&Hr);
    destruct (GetDepth ty <=? cap); by injection Hr as <- <-.
Qed.

Lemma TypeMachine_new_at_block contig_max h a h' m :
  TypeMachine_new contig_max h a = Ok (h', m) → at_block m.
Proof.
  unfold TypeMachine_new. intros Hr. apply bind_Ok in Hr as (t&_&Hr).
  apply bind_Ok in Hr as (u&_&Hr). apply bind_Ok in Hr as (h1&_&Hr).
  unfold at_block. by rewrite (machine_on_stack _ _ _ _ _ _ Hr).
Qed.

Lemma covers_run_prog t P o n bs : type_denotes t P → 0 < psize P → 0 ≤ o →
  covers (run_prog t P) o n bs → covers P o n bs.
Proof.
  intros Hd Hp Ho (He&Ht&Hne). split; [|done]. rewrite He. unfold slice.
  apply map_ext_in. intros k Hk%list_elem_of_In%elem_of_seqZ. apply run_prog_stream; done || lia.
Qed.

Lemma run_prog_contiguous t t' P : IsContiguous t' = IsContiguous t → run_prog t' P = run_prog t P.
Proof. intros H. unfold run_prog. by rewrite H. Qed.

Lemma TypeEnumerator_new_spec contig_max h a b ta tb P Q fuel : has_contig_max contig_max h →
  client_type h a ta P → client_type h b tb Q →
  run_fuel (run_prog ta P) array_size ≤ Z.of_nat fuel →
  run_fuel (run_prog tb Q) array_size ≤ Z.of_nat fuel →
  ∃ h' e, TypeEnumerator_new contig_max fuel h a b = Ok (h', e) ∧
    enumerator_at h' e (run_prog ta P) (run_prog tb Q) 0.
Proof.
  intros Hcm Ha Hb Hfa Hfb. unfold TypeEnumerator_new.
  destruct (TypeMachine_new_spec contig_max h a ta P Hcm (ct_object _ _ _ _ Ha)
    (ct_denotes _ _ _ _ Ha) (ct_size _ _ _ _ Ha)) as (im&Hni&Him&_&_&_).
  pose proof (TypeMachine_new_at_block _ _ _ _ _ Hni) as Hbi. rewrite Hni, bind_ret.
  destruct (client_type_acquire h b tb Q a ta Hb (ct_object _ _ _ _ Ha)) as (tb1&Hb1&Hc1).
  set (h1 := <[a := AcquireReference ta]> h) in *.
  assert (Hcm1 : has_contig_max contig_max h1)
    by (eapply has_contig_max_insert; [done|apply Ha|done]).
  destruct (TypeMachine_new_spec contig_max h1 b tb1 Q Hcm1 (ct_object _ _ _ _ Hb1)
    (ct_denotes _ _ _ _ Hb1) (ct_size _ _ _ _ Hb1)) as (om&Hno&Hom&_&_&_).
  pose proof (TypeMachine_new_at_block _ _ _ _ _ Hno) as Hbo. rewrite Hno, bind_ret.
  rewrite (run_prog_contiguous tb tb1) in Hom by done.
  apply (machine_at_same h1 b tb1 (AcquireReference tb1)) in Him; [|apply Hb1|done].
  set (h2 := <[b := AcquireReference tb1]> h1) in *.
  destruct (refill_side h2 im _ 0 fuel Him Hbi Hfa) as (im'&ist&Hri&Hsi&_).
  destruct (refill_side h2 om _ 0 fuel Hom Hbo Hfb) as (om'&ost&Hro&Hso&_).
  rewrite Hri, bind_ret, Hro, bind_ret. eexists _, _. split; [reflexivity|]. done.
Qed.

(** * Properties *)

(** C10. The enumerator of two types reports, call after call of [next], blocks
    that cover the data of both from their starts: the blocks are not empty, at
    the input offsets they are the input type's bytes in order, at the output
    offsets the output type's, for as many calls as wanted (the types repeat). *)
Theorem enumerator_correct (contig_max : Z) (h : heap) (a b : Z) (ta tb : TypeCode)
  (P Q : prog) (fuel k : nat) (Hcm : has_contig_max contig_max h)
  (Ha : client_type h a ta P) (Hb : client_type h b tb Q)
  (Hfa : run_fuel (run_prog ta P) array_size ≤ Z.of_nat fuel)
  (Hfb : run_fuel (run_prog tb Q) array_size ≤ Z.of_nat fuel) :
  ∃ h' e e' bs n, TypeEnumerator_new contig_max fuel h a b = Ok (h', e) ∧
    nexts fuel h' k e = Ok (e', bs) ∧ length bs = k ∧
    covers P 0 n (inputs bs) ∧ covers Q 0 n (outputs bs).
Proof.
  destruct (TypeEnumerator_new_spec contig_max h a b ta tb P Q fuel Hcm Ha Hb Hfa Hfb)
    as (h'&e&Hnew&He).
  destruct (nexts_spec h' _ _ fuel k Hfa Hfb e 0 He) as (e'&bs&n&Hrun&Hlen&Hi&Ho&_).
  exists h', e, e', bs, n. split; [done|]. split; [done|]. split; [done|].
  destruct Ha, Hb. split; by eapply covers_run_prog.
Qed.

Lemma enumerator_correct_witness :
  ∃ h' e e' bs n, TypeEnumerator_new 2000 2000 client_objects 1000 5000 = Ok (h', e) ∧
    nexts 2000 h' 300 e = Ok (e', bs) ∧ length bs = 300%nat ∧
    covers demo_prog 0 n (inputs bs) ∧ covers (PCopy 8 8 1 PEnd) 0 n (outputs bs).
Proof.
  apply (enumerator_correct 2000 client_objects 1000 5000 held_type long_type demo_prog
    (PCopy 8 8 1 PEnd) 2000 300 client_contig_max client_demo client_long);
    vm_compute; discriminate.
Defined.
