(* ===== verification/Queue.v ===== *)
(** The intrusive queue, src/util/queue/Queue.h: a doubly linked list of elements
    that belong to the clients, with the queue's head, tail and size, and its
    iterator.  The interfaces of src/util/queue/QueueInterface.h and
    QueueIteratorInterface.h dispatch to these operations. *)
From S2P Require Import Prelude.

(** * Elements *)

(** [QueueElement<Queue>]: the links; [NULL] is 0. *)
Record Element := mkElement { e_prev : Z; e_next : Z }.

(** The elements the program allocated, by address. *)
Notation elements := (gmap Z Element).

Definition NULL : Z := 0.

(** The element at a pointer; a null or dangling pointer is a fault. *)
Definition deref (s : elements) (a : Z) : res Element :=
  defined (negb (a =? NULL));; of_option (s !! a).

Definition set (a previous next : Z) (s : elements) : res elements :=
  _ ← deref s a; mret (<[a := mkElement previous next]> s).
Definition setPrev (a element : Z) (s : elements) : res elements :=
  e ← deref s a; mret (<[a := mkElement element (e_next e)]> s).
Definition setNext (a element : Z) (s : elements) : res elements :=
  e ← deref s a; mret (<[a := mkElement (e_prev e) element]> s).
Definition prev (s : elements) (a : Z) : res Z := e ← deref s a; mret (e_prev e).
Definition next (s : elements) (a : Z) : res Z := e ← deref s a; mret (e_next e).

(** * The queue *)

Record Queue := mkQueue { q_head : Z; q_tail : Z; q_size : Z }.

Definition Queue_new : Queue := mkQueue NULL NULL 0.
Definition init (q : Queue) : Queue := mkQueue NULL NULL 0.

Definition incr (n : Z) : Z := w64 (n + 1).
Definition decr (n : Z) : Z := w64 (n - 1).

Definition enqueue (q : Queue) (element : Z) (s : elements) : res (Queue * elements) :=
  s ← set element (q_tail q) NULL s;
  if q_tail q =? NULL then mret (mkQueue element element (incr (q_size q)), s)
  else
    s ← setNext (q_tail q) element s;
    mret (mkQueue (q_head q) element (incr (q_size q)), s).

Definition dequeue (q : Queue) (s : elements) : res (Queue * elements * Z) :=
  let element := q_head q in
  if element =? NULL then mret (q, s, NULL) else
  head ← next s element;
  if head =? NULL then
    s ← setNext element NULL s;
    mret (mkQueue head NULL (decr (q_size q)), s, element)
  else
    s ← setPrev head NULL s;
    s ← setNext element NULL s;
    mret (mkQueue head (q_tail q) (decr (q_size q)), s, element).

Definition push (q : Queue) (element : Z) (s : elements) : res (Queue * elements) :=
  s ← set element NULL (q_head q) s;
  if q_head q =? NULL then mret (mkQueue element element (incr (q_size q)), s)
  else
    s ← setPrev (q_head q) element s;
    mret (mkQueue element (q_tail q) (incr (q_size q)), s).

Definition peek (q : Queue) : Z := q_head q.
Definition isEmpty (q : Queue) : bool := q_head q =? NULL.
Definition tail (q : Queue) : Z := q_tail q.
Definition size (q : Queue) : Z := q_size q.
Definition nextElem (s : elements) (reference : Z) : res Z := next s reference.
Definition before (s : elements) (reference : Z) : res Z := prev s reference.

(** The head, the tail and the size of what was removed. *)
Definition removeAll (q : Queue) : Queue * (Z * Z * Z) :=
  let out := (q_head q, q_tail q, q_size q) in
  if q_head q =? NULL then (q, out) else (mkQueue NULL NULL 0, out).

Definition appendAll (q : Queue) (head tail size : Z) (s : elements) : res (Queue * elements) :=
  let n := w64 (q_size q + size) in
  if q_tail q =? NULL then mret (mkQueue head tail n, s)
  else
    s ← setNext (q_tail q) head s;
    mret (mkQueue (q_head q) tail n, s).

Definition popTail (q : Queue) (s : elements) : res (Queue * elements * Z) :=
  let element := q_tail q in
  if element =? NULL then mret (q, s, NULL) else
  tail ← prev s element;
  if tail =? NULL then
    s ← setPrev element NULL s;
    mret (mkQueue NULL tail (decr (q_size q)), s, element)
  else
    s ← setNext tail NULL s;
    s ← setPrev element NULL s;
    mret (mkQueue (q_head q) tail (decr (q_size q)), s, element).

Definition insert (q : Queue) (reference element : Z) (s : elements) : res (Queue * elements) :=
  rprev ← prev s reference;
  s ← set element rprev reference s;
  s ← setNext rprev element s;
  s ← setPrev reference element s;
  mret (mkQueue (q_head q) (q_tail q) (incr (q_size q)), s).

Definition append (q : Queue) (reference element : Z) (s : elements) : res (Queue * elements) :=
  rnext ← next s reference;
  s ← set element reference rnext s;
  s ← setNext reference element s;
  s ← setPrev rnext element s;
  mret (mkQueue (q_head q) (q_tail q) (incr (q_size q)), s).

Definition remove (q : Queue) (element : Z) (s : elements) : res (Queue * elements) :=
  p ← prev s element;
  n ← next s element;
  '(head, s) ← (if negb (p =? NULL) then s ← setNext p n s; mret (q_head q, s)
                else mret (n, s));
  '(tail, s) ← (if negb (n =? NULL) then s ← setPrev n p s; mret (q_tail q, s)
                else mret (p, s));
  mret (mkQueue head tail (decr (q_size q)), s).

Definition safe_remove (q : Queue) (parent n : Z) (s : elements) : res (Queue * elements) :=
  '(head, s) ← (if parent =? NULL then mret (n, s)
                else s ← setNext parent n s; mret (q_head q, s));
  '(tail, s) ← (if n =? NULL then mret (parent, s)
                else s ← setPrev n parent s; mret (q_tail q, s));
  mret (mkQueue head tail (decr (q_size q)), s).

(** [for (i = 1; i < position; i++) insert = insert->next()]. *)
Fixpoint walk (s : elements) (n : nat) (a : Z) : res Z :=
  match n with O => mret a | S n => a ← next s a; walk s n a end.

Definition insertElem (q : Queue) (element position : Z) (s : elements) : res (Queue * elements) :=
  if position =? 0 then
    '(q, s) ← push q element s;
    mret (mkQueue (q_head q) (q_tail q) (incr (q_size q)), s)
  else
    at_ ← walk s (Z.to_nat (position - 1)) (q_head q);
    n ← next s at_;
    s ← set element at_ n s;
    s ← setNext at_ element s;
    mret (mkQueue (q_head q) (q_tail q) (incr (q_size q)), s).

(** * The iterator *)

Record Iterator := mkIterator { i_parent : Z; i_curr : Z; i_next : Z }.

Definition iter_init : Iterator := mkIterator NULL NULL NULL.

Definition iter_begin (q : Queue) (it : Iterator) : Iterator * bool :=
  (mkIterator NULL (peek q) (i_next it), false).

Definition iter_check (s : elements) (it : Iterator) : res (Iterator * bool) :=
  if i_curr it =? NULL then mret (it, false)
  else n ← nextElem s (i_curr it); mret (mkIterator (i_parent it) (i_curr it) n, true).

Definition iter_end (it : Iterator) : Iterator :=
  mkIterator (i_curr it) (i_next it) (i_next it).

Definition iter_current (it : Iterator) : Z := i_curr it.

(** Always [PAMI_SUCCESS]. *)
Definition iter_remove (q : Queue) (it : Iterator) (s : elements) :
    res (Queue * elements * Iterator) :=
  '(q, s) ← safe_remove q (i_parent it) (i_next it) s;
  mret (q, s, mkIterator (i_parent it) (i_parent it) (i_next it)).

(** The loop the iterator is made for (QueueIteratorInterface.h):
    [for (iter_begin; iter_check; iter_end)], which removes the current element
    when [f] says so.  It returns the elements removed. *)
Fixpoint iterate (f : Z → bool) (fuel : nat) (q : Queue) (it : Iterator) (s : elements) :
    res (Queue * elements * list Z) :=
  match fuel with
  | O => Err NoFuel
  | S fuel =>
      '(it, more) ← iter_check s it;
      if (more : bool) then
        let a := iter_current it in
        if f a then
          '(q, s, it) ← iter_remove q it s;
          '(q, s, gone) ← iterate f fuel q (iter_end it) s;
          mret (q, s, a :: gone)
        else iterate f fuel q (iter_end it) s
      else mret (q, s, [])
  end.

Definition iterate_all (f : Z → bool) (fuel : nat) (q : Queue) (s : elements) :
    res (Queue * elements * list Z) :=
  let '(it, _) := iter_begin q iter_init in iterate f fuel q it s.
