(* ===== verification/QueueSpec.v ===== *)
(** What the intrusive queue promises: each operation of src/util/queue/Queue.h
    implements one on the list of the elements from the head to the tail. *)
From S2P Require Import Prelude.
From S2P Require Import Queue.

#[local] Opaque w64.

(** * Linked segments *)

(** The first element of a list, or what comes after it; the last, or what comes
    before it. *)
Definition first (n : Z) (l : list Z) : Z := match l with [] => n | a :: _ => a end.
Fixpoint final (p : Z) (l : list Z) : Z := match l with [] => p | a :: l => final a l end.

(** The elements [l] are linked both ways, between [p] and [n]. *)
Fixpoint dlseg (s : elements) (p : Z) (l : list Z) (n : Z) : Prop :=
  match l with
  | [] => True
  | a :: l => a ≠ NULL ∧ s !! a = Some (mkElement p (first n l)) ∧ dlseg s a l n
  end.

Lemma first_app n l1 l2 : first n (l1 ++ l2) = first (first n l2) l1.
Proof. by destruct l1. Qed.

Lemma final_app p l1 l2 : final p (l1 ++ l2) = final (final p l1) l2.
Proof. revert p. induction l1 as [|a l1 IH]; intros p; cbn; [done|apply IH]. Qed.

Lemma final_in p l : l ≠ [] → final p l ∈ l.
Proof.
  revert p. induction l as [|a l IH]; [done|]. intros p _. cbn.
  destruct l as [|b l]; [by left|right; by apply IH].
Qed.

Lemma dlseg_app s p l1 l2 n :
  dlseg s p (l1 ++ l2) n ↔ dlseg s p l1 (first n l2) ∧ dlseg s (final p l1) l2 n.
Proof.
  revert p. induction l1 as [|a l1 IH]; intros p; cbn; [tauto|].
  rewrite first_app, IH. tauto.
Qed.

Lemma dlseg_in s p l n a : dlseg s p l n → a ∈ l → a ≠ NULL ∧ is_Some (s !! a).
Proof.
  revert p. induction l as [|b l IH]; intros p; cbn; [by intros _ ?%elem_of_nil|].
  intros (Hb&Hs&Hl) [->|Ha]%elem_of_cons; [by split; [|eexists]|by eapply IH].
Qed.

(** Elements outside of a segment do not matter. *)
Lemma dlseg_frame s s' p l n : (∀ a, a ∈ l → s' !! a = s !! a) → dlseg s p l n → dlseg s' p l n.
Proof.
  revert p. induction l as [|b l IH]; intros p Heq; cbn; [done|].
  intros (Hb&Hs&Hl). split; [done|]. split.
  - rewrite Heq; [done|by left].
  - apply IH; [|done]. intros a Ha. apply Heq. by right.
Qed.

Lemma first_null s p l : dlseg s p l NULL → first NULL l = NULL ↔ l = [].
Proof. destruct l; cbn; naive_solver. Qed.

Lemma final_null s l n : dlseg s NULL l n → final NULL l = NULL ↔ l = [].
Proof.
  intros Hd. split; [|by intros ->]. intros Hf. destruct l as [|a l]; [done|].
  by destruct (dlseg_in _ _ _ _ _ Hd (final_in NULL (a :: l) ltac:(done))) as [? _].
Qed.

Lemma deref_Ok s a e : a ≠ NULL → s !! a = Some e → deref s a = Ok e.
Proof. intros Ha He. unfold deref. by rewrite (proj2 (Z.eqb_neq a NULL)), He. Qed.

Lemma deref_null s : deref s NULL = Err Fault.
Proof. done. Qed.

(** Setting the link out of the end of a segment. *)
Lemma setNext_spec s p l n n' : NoDup l → l ≠ [] → dlseg s p l n →
  ∃ s', setNext (final NULL l) n' s = Ok s' ∧ dlseg s' p l n' ∧
    ∀ a, a ≠ final NULL l → s' !! a = s !! a.
Proof.
  intros Hnd Hne. destruct (list_snoc_inv l) as [->|(l1&b&->)]; [done|].
  rewrite dlseg_app, final_app. cbn. intros (H1&Hb&Hs&_).
  apply NoDup_app in Hnd as (_&Hnd&_). unfold setNext. rewrite (deref_Ok _ _ _ Hb Hs).
  eexists. split; [reflexivity|]. split; [|by intros; apply lookup_insert_ne].
  rewrite dlseg_app. cbn. rewrite lookup_insert_eq. split; [|done].
  eapply dlseg_frame; [|exact H1]. intros a Ha. apply lookup_insert_ne. intros ->.
  by apply (Hnd a Ha), list_elem_of_singleton.
Qed.

(** Setting the link out of the start of a segment. *)
Lemma setPrev_spec s p l n p' : NoDup l → l ≠ [] → dlseg s p l n →
  ∃ s', setPrev (first NULL l) p' s = Ok s' ∧ dlseg s' p' l n ∧
    ∀ a, a ≠ first NULL l → s' !! a = s !! a.
Proof.
  destruct l as [|b l]; [done|]. intros [Hb Hnd]%NoDup_cons _ (Hb0&Hs&Hl). cbn [first].
  unfold setPrev. rewrite (deref_Ok _ _ _ Hb0 Hs). eexists. split; [reflexivity|].
  split; [|by intros; apply lookup_insert_ne]. cbn. rewrite lookup_insert_eq.
  split; [done|]. split; [done|]. eapply dlseg_frame; [|exact Hl].
  intros a Ha. apply lookup_insert_ne. by intros ->.
Qed.

(** * The list of a queue *)

Record repr (s : elements) (q : Queue) (l : list Z) : Prop := {
  r_nodup : NoDup l;
  r_links : dlseg s NULL l NULL;
  r_head : q_head q = first NULL l;
  r_tail : q_tail q = final NULL l;
  r_size : q_size q = w64 (Z.of_nat (length l))
}.

Lemma repr_new s : repr s Queue_new [].
Proof. split; try done. apply NoDup_nil_2. Qed.

Lemma incr_length {A} (l : list A) n : n = w64 (Z.of_nat (length l)) →
  incr n = w64 (Z.of_nat (S (length l))).
Proof. intros ->. unfold incr. rewrite w64_add_l. f_equal. lia. Qed.

Lemma decr_length {A} (l : list A) n : n = w64 (Z.of_nat (S (length l))) →
  decr n = w64 (Z.of_nat (length l)).
Proof.
  intros ->. unfold decr. rewrite <- Z.add_opp_r, w64_add_l. f_equal. lia.
Qed.

(** An element of the program, not in the list. *)
Definition fresh (s : elements) (l : list Z) (a : Z) : Prop :=
  a ≠ NULL ∧ is_Some (s !! a) ∧ a ∉ l.

(** What an operation leaves alone. *)
Definition same_outside (l : list Z) (s s' : elements) : Prop :=
  ∀ a, a ∉ l → s' !! a = s !! a.

Lemma set_fresh s l a p n : fresh s l a →
  ∃ s', set a p n s = Ok s' ∧ s' !! a = Some (mkElement p n) ∧
    (∀ x, x ≠ a → s' !! x = s !! x) ∧ ∀ p' n', dlseg s p' l n' → dlseg s' p' l n'.
Proof.
  intros (Ha&[e He]&Hl). unfold set. rewrite (deref_Ok _ _ _ Ha He). eexists.
  split; [reflexivity|]. split; [apply lookup_insert_eq|].
  split; [by intros; apply lookup_insert_ne|]. intros p' n'. apply dlseg_frame.
  intros x Hx. apply lookup_insert_ne. by intros ->.
Qed.

(** * Operations *)

(** [c] succeeds, the queue has the list [l] after, and only its elements changed. *)
Definition becomes {A} (s : elements) (c : res A) (f : A → Queue * elements) (l : list Z)
    (changed : list Z) : Prop :=
  ∃ r, c = Ok r ∧ repr (f r).2 (f r).1 l ∧ same_outside changed s (f r).2.

Lemma NoDup_snoc {A} (l : list A) a : NoDup (l ++ [a]) ↔ NoDup l ∧ a ∉ l.
Proof.
  rewrite NoDup_app. split.
  - intros (H&Hd&_). split; [done|]. intros Ha. apply (Hd a Ha). by left.
  - intros [H Ha]. split; [done|]. split; [|apply NoDup_singleton].
    intros x Hx ->%list_elem_of_singleton. done.
Qed.

Lemma enqueue_spec s q l a : repr s q l → fresh s l a →
  becomes s (enqueue q a s) id (l ++ [a]) (l ++ [a]).
Proof.
  intros [Hnd Hl Hh Ht Hsz] Hf. pose proof Hf as (Ha&_&Hal).
  destruct (set_fresh s l a (q_tail q) NULL Hf) as (s1&Hset&Hs1&Hout1&Hfr).
  unfold becomes, enqueue. rewrite Hset. cbn [mbind res_bind].
  assert (Hsize : incr (q_size q) = w64 (Z.of_nat (length (l ++ [a])))).
  { rewrite length_app, Nat.add_comm. by apply incr_length. }
  destruct (Z.eqb_spec (q_tail q) NULL) as [H0|H0].
  - rewrite Ht in H0. apply (final_null s l NULL Hl) in H0 as ->.
    eexists. split; [reflexivity|]. split.
    + split; try done; [by apply NoDup_singleton|]. cbn in *. by rewrite Hs1, Ht.
    + intros x Hx. apply Hout1. intros ->. apply Hx. by left.
  - assert (Hne : l ≠ []) by (intros ->; by rewrite Ht in H0).
    destruct (setNext_spec s1 NULL l NULL a Hnd Hne (Hfr _ _ Hl)) as (s2&Hn&Hl2&Hout2).
    pose proof (final_in NULL l Hne) as Hfin.
    rewrite Ht, Hn. eexists. split; [reflexivity|]. split.
    + split; cbn [id fst snd q_head q_tail q_size].
      * by apply NoDup_snoc.
      * apply dlseg_app. cbn. split; [done|]. split; [done|]. split; [|done].
        rewrite Hout2, Hs1, Ht by (intros ->; done). done.
      * rewrite first_app, Hh. by destruct l.
      * by rewrite final_app.
      * done.
    + intros x Hx. apply not_elem_of_app in Hx as [Hx Hxa]. cbn [id snd].
      rewrite Hout2, Hout1; [done|intros ->; apply Hxa; by left|by intros ->].
Qed.

Lemma push_spec s q l a : repr s q l → fresh s l a →
  becomes s (push q a s) id (a :: l) (a :: l).
Proof.
  intros [Hnd Hl Hh Ht Hsz] Hf. pose proof Hf as (Ha&_&Hal).
  destruct (set_fresh s l a NULL (q_head q) Hf) as (s1&Hset&Hs1&Hout1&Hfr).
  unfold becomes, push. rewrite Hset. cbn [mbind res_bind].
  assert (Hsize : incr (q_size q) = w64 (Z.of_nat (length (a :: l)))) by (by apply incr_length).
  destruct (Z.eqb_spec (q_head q) NULL) as [H0|H0].
  - rewrite Hh in H0. apply (first_null s NULL l Hl) in H0 as ->.
    eexists. split; [reflexivity|]. split.
    + split; try done; [by apply NoDup_singleton|]. cbn in *. by rewrite Hs1, Hh.
    + intros x Hx. apply Hout1. intros ->. apply Hx. by left.
  - assert (Hne : l ≠ []) by (intros ->; by rewrite Hh in H0).
    destruct (setPrev_spec s1 NULL l NULL a Hnd Hne (Hfr _ _ Hl)) as (s2&Hn&Hl2&Hout2).
    rewrite Hh, Hn. assert (Hin : first NULL l ∈ l) by (destruct l; [done|by left]).
    eexists. split; [reflexivity|]. split.
    + split; cbn [id fst snd q_head q_tail q_size].
      * by apply NoDup_cons.
      * cbn. split; [done|]. split; [|done].
        rewrite Hout2, Hs1, Hh by (intros ->; done). done.
      * done.
      * rewrite Ht. by destruct l.
      * done.
    + intros x Hx. apply not_elem_of_cons in Hx as [Hxa Hx]. cbn [id snd].
      rewrite Hout2, Hout1; [done|done|by intros ->].
Qed.

(** Linking the two sides of a gap: the common part of the removals. *)
Lemma safe_remove_spec s q l1 a l2 : repr s q (l1 ++ a :: l2) →
  becomes s (safe_remove q (final NULL l1) (first NULL l2) s) id (l1 ++ l2) (l1 ++ l2).
Proof.
  intros [Hnd Hl Hh Ht Hsz]. apply dlseg_app in Hl as [H1 (Ha&Hsa&H2)].
  apply NoDup_app in Hnd as (Hnd1&Hd&[Ha2 Hnd2]%NoDup_cons).
  assert (Hd' : ∀ x, x ∈ l1 → x ∉ l2) by (intros x Hx Hx2; apply (Hd x Hx); by right).
  rewrite first_app in Hh. rewrite final_app in Ht. cbn [first final] in Hh, Ht.
  assert (Hlen : decr (q_size q) = w64 (Z.of_nat (length (l1 ++ l2)))).
  { apply decr_length. rewrite Hsz, !length_app. cbn [length]. f_equal. lia. }
  assert (Hnext : ∃ head s1, (if final NULL l1 =? NULL then mret (first NULL l2, s)
      else s ← setNext (final NULL l1) (first NULL l2) s; mret (q_head q, s)) = Ok (head, s1) ∧
    head = first NULL (l1 ++ l2) ∧ dlseg s1 NULL l1 (first NULL l2) ∧ dlseg s1 a l2 NULL ∧
    same_outside l1 s s1).
  { destruct (Z.eqb_spec (final NULL l1) NULL) as [H0|H0].
    - apply (final_null s l1 _ H1) in H0 as ->. by exists (first NULL l2), s.
    - assert (Hne : l1 ≠ []) by (by intros ->). pose proof (final_in NULL l1 Hne).
      destruct (setNext_spec s NULL l1 a (first NULL l2) Hnd1 Hne H1) as (s1&Hrun&Hl1&Hout).
      rewrite Hrun. eexists _, s1. split; [reflexivity|].
      split; [rewrite Hh, first_app; by destruct l1|]. split; [done|]. split.
      + eapply dlseg_frame; [|exact H2]. intros x Hx. apply Hout. intros ->. by eapply Hd'.
      + intros x Hx. apply Hout. by intros ->. }
  destruct Hnext as (head&s1&Hrun1&Hhead&Hl1&Hl2&Hout1).
  assert (Hprev : ∃ tail s2, (if first NULL l2 =? NULL then mret (final NULL l1, s1)
      else s ← setPrev (first NULL l2) (final NULL l1) s1; mret (q_tail q, s)) = Ok (tail, s2) ∧
    tail = final NULL (l1 ++ l2) ∧ dlseg s2 NULL l1 (first NULL l2) ∧
    dlseg s2 (final NULL l1) l2 NULL ∧ same_outside l2 s1 s2).
  { destruct (Z.eqb_spec (first NULL l2) NULL) as [H0|H0].
    - apply (first_null s1 a l2 Hl2) in H0 as ->. exists (final NULL l1), s1.
      by rewrite app_nil_r.
    - assert (Hne : l2 ≠ []) by (by intros ->).
      destruct (setPrev_spec s1 a l2 NULL (final NULL l1) Hnd2 Hne Hl2) as (s2&Hrun&Hl2'&Hout).
      assert (Hin : first NULL l2 ∈ l2) by (destruct l2; [done|by left]).
      rewrite Hrun. eexists _, s2. split; [reflexivity|].
      split; [rewrite Ht, final_app; by destruct l2|]. split; [|split; [done|]].
      + eapply dlseg_frame; [|exact Hl1]. intros x Hx. apply Hout. intros ->. by eapply Hd'.
      + intros x Hx. apply Hout. by intros ->. }
  destruct Hprev as (tl&s2&Hrun2&Htail&Hl1'&Hl2'&Hout2).
  unfold becomes, safe_remove. rewrite Hrun1. cbn [mbind res_bind]. rewrite Hrun2.
  eexists. split; [reflexivity|]. split.
  - split; cbn [id fst snd q_head q_tail q_size]; try done.
    + apply NoDup_app. auto.
    + by apply dlseg_app.
  - intros x Hx. apply not_elem_of_app in Hx as [Hx1 Hx2]. cbn [id snd].
    by rewrite Hout2, Hout1.
Qed.

(** The links of an element of the list. *)
Lemma repr_links s q l1 a l2 : repr s q (l1 ++ a :: l2) →
  a ≠ NULL ∧ s !! a = Some (mkElement (final NULL l1) (first NULL l2)).
Proof. intros [_ Hl _ _ _]. apply dlseg_app in Hl as [_ (?&?&_)]. done. Qed.

Lemma prev_spec s q l1 a l2 : repr s q (l1 ++ a :: l2) → prev s a = Ok (final NULL l1).
Proof. intros [Ha Hs]%repr_links. unfold prev. by rewrite (deref_Ok s a _ Ha Hs). Qed.

Lemma next_spec s q l1 a l2 : repr s q (l1 ++ a :: l2) → next s a = Ok (first NULL l2).
Proof. intros [Ha Hs]%repr_links. unfold next. by rewrite (deref_Ok s a _ Ha Hs). Qed.

Lemma remove_spec s q l1 a l2 : repr s q (l1 ++ a :: l2) →
  becomes s (remove q a s) id (l1 ++ l2) (l1 ++ l2).
Proof.
  intros Hr. destruct (safe_remove_spec s q l1 a l2 Hr) as (r&Hrun&Hpost).
  exists r. split; [|done]. rewrite <- Hrun. unfold remove, safe_remove.
  rewrite (prev_spec _ _ _ _ _ Hr), (next_spec _ _ _ _ _ Hr). cbn [mbind res_bind].
  by destruct (final NULL l1 =? NULL), (first NULL l2 =? NULL).
Qed.

(** Changing an element out of the list keeps the list. *)
Lemma repr_outside s s' q l : repr s q l → (∀ x, x ∈ l → s' !! x = s !! x) → repr s' q l.
Proof. intros [Hnd Hl Hh Ht Hsz] Heq. split; try done. by eapply dlseg_frame. Qed.

Lemma setNext_outside s q l a n e : repr s q l → a ∉ l → a ≠ NULL → s !! a = Some e →
  ∃ s', setNext a n s = Ok s' ∧ repr s' q l ∧ s' !! a = Some (mkElement (e_prev e) n) ∧
    ∀ x, x ≠ a → s' !! x = s !! x.
Proof.
  intros Hr Ha Ha0 He. unfold setNext. rewrite (deref_Ok _ _ _ Ha0 He).
  eexists. split; [reflexivity|]. split; [|split; [apply lookup_insert_eq|]].
  - eapply repr_outside; [done|]. intros x Hx. apply lookup_insert_ne. by intros ->.
  - intros x Hx. by apply lookup_insert_ne.
Qed.

Lemma setPrev_outside s q l a p e : repr s q l → a ∉ l → a ≠ NULL → s !! a = Some e →
  ∃ s', setPrev a p s = Ok s' ∧ repr s' q l ∧ s' !! a = Some (mkElement p (e_next e)) ∧
    ∀ x, x ≠ a → s' !! x = s !! x.
Proof.
  intros Hr Ha Ha0 He. unfold setPrev. rewrite (deref_Ok _ _ _ Ha0 He).
  eexists. split; [reflexivity|]. split; [|split; [apply lookup_insert_eq|]].
  - eapply repr_outside; [done|]. intros x Hx. apply lookup_insert_ne. by intros ->.
  - intros x Hx. by apply lookup_insert_ne.
Qed.

(** [dequeue] is the removal of the head, and clears its link. *)
Lemma dequeue_remove s q a l : repr s q (a :: l) →
  dequeue q s = '(q', s') ← safe_remove q NULL (first NULL l) s; s' ← setNext a NULL s'; mret (q', s', a).
Proof.
  intros Hr. destruct (repr_links s q [] a l Hr) as [Ha0 _].
  unfold dequeue, safe_remove. rewrite (r_head _ _ _ Hr). cbn [first].
  rewrite (proj2 (Z.eqb_neq a NULL)) by done. rewrite (next_spec s q [] a l Hr).
  cbn [mbind res_bind mret res_ret]. change (NULL =? NULL) with true. cbv iota.
  rewrite !bind_ret. destruct (first NULL l =? NULL); [done|]. by destruct (setPrev _ _ _).
Qed.

Lemma dequeue_spec s q a l : repr s q (a :: l) →
  ∃ q' s', dequeue q s = Ok (q', s', a) ∧ repr s' q' l ∧ same_outside (a :: l) s s' ∧
    s' !! a = Some (mkElement NULL NULL).
Proof.
  intros Hr. rewrite (dequeue_remove _ _ _ _ Hr).
  destruct (safe_remove_spec s q [] a l Hr) as ([q' s1]&Hrun&Hr1&Hout). cbn [app id fst snd] in *.
  cbn [final] in Hrun. rewrite Hrun. cbn [mbind res_bind].
  destruct (repr_links s q [] a l Hr) as [Ha0 Hsa].
  pose proof (r_nodup _ _ _ Hr) as [Ha Hnd]%NoDup_cons.
  destruct (setNext_outside s1 q' l a NULL (mkElement NULL (first NULL l)) Hr1 Ha Ha0)
    as (s2&Hset&Hr2&Hs2&Hout2); [by rewrite Hout|].
  rewrite Hset. exists q', s2. split; [done|]. split; [done|]. split; [|done].
  intros x Hx. apply not_elem_of_cons in Hx as [Hxa Hx]. by rewrite Hout2, Hout.
Qed.

Lemma dequeue_empty s q : repr s q [] → dequeue q s = Ok (q, s, NULL).
Proof. intros Hr. unfold dequeue. by rewrite (r_head _ _ _ Hr). Qed.

Lemma popTail_remove s q l a : repr s q (l ++ [a]) →
  popTail q s = '(q', s') ← safe_remove q (final NULL l) NULL s; s' ← setPrev a NULL s'; mret (q', s', a).
Proof.
  intros Hr. destruct (repr_links s q l a [] Hr) as [Ha0 _].
  unfold popTail, safe_remove. rewrite (r_tail _ _ _ Hr), final_app. cbn [final].
  rewrite (proj2 (Z.eqb_neq a NULL)) by done. rewrite (prev_spec s q l a [] Hr).
  cbn [mbind res_bind mret res_ret].
  destruct (final NULL l =? NULL) eqn:Hf; cbn [mbind res_bind].
  - apply Z.eqb_eq in Hf as ->. done.
  - destruct (setNext _ _ _); [|done]. cbn [mbind res_bind]. done.
Qed.

Lemma popTail_spec s q l a : repr s q (l ++ [a]) →
  ∃ q' s', popTail q s = Ok (q', s', a) ∧ repr s' q' l ∧ same_outside (l ++ [a]) s s'.
Proof.
  intros Hr. rewrite (popTail_remove _ _ _ _ Hr).
  destruct (safe_remove_spec s q l a [] Hr) as ([q' s1]&Hrun&Hr1&Hout).
  rewrite app_nil_r in *. cbn [id fst snd first] in *. rewrite Hrun. cbn [mbind res_bind].
  destruct (repr_links s q l a [] Hr) as [Ha0 Hsa].
  pose proof (r_nodup _ _ _ Hr) as [Hnd Ha]%NoDup_snoc.
  destruct (setPrev_outside s1 q' l a NULL (mkElement (final NULL l) NULL) Hr1 Ha Ha0)
    as (s2&Hset&Hr2&Hs2&Hout2); [by rewrite Hout|].
  rewrite Hset. exists q', s2. split; [done|]. split; [done|].
  intros x Hx. apply not_elem_of_app in Hx as [Hx Hxa].
  rewrite Hout2, Hout; [done|done|]. intros ->. apply Hxa. by left.
Qed.

Lemma popTail_empty s q : repr s q [] → popTail q s = Ok (q, s, NULL).
Proof. intros Hr. unfold popTail. by rewrite (r_tail _ _ _ Hr). Qed.

(** An element between two others: the common part of [insert] and [append]. *)
Definition splice (q : Queue) (p e n : Z) (s : elements) : res (Queue * elements) :=
  s ← set e p n s;
  s ← setNext p e s;
  s ← setPrev n e s;
  mret (mkQueue (q_head q) (q_tail q) (incr (q_size q)), s).

Lemma splice_spec s q l1 e l2 : repr s q (l1 ++ l2) → l1 ≠ [] → l2 ≠ [] → fresh s (l1 ++ l2) e →
  becomes s (splice q (final NULL l1) e (first NULL l2) s) id (l1 ++ e :: l2) (l1 ++ e :: l2).
Proof.
  intros [Hnd Hl Hh Ht Hsz] Hne1 Hne2 Hf. pose proof Hf as (He0&_&[He1 He2]%not_elem_of_app).
  apply NoDup_app in Hnd as (Hnd1&Hd&Hnd2).
  destruct (set_fresh s _ e (final NULL l1) (first NULL l2) Hf) as (s1&Hset&Hs1&Hout1&Hfr).
  apply Hfr in Hl. apply dlseg_app in Hl as [H1 H2].
  destruct (setNext_spec s1 NULL l1 _ e Hnd1 Hne1 H1) as (s2&Hn&H1'&Hout2).
  pose proof (final_in NULL l1 Hne1) as Hfin.
  assert (H2' : dlseg s2 (final NULL l1) l2 NULL).
  { eapply dlseg_frame; [|exact H2]. intros x Hx. apply Hout2. intros ->. by eapply Hd. }
  destruct (setPrev_spec s2 _ l2 NULL e Hnd2 Hne2 H2') as (s3&Hp&H2''&Hout3).
  assert (Hin : first NULL l2 ∈ l2) by (destruct l2; [done|by left]).
  unfold becomes, splice. rewrite Hset. cbn [mbind res_bind]. rewrite Hn.
  cbn [mbind res_bind]. rewrite Hp. eexists. split; [reflexivity|]. split.
  - split; cbn [id fst snd q_head q_tail q_size].
    + apply NoDup_app. split; [done|]. split; [|by apply NoDup_cons].
      intros x Hx [->|Hx2]%elem_of_cons; [done|by eapply Hd].
    + apply dlseg_app. cbn. split.
      * eapply dlseg_frame; [|exact H1']. intros x Hx. apply Hout3. intros ->. by eapply Hd.
      * split; [done|]. split; [|done]. rewrite Hout3, Hout2, Hs1 by (intros ->; done). done.
    + rewrite Hh, !first_app. by destruct l1.
    + rewrite Ht, !final_app. cbn. by destruct l2.
    + rewrite (incr_length (l1 ++ l2) _ Hsz), !length_app. cbn [length]. do 2 f_equal. lia.
  - intros x Hx. apply not_elem_of_app in Hx as [Hx1 Hx]. cbn [id snd].
    apply not_elem_of_cons in Hx as [Hxe Hx2].
    rewrite Hout3, Hout2, Hout1; [done|done|by intros ->|by intros ->].
Qed.

Lemma insert_spec s q l1 r l2 e : repr s q (l1 ++ r :: l2) → l1 ≠ [] →
  fresh s (l1 ++ r :: l2) e →
  becomes s (insert q r e s) id (l1 ++ e :: r :: l2) (l1 ++ e :: r :: l2).
Proof.
  intros Hr Hne Hf. unfold insert. rewrite (prev_spec _ _ _ _ _ Hr).
  by apply (splice_spec s q l1 e (r :: l2)).
Qed.

Lemma append_spec s q l1 r l2 e : repr s q (l1 ++ r :: l2) → l2 ≠ [] →
  fresh s (l1 ++ r :: l2) e →
  becomes s (append q r e s) id (l1 ++ r :: e :: l2) (l1 ++ r :: e :: l2).
Proof.
  intros Hr Hne Hf. unfold append. rewrite (next_spec _ _ _ _ _ Hr).
  pose proof (splice_spec s q (l1 ++ [r]) e l2) as H. rewrite final_app in H.
  rewrite <- !(assoc_L (++)) in H. cbn [app final] in H. apply H; try done. by destruct l1.
Qed.

(** At the ends of the list they go through a null pointer. *)
Lemma insert_head s q r l2 e : repr s q (r :: l2) → fresh s (r :: l2) e →
  insert q r e s = Err Fault.
Proof.
  intros Hr Hf. unfold insert. rewrite (prev_spec s q [] r l2 Hr). cbn [mbind res_bind final].
  destruct (set_fresh s _ e NULL r Hf) as (s1&->&_). cbn [mbind res_bind]. done.
Qed.

Lemma append_tail s q l1 r e : repr s q (l1 ++ [r]) → fresh s (l1 ++ [r]) e →
  append q r e s = Err Fault.
Proof.
  intros Hr Hf. unfold append. rewrite (next_spec s q l1 r [] Hr). cbn [mbind res_bind first].
  destruct (set_fresh s _ e r NULL Hf) as (s1&Hset&_&Hout1&_). rewrite Hset. cbn [mbind res_bind].
  destruct (repr_links s q l1 r [] Hr) as [Hr0 Hsr]. destruct Hf as (_&_&He).
  unfold setNext. rewrite (deref_Ok s1 r (mkElement (final NULL l1) NULL)); [done|done|].
  rewrite Hout1; [done|]. intros ->. apply He, elem_of_app. right. by left.
Qed.
