(* ===== verification/QueueProps.v ===== *)
(** Properties of the intrusive queue: any session of operations is the session on
    lists, the iterator removes what it is asked to, and what [appendAll] does. *)
From S2P Require Import Prelude.
From S2P Require Import Queue.
From S2P Require Import QueueSpec.

#[local] Opaque w64.

(** * Elements stay allocated *)

Definition allocated (s : elements) (a : Z) : Prop := is_Some (s !! a).
Definition keeps (s s' : elements) : Prop := ∀ a, allocated s a → allocated s' a.

Lemma keeps_refl s : keeps s s.
Proof. by intros a. Qed.
Lemma keeps_trans s1 s2 s3 : keeps s1 s2 → keeps s2 s3 → keeps s1 s3.
Proof. intros H1 H2 a Ha. by apply H2, H1. Qed.

Lemma insert_keeps (s : elements) a e : keeps s (<[a := e]> s).
Proof.
  intros x Hx. unfold allocated. destruct (decide (a = x)) as [->|].
  - rewrite lookup_insert_eq. eauto.
  - by rewrite lookup_insert_ne.
Qed.

Lemma set_keeps a p n s s' : set a p n s = Ok s' → keeps s s'.
Proof. unfold set. intros. inv_ok. apply insert_keeps. Qed.
Lemma setPrev_keeps a p s s' : setPrev a p s = Ok s' → keeps s s'.
Proof. unfold setPrev. intros. inv_ok. apply insert_keeps. Qed.
Lemma setNext_keeps a n s s' : setNext a n s = Ok s' → keeps s s'.
Proof. unfold setNext. intros. inv_ok. apply insert_keeps. Qed.

Ltac keep :=
  repeat match goal with
  | H : set _ _ _ _ = Ok _ |- _ => apply set_keeps in H
  | H : setPrev _ _ _ = Ok _ |- _ => apply setPrev_keeps in H
  | H : setNext _ _ _ = Ok _ |- _ => apply setNext_keeps in H
  | H : context [if ?b then _ else _] |- _ => destruct b
  | p : (_ * _)%type |- _ => destruct p
  | _ => progress inv_ok
  end; eauto using keeps_refl, keeps_trans.

(** * Sessions *)

(** The operations of a client, and what it gets back ([NULL] when nothing). *)
Inductive queue_cmd :=
| Enqueue (a : Z) | Push (a : Z) | Dequeue | PopTail | Peek | Tail
| Remove (a : Z) | Insert (reference a : Z) | Append (reference a : Z).

Definition run_queue_cmd (c : queue_cmd) (q : Queue) (s : elements) :
    res (Queue * elements * Z) :=
  match c with
  | Enqueue a => '(q, s) ← enqueue q a s; mret (q, s, NULL)
  | Push a => '(q, s) ← push q a s; mret (q, s, NULL)
  | Dequeue => dequeue q s
  | PopTail => popTail q s
  | Peek => mret (q, s, peek q)
  | Tail => mret (q, s, tail q)
  | Remove a => '(q, s) ← remove q a s; mret (q, s, NULL)
  | Insert r a => '(q, s) ← insert q r a s; mret (q, s, NULL)
  | Append r a => '(q, s) ← append q r a s; mret (q, s, NULL)
  end.

Fixpoint run_queue_cmds (cs : list queue_cmd) (q : Queue) (s : elements) :
    res (Queue * elements * list Z) :=
  match cs with
  | [] => mret (q, s, [])
  | c :: cs =>
      '(q, s, r) ← run_queue_cmd c q s;
      '(q, s, rs) ← run_queue_cmds cs q s;
      mret (q, s, r :: rs)
  end.

(** The same operations on the list of elements; none when the client breaks the
    rules: an element is in the queue once, a reference is in it, [insert] is not
    before the head and [append] not after the tail. *)
Fixpoint before_elem (r a : Z) (l : list Z) : option (list Z) :=
  match l with
  | [] => None
  | x :: l => if decide (x = r) then Some (a :: x :: l) else cons x <$> before_elem r a l
  end.
Fixpoint after_elem (r a : Z) (l : list Z) : option (list Z) :=
  match l with
  | [] => None
  | x :: l => if decide (x = r) then Some (x :: a :: l) else cons x <$> after_elem r a l
  end.

Definition new_elem (l : list Z) (a : Z) : option () :=
  if decide (a ≠ NULL ∧ a ∉ l) then Some () else None.

Definition list_cmd (c : queue_cmd) (l : list Z) : option (list Z * Z) :=
  match c with
  | Enqueue a => new_elem l a;; Some (l ++ [a], NULL)
  | Push a => new_elem l a;; Some (a :: l, NULL)
  | Dequeue => Some (drop 1 l, first NULL l)
  | PopTail => Some (removelast l, final NULL l)
  | Peek => Some (l, first NULL l)
  | Tail => Some (l, final NULL l)
  | Remove a => if decide (a ∈ l) then Some (filter (.≠ a) l, NULL) else None
  | Insert r a =>
      new_elem l a;;
      if decide (r = first NULL l) then None else l' ← before_elem r a l; Some (l', NULL)
  | Append r a =>
      new_elem l a;;
      if decide (r = final NULL l) then None else l' ← after_elem r a l; Some (l', NULL)
  end.

Fixpoint list_cmds (cs : list queue_cmd) (l : list Z) : option (list Z * list Z) :=
  match cs with
  | [] => Some (l, [])
  | c :: cs =>
      '(l, r) ← list_cmd c l;
      '(l, rs) ← list_cmds cs l;
      Some (l, r :: rs)
  end.

Definition cmd_elem (c : queue_cmd) : option Z :=
  match c with
  | Enqueue a | Push a | Insert _ a | Append _ a => Some a
  | _ => None
  end.

Lemma run_queue_cmd_keeps c q s q' s' r : run_queue_cmd c q s = Ok (q', s', r) → keeps s s'.
Proof.
  destruct c; cbn; unfold enqueue, push, dequeue, popTail, remove, insert, append; intros H; keep.
Qed.

Lemma before_elem_Some r a l l' : before_elem r a l = Some l' →
  ∃ l1 l2, l = l1 ++ r :: l2 ∧ l' = l1 ++ a :: r :: l2.
Proof.
  revert l'. induction l as [|x l IH]; intros l'; cbn; [done|]. case_decide as Hx.
  - intros [= <-]. exists [], l. by subst.
  - intros (k&Hk&->)%fmap_Some. destruct (IH k Hk) as (l1&l2&->&->). by exists (x :: l1), l2.
Qed.

Lemma after_elem_Some r a l l' : after_elem r a l = Some l' →
  ∃ l1 l2, l = l1 ++ r :: l2 ∧ l' = l1 ++ r :: a :: l2.
Proof.
  revert l'. induction l as [|x l IH]; intros l'; cbn; [done|]. case_decide as Hx.
  - intros [= <-]. exists [], l. by subst.
  - intros (k&Hk&->)%fmap_Some. destruct (IH k Hk) as (l1&l2&->&->). by exists (x :: l1), l2.
Qed.

(** One operation is the operation on lists. *)
Lemma list_cmd_spec c s q l l' r : repr s q l → list_cmd c l = Some (l', r) →
  (∀ a, cmd_elem c = Some a → allocated s a) →
  ∃ q' s', run_queue_cmd c q s = Ok (q', s', r) ∧ repr s' q' l'.
Proof.
  intros Hr Hc Hal.
  assert (Hnew : ∀ a, cmd_elem c = Some a → new_elem l a = Some () → fresh s l a).
  { intros a Ha Hn. unfold new_elem in Hn. case_decide; [|done]. split; [tauto|].
    split; [by apply Hal|tauto]. }
  destruct c; cbn in Hc; cbn [run_queue_cmd cmd_elem] in *.
  - destruct (new_elem l a) as [[]|] eqn:Hn; simplify_eq/=.
    destruct (enqueue_spec s q l a Hr (Hnew a eq_refl Hn)) as ([q' s']&->&?&_). eauto.
  - destruct (new_elem l a) as [[]|] eqn:Hn; simplify_eq/=.
    destruct (push_spec s q l a Hr (Hnew a eq_refl Hn)) as ([q' s']&->&?&_). eauto.
  - simplify_eq. destruct l as [|a l].
    + rewrite (dequeue_empty s q Hr). eauto.
    + destruct (dequeue_spec s q a l Hr) as (q'&s'&->&?&_). eauto.
  - simplify_eq. destruct (list_snoc_inv l) as [->|(k&a&->)].
    + rewrite (popTail_empty s q Hr). eauto.
    + rewrite removelast_last, final_app. destruct (popTail_spec s q k a Hr) as (q'&s'&->&?&_). eauto.
  - simplify_eq. unfold peek. rewrite (r_head _ _ _ Hr). eauto.
  - simplify_eq. unfold tail. rewrite (r_tail _ _ _ Hr). eauto.
  - case_decide as Ha; simplify_eq. apply list_elem_of_split in Ha as (l1&l2&->).
    rewrite filter_one by apply Hr.
    destruct (remove_spec s q l1 a l2 Hr) as ([q' s']&->&?&_). eauto.
  - destruct (new_elem l a) as [[]|] eqn:Hn; [|done]. cbn in Hc. case_decide as Hf; [done|].
    destruct (before_elem reference a l) as [k|] eqn:Hk; simplify_eq/=.
    apply before_elem_Some in Hk as (l1&l2&->&->).
    destruct (insert_spec s q l1 reference l2 a Hr) as ([q' s']&->&?&_);
      [by intros ->|by apply Hnew|eauto].
  - destruct (new_elem l a) as [[]|] eqn:Hn; [|done]. cbn in Hc. case_decide as Hf; [done|].
    destruct (after_elem reference a l) as [k|] eqn:Hk; simplify_eq/=.
    apply after_elem_Some in Hk as (l1&l2&->&->). rewrite final_app in Hf.
    destruct (append_spec s q l1 reference l2 a Hr) as ([q' s']&->&?&_);
      [by intros ->|by apply Hnew|eauto].
Qed.

(** All the operations of a session. *)
Lemma list_cmds_spec cs s q l l' rs : repr s q l → list_cmds cs l = Some (l', rs) →
  (∀ c a, c ∈ cs → cmd_elem c = Some a → allocated s a) →
  ∃ q' s', run_queue_cmds cs q s = Ok (q', s', rs) ∧ repr s' q' l'.
Proof.
  revert s q l rs. induction cs as [|c cs IH]; intros s q l rs Hr Hcs Hal.
  - simplify_eq/=. eauto.
  - cbn in Hcs. destruct (list_cmd c l) as [[l1 r]|] eqn:Hc; [|done]. cbn in Hcs.
    destruct (list_cmds cs l1) as [[l2 rs']|] eqn:Hcs'; simplify_eq/=.
    destruct (list_cmd_spec c s q l l1 r Hr Hc) as (q1&s1&Hrun&Hr1).
    { intros a. apply Hal. by left. }
    rewrite Hrun. cbn [mbind res_bind].
    destruct (IH s1 q1 l1 rs' Hr1 Hcs') as (q2&s2&->&Hr2).
    { intros d a Hd Ha. eapply run_queue_cmd_keeps, Hal; [exact Hrun|by right|done]. }
    by exists q2, s2.
Qed.

(** * Iteration *)

(** The iterator between the elements it kept and the ones to come. *)
Lemma iterate_spec f s q l1 l2 n fuel : repr s q (l1 ++ l2) → (length l2 < fuel)%nat →
  ∃ q' s', iterate f fuel q (mkIterator (final NULL l1) (first NULL l2) n) s =
    Ok (q', s', filter (λ a, f a = true) l2) ∧
    repr s' q' (l1 ++ filter (λ a, f a = false) l2) ∧ same_outside (l1 ++ l2) s s'.
Proof.
  revert fuel s q l1 n. induction l2 as [|a l2 IH]; intros fuel s q l1 n Hr Hf;
    (destruct fuel as [|fuel]; [cbn in Hf; lia|]).
  - exists q, s. by rewrite !filter_nil.
  - destruct (repr_links s q l1 a l2 Hr) as [Ha0 Hsa].
    cbn [iterate first]. unfold iter_check. cbn [i_curr].
    rewrite (proj2 (Z.eqb_neq a NULL)) by done. unfold nextElem.
    rewrite (next_spec s q l1 a l2 Hr). cbn [mbind res_bind mret res_ret iter_current i_curr].
    destruct (f a) eqn:Hfa.
    + unfold iter_remove. cbn [i_parent i_next].
      destruct (safe_remove_spec s q l1 a l2 Hr) as ([q1 s1]&Hrun&Hr1&Hout1). rewrite Hrun.
      unfold iter_end. cbn [mbind res_bind mret res_ret id fst snd i_parent i_next i_curr] in *.
      destruct (IH fuel s1 q1 l1 (first NULL l2)) as (q'&s'&->&Hr'&Hout); [done|cbn in Hf; lia|].
      exists q', s'. rewrite filter_cons_True, (filter_cons_False (λ a, f a = false)) by congruence.
      split; [done|]. split; [done|]. intros x Hx. rewrite elem_of_app, elem_of_cons in Hx.
      rewrite Hout, Hout1; [done|set_solver..].
    + unfold iter_end. cbn [i_curr i_next].
      destruct (IH fuel s q (l1 ++ [a]) (first NULL l2)) as (q'&s'&Hrun&Hr'&Hout);
        [by rewrite <- (assoc_L (++))|cbn in Hf; lia|].
      rewrite final_app in Hrun. cbn [final] in Hrun. rewrite Hrun. exists q', s'.
      rewrite (filter_cons_False (λ a, f a = true)), filter_cons_True by congruence.
      rewrite <- !(assoc_L (++)) in *. done.
Qed.

(** * Appending a detached queue *)

(** The elements follow each other by their [next] links. *)
Fixpoint forward (s : elements) (l : list Z) (n : Z) : Prop :=
  match l with
  | [] => True
  | a :: l => a ≠ NULL ∧ next s a = Ok (first n l) ∧ forward s l n
  end.

Lemma dlseg_forward s p l n : dlseg s p l n → forward s l n.
Proof.
  revert p. induction l as [|a l IH]; intros p; cbn; [done|]. intros (Ha&Hs&Hl).
  split; [done|]. split; [|by eapply IH]. unfold next. by rewrite (deref_Ok s a _ Ha Hs).
Qed.

Lemma forward_app s l1 l2 n : forward s l1 (first n l2) → forward s l2 n → forward s (l1 ++ l2) n.
Proof.
  induction l1 as [|a l1 IH]; cbn; [done|]. intros (Ha&Hn&Hl) H2. rewrite first_app. auto.
Qed.

(** [appendAll] of a non-empty list links it forwards only. *)
Lemma appendAll_spec s q l b l2 : repr s q l → l ≠ [] → NoDup (l ++ b :: l2) →
  dlseg s NULL (b :: l2) NULL →
  ∃ q1 s1, appendAll q b (final NULL (b :: l2)) (Z.of_nat (length (b :: l2))) s = Ok (q1, s1) ∧
    dlseg s1 NULL l b ∧ dlseg s1 NULL (b :: l2) NULL ∧ q_head q1 = first NULL l ∧
    q_tail q1 = final NULL (b :: l2) ∧ q_size q1 = w64 (Z.of_nat (length (l ++ b :: l2))).
Proof.
  intros [Hnd Hl Hh Ht Hsz] Hne Hnd' H2. apply NoDup_app in Hnd' as (_&Hd&_).
  destruct (setNext_spec s NULL l NULL b Hnd Hne Hl) as (s1&Hrun&Hl1&Hout).
  pose proof (final_in NULL l Hne) as Hfin. unfold appendAll. rewrite Ht.
  rewrite (proj2 (Z.eqb_neq _ _)) by (by rewrite (final_null s l NULL Hl)).
  rewrite Hrun. eexists _, s1. split; [reflexivity|]. cbn [q_head q_tail q_size].
  split; [done|]. split; [|split; [done|split; [done|]]].
  - eapply dlseg_frame; [|exact H2]. intros x Hx. apply Hout. intros ->. by eapply Hd.
  - rewrite Hsz, w64_add_l, length_app. f_equal. lia.
Qed.

(** [insertElem] at the front counts the element twice. *)
Lemma insertElem_front_counts_twice s q l a : repr s q l → fresh s l a →
  ∃ q' s', insertElem q a 0 s = Ok (q', s') ∧ q_head q' = a ∧
    q_size q' = w64 (Z.of_nat (S (S (length l)))).
Proof.
  intros Hr Hf. destruct (push_spec s q l a Hr Hf) as ([q1 s1]&Hrun&Hr1&_).
  unfold insertElem. change (0 =? 0) with true. cbv iota. rewrite Hrun.
  eexists _, _. split; [reflexivity|]. split; [apply (r_head _ _ _ Hr1)|].
  apply (incr_length (a :: l)), (r_size _ _ _ Hr1).
Qed.

(** * Properties *)

(** C26. Any session with a queue that keeps its rules runs without failure and is
    the session on the list of the elements: every operation returns what it returns
    there, and the queue at the end is linked both ways over that list, with its head,
    tail and size. *)
Theorem queue_session_refines (cs : list queue_cmd) (s : elements) (q : Queue) (l l' rs : list Z)
  (Hr : repr s q l) (Hcs : list_cmds cs l = Some (l', rs))
  (Hal : ∀ c a, c ∈ cs → cmd_elem c = Some a → allocated s a) :
  ∃ q' s', run_queue_cmds cs q s = Ok (q', s', rs) ∧ repr s' q' l'.
Proof. by eapply list_cmds_spec. Qed.

(** C29. A pass of the iterator that removes the elements [f] selects visits the whole
    queue once and ends: it returns the elements selected, in order, and leaves the
    others in the queue, in order; no element out of the queue changes. *)
Theorem iterate_all_removes (f : Z → bool) (s : elements) (q : Queue) (l : list Z) (fuel : nat)
  (Hr : repr s q l) (Hfuel : (length l < fuel)%nat) :
  ∃ q' s', iterate_all f fuel q s = Ok (q', s', filter (λ a, f a = true) l) ∧
    repr s' q' (filter (λ a, f a = false) l) ∧ same_outside l s s'.
Proof.
  unfold iterate_all, iter_begin, iter_init, peek. rewrite (r_head _ _ _ Hr).
  by apply (iterate_spec f s q [] l NULL fuel).
Qed.

(** [appendAll] of a detached list to a queue that has elements gives a queue whose
    elements follow each other forwards, with the sizes added; but the first element
    appended does not point back, so removing it makes its successor the head: the
    elements that were in the queue before are lost. *)
Theorem appendAll_half_linked (s : elements) (q : Queue) (l : list Z) (b : Z) (l2 : list Z)
  (Hr : repr s q l) (Hne : l ≠ []) (Hnd : NoDup (l ++ b :: l2))
  (H2 : dlseg s NULL (b :: l2) NULL) :
  ∃ q1 s1, appendAll q b (final NULL (b :: l2)) (Z.of_nat (length (b :: l2))) s = Ok (q1, s1) ∧
    forward s1 (l ++ b :: l2) NULL ∧ q_head q1 = first NULL l ∧
    q_tail q1 = final NULL (b :: l2) ∧ q_size q1 = w64 (Z.of_nat (length (l ++ b :: l2))) ∧
    ∃ q2 s2, remove q1 b s1 = Ok (q2, s2) ∧ q_head q2 = first NULL l2.
Proof.
  destruct (appendAll_spec s q l b l2 Hr Hne Hnd H2) as (q1&s1&Hrun&Hl1&Hl2&Hq1).
  exists q1, s1. split; [done|]. destruct Hl2 as (Hb&Hsb&Hl2). split.
  { apply forward_app; [by eapply dlseg_forward|]. eapply dlseg_forward with (p := NULL).
    by split. }
  destruct Hq1 as (?&?&?). do 3 (split; [done|]). unfold remove, prev, next.
  rewrite (deref_Ok s1 b _ Hb Hsb). cbn [mbind res_bind mret res_ret e_prev e_next].
  change (NULL =? NULL) with true. cbn [negb mbind res_bind].
  destruct (Z.eqb_spec (first NULL l2) NULL) as [Hz|Hz]; cbn [negb mbind res_bind]; [eauto|].
  assert (Hne2 : l2 ≠ []) by (by intros ->). unfold setPrev.
  destruct l2 as [|c l2]; [done|]. destruct Hl2 as (Hc&Hsc&_). cbn [first].
  rewrite bind_ret, (deref_Ok s1 c _ Hc Hsc). cbn. eauto.
Qed.

(** * Witnesses *)

(** Three elements of the program, and a queue of the first two. *)
Definition demo_elements : elements :=
  <[16 := mkElement 0 32]> (<[32 := mkElement 16 0]> (<[48 := mkElement 0 0]> ∅)).
Definition demo_queue : Queue := mkQueue 16 32 2.

Lemma demo_repr : repr demo_elements demo_queue [16; 32].
Proof.
  split; [|by vm_compute..]. apply NoDup_cons. split; [set_solver|apply NoDup_singleton].
Qed.

(** Inserting after the last element leaves the tail behind. *)
Example insertElem_leaves_tail :
  match insertElem demo_queue 48 2 demo_elements with
  | Ok (q, s) => next s 32 = Ok 48 ∧ q_tail q = 32
  | Err _ => False
  end.
Proof. by vm_compute. Qed.

Lemma queue_session_refines_witness :
  ∃ q' s', run_queue_cmds [Append 16 48; Remove 32; Dequeue; PopTail; Dequeue] demo_queue
    demo_elements = Ok (q', s', [0; 0; 16; 48; 0]) ∧ repr s' q' [].
Proof.
  apply (queue_session_refines _ demo_elements demo_queue [16; 32] [] _ demo_repr).
  - by vm_compute.
  - intros c a Hc Ha. exists (mkElement 0 0).
    repeat (apply elem_of_cons in Hc as [->|Hc]; [by simplify_eq/=|]). by apply elem_of_nil in Hc.
Defined.

Lemma iterate_all_removes_witness :
  ∃ q' s', iterate_all (λ a, a =? 16) 3 demo_queue demo_elements = Ok (q', s', [16]) ∧
    repr s' q' [32] ∧ same_outside [16; 32] demo_elements s'.
Proof. apply (iterate_all_removes (λ a, a =? 16) demo_elements demo_queue [16; 32] 3 demo_repr). cbn; lia. Defined.

Lemma appendAll_half_linked_witness :
  ∃ q1 s1, appendAll demo_queue 48 48 1 demo_elements = Ok (q1, s1) ∧
    forward s1 [16; 32; 48] NULL ∧ q_head q1 = 16 ∧ q_tail q1 = 48 ∧ q_size q1 = w64 3 ∧
    ∃ q2 s2, remove q1 48 s1 = Ok (q2, s2) ∧ q_head q2 = NULL.
Proof.
  apply (appendAll_half_linked demo_elements demo_queue [16; 32] 48 [] demo_repr).
  - done.
  - cbn. repeat (apply NoDup_cons; split; [set_solver|]). by apply NoDup_nil.
  - cbn. done.
Defined.
