(* ===== verification/QueueInterface.v ===== *)
(** The interface of the queues, src/util/queue/QueueInterface.h: what a class of
    queues offers its clients and what it promises them, and a client: a session of
    operations, which is the session on lists whatever the class. *)
From S2P Require Import Prelude.
From S2P Require Import Queue.
From S2P Require Import QueueSpec.

(** * The interface *)

(** [Interface::QueueInterface<T_Queue>]. *)
Class QueueInterface (T_Queue : Type) := {
  qi_enqueue : T_Queue → Z → elements → res (T_Queue * elements);
  qi_dequeue : T_Queue → elements → res (T_Queue * elements * Z);
  qi_push : T_Queue → Z → elements → res (T_Queue * elements);
  qi_peek : T_Queue → Z;
  qi_isEmpty : T_Queue → bool;
  qi_next : T_Queue → elements → Z → res Z
}.

(** The promises, over the list [holds] gives a queue: the one relation an
    implementation chooses. *)
Class QueueLaws (T_Queue : Type) `{QueueInterface T_Queue} := {
  holds : elements → T_Queue → list Z → Prop;
  holds_in s q l a : holds s q l → a ∈ l → a ≠ NULL;
  holds_nodup s q l : holds s q l → NoDup l;
  enqueue_holds s q l a : holds s q l → fresh s l a →
    ∃ q' s', qi_enqueue q a s = Ok (q', s') ∧ holds s' q' (l ++ [a]);
  push_holds s q l a : holds s q l → fresh s l a →
    ∃ q' s', qi_push q a s = Ok (q', s') ∧ holds s' q' (a :: l);
  dequeue_holds s q l : holds s q l →
    ∃ q' s', qi_dequeue q s = Ok (q', s', first NULL l) ∧ holds s' q' (drop 1 l);
  peek_holds s q l : holds s q l → qi_peek q = first NULL l;
  isEmpty_holds s q l : holds s q l → qi_isEmpty q = true ↔ l = [];
  next_holds s q l1 a l2 : holds s q (l1 ++ a :: l2) → qi_next q s a = Ok (first NULL l2);
  enqueue_keeps s q a s' q' : qi_enqueue q a s = Ok (q', s') → ∀ x, is_Some (s !! x) → is_Some (s' !! x);
  push_keeps s q a s' q' : qi_push q a s = Ok (q', s') → ∀ x, is_Some (s !! x) → is_Some (s' !! x);
  dequeue_keeps s q s' q' r : qi_dequeue q s = Ok (q', s', r) → ∀ x, is_Some (s !! x) → is_Some (s' !! x)
}.

(** * A session *)

Inductive interface_cmd :=
| IEnqueue (a : Z) | IPush (a : Z) | IDequeue | IPeek | IIsEmpty | INext (reference : Z).

Inductive answer := Nothing | Element_ (a : Z) | Bool_ (b : bool).

Section session.
Context {T_Queue : Type} `{QueueLaws T_Queue}.

Definition run_interface_cmd (c : interface_cmd) (q : T_Queue) (s : elements) :
    res (T_Queue * elements * answer) :=
  match c with
  | IEnqueue a => '(q, s) ← qi_enqueue q a s; mret (q, s, Nothing)
  | IPush a => '(q, s) ← qi_push q a s; mret (q, s, Nothing)
  | IDequeue => '(q, s, r) ← qi_dequeue q s; mret (q, s, Element_ r)
  | IPeek => mret (q, s, Element_ (qi_peek q))
  | IIsEmpty => mret (q, s, Bool_ (qi_isEmpty q))
  | INext a => r ← qi_next q s a; mret (q, s, Element_ r)
  end.

Fixpoint run_interface_cmds (cs : list interface_cmd) (q : T_Queue) (s : elements) :
    res (T_Queue * elements * list answer) :=
  match cs with
  | [] => mret (q, s, [])
  | c :: cs =>
      '(q, s, r) ← run_interface_cmd c q s;
      '(q, s, rs) ← run_interface_cmds cs q s;
      mret (q, s, r :: rs)
  end.

End session.

(** The session on lists; none when an element is in the queue already or a reference
    is not in it. *)
Fixpoint next_in (a : Z) (l : list Z) : option Z :=
  match l with
  | [] => None
  | x :: l => if decide (x = a) then Some (first NULL l) else next_in a l
  end.

Definition list_interface_cmd (c : interface_cmd) (l : list Z) : option (list Z * answer) :=
  match c with
  | IEnqueue a => if decide (a ≠ NULL ∧ a ∉ l) then Some (l ++ [a], Nothing) else None
  | IPush a => if decide (a ≠ NULL ∧ a ∉ l) then Some (a :: l, Nothing) else None
  | IDequeue => Some (drop 1 l, Element_ (first NULL l))
  | IPeek => Some (l, Element_ (first NULL l))
  | IIsEmpty => Some (l, Bool_ (bool_decide (l = [])))
  | INext a => r ← next_in a l; Some (l, Element_ r)
  end.

Fixpoint list_interface_cmds (cs : list interface_cmd) (l : list Z) :
    option (list Z * list answer) :=
  match cs with
  | [] => Some (l, [])
  | c :: cs =>
      '(l, r) ← list_interface_cmd c l;
      '(l, rs) ← list_interface_cmds cs l;
      Some (l, r :: rs)
  end.

(** The element a command brings. *)
Definition brings (c : interface_cmd) : option Z :=
  match c with IEnqueue a | IPush a => Some a | _ => None end.

Section laws.
Context {T_Queue : Type} `{QueueLaws T_Queue}.

Lemma next_in_Some a l r : next_in a l = Some r → ∃ l1 l2, l = l1 ++ a :: l2 ∧ r = first NULL l2.
Proof.
  induction l as [|x l IH]; cbn; [done|]. case_decide as Hx.
  - intros [= <-]. exists [], l. by subst.
  - intros Hr. destruct (IH Hr) as (l1&l2&->&->). by exists (x :: l1), l2.
Qed.

Lemma interface_cmd_spec c s q l l' r : holds s q l → list_interface_cmd c l = Some (l', r) →
  (∀ a, brings c = Some a → is_Some (s !! a)) →
  ∃ q' s', run_interface_cmd c q s = Ok (q', s', r) ∧ holds s' q' l' ∧
    ∀ x, is_Some (s !! x) → is_Some (s' !! x).
Proof.
  intros Hl Hc Hal. destruct c; cbn in *.
  - case_decide as Hf; simplify_eq.
    destruct (enqueue_holds s q l a Hl) as (q'&s'&Hr&Hl'); [repeat split; naive_solver|].
    rewrite Hr. exists q', s'. eauto using enqueue_keeps.
  - case_decide as Hf; simplify_eq.
    destruct (push_holds s q l a Hl) as (q'&s'&Hr&Hl'); [repeat split; naive_solver|].
    rewrite Hr. exists q', s'. eauto using push_keeps.
  - simplify_eq. destruct (dequeue_holds s q l Hl) as (q'&s'&Hr&Hl'). rewrite Hr.
    exists q', s'. eauto using dequeue_keeps.
  - simplify_eq. exists q, s. by rewrite (peek_holds s q l' Hl).
  - simplify_eq. exists q, s. split; [|done]. do 3 f_equal. pose proof (isEmpty_holds s q l' Hl).
    destruct (qi_isEmpty q); symmetry; [apply bool_decide_eq_true|apply bool_decide_eq_false];
      naive_solver.
  - destruct (next_in reference l) as [n|] eqn:Hn; simplify_eq/=.
    apply next_in_Some in Hn as (l1&l2&->&->). rewrite (next_holds s q l1 reference l2 Hl). eauto.
Qed.

Lemma interface_cmds_spec cs s q l l' rs : holds s q l →
  list_interface_cmds cs l = Some (l', rs) →
  (∀ c a, c ∈ cs → brings c = Some a → is_Some (s !! a)) →
  ∃ q' s', run_interface_cmds cs q s = Ok (q', s', rs) ∧ holds s' q' l'.
Proof.
  revert s q l rs. induction cs as [|c cs IH]; intros s q l rs Hl Hcs Hal; cbn in *.
  - simplify_eq. eauto.
  - destruct (list_interface_cmd c l) as [[l1 r]|] eqn:Hc; [|done]. cbn in Hcs.
    destruct (list_interface_cmds cs l1) as [[l2 rs']|] eqn:Hcs'; simplify_eq/=.
    destruct (interface_cmd_spec c s q l l1 r Hl Hc) as (q1&s1&->&Hl1&Hk).
    { intros a. apply Hal. by left. }
    cbn. destruct (IH s1 q1 l1 rs' Hl1 Hcs') as (q2&s2&->&Hl2).
    { intros d a Hd Ha. eapply Hk, Hal; [by right|done]. }
    by exists q2, s2.
Qed.

End laws.
