(* ===== verification/CircularQueue.v ===== *)
(** The circular queue, src/util/queue/CircularQueue.h: a doubly linked ring of
    elements of which the queue keeps the first; the last is the one before it.
    The element class of that file has the members of the one of Queue.h. *)
From S2P Require Import Prelude.
From S2P Require Import Queue.

(** [CircularQueue]: its head. *)
Record CircularQueue := mkCircularQueue { c_head : Z }.

Definition CircularQueue_new : CircularQueue := mkCircularQueue NULL.

(** [init] does nothing. *)
Definition init (q : CircularQueue) : CircularQueue := q.

(** All elements of another queue at the end; that queue is empty after. *)
Definition enqueue_queue (q queue : CircularQueue) (s : elements) :
    res (CircularQueue * CircularQueue * elements) :=
  if c_head queue =? NULL then mret (q, queue, s)
  else if c_head q =? NULL then mret (mkCircularQueue (c_head queue), mkCircularQueue NULL, s)
  else
    t0 ← prev s (c_head q);
    t1 ← prev s (c_head queue);
    s ← setNext t0 (c_head queue) s;
    s ← setNext t1 (c_head q) s;
    s ← setPrev (c_head queue) t0 s;
    s ← setPrev (c_head q) t1 s;
    mret (q, mkCircularQueue NULL, s).

Definition enqueue (q : CircularQueue) (element : Z) (s : elements) :
    res (CircularQueue * elements) :=
  if c_head q =? NULL then
    s ← set element element element s;
    mret (mkCircularQueue element, s)
  else
    n ← next s (c_head q);
    if n =? c_head q then
      s ← set element (c_head q) (c_head q) s;
      s ← set (c_head q) element element s;
      mret (q, s)
    else
      p ← prev s (c_head q);
      s ← set element p (c_head q) s;
      p ← prev s (c_head q);
      s ← setNext p element s;
      s ← setPrev (c_head q) element s;
      mret (q, s).

Definition dequeue (q : CircularQueue) (s : elements) : res (CircularQueue * elements * Z) :=
  let element := c_head q in
  if element =? NULL then mret (q, s, NULL) else
  n ← next s element;
  if n =? element then mret (mkCircularQueue NULL, s, element)
  else
    p ← prev s element;
    s ← setPrev n p s;
    p ← prev s element;
    s ← setNext p n s;
    mret (mkCircularQueue n, s, element).

Definition push (q : CircularQueue) (element : Z) (s : elements) :
    res (CircularQueue * elements) :=
  if c_head q =? NULL then
    s ← set element element element s;
    mret (mkCircularQueue element, s)
  else
    p ← prev s (c_head q);
    s ← set element p (c_head q) s;
    p ← prev s (c_head q);
    s ← setNext p element s;
    s ← setPrev (c_head q) element s;
    mret (mkCircularQueue element, s).

Definition peek (q : CircularQueue) : Z := c_head q.
Definition isEmpty (q : CircularQueue) : bool := c_head q =? NULL.

(** The element after one of the queue's; none after the last. *)
Definition nextElem (q : CircularQueue) (s : elements) (reference : Z) : res Z :=
  n ← next s reference;
  mret (if n =? c_head q then NULL else n).
