(* ===== verification/CircularQueueProps.v ===== *)
(** The two queues implement the queue interface: the doubly linked one of Queue.h and
    the circular one of CircularQueue.h. *)
From S2P Require Import Prelude.
From S2P Require Import Queue.
From S2P Require Import QueueSpec.
From S2P Require Import QueueProps.
From S2P Require Import QueueInterface.
From S2P Require Import CircularQueue.

(** * The doubly linked queue *)

#[export] Instance Queue_interface : QueueInterface Queue := {
  qi_enqueue := Queue.enqueue; qi_dequeue := Queue.dequeue; qi_push := Queue.push;
  qi_peek := Queue.peek; qi_isEmpty := Queue.isEmpty; qi_next := λ _, Queue.nextElem
}.

#[export] Instance Queue_laws : QueueLaws Queue.
Proof.
  refine {| holds := repr |}; cbn [qi_enqueue qi_dequeue qi_push qi_peek qi_isEmpty qi_next Queue_interface].
  - intros s q l a Hr Ha. by apply (dlseg_in _ _ _ _ _ (r_links _ _ _ Hr) Ha).
  - intros s q l Hr. apply Hr.
  - intros s q l a Hr Hf. destruct (enqueue_spec s q l a Hr Hf) as ([q' s']&->&?&_). eauto.
  - intros s q l a Hr Hf. destruct (push_spec s q l a Hr Hf) as ([q' s']&->&?&_). eauto.
  - intros s q [|a l] Hr; [rewrite (dequeue_empty s q Hr); eauto|].
    destruct (dequeue_spec s q a l Hr) as (q'&s'&->&?&_). eauto.
  - intros s q l Hr. apply Hr.
  - intros s q l Hr. unfold Queue.isEmpty. rewrite Z.eqb_eq, (r_head _ _ _ Hr).
    eapply first_null, Hr.
  - intros s q l1 a l2. apply next_spec.
  - unfold Queue.enqueue. intros s q a s' q' Hrun. change (keeps s s'). keep.
  - unfold Queue.push. intros s q a s' q' Hrun. change (keeps s s'). keep.
  - unfold Queue.dequeue. intros s q s' q' r Hrun. change (keeps s s'). keep.
Defined.

(** * The circular queue *)

(** A ring over [l]: the last element links back to the first. *)
Record crepr (s : elements) (q : CircularQueue) (l : list Z) : Prop := {
  cr_nodup : NoDup l;
  cr_head : c_head q = first NULL l;
  cr_ring : dlseg s (final NULL l) l (first NULL l)
}.

Lemma crepr_head s q a l : crepr s q (a :: l) →
  c_head q = a ∧ a ≠ NULL ∧ (c_head q =? NULL) = false.
Proof. intros [_ Hh (Ha&_)]. cbn in Hh. subst. split; [done|]. split; [done|]. by apply Z.eqb_neq. Qed.

Lemma crepr_empty s q : c_head q = NULL ↔ crepr s q [].
Proof. split; [intros Hq; split; [by apply NoDup_nil_2|done|done]|by intros [_ -> _]]. Qed.

Lemma final_snoc p l : l ≠ [] → ∀ p', final p l = final p' l.
Proof. destruct l; done. Qed.

(** The links of the first element. *)
Lemma ring_first s q a l : crepr s q (a :: l) →
  s !! a = Some (mkElement (final a l) (first a l)).
Proof. intros [_ _ (_&Hs&_)]. done. Qed.

Lemma ring_prev s q a l : crepr s q (a :: l) → prev s a = Ok (final a l).
Proof.
  intros Hr. unfold prev. destruct (crepr_head _ _ _ _ Hr) as (_&Ha&_).
  by rewrite (deref_Ok s a _ Ha (ring_first s q a l Hr)).
Qed.

Lemma ring_next s q a l : crepr s q (a :: l) → next s a = Ok (first a l).
Proof.
  intros Hr. unfold next. destruct (crepr_head _ _ _ _ Hr) as (_&Ha&_).
  by rewrite (deref_Ok s a _ Ha (ring_first s q a l Hr)).
Qed.

(** The element after the first is the first only in a ring of one. *)
Lemma ring_single s q a l : crepr s q (a :: l) → (first a l =? a) = bool_decide (l = []).
Proof.
  intros [[Hnd _]%NoDup_cons _ _]. destruct l as [|b l]; cbn.
  - by rewrite Z.eqb_refl.
  - rewrite (proj2 (Z.eqb_neq b a)); [done|]. intros ->. apply Hnd. by left.
Qed.

(** [element] between the last and the first: the part [enqueue] and [push] share. *)
Definition link_in (element head : Z) (s : elements) : res elements :=
  p ← prev s head;
  s ← set element p head s;
  p ← prev s head;
  s ← setNext p element s;
  setPrev head element s.

Lemma link_in_spec s q x l e : crepr s q (x :: l) → fresh s (x :: l) e →
  ∃ s', link_in e x s = Ok s' ∧ dlseg s' e (x :: l) e ∧ s' !! e = Some (mkElement (final x l) x).
Proof.
  intros Hr Hf. pose proof Hr as [Hnd _ Hring]. pose proof Hf as (_&_&He).
  destruct (set_fresh s _ e (final x l) x Hf) as (s1&Hset&Hs1&Hout1&Hfr).
  unfold link_in. rewrite (ring_prev s q x l Hr). cbn [mbind res_bind]. rewrite Hset.
  cbn [mbind res_bind]. assert (Hr1 : crepr s1 q (x :: l)) by (split; [done|apply Hr|by apply Hfr]).
  rewrite (ring_prev s1 q x l Hr1). cbn [mbind res_bind].
  destruct (setNext_spec s1 (final x l) (x :: l) x e Hnd) as (s2&Hrun2&Hl2&Hout2);
    [done|apply Hr1|]. cbn [final] in Hrun2, Hout2. rewrite Hrun2. cbn [mbind res_bind].
  destruct (setPrev_spec s2 (final x l) (x :: l) e e Hnd) as (s3&Hrun3&Hl3&Hout3); [done|done|].
  cbn [first] in Hrun3, Hout3. exists s3. split; [done|]. split; [done|].
  rewrite Hout3, Hout2, Hs1; [done| |].
  - intros ->. apply He. apply (final_in NULL (x :: l)). done.
  - intros ->. apply He. by left.
Qed.

(** The branch of [enqueue] for a ring of one does the same. *)
Lemma link_in_single s q x e : crepr s q [x] → fresh s [x] e →
  (s ← set e x x s; set x e e s) = link_in e x s.
Proof.
  intros Hr (He&[ee Hee]&Hne). destruct (crepr_head _ _ _ _ Hr) as (_&Hx&_).
  pose proof (ring_first s q x [] Hr) as Hs. cbn in Hs.
  assert (Hex : e ≠ x) by (intros ->; apply Hne; by left).
  unfold link_in. rewrite (ring_prev s q x [] Hr). cbn [mbind res_bind final].
  unfold set, prev, setNext, setPrev. rewrite !(deref_Ok s e _ He Hee), !bind_ret.
  set (s1 := <[e := mkElement x x]> s).
  assert (Hs1 : s1 !! x = Some (mkElement x x)) by (unfold s1; by rewrite lookup_insert_ne).
  rewrite !(deref_Ok s1 x _ Hx Hs1). cbn [mbind res_bind mret res_ret e_prev e_next].
  rewrite !(deref_Ok s1 x _ Hx Hs1). cbn [mbind res_bind mret res_ret e_prev e_next].
  rewrite (deref_Ok _ x (mkElement x e) Hx) by apply lookup_insert_eq.
  cbn [mbind res_bind mret res_ret e_prev e_next]. by rewrite insert_insert_eq.
Qed.

Lemma enqueue_empty_ring s e : fresh s [] e →
  ∃ s', set e e e s = Ok s' ∧ crepr s' (mkCircularQueue e) [e].
Proof.
  intros Hf. destruct (set_fresh s [] e e e Hf) as (s'&->&Hs'&_). exists s'. split; [done|].
  split; [by apply NoDup_singleton|done|]. cbn. split; [apply Hf|done].
Qed.

(** [enqueue] links the element in, whatever the length of the ring. *)
Lemma enqueue_link s q x l e : crepr s q (x :: l) → fresh s (x :: l) e →
  enqueue q e s = s ← link_in e x s; mret (q, s).
Proof.
  intros Hr Hf. destruct (crepr_head _ _ _ _ Hr) as (Hh&Hx&Hx0). unfold enqueue.
  rewrite Hx0, Hh, (ring_next s q x l Hr). cbn [mbind res_bind].
  rewrite (ring_single s q x l Hr). destruct l as [|y l].
  - cbn [bool_decide]. rewrite <- (link_in_single s q x e Hr Hf), bind_assoc. done.
  - rewrite bool_decide_eq_false_2 by done. unfold link_in. rewrite !bind_assoc.
    apply bind_ext. intros p. rewrite !bind_assoc. apply bind_ext. intros s1.
    rewrite !bind_assoc. apply bind_ext. intros p1. by rewrite !bind_assoc.
Qed.

Lemma push_link s q x l e : crepr s q (x :: l) →
  push q e s = s ← link_in e x s; mret (mkCircularQueue e, s).
Proof.
  intros Hr. destruct (crepr_head _ _ _ _ Hr) as (Hh&_&Hx0). unfold push, link_in.
  rewrite Hx0, Hh, !bind_assoc. apply bind_ext. intros p. rewrite !bind_assoc.
  apply bind_ext. intros s1. rewrite !bind_assoc. apply bind_ext. intros p1.
  by rewrite !bind_assoc.
Qed.

Lemma c_enqueue_spec s q l e : crepr s q l → fresh s l e →
  ∃ q' s', enqueue q e s = Ok (q', s') ∧ crepr s' q' (l ++ [e]).
Proof.
  intros Hr Hf. destruct l as [|x l].
  - unfold enqueue. apply crepr_empty in Hr as ->. destruct (enqueue_empty_ring s e Hf) as (s'&Hrun&Hr').
    change (NULL =? NULL) with true. cbv iota. rewrite Hrun. exists (mkCircularQueue e), s'. done.
  - rewrite (enqueue_link s q x l e Hr Hf).
    destruct (link_in_spec s q x l e Hr Hf) as (s'&->&Hl&He). exists q, s'. split; [done|].
    destruct Hf as (He0&_&He1). split.
    + apply NoDup_snoc. split; [apply (cr_nodup _ _ _ Hr)|done].
    + apply (cr_head _ _ _ Hr).
    + rewrite final_app. cbn [final]. apply dlseg_app. split; [done|]. cbn [final dlseg first app].
      done.
Qed.

Lemma c_push_spec s q l e : crepr s q l → fresh s l e →
  ∃ q' s', push q e s = Ok (q', s') ∧ crepr s' q' (e :: l).
Proof.
  intros Hr Hf. destruct l as [|x l].
  - unfold push. apply crepr_empty in Hr as ->. destruct (enqueue_empty_ring s e Hf) as (s'&Hrun&Hr').
    change (NULL =? NULL) with true. cbv iota. rewrite Hrun. exists (mkCircularQueue e), s'. done.
  - rewrite (push_link s q x l e Hr).
    destruct (link_in_spec s q x l e Hr Hf) as (s'&->&Hl&He). exists (mkCircularQueue e), s'.
    split; [done|]. destruct Hf as (He0&_&He1). split; [|done|].
    + apply NoDup_cons. split; [done|apply (cr_nodup _ _ _ Hr)].
    + cbn [final first]. split; [done|]. split; [done|]. exact Hl.
Qed.

Lemma c_dequeue_spec s q l : crepr s q l →
  ∃ q' s', dequeue q s = Ok (q', s', first NULL l) ∧ crepr s' q' (drop 1 l).
Proof.
  intros Hr. destruct l as [|x l].
  - pose proof Hr as Hq. apply crepr_empty in Hq. unfold dequeue. rewrite Hq. exists q, s. done.
  - destruct (crepr_head _ _ _ _ Hr) as (Hh&Hx&Hx0). unfold dequeue.
    rewrite Hx0, Hh, (ring_next s q x l Hr). cbn [mbind res_bind].
    rewrite (ring_single s q x l Hr). destruct l as [|y l].
    + cbn [bool_decide]. exists (mkCircularQueue NULL), s. split; [done|]. by apply crepr_empty.
    + rewrite bool_decide_eq_false_2 by done. rewrite (ring_prev s q x _ Hr).
      cbn [mbind res_bind first final].
      pose proof (cr_nodup _ _ _ Hr) as [Hxl Hnd]%NoDup_cons.
      pose proof (cr_ring _ _ _ Hr) as (_&Hsx&Hyl). cbn [first final] in Hsx, Hyl.
      destruct (setPrev_spec s x (y :: l) x (final y l) Hnd) as (s1&Hrun1&Hl1&Hout1); [done..|].
      cbn [first] in Hrun1, Hout1. rewrite Hrun1. cbn [mbind res_bind].
      assert (Hxy : x ≠ y) by (intros ->; apply Hxl; by left).
      unfold prev. rewrite (deref_Ok s1 x (mkElement (final y l) y) Hx) by (by rewrite Hout1).
      cbn [mbind res_bind mret res_ret e_prev].
      destruct (setNext_spec s1 (final y l) (y :: l) x y Hnd) as (s2&Hrun2&Hl2&Hout2); [done..|].
      cbn [final] in Hrun2. rewrite Hrun2. exists (mkCircularQueue y), s2. split; [done|].
      split; [done|done|exact Hl2].
Qed.

Lemma c_next_spec s q l1 a l2 : crepr s q (l1 ++ a :: l2) → nextElem q s a = Ok (first NULL l2).
Proof.
  intros [Hnd Hh Hring]. unfold nextElem, next.
  apply dlseg_app in Hring as [_ (Ha&Hs&_)]. rewrite (deref_Ok s a _ Ha Hs).
  cbn [mbind res_bind mret res_ret e_next]. do 2 f_equal. rewrite Hh.
  destruct l2 as [|b l2]; cbn [first].
  - destruct l1; cbn [app first]; by rewrite Z.eqb_refl.
  - rewrite (proj2 (Z.eqb_neq b _)); [done|]. intros Hb.
    apply NoDup_app in Hnd as (_&Hd&[Hna Hnd]%NoDup_cons).
    destruct l1 as [|x l1]; cbn [app first] in Hb; subst b.
    + apply Hna. by left.
    + apply (Hd x); [by left|]. right. by left.
Qed.

#[export] Instance CircularQueue_interface : QueueInterface CircularQueue := {
  qi_enqueue := enqueue; qi_dequeue := dequeue; qi_push := push;
  qi_peek := peek; qi_isEmpty := isEmpty; qi_next := nextElem
}.

#[export] Instance CircularQueue_laws : QueueLaws CircularQueue.
Proof.
  refine {| holds := crepr |}; cbn [qi_enqueue qi_dequeue qi_push qi_peek qi_isEmpty qi_next CircularQueue_interface].
  - intros s q l a Hr Ha. by apply (dlseg_in _ _ _ _ _ (cr_ring _ _ _ Hr) Ha).
  - intros s q l Hr. apply (cr_nodup _ _ _ Hr).
  - apply c_enqueue_spec.
  - apply c_push_spec.
  - apply c_dequeue_spec.
  - intros s q l Hr. apply (cr_head _ _ _ Hr).
  - intros s q l Hr. unfold isEmpty. rewrite Z.eqb_eq. split; [|intros ->; apply (cr_head _ _ _ Hr)].
    destruct l as [|x l]; [done|]. intros Hq. destruct (crepr_head _ _ _ _ Hr) as (Hh&Hx&_).
    congruence.
  - apply c_next_spec.
  - unfold enqueue. intros s q a s' q' Hrun. change (keeps s s'). keep.
  - unfold push. intros s q a s' q' Hrun. change (keeps s s'). keep.
  - unfold dequeue. intros s q s' q' r Hrun. change (keeps s s'). keep.
Defined.

(** * All of another queue *)

Lemma enqueue_queue_spec s q1 q2 l1 l2 : crepr s q1 l1 → crepr s q2 l2 → NoDup (l1 ++ l2) →
  ∃ q1' q2' s', enqueue_queue q1 q2 s = Ok (q1', q2', s') ∧ crepr s' q1' (l1 ++ l2) ∧
    crepr s' q2' [].
Proof.
  intros Hr1 Hr2 Hnd. unfold enqueue_queue. destruct l2 as [|b l2].
  { pose proof Hr2 as Hq. apply crepr_empty in Hq. rewrite Hq, app_nil_r. exists q1, q2, s. done. }
  destruct (crepr_head _ _ _ _ Hr2) as (Hh2&Hb&->). destruct l1 as [|a l1].
  { pose proof Hr1 as Hq. apply crepr_empty in Hq. rewrite Hq. exists (mkCircularQueue (c_head q2)), (mkCircularQueue NULL), s.
    split; [done|]. split; [|by apply crepr_empty].
    split; [done|apply (cr_head _ _ _ Hr2)|apply (cr_ring _ _ _ Hr2)]. }
  destruct (crepr_head _ _ _ _ Hr1) as (Hh1&Ha&->). rewrite Hh1, Hh2.
  rewrite (ring_prev s q1 a l1 Hr1), (ring_prev s q2 b l2 Hr2). cbn [mbind res_bind].
  set (la := a :: l1) in *. set (lb := b :: l2) in *.
  pose proof (cr_ring _ _ _ Hr1) as H1. pose proof (cr_ring _ _ _ Hr2) as H2.
  apply NoDup_app in Hnd as (Hnd1&Hd&Hnd2).
  assert (Hfa : final a l1 ∈ la) by apply (final_in NULL la ltac:(done)).
  assert (Hfb : final b l2 ∈ lb) by apply (final_in NULL lb ltac:(done)).
  assert (Hina : a ∈ la) by (by left). assert (Hinb : b ∈ lb) by (by left).
  destruct (setNext_spec s (final a l1) la a b Hnd1) as (s1&Hrun1&Ha1&Hout1); [done..|].
  change (final NULL la) with (final a l1) in *. rewrite Hrun1. cbn [mbind res_bind].
  assert (Hb1 : dlseg s1 (final b l2) lb b).
  { eapply dlseg_frame; [|exact H2]. intros x Hx. apply Hout1. intros ->. exact (Hd _ Hfa Hx). }
  destruct (setNext_spec s1 (final b l2) lb b a Hnd2) as (s2&Hrun2&Hb2&Hout2); [done..|].
  change (final NULL lb) with (final b l2) in *. rewrite Hrun2. cbn [mbind res_bind].
  assert (Ha2 : dlseg s2 (final a l1) la b).
  { eapply dlseg_frame; [|exact Ha1]. intros x Hx. apply Hout2. intros ->. exact (Hd _ Hx Hfb). }
  destruct (setPrev_spec s2 (final b l2) lb a (final a l1) Hnd2) as (s3&Hrun3&Hb3&Hout3); [done..|].
  change (first NULL lb) with b in *. rewrite Hrun3. cbn [mbind res_bind].
  assert (Ha3 : dlseg s3 (final a l1) la b).
  { eapply dlseg_frame; [|exact Ha2]. intros x Hx. apply Hout3. intros ->. exact (Hd _ Hx Hinb). }
  destruct (setPrev_spec s3 (final a l1) la b (final b l2) Hnd1) as (s4&Hrun4&Ha4&Hout4); [done..|].
  change (first NULL la) with a in *. rewrite Hrun4. cbn [mbind res_bind].
  assert (Hb4 : dlseg s4 (final a l1) lb a).
  { eapply dlseg_frame; [|exact Hb3]. intros x Hx. apply Hout4. intros ->. exact (Hd _ Hina Hx). }
  exists q1, (mkCircularQueue NULL), s4. split; [done|]. split; [|by apply crepr_empty]. split.
  - apply NoDup_app. done.
  - rewrite Hh1. done.
  - rewrite final_app. apply dlseg_app. split; [exact Ha4|exact Hb4].
Qed.

(** * Properties *)

(** C28. The two implementations of the queue interface cannot be told apart: a session
    of interface operations that is possible on lists runs on the doubly linked queue and
    on the circular one without failure, and both give every answer the lists give. *)
Theorem queues_equivalent (cs : list interface_cmd) (l l' : list Z) (rs : list answer)
  (s1 s2 : elements) (q1 : Queue) (q2 : CircularQueue)
  (Hq1 : repr s1 q1 l) (Hq2 : crepr s2 q2 l) (Hcs : list_interface_cmds cs l = Some (l', rs))
  (Hal : ∀ c a, c ∈ cs → brings c = Some a → allocated s1 a ∧ allocated s2 a) :
  ∃ q1' s1' q2' s2', run_interface_cmds cs q1 s1 = Ok (q1', s1', rs) ∧
    run_interface_cmds cs q2 s2 = Ok (q2', s2', rs) ∧ repr s1' q1' l' ∧ crepr s2' q2' l'.
Proof.
  destruct (@interface_cmds_spec Queue _ Queue_laws cs s1 q1 l l' rs Hq1 Hcs) as (q1'&s1'&->&Hr1).
  { intros c a Hc Ha. by apply (Hal c a). }
  destruct (@interface_cmds_spec CircularQueue _ CircularQueue_laws cs s2 q2 l l' rs Hq2 Hcs) as (q2'&s2'&->&Hr2).
  { intros c a Hc Ha. by apply (Hal c a). }
  exists q1', s1', q2', s2'. done.
Qed.

Lemma queues_equivalent_witness :
  ∃ q1' s1' q2' s2',
    run_interface_cmds [IEnqueue 16; IPush 32; IEnqueue 48; INext 16; IDequeue; IPeek; INext 48]
      Queue_new demo_elements = Ok (q1', s1',
        [Nothing; Nothing; Nothing; Element_ 48; Element_ 32; Element_ 16; Element_ 0]) ∧
    run_interface_cmds [IEnqueue 16; IPush 32; IEnqueue 48; INext 16; IDequeue; IPeek; INext 48]
      CircularQueue_new demo_elements = Ok (q2', s2',
        [Nothing; Nothing; Nothing; Element_ 48; Element_ 32; Element_ 16; Element_ 0]) ∧
    repr s1' q1' [16; 48] ∧ crepr s2' q2' [16; 48].
Proof.
  apply (queues_equivalent
    [IEnqueue 16; IPush 32; IEnqueue 48; INext 16; IDequeue; IPeek; INext 48] []).
  - apply repr_new.
  - by apply crepr_empty.
  - by vm_compute.
  - intros c a Hc Ha. repeat (apply elem_of_cons in Hc as [->|Hc];
      [simplify_eq/=; split; eexists; by vm_compute|]). by apply elem_of_nil in Hc.
Defined.
