(* ===== verification/MultiQueue.v ===== *)
(** The queue of elements that are in several queues, src/util/queue/MultiQueue.h: an element has a
    pair of links for each kind of queue, and a queue uses the pair of its kind.  Queues over the same elements do not
    disturb each other: each behaves as the queue of Queue.h, whatever the others do meanwhile. *)
From stdpp Require Import functions.
From S2P Require Import Prelude.
From S2P Require Import Queue.
From S2P Require Import QueueSpec.
From S2P Require Import QueueProps.

(** [MultiQueueElement]: the links by kind.  The elements the program allocated, by address. *)
Notation multi_elements := (gmap Z (Z → Element)).

(** The element at a pointer. *)
Definition m_deref (s : multi_elements) (a : Z) : res (Z → Element) :=
  defined (negb (a =? NULL));; of_option (s !! a).

Section kind.
(** [T_ElemNum]. *)
Context (n : Z).

Definition m_set (a previous next : Z) (s : multi_elements) : res multi_elements :=
  e ← m_deref s a; mret (<[a := <[n := mkElement previous next]> e]> s).
Definition m_setPrev (a element : Z) (s : multi_elements) : res multi_elements :=
  e ← m_deref s a; mret (<[a := <[n := mkElement element (e_next (e n))]> e]> s).
Definition m_setNext (a element : Z) (s : multi_elements) : res multi_elements :=
  e ← m_deref s a; mret (<[a := <[n := mkElement (e_prev (e n)) element]> e]> s).
Definition m_prev (s : multi_elements) (a : Z) : res Z := e ← m_deref s a; mret (e_prev (e n)).
Definition m_next (s : multi_elements) (a : Z) : res Z := e ← m_deref s a; mret (e_next (e n)).

(** [MultiQueue] has the data members of a [Queue]. *)
Definition m_enqueue (q : Queue) (element : Z) (s : multi_elements) : res (Queue * multi_elements) :=
  s ← m_set element (q_tail q) NULL s;
  if q_tail q =? NULL then mret (mkQueue element element (incr (q_size q)), s)
  else
    s ← m_setNext (q_tail q) element s;
    mret (mkQueue (q_head q) element (incr (q_size q)), s).

Definition m_dequeue (q : Queue) (s : multi_elements) : res (Queue * multi_elements * Z) :=
  let element := q_head q in
  if element =? NULL then mret (q, s, NULL) else
  head ← m_next s element;
  if head =? NULL then
    s ← m_setNext element NULL s;
    mret (mkQueue head NULL (decr (q_size q)), s, element)
  else
    s ← m_setPrev head NULL s;
    s ← m_setNext element NULL s;
    mret (mkQueue head (q_tail q) (decr (q_size q)), s, element).

Definition m_push (q : Queue) (element : Z) (s : multi_elements) : res (Queue * multi_elements) :=
  s ← m_set element NULL (q_head q) s;
  if q_head q =? NULL then mret (mkQueue element element (incr (q_size q)), s)
  else
    s ← m_setPrev (q_head q) element s;
    mret (mkQueue element (q_tail q) (incr (q_size q)), s).

Definition m_popTail (q : Queue) (s : multi_elements) : res (Queue * multi_elements * Z) :=
  let element := q_tail q in
  if element =? NULL then mret (q, s, NULL) else
  tail ← m_prev s element;
  if tail =? NULL then
    s ← m_setPrev element NULL s;
    mret (mkQueue NULL tail (decr (q_size q)), s, element)
  else
    s ← m_setNext tail NULL s;
    s ← m_setPrev element NULL s;
    mret (mkQueue (q_head q) tail (decr (q_size q)), s, element).

Definition m_insert (q : Queue) (reference element : Z) (s : multi_elements) : res (Queue * multi_elements) :=
  rprev ← m_prev s reference;
  s ← m_set element rprev reference s;
  s ← m_setNext rprev element s;
  s ← m_setPrev reference element s;
  mret (mkQueue (q_head q) (q_tail q) (incr (q_size q)), s).

Definition m_append (q : Queue) (reference element : Z) (s : multi_elements) : res (Queue * multi_elements) :=
  rnext ← m_next s reference;
  s ← m_set element reference rnext s;
  s ← m_setNext reference element s;
  s ← m_setPrev rnext element s;
  mret (mkQueue (q_head q) (q_tail q) (incr (q_size q)), s).

Definition m_remove (q : Queue) (element : Z) (s : multi_elements) : res (Queue * multi_elements) :=
  p ← m_prev s element;
  x ← m_next s element;
  '(head, s) ← (if negb (p =? NULL) then s ← m_setNext p x s; mret (q_head q, s)
                else mret (x, s));
  '(tail, s) ← (if negb (x =? NULL) then s ← m_setPrev x p s; mret (q_tail q, s)
                else mret (p, s));
  mret (mkQueue head tail (decr (q_size q)), s).

(** [peek], [isEmpty], [tail], [size] are those of [Queue]. *)
Definition m_nextElem (s : multi_elements) (reference : Z) : res Z := m_next s reference.
Definition m_before (s : multi_elements) (reference : Z) : res Z := m_prev s reference.

Fixpoint m_walk (s : multi_elements) (k : nat) (a : Z) : res Z :=
  match k with O => mret a | S k => a ← m_next s a; m_walk s k a end.

Definition m_insertElem (q : Queue) (element position : Z) (s : multi_elements) : res (Queue * multi_elements) :=
  if position =? 0 then
    '(q, s) ← m_push q element s;
    mret (mkQueue (q_head q) (q_tail q) (incr (q_size q)), s)
  else
    at_ ← m_walk s (Z.to_nat (position - 1)) (q_head q);
    x ← m_next s at_;
    s ← m_set element at_ x s;
    s ← m_setNext at_ element s;
    mret (mkQueue (q_head q) (q_tail q) (incr (q_size q)), s).
End kind.

(** The links of a kind, as a [Queue] sees them. *)
Definition links_of (n : Z) (s : multi_elements) : elements := (λ e, e n) <$> s.

(** * One operation *)

(** Two results agree: both fail alike, or what they give is related. *)
Definition res_rel {A B} (R : A → B → Prop) (r : res A) (r' : res B) : Prop :=
  match r, r' with
  | Ok a, Ok b => R a b
  | Err e, Err e' => e = e'
  | _, _ => False
  end.

Lemma res_rel_ret {A B} (R : A → B → Prop) a b : R a b → res_rel R (mret a) (mret b).
Proof. done. Qed.

Lemma res_rel_bind {A B C D} (R : A → B → Prop) (Q : C → D → Prop) r r' k k' :
  res_rel R r r' → (∀ a b, R a b → res_rel Q (k a) (k' b)) → res_rel Q (r ≫= k) (r' ≫= k').
Proof. destruct r, r'; cbn; intros HR Hk; [by apply Hk|done..]. Qed.

Section kind.
Context (n : Z) (s0 : multi_elements).

(** [t] is the links of kind [n] of [s], which has all other links of [s0]. *)
Definition links_at (s : multi_elements) (t : elements) : Prop :=
  links_of n s = t ∧ ∀ m, m ≠ n → links_of m s = links_of m s0.

Lemma links_insert s t a e x : links_at s t → s !! a = Some e → links_at (<[a := <[n := x]> e]> s) (<[a := x]> t).
Proof.
  intros [<- Hrest] He. split.
  - unfold links_of. rewrite fmap_insert. by rewrite fn_lookup_insert.
  - intros m Hm. rewrite <- Hrest by done. unfold links_of. rewrite fmap_insert, fn_lookup_insert_ne by done.
    apply insert_id. by rewrite lookup_fmap, He.
Qed.

Lemma m_deref_rel s t a : links_at s t → res_rel (λ e x, s !! a = Some e ∧ e n = x) (m_deref s a) (deref t a).
Proof.
  intros [<- _]. unfold m_deref, deref, links_of. destruct (negb (a =? NULL)); [|done]. cbn. rewrite lookup_fmap.
  by destruct (s !! a).
Qed.

Lemma m_set_rel a p x s t : links_at s t → res_rel links_at (m_set n a p x s) (set a p x t).
Proof.
  intros Hs. eapply res_rel_bind; [by apply m_deref_rel|]. intros e y [He <-]. by apply links_insert.
Qed.
Lemma m_setPrev_rel a x s t : links_at s t → res_rel links_at (m_setPrev n a x s) (setPrev a x t).
Proof.
  intros Hs. eapply res_rel_bind; [by apply m_deref_rel|]. intros e y [He <-]. by apply links_insert.
Qed.
Lemma m_setNext_rel a x s t : links_at s t → res_rel links_at (m_setNext n a x s) (setNext a x t).
Proof.
  intros Hs. eapply res_rel_bind; [by apply m_deref_rel|]. intros e y [He <-]. by apply links_insert.
Qed.
Lemma m_prev_rel a s t : links_at s t → res_rel eq (m_prev n s a) (prev t a).
Proof. intros Hs. eapply res_rel_bind; [by apply m_deref_rel|]. by intros e y [He <-]. Qed.
Lemma m_next_rel a s t : links_at s t → res_rel eq (m_next n s a) (next t a).
Proof. intros Hs. eapply res_rel_bind; [by apply m_deref_rel|]. by intros e y [He <-]. Qed.

(** What an operation gives: the same queue and answer, and the links it leaves. *)
Definition same_queue {A} (r : A * multi_elements) (r' : A * elements) : Prop := r.1 = r'.1 ∧ links_at r.2 r'.2.
Definition same_answer (r : Queue * multi_elements * Z) (r' : Queue * elements * Z) : Prop :=
  same_queue r.1 r'.1 ∧ r.2 = r'.2.
End kind.

#[export] Hint Resolve m_set_rel m_setPrev_rel m_setNext_rel m_prev_rel m_next_rel : multi.

(** Both sides make the same step. *)
Ltac same_step :=
  match goal with
  | |- res_rel _ (mret _) (mret _) => apply res_rel_ret; unfold same_answer, same_queue; cbn [fst snd]; tauto
  | |- res_rel _ (if ?b then _ else _) (if ?b then _ else _) => destruct b
  | |- res_rel _ (?r ≫= _) (?r' ≫= _) => eapply res_rel_bind; [first [solve [eauto with multi] | idtac]|]
  | |- ∀ a b, a = b → _ => intros ? ? ->
  | |- ∀ a b, links_at _ _ a b → _ => intros ? ? ?
  end.

Section kind.
Context (n : Z) (s0 : multi_elements).
Notation at_n := (links_at n s0).

Lemma m_enqueue_rel q a s t : at_n s t → res_rel (same_queue n s0) (m_enqueue n q a s) (enqueue q a t).
Proof. intros Hs. unfold m_enqueue, enqueue. repeat same_step. Qed.
Lemma m_push_rel q a s t : at_n s t → res_rel (same_queue n s0) (m_push n q a s) (push q a t).
Proof. intros Hs. unfold m_push, push. repeat same_step. Qed.
Lemma m_dequeue_rel q s t : at_n s t → res_rel (same_answer n s0) (m_dequeue n q s) (dequeue q t).
Proof. intros Hs. unfold m_dequeue, dequeue. repeat same_step. Qed.
Lemma m_popTail_rel q s t : at_n s t → res_rel (same_answer n s0) (m_popTail n q s) (popTail q t).
Proof. intros Hs. unfold m_popTail, popTail. repeat same_step. Qed.
Lemma m_insert_rel q r a s t : at_n s t → res_rel (same_queue n s0) (m_insert n q r a s) (insert q r a t).
Proof. intros Hs. unfold m_insert, insert. repeat same_step. Qed.
Lemma m_append_rel q r a s t : at_n s t → res_rel (same_queue n s0) (m_append n q r a s) (append q r a t).
Proof. intros Hs. unfold m_append, append. repeat same_step. Qed.
Lemma m_remove_rel q a s t : at_n s t → res_rel (same_queue n s0) (m_remove n q a s) (remove q a t).
Proof.
  intros Hs. unfold m_remove, remove. do 4 same_step.
  apply (res_rel_bind (same_queue n s0)); [repeat same_step|]. intros [head s1] [head' t1] [Hh Hs1]. cbn in Hh, Hs1. subst head'.
  apply (res_rel_bind (same_queue n s0)); [repeat same_step|]. intros [tail s2] [tail' t2] [Ht Hs2]. cbn in Ht, Hs2. subst tail'.
  same_step.
Qed.

(** A client's operation on the queue of kind [n]. *)
Definition run_multi_cmd (c : queue_cmd) (q : Queue) (s : multi_elements) : res (Queue * multi_elements * Z) :=
  match c with
  | Enqueue a => '(q, s) ← m_enqueue n q a s; mret (q, s, NULL)
  | Push a => '(q, s) ← m_push n q a s; mret (q, s, NULL)
  | Dequeue => m_dequeue n q s
  | PopTail => m_popTail n q s
  | Peek => mret (q, s, peek q)
  | Tail => mret (q, s, tail q)
  | Remove a => '(q, s) ← m_remove n q a s; mret (q, s, NULL)
  | Insert r a => '(q, s) ← m_insert n q r a s; mret (q, s, NULL)
  | Append r a => '(q, s) ← m_append n q r a s; mret (q, s, NULL)
  end.

Lemma no_answer_rel r r' : res_rel (same_queue n s0) r r' →
  res_rel (same_answer n s0) ('(q, s) ← r; mret (q, s, NULL)) ('(q, s) ← r'; mret (q, s, NULL)).
Proof.
  intros Hr. eapply res_rel_bind; [exact Hr|]. intros [q s] [q' t] [Hq Hs]. apply res_rel_ret.
  unfold same_answer, same_queue. cbn in *. tauto.
Qed.

Lemma run_multi_cmd_rel c q s t : at_n s t → res_rel (same_answer n s0) (run_multi_cmd c q s) (run_queue_cmd c q t).
Proof.
  intros Hs. destruct c; cbn [run_multi_cmd run_queue_cmd].
  - by apply no_answer_rel, m_enqueue_rel.
  - by apply no_answer_rel, m_push_rel.
  - by apply m_dequeue_rel.
  - by apply m_popTail_rel.
  - same_step.
  - same_step.
  - by apply no_answer_rel, m_remove_rel.
  - by apply no_answer_rel, m_insert_rel.
  - by apply no_answer_rel, m_append_rel.
Qed.
End kind.

(** One operation on a queue of kind [n] is the operation of [Queue] on the links of that kind. *)
Lemma run_multi_cmd_spec n c q s q' t' r : run_queue_cmd c q (links_of n s) = Ok (q', t', r) →
  ∃ s', run_multi_cmd n c q s = Ok (q', s', r) ∧ links_at n s s' t'.
Proof.
  intros Hrun. pose proof (run_multi_cmd_rel n s c q s (links_of n s) ltac:(done)) as Hrel. rewrite Hrun in Hrel.
  destruct (run_multi_cmd n c q s) as [[[q1 s1] r1]|]; [|done]. destruct Hrel as [[Hq Hs] Hr]. cbn in Hq, Hs, Hr.
  subst. by exists s1.
Qed.

(** * Sessions with many queues *)

(** Operations on queues of different kinds, [qs n] the queue of kind [n]. *)
Fixpoint run_multi_cmds (cs : list (Z * queue_cmd)) (qs : Z → Queue) (s : multi_elements) :
    res ((Z → Queue) * multi_elements * list (Z * Z)) :=
  match cs with
  | [] => mret (qs, s, [])
  | (n, c) :: cs =>
      '(q, s, r) ← run_multi_cmd n c (qs n) s;
      '(qs, s, rs) ← run_multi_cmds cs (<[n := q]> qs) s;
      mret (qs, s, (n, r) :: rs)
  end.

(** What concerns the queue of kind [n]. *)
Definition for_kind {A} (n : Z) (l : list (Z * A)) : list A := omap (λ '(m, x), if decide (m = n) then Some x else None) l.

(** Each session with a queue keeps its rules. *)
Definition multi_session (cs : list (Z * queue_cmd)) (ls ls' : Z → list Z) (rs : Z → list Z) : Prop :=
  ∀ n, list_cmds (for_kind n cs) (ls n) = Some (ls' n, rs n).

Lemma for_kind_same {A} n (x : A) l : for_kind n ((n, x) :: l) = x :: for_kind n l.
Proof. unfold for_kind. cbn. by rewrite decide_True. Qed.
Lemma for_kind_other {A} n m (x : A) l : m ≠ n → for_kind n ((m, x) :: l) = for_kind n l.
Proof. intros Hm. unfold for_kind. cbn. by rewrite decide_False. Qed.

(** C27. Queues of different kinds that share their elements do not disturb each other. In any order of
    operations on any number of them, each queue answers as the list of its own operations and ends
    linked both ways over that list, whichever other queues its elements are in. *)
Theorem multi_queue_sessions cs (qs : Z → Queue) (s : multi_elements) (ls ls' rs : Z → list Z)
  (Hr : ∀ n, repr (links_of n s) (qs n) (ls n)) (Hcs : multi_session cs ls ls' rs)
  (Hal : ∀ n c a, (n, c) ∈ cs → cmd_elem c = Some a → is_Some (s !! a)) :
  ∃ qs' s' out, run_multi_cmds cs qs s = Ok (qs', s', out) ∧
    ∀ n, repr (links_of n s') (qs' n) (ls' n) ∧ for_kind n out = rs n.
Proof.
  revert qs s ls rs Hr Hcs Hal. induction cs as [|[n c] cs IH]; intros qs s ls rs Hr Hcs Hal.
  - exists qs, s, []. split; [done|]. intros n. specialize (Hcs n). cbn in Hcs. injection Hcs as <- <-. by split.
  - pose proof (Hcs n) as Hn. rewrite for_kind_same in Hn. cbn in Hn.
    destruct (list_cmd c (ls n)) as [[l1 r]|] eqn:Hc; [|done]. cbn in Hn.
    destruct (list_cmds (for_kind n cs) l1) as [[l2 rs']|] eqn:Hcs'; [|done]. cbn in Hn. injection Hn as E1 E2.
    destruct (list_cmd_spec c (links_of n s) (qs n) (ls n) l1 r (Hr n) Hc) as (q1&t1&Hrun&Hr1).
    { intros a Ha. unfold allocated, links_of. rewrite lookup_fmap, fmap_is_Some. apply (Hal n c); [by left|done]. }
    destruct (run_multi_cmd_spec n c (qs n) s q1 t1 r Hrun) as (s1&Hrun1&Hs1&Hother).
    destruct (IH (<[n := q1]> qs) s1 (<[n := l1]> ls) (<[n := rs']> rs)) as (qs'&s'&out&Hrun2&Hall).
    + intros m. destruct (decide (n = m)) as [<-|Hm]; [by rewrite !fn_lookup_insert, Hs1|].
      rewrite !fn_lookup_insert_ne by done. rewrite Hother by done. apply Hr.
    + intros m. destruct (decide (n = m)) as [<-|Hm]; [rewrite !fn_lookup_insert; by rewrite Hcs', E1|].
      rewrite !fn_lookup_insert_ne by done. rewrite <- (for_kind_other m n c) by done. apply Hcs.
    + intros m d a Hd Ha. pose proof (Hal m d a ltac:(by right) Ha) as Hal1.
      pose proof (run_queue_cmd_keeps _ _ _ _ _ _ Hrun a) as Hk. unfold allocated in Hk. rewrite <- Hs1 in Hk.
      unfold links_of in Hk. rewrite !lookup_fmap, !fmap_is_Some in Hk. by apply Hk.
    + cbn [run_multi_cmds]. rewrite Hrun1. cbn [mbind res_bind]. rewrite Hrun2. exists qs', s', ((n, r) :: out). split; [done|].
      intros m. destruct (Hall m) as [Hm1 Hm2]. split; [done|]. destruct (decide (n = m)) as [<-|Hm].
      * rewrite for_kind_same, Hm2, fn_lookup_insert. done.
      * rewrite for_kind_other, Hm2, fn_lookup_insert_ne by done. done.
Qed.

(** * A witness *)

(** Three elements in no queue; one goes into the queues of two kinds. *)
Definition free_elements : multi_elements :=
  <[16 := λ _, mkElement 0 0]> (<[32 := λ _, mkElement 0 0]> (<[48 := λ _, mkElement 0 0]> ∅)).

Lemma multi_queue_sessions_witness : ∃ qs' s' out,
  run_multi_cmds [(0, Enqueue 16); (1, Enqueue 32); (1, Push 16); (0, Enqueue 48); (1, Dequeue); (0, Remove 16); (0, Peek)]
    (λ _, Queue_new) free_elements = Ok (qs', s', out) ∧
  repr (links_of 0 s') (qs' 0) [48] ∧ repr (links_of 1 s') (qs' 1) [32] ∧ for_kind 1 out = [0; 0; 16].
Proof.
  destruct (multi_queue_sessions
    [(0, Enqueue 16); (1, Enqueue 32); (1, Push 16); (0, Enqueue 48); (1, Dequeue); (0, Remove 16); (0, Peek)]
    (λ _, Queue_new) free_elements (λ _, []) (λ n, if n =? 0 then [48] else if n =? 1 then [32] else [])
    (λ n, if n =? 0 then [0; 0; 0; 48] else if n =? 1 then [0; 0; 16] else [])) as (qs'&s'&out&Hrun&Hall).
  - intros n. apply repr_new.
  - intros n. unfold multi_session. destruct (Z.eqb_spec n 0) as [->|H0]; [by vm_compute|].
    destruct (Z.eqb_spec n 1) as [->|H1]; [by vm_compute|]. unfold for_kind. cbn. by rewrite !decide_False by congruence.
  - intros n c a Hc Ha. assert (a = 16 ∨ a = 32 ∨ a = 48) as Hin; [|destruct Hin as [->|[->| ->]]; vm_compute; by eexists].
    repeat (apply elem_of_cons in Hc as [Hc|Hc]; [injection Hc as -> ->; cbn in Ha; naive_solver|]). by apply elem_of_nil in Hc.
  - exists qs', s', out. split; [exact Hrun|]. split; [apply (Hall 0)|]. split; [apply (Hall 1)|]. apply (Hall 1).
Defined.
