(* ===== verification/Atomics.v ===== *)
(** The atomic objects that run on any platform: the native atomic of
    src/common/default/NativeAtomics.h, the counter and the mutexes under
    src/components/atomic/native, and the mutex over a counter,
    src/components/atomic/counter/CounterMutex.h. *)
From S2P Require Import Prelude.

(** * The native atomic, a [size_t] *)

(** Each operation is one step; the builtins of the compiler return the value before. *)
Definition NativeAtomic : Type := Z.

Section native.
Implicit Type a : NativeAtomic.

Definition atom_fetch a : Z := a.
Definition atom_set (val : Z) a : NativeAtomic := val.
Definition fetch_and_add (val : Z) a : Z * NativeAtomic := (a, w64 (a + val)).
Definition fetch_and_sub (val : Z) a : Z * NativeAtomic := (a, w64 (a - val)).
Definition fetch_and_and (val : Z) a : Z * NativeAtomic := (a, Z.land a val).
Definition lock_test_and_set (val : Z) a : Z * NativeAtomic := (a, val).
Definition lock_release a : NativeAtomic := 0.
Definition bool_compare_and_swap (oldv newv : Z) a : bool * NativeAtomic :=
  if a =? oldv then (true, newv) else (false, a).
End native.

(** * Counters *)

(** src/components/atomic/CounterInterface.h; what each operation fetches, and the counter
    after it. *)
Class Counter (T : Type) := {
  fetch : T → Z;
  fetch_and_inc : T → Z * T;
  fetch_and_dec : T → Z * T;
  fetch_and_clear : T → Z * T;
  clear : T → T
}.

Definition native_inc : NativeAtomic → Z * NativeAtomic := fetch_and_add 1.
Definition native_dec : NativeAtomic → Z * NativeAtomic := fetch_and_sub 1.
Definition native_fetch_clear : NativeAtomic → Z * NativeAtomic := fetch_and_and 0.
Definition native_clear : NativeAtomic → NativeAtomic := atom_set 0.

#[export] Instance NativeCounter : Counter NativeAtomic := {
  fetch := atom_fetch;
  fetch_and_inc := native_inc;
  fetch_and_dec := native_dec;
  fetch_and_clear := native_fetch_clear;
  clear := native_clear
}.

(** A counter is a [size_t]. *)
Class CounterLaws (T : Type) `{Counter T} := {
  counter_value : T → Z;
  value_inc c : ∃ c', fetch_and_inc c = (counter_value c, c') ∧ counter_value c' = w64 (counter_value c + 1);
  value_clear c : counter_value (clear c) = 0
}.

#[export] Program Instance NativeCounter_laws : CounterLaws NativeAtomic := { counter_value c := c }.
Next Obligation. intros c. by eexists. Qed.
Next Obligation. done. Qed.

(** * Mutexes *)

(** src/components/atomic/MutexInterface.h.  [acquire_turn] is one turn of the loop that
    acquires, with whether it is the last. *)
Class Mutex (T : Type) := {
  acquire_turn : T → bool * T;
  tryAcquire : T → bool * T;
  release : T → T;
  isLocked : T → bool
}.

Record NativeMutex := mkNativeMutex { nm_atom : NativeAtomic }.

Definition native_turn (m : NativeMutex) : bool * NativeMutex :=
  let '(old, a) := lock_test_and_set 1 (nm_atom m) in (old =? 0, mkNativeMutex a).

Definition native_release (m : NativeMutex) : NativeMutex := mkNativeMutex (lock_release (nm_atom m)).
Definition native_isLocked (m : NativeMutex) : bool := negb (atom_fetch (nm_atom m) =? 0).

#[export] Instance NativeMutex_mutex : Mutex NativeMutex := {
  acquire_turn := native_turn;
  tryAcquire := native_turn;
  release := native_release;
  isLocked := native_isLocked
}.

(** A mutex over any counter. *)
Record CounterMutex (T : Type) := mkCounterMutex { cm_counter : T }.
Arguments mkCounterMutex {T}.
Arguments cm_counter {T} c.

Definition counter_turn `{Counter T} (m : CounterMutex T) : bool * CounterMutex T :=
  let '(old, c) := fetch_and_inc (cm_counter m) in (old =? 0, mkCounterMutex c).

Definition counter_release `{Counter T} (m : CounterMutex T) : CounterMutex T :=
  mkCounterMutex (clear (cm_counter m)).
Definition counter_isLocked `{Counter T} (m : CounterMutex T) : bool := 0 <? fetch (cm_counter m).

#[export] Instance CounterMutex_mutex `{Counter T} : Mutex (CounterMutex T) := {
  acquire_turn := counter_turn;
  tryAcquire := counter_turn;
  release := counter_release;
  isLocked := counter_isLocked
}.

(** * What a mutex promises *)

(** A state of the mutex is free or held; who finds it held does not get it, however
    often it tries. *)
Class MutexLaws (T : Type) `{Mutex T} := {
  mutex_free : T → Prop;
  mutex_held : T → Prop;
  turn_free m : mutex_free m → ∃ m', acquire_turn m = (true, m') ∧ mutex_held m';
  turn_held m : mutex_held m → acquire_turn m = (false, m);
  release_held m : mutex_held m → mutex_free (release m)
}.

#[export] Program Instance NativeMutex_laws : MutexLaws NativeMutex := {
  mutex_free m := m = mkNativeMutex 0;
  mutex_held m := m = mkNativeMutex 1
}.
Next Obligation. intros m ->. by eexists. Qed.
Next Obligation. by intros m ->. Qed.
Next Obligation. by intros m ->. Qed.

(** The counter mutex counts the attempts too: it stays held for as many of them as its
    counter has values, and is then taken a second time. *)
Lemma counter_turns (n : nat) (m : CounterMutex NativeAtomic) :
  cm_counter m = 1 → Z.of_nat n < 2 ^ 64 - 1 →
  Nat.iter n (λ m, (counter_turn m).2) m = mkCounterMutex (1 + Z.of_nat n) ∧
  (counter_turn (mkCounterMutex (1 + Z.of_nat n))).1 = false.
Proof.
  intros Hm Hn. split; [|cbn; lia]. induction n as [|n IH]; [by destruct m; cbn in *; subst|].
  cbn [Nat.iter nat_rect]. unfold Nat.iter in IH. rewrite IH by lia. cbn.
  unfold w64. f_equal. rewrite Z.mod_small; lia.
Qed.

Lemma counter_mutex_gives_up :
  counter_turn (T := NativeAtomic) (mkCounterMutex (2 ^ 64 - 1)) = (false, mkCounterMutex 0) ∧
  (counter_turn (T := NativeAtomic) (mkCounterMutex 0)).1 = true.
Proof. by vm_compute. Qed.
