(* ===== verification/MutexedQueue.v ===== *)
(** The queue under a mutex, src/util/queue/MutexedQueue.h, and the posting queue over it,
    src/util/queue/GccThreadSafePostingQueue.h.  The elements have the links of the elements
    of Queue.h, in the same order: the generic device casts one to the other. *)
From S2P Require Import Prelude.
From S2P Require Import Queue.
From S2P Require Import Atomics.
From S2P Require Import QueueSpec.
From S2P Require Import QueueProps.

(** [mq_list] holds the head, the tail and the size. *)
Record MutexedQueue (T_Mutex : Type) := mkMutexedQueue { mq_mutex : T_Mutex; mq_list : Queue }.
Arguments mkMutexedQueue {T_Mutex}.
Arguments mq_mutex {T_Mutex} m.
Arguments mq_list {T_Mutex} m.

(** [MutexedQueueIterator]. *)
Record PostingIterator := mkPostingIterator { pi_curr : Z; pi_next : Z }.

Section mutexed.
Context {T_Mutex : Type} `{Mutex T_Mutex}.

Notation mqueue := (MutexedQueue T_Mutex).
Implicit Types (q : mqueue) (s : elements).

Definition with_mutex q (m : T_Mutex) : mqueue := mkMutexedQueue m (mq_list q).
Definition with_list q (l : Queue) : mqueue := mkMutexedQueue (mq_mutex q) l.

Definition MutexedQueue_new (m : T_Mutex) : mqueue := mkMutexedQueue m (mkQueue NULL NULL 0).

(** * The statements under the mutex *)

Definition enqueue_locked (element : Z) (l : Queue) (s : elements) : res (Queue * elements) :=
  s ← set element (q_tail l) NULL s;
  if q_tail l =? NULL then mret (mkQueue element element (incr (q_size l)), s)
  else
    s ← setNext (q_tail l) element s;
    mret (mkQueue (q_head l) element (incr (q_size l)), s).

Definition dequeue_locked (l : Queue) (s : elements) : res (Queue * elements * Z) :=
  let element := q_head l in
  if element =? NULL then mret (l, s, NULL) else
  head ← next s element;
  '(tail, s) ← (if head =? NULL then mret (NULL, s)
                else s ← setPrev head NULL s; mret (q_tail l, s));
  s ← setNext element NULL s;
  mret (mkQueue head tail (decr (q_size l)), s, element).

Definition push_locked (element : Z) (l : Queue) (s : elements) : res (Queue * elements) :=
  s ← set element NULL (q_head l) s;
  if q_head l =? NULL then mret (mkQueue element element (incr (q_size l)), s)
  else
    s ← setPrev (q_head l) element s;
    mret (mkQueue element (q_tail l) (incr (q_size l)), s).

(** What is left, and the head, the tail and the size of what was removed. *)
Definition take_locked (l : Queue) : Queue * (Z * Z * Z) :=
  (mkQueue NULL NULL 0, (q_head l, q_tail l, q_size l)).

Definition appendAll_locked (head tail size : Z) (l : Queue) (s : elements) :
    res (Queue * elements) :=
  let n := w64 (q_size l + size) in
  if q_tail l =? NULL then mret (mkQueue head tail n, s)
  else s ← setNext (q_tail l) head s; mret (mkQueue (q_head l) tail n, s).

Definition remove_locked (element : Z) (l : Queue) (s : elements) : res (Queue * elements) :=
  p ← prev s element;
  n ← next s element;
  '(head, s) ← (if negb (p =? NULL) then s ← setNext p n s; mret (q_head l, s)
                else mret (n, s));
  '(tail, s) ← (if negb (n =? NULL) then s ← setPrev n p s; mret (q_tail l, s)
                else mret (p, s));
  mret (mkQueue head tail (decr (q_size l)), s).

Definition popTail_locked (l : Queue) (s : elements) : res (Queue * elements * Z) :=
  let element := q_tail l in
  if element =? NULL then mret (l, s, NULL) else
  tail ← prev s element;
  '(head, s) ← (if tail =? NULL then mret (NULL, s)
                else s ← setNext tail NULL s; mret (q_head l, s));
  s ← setPrev element NULL s;
  mret (mkQueue head tail (decr (q_size l)), s, element).

Definition insert_locked (reference element : Z) (l : Queue) (s : elements) :
    res (Queue * elements) :=
  rprev ← prev s reference;
  s ← set element rprev reference s;
  s ← setNext rprev element s;
  s ← setPrev reference element s;
  mret (mkQueue (q_head l) (q_tail l) (incr (q_size l)), s).

Definition append_locked (reference element : Z) (l : Queue) (s : elements) :
    res (Queue * elements) :=
  rnext ← next s reference;
  s ← set element reference rnext s;
  s ← setNext reference element s;
  s ← setPrev rnext element s;
  mret (mkQueue (q_head l) (q_tail l) (incr (q_size l)), s).

(** * The operations, alone *)

(** [_mutex.acquire()], the statements, [_mutex.release()].  When nobody else runs, a
    mutex that is held is waited for in vain. *)
Definition locked {A} (body : Queue → elements → res (Queue * elements * A)) q (s : elements) :
    res (mqueue * elements * A) :=
  let '(got, m) := acquire_turn (mq_mutex q) in
  if (got : bool) then
    '(l, s, r) ← body (mq_list q) s;
    mret (mkMutexedQueue (release m) l, s, r)
  else Err NoFuel.

Definition no_result (c : res (Queue * elements)) : res (Queue * elements * ()) :=
  '(l, s) ← c; mret (l, s, ()).

Definition mq_enqueue (element : Z) q s : res (mqueue * elements * ()) :=
  locked (λ l s, no_result (enqueue_locked element l s)) q s.
Definition mq_dequeue q s : res (mqueue * elements * Z) := locked dequeue_locked q s.
Definition mq_push (element : Z) q s : res (mqueue * elements * ()) :=
  locked (λ l s, no_result (push_locked element l s)) q s.
Definition mq_appendAll (head tail size : Z) q s : res (mqueue * elements * ()) :=
  locked (λ l s, no_result (appendAll_locked head tail size l s)) q s.
Definition mq_remove (element : Z) q s : res (mqueue * elements * ()) :=
  locked (λ l s, no_result (remove_locked element l s)) q s.
Definition mq_popTail q s : res (mqueue * elements * Z) := locked popTail_locked q s.
Definition mq_insert (reference element : Z) q s : res (mqueue * elements * ()) :=
  locked (λ l s, no_result (insert_locked reference element l s)) q s.
Definition mq_append (reference element : Z) q s : res (mqueue * elements * ()) :=
  locked (λ l s, no_result (append_locked reference element l s)) q s.

(** The mutex is not acquired for an empty queue. *)
Definition mq_removeAll q s : res (mqueue * elements * (Z * Z * Z)) :=
  if q_head (mq_list q) =? NULL then mret (q, s, (NULL, NULL, 0))
  else locked (λ l s, let '(l, r) := take_locked l in mret (l, s, r)) q s.

Definition mq_peek q : Z := q_head (mq_list q).
Definition mq_isEmpty q : bool := q_head (mq_list q) =? NULL.
Definition mq_tail q : Z := q_tail (mq_list q).
Definition mq_size q : Z := q_size (mq_list q).
Definition mq_next (reference : Z) (s : elements) : res Z := next s reference.
Definition mq_before (reference : Z) (s : elements) : res Z := prev s reference.

(** ** The iterator *)

Definition mq_iter_init (it : PostingIterator) : PostingIterator := mkPostingIterator NULL NULL.
Definition mq_iter_begin q (it : PostingIterator) : PostingIterator * bool :=
  (mkPostingIterator (mq_peek q) (pi_next it), false).
Definition mq_iter_check s (it : PostingIterator) : res (PostingIterator * bool) :=
  if pi_curr it =? NULL then mret (it, false)
  else n ← next s (pi_curr it); mret (mkPostingIterator (pi_curr it) n, true).
Definition mq_iter_end (it : PostingIterator) : PostingIterator :=
  mkPostingIterator (pi_next it) (pi_next it).
Definition mq_iter_current (it : PostingIterator) : Z := pi_curr it.
Definition mq_iter_remove (it : PostingIterator) q s : res (mqueue * elements * ()) :=
  mq_remove (pi_curr it) q s.
End mutexed.

(** * The iterator of a posting queue *)

(** It takes all the elements out of the queue and walks over them. *)
Definition posting_init : PostingIterator := mkPostingIterator NULL NULL.

(** [iter_begin], when [h] is the head that [removeAll] gave. *)
Definition posting_begin (h : Z) (it : PostingIterator) : PostingIterator * bool :=
  (mkPostingIterator h (pi_next it), negb (h =? NULL)).

Definition posting_check (s : elements) (it : PostingIterator) : res (PostingIterator * bool) :=
  if pi_curr it =? NULL then mret (it, false)
  else n ← next s (pi_curr it); mret (mkPostingIterator (pi_curr it) n, true).

Definition posting_end (it : PostingIterator) : PostingIterator :=
  mkPostingIterator (pi_next it) (pi_next it).

Definition posting_current (it : PostingIterator) : Z := pi_curr it.

(** [iter_remove] does nothing and returns PAMI_SUCCESS. *)
Definition posting_remove (it : PostingIterator) : PostingIterator := it.

#[local] Opaque w64.

Section session.
Context {T_Mutex : Type} `{MutexLaws T_Mutex}.

Notation mqueue := (MutexedQueue T_Mutex).
Implicit Types (q : mqueue) (s : elements).

Definition no_element (c : res (mqueue * elements * ())) : res (mqueue * elements * Z) :=
  '(q, s, _) ← c; mret (q, s, NULL).

(** The commands of QueueProps.v, on a queue with a mutex. *)
Definition run_mq_cmd (c : queue_cmd) q s : res (mqueue * elements * Z) :=
  match c with
  | Enqueue a => no_element (mq_enqueue a q s)
  | Push a => no_element (mq_push a q s)
  | Dequeue => mq_dequeue q s
  | PopTail => mq_popTail q s
  | Peek => mret (q, s, mq_peek q)
  | Tail => mret (q, s, mq_tail q)
  | Remove a => no_element (mq_remove a q s)
  | Insert r a => no_element (mq_insert r a q s)
  | Append r a => no_element (mq_append r a q s)
  end.

Fixpoint run_mq_cmds (cs : list queue_cmd) q s : res (mqueue * elements * list Z) :=
  match cs with
  | [] => mret (q, s, [])
  | c :: cs =>
      '(q, s, r) ← run_mq_cmd c q s;
      '(q, s, rs) ← run_mq_cmds cs q s;
      mret (q, s, r :: rs)
  end.

Lemma locked_runs {A} (body : Queue → elements → res (Queue * elements * A)) q s l s' r :
  mutex_free (mq_mutex q) → body (mq_list q) s = Ok (l, s', r) →
  ∃ q', locked body q s = Ok (q', s', r) ∧ mutex_free (mq_mutex q') ∧ mq_list q' = l.
Proof.
  intros Hfree Hbody. destruct (turn_free _ Hfree) as (m&Hturn&Hheld). unfold locked.
  rewrite Hturn, Hbody. eexists. split; [reflexivity|]. split; [by apply release_held|done].
Qed.

(** A command whose statements give nothing back. *)
Lemma locked_command (c : Queue → elements → res (Queue * elements)) q s l s' r :
  mutex_free (mq_mutex q) → ('(q, s) ← c (mq_list q) s; mret (q, s, NULL)) = Ok (l, s', r) →
  ∃ q', no_element (locked (λ l s, no_result (c l s)) q s) = Ok (q', s', r) ∧
    mutex_free (mq_mutex q') ∧ mq_list q' = l.
Proof.
  intros Hfree Hrun. apply bind_Ok in Hrun as ([l1 s1]&Hc&Hret). inv_ok.
  destruct (locked_runs (λ l s, no_result (c l s)) q s l s' () Hfree) as (q'&Hl&Hq').
  { unfold no_result. by rewrite Hc. }
  exists q'. unfold no_element. by rewrite Hl.
Qed.

Lemma dequeue_locked_same l s : dequeue_locked l s = dequeue l s.
Proof.
  unfold dequeue_locked, dequeue. destruct (q_head l =? NULL); [done|].
  destruct (next s (q_head l)) as [h|e]; cbn [mbind res_bind]; [|done].
  destruct (h =? NULL); cbn [mbind res_bind mret res_ret]; [done|]. by destruct (setPrev h NULL s).
Qed.

Lemma popTail_locked_same l s : popTail_locked l s = popTail l s.
Proof.
  unfold popTail_locked, popTail. destruct (q_tail l =? NULL); [done|].
  destruct (prev s (q_tail l)) as [t|e]; cbn [mbind res_bind]; [|done].
  destruct (t =? NULL); cbn [mbind res_bind mret res_ret]; [done|]. by destruct (setNext t NULL s).
Qed.

Lemma mq_cmd_runs c q s l s' r : mutex_free (mq_mutex q) →
  run_queue_cmd c (mq_list q) s = Ok (l, s', r) →
  ∃ q', run_mq_cmd c q s = Ok (q', s', r) ∧ mutex_free (mq_mutex q') ∧ mq_list q' = l.
Proof.
  intros Hfree Hrun. destruct c; cbn [run_queue_cmd] in Hrun; cbn [run_mq_cmd];
    try (by apply (locked_command (λ l s, enqueue_locked a l s)));
    try (by apply (locked_command (λ l s, push_locked a l s)));
    try (by apply (locked_command (λ l s, remove_locked a l s)));
    try (by apply (locked_command (λ l s, insert_locked reference a l s)));
    try (by apply (locked_command (λ l s, append_locked reference a l s)));
    try (inv_ok; by exists q).
  - apply locked_runs; [done|]. by rewrite dequeue_locked_same.
  - apply locked_runs; [done|]. by rewrite popTail_locked_same.
Qed.

Lemma mq_cmds_run cs q s l s' rs : mutex_free (mq_mutex q) →
  run_queue_cmds cs (mq_list q) s = Ok (l, s', rs) →
  ∃ q', run_mq_cmds cs q s = Ok (q', s', rs) ∧ mutex_free (mq_mutex q') ∧ mq_list q' = l.
Proof.
  revert q s rs. induction cs as [|c cs IH]; intros q s rs Hfree Hrun; cbn in Hrun |- *.
  - inv_ok. by exists q.
  - apply bind_Ok in Hrun as ([[l1 s1] r]&Hc&Hrun). apply bind_Ok in Hrun as ([[l2 s2] rs']&Hcs&Hrun). inv_ok.
    destruct (mq_cmd_runs c q s _ _ _ Hfree Hc) as (q1&->&Hfree1&<-). cbn.
    destruct (IH q1 s1 rs' Hfree1 Hcs) as (q2&->&Hfree2&Hl). by exists q2.
Qed.

(** A session of a queue under a mutex answers as the session on lists, leaves the queue
    well formed, and the mutex free. *)
Theorem mutexed_session_refines (cs : list queue_cmd) (s : elements) (q : mqueue) (l l' rs : list Z)
  (Hfree : mutex_free (mq_mutex q)) (Hq : repr s (mq_list q) l)
  (Hcs : list_cmds cs l = Some (l', rs))
  (Hal : ∀ c a, c ∈ cs → cmd_elem c = Some a → allocated s a) :
  ∃ q' s', run_mq_cmds cs q s = Ok (q', s', rs) ∧ repr s' (mq_list q') l' ∧ mutex_free (mq_mutex q').
Proof.
  destruct (list_cmds_spec cs s (mq_list q) l l' rs Hq Hcs Hal) as (l2&s'&Hrun&Hr).
  destruct (mq_cmds_run cs q s l2 s' rs Hfree Hrun) as (q'&Hrun'&Hfree'&<-). by exists q', s'.
Qed.
End session.

Lemma mutexed_session_refines_witness :
  ∃ q' s', run_mq_cmds [Append 16 48; Remove 32; Dequeue; PopTail; Dequeue]
    (mkMutexedQueue (mkNativeMutex 0) demo_queue) demo_elements = Ok (q', s', [0; 0; 16; 48; 0]) ∧
    repr s' (mq_list q') [] ∧ mutex_free (mq_mutex q').
Proof.
  apply (mutexed_session_refines _ demo_elements _ [16; 32] [] _); [done|apply demo_repr|by vm_compute|].
  intros c a Hc Ha. exists (mkElement 0 0).
  repeat (apply elem_of_cons in Hc as [->|Hc]; [by simplify_eq/=|]). by apply elem_of_nil in Hc.
Defined.
