(* ===== verification/GenericDevice.v ===== *)
(** The generic device, src/components/devices/generic/Device.h: any thread posts work to a
    context, and the thread that advances the context executes it, until it says that it
    is done.  The work objects are those of AdvanceThread.h. *)
From stdpp Require Import functions.
From S2P Require Import Prelude.
From S2P Require Import Queue.
From S2P Require Import Atomics.
From S2P Require Import MutexedQueue.

(** [ThreadStatus]. *)
Inductive ThreadStatus := New | Idle | Ready | Complete.

#[export] Instance ThreadStatus_eq_dec : EqDecision ThreadStatus.
Proof. solve_decision. Defined.

(** The queue of new work, the private one of work that wants to be called again, and
    their iterators.  The queue of messages and the rest of the device are not here. *)
Record GenericDevice (T_Mutex : Type) := mkDevice {
  Posted : MutexedQueue T_Mutex; Threads : Queue;
  ThrIter : Iterator; PstIter : PostingIterator
}.
Arguments mkDevice {T_Mutex}.
Arguments Posted {T_Mutex} g.
Arguments Threads {T_Mutex} g.
Arguments ThrIter {T_Mutex} g.
Arguments PstIter {T_Mutex} g.

(** Where a thread is in [postThread], with the work it posts: before the mutex is its,
    before the statements of [enqueue], before the release. *)
Inductive poster := P_Acquire (thr : Z) | P_Enqueue (thr : Z) | P_Release.

(** Where the advancing thread is in [advance]; [A_Out] is out of it.  First the loop over
    the private queue, then [removeAll] on the posted work, then the loop over that. *)
Inductive advancer :=
| A_Out
| A_ThrCheck | A_ThrRun | A_ThrRemove | A_ThrEnd
| A_PstLook | A_PstAcquire | A_PstTake | A_PstRelease (h : Z)
| A_PstCheck | A_PstRun | A_PstEnqueue | A_PstEnd.

#[export] Instance advancer_eq_dec : EqDecision advancer.
Proof. solve_decision. Defined.

(** What happens to a work object: it is posted, its [enqueue] is through, [advance] comes to
    it and executes it, which tells whether it asks to be called again, or leaves it
    alone for its status.  [new] is for the loop over the posted work. *)
Inductive event :=
| Post (thr : Z)
| Enqueued (thr : Z)
| Executed (new : bool) (thr : Z) (again : bool)
| Skipped (new : bool) (thr : Z) (st : ThreadStatus).

Section device.
Context {T_Mutex : Type} `{Mutex T_Mutex}.

(** The device, the links of all work objects and their status, who is posting, where the
    advance is, which work is posted and not finished, and what the advances did. *)
Record context := mkContext {
  c_device : GenericDevice T_Mutex; c_elements : elements; c_status : Z → ThreadStatus;
  c_posters : gmap Z poster; c_advancer : advancer; c_pending : gset Z; c_log : list event
}.

Implicit Types (c : context) (g : GenericDevice T_Mutex).

Definition set_posted g (q : MutexedQueue T_Mutex) : GenericDevice T_Mutex :=
  mkDevice q (Threads g) (ThrIter g) (PstIter g).
Definition set_threads g (q : Queue) (it : Iterator) : GenericDevice T_Mutex :=
  mkDevice (Posted g) q it (PstIter g).
Definition set_pstiter g (it : PostingIterator) : GenericDevice T_Mutex :=
  mkDevice (Posted g) (Threads g) (ThrIter g) it.

Definition set_device c g (s : elements) : context :=
  mkContext g s (c_status c) (c_posters c) (c_advancer c) (c_pending c) (c_log c).
Definition set_poster c (i : Z) (p : option poster) : context :=
  mkContext (c_device c) (c_elements c) (c_status c)
    (partial_alter (λ _, p) i (c_posters c)) (c_advancer c) (c_pending c) (c_log c).
Definition set_advancer c (a : advancer) : context :=
  mkContext (c_device c) (c_elements c) (c_status c) (c_posters c) a (c_pending c) (c_log c).
Definition set_pending c (w : gset Z) : context :=
  mkContext (c_device c) (c_elements c) (c_status c) (c_posters c) (c_advancer c) w (c_log c).
Definition set_status c (thr : Z) (st : ThreadStatus) : context :=
  mkContext (c_device c) (c_elements c) (<[thr := st]> (c_status c)) (c_posters c)
    (c_advancer c) (c_pending c) (c_log c).
Definition add_event c (ev : event) : context :=
  mkContext (c_device c) (c_elements c) (c_status c) (c_posters c) (c_advancer c) (c_pending c)
    (c_log c ++ [ev]).

(** [__Posted.enqueue(thr)]: one step of the thread [i]. *)
Definition post_step (i : Z) (p : poster) c : res context :=
  let g := c_device c in
  let q := Posted g in
  match p with
  | P_Acquire thr =>
      let '(got, m) := acquire_turn (mq_mutex q) in
      let c := set_device c (set_posted g (with_mutex q m)) (c_elements c) in
      mret (if (got : bool) then set_poster c i (Some (P_Enqueue thr)) else c)
  | P_Enqueue thr =>
      '(l, s) ← enqueue_locked thr (mq_list q) (c_elements c);
      let c := set_device c (set_posted g (with_list q l)) s in
      mret (set_poster (add_event c (Enqueued thr)) i (Some P_Release))
  | P_Release =>
      let q := with_mutex q (release (mq_mutex q)) in
      mret (set_poster (set_device c (set_posted g q) (c_elements c)) i None)
  end.

(** The work is called; it is the caller's again once it does not ask for more. *)
Definition execute (new : bool) (thr : Z) (again : bool) c : context :=
  let c := add_event c (Executed new thr again) in
  if again then c else set_pending c (c_pending c ∖ {[thr]}).

(** One step of [advance]; [again] is what the work says that the step executes. *)
Definition advance_step (again : bool) c : res context :=
  let g := c_device c in
  let s := c_elements c in
  match c_advancer c with
  | A_Out =>
      let '(it, _) := iter_begin (Threads g) (ThrIter g) in
      mret (set_advancer (set_device c (set_threads g (Threads g) it) s) A_ThrCheck)
  | A_ThrCheck =>
      '(it, more) ← iter_check s (ThrIter g);
      mret (set_advancer (set_device c (set_threads g (Threads g) it) s)
        (if (more : bool) then A_ThrRun else A_PstLook))
  | A_ThrRun =>
      let thr := iter_current (ThrIter g) in
      mret (if decide (c_status c thr = Ready)
            then set_advancer (execute false thr again c) (if again then A_ThrEnd else A_ThrRemove)
            else set_advancer (add_event c (Skipped false thr (c_status c thr))) A_ThrEnd)
  | A_ThrRemove =>
      '(q, s, it) ← iter_remove (Threads g) (ThrIter g) s;
      mret (set_advancer (set_device c (set_threads g q it) s) A_ThrEnd)
  | A_ThrEnd =>
      mret (set_advancer (set_device c (set_threads g (Threads g) (iter_end (ThrIter g))) s)
        A_ThrCheck)
  | A_PstLook =>
      mret (if q_head (mq_list (Posted g)) =? NULL
            then set_advancer (set_device c (set_pstiter g (posting_begin NULL (PstIter g)).1) s)
                   A_PstCheck
            else set_advancer c A_PstAcquire)
  | A_PstAcquire =>
      let '(got, m) := acquire_turn (mq_mutex (Posted g)) in
      let c := set_device c (set_posted g (with_mutex (Posted g) m)) s in
      mret (if (got : bool) then set_advancer c A_PstTake else c)
  | A_PstTake =>
      let '(l, (h, _, _)) := take_locked (mq_list (Posted g)) in
      mret (set_advancer (set_device c (set_posted g (with_list (Posted g) l)) s) (A_PstRelease h))
  | A_PstRelease h =>
      let q := with_mutex (Posted g) (release (mq_mutex (Posted g))) in
      let g := set_pstiter (set_posted g q) (posting_begin h (PstIter g)).1 in
      mret (set_advancer (set_device c g s) A_PstCheck)
  | A_PstCheck =>
      '(it, more) ← posting_check s (PstIter g);
      mret (set_advancer (set_device c (set_pstiter g it) s) (if (more : bool) then A_PstRun else A_Out))
  | A_PstRun =>
      let it := posting_remove (PstIter g) in
      let thr := posting_current it in
      let c := set_device c (set_pstiter g it) s in
      let st := c_status c thr in
      mret (if decide (st = Ready)
            then set_advancer (execute true thr again c) (if again then A_PstEnqueue else A_PstEnd)
            else
              let c := add_event c (Skipped true thr st) in
              if decide (st = Complete)
              then set_advancer (set_pending c (c_pending c ∖ {[thr]})) A_PstEnd
              else set_advancer c A_PstEnqueue)
  | A_PstEnqueue =>
      '(q, s) ← enqueue (Threads g) (posting_current (PstIter g)) s;
      mret (set_advancer (set_device c (set_threads g q (ThrIter g)) s) A_PstEnd)
  | A_PstEnd =>
      mret (set_advancer (set_device c (set_pstiter g (posting_end (PstIter g))) s) A_PstCheck)
  end.

(** [init]: empty queues. *)
Definition device_init (m : T_Mutex) : GenericDevice T_Mutex :=
  mkDevice (MutexedQueue_new m) Queue_new iter_init posting_init.

(** * Any number of threads *)

(** What goes on by itself: a thread that posts, and the advance once it was called.  A
    thread that waits for the mutex and does not get it makes no progress. *)
Inductive progress : context → context → Prop :=
| progress_post c c' i p : c_posters c !! i = Some p → post_step i p c = Ok c' → c' ≠ c →
    progress c c'
| progress_advance c c' again : c_advancer c ≠ A_Out → advance_step again c = Ok c' → c' ≠ c →
    progress c c'.

(** And what the clients do: post work that is not posted, call [advance], set the status
    of work. *)
Inductive step : context → context → Prop :=
| step_progress c c' : progress c c' → step c c'
| step_post c i thr : c_posters c !! i = None → thr ≠ NULL → is_Some (c_elements c !! thr) →
    thr ∉ c_pending c →
    step c (set_poster (set_pending (add_event c (Post thr)) (c_pending c ∪ {[thr]})) i
              (Some (P_Acquire thr)))
| step_call c c' : c_advancer c = A_Out → advance_step false c = Ok c' → step c c'
| step_status c thr st : step c (set_status c thr st).

(** A step that goes wrong. *)
Definition fails c : Prop :=
  (∃ i p e, c_posters c !! i = Some p ∧ post_step i p c = Err e) ∨
  (∃ again e, advance_step again c = Err e).
End device.

Arguments context T_Mutex : clear implicits.
