(* ===== verification/GenericDeviceSpec.v ===== *)
(** What holds of the generic device while any number of threads post work to it and one
    advances it: its invariant, and each step of either. *)
From stdpp Require Import functions relations.
From S2P Require Import Prelude.
From S2P Require Import Queue.
From S2P Require Import QueueSpec.
From S2P Require Import Atomics.
From S2P Require Import MutexedQueue.
From S2P Require Import GenericDevice.

#[local] Opaque w64.

(** * The log *)

(** Which work is posted and not finished. *)
Definition pending_after (w : gset Z) (ev : event) : gset Z :=
  match ev with
  | Post thr => w ∪ {[thr]}
  | Executed _ thr again => if again then w else w ∖ {[thr]}
  | Skipped new thr st => if decide (new = true ∧ st = Complete) then w ∖ {[thr]} else w
  | Enqueued _ => w
  end.

(** Work is posted only when it is not posted already, and everything else happens to
    posted work only. *)
Fixpoint orderly (w : gset Z) (log : list event) : Prop :=
  match log with
  | [] => True
  | ev :: log =>
      match ev with Post thr => thr ∉ w | Enqueued thr | Executed _ thr _ | Skipped _ thr _ => thr ∈ w end ∧
      orderly (pending_after w ev) log
  end.

(** The work whose [enqueue] is through, and the new work that an advance has come to. *)
Definition enqueued (log : list event) : list Z :=
  log ≫= λ ev, match ev with Enqueued thr => [thr] | _ => [] end.
Definition begun (log : list event) : list Z :=
  log ≫= λ ev, match ev with Executed true thr _ | Skipped true thr _ => [thr] | _ => [] end.
(** Any work that an advance has come to. *)
Definition visited (log : list event) : list Z :=
  log ≫= λ ev, match ev with Executed _ thr _ | Skipped _ thr _ => [thr] | _ => [] end.

Lemma orderly_app w l1 l2 : orderly w (l1 ++ l2) ↔ orderly w l1 ∧ orderly (foldl pending_after w l1) l2.
Proof. revert w. induction l1 as [|ev l1 IH]; intros w; cbn; [tauto|]. rewrite IH. tauto. Qed.

Lemma enqueued_app l1 l2 : enqueued (l1 ++ l2) = enqueued l1 ++ enqueued l2.
Proof. apply bind_app. Qed.
Lemma begun_app l1 l2 : begun (l1 ++ l2) = begun l1 ++ begun l2.
Proof. apply bind_app. Qed.
Lemma visited_app l1 l2 : visited (l1 ++ l2) = visited l1 ++ visited l2.
Proof. apply bind_app. Qed.

(** * Sums over the posting threads *)

Definition psum (f : poster → Z) (m : gmap Z poster) : Z := map_fold (λ _ p n, f p + n) 0 m.

Lemma psum_insert f m i p : m !! i = None → psum f (<[i := p]> m) = f p + psum f m.
Proof.
  intros Hi. unfold psum. rewrite map_fold_insert_L; [done|intros; lia|done].
Qed.

Lemma psum_alter f m i p o : m !! i = Some p →
  psum f (partial_alter (λ _, o) i m) = psum f m - f p + match o with Some p' => f p' | None => 0 end.
Proof.
  intros Hi. rewrite <- (insert_delete_id m i p Hi) at 2. rewrite psum_insert by apply lookup_delete_eq.
  destruct o as [p'|].
  - change (partial_alter (λ _, Some p') i m) with (<[i := p']> m).
    rewrite <- insert_delete_eq, psum_insert by apply lookup_delete_eq. lia.
  - change (partial_alter (λ _, None) i m) with (delete i m). lia.
Qed.

Lemma psum_le f g m : (∀ p, f p ≤ g p) → psum f m ≤ psum g m.
Proof.
  intros Hle. unfold psum. induction m as [|i p m Hi Hfst IH] using map_first_key_ind; [done|].
  rewrite !map_fold_insert_L by (done || (intros; lia)). specialize (Hle p). lia.
Qed.

(** * The invariant *)

Section device.
Context {T_Mutex : Type} `{MutexLaws T_Mutex}.

Notation context := (context T_Mutex).
Notation device := (GenericDevice T_Mutex).
Implicit Types (c : context) (g : device) (s : elements).

(** The private queue and its iterator.  [l1] is what the advance has passed, [l2] what it
    has still to come to, or in the loop over posted work, the work that is about to be
    enqueued.  Work that was executed and is not yet out of the queue may be linked
    elsewhere already. *)
Definition threads_inv (a : advancer) g s (l1 l2 : list Z) : Prop :=
  let q := Threads g in
  let it := ThrIter g in
  match a with
  | A_ThrCheck => repr s q (l1 ++ l2) ∧ i_parent it = final NULL l1 ∧ i_curr it = first NULL l2
  | A_ThrRun => repr s q (l1 ++ l2) ∧ i_parent it = final NULL l1 ∧
      ∃ thr l, l2 = thr :: l ∧ i_curr it = thr ∧ i_next it = first NULL l
  | A_ThrRemove => i_parent it = final NULL l1 ∧ i_next it = first NULL l2 ∧
      ∃ thr, thr ∉ l1 ++ l2 ∧ thr ≠ NULL ∧
        repr (<[thr := mkElement (final NULL l1) (first NULL l2)]> s) q (l1 ++ thr :: l2)
  | A_ThrEnd => repr s q (l1 ++ l2) ∧ i_curr it = final NULL l1 ∧ i_next it = first NULL l2
  | A_PstEnqueue => repr s q l1 ∧ l2 = [pi_curr (PstIter g)]
  | _ => repr s q l1 ∧ l2 = []
  end.

(** The work taken out of the queue that is still to come. *)
Definition batch_inv (a : advancer) g s (b : list Z) : Prop :=
  let it := PstIter g in
  match a with
  | A_PstRelease h => h = first NULL b ∧ ∃ p, dlseg s p b NULL
  | A_PstCheck => pi_curr it = first NULL b ∧ ∃ p, dlseg s p b NULL
  | A_PstRun => ∃ thr l, b = thr :: l ∧ pi_curr it = thr ∧ pi_next it = first NULL l ∧
      ∃ p, dlseg s p b NULL
  | A_PstEnqueue | A_PstEnd => pi_next it = first NULL b ∧ ∃ p, dlseg s p b NULL
  | _ => b = []
  end.

Definition poster_inside (p : poster) : Prop := match p with P_Acquire _ => False | _ => True end.
Definition advancer_inside (a : advancer) : Prop :=
  match a with A_PstTake | A_PstRelease _ => True | _ => False end.

(** Who has the mutex: nobody, a posting thread, or the advancing one. *)
Definition lock_inv (m : T_Mutex) (posters : gmap Z poster) (a : advancer) : Prop :=
  ∃ who : option (option Z),
    match who with None => mutex_free m | Some _ => mutex_held m end ∧
    (∀ i p, posters !! i = Some p → poster_inside p ↔ who = Some (Some i)) ∧
    (∀ i, who = Some (Some i) → is_Some (posters !! i)) ∧
    (advancer_inside a ↔ who = Some None).

(** The work in the hand of a posting thread. *)
Definition in_hand (p : poster) : option Z :=
  match p with P_Acquire thr | P_Enqueue thr => Some thr | P_Release => None end.

Definition held_by (posters : gmap Z poster) (i thr : Z) : Prop :=
  ∃ p, posters !! i = Some p ∧ in_hand p = Some thr.

Record inv c (lp l1 l2 b : list Z) : Prop := {
  iv_posted : repr (c_elements c) (mq_list (Posted (c_device c))) lp;
  iv_threads : threads_inv (c_advancer c) (c_device c) (c_elements c) l1 l2;
  iv_batch : batch_inv (c_advancer c) (c_device c) (c_elements c) b;
  iv_lock : lock_inv (mq_mutex (Posted (c_device c))) (c_posters c) (c_advancer c);
  iv_take : c_advancer c = A_PstTake ∨ c_advancer c = A_PstAcquire → lp ≠ [];
  iv_nodup : NoDup (lp ++ l1 ++ l2 ++ b);
  iv_alloc thr : thr ∈ c_pending c → thr ≠ NULL ∧ is_Some (c_elements c !! thr);
  iv_pending thr : thr ∈ c_pending c ↔
    thr ∈ lp ++ l1 ++ l2 ++ b ∨ ∃ i, held_by (c_posters c) i thr;
  iv_hand i thr : held_by (c_posters c) i thr →
    thr ∉ lp ++ l1 ++ l2 ++ b ∧ ∀ j, held_by (c_posters c) j thr → j = i;
  iv_orderly : orderly ∅ (c_log c);
  iv_log : foldl pending_after ∅ (c_log c) = c_pending c;
  iv_order : enqueued (c_log c) = begun (c_log c) ++ b ++ lp
}.

(** What the advance under way has still to come to. *)
Definition todo c (lp l2 b : list Z) : list Z :=
  match c_advancer c with
  | A_ThrCheck | A_ThrRun | A_ThrRemove | A_ThrEnd | A_PstLook | A_PstAcquire | A_PstTake => l2 ++ lp
  | A_PstEnqueue => b
  | A_Out => []
  | _ => b
  end.

(** ** Frames *)

Lemma threads_inv_frame a g s s' l1 l2 : (∀ x, x ∈ l1 ++ l2 → s' !! x = s !! x) →
  threads_inv a g s l1 l2 → threads_inv a g s' l1 l2.
Proof.
  intros Hs Hinv. assert (Hr : ∀ l, (∀ x, x ∈ l → x ∈ l1 ++ l2) → repr s (Threads g) l → repr s' (Threads g) l).
  { intros l Hl Hr. eapply repr_outside; [exact Hr|]. auto. }
  destruct a; cbn in *; try (destruct Hinv as [? Hrest]; split; [|exact Hrest]; apply Hr; [|done]; set_solver).
  destruct Hinv as (?&?&thr&?&?&Hrp). split; [done|]. split; [done|]. exists thr. split; [done|].
  split; [done|].
  eapply repr_outside; [exact Hrp|]. intros x Hx. destruct (decide (x = thr)) as [->|Hne].
  - by rewrite !lookup_insert_eq.
  - rewrite !lookup_insert_ne by done. apply Hs. set_solver.
Qed.

Lemma batch_inv_frame a g s s' b : (∀ x, x ∈ b → s' !! x = s !! x) →
  batch_inv a g s b → batch_inv a g s' b.
Proof.
  intros Hs Hinv. assert (Hd : (∃ p, dlseg s p b NULL) → ∃ p, dlseg s' p b NULL).
  { intros [p Hp]. exists p. by eapply dlseg_frame. }
  destruct a; cbn in *; try done; try (destruct Hinv as [? ?]; split; auto).
  destruct Hinv as (thr&l&->&?&?&Hp). exists thr, l. repeat split; auto.
Qed.

Lemma safe_remove_other q p n s q' s' x : safe_remove q p n s = Ok (q', s') → p ≠ x → n ≠ x →
  s' !! x = s !! x.
Proof.
  unfold safe_remove, setNext, setPrev. intros Hrun Hp Hn.
  apply bind_Ok in Hrun as ([hd s1]&H1&Hrun). apply bind_Ok in Hrun as ([tl s2]&H2&Hrun). inv_ok.
  transitivity (s1 !! x).
  - destruct (n =? NULL); inv_ok; [done|]. by rewrite lookup_insert_ne.
  - destruct (p =? NULL); inv_ok; [done|]. by rewrite lookup_insert_ne.
Qed.

(** [safe_remove] does not look at the element it removes. *)
Lemma setNext_insert s t e a n s' : a ≠ t → setNext a n (<[t := e]> s) = Ok s' →
  ∃ s1, setNext a n s = Ok s1 ∧ s' = <[t := e]> s1.
Proof.
  intros Hne. unfold setNext, deref. rewrite lookup_insert_ne by done.
  destruct (negb _); [|done]. destruct (s !! a); [|done]. cbn. intros [= <-].
  eexists. split; [done|]. by rewrite insert_insert_ne.
Qed.

Lemma setPrev_insert s t e a n s' : a ≠ t → setPrev a n (<[t := e]> s) = Ok s' →
  ∃ s1, setPrev a n s = Ok s1 ∧ s' = <[t := e]> s1.
Proof.
  intros Hne. unfold setPrev, deref. rewrite lookup_insert_ne by done.
  destruct (negb _); [|done]. destruct (s !! a); [|done]. cbn. intros [= <-].
  eexists. split; [done|]. by rewrite insert_insert_ne.
Qed.

Lemma safe_remove_insert q p n s t e q' s' : p ≠ t → n ≠ t →
  safe_remove q p n (<[t := e]> s) = Ok (q', s') →
  ∃ s1, safe_remove q p n s = Ok (q', s1) ∧ s' = <[t := e]> s1.
Proof.
  intros Hp Hn. unfold safe_remove. intros Hrun. apply bind_Ok in Hrun as ([hd s1]&H1&Hrun).
  assert (∃ s1', (if p =? NULL then mret (n, s) else s ← setNext p n s; mret (q_head q, s)) = Ok (hd, s1') ∧
    s1 = <[t := e]> s1') as (s1'&->&->).
  { destruct (p =? NULL); [inv_ok; by eexists|]. apply bind_Ok in H1 as (s2&Hs2&H1). inv_ok.
    apply setNext_insert in Hs2 as (s3&->&->); [|done]. by eexists. }
  cbn [mbind res_bind]. apply bind_Ok in Hrun as ([tl s2]&H2&Hrun). inv_ok.
  assert (∃ s2', (if n =? NULL then mret (p, s1') else s ← setPrev n p s1'; mret (q_tail q, s)) = Ok (tl, s2') ∧
    s' = <[t := e]> s2') as (s2'&->&->).
  { destruct (n =? NULL); [inv_ok; by eexists|]. apply bind_Ok in H2 as (s3&Hs3&H2). inv_ok.
    apply setPrev_insert in Hs3 as (s4&->&->); [|done]. by eexists. }
  cbn [mbind res_bind]. by eexists.
Qed.
(** ** The mutex *)

Lemma lock_turn m posters a i thr : lock_inv m posters a → posters !! i = Some (P_Acquire thr) →
  (∃ m', acquire_turn m = (true, m') ∧ lock_inv m' (<[i := P_Enqueue thr]> posters) a) ∨
  acquire_turn m = (false, m).
Proof.
  intros (who&Hm&Hin&Hwho&Ha) Hi. destruct who as [w|]; [right; by apply turn_held|left].
  destruct (turn_free m Hm) as (m'&Hturn&Hheld). exists m'. split; [done|].
  exists (Some (Some i)). split; [done|]. split; [|split].
  - intros j p Hj. apply lookup_insert_Some in Hj as [[-> <-]|[Hne Hj]]; [done|].
    rewrite (Hin j p Hj). naive_solver.
  - intros j [= <-]. by rewrite lookup_insert_eq.
  - rewrite Ha. naive_solver.
Qed.

Lemma lock_stay m posters a i p : lock_inv m posters a → posters !! i = Some p → poster_inside p →
  lock_inv m (<[i := P_Release]> posters) a.
Proof.
  intros (who&Hm&Hin&Hwho&Ha) Hi Hp. exists who. split; [done|]. split; [|split; [|done]].
  - intros j p' Hj. apply lookup_insert_Some in Hj as [[-> <-]|[Hne Hj]]; [|by apply Hin].
    cbn. rewrite <- (Hin _ _ Hi). tauto.
  - intros j Hj. apply Hwho in Hj. apply lookup_insert_is_Some. destruct (decide (i = j)); auto.
Qed.

Lemma lock_give m posters a i p : lock_inv m posters a → posters !! i = Some p → poster_inside p →
  lock_inv (release m) (delete i posters) a.
Proof.
  intros (who&Hm&Hin&Hwho&Ha) Hi Hp. apply (Hin _ _ Hi) in Hp as ->. exists None.
  split; [by apply release_held|]. split; [|split; [done|rewrite Ha; naive_solver]].
  intros j p' Hj. apply lookup_delete_Some in Hj as [Hne Hj]. rewrite (Hin _ _ Hj). naive_solver.
Qed.

Lemma lock_move m posters a a' : lock_inv m posters a → (advancer_inside a ↔ advancer_inside a') →
  lock_inv m posters a'.
Proof. intros (who&Hm&Hin&Hwho&Ha) Hiff. exists who. rewrite <- Hiff. done. Qed.

Lemma lock_take m posters : lock_inv m posters A_PstAcquire →
  (∃ m', acquire_turn m = (true, m') ∧ lock_inv m' posters A_PstTake) ∨ acquire_turn m = (false, m).
Proof.
  intros (who&Hm&Hin&Hwho&Ha). destruct who as [w|]; [right; by apply turn_held|left].
  destruct (turn_free m Hm) as (m'&Hturn&Hheld). exists m'. split; [done|].
  exists (Some None). split; [done|]. split; [|split; done].
  intros j p Hj. rewrite (Hin j p Hj). naive_solver.
Qed.

Lemma lock_drop m posters a a' : lock_inv m posters a → advancer_inside a → ¬ advancer_inside a' →
  lock_inv (release m) posters a'.
Proof.
  intros (who&Hm&Hin&Hwho&Ha) Hi Ho. apply Ha in Hi as ->. exists None.
  split; [by apply release_held|]. split; [|split; [done|naive_solver]].
  intros j p Hj. rewrite (Hin _ _ Hj). naive_solver.
Qed.

(** ** Who holds what *)

Lemma held_insert m i p j thr :
  held_by (<[i := p]> m) j thr ↔ (j = i ∧ in_hand p = Some thr) ∨ (j ≠ i ∧ held_by m j thr).
Proof.
  unfold held_by. destruct (decide (j = i)) as [->|Hne].
  - rewrite lookup_insert_eq. naive_solver.
  - rewrite lookup_insert_ne by done. naive_solver.
Qed.

Lemma held_delete m i j thr : held_by (delete i m) j thr ↔ j ≠ i ∧ held_by m j thr.
Proof.
  unfold held_by. destruct (decide (j = i)) as [->|Hne].
  - rewrite lookup_delete_eq. naive_solver.
  - rewrite lookup_delete_ne by done. naive_solver.
Qed.

Lemma held_same m i p p' j thr : m !! i = Some p → in_hand p' = in_hand p →
  held_by (<[i := p']> m) j thr ↔ held_by m j thr.
Proof.
  intros Hi Hp. rewrite held_insert. unfold held_by. rewrite Hp. destruct (decide (j = i)) as [->|]; naive_solver.
Qed.

(** ** What is left to do *)

Definition weight_before (p : poster) : Z :=
  match p with P_Acquire _ => 7 | P_Enqueue _ => 6 | P_Release => 1 end.
Definition weight_after (p : poster) : Z :=
  match p with P_Acquire _ => 3 | P_Enqueue _ => 2 | P_Release => 1 end.

Definition len (l : list Z) : Z := Z.of_nat (length l).

(** Steps to go, of the advance under way and of all who post. *)
Definition steps_left c (lp l2 b : list Z) : Z :=
  let before := psum weight_before (c_posters c) + 4 * len lp + 10 in
  let after := psum weight_after (c_posters c) + 4 * len b in
  match c_advancer c with
  | A_Out => psum weight_after (c_posters c)
  | A_ThrCheck => before + 4 * len l2 + 3
  | A_ThrRun => before + 4 * len l2 + 2
  | A_ThrRemove => before + 4 * len l2 + 5
  | A_ThrEnd => before + 4 * len l2 + 4
  | A_PstLook => before
  | A_PstAcquire => before - 1
  | A_PstTake => before - 2
  | A_PstRelease _ => after + 7
  | A_PstCheck => after + 3
  | A_PstRun => after + 2
  | A_PstEnqueue => after + 5
  | A_PstEnd => after + 4
  end.

Lemma psum_nonneg f m : (∀ p, 0 ≤ f p) → 0 ≤ psum f m.
Proof.
  intros Hf. unfold psum. induction m as [|i p m Hi Hfst IH] using map_first_key_ind; [done|].
  rewrite map_fold_insert_L by (done || (intros; lia)). specialize (Hf p). lia.
Qed.

Lemma steps_left_nonneg c lp l2 b : 0 ≤ steps_left c lp l2 b.
Proof.
  pose proof (psum_nonneg weight_before (c_posters c) ltac:(by intros [])).
  pose proof (psum_nonneg weight_after (c_posters c) ltac:(by intros [])).
  unfold steps_left, len. destruct (c_advancer c); lia.
Qed.

(** Either way of weighing, a step of a posting thread is worth one at least. *)
Lemma weigh c c' lp lp' l2 b :
  c_advancer c' = c_advancer c →
  psum weight_before (c_posters c') + 4 * len lp' < psum weight_before (c_posters c) + 4 * len lp →
  psum weight_after (c_posters c') < psum weight_after (c_posters c) →
  steps_left c' lp' l2 b < steps_left c lp l2 b.
Proof. intros Ha H1 H2. unfold steps_left. rewrite Ha. destruct (c_advancer c); lia. Qed.

(** ** The steps of a thread that posts *)

Lemma threads_inv_posted a g q s l1 l2 : threads_inv a (set_posted g q) s l1 l2 ↔ threads_inv a g s l1 l2.
Proof. done. Qed.
Lemma batch_inv_posted a g q s b : batch_inv a (set_posted g q) s b ↔ batch_inv a g s b.
Proof. done. Qed.

Lemma acquire_step c lp l1 l2 b i thr : inv c lp l1 l2 b → c_posters c !! i = Some (P_Acquire thr) →
  ∃ c', post_step i (P_Acquire thr) c = Ok c' ∧ c_advancer c' = c_advancer c ∧ c_log c' = c_log c ∧
    (c' = c ∨ inv c' lp l1 l2 b ∧ steps_left c' lp l2 b < steps_left c lp l2 b).
Proof.
  intros Hinv Hi. cbn [post_step].
  destruct (lock_turn _ _ _ _ _ (iv_lock _ _ _ _ _ Hinv) Hi) as [(m'&->&Hlock)| ->].
  - eexists. split; [reflexivity|]. split; [done|]. split; [done|]. right. split.
    + assert (Hheld : ∀ j x, held_by (<[i := P_Enqueue thr]> (c_posters c)) j x ↔ held_by (c_posters c) j x)
        by (intros; by eapply held_same).
      split; try apply Hinv; cbn; try done.
      * intros x. setoid_rewrite Hheld. apply Hinv.
      * intros j x. setoid_rewrite Hheld. apply Hinv.
    + apply weigh; [done|..]; cbn [set_poster c_posters set_device];
        rewrite (psum_alter _ _ _ _ _ Hi); cbn; lia.
  - eexists. split; [reflexivity|]. split; [done|]. split; [done|]. left. by destruct c as [[[] ? ? ?] ? ? ? ? ? ?].
Qed.

Lemma enqueue_step c lp l1 l2 b i thr : inv c lp l1 l2 b → c_posters c !! i = Some (P_Enqueue thr) →
  ∃ c', post_step i (P_Enqueue thr) c = Ok c' ∧ c_advancer c' = c_advancer c ∧
    c_log c' = c_log c ++ [Enqueued thr] ∧
    inv c' (lp ++ [thr]) l1 l2 b ∧ steps_left c' (lp ++ [thr]) l2 b < steps_left c lp l2 b.
Proof.
  intros Hinv Hi. cbn [post_step].
  assert (Hhand : held_by (c_posters c) i thr) by (by eexists).
  destruct (iv_hand _ _ _ _ _ Hinv i thr Hhand) as [Hout Huniq].
  assert (Hpend : thr ∈ c_pending c) by (apply (iv_pending _ _ _ _ _ Hinv); eauto).
  destruct (iv_alloc _ _ _ _ _ Hinv thr Hpend) as [Hnull Hsome].
  rewrite !not_elem_of_app in Hout. destruct Hout as (Ho1&Ho2&Ho3&Ho4).
  destruct (enqueue_spec _ _ lp thr (iv_posted _ _ _ _ _ Hinv)) as ([l s]&Hrun&Hrepr&Hsame); [done|].
  change (enqueue_locked thr ?l ?s) with (enqueue l thr s). rewrite Hrun. cbn [mbind res_bind id fst snd] in *.
  assert (Hs : ∀ x, x ∈ l1 ++ l2 ++ b → s !! x = c_elements c !! x).
  { intros x Hx. apply Hsame. pose proof (iv_nodup _ _ _ _ _ Hinv) as (_&Hd&_)%NoDup_app.
    intros [Hlp| ->%list_elem_of_singleton]%elem_of_app; [by eapply Hd|]. set_solver. }
  assert (Hheld : ∀ j x, held_by (<[i := P_Release]> (c_posters c)) j x ↔ j ≠ i ∧ held_by (c_posters c) j x).
  { intros. rewrite held_insert. naive_solver. }
  eexists. split; [reflexivity|]. split; [done|]. split; [done|]. split.
  - split; cbn [set_poster add_event set_device set_posted with_list c_device c_elements c_status c_posters
      c_advancer c_pending c_log Posted mq_list mq_mutex].
    + done.
    + eapply threads_inv_frame; [|apply (iv_threads _ _ _ _ _ Hinv)]. intros x Hx. apply Hs. set_solver.
    + eapply batch_inv_frame; [|apply (iv_batch _ _ _ _ _ Hinv)]. intros x Hx. apply Hs. set_solver.
    + by eapply lock_stay; [apply Hinv|..].
    + intros _. by destruct lp.
    + pose proof (iv_nodup _ _ _ _ _ Hinv) as Hnd. rewrite <- (assoc_L (++)). cbn.
      apply NoDup_Permutation_proper with (thr :: lp ++ l1 ++ l2 ++ b); [symmetry; by rewrite Permutation_middle|].
      apply NoDup_cons. split; [|done]. rewrite !not_elem_of_app. auto.
    + intros x Hx. destruct (iv_alloc _ _ _ _ _ Hinv x Hx) as [? [e He]]. split; [done|].
      destruct (decide (x ∈ lp ++ [thr])) as [Hin|Hin].
      * destruct Hrepr as [_ Hl _ _ _]. by apply (dlseg_in _ _ _ _ _ Hl Hin).
      * rewrite Hsame by done. by eexists.
    + intros x. rewrite (iv_pending _ _ _ _ _ Hinv). setoid_rewrite Hheld.
      split.
      * intros [Hx|[j Hj]]; [left; set_solver|].
        destruct (decide (j = i)) as [->|]; [left|right; eauto].
        destruct Hj as (p&Hp&Hh), Hhand as (p'&Hp'&Hh'). simplify_eq. set_solver.
      * intros [Hx|[j [_ Hj]]]; [|eauto]. assert (x = thr ∨ x ∈ lp ++ l1 ++ l2 ++ b) as [->|] by set_solver; eauto.
    + intros j x [Hji Hj]%Hheld. destruct (iv_hand _ _ _ _ _ Hinv j x Hj) as [Hx Hu]. split.
      * assert (x ≠ thr) by (intros ->; by apply Hji, Huniq). set_solver.
      * intros k [_ Hk]%Hheld. by apply Hu.
    + apply orderly_app. split; [apply Hinv|]. rewrite (iv_log _ _ _ _ _ Hinv). done.
    + rewrite foldl_app. cbn. apply Hinv.
    + rewrite enqueued_app, begun_app, (iv_order _ _ _ _ _ Hinv). cbn.
      by rewrite app_nil_r, !(assoc_L (++)).
  - apply weigh; [done|..]; cbn [set_poster c_posters set_device add_event];
      rewrite (psum_alter _ _ _ _ _ Hi); cbn; unfold len; rewrite ?length_app; cbn; lia.
Qed.

Lemma release_step c lp l1 l2 b i : inv c lp l1 l2 b → c_posters c !! i = Some P_Release →
  ∃ c', post_step i P_Release c = Ok c' ∧ c_advancer c' = c_advancer c ∧ c_log c' = c_log c ∧
    inv c' lp l1 l2 b ∧ steps_left c' lp l2 b < steps_left c lp l2 b.
Proof.
  intros Hinv Hi. cbn [post_step]. eexists. split; [reflexivity|]. split; [done|]. split; [done|].
  assert (Hheld : ∀ j x, held_by (delete i (c_posters c)) j x ↔ held_by (c_posters c) j x).
  { intros. rewrite held_delete. split; [naive_solver|]. intros Hj. split; [|done]. intros ->.
    destruct Hj as (p&Hp&Hh). simplify_eq. }
  split.
  - split; try apply Hinv; cbn; try done.
    + by eapply lock_give; [apply Hinv|..].
    + intros x. setoid_rewrite Hheld. apply Hinv.
    + intros j x. setoid_rewrite Hheld. apply Hinv.
  - apply weigh; [done|..]; cbn [set_poster c_posters set_device];
      rewrite (psum_alter _ _ _ _ _ Hi); cbn; lia.
Qed.
(** ** The steps of the advance *)

(** What a step of the advance has to show: the work that is [gone] was executed and is
    finished, or was found complete. *)
Lemma inv_update c c' lp l1 l2 b lp' l1' l2' b' evs gone : inv c lp l1 l2 b →
  c_posters c' = c_posters c →
  repr (c_elements c') (mq_list (Posted (c_device c'))) lp' →
  threads_inv (c_advancer c') (c_device c') (c_elements c') l1' l2' →
  batch_inv (c_advancer c') (c_device c') (c_elements c') b' →
  lock_inv (mq_mutex (Posted (c_device c'))) (c_posters c) (c_advancer c') →
  (c_advancer c' = A_PstTake ∨ c_advancer c' = A_PstAcquire → lp' ≠ []) →
  (∀ x, is_Some (c_elements c !! x) → is_Some (c_elements c' !! x)) →
  lp ++ l1 ++ l2 ++ b ≡ₚ gone ++ lp' ++ l1' ++ l2' ++ b' →
  c_pending c' = c_pending c ∖ list_to_set gone →
  c_log c' = c_log c ++ evs → orderly (c_pending c) evs →
  foldl pending_after (c_pending c) evs = c_pending c' →
  enqueued evs = [] → b ++ lp = begun evs ++ b' ++ lp' →
  inv c' lp' l1' l2' b'.
Proof.
  intros Hinv Hpo Hr Ht Hb Hl Htake Hal Hperm Hpend Hlog Hord Hfold Henq Hbeg.
  pose proof (iv_nodup _ _ _ _ _ Hinv) as Hnd. rewrite Hperm in Hnd.
  apply NoDup_app in Hnd as (_&Hgone&Hnd).
  split; try done; rewrite ?Hpo; try done.
  - intros x Hx. rewrite Hpend in Hx. destruct (iv_alloc _ _ _ _ _ Hinv x) as [? ?]; [set_solver|]. auto.
  - intros x. rewrite Hpend, elem_of_difference, elem_of_list_to_set, (iv_pending _ _ _ _ _ Hinv), Hperm.
    split.
    + intros [[Hx|Hx] Hg]; [|by right]. apply elem_of_app in Hx as [Hx|Hx]; [done|by left].
    + intros [Hx|Hx].
      * split; [left; apply elem_of_app; by right|]. intros Hg. by apply (Hgone x).
      * split; [by right|]. intros Hg. destruct Hx as [i Hi].
        destruct (iv_hand _ _ _ _ _ Hinv i x Hi) as [Hno _]. rewrite Hperm in Hno.
        apply Hno, elem_of_app. by left.
  - intros i x Hx. destruct (iv_hand _ _ _ _ _ Hinv i x Hx) as [Hno Hu]. split; [|done].
    rewrite Hperm in Hno. intros Hin. apply Hno, elem_of_app. by right.
  - rewrite Hlog. apply orderly_app. split; [apply Hinv|]. by rewrite (iv_log _ _ _ _ _ Hinv).
  - by rewrite Hlog, foldl_app, (iv_log _ _ _ _ _ Hinv).
  - rewrite Hlog, enqueued_app, begun_app, (iv_order _ _ _ _ _ Hinv), Henq, Hbeg, app_nil_r.
    by rewrite <- (assoc_L (++)).
Qed.

Lemma none_gone (w : gset Z) : w = w ∖ list_to_set [].
Proof. set_solver. Qed.
Lemma one_gone (w : gset Z) thr : w ∖ {[thr]} = w ∖ list_to_set [thr].
Proof. set_solver. Qed.

(** A step that executes nothing. *)
Lemma inv_links c c' lp l1 l2 b lp' l1' l2' b' : inv c lp l1 l2 b →
  c_posters c' = c_posters c → c_pending c' = c_pending c → c_log c' = c_log c →
  (∀ x, is_Some (c_elements c !! x) → is_Some (c_elements c' !! x)) →
  repr (c_elements c') (mq_list (Posted (c_device c'))) lp' →
  threads_inv (c_advancer c') (c_device c') (c_elements c') l1' l2' →
  batch_inv (c_advancer c') (c_device c') (c_elements c') b' →
  lock_inv (mq_mutex (Posted (c_device c'))) (c_posters c) (c_advancer c') →
  (c_advancer c' = A_PstTake ∨ c_advancer c' = A_PstAcquire → lp' ≠ []) →
  lp ++ l1 ++ l2 ++ b ≡ₚ lp' ++ l1' ++ l2' ++ b' → b ++ lp = b' ++ lp' →
  inv c' lp' l1' l2' b'.
Proof.
  intros Hinv Hpo Hpe Hlog Hal Hr Ht Hb Hl Htake Hperm Hord.
  apply (inv_update c c' lp l1 l2 b lp' l1' l2' b' [] []); rewrite ?app_nil_r; try done.
  rewrite Hpe. apply none_gone.
Qed.

(** A step that executes nothing, and leaves the links alone. *)
Lemma inv_still c c' lp l1 l2 b lp' l1' l2' b' : inv c lp l1 l2 b →
  c_posters c' = c_posters c → c_pending c' = c_pending c → c_log c' = c_log c →
  c_elements c' = c_elements c →
  repr (c_elements c) (mq_list (Posted (c_device c'))) lp' →
  threads_inv (c_advancer c') (c_device c') (c_elements c) l1' l2' →
  batch_inv (c_advancer c') (c_device c') (c_elements c) b' →
  lock_inv (mq_mutex (Posted (c_device c'))) (c_posters c) (c_advancer c') →
  (c_advancer c' = A_PstTake ∨ c_advancer c' = A_PstAcquire → lp' ≠ []) →
  lp ++ l1 ++ l2 ++ b ≡ₚ lp' ++ l1' ++ l2' ++ b' → b ++ lp = b' ++ lp' →
  inv c' lp' l1' l2' b'.
Proof.
  intros Hinv Hpo Hpe Hlog Hel Hr Ht Hb Hl Htake Hperm Hord.
  apply (inv_links c c' lp l1 l2 b lp' l1' l2' b'); by rewrite ?Hel.
Qed.

(** What the lemmas of the steps say. *)
Definition goes_on c (lp l1 l2 b : list Z) (again : bool) : Prop :=
  ∃ c', advance_step again c = Ok c' ∧ c_posters c' = c_posters c ∧
    (c' = c ∧ c_advancer c = A_PstAcquire ∨ c_advancer c' ≠ c_advancer c ∧ ∃ lp' l1' l2' b' evs, inv c' lp' l1' l2' b' ∧
      steps_left c' lp' l2' b' < steps_left c lp l2 b ∧ c_log c' = c_log c ++ evs ∧
      ∀ w, w ∈ todo c lp l2 b → w ∈ todo c' lp' l2' b' ∨ w ∈ visited evs).

Lemma goes_by c lp l1 l2 b again c' lp' l1' l2' b' evs : advance_step again c = Ok c' →
  c_posters c' = c_posters c → c_log c' = c_log c ++ evs → c_advancer c' ≠ c_advancer c →
  inv c' lp' l1' l2' b' → steps_left c' lp' l2' b' < steps_left c lp l2 b →
  (∀ w, w ∈ todo c lp l2 b → w ∈ todo c' lp' l2' b' ∨ w ∈ visited evs) →
  goes_on c lp l1 l2 b again.
Proof. intros Hrun Hpo Hlog Ha Hi Hs Ht. exists c'. split; [done|]. split; [done|]. right. eauto 12. Qed.

(** The parts of the invariant at the place [Ha] of the advance. *)
Ltac at_place Hinv Ha :=
  pose proof (iv_threads _ _ _ _ _ Hinv) as Ht; pose proof (iv_batch _ _ _ _ _ Hinv) as Hb;
  pose proof (iv_lock _ _ _ _ _ Hinv) as Hl; pose proof (iv_posted _ _ _ _ _ Hinv) as Hq;
  rewrite Ha in Ht, Hb, Hl; cbn in Ht, Hb.

Ltac goes Ha :=
  try done; try (by rewrite ?app_nil_r); try (by rewrite Ha);
  try (unfold steps_left; rewrite Ha; cbn; unfold len; cbn; lia);
  try (unfold todo; rewrite Ha; cbn; by auto).

Ltac sides Ha Hl :=
  goes Ha; try (eapply lock_move; [exact Hl|done]);
  try apply none_gone; try apply one_gone; try (by cbn; rewrite ?app_nil_r; solve_Permutation);
  try (by intros []); try (cbn; by auto).

Section steps.
Context c (lp l1 l2 b : list Z) (again : bool) (Hinv : inv c lp l1 l2 b).

Lemma step_thr_check : c_advancer c = A_ThrCheck → goes_on c lp l1 l2 b again.
Proof.
  intros Ha. at_place Hinv Ha. destruct Ht as (Hr&Hp&Hc). subst b.
  assert (Hrun : ∃ it, advance_step again c = Ok (set_advancer (set_device c
      (set_threads (c_device c) (Threads (c_device c)) it) (c_elements c))
      (match l2 with [] => A_PstLook | _ => A_ThrRun end)) ∧
    i_parent it = i_parent (ThrIter (c_device c)) ∧ i_curr it = i_curr (ThrIter (c_device c)) ∧
    match l2 with [] => True | thr :: l => i_next it = first NULL l end).
  { unfold advance_step. rewrite Ha. unfold iter_check. rewrite Hc. destruct l2 as [|thr l]; cbn [first].
    - eexists. split; [reflexivity|]. done.
    - destruct (repr_links _ _ _ _ _ Hr) as [Hn _]. rewrite (proj2 (Z.eqb_neq thr NULL)) by done.
      unfold nextElem. rewrite (next_spec _ _ _ _ _ Hr). eexists. split; [reflexivity|]. cbn. done. }
  destruct Hrun as (it&Hrun&Hpa&Hcu&Hne). destruct l2 as [|thr l]; rewrite ?app_nil_r in Hr.
  - eapply (goes_by _ _ _ _ _ _ _ lp l1 [] [] []); [exact Hrun|..]; goes Ha.
    eapply inv_still; [exact Hinv|..]; sides Ha Hl.
  - eapply (goes_by _ _ _ _ _ _ _ lp l1 (thr :: l) [] []); [exact Hrun|..]; goes Ha.
    eapply inv_still; [exact Hinv|..]; sides Ha Hl.
    cbn. rewrite Hpa, Hcu, Hc. split; [done|]. split; [done|]. exists thr, l. done.
Qed.
(** Work of the private queue that is left in it. *)
Lemma step_thr_stay ev thr l : c_advancer c = A_ThrRun → l2 = thr :: l →
  i_curr (ThrIter (c_device c)) = thr →
  ev = Executed false thr true ∨ (∃ st, ev = Skipped false thr st) →
  advance_step again c = Ok (set_advancer (add_event c ev) A_ThrEnd) → goes_on c lp l1 l2 b again.
Proof.
  intros Ha Hl2 Hcur Hev Hrun. at_place Hinv Ha. destruct Ht as (Hr&Hp&thr'&l'&Hl2'&Hcur'&Hn). subst b. rewrite Hl2 in Hl2'. injection Hl2' as <- <-. subst l2.
  assert (Hpe : thr ∈ c_pending c) by (apply (iv_pending _ _ _ _ _ Hinv); left; set_solver).
  assert (Hvis : visited [ev] = [thr] ∧ enqueued [ev] = [] ∧ begun [ev] = [] ∧
    orderly (c_pending c) [ev] ∧ pending_after (c_pending c) ev = c_pending c).
  { destruct Hev as [->|[st ->]]; done. }
  destruct Hvis as (Hv1&Hv2&Hv3&Hv4&Hv5).
  eapply (goes_by _ _ _ _ _ _ _ lp (l1 ++ [thr]) l [] [ev]); [exact Hrun|..]; goes Ha.
  - eapply (inv_update c _ lp l1 (thr :: l) [] _ _ _ _ [ev] []); try done; sides Ha Hl.
    + cbn. rewrite <- (assoc_L (++)), final_app. done.
    + by rewrite Hv3.
  - rewrite Hv1. unfold todo. rewrite Ha. cbn. set_solver.
Qed.

(** Work that is finished; it can be posted again before it is out of the queue. *)
Lemma step_thr_done thr l : c_advancer c = A_ThrRun → l2 = thr :: l →
  i_curr (ThrIter (c_device c)) = thr →
  advance_step again c = Ok (set_advancer (execute false thr false c) A_ThrRemove) →
  goes_on c lp l1 l2 b again.
Proof.
  intros Ha Hl2 Hcur Hrun. at_place Hinv Ha. destruct Ht as (Hr&Hp&thr'&l'&Hl2'&Hcur'&Hn). subst b. rewrite Hl2 in Hl2'. injection Hl2' as <- <-. subst l2.
  destruct (repr_links _ _ _ _ _ Hr) as [Hnull Hthr].
  assert (Hpe : thr ∈ c_pending c) by (apply (iv_pending _ _ _ _ _ Hinv); left; set_solver).
  assert (Hout : thr ∉ l1 ++ l).
  { pose proof (r_nodup _ _ _ Hr) as (_&Hd&[Hl' _]%NoDup_cons)%NoDup_app.
    intros [Hin|Hin]%elem_of_app; [|done]. apply (Hd thr Hin). by left. }
  eapply (goes_by _ _ _ _ _ _ _ lp l1 l [] [Executed false thr false]); [exact Hrun|..]; goes Ha.
  - eapply (inv_update c _ lp l1 (thr :: l) [] _ _ _ _ [Executed false thr false] [thr]); try done; sides Ha Hl.
    + cbn. split; [done|]. split; [done|]. exists thr. split; [done|]. split; [done|]. by rewrite insert_id.
  - unfold todo. rewrite Ha. cbn. set_solver.
Qed.

Lemma step_thr_run : c_advancer c = A_ThrRun → goes_on c lp l1 l2 b again.
Proof.
  intros Ha. at_place Hinv Ha. destruct Ht as (_&_&thr&l&Hl2&Hc&_).
  assert (Hrun : advance_step again c = Ok (
    if decide (c_status c thr = Ready)
    then set_advancer (execute false thr again c) (if again then A_ThrEnd else A_ThrRemove)
    else set_advancer (add_event c (Skipped false thr (c_status c thr))) A_ThrEnd)).
  { unfold advance_step. rewrite Ha. unfold iter_current. by rewrite Hc. }
  case_decide as Hst; [assert (again = true ∨ again = false) as [Hag|Hag] by (destruct again; auto)|].
  - apply (step_thr_stay (Executed false thr true) thr l); auto. by rewrite Hrun, Hag.
  - apply (step_thr_done thr l); auto. by rewrite Hrun, Hag.
  - eapply (step_thr_stay (Skipped false thr (c_status c thr)) thr l); eauto.
Qed.

Lemma step_thr_remove : c_advancer c = A_ThrRemove → goes_on c lp l1 l2 b again.
Proof.
  intros Ha. at_place Hinv Ha. destruct Ht as (Hp&Hn&thr&Hout&Hnull&Hr). subst b.
  destruct (safe_remove_spec _ _ _ _ _ Hr) as ([q s']&Hrem&Hrepr&Hsame). cbn [id fst snd] in *.
  assert (Hpt : final NULL l1 ≠ thr).
  { intros Heq. destruct l1 as [|x l]; [by cbn in Heq; subst|]. apply Hout. rewrite <- Heq.
    apply elem_of_app. left. by apply final_in. }
  assert (Hnt : first NULL l2 ≠ thr).
  { intros Heq. destruct l2 as [|x l]; [by cbn in Heq; subst|]. apply Hout. rewrite <- Heq. cbn. set_solver. }
  destruct (safe_remove_insert _ _ _ _ _ _ _ _ Hpt Hnt Hrem) as (s1&Hrem1&->).
  assert (Hs : ∀ x, x ∉ l1 ++ l2 → s1 !! x = c_elements c !! x).
  { intros x Hx. destruct (decide (x = thr)) as [->|Hne].
    - by apply (safe_remove_other _ _ _ _ _ _ _ Hrem1).
    - specialize (Hsame x Hx). by rewrite !lookup_insert_ne in Hsame. }
  assert (Hr1 : repr s1 q (l1 ++ l2)).
  { eapply repr_outside; [exact Hrepr|]. intros x Hx. rewrite lookup_insert_ne; [done|]. by intros ->. }
  assert (Hrun : advance_step again c = Ok (set_advancer (set_device c (set_threads (c_device c) q
      (mkIterator (final NULL l1) (final NULL l1) (first NULL l2))) s1) A_ThrEnd)).
  { unfold advance_step. rewrite Ha. unfold iter_remove. by rewrite Hp, Hn, Hrem1. }
  pose proof (iv_nodup _ _ _ _ _ Hinv) as Hnd. apply NoDup_app in Hnd as (_&Hdlp&_).
  eapply (goes_by _ _ _ _ _ _ _ lp l1 l2 [] []); [exact Hrun|..]; goes Ha.
  eapply (inv_links _ _ _ _ _ _ _ _ _ _ Hinv); [done|done|done| | | |done|exact Hl|by intros []|done|done];
    cbn [c_elements c_device c_advancer set_advancer set_device set_threads Posted].
  - intros x [e Hx]. destruct (decide (x ∈ l1 ++ l2)) as [Hin|Hin].
    + destruct Hr1 as [_ Hlk _ _ _]. by apply (dlseg_in _ _ _ _ _ Hlk Hin).
    + rewrite Hs by done. by eexists.
  - eapply repr_outside; [exact Hq|]. intros x Hx. apply Hs. specialize (Hdlp x Hx).
    rewrite !not_elem_of_app in Hdlp. apply not_elem_of_app. tauto.
  - by cbn.
Qed.

Lemma step_thr_end : c_advancer c = A_ThrEnd → goes_on c lp l1 l2 b again.
Proof.
  intros Ha. at_place Hinv Ha. destruct Ht as (Hr&Hc&Hn). subst b.
  assert (Hrun : advance_step again c = Ok (set_advancer (set_device c (set_threads (c_device c)
    (Threads (c_device c)) (iter_end (ThrIter (c_device c)))) (c_elements c)) A_ThrCheck)).
  { unfold advance_step. by rewrite Ha. }
  eapply (goes_by _ _ _ _ _ _ _ lp l1 l2 [] []); [exact Hrun|..]; goes Ha.
  eapply inv_still; [exact Hinv|..]; sides Ha Hl.
Qed.

(** ** Taking the posted work *)

Lemma step_pst_look : c_advancer c = A_PstLook → goes_on c lp l1 l2 b again.
Proof.
  intros Ha. at_place Hinv Ha. destruct Ht as (Hr&Hl2). subst b l2.
  assert (Hrun : advance_step again c = Ok (if q_head (mq_list (Posted (c_device c))) =? NULL
    then set_advancer (set_device c (set_pstiter (c_device c) (posting_begin NULL (PstIter (c_device c))).1)
      (c_elements c)) A_PstCheck
    else set_advancer c A_PstAcquire)).
  { unfold advance_step. by rewrite Ha. }
  destruct (Z.eqb_spec (q_head (mq_list (Posted (c_device c)))) NULL) as [Hh|Hh]; rewrite (r_head _ _ _ Hq) in Hh.
  - destruct Hq as [Hq1 Hq2 Hq3 Hq4 Hq5]. apply (first_null _ _ _ Hq2) in Hh as ->.
    eapply (goes_by _ _ _ _ _ _ _ [] l1 [] [] []); [exact Hrun|..]; goes Ha.
    + eapply inv_still; [exact Hinv|..]; sides Ha Hl. cbn. split; [done|by exists NULL].
    + pose proof (psum_le weight_after weight_before (c_posters c) ltac:(by intros [])).
      unfold steps_left. rewrite Ha. cbn. unfold len. cbn. lia.
  - eapply (goes_by _ _ _ _ _ _ _ lp l1 [] [] []); [exact Hrun|..]; goes Ha.
    eapply inv_still; [exact Hinv|..]; sides Ha Hl. intros _ ->. done.
Qed.

Lemma step_pst_acquire : c_advancer c = A_PstAcquire → goes_on c lp l1 l2 b again.
Proof.
  intros Ha. at_place Hinv Ha. destruct Ht as (Hr&Hl2). subst b l2.
  destruct (lock_take _ _ Hl) as [(m&Hturn&Hl')|Hturn].
  - assert (Hrun : advance_step again c = Ok (set_advancer (set_device c (set_posted (c_device c)
      (with_mutex (Posted (c_device c)) m)) (c_elements c)) A_PstTake)).
    { unfold advance_step. by rewrite Ha, Hturn. }
    eapply (goes_by _ _ _ _ _ _ _ lp l1 [] [] []); [exact Hrun|..]; goes Ha.
    eapply inv_still; [exact Hinv|..]; sides Ha Hl'. intros _. apply (iv_take _ _ _ _ _ Hinv). by right.
  - exists c. split; [|split; [done|by left]]. unfold advance_step. rewrite Ha, Hturn.
    destruct c as [[[] ? ? ?] ? ? ? ? ? ?]. cbn in *. by subst.
Qed.

Lemma step_pst_take : c_advancer c = A_PstTake → goes_on c lp l1 l2 b again.
Proof.
  intros Ha. at_place Hinv Ha. destruct Ht as (Hr&Hl2). subst b l2.
  assert (Hrun : advance_step again c = Ok (set_advancer (set_device c (set_posted (c_device c)
    (with_list (Posted (c_device c)) (mkQueue NULL NULL 0))) (c_elements c))
    (A_PstRelease (q_head (mq_list (Posted (c_device c))))))).
  { unfold advance_step. by rewrite Ha. }
  pose proof (psum_le weight_after weight_before (c_posters c) ltac:(by intros [])).
  eapply (goes_by _ _ _ _ _ _ _ [] l1 [] lp []); [exact Hrun|..]; goes Ha.
  - eapply inv_still; [exact Hinv|..]; sides Ha Hl.
    + apply repr_new.
    + cbn. split; [apply (r_head _ _ _ Hq)|]. exists NULL. apply (r_links _ _ _ Hq).
Qed.

Lemma step_pst_release h : c_advancer c = A_PstRelease h → goes_on c lp l1 l2 b again.
Proof.
  intros Ha. at_place Hinv Ha. destruct Ht as (Hr&Hl2), Hb as (->&Hd). subst l2.
  assert (Hrun : ∃ g, advance_step again c = Ok (set_advancer (set_device c g (c_elements c)) A_PstCheck) ∧
    mq_list (Posted g) = mq_list (Posted (c_device c)) ∧ Threads g = Threads (c_device c) ∧
    pi_curr (PstIter g) = first NULL b ∧ mq_mutex (Posted g) = release (mq_mutex (Posted (c_device c)))).
  { unfold advance_step. rewrite Ha. by eexists. }
  destruct Hrun as (g&Hrun&Hg1&Hg2&Hg3&Hg4).
  eapply (goes_by _ _ _ _ _ _ _ lp l1 [] b []); [exact Hrun|..]; goes Ha.
  eapply inv_still; [exact Hinv|..]; sides Ha Hl; cbn.
  - by rewrite Hg1.
  - by rewrite Hg2.
  - rewrite Hg4. apply (lock_drop _ _ _ _ Hl); [exact I|by intros []].
Qed.

(** ** The loop over it *)

Lemma step_pst_check : c_advancer c = A_PstCheck → goes_on c lp l1 l2 b again.
Proof.
  intros Ha. at_place Hinv Ha. destruct Ht as (Hr&Hl2), Hb as (Hc&p&Hd). subst l2.
  assert (Hrun : ∃ it, advance_step again c = Ok (set_advancer (set_device c
      (set_pstiter (c_device c) it) (c_elements c)) (match b with [] => A_Out | _ => A_PstRun end)) ∧
    match b with [] => True | thr :: l => pi_curr it = thr ∧ pi_next it = first NULL l end).
  { unfold advance_step. rewrite Ha. unfold posting_check. rewrite Hc. destruct b as [|thr l]; cbn [first].
    - eexists. split; [reflexivity|]. done.
    - destruct Hd as (Hn&Hs&_). rewrite (proj2 (Z.eqb_neq thr NULL)) by done.
      unfold next. rewrite (deref_Ok _ _ _ Hn Hs). eexists. split; [reflexivity|]. done. }
  destruct Hrun as (it&Hrun&Hit). destruct b as [|thr l].
  - eapply (goes_by _ _ _ _ _ _ _ lp l1 [] [] []); [exact Hrun|..]; goes Ha.
    + eapply inv_still; [exact Hinv|..]; sides Ha Hl.
  - eapply (goes_by _ _ _ _ _ _ _ lp l1 [] (thr :: l) []); [exact Hrun|..]; goes Ha.
    eapply inv_still; [exact Hinv|..]; sides Ha Hl.
    exists thr, l. destruct Hit. split; [done|]. split; [done|]. split; [done|]. by exists p.
Qed.

(** New work that goes to the private queue. *)
Lemma step_pst_keep ev thr l : c_advancer c = A_PstRun → b = thr :: l →
  ev = Executed true thr true ∨ (∃ st, st ≠ Complete ∧ ev = Skipped true thr st) →
  advance_step again c = Ok (set_advancer (add_event (set_device c
    (set_pstiter (c_device c) (PstIter (c_device c))) (c_elements c)) ev) A_PstEnqueue) →
  goes_on c lp l1 l2 b again.
Proof.
  intros Ha Hbl Hev Hrun. at_place Hinv Ha. destruct Ht as (Hr&Hl2), Hb as (thr'&l'&Hb'&Hc&Hn&p&Hd).
  rewrite Hbl in Hb'. injection Hb' as <- <-. subst l2 b.
  assert (Hpe : thr ∈ c_pending c) by (apply (iv_pending _ _ _ _ _ Hinv); left; set_solver).
  assert (Hvis : visited [ev] = [thr] ∧ enqueued [ev] = [] ∧ begun [ev] = [thr] ∧
    orderly (c_pending c) [ev] ∧ pending_after (c_pending c) ev = c_pending c).
  { destruct Hev as [->|(st&Hst&->)]; [done|]. do 4 (split; [done|]). cbn. by rewrite decide_False by naive_solver. }
  destruct Hvis as (Hv1&Hv2&Hv3&Hv4&Hv5), Hd as (_&_&Hd).
  eapply (goes_by _ _ _ _ _ _ _ lp l1 [thr] l [ev]); [exact Hrun|..]; goes Ha.
  - eapply (inv_update c _ lp l1 [] (thr :: l) _ _ _ _ [ev] []); sides Ha Hl.
    + cbn. by rewrite Hc.
    + cbn. split; [done|]. by exists thr.
    + by rewrite Hv3.
  - rewrite Hv1. unfold todo. rewrite Ha. cbn. set_solver.
Qed.

(** New work that is finished. *)
Lemma step_pst_done ev thr l : c_advancer c = A_PstRun → b = thr :: l →
  ev = Executed true thr false ∨ ev = Skipped true thr Complete →
  advance_step again c = Ok (set_advancer (set_pending (add_event (set_device c
    (set_pstiter (c_device c) (PstIter (c_device c))) (c_elements c)) ev) (c_pending c ∖ {[thr]})) A_PstEnd) →
  goes_on c lp l1 l2 b again.
Proof.
  intros Ha Hbl Hev Hrun. at_place Hinv Ha. destruct Ht as (Hr&Hl2), Hb as (thr'&l'&Hb'&Hc&Hn&p&Hd).
  rewrite Hbl in Hb'. injection Hb' as <- <-. subst l2 b.
  assert (Hpe : thr ∈ c_pending c) by (apply (iv_pending _ _ _ _ _ Hinv); left; set_solver).
  assert (Hvis : visited [ev] = [thr] ∧ enqueued [ev] = [] ∧ begun [ev] = [thr] ∧
    orderly (c_pending c) [ev] ∧ pending_after (c_pending c) ev = c_pending c ∖ {[thr]})
    by (by destruct Hev as [->| ->]).
  destruct Hvis as (Hv1&Hv2&Hv3&Hv4&Hv5), Hd as (_&_&Hd).
  eapply (goes_by _ _ _ _ _ _ _ lp l1 [] l [ev]); [exact Hrun|..]; goes Ha.
  - eapply (inv_update c _ lp l1 [] (thr :: l) _ _ _ _ [ev] [thr]); sides Ha Hl.
    + cbn. split; [done|]. by exists thr.
    + by rewrite Hv3.
  - rewrite Hv1. unfold todo. rewrite Ha. cbn. set_solver.
Qed.

Lemma step_pst_run : c_advancer c = A_PstRun → goes_on c lp l1 l2 b again.
Proof.
  intros Ha. at_place Hinv Ha. destruct Hb as (thr&l&Hb&Hc&_).
  assert (Hrun : advance_step again c =
    let c1 := set_device c (set_pstiter (c_device c) (PstIter (c_device c))) (c_elements c) in
    let st := c_status c thr in
    Ok (if decide (st = Ready)
        then set_advancer (execute true thr again c1) (if again then A_PstEnqueue else A_PstEnd)
        else if decide (st = Complete)
        then set_advancer (set_pending (add_event c1 (Skipped true thr st)) (c_pending c ∖ {[thr]})) A_PstEnd
        else set_advancer (add_event c1 (Skipped true thr st)) A_PstEnqueue)).
  { unfold advance_step. rewrite Ha. unfold posting_remove, posting_current. by rewrite Hc. }
  cbv zeta in Hrun. destruct (decide (c_status c thr = Ready)) as [Hst|Hst].
  - assert (again = true ∨ again = false) as [Hag|Hag] by (destruct again; auto).
    + apply (step_pst_keep (Executed true thr true) thr l); auto. by rewrite Hrun, Hag.
    + apply (step_pst_done (Executed true thr false) thr l); auto. by rewrite Hrun, Hag.
  - case_decide as Hco.
    + eapply (step_pst_done (Skipped true thr (c_status c thr)) thr l); auto. right. by rewrite Hco.
    + eapply (step_pst_keep (Skipped true thr (c_status c thr)) thr l); eauto.
Qed.

Lemma step_pst_enqueue : c_advancer c = A_PstEnqueue → goes_on c lp l1 l2 b again.
Proof.
  intros Ha. at_place Hinv Ha. destruct Ht as (Hr&Hl2), Hb as (Hn&p&Hd).
  set (thr := pi_curr (PstIter (c_device c))) in *. subst l2.
  pose proof (iv_nodup _ _ _ _ _ Hinv) as (_&Hdlp&(_&Hdl1&[Htb _]%NoDup_cons)%NoDup_app)%NoDup_app.
  assert (Hpe : thr ∈ c_pending c) by (apply (iv_pending _ _ _ _ _ Hinv); left; set_solver).
  destruct (iv_alloc _ _ _ _ _ Hinv thr Hpe) as [Hnull Hsome].
  assert (Hfresh : fresh (c_elements c) l1 thr).
  { split; [done|]. split; [done|]. intros Hin. apply (Hdl1 thr Hin). by left. }
  destruct (enqueue_spec _ _ l1 thr Hr Hfresh) as ([q s']&Henq&Hrepr&Hsame). cbn [id fst snd] in *.
  assert (Hrun : advance_step again c = Ok (set_advancer (set_device c (set_threads (c_device c) q
      (ThrIter (c_device c))) s') A_PstEnd)).
  { unfold advance_step. rewrite Ha. unfold posting_current. fold thr. by rewrite Henq. }
  assert (Hs : ∀ x, x ∈ lp ∨ x ∈ b → s' !! x = c_elements c !! x).
  { intros x Hx. apply Hsame. intros [Hin| ->%list_elem_of_singleton]%elem_of_app.
    - destruct Hx as [Hx|Hx]; [apply (Hdlp x Hx)|apply (Hdl1 x Hin)]; set_solver.
    - destruct Hx as [Hx|Hx]; [apply (Hdlp thr Hx); set_solver|done]. }
  eapply (goes_by _ _ _ _ _ _ _ lp (l1 ++ [thr]) [] b []); [exact Hrun|..]; goes Ha.
  eapply (inv_links _ _ _ _ _ _ _ _ _ _ Hinv); [done|done|done| | | | | |by intros []| |done];
    cbn [c_elements c_device c_advancer set_advancer set_device set_threads Posted mq_mutex].
  - intros x [e Hx]. destruct (decide (x ∈ l1 ++ [thr])) as [Hin|Hin].
    + destruct Hrepr as [_ Hlk _ _ _]. by apply (dlseg_in _ _ _ _ _ Hlk Hin).
    + rewrite Hsame by done. by eexists.
  - eapply repr_outside; [exact Hq|]. auto.
  - by split.
  - split; [done|]. exists p. eapply dlseg_frame; [|exact Hd]. auto.
  - by eapply lock_move.
  - by rewrite <- !(assoc_L (++)).
Qed.

Lemma step_pst_end : c_advancer c = A_PstEnd → goes_on c lp l1 l2 b again.
Proof.
  intros Ha. at_place Hinv Ha. destruct Ht as (Hr&Hl2), Hb as (Hn&p&Hd). subst l2.
  assert (Hrun : advance_step again c = Ok (set_advancer (set_device c (set_pstiter (c_device c)
    (posting_end (PstIter (c_device c)))) (c_elements c)) A_PstCheck)).
  { unfold advance_step. by rewrite Ha. }
  eapply (goes_by _ _ _ _ _ _ _ lp l1 [] b []); [exact Hrun|..]; goes Ha.
  eapply inv_still; [exact Hinv|..]; sides Ha Hl. cbn. split; [done|]. by exists p.
Qed.

Lemma advance_goes_on : c_advancer c ≠ A_Out → goes_on c lp l1 l2 b again.
Proof.
  destruct (c_advancer c) eqn:Ha; intros Hout; [done|..].
  - by apply step_thr_check.
  - by apply step_thr_run.
  - by apply step_thr_remove.
  - by apply step_thr_end.
  - by apply step_pst_look.
  - by apply step_pst_acquire.
  - by apply step_pst_take.
  - by eapply step_pst_release.
  - by apply step_pst_check.
  - by apply step_pst_run.
  - by apply step_pst_enqueue.
  - by apply step_pst_end.
Qed.

(** The call: the advance has all the work of both queues to come to. *)
Lemma advance_called : c_advancer c = A_Out → ∃ c', advance_step again c = Ok c' ∧
  c_advancer c' = A_ThrCheck ∧ c_log c' = c_log c ∧ inv c' lp [] l1 [] ∧ l2 = [] ∧ b = [].
Proof.
  intros Ha. at_place Hinv Ha. destruct Ht as (Hr&Hl2).
  eexists. split; [unfold advance_step; rewrite Ha; reflexivity|]. split; [done|]. split; [done|].
  split; [|done]. eapply inv_still; [exact Hinv|..]; sides Ha Hl; cbn.
  - split; [done|]. split; [done|]. unfold peek. apply (r_head _ _ _ Hr).
  - by rewrite Hb, Hl2, !app_nil_r.
  - by rewrite Hb.
Qed.
End steps.

(** ** All steps *)

Lemma post_goes_on c lp l1 l2 b i p : inv c lp l1 l2 b → c_posters c !! i = Some p →
  ∃ c', post_step i p c = Ok c' ∧ c_advancer c' = c_advancer c ∧
    (c' = c ∧ ¬ poster_inside p ∨
      ∃ lp' evs, inv c' lp' l1 l2 b ∧ steps_left c' lp' l2 b < steps_left c lp l2 b ∧
        c_log c' = c_log c ++ evs ∧ lp `prefix_of` lp').
Proof.
  intros Hinv Hi. destruct p as [thr|thr|].
  - destruct (acquire_step _ _ _ _ _ _ _ Hinv Hi) as (c'&Hrun&Ha&Hlog&[->|[Hi' Hs]]);
      eexists; (split; [exact Hrun|]); (split; [exact Ha|]); [left; naive_solver|].
    right. exists lp, []. by rewrite app_nil_r.
  - destruct (enqueue_step _ _ _ _ _ _ _ Hinv Hi) as (c'&Hrun&Ha&Hlog&Hi'&Hs).
    eexists; (split; [exact Hrun|]); (split; [exact Ha|]). right.
    exists (lp ++ [thr]), [Enqueued thr]. split; [done|]. split; [done|]. split; [done|]. by exists [thr].
  - destruct (release_step _ _ _ _ _ _ Hinv Hi) as (c'&Hrun&Ha&Hlog&Hi'&Hs).
    eexists; (split; [exact Hrun|]); (split; [exact Ha|]). right. exists lp, []. by rewrite app_nil_r.
Qed.

(** A client posts work. *)
Lemma posted_inv c lp l1 l2 b i thr : inv c lp l1 l2 b → c_posters c !! i = None → thr ≠ NULL →
  is_Some (c_elements c !! thr) → thr ∉ c_pending c →
  inv (set_poster (set_pending (add_event c (Post thr)) (c_pending c ∪ {[thr]})) i
    (Some (P_Acquire thr))) lp l1 l2 b.
Proof.
  intros Hinv Hi Hnull Hsome Hpend.
  assert (Hnot : thr ∉ lp ++ l1 ++ l2 ++ b ∧ ∀ j, ¬ held_by (c_posters c) j thr).
  { rewrite (iv_pending _ _ _ _ _ Hinv) in Hpend. naive_solver. }
  assert (Hheld : ∀ j x, held_by (<[i := P_Acquire thr]> (c_posters c)) j x ↔
    j = i ∧ x = thr ∨ held_by (c_posters c) j x).
  { intros j x. rewrite held_insert. unfold held_by. cbn. split; [naive_solver|].
    intros [[-> ->]|(p&Hp&Hx)]; [auto|]. right. split; [|eauto]. intros ->. by rewrite Hi in Hp. }
  split; try apply Hinv; cbn [set_poster set_pending add_event c_device c_elements c_posters c_advancer
    c_pending c_log].
  - destruct (iv_lock _ _ _ _ _ Hinv) as (who&Hm&Hin&Hwho&Ha). exists who. split; [done|]. split; [|split; [|done]].
    + intros j p [[-> <-]|[Hne Hj]]%lookup_insert_Some; [|by apply Hin]. cbn. split; [done|].
      intros [p Hp]%Hwho. by rewrite Hi in Hp.
    + intros j Hj%Hwho. destruct (decide (i = j)) as [->|]; [by rewrite lookup_partial_alter_eq|].
      by rewrite lookup_partial_alter_ne.
  - intros x [Hx| ->%elem_of_singleton]%elem_of_union; [by apply (iv_alloc _ _ _ _ _ Hinv)|done].
  - intros x. change (partial_alter _ i (c_posters c)) with (<[i := P_Acquire thr]> (c_posters c)).
    setoid_rewrite Hheld. rewrite elem_of_union, elem_of_singleton, (iv_pending _ _ _ _ _ Hinv).
    split; [|naive_solver]. intros [[?|[j ?]]| ->]; eauto.
  - intros j x. change (partial_alter _ i (c_posters c)) with (<[i := P_Acquire thr]> (c_posters c)).
    setoid_rewrite Hheld. intros [[-> ->]|Hj].
    + split; [apply Hnot|]. intros k [[-> _]|Hk]; [done|]. by apply Hnot in Hk.
    + destruct (iv_hand _ _ _ _ _ Hinv j x Hj) as [Hx Hu]. split; [done|]. intros k [[-> ->]|Hk]; [|by apply Hu].
      by apply Hnot in Hj.
  - apply orderly_app. split; [apply Hinv|]. by rewrite (iv_log _ _ _ _ _ Hinv).
  - rewrite foldl_app. cbn. by rewrite (iv_log _ _ _ _ _ Hinv).
  - rewrite enqueued_app, begun_app. cbn. rewrite !app_nil_r. apply Hinv.
Qed.

(** A step that progresses, and what it leaves an advance under way to do. *)
Lemma progress_goes_on c c' lp l1 l2 b : inv c lp l1 l2 b → progress c c' →
  ∃ lp' l1' l2' b' evs, inv c' lp' l1' l2' b' ∧ c_log c' = c_log c ++ evs ∧
    steps_left c' lp' l2' b' < steps_left c lp l2 b ∧
    (c_advancer c ≠ A_Out → ∀ w, w ∈ todo c lp l2 b → w ∈ todo c' lp' l2' b' ∨ w ∈ visited evs).
Proof.
  intros Hinv. destruct 1 as [c c' i p Hi Hrun Hne|c c' again Ha Hrun Hne].
  - destruct (post_goes_on _ _ _ _ _ _ _ Hinv Hi) as (c''&Hrun'&Had&[[? _]|Hgo]); [congruence|]; assert (c'' = c') as -> by congruence.
    destruct Hgo as (lp'&evs&Hinv'&Hs&Hlog&[l ->]). exists (lp ++ l), l1, l2, b, evs. split; [done|].
    split; [done|]. split; [done|]. intros _ w Hw. left. unfold todo in *. rewrite Had.
    destruct (c_advancer c); rewrite ?elem_of_app in *; tauto.
  - destruct (advance_goes_on _ _ _ _ _ again Hinv Ha) as (c''&Hrun'&_&[[? _]|[_ Hgo]]); [congruence|]; assert (c'' = c') as -> by congruence.
    destruct Hgo as (lp'&l1'&l2'&b'&evs&Hinv'&Hs&Hlog&Htodo). exists lp', l1', l2', b', evs. auto.
Qed.

(** Any step. *)
Lemma step_goes_on c c' lp l1 l2 b : inv c lp l1 l2 b → step c c' →
  ∃ lp' l1' l2' b' evs, inv c' lp' l1' l2' b' ∧ c_log c' = c_log c ++ evs ∧
    (c_advancer c ≠ A_Out → ∀ w, w ∈ todo c lp l2 b → w ∈ todo c' lp' l2' b' ∨ w ∈ visited evs).
Proof.
  intros Hinv. destruct 1 as [c c' Hp|c i thr Hi Hn Hs Hp|c c' Ha Hrun|c thr st].
  - destruct (progress_goes_on _ _ _ _ _ _ Hinv Hp) as (lp'&l1'&l2'&b'&evs&Hi&Hl&_&Ht).
    exists lp', l1', l2', b', evs. auto.
  - exists lp, l1, l2, b, [Post thr]. split; [by apply posted_inv|]. auto.
  - destruct (advance_called _ _ _ _ _ false Hinv Ha) as (c''&Hrun'&_&Hlog&Hinv'&_).
    assert (c'' = c') as -> by congruence.
    exists lp, [], l1, [], []. by rewrite app_nil_r, Ha.
  - exists lp, l1, l2, b, []. rewrite app_nil_r. split; [|auto]. by destruct Hinv.
Qed.

Lemma steps_inv c c' : rtc step c c' → (∃ lp l1 l2 b, inv c lp l1 l2 b) →
  ∃ evs, c_log c' = c_log c ++ evs ∧ ∃ lp l1 l2 b, inv c' lp l1 l2 b.
Proof.
  induction 1 as [c|c c1 c2 Hs _ IH]; [by exists []; rewrite app_nil_r|]. intros (lp&l1&l2&b&Hinv).
  destruct (step_goes_on _ _ _ _ _ _ Hinv Hs) as (lp'&l1'&l2'&b'&evs&Hi&Hlog&_).
  destruct IH as (evs'&Hlog'&Hinv'); [by exists lp', l1', l2', b'|]. exists (evs ++ evs').
  by rewrite Hlog', Hlog, (assoc_L (++)).
Qed.

Lemma inv_never_fails c lp l1 l2 b : inv c lp l1 l2 b → ¬ fails c.
Proof.
  intros Hinv [(i&p&e&Hi&Hrun)|(again&e&Hrun)].
  - destruct (post_goes_on _ _ _ _ _ _ _ Hinv Hi) as (c'&Hrun'&_). congruence.
  - destruct (decide (c_advancer c = A_Out)) as [Ha|Ha].
    + destruct (advance_called _ _ _ _ _ again Hinv Ha) as (c'&Hrun'&_). congruence.
    + destruct (advance_goes_on _ _ _ _ _ again Hinv Ha) as (c'&Hrun'&_). congruence.
Qed.

(** Progress comes to an end, and only where nobody is under way. *)
Lemma progress_ends c lp l1 l2 b : inv c lp l1 l2 b → sn progress c.
Proof.
  remember (steps_left c lp l2 b) as n eqn:Hn. assert (H0n : 0 ≤ n) by (subst; apply steps_left_nonneg).
  revert c lp l1 l2 b Hn. induction n as [n IH] using (well_founded_induction (Z.lt_wf 0)).
  intros c lp l1 l2 b Hn Hinv. constructor. intros c' Hp.
  destruct (progress_goes_on _ _ _ _ _ _ Hinv Hp) as (lp'&l1'&l2'&b'&evs&Hi&_&Hs&_).
  pose proof (steps_left_nonneg c' lp' l2' b'). eapply IH; [|done|done|exact Hi]. lia.
Qed.

Lemma inside_goes_on c lp l1 l2 b i p : inv c lp l1 l2 b → c_posters c !! i = Some p →
  poster_inside p → ∃ c', progress c c'.
Proof.
  intros Hinv Hi Hin. destruct (post_goes_on _ _ _ _ _ _ _ Hinv Hi) as (c'&Hrun&_&[[_ Hout]|Hgo]); [done|].
  exists c'. eapply progress_post; [done..|]. intros ->. destruct Hgo as (lp'&evs&_&Hs&Hlog&_).
  assert (post_step i p c ≠ Ok c) as Hne; [|done].
  destruct p; [done|..]; cbn; intros Heq.
  - apply bind_Ok in Heq as ([q s]&_&Heq). injection Heq as Heq. apply (f_equal c_log) in Heq. cbn in Heq.
    apply (f_equal length) in Heq. rewrite length_app in Heq. cbn in Heq. lia.
  - injection Heq as Heq. apply (f_equal (λ c, c_posters c !! i)) in Heq. cbn in Heq.
    by rewrite lookup_partial_alter_eq, Hi in Heq.
Qed.

Lemma under_way_goes_on c lp l1 l2 b : inv c lp l1 l2 b →
  c_advancer c ≠ A_Out ∨ c_posters c ≠ ∅ → ∃ c', progress c c'.
Proof.
  intros Hinv Hway. destruct (iv_lock _ _ _ _ _ Hinv) as (who&Hm&Hin&Hwho&Ha).
  destruct who as [[i|]|].
  - destruct (Hwho i eq_refl) as [p Hp]. eapply inside_goes_on; [done..|]. by apply (Hin i p).
  - assert (Hins : advancer_inside (c_advancer c)) by tauto.
    destruct (advance_goes_on _ _ _ _ _ false Hinv) as (c'&Hrun&_&[[_ Hacq]|[Hne _]]).
    + by intros Hout; rewrite Hout in Hins.
    + by rewrite Hacq in Hins.
    + exists c'. eapply progress_advance; [by intros Hout; rewrite Hout in Hins|done|]. by intros ->.
  - destruct (decide (c_advancer c = A_Out)) as [Hout|Hout].
    + destruct Hway as [|Hpo]; [done|]. destruct (map_choose _ Hpo) as (i&p&Hi).
      destruct p as [thr|thr|]; [|by discriminate (proj1 (Hin _ _ Hi) I)..].
      destruct (turn_free _ Hm) as (m'&Hturn&_). eexists. eapply progress_post; [exact Hi|cbn; by rewrite Hturn|].
      intros Heq. apply (f_equal (λ c, c_posters c !! i)) in Heq. cbn in Heq.
      by rewrite lookup_partial_alter_eq, Hi in Heq.
    + destruct (advance_goes_on _ _ _ _ _ false Hinv Hout) as (c'&Hrun&_&[[-> Hacq]|[Hne _]]).
      * destruct (turn_free _ Hm) as (m'&Hturn&_). unfold advance_step in Hrun. rewrite Hacq, Hturn in Hrun.
        injection Hrun as Hrun. apply (f_equal c_advancer) in Hrun. cbn in Hrun. congruence.
      * exists c'. eapply progress_advance; [done..|]. by intros ->.
Qed.

(** While an advance is under way. *)
Definition under_way c c' : Prop := c_advancer c ≠ A_Out ∧ step c c'.

Lemma under_way_visits c c' : rtc under_way c c' → c_advancer c' = A_Out → ∀ lp l1 l2 b, inv c lp l1 l2 b →
  ∃ evs, c_log c' = c_log c ++ evs ∧ ∀ w, w ∈ todo c lp l2 b → w ∈ visited evs.
Proof.
  induction 1 as [c|c c1 c2 [Hway Hs] Hrun IH]; intros Hout lp l1 l2 b Hinv.
  - exists []. rewrite app_nil_r. split; [done|]. unfold todo. by rewrite Hout.
  - destruct (step_goes_on _ _ _ _ _ _ Hinv Hs) as (lp'&l1'&l2'&b'&evs&Hi&Hlog&Htodo).
    destruct (IH Hout _ _ _ _ Hi) as (evs'&Hlog'&Hvis). exists (evs ++ evs').
    rewrite Hlog', Hlog, (assoc_L (++)), visited_app. split; [done|]. intros w Hw. apply elem_of_app.
    destruct (Htodo Hway w Hw) as [Hlate|]; [right; by apply Hvis|by left].
Qed.
End device.
