(* ===== verification/GenericDeviceProps.v ===== *)
(** What the generic device promises to the code that posts work to a context and the code
    that advances it. *)
From stdpp Require Import functions relations.
From S2P Require Import Prelude.
From S2P Require Import Queue.
From S2P Require Import QueueSpec.
From S2P Require Import Atomics.
From S2P Require Import MutexedQueue.
From S2P Require Import GenericDevice.
From S2P Require Import GenericDeviceSpec.

#[export] Instance poster_eq_dec : EqDecision poster.
Proof. solve_decision. Defined.

(** A device that was just initialised; its mutex is free. *)
Definition device_start {T_Mutex} `{MutexLaws T_Mutex} (c : context T_Mutex) : Prop :=
  ∃ m, mutex_free m ∧ c_device c = device_init m ∧ c_posters c = ∅ ∧ c_advancer c = A_Out ∧
    c_pending c = ∅ ∧ c_log c = [].

Section props.
Context {T_Mutex : Type} `{MutexLaws T_Mutex}.
Implicit Types (c : context T_Mutex).

Lemma start_inv c : device_start c → ∃ lp l1 l2 b, inv c lp l1 l2 b.
Proof.
  intros (m&Hm&Hd&Hp&Ha&Hpe&Hl). exists [], [], [], [].
  split; rewrite ?Hd, ?Hp, ?Ha, ?Hpe, ?Hl; cbn; try done.
  - apply repr_new.
  - split; [apply repr_new|done].
  - exists None. split; [done|]. split; [intros i p; by rewrite lookup_empty|]. done.
  - intros [H'|H']; discriminate H'.
  - by apply NoDup_nil.
  - intros x. split; [set_solver|]. intros [Hx|[i (p&Hi&_)]]; [by apply not_elem_of_nil in Hx|].
    by rewrite lookup_empty in Hi.
  - intros i x (p&Hi&_). by rewrite lookup_empty in Hi.
Qed.

(** C22. Whatever the threads do, no step of a post or of [advance] follows a null or a stray
    link; work is executed, or looked at, only between its post and the moment it is done;
    and [advance] comes to new work in the order in which it was enqueued. *)
Theorem work_safe c0 c : device_start c0 → rtc step c0 c →
  ¬ fails c ∧ orderly ∅ (c_log c) ∧ begun (c_log c) `prefix_of` enqueued (c_log c).
Proof.
  intros Hstart Hrun. destruct (steps_inv _ _ Hrun (start_inv _ Hstart)) as (_&_&lp&l1&l2&b&Hinv).
  split; [by eapply inv_never_fails|]. split; [apply Hinv|].
  rewrite (iv_order _ _ _ _ _ Hinv). by apply prefix_app_r.
Qed.

(** C23. An [advance] that was called comes to an end, and so do the posts under way: nobody
    is ever stuck, and there is no way to go on for ever.  Whatever the other threads do
    meanwhile, it has by its end come to all the work that was posted when it was called. *)
Theorem advance_completes c0 c c1 : device_start c0 → rtc step c0 c →
  c_advancer c = A_Out → advance_step false c = Ok c1 →
  sn progress c1 ∧
  (∀ c2, rtc progress c1 c2 → nf progress c2 → c_advancer c2 = A_Out ∧ c_posters c2 = ∅) ∧
  (∀ c2, rtc under_way c1 c2 → c_advancer c2 = A_Out →
    ∃ evs, c_log c2 = c_log c ++ evs ∧
      ∀ thr, thr ∈ c_pending c → (∀ i, ¬ held_by (c_posters c) i thr) → thr ∈ visited evs).
Proof.
  intros Hstart Hrun Hout Hcall.
  destruct (steps_inv _ _ Hrun (start_inv _ Hstart)) as (_&_&lp&l1&l2&b&Hinv).
  destruct (advance_called _ _ _ _ _ false Hinv Hout) as (c1'&Hcall'&Ha&Hlog&Hinv1&->&->).
  assert (c1' = c1) as -> by congruence.
  split; [by eapply progress_ends|]. split.
  - intros c2 Hprog Hnf.
    destruct (steps_inv c1 c2) as (_&_&lp'&l1'&l2'&b'&Hinv2); [|by eexists _, _, _, _|].
    { eapply rtc_subrel; [|exact Hprog]. apply step_progress. }
    destruct (decide (c_advancer c2 = A_Out)); [destruct (decide (c_posters c2 = ∅)); [done|]|];
      destruct Hnf; eapply (under_way_goes_on _ _ _ _ _ Hinv2); auto.
  - intros c2 Hway Hend. destruct (under_way_visits _ _ Hway Hend _ _ _ _ Hinv1) as (evs&Hl&Hvis).
    exists evs. rewrite Hl, Hlog. split; [done|]. intros thr Hthr Hno. apply Hvis. unfold todo. rewrite Ha.
    apply (iv_pending _ _ _ _ _ Hinv) in Hthr as [Hin|[i Hi]]; [|by apply Hno in Hi].
    rewrite !elem_of_app in *. pose proof (not_elem_of_nil thr). tauto.
Qed.
End props.

(** * A run *)

(** What may be next: a step of a posting thread or of the advance, a post, a call. *)
Inductive action := Go (i : Z) | Adv (again : bool) | PostWork (i thr : Z) | Call.

Section run.
Context {T_Mutex : Type} `{Mutex T_Mutex}.
Implicit Types (c : context T_Mutex).

Definition act (a : action) c : option (context T_Mutex) :=
  match a with
  | Go i =>
      p ← c_posters c !! i;
      match post_step i p c with
      | Ok c' => if decide (c_posters c' !! i = Some p) then None else Some c'
      | Err _ => None
      end
  | Adv again =>
      if decide (c_advancer c = A_Out) then None else
      match advance_step again c with
      | Ok c' => if decide (c_advancer c' = c_advancer c) then None else Some c'
      | Err _ => None
      end
  | PostWork i thr =>
      if decide (c_posters c !! i = None ∧ thr ≠ NULL ∧ is_Some (c_elements c !! thr) ∧ thr ∉ c_pending c)
      then Some (set_poster (set_pending (add_event c (Post thr)) (c_pending c ∪ {[thr]})) i
                  (Some (P_Acquire thr)))
      else None
  | Call =>
      if decide (c_advancer c = A_Out) then
        match advance_step false c with Ok c' => Some c' | Err _ => None end
      else None
  end.

Definition acts (l : list action) c : option (context T_Mutex) :=
  foldl (λ o a, o ≫= act a) (Some c) l.

Lemma act_step a c c' : act a c = Some c' → step c c'.
Proof.
  destruct a as [i|again|i thr|]; cbn; intros Hact.
  - apply bind_Some in Hact as (p&Hi&Hact). destruct (post_step i p c) as [c1|e] eqn:Hrun; [|done].
    case_decide as Hsame; [done|]. injection Hact as ->. apply step_progress. eapply progress_post; [done..|].
    by intros ->.
  - case_decide as Hout; [done|]. destruct (advance_step again c) as [c1|e] eqn:Hrun; [|done].
    case_decide as Hsame; [done|]. injection Hact as ->. apply step_progress. eapply progress_advance; [done..|].
    by intros ->.
  - case_decide as Hok; [|done]. injection Hact as <-. destruct Hok as (?&?&?&?). by apply step_post.
  - case_decide as Hout; [|done]. destruct (advance_step false c) as [c1|e] eqn:Hrun; [|done].
    injection Hact as <-. by apply step_call.
Qed.

Lemma acts_snoc l a c : acts (l ++ [a]) c = acts l c ≫= act a.
Proof. unfold acts. by rewrite foldl_app. Qed.

Lemma acts_steps l c c' : acts l c = Some c' → rtc step c c'.
Proof.
  revert c'. induction l as [|a l IH] using rev_ind; intros c'; [intros [= <-]; apply rtc_refl|].
  rewrite acts_snoc. intros (c1&H1&H2)%bind_Some.
  eapply rtc_r; [by apply IH|by apply (act_step a)].
Qed.
End run.

(** Two threads that post, one advance that finishes the work of the first and keeps that of
    the second. *)
Definition rest : context NativeMutex :=
  mkContext (device_init (mkNativeMutex 0)) {[8 := mkElement 0 0; 16 := mkElement 0 0]} (λ _, Ready)
    ∅ A_Out ∅ [].

Definition posts : list action :=
  [PostWork 1 8; PostWork 2 16; Go 1; Go 1; Go 1; Go 2; Go 2; Go 2].
Definition advance_run : list action :=
  [Adv true; Adv true; Adv true; Adv true; Adv true;
   Adv true; Adv false; Adv true; Adv true; Adv true; Adv true; Adv true; Adv true].

Lemma rest_start : device_start rest.
Proof. by exists (mkNativeMutex 0). Qed.

(** Where a run ends. *)
Definition after (l : list action) : context NativeMutex := default rest (acts l rest).

Lemma after_steps l : acts l rest ≠ None → rtc step rest (after l).
Proof. intros Hl. unfold after. destruct (acts l rest) as [c|] eqn:Hacts; [|done]. by eapply acts_steps. Qed.

Lemma after_more l l' : acts (l ++ l') rest ≠ None → acts l' (after l) = Some (after (l ++ l')).
Proof.
  unfold after, acts. rewrite foldl_app. destruct (foldl _ (Some rest) l) as [c|] eqn:Hl; cbn.
  - by destruct (foldl _ (Some c) l').
  - intros Hno. destruct Hno. clear. by induction l'.
Qed.

Lemma acts_under_way l c c' : acts l c = Some c' → Forall (λ a, match a with Adv _ => True | _ => False end) l →
  rtc under_way c c'.
Proof.
  revert c'. induction l as [|a l IH] using rev_ind; intros c'; [intros [= <-] _; apply rtc_refl|].
  rewrite acts_snoc. intros (c1&H1&H2)%bind_Some [Hl Ha]%Forall_app.
  eapply rtc_r; [by apply IH|]. split; [|by apply (act_step a)].
  intros Hout. apply Forall_inv in Ha. destruct a as [|again| |]; cbn in Ha; try done.
  unfold act in H2. by rewrite decide_True in H2.
Qed.

Lemma work_safe_witness :
  let c := after (posts ++ [Call] ++ advance_run) in
  begun (c_log c) = [8; 16] ∧ ¬ fails c ∧ orderly ∅ (c_log c) ∧
  begun (c_log c) `prefix_of` enqueued (c_log c).
Proof.
  split; [by vm_compute|]. apply (work_safe rest); [apply rest_start|]. apply after_steps. by vm_compute.
Defined.

Lemma advance_completes_witness : ∃ evs,
  c_log (after (posts ++ [Call] ++ advance_run)) = c_log (after posts) ++ evs ∧ 8 ∈ visited evs ∧ 16 ∈ visited evs.
Proof.
  destruct (advance_completes rest (after posts) (after (posts ++ [Call]))) as (_&_&Hvis).
  - apply rest_start.
  - apply after_steps. by vm_compute.
  - by vm_compute.
  - by vm_compute.
  - destruct (Hvis (after (posts ++ [Call] ++ advance_run))) as (evs&Hlog&Hin).
    + apply (acts_under_way advance_run); [|by repeat constructor].
      rewrite (assoc_L (++)). apply after_more. by vm_compute.
    + by vm_compute.
    + assert (∀ i thr, ¬ held_by (c_posters (after posts)) i thr) as Hno.
      { intros i thr (p&Hp&_). replace (c_posters (after posts)) with (∅ : gmap Z poster) in Hp by by vm_compute.
        by rewrite lookup_empty in Hp. }
      exists evs. split; [done|]. split; (apply Hin; [by vm_compute|by intros i]).
Defined.
