(* ===== verification/PipeWorkQueue.v ===== *)
(** The pipe work queue, src/common/default/PipeWorkQueue.h: a buffer that one producer
    fills and one consumer empties, flat or circular, with the bytes produced and
    consumed as the only shared state. *)
From S2P Require Import Prelude.
From S2P Require Import TypeCode.
From S2P Require Import TypeMachine.

(** [workqueue_t]: its header. *)
Record workqueue_t := mkHeader { producedBytes : Z; consumedBytes : Z }.
Definition sizeof_workqueue_t : Z := 16.

(** What queues share: headers and type machines by address, type objects. *)
Record wq_mem := mkWqMem {
  wq_headers : gmap Z workqueue_t; wq_machines : gmap Z TypeMachine; wq_heap : heap
}.

Definition NULL : Z := 0.

Record PipeWorkQueue := mkPipe {
  pw_qsize : Z; pw_isize : Z; pw_pmask : Z; pw_buffer : Z; pw_sharedqueue : Z;
  pw_prod_tm : Z; pw_cons_tm : Z
}.

(** [(unsigned) -1]. *)
Definition nil_mask : Z := 2 ^ 32 - 1.

Definition power_of_two (qsize : Z) : bool := Z.land qsize (w32 (qsize - 1)) =? 0.

Section pipe.
(** [PAMI_TYPE_CONTIG_MAX], and the fuel of the type machines. *)
Context (contig_max : Z) (fuel : nat).

Definition PipeWorkQueue_new : PipeWorkQueue := mkPipe 0 0 0 NULL NULL NULL NULL.

Definition header (q : PipeWorkQueue) (s : wq_mem) : res workqueue_t :=
  of_option (wq_headers s !! pw_sharedqueue q).

(** The header must be an object. *)
Definition set_header (q : PipeWorkQueue) (produced consumed : Z) (s : wq_mem) : res wq_mem :=
  _ ← header q s;
  mret (mkWqMem (<[pw_sharedqueue q := mkHeader produced consumed]> (wq_headers s))
          (wq_machines s) (wq_heap s)).

Definition set_machine (tm : Z) (m : TypeMachine) (s : wq_mem) : wq_mem :=
  mkWqMem (wq_headers s) (<[tm := m]> (wq_machines s)) (wq_heap s).

(** [if (tm != NULL) tm->MoveCursor(offset)]. *)
Definition move_cursor (tm offset : Z) (s : wq_mem) : res wq_mem :=
  if tm =? NULL then mret s
  else
    m ← of_option (wq_machines s !! tm);
    m ← MoveCursor fuel (wq_heap s) m offset;
    mret (set_machine tm m s).

(** [new TypeMachine(dt)] at [address]. *)
Definition new_machine (address dt : Z) (s : wq_mem) : res wq_mem :=
  '(h, m) ← TypeMachine_new contig_max (wq_heap s) dt;
  mret (mkWqMem (wq_headers s) (<[address := m]> (wq_machines s)) h).

(** * Configuration *)

(** In shared memory: [shm] is what the memory manager gives, with a header at it when
    it is not [NULL]. *)
Definition configure_shared (q : PipeWorkQueue) (shm bufsize : Z) (s : wq_mem) :
    res (PipeWorkQueue * wq_mem) :=
  let qsize := w32 bufsize in
  assert (negb (shm =? NULL));;
  assert (power_of_two qsize);;
  let q := mkPipe qsize (pw_isize q) (w32 (qsize - 1)) (shm + sizeof_workqueue_t) shm
             (pw_prod_tm q) (pw_cons_tm q) in
  s ← set_header q (pw_isize q) 0 s;
  mret (q, s).

(** Over the caller's buffer: [sq] is [&this->__sq].  The counters stay what they were. *)
Definition configure_circular (q : PipeWorkQueue) (sq buffer bufsize : Z) : res PipeWorkQueue :=
  let qsize := w32 bufsize in
  assert (power_of_two qsize);;
  mret (mkPipe qsize (pw_isize q) (w32 (qsize - 1)) buffer sq (pw_prod_tm q) (pw_cons_tm q)).

(** The sizes of a buffer seen through a type that is not contiguous. *)
Definition typed_sizes (t : TypeCode) (bufsize bufinit : Z) : res (Z * Z) :=
  let e := GetExtent t in
  defined (negb (e =? 0));;
  assert (bufsize =? w64 (bufsize / e * e));;
  assert (bufinit =? w64 (bufinit / e * e));;
  mret (w32 (bufsize / e * GetDataSize t), w32 (bufinit / e * GetDataSize t)).

(** One side of the flat configuration: [dt] is [NULL] or a type, [address] where the
    machine goes. *)
Definition typed_view (dt address bufsize bufinit : Z) (q : PipeWorkQueue) (s : wq_mem) :
    res (PipeWorkQueue * wq_mem * Z) :=
  if dt =? NULL then mret (q, s, NULL)
  else
    t ← of_option (wq_heap s !! dt);
    if IsContiguous t then mret (q, s, NULL)
    else
      '(qsize, isize) ← typed_sizes t bufsize bufinit;
      s ← new_machine address dt s;
      mret (mkPipe qsize isize nil_mask (pw_buffer q) (pw_sharedqueue q) (pw_prod_tm q)
              (pw_cons_tm q), s, address).

Definition configure_flat (q : PipeWorkQueue) (sq buffer bufsize bufinit prod_dt cons_dt prod_tm cons_tm : Z)
    (s : wq_mem) : res (PipeWorkQueue * wq_mem) :=
  let q := mkPipe (w32 bufsize) (w32 bufinit) 0 buffer sq NULL NULL in
  '(q, s, ptm) ← typed_view prod_dt prod_tm bufsize bufinit q s;
  '(q, s, ctm) ← typed_view cons_dt cons_tm bufsize bufinit q s;
  let q := mkPipe (pw_qsize q) (pw_isize q) (pw_pmask q) (pw_buffer q) (pw_sharedqueue q) ptm ctm in
  s ← set_header q (pw_isize q) 0 s;
  s ← move_cursor ptm (pw_isize q) s;
  s ← move_cursor ctm 0 s;
  mret (q, s).

Definition reset (q : PipeWorkQueue) (s : wq_mem) : res wq_mem :=
  s ← set_header q (pw_isize q) 0 s;
  s ← move_cursor (pw_prod_tm q) (pw_isize q) s;
  move_cursor (pw_cons_tm q) 0 s.

Definition reset_nosync (q : PipeWorkQueue) (s : wq_mem) : res wq_mem := reset q s.

(** The header is zeroed by the master between two barriers. *)
Definition barrier_reset (q : PipeWorkQueue) (s : wq_mem) : res wq_mem :=
  s ← set_header q 0 0 s;
  s ← move_cursor (pw_prod_tm q) 0 s;
  move_cursor (pw_cons_tm q) 0 s.

(** The clone shares the header and the machines; its [_isize] is not initialised:
    [junk]. *)
Definition clone (junk : Z) (obj : PipeWorkQueue) (s : wq_mem) : res (PipeWorkQueue * wq_mem) :=
  let q := mkPipe (pw_qsize obj) junk (pw_pmask obj) (pw_buffer obj) (pw_sharedqueue obj)
             (pw_prod_tm obj) (pw_cons_tm obj) in
  s ← reset q s;
  mret (q, s).

Definition delete_machine (tm : Z) (s : wq_mem) : res wq_mem :=
  if tm =? NULL then mret s
  else
    m ← of_option (wq_machines s !! tm);
    h ← TypeMachine_delete (wq_heap s) m;
    mret (mkWqMem (wq_headers s) (delete tm (wq_machines s)) h).

(** The destructor; shared memory is not freed. *)
Definition PipeWorkQueue_delete (q : PipeWorkQueue) (s : wq_mem) : res wq_mem :=
  s ← delete_machine (pw_prod_tm q) s;
  delete_machine (pw_cons_tm q) s.

(** [exp]: the mask exported, or [None] for [PAMI_ERROR]; [import] is always
    [PAMI_ERROR]. *)
Definition exp (q : PipeWorkQueue) : option Z :=
  if negb (pw_pmask q =? 0) then None else Some (pw_pmask q).

Definition import : option PipeWorkQueue := None.

(** * Producing and consuming *)

(** What a circular queue can take without wrapping, from the counters read. *)
Definition circular_room (q : PipeWorkQueue) (p c : Z) : Z :=
  let po := Z.land p (pw_pmask q) in
  let co := Z.land c (pw_pmask q) in
  if co <? po then w32 (pw_qsize q - po)
  else if po <? co then w32 (co - po)
  else if p =? c then w32 (pw_qsize q - po)
  else 0.

(** What it can give: counters that lie on two sides of the wrap are moved to one. *)
Definition circular_data (q : PipeWorkQueue) (p c : Z) : Z :=
  let bump := (p <? c) && (w64 (c + pw_qsize q) <? w64 (p + pw_qsize q)) in
  let p := if bump then w64 (p + pw_qsize q) else p in
  let c := if bump then w64 (c + pw_qsize q) else c in
  let po := Z.land p (pw_pmask q) in
  let co := Z.land c (pw_pmask q) in
  if co <? po then w32 (po - co)
  else if po <? co then w32 (pw_qsize q - co)
  else if c <? p then w32 (pw_qsize q - co)
  else 0.

(** [GetContigBytes], when it is less than [a]. *)
Definition contig_bytes (tm a : Z) (s : wq_mem) : res (Z * wq_mem) :=
  m ← of_option (wq_machines s !! tm);
  '(m, n) ← GetContigBytes fuel (wq_heap s) m;
  mret (if n <? a then n else a, set_machine tm m s).

Definition bytesAvailableToProduce (q : PipeWorkQueue) (s : wq_mem) : res (Z * wq_mem) :=
  h ← header q s;
  let p := producedBytes h in
  if pw_pmask q =? 0 then mret (w64 (pw_qsize q - p), s)
  else if negb (pw_prod_tm q =? NULL) then contig_bytes (pw_prod_tm q) (w64 (pw_qsize q - p)) s
  else mret (circular_room q p (consumedBytes h), s).

Definition bytesAvailableToConsume (q : PipeWorkQueue) (s : wq_mem) : res (Z * wq_mem) :=
  h ← header q s;
  let p := producedBytes h in
  let c := consumedBytes h in
  if pw_pmask q =? 0 then mret (w64 (p - c), s)
  else if negb (pw_cons_tm q =? NULL) then contig_bytes (pw_cons_tm q) (w64 (p - c)) s
  else mret (circular_data q p c, s).

Definition getBytesProduced (q : PipeWorkQueue) (s : wq_mem) : res Z :=
  h ← header q s; mret (producedBytes h).
Definition getBytesConsumed (q : PipeWorkQueue) (s : wq_mem) : res Z :=
  h ← header q s; mret (consumedBytes h).

(** The place in the buffer for a counter. *)
Definition place (q : PipeWorkQueue) (tm count : Z) (s : wq_mem) : res Z :=
  if pw_pmask q =? 0 then mret (pw_buffer q + count)
  else if negb (tm =? NULL) then
    m ← of_option (wq_machines s !! tm);
    d ← GetCursorDisp m;
    mret (w64 (pw_buffer q + d))
  else mret (pw_buffer q + Z.land count (pw_pmask q)).

Definition bufferToProduce (q : PipeWorkQueue) (s : wq_mem) : res Z :=
  h ← header q s; place q (pw_prod_tm q) (producedBytes h) s.
Definition bufferToConsume (q : PipeWorkQueue) (s : wq_mem) : res Z :=
  h ← header q s; place q (pw_cons_tm q) (consumedBytes h) s.

Definition produceBytes (q : PipeWorkQueue) (bytes : Z) (s : wq_mem) : res wq_mem :=
  h ← header q s;
  let p := w64 (producedBytes h + bytes) in
  s ← set_header q p (consumedBytes h) s;
  move_cursor (pw_prod_tm q) p s.

Definition consumeBytes (q : PipeWorkQueue) (bytes : Z) (s : wq_mem) : res wq_mem :=
  h ← header q s;
  let c := w64 (consumedBytes h + bytes) in
  s ← set_header q (producedBytes h) c s;
  move_cursor (pw_cons_tm q) c s.

Definition available (q : PipeWorkQueue) : bool := negb (pw_sharedqueue q =? NULL).

End pipe.
