(* ===== verification/PipeWorkQueueSpec.v ===== *)
(** The arithmetic of the circular pipe work queue: the room and the data its counters
    tell, as numbers that never wrap. *)
From S2P Require Import Prelude.
From S2P Require Import PipeWorkQueue.

Section circular.
Context (q : PipeWorkQueue) (k : Z).

(** A circular queue of [2 ^ k] bytes; one byte would look like a flat queue. *)
Record circular : Prop := {
  ci_k : 0 < k < 32;
  ci_size : pw_qsize q = 2 ^ k;
  ci_mask : pw_pmask q = 2 ^ k - 1
}.

Context (Hq : circular).

Notation size := (2 ^ k).

Lemma size_pos : 1 < size ≤ 2 ^ 31.
Proof.
  destruct (ci_k Hq). split; [apply Z.pow_gt_1; lia|]. apply Z.pow_le_mono_r; lia.
Qed.

(** The offset of a counter in the buffer. *)
Lemma mask_mod n : Z.land (w64 n) (pw_pmask q) = n mod size.
Proof.
  pose proof (ci_k Hq). rewrite (ci_mask Hq). replace (size - 1) with (Z.ones k)
    by (rewrite Z.ones_equiv; lia).
  rewrite Z.land_ones by lia. unfold w64. rewrite <- Znumtheory.Zmod_div_mod; [done|..].
  - pose proof size_pos. lia.
  - lia.
  - exists (2 ^ (64 - k)). rewrite <- Z.pow_add_r by lia. f_equal. lia.
Qed.

(** Counters at most [size] apart: where the producer's offset is from the consumer's. *)
Lemma offsets_apart P C : 0 ≤ C ≤ P → P ≤ C + size →
  (C mod size < P mod size ∧ P - C = P mod size - C mod size) ∨
  (P mod size < C mod size ∧ P - C = size + P mod size - C mod size) ∨
  (P mod size = C mod size ∧ (P = C ∨ P = C + size)).
Proof.
  intros HC HP. pose proof size_pos as Hs.
  pose proof (Z.mod_pos_bound P size ltac:(lia)). pose proof (Z.mod_pos_bound C size ltac:(lia)).
  pose proof (Z.div_mod P size ltac:(lia)) as HdP. pose proof (Z.div_mod C size ltac:(lia)) as HdC.
  assert (Hq' : P / size = C / size ∨ P / size = C / size + 1).
  { pose proof (Z.div_le_mono C P size ltac:(lia) ltac:(lia)).
    pose proof (Z.div_le_mono P (C + 1 * size) size ltac:(lia) ltac:(lia)) as Hle.
    rewrite Z.div_add in Hle by lia. lia. }
  destruct Hq' as [Heq|Heq]; rewrite Heq in HdP.
  - destruct (decide (P mod size = C mod size)); [right; right; lia|left; lia].
  - destruct (decide (P mod size = C mod size)); [right; right; lia|].
    right; left. split; lia.
Qed.

Lemma w64_eq_apart P C : 0 ≤ C ≤ P → P ≤ C + size → w64 P = w64 C → P = C.
Proof.
  intros HC HP Heq. pose proof size_pos as Hs. unfold w64 in Heq.
  pose proof (Z.div_mod P (2 ^ 64) ltac:(lia)). pose proof (Z.div_mod C (2 ^ 64) ltac:(lia)). nia.
Qed.

(** What the producer may write without a wrap: as much as is free, up to the end. *)
Lemma circular_room_spec P C : 0 ≤ C ≤ P → P ≤ C + size →
  circular_room q (w64 P) (w64 C) = Z.min (size - (P - C)) (size - P mod size).
Proof.
  intros HC HP. pose proof size_pos as Hs. unfold circular_room. rewrite !mask_mod, (ci_size Hq).
  pose proof (Z.mod_pos_bound P size ltac:(lia)). pose proof (Z.mod_pos_bound C size ltac:(lia)).
  destruct (offsets_apart P C HC HP) as [[Hlt Heq]|[[Hlt Heq]|[Heq [->|HeqP]]]].
  - rewrite (proj2 (Z.ltb_lt _ _) Hlt). unfold w32. rewrite Z.mod_small; lia.
  - rewrite (proj2 (Z.ltb_ge _ _)), (proj2 (Z.ltb_lt _ _) Hlt) by lia. unfold w32.
    rewrite Z.mod_small; lia.
  - rewrite !(proj2 (Z.ltb_ge _ _)), Z.eqb_refl by lia. unfold w32. rewrite Z.mod_small; lia.
  - rewrite !(proj2 (Z.ltb_ge _ _)) by lia.
    rewrite (proj2 (Z.eqb_neq _ _)); [lia|]. intros Hw.
    pose proof (w64_eq_apart P C HC HP Hw). lia.
Qed.

(** When the producer's counter wrapped and the consumer's did not. *)
Lemma bump_spec P C : 0 ≤ C ≤ P → P ≤ C + size →
  let bump := (w64 P <? w64 C) && (w64 (w64 C + size) <? w64 (w64 P + size)) in
  let p := if bump then w64 (w64 P + size) else w64 P in
  let c := if bump then w64 (w64 C + size) else w64 C in
  (c < p ↔ C < P) ∧ Z.land p (pw_pmask q) = P mod size ∧ Z.land c (pw_pmask q) = C mod size.
Proof.
  intros HC HP bump p c. pose proof size_pos as Hs.
  assert (Hcase : bump = true ∧ w64 (w64 C + size) < w64 (w64 P + size) ∧ C < P ∨
                  bump = false ∧ w64 C ≤ w64 P ∧ (w64 C < w64 P ↔ C < P)).
  { subst bump p c. unfold w64 in *.
    pose proof (Z.div_mod P (2 ^ 64) ltac:(lia)) as HdP. pose proof (Z.div_mod C (2 ^ 64) ltac:(lia)) as HdC.
    pose proof (Z.mod_pos_bound P (2 ^ 64) ltac:(lia)). pose proof (Z.mod_pos_bound C (2 ^ 64) ltac:(lia)).
    assert (Hd : P / 2 ^ 64 = C / 2 ^ 64 ∨ P / 2 ^ 64 = C / 2 ^ 64 + 1) by nia.
    destruct Hd as [Hd|Hd]; rewrite Hd in HdP.
    - right. rewrite (proj2 (Z.ltb_ge _ _)) by lia. split; [done|]. lia.
    - left. rewrite (proj2 (Z.ltb_lt (P mod 2 ^ 64) _)) by lia.
      assert (H1 : (P mod 2 ^ 64 + size) mod 2 ^ 64 = P mod 2 ^ 64 + size) by (apply Z.mod_small; lia).
      assert (H2 : (C mod 2 ^ 64 + size) mod 2 ^ 64 = C mod 2 ^ 64 + size - 2 ^ 64).
      { symmetry. apply Z.mod_unique with 1; lia. }
      rewrite H1, H2. rewrite (proj2 (Z.ltb_lt _ _)) by lia. cbn. lia. }
  assert (Hm : ∀ n, Z.land (w64 (w64 n + size)) (pw_pmask q) = n mod size).
  { intros n. rewrite w64_add_l, mask_mod. rewrite <- (Z.mul_1_l size) at 1. apply Z_mod_plus_full. }
  subst p c. destruct Hcase as [(->&Hlt&HPC)|(->&Hle&Hiff)].
  - rewrite !Hm. split; [lia|done].
  - rewrite !mask_mod. done.
Qed.

(** What the consumer may read without a wrap: as much as there is, up to the end. *)
Lemma circular_data_spec P C : 0 ≤ C ≤ P → P ≤ C + size →
  circular_data q (w64 P) (w64 C) = Z.min (P - C) (size - C mod size).
Proof.
  intros HC HP. pose proof size_pos as Hs. unfold circular_data. rewrite (ci_size Hq).
  destruct (bump_spec P C HC HP) as (Hlt&->&->).
  set (p := if (_ && _)%bool then w64 (w64 P + size) else w64 P) in *.
  set (c := if (_ && _)%bool then w64 (w64 C + size) else w64 C) in *.
  pose proof (Z.mod_pos_bound P size ltac:(lia)). pose proof (Z.mod_pos_bound C size ltac:(lia)).
  destruct (offsets_apart P C HC HP) as [[Hl Heq]|[[Hl Heq]|[Heq [HeqP|HeqP]]]].
  - rewrite (proj2 (Z.ltb_lt _ _) Hl). unfold w32. rewrite Z.mod_small; lia.
  - rewrite (proj2 (Z.ltb_ge _ _)), (proj2 (Z.ltb_lt _ _) Hl) by lia. unfold w32.
    rewrite Z.mod_small; lia.
  - rewrite !(proj2 (Z.ltb_ge _ _)) by lia. lia.
  - rewrite !(proj2 (Z.ltb_ge (_ mod _) _)) by lia. rewrite (proj2 (Z.ltb_lt c p)) by lia.
    unfold w32. rewrite Z.mod_small; lia.
Qed.

End circular.
