(* ===== verification/PipeWorkQueueProps.v ===== *)
(** Properties of the pipe work queue: a producer and a consumer that run at the same
    time pass every byte once and in order, the answers of the queue on its own, and
    what the views through types do. *)
From S2P Require Import Prelude.
From S2P Require Import Memory.
From S2P Require Import Layout.
From S2P Require Import TypeCode.
From S2P Require Import TypeMachine.
From S2P Require Import TypeMachineSpec.
From S2P Require Import TypeMachineProps.
From S2P Require Import TypeBuild.
From S2P Require Import PipeWorkQueue.
From S2P Require Import PipeWorkQueueSpec.

(** * Producer and consumer

    One step per access to what they share: a counter or a byte of the buffer.  Memory
    is sequentially consistent. *)

(** Where the producer is: in [bytesAvailableToProduce] with [producedBytes] loaded, with
    the room known, filling from [bufferToProduce] on, in [produceBytes] with
    [producedBytes] loaded. *)
Inductive producer :=
| P_idle
| P_loaded (p : Z)
| P_room (a : Z)
| P_fill (a b : Z) (data : list Z)
| P_publish (data : list Z) (v : Z).

Inductive consumer :=
| C_idle
| C_loaded (p : Z)
| C_room (a : Z)
| C_take (a b : Z) (data : list Z)
| C_release (data : list Z) (v : Z).

(** [st_sent] and [st_got] are the bytes published and released so far. *)
Record state := mkState {
  st_header : workqueue_t; st_buf : mem; st_prod : producer; st_cons : consumer;
  st_sent : list Z; st_got : list Z
}.

Definition write (a x : Z) (m : mem) : mem := λ b, if b =? a then x else m b.

Inductive step (q : PipeWorkQueue) : state → state → Prop :=
| step_p_load h m c s g :
    step q (mkState h m P_idle c s g) (mkState h m (P_loaded (producedBytes h)) c s g)
| step_p_room h m c s g p :
    step q (mkState h m (P_loaded p) c s g)
           (mkState h m (P_room (circular_room q p (consumedBytes h))) c s g)
| step_p_place h m c s g a :
    step q (mkState h m (P_room a) c s g)
           (mkState h m (P_fill a (pw_buffer q + Z.land (producedBytes h) (pw_pmask q)) []) c s g)
| step_p_write h m c s g a b data x : Z.of_nat (length data) < a →
    step q (mkState h m (P_fill a b data) c s g)
           (mkState h (write (b + Z.of_nat (length data)) x m) (P_fill a b (data ++ [x])) c s g)
| step_p_filled h m c s g a b data :
    step q (mkState h m (P_fill a b data) c s g)
           (mkState h m (P_publish data (producedBytes h)) c s g)
| step_p_store h m c s g data v :
    step q (mkState h m (P_publish data v) c s g)
           (mkState (mkHeader (w64 (v + Z.of_nat (length data))) (consumedBytes h)) m P_idle c
              (s ++ data) g)
| step_c_load h m p s g :
    step q (mkState h m p C_idle s g) (mkState h m p (C_loaded (producedBytes h)) s g)
| step_c_room h m p s g p0 :
    step q (mkState h m p (C_loaded p0) s g)
           (mkState h m p (C_room (circular_data q p0 (consumedBytes h))) s g)
| step_c_place h m p s g a :
    step q (mkState h m p (C_room a) s g)
           (mkState h m p (C_take a (pw_buffer q + Z.land (consumedBytes h) (pw_pmask q)) []) s g)
| step_c_read h m p s g a b data : Z.of_nat (length data) < a →
    step q (mkState h m p (C_take a b data) s g)
           (mkState h m p (C_take a b (data ++ [m (b + Z.of_nat (length data))])) s g)
| step_c_taken h m p s g a b data :
    step q (mkState h m p (C_take a b data) s g)
           (mkState h m p (C_release data (consumedBytes h)) s g)
| step_c_store h m p s g data v :
    step q (mkState h m p (C_release data v) s g)
           (mkState (mkHeader (producedBytes h) (w64 (v + Z.of_nat (length data)))) m p C_idle s
              (g ++ data)).

(** As [configure] and [reset] leave a circular queue. *)
Definition initial (st : state) : Prop :=
  st_header st = mkHeader 0 0 ∧ st_prod st = P_idle ∧ st_cons st = C_idle ∧
  st_sent st = [] ∧ st_got st = [].

Section fifo.
Context (q : PipeWorkQueue) (k : Z) (Hq : circular q k).

Notation size := (2 ^ k).
Notation len l := (Z.of_nat (length l)).

(** The bytes at the offsets from [n] on. *)
Definition holds_from (m : mem) (n : Z) (data : list Z) : Prop :=
  ∀ (j : nat) x, data !! j = Some x → m (pw_buffer q + (n + Z.of_nat j) mod size) = x.

(** What the producer may fill. *)
Definition room (s g : list Z) (a : Z) : Prop :=
  a ≤ size - (len s - len g) ∧ a ≤ size - len s mod size.

(** What the consumer may take. *)
Definition data_left (s g : list Z) (a : Z) : Prop :=
  a ≤ len s - len g ∧ a ≤ size - len g mod size.

Definition producer_ok (m : mem) (s g : list Z) (pc : producer) : Prop :=
  match pc with
  | P_idle => True
  | P_loaded p => p = w64 (len s)
  | P_room a => room s g a
  | P_fill a b data => room s g a ∧ b = pw_buffer q + len s mod size ∧
      (data = [] ∨ len data ≤ a) ∧ holds_from m (len s) data
  | P_publish data v => v = w64 (len s) ∧ (data = [] ∨ room s g (len data)) ∧ holds_from m (len s) data
  end.

Definition consumer_ok (s g : list Z) (pc : consumer) : Prop :=
  match pc with
  | C_idle => True
  | C_loaded p => ∃ n, len g ≤ n ≤ len s ∧ p = w64 n
  | C_room a => data_left s g a
  | C_take a b data => data_left s g a ∧ b = pw_buffer q + len g mod size ∧
      (data = [] ∨ len data ≤ a) ∧ data = take (length data) (drop (length g) s)
  | C_release data v => v = w64 (len g) ∧ (data = [] ∨ data_left s g (len data)) ∧
      data = take (length data) (drop (length g) s)
  end.

Record inv (st : state) : Prop := {
  inv_header : st_header st = mkHeader (w64 (len (st_sent st))) (w64 (len (st_got st)));
  inv_prefix : st_got st `prefix_of` st_sent st;
  inv_cap : len (st_sent st) - len (st_got st) ≤ size;
  inv_buf : ∀ i x, (length (st_got st) ≤ i)%nat → st_sent st !! i = Some x →
    st_buf st (pw_buffer q + Z.of_nat i mod size) = x;
  inv_prod : producer_ok (st_buf st) (st_sent st) (st_got st) (st_prod st);
  inv_cons : consumer_ok (st_sent st) (st_got st) (st_cons st)
}.

(** Two positions less than [size] apart have two places. *)
Lemma places_apart i j : 0 < j - i < size → i mod size ≠ j mod size.
Proof.
  intros Hij Heq. pose proof (size_pos q k Hq).
  pose proof (Z.div_mod i size ltac:(lia)). pose proof (Z.div_mod j size ltac:(lia)).
  assert (Hd : j - i = size * (j / size - i / size)) by lia. clear - Hd Hij.
  destruct (Z.le_gt_cases (j / size) (i / size)); nia.
Qed.

(** Positions that do not wrap. *)
Lemma place_of n j : 0 ≤ j → n mod size + j < size → (n + j) mod size = n mod size + j.
Proof.
  intros Hj Hlt. pose proof (size_pos q k Hq). pose proof (Z.mod_pos_bound n size ltac:(lia)).
  symmetry. apply Z.mod_unique with (n / size); [lia|]. pose proof (Z.div_mod n size ltac:(lia)). lia.
Qed.

Lemma prefix_len (g s : list Z) : g `prefix_of` s → len g ≤ len s.
Proof. intros H. apply prefix_length in H. lia. Qed.

(** The next byte written stays out of what the consumer may read. *)
Lemma write_keeps m (s g data : list Z) x i y : g `prefix_of` s → len s - len g ≤ size →
  room s g (len data + 1) → (length g ≤ i)%nat → s !! i = Some y →
  m (pw_buffer q + Z.of_nat i mod size) = y →
  write (pw_buffer q + (len s + len data) mod size) x m (pw_buffer q + Z.of_nat i mod size) = y.
Proof.
  intros Hp Hcap [Hr _] Hi Hlt%lookup_lt_Some Hm. unfold write.
  destruct (Z.eqb_spec (pw_buffer q + Z.of_nat i mod size)
    (pw_buffer q + (len s + len data) mod size)) as [Heq|]; [|done].
  exfalso. apply (places_apart (Z.of_nat i) (len s + len data)); lia.
Qed.

(** And off the bytes it has already filled. *)
Lemma write_extends m (s g data : list Z) x : room s g (len data + 1) → holds_from m (len s) data →
  holds_from (write (pw_buffer q + (len s + len data) mod size) x m) (len s) (data ++ [x]).
Proof.
  intros [_ Hr] Hd j y Hj. pose proof (size_pos q k Hq). unfold write.
  apply lookup_snoc_Some in Hj as [[Hlt Hj]|[-> <-]].
  - destruct (Z.eqb_spec (pw_buffer q + (len s + Z.of_nat j) mod size)
      (pw_buffer q + (len s + len data) mod size)) as [Heq|]; [|by apply Hd].
    exfalso. apply (places_apart (len s + Z.of_nat j) (len s + len data)); [|lia].
    pose proof (Z.mod_pos_bound (len s) size ltac:(lia)). lia.
  - by rewrite Z.eqb_refl.
Qed.

(** Data taken stays what it was when more is published. *)
Lemma taken_app (data s g more : list Z) : g `prefix_of` s → (data = [] ∨ data_left s g (len data)) →
  data = take (length data) (drop (length g) s) →
  data = take (length data) (drop (length g) (s ++ more)).
Proof.
  intros Hp Hl Heq. pose proof (prefix_len g s Hp). rewrite drop_app_le by lia.
  destruct Hl as [->|[Hl _]]; [done|]. rewrite take_app_le by (rewrite length_drop; lia). done.
Qed.

(** One more byte read. *)
Lemma read_next m (s g : list Z) a (data : list Z) : data_left s g a → len data < a →
  (∀ i x, (length g ≤ i)%nat → s !! i = Some x → m (pw_buffer q + Z.of_nat i mod size) = x) →
  data = take (length data) (drop (length g) s) →
  data ++ [m (pw_buffer q + len g mod size + len data)] =
    take (length (data ++ [m (pw_buffer q + len g mod size + len data)])) (drop (length g) s).
Proof.
  intros [Hl Hw] Hlt Hbuf Heq. pose proof (size_pos q k Hq).
  destruct (lookup_lt_is_Some_2 s (length g + length data)) as [x Hx]; [lia|].
  assert (Hm : m (pw_buffer q + len g mod size + len data) = x).
  { rewrite <- Z.add_assoc, <- place_of by lia. rewrite <- Nat2Z.inj_add. apply Hbuf; [lia|done]. }
  rewrite Hm, length_app. cbn [length]. rewrite Nat.add_1_r.
  rewrite (take_S_r _ _ x) by (by rewrite lookup_drop). by rewrite <- Heq.
Qed.

Lemma initial_inv st : initial st → inv st.
Proof.
  intros (Hh&Hp&Hc&Hs&Hg). pose proof (size_pos q k Hq).
  split; rewrite ?Hh, ?Hp, ?Hc, ?Hs, ?Hg; cbn; try done. lia.
Qed.
(** The producer's knowledge survives what the consumer releases. *)
Lemma producer_released m s g g' pc : len g ≤ len g' → producer_ok m s g pc → producer_ok m s g' pc.
Proof.
  intros Hl. assert (Hr : ∀ a, room s g a → room s g' a) by (intros a [? ?]; split; lia).
  destruct pc as [|p|a|a b data|data v]; cbn; try done; [by apply Hr| |].
  - intros (?&?&?&?). auto.
  - intros (?&[->|?]&?); auto.
Qed.

(** The consumer's survives what the producer publishes. *)
Lemma consumer_published s g more pc : g `prefix_of` s → consumer_ok s g pc →
  consumer_ok (s ++ more) g pc.
Proof.
  intros Hp. assert (Hl : ∀ a, data_left s g a → data_left (s ++ more) g a).
  { intros a [? ?]. split; rewrite ?length_app; lia. }
  destruct pc as [|p|a|a b data|data v]; cbn; try done; [| by apply Hl | |].
  - intros (n&Hn&->). exists n. rewrite length_app. split; [lia|done].
  - intros (Ha&Hb&Hd&Heq). split; [by apply Hl|]. split; [done|]. split; [done|].
    apply taken_app; [done| |done]. destruct Hd as [->|Hd]; [by left|right].
    destruct Ha. split; lia.
  - intros (Hv&Hd&Heq). split; [done|]. split; [|by apply taken_app].
    destruct Hd as [->|Hd]; [by left|right]. by apply Hl.
Qed.

(** ** The producer's steps *)

Lemma inv_p_room h m c s g p : inv (mkState h m (P_loaded p) c s g) →
  inv (mkState h m (P_room (circular_room q p (consumedBytes h))) c s g).
Proof.
  intros [Hh Hp Hcap Hbuf Hprod Hcons]. cbn in *. split; try done. cbn. subst h p. cbn.
  pose proof (prefix_len g s Hp). rewrite (circular_room_spec q k Hq) by lia. split; lia.
Qed.

Lemma inv_p_place h m c s g a : inv (mkState h m (P_room a) c s g) →
  inv (mkState h m (P_fill a (pw_buffer q + Z.land (producedBytes h) (pw_pmask q)) []) c s g).
Proof.
  intros [Hh Hp Hcap Hbuf Hprod Hcons]. cbn in *. split; try done. cbn. subst h. cbn.
  rewrite (mask_mod q k Hq). repeat split; [apply Hprod|apply Hprod|by left|done].
Qed.

Lemma inv_p_write h m c s g a b data x : len data < a → inv (mkState h m (P_fill a b data) c s g) →
  inv (mkState h (write (b + len data) x m) (P_fill a b (data ++ [x])) c s g).
Proof.
  intros Ha [Hh Hp Hcap Hbuf Hprod Hcons]. cbn in *. destruct Hprod as (Hr&->&_&Hd).
  pose proof (size_pos q k Hq). pose proof (Z.mod_pos_bound (len s) size ltac:(lia)).
  assert (Hr' : room s g (len data + 1)) by (destruct Hr; split; lia).
  rewrite <- Z.add_assoc, <- place_of by (destruct Hr; lia).
  split; try done; cbn.
  - intros i y Hi Hy. by apply (write_keeps m s g); try apply Hbuf.
  - split; [done|]. split; [done|]. split; [right; rewrite length_app; cbn; lia|].
    by apply (write_extends m s g).
Qed.

Lemma inv_p_filled h m c s g a b data : inv (mkState h m (P_fill a b data) c s g) →
  inv (mkState h m (P_publish data (producedBytes h)) c s g).
Proof.
  intros [Hh Hp Hcap Hbuf Hprod Hcons]. cbn in *. destruct Hprod as (Hr&->&Hl&Hd).
  split; try done. cbn. subst h. split; [done|]. split; [|done].
  destruct Hl as [->|Hl]; [by left|right]. destruct Hr. split; lia.
Qed.

Lemma inv_p_store h m c s g data v : inv (mkState h m (P_publish data v) c s g) →
  inv (mkState (mkHeader (w64 (v + len data)) (consumedBytes h)) m P_idle c (s ++ data) g).
Proof.
  intros [Hh Hp Hcap Hbuf Hprod Hcons]. cbn in *. destruct Hprod as (->&Hl&Hd).
  pose proof (prefix_len g s Hp). split; cbn; try done.
  - subst h. cbn. rewrite w64_add_l, length_app, Nat2Z.inj_add. done.
  - by apply prefix_app_r.
  - rewrite length_app. destruct Hl as [->|[Hl _]]; cbn in *; lia.
  - intros i x Hi Hx. apply lookup_app_Some in Hx as [Hx|[Hle Hx]]; [by apply Hbuf|].
    rewrite <- (Hd _ _ Hx). do 3 f_equal. lia.
  - by apply consumer_published.
Qed.

(** ** The consumer's steps *)

Lemma inv_c_room h m p s g p0 : inv (mkState h m p (C_loaded p0) s g) →
  inv (mkState h m p (C_room (circular_data q p0 (consumedBytes h))) s g).
Proof.
  intros [Hh Hp Hcap Hbuf Hprod Hcons]. cbn in *. destruct Hcons as (n&Hn&->).
  split; try done. cbn. subst h. cbn. rewrite (circular_data_spec q k Hq) by lia. split; lia.
Qed.

Lemma inv_c_place h m p s g a : inv (mkState h m p (C_room a) s g) →
  inv (mkState h m p (C_take a (pw_buffer q + Z.land (consumedBytes h) (pw_pmask q)) []) s g).
Proof.
  intros [Hh Hp Hcap Hbuf Hprod Hcons]. cbn in *. split; try done. cbn. subst h. cbn.
  rewrite (mask_mod q k Hq). repeat split; [apply Hcons|apply Hcons|by left].
Qed.

Lemma inv_c_read h m p s g a b data : len data < a → inv (mkState h m p (C_take a b data) s g) →
  inv (mkState h m p (C_take a b (data ++ [m (b + len data)])) s g).
Proof.
  intros Ha [Hh Hp Hcap Hbuf Hprod Hcons]. cbn in *. destruct Hcons as (Hl&->&_&Hd).
  split; try done. cbn. split; [done|]. split; [done|].
  split; [right; rewrite length_app; cbn; lia|]. by apply (read_next m s g a).
Qed.

Lemma inv_c_taken h m p s g a b data : inv (mkState h m p (C_take a b data) s g) →
  inv (mkState h m p (C_release data (consumedBytes h)) s g).
Proof.
  intros [Hh Hp Hcap Hbuf Hprod Hcons]. cbn in *. destruct Hcons as (Hl&->&Hd&Heq).
  split; try done. cbn. subst h. split; [done|]. split; [|done].
  destruct Hd as [->|Hd]; [by left|right]. destruct Hl. split; lia.
Qed.

Lemma inv_c_store h m p s g data v : inv (mkState h m p (C_release data v) s g) →
  inv (mkState (mkHeader (producedBytes h) (w64 (v + len data))) m p C_idle s (g ++ data)).
Proof.
  intros [Hh Hp Hcap Hbuf Hprod Hcons]. cbn in *. destruct Hcons as (->&Hl&Heq).
  assert (Hpre : g ++ data `prefix_of` s).
  { destruct Hp as [rest ->]. rewrite drop_app_length in Heq. apply prefix_app.
    rewrite Heq. apply prefix_take. }
  split; cbn; try done.
  - subst h. cbn. rewrite w64_add_l, length_app, Nat2Z.inj_add. done.
  - rewrite length_app. lia.
  - intros i x Hi Hx. rewrite length_app in Hi. apply Hbuf; [lia|done].
  - apply (producer_released m s g); [rewrite length_app; lia|done].
Qed.

Lemma inv_step st st' : inv st → step q st st' → inv st'.
Proof.
  intros Hi Hs. destruct Hs.
  - destruct Hi as [Hh Hp Hcap Hbuf Hprod Hcons]. cbn in *. split; try done. cbn. by subst h.
  - by apply inv_p_room.
  - by apply inv_p_place with (a := a).
  - by apply inv_p_write.
  - by apply inv_p_filled with a b.
  - by apply inv_p_store.
  - destruct Hi as [Hh Hp Hcap Hbuf Hprod Hcons]. cbn in *. split; try done. cbn. subst h.
    pose proof (prefix_len g s Hp). by exists (len s).
  - by apply inv_c_room.
  - by apply inv_c_place with (a := a).
  - by apply inv_c_read.
  - by apply inv_c_taken with a b.
  - by apply inv_c_store.
Qed.

Lemma inv_reachable st st' : inv st → rtc (step q) st st' → inv st'.
Proof. intros Hi Hr. induction Hr; [done|]. eauto using inv_step. Qed.

(** C24. One producer and one consumer on a circular queue, at the level of single loads
    and stores of what they share, interleaved in any way: what the consumer got is the
    beginning of what the producer published, byte for byte, never more than the size
    of the queue apart; the counters count them; and the queue never locks up, since a
    queue that is not full tells the producer of room and a queue that is not empty
    tells the consumer of data. *)
Theorem pipe_fifo st st' : initial st → rtc (step q) st st' →
  st_got st' `prefix_of` st_sent st' ∧ len (st_sent st') - len (st_got st') ≤ size ∧
  producedBytes (st_header st') = w64 (len (st_sent st')) ∧
  consumedBytes (st_header st') = w64 (len (st_got st')) ∧
  (len (st_sent st') < len (st_got st') + size →
     0 < circular_room q (producedBytes (st_header st')) (consumedBytes (st_header st'))) ∧
  (len (st_got st') < len (st_sent st') →
     0 < circular_data q (producedBytes (st_header st')) (consumedBytes (st_header st'))).
Proof.
  intros H0 Hr. destruct (inv_reachable st st' (initial_inv st H0) Hr) as [-> Hp Hcap _ _ _].
  pose proof (prefix_len _ _ Hp). pose proof (size_pos q k Hq).
  pose proof (Z.mod_pos_bound (len (st_sent st')) size ltac:(lia)).
  pose proof (Z.mod_pos_bound (len (st_got st')) size ltac:(lia)). cbn.
  rewrite (circular_room_spec q k Hq), (circular_data_spec q k Hq) by lia.
  repeat split; (done || lia).
Qed.
End fifo.

(** A queue of four bytes at 100, whose header is at 50. *)
Definition four : PipeWorkQueue := mkPipe 4 0 3 100 50 0 0.

Lemma four_circular : circular four 2.
Proof. by split. Qed.

Definition start : state := mkState (mkHeader 0 0) (λ _, 0) P_idle C_idle [] [].

(** The producer publishes 7 and the consumer takes it while the producer looks again. *)
Lemma four_run : ∃ m, rtc (step four) start
  (mkState (mkHeader 1 1) m (P_room 3) C_idle [7] [7]).
Proof.
  eexists. eapply rtc_l; [apply step_p_load|]. eapply rtc_l; [apply step_p_room|].
  eapply rtc_l; [apply step_p_place|]. eapply rtc_l; [apply (step_p_write _ _ _ _ _ _ _ _ _ 7); done|].
  eapply rtc_l; [apply step_p_filled|]. eapply rtc_l; [apply step_p_store|].
  eapply rtc_l; [apply step_c_load|]. eapply rtc_l; [apply step_c_room|].
  eapply rtc_l; [apply step_p_load|].
  eapply rtc_l; [apply step_c_place|]. eapply rtc_l; [by apply step_c_read|].
  eapply rtc_l; [apply step_p_room|].
  eapply rtc_l; [apply step_c_taken|]. eapply rtc_l; [apply step_c_store|]. by apply rtc_refl.
Qed.

Lemma pipe_fifo_witness : ∃ st', rtc (step four) start st' ∧ st_got st' = [7] ∧
  st_got st' `prefix_of` st_sent st' ∧
  0 < circular_room four (producedBytes (st_header st')) (consumedBytes (st_header st')).
Proof.
  destruct four_run as [m Hr]. eexists. split; [exact Hr|]. split; [done|].
  destruct (pipe_fifo four 2 four_circular start _ ltac:(by repeat split) Hr) as (Hp&_&_&_&Hroom&_).
  split; [exact Hp|]. apply Hroom. cbn. lia.
Defined.

(** * The queue on its own *)

(** The header of [q] has counters [P] and [C]. *)
Definition counts (q : PipeWorkQueue) (s : wq_mem) (P C : Z) : Prop :=
  wq_headers s !! pw_sharedqueue q = Some (mkHeader (w64 P) (w64 C)).

(** A flat queue without types. *)
Record flat (q : PipeWorkQueue) : Prop := {
  fl_mask : pw_pmask q = 0;
  fl_size : 0 ≤ pw_qsize q < 2 ^ 32
}.

(** What a queue answers: the room, the data, and where they begin. *)
Definition answers (fuel : nat) (q : PipeWorkQueue) (s : wq_mem) (room data produce consume : Z) : Prop :=
  bytesAvailableToProduce fuel q s = Ok (room, s) ∧ bytesAvailableToConsume fuel q s = Ok (data, s) ∧
  bufferToProduce q s = Ok (pw_buffer q + produce) ∧ bufferToConsume q s = Ok (pw_buffer q + consume).

(** C25. What a queue without types answers when [P] bytes were produced and [C]
    consumed: a flat one has the rest of its buffer for the producer and what is between
    the counters for the consumer; a circular one the free and the filled bytes up to
    the end of its buffer, the counters having wrapped or not.  Producing and consuming
    move the counters. *)
Theorem pipe_answers (fuel : nat) q s P C : counts q s P C → 0 ≤ C ≤ P →
  pw_prod_tm q = NULL → pw_cons_tm q = NULL →
  (flat q → P ≤ pw_qsize q → answers fuel q s (pw_qsize q - P) (P - C) P C) ∧
  (∀ k, circular q k → P ≤ C + 2 ^ k →
     answers fuel q s (Z.min (2 ^ k - (P - C)) (2 ^ k - P mod 2 ^ k)) (Z.min (P - C) (2 ^ k - C mod 2 ^ k))
       (P mod 2 ^ k) (C mod 2 ^ k)) ∧
  (∀ n, ∃ s', produceBytes fuel q n s = Ok s' ∧ counts q s' (P + n) C) ∧
  (∀ n, ∃ s', consumeBytes fuel q n s = Ok s' ∧ counts q s' P (C + n)).
Proof.
  intros Hc HC Hp Hct. unfold answers, bytesAvailableToProduce, bytesAvailableToConsume,
    bufferToProduce, bufferToConsume, place, produceBytes, consumeBytes, set_header, header, move_cursor.
  rewrite Hc, Hp, Hct. cbn [of_option]. rewrite !Ok_bind. cbn [producedBytes consumedBytes].
  split; [|split; [|split]].
  - intros [Hm Hs] HP. rewrite Hm. cbn [Z.eqb negb].
    rewrite !(w64_small P), !(w64_small C) by lia. rewrite !w64_small by lia. done.
  - intros k Hk HP. pose proof (size_pos q k Hk). rewrite (mask_mod q k Hk), (mask_mod q k Hk).
    rewrite (circular_room_spec q k Hk), (circular_data_spec q k Hk) by lia.
    rewrite (proj2 (Z.eqb_neq (pw_pmask q) 0)) by (rewrite (ci_mask q k Hk); lia). done.
  - intros n. eexists. split; [reflexivity|].
    unfold counts. cbn. rewrite lookup_insert_eq. by rewrite w64_add_l.
  - intros n. eexists. split; [reflexivity|].
    unfold counts. cbn. rewrite lookup_insert_eq. by rewrite w64_add_l.
Qed.

(** Three bytes over the wrap of the counters. *)
Definition wrapped : wq_mem := mkWqMem {[50 := mkHeader 1 (2 ^ 64 - 2)]} ∅ ∅.

Lemma pipe_answers_witness : answers 0 four wrapped 1 2 1 2.
Proof.
  assert (Hc : counts four wrapped (2 ^ 64 + 1) (2 ^ 64 - 2)) by (by vm_compute).
  destruct (pipe_answers 0 four wrapped (2 ^ 64 + 1) (2 ^ 64 - 2) Hc ltac:(lia) eq_refl eq_refl)
    as (_&Hcirc&_&_).
  exact (Hcirc 2 four_circular ltac:(lia)).
Defined.

(** ** Views through types *)

(** A flat queue over one element of the demonstration type: blocks of 8 bytes at 0 and
    16, of 4 bytes at 32. *)
Definition typed_start : wq_mem := mkWqMem {[50 := mkHeader 0 0]} ∅ demo_objects.

(** A producer's view through a type whose blocks are repeated: the queue offers 16
    bytes at the start of the buffer, of which the type has 8; after 4 of these are
    produced the place to go on is again the start of the block. *)
Theorem typed_pipe_departs : ∃ q s,
  configure_flat 2000 1000 PipeWorkQueue_new 50 10000 36 0 1000 NULL 7000 7100 typed_start = Ok (q, s) ∧
  (∃ s', bytesAvailableToProduce 1000 q s = Ok (16, s') ∧ bufferToProduce q s' = Ok 10000) ∧
  stream demo_prog 8 = 16 ∧
  ∃ s', produceBytes 1000 q 4 s = Ok s' ∧ bufferToProduce q s' = Ok 10000 ∧ stream demo_prog 4 = 4.
Proof.
  eexists _, _. split; [vm_compute; reflexivity|].
  split; [eexists; split; [vm_compute; reflexivity|by vm_compute]|].
  split; [by vm_compute|]. eexists. split; [vm_compute; reflexivity|]. split; by vm_compute.
Qed.

(** A clone of a queue resets the counters the two share, the bytes produced to what the
    new object's storage held. *)
Lemma clone_resets fuel junk q s P C : counts q s P C → pw_prod_tm q = NULL → pw_cons_tm q = NULL →
  ∃ q' s', clone fuel junk q s = Ok (q', s') ∧ wq_headers s' !! pw_sharedqueue q = Some (mkHeader junk 0).
Proof.
  intros Hc Hp Hct. unfold clone, reset, set_header, header, move_cursor. cbn. rewrite Hc, Hp, Hct.
  eexists _, _. split; [reflexivity|]. apply lookup_insert_eq.
Qed.

(** A circular queue over the caller's buffer keeps the counters its storage held. *)
Lemma circular_keeps_counters q sq buffer bufsize q' s :
  configure_circular q sq buffer bufsize = Ok q' → header q' s = of_option (wq_headers s !! sq).
Proof.
  unfold configure_circular. intros H. destruct (assert _) as [[]|]; [|discriminate H].
  by injection H as <-.
Qed.

(** A circular queue of one byte answers as a flat one: emptied, it takes no more. *)
Lemma one_byte_is_flat fuel buffer s : let q := mkPipe 1 0 0 buffer 50 NULL NULL in
  counts q s 1 1 → configure_circular PipeWorkQueue_new 50 buffer 1 = Ok q ∧
  bytesAvailableToProduce fuel q s = Ok (0, s).
Proof.
  intros q Hc. split; [by vm_compute|]. unfold bytesAvailableToProduce, header. rewrite Hc. done.
Qed.
