(* ===== verification/Topology.v ===== *)
(** Topologies, src/common/default/Topology.h: sets of tasks (or endpoints) as a single
    task, a range, a list, a rectangular segment of the torus or the axes through a
    task; their constructors and what they answer.  Conversions and set operations
    are in TopologyOps. *)
From S2P Require Import Prelude.

(** * Tasks, coordinates and arrays *)

(** [pami_network], and [pami_coord_t] seen as a torus coordinate. *)
Inductive pami_network :=
| PAMI_DEFAULT_NETWORK | PAMI_N_TORUS_NETWORK | PAMI_SOCKET_NETWORK | PAMI_SHMEM_NETWORK.

#[export] Instance pami_network_eq_dec : EqDecision pami_network.
Proof. solve_decision. Defined.

Record pami_coord_t := mkCoord { network : pami_network; coords : list Z }.

#[export] Instance pami_coord_eq_dec : EqDecision pami_coord_t.
Proof. solve_decision. Defined.

Definition net_coord (c : pami_coord_t) (n : nat) : Z := default 0 (coords c !! n).
Definition set_coord (n : nat) (v : Z) (c : pami_coord_t) : pami_coord_t :=
  mkCoord (network c) (<[n := v]> (coords c)).

(** The mapping of the platform: a class per platform under src/common, which a
    topology only calls.  A failed translation is [None]. *)
Record Mapping := mkMapping {
  torusDims : nat;
  globalDims : nat;
  torusSize : nat → Z;
  my_task : Z;
  task2network : Z → option pami_coord_t;
  network2task : pami_coord_t → option Z;
  isPeer : Z → Z → bool;
  nodePeers : Z;
  task2node : Z → Z * Z;
  numActiveNodes : Z;
  torusInformation : pami_coord_t → pami_coord_t → list Z;
  (** [PAMI_ENDPOINT_INIT] and [PAMI_ENDPOINT_INFO], macros of the platform. *)
  PAMI_ENDPOINT_INIT : Z → Z → Z → Z;
  PAMI_ENDPOINT_INFO : Z → Z * Z
}.

(** Arrays of tasks or endpoints (both [uint32_t]), by address. *)
Notation arrays := (gmap Z (list Z)).

(** An address where there is nothing; [malloc] may give any. *)
Definition next_address (s : arrays) : Z := 1 + foldr Z.max 0 (map_to_list s).*1.

Definition new_array (l : list Z) (s : arrays) : Z * arrays :=
  (next_address s, <[next_address s := l]> s).

Definition free_array (a : Z) (s : arrays) : res arrays :=
  _ ← of_option (s !! a); mret (delete a s).

(** [array[k++] = x] in an array of [cap] elements. *)
Definition put (cap : Z) (l : list Z) (x : Z) : res (list Z) :=
  defined (Z.of_nat (length l) <? cap);; mret (l ++ [x]).

Fixpoint foldM {A B} (f : A → B → res A) (a : A) (l : list B) : res A :=
  match l with [] => mret a | x :: l => a ← f a x; foldM f a l end.

(** * Representation *)

Inductive pami_topology_type_t :=
| PAMI_EMPTY_TOPOLOGY | PAMI_SINGLE_TOPOLOGY | PAMI_RANGE_TOPOLOGY | PAMI_LIST_TOPOLOGY
| PAMI_COORD_TOPOLOGY | PAMI_AXIAL_TOPOLOGY | PAMI_EPLIST_TOPOLOGY.

#[export] Instance pami_topology_type_eq_dec : EqDecision pami_topology_type_t.
Proof. solve_decision. Defined.

Record rectseg := mkRect { llcorner : pami_coord_t; urcorner : pami_coord_t; istorus : list Z }.

(** The union, by the member last written; [_ranklist] and [_eplist] are both pointers
    to arrays of [uint32_t], and the code uses one for the other. *)
Inductive topology_u :=
| u_none
| u_rank (rank : Z)
| u_rankrange (first last : Z)
| u_list (address : Z)
| u_rectseg (r : rectseg)
| u_axial (r : rectseg) (ref_task : pami_coord_t).

Record Topology := mkTopology {
  t_size : Z; t_type : pami_topology_type_t; t_offset : Z; t_all_contexts : bool;
  t_topo : topology_u; t_free_ranklist : bool; t_client : Z
}.

(** What the assignments of an operation leave alone stays. *)
Definition build (t : Topology) (type : pami_topology_type_t) (topo : topology_u) (size : Z)
    (free_ranklist : bool) : Topology :=
  mkTopology size type (t_offset t) (t_all_contexts t) topo free_ranklist (t_client t).

Definition set_contexts (t : Topology) (offset : Z) (all_contexts : bool) : Topology :=
  mkTopology (t_size t) (t_type t) offset all_contexts (t_topo t) (t_free_ranklist t) (t_client t).

(** [topo_rank], [topo_first], [topo_last], [topo_ranklist], [topo_axial]: reading
    another member than the one written is undefined. *)
Definition topo_rank (t : Topology) : res Z :=
  match t_topo t with u_rank r => Ok r | _ => Err Fault end.
Definition topo_rankrange (t : Topology) : res (Z * Z) :=
  match t_topo t with u_rankrange f l => Ok (f, l) | _ => Err Fault end.
Definition topo_ranklist (t : Topology) : res Z :=
  match t_topo t with u_list a => Ok a | _ => Err Fault end.
Definition topo_axial (t : Topology) : res (rectseg * pami_coord_t) :=
  match t_topo t with u_axial r c => Ok (r, c) | _ => Err Fault end.

(** [topo_llcoord], [topo_urcoord]: the rectangle is also the first member of [_axial]. *)
Definition topo_rect (t : Topology) : res rectseg :=
  match t_topo t with u_rectseg r | u_axial r _ => Ok r | _ => Err Fault end.

(** [topo_list(0) ... topo_list(__size - 1)]. *)
Definition topo_items (t : Topology) (s : arrays) : res (list Z) :=
  a ← topo_ranklist t;
  l ← of_option (s !! a);
  defined (t_size t <=? Z.of_nat (length l));;
  mret (take (Z.to_nat (t_size t)) l).

(** [for (r = first; r <= last; ++r)] on 32-bit tasks: it never ends when [last] is the
    largest one. *)
Definition task_range (first last : Z) : res (list Z) :=
  if last =? 2 ^ 32 - 1 then Err NoFuel else mret (seqZ first (last - first + 1)).

Section topology.
Context (mapping : Mapping) (junk_client : Z).

Definition dims : nat := globalDims mapping.

(** [RANK2COORDS] and [COORDS2RANK]; a failure of the second leaves [rank] alone. *)
Definition RANK2COORDS (rank : Z) : res pami_coord_t := of_option (task2network mapping rank).
Definition COORDS2RANK (c : pami_coord_t) (rank : Z) : Z := default rank (network2task mapping c).
Definition IS_LOCAL_PEER (rank : Z) : bool := isPeer mapping (my_task mapping) rank.

(** [my_coords], which [static_init] sets. *)
Definition MY_COORDS : res pami_coord_t := RANK2COORDS (my_task mapping).

(** * Coordinates *)

Definition isLocalCoord (c0 c1 : pami_coord_t) : bool :=
  forallb (λ x, net_coord c0 x =? net_coord c1 x) (seq 0 (torusDims mapping)).

Definition isMemberCoord (r : rectseg) (c0 : pami_coord_t) (ndims : nat) : bool :=
  forallb (λ x, negb ((net_coord c0 x <? net_coord (llcorner r) x) ||
                      (net_coord (urcorner r) x <? net_coord c0 x))) (seq 0 ndims).

(** From the last dimension to the first. *)
Fixpoint nextCoord (r : rectseg) (c0 : pami_coord_t) (ndims : nat) : pami_coord_t * bool :=
  match ndims with
  | O => (c0, false)
  | S x =>
      let c0 := set_coord x (w64 (net_coord c0 x + 1)) c0 in
      if net_coord c0 x <=? net_coord (urcorner r) x then (c0, true)
      else nextCoord r (set_coord x (net_coord (llcorner r) x) c0) x
  end.

(** Dimensions from [ndims] on are not initialised. *)
Definition initRange (c0 : pami_coord_t) (ndims : nat) : pami_coord_t * pami_coord_t :=
  (mkCoord PAMI_N_TORUS_NETWORK (take ndims (coords c0)),
   mkCoord PAMI_N_TORUS_NETWORK (take ndims (coords c0))).

Definition sizeRange (ll ur : pami_coord_t) (ndims : nat) : Z :=
  foldl (λ s x, w64 (s * w32 (net_coord ur x - net_coord ll x + 1))) 1 (seq 0 ndims).

Definition bumpRange (llur : pami_coord_t * pami_coord_t) (c0 : pami_coord_t) (ndims : nat) :
    pami_coord_t * pami_coord_t :=
  foldl (λ '(ll, ur) x,
    if net_coord c0 x <? net_coord ll x then (set_coord x (net_coord c0 x) ll, ur)
    else if net_coord ur x <? net_coord c0 x then (ll, set_coord x (net_coord c0 x) ur)
    else (ll, ur)) llur (seq 0 ndims).

Definition coordLT (c0 c1 : pami_coord_t) (ndims : nat) : bool :=
  forallb (λ x, negb (net_coord c1 x <=? net_coord c0 x)) (seq 0 ndims).

(** [_new] keeps its network and its other dimensions. *)
Definition coordMAX (new c0 c1 : pami_coord_t) (ndims : nat) : pami_coord_t :=
  mkCoord (network new)
    (((λ x, if net_coord c1 x <? net_coord c0 x then net_coord c0 x else net_coord c1 x)
       <$> seq 0 ndims) ++ drop ndims (coords new)).
Definition coordMIN (new c0 c1 : pami_coord_t) (ndims : nat) : pami_coord_t :=
  mkCoord (network new)
    (((λ x, if net_coord c0 x <? net_coord c1 x then net_coord c0 x else net_coord c1 x)
       <$> seq 0 ndims) ++ drop ndims (coords new)).

(** The [do ... while (more && __nextCoord(&c0, globalDims))] loops over a segment. *)
Fixpoint coord_loop {A} (body : A → pami_coord_t → res A) (more : A → bool) (fuel : nat)
    (r : rectseg) (c0 : pami_coord_t) (a : A) : res A :=
  match fuel with
  | O => Err NoFuel
  | S fuel =>
      a ← body a c0;
      if more a then
        let '(c0, again) := nextCoord r c0 dims in
        if (again : bool) then coord_loop body more fuel r c0 a else mret a
      else mret a
  end.

(** As many iterations as a segment has coordinates, at most. *)
Definition loop_fuel (r : rectseg) : nat :=
  S (Z.to_nat (foldl (λ s x, s * Z.max 1 (net_coord (urcorner r) x - net_coord (llcorner r) x + 1))
    1 (seq 0 dims))).

Definition always {A} (a : A) : bool := true.

(** * Constructors *)

Definition new_topology (type : pami_topology_type_t) (topo : topology_u) (size offset : Z)
    (all_contexts : bool) : Topology :=
  mkTopology size type offset all_contexts topo false junk_client.

Definition Topology_empty : Topology := new_topology PAMI_EMPTY_TOPOLOGY u_none 0 0 false.

Definition torus_corner (c : pami_coord_t) : pami_coord_t := mkCoord PAMI_N_TORUS_NETWORK (coords c).

(** The torus flags given, or those of the mapping. *)
Definition flags (tl : option (list Z)) (ll ur : pami_coord_t) : list Z :=
  match tl with Some tl => take dims tl | None => torusInformation mapping ll ur end.

Definition Topology_rect (ll ur : pami_coord_t) (tl : option (list Z)) : Topology :=
  let ll' := torus_corner ll in let ur' := torus_corner ur in
  new_topology PAMI_COORD_TOPOLOGY (u_rectseg (mkRect ll' ur' (flags tl ll' ur')))
    (sizeRange ll ur dims) 0 false.

Definition Topology_axial (ll ur ref : pami_coord_t) (tl : option (list Z)) : Topology :=
  let ll' := torus_corner ll in let ur' := torus_corner ur in
  let size := foldl (λ s x,
    w64 (s + w64 (torusSize mapping x + net_coord ur x - net_coord ll x) `mod` torusSize mapping x))
    1 (seq 0 dims) in
  new_topology PAMI_AXIAL_TOPOLOGY (u_axial (mkRect ll' ur' (flags tl ll' ur')) ref) size 0 false.

Definition Topology_single (rank : Z) : Topology :=
  new_topology PAMI_SINGLE_TOPOLOGY (u_rank rank) 1 0 false.

Definition Topology_range (rank0 rankn : Z) : Topology :=
  new_topology PAMI_RANGE_TOPOLOGY (u_rankrange rank0 rankn) (w32 (rankn - rank0 + 1)) 0 false.

Definition PAMI_ALL_CONTEXTS : Z := 2 ^ 64 - 1.

(** [__offset] and [__all_contexts]. *)
Definition contexts (context_offset ncontexts : Z) : Z * bool :=
  if context_offset =? PAMI_ALL_CONTEXTS then (ncontexts, true) else (context_offset, false).

Definition Topology_eprange (rank0 rankn context_offset ncontexts : Z) : Topology :=
  let '(offset, all) := contexts context_offset ncontexts in
  new_topology PAMI_RANGE_TOPOLOGY (u_rankrange rank0 rankn) (w32 (rankn - rank0 + 1)) offset all.

Definition Topology_list (ranks nranks context_offset ncontexts : Z) : Topology :=
  let '(offset, all) := contexts context_offset ncontexts in
  new_topology PAMI_LIST_TOPOLOGY (u_list ranks) nranks offset all.

Definition Topology_eplist (eps neps : Z) : Topology :=
  new_topology PAMI_EPLIST_TOPOLOGY (u_list eps) neps 0 false.

(** The copies: a list gets an array of its own. *)
Definition clone (t : Topology) (s : arrays) : res (Topology * arrays) :=
  match t_type t with
  | PAMI_LIST_TOPOLOGY | PAMI_EPLIST_TOPOLOGY =>
      l ← topo_items t s;
      let '(a, s) := new_array l s in
      mret (build t (t_type t) (u_list a) (t_size t) true, s)
  | _ => mret (build t (t_type t) (t_topo t) (t_size t) false, s)
  end.

(** [*_new = *this]; what [_new] had is not freed. *)
Definition assign (new t : Topology) (s : arrays) : res (Topology * arrays) := clone t s.

Definition finalize (t : Topology) (s : arrays) : res (Topology * arrays) :=
  if t_free_ranklist t then
    a ← topo_ranklist t;
    s ← free_array a s;
    mret (build t (t_type t) (u_list 0) (t_size t) false, s)
  else mret (t, s).

(** * Queries *)

Definition size (t : Topology) : Z :=
  if t_all_contexts t then w64 (t_size t * t_offset t) else t_size t.

Definition type (t : Topology) : pami_topology_type_t := t_type t.

(** [(pami_task_t) -1], [(size_t) -1]. *)
Definition no_task : Z := 2 ^ 32 - 1.
Definition no_index : Z := 2 ^ 64 - 1.

(** The loop of [index2Rank] over the dimensions of a segment, the last one first. *)
Fixpoint index_coord (r : rectseg) (x : nat) (ix : Z) (c0 : pami_coord_t) : res pami_coord_t :=
  match x with
  | O => mret c0
  | S x =>
      if 0 <? ix then
        let ll := w32 (net_coord (llcorner r) x) in
        let ur := w32 (net_coord (urcorner r) x) in
        let nn := w32 (ur - ll + 1) in
        defined (negb (nn =? 0));;
        index_coord r x (ix / nn) (set_coord x (w64 (ll + ix `mod` nn)) c0)
      else mret c0
  end.

(** The loop over the axes: up from the centre to the upper corner, then down to the
    lower one. *)
Fixpoint index_axial (r : rectseg) (center : pami_coord_t) (xs : list nat) (ix : Z)
    (c0 : pami_coord_t) : pami_coord_t :=
  match xs with
  | [] => c0
  | x :: xs =>
      if 0 <? ix then
        let ll := w32 (net_coord (llcorner r) x) in
        let ur := w32 (net_coord (urcorner r) x) in
        let ts := torusSize mapping x in
        let nn := w32 (w64 (ts + ur - net_coord center x) `mod` ts) in
        if ix <=? nn then set_coord x (w64 (net_coord c0 x + ix) `mod` ts) c0
        else
          let ix := ix - nn in
          let nn := w32 (w64 (ts + net_coord center x - ll) `mod` ts) in
          if ix <=? nn then set_coord x (w64 (ts + net_coord c0 x - ix) `mod` ts) c0
          else index_axial r center xs (ix - nn) c0
      else c0
  end.

Definition index2Rank (t : Topology) (ix : Z) (s : arrays) : res Z :=
  ix ← (if t_all_contexts t && bool_decide (t_type t ≠ PAMI_EPLIST_TOPOLOGY)
        then defined (negb (t_offset t =? 0));; mret (ix / t_offset t) else mret ix);
  if ix <? t_size t then
    match t_type t with
    | PAMI_EPLIST_TOPOLOGY =>
        l ← topo_items t s; ep ← of_option (l !! Z.to_nat ix);
        mret (PAMI_ENDPOINT_INFO mapping ep).1
    | PAMI_SINGLE_TOPOLOGY => topo_rank t
    | PAMI_RANGE_TOPOLOGY => '(first, _) ← topo_rankrange t; mret (w32 (first + ix))
    | PAMI_LIST_TOPOLOGY => l ← topo_items t s; of_option (l !! Z.to_nat ix)
    | PAMI_AXIAL_TOPOLOGY =>
        '(r, center) ← topo_axial t;
        mret (COORDS2RANK (index_axial r center (seq 0 dims) ix center) 0)
    | PAMI_COORD_TOPOLOGY =>
        r ← topo_rect t;
        c0 ← index_coord r dims ix (llcorner r);
        mret (COORDS2RANK c0 0)
    | PAMI_EMPTY_TOPOLOGY => mret no_task
    end
  else mret no_task.

(** The first index at which a list holds a value. *)
Fixpoint find_index (v : Z) (l : list Z) : option Z :=
  match l with
  | [] => None
  | x :: l => if x =? v then Some 0 else Z.add 1 <$> find_index v l
  end.

(** The loops of [rank2Index]: over the axes, and over the dimensions of a segment. *)
Fixpoint axial_index (r : rectseg) (center c0 : pami_coord_t) (xs : list nat) (ix : Z) : Z :=
  match xs with
  | [] => 0
  | x :: xs =>
      let ll := w32 (net_coord (llcorner r) x) in
      let ur := w32 (net_coord (urcorner r) x) in
      if net_coord c0 x =? net_coord center x then
        axial_index r center c0 xs (w64 (ix + w32 (ur - ll)))
      else if net_coord center x <? net_coord c0 x then
        w64 (ix + (net_coord c0 x - net_coord center x))
      else w64 (ix + ((ur - net_coord center x) + (net_coord center x - net_coord c0 x)))
  end.

Fixpoint coord_index (r : rectseg) (c0 : pami_coord_t) (xs : list nat) (ix : Z) : Z :=
  match xs with
  | [] => ix
  | x :: xs =>
      let ll := w32 (net_coord (llcorner r) x) in
      let ur := w32 (net_coord (urcorner r) x) in
      if (net_coord c0 x <? ll) || (ur <? net_coord c0 x) then no_index
      else coord_index r c0 xs (w64 (ix * w32 (ur - ll + 1) + (net_coord c0 x - ll)))
  end.

Definition rank2Index (t : Topology) (rank : Z) (s : arrays) : res Z :=
  match t_type t with
  | PAMI_SINGLE_TOPOLOGY => r ← topo_rank t; mret (if r =? rank then 0 else no_index)
  | PAMI_RANGE_TOPOLOGY =>
      '(first, last) ← topo_rankrange t;
      mret (if (first <=? rank) && (rank <=? last) then rank - first else no_index)
  | PAMI_LIST_TOPOLOGY => l ← topo_items t s; mret (default no_index (find_index rank l))
  | PAMI_AXIAL_TOPOLOGY =>
      '(r, center) ← topo_axial t;
      c0 ← RANK2COORDS rank;
      mret (axial_index r center c0 (seq 0 dims) 0)
  | PAMI_COORD_TOPOLOGY =>
      r ← topo_rect t;
      c0 ← RANK2COORDS rank;
      mret (coord_index r c0 (seq 0 dims) 0)
  | _ => mret no_index
  end.

Definition index2PermutedIndex (t : Topology) (index : Z) (s : arrays) : res Z :=
  if index <? t_size t then
    me ← rank2Index t (my_task mapping) s;
    let index := w64 (index + me) in
    mret (if index <? t_size t then index else w64 (index - t_size t))
  else mret no_index.

(** Errors are [None] ([PAMI_UNIMPL]). *)
Definition rankRange (t : Topology) : res (option (Z * Z)) :=
  match t_type t with
  | PAMI_RANGE_TOPOLOGY => r ← topo_rankrange t; mret (Some r)
  | _ => mret None
  end.

(** The contents of the array returned: for a single task, its own storage. *)
Definition rankList (t : Topology) (s : arrays) : res (option (list Z)) :=
  match t_type t with
  | PAMI_LIST_TOPOLOGY => l ← topo_items t s; mret (Some l)
  | PAMI_SINGLE_TOPOLOGY => r ← topo_rank t; mret (Some [r])
  | PAMI_EPLIST_TOPOLOGY => Err Aborted
  | _ => mret None
  end.

Definition list_ (t : Topology) (s : arrays) : res (option (list Z)) :=
  match t_type t with
  | PAMI_EPLIST_TOPOLOGY | PAMI_LIST_TOPOLOGY => l ← topo_items t s; mret (Some l)
  | PAMI_SINGLE_TOPOLOGY => r ← topo_rank t; mret (Some [r])
  | _ => mret None
  end.

Definition axial (t : Topology) : res (option (rectseg * pami_coord_t)) :=
  match t_type t with
  | PAMI_AXIAL_TOPOLOGY => r ← topo_axial t; mret (Some r)
  | _ => mret None
  end.

Definition rectSeg (t : Topology) : res (option rectseg) :=
  match t_type t with
  | PAMI_COORD_TOPOLOGY => r ← topo_rect t; mret (Some r)
  | _ => mret None
  end.

Definition isRectSeg (t : Topology) : bool := bool_decide (t_type t = PAMI_COORD_TOPOLOGY).

(** The first and last coordinate and the flag of a dimension: the branch for an axial
    topology tests for a segment again. *)
Definition getNthDims (t : Topology) (n : nat) : res (option (Z * Z * Z)) :=
  match t_type t with
  | PAMI_COORD_TOPOLOGY =>
      r ← topo_rect t;
      mret (Some (w32 (net_coord (llcorner r) n), w32 (net_coord (urcorner r) n),
                  default 0 (istorus r !! n)))
  | _ => mret None
  end.

(** All the tasks of a list on the node of the first one. *)
Definition all_local (l : list Z) : res bool :=
  match l with
  | [] => Err Fault
  | r :: rs =>
      c0 ← RANK2COORDS r;
      foldM (λ ok r, if (ok : bool) then c1 ← RANK2COORDS r; mret (isLocalCoord c0 c1) else mret ok) true rs
  end.

Definition isLocal (t : Topology) (s : arrays) : res bool :=
  match t_type t with
  | PAMI_COORD_TOPOLOGY => r ← topo_rect t; mret (isLocalCoord (llcorner r) (urcorner r))
  | PAMI_SINGLE_TOPOLOGY => mret true
  | PAMI_RANGE_TOPOLOGY =>
      '(first, last) ← topo_rankrange t; l ← task_range first last; all_local l
  | PAMI_LIST_TOPOLOGY => l ← topo_items t s; all_local l
  | _ => mret false
  end.

Definition isLocalToMe (t : Topology) (s : arrays) : res bool :=
  match t_type t with
  | PAMI_COORD_TOPOLOGY =>
      r ← topo_rect t;
      me ← MY_COORDS;
      mret (isLocalCoord (llcorner r) (urcorner r) && isLocalCoord me (llcorner r))
  | PAMI_SINGLE_TOPOLOGY => r ← topo_rank t; mret (IS_LOCAL_PEER r)
  | PAMI_RANGE_TOPOLOGY =>
      '(first, last) ← topo_rankrange t; l ← task_range first last;
      mret (forallb IS_LOCAL_PEER l)
  | PAMI_LIST_TOPOLOGY => l ← topo_items t s; mret (forallb IS_LOCAL_PEER l)
  | _ => mret false
  end.

Definition isGlobal (t : Topology) : res bool := Err Aborted.

Definition isRankMember (t : Topology) (rank : Z) (s : arrays) : res bool :=
  match t_type t with
  | PAMI_COORD_TOPOLOGY | PAMI_AXIAL_TOPOLOGY =>
      c0 ← RANK2COORDS rank;
      r ← topo_rect t;
      mret (isMemberCoord r c0 dims)
  | PAMI_SINGLE_TOPOLOGY => r ← topo_rank t; mret (rank =? r)
  | PAMI_RANGE_TOPOLOGY =>
      '(first, last) ← topo_rankrange t; mret ((first <=? rank) && (rank <=? last))
  | PAMI_LIST_TOPOLOGY => l ← topo_items t s; mret (existsb (Z.eqb rank) l)
  | PAMI_EPLIST_TOPOLOGY =>
      l ← topo_items t s;
      let ep := PAMI_ENDPOINT_INIT mapping (t_client t) rank
                  (if t_all_contexts t then 0 else t_offset t) in
      mret (existsb (Z.eqb ep) l)
  | PAMI_EMPTY_TOPOLOGY => mret false
  end.

Definition isCoordMember (t : Topology) (c0 : pami_coord_t) (s : arrays) : res bool :=
  match t_type t with
  | PAMI_COORD_TOPOLOGY => r ← topo_rect t; mret (isMemberCoord r c0 dims)
  | PAMI_EMPTY_TOPOLOGY => mret false
  | _ => isRankMember t (COORDS2RANK c0 0) s
  end.

(** * Endpoints *)

Definition setClient (t : Topology) (c : Z) : Topology :=
  mkTopology (t_size t) (t_type t) (t_offset t) (t_all_contexts t) (t_topo t) (t_free_ranklist t) c.

Definition endpoint2Index (t : Topology) (ep : Z) (s : arrays) : res Z :=
  match t_type t with
  | PAMI_EPLIST_TOPOLOGY => l ← topo_items t s; mret (default no_index (find_index ep l))
  | _ =>
      let '(task, offset) := PAMI_ENDPOINT_INFO mapping ep in
      ix ← rank2Index t task s;
      mret (if t_all_contexts t then w64 (ix * t_offset t + offset) else ix)
  end.

Definition index2Endpoint (t : Topology) (ordinal : Z) (s : arrays) : res Z :=
  match t_type t with
  | PAMI_EPLIST_TOPOLOGY => l ← topo_items t s; of_option (l !! Z.to_nat ordinal)
  | _ =>
      task ← index2Rank t ordinal s;
      if t_all_contexts t then
        defined (negb (t_offset t =? 0));;
        mret (PAMI_ENDPOINT_INIT mapping (t_client t) task (ordinal `mod` t_offset t))
      else mret (PAMI_ENDPOINT_INIT mapping (t_client t) task (t_offset t))
  end.

Definition rankContext2Endpoint (t : Topology) (task offset : Z) : Z :=
  PAMI_ENDPOINT_INIT mapping (t_client t) task offset.

(** [for (i = 0; i < size(); i++)]. *)
Definition isEndpointMember (t : Topology) (endpoint : Z) (s : arrays) : res bool :=
  foldM (λ found i, if (found : bool) then mret found else
    ep ← index2Endpoint t (Z.of_nat i) s; mret (endpoint =? ep)) false (seq 0 (Z.to_nat (size t))).

Definition isContextOffset (t : Topology) (slice : Z) : bool :=
  (t_offset t =? slice) && bool_decide (t_type t ≠ PAMI_EPLIST_TOPOLOGY).

(** [rc = COORDS2RANK(&c0, &rank); ranks[x++] = rank], in an array of [cap]. *)
Definition put_rank (cap : Z) (a : list Z * Z) (c0 : pami_coord_t) : res (list Z * Z) :=
  let rank := COORDS2RANK c0 a.2 in
  l ← put cap a.1 rank;
  mret (l, rank).

(** The array the caller gives has [max] elements; [nranks] may be more. *)
Definition getRankList (t : Topology) (max : Z) (s : arrays) : res (list Z * Z) :=
  let n := t_size t in
  assert (negb (max =? 0));;
  match t_type t with
  | PAMI_LIST_TOPOLOGY => l ← topo_items t s; mret (take (Z.to_nat max) l, n)
  | PAMI_EPLIST_TOPOLOGY =>
      l ← foldM (λ l i, r ← index2Rank t (Z.of_nat i) s; mret (l ++ [r])) []
            (seq 0 (Z.to_nat (Z.min n max)));
      mret (l, n)
  | PAMI_COORD_TOPOLOGY =>
      r ← topo_rect t;
      let c0 := mkCoord PAMI_N_TORUS_NETWORK (take dims (coords (llcorner r))) in
      '(l, _) ← coord_loop (put_rank max) (λ a, Z.of_nat (length a.1) <? max)
        (loop_fuel r) r c0 ([], 0);
      mret (l, n)
  | PAMI_SINGLE_TOPOLOGY => r ← topo_rank t; mret ([r], n)
  | PAMI_RANGE_TOPOLOGY =>
      '(first, last) ← topo_rankrange t;
      mret (seqZ first (Z.min (last - first + 1) max), n)
  | _ => mret ([], n)
  end.

End topology.
