(* ===== verification/TopologyOps.v ===== *)
(** Operations that make topologies from topologies, src/common/default/Topology.h: the
    analysis and conversion of a representation, sub-topologies, intersection and
    difference.  [_new] is the object the caller gives: what an operation does not
    assign stays as it was. *)
From S2P Require Import Prelude.
From S2P Require Import Topology.

Section operations.
Context (mapping : Mapping).

Notation dims := (dims mapping).
Notation RANK2COORDS := (RANK2COORDS mapping).
Notation COORDS2RANK := (COORDS2RANK mapping).
Notation IS_LOCAL_PEER := (IS_LOCAL_PEER mapping).

Definition empty (new : Topology) : Topology := build new PAMI_EMPTY_TOPOLOGY (t_topo new) 0 false.

Definition rect_of (ll ur : pami_coord_t) : topology_u :=
  u_rectseg (mkRect ll ur (torusInformation mapping ll ur)).

(** * Analysis *)

(** The smallest segment around the tasks of a list. *)
Definition bounds_of (l : list Z) : res (pami_coord_t * pami_coord_t) :=
  match l with
  | [] => Err Fault
  | r :: rs =>
      c0 ← RANK2COORDS r;
      foldM (λ llur r, c0 ← RANK2COORDS r; mret (bumpRange llur c0 dims)) (initRange c0 dims) rs
  end.

Definition analyzeCoordsRange (t : Topology) : res (Topology * bool) :=
  '(first, last) ← topo_rankrange t;
  l ← task_range first last;
  '(ll, ur) ← bounds_of l;
  if sizeRange ll ur dims =? t_size t then
    mret (build t PAMI_COORD_TOPOLOGY (rect_of ll ur) (t_size t) (t_free_ranklist t), true)
  else mret (t, false).

(** The array goes when the topology owns it. *)
Definition drop_list (t : Topology) (s : arrays) : res arrays :=
  if t_free_ranklist t then a ← topo_ranklist t; free_array a s else mret s.

Definition analyzeCoordsList (t : Topology) (s : arrays) : res (Topology * arrays * bool) :=
  l ← topo_items t s;
  '(ll, ur) ← bounds_of l;
  if sizeRange ll ur dims =? t_size t then
    s ← drop_list t s;
    mret (build t PAMI_COORD_TOPOLOGY (rect_of ll ur) (t_size t) false, s, true)
  else mret (t, s, false).

(** The smallest and the largest of a list. *)
Definition min_max (l : list Z) : res (Z * Z) :=
  match l with
  | [] => Err Fault
  | r :: rs => mret (foldl (λ '(min, max) r,
      if r <? min then (r, max) else if max <? r then (min, r) else (min, max)) (r, r) rs)
  end.

Definition analyzeRangeList (t : Topology) (s : arrays) : res (Topology * arrays * bool) :=
  l ← topo_items t s;
  '(min, max) ← min_max l;
  if t_size t =? w32 (max - min + 1) then
    s ← drop_list t s;
    mret (build t PAMI_RANGE_TOPOLOGY (u_rankrange min max) (t_size t) false, s, true)
  else mret (t, s, false).

(** The first branch tests for a list where it means a segment: the union of a list is
    read as a corner. *)
Definition analyzeTopology (t : Topology) (s : arrays) : res (Topology * arrays * bool) :=
  if (t_size t =? 1) && bool_decide (t_type t ≠ PAMI_SINGLE_TOPOLOGY) then
    match t_type t with
    | PAMI_LIST_TOPOLOGY =>
        r ← topo_rect t;
        mret (build t PAMI_SINGLE_TOPOLOGY (u_rank (COORDS2RANK (llcorner r) 0)) (t_size t)
                (t_free_ranklist t), s, true)
    | PAMI_RANGE_TOPOLOGY =>
        '(first, _) ← topo_rankrange t;
        mret (build t PAMI_SINGLE_TOPOLOGY (u_rank first) (t_size t) (t_free_ranklist t), s, true)
    | _ => mret (t, s, false)
    end
  else match t_type t with
    | PAMI_LIST_TOPOLOGY =>
        '(t, s, changed) ← analyzeCoordsList t s;
        if (changed : bool) then mret (t, s, true) else analyzeRangeList t s
    | PAMI_RANGE_TOPOLOGY => '(t, changed) ← analyzeCoordsRange t; mret (t, s, changed)
    | _ => mret (t, s, false)
    end.

(** * Conversion *)

(** The ranks of a segment, in an array of [cap] elements. *)
Definition segment_ranks (cap : Z) (r : rectseg) : res (list Z) :=
  '(l, _) ← coord_loop mapping (put_rank mapping cap) always (loop_fuel mapping r) r
    (llcorner r) ([], 0);
  mret l.

(** [if(rank < min) min = rank; if(rank > max) max = rank;]. *)
Definition widen (a : Z * Z) (rank : Z) : Z * Z :=
  (if rank <? a.1 then rank else a.1, if a.2 <? rank then rank else a.2).

Definition widen_rank (a : Z * Z * Z) (c0 : pami_coord_t) : res (Z * Z * Z) :=
  let rank := COORDS2RANK c0 a.2 in mret (widen a.1 rank, rank).

Definition segment_min_max (r : rectseg) : res (Z * Z) :=
  '(min, max, _) ← coord_loop mapping widen_rank always (loop_fuel mapping r) r
    (llcorner r) (no_task, 0, 0);
  mret (min, max).

Definition owned (t : Topology) (l : list Z) (s : arrays) : Topology * arrays :=
  let '(a, s) := new_array l s in
  (build t PAMI_LIST_TOPOLOGY (u_list a) (t_size t) true, s).

Definition convertTopology (t : Topology) (new_type : pami_topology_type_t) (s : arrays) :
    res (Topology * arrays * bool) :=
  let same := mret (t, s, false) in
  match t_type t, new_type with
  | PAMI_SINGLE_TOPOLOGY, PAMI_COORD_TOPOLOGY =>
      rank ← topo_rank t;
      c0 ← RANK2COORDS rank;
      mret (build t PAMI_COORD_TOPOLOGY (rect_of c0 c0) (t_size t) (t_free_ranklist t), s, true)
  | PAMI_SINGLE_TOPOLOGY, PAMI_RANGE_TOPOLOGY =>
      rank ← topo_rank t;
      mret (build t PAMI_RANGE_TOPOLOGY (u_rankrange rank rank) (t_size t) (t_free_ranklist t), s, true)
  | PAMI_SINGLE_TOPOLOGY, PAMI_LIST_TOPOLOGY =>
      rank ← topo_rank t;
      mret (owned t [rank] s, true)
  | PAMI_RANGE_TOPOLOGY, PAMI_COORD_TOPOLOGY =>
      '(t, changed) ← analyzeCoordsRange t; mret (t, s, changed)
  | PAMI_RANGE_TOPOLOGY, PAMI_SINGLE_TOPOLOGY =>
      if t_size t =? 1 then
        '(first, _) ← topo_rankrange t;
        mret (build t PAMI_SINGLE_TOPOLOGY (u_rank first) (t_size t) (t_free_ranklist t), s, true)
      else same
  | PAMI_RANGE_TOPOLOGY, PAMI_LIST_TOPOLOGY =>
      '(first, last) ← topo_rankrange t;
      l ← task_range first last;
      l ← foldM (put (t_size t)) [] l;
      mret (owned t l s, true)
  | PAMI_LIST_TOPOLOGY, PAMI_COORD_TOPOLOGY => analyzeCoordsList t s
  | PAMI_LIST_TOPOLOGY, PAMI_SINGLE_TOPOLOGY =>
      if t_size t =? 1 then
        s ← drop_list t s;
        l ← topo_items t s;
        rank ← of_option (head l);
        mret (build t PAMI_SINGLE_TOPOLOGY (u_rank rank) (t_size t) false, s, true)
      else same
  | PAMI_LIST_TOPOLOGY, PAMI_RANGE_TOPOLOGY => analyzeRangeList t s
  | PAMI_COORD_TOPOLOGY, PAMI_SINGLE_TOPOLOGY =>
      if t_size t =? 1 then
        r ← topo_rect t;
        mret (build t PAMI_SINGLE_TOPOLOGY (u_rank (COORDS2RANK (llcorner r) 0)) (t_size t)
                (t_free_ranklist t), s, true)
      else same
  | PAMI_COORD_TOPOLOGY, PAMI_LIST_TOPOLOGY =>
      r ← topo_rect t;
      l ← segment_ranks (t_size t) r;
      mret (owned t l s, true)
  | PAMI_COORD_TOPOLOGY, PAMI_RANGE_TOPOLOGY =>
      r ← topo_rect t;
      '(min, max) ← segment_min_max r;
      if t_size t =? w32 (max - min + 1) then
        mret (build t PAMI_RANGE_TOPOLOGY (u_rankrange min max) (t_size t) (t_free_ranklist t), s, true)
      else same
  | _, _ => same
  end.

(** * Sub-topologies *)

(** Dimensions from [torusDims] to [globalDims]: the processes of a node. *)
Definition local_dims : list nat := seq (torusDims mapping) (dims - torusDims mapping).

(** My node's coordinates, with the local dimensions of the topology. *)
Definition local_corner (me corner : pami_coord_t) : pami_coord_t :=
  foldl (λ c x, set_coord x (net_coord corner x) c) me local_dims.

Definition local_rect (me : pami_coord_t) (r : rectseg) : rectseg :=
  mkRect (local_corner me (llcorner r)) (local_corner me (urcorner r))
    (replicate (torusDims mapping) 0 ++ map (λ x, default 0 (istorus r !! x)) local_dims).

Definition local_size (r : rectseg) : Z :=
  foldl (λ s x, w64 (s * w64 (net_coord (urcorner r) x - net_coord (llcorner r) x + 1))) 1 local_dims.

Definition axial_local_size (r : rectseg) : Z :=
  foldl (λ s x, w64 ((if s =? 0 then 1 else s) *
                     w64 (net_coord (urcorner r) x - net_coord (llcorner r) x + 1))) 0 local_dims.

(** A list of endpoints without any local one still becomes a list. *)
Definition subTopologyLocalToMe (new t : Topology) (s : arrays) : res (Topology * arrays) :=
  match t_type t with
  | PAMI_COORD_TOPOLOGY =>
      r ← topo_rect t;
      me ← MY_COORDS mapping;
      if isMemberCoord r me (torusDims mapping) then
        mret (build new PAMI_COORD_TOPOLOGY (u_rectseg (local_rect me r)) (local_size r) false, s)
      else mret (empty new, s)
  | PAMI_AXIAL_TOPOLOGY =>
      r ← topo_rect t;
      me ← MY_COORDS mapping;
      if isMemberCoord r me (torusDims mapping) then
        let center := match t_topo new with u_axial _ c => c | _ => mkCoord PAMI_DEFAULT_NETWORK [] end in
        let size := axial_local_size r in
        mret (build new (if size =? 0 then PAMI_EMPTY_TOPOLOGY else PAMI_AXIAL_TOPOLOGY)
                (u_axial (local_rect me r) center) size false, s)
      else mret (empty new, s)
  | PAMI_SINGLE_TOPOLOGY =>
      rank ← topo_rank t;
      if IS_LOCAL_PEER rank then assign new t s else mret (empty new, s)
  | PAMI_EPLIST_TOPOLOGY =>
      l ← topo_items t s;
      let '(_, s) := new_array [] s in
      let '(a, s) := new_array (filter (λ ep, IS_LOCAL_PEER (PAMI_ENDPOINT_INFO mapping ep).1) l) s in
      let z := Z.of_nat (length (filter (λ ep, IS_LOCAL_PEER (PAMI_ENDPOINT_INFO mapping ep).1) l)) in
      mret (set_contexts (build new PAMI_EPLIST_TOPOLOGY (u_list a) z true) 0 false, s)
  | _ =>
      l ← (match t_type t with
           | PAMI_RANGE_TOPOLOGY => '(first, last) ← topo_rankrange t; task_range first last
           | PAMI_LIST_TOPOLOGY => topo_items t s
           | _ => mret []
           end);
      rl ← foldM (λ rl r, if IS_LOCAL_PEER r then put (nodePeers mapping) rl r else mret rl) [] l;
      match rl with
      | [] => mret (empty new, s)
      | _ =>
          let '(a, s) := new_array rl s in
          mret (set_contexts (build new PAMI_LIST_TOPOLOGY (u_list a) (Z.of_nat (length rl)) true)
                  (t_offset t) (t_all_contexts t), s)
      end
  end.

(** A C [int] from an [unsigned]. *)
Definition to_int (z : Z) : Z := if w32 z <? 2 ^ 31 then w32 z else w32 z - 2 ^ 32.

(** The slice of a segment: [n] in the mixed radix of the local dimensions, the first
    one least significant. *)
Fixpoint nth_slice (r : rectseg) (xs : list nat) (n : Z) (ll ur : pami_coord_t) :
    pami_coord_t * pami_coord_t * Z :=
  match xs with
  | [] => (ll, ur, n)
  | x :: xs =>
      let l := w32 (net_coord (llcorner r) x) in
      let u := w32 (net_coord (urcorner r) x) in
      let nn := to_int (u - l + 1) in
      let v := w32 (l + (if n <? nn then n else Z.rem n nn)) in
      nth_slice r xs (if n <? nn then 0 else Z.quot n nn) (set_coord x v ll) (set_coord x v ur)
  end.

Definition subTopologyNthGlobal_rect (new t : Topology) (n : Z) (s : arrays) : res (Topology * arrays) :=
  '(new, s) ← assign new t s;
  r ← topo_rect t;
  let size := sizeRange (llcorner r) (urcorner r) (torusDims mapping) in
  let '(ll, ur, n) := nth_slice r local_dims n (llcorner r) (urcorner r) in
  let topo := u_rectseg (mkRect ll ur (istorus r)) in
  mret (if n =? 0 then build new (t_type new) topo size false
        else build new PAMI_EMPTY_TOPOLOGY topo 0 false, s).

(** An entry of [tb]: the address of a node, how many of its members were seen, and
    the index of the one chosen (none yet: [None]). *)
Record tb_t := mkTb { tb_global : Z; tb_count : Z; tb_index : option nat }.

(** The body of the loop for the entry of the member's node; [rl] has [cap] elements
    and [k] of them are in use. *)
Definition nth_visit (n cap : Z) (local item : Z) (e : tb_t) (rl : list Z) : res (tb_t * list Z) :=
  '(e, rl) ← (if local =? n then
      match tb_index e with
      | None => rl' ← put cap rl item; mret (mkTb (tb_global e) (tb_count e) (Some (length rl)), rl')
      | Some i => mret (e, <[i := item]> rl)
      end
    else mret (e, rl));
  '(e, rl) ← (if (tb_count e =? n) && bool_decide (tb_index e = None) then
      rl' ← put cap rl item; mret (mkTb (tb_global e) (tb_count e) (Some (length rl)), rl')
    else mret (e, rl));
  mret (mkTb (tb_global e) (w64 (tb_count e + 1)) (tb_index e), rl).

(** The search of the node among the entries; a new entry at the end. *)
Fixpoint nth_node (n cap : Z) (global local item : Z) (tb : list tb_t) (rl : list Z) :
    res (list tb_t * list Z) :=
  match tb with
  | [] => '(e, rl) ← nth_visit n cap local item (mkTb global 0 None) rl; mret ([e], rl)
  | e :: tb =>
      if global =? tb_global e then
        '(e, rl) ← nth_visit n cap local item e rl; mret (e :: tb, rl)
      else '(tb, rl) ← nth_node n cap global local item tb rl; mret (e :: tb, rl)
  end.

(** The members in order, with the task of each. *)
Definition nth_items (n cap : Z) (items : list (Z * Z)) : res (list Z) :=
  '(_, rl) ← foldM (λ '(tb, rl) '(task, item),
      let '(global, local) := task2node mapping task in
      nth_node n cap global local item tb rl) ([], []) items;
  mret rl.

(** [n] is an [int]; [(size_t) n]. *)
Definition subTopologyNthGlobal (junk_client : Z) (new t : Topology) (n : Z) (s : arrays) :
    res (Topology * arrays) :=
  match t_type t with
  | PAMI_COORD_TOPOLOGY => subTopologyNthGlobal_rect new t n s
  | PAMI_EPLIST_TOPOLOGY =>
      let new := set_contexts new 0 false in
      assert (negb (t_size t =? 0));;
      l ← topo_items t s;
      rl ← nth_items (w64 n) (Z.min (t_size t) (numActiveNodes mapping))
             (map (λ ep, ((PAMI_ENDPOINT_INFO mapping ep).1, ep)) l);
      match rl with
      | [] => mret (empty new, s)
      | _ => let '(a, s) := new_array rl s in
             mret (build new PAMI_EPLIST_TOPOLOGY (u_list a) (Z.of_nat (length rl)) true, s)
      end
  | _ =>
      let new := set_contexts new 0 false in
      l ← foldM (λ l i, r ← index2Rank mapping t (Z.of_nat i) s; mret (l ++ [r])) []
            (seq 0 (Z.to_nat (size t)));
      rl ← nth_items (w64 n) (Z.min (size t) (numActiveNodes mapping)) (map (λ r, (r, r)) l);
      match rl with
      | [] => mret (empty new, s)
      | [r] => mret (build new PAMI_SINGLE_TOPOLOGY (u_rank r) 1 false, s)
      | _ => let '(a, s) := new_array rl s in
             mret (build new PAMI_LIST_TOPOLOGY (u_list a) (Z.of_nat (length rl)) true, s)
      end
  end.

(** [fmt] is -1 where a dimension stays. *)
Definition reduce_rect (fmt : pami_coord_t) (r : rectseg) : res (rectseg * Z) :=
  foldM (λ '(r', size) x,
    let ll := net_coord (llcorner r) x in
    let ur := net_coord (urcorner r) x in
    let f := net_coord fmt x in
    if f =? 2 ^ 64 - 1 then mret (r', w64 (size * w64 (ur - ll + 1)))
    else
      assert ((ll <=? f) && (f <=? ur));;
      mret (mkRect (set_coord x f (llcorner r')) (set_coord x f (urcorner r'))
              (<[x := 0]> (istorus r')), size)) (r, 1) (seq 0 dims).

Definition subTopologyReduceDims (new t : Topology) (fmt : pami_coord_t) (s : arrays) :
    res (Topology * arrays) :=
  match t_type t with
  | PAMI_COORD_TOPOLOGY =>
      '(new, s) ← assign new t s;
      r ← topo_rect t;
      '(r, size) ← reduce_rect fmt r;
      mret (build new (t_type new) (u_rectseg r) size false, s)
  | _ => mret (empty new, s)
  end.

(** * Set operations *)

Definition unionTopology (new t other : Topology) : res Topology := Err Aborted.

(** What [_new]'s union held where the new corner goes. *)
Definition old_corner (new : Topology) (corner : rectseg → pami_coord_t) : pami_coord_t :=
  match t_topo new with
  | u_rectseg r | u_axial r _ => corner r
  | _ => mkCoord PAMI_DEFAULT_NETWORK []
  end.

(** The elements of one list that are in another, in an array of [cap]. *)
Definition common (cap : Z) (l1 l2 : list Z) : res (list Z) :=
  foldM (λ rl x, foldM (λ rl y, if x =? y then put cap rl x else mret rl) rl l2) [] l1.

Definition single_if (b : bool) (new : Topology) (rank : Z) (s : arrays) : Topology * arrays :=
  (if b then build new PAMI_SINGLE_TOPOLOGY (u_rank rank) 1 false else empty new, s).

Definition intersectTopology (new t other : Topology) (s : arrays) : res (Topology * arrays) :=
  match t_type t, t_type other with
  | PAMI_COORD_TOPOLOGY, PAMI_COORD_TOPOLOGY =>
      r ← topo_rect t;
      r' ← topo_rect other;
      if coordLT (urcorner r) (llcorner r') dims || coordLT (urcorner r') (llcorner r) dims
      then mret (empty new, s)
      else
        let ll := coordMAX (old_corner new llcorner) (llcorner r) (llcorner r') dims in
        let ur := coordMIN (old_corner new urcorner) (urcorner r) (urcorner r') dims in
        mret (build new PAMI_COORD_TOPOLOGY (rect_of ll ur) (sizeRange ll ur dims) false, s)
  | PAMI_SINGLE_TOPOLOGY, PAMI_SINGLE_TOPOLOGY =>
      rank ← topo_rank t;
      rank' ← topo_rank other;
      mret (single_if (rank' =? rank) new rank s)
  | PAMI_RANGE_TOPOLOGY, PAMI_RANGE_TOPOLOGY =>
      '(first, last) ← topo_rankrange t;
      '(first', last') ← topo_rankrange other;
      if (last <? first') || (last' <? first) then mret (empty new, s)
      else
        let f := if first' <? first then first else first' in
        let l := if last <? last' then last else last' in
        mret (build new PAMI_RANGE_TOPOLOGY (u_rankrange f l) (w32 (l - f + 1)) false, s)
  | PAMI_LIST_TOPOLOGY, PAMI_LIST_TOPOLOGY =>
      l ← topo_items t s;
      l' ← topo_items other s;
      rl ← common (if t_size t <? t_size other then t_size t else t_size other) l l';
      match rl with
      | [] => mret (empty new, s)
      | _ => let '(a, s) := new_array rl s in
             mret (build new PAMI_LIST_TOPOLOGY (u_list a) (Z.of_nat (length rl)) true, s)
      end
  | PAMI_SINGLE_TOPOLOGY, _ =>
      rank ← topo_rank t;
      b ← isRankMember mapping other rank s;
      mret (single_if b new rank s)
  | _, PAMI_SINGLE_TOPOLOGY =>
      rank ← topo_rank other;
      b ← isRankMember mapping t rank s;
      mret (single_if b new rank s)
  | _, _ => mret (empty new, s)
  end.

(** [_new] as a single task or a list of an array of its own. *)
Definition from_ranks (new : Topology) (rl : list Z) (s : arrays) : Topology * arrays :=
  match rl with
  | [] => (build new PAMI_EMPTY_TOPOLOGY (t_topo new) 0 (t_free_ranklist new), s)
  | [r] => (build new PAMI_SINGLE_TOPOLOGY (u_rank r) 1 false, s)
  | _ => let '(a, s) := new_array rl s in
         (build new PAMI_LIST_TOPOLOGY (u_list a) (Z.of_nat (length rl)) true, s)
  end.

(** The last lines of [subtractTopology]: [__free_ranklist] is not assigned. *)
Definition nothing_left (new : Topology) : Topology :=
  build new PAMI_EMPTY_TOPOLOGY (t_topo new) 0 (t_free_ranklist new).

(** The loop over a segment that keeps what is out of the other: the ranks kept, the
    smallest segment around them and the lower-left corner, the smallest and largest
    rank with 0. *)
Record kept := mkKept {
  k_ranks : list Z; k_bounds : pami_coord_t * pami_coord_t; k_minmax : Z * Z; k_rank : Z
}.

Definition keep_rank (cap : Z) (r' : rectseg) (a : kept) (c0 : pami_coord_t) : res kept :=
  if isMemberCoord r' c0 dims then mret a
  else
    let rank := COORDS2RANK c0 (k_rank a) in
    rl ← put cap (k_ranks a) rank;
    mret (mkKept rl (bumpRange (k_bounds a) c0 dims) (widen (k_minmax a) rank) rank).

Definition subtract_segment (cap : Z) (r r' : rectseg) : res kept :=
  coord_loop mapping (keep_rank cap r') always (loop_fuel mapping r) r (llcorner r)
    (mkKept [] (initRange (llcorner r) dims) (0, 0) 0).

(** All ranks but one. *)
Definition put_other (cap rank' : Z) (a : list Z * Z) (c0 : pami_coord_t) : res (list Z * Z) :=
  let rank := COORDS2RANK c0 a.2 in
  if rank =? rank' then mret (a.1, rank)
  else rl ← put cap a.1 rank; mret (rl, rank).

Definition subtract_ranges (new t : Topology) (first last first' last' : Z) (s : arrays) :
    res (Topology * arrays) :=
  let bit (b : bool) n := if b then 2 ^ n else 0 in
  let flag := bit (first' <=? first) 3 + bit (first <=? last') 2 +
              bit (first' <=? last) 1 + bit (last <=? last') 0 in
  if flag =? 6 then
    (* split into two: the array made is not stored *)
    let size := w32 (w32 (w32 (first' - first) + last) - last') in
    let above := w32 (last' + 1) in
    assert (negb (size =? 0));;
    rl ← foldM (put size) [] (seqZ first (first' - first) ++ seqZ above (last - above + 1));
    let '(_, s) := new_array rl s in
    assert (Z.of_nat (length rl) =? size);;
    mret (build new PAMI_LIST_TOPOLOGY (t_topo new) size false, s)
  else if flag =? 7 then
    let l := w32 (first' - 1) in
    let size := w32 (l - first + 1) in
    assert (negb (size =? 0));;
    mret (build new PAMI_RANGE_TOPOLOGY (u_rankrange first l) size false, s)
  else if flag =? 14 then
    let f := w32 (last' + 1) in
    let size := w32 (last - f + 1) in
    assert (negb (size =? 0));;
    mret (build new PAMI_RANGE_TOPOLOGY (u_rankrange f last) size false, s)
  else if flag =? 15 then mret (nothing_left new, s)
  else assign new t s.

Definition subtractTopology (new t other : Topology) (s : arrays) : res (Topology * arrays) :=
  match t_type t, t_type other with
  | PAMI_COORD_TOPOLOGY, PAMI_COORD_TOPOLOGY =>
      r ← topo_rect t;
      r' ← topo_rect other;
      a ← subtract_segment (t_size t) r r';
      let rl := k_ranks a in
      let '(ll, ur) := k_bounds a in
      let '(min, max) := k_minmax a in
      let k := Z.of_nat (length rl) in
      if k =? 0 then mret (nothing_left new, s)
      else if sizeRange ll ur dims =? k then
        mret (build new PAMI_COORD_TOPOLOGY (rect_of ll ur) k false, s)
      else if w32 (max - min + 1) =? k then
        mret (build new PAMI_RANGE_TOPOLOGY (u_rankrange min max) k false, s)
      else let '(a, s) := new_array rl s in
        mret (build new PAMI_LIST_TOPOLOGY (u_list a) k true, s)
  | PAMI_SINGLE_TOPOLOGY, PAMI_SINGLE_TOPOLOGY =>
      rank ← topo_rank t;
      rank' ← topo_rank other;
      if rank' =? rank then mret (nothing_left new, s) else assign new t s
  | PAMI_RANGE_TOPOLOGY, PAMI_RANGE_TOPOLOGY =>
      '(first, last) ← topo_rankrange t;
      '(first', last') ← topo_rankrange other;
      subtract_ranges new t first last first' last' s
  | PAMI_LIST_TOPOLOGY, PAMI_LIST_TOPOLOGY =>
      l ← topo_items t s;
      rl ← foldM (λ rl r, b ← isRankMember mapping other r s;
                          if (b : bool) then mret rl else put (t_size t) rl r) [] l;
      match rl with
      | [] => mret (nothing_left (empty new), s)
      | _ => let '(a, s) := new_array rl s in
             mret (build new PAMI_LIST_TOPOLOGY (u_list a) (Z.of_nat (length rl)) true, s)
      end
  | PAMI_SINGLE_TOPOLOGY, _ =>
      rank ← topo_rank t;
      b ← isRankMember mapping other rank s;
      mret (if b : bool then build new PAMI_SINGLE_TOPOLOGY (u_rank rank) 1 false
            else nothing_left new, s)
  | PAMI_COORD_TOPOLOGY, PAMI_SINGLE_TOPOLOGY =>
      rank' ← topo_rank other;
      b ← isRankMember mapping t rank' s;
      if (b : bool) then
        r ← topo_rect t;
        '(rl, _) ← coord_loop mapping (put_other (t_size t) rank') always (loop_fuel mapping r) r
          (llcorner r) ([], 0);
        mret (from_ranks new rl s)
      else assign new t s
  | PAMI_RANGE_TOPOLOGY, PAMI_SINGLE_TOPOLOGY =>
      rank' ← topo_rank other;
      b ← isRankMember mapping t rank' s;
      if (b : bool) then
        '(first, last) ← topo_rankrange t;
        rl ← foldM (put (t_size t)) [] (seqZ first (rank' - first) ++ seqZ (rank' + 1) (last - rank'));
        mret (from_ranks new rl s)
      else assign new t s
  | PAMI_LIST_TOPOLOGY, PAMI_SINGLE_TOPOLOGY =>
      rank' ← topo_rank other;
      l ← topo_items t s;
      rl ← foldM (put (t_size t)) [] (filter (.≠ rank') l);
      mret (from_ranks new rl s)
  | _, _ => mret (nothing_left new, s)
  end.

End operations.
