(* ===== verification/TopologySpec.v ===== *)
(** What a topology is: a list of ranks in the order of their indices.  The segments of
    the torus as lists of coordinates, and the loops over them. *)
From S2P Require Import Prelude.
From S2P Require Import Topology.

Lemma w32_sub_l a b : w32 (w32 a - b) = w32 (a - b).
Proof. apply Zminus_mod_idemp_l. Qed.

#[local] Opaque w64 w32.

Lemma foldM_app {A B} (f : A → B → res A) a l1 l2 :
  foldM f a (l1 ++ l2) = foldM f a l1 ≫= λ a, foldM f a l2.
Proof.
  revert a. induction l1 as [|x l1 IH]; intros a; cbn; [done|].
  destruct (f a x); cbn; [apply IH|done].
Qed.

(** * The coordinates of a segment *)

Definition ll_at (r : rectseg) (x : nat) : Z := net_coord (llcorner r) x.
Definition ur_at (r : rectseg) (x : nat) : Z := net_coord (urcorner r) x.
Definition width (r : rectseg) (x : nat) : Z := ur_at r x - ll_at r x + 1.

(** In order: the last dimension varies first. *)
Fixpoint box (r : rectseg) (n : nat) : list (list Z) :=
  match n with
  | O => [[]]
  | S n => box r n ≫= λ c, (λ v, c ++ [v]) <$> seqZ (ll_at r n) (width r n)
  end.

(** [c] lies in the segment, in the first [n] dimensions. *)
Definition inside (r : rectseg) (n : nat) (c : list Z) : Prop :=
  ∀ x, (x < n)%nat → ll_at r x ≤ default 0 (c !! x) ≤ ur_at r x.

Lemma elem_of_box r n c : c ∈ box r n ↔ length c = n ∧ inside r n c.
Proof.
  revert c. induction n as [|n IH]; intros c; cbn.
  - rewrite list_elem_of_singleton. split; [intros ->; split; [done|intros x; lia]|].
    intros [?%nil_length_inv _]. done.
  - rewrite list_elem_of_bind. split.
    + intros (d&Hc&Hd). apply list_elem_of_fmap in Hc as (v&->&Hv).
      apply IH in Hd as [Hlen Hin]. apply elem_of_seqZ in Hv.
      split; [rewrite length_app; cbn; lia|]. intros x Hx.
      destruct (decide (x = n)) as [->|].
      * rewrite lookup_app_r, Hlen, Nat.sub_diag by lia. cbn. unfold width in Hv. lia.
      * rewrite lookup_app_l by lia. apply Hin. lia.
    + intros [Hlen Hin]. destruct (list_snoc_inv c) as [->|(d&v&->)]; [done|].
      rewrite length_app in Hlen. cbn in Hlen. exists d. split.
      * apply list_elem_of_fmap. exists v. split; [done|]. apply elem_of_seqZ.
        specialize (Hin n). rewrite lookup_app_r in Hin by lia.
        replace (n - length d)%nat with 0%nat in Hin by lia. cbn in Hin.
        unfold width. specialize (Hin ltac:(lia)). lia.
      * apply IH. split; [lia|]. intros x Hx. specialize (Hin x).
        rewrite lookup_app_l in Hin by lia. apply Hin. lia.
Qed.

Lemma length_in_box r n c : c ∈ box r n → length c = n.
Proof. intros H. by apply elem_of_box in H as [? _]. Qed.

Lemma snoc_inj {A} (l1 l2 : list A) a1 a2 : l1 ++ [a1] = l2 ++ [a2] → l1 = l2 ∧ a1 = a2.
Proof. intros H. apply app_inj_tail in H. done. Qed.

Lemma NoDup_bind_disjoint {A B} (f : A → list B) l :
  (∀ a, a ∈ l → NoDup (f a)) → (∀ a1 a2 b, a1 ∈ l → a2 ∈ l → b ∈ f a1 → b ∈ f a2 → a1 = a2) →
  NoDup l → NoDup (l ≫= f).
Proof.
  induction l as [|a l IH]; intros Hf Hd Hnd; cbn; [apply NoDup_nil_2|].
  apply NoDup_cons in Hnd as [Ha Hnd]. apply NoDup_app. split; [apply Hf; by left|]. split.
  - intros b Hb Hb'. apply list_elem_of_bind in Hb' as (a2&Hb2&Ha2).
    assert (a = a2) as -> by (apply (Hd a a2 b); [by left|by right|done|done]). done.
  - apply IH; [intros; apply Hf; by right|intros a1 a2 b ? ?; apply Hd; by right|done].
Qed.

Lemma NoDup_box r n : NoDup (box r n).
Proof.
  induction n as [|n IH]; cbn; [apply NoDup_singleton|]. apply NoDup_bind_disjoint; [| |done].
  - intros c _. apply NoDup_fmap; [by intros v1 v2 [_ ?]%snoc_inj|]. apply NoDup_seqZ.
  - intros c1 c2 b _ _ Hb1 Hb2. apply list_elem_of_fmap in Hb1 as (v1&->&_).
    apply list_elem_of_fmap in Hb2 as (v2&Heq&_). by apply snoc_inj in Heq as [-> _].
Qed.

(** Blocks of the same length, one after the other. *)
Lemma length_bind_const {A B} (f : A → list B) w l : (∀ a, length (f a) = w) →
  length (l ≫= f) = (length l * w)%nat.
Proof. intros Hf. induction l as [|a l IH]; cbn; [done|]. rewrite length_app, Hf, IH. done. Qed.

Lemma lookup_bind_const {A B} (f : A → list B) w l i j a : (∀ a, length (f a) = w) →
  l !! i = Some a → (j < w)%nat → (l ≫= f) !! (i * w + j)%nat = f a !! j.
Proof.
  intros Hf. revert i. induction l as [|x l IH]; intros i Hi Hj; [done|].
  destruct i as [|i]; cbn in *.
  - simplify_eq. rewrite lookup_app_l; [done|by rewrite Hf].
  - rewrite lookup_app_r; rewrite Hf; [|lia]. rewrite <- (IH i) by done. f_equal. lia.
Qed.

Fixpoint volume (r : rectseg) (n : nat) : Z :=
  match n with O => 1 | S n => volume r n * width r n end.

(** A segment with no empty dimension. *)
Definition solid (r : rectseg) (n : nat) : Prop := ∀ x, (x < n)%nat → ll_at r x ≤ ur_at r x.

Lemma solid_S r n : solid r (S n) → solid r n ∧ 0 < width r n.
Proof.
  intros H. split; [intros x Hx; apply H; lia|]. unfold width. specialize (H n ltac:(lia)). lia.
Qed.

Lemma length_box r n : solid r n → Z.of_nat (length (box r n)) = volume r n.
Proof.
  induction n as [|n IH]; intros Hs; cbn; [done|]. apply solid_S in Hs as [Hs Hw].
  rewrite (length_bind_const _ (Z.to_nat (width r n))) by (intros; by rewrite length_fmap, length_seqZ).
  rewrite Nat2Z.inj_mul, IH by done. lia.
Qed.

Lemma volume_pos r n : solid r n → 0 < volume r n.
Proof.
  induction n as [|n IH]; intros Hs; cbn; [lia|]. apply solid_S in Hs as [Hs Hw].
  apply Z.mul_pos_pos; auto.
Qed.

(** The coordinate at an index of the next dimension. *)
Lemma box_lookup r n i c : solid r (S n) → box r n !! Z.to_nat (i / width r n) = Some c → 0 ≤ i →
  box r (S n) !! Z.to_nat i = Some (c ++ [ll_at r n + i `mod` width r n]).
Proof.
  intros [Hs Hw]%solid_S Hc Hi. cbn. set (w := width r n) in *.
  pose proof (Z.mod_pos_bound i w Hw). pose proof (Z.div_pos i w Hi Hw).
  assert (Heq : Z.to_nat i = (Z.to_nat (i / w) * Z.to_nat w + Z.to_nat (i `mod` w))%nat).
  { pose proof (Z.div_mod i w). nia. }
  rewrite Heq, (lookup_bind_const _ (Z.to_nat w) _ _ _ c);
    [|intros; by rewrite length_fmap, length_seqZ|done|lia].
  rewrite list_lookup_fmap, lookup_seqZ_lt by lia. cbn. do 3 f_equal. lia.
Qed.

(** Coordinates that fit an [unsigned], and no empty dimension. *)
Definition in_range (r : rectseg) (n : nat) : Prop :=
  ∀ x, (x < n)%nat → 0 ≤ ll_at r x ∧ ll_at r x ≤ ur_at r x ∧ ur_at r x < 2 ^ 32 - 1.

(** A segment of the torus: its corners have [n] dimensions, in order, and it has less
    than [2^32] coordinates. *)
Record rect_ok (n : nat) (r : rectseg) : Prop := {
  ro_net : network (llcorner r) = PAMI_N_TORUS_NETWORK ∧ network (urcorner r) = PAMI_N_TORUS_NETWORK;
  ro_length : length (coords (llcorner r)) = n ∧ length (coords (urcorner r)) = n;
  ro_range : in_range r n;
  ro_volume : volume r n < 2 ^ 32
}.

Lemma in_range_solid r n : in_range r n → solid r n.
Proof. intros H x Hx. by apply H. Qed.

Lemma in_range_S r n : in_range r (S n) → in_range r n.
Proof. intros H x Hx. apply H. lia. Qed.
#[export] Hint Resolve in_range_solid in_range_S ro_range : core.

Lemma volume_le r n m : in_range r m → (n ≤ m)%nat → volume r n ≤ volume r m.
Proof.
  induction m as [|m IH]; intros Hr Hn; [by replace n with 0%nat by lia|].
  destruct (decide (n = S m)) as [->|]; [done|]. cbn.
  pose proof (IH (in_range_S _ _ Hr) ltac:(lia)).
  pose proof (volume_pos r m (in_range_solid _ _ (in_range_S _ _ Hr))).
  destruct (solid_S r m (in_range_solid _ _ Hr)). nia.
Qed.

(** The narrowing to [unsigned] loses nothing. *)
Lemma narrow r n x : in_range r n → (x < n)%nat →
  w32 (net_coord (llcorner r) x) = ll_at r x ∧ w32 (net_coord (urcorner r) x) = ur_at r x ∧
  w32 (ur_at r x - ll_at r x + 1) = width r x.
Proof.
  intros Hr Hx. specialize (Hr x Hx). unfold width.
  unfold ll_at, ur_at in *. repeat split; apply w32_small; lia.
Qed.

Lemma take_snoc {A} (l : list A) n a : l !! n = Some a → take (S n) l = take n l ++ [a].
Proof. apply take_S_r. Qed.

Lemma net_coord_lookup c x : (x < length (coords c))%nat → coords c !! x = Some (net_coord c x).
Proof. intros [a Ha]%lookup_lt_is_Some_2. unfold net_coord. by rewrite Ha. Qed.

Lemma box_first r n : solid r n → (n ≤ length (coords (llcorner r)))%nat →
  box r n !! 0%nat = Some (take n (coords (llcorner r))).
Proof.
  induction n as [|n IH]; intros Hs Hn; [done|].
  pose proof (solid_S _ _ Hs) as [Hs' Hw].
  rewrite (take_snoc _ n (ll_at r n)) by (apply net_coord_lookup; lia).
  change 0%nat with (Z.to_nat 0). rewrite (box_lookup r n 0 (take n (coords (llcorner r))));
    [rewrite Z.mod_0_l by lia; by rewrite Z.add_0_r|done|rewrite Z.div_0_l by lia; apply IH; [done|lia]|lia].
Qed.

Lemma set_coord_app n v net l d : length l = n →
  set_coord n v (mkCoord net (l ++ d)) = mkCoord net (l ++ match d with [] => [] | _ :: d => v :: d end).
Proof.
  intros Hl. unfold set_coord. cbn. f_equal. rewrite insert_app_r_alt by lia.
  rewrite Hl, Nat.sub_diag. by destruct d.
Qed.

Lemma net_coord_app n net l v d : length l = n → net_coord (mkCoord net (l ++ v :: d)) n = v.
Proof. intros Hl. unfold net_coord. cbn. by rewrite lookup_app_r, Hl, Nat.sub_diag by lia. Qed.

(** [index2Rank] on a segment. *)
Lemma index_coord_spec r n ix : in_range r n → (n ≤ length (coords (llcorner r)))%nat →
  0 ≤ ix < volume r n → volume r n < 2 ^ 32 →
  ∃ c, box r n !! Z.to_nat ix = Some c ∧
    ∀ net d, index_coord r n ix (mkCoord net (take n (coords (llcorner r)) ++ d)) = Ok (mkCoord net (c ++ d)).
Proof.
  revert ix. induction n as [|n IH]; intros ix Hr Hn Hix Hv.
  - exists []. cbn in *. by replace ix with 0 by lia.
  - pose proof (in_range_solid _ _ Hr) as Hs. pose proof (solid_S _ _ Hs) as [Hs' Hw].
    destruct (narrow r (S n) n Hr ltac:(lia)) as (Hll&Hur&Hww).
    cbn [index_coord]. destruct (Z.ltb_spec 0 ix) as [Hpos|Hneg].
    + destruct (IH (ix / width r n)) as (c&Hc&Hrun); [by apply in_range_S|lia| | |].
      { split; [apply Z.div_pos; lia|]. apply Z.div_lt_upper_bound; cbn in Hix; lia. }
      { pose proof (volume_le r n (S n) Hr ltac:(lia)). lia. }
      exists (c ++ [ll_at r n + ix `mod` width r n]). split; [by apply box_lookup; [..|lia]|].
      intros net d. rewrite Hll, Hur, Hww.
      rewrite (proj2 (Z.eqb_neq (width r n) 0)) by lia. cbn [negb defined mbind res_bind].
      rewrite (take_snoc _ n (ll_at r n)) by (apply net_coord_lookup; lia).
      rewrite <- (assoc_L (++)). cbn [app]. rewrite set_coord_app by (rewrite length_take; lia).
      pose proof (Z.mod_pos_bound ix (width r n) Hw). specialize (Hr n ltac:(lia)).
      rewrite w64_small by (unfold width in *; lia). by rewrite Hrun, <- (assoc_L (++)).
    + assert (ix = 0) as -> by lia. exists (take (S n) (coords (llcorner r))).
      split; [by apply box_first|done].
Qed.

(** [rank2Index] on a segment. *)
Lemma coord_index_app r c0 xs ys ix :
  (∀ x, x ∈ xs → w32 (net_coord (llcorner r) x) ≤ net_coord c0 x ≤ w32 (net_coord (urcorner r) x)) →
  coord_index r c0 (xs ++ ys) ix = coord_index r c0 ys (coord_index r c0 xs ix).
Proof.
  revert ix. induction xs as [|x xs IH]; intros ix Hin; [done|]. cbn.
  destruct (Hin x); [by left|]. rewrite !(proj2 (Z.ltb_ge _ _)) by done. cbn.
  apply IH. intros y Hy. apply Hin. by right.
Qed.

Lemma coord_index_out r c0 xs x ix : x ∈ xs →
  ¬ (w32 (net_coord (llcorner r) x) ≤ net_coord c0 x ≤ w32 (net_coord (urcorner r) x)) →
  coord_index r c0 xs ix = no_index.
Proof.
  intros Hx Hout. revert ix. induction xs as [|y xs IH]; intros ix; [by apply elem_of_nil in Hx|].
  cbn. destruct ((_ <? _) || _) eqn:Hb; [done|]. apply orb_false_iff in Hb as [H1%Z.ltb_ge H2%Z.ltb_ge].
  apply elem_of_cons in Hx as [->|Hx]; [lia|]. by apply IH.
Qed.

Lemma coord_index_in r n c0 : in_range r n → (n ≤ length (coords c0))%nat → volume r n < 2 ^ 32 →
  inside r n (coords c0) → ∃ i, 0 ≤ i < volume r n ∧ coord_index r c0 (seq 0 n) 0 = i ∧
    box r n !! Z.to_nat i = Some (take n (coords c0)).
Proof.
  induction n as [|n IH]; intros Hr Hn Hv Hin.
  - exists 0. cbn. split; [lia|done].
  - pose proof (in_range_solid _ _ Hr) as Hs. pose proof (solid_S _ _ Hs) as [Hs' Hw].
    pose proof (volume_le r n (S n) Hr ltac:(lia)).
    destruct IH as (i&Hi&Hrun&Hbox); [by apply in_range_S|lia|lia|intros x Hx; apply Hin; lia|].
    destruct (narrow r (S n) n Hr ltac:(lia)) as (Hll&Hur&Hww).
    assert (Hc : ll_at r n ≤ net_coord c0 n ≤ ur_at r n) by (by apply Hin; lia).
    exists (i * width r n + (net_coord c0 n - ll_at r n)).
    assert (Hb : 0 ≤ i * width r n + (net_coord c0 n - ll_at r n) < volume r (S n)).
    { cbn. unfold width in *. nia. }
    split; [done|]. rewrite seq_S, coord_index_app.
    + rewrite Hrun. cbn [coord_index app Nat.add]. rewrite Hll, Hur, Hww.
      rewrite !(proj2 (Z.ltb_ge _ _)) by lia. cbn [orb].
      split; [apply w64_small; lia|].
      replace (i * width r n + (net_coord c0 n - ll_at r n))
        with ((net_coord c0 n - ll_at r n) + i * width r n) by lia.
      assert (Hsmall : 0 ≤ net_coord c0 n - ll_at r n < width r n) by (unfold width; lia).
      rewrite (box_lookup r n _ (take n (coords c0)) Hs).
      * rewrite Z_mod_plus_full, Z.mod_small by done.
        rewrite (take_snoc _ n (net_coord c0 n)) by (apply net_coord_lookup; lia).
        do 3 f_equal. lia.
      * rewrite Z.div_add, Z.div_small by lia. done.
      * lia.
    + intros x Hx%elem_of_seq. destruct (narrow r (S n) x Hr ltac:(lia)) as (->&->&_).
      apply Hin. lia.
Qed.

(** * Loops over a segment *)

Lemma box_lookup_inv r n i e : solid r (S n) → 0 ≤ i → box r (S n) !! Z.to_nat i = Some e →
  ∃ c, box r n !! Z.to_nat (i / width r n) = Some c ∧ e = c ++ [ll_at r n + i `mod` width r n] ∧
    i / width r n < volume r n.
Proof.
  intros Hs Hi He. pose proof (solid_S _ _ Hs) as [Hs' Hw].
  pose proof (lookup_lt_Some _ _ _ He) as Hlt. pose proof (length_box r (S n) Hs) as Hl.
  cbn [volume] in Hl.
  assert (Hq : i / width r n < volume r n) by (apply Z.div_lt_upper_bound; lia).
  pose proof (Z.div_pos i (width r n) Hi Hw) as Hq0.
  destruct (lookup_lt_is_Some_2 (box r n) (Z.to_nat (i / width r n))) as [c Hc].
  { pose proof (length_box r n Hs'). lia. }
  exists c. split; [done|]. split; [|done].
  rewrite (box_lookup r n i c) in He by done. congruence.
Qed.

(** [__nextCoord] steps through the coordinates in order, and starts again after the
    last. *)
Lemma nextCoord_spec r n net i e d : in_range r n → (n ≤ length (coords (llcorner r)))%nat →
  0 ≤ i → box r n !! Z.to_nat i = Some e →
  nextCoord r (mkCoord net (e ++ d)) n =
    match box r n !! Z.to_nat (i + 1) with
    | Some e' => (mkCoord net (e' ++ d), true)
    | None => (mkCoord net (take n (coords (llcorner r)) ++ d), false)
    end.
Proof.
  revert i e d. induction n as [|n IH]; intros i e d Hr Hn Hi He.
  - cbn in He. apply list_lookup_singleton_Some in He as [? <-].
    rewrite (lookup_ge_None_2 _ (Z.to_nat (i + 1))) by (cbn; lia). done.
  - pose proof (in_range_solid _ _ Hr) as Hs. pose proof (solid_S _ _ Hs) as [Hs' Hw].
    pose proof (Hr n ltac:(lia)) as Hrn.
    destruct (box_lookup_inv r n i e Hs Hi He) as (c&Hc&->&Hq). set (w := width r n) in *.
    pose proof (Z.mod_pos_bound i w Hw) as Hm. pose proof (Z.div_pos i w Hi Hw) as Hq0.
    assert (Hlen : length c = n) by (eapply length_in_box, list_elem_of_lookup_2, Hc).
    rewrite <- (assoc_L (++)). cbn [nextCoord app].
    rewrite (net_coord_app n) by done. rewrite set_coord_app by done.
    rewrite (net_coord_app n) by done. fold (ur_at r n).
    assert (Hwd : w = ur_at r n - ll_at r n + 1) by done.
    rewrite w64_small by lia. pose proof (Z.div_mod i w ltac:(lia)) as Hdm.
    destruct (Z.leb_spec (ll_at r n + i `mod` w + 1) (ur_at r n)) as [Hle|Hgt].
    + assert (Hd : (i + 1) / w = i / w) by (symmetry; apply Z.div_unique with (i `mod` w + 1); lia).
      assert (Hmm : (i + 1) `mod` w = i `mod` w + 1)
        by (symmetry; apply Z.mod_unique with (i / w); lia).
      rewrite (box_lookup r n (i + 1) c Hs); [|fold w; by rewrite Hd|lia]. fold w.
      rewrite Hmm, <- (assoc_L (++)). cbn [app]. do 3 f_equal. f_equal. lia.
    + assert (Hd : (i + 1) / w = i / w + 1) by (symmetry; apply Z.div_unique with 0; lia).
      assert (Hmm : (i + 1) `mod` w = 0) by (symmetry; apply Z.mod_unique with (i / w + 1); lia).
      rewrite set_coord_app by done. cbn [app].
      rewrite (IH (i / w) c) by (done || lia || by apply in_range_S).
      destruct (box r n !! Z.to_nat (i / w + 1)) as [c'|] eqn:Hc'.
      * rewrite (box_lookup r n (i + 1) c' Hs); [|fold w; by rewrite Hd|lia]. fold w.
        rewrite Hmm, <- (assoc_L (++)), Z.add_0_r. done.
      * rewrite lookup_ge_None_2.
        { rewrite (take_snoc _ n (ll_at r n)), <- (assoc_L (++)); [done|].
          apply net_coord_lookup. lia. }
        apply lookup_ge_None_1 in Hc'. pose proof (length_box r n Hs').
        pose proof (length_box r (S n) Hs) as Hl. cbn [volume] in Hl. fold w in Hl. nia.
Qed.

(** A loop over a list that stops when [more] says so. *)
Fixpoint visit {A B} (body : A → B → res A) (more : A → bool) (a : A) (l : list B) : res A :=
  match l with
  | [] => mret a
  | c :: l => a ← body a c; if more a then visit body more a l else mret a
  end.

Lemma visit_always {A B} (body : A → B → res A) a l : visit body always a l = foldM body a l.
Proof. revert a. induction l as [|c l IH]; intros a; cbn; [done|]. apply bind_ext. auto. Qed.

Lemma product_volume r n : solid r n →
  foldl (λ s x, s * Z.max 1 (net_coord (urcorner r) x - net_coord (llcorner r) x + 1)) 1 (seq 0 n) =
  volume r n.
Proof.
  induction n as [|n IH]; intros Hs; [done|]. rewrite seq_S, foldl_snoc. cbn [Nat.add].
  pose proof (solid_S _ _ Hs) as [Hs' Hw]. rewrite IH by done. cbn [volume]. f_equal.
  unfold width, ll_at, ur_at in *. lia.
Qed.

Section loops.
Context (m : Mapping).

Lemma loop_fuel_enough r : solid r (dims m) → (length (box r (dims m)) < loop_fuel m r)%nat.
Proof.
  intros Hs. unfold loop_fuel. rewrite product_volume by done. pose proof (length_box _ _ Hs). lia.
Qed.

Lemma coord_loop_spec {A} (body : A → pami_coord_t → res A) (more : A → bool) r net fuel i a :
  in_range r (dims m) → length (coords (llcorner r)) = dims m →
  0 ≤ i < Z.of_nat (length (box r (dims m))) → (length (box r (dims m)) - Z.to_nat i ≤ fuel)%nat →
  ∀ e, box r (dims m) !! Z.to_nat i = Some e →
  coord_loop m body more fuel r (mkCoord net e) a =
  visit (λ a c, body a (mkCoord net c)) more a (drop (Z.to_nat i) (box r (dims m))).
Proof.
  intros Hr Hl. revert i a. induction fuel as [|fuel IH]; intros i a Hi Hf e He; [lia|].
  rewrite (drop_S _ e) by done. cbn [coord_loop visit]. apply bind_ext. intros a'.
  destruct (more a'); [|done].
  pose proof (nextCoord_spec r (dims m) net i e [] Hr ltac:(lia) ltac:(lia) He) as Hnext.
  rewrite !app_nil_r in Hnext. rewrite Hnext.
  replace (S (Z.to_nat i)) with (Z.to_nat (i + 1)) by lia.
  destruct (box r (dims m) !! Z.to_nat (i + 1)) as [e'|] eqn:He'.
  - apply lookup_lt_Some in He' as Hlt. rewrite app_nil_r. rewrite (IH (i + 1)); [done|lia|lia|done].
  - apply lookup_ge_None_1 in He'. rewrite drop_ge by done. done.
Qed.

(** The whole loop of a segment. *)
Lemma coord_loop_all {A} (body : A → pami_coord_t → res A) (more : A → bool) r net a :
  in_range r (dims m) → length (coords (llcorner r)) = dims m →
  coord_loop m body more (loop_fuel m r) r (mkCoord net (coords (llcorner r))) a =
  visit (λ a c, body a (mkCoord net c)) more a (box r (dims m)).
Proof.
  intros Hr Hl. pose proof (in_range_solid _ _ Hr) as Hs.
  pose proof (box_first r (dims m) Hs ltac:(lia)) as Hb. rewrite take_ge in Hb by lia.
  pose proof (loop_fuel_enough r Hs).
  rewrite (coord_loop_spec body more r net (loop_fuel m r) 0 a Hr Hl); [by rewrite drop_0| |lia|done].
  pose proof (lookup_lt_Some _ _ _ Hb). lia.
Qed.

End loops.

(** [__sizeRange]. *)
Lemma sizeRange_volume r n : in_range r n → volume r n < 2 ^ 32 →
  sizeRange (llcorner r) (urcorner r) n = volume r n.
Proof.
  unfold sizeRange. induction n as [|n IH]; intros Hr Hv; [done|]. rewrite seq_S, foldl_snoc.
  cbn [Nat.add]. pose proof (volume_le r n (S n) Hr ltac:(lia)).
  rewrite IH by (eauto || lia). cbn [volume] in *.
  destruct (narrow r (S n) n Hr ltac:(lia)) as (_&_&Hw).
  unfold ll_at, ur_at in Hw. rewrite Hw. apply w64_small.
  pose proof (volume_pos r n (in_range_solid _ _ (in_range_S _ _ Hr))).
  destruct (solid_S r n (in_range_solid _ _ Hr)). nia.
Qed.

Lemma isMemberCoord_spec r c n : isMemberCoord r c n = true ↔ inside r n (coords c).
Proof.
  unfold isMemberCoord, inside. rewrite forallb_forall. split.
  - intros H x Hx. specialize (H x). rewrite in_seq in H. specialize (H ltac:(lia)).
    apply negb_true_iff, orb_false_iff in H as [H1%Z.ltb_ge H2%Z.ltb_ge]. done.
  - intros H x Hx%in_seq. apply negb_true_iff, orb_false_iff. rewrite !Z.ltb_ge.
    apply H. lia.
Qed.

Lemma isMemberCoord_false r c n : isMemberCoord r c n = false →
  ∃ x, (x < n)%nat ∧ ¬ (ll_at r x ≤ net_coord c x ≤ ur_at r x).
Proof.
  unfold isMemberCoord. induction n as [|n IH]; [done|]. rewrite seq_S, forallb_app.
  cbn [Nat.add forallb]. rewrite andb_true_r. intros [H|H]%andb_false_iff.
  - destruct (IH H) as (x&?&?). exists x. split; [lia|done].
  - exists n. split; [lia|]. apply negb_false_iff, orb_true_iff in H as [?%Z.ltb_lt|?%Z.ltb_lt];
      unfold ll_at, ur_at; lia.
Qed.
