(* ===== verification/TopologyModel.v ===== *)
(** Topologies against lists of tasks: the relation [denotes], and what the queries of
    a topology answer in terms of it. *)
From S2P Require Import Prelude.
From S2P Require Import Topology.
From S2P Require Import TopologySpec.

#[local] Opaque w64 w32.

(** * The mapping *)

Section model.
Context (m : Mapping).

Notation n := (dims m).

Definition is_task (r : Z) : Prop := is_Some (task2network m r).

Definition torus_coord (c : list Z) : pami_coord_t := mkCoord PAMI_N_TORUS_NETWORK c.

(** What the mappings of the platforms promise: tasks and the coordinates of the machine
    correspond one to one, the machine is a segment of the torus. *)
Record mapping_ok (machine : rectseg) : Prop := {
  mo_dims : (0 < n)%nat;
  mo_coord r c : task2network m r = Some c →
    network c = PAMI_N_TORUS_NETWORK ∧ length (coords c) = n ∧ network2task m c = Some r;
  mo_task c r : network2task m (torus_coord c) = Some r → length c = n →
    task2network m r = Some (torus_coord c);
  mo_machine : rect_ok n machine;
  mo_inside r c : task2network m r = Some c → inside machine n (coords c);
  mo_range r : is_task r → 0 ≤ r < 2 ^ 32 - 1
}.

Definition rank_at (c : list Z) : Z := default 0 (network2task m (torus_coord c)).
Definition ranks_of (r : rectseg) : list Z := rank_at <$> box r n.

(** Every coordinate of the segment has a task. *)
Definition full (r : rectseg) : Prop :=
  ∀ c, c ∈ box r n → is_Some (network2task m (torus_coord c)).

(** * Denotation *)

(** [t] is the list of tasks [l], in the order of the indices. *)
Inductive shape (s : arrays) (l : list Z) : pami_topology_type_t → topology_u → Prop :=
| shape_empty u : l = [] → shape s l PAMI_EMPTY_TOPOLOGY u
| shape_single r : l = [r] → shape s l PAMI_SINGLE_TOPOLOGY (u_rank r)
| shape_range f la : f ≤ la → l = seqZ f (la - f + 1) → shape s l PAMI_RANGE_TOPOLOGY (u_rankrange f la)
| shape_list a arr : s !! a = Some arr → l = take (length l) arr → l ≠ [] → NoDup l →
    shape s l PAMI_LIST_TOPOLOGY (u_list a)
| shape_coord r : rect_ok n r → full r → l = ranks_of r → shape s l PAMI_COORD_TOPOLOGY (u_rectseg r).

Record denotes (s : arrays) (t : Topology) (l : list Z) : Prop := {
  den_shape : shape s l (t_type t) (t_topo t);
  den_size : t_size t = Z.of_nat (length l);
  den_tasks : Forall is_task l
}.

Context (machine : rectseg) (Hm : mapping_ok machine).

Lemma rank_at_task c r : network2task m (torus_coord c) = Some r → length c = n →
  task2network m (rank_at c) = Some (torus_coord c).
Proof. intros Hc Hl. unfold rank_at. rewrite Hc. by apply (mo_task _ Hm). Qed.

Lemma coord_of_task r c : task2network m r = Some c →
  c = torus_coord (coords c) ∧ length (coords c) = n ∧ rank_at (coords c) = r.
Proof.
  intros Hr. destruct (mo_coord _ Hm r c Hr) as (Hnet&Hl&Hc). destruct c as [net cs].
  cbn in *. subst net. split; [done|]. split; [done|]. unfold rank_at, torus_coord. by rewrite Hc.
Qed.

(** The tasks of a segment are those whose coordinates lie in it. *)
Lemma elem_of_ranks_of r rank c : full r → task2network m rank = Some c →
  rank ∈ ranks_of r ↔ inside r n (coords c).
Proof.
  intros Hf Hr. destruct (coord_of_task rank c Hr) as (Hc&Hl&Hat). unfold ranks_of.
  rewrite list_elem_of_fmap. split.
  - intros (d&Hd&Hin). pose proof (length_in_box _ _ _ Hin) as Hld.
    destruct (Hf d Hin) as [r' Hr']. pose proof (rank_at_task d r' Hr' Hld) as Ht.
    rewrite <- Hd, Hr in Ht. injection Ht as Ht. rewrite Ht. by apply elem_of_box in Hin as [_ ?].
  - intros Hin. exists (coords c). split; [done|]. by apply elem_of_box.
Qed.

Lemma rank_at_inj r c1 c2 : full r → c1 ∈ box r n → c2 ∈ box r n → rank_at c1 = rank_at c2 → c1 = c2.
Proof.
  intros Hf H1 H2 Heq. destruct (Hf c1 H1) as [r1 Hr1]. destruct (Hf c2 H2) as [r2 Hr2].
  pose proof (rank_at_task c1 r1 Hr1 (length_in_box _ _ _ H1)) as Ht1.
  pose proof (rank_at_task c2 r2 Hr2 (length_in_box _ _ _ H2)) as Ht2.
  rewrite Heq in Ht1. rewrite Ht1 in Ht2. by injection Ht2.
Qed.

Lemma NoDup_ranks_of r : full r → NoDup (ranks_of r).
Proof.
  intros Hf. apply NoDup_fmap_2_strong; [|apply NoDup_box].
  intros c1 c2 H1 H2. by apply rank_at_inj with r.
Qed.

Lemma denotes_NoDup s t l : denotes s t l → NoDup l.
Proof.
  intros [Hs _ _]. destruct Hs as [| | | |r _ Hf ->]; subst; try done.
  - apply NoDup_nil_2.
  - apply NoDup_singleton.
  - apply NoDup_seqZ.
  - by apply NoDup_ranks_of.
Qed.

Lemma denotes_range s t l r : denotes s t l → r ∈ l → 0 ≤ r < 2 ^ 32 - 1.
Proof. intros [_ _ Ht] Hr. apply (mo_range _ Hm). by eapply Forall_forall. Qed.

(** A segment keeps within 32 bits. *)
Lemma denotes_items s t l : denotes s t l → t_type t = PAMI_LIST_TOPOLOGY → topo_items t s = Ok l.
Proof.
  intros [Hs Hsz _] Hty. unfold topo_items, topo_ranklist. destruct Hs; simplify_eq.
  cbn [mbind res_bind]. rewrite H. cbn [of_option mbind res_bind].
  assert (Hle : (length l ≤ length arr)%nat) by (rewrite H0, length_take; lia).
  rewrite (proj2 (Z.leb_le _ _)) by lia. cbn. by rewrite Hsz, Nat2Z.id, <- H0.
Qed.

(** * Queries *)

Lemma find_index_lookup l i x : NoDup l → l !! i = Some x → find_index x l = Some (Z.of_nat i).
Proof.
  intros Hnd. revert i. induction Hnd as [|y l Hy Hnd IH]; intros i Hi; [done|].
  destruct i as [|i]; cbn in *.
  - simplify_eq. by rewrite Z.eqb_refl.
  - rewrite (proj2 (Z.eqb_neq y x)).
    + rewrite (IH i Hi). cbn. f_equal. lia.
    + intros ->. apply Hy. by eapply list_elem_of_lookup_2.
Qed.

Lemma find_index_None l x : x ∉ l → find_index x l = None.
Proof.
  induction l as [|y l IH]; cbn; [done|]. intros [Hxy Hx]%not_elem_of_cons.
  rewrite (proj2 (Z.eqb_neq y x)) by congruence. by rewrite IH.
Qed.

Lemma existsb_elem x l : existsb (Z.eqb x) l = bool_decide (x ∈ l).
Proof.
  apply eq_bool_prop_intro. rewrite bool_decide_spec, Is_true_true, existsb_exists. split.
  - intros (y&Hy&->%Z.eqb_eq). by apply list_elem_of_In.
  - intros Hx. exists x. rewrite Z.eqb_refl. by rewrite <- list_elem_of_In.
Qed.

Lemma index2Rank_spec s t l ix : denotes s t l → t_all_contexts t = false → 0 ≤ ix →
  index2Rank m t ix s = Ok (default no_task (l !! Z.to_nat ix)).
Proof.
  intros Hd Hac Hix. pose proof Hd as [Hs Hsz Ht]. unfold index2Rank. rewrite Hac. cbn [andb].
  rewrite bind_ret, Hsz. destruct (Z.ltb_spec ix (Z.of_nat (length l))) as [Hlt|Hge];
    [|by rewrite lookup_ge_None_2 by lia].
  destruct (t_type t) eqn:Hty.
  - inversion Hs; subst. cbn in Hlt. lia.
  - inversion Hs as [|r Hl Hu Htp| | |]. unfold topo_rank. rewrite <- Htp. subst l.
    cbn in Hlt. by replace ix with 0 by lia.
  - inversion Hs as [| |f la Hfl Hl Hu Htp| |]. unfold topo_rankrange. rewrite <- Htp.
    cbn [mbind res_bind]. rewrite Hl, length_seqZ in Hlt.
    rewrite Hl, lookup_seqZ_lt by lia. cbn. rewrite Z2Nat.id by lia.
    assert (Hin : f + ix ∈ l) by (rewrite Hl; apply elem_of_seqZ; lia).
    pose proof (denotes_range s t l _ Hd Hin). f_equal. apply w32_small. lia.
  - rewrite (denotes_items s t l Hd Hty). cbn [mbind res_bind].
    destruct (lookup_lt_is_Some_2 l (Z.to_nat ix)) as [r Hr]; [lia|]. by rewrite Hr.
  - inversion Hs as [| | | |r Hro Hf Hl Hu Htp]. unfold topo_rect. rewrite <- Htp.
    cbn [mbind res_bind]. pose proof (ro_length _ _ Hro) as [Hll _].
    pose proof (ro_range _ _ Hro) as Hrr.
    assert (Hlen : Z.of_nat (length l) = volume r n).
    { rewrite Hl. unfold ranks_of. rewrite length_fmap. apply length_box, in_range_solid, Hrr. }
    destruct (index_coord_spec r n ix Hrr) as (c&Hc&Hrun); [lia|lia|apply Hro|].
    specialize (Hrun PAMI_N_TORUS_NETWORK []). rewrite !app_nil_r, take_ge in Hrun by lia.
    destruct (llcorner r) as [net cs] eqn:Hcor. pose proof (ro_net _ _ Hro) as [Hnet _].
    rewrite Hcor in Hnet. cbn in Hnet. subst net. cbn [coords] in Hrun.
    rewrite Hrun. cbn [mbind res_bind mret res_ret]. unfold COORDS2RANK.
    rewrite Hl. unfold ranks_of. rewrite list_lookup_fmap, Hc. done.
  - inversion Hs.
  - inversion Hs.
Qed.

Lemma isRankMember_spec s t l rank : denotes s t l → is_task rank →
  isRankMember m t rank s = Ok (bool_decide (rank ∈ l)).
Proof.
  intros Hd [c Hc]. pose proof Hd as [Hs Hsz Ht]. unfold isRankMember.
  destruct (t_type t) eqn:Hty.
  - inversion Hs; subst. done.
  - inversion Hs as [|r Hl Hu Htp| | |]. unfold topo_rank. rewrite <- Htp. subst l. cbn.
    f_equal. apply eq_bool_prop_intro. rewrite bool_decide_spec, Is_true_true, Z.eqb_eq.
    by rewrite list_elem_of_singleton.
  - inversion Hs as [| |f la Hfl Hl Hu Htp| |]. unfold topo_rankrange. rewrite <- Htp.
    cbn. f_equal. apply eq_bool_prop_intro.
    rewrite bool_decide_spec, Is_true_true, andb_true_iff, !Z.leb_le, Hl, elem_of_seqZ. lia.
  - rewrite (denotes_items s t l Hd Hty). cbn. by rewrite existsb_elem.
  - inversion Hs as [| | | |r Hro Hf Hl Hu Htp]. unfold topo_rect. rewrite <- Htp.
    unfold RANK2COORDS. rewrite Hc. cbn. f_equal. apply eq_bool_prop_intro.
    rewrite bool_decide_spec, Is_true_true, isMemberCoord_spec, Hl.
    by rewrite (elem_of_ranks_of r rank c Hf Hc).
  - inversion Hs.
  - inversion Hs.
Qed.

Lemma rank2Index_spec s t l rank : denotes s t l → is_task rank →
  rank2Index m t rank s = Ok (default no_index (find_index rank l)).
Proof.
  intros Hd [c Hc]. pose proof Hd as [Hs Hsz Ht]. pose proof (denotes_NoDup s t l Hd) as Hnd.
  unfold rank2Index. destruct (t_type t) eqn:Hty.
  - inversion Hs; subst. done.
  - inversion Hs as [|r Hl Hu Htp| | |]. unfold topo_rank. rewrite <- Htp. subst l. cbn.
    by destruct (Z.eqb_spec r rank).
  - inversion Hs as [| |f la Hfl Hl Hu Htp| |]. unfold topo_rankrange. rewrite <- Htp.
    cbn [mbind res_bind mret res_ret]. f_equal.
    destruct (Z.leb_spec f rank), (Z.leb_spec rank la); cbn [andb];
      try (rewrite find_index_None; [done|rewrite Hl, elem_of_seqZ; lia]).
    rewrite (find_index_lookup l (Z.to_nat (rank - f))); [cbn; lia|done|].
    rewrite Hl, lookup_seqZ_lt by lia. f_equal. lia.
  - by rewrite (denotes_items s t l Hd Hty).
  - inversion Hs as [| | | |r Hro Hf Hl Hu Htp]. unfold topo_rect. rewrite <- Htp.
    unfold RANK2COORDS. rewrite Hc. cbn [of_option mbind res_bind mret res_ret]. f_equal.
    destruct (coord_of_task rank c Hc) as (_&Hlc&Hat). pose proof (ro_range _ _ Hro) as Hrr.
    destruct (isMemberCoord r c n) eqn:Hb.
    + apply isMemberCoord_spec in Hb.
      destruct (coord_index_in r n c Hrr) as (i&Hi&Hrun&Hbox); [lia|apply Hro|done|].
      rewrite Hrun, (find_index_lookup l (Z.to_nat i)); [cbn; lia|done|].
      rewrite Hl. unfold ranks_of. rewrite list_lookup_fmap, Hbox, take_ge by lia. cbn.
      by rewrite Hat.
    + rewrite find_index_None.
      * destruct (isMemberCoord_false r c n Hb) as (x&Hx&Hout).
        destruct (narrow r n x Hrr Hx) as (Hll&Hur&_).
        apply (coord_index_out r c (seq 0 n) x); [apply elem_of_seq; lia|by rewrite Hll, Hur].
      * rewrite Hl, (elem_of_ranks_of r rank c Hf Hc), <- isMemberCoord_spec. congruence.
  - inversion Hs.
  - inversion Hs.
Qed.

End model.
