(* ===== verification/TopologyEndpoints.v ===== *)
(** Endpoints: how the platforms put a task and a context offset in one word,
    src/common/bgq/Platform.h and src/common/lapiunix/Platform.h, and the endpoints of a
    topology against the list of them. *)
From S2P Require Import Prelude.
From S2P Require Import Topology.
From S2P Require Import TopologySpec.
From S2P Require Import TopologyModel.

(** * The macros *)

(** 23 bits of task, 6 of offset. *)
Module Bgq.
Definition PAMI_ENDPOINT_INIT (client task offset : Z) : Z :=
  w32 (Z.lor (w64 (Z.shiftl offset 23)) task).
Definition PAMI_ENDPOINT_INFO (endpoint : Z) : Z * Z :=
  (Z.land endpoint (Z.ones 23), Z.land (Z.shiftr endpoint 23) (Z.ones 6)).
End Bgq.

(** The shift is [_Lapi_env.endpoints_shift]. *)
Module Lapi.
Definition PAMI_ENDPOINT_INIT (shift client task offset : Z) : Z :=
  w32 (w64 (w32 (Z.shiftl task shift) + offset)).
Definition PAMI_ENDPOINT_INFO (shift endpoint : Z) : Z * Z :=
  (Z.shiftr endpoint shift, w32 (endpoint - w32 (Z.shiftl (Z.shiftr endpoint shift) shift))).
End Lapi.

Lemma lor_shift_split task offset k : 0 ≤ k → 0 ≤ task < 2 ^ k →
  Z.lor (Z.shiftl offset k) task = offset * 2 ^ k + task.
Proof.
  intros Hk Ht. rewrite <- Z.shiftl_mul_pow2 by lia.
  pose proof (Z.add_lor_land (Z.shiftl offset k) task) as Hadd.
  enough (Hz : Z.land (Z.shiftl offset k) task = 0) by lia.
  apply Z.bits_inj'. intros i Hi. rewrite Z.land_spec, Z.bits_0.
  destruct (Z.ltb_spec i k); [by rewrite Z.shiftl_spec_low by lia|].
  rewrite <- (Z.mod_small task (2 ^ k)), Z.mod_pow2_bits_high by lia. apply andb_false_r.
Qed.

Lemma bgq_endpoint_value c task offset : 0 ≤ task < 2 ^ 23 → 0 ≤ offset < 64 →
  Bgq.PAMI_ENDPOINT_INIT c task offset = offset * 2 ^ 23 + task.
Proof.
  intros Ht Ho. unfold Bgq.PAMI_ENDPOINT_INIT, w32, w64.
  rewrite (Z.mod_small (Z.shiftl offset 23)) by (rewrite Z.shiftl_mul_pow2 by lia; lia).
  rewrite lor_shift_split by lia. apply Z.mod_small. lia.
Qed.

Lemma bgq_endpoint_info c task offset : 0 ≤ task < 2 ^ 23 → 0 ≤ offset < 64 →
  Bgq.PAMI_ENDPOINT_INFO (Bgq.PAMI_ENDPOINT_INIT c task offset) = (task, offset).
Proof.
  intros Ht Ho. rewrite bgq_endpoint_value by done. unfold Bgq.PAMI_ENDPOINT_INFO.
  rewrite !Z.land_ones, Z.shiftr_div_pow2 by lia. f_equal.
  - rewrite Z.add_comm, Z_mod_plus_full. apply Z.mod_small. lia.
  - rewrite Z.div_add_l, (Z.div_small task) by lia. rewrite Z.mod_small; lia.
Qed.

Lemma lapi_endpoint_info shift c task offset : 0 ≤ shift < 32 → 0 ≤ offset < 2 ^ shift →
  0 ≤ task < 2 ^ (32 - shift) →
  Lapi.PAMI_ENDPOINT_INFO shift (Lapi.PAMI_ENDPOINT_INIT shift c task offset) = (task, offset).
Proof.
  intros Hs Ho Ht.
  assert (Hb : task * 2 ^ shift + offset < 2 ^ 32).
  { replace (2 ^ 32) with (2 ^ (32 - shift) * 2 ^ shift) by (rewrite <- Z.pow_add_r by lia; f_equal; lia).
    nia. }
  assert (Hp : 0 ≤ task * 2 ^ shift) by nia.
  assert (Hv : Lapi.PAMI_ENDPOINT_INIT shift c task offset = task * 2 ^ shift + offset).
  { unfold Lapi.PAMI_ENDPOINT_INIT, w32, w64. rewrite Z.shiftl_mul_pow2 by lia.
    rewrite (Z.mod_small (task * _)) by lia. rewrite (Z.mod_small _ (2 ^ 64)), Z.mod_small by lia. done. }
  rewrite Hv. unfold Lapi.PAMI_ENDPOINT_INFO.
  assert (Hd : Z.shiftr (task * 2 ^ shift + offset) shift = task).
  { rewrite Z.shiftr_div_pow2, Z.div_add_l, (Z.div_small offset) by lia. lia. }
  rewrite Hd, Z.shiftl_mul_pow2 by lia. f_equal. unfold w32.
  rewrite (Z.mod_small (task * _)) by lia. rewrite Z.mod_small by lia. lia.
Qed.

(** * The endpoints of a topology *)

Lemma index_in_block ix k n : 0 < k → 0 ≤ ix < n * k →
  0 ≤ ix / k < n ∧ 0 ≤ ix mod k < k ∧ ix = ix / k * k + ix mod k.
Proof.
  intros Hk Hix. pose proof (Z.div_mod ix k ltac:(lia)). pose proof (Z.mod_pos_bound ix k Hk).
  pose proof (Z.div_pos ix k ltac:(lia) Hk). repeat split; nia.
Qed.

(** A loop that looks for an element. *)
Lemma foldM_search (f : nat → res Z) (v : Z) es n k found :
  (∀ i, (i < n)%nat → f i = of_option (es !! i)) → n = length es → (k ≤ n)%nat →
  foldM (λ found i, if (found : bool) then mret found else ep ← f i; mret (v =? ep)) found
    (seq k (n - k)) = Ok (found || bool_decide (v ∈ drop k es)).
Proof.
  intros Hf Hn Hk. remember (n - k)%nat as j eqn:Hj. revert k found Hk Hj.
  induction j as [|j IH]; intros k found Hk Hj; cbn [seq foldM].
  - rewrite drop_ge by lia. rewrite bool_decide_eq_false_2 by apply not_elem_of_nil.
    by rewrite orb_false_r.
  - destruct (lookup_lt_is_Some_2 es k) as [ep Hep]; [lia|].
    rewrite (drop_S es ep k Hep). destruct found; [rewrite bind_ret, IH by lia; done|].
    rewrite Hf, Hep by lia. cbn [of_option]. rewrite Ok_bind, bind_ret, IH by lia.
    cbn [orb]. do 2 f_equal. apply eq_bool_prop_intro.
    rewrite orb_True, !bool_decide_spec, elem_of_cons, Is_true_true, Z.eqb_eq. done.
Qed.

Section endpoints.
Context (m : Mapping) (machine : rectseg) (Hm : mapping_ok m machine).

(** The macros of the platform keep a task and an offset below [k] apart. *)
Definition endpoints_ok (k : Z) : Prop := ∀ c task offset, is_task m task → 0 ≤ offset < k →
  PAMI_ENDPOINT_INFO m (PAMI_ENDPOINT_INIT m c task offset) = (task, offset).

(** The context offsets of each task. *)
Definition offsets (t : Topology) : list Z :=
  if t_all_contexts t then seqZ 0 (t_offset t) else [t_offset t].

(** The endpoints of the tasks [l], in the order of the ordinals. *)
Definition endpoints (t : Topology) (l : list Z) : list Z :=
  l ≫= λ task, PAMI_ENDPOINT_INIT m (t_client t) task <$> offsets t.

(** The offsets of a topology are contexts, and its endpoints can be counted. *)
Definition contexts_ok (k : Z) (t : Topology) (l : list Z) : Prop :=
  if t_all_contexts t then 0 < t_offset t ≤ k ∧ Z.of_nat (length l) * t_offset t < 2 ^ 64
  else 0 ≤ t_offset t < k.

(** How many offsets. *)
Definition width_of (t : Topology) : Z := if t_all_contexts t then t_offset t else 1.

Context (s : arrays) (t : Topology) (l : list Z) (k : Z).
Context (Hd : denotes m s t l) (Hk : endpoints_ok k) (Hc : contexts_ok k t l).

Lemma width_of_pos : 0 < width_of t.
Proof. unfold width_of, contexts_ok in *. destruct (t_all_contexts t); lia. Qed.

Lemma length_offsets : Z.of_nat (length (offsets t)) = width_of t.
Proof.
  unfold offsets, width_of, contexts_ok in *. destruct (t_all_contexts t); [|done].
  rewrite length_seqZ. lia.
Qed.

Lemma offset_lookup j : 0 ≤ j < width_of t →
  offsets t !! Z.to_nat j = Some (if t_all_contexts t then j else t_offset t) ∧
  0 ≤ (if t_all_contexts t then j else t_offset t) < k.
Proof.
  unfold offsets, width_of, contexts_ok in *. destruct (t_all_contexts t); intros Hj.
  - rewrite lookup_seqZ_lt by lia. split; [f_equal; lia|lia].
  - by replace j with 0 by lia.
Qed.

Lemma length_endpoints : Z.of_nat (length (endpoints t l)) = Z.of_nat (length l) * width_of t.
Proof.
  unfold endpoints. rewrite (length_bind_const _ (length (offsets t))) by (intros; apply length_fmap).
  rewrite Nat2Z.inj_mul, length_offsets. done.
Qed.

(** The endpoint at an ordinal. *)
Lemma endpoint_at ix : 0 ≤ ix < Z.of_nat (length (endpoints t l)) →
  ∃ task, l !! Z.to_nat (ix / width_of t) = Some task ∧ is_task m task ∧
    endpoints t l !! Z.to_nat ix = Some (PAMI_ENDPOINT_INIT m (t_client t) task
      (if t_all_contexts t then ix mod width_of t else t_offset t)).
Proof.
  intros Hix. rewrite length_endpoints in Hix. pose proof width_of_pos as Hw.
  destruct (index_in_block ix (width_of t) (Z.of_nat (length l)) Hw Hix) as (Hq&Hr&Heq).
  destruct (lookup_lt_is_Some_2 l (Z.to_nat (ix / width_of t))) as [task Htask]; [lia|].
  exists task. split; [done|]. split.
  { eapply Forall_lookup_1; [apply (den_tasks _ _ _ _ Hd)|done]. }
  rewrite Heq at 1. pose proof length_offsets as Hlo.
  replace (Z.to_nat (ix / width_of t * width_of t + ix mod width_of t)) with
    (Z.to_nat (ix / width_of t) * length (offsets t) + Z.to_nat (ix mod width_of t))%nat by nia.
  unfold endpoints. rewrite (lookup_bind_const _ _ _ _ _ task); [|intros; apply length_fmap|done|lia].
  rewrite list_lookup_fmap.
  destruct (offset_lookup (ix mod width_of t) Hr) as [-> _]. cbn.
  by destruct (t_all_contexts t).
Qed.

Lemma denotes_contexts o a : denotes m s (set_contexts t o a) l.
Proof. destruct Hd. by split. Qed.

Lemma denotes_not_eplist : t_type t ≠ PAMI_EPLIST_TOPOLOGY.
Proof. intros Hty. destruct Hd as [Hs _ _]. rewrite Hty in Hs. inversion Hs. Qed.

Lemma rank2Index_contexts o a r : rank2Index m (set_contexts t o a) r s = rank2Index m t r s.
Proof. done. Qed.

Lemma index2Rank_contexts ix : 0 ≤ ix → index2Rank m t ix s = Ok (default no_task (l !! Z.to_nat (ix / width_of t))).
Proof.
  intros Hix. pose proof width_of_pos as Hw. unfold width_of in *.
  destruct (t_all_contexts t) eqn:Hac.
  - rewrite <- (index2Rank_spec m machine Hm s (set_contexts t (t_offset t) false) l) by
      (apply denotes_contexts || done || (apply Z.div_pos; lia)).
    unfold index2Rank. rewrite Hac. cbn [set_contexts t_all_contexts andb t_type].
    rewrite bool_decide_eq_true_2 by apply denotes_not_eplist. cbn [andb].
    rewrite (proj2 (Z.eqb_neq _ _)) by lia. done.
  - rewrite Z.div_1_r. by apply (index2Rank_spec m machine Hm).
Qed.

Lemma size_endpoints : size t = Z.of_nat (length (endpoints t l)).
Proof.
  rewrite length_endpoints. unfold size, width_of, contexts_ok in *.
  rewrite (den_size _ _ _ _ Hd). destruct (t_all_contexts t); [|lia].
  apply Z.mod_small. lia.
Qed.

Lemma index2Endpoint_spec ix : 0 ≤ ix < Z.of_nat (length (endpoints t l)) →
  index2Endpoint m t ix s = of_option (endpoints t l !! Z.to_nat ix).
Proof.
  intros Hix. destruct (endpoint_at ix Hix) as (task&Htask&_&->).
  assert (Heq : index2Endpoint m t ix s = (task ← index2Rank m t ix s;
    if t_all_contexts t then
      defined (negb (t_offset t =? 0));;
      mret (PAMI_ENDPOINT_INIT m (t_client t) task (ix `mod` t_offset t))
    else mret (PAMI_ENDPOINT_INIT m (t_client t) task (t_offset t)))).
  { pose proof denotes_not_eplist. unfold index2Endpoint. by destruct (t_type t). }
  rewrite Heq, index2Rank_contexts, Htask, Ok_bind by lia. cbn [default].
  pose proof width_of_pos as Hw. unfold width_of in *. destruct (t_all_contexts t); [|done].
  rewrite (proj2 (Z.eqb_neq _ _)) by lia. done.
Qed.

Lemma endpoint2Index_spec ix ep : 0 ≤ ix → endpoints t l !! Z.to_nat ix = Some ep →
  endpoint2Index m t ep s = Ok ix.
Proof.
  intros Hix Hep. pose proof (lookup_lt_Some _ _ _ Hep) as Hlt.
  destruct (endpoint_at ix) as (task&Htask&Ht&Hep'); [lia|]. rewrite Hep in Hep'. injection Hep' as ->.
  pose proof length_endpoints as Hlen. pose proof width_of_pos as Hw.
  destruct (index_in_block ix (width_of t) (Z.of_nat (length l)) Hw ltac:(lia)) as (Hq&Hr&Heq).
  destruct (offset_lookup (ix mod width_of t) Hr) as [_ Ho].
  set (o := if t_all_contexts t then ix mod width_of t else t_offset t) in *.
  assert (Hrun : endpoint2Index m t (PAMI_ENDPOINT_INIT m (t_client t) task o) s =
    (ix ← rank2Index m t task s; mret (if t_all_contexts t then w64 (ix * t_offset t + o) else ix))).
  { pose proof denotes_not_eplist. unfold endpoint2Index. rewrite (Hk _ _ _ Ht Ho).
    by destruct (t_type t). }
  rewrite Hrun, (rank2Index_spec m machine Hm s t l task Hd Ht).
  rewrite (find_index_lookup l _ task (denotes_NoDup m machine Hm s t l Hd) Htask), Ok_bind.
  cbn [default id]. unfold mret, res_ret. f_equal. subst o.
  unfold width_of, contexts_ok in *. destruct (t_all_contexts t); [|rewrite Z.div_1_r; lia].
  rewrite Z2Nat.id, <- Heq by lia. apply Z.mod_small. lia.
Qed.

Lemma isEndpointMember_spec ep : isEndpointMember m t ep s = Ok (bool_decide (ep ∈ endpoints t l)).
Proof.
  unfold isEndpointMember. rewrite size_endpoints, Nat2Z.id.
  pose proof (foldM_search (λ i, index2Endpoint m t (Z.of_nat i) s) ep (endpoints t l)
    (length (endpoints t l)) 0 false) as H.
  rewrite Nat.sub_0_r in H. apply H; [|done|lia].
  intros i Hi. rewrite index2Endpoint_spec by lia. by rewrite Nat2Z.id.
Qed.

Lemma NoDup_endpoints : NoDup (endpoints t l).
Proof.
  apply NoDup_alt. intros i j ep Hi Hj.
  pose proof (endpoint2Index_spec (Z.of_nat i) ep ltac:(lia)) as H1.
  pose proof (endpoint2Index_spec (Z.of_nat j) ep ltac:(lia)) as H2.
  rewrite Nat2Z.id in H1, H2. rewrite (H1 Hi) in H2. injection (H2 Hj) as ?. lia.
Qed.

End endpoints.
