(* ===== verification/TopologyAnalysis.v ===== *)
(** The analysis of a topology: the smallest segment around a list of tasks, the smallest
    range, and when they are the list itself. *)
From S2P Require Import Prelude.
From S2P Require Import Topology.
From S2P Require Import TopologyOps.
From S2P Require Import TopologySpec.
From S2P Require Import TopologyModel.

#[local] Opaque w64 w32.

(** * Arrays *)

Lemma put_Ok cap l x : Z.of_nat (length l) < cap → put cap l x = Ok (l ++ [x]).
Proof. intros H. unfold put. by rewrite (proj2 (Z.ltb_lt _ _) H). Qed.

Lemma foldM_put cap acc l : Z.of_nat (length acc) + Z.of_nat (length l) ≤ cap →
  foldM (put cap) acc l = Ok (acc ++ l).
Proof.
  revert acc. induction l as [|x l IH]; intros acc Hcap; cbn; [by rewrite app_nil_r|].
  cbn in Hcap. rewrite put_Ok by lia. cbn [mbind res_bind].
  rewrite IH by (rewrite length_app; cbn; lia). by rewrite <- (assoc_L (++)).
Qed.

Lemma next_address_fresh s : s !! next_address s = None.
Proof.
  destruct (s !! next_address s) as [l|] eqn:Hs; [|done]. exfalso.
  apply elem_of_map_to_list in Hs.
  assert (Hin : next_address s ∈ (map_to_list s).*1) by (apply list_elem_of_fmap; eexists (_, _); done).
  assert (Hmax : ∀ x l, x ∈ l → x ≤ foldr Z.max 0 l).
  { clear. intros x l. induction l as [|y l IH]; [by intros ?%elem_of_nil|].
    intros [->|Hx]%elem_of_cons; cbn; [lia|]. specialize (IH Hx). lia. }
  specialize (Hmax _ _ Hin). unfold next_address in Hmax. lia.
Qed.

Lemma new_array_extends l s : s ⊆ (new_array l s).2.
Proof. apply insert_subseteq, next_address_fresh. Qed.

(** * Permutations *)

Lemma NoDup_incl_perm {A} `{EqDecision A} (l k : list A) : NoDup l → (∀ x, x ∈ l → x ∈ k) →
  (length k ≤ length l)%nat → k ≡ₚ l.
Proof.
  intros Hnd Hincl Hlen. symmetry. apply submseteq_length_Permutation; [|done].
  by apply NoDup_submseteq.
Qed.

Lemma span_perm (l : list Z) a b : NoDup l → (∀ x, x ∈ l → a ≤ x ≤ b) →
  Z.of_nat (length l) = b - a + 1 → seqZ a (b - a + 1) ≡ₚ l.
Proof.
  intros Hnd Hin Hlen. apply NoDup_incl_perm; [done| |rewrite length_seqZ; lia].
  intros x Hx. apply elem_of_seqZ. specialize (Hin x Hx). lia.
Qed.

(** * Bounds *)

Lemma net_coord_set x v c y : (x < length (coords c))%nat →
  net_coord (set_coord x v c) y = if decide (y = x) then v else net_coord c y.
Proof.
  intros Hx. unfold net_coord, set_coord. cbn. destruct (decide (y = x)) as [->|].
  - by rewrite list_lookup_insert_eq.
  - by rewrite list_lookup_insert_ne.
Qed.

Lemma length_set_coord x v c : length (coords (set_coord x v c)) = length (coords c).
Proof. unfold set_coord. cbn. apply length_insert. Qed.

Lemma volume_mono r r' n : (∀ x, (x < n)%nat → 0 < width r x ≤ width r' x) → volume r n ≤ volume r' n.
Proof.
  induction n as [|n IH]; intros H; cbn; [done|]. specialize (IH ltac:(intros x Hx; apply H; lia)).
  destruct (H n ltac:(lia)). assert (0 < volume r n).
  { clear IH. assert (Hs : solid r n) by (intros x Hx; specialize (H x ltac:(lia)); unfold width in H; lia).
    by apply volume_pos. }
  nia.
Qed.

(** [min_max] of a list. *)
Lemma min_max_spec l : l ≠ [] → ∃ a b, min_max l = Ok (a, b) ∧ a ∈ l ∧ b ∈ l ∧ ∀ x, x ∈ l → a ≤ x ≤ b.
Proof.
  intros Hne. destruct l as [|r l]; [done|]. cbn [min_max].
  assert (Hgen : ∀ k seen a b, a ∈ seen → b ∈ seen → (∀ x, x ∈ seen → a ≤ x ≤ b) →
    ∃ a' b', foldl (λ '(min, max) r, if r <? min then (r, max) else
        if max <? r then (min, r) else (min, max)) (a, b) k = (a', b') ∧
      a' ∈ seen ++ k ∧ b' ∈ seen ++ k ∧ ∀ x, x ∈ seen ++ k → a' ≤ x ≤ b').
  { clear. induction k as [|r k IH]; intros seen a b Ha Hb Hall; cbn [foldl].
    - exists a, b. by rewrite app_nil_r.
    - replace (seen ++ r :: k) with ((seen ++ [r]) ++ k) by (by rewrite <- (assoc_L (++))).
      pose proof (Hall a Ha). pose proof (Hall b Hb).
      destruct (Z.ltb_spec r a) as [H1|H1]; [|destruct (Z.ltb_spec b r) as [H2|H2]];
        apply IH; (set_solver || (intros x [Hx|Hx]%elem_of_app;
          [specialize (Hall x Hx); lia|apply list_elem_of_singleton in Hx; lia])). }
  destruct (Hgen l [r] r r) as (a&b&Hrun&?); [set_solver|set_solver| |].
  { intros x ->%list_elem_of_singleton. lia. }
  exists a, b. by rewrite Hrun.
Qed.

Section analysis.
Context (m : Mapping) (machine : rectseg) (Hm : mapping_ok m machine).

Notation n := (dims m).

(** A segment within the machine. *)
Record within (r : rectseg) : Prop := {
  wi_net : network (llcorner r) = PAMI_N_TORUS_NETWORK ∧ network (urcorner r) = PAMI_N_TORUS_NETWORK;
  wi_length : length (coords (llcorner r)) = n ∧ length (coords (urcorner r)) = n;
  wi_order : ∀ x, (x < n)%nat → ll_at machine x ≤ ll_at r x ∧ ll_at r x ≤ ur_at r x ∧
    ur_at r x ≤ ur_at machine x
}.

Lemma within_ok r : within r → rect_ok n r.
Proof.
  intros [Hnet Hl Ho]. pose proof (mo_machine _ _ Hm) as Hmo. split; [done|done| |].
  - intros x Hx. specialize (Ho x Hx). pose proof (ro_range _ _ Hmo x Hx). lia.
  - pose proof (ro_volume _ _ Hmo). enough (volume r n ≤ volume machine n) by lia.
    apply volume_mono. intros x Hx. specialize (Ho x Hx). unfold width. lia.
Qed.

(** The state of the loop over the dimensions, after [k] of them. *)
Lemma bumpRange_prefix ll ur c k : length (coords ll) = n → length (coords ur) = n → (k ≤ n)%nat →
  (∀ x, (x < n)%nat → net_coord ll x ≤ net_coord ur x) →
  ∃ ll' ur', bumpRange (ll, ur) c k = (ll', ur') ∧ network ll' = network ll ∧
    network ur' = network ur ∧ length (coords ll') = n ∧ length (coords ur') = n ∧
    ∀ x, (x < n)%nat →
      net_coord ll' x = (if decide (x < k)%nat then Z.min (net_coord ll x) (net_coord c x) else net_coord ll x) ∧
      net_coord ur' x = (if decide (x < k)%nat then Z.max (net_coord ur x) (net_coord c x) else net_coord ur x).
Proof.
  intros Hl Hu. unfold bumpRange. induction k as [|k IH]; intros Hk Ho.
  - exists ll, ur. do 5 (split; [done|]). intros x Hx. rewrite !decide_False by lia. done.
  - rewrite seq_S, foldl_snoc. cbn [Nat.add].
    destruct IH as (ll'&ur'&->&Hn1&Hn2&Hl1&Hl2&Hx'); [lia|done|].
    destruct (Hx' k ltac:(lia)) as [Hk1 Hk2]. rewrite !decide_False in Hk1, Hk2 by lia.
    pose proof (Ho k ltac:(lia)) as Hok.
    destruct (Z.ltb_spec (net_coord c k) (net_coord ll' k)) as [H1|H1];
      [|destruct (Z.ltb_spec (net_coord ur' k) (net_coord c k)) as [H2|H2]];
      eexists _, _; (split; [reflexivity|]); rewrite ?length_set_coord; do 4 (split; [done|]);
      intros x Hx; destruct (Hx' x Hx) as [Hx1 Hx2]; rewrite ?net_coord_set by lia;
      (destruct (decide (x = k)) as [->|];
        [rewrite !(decide_True (P := (k < S k)%nat)) by lia; lia
        |rewrite Hx1, Hx2; split; (destruct (decide (x < k)%nat) as [?|?];
          [by rewrite decide_True by lia|by rewrite decide_False by lia])]).
Qed.

Lemma bumpRange_within ll ur tl c : within (mkRect ll ur tl) → length (coords c) = n →
  inside machine n (coords c) →
  let r' := mkRect (bumpRange (ll, ur) c n).1 (bumpRange (ll, ur) c n).2 tl in
  within r' ∧ inside r' n (coords c) ∧ ∀ d, inside (mkRect ll ur tl) n d → inside r' n d.
Proof.
  intros [[Hn1 Hn2] [Hl1 Hl2] Ho] Hlc Hc. cbn in *. unfold ll_at, ur_at in Ho. cbn in Ho.
  destruct (bumpRange_prefix ll ur c n Hl1 Hl2) as (ll'&ur'&->&Hn1'&Hn2'&Hl1'&Hl2'&Hx');
    [lia|intros x Hx; by apply Ho|]. cbn.
  assert (Heq : ∀ x, (x < n)%nat → net_coord ll' x = Z.min (net_coord ll x) (net_coord c x) ∧
                       net_coord ur' x = Z.max (net_coord ur x) (net_coord c x)).
  { intros x Hx. destruct (Hx' x Hx) as [-> ->]. by rewrite !decide_True by done. }
  split; [|split].
  - split; cbn; [by rewrite Hn1', Hn2'|done|]. intros x Hx. unfold ll_at, ur_at. cbn.
    destruct (Heq x Hx) as [-> ->]. specialize (Ho x Hx). specialize (Hc x Hx).
    unfold ll_at, ur_at in Hc. unfold net_coord in *. lia.
  - intros x Hx. unfold ll_at, ur_at. cbn. destruct (Heq x Hx) as [-> ->].
    unfold net_coord. lia.
  - intros d Hd x Hx. specialize (Hd x Hx). unfold ll_at, ur_at in *. cbn in *.
    destruct (Heq x Hx) as [-> ->]. lia.
Qed.

Lemma initRange_within c tl : length (coords c) = n → inside machine n (coords c) →
  let r := mkRect (initRange c n).1 (initRange c n).2 tl in within r ∧ inside r n (coords c).
Proof.
  intros Hl Hc. cbn. rewrite take_ge by lia. split; [split; cbn; [done|done|]|].
  - intros x Hx. specialize (Hc x Hx). unfold ll_at, ur_at, net_coord in *. cbn in *. lia.
  - intros x Hx. unfold ll_at, ur_at, net_coord. cbn. lia.
Qed.

(** [bounds_of] is a segment of the machine around the tasks. *)
Lemma bounds_of_spec l tl : Forall (is_task m) l → l ≠ [] →
  ∃ ll ur, bounds_of m l = Ok (ll, ur) ∧ within (mkRect ll ur tl) ∧
    ∀ r c, r ∈ l → task2network m r = Some c → inside (mkRect ll ur tl) n (coords c).
Proof.
  intros Ht Hne. destruct l as [|r l]; [done|]. apply Forall_cons in Ht as [[c Hc] Ht].
  cbn [bounds_of]. unfold RANK2COORDS. rewrite Hc. cbn [of_option mbind res_bind].
  destruct (coord_of_task m machine Hm r c Hc) as (_&Hl&_).
  pose proof (mo_inside _ _ Hm r c Hc) as Hin.
  destruct (initRange_within c tl Hl Hin) as [Hw Hin0].
  assert (Hall : ∀ r0 c0, r0 ∈ [r] → task2network m r0 = Some c0 →
    inside (mkRect (initRange c n).1 (initRange c n).2 tl) n (coords c0)).
  { intros r0 c0 ->%list_elem_of_singleton Hc0. rewrite Hc in Hc0. by injection Hc0 as <-. }
  clear Hin0. change (r :: l) with ([r] ++ l). revert Hw Hall. generalize (initRange c n) as llur.
  generalize [r] as seen. clear r c Hc Hl Hin Hne.
  induction l as [|r l IH]; intros seen [ll ur] Hw Hall; cbn [foldM].
  - exists ll, ur. by rewrite app_nil_r.
  - apply Forall_cons in Ht as [[c Hc] Ht]. rewrite Hc. cbn [of_option mbind res_bind mret res_ret].
    destruct (coord_of_task m machine Hm r c Hc) as (_&Hl&_).
    destruct (bumpRange_within ll ur tl c Hw Hl (mo_inside _ _ Hm r c Hc)) as (Hw'&Hin'&Hmono).
    destruct (IH Ht (seen ++ [r]) (bumpRange (ll, ur) c n) Hw') as (ll'&ur'&Hrun&Hw''&Hall').
    { intros r0 c0 [Hr0|Hr0]%elem_of_app Hc0; [by eapply Hmono, Hall|].
      apply list_elem_of_singleton in Hr0 as ->. rewrite Hc in Hc0. by injection Hc0 as <-. }
    exists ll', ur'. split; [done|]. split; [done|]. intros r0 c0 Hr0. apply Hall'.
    rewrite <- (assoc_L (++)). done.
Qed.

(** Tasks that fill the segment around them are the segment. *)
Lemma segment_perm r l : within r → NoDup l → Forall (is_task m) l →
  (∀ rank c, rank ∈ l → task2network m rank = Some c → inside r n (coords c)) →
  Z.of_nat (length l) = volume r n → full m r ∧ ranks_of m r ≡ₚ l.
Proof.
  intros Hw Hnd Ht Hin Hlen. pose proof (ro_range _ _ (within_ok _ Hw)) as Hrr.
  set (coord_of rank := default [] (coords <$> task2network m rank)).
  assert (Hat : ∀ rank, rank ∈ l → rank_at m (coord_of rank) = rank ∧ length (coord_of rank) = n ∧
                        inside r n (coord_of rank) ∧ is_Some (network2task m (torus_coord (coord_of rank)))).
  { intros rank Hr. destruct (proj1 (Forall_forall _ _) Ht rank Hr) as [c Hc]. unfold coord_of.
    rewrite Hc. cbn. destruct (coord_of_task m machine Hm rank c Hc) as (Hcc&?&?).
    split; [done|]. split; [done|]. split; [by eapply Hin|]. rewrite <- Hcc.
    destruct (mo_coord _ _ Hm rank c Hc) as (_&_&->). eauto. }
  assert (Hperm : box r n ≡ₚ coord_of <$> l).
  { apply NoDup_incl_perm.
    - apply NoDup_fmap_2_strong; [|done]. intros r1 r2 H1 H2 Heq.
      destruct (Hat r1 H1) as [<- _]. destruct (Hat r2 H2) as [<- _]. by rewrite Heq.
    - intros c (rank&->&Hr)%list_elem_of_fmap. apply elem_of_box.
      destruct (Hat rank Hr) as (_&?&?&_). done.
    - rewrite length_fmap. pose proof (length_box r n (in_range_solid _ _ Hrr)). lia. }
  split.
  - intros c Hc. rewrite Hperm in Hc. apply list_elem_of_fmap in Hc as (rank&->&Hr). by apply Hat.
  - unfold ranks_of. rewrite Hperm, <- list_fmap_compose.
    assert (Hid : rank_at m ∘ coord_of <$> l = l).
    { rewrite <- (list_fmap_id l) at 2. apply list_fmap_ext. intros i rank Hr. cbn.
      apply Hat. by eapply list_elem_of_lookup_2. }
    by rewrite Hid.
Qed.

End analysis.
