(* ===== verification/TopologyConvert.v ===== *)
(** Conversions and listings of a topology, against the list of tasks it denotes. *)
From S2P Require Import Prelude.
From S2P Require Import Topology.
From S2P Require Import TopologyOps.
From S2P Require Import TopologySpec.
From S2P Require Import TopologyModel.
From S2P Require Import TopologyAnalysis.

#[local] Opaque w64 w32.

Section convert.
Context (m : Mapping) (machine : rectseg) (Hm : mapping_ok m machine).

Notation n := (dims m).

(** * Segments *)

Lemma COORDS2RANK_full r c k : full m r → c ∈ box r n → COORDS2RANK m (torus_coord c) k = rank_at m c.
Proof. intros Hf Hc. unfold COORDS2RANK, rank_at. by destruct (Hf c Hc) as [? ->]. Qed.

Lemma put_rank_full cap r l k c : full m r → c ∈ box r n → Z.of_nat (length l) < cap →
  put_rank m cap (l, k) (torus_coord c) = Ok (l ++ [rank_at m c], rank_at m c).
Proof.
  intros Hf Hc Hl. unfold put_rank. cbn [fst snd]. rewrite (COORDS2RANK_full r) by done.
  by rewrite put_Ok.
Qed.

Lemma widen_rank_full r ab k c : full m r → c ∈ box r n →
  widen_rank m (ab, k) (torus_coord c) = Ok (widen ab (rank_at m c), rank_at m c).
Proof. intros Hf Hc. unfold widen_rank. cbn [fst snd]. by rewrite (COORDS2RANK_full r). Qed.

(** The corner a loop over a segment starts from. *)
Lemma torus_corner_eq r : rect_ok n r →
  llcorner r = torus_coord (coords (llcorner r)) ∧ length (coords (llcorner r)) = n.
Proof.
  intros Hr. pose proof (ro_net _ _ Hr) as [Hn _]. pose proof (ro_length _ _ Hr) as [Hl _].
  split; [|done]. destruct (llcorner r) as [net cs]. cbn in *. by subst.
Qed.

Lemma coord_loop_torus {A} (body : A → pami_coord_t → res A) (more : A → bool) r a : rect_ok n r →
  coord_loop m body more (loop_fuel m r) r (llcorner r) a =
  visit (λ a c, body a (torus_coord c)) more a (box r n).
Proof.
  intros Hr. destruct (torus_corner_eq r Hr) as [Hc Hl].
  pose proof (coord_loop_all m body more r PAMI_N_TORUS_NETWORK a (ro_range _ _ Hr) Hl) as H.
  unfold torus_coord in *. by rewrite Hc.
Qed.

(** The loop that lists the ranks, in an array of [cap] elements. *)
Lemma list_ranks cap r cs acc k : full m r → (∀ c, c ∈ cs → c ∈ box r n) →
  Z.of_nat (length acc) + Z.of_nat (length cs) ≤ cap →
  ∃ k', foldM (λ a c, put_rank m cap a (torus_coord c)) (acc, k) cs = Ok (acc ++ (rank_at m <$> cs), k').
Proof.
  intros Hf. revert acc k. induction cs as [|c cs IH]; intros acc k Hcs Hcap; cbn [foldM].
  - exists k. by rewrite app_nil_r.
  - cbn in Hcap. rewrite (put_rank_full cap r) by (done || (apply Hcs; by left) || lia).
    rewrite Ok_bind.
    destruct (IH (acc ++ [rank_at m c]) (rank_at m c)) as (k'&->);
      [intros d Hd; apply Hcs; by right|rewrite length_app; cbn; lia|].
    exists k'. by rewrite <- (assoc_L (++)).
Qed.

Lemma segment_ranks_spec cap r : rect_ok n r → full m r → Z.of_nat (length (ranks_of m r)) ≤ cap →
  segment_ranks m cap r = Ok (ranks_of m r).
Proof.
  intros Hr Hf Hcap. unfold segment_ranks. rewrite coord_loop_torus, visit_always by done.
  unfold ranks_of in Hcap. rewrite length_fmap in Hcap.
  destruct (list_ranks cap r (box r n) [] 0 Hf) as (k'&->); [done|cbn; lia|done].
Qed.

(** The loop that stops when the caller's array is full. *)
Lemma list_some_ranks cap r cs acc k : full m r → (∀ c, c ∈ cs → c ∈ box r n) →
  Z.of_nat (length acc) < cap →
  ∃ k', visit (λ a c, put_rank m cap a (torus_coord c))
    (λ a, Z.of_nat (length a.1) <? cap) (acc, k) cs =
    Ok (take (Z.to_nat cap) (acc ++ (rank_at m <$> cs)), k').
Proof.
  intros Hf. revert acc k. induction cs as [|c cs IH]; intros acc k Hcs Hcap; cbn [visit].
  - exists k. rewrite app_nil_r, take_ge by lia. done.
  - rewrite (put_rank_full cap r) by (done || apply Hcs; by left). rewrite Ok_bind. cbn [fst].
    destruct (Z.ltb_spec (Z.of_nat (length (acc ++ [rank_at m c]))) cap) as [Hlt|Hge].
    + destruct (IH (acc ++ [rank_at m c]) (rank_at m c)) as (k'&->);
        [intros d Hd; apply Hcs; by right|done|].
      exists k'. by rewrite <- (assoc_L (++)).
    + exists (rank_at m c). cbn [fmap list_fmap].
      change (rank_at m c :: (rank_at m <$> cs)) with ([rank_at m c] ++ (rank_at m <$> cs)).
      rewrite (assoc_L (++)), take_app_le, take_ge by (rewrite ?length_app in *; cbn in *; lia). done.
Qed.

Lemma getRankList_spec s t l max : denotes m s t l → 0 < max →
  getRankList m t max s = Ok (take (Z.to_nat max) l, Z.of_nat (length l)).
Proof.
  intros Hd Hmax. pose proof Hd as [Hs Hsz Ht]. unfold getRankList.
  rewrite (proj2 (Z.eqb_neq max 0)) by lia. cbn [negb assert mbind res_bind]. rewrite Hsz.
  destruct (t_type t) eqn:Hty.
  - inversion Hs; subst. by rewrite take_nil.
  - inversion Hs as [|r Hl Hu Htp| | |]. unfold topo_rank. rewrite <- Htp. subst l. cbn.
    by rewrite take_ge by (cbn; lia).
  - inversion Hs as [| |f la Hfl Hl Hu Htp| |]. unfold topo_rankrange. rewrite <- Htp.
    cbn [mbind res_bind mret res_ret]. do 2 f_equal. rewrite Hl.
    destruct (Z.min_spec (la - f + 1) max) as [[? ->]|[? ->]].
    + by rewrite take_ge by (rewrite length_seqZ; lia).
    + replace (la - f + 1) with (max + (la - f + 1 - max)) by lia.
      rewrite seqZ_app by lia. rewrite take_app_le, take_ge by (rewrite length_seqZ; lia). done.
  - by rewrite (denotes_items m s t l Hd Hty).
  - inversion Hs as [| | | |r Hro Hf Hl Hu Htp]. unfold topo_rect. rewrite <- Htp.
    cbn [mbind res_bind]. destruct (torus_corner_eq r Hro) as [Hc Hlen].
    rewrite take_ge by lia. unfold torus_coord in Hc. rewrite <- Hc, coord_loop_torus by done.
    destruct (list_some_ranks max r (box r n) [] 0 Hf) as (k'&->); [done|cbn; lia|].
    cbn. by rewrite Hl.
  - inversion Hs.
  - inversion Hs.
Qed.

(** The smallest and largest rank of a segment. *)
Lemma segment_min_max_spec r : rect_ok n r → full m r → Forall (is_task m) (ranks_of m r) →
  ranks_of m r ≠ [] →
  ∃ a b, segment_min_max m r = Ok (a, b) ∧ a ∈ ranks_of m r ∧ b ∈ ranks_of m r ∧
    ∀ x, x ∈ ranks_of m r → a ≤ x ≤ b.
Proof.
  intros Hr Hf Ht Hne. unfold segment_min_max. rewrite coord_loop_torus, visit_always by done.
  assert (Hgen : ∀ cs seen a b k, (∀ c, c ∈ cs → c ∈ box r n) →
    (∀ x, x ∈ seen → a ≤ x ≤ b) → (seen = [] → a = no_task ∧ b = 0) →
    (seen ≠ [] → a ∈ seen ∧ b ∈ seen) →
    ∃ a' b' k', foldM (λ a c, widen_rank m a (torus_coord c)) (a, b, k) cs = Ok (a', b', k') ∧ (∀ x, x ∈ seen ++ (rank_at m <$> cs) → a' ≤ x ≤ b') ∧
      (seen ++ (rank_at m <$> cs) ≠ [] → a' ∈ seen ++ (rank_at m <$> cs) ∧ b' ∈ seen ++ (rank_at m <$> cs))).
  { induction cs as [|c cs IH]; intros seen a b k Hcs Hall Hnil Hin; cbn [foldM].
    - exists a, b, k. cbn [fmap list_fmap]. rewrite app_nil_r. done.
    - rewrite (widen_rank_full r) by (done || apply Hcs; by left). rewrite Ok_bind.
      unfold widen. cbn [fst snd].
      assert (Hrange : 0 ≤ rank_at m c < 2 ^ 32 - 1).
      { apply (mo_range _ _ Hm). apply (proj1 (Forall_forall _ _) Ht). apply list_elem_of_fmap.
        exists c. split; [done|]. apply Hcs. by left. }
      cbn [fmap list_fmap].
      replace (seen ++ rank_at m c :: (rank_at m <$> cs)) with
        ((seen ++ [rank_at m c]) ++ (rank_at m <$> cs)) by (by rewrite <- (assoc_L (++))).
      apply IH; [intros d Hd; apply Hcs; by right| |by destruct seen|intros _].
      + intros x [Hx|Hx]%elem_of_app; [specialize (Hall x Hx); destruct (Z.ltb_spec (rank_at m c) a),
          (Z.ltb_spec b (rank_at m c)); lia|].
        apply list_elem_of_singleton in Hx as ->.
        destruct (Z.ltb_spec (rank_at m c) a), (Z.ltb_spec b (rank_at m c)); lia.
      + destruct seen as [|y seen].
        * destruct (Hnil eq_refl) as [-> ->]. unfold no_task. cbn [app].
          rewrite (proj2 (Z.ltb_lt _ _)) by lia.
          destruct (Z.ltb_spec 0 (rank_at m c)); split; try by left.
          assert (rank_at m c = 0) as -> by lia. by left.
        * destruct (Hin ltac:(done)). destruct (Z.ltb_spec (rank_at m c) a),
            (Z.ltb_spec b (rank_at m c)); set_solver. }
  destruct (Hgen (box r n) [] no_task 0 0) as (a&b&k&Hrun&Hall&Hin); [done|set_solver|done|done|].
  rewrite Hrun. exists a, b. cbn. destruct (Hin Hne). done.
Qed.

(** * Conversion *)

Lemma denotes_build s t type topo l b : shape m s l type topo → t_size t = Z.of_nat (length l) →
  Forall (is_task m) l → denotes m s (build t type topo (t_size t) b) l.
Proof. intros. by split. Qed.

Lemma owned_denotes s t l : t_size t = Z.of_nat (length l) → l ≠ [] → NoDup l →
  Forall (is_task m) l → denotes m (owned t l s).2 (owned t l s).1 l.
Proof.
  intros Hsz Hne Hnd Ht. split; [|done|done]. cbn. eapply shape_list; [apply lookup_insert_eq| |done|done].
  by rewrite take_ge.
Qed.

(** What a conversion may do: the same tasks, maybe in another order, and the type asked
    for when it says that it changed. *)
Definition converted (s s' : arrays) (t t' : Topology) (l : list Z) (ty : pami_topology_type_t)
    (changed : bool) : Prop :=
  ∃ l', denotes m s' t' l' ∧ l' ≡ₚ l ∧
    if changed then t_type t' = ty else t' = t ∧ s' = s.

Lemma converted_same s t l ty : denotes m s t l → converted s s t t l ty false.
Proof. intros. by exists l. Qed.

(** The tasks of a topology in a segment around them. *)
Lemma bounds_converted t l ll ur : Forall (is_task m) l → NoDup l → t_size t = Z.of_nat (length l) →
  within m machine (mkRect ll ur (torusInformation m ll ur)) →
  (∀ r c, r ∈ l → task2network m r = Some c →
     inside (mkRect ll ur (torusInformation m ll ur)) n (coords c)) →
  sizeRange ll ur n = t_size t →
  ∀ s b, ∃ l', denotes m s (build t PAMI_COORD_TOPOLOGY (rect_of m ll ur) (t_size t) b) l' ∧ l' ≡ₚ l.
Proof.
  intros Ht Hnd Hsz Hw Hin Hsize s b. set (r := mkRect ll ur (torusInformation m ll ur)) in *.
  pose proof (within_ok m machine Hm r Hw) as Hro.
  pose proof (sizeRange_volume r n (ro_range _ _ Hro) (ro_volume _ _ Hro)) as Hv. cbn in Hv.
  destruct (segment_perm m machine Hm r l Hw Hnd Ht Hin) as [Hf Hperm]; [lia|].
  exists (ranks_of m r). split; [|done]. apply denotes_build.
  - by apply shape_coord.
  - rewrite Hperm. done.
  - by rewrite Hperm.
Qed.

Lemma analyzeCoordsRange_spec s t l : denotes m s t l → t_type t = PAMI_RANGE_TOPOLOGY →
  ∃ t' b, analyzeCoordsRange m t = Ok (t', b) ∧ converted s s t t' l PAMI_COORD_TOPOLOGY b.
Proof.
  intros Hd Hty. pose proof Hd as [Hs Hsz Ht]. rewrite Hty in Hs.
  inversion Hs as [| |f la Hfl Hl Hu Htp| |]. unfold analyzeCoordsRange, topo_rankrange.
  rewrite <- Htp. cbn [mbind res_bind].
  assert (Hlast : la ∈ l) by (rewrite Hl; apply elem_of_seqZ; lia).
  pose proof (denotes_range m machine Hm s t l la Hd Hlast) as Hlar. unfold task_range.
  rewrite (proj2 (Z.eqb_neq la _)) by lia. rewrite bind_ret, <- Hl.
  destruct (bounds_of_spec m machine Hm l [] Ht) as (ll&ur&Hrun&_&_); [by intros ->; apply elem_of_nil in Hlast|].
  destruct (bounds_of_spec m machine Hm l (torusInformation m ll ur) Ht) as (ll'&ur'&Hrun'&Hw&Hin);
    [by intros ->; apply elem_of_nil in Hlast|].
  rewrite Hrun in Hrun'. injection Hrun' as <- <-. rewrite Hrun. cbn [mbind res_bind].
  destruct (Z.eqb_spec (sizeRange ll ur n) (t_size t)) as [Heq|]; eexists _, _; (split; [reflexivity|]).
  - destruct (bounds_converted t l ll ur Ht (denotes_NoDup m machine Hm s t l Hd) Hsz Hw Hin Heq s
      (t_free_ranklist t)) as (l'&?&?). by exists l'.
  - by apply converted_same.
Qed.

(** The array of an owned list can be freed. *)
Lemma drop_list_spec s t l : denotes m s t l → t_type t = PAMI_LIST_TOPOLOGY →
  ∃ s', drop_list t s = Ok s'.
Proof.
  intros [Hs _ _] Hty. rewrite Hty in Hs. inversion Hs as [| | |a arr Ha Hl Hne Hnd Hu Htp|].
  unfold drop_list, topo_ranklist, free_array. rewrite <- Htp. cbn [mbind res_bind]. rewrite Ha.
  destruct (t_free_ranklist t); eauto.
Qed.

Lemma list_nonempty s t l : denotes m s t l → t_type t = PAMI_LIST_TOPOLOGY → l ≠ [].
Proof. intros [Hs _ _] Hty. rewrite Hty in Hs. by inversion Hs. Qed.

Lemma analyzeCoordsList_spec s t l : denotes m s t l → t_type t = PAMI_LIST_TOPOLOGY →
  ∃ t' s' b, analyzeCoordsList m t s = Ok (t', s', b) ∧ converted s s' t t' l PAMI_COORD_TOPOLOGY b.
Proof.
  intros Hd Hty. pose proof Hd as [Hs Hsz Ht]. pose proof (list_nonempty s t l Hd Hty) as Hne.
  unfold analyzeCoordsList. rewrite (denotes_items m s t l Hd Hty). cbn [mbind res_bind].
  destruct (bounds_of_spec m machine Hm l [] Ht Hne) as (ll&ur&Hrun&_&_).
  destruct (bounds_of_spec m machine Hm l (torusInformation m ll ur) Ht Hne) as (ll'&ur'&Hrun'&Hw&Hin).
  rewrite Hrun in Hrun'. injection Hrun' as <- <-. rewrite Hrun. cbn [mbind res_bind].
  destruct (Z.eqb_spec (sizeRange ll ur n) (t_size t)) as [Heq|].
  - destruct (drop_list_spec s t l Hd Hty) as (s'&->). eexists _, s', _. split; [reflexivity|].
    destruct (bounds_converted t l ll ur Ht (denotes_NoDup m machine Hm s t l Hd) Hsz Hw Hin Heq s'
      false) as (l'&?&?). by exists l'.
  - eexists _, _, _. split; [reflexivity|]. by apply converted_same.
Qed.

(** A range as long as the list, around its tasks. *)
Lemma span_converted t l a b : Forall (is_task m) l → NoDup l → t_size t = Z.of_nat (length l) →
  a ∈ l → b ∈ l → (∀ x, x ∈ l → a ≤ x ≤ b) → t_size t = w32 (b - a + 1) →
  ∀ s f, ∃ l', denotes m s (build t PAMI_RANGE_TOPOLOGY (u_rankrange a b) (t_size t) f) l' ∧ l' ≡ₚ l.
Proof.
  intros Ht Hnd Hsz Ha Hb Hall Hsize s f.
  assert (Hr : ∀ x, x ∈ l → 0 ≤ x < 2 ^ 32 - 1).
  { intros x Hx. apply (mo_range _ _ Hm). by eapply Forall_forall. }
  pose proof (Hr a Ha). pose proof (Hr b Hb). pose proof (Hall a Ha).
  rewrite w32_small in Hsize by lia.
  pose proof (span_perm l a b Hnd Hall ltac:(lia)) as Hperm.
  exists (seqZ a (b - a + 1)). split; [|done]. apply denotes_build.
  - apply shape_range; [lia|done].
  - rewrite length_seqZ. lia.
  - by rewrite Hperm.
Qed.

Lemma analyzeRangeList_spec s t l : denotes m s t l → t_type t = PAMI_LIST_TOPOLOGY →
  ∃ t' s' b, analyzeRangeList t s = Ok (t', s', b) ∧ converted s s' t t' l PAMI_RANGE_TOPOLOGY b.
Proof.
  intros Hd Hty. pose proof Hd as [Hs Hsz Ht]. pose proof (list_nonempty s t l Hd Hty) as Hne.
  unfold analyzeRangeList. rewrite (denotes_items m s t l Hd Hty). cbn [mbind res_bind].
  destruct (min_max_spec l Hne) as (a&b&->&Ha&Hb&Hall). cbn [mbind res_bind].
  destruct (Z.eqb_spec (t_size t) (w32 (b - a + 1))) as [Heq|].
  - destruct (drop_list_spec s t l Hd Hty) as (s'&->). eexists _, s', _. split; [reflexivity|].
    destruct (span_converted t l a b Ht (denotes_NoDup m machine Hm s t l Hd) Hsz Ha Hb Hall Heq s'
      false) as (l'&?&?). by exists l'.
  - eexists _, _, _. split; [reflexivity|]. by apply converted_same.
Qed.

End convert.
