(* ===== verification/TopologySets.v ===== *)
(** Intersections, differences and local parts of topologies, against the lists of tasks
    they denote. *)
From S2P Require Import Prelude.
From S2P Require Import Topology.
From S2P Require Import TopologyOps.
From S2P Require Import TopologySpec.
From S2P Require Import TopologyModel.
From S2P Require Import TopologyAnalysis.
From S2P Require Import TopologyConvert.

#[local] Opaque w64 w32.

Section sets.
Context (m : Mapping) (machine : rectseg) (Hm : mapping_ok m machine).

Notation n := (dims m).

(** [new'] is the tasks [l] in some order, and what was allocated before is there. *)
Definition is_set (s s' : arrays) (new' : Topology) (l : list Z) : Prop :=
  (∃ l', denotes m s' new' l' ∧ l' ≡ₚ l) ∧ s ⊆ s'.

Lemma is_set_ok s s' new l : denotes m s' new l → s ⊆ s' → is_set s s' new l.
Proof. intros Hd Hs. split; [by exists l|done]. Qed.

Lemma empty_denotes s new : denotes m s (empty new) [].
Proof. split; [by apply shape_empty|done|by apply Forall_nil]. Qed.

Lemma nothing_left_denotes s new : denotes m s (nothing_left new) [].
Proof. split; [by apply shape_empty|done|by apply Forall_nil]. Qed.

Lemma single_denotes s new r : is_task m r →
  denotes m s (build new PAMI_SINGLE_TOPOLOGY (u_rank r) 1 false) [r].
Proof. intros Hr. split; [by apply shape_single|done|by apply Forall_singleton]. Qed.

Lemma range_denotes s new f la : f ≤ la → Forall (is_task m) (seqZ f (la - f + 1)) →
  denotes m s (build new PAMI_RANGE_TOPOLOGY (u_rankrange f la) (la - f + 1) false) (seqZ f (la - f + 1)).
Proof.
  intros Hfl Ht. split; [by apply shape_range|cbn; rewrite length_seqZ; lia|done].
Qed.

Lemma list_denotes s new l f : l ≠ [] → NoDup l → Forall (is_task m) l →
  denotes m (new_array l s).2
    (build new PAMI_LIST_TOPOLOGY (u_list (new_array l s).1) (Z.of_nat (length l)) f) l.
Proof.
  intros Hne Hnd Ht. split; [|done|done]. cbn. eapply shape_list; [apply lookup_insert_eq| |done|done].
  by rewrite take_ge.
Qed.

(** A topology in another memory with the same arrays. *)
Lemma denotes_extends s s' t l : denotes m s t l → s ⊆ s' → denotes m s' t l.
Proof.
  intros [Hs Hsz Ht] Hsub. split; [|done|done]. destruct Hs; subst.
  - by apply shape_empty.
  - by apply shape_single.
  - by apply shape_range.
  - eapply shape_list; [eapply lookup_weaken; done|done..].
  - by apply shape_coord.
Qed.

(** [*_new = *this]. *)
Lemma assign_spec s new t l : denotes m s t l → ∃ new' s', assign new t s = Ok (new', s') ∧
  denotes m s' new' l ∧ s ⊆ s' ∧ t_type new' = t_type t.
Proof.
  intros Hd. pose proof Hd as [Hs Hsz Ht]. pose proof (denotes_NoDup m machine Hm s t l Hd) as Hnd.
  unfold assign, clone. destruct (t_type t) eqn:Hty; try (by inversion Hs).
  all: try (eexists _, s; split; [reflexivity|]; split; [by split|]; by split).
  rewrite (denotes_items m s t l Hd Hty). cbn [mbind res_bind].
  eexists _, _. split; [reflexivity|]. split; [|split; [apply (new_array_extends l)|done]].
  rewrite Hsz. apply (list_denotes s t l true); [|done|done]. by inversion Hs.
Qed.

(** * Intersection *)

Lemma foldM_filter cap (f : Z → bool) acc l :
  Z.of_nat (length acc) + Z.of_nat (length (filter (λ x, f x = true) l)) ≤ cap →
  foldM (λ rl r, if f r then put cap rl r else mret rl) acc l =
  Ok (acc ++ filter (λ x, f x = true) l).
Proof.
  revert acc. induction l as [|x l IH]; intros acc Hcap; cbn [foldM].
  - by rewrite app_nil_r.
  - destruct (f x) eqn:Hf.
    + rewrite filter_cons_True in * by done. cbn [length] in Hcap. rewrite put_Ok by lia.
      rewrite Ok_bind, IH by (rewrite length_app; cbn; lia). by rewrite <- (assoc_L (++)).
    + rewrite filter_cons_False in * by congruence. by rewrite bind_ret, IH.
Qed.

(** Looking an element up in a list without repetitions finds it once. *)
Lemma foldM_eqb cap x acc l : NoDup l → Z.of_nat (length acc) < cap ∨ x ∉ l →
  foldM (λ rl y, if x =? y then put cap rl x else mret rl) acc l =
  Ok (if decide (x ∈ l) then acc ++ [x] else acc).
Proof.
  intros Hnd. revert acc. induction Hnd as [|y l Hy Hnd IH]; intros acc Hcap; cbn [foldM].
  - by rewrite decide_False by apply not_elem_of_nil.
  - destruct (Z.eqb_spec x y) as [->|Hxy].
    + rewrite put_Ok by (destruct Hcap as [?|Hx]; [done|exfalso; apply Hx; by left]).
      rewrite Ok_bind, IH by (by right). rewrite decide_False by done. by rewrite decide_True by (by left).
    + rewrite bind_ret, IH by (destruct Hcap as [?|Hx]; [by left|right; set_solver]).
      destruct (decide (x ∈ l)); [by rewrite decide_True by (by right)|by rewrite decide_False by set_solver].
Qed.

Lemma common_spec cap l1 l2 : NoDup l1 → NoDup l2 →
  Z.of_nat (length (filter (.∈ l2) l1)) ≤ cap → common cap l1 l2 = Ok (filter (.∈ l2) l1).
Proof.
  intros Hnd1 Hnd2. unfold common.
  assert (Hgen : ∀ acc, Z.of_nat (length acc) + Z.of_nat (length (filter (.∈ l2) l1)) ≤ cap →
    foldM (λ rl x, foldM (λ rl y, if x =? y then put cap rl x else mret rl) rl l2) acc l1 =
    Ok (acc ++ filter (.∈ l2) l1)); [|intros Hcap; by apply (Hgen [])].
  clear Hnd1. induction l1 as [|x l1 IH]; intros acc Hcap; cbn [foldM]; [by rewrite app_nil_r|].
  destruct (decide (x ∈ l2)) as [Hx|Hx].
  - rewrite filter_cons_True in * by done. cbn [length] in Hcap.
    rewrite foldM_eqb by (done || left; lia). rewrite decide_True by done.
    rewrite Ok_bind, IH by (rewrite length_app; cbn; lia). by rewrite <- (assoc_L (++)).
  - rewrite filter_cons_False in * by done. rewrite foldM_eqb by (done || by right).
    rewrite decide_False by done. by rewrite Ok_bind, IH.
Qed.

(** Filters of the same elements. *)
Lemma filter_perm (l1 l2 : list Z) : NoDup l1 → NoDup l2 → filter (.∈ l2) l1 ≡ₚ filter (.∈ l1) l2.
Proof.
  intros H1 H2. apply NoDup_Permutation; [by apply NoDup_filter..|].
  intros x. rewrite !list_elem_of_filter. tauto.
Qed.

Lemma tasks_filter (P : Z → Prop) `{∀ x, Decision (P x)} l :
  Forall (is_task m) l → Forall (is_task m) (filter P l).
Proof.
  rewrite !Forall_forall. intros Ht x Hx. apply Ht. by apply list_elem_of_filter in Hx as [_ ?].
Qed.

(** Two segments meet in every dimension. *)
Definition overlap (r r' : rectseg) : Prop :=
  ∀ x, (x < n)%nat → Z.max (ll_at r x) (ll_at r' x) ≤ Z.min (ur_at r x) (ur_at r' x).

Lemma coordLT_false c0 c1 : (∃ x, (x < n)%nat ∧ net_coord c1 x ≤ net_coord c0 x) →
  coordLT c0 c1 n = false.
Proof.
  intros (x&Hx&Hc). apply not_true_iff_false. unfold coordLT. rewrite forallb_forall.
  intros H. specialize (H x). rewrite in_seq in H. specialize (H ltac:(lia)).
  apply negb_true_iff, Z.leb_gt in H. lia.
Qed.

(** The two corners that were in [_new]. *)
Definition torus_storage (new : Topology) : Prop :=
  ∃ r, t_topo new = u_rectseg r ∧ network (llcorner r) = PAMI_N_TORUS_NETWORK ∧
    network (urcorner r) = PAMI_N_TORUS_NETWORK ∧
    (length (coords (llcorner r)) ≤ n)%nat ∧ (length (coords (urcorner r)) ≤ n)%nat.

Lemma coordMAX_at new c0 c1 x : (x < n)%nat →
  net_coord (coordMAX new c0 c1 n) x = Z.max (net_coord c0 x) (net_coord c1 x).
Proof.
  intros Hx. unfold net_coord at 1. unfold coordMAX. cbn [coords].
  rewrite lookup_app_l by (rewrite length_fmap, length_seq; done).
  rewrite list_lookup_fmap, lookup_seq_lt by done. cbn [fmap option_fmap option_map default Nat.add].
  destruct (Z.ltb_spec (net_coord c1 x) (net_coord c0 x)); cbn [id]; lia.
Qed.

Lemma coordMIN_at new c0 c1 x : (x < n)%nat →
  net_coord (coordMIN new c0 c1 n) x = Z.min (net_coord c0 x) (net_coord c1 x).
Proof.
  intros Hx. unfold net_coord at 1. unfold coordMIN. cbn [coords].
  rewrite lookup_app_l by (rewrite length_fmap, length_seq; done).
  rewrite list_lookup_fmap, lookup_seq_lt by done. cbn [fmap option_fmap option_map default Nat.add].
  destruct (Z.ltb_spec (net_coord c0 x) (net_coord c1 x)); cbn [id]; lia.
Qed.

Lemma coordMAX_spec new c0 c1 x : (length (coords new) ≤ n)%nat → (x < n)%nat →
  length (coords (coordMAX new c0 c1 n)) = n ∧
  net_coord (coordMAX new c0 c1 n) x = Z.max (net_coord c0 x) (net_coord c1 x).
Proof.
  intros Hl Hx. split; [|by apply coordMAX_at]. unfold coordMAX. cbn [coords].
  by rewrite drop_ge, app_nil_r, length_fmap, length_seq by done.
Qed.

Lemma coordMIN_spec new c0 c1 x : (length (coords new) ≤ n)%nat → (x < n)%nat →
  length (coords (coordMIN new c0 c1 n)) = n ∧
  net_coord (coordMIN new c0 c1 n) x = Z.min (net_coord c0 x) (net_coord c1 x).
Proof.
  intros Hl Hx. split; [|by apply coordMIN_at]. unfold coordMIN. cbn [coords].
  by rewrite drop_ge, app_nil_r, length_fmap, length_seq by done.
Qed.

(** What is no task is in no segment. *)
Lemma no_task_not_in rank : task2network m rank = None → ∀ q, full m q → rank ∉ ranks_of m q.
Proof.
  intros Hc q Hf (c&->&Hcq)%list_elem_of_fmap. destruct (Hf c Hcq) as [r Hr].
  pose proof (rank_at_task m machine Hm c r Hr (length_in_box _ _ _ Hcq)). congruence.
Qed.

(** A full segment's part in another segment. *)
Lemma meet_segments r r' q : full m r → full m r' → rect_ok n q →
  (∀ x, (x < n)%nat → ll_at q x = Z.max (ll_at r x) (ll_at r' x) ∧ ur_at q x = Z.min (ur_at r x) (ur_at r' x)) →
  full m q ∧ ranks_of m q ≡ₚ filter (.∈ ranks_of m r') (ranks_of m r).
Proof.
  intros Hf Hf' Hq Hx.
  assert (Hin : ∀ c, inside q n c ↔ inside r n c ∧ inside r' n c).
  { intros c. split.
    - intros H. split; intros x Hlt; specialize (H x Hlt); destruct (Hx x Hlt); lia.
    - intros [H1 H2] x Hlt. destruct (Hx x Hlt) as [-> ->]. specialize (H1 x Hlt).
      specialize (H2 x Hlt). lia. }
  assert (Hfq : full m q).
  { intros c [Hl Hc]%elem_of_box. apply Hf, elem_of_box. split; [done|]. by apply Hin in Hc as [? _]. }
  split; [done|]. apply NoDup_Permutation.
  - by apply NoDup_ranks_of with machine.
  - apply NoDup_filter. by apply NoDup_ranks_of with machine.
  - intros rank. rewrite list_elem_of_filter. destruct (task2network m rank) as [c|] eqn:Hc.
    + rewrite !(elem_of_ranks_of m machine Hm _ rank c) by done. rewrite Hin. tauto.
    + pose proof (no_task_not_in rank Hc) as Hno.
      split; [intros ?; by destruct (Hno q Hfq)|intros [_ ?]; by destruct (Hno r Hf)].
Qed.

(** What an intersection comes to: the tasks in both; the segment from the larger of the
    lower corners to the smaller of the upper ones, whether these cross or not, unless one
    segment is before the other in every dimension; nothing, for two different kinds of
    several tasks. *)
Inductive intersection := Common | Corners (r r' : rectseg) | NotDone.

Definition intersection_of (t other : Topology) : intersection :=
  match t_type t, t_type other with
  | PAMI_COORD_TOPOLOGY, PAMI_COORD_TOPOLOGY =>
      match t_topo t, t_topo other with
      | u_rectseg r, u_rectseg r' =>
          if coordLT (urcorner r) (llcorner r') n || coordLT (urcorner r') (llcorner r) n
          then Common else Corners r r'
      | _, _ => NotDone
      end
  | PAMI_COORD_TOPOLOGY, (PAMI_LIST_TOPOLOGY | PAMI_RANGE_TOPOLOGY)
  | PAMI_LIST_TOPOLOGY, (PAMI_COORD_TOPOLOGY | PAMI_RANGE_TOPOLOGY)
  | PAMI_RANGE_TOPOLOGY, (PAMI_COORD_TOPOLOGY | PAMI_LIST_TOPOLOGY) => NotDone
  | _, _ => Common
  end.

(** The result of an operation: a set in the new object. *)
Definition gives (s : arrays) (c : res (Topology * arrays)) (l : list Z) : Prop :=
  ∃ new' s', c = Ok (new', s') ∧ is_set s s' new' l.

Lemma gives_ok s s' new l k : denotes m s' new l → s ⊆ s' → l ≡ₚ k → gives s (Ok (new, s')) k.
Proof. intros Hd Hs Hp. exists new, s'. split; [done|]. split; [by exists l|done]. Qed.

Lemma coordLT_true c0 c1 : coordLT c0 c1 n = true → ∀ x, (x < n)%nat → net_coord c0 x < net_coord c1 x.
Proof.
  unfold coordLT. rewrite forallb_forall. intros H x Hx. specialize (H x ltac:(apply in_seq; lia)).
  apply negb_true_iff, Z.leb_gt in H. lia.
Qed.

(** The corners an intersection of segments writes. *)
Definition common_ll (new : Topology) (r r' : rectseg) : pami_coord_t :=
  coordMAX (old_corner new llcorner) (llcorner r) (llcorner r') n.
Definition common_ur (new : Topology) (r r' : rectseg) : pami_coord_t :=
  coordMIN (old_corner new urcorner) (urcorner r) (urcorner r') n.

(** Segments apart in a dimension have no task in common. *)
Lemma apart_nothing r r' : full m r → full m r' →
  (∃ x, (x < n)%nat ∧ Z.min (ur_at r x) (ur_at r' x) < Z.max (ll_at r x) (ll_at r' x)) →
  filter (.∈ ranks_of m r') (ranks_of m r) = [].
Proof.
  intros Hf Hf' (x&Hx&Hap). apply filter_nil_all. intros rank Hin Hin'.
  destruct (task2network m rank) as [c|] eqn:Hc; [|by apply (no_task_not_in rank Hc r Hf)].
  rewrite (elem_of_ranks_of m machine Hm r rank c) in Hin by done.
  rewrite (elem_of_ranks_of m machine Hm r' rank c) in Hin' by done.
  specialize (Hin x Hx). specialize (Hin' x Hx). lia.
Qed.

(** Segments that meet, in the union of a torus segment. *)
Lemma corners_gives new s r r' : rect_ok n r → rect_ok n r' → full m r → full m r' →
  Forall (is_task m) (ranks_of m r) → torus_storage new → overlap r r' →
  gives s (Ok (build new PAMI_COORD_TOPOLOGY (rect_of m (common_ll new r r') (common_ur new r r'))
    (sizeRange (common_ll new r r') (common_ur new r r') n) false, s))
    (filter (.∈ ranks_of m r') (ranks_of m r)).
Proof.
  intros Hro Hro' Hf Hf' Ht (q0&Hq0&Hn1&Hn2&Hl1&Hl2) Hov.
  unfold common_ll, common_ur, old_corner. rewrite Hq0.
  set (ll := coordMAX _ _ _ _). set (ur := coordMIN _ _ _ _).
  set (q := mkRect ll ur (torusInformation m ll ur)).
  assert (Hx : ∀ x, (x < n)%nat → ll_at q x = Z.max (ll_at r x) (ll_at r' x) ∧
                                  ur_at q x = Z.min (ur_at r x) (ur_at r' x)).
  { intros x Hx. split; [by apply coordMAX_at|by apply coordMIN_at]. }
  assert (Hrange : in_range q n).
  { intros x Hlt. destruct (Hx x Hlt) as [-> ->]. pose proof (Hov x Hlt).
    pose proof (ro_range _ _ Hro x Hlt). pose proof (ro_range _ _ Hro' x Hlt). lia. }
  assert (Hv : volume q n < 2 ^ 32).
  { pose proof (ro_volume _ _ Hro). enough (volume q n ≤ volume r n) by lia.
    apply volume_mono. intros x Hlt. destruct (Hx x Hlt) as [Hx1 Hx2]. unfold width.
    pose proof (Hov x Hlt). lia. }
  pose proof (mo_dims _ _ Hm) as Hn.
  assert (Hq : rect_ok n q).
  { split; [done| |done|done]. split.
    - by apply (coordMAX_spec (llcorner q0) (llcorner r) (llcorner r') 0).
    - by apply (coordMIN_spec (urcorner q0) (urcorner r) (urcorner r') 0). }
  destruct (meet_segments r r' q Hf Hf' Hq Hx) as [Hfq Hperm].
  apply gives_ok with (ranks_of m q); [|done|done]. split.
  - by apply shape_coord.
  - cbn. unfold ranks_of. rewrite length_fmap, length_box by (by apply in_range_solid).
    by apply (sizeRange_volume q).
  - rewrite Hperm. by apply tasks_filter.
Qed.

(** What the code gives for two segments, and when it is the segment of the common tasks. *)
Lemma intersect_segments new s t other l l' : denotes m s t l → denotes m s other l' →
  t_type t = PAMI_COORD_TOPOLOGY → t_type other = PAMI_COORD_TOPOLOGY →
  match intersection_of t other with
  | Common => gives s (intersectTopology m new t other s) (filter (.∈ l') l)
  | Corners r r' => intersectTopology m new t other s =
      Ok (build new PAMI_COORD_TOPOLOGY (rect_of m (common_ll new r r') (common_ur new r r'))
            (sizeRange (common_ll new r r') (common_ur new r r') n) false, s) ∧
      ((∃ x, (x < n)%nat ∧ net_coord (common_ur new r r') x < net_coord (common_ll new r r') x) →
         filter (.∈ l') l = []) ∧
      (torus_storage new → overlap r r' →
         gives s (intersectTopology m new t other s) (filter (.∈ l') l))
  | NotDone => False
  end.
Proof.
  intros Hd Hd' Hty Hty'. pose proof Hd as [Hs Hsz Ht]. pose proof Hd' as [Hs' Hsz' Ht'].
  assert (Heq : ∀ r r', t_topo t = u_rectseg r → t_topo other = u_rectseg r' →
    intersectTopology m new t other s =
    if coordLT (urcorner r) (llcorner r') n || coordLT (urcorner r') (llcorner r) n
    then Ok (empty new, s)
    else Ok (build new PAMI_COORD_TOPOLOGY (rect_of m (common_ll new r r') (common_ur new r r'))
            (sizeRange (common_ll new r r') (common_ur new r r') n) false, s)).
  { intros r r' Hr Hr'. unfold intersectTopology, topo_rect. by rewrite Hty, Hty', Hr, Hr', !Ok_bind. }
  unfold intersection_of. rewrite Hty, Hty' in *.
  inversion Hs as [| | | |r Hro Hf Hl Hu Htp]. inversion Hs' as [| | | |r' Hro' Hf' Hl' Hu' Htp'].
  rewrite (Heq r r') by done. clear Heq. pose proof (mo_dims _ _ Hm) as Hn.
  destruct (coordLT _ _ n || coordLT _ _ n) eqn:Hlt.
  - apply gives_ok with []; [apply empty_denotes|done|]. rewrite Hl, Hl', apart_nothing; [done..|].
    exists 0%nat. split; [done|]. unfold ll_at, ur_at. apply orb_true_iff in Hlt as [H0|H0];
      pose proof (coordLT_true _ _ H0 0%nat Hn); unfold net_coord in *; lia.
  - split; [done|]. split.
    + intros (x&Hx&Hc). unfold common_ur, common_ll in Hc. rewrite coordMAX_at, coordMIN_at in Hc by done.
      rewrite Hl, Hl'. apply apart_nothing; [done..|]. by exists x.
    + intros Hst Hov. subst l l'. by apply (corners_gives new s r r').
Qed.

Lemma intersect_ranges new s t other l l' : denotes m s t l → denotes m s other l' →
  t_type t = PAMI_RANGE_TOPOLOGY → t_type other = PAMI_RANGE_TOPOLOGY →
  gives s (intersectTopology m new t other s) (filter (.∈ l') l).
Proof.
  intros Hd Hd' Hty Hty'. pose proof Hd as [Hs Hsz Ht]. pose proof Hd' as [Hs' Hsz' Ht'].
  unfold intersectTopology, topo_rankrange. rewrite Hty, Hty' in *.
  inversion Hs as [| |f la Hfl Hl Hu Htp| |]. inversion Hs' as [| |f' la' Hfl' Hl' Hu' Htp'| |].
  rewrite !Ok_bind.
  destruct (Z.ltb_spec la f'); [|destruct (Z.ltb_spec la' f)]; cbn [orb].
  1-2: apply gives_ok with []; [apply empty_denotes|done|];
    replace (filter (.∈ l') l) with (@nil Z); [done|];
    symmetry; apply filter_nil_all; intros x; rewrite Hl, Hl', !elem_of_seqZ; lia.
  set (a := if f' <? f then f else f'). set (b := if la <? la' then la else la').
  assert (Ha : a = Z.max f f') by (unfold a; destruct (Z.ltb_spec f' f); lia).
  assert (Hb : b = Z.min la la') by (unfold b; destruct (Z.ltb_spec la la'); lia).
  assert (Hperm : seqZ a (b - a + 1) ≡ₚ filter (.∈ l') l).
  { apply NoDup_Permutation; [apply NoDup_seqZ|apply NoDup_filter; by eapply denotes_NoDup|].
    intros x. rewrite list_elem_of_filter, Hl, Hl', !elem_of_seqZ. lia. }
  assert (Hin : ∀ x, x ∈ [f; la] → 0 ≤ x < 2 ^ 32 - 1).
  { intros x Hx. apply (denotes_range m machine Hm s t l x Hd). rewrite Hl, elem_of_seqZ. set_solver by lia. }
  pose proof (Hin f ltac:(set_solver)). pose proof (Hin la ltac:(set_solver)).
  apply gives_ok with (seqZ a (b - a + 1)); [|done|done].
  assert (Hin' : ∀ x, x ∈ [f'; la'] → 0 ≤ x < 2 ^ 32 - 1).
  { intros x Hx. apply (denotes_range m machine Hm s other l' x Hd'). rewrite Hl', elem_of_seqZ. set_solver by lia. }
  pose proof (Hin' f' ltac:(set_solver)). pose proof (Hin' la' ltac:(set_solver)).
  rewrite w32_small by lia. apply range_denotes; [lia|].
  rewrite Hperm. by apply tasks_filter.
Qed.

Lemma intersect_lists new s t other l l' : denotes m s t l → denotes m s other l' →
  t_type t = PAMI_LIST_TOPOLOGY → t_type other = PAMI_LIST_TOPOLOGY →
  gives s (intersectTopology m new t other s) (filter (.∈ l') l).
Proof.
  intros Hd Hd' Hty Hty'. pose proof (denotes_NoDup m machine Hm s t l Hd) as Hnd.
  pose proof (denotes_NoDup m machine Hm s other l' Hd') as Hnd'.
  unfold intersectTopology. rewrite Hty, Hty', (denotes_items m s t l Hd Hty),
    (denotes_items m s other l' Hd' Hty'), !Ok_bind, common_spec, Ok_bind; [|done|done|].
  - set (k := filter (.∈ l') l). destruct k as [|x k'] eqn:Hk.
    + apply gives_ok with []; [apply empty_denotes|done|done].
    + rewrite <- Hk. apply gives_ok with k; [|apply (new_array_extends k)|done].
      apply (list_denotes s new k true); [by rewrite Hk|by apply NoDup_filter|].
      apply tasks_filter, (den_tasks _ _ _ _ Hd).
  - rewrite (den_size _ _ _ _ Hd), (den_size _ _ _ _ Hd').
    pose proof (Permutation_length (filter_perm l l' Hnd Hnd')) as Hlen.
    assert (length (filter (.∈ l') l) ≤ length l)%nat by apply length_filter.
    assert (length (filter (.∈ l) l') ≤ length l')%nat by apply length_filter.
    destruct (Z.ltb_spec (Z.of_nat (length l)) (Z.of_nat (length l'))); lia.
Qed.

Lemma single_if_gives new s (b : bool) rank (k : list Z) : is_task m rank → k ≡ₚ (if b then [rank] else []) →
  gives s (Ok (single_if b new rank s)) k.
Proof.
  intros Ht Hk. unfold single_if. destruct b.
  - apply gives_ok with [rank]; [by apply single_denotes|done|done].
  - apply gives_ok with []; [apply empty_denotes|done|done].
Qed.

Lemma filter_single (P : Z → Prop) `{∀ x, Decision (P x)} r :
  filter P [r] = if bool_decide (P r) then [r] else [].
Proof.
  destruct (decide (P r)) as [Hp|Hp].
  - by rewrite filter_cons_True, bool_decide_eq_true_2 by done.
  - by rewrite filter_cons_False, bool_decide_eq_false_2 by done.
Qed.

(** The task of a single topology. *)
Lemma denotes_single s t l : denotes m s t l → t_type t = PAMI_SINGLE_TOPOLOGY →
  ∃ r, topo_rank t = Ok r ∧ l = [r] ∧ is_task m r.
Proof.
  intros [Hs _ Ht] Hty. rewrite Hty in Hs. inversion Hs as [|r Hl Hu Htp| | |].
  exists r. unfold topo_rank. rewrite <- Htp. split; [done|]. split; [done|].
  subst l. by inversion Ht.
Qed.

Lemma intersect_single_l new s t other l l' : denotes m s t l → denotes m s other l' →
  t_type t = PAMI_SINGLE_TOPOLOGY →
  gives s (intersectTopology m new t other s) (filter (.∈ l') l).
Proof.
  intros Hd Hd' Hty. destruct (denotes_single s t l Hd Hty) as (r&Hr&->&Ht).
  destruct (decide (t_type other = PAMI_SINGLE_TOPOLOGY)) as [Hty'|Hty'].
  - destruct (denotes_single s other l' Hd' Hty') as (r'&Hr'&->&Ht').
    unfold intersectTopology. rewrite Hty, Hty', Hr, Hr', !Ok_bind. apply single_if_gives; [done|].
    rewrite filter_single. replace (r' =? r) with (bool_decide (r ∈ [r'])); [done|].
    apply eq_bool_prop_intro. rewrite bool_decide_spec, Is_true_true, Z.eqb_eq, list_elem_of_singleton.
    done.
  - assert (Heq : intersectTopology m new t other s =
      b ← isRankMember m other r s; mret (single_if b new r s)).
    { unfold intersectTopology. rewrite Hty, Hr. by destruct (t_type other). }
    rewrite Heq, (isRankMember_spec m machine Hm s other l' r Hd' Ht), Ok_bind.
    apply single_if_gives; [done|]. by rewrite filter_single.
Qed.

Lemma intersect_single_r new s t other l l' : denotes m s t l → denotes m s other l' →
  t_type t ≠ PAMI_SINGLE_TOPOLOGY → t_type other = PAMI_SINGLE_TOPOLOGY →
  gives s (intersectTopology m new t other s) (filter (.∈ l') l).
Proof.
  intros Hd Hd' Hty Hty'. destruct (denotes_single s other l' Hd' Hty') as (r&Hr&->&Ht).
  assert (Heq : intersectTopology m new t other s =
    b ← isRankMember m t r s; mret (single_if b new r s)).
  { unfold intersectTopology. rewrite Hty', Hr. by destruct (t_type t). }
  rewrite Heq, (isRankMember_spec m machine Hm s t l r Hd Ht), Ok_bind.
  apply single_if_gives; [done|]. rewrite filter_perm by (apply NoDup_singleton || by eapply denotes_NoDup).
  by rewrite filter_single.
Qed.

Lemma denotes_empty s t l : denotes m s t l → t_type t = PAMI_EMPTY_TOPOLOGY → l = [].
Proof. intros [Hs _ _] Hty. rewrite Hty in Hs. by inversion Hs. Qed.

Lemma filter_none (l : list Z) : filter (.∈ @nil Z) l = [].
Proof. apply filter_nil_all. intros x _. apply not_elem_of_nil. Qed.
End sets.
