(* ===== verification/TopologySubtract.v ===== *)
(** Differences of topologies, against the lists of tasks they denote. *)
From S2P Require Import Prelude.
From S2P Require Import Topology.
From S2P Require Import TopologyOps.
From S2P Require Import TopologySpec.
From S2P Require Import TopologyModel.
From S2P Require Import TopologyAnalysis.
From S2P Require Import TopologyConvert.
From S2P Require Import TopologySets.

#[local] Opaque w64 w32.

Section subtract.
Context (m : Mapping) (machine : rectseg) (Hm : mapping_ok m machine).

Notation n := (dims m).

(** What a difference comes to: the tasks of the first that are not in the second; for a
    single task and a topology of another kind, the task when the second has it; nothing,
    when an empty topology is taken off and for two different kinds of several tasks; for
    a range cut in two, a list whose array is not stored. *)
Inductive difference := Difference | Inverted | NothingLeft | NotStored.

Definition difference_of (t other : Topology) : difference :=
  match t_type t, t_type other with
  | PAMI_EMPTY_TOPOLOGY, _ | PAMI_SINGLE_TOPOLOGY, PAMI_SINGLE_TOPOLOGY => Difference
  | PAMI_SINGLE_TOPOLOGY, _ => Inverted
  | PAMI_RANGE_TOPOLOGY, PAMI_RANGE_TOPOLOGY =>
      match t_topo t, t_topo other with
      | u_rankrange f la, u_rankrange f' la' =>
          if (f <? f') && (la' <? la) then NotStored else Difference
      | _, _ => NothingLeft
      end
  | PAMI_COORD_TOPOLOGY, (PAMI_COORD_TOPOLOGY | PAMI_SINGLE_TOPOLOGY)
  | PAMI_LIST_TOPOLOGY, (PAMI_LIST_TOPOLOGY | PAMI_SINGLE_TOPOLOGY)
  | PAMI_RANGE_TOPOLOGY, PAMI_SINGLE_TOPOLOGY => Difference
  | _, _ => NothingLeft
  end.

Lemma filter_keep_all (l k : list Z) : (∀ x, x ∈ l → x ∉ k) → filter (.∉ k) l = l.
Proof.
  induction l as [|x l IH]; intros H; [done|]. rewrite filter_cons_True by (apply H; by left).
  f_equal. apply IH. intros y Hy. apply H. by right.
Qed.

Lemma assign_gives s new t l k : denotes m s t l → l ≡ₚ k → gives m s (assign new t s) k.
Proof.
  intros Hd Hp. destruct (assign_spec m machine Hm s new t l Hd) as (new'&s'&->&Hd'&Hs&_).
  by apply gives_ok with l.
Qed.

Lemma nothing_gives s new k : k = [] → gives m s (Ok (nothing_left new, s)) k.
Proof. intros ->. by apply gives_ok with []; [apply nothing_left_denotes|..]. Qed.

Lemma from_ranks_gives s new l k : NoDup l → Forall (is_task m) l → l ≡ₚ k →
  gives m s (Ok (from_ranks new l s)) k.
Proof.
  intros Hnd Ht Hp. unfold from_ranks. destruct l as [|r [|r' l]].
  - apply nothing_gives. by apply Permutation_nil_l in Hp.
  - apply gives_ok with [r]; [|done|done]. apply single_denotes. by inversion Ht.
  - apply gives_ok with (r :: r' :: l); [|apply (new_array_extends (r :: r' :: l))|done].
    by apply (list_denotes m s new (r :: r' :: l) true).
Qed.

Lemma new_list_gives s new l k : l ≠ [] → NoDup l → Forall (is_task m) l → l ≡ₚ k →
  gives m s (let '(a, s) := new_array l s in
    mret (build new PAMI_LIST_TOPOLOGY (u_list a) (Z.of_nat (length l)) true, s)) k.
Proof.
  intros Hne Hnd Ht Hp. apply gives_ok with l; [|apply (new_array_extends l)|done].
  by apply (list_denotes m s new l true).
Qed.

(** * A segment *)

(** Membership in a full segment, by coordinate or by rank. *)
Lemma member_rank r r' c : full m r → full m r' → c ∈ box r n →
  isMemberCoord r' (torus_coord c) n = bool_decide (rank_at m c ∈ ranks_of m r').
Proof.
  intros Hf Hf' Hc. destruct (Hf c Hc) as [k Hk].
  pose proof (rank_at_task m machine Hm c k Hk (length_in_box _ _ _ Hc)) as Ht.
  apply eq_bool_prop_intro. rewrite bool_decide_spec, Is_true_true, isMemberCoord_spec.
  by rewrite (elem_of_ranks_of m machine Hm r' _ _ Hf' Ht).
Qed.

(** The tasks of a segment, with their coordinates. *)
Lemma box_tasks r c : full m r → c ∈ box r n →
  task2network m (rank_at m c) = Some (torus_coord c) ∧ is_task m (rank_at m c).
Proof.
  intros Hf Hc. destruct (Hf c Hc) as [k Hk].
  pose proof (rank_at_task m machine Hm c k Hk (length_in_box _ _ _ Hc)) as Ht.
  split; [done|]. unfold is_task. by rewrite Ht.
Qed.

(** What the loop that keeps the tasks out of [r'] knows. *)
Record kept_ok (a : kept) (l : list Z) : Prop := {
  ko_ranks : k_ranks a = l;
  ko_within tl : within m machine (mkRect (k_bounds a).1 (k_bounds a).2 tl);
  ko_inside tl r c : r ∈ l → task2network m r = Some c →
    inside (mkRect (k_bounds a).1 (k_bounds a).2 tl) n (coords c);
  ko_min : (k_minmax a).1 = 0;
  ko_max : 0 ≤ (k_minmax a).2 < 2 ^ 32 - 1;
  ko_span r : r ∈ l → 0 ≤ r ≤ (k_minmax a).2
}.

Lemma keep_rank_step cap r' a l c : full m r' → kept_ok a l → Z.of_nat (length l) < cap →
  (∃ r, full m r ∧ c ∈ box r n) →
  ∃ a', keep_rank m cap r' a (torus_coord c) = Ok a' ∧
    kept_ok a' (if decide (rank_at m c ∈ ranks_of m r') then l else l ++ [rank_at m c]).
Proof.
  intros Hf' [Hr Hw Hin Hmin Hmax Hspan] Hcap (r&Hf&Hc). unfold keep_rank.
  rewrite (member_rank r r' c Hf Hf' Hc). destruct (decide (rank_at m c ∈ ranks_of m r')) as [Hk|Hk].
  { rewrite bool_decide_eq_true_2 by done. exists a. split; [done|]. by split. }
  rewrite bool_decide_eq_false_2 by done. rewrite (COORDS2RANK_full m r) by done.
  rewrite Hr, put_Ok by done. rewrite Ok_bind. eexists. split; [reflexivity|].
  destruct (box_tasks r c Hf Hc) as [Ht Hit]. pose proof (mo_range _ _ Hm _ Hit) as Hrange.
  pose proof (length_in_box _ _ _ Hc) as Hlc. pose proof (mo_inside _ _ Hm _ _ Ht) as Hinm.
  pose proof (λ tl, bumpRange_within m machine (k_bounds a).1 (k_bounds a).2 tl (torus_coord c)
    (Hw tl) Hlc Hinm) as Hb. rewrite <- surjective_pairing in Hb.
  split; cbn [k_ranks k_bounds k_minmax widen fst snd].
  - done.
  - intros tl. apply Hb.
  - intros tl r0 c0 [Hr0|Hr0]%elem_of_app Hc0.
    + destruct (Hb tl) as (_&_&Hmono). by eapply Hmono, Hin.
    + apply list_elem_of_singleton in Hr0 as ->. rewrite Ht in Hc0. injection Hc0 as <-.
      by destruct (Hb tl) as (_&?&_).
  - rewrite Hmin. by rewrite (proj2 (Z.ltb_ge _ _)) by lia.
  - destruct (Z.ltb_spec (k_minmax a).2 (rank_at m c)); lia.
  - intros r0 [Hr0|Hr0]%elem_of_app.
    + specialize (Hspan r0 Hr0). destruct (Z.ltb_spec (k_minmax a).2 (rank_at m c)); lia.
    + apply list_elem_of_singleton in Hr0 as ->.
      destruct (Z.ltb_spec (k_minmax a).2 (rank_at m c)); lia.
Qed.

Lemma keep_rank_loop cap r r' cs a l : full m r → full m r' → (∀ c, c ∈ cs → c ∈ box r n) →
  kept_ok a l → Z.of_nat (length l) + Z.of_nat (length cs) ≤ cap →
  ∃ a', foldM (λ a c, keep_rank m cap r' a (torus_coord c)) a cs = Ok a' ∧
    kept_ok a' (l ++ filter (.∉ ranks_of m r') (rank_at m <$> cs)).
Proof.
  intros Hf Hf'. revert a l. induction cs as [|c cs IH]; intros a l Hcs Ha Hcap; cbn [foldM].
  - exists a. rewrite app_nil_r. done.
  - cbn [length] in Hcap.
    destruct (keep_rank_step cap r' a l c Hf' Ha) as (a1&Hrun&Ha1);
      [lia|exists r; split; [done|apply Hcs; by left]|]. rewrite Hrun, Ok_bind. cbn [fmap list_fmap].
    destruct (decide (rank_at m c ∈ ranks_of m r')) as [Hk|Hk].
    + rewrite filter_cons_False by (by intros ?).
      apply IH; [intros d Hd; apply Hcs; by right|done|lia].
    + rewrite filter_cons_True by done.
      destruct (IH a1 (l ++ [rank_at m c])) as (a'&?&?);
        [intros d Hd; apply Hcs; by right|done|rewrite length_app; cbn; lia|].
      exists a'. by rewrite <- (assoc_L (++)) in *.
Qed.

Lemma subtract_segment_spec r r' l : rect_ok n r → full m r → full m r' →
  Forall (is_task m) (ranks_of m r) → l = ranks_of m r →
  ∃ a, subtract_segment m (Z.of_nat (length l)) r r' = Ok a ∧
    kept_ok a (filter (.∉ ranks_of m r') l).
Proof.
  intros Hro Hf Hf' Ht ->. unfold subtract_segment.
  rewrite coord_loop_torus, visit_always by done.
  destruct (torus_corner_eq m r Hro) as [Hc Hl].
  pose proof (box_first r n (in_range_solid _ _ (ro_range _ _ Hro)) ltac:(lia)) as Hb.
  apply list_elem_of_lookup_2 in Hb. rewrite take_ge in Hb by lia.
  destruct (box_tasks r _ Hf Hb) as [Htc _].
  apply (keep_rank_loop _ r r' (box r n) _ []); [done|done|done| |].
  - split; cbn [k_ranks k_bounds k_minmax fst snd]; [done| | |done|lia|].
    + intros tl. apply (initRange_within m machine (llcorner r) tl Hl).
      apply (mo_inside _ _ Hm _ _ Htc).
    + intros tl r0 c0 H0. by apply elem_of_nil in H0.
    + intros r0 H0. by apply elem_of_nil in H0.
  - unfold ranks_of. rewrite length_fmap. cbn. lia.
Qed.

Lemma subtract_coords new s t other l l' : denotes m s t l → denotes m s other l' →
  t_type t = PAMI_COORD_TOPOLOGY → t_type other = PAMI_COORD_TOPOLOGY →
  gives m s (subtractTopology m new t other s) (filter (.∉ l') l).
Proof.
  intros Hd Hd' Hty Hty'. pose proof Hd as [Hs Hsz Ht]. pose proof Hd' as [Hs' Hsz' Ht'].
  pose proof (denotes_NoDup m machine Hm s t l Hd) as Hnd.
  unfold subtractTopology, topo_rect. rewrite Hty, Hty' in *.
  inversion Hs as [| | | |r Hro Hf Hl Hu Htp]. inversion Hs' as [| | | |r' Hro' Hf' Hl' Hu' Htp'].
  rewrite !Ok_bind, Hsz.
  destruct (subtract_segment_spec r r' l Hro Hf Hf') as (a&Hrun&Ha); [by rewrite <- Hl|done|].
  rewrite Hrun, Ok_bind. clear Hrun. rewrite <- Hl' in Ha.
  set (k := filter (.∉ l') l) in *.
  assert (Hndk : NoDup k) by (by apply NoDup_filter). assert (Htk : Forall (is_task m) k) by (by apply tasks_filter).
  destruct Ha as [Hkr Hw Hin Hmin Hmax Hspan]. rewrite Hkr.
  destruct (k_bounds a) as [ll ur]. destruct (k_minmax a) as [mn mx]. cbn in *. subst mn.
  destruct (Z.eqb_spec (Z.of_nat (length k)) 0) as [Hz|Hz].
  { apply nothing_gives. by destruct k. }
  assert (Hne : k ≠ []) by (by intros ->).
  destruct (Z.eqb_spec (sizeRange ll ur n) (Z.of_nat (length k))) as [Heq|_].
  { destruct (bounds_converted m machine Hm (build new PAMI_COORD_TOPOLOGY u_none (Z.of_nat (length k)) false)
      k ll ur Htk Hndk eq_refl (Hw _) (Hin _) Heq s false) as (l1&Hd1&Hp1).
    by apply gives_ok with l1. }
  destruct (Z.eqb_spec (w32 (mx - 0 + 1)) (Z.of_nat (length k))) as [Heq|_].
  { rewrite w32_small in Heq by lia. pose proof (span_perm k 0 mx Hndk Hspan ltac:(lia)) as Hp.
    rewrite <- Heq. apply gives_ok with (seqZ 0 (mx - 0 + 1)); [|done|done].
    apply range_denotes; [lia|by rewrite Hp]. }
  by apply new_list_gives.
Qed.

Lemma put_other_full cap rank' r l k c : full m r → c ∈ box r n →
  put_other m cap rank' (l, k) (torus_coord c) =
  if rank_at m c =? rank' then Ok (l, rank_at m c)
  else rl ← put cap l (rank_at m c); mret (rl, rank_at m c).
Proof. intros Hf Hc. unfold put_other. cbn [fst snd]. by rewrite (COORDS2RANK_full m r). Qed.

(** All tasks of a segment but one. *)
Lemma put_other_loop cap rank' r cs acc k : full m r → (∀ c, c ∈ cs → c ∈ box r n) →
  Z.of_nat (length acc) + Z.of_nat (length cs) ≤ cap →
  ∃ k', foldM (λ a c, put_other m cap rank' a (torus_coord c)) (acc, k) cs =
    Ok (acc ++ filter (.≠ rank') (rank_at m <$> cs), k').
Proof.
  intros Hf. revert acc k. induction cs as [|c cs IH]; intros acc k Hcs Hcap; cbn [foldM].
  - exists k. by rewrite app_nil_r.
  - cbn [length] in Hcap. cbn [fmap list_fmap].
    rewrite (put_other_full cap rank' r) by (done || apply Hcs; by left).
    destruct (Z.eqb_spec (rank_at m c) rank') as [Heq|Hneq].
    + rewrite filter_cons_False by congruence. rewrite Ok_bind.
      apply IH; [intros d Hd; apply Hcs; by right|lia].
    + rewrite filter_cons_True by done. rewrite put_Ok by lia. rewrite Ok_bind, bind_ret.
      destruct (IH (acc ++ [rank_at m c]) (rank_at m c)) as (k'&->);
        [intros d Hd; apply Hcs; by right|rewrite length_app; cbn; lia|].
      exists k'. by rewrite <- (assoc_L (++)).
Qed.

Lemma filter_not_in_single (l : list Z) r : filter (.∉ [r]) l = filter (.≠ r) l.
Proof.
  induction l as [|x l IH]; [done|]. destruct (decide (x = r)) as [->|Hx].
  - rewrite !filter_cons_False; [done|by intros ?|set_solver].
  - rewrite !filter_cons_True; [by f_equal|done|set_solver].
Qed.

Lemma subtract_coord_single new s t other l l' : denotes m s t l → denotes m s other l' →
  t_type t = PAMI_COORD_TOPOLOGY → t_type other = PAMI_SINGLE_TOPOLOGY →
  gives m s (subtractTopology m new t other s) (filter (.∉ l') l).
Proof.
  intros Hd Hd' Hty Hty'. pose proof Hd as [Hs Hsz Ht].
  pose proof (denotes_NoDup m machine Hm s t l Hd) as Hnd.
  destruct (denotes_single m s other l' Hd' Hty') as (r'&Hr'&->&Ht').
  unfold subtractTopology. rewrite Hty, Hty', Hr', Ok_bind.
  rewrite (isRankMember_spec m machine Hm s t l r' Hd Ht'), Ok_bind, filter_not_in_single.
  destruct (bool_decide_reflect (r' ∈ l)) as [Hin|Hout].
  - rewrite Hty in Hs. inversion Hs as [| | | |r Hro Hf Hl Hu Htp]. unfold topo_rect.
    rewrite <- Htp, Ok_bind, coord_loop_torus, visit_always by done.
    destruct (put_other_loop (t_size t) r' r (box r n) [] 0 Hf) as (k'&Hrun); [done| |].
    { rewrite Hsz, Hl. unfold ranks_of. rewrite length_fmap. cbn. lia. }
    rewrite Hrun, Ok_bind. cbn [app]. fold (ranks_of m r). rewrite <- Hl.
    apply from_ranks_gives; [by apply NoDup_filter|by apply tasks_filter|done].
  - apply assign_gives with l; [done|]. rewrite filter_all; [done|].
    apply Forall_forall. intros x Hx ->. done.
Qed.

(** * Ranges and lists *)

(** Evaluates the comparisons of the four-bit flag. *)
Ltac eval_flag :=
  repeat match goal with
  | |- context [?e =? ?k] =>
      match e with
      | _ + _ + _ + _ => let v := eval vm_compute in (e =? k) in change (e =? k) with v
      end
  end; cbv iota.

Lemma subtract_ranges_spec new s t other l l' : denotes m s t l → denotes m s other l' →
  t_type t = PAMI_RANGE_TOPOLOGY → t_type other = PAMI_RANGE_TOPOLOGY →
  difference_of t other = Difference →
  gives m s (subtractTopology m new t other s) (filter (.∉ l') l).
Proof.
  intros Hd Hd' Hty Hty' Hcan. pose proof Hd as [Hs Hsz Ht]. pose proof Hd' as [Hs' Hsz' Ht'].
  unfold difference_of in Hcan. unfold subtractTopology, topo_rankrange. rewrite Hty, Hty' in *.
  inversion Hs as [| |f la Hfl Hl Hu Htp| |]. inversion Hs' as [| |f' la' Hfl' Hl' Hu' Htp'| |].
  rewrite <- Htp, <- Htp' in Hcan. rewrite !Ok_bind.
  assert (f' ≤ f ∨ la ≤ la') as Hcut.
  { destruct (Z.ltb_spec f f'), (Z.ltb_spec la' la); cbn in Hcan; (done || lia). }
  clear Hcan.
  assert (Hr : (0 ≤ f < 2 ^ 32 - 1 ∧ 0 ≤ la < 2 ^ 32 - 1) ∧ 0 ≤ f' < 2 ^ 32 - 1 ∧ 0 ≤ la' < 2 ^ 32 - 1).
  { split; split.
    1-2: apply (denotes_range m machine Hm s t l _ Hd); rewrite Hl, elem_of_seqZ; lia.
    1-2: apply (denotes_range m machine Hm s other l' _ Hd'); rewrite Hl', elem_of_seqZ; lia. }
  assert (Hk : ∀ a b, a ≤ b → (∀ x, a ≤ x ≤ b ↔ f ≤ x ≤ la ∧ ¬ (f' ≤ x ≤ la')) → ∀ s', s ⊆ s' →
    gives m s (Ok (build new PAMI_RANGE_TOPOLOGY (u_rankrange a b) (b - a + 1) false, s')) (filter (.∉ l') l)).
  { intros a b Hab Hiff s' Hsub. assert (Hp : seqZ a (b - a + 1) ≡ₚ filter (.∉ l') l).
    { apply NoDup_Permutation; [apply NoDup_seqZ|apply NoDup_filter; by eapply denotes_NoDup|].
      intros x. specialize (Hiff x). rewrite list_elem_of_filter, Hl, Hl', !elem_of_seqZ. lia. }
    apply gives_ok with (seqZ a (b - a + 1)); [|done|done]. apply range_denotes; [done|].
    rewrite Hp. by apply tasks_filter. }
  unfold subtract_ranges. cbv beta zeta.
  destruct (Z.leb_spec f' f) as [H1|H1], (Z.leb_spec f la') as [H2|H2],
    (Z.leb_spec f' la) as [H3|H3], (Z.leb_spec la la') as [H4|H4]; try lia; eval_flag;
    try (apply assign_gives with l; [done|]; rewrite filter_keep_all; [done|];
         intros x; rewrite Hl, Hl', !elem_of_seqZ; lia).
  - apply nothing_gives. apply filter_nil_all. intros x. rewrite Hl, Hl', !elem_of_seqZ. lia.
  - rewrite (w32_small (la' + 1)), w32_small by lia. rewrite (proj2 (Z.eqb_neq _ 0)) by lia.
    apply Hk; [lia|lia|done].
  - rewrite (w32_small (f' - 1)), w32_small by lia. rewrite (proj2 (Z.eqb_neq _ 0)) by lia.
    apply Hk; [lia|lia|done].
Qed.

Lemma subtract_range_single new s t other l l' : denotes m s t l → denotes m s other l' →
  t_type t = PAMI_RANGE_TOPOLOGY → t_type other = PAMI_SINGLE_TOPOLOGY →
  gives m s (subtractTopology m new t other s) (filter (.∉ l') l).
Proof.
  intros Hd Hd' Hty Hty'. pose proof Hd as [Hs Hsz Ht].
  pose proof (denotes_NoDup m machine Hm s t l Hd) as Hnd.
  destruct (denotes_single m s other l' Hd' Hty') as (r'&Hr'&->&Ht').
  unfold subtractTopology. rewrite Hty, Hty', Hr', Ok_bind.
  rewrite (isRankMember_spec m machine Hm s t l r' Hd Ht'), Ok_bind, filter_not_in_single.
  destruct (bool_decide_reflect (r' ∈ l)) as [Hin|Hout].
  - rewrite Hty in Hs. inversion Hs as [| |f la Hfl Hl Hu Htp| |]. unfold topo_rankrange.
    rewrite <- Htp, Ok_bind. pose proof Hin as Hin'. rewrite Hl, elem_of_seqZ in Hin'.
    rewrite Hl, length_seqZ in Hsz.
    rewrite foldM_put by (rewrite length_app, !length_seqZ, Hsz; cbn; lia).
    rewrite Ok_bind. cbn [app].
    assert (Heq : l = seqZ f (r' - f) ++ r' :: seqZ (r' + 1) (la - r')).
    { rewrite Hl. replace (la - f + 1) with ((r' - f) + (1 + (la - r'))) by lia.
      rewrite seqZ_app by lia. f_equal. replace (f + (r' - f)) with r' by lia.
      rewrite seqZ_cons by lia. do 2 f_equal; lia. }
    rewrite Heq in Hnd |- *. rewrite filter_one by done.
    apply from_ranks_gives; [|rewrite Heq in Ht|done].
    + apply NoDup_app in Hnd as (?&Hdis&[? ?]%NoDup_cons). apply NoDup_app.
      split; [done|]. split; [|done]. intros x Hx Hx'. apply (Hdis x Hx). by right.
    + apply Forall_app in Ht as [? [_ ?]%Forall_cons]. by apply Forall_app.
  - apply assign_gives with l; [done|]. rewrite filter_all; [done|].
    apply Forall_forall. intros x Hx ->. done.
Qed.

Lemma subtract_lists new s t other l l' : denotes m s t l → denotes m s other l' →
  t_type t = PAMI_LIST_TOPOLOGY → t_type other = PAMI_LIST_TOPOLOGY →
  gives m s (subtractTopology m new t other s) (filter (.∉ l') l).
Proof.
  intros Hd Hd' Hty Hty'. pose proof (denotes_NoDup m machine Hm s t l Hd) as Hnd.
  pose proof (den_tasks _ _ _ _ Hd) as Ht. pose proof (den_size _ _ _ _ Hd) as Hsz.
  unfold subtractTopology. rewrite Hty, Hty', (denotes_items m s t l Hd Hty), Ok_bind.
  assert (Hloop : ∀ k acc, Forall (is_task m) k → Z.of_nat (length acc) + Z.of_nat (length k) ≤ t_size t →
    foldM (λ rl r, b ← isRankMember m other r s;
      if (b : bool) then mret rl else put (t_size t) rl r) acc k = Ok (acc ++ filter (.∉ l') k)).
  { induction k as [|x k IH]; intros acc Htk Hcap; cbn [foldM]; [by rewrite app_nil_r|].
    apply Forall_cons in Htk as [Hx Htk]. cbn [length] in Hcap.
    rewrite (isRankMember_spec m machine Hm s other l' x Hd' Hx), Ok_bind.
    destruct (bool_decide_reflect (x ∈ l')) as [Hin|Hout].
    - rewrite filter_cons_False by (by intros ?). rewrite bind_ret, IH; [done|done|lia].
    - rewrite filter_cons_True by done. rewrite put_Ok by lia.
      rewrite Ok_bind, IH; [by rewrite <- (assoc_L (++))|done|rewrite length_app; cbn; lia]. }
  rewrite (Hloop l [] Ht) by (cbn; lia). rewrite Ok_bind. cbn [app].
  destruct (filter (.∉ l') l) as [|x k] eqn:Hk.
  - by apply nothing_gives.
  - rewrite <- Hk. apply new_list_gives; [by rewrite Hk|by apply NoDup_filter|by apply tasks_filter|done].
Qed.

Lemma subtract_list_single new s t other l l' : denotes m s t l → denotes m s other l' →
  t_type t = PAMI_LIST_TOPOLOGY → t_type other = PAMI_SINGLE_TOPOLOGY →
  gives m s (subtractTopology m new t other s) (filter (.∉ l') l).
Proof.
  intros Hd Hd' Hty Hty'. pose proof (denotes_NoDup m machine Hm s t l Hd) as Hnd.
  destruct (denotes_single m s other l' Hd' Hty') as (r'&Hr'&->&Ht').
  unfold subtractTopology. rewrite Hty, Hty', Hr', Ok_bind, (denotes_items m s t l Hd Hty), Ok_bind.
  rewrite filter_not_in_single. assert (length (filter (.≠ r') l) ≤ length l)%nat by apply length_filter.
  rewrite foldM_put by (rewrite (den_size _ _ _ _ Hd); cbn; lia). rewrite Ok_bind. cbn [app].
  apply from_ranks_gives; [by apply NoDup_filter|apply tasks_filter, (den_tasks _ _ _ _ Hd)|done].
Qed.

Lemma subtract_singles new s t other l l' : denotes m s t l → denotes m s other l' →
  t_type t = PAMI_SINGLE_TOPOLOGY → t_type other = PAMI_SINGLE_TOPOLOGY →
  gives m s (subtractTopology m new t other s) (filter (.∉ l') l).
Proof.
  intros Hd Hd' Hty Hty'. destruct (denotes_single m s t l Hd Hty) as (r&Hr&->&Ht).
  destruct (denotes_single m s other l' Hd' Hty') as (r'&Hr'&->&Ht').
  unfold subtractTopology. rewrite Hty, Hty', Hr, Hr', !Ok_bind, filter_not_in_single, filter_single.
  destruct (Z.eqb_spec r' r) as [->|Hne].
  - apply nothing_gives. by rewrite bool_decide_eq_false_2 by (by intros ?).
  - apply assign_gives with [r]; [done|]. by rewrite bool_decide_eq_true_2 by congruence.
Qed.

(** The test of a single task against another kind is inverted. *)
Lemma subtract_from_single s new t other r l' : denotes m s t [r] → denotes m s other l' →
  t_type t = PAMI_SINGLE_TOPOLOGY → t_type other ≠ PAMI_SINGLE_TOPOLOGY →
  gives m s (subtractTopology m new t other s) (filter (.∈ l') [r]).
Proof.
  intros Hd Hd' Hty Hty'. destruct (denotes_single m s t [r] Hd Hty) as (r'&Hr&[= <-]&Ht).
  assert (Heq : subtractTopology m new t other s =
    b ← isRankMember m other r s;
    mret (if b : bool then build new PAMI_SINGLE_TOPOLOGY (u_rank r) 1 false else nothing_left new, s)).
  { unfold subtractTopology. rewrite Hty, Hr. by destruct (t_type other). }
  rewrite Heq, (isRankMember_spec m machine Hm s other l' r Hd' Ht), Ok_bind, filter_single.
  case_bool_decide; [|by apply nothing_gives].
  by apply gives_ok with [r]; [apply single_denotes|..].
Qed.

(** A range cut in two: the list of what is left is made, and not stored. *)
Lemma subtract_split s new t other l l' f la f' la' : denotes m s t l → denotes m s other l' →
  t_type t = PAMI_RANGE_TOPOLOGY → t_type other = PAMI_RANGE_TOPOLOGY →
  t_topo t = u_rankrange f la → t_topo other = u_rankrange f' la' → f < f' → la' < la →
  ∃ s', subtractTopology m new t other s = Ok (build new PAMI_LIST_TOPOLOGY (t_topo new)
    (Z.of_nat (length (filter (.∉ l') l))) false, s').
Proof.
  intros Hd Hd' Hty Hty' Htp Htp' Hf Hla. pose proof (denotes_NoDup m machine Hm s t l Hd) as Hnd.
  pose proof Hd as [Hs _ _]. rewrite Hty, Htp in Hs. inversion Hs as [| |? ? Hfl Hl| |]; subst.
  pose proof Hd' as [Hs' _ _]. rewrite Hty', Htp' in Hs'. inversion Hs' as [| |? ? Hfl' Hl'| |]; subst.
  pose proof (denotes_range m machine Hm s t _ f Hd ltac:(apply elem_of_seqZ; lia)).
  pose proof (denotes_range m machine Hm s t _ la Hd ltac:(apply elem_of_seqZ; lia)).
  assert (length (filter (.∉ seqZ f' (la' - f' + 1)) (seqZ f (la - f + 1))) =
          Z.to_nat ((f' - f) + (la - la'))) as ->.
  { transitivity (length (seqZ f (f' - f) ++ seqZ (la' + 1) (la - la'))).
    - apply Permutation_length, NoDup_Permutation; [by apply NoDup_filter| |].
      + apply NoDup_app. split; [apply NoDup_seqZ|]. split; [|apply NoDup_seqZ].
        intros x Hx%elem_of_seqZ Hx'%elem_of_seqZ. lia.
      + intros x. rewrite list_elem_of_filter, elem_of_app, !elem_of_seqZ. lia.
    - rewrite length_app, !length_seqZ. lia. }
  rewrite Z2Nat.id by lia. unfold subtractTopology, topo_rankrange.
  rewrite Hty, Hty', Htp, Htp', !Ok_bind. unfold subtract_ranges.
  rewrite (proj2 (Z.leb_gt f' f)), (proj2 (Z.leb_le f la')), (proj2 (Z.leb_le f' la)),
    (proj2 (Z.leb_gt la la')) by lia.
  change (0 + 2 ^ 2 + 2 ^ 1 + 0 =? 6) with true. cbv iota.
  assert (Hsize : w32 (w32 (w32 (f' - f) + la) - la') = (f' - f) + (la - la')).
  { rewrite (w32_small (f' - f)) by lia. rewrite w32_sub_l, w32_small; lia. }
  rewrite Hsize, (w32_small (la' + 1)), (proj2 (Z.eqb_neq _ 0)) by lia. cbn [negb assert].
  rewrite bind_ret, foldM_put by (rewrite length_app, !length_seqZ; cbn; lia). rewrite Ok_bind.
  eexists. cbn [app new_array]. rewrite length_app, !length_seqZ, (proj2 (Z.eqb_eq _ _)) by lia. done.
Qed.

Lemma range_corners s t l : denotes m s t l → t_type t = PAMI_RANGE_TOPOLOGY →
  ∃ f la, t_topo t = u_rankrange f la ∧ l = seqZ f (la - f + 1).
Proof. intros [Hs _ _] Hty. rewrite Hty in Hs. inversion Hs. eauto. Qed.

Ltac case_range s t other l l' Hd Hd' Hty Hty' Hdf :=
  destruct (range_corners s t l Hd Hty) as (f&la&E&_);
  destruct (range_corners s other l' Hd' Hty') as (f'&la'&E'&_); rewrite E, E' in Hdf;
  destruct (Z.ltb_spec f f'), (Z.ltb_spec la' la); try done.

(** Every pair of representations. *)
Lemma subtract_spec new s t other l l' : denotes m s t l → denotes m s other l' →
  match difference_of t other with
  | Difference => gives m s (subtractTopology m new t other s) (filter (.∉ l') l)
  | Inverted => gives m s (subtractTopology m new t other s) (filter (.∈ l') l)
  | NothingLeft => gives m s (subtractTopology m new t other s) []
  | NotStored => ∃ s', subtractTopology m new t other s = Ok (build new PAMI_LIST_TOPOLOGY
      (t_topo new) (Z.of_nat (length (filter (.∉ l') l))) false, s')
  end.
Proof.
  intros Hd Hd'.
  assert (Hn : subtractTopology m new t other s = Ok (nothing_left new, s) →
    gives m s (subtractTopology m new t other s) []) by (intros ->; by apply nothing_gives).
  destruct (difference_of t other) eqn:Hdf; pose proof Hdf as Hdf0; unfold difference_of in Hdf;
    destruct (t_type t) eqn:Hty; try (by destruct Hd as [Hs _ _]; rewrite Hty in Hs; inversion Hs);
    destruct (t_type other) eqn:Hty'; try (by destruct Hd' as [Hs _ _]; rewrite Hty' in Hs; inversion Hs);
    try done;
    try (pose proof (denotes_empty m s t l Hd Hty) as ->; unfold subtractTopology; rewrite Hty;
         by apply nothing_gives);
    try (destruct (denotes_single m s t l Hd Hty) as (r&_&->&_);
         apply subtract_from_single; [done|done|done|congruence]);
    try (apply Hn; unfold subtractTopology; by rewrite Hty, Hty').
  - by apply subtract_singles.
  - by apply subtract_range_single.
  - by apply subtract_ranges_spec.
  - by apply subtract_list_single.
  - by apply subtract_lists.
  - by apply subtract_coord_single.
  - by apply subtract_coords.
  - by case_range s t other l l' Hd Hd' Hty Hty' Hdf.
  - by case_range s t other l l' Hd Hd' Hty Hty' Hdf.
  - case_range s t other l l' Hd Hd' Hty Hty' Hdf.
    by apply (subtract_split s new t other l l' f la f' la').
Qed.

Lemma intersect_spec new s t other l l' : denotes m s t l → denotes m s other l' →
  match intersection_of m t other with
  | Common => gives m s (intersectTopology m new t other s) (filter (.∈ l') l)
  | Corners r r' => intersectTopology m new t other s =
      Ok (build new PAMI_COORD_TOPOLOGY (rect_of m (common_ll m new r r') (common_ur m new r r'))
            (sizeRange (common_ll m new r r') (common_ur m new r r') n) false, s) ∧
      ((∃ x, (x < n)%nat ∧ net_coord (common_ur m new r r') x < net_coord (common_ll m new r r') x) →
         filter (.∈ l') l = []) ∧
      (torus_storage m new → overlap m r r' →
         gives m s (intersectTopology m new t other s) (filter (.∈ l') l))
  | NotDone => intersectTopology m new t other s = Ok (empty new, s)
  end.
Proof.
  intros Hd Hd'.
  destruct (decide (t_type t = PAMI_COORD_TOPOLOGY ∧ t_type other = PAMI_COORD_TOPOLOGY)) as [[Hty Hty']|Hno].
  { pose proof (intersect_segments m machine Hm new s t other l l' Hd Hd' Hty Hty') as Hseg.
    by destruct (intersection_of m t other). }
  destruct (decide (t_type t = PAMI_SINGLE_TOPOLOGY)) as [Hsl|Hsl].
  { unfold intersection_of. rewrite Hsl. by apply (intersect_single_l m machine Hm). }
  destruct (decide (t_type other = PAMI_SINGLE_TOPOLOGY)) as [Hsr|Hsr].
  { pose proof (intersect_single_r m machine Hm new s t other l l' Hd Hd' Hsl Hsr) as Hg.
    unfold intersection_of. rewrite Hsr. by destruct (t_type t). }
  destruct (t_type t) eqn:Hty; try (by destruct Hd as [Hs _ _]; rewrite Hty in Hs; inversion Hs); try done;
    destruct (t_type other) eqn:Hty'; try (by destruct Hd' as [Hs _ _]; rewrite Hty' in Hs; inversion Hs);
    try done; try (by destruct Hno); unfold intersection_of; rewrite ?Hty, ?Hty';
    try (pose proof (denotes_empty m s t l Hd Hty) as ->; unfold intersectTopology; rewrite ?Hty, ?Hty';
         by apply gives_ok with []; [apply empty_denotes|done|done]);
    try (pose proof (denotes_empty m s other l' Hd' Hty') as ->; unfold intersectTopology;
         rewrite ?Hty, ?Hty', filter_none; by apply gives_ok with []; [apply empty_denotes|done|done]);
    try (unfold intersectTopology; by rewrite ?Hty, ?Hty').
  - by apply (intersect_ranges m machine Hm).
  - by apply (intersect_lists m machine Hm).
Qed.
End subtract.
