(* ===== verification/TopologyLocal.v ===== *)
(** The part of a topology on the caller's node, against the list of tasks. *)
From S2P Require Import Prelude.
From S2P Require Import Topology.
From S2P Require Import TopologyOps.
From S2P Require Import TopologySpec.
From S2P Require Import TopologyModel.
From S2P Require Import TopologyAnalysis.
From S2P Require Import TopologyEndpoints.
From S2P Require Import TopologySets.
From S2P Require Import TopologySubtract.

#[local] Opaque w64 w32.

Section local.
Context (m : Mapping) (machine : rectseg) (Hm : mapping_ok m machine).

Notation n := (dims m).

(** What the mapping promises of nodes: the tasks of a node are those with the same
    coordinates in the torus dimensions, and [nodePeers] counts the caller's. *)
Record node_ok : Prop := {
  no_me : is_task m (my_task m);
  no_dims : (torusDims m ≤ n)%nat;
  no_peer me c r : task2network m (my_task m) = Some me → task2network m r = Some c →
    isPeer m (my_task m) r = true ↔ ∀ x, (x < torusDims m)%nat → net_coord c x = net_coord me x;
  no_peers l : NoDup l → Forall (is_task m) l →
    Z.of_nat (length (filter (λ r, IS_LOCAL_PEER m r = true) l)) ≤ nodePeers m
}.

Context (Hn : node_ok).

(** The tasks of [l] on my node. *)
Definition mine (l : list Z) : list Z := filter (λ r, IS_LOCAL_PEER m r = true) l.

Lemma local_corner_spec me corner x : length (coords me) = n →
  network (local_corner m me corner) = network me ∧
  length (coords (local_corner m me corner)) = n ∧
  ((x < n)%nat → net_coord (local_corner m me corner) x =
    if decide (x < torusDims m)%nat then net_coord me x else net_coord corner x).
Proof.
  intros Hl. pose proof (no_dims Hn) as Hd. unfold local_corner, local_dims.
  assert (Hgen : ∀ k, (torusDims m + k ≤ n)%nat →
    let c := foldl (λ c x, set_coord x (net_coord corner x) c) me (seq (torusDims m) k) in
    network c = network me ∧ length (coords c) = n ∧
    ((x < n)%nat → net_coord c x = if decide (torusDims m ≤ x < torusDims m + k)%nat
      then net_coord corner x else net_coord me x)).
  { induction k as [|k IH]; intros Hk; cbn zeta.
    - cbn. repeat split; [done|]. intros _. by rewrite decide_False by lia.
    - rewrite seq_S, foldl_snoc. destruct (IH ltac:(lia)) as (IH1&IH2&IH3).
      set (c := foldl _ me _) in *. split; [done|]. rewrite length_set_coord. split; [done|].
      intros Hx. rewrite net_coord_set by lia. specialize (IH3 Hx).
      destruct (decide (x = torusDims m + k)%nat) as [->|Hne].
      + by rewrite decide_True by lia.
      + rewrite IH3. do 2 case_decide; (done || lia). }
  destruct (Hgen (n - torusDims m)%nat ltac:(lia)) as (H1&H2&H3). split; [done|]. split; [done|].
  intros Hx. rewrite (H3 Hx). destruct (decide (x < torusDims m)%nat).
  - by rewrite decide_False by lia.
  - by rewrite decide_True by lia.
Qed.

(** The sizes of the local dimensions, when the torus ones have width 1. *)
Lemma local_size_volume r : in_range r n → volume r n < 2 ^ 32 →
  (∀ x, (x < torusDims m)%nat → ll_at r x = ur_at r x) → local_size m r = volume r n.
Proof.
  intros Hr Hv Hone. pose proof (no_dims Hn) as Hd. unfold local_size, local_dims.
  assert (Hone' : ∀ k, (k ≤ torusDims m)%nat → volume r k = 1).
  { induction k as [|k IH]; intros Hk; [done|]. cbn. rewrite IH by lia. unfold width.
    rewrite Hone by lia. lia. }
  assert (Hgen : ∀ k, (torusDims m + k ≤ n)%nat →
    foldl (λ s x, w64 (s * w64 (net_coord (urcorner r) x - net_coord (llcorner r) x + 1))) 1
      (seq (torusDims m) k) = volume r (torusDims m + k)).
  { induction k as [|k IH]; intros Hk.
    - rewrite Nat.add_0_r. cbn. by rewrite Hone'.
    - rewrite seq_S, foldl_snoc, IH, Nat.add_succ_r by lia. cbn [volume].
      pose proof (volume_le r (S (torusDims m + k)) n Hr ltac:(lia)) as Hle. cbn [volume] in Hle.
      pose proof (Hr (torusDims m + k)%nat ltac:(lia)). unfold width, ll_at, ur_at in *.
      assert (0 < volume r (torusDims m + k)).
      { apply volume_pos. intros x Hx. apply Hr. lia. }
      rewrite !w64_small; [done|lia|]. rewrite w64_small by lia. nia. }
  rewrite Hgen by lia. f_equal. lia.
Qed.

(** My node in a segment it meets. *)
Lemma local_rect_at r me x : task2network m (my_task m) = Some me → (x < n)%nat →
  ll_at (local_rect m me r) x = (if decide (x < torusDims m)%nat then net_coord me x else ll_at r x) ∧
  ur_at (local_rect m me r) x = (if decide (x < torusDims m)%nat then net_coord me x else ur_at r x).
Proof.
  intros Hme Hx. destruct (mo_coord _ _ Hm _ _ Hme) as (_&Hl&_).
  split; by apply local_corner_spec.
Qed.

Lemma local_rect_inside r me c : task2network m (my_task m) = Some me →
  inside r (torusDims m) (coords me) →
  inside (local_rect m me r) n c ↔
    inside r n c ∧ ∀ x, (x < torusDims m)%nat → default 0 (c !! x) = net_coord me x.
Proof.
  intros Hme Hin. pose proof (no_dims Hn) as Hd. unfold inside. split.
  - intros H. split; intros x Hx; destruct (local_rect_at r me x Hme ltac:(lia)) as [H1 H2];
      specialize (H x ltac:(lia)); rewrite H1, H2 in H.
    + case_decide as Hlt; [|done]. specialize (Hin x Hlt). unfold net_coord in H. lia.
    + rewrite !decide_True in H by done. lia.
  - intros [H Heq] x Hx. destruct (local_rect_at r me x Hme Hx) as [-> ->].
    case_decide as Hlt; [rewrite Heq by done; lia|by apply H].
Qed.

Lemma local_rect_ok r me : rect_ok n r → task2network m (my_task m) = Some me →
  inside r (torusDims m) (coords me) → rect_ok n (local_rect m me r).
Proof.
  intros Hr Hme Hin. destruct (mo_coord _ _ Hm _ _ Hme) as (Hnet&Hl&_).
  assert (Hx : ∀ x, (x < n)%nat → ll_at r x ≤ ll_at (local_rect m me r) x ∧
    ll_at (local_rect m me r) x ≤ ur_at (local_rect m me r) x ∧
    ur_at (local_rect m me r) x ≤ ur_at r x).
  { intros x Hx. destruct (local_rect_at r me x Hme Hx) as [-> ->].
    pose proof (ro_range _ _ Hr x Hx). destruct (decide (x < torusDims m)%nat) as [Hlt|]; [|lia].
    specialize (Hin x Hlt). unfold net_coord. lia. }
  split.
  - destruct (local_corner_spec me (llcorner r) 0 Hl) as [H1 _].
    destruct (local_corner_spec me (urcorner r) 0 Hl) as [H2 _]. cbn. by rewrite H1, H2.
  - cbn. split; by apply (local_corner_spec me _ 0 Hl).
  - intros x Hlt. pose proof (ro_range _ _ Hr x Hlt). specialize (Hx x Hlt). lia.
  - pose proof (ro_volume _ _ Hr). enough (volume (local_rect m me r) n ≤ volume r n) by lia.
    apply volume_mono. intros x Hlt. specialize (Hx x Hlt). unfold width. lia.
Qed.

Lemma local_rect_perm r me : full m r → task2network m (my_task m) = Some me →
  inside r (torusDims m) (coords me) →
  full m (local_rect m me r) ∧ ranks_of m (local_rect m me r) ≡ₚ mine (ranks_of m r).
Proof.
  intros Hf Hme Hin.
  assert (Hfq : full m (local_rect m me r)).
  { intros c [Hl Hc]%elem_of_box. apply Hf, elem_of_box. split; [done|].
    by apply (local_rect_inside r me c Hme Hin) in Hc as [? _]. }
  split; [done|]. apply NoDup_Permutation.
  - by apply NoDup_ranks_of with machine.
  - apply NoDup_filter. by apply NoDup_ranks_of with machine.
  - intros rank. unfold mine. rewrite list_elem_of_filter.
    destruct (task2network m rank) as [c|] eqn:Hc.
    + rewrite !(elem_of_ranks_of m machine Hm _ rank c) by done.
      rewrite (local_rect_inside r me (coords c) Hme Hin). unfold IS_LOCAL_PEER.
      rewrite (no_peer Hn me c rank Hme Hc). unfold net_coord. tauto.
    + assert (Hno : ∀ q, full m q → rank ∉ ranks_of m q).
      { by apply (no_task_not_in m machine Hm). }
      split; [intros ?; by destruct (Hno _ Hfq)|intros [_ ?]; by destruct (Hno r Hf)].
Qed.

(** Away from the segment there is nothing. *)
Lemma mine_outside r me : full m r → task2network m (my_task m) = Some me →
  ¬ inside r (torusDims m) (coords me) → mine (ranks_of m r) = [].
Proof.
  intros Hf Hme Hout. pose proof (no_dims Hn) as Hd. apply filter_nil_all.
  intros rank Hin Hpeer. apply Hout. destruct (task2network m rank) as [c|] eqn:Hc.
  - apply (elem_of_ranks_of m machine Hm _ rank c Hf Hc) in Hin.
    unfold IS_LOCAL_PEER in Hpeer. rewrite (no_peer Hn me c rank Hme Hc) in Hpeer.
    intros x Hx. specialize (Hin x ltac:(lia)). specialize (Hpeer x Hx). unfold net_coord in Hpeer. lia.
  - by destruct (no_task_not_in m machine Hm rank Hc r Hf).
Qed.

Lemma local_size_rect r me : task2network m (my_task m) = Some me →
  local_size m (local_rect m me r) = local_size m r.
Proof.
  intros Hme. unfold local_size.
  assert (Hgen : ∀ xs a, (∀ x, x ∈ xs → (torusDims m ≤ x < n)%nat) →
    foldl (λ s x, w64 (s * w64 (net_coord (urcorner (local_rect m me r)) x -
                                net_coord (llcorner (local_rect m me r)) x + 1))) a xs =
    foldl (λ s x, w64 (s * w64 (net_coord (urcorner r) x - net_coord (llcorner r) x + 1))) a xs).
  { induction xs as [|x xs IH]; intros a Hxs; [done|]. cbn [foldl].
    rewrite IH by (intros y Hy; apply Hxs; by right).
    destruct (local_rect_at r me x Hme) as [H1 H2]; [by apply Hxs; left|].
    unfold ll_at, ur_at in H1, H2. rewrite H1, H2.
    rewrite !decide_False by (specialize (Hxs x ltac:(by left)); lia). done. }
  apply Hgen. intros x Hx%elem_of_seq. lia.
Qed.

Lemma local_segment new s t l : denotes m s t l → t_type t = PAMI_COORD_TOPOLOGY →
  gives m s (subTopologyLocalToMe m new t s) (mine l).
Proof.
  intros Hd Hty. pose proof Hd as [Hs Hsz Ht]. rewrite Hty in Hs.
  inversion Hs as [| | | |r Hro Hf Hl Hu Htp]. destruct (no_me Hn) as [me Hme].
  unfold subTopologyLocalToMe, topo_rect, MY_COORDS, RANK2COORDS. rewrite Hty, <- Htp, Hme, Ok_bind.
  cbn [of_option]. rewrite Ok_bind. destruct (isMemberCoord r me (torusDims m)) eqn:Hb.
  - apply isMemberCoord_spec in Hb. destruct (local_rect_perm r me Hf Hme Hb) as [Hfq Hp].
    pose proof (local_rect_ok r me Hro Hme Hb) as Hq.
    apply gives_ok with (ranks_of m (local_rect m me r)); [|done|by rewrite Hl]. split.
    + by apply shape_coord.
    + cbn. unfold ranks_of. rewrite length_fmap, (length_box _ n) by (apply in_range_solid, Hq).
      rewrite <- (local_size_rect r me Hme). apply local_size_volume; [apply Hq..|].
      intros x Hx. pose proof (no_dims Hn). destruct (local_rect_at r me x Hme) as [-> ->]; [lia|].
      by rewrite !decide_True.
    + rewrite Hp. apply tasks_filter. by rewrite <- Hl.
  - apply gives_ok with []; [apply empty_denotes|done|].
    rewrite Hl, (mine_outside r me Hf Hme); [done|]. rewrite <- isMemberCoord_spec. congruence.
Qed.

(** A range or a list. *)
Lemma local_ranks new s t l : denotes m s t l →
  gives m s (rl ← foldM (λ rl r, if IS_LOCAL_PEER m r then put (nodePeers m) rl r else mret rl) [] l;
    match rl with
    | [] => mret (empty new, s)
    | _ =>
        let '(a, s) := new_array rl s in
        mret (set_contexts (build new PAMI_LIST_TOPOLOGY (u_list a) (Z.of_nat (length rl)) true)
                (t_offset t) (t_all_contexts t), s)
    end) (mine l).
Proof.
  intros Hd. pose proof (denotes_NoDup m machine Hm s t l Hd) as Hnd.
  pose proof (den_tasks _ _ _ _ Hd) as Ht.
  rewrite foldM_filter by (cbn; by apply (no_peers Hn)). rewrite Ok_bind. cbn [app].
  fold (mine l). pose proof (NoDup_filter (λ r, IS_LOCAL_PEER m r = true) l Hnd) as Hnd'.
  pose proof (tasks_filter m (λ r, IS_LOCAL_PEER m r = true) l Ht) as Ht'. fold (mine l) in Hnd', Ht'.
  destruct (mine l) as [|r k]; [apply gives_ok with []; [apply empty_denotes|done|done]|].
  apply gives_ok with (r :: k); [|apply new_array_extends|done].
  apply denotes_contexts. by apply (list_denotes m s new (r :: k) true).
Qed.

Lemma local_spec new s t l : denotes m s t l → gives m s (subTopologyLocalToMe m new t s) (mine l).
Proof.
  intros Hd. pose proof Hd as [Hs Hsz Ht]. destruct (t_type t) eqn:Hty.
  - rewrite (denotes_empty m s t l Hd Hty). unfold subTopologyLocalToMe. rewrite Hty, bind_ret.
    cbn [foldM]. rewrite bind_ret. by apply gives_ok with []; [apply empty_denotes|..].
  - destruct (denotes_single m s t l Hd Hty) as (r&Hr&->&Hr'). unfold subTopologyLocalToMe.
    rewrite Hty, Hr, Ok_bind. unfold mine. rewrite filter_single. destruct (IS_LOCAL_PEER m r).
    + rewrite bool_decide_eq_true_2 by done. by apply (assign_gives m machine Hm s new t [r]).
    + rewrite bool_decide_eq_false_2 by done. by apply gives_ok with []; [apply empty_denotes|..].
  - assert (Hl : ('(first, last) ← topo_rankrange t; task_range first last) = Ok l).
    { inversion Hs as [| |f la Hfl Hl Hu Htp| |]. unfold topo_rankrange. rewrite <- Htp, Ok_bind.
      assert (Hla : la ∈ l) by (rewrite Hl; apply elem_of_seqZ; lia).
      pose proof (denotes_range m machine Hm s t l la Hd Hla). unfold task_range.
      rewrite (proj2 (Z.eqb_neq la _)) by lia. by rewrite Hl. }
    unfold subTopologyLocalToMe. rewrite Hty, Hl, Ok_bind. by apply local_ranks.
  - unfold subTopologyLocalToMe. rewrite Hty, (denotes_items m s t l Hd Hty), Ok_bind.
    by apply local_ranks.
  - by apply local_segment.
  - inversion Hs.
  - inversion Hs.
Qed.

End local.
