(* ===== verification/TopologyGrid.v ===== *)
(** A machine of two nodes with two tasks each, on which the hypotheses of the theorems
    on topologies hold. *)
From S2P Require Import Prelude.
From S2P Require Import Topology.
From S2P Require Import TopologySpec.
From S2P Require Import TopologyModel.
From S2P Require Import TopologyEndpoints.
From S2P Require Import TopologyLocal.

(** Task [2 * node + process]; the node is the torus dimension. *)
Definition at_ (node process : Z) : pami_coord_t := mkCoord PAMI_N_TORUS_NETWORK [node; process].

Definition grid_task2network (r : Z) : option pami_coord_t :=
  if (0 <=? r) && (r <? 4) then Some (at_ (r / 2) (r `mod` 2)) else None.

Definition grid_network2task (c : pami_coord_t) : option Z :=
  match network c, coords c with
  | PAMI_N_TORUS_NETWORK, [x; y] =>
      if (0 <=? x) && (x <? 2) && (0 <=? y) && (y <? 2) then Some (2 * x + y) else None
  | _, _ => None
  end.

Definition grid : Mapping :=
  mkMapping 1 2 (λ _, 2) 0 grid_task2network grid_network2task (λ a b, a / 2 =? b / 2) 2
    (λ r, (r / 2, r `mod` 2)) 2 (λ _ _, [0; 0]) Bgq.PAMI_ENDPOINT_INIT Bgq.PAMI_ENDPOINT_INFO.

Definition grid_machine : rectseg := mkRect (at_ 0 0) (at_ 1 1) [0; 0].

Lemma grid_task r c : grid_task2network r = Some c →
  r = 0 ∧ c = at_ 0 0 ∨ r = 1 ∧ c = at_ 0 1 ∨ r = 2 ∧ c = at_ 1 0 ∨ r = 3 ∧ c = at_ 1 1.
Proof.
  unfold grid_task2network. destruct (Z.leb_spec 0 r), (Z.ltb_spec r 4); cbn [andb]; try done.
  intros [= <-]. assert (r = 0 ∨ r = 1 ∨ r = 2 ∨ r = 3) as [->|[->|[->| ->]]] by lia; auto.
Qed.

Lemma grid_is_task r : is_task grid r ↔ 0 ≤ r < 4.
Proof.
  unfold is_task. cbn [task2network grid]. unfold grid_task2network.
  destruct (Z.leb_spec 0 r), (Z.ltb_spec r 4); cbn [andb]; split; try done; intros H1; try lia;
    by destruct H1.
Qed.

(** The two dimensions of the grid. *)
Ltac dimensions := intros x Hx; cbn [dims globalDims torusDims grid] in Hx;
  destruct x as [|[|x]]; [cbn; lia..|exfalso; lia].

Lemma grid_ok : mapping_ok grid grid_machine.
Proof.
  split.
  - cbn. lia.
  - intros r c H. apply grid_task in H as [[-> ->]|[[-> ->]|[[-> ->]|[-> ->]]]]; done.
  - intros c r. cbn. unfold grid_network2task, torus_coord. cbn. intros H Hl.
    destruct c as [|x [|y [|]]]; try done.
    destruct (Z.leb_spec 0 x), (Z.ltb_spec x 2), (Z.leb_spec 0 y), (Z.ltb_spec y 2); try done.
    cbn in H. injection H as <-.
    assert (x = 0 ∨ x = 1) as [-> | ->] by lia; assert (y = 0 ∨ y = 1) as [-> | ->] by lia; done.
  - split; [done|done| |done]. unfold in_range. dimensions.
  - intros r c H. apply grid_task in H as [[-> ->]|[[-> ->]|[[-> ->]|[-> ->]]]]; dimensions.
  - intros r H%grid_is_task. lia.
Qed.

Lemma grid_node_ok : node_ok grid.
Proof.
  split.
  - by apply grid_is_task.
  - cbn. lia.
  - intros me c r [= <-] H. cbn [my_task isPeer grid torusDims].
    apply grid_task in H as [[-> ->]|[[-> ->]|[[-> ->]|[-> ->]]]]; cbn; split; try done.
    + intros _ [|x] Hx; [done|lia].
    + intros H. specialize (H 0%nat ltac:(lia)). by vm_compute in H.
    + intros H. specialize (H 0%nat ltac:(lia)). by vm_compute in H.
  - intros l Hnd Ht.
    enough (length (filter (λ r, IS_LOCAL_PEER grid r = true) l) ≤ length [0; 1]%Z)%nat by (cbn in *; lia).
    apply submseteq_length, NoDup_submseteq; [by apply NoDup_filter|].
    intros x [Hp Hx]%list_elem_of_filter. pose proof (proj1 (Forall_forall _ _) Ht x Hx) as H.
    apply grid_is_task in H.
    assert (x = 0 ∨ x = 1 ∨ x = 2 ∨ x = 3) as [->|[->|[->| ->]]] by lia;
      first [by vm_compute in Hp|set_solver].
Qed.

Lemma grid_endpoints_ok : endpoints_ok grid 64.
Proof. intros c task o Ht%grid_is_task Ho. apply bgq_endpoint_info; lia. Qed.
