(* ===== verification/TopologyConversion.v ===== *)
(** The conversions of a topology between its representations: each keeps the tasks, and
    the ones that are always possible succeed. *)
From S2P Require Import Prelude.
From S2P Require Import Topology.
From S2P Require Import TopologyOps.
From S2P Require Import TopologySpec.
From S2P Require Import TopologyModel.
From S2P Require Import TopologyAnalysis.
From S2P Require Import TopologyConvert.
From S2P Require Import TopologySets.

#[local] Opaque w64 w32.

Section conversion.
Context (m : Mapping) (machine : rectseg) (Hm : mapping_ok m machine).

Notation n := (dims m).

(** * Conversions *)

(** A list of one task that owns its array is freed before it is read. *)
Definition freed_before_read (t : Topology) (ty : pami_topology_type_t) : Prop :=
  t_type t = PAMI_LIST_TOPOLOGY ∧ ty = PAMI_SINGLE_TOPOLOGY ∧ t_size t = 1 ∧
  t_free_ranklist t = true.

Lemma convert_changed s s' t t' l ty : denotes m s' t' l → t_type t' = ty →
  converted m s s' t t' l ty true.
Proof. intros. by exists l. Qed.

Lemma length_one (l : list Z) x : Z.of_nat (length l) = 1 → x ∈ l → l = [x].
Proof. intros Hl Hx. destruct l as [|y [|]]; cbn in Hl; try lia. set_solver. Qed.

Lemma convert_single s t l ty : denotes m s t l → t_type t = PAMI_SINGLE_TOPOLOGY →
  ∃ t' s' b, convertTopology m t ty s = Ok (t', s', b) ∧ converted m s s' t t' l ty b.
Proof.
  intros Hd Hty. pose proof (den_size _ _ _ _ Hd) as Hsz.
  destruct (denotes_single m s t l Hd Hty) as (r&Hr&->&Ht).
  unfold convertTopology. rewrite Hty.
  destruct ty; try (eexists _, _, _; split; [reflexivity|]; by apply converted_same).
  - rewrite Hr, Ok_bind. eexists _, s, true. split; [reflexivity|].
    apply convert_changed; [|done]. split; [|done|by apply Forall_singleton].
    apply shape_range; [done|]. replace (r - r + 1) with 1 by lia. done.
  - rewrite Hr, Ok_bind. eexists _, _, true. split; [reflexivity|].
    apply convert_changed; [|done].
    apply owned_denotes; [done|done|apply NoDup_singleton|by apply Forall_singleton].
  - pose proof Ht as [c Hc]. rewrite Hr, Ok_bind. unfold RANK2COORDS. rewrite Hc. cbn [of_option]. rewrite Ok_bind.
    eexists _, s, true. split; [reflexivity|].
    destruct (coord_of_task m machine Hm r c Hc) as (Hcc&Hl&Hat).
    set (q := mkRect c c (torusInformation m c c)).
    assert (Hw : within m machine q).
    { pose proof (f_equal network Hcc) as Hn. split; [done|done|]. intros x Hx. pose proof (mo_inside _ _ Hm r c Hc x Hx).
      unfold ll_at, ur_at, net_coord in *. cbn in *. lia. }
    pose proof (within_ok m machine Hm q Hw) as Hq.
    assert (Hin : ∀ r0 c0, r0 ∈ [r] → task2network m r0 = Some c0 → inside q (dims m) (coords c0)).
    { intros r0 c0 ->%list_elem_of_singleton Hc0. rewrite Hc in Hc0. injection Hc0 as <-.
      intros x Hx. unfold ll_at, ur_at, net_coord. cbn. lia. }
    assert (Hv : volume q (dims m) = 1).
    { clear. generalize (dims m) as k. induction k as [|k IH]; [done|]. cbn [volume].
      rewrite IH. unfold width, ll_at, ur_at. cbn. lia. }
    destruct (segment_perm m machine Hm q [r] Hw) as [Hf Hp];
      [apply NoDup_singleton|by apply Forall_singleton|done|by rewrite Hv|].
    apply Permutation_singleton_r in Hp.
    apply convert_changed; [|done]. split; [|done|by apply Forall_singleton].
    by apply shape_coord.
Qed.

Lemma convert_range s t l ty : denotes m s t l → t_type t = PAMI_RANGE_TOPOLOGY →
  ∃ t' s' b, convertTopology m t ty s = Ok (t', s', b) ∧ converted m s s' t t' l ty b.
Proof.
  intros Hd Hty. pose proof Hd as [Hs Hsz Ht]. unfold convertTopology. rewrite Hty.
  assert (Hr : ∃ f la, t_topo t = u_rankrange f la ∧ f ≤ la ∧ l = seqZ f (la - f + 1)).
  { rewrite Hty in Hs. inversion Hs. eauto. }
  destruct Hr as (f&la&Htp&Hfl&Hl).
  destruct ty; try (eexists _, _, _; split; [reflexivity|]; by apply converted_same).
  - destruct (Z.eqb_spec (t_size t) 1) as [H1|H1];
      [|eexists _, _, _; split; [reflexivity|]; by apply converted_same].
    unfold topo_rankrange. rewrite Htp, Ok_bind. eexists _, s, true. split; [reflexivity|].
    apply convert_changed; [|done]. split; [|done|done]. apply shape_single.
    apply length_one; [lia|]. rewrite Hl. apply elem_of_seqZ. lia.
  - unfold topo_rankrange. rewrite Htp, Ok_bind.
    assert (Hla : la ∈ l) by (rewrite Hl; apply elem_of_seqZ; lia).
    pose proof (denotes_range m machine Hm s t l la Hd Hla). unfold task_range.
    rewrite (proj2 (Z.eqb_neq la _)) by lia. rewrite bind_ret, <- Hl.
    rewrite foldM_put by (rewrite Hsz; cbn; lia). rewrite Ok_bind. eexists _, _, true.
    split; [reflexivity|]. apply convert_changed; [|done].
    apply owned_denotes; [done|by intros ->; apply elem_of_nil in Hla|by eapply denotes_NoDup|done].
  - destruct (analyzeCoordsRange_spec m machine Hm s t l Hd Hty) as (t'&b&->&Hc). rewrite Ok_bind.
    by eexists _, _, _.
Qed.

Lemma convert_list s t l ty : denotes m s t l → t_type t = PAMI_LIST_TOPOLOGY → ¬ freed_before_read t ty →
  ∃ t' s' b, convertTopology m t ty s = Ok (t', s', b) ∧ converted m s s' t t' l ty b.
Proof.
  intros Hd Hty Hcv. pose proof Hd as [Hs Hsz Ht]. pose proof (list_nonempty m s t l Hd Hty) as Hne.
  unfold convertTopology. rewrite Hty.
  destruct ty; try (eexists _, _, _; split; [reflexivity|]; by apply converted_same).
  - destruct (Z.eqb_spec (t_size t) 1) as [H1|H1];
      [|eexists _, _, _; split; [reflexivity|]; by apply converted_same].
    assert (Hfree : t_free_ranklist t = false) by (apply not_true_iff_false; intros ?; by apply Hcv).
    unfold drop_list. rewrite Hfree, bind_ret, (denotes_items m s t l Hd Hty), Ok_bind.
    destruct l as [|r l]; [done|]. cbn [head of_option]. rewrite Ok_bind. eexists _, s, true. split; [reflexivity|].
    apply convert_changed; [|done]. split; [|done|done]. apply shape_single.
    apply length_one; [lia|by left].
  - by apply (analyzeRangeList_spec m machine Hm).
  - by apply (analyzeCoordsList_spec m machine Hm).
Qed.

Lemma convert_coord s t l ty : denotes m s t l → t_type t = PAMI_COORD_TOPOLOGY →
  ∃ t' s' b, convertTopology m t ty s = Ok (t', s', b) ∧ converted m s s' t t' l ty b.
Proof.
  intros Hd Hty. pose proof Hd as [Hs Hsz Ht]. pose proof (denotes_NoDup m machine Hm s t l Hd) as Hnd.
  unfold convertTopology, topo_rect. rewrite Hty.
  assert (Hr : ∃ r, t_topo t = u_rectseg r ∧ rect_ok (dims m) r ∧ full m r ∧ l = ranks_of m r).
  { rewrite Hty in Hs. inversion Hs. eauto. }
  destruct Hr as (r&Htp&Hro&Hf&Hl).
  destruct (torus_corner_eq m r Hro) as [Hcor Hlen].
  pose proof (box_first r (dims m) (in_range_solid _ _ (ro_range _ _ Hro)) ltac:(lia)) as Hb.
  rewrite take_ge in Hb by lia. apply list_elem_of_lookup_2 in Hb.
  assert (Hhd : rank_at m (coords (llcorner r)) ∈ l).
  { rewrite Hl. apply list_elem_of_fmap. by exists (coords (llcorner r)). }
  assert (Hne : l ≠ []) by (by intros ->; apply elem_of_nil in Hhd).
  destruct ty; try (eexists _, _, _; split; [reflexivity|]; by apply converted_same).
  - destruct (Z.eqb_spec (t_size t) 1) as [H1|H1];
      [|eexists _, _, _; split; [reflexivity|]; by apply converted_same].
    rewrite Htp, Ok_bind. eexists _, s, true. split; [reflexivity|].
    apply convert_changed; [|done]. split; [|done|done]. apply shape_single.
    rewrite Hcor, (COORDS2RANK_full m r) by done. apply length_one; [lia|done].
  - rewrite Htp, Ok_bind. rewrite Hl in Ht, Hne.
    destruct (segment_min_max_spec m machine Hm r Hro Hf Ht Hne) as (a&b&->&Ha&Hb'&Hall).
    rewrite <- Hl in *. rewrite Ok_bind.
    destruct (Z.eqb_spec (t_size t) (w32 (b - a + 1))) as [Heq|];
      [|eexists _, _, _; split; [reflexivity|]; by apply converted_same].
    eexists _, s, true. split; [reflexivity|].
    destruct (span_converted m machine Hm t l a b Ht Hnd Hsz Ha Hb' Hall Heq s (t_free_ranklist t))
      as (l'&?&?). by exists l'.
  - rewrite Htp, Ok_bind, segment_ranks_spec by (done || rewrite <- Hl; lia). rewrite Ok_bind.
    eexists _, _, true. split; [reflexivity|]. rewrite <- Hl. apply convert_changed; [|done].
    by apply owned_denotes.
Qed.

Lemma convert_spec s t l ty : denotes m s t l → ¬ freed_before_read t ty →
  ∃ t' s' b, convertTopology m t ty s = Ok (t', s', b) ∧ converted m s s' t t' l ty b.
Proof.
  intros Hd Hcv. pose proof Hd as [Hs _ _]. destruct (t_type t) eqn:Hty; try (by inversion Hs).
  - unfold convertTopology. rewrite Hty. eexists _, _, _. split; [reflexivity|].
    by apply converted_same.
  - by apply convert_single.
  - by apply convert_range.
  - by apply convert_list.
  - by apply convert_coord.
Qed.

(** ** When a conversion must succeed *)

Lemma interval_bounds (l : list Z) a b f k : l ≡ₚ seqZ f k → a ∈ l → b ∈ l →
  (∀ x, x ∈ l → a ≤ x ≤ b) → Z.of_nat (length l) = b - a + 1.
Proof.
  intros Hp Ha Hb Hall.
  assert (Hin : ∀ x, x ∈ l ↔ f ≤ x < f + k) by (intros x; by rewrite Hp, elem_of_seqZ).
  pose proof (proj1 (Hin a) Ha). pose proof (proj1 (Hin b) Hb).
  pose proof (Hall f (proj2 (Hin f) ltac:(lia))).
  pose proof (Hall (f + k - 1) (proj2 (Hin (f + k - 1)) ltac:(lia))).
  rewrite Hp, length_seqZ. lia.
Qed.

(** A range is found when the tasks are one. *)
Lemma interval_found s t l a b : denotes m s t l → (∃ f k, l ≡ₚ seqZ f k) → a ∈ l → b ∈ l →
  (∀ x, x ∈ l → a ≤ x ≤ b) → t_size t =? w32 (b - a + 1) = true.
Proof.
  intros Hd (f&k&Hp) Ha Hb Hall. pose proof (interval_bounds l a b f k Hp Ha Hb Hall) as Hlen.
  pose proof (denotes_range m machine Hm s t l a Hd Ha).
  pose proof (denotes_range m machine Hm s t l b Hd Hb). pose proof (Hall a Ha).
  rewrite w32_small by lia. rewrite (den_size _ _ _ _ Hd). lia.
Qed.

(** The tasks are those of a segment. *)
Definition segment_tasks (l : list Z) : Prop :=
  ∃ r, rect_ok n r ∧ full m r ∧ l ≡ₚ ranks_of m r.

(** From one of a single task, a range, a list and a segment to another one, where the
    tasks are of the kind asked for. *)
Definition converts (t : Topology) (l : list Z) (ty : pami_topology_type_t) : Prop :=
  match t_type t, ty with
  | PAMI_SINGLE_TOPOLOGY, (PAMI_RANGE_TOPOLOGY | PAMI_LIST_TOPOLOGY | PAMI_COORD_TOPOLOGY)
  | (PAMI_RANGE_TOPOLOGY | PAMI_COORD_TOPOLOGY), PAMI_LIST_TOPOLOGY => True
  | (PAMI_RANGE_TOPOLOGY | PAMI_LIST_TOPOLOGY | PAMI_COORD_TOPOLOGY), PAMI_SINGLE_TOPOLOGY =>
      length l = 1%nat
  | (PAMI_LIST_TOPOLOGY | PAMI_COORD_TOPOLOGY), PAMI_RANGE_TOPOLOGY => ∃ f k, l ≡ₚ seqZ f k
  | (PAMI_RANGE_TOPOLOGY | PAMI_LIST_TOPOLOGY), PAMI_COORD_TOPOLOGY => segment_tasks l
  | _, _ => False
  end.

(** The bounds of tasks are in every segment around them. *)
Lemma bounds_of_tight l ll ur r0 : Forall (is_task m) l → bounds_of m l = Ok (ll, ur) →
  (∀ rank c, rank ∈ l → task2network m rank = Some c → inside r0 n (coords c)) →
  ∀ x, (x < n)%nat → ll_at r0 x ≤ net_coord ll x ∧ net_coord ur x ≤ ur_at r0 x.
Proof.
  intros Ht. destruct l as [|r l]; [done|]. apply Forall_cons in Ht as [[c Hc] Ht].
  cbn [bounds_of]. unfold RANK2COORDS. rewrite Hc. cbn [of_option]. rewrite Ok_bind.
  intros Hrun Hin. pose proof (Hin r c ltac:(left) Hc) as Hin0.
  destruct (coord_of_task m machine Hm r c Hc) as (_&Hl&_).
  destruct (initRange_within m machine c [] Hl (mo_inside _ _ Hm r c Hc)) as [Hw _].
  assert (Htight : ∀ x, (x < n)%nat →
    ll_at r0 x ≤ net_coord (initRange c n).1 x ∧ net_coord (initRange c n).2 x ≤ ur_at r0 x).
  { intros x Hx. unfold initRange. cbn. rewrite take_ge by lia. specialize (Hin0 x Hx).
    unfold net_coord. cbn. lia. }
  clear Hin0. revert Hrun Hw Htight. generalize (initRange c n) as llur. clear c Hc Hl.
  induction l as [|r1 l IH]; intros [ll0 ur0] Hrun Hw Htight; cbn [foldM] in Hrun.
  - injection Hrun as <- <-. done.
  - apply Forall_cons in Ht as [[c Hc] Ht]. rewrite Hc in Hrun. cbn [of_option] in Hrun. rewrite !Ok_bind in Hrun.
    destruct (coord_of_task m machine Hm r1 c Hc) as (_&Hl&_).
    destruct (bumpRange_within m machine ll0 ur0 [] c Hw Hl (mo_inside _ _ Hm r1 c Hc)) as (Hw'&_&_).
    refine (IH Ht _ _ Hrun Hw' _).
    { intros rank d Hr. apply Hin. set_solver. }
    destruct Hw as [[Hn1 Hn2] [Hl1 Hl2] Ho]. cbn in Hn1, Hn2, Hl1, Hl2.
    destruct (bumpRange_prefix m ll0 ur0 c n Hl1 Hl2) as (ll'&ur'&->&_&_&_&_&Hx'); [lia| |].
    { intros x Hx. specialize (Ho x Hx). unfold ll_at, ur_at in Ho. cbn in Ho. lia. }
    intros x Hx. cbn. destruct (Hx' x Hx) as [-> ->]. rewrite !decide_True by done.
    specialize (Htight x Hx). specialize (Hin r1 c ltac:(set_solver) Hc x Hx). cbn in Htight.
    unfold net_coord in *. lia.
Qed.

(** The bounds of the tasks of a segment are its corners. *)
Lemma bounds_found l ll ur : Forall (is_task m) l → l ≠ [] → bounds_of m l = Ok (ll, ur) →
  segment_tasks l → sizeRange ll ur n = Z.of_nat (length l).
Proof.
  intros Ht Hne Hrun (r&Hro&Hf&Hp). pose proof (ro_range _ _ Hro) as Hrr.
  destruct (bounds_of_spec m machine Hm l (istorus r) Ht Hne) as (ll'&ur'&Hrun'&Hw&Hin).
  rewrite Hrun in Hrun'. injection Hrun' as <- <-.
  pose proof (within_ok m machine Hm _ Hw) as Hbo.
  assert (Htight : ∀ x, (x < n)%nat → ll_at r x ≤ net_coord ll x ∧ net_coord ur x ≤ ur_at r x).
  { apply (bounds_of_tight l); [done|done|]. intros rank c Hr Hc. rewrite Hp in Hr.
    by apply (elem_of_ranks_of m machine Hm r rank c). }
  assert (Hcorner : ∀ c, c ∈ box r n → inside (mkRect ll ur (istorus r)) n c).
  { intros c Hc. destruct (Hf c Hc) as [rank Hrank].
    pose proof (rank_at_task m machine Hm c rank Hrank (length_in_box _ _ _ Hc)) as Htask.
    apply (Hin (rank_at m c) (torus_coord c)); [|done]. rewrite Hp. apply list_elem_of_fmap. eauto. }
  assert (Hcs : coords (llcorner r) ∈ box r n ∧ coords (urcorner r) ∈ box r n).
  { pose proof (ro_length _ _ Hro) as [? ?]. split; apply elem_of_box; (split; [done|]);
      intros x Hx; specialize (Hrr x Hx); unfold ll_at, ur_at, net_coord in *; lia. }
  destruct Hcs as [Hc1%Hcorner Hc2%Hcorner].
  pose proof (sizeRange_volume (mkRect ll ur (istorus r)) n (ro_range _ _ Hbo) (ro_volume _ _ Hbo)) as Hv.
  cbn [llcorner urcorner] in Hv. rewrite Hv.
  rewrite Hp. unfold ranks_of. rewrite length_fmap, length_box by by apply in_range_solid.
  assert (Hk : ∀ k, (k ≤ n)%nat → volume (mkRect ll ur (istorus r)) k = volume r k).
  { induction k as [|k IH]; intros Hk; [done|]. cbn [volume]. rewrite IH by lia. f_equal.
    specialize (Hc1 k ltac:(lia)). specialize (Hc2 k ltac:(lia)). specialize (Htight k ltac:(lia)).
    unfold width, ll_at, ur_at, net_coord in *. cbn in *. lia. }
  by apply Hk.
Qed.

Lemma analyzeRangeList_found s t l t' s' b : denotes m s t l → t_type t = PAMI_LIST_TOPOLOGY →
  (∃ f k, l ≡ₚ seqZ f k) → analyzeRangeList t s = Ok (t', s', b) → b = true.
Proof.
  intros Hd Hty Hp. unfold analyzeRangeList. rewrite (denotes_items m s t l Hd Hty), Ok_bind.
  destruct (min_max_spec l (list_nonempty m s t l Hd Hty)) as (x&y&->&Hx&Hy&Hall). rewrite Ok_bind.
  rewrite (interval_found s t l x y) by done.
  destruct (drop_list_spec m s t l Hd Hty) as (s1&->). rewrite Ok_bind. intros [=]. done.
Qed.

Lemma coord_range_found s t l t' s' b : denotes m s t l → t_type t = PAMI_COORD_TOPOLOGY →
  (∃ f k, l ≡ₚ seqZ f k) → convertTopology m t PAMI_RANGE_TOPOLOGY s = Ok (t', s', b) → b = true.
Proof.
  intros Hd Hty Hp. pose proof Hd as [Hs Hsz Ht]. unfold convertTopology, topo_rect. rewrite Hty.
  rewrite Hty in Hs. inversion Hs as [| | | |r Hro Hf Hl Hu Htp]. rewrite Ok_bind.
  destruct (decide (l = [])) as [->|Hne].
  - exfalso. pose proof (ro_range _ _ Hro) as Hrr.
    pose proof (length_box r n (in_range_solid _ _ Hrr)) as Hlen.
    pose proof (volume_pos r n (in_range_solid _ _ Hrr)). apply (f_equal length) in Hl.
    unfold ranks_of in Hl. rewrite length_fmap in Hl. cbn in Hl. lia.
  - rewrite Hl in Ht, Hne.
    destruct (segment_min_max_spec m machine Hm r Hro Hf Ht Hne) as (x&y&->&Hx&Hy&Hall).
    rewrite <- Hl in *. rewrite Ok_bind, (interval_found s t l x y) by done. intros [=]. done.
Qed.

(** A segment is found when the tasks are one. *)
Lemma analyzeCoordsList_found s t l t' s' b : denotes m s t l → t_type t = PAMI_LIST_TOPOLOGY →
  segment_tasks l → analyzeCoordsList m t s = Ok (t', s', b) → b = true.
Proof.
  intros Hd Hty Hseg. pose proof Hd as [_ Hsz Ht]. pose proof (list_nonempty m s t l Hd Hty) as Hne.
  unfold analyzeCoordsList. rewrite (denotes_items m s t l Hd Hty), Ok_bind.
  destruct (bounds_of_spec m machine Hm l [] Ht Hne) as (ll&ur&Hrun&_&_). rewrite Hrun, Ok_bind.
  rewrite (bounds_found l ll ur Ht Hne Hrun Hseg), Hsz, Z.eqb_refl.
  destruct (drop_list_spec m s t l Hd Hty) as (s1&->). rewrite Ok_bind. intros [=]. done.
Qed.

Lemma analyzeCoordsRange_found s t l t' b : denotes m s t l → t_type t = PAMI_RANGE_TOPOLOGY →
  segment_tasks l → analyzeCoordsRange m t = Ok (t', b) → b = true.
Proof.
  intros Hd Hty Hseg. pose proof Hd as [Hs Hsz Ht]. rewrite Hty in Hs.
  inversion Hs as [| |f la Hfl Hl Hu Htp| |]. unfold analyzeCoordsRange, topo_rankrange.
  rewrite <- Htp, Ok_bind. assert (Hlast : la ∈ l) by (rewrite Hl; apply elem_of_seqZ; lia).
  pose proof (denotes_range m machine Hm s t l la Hd Hlast). unfold task_range.
  rewrite (proj2 (Z.eqb_neq la _)) by lia. rewrite bind_ret, <- Hl.
  assert (Hne : l ≠ []) by (intros ->; by apply elem_of_nil in Hlast).
  destruct (bounds_of_spec m machine Hm l [] Ht Hne) as (ll&ur&Hrun&_&_). rewrite Hrun, Ok_bind.
  rewrite (bounds_found l ll ur Ht Hne Hrun Hseg), Hsz, Z.eqb_refl. intros [=]. done.
Qed.

Lemma convert_found s t l ty t' s' b : denotes m s t l → converts t l ty →
  convertTopology m t ty s = Ok (t', s', b) → b = true.
Proof.
  intros Hd Hmust Hrun. pose proof (den_size _ _ _ _ Hd) as Hsz. unfold converts in Hmust.
  destruct (t_type t) eqn:Hty; try done; destruct ty; try done;
    try (by eapply coord_range_found);
    unfold convertTopology in Hrun; rewrite Hty in Hrun;
    try (by eapply analyzeRangeList_found); try (by eapply analyzeCoordsList_found);
    try (apply bind_Ok in Hrun as ([t1 b1]&Hrun&[= <- <- <-]); by eapply analyzeCoordsRange_found);
    rewrite ?(proj2 (Z.eqb_eq (t_size t) 1)) in Hrun by lia;
    repeat match type of Hrun with
    | (?c ≫= _) = Ok _ => destruct c as [?p|]; [rewrite Ok_bind in Hrun|discriminate Hrun];
                          try destruct p
    end; by injection Hrun.
Qed.

(** Nothing else is converted. *)
Lemma convert_only s t l ty t' s' : denotes m s t l →
  convertTopology m t ty s = Ok (t', s', true) → converted m s s' t t' l ty true → converts t l ty.
Proof.
  intros Hd Hrun (l'&[Hs Hsz _]&Hp&Hty'). pose proof (Permutation_length Hp) as Hlen.
  rewrite Hty' in Hs. unfold converts. destruct (t_type t) eqn:Hty; destruct ty;
    try (by unfold convertTopology in Hrun; rewrite Hty in Hrun); try done;
    inversion Hs as [|r Hl Hu Htp|f la Hfl Hl Hu Htp| |r Hro Hf Hl Hu Htp]; subst l'.
  1, 3, 6: done.
  all: try (by exists f, (la - f + 1)). all: by exists r.
Qed.

(** [analyzeTopology] on one task. *)
Lemma analyze_one s t l : denotes m s t l → t_size t = 1 →
  match t_type t with
  | PAMI_LIST_TOPOLOGY => analyzeTopology m t s = Err Fault
  | PAMI_RANGE_TOPOLOGY => ∃ t', analyzeTopology m t s = Ok (t', s, true) ∧
      converted m s s t t' l PAMI_SINGLE_TOPOLOGY true
  | _ => analyzeTopology m t s = Ok (t, s, false)
  end.
Proof.
  intros Hd H1. pose proof Hd as [Hs Hsz Ht]. unfold analyzeTopology. rewrite H1.
  destruct (t_type t) eqn:Hty; cbn [Z.eqb Pos.eqb andb bool_decide]; try done.
  - inversion Hs as [| |f la Hfl Hl Hu Htp| |]. unfold topo_rankrange.
    rewrite bool_decide_eq_true_2, <- Htp, Ok_bind by done. eexists. split; [reflexivity|].
    rewrite <- H1. apply convert_changed; [|done]. split; [|done|done]. apply shape_single.
    apply length_one; [lia|]. rewrite Hl. apply elem_of_seqZ. lia.
  - inversion Hs as [| | |a arr Ha Hl Hne Hnd Hu Htp|]. unfold topo_rect.
    by rewrite bool_decide_eq_true_2, <- Htp by done.
Qed.

(** [analyzeTopology] on more than one task. *)
Lemma analyze_spec s t l : denotes m s t l → t_size t ≠ 1 →
  ∃ t' s' b ty, analyzeTopology m t s = Ok (t', s', b) ∧ converted m s s' t t' l ty b.
Proof.
  intros Hd H1. unfold analyzeTopology. rewrite (proj2 (Z.eqb_neq _ _) H1). cbn [andb].
  assert (Hsame : ∃ t' s' b ty, Ok (t, s, false) = Ok (t', s', b) ∧ converted m s s' t t' l ty b).
  { eexists t, s, false, (t_type t). split; [done|]. by apply converted_same. }
  destruct (t_type t) eqn:Hty; try exact Hsame.
  - destruct (analyzeCoordsRange_spec m machine Hm s t l Hd Hty) as (t'&b&->&Hc). rewrite Ok_bind.
    by eexists _, _, _, _.
  - destruct (analyzeCoordsList_spec m machine Hm s t l Hd Hty) as (t'&s'&b&->&Hc). rewrite Ok_bind.
    destruct b; [by eexists _, _, _, _|].
    destruct Hc as (l'&Hd'&Hp&[-> ->]).
    destruct (analyzeRangeList_spec m machine Hm s t l Hd Hty) as (t1&s1&b1&->&Hc1).
    by eexists _, _, _, _.
Qed.

End conversion.
