(* ===== verification/TopologyProps.v ===== *)
(** Properties of topologies: indices, listings, endpoints, conversions, sub-topologies,
    intersections and differences against the list of tasks a topology denotes, and where
    the code departs from it. *)
From S2P Require Import Prelude.
From S2P Require Import Topology.
From S2P Require Import TopologyOps.
From S2P Require Import TopologySpec.
From S2P Require Import TopologyModel.
From S2P Require Import TopologyEndpoints.
From S2P Require Import TopologyAnalysis.
From S2P Require Import TopologyConvert.
From S2P Require Import TopologySets.
From S2P Require Import TopologySubtract.
From S2P Require Import TopologyLocal.
From S2P Require Import TopologyConversion.
From S2P Require Import TopologyGrid.

#[local] Opaque w64 w32.

Section properties.
Context (m : Mapping) (machine : rectseg) (Hm : mapping_ok m machine).

(** * Departures *)

(** A list of one task. *)
Lemma single_list_faults s t r : denotes m s t [r] → t_type t = PAMI_LIST_TOPOLOGY →
  analyzeTopology m t s = Err Fault ∧
  (t_free_ranklist t = true → convertTopology m t PAMI_SINGLE_TOPOLOGY s = Err Fault).
Proof.
  intros [Hs Hsz _] Hty. rewrite Hty in Hs. inversion Hs as [| | |a arr Ha Hl Hne Hnd Hu Htp|].
  cbn in Hsz. split.
  - unfold analyzeTopology, topo_rect. rewrite Hsz, Hty, <- Htp. done.
  - intros Hfree. unfold convertTopology, drop_list, topo_items, topo_ranklist, free_array.
    rewrite Hsz, Hty, Hfree, <- Htp, Z.eqb_refl, Ok_bind, Ha. cbn [of_option]. rewrite !Ok_bind.
    by rewrite lookup_delete_eq.
Qed.

(** * The properties *)

(** C32. A topology is the list of its tasks: at each index [index2Rank] gives the task,
    [rank2Index] takes the task back to the index, and past the end there is no task;
    [isRankMember] tells the tasks of the list from the others, which have no index;
    [getRankList] copies as much of the list as the caller's array holds and says how
    long it is.  For every representation but the axes and the list of endpoints. *)
Theorem topology_is_list s t l : denotes m s t l → t_all_contexts t = false →
  size t = Z.of_nat (length l) ∧
  (∀ i rank, l !! i = Some rank → index2Rank m t (Z.of_nat i) s = Ok rank ∧
     rank2Index m t rank s = Ok (Z.of_nat i)) ∧
  (∀ ix, size t ≤ ix → index2Rank m t ix s = Ok no_task) ∧
  (∀ rank, is_task m rank → isRankMember m t rank s = Ok (bool_decide (rank ∈ l)) ∧
     (rank ∉ l → rank2Index m t rank s = Ok no_index)) ∧
  (∀ max, 0 < max → getRankList m t max s = Ok (take (Z.to_nat max) l, size t)).
Proof.
  intros Hd Hac. assert (Hsz : size t = Z.of_nat (length l)).
  { unfold size. rewrite Hac. apply (den_size _ _ _ _ Hd). }
  rewrite Hsz. split; [done|]. split; [|split; [|split]].
  - intros i rank Hi. assert (Ht : is_task m rank) by (by eapply Forall_lookup_1; [apply Hd|]).
    rewrite (index2Rank_spec m machine Hm s t l), Nat2Z.id, Hi by (done || lia).
    rewrite (rank2Index_spec m machine Hm s t l rank Hd Ht).
    by rewrite (find_index_lookup l i rank (denotes_NoDup m machine Hm s t l Hd) Hi).
  - intros ix Hix. rewrite (index2Rank_spec m machine Hm s t l) by (done || lia).
    by rewrite lookup_ge_None_2 by lia.
  - intros rank Ht. rewrite (isRankMember_spec m machine Hm s t l rank Hd Ht). split; [done|].
    intros Hno. by rewrite (rank2Index_spec m machine Hm s t l rank Hd Ht), find_index_None.
  - intros max Hmax. by apply getRankList_spec.
Qed.

(** C36. The endpoints of a topology, where the platform's macros keep tasks and context
    offsets apart: they are the endpoints of its tasks in order, one per task or all
    the contexts of each; they are distinct, [size] counts them, [index2Endpoint] and
    [endpoint2Index] go from an ordinal to the endpoint and back, and
    [isEndpointMember] finds exactly them. *)
Theorem topology_endpoints s t l k : denotes m s t l → endpoints_ok m k → contexts_ok k t l →
  let es := endpoints m t l in
  NoDup es ∧ size t = Z.of_nat (length es) ∧
  (∀ i ep, es !! i = Some ep → index2Endpoint m t (Z.of_nat i) s = Ok ep ∧
     endpoint2Index m t ep s = Ok (Z.of_nat i)) ∧
  ∀ ep, isEndpointMember m t ep s = Ok (bool_decide (ep ∈ es)).
Proof.
  intros Hd Hk Hc es. split; [by apply (NoDup_endpoints m machine Hm s t l k)|].
  split; [by apply (size_endpoints m s t l k)|].
  split; [|intros ep; by apply (isEndpointMember_spec m machine Hm s t l k)].
  intros i ep Hi. pose proof (lookup_lt_Some _ _ _ Hi). split.
  - rewrite (index2Endpoint_spec m machine Hm s t l k) by (done || (subst es; lia)).
    rewrite Nat2Z.id. fold es. by rewrite Hi.
  - apply (endpoint2Index_spec m machine Hm s t l k); [done..|lia|by rewrite Nat2Z.id].
Qed.

(** C33. [convertTopology] keeps the tasks: but for a list of one task that owns its array,
    asked to be a single task, it ends with a topology of the same tasks, in memory that
    holds it, of the type asked for when it says that it changed, and otherwise untouched.
    It changes exactly when the type asked for is another one of a single task, a range, a
    list and a segment and the tasks are of that kind: one, consecutive, or those of a
    segment.  The list of one task that owns its array is freed before it is read.
    [analyzeTopology] keeps the tasks too, of several tasks and of one, but for a list of
    one task, where the union is read as a segment. *)
Theorem convert_keeps_tasks s t l ty : denotes m s t l →
  (¬ freed_before_read t ty →
     ∃ t' s' b, convertTopology m t ty s = Ok (t', s', b) ∧ converted m s s' t t' l ty b ∧
       (b = true ↔ converts m t l ty)) ∧
  (freed_before_read t ty → convertTopology m t ty s = Err Fault) ∧
  (t_size t ≠ 1 →
     ∃ t' s' b ty, analyzeTopology m t s = Ok (t', s', b) ∧ converted m s s' t t' l ty b) ∧
  (t_size t = 1 →
     match t_type t with
     | PAMI_LIST_TOPOLOGY => analyzeTopology m t s = Err Fault
     | PAMI_RANGE_TOPOLOGY => ∃ t', analyzeTopology m t s = Ok (t', s, true) ∧
         converted m s s t t' l PAMI_SINGLE_TOPOLOGY true
     | _ => analyzeTopology m t s = Ok (t, s, false)
     end).
Proof.
  intros Hd. split; [|split; [|split; [by apply (analyze_spec m machine Hm)|by eapply analyze_one]]].
  - intros Hcv. destruct (convert_spec m machine Hm s t l ty Hd Hcv) as (t'&s'&b&Hrun&Hc).
    exists t', s', b. split; [done|]. split; [done|]. split.
    + intros ->. by eapply convert_only.
    + intros Hmust. by apply (convert_found m machine Hm s t l ty t' s' b).
  - intros (Hty&->&H1&Hfree). destruct l as [|r [|]]; pose proof (den_size _ _ _ _ Hd) as Hsz;
      rewrite H1 in Hsz; cbn in Hsz; try lia.
    by apply (single_list_faults s t r Hd Hty).
Qed.

(** [subTopologyLocalToMe] gives the tasks of the topology on the caller's node,
    those with its coordinates in the torus dimensions, and leaves every array as it
    was. *)
Theorem local_to_me s new t l : denotes m s t l → node_ok m →
  gives m s (subTopologyLocalToMe m new t s) (filter (λ r, IS_LOCAL_PEER m r = true) l).
Proof. intros Hd Hn. by apply (local_spec m machine Hm). Qed.


(** C34. What [subtractTopology] gives for every pair of topologies.  The tasks of the first
    that are not in the second, every array left as it was: from an empty topology, a single
    one from a single one, a range or a single one from a range unless the range is cut in
    two, a list or a single one from a list, a segment or a single one from a segment.  From
    a single topology, one of another kind leaves the task when it has it and nothing
    when not.  An empty topology taken from several tasks, or another kind of several tasks,
    leaves nothing.  A range cut in two leaves a list of the right size whose array is the
    one the new object's union held before. *)
Theorem subtract_correct new s t other l l' : denotes m s t l → denotes m s other l' →
  match difference_of t other with
  | Difference => gives m s (subtractTopology m new t other s) (filter (.∉ l') l)
  | Inverted => gives m s (subtractTopology m new t other s) (filter (.∈ l') l)
  | NothingLeft => gives m s (subtractTopology m new t other s) []
  | NotStored => ∃ s', subtractTopology m new t other s = Ok (build new PAMI_LIST_TOPOLOGY
      (t_topo new) (Z.of_nat (length (filter (.∉ l') l))) false, s')
  end.
Proof. by apply (subtract_spec m machine Hm). Qed.

End properties.

(** * On the grid *)

(** The ranks 1 and 2, their contexts 0 and 1, a list in an array, the corners of a
    segment, one task. *)
Definition pair : Topology := Topology_range 0 1 2.
Definition pair_contexts : Topology := Topology_eprange 0 1 2 PAMI_ALL_CONTEXTS 2.
Definition some_arrays : arrays := {[ 1 := [2; 1; 3] ]}.
Definition triple : Topology := Topology_list 0 1 3 0 1.
Definition whole : Topology := Topology_rect grid 0 (at_ 0 0) (at_ 1 1) None.
Definition second_tasks : Topology := Topology_rect grid 0 (at_ 0 1) (at_ 1 1) None.
Definition task_one : Topology := Topology_single 0 1.
Definition four : Topology := Topology_range 0 0 3.

Lemma grid_tasks l : Forall (λ r, 0 ≤ r < 4) l → Forall (is_task grid) l.
Proof. intros H. apply (Forall_impl _ _ _ H). intros r. apply grid_is_task. Qed.

Lemma pair_denotes s : denotes grid s pair [1; 2].
Proof. split; [by apply shape_range|done|]. apply grid_tasks. repeat constructor; lia. Qed.

Lemma pair_contexts_denotes s : denotes grid s pair_contexts [1; 2].
Proof. split; [by apply shape_range|done|]. apply grid_tasks. repeat constructor; lia. Qed.

Lemma triple_denotes : denotes grid some_arrays triple [2; 1; 3].
Proof.
  split; [|done|].
  - apply shape_list with [2; 1; 3]; [done|done|done|]. by apply (bool_decide_unpack _).
  - apply grid_tasks. repeat constructor; lia.
Qed.

Lemma task_one_denotes s : denotes grid s task_one [1].
Proof. split; [by apply shape_single|done|]. apply grid_tasks. repeat constructor; lia. Qed.

(** The segments of the grid. *)
Lemma segment_denotes s a b c d l : 0 ≤ a ≤ b → b < 2 → 0 ≤ c ≤ d → d < 2 →
  let r := mkRect (at_ a c) (at_ b d) [0; 0] in l = ranks_of grid r →
  sizeRange (at_ a c) (at_ b d) 2 = Z.of_nat (length l) → Forall (λ r, 0 ≤ r < 4) l →
  denotes grid s (Topology_rect grid 0 (at_ a c) (at_ b d) None) l.
Proof.
  intros Ha Hb Hc Hd r Hl Hsz Ht.
  assert (Hr : rect_ok (dims grid) r).
  { split; [done|done| |].
    - unfold in_range. dimensions.
    - unfold volume, width, ll_at, ur_at, net_coord. cbn. nia. }
  split; [|done|by apply grid_tasks]. apply shape_coord; [done| |done].
  intros k [Hlen Hin]%elem_of_box. cbn in Hlen. destruct k as [|x [|y [|]]]; try done.
  pose proof (Hin 0%nat ltac:(cbn; lia)) as H0. pose proof (Hin 1%nat ltac:(cbn; lia)) as H1. cbn in H0, H1.
  unfold torus_coord. cbn [network2task grid]. unfold grid_network2task. cbn [network coords].
  rewrite !(proj2 (Z.leb_le _ _)), !(proj2 (Z.ltb_lt _ _)) by lia. by eexists.
Qed.

Lemma whole_denotes s : denotes grid s whole [0; 1; 2; 3].
Proof. apply segment_denotes; try lia; [done|done|]. repeat constructor; lia. Qed.


Lemma second_tasks_denotes s : denotes grid s second_tasks [1; 3].
Proof. apply segment_denotes; try lia; [done|done|]. repeat constructor; lia. Qed.


Lemma four_denotes s : denotes grid s four [0; 1; 2; 3].
Proof. split; [by apply shape_range|done|]. apply grid_tasks. repeat constructor; lia. Qed.

Lemma topology_is_list_witness :
  index2Rank grid second_tasks 1 ∅ = Ok 3 ∧ rank2Index grid second_tasks 3 ∅ = Ok 1 ∧
  getRankList grid second_tasks 1 ∅ = Ok ([1], 2).
Proof.
  destruct (topology_is_list grid grid_machine grid_ok ∅ second_tasks [1; 3]
    (second_tasks_denotes ∅) eq_refl) as (Hsz&Hget&_&_&Hlist).
  destruct (Hget 1%nat 3 eq_refl). split; [done|]. split; [done|].
  by rewrite (Hlist 1 ltac:(lia)), Hsz.
Defined.

Lemma topology_endpoints_witness : endpoints grid pair_contexts [1; 2] = [1; 8388609; 2; 8388610] ∧
  index2Endpoint grid pair_contexts 3 ∅ = Ok 8388610 ∧
  endpoint2Index grid pair_contexts 8388610 ∅ = Ok 3.
Proof.
  split; [by vm_compute|].
  destruct (topology_endpoints grid grid_machine grid_ok ∅ pair_contexts [1; 2] 64
    (pair_contexts_denotes ∅) grid_endpoints_ok) as (_&_&Hget&_); [by vm_compute|].
  by apply (Hget 3%nat).
Defined.

Lemma convert_keeps_tasks_witness : ∃ t' s',
  convertTopology grid triple PAMI_RANGE_TOPOLOGY some_arrays = Ok (t', s', true) ∧
  t_type t' = PAMI_RANGE_TOPOLOGY ∧ ∃ l', denotes grid s' t' l' ∧ l' ≡ₚ [2; 1; 3].
Proof.
  destruct (convert_keeps_tasks grid grid_machine grid_ok some_arrays triple [2; 1; 3]
    PAMI_RANGE_TOPOLOGY triple_denotes) as [Hconv _].
  destruct Hconv as (t'&s'&b&Hrun&Hc&Hmust); [by intros [_ [? _]]|].
  assert (b = true) as ->.
  { apply Hmust. exists 1, 3. by rewrite (Permutation_swap 1 2). }
  destruct Hc as (l'&Hd&Hp&Hty). exists t', s'. split; [done|]. split; [done|]. by exists l'.
Defined.

Lemma local_to_me_witness : gives grid ∅ (subTopologyLocalToMe grid pair whole ∅) [0; 1].
Proof.
  by apply (local_to_me grid grid_machine grid_ok ∅ pair whole [0; 1; 2; 3] (whole_denotes ∅)
    grid_node_ok).
Defined.


(** A segment less another one, a single task less a range that has it, a range cut in two. *)
Lemma subtract_correct_witness :
  gives grid ∅ (subtractTopology grid pair whole second_tasks ∅) [0; 2] ∧
  gives grid ∅ (subtractTopology grid whole task_one pair ∅) [1] ∧
  ∃ s', subtractTopology grid pair four pair ∅ =
    Ok (build pair PAMI_LIST_TOPOLOGY (u_rankrange 1 2) 2 false, s').
Proof.
  split; [|split].
  - by apply (subtract_correct grid grid_machine grid_ok pair ∅ whole second_tasks [0; 1; 2; 3] [1; 3]
      (whole_denotes ∅) (second_tasks_denotes ∅)).
  - by apply (subtract_correct grid grid_machine grid_ok whole ∅ task_one pair [1] [1; 2]
      (task_one_denotes ∅) (pair_denotes ∅)).
  - by apply (subtract_correct grid grid_machine grid_ok pair ∅ four pair [0; 1; 2; 3] [1; 2]
      (four_denotes ∅) (pair_denotes ∅)).
Defined.
