(* ===== verification/Schedule.v ===== *)
(** The interface of the schedules of collectives, src/algorithms/interfaces/Schedule.h:
    who sends to whom in which phase. *)
From S2P Require Import Prelude.
From S2P Require Import Topology.

(** [CollectiveOperation]. *)
Definition BROADCAST_OP : Z := 1.
Definition BARRIER_OP : Z := 2.
Definition ALLREDUCE_OP : Z := 4.
Definition REDUCE_OP : Z := 8.

(** The virtual functions of a schedule that the schedule cache calls.  The mapping and
    the arrays are what the topologies of the schedule read.  [getSrcTopology] and
    [getDstTopology] fill an array of the caller's, of the given number of elements, and
    make an endpoint list over what they filled: the result is that list. *)
Class Schedule (T_Schedule : Type) := {
  sched_init : Mapping → arrays → Z → Z → T_Schedule → res (T_Schedule * (Z * Z));
  sched_getSrcTopology : Mapping → arrays → Z → Z → T_Schedule → res (list Z);
  sched_getDstTopology : Mapping → arrays → Z → Z → T_Schedule → res (list Z);
  sched_getLastReducePhase : T_Schedule → Z
}.
