(* ===== verification/MultinomialMap.v ===== *)
(** src/algorithms/schedule/MultinomialMap.h: how the ranks 0, 1, ... of a multinomial
    tree stand for the endpoints of a topology, and which endpoints stay outside of the
    tree, behind one of its ranks. *)
From S2P Require Import Prelude.
From S2P Require Import Topology.

(** [for (unsigned i = n; i > 1; i >>= 1) nph++]: 31 turns at most. *)
Fixpoint halvings (fuel : nat) (i : Z) : Z :=
  match fuel with
  | O => 0
  | S fuel => if 1 <? i then 1 + halvings fuel (Z.shiftr i 1) else 0
  end.
Definition count_halvings (i : Z) : Z := halvings 32 i.

(** [1 << n] on [int]. *)
Definition int_power (n : Z) : res Z :=
  defined ((0 <=? n) && (n <? 31));; mret (Z.shiftl 1 n).

(** * The interface *)

Class MultinomialMap (M : Type) := {
  setRoot : Mapping → arrays → Z → M → res M;
  hasAuxPhases : M → bool;
  isAuxProc : M → bool;
  isPeerProc : M → bool;
  getAuxForPeer : M → res (list Z);
  getPeerForAux : M → res Z;
  getGlobalRank : Mapping → arrays → Z → M → res Z;
  getMyRank : M → Z;
  getNumRanks : M → Z
}.

(** * One topology *)

Module TopologyMap.
Record TopologyMap := mkMap {
  _hnranks : Z; _rootindex : Z; _myindex : Z; _topology : Topology
}.

Definition new (mapping : Mapping) (s : arrays) (myendpoint : Z) (topology : Topology) :
    res TopologyMap :=
  myindex ← endpoint2Index mapping topology myendpoint s;
  h ← int_power (count_halvings (w32 (size topology)));
  mret (mkMap h 0 myindex topology).

Section operations.
Implicit Type m : TopologyMap.

Definition map_size m : Z := size (_topology m).

Definition hasAuxPhases m : bool := negb (Z.land (map_size m) (w64 (map_size m - 1)) =? 0).

Definition setRoot (mapping : Mapping) (s : arrays) (gr : Z) m : res TopologyMap :=
  ix ← endpoint2Index mapping (_topology m) gr s;
  mret (mkMap (_hnranks m) ix (_myindex m) (_topology m)).

Definition getMyRank m : Z :=
  if _rootindex m <=? _myindex m then w32 (_myindex m - _rootindex m)
  else w32 (_myindex m + map_size m - _rootindex m).

Definition isAuxProc m : bool := _hnranks m <=? getMyRank m.
Definition isPeerProc m : bool := getMyRank m <? w64 (map_size m - _hnranks m).

Definition getAuxForPeer m : res (list Z) :=
  assert (isPeerProc m);; mret [w32 (getMyRank m + _hnranks m)].
Definition getPeerForAux m : res Z :=
  assert (isAuxProc m);; mret (w32 (getMyRank m - _hnranks m)).

Definition getGlobalRank (mapping : Mapping) (s : arrays) (relrank : Z) m : res Z :=
  let relrank := w32 (relrank + _rootindex m) in
  let relrank := if map_size m <=? relrank then w32 (relrank - map_size m) else relrank in
  index2Endpoint mapping (_topology m) relrank s.

Definition getNumRanks m : Z := w32 (map_size m).
End operations.
End TopologyMap.
Notation TopologyMap := TopologyMap.TopologyMap.

#[export] Instance TopologyMap_map : MultinomialMap TopologyMap := {
  setRoot := TopologyMap.setRoot;
  hasAuxPhases := TopologyMap.hasAuxPhases;
  isAuxProc := TopologyMap.isAuxProc;
  isPeerProc := TopologyMap.isPeerProc;
  getAuxForPeer := TopologyMap.getAuxForPeer;
  getPeerForAux := TopologyMap.getPeerForAux;
  getGlobalRank := TopologyMap.getGlobalRank;
  getMyRank := TopologyMap.getMyRank;
  getNumRanks := TopologyMap.getNumRanks
}.

(** * One master per node, the other tasks of the node behind it *)

Module NodeOptTopoMap.
Record NodeOptTopoMap := mkMap {
  _hnranks : Z; _rootindex : Z; _myindex : Z; _myendpoint : Z; _master_index : Z;
  _local_master : Z; _all_topology : Topology; _master_topology : Topology;
  _local_topology : Topology
}.

Definition new (mapping : Mapping) (s : arrays) (myindex myendpoint : Z)
    (all local master : Topology) : res NodeOptTopoMap :=
  local_master ← index2Endpoint mapping local 0 s;
  master_index ← endpoint2Index mapping master local_master s;
  h ← int_power (count_halvings (w32 (size master)));
  assert (size master =? h);;
  mret (mkMap h 0 myindex myendpoint master_index local_master all master local).

Section operations.
Implicit Type m : NodeOptTopoMap.

Definition hasAuxPhases m : bool := negb (size (_master_topology m) =? size (_all_topology m)).

(** Only barrier and allreduce. *)
Definition setRoot (mapping : Mapping) (s : arrays) (gr : Z) m : res NodeOptTopoMap := Err Aborted.

Definition isAuxProc m : bool := negb (_myendpoint m =? _local_master m).
Definition isPeerProc m : bool :=
  (_myendpoint m =? _local_master m) && (1 <? size (_local_topology m)).

Definition getAuxForPeer m : res (list Z) :=
  mret (map (λ i, w32 (size (_master_topology m) + i)) (seqZ 1 (size (_local_topology m) - 1))).
Definition getPeerForAux m : res Z := mret (w32 (_master_index m)).

Definition getGlobalRank (mapping : Mapping) (s : arrays) (relrank : Z) m : res Z :=
  if relrank <? size (_master_topology m) then index2Rank mapping (_master_topology m) relrank s
  else index2Rank mapping (_local_topology m) (w64 (relrank - size (_master_topology m))) s.

Definition getMyRank m : Z := w32 (_master_index m).
Definition getNumRanks m : Z := w32 (size (_master_topology m)).
End operations.
End NodeOptTopoMap.
Notation NodeOptTopoMap := NodeOptTopoMap.NodeOptTopoMap.

#[export] Instance NodeOptTopoMap_map : MultinomialMap NodeOptTopoMap := {
  setRoot := NodeOptTopoMap.setRoot;
  hasAuxPhases := NodeOptTopoMap.hasAuxPhases;
  isAuxProc := NodeOptTopoMap.isAuxProc;
  isPeerProc := NodeOptTopoMap.isPeerProc;
  getAuxForPeer := NodeOptTopoMap.getAuxForPeer;
  getPeerForAux := NodeOptTopoMap.getPeerForAux;
  getGlobalRank := NodeOptTopoMap.getGlobalRank;
  getMyRank := NodeOptTopoMap.getMyRank;
  getNumRanks := NodeOptTopoMap.getNumRanks
}.
