(* ===== verification/MultinomialTree.v ===== *)
(** src/algorithms/schedule/MultinomialTree.h: the phases of a barrier, an allreduce, a
    broadcast or a reduce over a power of two of ranks, with a phase before and one after
    for the ranks outside of the tree. *)
From S2P Require Import Prelude.
From S2P Require Import Topology.
From S2P Require Import Schedule.
From S2P Require Import MultinomialMap.
From S2P Require Import PamiType.

(** Codes used to represent implicit phases. *)
Definition UNDEFINED_PHASE : Z := w32 (-1).
Definition ALL_PHASES : Z := w32 (-2).
Definition NO_PHASES : Z := w32 (-3).
Definition NOT_RECV_PHASE : Z := w32 (-4).
Definition NOT_SEND_PHASE : Z := NOT_RECV_PHASE.

Definition PARENT : bool := true.
Definition CHILD : bool := false.

(** [ffs] of string.h. *)
Fixpoint pos_ffs (p : positive) : Z :=
  match p with xO p => 1 + pos_ffs p | _ => 1 end.
Definition ffs (z : Z) : Z :=
  match z with Z0 => 0 | Zpos p | Zneg p => pos_ffs p end.

(** The data members that [setupContext] sets. *)
Record phases := mkPhases {
  _startphase : Z; _nphases : Z;
  _sendph : Z; _recvph : Z; _auxsendph : Z; _auxrecvph : Z; _lastrdcph : Z
}.

Record MultinomialTreeT (M : Type) := mkTree {
  _maxphases : Z; _nphbino : Z; _op : Z; _radix : Z; _logradix : Z; _nranks : Z;
  t_hnranks : Z; _phases : phases; _map : M
}.
Arguments mkTree {M} _maxphases _nphbino _op _radix _logradix _nranks t_hnranks _phases _map.
Arguments _maxphases {M} m.
Arguments _nphbino {M} m.
Arguments _op {M} m.
Arguments _radix {M} m.
Arguments _logradix {M} m.
Arguments _nranks {M} m.
Arguments t_hnranks {M} m.
Arguments _phases {M} m.
Arguments _map {M} m.

(** [T_MaxRadix] is the template's argument: 2, 4 or 8. *)
Definition getRadix (T_MaxRadix nranks : Z) : Z :=
  let nph := count_halvings nranks in
  if (8 <=? T_MaxRadix) && (nranks <=? 4096) && (nph `mod` 3 =? 0) then 8
  else if (4 <=? T_MaxRadix) && (Z.land nph 1 =? 0) then 4 else 2.

(** The number of phases, and [*nbino]. *)
Definition getMaxPhases (T_MaxRadix nranks : Z) : Z * Z :=
  let radix := getRadix T_MaxRadix nranks in
  let nph :=
    if nranks =? 0 then 0 else
    let nph := count_halvings nranks in
    if radix =? 8 then nph / 3 else if radix =? 4 then nph / 2 else nph in
  (nph + 1, nph).

Section tree.
Context {M : Type} `{MultinomialMap M} (mapping : Mapping) (s : arrays).

Implicit Type t : MultinomialTreeT M.

(** [junk] is what the members hold that are set by [init] only. *)
Definition initBinoSched (T_MaxRadix : Z) (junk : phases) (map : M) : res (MultinomialTreeT M) :=
  let nranks := getNumRanks map in
  let radix := getRadix T_MaxRadix nranks in
  let logradix := if radix =? 8 then 3 else if radix =? 4 then 2 else 1 in
  let '(maxphases, nphbino) := getMaxPhases T_MaxRadix nranks in
  h ← int_power (nphbino * logradix);
  mret (mkTree (maxphases + Z.b2z (hasAuxPhases map)) nphbino (w32 (-1)) radix logradix nranks h
    junk map).

(** The peers of a rank in a phase of the tree. *)
Definition BINO (mynode phase radix lradix : Z) : res (list Z) :=
  mapM (λ r, defined (phase * lradix <? 32);;
    mret (Z.lxor mynode (w32 (Z.shiftl r (w32 (phase * lradix)))))) (seqZ 1 (radix - 1)).

Definition NEXT_NODES t (parent : bool) (ph : Z) : res (list Z) :=
  let c := _phases t in
  if ((ph =? _auxsendph c) && negb parent) || ((ph =? _auxrecvph c) && parent) then
    if isAuxProc (_map t) then node ← getPeerForAux (_map t); mret [node]
    else if isPeerProc (_map t) then getAuxForPeer (_map t)
    else mret []
  else if negb (ph =? _auxrecvph c) && negb (ph =? _auxsendph c) then
    nodes ← BINO (getMyRank (_map t)) (w32 (ph - 1)) (_radix t) (_logradix t);
    assert (1 <=? Z.of_nat (length nodes));;
    mret nodes
  else mret [].

(** [while (d < distance) { d *= radix; n++; }] on [int]. *)
Fixpoint log_loop (fuel : nat) (radix distance d n : Z) : res Z :=
  match fuel with
  | O => Err NoFuel
  | S fuel =>
      if d <? distance then
        defined (d * radix <? 2 ^ 31);; log_loop fuel radix distance (d * radix) (n + 1)
      else mret n
  end.

Definition is_barrier_or_allreduce (op : Z) : bool := (op =? BARRIER_OP) || (op =? ALLREDUCE_OP).

(** The first switch: the phases with the ranks outside of the tree. *)
Definition peer_context t : phases :=
  let np := _nphbino t in
  let last := w32 (_maxphases t - 1) in
  let context st np auxsend auxrecv :=
    mkPhases st np NO_PHASES NO_PHASES auxsend auxrecv UNDEFINED_PHASE in
  if isPeerProc (_map t) then
    if is_barrier_or_allreduce (_op t) then context 0 (w32 (np + 2)) last 0
    else if _op t =? REDUCE_OP then context 0 (w32 (np + 1)) NO_PHASES 0
    else if _op t =? BROADCAST_OP then context 1 (w32 (np + 1)) last NO_PHASES
    else context 1 np NO_PHASES NO_PHASES
  else context 1 np NO_PHASES NO_PHASES.

(** The second: a rank outside of the tree; the case of an allreduce falls through to the
    one of a barrier. *)
Definition aux_context t (c : phases) : phases :=
  let last := w32 (_maxphases t - 1) in
  if is_barrier_or_allreduce (_op t) then
    mkPhases 0 (w32 (_nphases c + 2)) (_sendph c) (_recvph c) 0 last
      (if _op t =? ALLREDUCE_OP then w32 (_maxphases t - 2) else _lastrdcph c)
  else if _op t =? REDUCE_OP then
    mkPhases 0 1 (_sendph c) (_recvph c) 0 (_auxrecvph c) (_lastrdcph c)
  else if _op t =? BROADCAST_OP then
    mkPhases last 1 (_sendph c) (_recvph c) (_auxsendph c) last (_lastrdcph c)
  else c.

(** The third: a rank of the tree. *)
Definition tree_context t (c : phases) : res phases :=
  let context st np send recv :=
    mkPhases st np send recv (_auxsendph c) (_auxrecvph c) (_lastrdcph c) in
  let st := _startphase c in
  let np := _nphases c in
  let rank := getMyRank (_map t) in
  if is_barrier_or_allreduce (_op t) then mret (context st np ALL_PHASES ALL_PHASES)
  else if _op t =? REDUCE_OP then
    if rank =? 0 then mret (context st np NO_PHASES ALL_PHASES)
    else
      let np := w32 (ffs rank + 1 - st) in
      mret (context st np (w32 (st + np - 1)) NOT_SEND_PHASE)
  else if _op t =? BROADCAST_OP then
    if rank =? 0 then mret (context st np ALL_PHASES NO_PHASES)
    else
      n ← log_loop 32 (_radix t) (rank + 1) 1 0;
      let n := n - 1 in
      let st := w32 (st + n) in
      mret (context st (w32 (np - n)) NOT_RECV_PHASE st)
  else mret c.

Definition setupContext t : res phases :=
  let c := peer_context t in
  if isAuxProc (_map t) then mret (aux_context t c) else tree_context t c.

Definition with_op t (op : Z) (map : M) (c : phases) : MultinomialTreeT M :=
  mkTree (_maxphases t) (_nphbino t) op (_radix t) (_logradix t) (_nranks t) (t_hnranks t) c map.

Definition init (root comm_op : Z) t : res (MultinomialTreeT M * (Z * Z)) :=
  assert ((comm_op =? BARRIER_OP) || (comm_op =? ALLREDUCE_OP) || (comm_op =? REDUCE_OP) ||
    (comm_op =? BROADCAST_OP));;
  map ← (if (comm_op =? REDUCE_OP) || (comm_op =? BROADCAST_OP)
         then setRoot mapping s (w32 root) (_map t) else mret (_map t));
  let t := with_op t comm_op map (_phases t) in
  c ← setupContext t;
  mret (with_op t comm_op map c, (_startphase c, _nphases c)).

Definition getLastReducePhase t : Z := _lastrdcph (_phases t).

(** The conditions under which a phase receives, and sends. *)
Definition receives t (phase : Z) : bool :=
  let c := _phases t in
  (1 <=? phase) && (phase <=? _nphbino t) &&
    ((_recvph c =? ALL_PHASES) || (_recvph c =? NOT_SEND_PHASE) && negb (phase =? _sendph c) ||
     (phase =? _recvph c)) || (phase =? _auxrecvph c).

Definition sends t (phase : Z) : bool :=
  let c := _phases t in
  (1 <=? phase) && (phase <=? _nphbino t) &&
    ((_sendph c =? ALL_PHASES) || (_sendph c =? NOT_RECV_PHASE) && negb (phase =? _recvph c) ||
     (phase =? _sendph c)) || (phase =? _auxsendph c).

(** The ranks are written to the caller's array of [cap] elements, then replaced in place. *)
Definition fill t (cap : Z) (nodes : list Z) : res (list Z) :=
  defined (Z.of_nat (length nodes) <=? cap);;
  mapM (λ node, getGlobalRank mapping s node (_map t)) nodes.

Definition getSrcTopology (phase cap : Z) t : res (list Z) :=
  nodes ← (if receives t phase then NEXT_NODES t PARENT phase else mret []);
  fill t cap nodes.

Definition getDstTopology (phase cap : Z) t : res (list Z) :=
  nodes ← (if sends t phase then NEXT_NODES t CHILD phase else mret []);
  fill t cap nodes.

Definition my_phases t : list Z := seqZ (_startphase (_phases t)) (_nphases (_phases t)).

(** [src_eps] has [cap] elements. *)
Definition getSrcUnionTopology (cap : Z) t : res (pami_result_t * list Z) :=
  nodes ← foldM (λ nodes phase,
    l ← (if receives t phase then NEXT_NODES t PARENT phase else mret []);
    mret (nodes ++ l)) [] (my_phases t);
  eps ← fill t cap nodes;
  mret (PAMI_SUCCESS, eps).

(** The phases from [phases] on; nothing when the array is too small. *)
Fixpoint dst_union t (num_eps : Z) (phases nodes : list Z) : res (option (list Z)) :=
  match phases with
  | [] => mret (Some nodes)
  | phase :: phases =>
      if sends t phase then
        if num_eps <? w32 (_radix t + Z.of_nat (length nodes)) then mret None
        else
          l ← NEXT_NODES t CHILD phase;
          defined (Z.of_nat (length (nodes ++ l)) <=? num_eps);;
          dst_union t num_eps phases (nodes ++ l)
      else dst_union t num_eps phases nodes
  end.

Definition getDstUnionTopology (num_eps : Z) t : res (pami_result_t * list Z) :=
  nodes ← dst_union t num_eps (my_phases t) [];
  match nodes with
  | None => mret (PAMI_ENOMEM, [])
  | Some nodes => eps ← fill t num_eps nodes; mret (PAMI_SUCCESS, eps)
  end.
End tree.

#[export] Instance MultinomialTreeT_schedule `{MultinomialMap M} : Schedule (MultinomialTreeT M) := {
  sched_init := init;
  sched_getSrcTopology := getSrcTopology;
  sched_getDstTopology := getDstTopology;
  sched_getLastReducePhase := getLastReducePhase
}.

(** The constructor for a topology: [TopoMultinomial], [TopoMultinomial4] and
    [TopoMultinomial8], by [T_MaxRadix]. *)
Definition TopoMultinomial (T_MaxRadix : Z) (junk : phases) (mapping : Mapping) (s : arrays)
    (myendpoint : Z) (topology : Topology) : res (MultinomialTreeT TopologyMap) :=
  map ← TopologyMap.new mapping s myendpoint topology;
  initBinoSched T_MaxRadix junk map.
