(* ===== verification/ScheduleCache.v ===== *)
(** src/algorithms/executor/ScheduleCache.h: the phases of a schedule, read once and kept.
    The topologies of a phase are endpoint lists over a part of one buffer that no other
    phase shares; they are kept here as the lists. *)
From stdpp Require Import list.
From S2P Require Import Prelude.
From S2P Require Import Topology.
From S2P Require Import Schedule.

Definition SC_MAXRANKS : Z := 128.

Record ScheduleCache (T_Schedule : Type) := mkCache {
  sc_start : Z; sc_nphases : Z; sc_ntotalsrcranks : Z; sc_ntotaldstranks : Z;
  sc_lastCombinePhase : Z; sc_nextActivePhaseVec : gmap Z Z;
  sc_srctopologies : gmap Z (list Z); sc_dsttopologies : gmap Z (list Z);
  sc_oldroot : Z; sc_root : Z; sc_operation : Z; sc_schedule : option T_Schedule
}.
Arguments mkCache {T_Schedule}.
Arguments sc_start {T_Schedule} s.
Arguments sc_nphases {T_Schedule} s.
Arguments sc_ntotalsrcranks {T_Schedule} s.
Arguments sc_ntotaldstranks {T_Schedule} s.
Arguments sc_lastCombinePhase {T_Schedule} s.
Arguments sc_nextActivePhaseVec {T_Schedule} s.
Arguments sc_srctopologies {T_Schedule} s.
Arguments sc_dsttopologies {T_Schedule} s.
Arguments sc_oldroot {T_Schedule} s.
Arguments sc_root {T_Schedule} s.
Arguments sc_operation {T_Schedule} s.
Arguments sc_schedule {T_Schedule} s.

Section cache.
Context {T_Schedule : Type} `{Schedule T_Schedule} (mapping : Mapping) (s : arrays).

Notation cache := (ScheduleCache T_Schedule).

Definition ScheduleCache_new : cache :=
  mkCache 0 0 0 0 0 ∅ ∅ ∅ (-2) (-1) (w32 (-1)) None.

Definition setSchedule (sch : T_Schedule) (c : cache) : cache :=
  mkCache (sc_start c) (sc_nphases c) (sc_ntotalsrcranks c) (sc_ntotaldstranks c)
    (sc_lastCombinePhase c) (sc_nextActivePhaseVec c) (sc_srctopologies c) (sc_dsttopologies c)
    (sc_oldroot c) (sc_root c) (sc_operation c) (Some sch).

Definition cache_setRoot (root : Z) (c : cache) : cache :=
  mkCache (sc_start c) (sc_nphases c) (sc_ntotalsrcranks c) (sc_ntotaldstranks c)
    (sc_lastCombinePhase c) (sc_nextActivePhaseVec c) (sc_srctopologies c) (sc_dsttopologies c)
    (sc_oldroot c) root (sc_operation c) (sc_schedule c).

Definition in_phases (c : cache) (phase : Z) : bool :=
  (sc_start c <=? phase) && (phase <? sc_start c + sc_nphases c).

Definition cache_getSrcTopology (phase : Z) (c : cache) : res (list Z) :=
  assert (in_phases c phase);; of_option (sc_srctopologies c !! phase).
Definition cache_getDstTopology (phase : Z) (c : cache) : res (list Z) :=
  assert (in_phases c phase);; of_option (sc_dsttopologies c !! phase).
Definition getNumSrcRanks (phase : Z) (c : cache) : res Z :=
  l ← cache_getSrcTopology phase c; mret (Z.of_nat (length l)).
Definition getNumDstRanks (phase : Z) (c : cache) : res Z :=
  l ← cache_getDstTopology phase c; mret (Z.of_nat (length l)).
Definition getEndPhase (c : cache) : Z := w32 (sc_start c + sc_nphases c - 1).

(** Without a last reduce phase of the schedule's, the last phase. *)
Definition cache_getLastReducePhase (c : cache) : res Z :=
  sch ← of_option (sc_schedule c);
  let p := sched_getLastReducePhase sch in
  mret (if p =? w32 (-1) then getEndPhase c else p).

Definition getNextActivePhase (phase : Z) (c : cache) : res Z :=
  assert (in_phases c phase);; of_option (sc_nextActivePhaseVec c !! phase).

Definition my_range (c : cache) : list Z := seqZ (sc_start c) (sc_nphases c).

(** The first pass, over arrays of [SC_MAXRANKS]: the total numbers of sources and
    destinations, and the last phase that receives before the reductions are over. *)
Definition count_pass (sch : T_Schedule) (lastReducePhase : Z) (phases : list Z) :
    res (Z * Z * Z) :=
  foldM (λ '(nsrc, ndst, lastCombine) count,
    src ← sched_getSrcTopology mapping s count SC_MAXRANKS sch;
    dst ← sched_getDstTopology mapping s count SC_MAXRANKS sch;
    mret (nsrc + Z.of_nat (length src), ndst + Z.of_nat (length dst),
      if (0 <? Z.of_nat (length src)) && (count <=? lastReducePhase) then count else lastCombine))
    (0, 0, w32 (-1)) phases.

(** The second pass, into the buffer: each phase has the room the ones before left. *)
Definition fill_pass (sch : T_Schedule) (nsrc ndst : Z) (phases : list Z) :
    res (gmap Z (list Z) * gmap Z (list Z) * Z * Z) :=
  foldM (λ '(srcs, dsts, srcindex, dstindex) count,
    src ← sched_getSrcTopology mapping s count (nsrc - srcindex) sch;
    dst ← sched_getDstTopology mapping s count (ndst - dstindex) sch;
    mret (<[count := src]> srcs, <[count := dst]> dsts,
      srcindex + Z.of_nat (length src), dstindex + Z.of_nat (length dst)))
    (∅, ∅, 0, 0) phases.

(** From the last phase to the first. *)
Definition active_pass (c : cache) : res (gmap Z Z) :=
  '(vec, _) ← foldM (λ '(vec, next_active) p,
      nsrc ← getNumSrcRanks p c;
      ndst ← getNumDstRanks p c;
      mret (<[p := next_active]> vec, if (0 <? nsrc) || (0 <? ndst) then p else next_active))
    (∅, getEndPhase c) (reverse (my_range c));
  mret vec.

Definition cache_init (op : Z) (c : cache) : res (bool * cache) :=
  if sc_oldroot c =? sc_root c then mret (false, c)
  else
    sch ← of_option (sc_schedule c);
    '(sch, (start, nph)) ← sched_init mapping s (sc_root c) op sch;
    let c := mkCache start nph (sc_ntotalsrcranks c) (sc_ntotaldstranks c) (w32 (-1)) ∅
      (sc_srctopologies c) (sc_dsttopologies c) (sc_root c) (sc_root c) op (Some sch) in
    lastReducePhase ← cache_getLastReducePhase c;
    '(nsrc, ndst, lastCombine) ← count_pass sch lastReducePhase (my_range c);
    '(srcs, dsts, _, _) ← fill_pass sch nsrc ndst (my_range c);
    let c := mkCache start nph nsrc ndst lastCombine ∅ srcs dsts (sc_root c) (sc_root c) op
      (Some sch) in
    vec ← active_pass c;
    mret (true, mkCache start nph nsrc ndst lastCombine vec srcs dsts (sc_root c) (sc_root c) op
      (Some sch)).
End cache.

Section cache.
Context {T_Schedule : Type} `{Schedule T_Schedule} (mapping : Mapping) (s : arrays).
Context (sch : T_Schedule) (first nph : Z) (src dst : Z → list Z).

(** What the schedule says in its phases, given an array with room enough. *)
Record answers (phases : list Z) : Prop := {
  an_src p cap : p ∈ phases → Z.of_nat (length (src p)) ≤ cap →
    sched_getSrcTopology mapping s p cap sch = Ok (src p);
  an_dst p cap : p ∈ phases → Z.of_nat (length (dst p)) ≤ cap →
    sched_getDstTopology mapping s p cap sch = Ok (dst p);
  an_few p : p ∈ phases → Z.of_nat (length (src p)) ≤ SC_MAXRANKS ∧ Z.of_nat (length (dst p)) ≤ SC_MAXRANKS
}.

Definition total (f : Z → list Z) (phases : list Z) : Z :=
  foldr (λ p n, Z.of_nat (length (f p)) + n) 0 phases.

Lemma ranks_nonneg f phases : 0 ≤ total f phases.
Proof. unfold total. induction phases; cbn [foldr]; lia. Qed.

Lemma ranks_app f l1 l2 : total f (l1 ++ l2) = total f l1 + total f l2.
Proof. unfold total. induction l1; cbn [foldr app]; lia. Qed.

Lemma count_pass_spec last phases : answers phases → ∃ combine,
  count_pass mapping s sch last phases = Ok (total src phases, total dst phases, combine).
Proof.
  intros Han. unfold count_pass.
  enough (∀ l a b k, l ⊆ phases → ∃ combine,
    foldM (λ '(nsrc, ndst, lastCombine) count,
      src ← sched_getSrcTopology mapping s count SC_MAXRANKS sch;
      dst ← sched_getDstTopology mapping s count SC_MAXRANKS sch;
      mret (nsrc + Z.of_nat (length src), ndst + Z.of_nat (length dst),
        if (0 <? Z.of_nat (length src)) && (count <=? last) then count else lastCombine)) (a, b, k) l =
      Ok (a + total src l, b + total dst l, combine)) as Hrun by by apply (Hrun phases 0 0).
  induction l as [|p l IH]; intros a b k Hl.
  - exists k. cbn. by rewrite !Z.add_0_r.
  - destruct (an_few _ Han p) as [Hs Hd]; [set_solver|]. cbn [foldM].
    rewrite (an_src _ Han), Ok_bind, (an_dst _ Han), Ok_bind by (done || set_solver).
    rewrite bind_ret.
    destruct (IH (a + Z.of_nat (length (src p))) (b + Z.of_nat (length (dst p)))
      (if (0 <? Z.of_nat (length (src p))) && (p <=? last) then p else k)) as [combine ->]; [set_solver|].
    exists combine. cbn [total foldr]. fold (total src l) (total dst l). do 3 f_equal; lia.
Qed.

(** The topologies of the phases, in a map. *)
Definition tabulate (f : Z → list Z) (phases : list Z) (m : gmap Z (list Z)) : gmap Z (list Z) :=
  foldl (λ m p, <[p := f p]> m) m phases.

Lemma fill_pass_spec phases : answers phases →
  ∃ a b, fill_pass mapping s sch (total src phases) (total dst phases) phases =
    Ok (tabulate src phases ∅, tabulate dst phases ∅, a, b).
Proof.
  intros Han. unfold fill_pass.
  enough (∀ l l0 m1 m2, phases = l0 ++ l → ∃ a b,
    foldM (λ '(srcs, dsts, srcindex, dstindex) count,
      src' ← sched_getSrcTopology mapping s count (total src phases - srcindex) sch;
      dst' ← sched_getDstTopology mapping s count (total dst phases - dstindex) sch;
      mret (<[count := src']> srcs, <[count := dst']> dsts,
        srcindex + Z.of_nat (length src'), dstindex + Z.of_nat (length dst')))
      (m1, m2, total src l0, total dst l0) l = Ok (tabulate src l m1, tabulate dst l m2, a, b)) as Hrun
    by by apply (Hrun phases [] ∅ ∅).
  induction l as [|p l IH]; intros l0 m1 m2 Hl; [by do 2 eexists|]. cbn [foldM].
  assert (Ht : ∀ f, total f phases - total f l0 = Z.of_nat (length (f p)) + total f l).
  { intros f. rewrite Hl, ranks_app. cbn [total foldr]. fold (total f l). lia. }
  pose proof (ranks_nonneg src l). pose proof (ranks_nonneg dst l).
  rewrite !Ht. rewrite (an_src _ Han), Ok_bind, (an_dst _ Han), Ok_bind by (lia || (rewrite Hl; set_solver)).
  rewrite bind_ret. destruct (IH (l0 ++ [p]) (<[p := src p]> m1) (<[p := dst p]> m2)) as (a&b&Hrun).
  { by rewrite Hl, <- (assoc_L (++)). }
  exists a, b. rewrite !ranks_app in Hrun. cbn [total foldr] in Hrun. rewrite !Z.add_0_r in Hrun. exact Hrun.
Qed.

Lemma tabulate_lookup f phases m p : NoDup phases → p ∈ phases → tabulate f phases m !! p = Some (f p).
Proof.
  intros Hnd. revert m. induction Hnd as [|q l Hq Hnd IH]; intros m Hp; [by apply elem_of_nil in Hp|].
  cbn. apply elem_of_cons in Hp as [->|Hp]; [|by apply IH].
  clear IH. assert (Hno : ∀ m', m' !! q = Some (f q) → tabulate f l m' !! q = Some (f q)); [|apply Hno, lookup_insert_eq].
  clear Hnd. induction l as [|r l IH]; intros m' Hm; [done|]. cbn. apply IH.
  - set_solver.
  - rewrite lookup_insert_ne by set_solver. done.
Qed.

(** The cached phases. *)
Record holds (c : ScheduleCache T_Schedule) : Prop := {
  ho_start : sc_start c = first;
  ho_nphases : sc_nphases c = nph;
  ho_src p : first ≤ p < first + nph → cache_getSrcTopology p c = Ok (src p);
  ho_dst p : first ≤ p < first + nph → cache_getDstTopology p c = Ok (dst p)
}.

Lemma active_pass_Ok c : holds c → ∃ vec, active_pass c = Ok vec.
Proof.
  intros Hh. unfold active_pass.
  match goal with |- context [foldM ?f _ _] =>
    assert (Hrun : ∀ l a, (∀ p, p ∈ l → first ≤ p < first + nph) → ∃ a', foldM f a l = Ok a') end.
  2:{ destruct (Hrun (reverse (my_range c)) (∅, getEndPhase c)) as [[vec na] ->]; [|by exists vec].
    intros p Hp. unfold my_range in Hp. rewrite (ho_start _ Hh), (ho_nphases _ Hh) in Hp.
    apply elem_of_reverse, elem_of_seqZ in Hp. lia. }
  induction l as [|p l IH]; intros [vec na] Hl; [by eexists|]. cbn [foldM].
  unfold getNumSrcRanks, getNumDstRanks.
  rewrite (ho_src _ Hh), (ho_dst _ Hh) by (apply Hl; left). rewrite !Ok_bind, ?bind_ret.
  apply IH. intros q Hq. apply Hl. by right.
Qed.

(** [init] reads the schedule, the first time. *)
Lemma cache_init_spec sch0 op c : sc_oldroot c ≠ sc_root c → sc_schedule c = Some sch0 →
  sched_init mapping s (sc_root c) op sch0 = Ok (sch, (first, nph)) →
  answers (seqZ first nph) →
  ∃ c', cache_init mapping s op c = Ok (true, c') ∧ holds c' ∧ sc_schedule c' = Some sch ∧
    sc_oldroot c' = sc_root c ∧ sc_root c' = sc_root c.
Proof.
  intros Hne Hsch Hinit Han. unfold cache_init.
  rewrite (proj2 (Z.eqb_neq _ _)) by done. rewrite Hsch. cbn [of_option]. rewrite Ok_bind, Hinit, Ok_bind.
  unfold cache_getLastReducePhase. cbn [sc_schedule of_option]. rewrite !Ok_bind, ?bind_ret.
  unfold my_range at 1 2. cbn [sc_start sc_nphases].
  destruct (count_pass_spec (if sched_getLastReducePhase sch =? w32 (-1)
    then getEndPhase (mkCache first nph (sc_ntotalsrcranks c) (sc_ntotaldstranks c) (w32 (-1)) ∅
      (sc_srctopologies c) (sc_dsttopologies c) (sc_root c) (sc_root c) op (Some sch))
    else sched_getLastReducePhase sch) (seqZ first nph) Han) as [combine Hcount].
  rewrite Hcount, Ok_bind. destruct (fill_pass_spec (seqZ first nph) Han) as (a&b&Hfill).
  rewrite Hfill, Ok_bind. cbn [sc_root].
  set (srcs := tabulate src _ _). set (dsts := tabulate dst _ _).
  assert (Hh : ∀ vec, holds (mkCache first nph (total src (seqZ first nph)) (total dst (seqZ first nph))
    combine vec srcs dsts (sc_root c) (sc_root c) op (Some sch))).
  { intros vec. assert (Hin : ∀ p, first ≤ p < first + nph →
      (first <=? p) && (p <? first + nph) = true) by lia.
    split; [done|done| |]; intros p Hp; unfold cache_getSrcTopology, cache_getDstTopology, in_phases;
      cbn [sc_start sc_nphases sc_srctopologies sc_dsttopologies]; rewrite (Hin p Hp); cbn [assert];
      rewrite Ok_bind; unfold srcs, dsts; rewrite tabulate_lookup;
      (done || apply NoDup_seqZ || (apply elem_of_seqZ; lia)). }
  destruct (active_pass_Ok _ (Hh ∅)) as [vec Hvec]. rewrite Hvec, Ok_bind.
  eexists. split; [reflexivity|]. by split; [apply Hh|].
Qed.
End cache.
