(* ===== verification/Barrier.v ===== *)
(** src/algorithms/executor/Barrier.h: the executor of a barrier, which counts the messages
    of each phase, for two iterations at a time. *)
From S2P Require Import Prelude.
From S2P Require Import Topology.
From S2P Require Import Schedule.
From S2P Require Import ScheduleCache.
From S2P Require Import MultinomialMap.
From S2P Require Import MultinomialTree.

Definition CCMI_BARRIER_MAXPHASES : Z := 24.

(** The callback of a multicast: the executor's [staticNotifySendDone], or the client's. *)
Inductive callback := NotifySendDone | ClientDone.

#[export] Instance callback_eq_dec : EqDecision callback.
Proof. solve_decision. Defined.

(** What the executor asks of the rest: [_native->multicast] of a message with a phase and
    an iteration to some endpoints, and the call of the client's [_cb_done].  Nothing
    follows a multicast in the code, so the order of its callback against the return does
    not matter; the client's callback does not start the next barrier itself. *)
Inductive effect :=
| Multicast (dst : list Z) (phase iteration : Z) (cb_done : callback)
| Done.

Section barrier.
Context {T_Schedule : Type} `{Schedule T_Schedule} (mapping : Mapping) (s : arrays).
(** Whether [char] is signed, which is the platform's choice. *)
Context (char_signed : bool).

Definition to_char (z : Z) : Z :=
  if char_signed then (z + 128) `mod` 256 - 128 else z `mod` 256.

(** What is stored in a [char]: an unsigned one takes the value modulo 256, a signed one
    that cannot hold the value overflows, which is an error here. *)
Definition char_of (z : Z) : res Z :=
  defined (negb char_signed || ((-128 <=? z) && (z <=? 127)));; mret (to_char z).

(** [_phasevec] is [CCMI_BARRIER_MAXPHASES] pairs; [_iteration] is one bit. *)
Record BarrierExec := mkExec {
  b_iteration : Z; b_phase : Z; b_senddone : bool; b_start : Z; b_nphases : Z;
  b_phasevec : list (Z * Z); b_cache : ScheduleCache T_Schedule
}.

Implicit Type e : BarrierExec.

Definition with_phase e (phase : Z) : BarrierExec :=
  mkExec (b_iteration e) phase (b_senddone e) (b_start e) (b_nphases e) (b_phasevec e) (b_cache e).
Definition with_senddone e (senddone : bool) : BarrierExec :=
  mkExec (b_iteration e) (b_phase e) senddone (b_start e) (b_nphases e) (b_phasevec e) (b_cache e).

(** [_phasevec[phase][iteration]], and its update: [f] computes the new value from the
    old one, promoted. *)
Definition vec_of e (phase iteration : Z) : res Z :=
  defined (0 <=? phase);;
  '(v0, v1) ← of_option (b_phasevec e !! Z.to_nat phase);
  mret (if iteration =? 0 then v0 else v1).

Definition vec_update e (phase iteration : Z) (f : Z → Z) : res BarrierExec :=
  defined (0 <=? phase);;
  '(v0, v1) ← of_option (b_phasevec e !! Z.to_nat phase);
  x ← char_of (f (if iteration =? 0 then v0 else v1));
  let v := if iteration =? 0 then (x, v1) else (v0, x) in
  mret (mkExec (b_iteration e) (b_phase e) (b_senddone e) (b_start e) (b_nphases e)
    (<[Z.to_nat phase := v]> (b_phasevec e)) (b_cache e)).

Definition BarrierExec_new : BarrierExec :=
  mkExec 0 0 false 0 0 (replicate (Z.to_nat CCMI_BARRIER_MAXPHASES) (0, 0)) ScheduleCache_new.

Definition setCommSchedule (sch : T_Schedule) e : res BarrierExec :=
  '(_, cache) ← cache_init mapping s BARRIER_OP (cache_setRoot (-1) (setSchedule sch (b_cache e)));
  let start := sc_start cache in
  let nphases := sc_nphases cache in
  assert (start + nphases <=? CCMI_BARRIER_MAXPHASES);;
  mret (mkExec (b_iteration e) (start + nphases) (b_senddone e) start nphases (b_phasevec e) cache).

Definition end_phase e : Z := b_start e + b_nphases e.

(** For each phase, the messages to come of the new iteration. *)
Definition resetVector e : res BarrierExec :=
  assert (b_phase e =? end_phase e);;
  let e := mkExec ((b_iteration e + 1) `mod` 2) (b_start e) (b_senddone e) (b_start e)
    (b_nphases e) (b_phasevec e) (b_cache e) in
  e ← foldM (λ e count,
    src ← cache_getSrcTopology count (b_cache e);
    (* [+=] of a [size_t] *)
    vec_update e count (b_iteration e) (λ v, w64 (v + Z.of_nat (length src)))) e
    (seqZ (b_start e) (b_nphases e));
  mret (with_senddone e false).

(** [sendNext] and [internalNotifySendDone] call each other; a phase without destinations
    is skipped, so that [fuel] bounds the phases left. *)
Fixpoint sendNext (fuel : nat) e : res (BarrierExec * list effect) :=
  match fuel with
  | O => Err NoFuel
  | S fuel =>
      assert (b_phase e <=? end_phase e);;
      if b_phase e =? end_phase e then mret (with_senddone e false, [Done])
      else
        let e := with_senddone e false in
        dst ← cache_getDstTopology (b_phase e) (b_cache e);
        if 0 <? Z.of_nat (length dst) then
          vec ← vec_of e (b_phase e) (b_iteration e);
          if (b_phase e =? end_phase e - 1) && (vec <=? 0) then
            mret (with_phase e (b_phase e + 1),
                  [Multicast dst (b_phase e) (b_iteration e) ClientDone])
          else mret (e, [Multicast dst (b_phase e) (b_iteration e) NotifySendDone])
        else
          let e := with_senddone e true in
          vec ← vec_of e (b_phase e) (b_iteration e);
          if vec <=? 0 then sendNext fuel (with_phase e (b_phase e + 1)) else mret (e, [])
  end.

Definition phase_fuel e : nat := S (Z.to_nat (end_phase e - b_phase e)).

Definition internalNotifySendDone e : res (BarrierExec * list effect) :=
  let e := with_senddone e true in
  vec ← vec_of e (b_phase e) (b_iteration e);
  if vec <=? 0 then
    let e := with_phase e (b_phase e + 1) in sendNext (phase_fuel e) e
  else mret (e, []).

Definition start e : res (BarrierExec * list effect) :=
  e ← resetVector e;
  sendNext (phase_fuel e) e.

(** [phase] and [iteration] are those of the message's header. *)
Definition notifyRecv (phase iteration : Z) e : res (BarrierExec * list effect) :=
  assert (iteration <=? 1);;
  e ← vec_update e phase iteration Z.pred;
  if b_phase e =? end_phase e then mret (e, [])
  else
    vec ← vec_of e (b_phase e) (b_iteration e);
    if (vec <=? 0) && b_senddone e then
      let e := with_phase e (b_phase e + 1) in sendNext (phase_fuel e) e
    else mret (e, []).
End barrier.

Arguments BarrierExec T_Schedule : clear implicits.

(** The executor and the schedule that the constructor of [BarrierT]
    (src/algorithms/protocols/barrier/BarrierT.h) makes for an endpoint of a topology. *)
Definition BarrierT (T_MaxRadix : Z) (junk : phases) (mapping : Mapping) (s : arrays)
    (topology : Topology) (endpoint : Z) : res (BarrierExec (MultinomialTreeT TopologyMap)) :=
  sch ← TopoMultinomial T_MaxRadix junk mapping s endpoint topology;
  setCommSchedule mapping s sch BarrierExec_new.
