(* ===== verification/BarrierMachine.v ===== *)
(** The counting behind the barrier's executor, apart from its code: endpoints that pass
    through phases in repeated iterations, send once per phase, and count what arrives in
    two sets of counters, one per parity of the iteration.  The invariant is that the
    counters never mix two iterations; no endpoint is more than one iteration ahead. *)
From stdpp Require Import functions.
From S2P Require Import Prelude.

(** * What the executor needs of a schedule *)

(** What has reached an endpoint in the first [n] phases, its own contribution first.
    Where [replace] holds, what arrives takes the place of what is there. *)
Fixpoint gather (src : Z → Z → list Z) (replace : Z → Z → bool) (n : nat) (ep : Z) : list Z :=
  match n with
  | O => [ep]
  | S n =>
      let arrived := src ep (Z.of_nat n) ≫= gather src replace n in
      if replace ep (Z.of_nat n) && bool_decide (src ep (Z.of_nat n) ≠ []) then arrived
      else gather src replace n ep ++ arrived
  end.

(** Endpoints [eps]; each takes part in the phases from [first] to before [last], where it
    receives from [src] and sends to [dst]. *)
Class BarrierSchedule (max : Z) (eps : list Z) (first last : Z → Z) (src dst : Z → Z → list Z) := {
  bs_range ep : ep ∈ eps → 0 ≤ first ep ≤ last ep ∧ last ep ≤ max;
  bs_src_NoDup ep p : ep ∈ eps → NoDup (src ep p);
  bs_dst_NoDup ep p : ep ∈ eps → NoDup (dst ep p);
  bs_few ep p : ep ∈ eps → Z.of_nat (length (src ep p)) ≤ 127;
  bs_active ep p x : ep ∈ eps → x ∈ src ep p ∨ x ∈ dst ep p → x ∈ eps ∧ first ep ≤ p < last ep;
  bs_match i j p : i ∈ eps → j ∈ eps → j ∈ dst i p ↔ i ∈ src j p;
  bs_all i j : i ∈ eps → j ∈ eps → i ∈ gather src (λ _ _, false) (Z.to_nat (last j)) j
}.

(** * Sums over sources *)

Definition zsum (f : Z → Z) (l : list Z) : Z := foldr (λ x a, f x + a) 0 l.

Lemma zsum_ext f g l : (∀ x, x ∈ l → f x = g x) → zsum f l = zsum g l.
Proof.
  induction l as [|x l IH]; intros H; [done|]. cbn. rewrite (H x) by left.
  f_equal. apply IH. intros y Hy. apply H. by right.
Qed.

Lemma zsum_shift f c l : zsum (λ x, f x + c) l = zsum f l + c * Z.of_nat (length l).
Proof. induction l as [|x l IH]; cbn [zsum foldr length] in *; unfold zsum in *; cbn; lia. Qed.

(** One summand changes. *)
Lemma zsum_one f g x l d : NoDup l → x ∈ l → g x = f x + d → (∀ y, y ≠ x → g y = f y) →
  zsum g l = zsum f l + d.
Proof.
  intros Hnd. revert x. induction Hnd as [|y l Hy Hnd IH]; intros x Hx Hd Ho; [by apply elem_of_nil in Hx|].
  cbn. apply elem_of_cons in Hx as [->|Hx].
  - rewrite Hd. enough (zsum g l = zsum f l) by (unfold zsum in *; lia).
    apply zsum_ext. intros z Hz. apply Ho. by intros ->.
  - rewrite (Ho y) by (by intros ->). specialize (IH x Hx Hd Ho). unfold zsum in *. lia.
Qed.

Lemma zsum_bounds f l a b : (∀ x, x ∈ l → a ≤ f x ≤ b) →
  a * Z.of_nat (length l) ≤ zsum f l ≤ b * Z.of_nat (length l).
Proof.
  induction l as [|x l IH]; intros H; [cbn; lia|].
  pose proof (H x ltac:(left)). specialize (IH (λ y Hy, H y (proj2 (elem_of_cons l y x) (or_intror Hy)))).
  cbn [zsum foldr length]. unfold zsum in *. lia.
Qed.

Lemma zsum_nonneg f l : (∀ x, x ∈ l → 0 ≤ f x) → 0 ≤ zsum f l.
Proof.
  induction l as [|x l IH]; intros H; [done|]. cbn. pose proof (H x ltac:(left)).
  enough (0 ≤ zsum f l) by (unfold zsum in *; lia). apply IH. intros y Hy. apply H. by right.
Qed.

Lemma zsum_nonneg_zero f l x : (∀ x, x ∈ l → 0 ≤ f x) → zsum f l ≤ 0 → x ∈ l → f x = 0.
Proof.
  induction l as [|y l IH]; intros Hf Hs Hx; [by apply elem_of_nil in Hx|].
  pose proof (Hf y ltac:(left)) as Hy. cbn in Hs.
  assert (Hl : ∀ z, z ∈ l → 0 ≤ f z) by (intros z Hz; apply Hf; by right).
  pose proof (zsum_nonneg f l Hl) as Hp. unfold zsum in *.
  apply elem_of_cons in Hx as [->|Hx]; [lia|]. apply IH; [done|lia|done].
Qed.

(** * The machine *)

(** How many of the iterations [1 .. k] have parity [b]. *)
Definition rounds (b k : Z) : Z := (k + b) / 2.

Lemma rounds_same k : rounds (k mod 2) k = rounds (k mod 2) (k - 1) + 1.
Proof. unfold rounds. Z.div_mod_to_equations. lia. Qed.

Lemma rounds_next k b : 0 ≤ b < 2 → b ≠ k mod 2 → rounds b (k - 1) = rounds b k.
Proof. unfold rounds. intros. Z.div_mod_to_equations. lia. Qed.

Lemma rounds_step b k : 0 ≤ b < 2 → rounds b (k + 1) = rounds b k + Z.b2z (b =? (k + 1) mod 2).
Proof.
  intros Hb. destruct (Z.eqb_spec b ((k + 1) mod 2)) as [->|Hne]; cbn [Z.b2z].
  - rewrite rounds_same. do 2 f_equal. lia.
  - rewrite <- (rounds_next (k + 1)) by done. replace (k + 1 - 1) with k by lia. lia.
Qed.

(** Messages in flight: the endpoint they go to, their phase and the parity of their
    iteration. *)
Notation message := (Z * Z * Z)%type.

Definition in_flight (m : message) (fl : list message) : Z := Z.of_nat (length (filter (.= m) fl)).

Lemma in_flight_app m l1 l2 : in_flight m (l1 ++ l2) = in_flight m l1 + in_flight m l2.
Proof. unfold in_flight. rewrite filter_app, length_app. lia. Qed.

Lemma in_flight_cons m x l : in_flight m (x :: l) = Z.b2z (bool_decide (x = m)) + in_flight m l.
Proof.
  unfold in_flight. rewrite filter_cons. case_decide.
  - rewrite bool_decide_eq_true_2 by done. cbn. lia.
  - rewrite bool_decide_eq_false_2 by done. cbn. lia.
Qed.

Lemma in_flight_nonneg m l : 0 ≤ in_flight m l.
Proof. unfold in_flight. lia. Qed.

Definition sent_to (l : list Z) (p b : Z) : list message := (λ d, (d, p, b)) <$> l.

Lemma in_flight_sent d p b l q c : NoDup l →
  in_flight (d, q, c) (sent_to l p b) = Z.b2z (bool_decide (d ∈ l ∧ q = p ∧ c = b)).
Proof.
  unfold sent_to. induction 1 as [|x l Hx Hnd IH]; cbn [fmap list_fmap].
  - rewrite bool_decide_eq_false_2; [done|]. by intros [?%elem_of_nil _].
  - rewrite in_flight_cons, IH. repeat case_bool_decide; cbn; set_solver.
Qed.

Section machine.
Context {max : Z} {eps : list Z} {first last : Z → Z} {src dst : Z → Z → list Z}.
Context `{Hsched : !BarrierSchedule max eps first last src dst}.

(** Each endpoint has begun [K] iterations; in the last of them it has passed the phases
    before [P] and sent in those before [Q].  [V j p b] is what it still expects in phase
    [p] of the iterations of parity [b]. *)
Implicit Types (K P Q : Z → Z) (V : Z → Z → Z → Z) (fl : list message).

(** The last iteration in which phase [p] was passed, and sent. *)
Definition level K P (ep p : Z) : Z := if p <? P ep then K ep else K ep - 1.

Definition owed K Q (j p b i : Z) : Z := rounds b (K j) - rounds b (level K Q i p).

Record counting K P Q V fl : Prop := {
  ct_begun j : j ∈ eps → 0 ≤ K j ∧ (K j = 0 → P j = last j);
  ct_phase j : j ∈ eps → first j ≤ P j ≤ Q j ∧ Q j ≤ P j + 1 ∧ Q j ≤ last j;
  ct_vec j p b : j ∈ eps → first j ≤ p < last j → 0 ≤ b < 2 →
    V j p b = zsum (owed K Q j p b) (src j p) + in_flight (j, p, b) fl;
  ct_order j p i : j ∈ eps → first j ≤ p < last j → i ∈ src j p → level K P j p ≤ level K Q i p;
  ct_most j p b : j ∈ eps → first j ≤ p < last j → 0 ≤ b < 2 →
    V j p b ≤ Z.of_nat (length (src j p));
  ct_done j p b : j ∈ eps → first j ≤ p < last j → 0 ≤ b < 2 →
    b ≠ K j mod 2 ∨ p < P j → V j p b ≤ 0;
  ct_flight d p b : (d, p, b) ∈ fl → d ∈ eps ∧ first d ≤ p < last d ∧ 0 ≤ b < 2
}.

Lemma counting_ext K K' P P' Q Q' V V' fl : counting K P Q V fl →
  (∀ i, K' i = K i) → (∀ i, P' i = P i) → (∀ i, Q' i = Q i) → (∀ i p b, V' i p b = V i p b) →
  counting K' P' Q' V' fl.
Proof.
  intros Hct HK HP HQ HV.
  assert (Hl : ∀ i p, level K' P' i p = level K P i p) by (intros; unfold level; by rewrite HK, HP).
  assert (Hq : ∀ i p, level K' Q' i p = level K Q i p) by (intros; unfold level; by rewrite HK, HQ).
  split.
  - intros j Hj. rewrite HK, HP. by apply Hct.
  - intros j Hj. rewrite HP, HQ. by apply Hct.
  - intros j p b Hj Hp Hb. rewrite HV, (ct_vec _ _ _ _ _ Hct) by done. f_equal.
    apply zsum_ext. intros i _. unfold owed. by rewrite HK, Hq.
  - intros j p i Hj Hp Hi. rewrite Hl, Hq. by apply Hct.
  - intros. rewrite HV. by apply Hct.
  - intros j p b. rewrite HV, HK, HP. by apply Hct.
  - apply Hct.
Qed.

Lemma src_in j p i : j ∈ eps → i ∈ src j p → i ∈ eps ∧ first i ≤ p < last i.
Proof.
  intros Hj Hi. destruct (bs_active j p i Hj) as [Hie _]; [by left|]. split; [done|].
  destruct (bs_active i p j Hie) as [_ ?]; [|done]. right. by apply bs_match.
Qed.

(** ** No endpoint gets ahead *)

Section state.
Context K P Q V fl (Hct : counting K P Q V fl).

(** What has reached an endpoint comes from endpoints that have begun the iteration. *)
Lemma reached_begun k n j x : j ∈ eps → k ≤ K j →
  (∀ p, first j ≤ p < Z.of_nat n → p < last j → k ≤ level K P j p) →
  x ∈ gather src (λ _ _, false) n j → k ≤ K x.
Proof.
  revert j. induction n as [|n IH]; intros j Hj Hk Hp Hx; cbn in Hx.
  { apply list_elem_of_singleton in Hx as ->. lia. }
  apply elem_of_app in Hx as [Hx|Hx].
  { apply (IH j); auto. intros p Hfp. apply Hp. lia. }
  apply list_elem_of_bind in Hx as (i&Hx&Hi).
  destruct (src_in j (Z.of_nat n) i Hj Hi) as [Hie Hact].
  destruct (bs_active j (Z.of_nat n) i Hj) as [_ Hactj]; [by left|].
  assert (Hkl : k ≤ level K Q i (Z.of_nat n)).
  { transitivity (level K P j (Z.of_nat n)); [apply Hp; lia|]. by apply (ct_order _ _ _ _ _ Hct). }
  pose proof (ct_phase _ _ _ _ _ Hct i Hie) as Hps.
  apply (IH i); [done| | |done].
  - unfold level in Hkl. destruct (Z.ltb_spec (Z.of_nat n) (Q i)); lia.
  - intros p Hfp Hlp. unfold level in *.
    destruct (Z.ltb_spec (Z.of_nat n) (Q i)), (Z.ltb_spec p (P i)); lia.
Qed.

(** An iteration finished is one that all have begun. *)
Lemma finished_begun i j : i ∈ eps → j ∈ eps → (if P j =? last j then K j else K j - 1) ≤ K i.
Proof.
  intros Hi Hj. eapply (reached_begun _ (Z.to_nat (last j)) j); [done| | |by apply bs_all].
  - destruct (Z.eqb_spec (P j) (last j)); lia.
  - intros p Hp Hl. unfold level.
    destruct (Z.eqb_spec (P j) (last j)), (Z.ltb_spec p (P j)); lia.
Qed.

Lemma begun_close i j : i ∈ eps → j ∈ eps → K i ≤ K j + 1.
Proof. intros Hi Hj. pose proof (finished_begun j i Hj Hi). destruct (Z.eqb_spec (P i) (last i)); lia. Qed.

Lemma level_close j p i : j ∈ eps → first j ≤ p < last j → i ∈ src j p →
  K j - 1 ≤ level K Q i p ≤ K j + 1.
Proof.
  intros Hj Hp Hi. destruct (src_in j p i Hj Hi) as [Hie _].
  pose proof (begun_close i j Hie Hj). pose proof (ct_order _ _ _ _ _ Hct j p i Hj Hp Hi) as Ho.
  unfold level in *. destruct (Z.ltb_spec p (P j)), (Z.ltb_spec p (Q i)); lia.
Qed.

Lemma owed_current j p i : j ∈ eps → first j ≤ p < last j → i ∈ src j p →
  owed K Q j p (K j mod 2) i = Z.b2z (level K Q i p <? K j).
Proof.
  intros Hj Hp Hi. pose proof (level_close j p i Hj Hp Hi). unfold owed.
  pose proof (rounds_same (K j)). pose proof (rounds_next (K j + 1) (K j mod 2)) as Hn.
  replace (K j + 1 - 1) with (K j) in Hn by lia.
  destruct (Z.ltb_spec (level K Q i p) (K j)); cbn [Z.b2z].
  - replace (level K Q i p) with (K j - 1) by lia. lia.
  - assert (level K Q i p = K j ∨ level K Q i p = K j + 1) as [->| ->] by lia; [lia|].
    rewrite <- Hn; [lia|apply Z.mod_pos_bound; lia|]. Z.div_mod_to_equations. lia.
Qed.

Lemma owed_bounds j p b i : j ∈ eps → first j ≤ p < last j → i ∈ src j p → 0 ≤ b < 2 →
  -1 ≤ owed K Q j p b i ≤ 1.
Proof.
  intros Hj Hp Hi Hb. pose proof (level_close j p i Hj Hp Hi) as Hl. unfold owed, rounds.
  Z.div_mod_to_equations. lia.
Qed.

(** The counters of the iteration in progress are never negative. *)
Lemma current_nonneg j p : j ∈ eps → first j ≤ p < last j → 0 ≤ V j p (K j mod 2).
Proof.
  intros Hj Hp. rewrite (ct_vec _ _ _ _ _ Hct) by (done || (apply Z.mod_pos_bound; lia)).
  pose proof (in_flight_nonneg (j, p, K j mod 2) fl).
  enough (0 ≤ zsum (owed K Q j p (K j mod 2)) (src j p)) by lia.
  apply zsum_nonneg. intros i Hi. rewrite owed_current by done.
  destruct (_ <? _); cbn; lia.
Qed.

Lemma vec_bounds j p b : j ∈ eps → first j ≤ p < last j → 0 ≤ b < 2 → -127 ≤ V j p b ≤ 127.
Proof.
  intros Hj Hp Hb. pose proof (bs_few j p Hj). pose proof (ct_most _ _ _ _ _ Hct j p b Hj Hp Hb).
  split; [|lia]. rewrite (ct_vec _ _ _ _ _ Hct) by done.
  pose proof (in_flight_nonneg (j, p, b) fl).
  pose proof (zsum_bounds (owed K Q j p b) (src j p) (-1) 1) as Hz.
  pose proof (Hz (λ i Hi, owed_bounds j p b i Hj Hp Hi Hb)). lia.
Qed.
End state.

(** ** The steps *)

Lemma level_insert K P j x p i :
  level K (<[j := x]> P) i p = if bool_decide (i = j) then (if p <? x then K j else K j - 1) else level K P i p.
Proof.
  unfold level. case_bool_decide as Hij; subst.
  - by rewrite fn_lookup_insert.
  - by rewrite fn_lookup_insert_ne by done.
Qed.

(** To send the message of a phase to every destination. *)
Lemma counting_send K P Q V fl j : counting K P Q V fl → j ∈ eps → Q j = P j → Q j < last j →
  counting K P (<[j := Q j + 1]> Q) V (fl ++ sent_to (dst j (P j)) (P j) (K j mod 2)).
Proof.
  intros Hct Hj Hq Hl. pose proof (ct_begun _ _ _ _ _ Hct j Hj) as [HK HK0].
  assert (Hlv : ∀ i p, level K (<[j := Q j + 1]> Q) i p =
    level K Q i p + Z.b2z (bool_decide (i = j ∧ p = Q j))).
  { intros i p. rewrite level_insert. unfold level. destruct (decide (i = j)) as [->|Hne].
    - rewrite bool_decide_eq_true_2 by done.
      rewrite (bool_decide_ext (j = j ∧ p = Q j) (p = Q j)) by naive_solver.
      case_bool_decide; cbn [Z.b2z]; destruct (Z.ltb_spec p (Q j)), (Z.ltb_spec p (Q j + 1)); lia.
    - rewrite !bool_decide_eq_false_2 by naive_solver. cbn. lia. }
  split; try apply Hct.
  - intros i Hi. pose proof (ct_phase _ _ _ _ _ Hct i Hi).
    destruct (decide (i = j)) as [->|]; [rewrite fn_lookup_insert|rewrite fn_lookup_insert_ne by done]; lia.
  - intros d p b Hd Hp Hb. rewrite (ct_vec _ _ _ _ _ Hct) by done.
    rewrite in_flight_app, in_flight_sent by by apply bs_dst_NoDup.
    enough (zsum (owed K Q d p b) (src d p) = zsum (owed K (<[j:=Q j + 1]> Q) d p b) (src d p) +
      Z.b2z (bool_decide (d ∈ dst j (P j) ∧ p = P j ∧ b = K j mod 2))) by lia.
    destruct (decide (p = P j ∧ j ∈ src d p)) as [[-> Hin]|Hno].
    + assert (Hdst : d ∈ dst j (P j)) by by apply bs_match.
      rewrite (zsum_one (owed K (<[j:=Q j + 1]> Q) d (P j) b) (owed K Q d (P j) b) j (src d (P j))
        (Z.b2z (bool_decide (b = K j mod 2)))); [| by apply bs_src_NoDup|done| |].
      * do 2 f_equal. apply bool_decide_ext. naive_solver.
      * unfold owed. rewrite Hlv, bool_decide_eq_true_2 by done. unfold level.
        rewrite Hq, Z.ltb_irrefl. cbn [Z.b2z]. replace (K j - 1 + 1) with (K j) by lia.
        case_bool_decide as Hb'; cbn [Z.b2z].
        -- subst b. pose proof (rounds_same (K j)). lia.
        -- pose proof (rounds_next (K j) b Hb Hb'). lia.
      * intros i Hi. unfold owed. rewrite Hlv, bool_decide_eq_false_2 by naive_solver.
        cbn. by rewrite Z.add_0_r.
    + rewrite bool_decide_eq_false_2.
      * cbn. rewrite Z.add_0_r. apply zsum_ext. intros i Hi. unfold owed.
        rewrite Hlv, bool_decide_eq_false_2; [cbn; by rewrite Z.add_0_r|].
        intros [-> ->]. apply Hno. split; [lia|done].
      * intros (Hin&->&_). apply Hno. split; [done|]. by apply bs_match.
  - intros i p x Hi Hp Hx. pose proof (ct_order _ _ _ _ _ Hct i p x Hi Hp Hx).
    rewrite Hlv. case_bool_decide; cbn; lia.
  - intros d p b [Hin|Hin]%elem_of_app; [by apply (ct_flight _ _ _ _ _ Hct)|].
    unfold sent_to in Hin. apply list_elem_of_fmap in Hin as (x&[= -> -> ->]&Hx).
    destruct (bs_active j (P j) x Hj) as [Hxe _]; [by right|]. split; [done|].
    split; [|apply Z.mod_pos_bound; lia].
    destruct (bs_active x (P j) j Hxe) as [_ ?]; [|done]. left. by apply bs_match.
Qed.

(** To pass a phase when nothing more is expected of it. *)
Lemma counting_pass K P Q V fl j : counting K P Q V fl → j ∈ eps → Q j = P j + 1 →
  V j (P j) (K j mod 2) ≤ 0 → counting K (<[j := P j + 1]> P) Q V fl.
Proof.
  intros Hct Hj Hq Hv. pose proof (ct_phase _ _ _ _ _ Hct j Hj) as Hph.
  pose proof (Z.mod_pos_bound (K j) 2 ltac:(lia)) as Hmod.
  assert (Hsent : ∀ i, i ∈ src j (P j) → K j ≤ level K Q i (P j)).
  { intros i Hi. rewrite (ct_vec _ _ _ _ _ Hct) in Hv by (done || lia).
    pose proof (in_flight_nonneg (j, P j, K j mod 2) fl).
    assert (Hcur : ∀ x, x ∈ src j (P j) → 0 ≤ owed K Q j (P j) (K j mod 2) x).
    { intros x Hx. rewrite (owed_current K P Q V fl Hct) by (done || lia). by destruct (_ <? _). }
    pose proof (zsum_nonneg_zero _ _ i Hcur ltac:(lia) Hi) as Hz.
    rewrite (owed_current K P Q V fl Hct) in Hz by (done || lia).
    destruct (Z.ltb_spec (level K Q i (P j)) (K j)); [done|lia]. }
  split; try apply Hct.
  - intros i Hi. pose proof (ct_begun _ _ _ _ _ Hct i Hi) as [? H0]. split; [done|].
    destruct (decide (i = j)) as [->|]; [|by rewrite fn_lookup_insert_ne].
    intros HK. specialize (H0 HK). lia.
  - intros i Hi. pose proof (ct_phase _ _ _ _ _ Hct i Hi).
    destruct (decide (i = j)) as [->|]; [rewrite fn_lookup_insert|rewrite fn_lookup_insert_ne by done]; lia.
  - intros i p x Hi Hp Hx. pose proof (ct_order _ _ _ _ _ Hct i p x Hi Hp Hx) as Ho.
    rewrite level_insert. case_bool_decide as Hij; [subst i|done].
    destruct (decide (p = P j)) as [->|].
    + specialize (Hsent x Hx). destruct (_ <? _); lia.
    + unfold level in Ho at 1. destruct (Z.ltb_spec p (P j)), (Z.ltb_spec p (P j + 1)); lia.
  - intros i p b Hi Hp Hb Hor. destruct (decide (i = j)) as [->|].
    + rewrite fn_lookup_insert in Hor. destruct (decide (p = P j)) as [->|].
      * destruct (decide (b = K j mod 2)) as [->|]; [done|].
        apply (ct_done _ _ _ _ _ Hct); [done..|by left].
      * apply (ct_done _ _ _ _ _ Hct); [done..|]. destruct Hor; [by left|right; lia].
    + rewrite fn_lookup_insert_ne in Hor by done. by apply (ct_done _ _ _ _ _ Hct).
Qed.

Definition counter_add V (j p b d : Z) : Z → Z → Z → Z := λ i q c,
  V i q c + if bool_decide (i = j ∧ q = p ∧ c = b) then d else 0.

(** To receive a message. *)
Lemma counting_receive K P Q V l1 l2 j p b : counting K P Q V (l1 ++ (j, p, b) :: l2) →
  counting K P Q (counter_add V j p b (-1)) (l1 ++ l2).
Proof.
  intros Hct. assert (Hle : ∀ i q c, counter_add V j p b (-1) i q c ≤ V i q c).
  { intros i q c. unfold counter_add. case_bool_decide; lia. }
  split; try apply Hct.
  - intros i q c Hi Hq Hc. unfold counter_add. rewrite (ct_vec _ _ _ _ _ Hct) by done.
    rewrite !in_flight_app, in_flight_cons.
    rewrite (bool_decide_ext ((j, p, b) = (i, q, c)) (i = j ∧ q = p ∧ c = b)) by naive_solver.
    case_bool_decide; cbn; lia.
  - intros. etrans; [apply Hle|]. by apply (ct_most _ _ _ _ _ Hct).
  - intros. etrans; [apply Hle|]. by apply (ct_done _ _ _ _ _ Hct).
  - intros d q c Hin. apply (ct_flight _ _ _ _ _ Hct). set_solver.
Qed.

(** To begin the next iteration, with what it expects of each phase. *)
Lemma counting_begin K P Q V fl j : counting K P Q V fl → j ∈ eps → P j = last j →
  counting (<[j := K j + 1]> K) (<[j := first j]> P) (<[j := first j]> Q)
    (λ i q c, V i q c + if bool_decide (i = j ∧ c = (K j + 1) mod 2)
                        then Z.of_nat (length (src j q)) else 0) fl.
Proof.
  intros Hct Hj Hp. pose proof (ct_phase _ _ _ _ _ Hct j Hj) as Hph.
  pose proof (ct_begun _ _ _ _ _ Hct j Hj) as [HK _].
  pose proof (bs_range j Hj) as [Hr _].
  assert (Hlv : ∀ R i q, first i ≤ q < last i → R j = last j →
    level (<[j := K j + 1]> K) (<[j := first j]> R) i q = level K R i q).
  { intros R i q Hq HR. rewrite level_insert. case_bool_decide as Hij.
    - subst. rewrite fn_lookup_insert. unfold level. rewrite HR.
      rewrite (proj2 (Z.ltb_ge q (first j))), (proj2 (Z.ltb_lt q (last j))) by lia. lia.
    - unfold level. by rewrite fn_lookup_insert_ne. }
  assert (HQ : Q j = last j) by lia.
  split.
  - intros i Hi. pose proof (ct_begun _ _ _ _ _ Hct i Hi).
    destruct (decide (i = j)) as [->|]; [rewrite !fn_lookup_insert|by rewrite !fn_lookup_insert_ne by done].
    split; lia.
  - intros i Hi. pose proof (ct_phase _ _ _ _ _ Hct i Hi).
    destruct (decide (i = j)) as [->|]; [rewrite !fn_lookup_insert; lia|by rewrite !fn_lookup_insert_ne by done].
  - intros i q c Hi Hq Hc. rewrite (ct_vec _ _ _ _ _ Hct) by done.
    assert (Hs : ∀ x, x ∈ src i q → owed (<[j:=K j + 1]> K) (<[j:=first j]> Q) i q c x =
      owed K Q i q c x + Z.b2z (bool_decide (i = j ∧ c = (K j + 1) mod 2))).
    { intros x Hx. unfold owed. destruct (src_in i q x Hi Hx) as [_ Hxa]. rewrite Hlv by done.
      destruct (decide (i = j)) as [->|].
      - rewrite fn_lookup_insert, rounds_step by done.
        rewrite (bool_decide_ext (j = j ∧ c = (K j + 1) mod 2) (c = (K j + 1) mod 2)) by naive_solver.
        destruct (Z.eqb_spec c ((K j + 1) mod 2)); case_bool_decide; try done; cbn [Z.b2z]; lia.
      - rewrite fn_lookup_insert_ne by done. rewrite bool_decide_eq_false_2 by naive_solver. cbn. lia. }
    rewrite (zsum_ext _ _ _ Hs), zsum_shift. case_bool_decide as Hb; cbn [Z.b2z]; [|lia].
    destruct Hb as [-> _]. lia.
  - intros i q x Hi Hq Hx. destruct (src_in i q x Hi Hx) as [_ Hxa]. rewrite !Hlv by done.
    by apply (ct_order _ _ _ _ _ Hct).
  - intros i q c Hi Hq Hc. case_bool_decide as Hb.
    + destruct Hb as [-> ->].
      pose proof (ct_done _ _ _ _ _ Hct j q ((K j + 1) mod 2) Hi Hq Hc ltac:(right; lia)). lia.
    + pose proof (ct_most _ _ _ _ _ Hct i q c Hi Hq Hc). lia.
  - intros i q c Hi Hq Hc Hor. destruct (decide (i = j)) as [->|].
    + rewrite !fn_lookup_insert in Hor.
      assert (c ≠ (K j + 1) mod 2) as Hne by (destruct Hor; [done|lia]).
      rewrite bool_decide_eq_false_2 by naive_solver. rewrite Z.add_0_r.
      apply (ct_done _ _ _ _ _ Hct); [done..|right; lia].
    + rewrite !fn_lookup_insert_ne in Hor by done. rewrite bool_decide_eq_false_2 by naive_solver.
      rewrite Z.add_0_r. by apply (ct_done _ _ _ _ _ Hct).
  - apply Hct.
Qed.

(** Someone is always able to go on: with nothing in flight, an endpoint that waits in the
    least phase of an iteration that all have begun expects nothing. *)
Lemma waits_for_someone K P Q V j p : counting K P Q V [] → j ∈ eps → P j = p → p < last j →
  0 < V j p (K j mod 2) → ∃ i, i ∈ src j p ∧ (K i < K j ∨ K i = K j ∧ Q i ≤ p).
Proof.
  intros Hct Hj <- Hl Hv. pose proof (ct_phase _ _ _ _ _ Hct j Hj) as Hph.
  rewrite (ct_vec _ _ _ _ _ Hct) in Hv by (done || lia || (apply Z.mod_pos_bound; lia)).
  cbn [in_flight filter list_filter length] in Hv.
  destruct (decide (Exists (λ i, K i < K j ∨ K i = K j ∧ Q i ≤ P j) (src j (P j)))) as [Hex|Hno].
  - apply Exists_exists in Hex as (i&Hi&Hx). eauto.
  - exfalso. apply Forall_Exists_neg in Hno. rewrite Forall_forall in Hno.
    enough (zsum (owed K Q j (P j) (K j mod 2)) (src j (P j)) = zsum (λ _, 0) (src j (P j))) as Hz.
    { rewrite Hz in Hv. pose proof (zsum_bounds (λ _, 0) (src j (P j)) 0 0 ltac:(done)).
      unfold in_flight in Hv. cbn in Hv. lia. }
    apply zsum_ext. intros i Hi. rewrite (owed_current K P Q V [] Hct) by (done || lia).
    pose proof (level_close K P Q V [] Hct j (P j) i Hj ltac:(lia) Hi) as Hlc.
    specialize (Hno i Hi). unfold level in *.
    destruct (Z.ltb_spec (P j) (Q i)); destruct (Z.ltb_spec (K i) (K j));
      destruct (Z.ltb_spec (K i - 1) (K j)); cbn; lia.
Qed.
End machine.
