(* ===== verification/BarrierSystem.v ===== *)
(** A system of barrier executors that exchange messages: its steps, and each operation of
    an executor as steps of the counting machine. *)
From stdpp Require Import functions.
From S2P Require Import Prelude.
From S2P Require Import Topology.
From S2P Require Import Schedule.
From S2P Require Import ScheduleCache.
From S2P Require Import Barrier.
From S2P Require Import BarrierMachine.

(** * The system *)

Definition messages_of (evs : list effect) : list message :=
  evs ≫= λ ev, match ev with Multicast dst phase iteration _ => sent_to dst phase iteration | Done => [] end.
Definition callbacks_of (evs : list effect) : list callback :=
  evs ≫= λ ev, match ev with Multicast _ _ _ cb => [cb] | Done => [] end.
Definition dones_of (evs : list effect) : Z :=
  foldr (λ ev n, match ev with Multicast _ _ _ _ => n | Done => n + 1 end) 0 evs.

(** Executors by endpoint; how many barriers the client of each has started and has been
    told are done; the messages in flight; the callbacks of multicasts to come. *)
Record system (T_Schedule : Type) := mkSystem {
  sy_exec : Z → BarrierExec T_Schedule; sy_started : Z → Z; sy_done : Z → Z;
  sy_flight : list message; sy_callbacks : Z → list callback
}.
Arguments mkSystem {T_Schedule}.
Arguments sy_exec {T_Schedule} s.
Arguments sy_started {T_Schedule} s.
Arguments sy_done {T_Schedule} s.
Arguments sy_flight {T_Schedule} s.
Arguments sy_callbacks {T_Schedule} s.

Section system.
Context {T_Schedule : Type} `{Schedule T_Schedule} (char_signed : bool) (eps : list Z).

Implicit Types (sy : system T_Schedule) (e : BarrierExec T_Schedule).

(** The effects of an operation at an endpoint. *)
Definition after sy (ep : Z) (out : BarrierExec T_Schedule * list effect) : system T_Schedule :=
  mkSystem (<[ep := out.1]> (sy_exec sy)) (sy_started sy)
    (<[ep := sy_done sy ep + dones_of out.2]> (sy_done sy))
    (sy_flight sy ++ messages_of out.2)
    (<[ep := sy_callbacks sy ep ++ callbacks_of out.2]> (sy_callbacks sy)).

Definition with_started sy (ep : Z) : system T_Schedule :=
  mkSystem (sy_exec sy) (<[ep := sy_started sy ep + 1]> (sy_started sy)) (sy_done sy)
    (sy_flight sy) (sy_callbacks sy).
Definition with_flight sy (fl : list message) : system T_Schedule :=
  mkSystem (sy_exec sy) (sy_started sy) (sy_done sy) fl (sy_callbacks sy).
Definition with_callbacks sy (ep : Z) (cbs : list callback) : system T_Schedule :=
  mkSystem (sy_exec sy) (sy_started sy) (sy_done sy) (sy_flight sy)
    (<[ep := cbs]> (sy_callbacks sy)).

(** What happens by itself: any message in flight arrives, any multicast completes. *)
Inductive progress : system T_Schedule → system T_Schedule → Prop :=
| progress_receive sy ep phase iteration l1 l2 out :
    sy_flight sy = l1 ++ (ep, phase, iteration) :: l2 →
    notifyRecv char_signed phase iteration (sy_exec sy ep) = Ok out →
    progress sy (after (with_flight sy (l1 ++ l2)) ep out)
| progress_sent sy ep l1 l2 out : ep ∈ eps →
    sy_callbacks sy ep = l1 ++ NotifySendDone :: l2 →
    internalNotifySendDone (sy_exec sy ep) = Ok out →
    progress sy (after (with_callbacks sy ep (l1 ++ l2)) ep out)
| progress_done sy ep l1 l2 : ep ∈ eps →
    sy_callbacks sy ep = l1 ++ ClientDone :: l2 →
    progress sy (after (with_callbacks sy ep (l1 ++ l2)) ep (sy_exec sy ep, [Done])).

(** A client starts a barrier when its last one is done. *)
Inductive step : system T_Schedule → system T_Schedule → Prop :=
| step_start sy ep out : ep ∈ eps → sy_done sy ep = sy_started sy ep →
    start char_signed (sy_exec sy ep) = Ok out →
    step sy (after (with_started sy ep) ep out)
| step_progress sy sy' : progress sy sy' → step sy sy'.

(** An operation that the system may call, and that fails. *)
Inductive fails sy : Prop :=
| fails_start ep er : ep ∈ eps → sy_done sy ep = sy_started sy ep →
    start char_signed (sy_exec sy ep) = Err er → fails sy
| fails_receive ep phase iteration er : (ep, phase, iteration) ∈ sy_flight sy →
    notifyRecv char_signed phase iteration (sy_exec sy ep) = Err er → fails sy
| fails_sent ep er : ep ∈ eps → NotifySendDone ∈ sy_callbacks sy ep →
    internalNotifySendDone (sy_exec sy ep) = Err er → fails sy.
End system.

(** * The operations *)

Section operations.
Context {T_Schedule : Type} `{Schedule T_Schedule} (char_signed : bool).
Context {eps : list Z} {first last : Z → Z} {src dst : Z → Z → list Z}.
Context `{Hsched : !BarrierSchedule CCMI_BARRIER_MAXPHASES eps first last src dst}.

Implicit Types (e : BarrierExec T_Schedule) (K P Q : Z → Z) (V : Z → Z → Z → Z) (W : Z → Z → Z).

Notation to_char := (to_char char_signed).

Lemma to_char_add v d : to_char (to_char v + d) = to_char (v + d).
Proof.
  unfold Barrier.to_char. destruct char_signed.
  - replace ((v + 128) mod 256 - 128 + d + 128) with ((v + 128) mod 256 + d) by lia.
    rewrite Zplus_mod_idemp_l. do 2 f_equal. lia.
  - by rewrite Zplus_mod_idemp_l.
Qed.

Lemma to_char_small v : 0 ≤ v ≤ 127 → to_char v = v.
Proof. intros Hv. unfold Barrier.to_char. destruct char_signed; rewrite Z.mod_small; lia. Qed.

(** The values a [char] of either kind holds. *)
Lemma char_of_pred w : -127 ≤ w - 1 → w ≤ 127 →
  char_of char_signed (Z.pred (to_char w)) = Ok (to_char (w + -1)).
Proof.
  intros H1 H2. unfold char_of.
  assert (negb char_signed || ((-128 <=? Z.pred (to_char w)) && (Z.pred (to_char w) <=? 127)) = true) as ->.
  { unfold Barrier.to_char. destruct char_signed; [|done]. cbn [negb orb]. rewrite Z.mod_small by lia.
    apply andb_true_intro. split; apply Z.leb_le; lia. }
  cbn [defined]. rewrite Ok_bind. unfold Z.pred. by rewrite to_char_add.
Qed.

Lemma char_of_plus w n : -127 ≤ w ≤ 127 → 0 ≤ n → 0 ≤ w + n ≤ 127 →
  char_of char_signed (w64 (to_char w + n)) = Ok (to_char (w + n)).
Proof.
  intros H1 Hn H2. pose proof (Z.mod_pos_bound w 256 ltac:(lia)).
  assert (w64 (to_char w + n) = to_char w + n) as ->.
  { apply w64_small. unfold Barrier.to_char. destruct char_signed; [rewrite Z.mod_small by lia|]; lia. }
  unfold char_of.
  assert (negb char_signed || ((-128 <=? to_char w + n) && (to_char w + n <=? 127)) = true) as ->.
  { unfold Barrier.to_char. destruct char_signed; [|done]. cbn [negb orb]. rewrite Z.mod_small by lia.
    apply andb_true_intro. split; apply Z.leb_le; lia. }
  cbn [defined]. rewrite Ok_bind. by rewrite to_char_add.
Qed.

(** An executor at endpoint [ep], in iteration [k], with counters that stand for [W]. *)
Record represents e (ep k : Z) W : Prop := {
  rp_iteration : b_iteration e = k mod 2;
  rp_start : b_start e = first ep;
  rp_nphases : b_nphases e = last ep - first ep;
  rp_src p : first ep ≤ p < last ep → cache_getSrcTopology p (b_cache e) = Ok (src ep p);
  rp_dst p : first ep ≤ p < last ep → cache_getDstTopology p (b_cache e) = Ok (dst ep p);
  rp_vec p : first ep ≤ p < last ep →
    b_phasevec e !! Z.to_nat p = Some (to_char (W p 0), to_char (W p 1))
}.

Lemma represents_phase e ep k W p : represents e ep k W → represents (with_phase e p) ep k W.
Proof. by intros []. Qed.
Lemma represents_senddone e ep k W sd : represents e ep k W → represents (with_senddone e sd) ep k W.
Proof. by intros []. Qed.
Lemma represents_ext e ep k k' W W' : represents e ep k W → k' mod 2 = k mod 2 →
  (∀ p b, first ep ≤ p < last ep → 0 ≤ b < 2 → W' p b = W p b) → represents e ep k' W'.
Proof. intros [] Hk HW. split; try done; [congruence|]. intros p Hp. rewrite !HW by lia. auto. Qed.

Lemma end_phase_last e ep k W : represents e ep k W → end_phase e = last ep.
Proof. intros []. unfold end_phase. lia. Qed.

Lemma vec_of_spec e ep k W p b : represents e ep k W → ep ∈ eps → first ep ≤ p < last ep → 0 ≤ b < 2 →
  vec_of e p b = Ok (to_char (W p b)).
Proof.
  intros Hr He Hp Hb. pose proof (bs_range ep He) as [? _]. unfold vec_of.
  rewrite (proj2 (Z.leb_le 0 p)) by lia. cbn [defined]. rewrite Ok_bind, (rp_vec _ _ _ _ Hr) by done.
  assert (b = 0 ∨ b = 1) as [-> | ->] by lia; done.
Qed.

Lemma vec_update_spec e ep k W p b f d : represents e ep k W → ep ∈ eps → first ep ≤ p < last ep →
  0 ≤ b < 2 → char_of char_signed (f (to_char (W p b))) = Ok (to_char (W p b + d)) →
  ∃ e', vec_update char_signed e p b f = Ok e' ∧
    represents e' ep k (λ q c, W q c + if bool_decide (q = p ∧ c = b) then d else 0) ∧
    b_phase e' = b_phase e ∧ b_senddone e' = b_senddone e.
Proof.
  intros Hr He Hp Hb Hf. pose proof (bs_range ep He) as [? _]. unfold vec_update.
  rewrite (proj2 (Z.leb_le 0 p)) by lia. cbn [defined]. rewrite Ok_bind, (rp_vec _ _ _ _ Hr) by done.
  cbn [of_option]. rewrite Ok_bind.
  replace (if b =? 0 then to_char (W p 0) else to_char (W p 1)) with (to_char (W p b))
    by (assert (b = 0 ∨ b = 1) as [-> | ->] by lia; done).
  rewrite Hf, Ok_bind. eexists. split; [reflexivity|]. split; [|done].
  pose proof (rp_vec _ _ _ _ Hr p Hp) as Hlk.
  split; try apply Hr. intros q Hq. cbn [b_phasevec]. destruct (decide (q = p)) as [->|Hne].
  - rewrite list_lookup_insert_eq by by eapply lookup_lt_Some.
    assert (b = 0 ∨ b = 1) as [-> | ->] by lia; cbn [Z.eqb Pos.eqb];
      repeat case_bool_decide; try lia; rewrite ?Z.add_0_r; done.
  - rewrite list_lookup_insert_ne by lia. rewrite (rp_vec _ _ _ _ Hr) by done.
    rewrite !bool_decide_eq_false_2 by naive_solver. by rewrite !Z.add_0_r.
Qed.

(** Once it has entered a phase an executor has sent in it. *)
Definition sent_bound (ep p : Z) : Z := Z.min (p + 1) (last ep).

(** What is left to happen at an endpoint between two operations. *)
Definition status (ep k : Z) W (p : Z) (senddone : bool) (cbs : list callback)
    (done : Z) : Prop :=
  p < last ep ∧ done = k - 1 ∧
    (if senddone then cbs = [] ∧ 0 < W p (k mod 2) else cbs = [NotifySendDone]) ∨
  p = last ep ∧ (cbs = [ClientDone] ∧ done = k - 1 ∨ cbs = [] ∧ done = k).

(** The outcome of an operation, at an endpoint where [cbs] are to come and [done] is the
    number of barriers done; [advances] when the executor is between two phases. *)
Definition moves (K P Q : Z → Z) (V : Z → Z → Z → Z) (fl : list message) (ep : Z)
    (cbs : list callback) (done : Z) (r : res (BarrierExec T_Schedule * list effect)) : Prop :=
  ∃ e evs, r = Ok (e, evs) ∧
    counting (eps := eps) (first := first) (last := last) (src := src) K
      (<[ep := b_phase e]> P) (<[ep := sent_bound ep (b_phase e)]> Q) V (fl ++ messages_of evs) ∧
    represents e ep (K ep) (V ep) ∧
    status ep (K ep) (V ep) (b_phase e) (b_senddone e) (cbs ++ callbacks_of evs)
      (done + dones_of evs).

Definition advances (K P Q : Z → Z) (V : Z → Z → Z → Z) (fl : list message) (ep : Z)
    (r : res (BarrierExec T_Schedule * list effect)) : Prop :=
  moves K P Q V fl ep [] (K ep - 1) r.

Notation counting := (counting (eps := eps) (first := first) (last := last) (src := src)).

Lemma fn_insert_twice (f : Z → Z) k x y i : (<[k := x]> (<[k := y]> f) : Z → Z) i = (<[k := x]> f : Z → Z) i.
Proof.
  destruct (decide (i = k)) as [->|]; [by rewrite !fn_lookup_insert|by rewrite !fn_lookup_insert_ne].
Qed.

Lemma fn_insert_same (f : Z → Z) k x i : f k = x → (<[k := x]> f : Z → Z) i = f i.
Proof.
  intros <-. destruct (decide (i = k)) as [->|]; [by rewrite fn_lookup_insert|by rewrite fn_lookup_insert_ne].
Qed.

Lemma advances_ext K P P' Q Q' V fl ep r : advances K P Q V fl ep r →
  (∀ i, i ≠ ep → P' i = P i) → (∀ i, i ≠ ep → Q' i = Q i) → advances K P' Q' V fl ep r.
Proof.
  intros (e&evs&->&Hct&Hrest) HP HQ. exists e, evs. split; [done|]. split; [|done].
  eapply counting_ext; [exact Hct|done| | |done]; intros i;
    destruct (decide (i = ep)) as [->|]; rewrite ?fn_lookup_insert, ?fn_lookup_insert_ne by done; auto.
Qed.

(** The counter of the phase an executor is in, as it compares it. *)
Lemma current_vec K P Q V fl e ep p : counting K P Q V fl → represents e ep (K ep) (V ep) →
  ep ∈ eps → first ep ≤ p < last ep →
  vec_of e p (b_iteration e) = Ok (V ep p (K ep mod 2)).
Proof.
  intros Hct Hr He Hp. pose proof (Z.mod_pos_bound (K ep) 2 ltac:(lia)) as Hb.
  rewrite (rp_iteration _ _ _ _ Hr), (vec_of_spec e ep (K ep) (V ep)) by done. f_equal.
  apply to_char_small. pose proof (current_nonneg _ _ _ _ _ Hct ep p He Hp).
  pose proof (vec_bounds _ _ _ _ _ Hct ep p (K ep mod 2) He Hp Hb). lia.
Qed.

Lemma messages_one l p b cb : messages_of [Multicast l p b cb] = sent_to l p b.
Proof. unfold messages_of. cbn. by rewrite app_nil_r. Qed.

Lemma counting_still K P Q V fl ep p q : counting K P Q V fl → P ep = p → Q ep = q →
  counting K (<[ep := p]> P) (<[ep := q]> Q) V fl.
Proof. intros Hct HP HQ. eapply counting_ext; [exact Hct|done|..|done]; intros i; by apply fn_insert_same. Qed.

(** [sendNext], on entering a phase. *)
Lemma sendNext_spec fuel e ep K P Q V fl : counting K P Q V fl → ep ∈ eps →
  P ep = b_phase e → Q ep = b_phase e → represents e ep (K ep) (V ep) →
  (Z.to_nat (last ep - b_phase e) < fuel)%nat → advances K P Q V fl ep (sendNext fuel e).
Proof.
  revert e P Q fl. induction fuel as [|fuel IH]; intros e P Q fl Hct He HP HQ Hr Hfuel; [lia|].
  pose proof (ct_phase _ _ _ _ _ Hct ep He) as Hph. rewrite HP, HQ in Hph.
  cbn [sendNext]. rewrite (end_phase_last e ep _ _ Hr), (proj2 (Z.leb_le _ _)) by lia. cbn [assert].
  rewrite Ok_bind. destruct (Z.eqb_spec (b_phase e) (last ep)) as [Hend|Hend].
  { exists (with_senddone e false), [Done]. split; [done|]. cbn [with_senddone b_phase b_senddone].
    rewrite app_nil_r. split; [apply counting_still; [exact Hct|lia|unfold sent_bound; lia]|].
    split; [by apply represents_senddone|]. right. split; [done|]. right. split; [done|]. cbn. lia. }
  assert (Hact : first ep ≤ b_phase e < last ep) by lia.
  pose proof (counting_send K P Q V fl ep Hct He ltac:(lia) ltac:(lia)) as Hsent.
  rewrite HP, HQ in Hsent. pose proof (end_phase_last e ep _ _ Hr) as Hlast.
  cbn [with_senddone b_phase b_iteration b_cache end_phase b_start b_nphases].
  rewrite (rp_dst _ _ _ _ Hr) by done. rewrite Ok_bind.
  set (e0 := with_senddone e false). assert (Hr0 : represents e0 ep (K ep) (V ep)) by by apply represents_senddone.
  pose proof (current_vec _ _ _ _ _ _ _ _ Hct Hr He Hact) as Hvec.
  destruct (Z.ltb_spec 0 (Z.of_nat (length (dst ep (b_phase e))))) as [Hlen|Hlen].
  - change (vec_of e0 (b_phase e) (b_iteration e)) with (vec_of e (b_phase e) (b_iteration e)).
    rewrite Hvec, Ok_bind. change (end_phase e0) with (end_phase e). rewrite Hlast.
    destruct (Z.eqb_spec (b_phase e) (last ep - 1)) as [Hlst|Hlst]; cbn [andb].
    + destruct (Z.leb_spec (V ep (b_phase e) (K ep mod 2)) 0) as [Hz|Hz].
      * eexists _, _. split; [reflexivity|]. cbn [with_phase b_phase b_senddone].
        rewrite messages_one, (rp_iteration _ _ _ _ Hr).
        split; [|split; [by apply represents_phase|]].
        -- replace (sent_bound ep (b_phase e + 1)) with (b_phase e + 1) by (unfold sent_bound; lia).
           rewrite <- HP. apply counting_pass; [by rewrite HP|done| |by rewrite HP].
           rewrite fn_lookup_insert. lia.
        -- right. split; [lia|]. left. split; [done|]. cbn. lia.
      * eexists _, _. split; [reflexivity|]. cbn [b_phase b_senddone e0 with_senddone].
        rewrite messages_one, (rp_iteration _ _ _ _ Hr).
        replace (sent_bound ep (b_phase e)) with (b_phase e + 1) by (unfold sent_bound; lia).
        split; [|split; [by apply represents_senddone|left; split; [lia|split; [cbn; lia|done]]]].
        eapply counting_ext; [exact Hsent|done| |done|done]. intros i. by apply fn_insert_same.
    + eexists _, _. split; [reflexivity|]. cbn [b_phase b_senddone e0 with_senddone].
      rewrite messages_one, (rp_iteration _ _ _ _ Hr).
      replace (sent_bound ep (b_phase e)) with (b_phase e + 1) by (unfold sent_bound; lia).
      split; [|split; [by apply represents_senddone|left; split; [lia|split; [cbn; lia|done]]]].
      eapply counting_ext; [exact Hsent|done| |done|done]. intros i. by apply fn_insert_same.
  - assert (dst ep (b_phase e) = []) as Hnil by (apply nil_length_inv; lia).
    rewrite Hnil in Hsent. cbn [sent_to fmap list_fmap] in Hsent. rewrite app_nil_r in Hsent.
    change (vec_of (with_senddone e0 true) (b_phase e) (b_iteration e)) with
      (vec_of e (b_phase e) (b_iteration e)).
    rewrite Hvec, Ok_bind.
    destruct (Z.leb_spec (V ep (b_phase e) (K ep mod 2)) 0) as [Hz|Hz].
    + eapply advances_ext.
      * apply (IH _ (<[ep := b_phase e + 1]> P) (<[ep := b_phase e + 1]> Q)).
        -- rewrite <- HP. apply counting_pass; [by rewrite HP|done| |by rewrite HP].
           rewrite fn_lookup_insert. lia.
        -- done.
        -- by rewrite fn_lookup_insert.
        -- by rewrite fn_lookup_insert.
        -- by apply represents_phase, represents_senddone.
        -- cbn [with_phase b_phase]. lia.
      * intros i Hi. by rewrite fn_lookup_insert_ne.
      * intros i Hi. by rewrite fn_lookup_insert_ne.
    + eexists _, _. split; [reflexivity|]. cbn [b_phase b_senddone e0 with_senddone].
      replace (sent_bound ep (b_phase e)) with (b_phase e + 1) by (unfold sent_bound; lia).
      cbn [messages_of mbind list_bind]. rewrite app_nil_r.
      split; [|split; [by apply represents_senddone|left; split; [lia|split; [cbn; lia|done]]]].
      eapply counting_ext; [exact Hsent|done| |done|done]. intros i. by apply fn_insert_same.
Qed.

(** A phase passed, and the next one entered. *)
Lemma advance_spec e ep K P Q V fl : counting K P Q V fl → ep ∈ eps →
  P ep = b_phase e → Q ep = sent_bound ep (b_phase e) → b_phase e < last ep →
  represents e ep (K ep) (V ep) → V ep (b_phase e) (K ep mod 2) ≤ 0 →
  let e' := with_phase e (b_phase e + 1) in
  advances K P Q V fl ep (sendNext (phase_fuel e') e').
Proof.
  intros Hct He HP HQ Hl Hr Hv e'. unfold sent_bound in HQ.
  eapply advances_ext.
  - apply (sendNext_spec _ e' ep K (<[ep := b_phase e + 1]> P) Q).
    + rewrite <- HP. apply counting_pass; [done|done|lia|by rewrite HP].
    + done.
    + by rewrite fn_lookup_insert.
    + cbn. lia.
    + by apply represents_phase.
    + unfold phase_fuel. rewrite (end_phase_last e' ep (K ep) (V ep)) by by apply represents_phase. lia.
  - intros i Hi. by rewrite fn_lookup_insert_ne.
  - done.
Qed.

(** The callback of a multicast. *)
Lemma internalNotifySendDone_spec e ep K P Q V fl : counting K P Q V fl → ep ∈ eps →
  P ep = b_phase e → Q ep = sent_bound ep (b_phase e) → b_phase e < last ep →
  represents e ep (K ep) (V ep) → advances K P Q V fl ep (internalNotifySendDone e).
Proof.
  intros Hct He HP HQ Hl Hr. unfold internalNotifySendDone.
  pose proof (ct_phase _ _ _ _ _ Hct ep He) as Hph.
  change (vec_of (with_senddone e true) (b_phase (with_senddone e true))
    (b_iteration (with_senddone e true))) with (vec_of e (b_phase e) (b_iteration e)).
  rewrite (current_vec _ _ _ _ _ _ _ _ Hct Hr He) by lia. rewrite Ok_bind.
  destruct (Z.leb_spec (V ep (b_phase e) (K ep mod 2)) 0) as [Hz|Hz].
  - apply (advance_spec (with_senddone e true) ep K P Q V fl); try done. by apply represents_senddone.
  - eexists _, _. split; [reflexivity|]. cbn [with_senddone b_phase b_senddone].
    cbn [messages_of mbind list_bind]. rewrite app_nil_r.
    split; [by apply counting_still|]. split; [by apply represents_senddone|].
    left. split; [done|]. split; [cbn; lia|done].
Qed.

(** An operation that changes no phase and has no effect. *)
Lemma moves_still e ep K P Q V fl cbs done : counting K P Q V fl →
  P ep = b_phase e → Q ep = sent_bound ep (b_phase e) → represents e ep (K ep) (V ep) →
  status ep (K ep) (V ep) (b_phase e) (b_senddone e) cbs done →
  moves K P Q V fl ep cbs done (Ok (e, [])).
Proof.
  intros Hct HP HQ Hr Hst. exists e, []. split; [done|]. cbn [messages_of mbind list_bind].
  rewrite app_nil_r. split; [by apply counting_still|]. split; [done|].
  cbn. by rewrite app_nil_r, Z.add_0_r.
Qed.

(** A message that arrives. *)
Lemma notifyRecv_spec e ep K P Q V l1 l2 p b cbs done : counting K P Q V (l1 ++ (ep, p, b) :: l2) →
  P ep = b_phase e → Q ep = sent_bound ep (b_phase e) → represents e ep (K ep) (V ep) →
  status ep (K ep) (V ep) (b_phase e) (b_senddone e) cbs done →
  moves K P Q (counter_add V ep p b (-1)) (l1 ++ l2) ep cbs done (notifyRecv char_signed p b e).
Proof.
  intros Hct HP HQ Hr Hst.
  destruct (ct_flight _ _ _ _ _ Hct ep p b) as (He&Hp&Hb); [set_solver|].
  pose proof (vec_bounds _ _ _ _ _ Hct ep p b He Hp Hb) as [_ Hmost].
  apply counting_receive in Hct. pose proof (vec_bounds _ _ _ _ _ Hct ep p b He Hp Hb) as [Hleast _].
  unfold counter_add in Hleast. rewrite bool_decide_eq_true_2 in Hleast by done. set (V' := counter_add V ep p b (-1)) in *.
  unfold notifyRecv. rewrite (proj2 (Z.leb_le b 1)) by lia. cbn [assert]. rewrite Ok_bind.
  destruct (vec_update_spec e ep (K ep) (V ep) p b Z.pred (-1) Hr He Hp Hb) as (e'&->&Hr'&Hph&Hsd);
    [by apply char_of_pred|].
  rewrite Ok_bind.
  assert (Hr1 : represents e' ep (K ep) (V' ep)).
  { eapply represents_ext; [exact Hr'|done|]. intros q c _ _. unfold V', counter_add.
    f_equal. by rewrite (bool_decide_ext (ep = ep ∧ q = p ∧ c = b) (q = p ∧ c = b)) by naive_solver. }
  rewrite (end_phase_last e' ep _ _ Hr1). rewrite <- Hph in HP, HQ.
  destruct (Z.eqb_spec (b_phase e') (last ep)) as [Hend|Hend].
  { apply moves_still; try done. right. split; [done|]. destruct Hst as [[? _]|[_ ?]]; [lia|done]. }
  pose proof (ct_phase _ _ _ _ _ Hct ep He) as Hrange. unfold sent_bound in HQ.
  destruct Hst as [(_&Hdone&Hst)|[? _]]; [|lia]. rewrite <- Hsd in Hst.
  rewrite (current_vec _ _ _ _ _ _ _ _ Hct Hr1) by (done || lia). rewrite Ok_bind.
  destruct (b_senddone e') eqn:Hsent; rewrite ?andb_false_r, ?andb_true_r.
  - destruct Hst as [-> _]. destruct (Z.leb_spec (V' ep (b_phase e') (K ep mod 2)) 0).
    + subst done. apply advance_spec; try done. lia.
    + apply moves_still; try done. left. split; [lia|]. split; [done|]. by rewrite Hsent.
  - apply moves_still; try done. left. split; [lia|]. split; [done|]. by rewrite Hsent.
Qed.

(** ** The start of an iteration *)

Definition expecting ep (l : list Z) (it : Z) W : Z → Z → Z := λ p b,
  W p b + if bool_decide (p ∈ l ∧ b = it) then Z.of_nat (length (src ep p)) else 0.

(** A counter takes the messages of a phase. *)
Definition room ep (p w : Z) : Prop := -127 ≤ w ≤ 127 ∧ 0 ≤ w + Z.of_nat (length (src ep p)) ≤ 127.

Lemma reset_loop e ep k W l : represents e ep k W → ep ∈ eps → NoDup l →
  (∀ p, p ∈ l → first ep ≤ p < last ep) → (∀ p, p ∈ l → room ep p (W p (k mod 2))) →
  ∃ e', foldM (λ e count, src ← cache_getSrcTopology count (b_cache e);
      vec_update char_signed e count (b_iteration e) (λ v, w64 (v + Z.of_nat (length src)))) e l = Ok e' ∧
    represents e' ep k (expecting ep l (k mod 2) W) ∧ b_phase e' = b_phase e.
Proof.
  intros Hr He Hnd. revert e W Hr. induction Hnd as [|p l Hp Hnd IH]; intros e W Hr Hl Hw.
  { exists e. split; [done|]. split; [|done]. eapply represents_ext; [exact Hr|done|].
    intros q c _ _. unfold expecting. rewrite bool_decide_eq_false_2; [lia|]. by intros [?%elem_of_nil _]. }
  pose proof (Hl p ltac:(left)) as Hpa. cbn [foldM].
  rewrite (rp_src _ _ _ _ Hr) by done. rewrite Ok_bind, (rp_iteration _ _ _ _ Hr).
  destruct (Hw p ltac:(left)) as [Hw1 Hw2].
  destruct (vec_update_spec e ep k W p (k mod 2) (λ v, w64 (v + Z.of_nat (length (src ep p))))
    (Z.of_nat (length (src ep p))) Hr He Hpa ltac:(apply Z.mod_pos_bound; lia)) as (e'&->&Hr'&Hph&_);
    [apply char_of_plus; lia|].
  rewrite Ok_bind. destruct (IH e' _ Hr') as (e''&Hrun&Hr''&Hph').
  { intros q Hq. apply Hl. by right. }
  { intros q Hq. rewrite bool_decide_eq_false_2 by (intros [-> _]; done). rewrite Z.add_0_r.
    apply Hw. by right. }
  exists e''. split; [exact Hrun|]. split; [|congruence].
  eapply represents_ext; [exact Hr''|done|]. intros q c _ _. unfold expecting.
  rewrite <- Z.add_assoc. f_equal.
  clear Hw Hw1 Hw2; repeat case_bool_decide; try lia; try set_solver; destruct_and!; subst; lia.
Qed.

Lemma resetVector_spec e ep k W : represents e ep k W → ep ∈ eps → b_phase e = last ep →
  (∀ p, first ep ≤ p < last ep → room ep p (W p ((k + 1) mod 2))) →
  ∃ e', resetVector char_signed e = Ok e' ∧
    represents e' ep (k + 1) (λ p b, W p b + if bool_decide (b = (k + 1) mod 2)
                                             then Z.of_nat (length (src ep p)) else 0) ∧
    b_phase e' = first ep.
Proof.
  intros Hr He Hph Hw. unfold resetVector. rewrite (end_phase_last e ep k W Hr), Hph, Z.eqb_refl.
  cbn [assert]. rewrite Ok_bind. set (e1 := mkExec _ _ _ _ _ _ _).
  assert (Hr1 : represents e1 ep (k + 1) W).
  { destruct Hr as [Hit ? ? ? ? ?]. split; cbn [e1 b_iteration b_start b_nphases b_cache b_phasevec]; try done.
    rewrite Hit, Zplus_mod_idemp_l. done. }
  pose proof (bs_range ep He) as [Hrange _].
  destruct (reset_loop e1 ep (k + 1) W (seqZ (first ep) (last ep - first ep)) Hr1 He) as (e2&Hrun&Hr2&Hph2).
  { apply NoDup_seqZ. }
  { intros p Hp%elem_of_seqZ. lia. }
  { intros p Hp%elem_of_seqZ. apply Hw. lia. }
  change (seqZ (b_start e1) (b_nphases e1)) with (seqZ (b_start e) (b_nphases e)).
  rewrite (rp_start _ _ _ _ Hr), (rp_nphases _ _ _ _ Hr). rewrite Hrun, Ok_bind.
  eexists. split; [reflexivity|]. split.
  - apply represents_senddone. eapply represents_ext; [exact Hr2|done|].
    intros p b Hp _. unfold expecting. f_equal.
    rewrite (bool_decide_ext (p ∈ seqZ (first ep) (last ep - first ep) ∧ b = (k + 1) mod 2)
      (b = (k + 1) mod 2)); [done|]. rewrite elem_of_seqZ. split; [naive_solver|]. split; [lia|done].
  - cbn [with_senddone b_phase]. rewrite Hph2. apply (rp_start _ _ _ _ Hr).
Qed.

Lemma start_spec e ep K P Q V fl : counting K P Q V fl → ep ∈ eps →
  P ep = b_phase e → b_phase e = last ep → represents e ep (K ep) (V ep) →
  ∃ V', advances (<[ep := K ep + 1]> K) P Q V' fl ep (start char_signed e) ∧
    ∀ i, i ≠ ep → ∀ p b, V' i p b = V i p b.
Proof.
  intros Hct He HP Hl Hr. pose proof (counting_begin K P Q V fl ep Hct He ltac:(lia)) as Hct'.
  set (V' := λ i q c : Z, _ + _) in Hct'. exists V'. split.
  - unfold start. destruct (resetVector_spec e ep (K ep) (V ep) Hr He Hl) as (e'&->&Hr'&Hph').
    { intros p Hp. pose proof (vec_bounds _ _ _ _ _ Hct ep p ((K ep + 1) mod 2) He Hp
        ltac:(apply Z.mod_pos_bound; lia)).
      pose proof (current_nonneg _ _ _ _ _ Hct' ep p He Hp) as Hnn.
      pose proof (vec_bounds _ _ _ _ _ Hct' ep p ((K ep + 1) mod 2) He Hp
        ltac:(apply Z.mod_pos_bound; lia)) as Hvb.
      unfold V' in Hnn, Hvb. rewrite fn_lookup_insert in Hnn.
      rewrite bool_decide_eq_true_2 in Hnn, Hvb by done. split; lia. }
    rewrite Ok_bind. eapply advances_ext.
    + apply (sendNext_spec _ e' ep _ _ _ V' fl Hct' He).
      * by rewrite fn_lookup_insert.
      * by rewrite fn_lookup_insert.
      * rewrite fn_lookup_insert. eapply represents_ext; [exact Hr'|done|].
        intros p b _ _. unfold V'. f_equal.
        by rewrite (bool_decide_ext (ep = ep ∧ b = (K ep + 1) mod 2) (b = (K ep + 1) mod 2)) by naive_solver.
      * unfold phase_fuel. rewrite (end_phase_last e' ep _ _ Hr'). lia.
    + intros i Hi. by rewrite fn_lookup_insert_ne.
    + intros i Hi. by rewrite fn_lookup_insert_ne.
  - intros i Hi p b. unfold V'. rewrite bool_decide_eq_false_2 by naive_solver. lia.
Qed.
End operations.
