(* ===== verification/BarrierInvariant.v ===== *)
(** The invariant of a system of barrier executors, that no operation fails, that no
    client is told too early, and that a barrier all have started ends. *)
From stdpp Require Import functions relations.
From S2P Require Import Prelude.
From S2P Require Import Topology.
From S2P Require Import Schedule.
From S2P Require Import ScheduleCache.
From S2P Require Import Barrier.
From S2P Require Import BarrierMachine.
From S2P Require Import BarrierSystem.

#[local] Opaque phase_fuel.

(** * Operations that do nothing *)

Section quiet.
Context {T_Schedule : Type} `{Schedule T_Schedule} (char_signed : bool).

Implicit Types (e : BarrierExec T_Schedule).

Lemma sendNext_phase fuel e e' evs : sendNext fuel e = Ok (e', evs) → b_phase e ≤ b_phase e'.
Proof.
  revert e evs. induction fuel as [|fuel IH]; intros e evs Hrun; [done|]. cbn [sendNext] in Hrun.
  repeat (inv_ok; case_match); inv_ok; cbn; try lia.
  match goal with H : sendNext _ _ = _ |- _ => apply IH in H; cbn in H; lia end.
Qed.

(** Either the executor goes to a later phase, or it asks nothing. *)
Definition quiet_or_later e (out : BarrierExec T_Schedule * list effect) : Prop :=
  b_phase out.1 = b_phase e ∧ out.2 = [] ∨ b_phase e < b_phase out.1.

Lemma vec_update_phase e p b f e' : vec_update char_signed e p b f = Ok e' → b_phase e' = b_phase e.
Proof. unfold vec_update. intros. inv_ok. case_match. by inv_ok. Qed.

Lemma notifyRecv_quiet p b e out : notifyRecv char_signed p b e = Ok out → quiet_or_later e out.
Proof.
  unfold notifyRecv, quiet_or_later. destruct out as [e' evs]. intros. inv_ok.
  match goal with H : vec_update _ _ _ _ _ = _ |- _ => apply vec_update_phase in H as Hph end.
  repeat (case_match; inv_ok); cbn; [by left| |by left].
  match goal with H : sendNext _ _ = _ |- _ => apply sendNext_phase in H; cbn in H end. right. lia.
Qed.

Lemma internalNotifySendDone_quiet e out : internalNotifySendDone e = Ok out → quiet_or_later e out.
Proof.
  unfold internalNotifySendDone, quiet_or_later. destruct out as [e' evs]. intros. inv_ok.
  case_match; inv_ok; cbn; [|by left].
  match goal with H : sendNext _ _ = _ |- _ => apply sendNext_phase in H; cbn in H end. right. lia.
Qed.
End quiet.

Section invariant.
Context {T_Schedule : Type} `{Schedule T_Schedule} (char_signed : bool).
Context {eps : list Z} {first last : Z → Z} {src dst : Z → Z → list Z}.
Context `{Hsched : !BarrierSchedule CCMI_BARRIER_MAXPHASES eps first last src dst}.

Implicit Types (sy : system T_Schedule) (e : BarrierExec T_Schedule).

Notation counting := (counting (eps := eps) (first := first) (last := last) (src := src)).
Notation represents := (represents (first := first) (last := last) (src := src) (dst := dst) char_signed).
Notation status := (status (last := last)).
Notation sent_bound := (sent_bound (last := last)).
Notation moves := (moves char_signed (eps := eps) (first := first) (last := last) (src := src) (dst := dst)).
Notation progress := (progress char_signed eps).
Notation step := (step char_signed eps).

Definition phase_of sy (i : Z) : Z := b_phase (sy_exec sy i).
Definition sent_of sy (i : Z) : Z := sent_bound i (phase_of sy i).

(** An endpoint is as its executor, its callbacks and its barriers done say. *)
Definition good sy V (i : Z) : Prop :=
  represents (sy_exec sy i) i (sy_started sy i) (V i) ∧
  status i (sy_started sy i) (V i) (phase_of sy i) (b_senddone (sy_exec sy i))
    (sy_callbacks sy i) (sy_done sy i).

Definition invariant sy : Prop := ∃ V,
  counting (sy_started sy) (phase_of sy) (sent_of sy) V (sy_flight sy) ∧
  ∀ i, i ∈ eps → good sy V i.

(** * Steps *)

Lemma after_invariant sy V ep out :
  moves (sy_started sy) (phase_of sy) (sent_of sy) V (sy_flight sy) ep (sy_callbacks sy ep)
    (sy_done sy ep) (Ok out) →
  (∀ i, i ∈ eps → i ≠ ep → good sy V i) → invariant (after sy ep out).
Proof.
  intros (e&evs&[= ->]&Hct&Hr&Hst) Ho. exists V. split.
  - eapply counting_ext; [exact Hct|done| | |done]; intros i; unfold sent_of, phase_of; cbn;
      destruct (decide (i = ep)) as [->|]; rewrite ?fn_lookup_insert, ?fn_lookup_insert_ne by done; done.
  - intros i Hi. unfold good, phase_of. cbn. destruct (decide (i = ep)) as [->|Hne].
    + by rewrite !fn_lookup_insert.
    + rewrite !fn_lookup_insert_ne by done. by apply Ho.
Qed.

(** The operations at an endpoint of a system that satisfies the invariant. *)
Lemma receive_moves sy V ep p b l1 l2 :
  counting (sy_started sy) (phase_of sy) (sent_of sy) V (sy_flight sy) →
  (∀ i, i ∈ eps → good sy V i) → sy_flight sy = l1 ++ (ep, p, b) :: l2 →
  moves (sy_started sy) (phase_of sy) (sent_of sy) (counter_add V ep p b (-1)) (l1 ++ l2) ep
    (sy_callbacks sy ep) (sy_done sy ep) (notifyRecv char_signed p b (sy_exec sy ep)).
Proof.
  intros Hct Hg Hfl. rewrite Hfl in Hct.
  destruct (ct_flight _ _ _ _ _ Hct ep p b) as (He&_&_); [set_solver|].
  destruct (Hg ep He) as [Hr Hst]. by apply notifyRecv_spec.
Qed.

Lemma sent_moves sy V ep l1 l2 :
  counting (sy_started sy) (phase_of sy) (sent_of sy) V (sy_flight sy) → ep ∈ eps →
  good sy V ep → sy_callbacks sy ep = l1 ++ NotifySendDone :: l2 →
  l1 ++ l2 = [] ∧
  moves (sy_started sy) (phase_of sy) (sent_of sy) V (sy_flight sy) ep [] (sy_done sy ep)
    (internalNotifySendDone (sy_exec sy ep)).
Proof.
  intros Hct He [Hr Hst] Hcb. rewrite Hcb in Hst. destruct Hst as [(Hl&Hd&Hc)|(_&[[Hc _]|[Hc _]])].
  - destruct (b_senddone _); [destruct Hc as [Hc _]; by destruct l1|].
    split; [destruct l1 as [|? [|]]; by simplify_eq/=|]. rewrite Hd.
    by apply internalNotifySendDone_spec.
  - by destruct l1 as [|? [|]]; simplify_eq/=.
  - by destruct l1.
Qed.

Lemma start_moves sy V ep :
  counting (sy_started sy) (phase_of sy) (sent_of sy) V (sy_flight sy) → ep ∈ eps →
  good sy V ep → sy_done sy ep = sy_started sy ep → sy_callbacks sy ep = [] ∧
  ∃ V', moves (sy_started (with_started sy ep)) (phase_of sy) (sent_of sy) V' (sy_flight sy) ep []
      (sy_done sy ep) (start char_signed (sy_exec sy ep)) ∧
    ∀ i, i ≠ ep → ∀ p b, V' i p b = V i p b.
Proof.
  intros Hct He [Hr Hst] Hd. destruct Hst as [(_&?&_)|(Hl&[[_ ?]|[Hc _]])]; [lia..|].
  split; [done|]. destruct (start_spec char_signed (sy_exec sy ep) ep _ _ _ _ _ Hct He eq_refl Hl Hr)
    as (V'&Hadv&HV). exists V'. split; [|done]. unfold advances in Hadv.
  rewrite fn_lookup_insert in Hadv. by replace (sy_started sy ep + 1 - 1) with (sy_done sy ep) in Hadv by lia.
Qed.

(** When the client is told. *)
Lemma told_good sy V ep l1 l2 : good sy V ep → sy_callbacks sy ep = l1 ++ ClientDone :: l2 →
  l1 ++ l2 = [] ∧ good (after (with_callbacks sy ep []) ep (sy_exec sy ep, [Done])) V ep.
Proof.
  intros [Hr Hst] Hcb. rewrite Hcb in Hst.
  destruct Hst as [(_&_&Hc)|(Hl&[[Hc Hd]|[Hc _]])].
  - destruct (b_senddone _); [destruct Hc as [Hc _]; by destruct l1|].
    by destruct l1 as [|? [|]]; simplify_eq/=.
  - split; [destruct l1 as [|? [|]]; by simplify_eq/=|]. unfold good, phase_of. cbn.
    rewrite !fn_lookup_insert. split; [done|]. right. split; [done|]. right. split; [done|]. lia.
  - by destruct l1.
Qed.

Lemma progress_invariant sy sy' : progress sy sy' → invariant sy → invariant sy'.
Proof.
  intros Hp (V&Hct&Hg). destruct Hp as [sy ep p b l1 l2 out Hfl Hrun|sy ep l1 l2 out He Hcb Hrun|
    sy ep l1 l2 He Hcb].
  - pose proof (receive_moves sy V ep p b l1 l2 Hct Hg Hfl) as Hm. rewrite Hrun in Hm.
    apply (after_invariant (with_flight sy (l1 ++ l2)) _ _ _ Hm).
    intros i Hi Hne. destruct (Hg i Hi) as [Hr Hst].
    assert (HV : ∀ q c, counter_add V ep p b (-1) i q c = V i q c).
    { intros q c. unfold counter_add. rewrite bool_decide_eq_false_2 by naive_solver. lia. }
    split; [by eapply represents_ext; [exact Hr|done|]|].
    unfold BarrierSystem.status. cbn. by rewrite HV.
  - destruct (sent_moves sy V ep l1 l2 Hct He (Hg ep He) Hcb) as [Hnil Hm]. rewrite Hnil, Hrun in *.
    apply (after_invariant (with_callbacks sy ep []) V).
    + cbn. by rewrite fn_lookup_insert.
    + intros i Hi Hne. unfold good, phase_of. cbn. rewrite fn_lookup_insert_ne by done. by apply Hg.
  - destruct (told_good sy V ep l1 l2 (Hg ep He) Hcb) as [-> Hgood]. exists V. split.
    + cbn. rewrite app_nil_r. eapply counting_ext; [exact Hct|done| | |done]; intros i;
        unfold sent_of, phase_of; cbn; destruct (decide (i = ep)) as [->|];
        rewrite ?fn_lookup_insert, ?fn_lookup_insert_ne by done; done.
    + intros i Hi. destruct (decide (i = ep)) as [->|Hne]; [done|].
      unfold good, phase_of. cbn. rewrite !fn_lookup_insert_ne by done. by apply Hg.
Qed.

Lemma step_invariant sy sy' : step sy sy' → invariant sy → invariant sy'.
Proof.
  intros [sy0 ep out He Hd Hrun|sy0 sy1 Hp]; [|by apply progress_invariant].
  intros (V&Hct&Hg). destruct (start_moves sy0 V ep Hct He (Hg ep He) Hd) as [Hcb (V'&Hm&HV)].
  rewrite Hrun in Hm. apply (after_invariant (with_started sy0 ep) V').
  - cbn. by rewrite Hcb.
  - intros i Hi Hne. destruct (Hg i Hi) as [Hr Hst]. unfold good. cbn.
    rewrite !fn_lookup_insert_ne by done. split; [by eapply represents_ext; [exact Hr|done|auto]|].
    unfold BarrierSystem.status. by rewrite HV.
Qed.

(** * Safety *)

Lemma invariant_no_failure sy : invariant sy → ¬ fails char_signed eps sy.
Proof.
  intros (V&Hct&Hg) [ep er He Hd Hrun|ep p b er Hin Hrun|ep er He Hin Hrun].
  - destruct (start_moves sy V ep Hct He (Hg ep He) Hd) as [_ (V'&(?&?&Hok&_)&_)]. congruence.
  - apply list_elem_of_split in Hin as (l1&l2&Hfl).
    destruct (receive_moves sy V ep p b l1 l2 Hct Hg Hfl) as (?&?&Hok&_). congruence.
  - apply list_elem_of_split in Hin as (l1&l2&Hcb).
    destruct (sent_moves sy V ep l1 l2 Hct He (Hg ep He) Hcb) as [_ (?&?&Hok&_)]. congruence.
Qed.

Lemma invariant_safe sy i j : invariant sy → i ∈ eps → j ∈ eps → sy_done sy j ≤ sy_started sy i.
Proof.
  intros (V&Hct&Hg) Hi Hj. pose proof (finished_begun _ _ _ _ _ Hct i j Hi Hj) as Hf.
  destruct (Hg j Hj) as [_ Hst]. unfold BarrierSystem.status in Hst.
  destruct (Z.eqb_spec (phase_of sy j) (last j)); destruct Hst as [(?&?&_)|(?&[[_ ?]|[_ ?]])]; lia.
Qed.

(** * Termination *)

Lemma zsum_lt f g l x : (∀ y, y ∈ l → f y ≤ g y) → x ∈ l → f x < g x → zsum f l < zsum g l.
Proof.
  induction l as [|y l IH]; intros Hle Hx Hlt; [by apply elem_of_nil in Hx|]. cbn.
  pose proof (Hle y ltac:(left)) as Hy.
  assert (Hl : ∀ z, z ∈ l → f z ≤ g z) by (intros z Hz; apply Hle; by right).
  assert (zsum f l ≤ zsum g l).
  { clear -Hl. induction l as [|z l IH]; [done|]. cbn. pose proof (Hl z ltac:(left)).
    enough (zsum f l ≤ zsum g l) by (unfold zsum in *; lia). apply IH. intros w Hw. apply Hl. by right. }
  apply elem_of_cons in Hx as [->|Hx]; [unfold zsum in *; lia|].
  specialize (IH Hl Hx Hlt). unfold zsum in *. lia.
Qed.

(** The phases left, and the messages and callbacks to come. *)
Definition phases_left sy : Z := zsum (λ i, last i - phase_of sy i) eps.
Definition events_left sy : Z :=
  Z.of_nat (length (sy_flight sy)) + zsum (λ i, Z.of_nat (length (sy_callbacks sy i))) eps.

Lemma left_nonneg sy : invariant sy → 0 ≤ phases_left sy ∧ 0 ≤ events_left sy.
Proof.
  intros (V&Hct&_). split.
  - apply zsum_nonneg. intros i Hi. pose proof (ct_phase _ _ _ _ _ Hct i Hi). lia.
  - enough (0 ≤ zsum (λ i, Z.of_nat (length (sy_callbacks sy i))) eps) by (unfold events_left; lia).
    apply zsum_nonneg. lia.
Qed.

Lemma later_phases sy sy' ep : ep ∈ eps → (∀ i, i ≠ ep → phase_of sy' i = phase_of sy i) →
  phase_of sy ep < phase_of sy' ep → phases_left sy' < phases_left sy.
Proof.
  intros He Ho Hlt. apply zsum_lt with ep; [|done|lia]. intros i Hi.
  destruct (decide (i = ep)) as [->|Hne]; [lia|]. by rewrite Ho.
Qed.

Lemma same_phases sy sy' : (∀ i, phase_of sy' i = phase_of sy i) → phases_left sy' = phases_left sy.
Proof. intros Ho. apply zsum_ext. intros i _. by rewrite Ho. Qed.

Lemma fewer_callbacks sy sy' ep : ep ∈ eps → sy_flight sy' = sy_flight sy →
  (∀ i, i ≠ ep → sy_callbacks sy' i = sy_callbacks sy i) →
  (length (sy_callbacks sy' ep) < length (sy_callbacks sy ep))%nat → events_left sy' < events_left sy.
Proof.
  intros He Hfl Ho Hlt. unfold events_left. rewrite Hfl.
  enough (zsum (λ i, Z.of_nat (length (sy_callbacks sy' i))) eps <
    zsum (λ i, Z.of_nat (length (sy_callbacks sy i))) eps) by lia.
  apply zsum_lt with ep; [|done|lia]. intros i Hi.
  destruct (decide (i = ep)) as [->|Hne]; [lia|]. by rewrite Ho.
Qed.

Lemma after_phase sy ep out i : i ≠ ep → phase_of (after sy ep out) i = phase_of sy i.
Proof. intros. unfold phase_of. cbn. by rewrite fn_lookup_insert_ne. Qed.
Lemma after_phase_at sy ep out : phase_of (after sy ep out) ep = b_phase out.1.
Proof. unfold phase_of. cbn. by rewrite fn_lookup_insert. Qed.

Lemma progress_measure sy sy' : invariant sy → progress sy sy' →
  phases_left sy' < phases_left sy ∨
  phases_left sy' = phases_left sy ∧ events_left sy' < events_left sy.
Proof.
  intros (V&Hct&Hg) Hp. destruct Hp as [sy ep p b l1 l2 out Hfl Hrun|sy ep l1 l2 out He Hcb Hrun|
    sy ep l1 l2 He Hcb].
  - destruct (ct_flight _ _ _ _ _ Hct ep p b) as (He&_&_); [rewrite Hfl; set_solver|].
    apply notifyRecv_quiet in Hrun as [[Hph Hev]|Hlt].
    + right. split.
      * apply same_phases. intros i. destruct (decide (i = ep)) as [->|];
          [by rewrite after_phase_at|by rewrite after_phase].
      * unfold events_left. cbn. rewrite Hev, Hfl. cbn. rewrite !length_app. cbn.
        enough (zsum (λ i, Z.of_nat (length ((<[ep:=sy_callbacks sy ep ++ []]> (sy_callbacks sy) : Z → _) i))) eps
          = zsum (λ i, Z.of_nat (length (sy_callbacks sy i))) eps) by lia.
        apply zsum_ext. intros i _. destruct (decide (i = ep)) as [->|];
          [by rewrite fn_lookup_insert, app_nil_r|by rewrite fn_lookup_insert_ne].
    + left. apply later_phases with ep; [done| |by rewrite after_phase_at].
      intros i Hi. by rewrite after_phase.
  - apply internalNotifySendDone_quiet in Hrun as [[Hph Hev]|Hlt].
    + right. split.
      * apply same_phases. intros i. destruct (decide (i = ep)) as [->|];
          [by rewrite after_phase_at|by rewrite after_phase].
      * apply fewer_callbacks with ep; [done|cbn; rewrite Hev; apply app_nil_r| |].
        -- intros i Hi. cbn. by rewrite !fn_lookup_insert_ne.
        -- cbn. rewrite !fn_lookup_insert, Hev, Hcb. cbn. rewrite app_nil_r, !length_app. cbn. lia.
    + left. apply later_phases with ep; [done| |by rewrite after_phase_at].
      intros i Hi. by rewrite after_phase.
  - right. split.
    + apply same_phases. intros i. destruct (decide (i = ep)) as [->|];
        [by rewrite after_phase_at|by rewrite after_phase].
    + apply fewer_callbacks with ep; [done|cbn; apply app_nil_r| |].
      * intros i Hi. cbn. by rewrite !fn_lookup_insert_ne.
      * cbn. rewrite !fn_lookup_insert, Hcb. cbn. rewrite app_nil_r, !length_app. cbn. lia.
Qed.

Lemma progress_terminates sy : invariant sy → sn progress sy.
Proof.
  remember (Z.to_nat (phases_left sy)) as a eqn:Ha. revert sy Ha.
  induction a as [a IHa] using lt_wf_ind. intros sy Ha.
  remember (Z.to_nat (events_left sy)) as b eqn:Hb. revert sy Ha Hb.
  induction b as [b IHb] using lt_wf_ind. intros sy Ha Hb Hinv. constructor. intros sy' Hp.
  pose proof (progress_invariant sy sy' Hp Hinv) as Hinv'.
  pose proof (left_nonneg sy Hinv) as [H1 H2]. pose proof (left_nonneg sy' Hinv') as [H3 H4].
  destruct (progress_measure sy sy' Hinv Hp) as [Hlt|[Heq Hlt]].
  - by apply (IHa (Z.to_nat (phases_left sy')) ltac:(lia) sy').
  - apply (IHb (Z.to_nat (events_left sy')) ltac:(lia) sy'); [by rewrite Heq|done|done].
Qed.

(** ** Where nothing goes on *)

Lemma stuck_quiet sy : invariant sy → (∀ sy', ¬ progress sy sy') →
  sy_flight sy = [] ∧ ∀ i, i ∈ eps → sy_callbacks sy i = [].
Proof.
  intros Hinv Hstuck. pose proof (invariant_no_failure sy Hinv) as Hnf. split.
  - destruct (sy_flight sy) as [|[[ep p] b] fl] eqn:Hfl; [done|]. exfalso.
    destruct (notifyRecv char_signed p b (sy_exec sy ep)) as [out|er] eqn:Hrun.
    + by eapply Hstuck, (progress_receive _ _ sy ep p b [] fl).
    + apply Hnf. eapply fails_receive; [|exact Hrun]. rewrite Hfl. left.
  - intros i Hi. destruct (sy_callbacks sy i) as [|cb cbs] eqn:Hcb; [done|]. exfalso. destruct cb.
    + destruct (internalNotifySendDone (sy_exec sy i)) as [out|er] eqn:Hrun.
      * by eapply Hstuck, (progress_sent _ _ sy i [] cbs).
      * apply Hnf. eapply fails_sent; [exact Hi| |exact Hrun]. rewrite Hcb. left.
    + by eapply Hstuck, (progress_done _ _ sy i [] cbs).
Qed.

Lemma stuck_done sy k : invariant sy → (∀ sy', ¬ progress sy sy') →
  (∀ i, i ∈ eps → sy_started sy i = k) → ∀ i, i ∈ eps → sy_done sy i = k.
Proof.
  intros Hinv Hstuck Hk. destruct (stuck_quiet sy Hinv Hstuck) as [Hfl Hcb].
  destruct Hinv as (V&Hct&Hg). rewrite Hfl in Hct.
  assert (Hall : ∀ n j, j ∈ eps → phase_of sy j < last j → Z.to_nat (phase_of sy j) = n → False).
  { intros n. induction n as [n IH] using lt_wf_ind. intros j Hj Hl Hn.
    pose proof (ct_phase _ _ _ _ _ Hct j Hj) as Hph. pose proof (bs_range j Hj) as [Hr _].
    destruct (Hg j Hj) as [_ Hst]. rewrite (Hcb j Hj) in Hst.
    destruct Hst as [(_&_&Hst)|[? _]]; [|lia].
    destruct (b_senddone _); [destruct Hst as [_ Hv]|done].
    destruct (waits_for_someone _ _ _ _ j _ Hct Hj eq_refl Hl Hv) as (i&Hi&Hlt).
    destruct (src_in j _ i Hj Hi) as [Hie Hia]. rewrite (Hk i Hie), (Hk j Hj) in Hlt.
    destruct Hlt as [?|[_ Hs]]; [lia|]. unfold sent_of, BarrierSystem.sent_bound in Hs.
    pose proof (ct_phase _ _ _ _ _ Hct i Hie) as Hphi. pose proof (bs_range i Hie) as [Hri _].
    by eapply (IH (Z.to_nat (phase_of sy i))); [lia|exact Hie|lia|]. }
  intros i Hi. destruct (Hg i Hi) as [_ Hst]. rewrite (Hcb i Hi), (Hk i Hi) in Hst.
  destruct Hst as [(Hl&_&_)|(_&[[? _]|[_ ?]])]; [|done|done].
  exfalso. by eapply Hall.
Qed.

Lemma progress_started sy sy' : rtc progress sy sy' → ∀ i, sy_started sy' i = sy_started sy i.
Proof.
  induction 1 as [|sy sy1 sy' Hp _ IH]; intros i; [done|]. rewrite IH. by destruct Hp.
Qed.

Lemma progress_rtc_invariant sy sy' : rtc progress sy sy' → invariant sy → invariant sy'.
Proof. induction 1; eauto using progress_invariant. Qed.

Lemma step_rtc_invariant sy sy' : rtc step sy sy' → invariant sy → invariant sy'.
Proof. induction 1; eauto using step_invariant. Qed.

(** * The beginning *)

Lemma initial_invariant sy : sy_flight sy = [] →
  (∀ i, i ∈ eps → sy_started sy i = 0 ∧ sy_done sy i = 0 ∧ sy_callbacks sy i = [] ∧
    phase_of sy i = last i ∧ represents (sy_exec sy i) i 0 (λ _ _, 0)) → invariant sy.
Proof.
  intros Hfl Hi. exists (λ _ _ _, 0). split.
  - assert (Hs : ∀ j, j ∈ eps → sent_of sy j = last j).
    { intros j Hj. destruct (Hi j Hj) as (_&_&_&Hp&_). unfold sent_of, BarrierSystem.sent_bound. lia. }
    split.
    + intros j Hj. destruct (Hi j Hj) as (->&_&_&->&_). done.
    + intros j Hj. rewrite (Hs j Hj). destruct (Hi j Hj) as (_&_&_&->&_).
      pose proof (bs_range j Hj). lia.
    + intros j p b Hj Hp Hb. rewrite Hfl.
      rewrite (zsum_ext _ (λ _, 0)).
      * pose proof (zsum_bounds (λ _, 0) (src j p) 0 0 ltac:(done)). unfold in_flight. cbn. lia.
      * intros i Hin. destruct (src_in j p i Hj Hin) as [Hie Hia]. unfold owed, level.
        rewrite (Hs i Hie), (proj2 (Z.ltb_lt _ _)) by lia.
        destruct (Hi j Hj) as (->&_), (Hi i Hie) as (->&_). lia.
    + intros j p i Hj Hp Hin. destruct (src_in j p i Hj Hin) as [Hie Hia]. unfold level.
      rewrite (Hs i Hie), (proj2 (Z.ltb_lt _ (last i))) by lia.
      destruct (Hi j Hj) as (->&_), (Hi i Hie) as (->&_). destruct (_ <? _); lia.
    + lia.
    + lia.
    + intros d p b Hin. rewrite Hfl in Hin. by apply elem_of_nil in Hin.
  - intros i Hie. destruct (Hi i Hie) as (Hst&Hd&Hc&Hp&Hr). unfold good.
    rewrite Hst, Hd, Hc. split; [done|]. right. split; [done|]. by right.
Qed.
End invariant.
