(* ===== verification/MultinomialSpec.v ===== *)
(** What a multinomial schedule is, apart from maps and phase codes: a power of two of
    masters that exchange with their peers, and endpoints behind each master; and that
    MultinomialTree.h computes it from any map that describes such a layout. *)
From S2P Require Import Prelude.
From S2P Require Import Topology.
From S2P Require Import Schedule.
From S2P Require Import MultinomialMap.
From S2P Require Import MultinomialTree.

#[local] Opaque w32 w64.

(** * Layouts *)

Record layout := mkLayout { masters : list Z; auxes : list (list Z) }.

Definition members (L : layout) : list Z := masters L ++ mjoin (auxes L).
Definition master (L : layout) (i : Z) : Z := default 0 (masters L !! Z.to_nat i).
Definition auxes_of (L : layout) (i : Z) : list Z := default [] (auxes L !! Z.to_nat i).

Record layout_ok (L : layout) (c : Z) : Prop := {
  lo_size : 0 ≤ c ≤ 30;
  lo_masters : Z.of_nat (length (masters L)) = 2 ^ c;
  lo_auxes : Z.of_nat (length (auxes L)) = 2 ^ c;
  lo_NoDup : NoDup (members L);
  lo_few i : Z.of_nat (length (auxes_of L i)) ≤ 127
}.

(** Where an endpoint is. *)
Inductive site := Master (i : Z) | Aux (i : Z).

Definition at_site (L : layout) (c : Z) (σ : site) (ep : Z) : Prop :=
  match σ with
  | Master i => 0 ≤ i < 2 ^ c ∧ master L i = ep
  | Aux i => 0 ≤ i < 2 ^ c ∧ ep ∈ auxes_of L i
  end.

(** The map of the endpoint at a site describes the layout. *)
Record describes {M} `{MultinomialMap M} (mapping : Mapping) (s : arrays) (L : layout) (c : Z)
    (σ : site) (m : M) : Prop := {
  ds_ranks : getNumRanks m ≠ 0 ∧ count_halvings (getNumRanks m) = c;
  ds_has_aux : hasAuxPhases m = bool_decide (mjoin (auxes L) ≠ []);
  ds_global i : 0 ≤ i < 2 ^ c → getGlobalRank mapping s i m = Ok (master L i);
  ds_is_aux : isAuxProc m = match σ with Aux _ => true | Master _ => false end;
  ds_rank i : σ = Master i → getMyRank m = i;
  ds_is_peer : isPeerProc m =
    match σ with Master i => bool_decide (auxes_of L i ≠ []) | Aux _ => false end;
  ds_aux_for_peer i : σ = Master i → auxes_of L i ≠ [] → ∃ ranks,
    getAuxForPeer m = Ok ranks ∧ length ranks = length (auxes_of L i) ∧
    mapM (λ r, getGlobalRank mapping s r m) ranks = Ok (auxes_of L i);
  ds_peer_for_aux i : σ = Aux i → getPeerForAux m = Ok i
}.

(** * The plan *)

(** The other masters a master exchanges with in a phase: those that differ in one digit of
    base [2 ^ lr]. *)
Definition peers (lr i p : Z) : list Z :=
  map (λ r, Z.lxor i (Z.shiftl r ((p - 1) * lr))) (seqZ 1 (2 ^ lr - 1)).

Definition is_op (op : Z) : Prop :=
  op = BARRIER_OP ∨ op = ALLREDUCE_OP ∨ op = REDUCE_OP ∨ op = BROADCAST_OP.

(** Whether the endpoints behind a master send to it first, and hear from it last. *)
Definition collects (op : Z) : bool := negb (op =? BROADCAST_OP).
Definition returns (op : Z) : bool := negb (op =? REDUCE_OP).

(** Whether master [i] sends, and receives, in phase [p] of the tree. *)
Definition tree_sends (op i p : Z) : bool :=
  if op =? REDUCE_OP then negb (i =? 0) && (p =? ffs i)
  else if op =? BROADCAST_OP then (i =? 0) || (Z.log2 i + 1 <? p)
  else true.
Definition tree_receives (op i p : Z) : bool :=
  if op =? REDUCE_OP then (i =? 0) || (p <? ffs i)
  else if op =? BROADCAST_OP then negb (i =? 0) && (p =? Z.log2 i + 1)
  else true.

Section plan.
Context (L : layout) (lr nb op : Z).

Definition in_tree (p : Z) : bool := (1 <=? p) && (p <=? nb).

Definition plan_src (σ : site) (p : Z) : list Z :=
  match σ with
  | Master i =>
      if p =? 0 then if collects op then auxes_of L i else []
      else if in_tree p && tree_receives op i p then map (master L) (peers lr i p) else []
  | Aux i => if (p =? nb + 1) && returns op then [master L i] else []
  end.

Definition plan_dst (σ : site) (p : Z) : list Z :=
  match σ with
  | Master i =>
      if p =? nb + 1 then if returns op then auxes_of L i else []
      else if in_tree p && tree_sends op i p then map (master L) (peers lr i p) else []
  | Aux i => if (p =? 0) && collects op then [master L i] else []
  end.

Definition has_aux (i : Z) : bool := bool_decide (auxes_of L i ≠ []).

(** The first phase, and the one after the last. *)
Definition plan_first (σ : site) : Z :=
  match σ with
  | Master i =>
      if (op =? BROADCAST_OP) then if i =? 0 then 1 else Z.log2 i + 1
      else if has_aux i then 0 else 1
  | Aux _ => if op =? BROADCAST_OP then nb + 1 else 0
  end.

Definition plan_last (σ : site) : Z :=
  match σ with
  | Master i =>
      if op =? REDUCE_OP then if i =? 0 then nb + 1 else ffs i + 1
      else if has_aux i then nb + 2 else nb + 1
  | Aux _ => if op =? REDUCE_OP then 1 else nb + 2
  end.

(** What [setupContext] should give. *)
Definition plan_phases (σ : site) : phases :=
  let context := mkPhases (plan_first σ) (plan_last σ - plan_first σ) in
  match σ with
  | Master i =>
      let aux (b : bool) p := if has_aux i && b then p else NO_PHASES in
      let tree send recv :=
        context send recv (aux (returns op) (nb + 1)) (aux (collects op) 0) UNDEFINED_PHASE in
      if op =? REDUCE_OP then
        if i =? 0 then tree NO_PHASES ALL_PHASES else tree (ffs i) NOT_SEND_PHASE
      else if op =? BROADCAST_OP then
        if i =? 0 then tree ALL_PHASES NO_PHASES else tree NOT_RECV_PHASE (Z.log2 i + 1)
      else tree ALL_PHASES ALL_PHASES
  | Aux _ =>
      context NO_PHASES NO_PHASES (if collects op then 0 else NO_PHASES)
        (if returns op then nb + 1 else NO_PHASES)
        (if op =? ALLREDUCE_OP then nb else UNDEFINED_PHASE)
  end.
End plan.

(** * Arithmetic *)

Lemma phase_codes : UNDEFINED_PHASE = 2 ^ 32 - 1 ∧ ALL_PHASES = 2 ^ 32 - 2 ∧
  NO_PHASES = 2 ^ 32 - 3 ∧ NOT_RECV_PHASE = 2 ^ 32 - 4 ∧ NOT_SEND_PHASE = 2 ^ 32 - 4.
Proof. done. Qed.

Lemma halvings_log2 fuel i : 1 ≤ i < 2 ^ Z.of_nat fuel → halvings fuel i = Z.log2 i.
Proof.
  revert i. induction fuel as [|fuel IH]; intros i Hi; [cbn in Hi; lia|]. cbn [halvings].
  destruct (Z.ltb_spec 1 i).
  - rewrite Nat2Z.inj_succ, Z.pow_succ_r in Hi by lia.
    rewrite IH by (rewrite Z.shiftr_div_pow2 by lia; change (2 ^ 1) with 2; Z.div_mod_to_equations; lia).
    rewrite Z.log2_shiftr by lia. pose proof (Z.log2_le_mono 2 i ltac:(lia)) as Hl.
    change (Z.log2 2) with 1 in Hl. lia.
  - by replace i with 1 by lia.
Qed.

Lemma count_halvings_log2 n : 1 ≤ n < 2 ^ 32 → count_halvings n = Z.log2 n.
Proof. intros. by apply halvings_log2. Qed.

Lemma int_power_Ok n : 0 ≤ n ≤ 30 → int_power n = Ok (2 ^ n).
Proof.
  intros Hn. unfold int_power. rewrite (proj2 (Z.leb_le 0 n)), (proj2 (Z.ltb_lt n 31)) by lia.
  cbn [andb defined]. by rewrite Ok_bind, Z.shiftl_1_l.
Qed.

(** The lowest bit that is set. *)
Lemma pos_ffs_spec p : 1 ≤ pos_ffs p ∧ Z.testbit (Zpos p) (pos_ffs p - 1) = true ∧
  ∀ k, 0 ≤ k < pos_ffs p - 1 → Z.testbit (Zpos p) k = false.
Proof.
  induction p as [p IH|p IH|]; cbn [pos_ffs]; [| |].
  - split; [lia|]. split; [done|lia].
  - destruct IH as (H1&Hb&Hlow). split; [lia|]. change (Zpos p~0) with (2 * Zpos p). split.
    + replace (1 + pos_ffs p - 1) with (Z.succ (pos_ffs p - 1)) by lia.
      rewrite Z.testbit_even_succ by lia. done.
    + intros k Hk. destruct (decide (k = 0)) as [->|]; [by rewrite Z.testbit_even_0|].
      replace k with (Z.succ (k - 1)) by lia. rewrite Z.testbit_even_succ by lia. apply Hlow. lia.
  - split; [lia|]. split; [done|lia].
Qed.

Lemma ffs_spec i : 0 < i → 1 ≤ ffs i ∧ Z.testbit i (ffs i - 1) = true ∧
  ∀ k, 0 ≤ k < ffs i - 1 → Z.testbit i k = false.
Proof. intros Hi. destruct i; try lia. apply pos_ffs_spec. Qed.

Lemma ffs_unique i p : 0 < i → 1 ≤ p → Z.testbit i (p - 1) = true →
  (∀ k, 0 ≤ k < p - 1 → Z.testbit i k = false) → ffs i = p.
Proof.
  intros Hi Hp Hb Hlow. destruct (ffs_spec i Hi) as (H1&Hb'&Hlow').
  destruct (Z.lt_trichotomy (ffs i) p) as [H|[H|H]]; [|done|].
  - rewrite Hlow in Hb' by lia. done.
  - rewrite Hlow' in Hb by lia. done.
Qed.

Lemma testbit_high i c k : 0 ≤ i < 2 ^ c → c ≤ k → Z.testbit i k = false.
Proof.
  intros Hi Hk. destruct (decide (i = 0)) as [->|]; [apply Z.bits_0|].
  apply Z.bits_above_log2; [lia|]. enough (Z.log2 i < c) by lia.
  apply Z.log2_lt_pow2; lia.
Qed.

Lemma ffs_bound i c : 0 < i < 2 ^ c → ffs i ≤ c.
Proof.
  intros Hi. destruct (ffs_spec i) as (H1&Hb&_); [lia|].
  destruct (Z.le_gt_cases (ffs i) c) as [|Hgt]; [done|].
  rewrite (testbit_high i c) in Hb by lia. done.
Qed.

Lemma log_loop_log2 fuel d n m : 0 ≤ n → d = 2 ^ n → 2 ^ n < 2 * m → 0 < m ≤ 2 ^ 30 →
  Z.log2_up m - n < Z.of_nat fuel → n ≤ Z.log2_up m →
  log_loop fuel 2 m d n = Ok (Z.log2_up m).
Proof.
  revert d n. induction fuel as [|fuel IH]; intros d n Hn -> Hlt Hm Hf Hle; [lia|]. cbn [log_loop].
  destruct (Z.ltb_spec (2 ^ n) m) as [Hd|Hd].
  - rewrite (proj2 (Z.ltb_lt _ _)) by lia. cbn [defined]. rewrite Ok_bind.
    pose proof (Z.log2_up_le_mono (2 ^ n + 1) m ltac:(lia)) as Hmono.
    replace (2 ^ n + 1) with (Z.succ (2 ^ n)) in Hmono by lia.
    rewrite Z.log2_up_succ_pow2 in Hmono by done.
    apply IH; try lia; rewrite Z.pow_add_r by lia; lia.
  - unfold mret, res_ret. f_equal. pose proof (Z.log2_up_le_mono m (2 ^ n) ltac:(lia)) as Hmono.
    rewrite Z.log2_up_pow2 in Hmono by done. lia.
Qed.

(** The radix divides the number of binary phases. *)
Lemma getMaxPhases_spec T n : n ≠ 0 → 0 ≤ count_halvings n → ∃ lr nb,
  getRadix T n = 2 ^ lr ∧ 1 ≤ lr ≤ 3 ∧ (T < 4 → lr = 1) ∧
  (if getRadix T n =? 8 then 3 else if getRadix T n =? 4 then 2 else 1) = lr ∧
  getMaxPhases T n = (nb + 1, nb) ∧ 0 ≤ nb ∧ nb * lr = count_halvings n.
Proof.
  intros Hn Hc. unfold getMaxPhases. rewrite (proj2 (Z.eqb_neq n 0)) by done. unfold getRadix.
  rewrite Z.land_ones with (n := 1) by lia. change (2 ^ 1) with 2.
  destruct (Z.leb_spec 8 T), (Z.leb_spec n 4096), (Z.eqb_spec (count_halvings n mod 3) 0); cbn [andb];
    try (exists 3, (count_halvings n / 3); repeat split; try done; Z.div_mod_to_equations; lia);
    (destruct (Z.leb_spec 4 T), (Z.eqb_spec (count_halvings n mod 2) 0); cbn [andb];
      [exists 2, (count_halvings n / 2); repeat split; try done; Z.div_mod_to_equations; lia| | |];
      exists 1, (count_halvings n); repeat split; try done; lia).
Qed.

Lemma mapM_Ok {A B} (f : A → res B) (g : A → B) l : (∀ x, x ∈ l → f x = Ok (g x)) →
  mapM f l = Ok (map g l).
Proof.
  induction l as [|x l IH]; intros Hf; [done|]. cbn. rewrite (Hf x) by left.
  rewrite Ok_bind, IH by (intros y Hy; apply Hf; by right). done.
Qed.

Lemma bits_bounded x c : 0 ≤ c → 0 ≤ x → (∀ k, c ≤ k → Z.testbit x k = false) → 0 ≤ x < 2 ^ c.
Proof.
  intros Hc Hx Hk. enough (x = x mod 2 ^ c) as -> by (apply Z.mod_pos_bound, Z.pow_pos_nonneg; lia).
  apply Z.bits_inj'. intros k Hk0. destruct (Z.lt_ge_cases k c).
  - by rewrite Z.mod_pow2_bits_low.
  - rewrite Z.mod_pow2_bits_high by lia. by apply Hk.
Qed.

Lemma peer_bound lr nb i p r : 0 ≤ lr → 1 ≤ p ≤ nb → 0 ≤ i < 2 ^ (nb * lr) → 0 ≤ r < 2 ^ lr →
  0 ≤ Z.shiftl r ((p - 1) * lr) < 2 ^ (nb * lr) ∧
  0 ≤ Z.lxor i (Z.shiftl r ((p - 1) * lr)) < 2 ^ (nb * lr).
Proof.
  intros Hlr Hp Hi Hr. assert (Hs : 0 ≤ Z.shiftl r ((p - 1) * lr) < 2 ^ (nb * lr)).
  { rewrite Z.shiftl_mul_pow2 by nia. split; [apply Z.mul_nonneg_nonneg; [lia|apply Z.pow_nonneg; lia]|].
    apply Z.lt_le_trans with (2 ^ lr * 2 ^ ((p - 1) * lr)).
    - apply Z.mul_lt_mono_pos_r; [apply Z.pow_pos_nonneg; nia|lia].
    - rewrite <- Z.pow_add_r by nia. apply Z.pow_le_mono_r; nia. }
  split; [done|]. assert (0 ≤ nb * lr) by nia. apply bits_bounded; [done|apply Z.lxor_nonneg; lia|].
  intros k Hk. rewrite Z.lxor_spec, !(testbit_high _ (nb * lr)) by done. done.
Qed.

(** * The code computes the plan *)

Lemma log2_bound i c : 0 < i < 2 ^ c → Z.log2 i + 1 ≤ c.
Proof. intros Hi. pose proof (proj1 (Z.log2_lt_pow2 i c ltac:(lia))). lia. Qed.

Section tree.
Context {M : Type} `{MultinomialMap M} (mapping : Mapping) (s : arrays).
Context (L : layout) (lr nb op : Z).
Context (HL : layout_ok L (nb * lr)) (Hlr : 1 ≤ lr ≤ 3) (Hnb : 0 ≤ nb) (Hop : is_op op).
(** Trees of a radix above 2 are for barriers and allreduces. *)
Context (Hradix : is_barrier_or_allreduce op = true ∨ lr = 1).

Lemma nb_bound : nb ≤ 30.
Proof. pose proof (lo_size _ _ HL). nia. Qed.

(** The members of the tree that the constructor sets. *)
Record planned (σ : site) (t : MultinomialTreeT M) : Prop := {
  pl_maxphases : _maxphases t = nb + 1 + Z.b2z (bool_decide (mjoin (auxes L) ≠ []));
  pl_nphbino : _nphbino t = nb;
  pl_radix : _radix t = 2 ^ lr;
  pl_logradix : _logradix t = lr;
  pl_map : describes mapping s L (nb * lr) σ (_map t)
}.

Lemma has_aux_join i : has_aux L i = true → bool_decide (mjoin (auxes L) ≠ []) = true.
Proof.
  unfold has_aux, auxes_of. intros Ha. apply bool_decide_eq_true_2.
  apply bool_decide_eq_true_1 in Ha. intros Hnil. apply Ha.
  destruct (auxes L !! Z.to_nat i) as [l|] eqn:Hl; [|done]. cbn.
  destruct l as [|x l]; [done|]. exfalso.
  assert (x ∈ mjoin (auxes L)) as Hx.
  { apply list_elem_of_join. exists (x :: l). split; [left|by eapply list_elem_of_lookup_2]. }
  rewrite Hnil in Hx. by apply elem_of_nil in Hx.
Qed.

Lemma site_aux i ep : at_site L (nb * lr) (Aux i) ep → has_aux L i = true.
Proof.
  intros [_ Hin]. apply bool_decide_eq_true_2. intros Hnil. rewrite Hnil in Hin.
  by apply elem_of_nil in Hin.
Qed.

Ltac small := repeat match goal with |- context [w32 ?x] => rewrite (w32_small x) by lia end.

(** A case per operation. *)
Ltac ops := destruct Hop as [Ho|[Ho|[Ho|Ho]]]; rewrite ?Ho in *;
  cbn [is_barrier_or_allreduce orb andb negb collects returns Z.eqb Pos.eqb BARRIER_OP ALLREDUCE_OP
    REDUCE_OP BROADCAST_OP] in *.

Lemma ffs_in_tree i : lr = 1 → 0 ≤ i < 2 ^ (nb * lr) → i ≠ 0 → 1 ≤ ffs i ≤ nb.
Proof.
  intros H1 Hi H0. rewrite H1, Z.mul_1_r in Hi. pose proof (ffs_bound i nb). pose proof (ffs_spec i). lia.
Qed.

Lemma log_loop_spec i : lr = 1 → 0 ≤ i < 2 ^ (nb * lr) → i ≠ 0 →
  log_loop 32 (2 ^ lr) (i + 1) 1 0 = Ok (Z.log2 i + 1) ∧ 0 ≤ Z.log2 i < nb.
Proof.
  intros H1 Hi H0. pose proof nb_bound as Hnb30. rewrite H1, Z.mul_1_r in *.
  pose proof (log2_bound i nb ltac:(lia)). pose proof (Z.log2_nonneg i). split; [|lia].
  assert (Z.log2_up (i + 1) = Z.log2 i + 1) as Hup.
  { rewrite Z.log2_up_eqn by lia. by replace (Z.pred (i + 1)) with i by lia. }
  rewrite <- Hup.
  pose proof (Z.pow_le_mono_r 2 nb 30).
  change (2 ^ 1) with 2. apply log_loop_log2; unfold Z.succ in *; lia.
Qed.

Lemma setupContext_spec σ ep t : at_site L (nb * lr) σ ep → planned σ t → _op t = op →
  setupContext t = Ok (plan_phases L nb op σ).
Proof.
  intros Hsite [Hmax Hbino Hrad Hlog Hmap] Hopt. pose proof nb_bound as Hnb30.
  unfold setupContext, peer_context, aux_context, tree_context.
  rewrite (ds_is_aux _ _ _ _ _ _ Hmap), (ds_is_peer _ _ _ _ _ _ Hmap), Hopt, Hmax, Hbino.
  unfold plan_phases, plan_first, plan_last.
  destruct σ as [i|i]; cbn [_nphases _startphase _sendph _recvph _auxsendph _auxrecvph _lastrdcph].
  - rewrite (ds_rank _ _ _ _ _ _ Hmap i), Hrad by done. fold (has_aux L i).
    destruct Hsite as [Hi _]. pose proof (has_aux_join i) as Hpeer.
    pose proof (ffs_in_tree i) as Hffs. pose proof (log_loop_spec i) as Hlog2.
    assert (Hlr1 : is_barrier_or_allreduce op = false → lr = 1) by (destruct Hradix; congruence).
    ops; destruct (has_aux L i); try rewrite (Hpeer eq_refl);
      cbn [is_barrier_or_allreduce Z.b2z _nphases _startphase _sendph _recvph _auxsendph _auxrecvph
        _lastrdcph andb];
      try (destruct (Z.eqb_spec i 0); [|specialize (Hffs (Hlr1 eq_refl) Hi ltac:(done));
        destruct (Hlog2 (Hlr1 eq_refl) Hi ltac:(done)) as [Hlog2' ?]; rewrite ?Hlog2', ?Ok_bind]);
      small; unfold mret, res_ret; do 2 f_equal; lia.
  - pose proof (has_aux_join i (site_aux i ep Hsite)) as ->.
    ops; cbn [is_barrier_or_allreduce Z.b2z _nphases _startphase _sendph _recvph _auxsendph _auxrecvph
        _lastrdcph andb];
      small; unfold mret, res_ret; do 2 f_equal; lia.
Qed.

(** A phase of the tree or one of the two others. *)
Definition receives_in (σ : site) (p : Z) : bool :=
  match σ with
  | Master i => (p =? 0) && (collects op && has_aux L i) || in_tree nb p && tree_receives op i p
  | Aux i => (p =? nb + 1) && returns op
  end.
Definition sends_in (σ : site) (p : Z) : bool :=
  match σ with
  | Master i => (p =? nb + 1) && (returns op && has_aux L i) || in_tree nb p && tree_sends op i p
  | Aux i => (p =? 0) && collects op
  end.

(** Takes a boolean equation over comparisons apart. *)
Ltac compare_all :=
  repeat match goal with
  | |- context [Z.eqb ?a ?b] => destruct (Z.eqb_spec a b)
  | |- context [Z.leb ?a ?b] => destruct (Z.leb_spec a b)
  | |- context [Z.ltb ?a ?b] => destruct (Z.ltb_spec a b)
  end; cbn [andb orb negb]; try reflexivity; try lia.

Lemma plan_bounds σ ep p : at_site L (nb * lr) σ ep →
  plan_first L nb op σ ≤ p < plan_last L nb op σ → 0 ≤ p ≤ nb + 1.
Proof.
  intros Hsite. unfold plan_first, plan_last.
  destruct σ as [i|i]; [|ops; lia]. destruct Hsite as [Hi _].
  pose proof (ffs_in_tree i) as Hffs. pose proof (log_loop_spec i) as Hlog2.
  assert (Hlr1 : is_barrier_or_allreduce op = false → lr = 1) by (destruct Hradix; congruence).
  pose proof (Z.log2_nonneg i).
  ops; destruct (has_aux L i); destruct (Z.eqb_spec i 0); try lia;
    specialize (Hffs (Hlr1 eq_refl) Hi ltac:(done)); lia.
Qed.

Lemma receives_spec σ ep t p : at_site L (nb * lr) σ ep → planned σ t →
  _phases t = plan_phases L nb op σ → plan_first L nb op σ ≤ p < plan_last L nb op σ →
  receives t p = receives_in σ p.
Proof.
  intros Hsite [_ Hbino _ _ _] Hph Hp. pose proof (plan_bounds σ ep p Hsite Hp) as Hpb.
  pose proof nb_bound. destruct phase_codes as (Hun&Hall&Hno&Hnr&Hns).
  unfold receives. rewrite Hph, Hbino. unfold receives_in, plan_phases, in_tree, tree_receives in *.
  revert Hp. unfold plan_first, plan_last. destruct σ as [i|i]; [destruct Hsite as [Hi _]|];
  ops; try (destruct (has_aux L i)); cbn [andb]; try (destruct (Z.eqb_spec i 0)); intros Hp;
    cbn [_sendph _recvph _auxsendph _auxrecvph]; rewrite ?Hall, ?Hno, ?Hnr, ?Hns.
  all: compare_all.
Qed.

Lemma sends_spec σ ep t p : at_site L (nb * lr) σ ep → planned σ t →
  _phases t = plan_phases L nb op σ → plan_first L nb op σ ≤ p < plan_last L nb op σ →
  sends t p = sends_in σ p.
Proof.
  intros Hsite [_ Hbino _ _ _] Hph Hp. pose proof (plan_bounds σ ep p Hsite Hp) as Hpb.
  pose proof nb_bound. destruct phase_codes as (Hun&Hall&Hno&Hnr&Hns).
  unfold sends. rewrite Hph, Hbino. unfold sends_in, plan_phases, in_tree, tree_sends in *.
  revert Hp. unfold plan_first, plan_last. destruct σ as [i|i]; [destruct Hsite as [Hi _]|];
  ops; try (destruct (has_aux L i)); cbn [andb]; try (destruct (Z.eqb_spec i 0)); intros Hp;
    cbn [_sendph _recvph _auxsendph _auxrecvph]; rewrite ?Hall, ?Hno, ?Hnr, ?Hns.
  all: compare_all.
  all: exfalso; destruct Hradix as [?|Hone]; [done|];
    pose proof (ffs_in_tree i Hone Hi ltac:(done)); lia.
Qed.

(** The peers of a master. *)
Lemma BINO_spec i p : 1 ≤ p ≤ nb → 0 ≤ i < 2 ^ (nb * lr) →
  BINO i (w32 (p - 1)) (2 ^ lr) lr = Ok (peers lr i p).
Proof.
  intros Hp Hi. pose proof nb_bound. pose proof (lo_size _ _ HL) as Hc. unfold BINO.
  rewrite (w32_small (p - 1)) by lia. apply mapM_Ok. intros r Hr%elem_of_seqZ.
  assert (0 ≤ (p - 1) * lr ≤ 30) by nia.
  rewrite (proj2 (Z.ltb_lt _ _)) by lia. cbn [defined]. rewrite Ok_bind.
  pose proof (peer_bound lr nb i p r ltac:(lia) Hp Hi ltac:(lia)) as [Hs _].
  pose proof (Z.pow_le_mono_r 2 (nb * lr) 30).
  rewrite (w32_small ((p - 1) * lr)), w32_small by lia. done.
Qed.

Lemma peers_range i p : 1 ≤ p ≤ nb → 0 ≤ i < 2 ^ (nb * lr) →
  Forall (λ j, 0 ≤ j < 2 ^ (nb * lr)) (peers lr i p).
Proof using Hlr Hnb.
  clear -Hlr Hnb.
  intros Hp Hi. apply Forall_forall. intros j Hj. unfold peers in Hj.
  apply list_elem_of_fmap in Hj as (r&->&Hr%elem_of_seqZ).
  apply peer_bound; lia.
Qed.

Lemma peers_length_bound i p : 1 ≤ Z.of_nat (length (peers lr i p)) ≤ 7.
Proof using Hlr.
  clear -Hlr.
  unfold peers. rewrite length_map, length_seqZ. assert (lr = 1 ∨ lr = 2 ∨ lr = 3) as [->|[->| ->]] by lia; cbn; lia.
Qed.

(** Ranks of the tree, replaced by the endpoints of the masters. *)
Lemma fill_masters σ t cap l : planned σ t → Z.of_nat (length l) ≤ cap →
  Forall (λ j, 0 ≤ j < 2 ^ (nb * lr)) l → fill mapping s t cap l = Ok (map (master L) l).
Proof.
  intros [_ _ _ _ Hmap] Hcap Hl. unfold fill. rewrite (proj2 (Z.leb_le _ _)) by lia.
  cbn [defined]. rewrite Ok_bind. apply mapM_Ok. intros j Hj.
  apply (ds_global _ _ _ _ _ _ Hmap). by eapply Forall_forall in Hl.
Qed.

Lemma fill_nil t cap : 0 ≤ cap → fill mapping s t cap [] = Ok [].
Proof. intros Hcap. unfold fill. by rewrite (proj2 (Z.leb_le _ _)) by (cbn; lia). Qed.

Lemma tree_step i ep t p cap (parent : bool) : at_site L (nb * lr) (Master i) ep → planned (Master i) t →
  _phases t = plan_phases L nb op (Master i) → in_tree nb p = true → 127 ≤ cap →
  (nodes ← NEXT_NODES t parent p; fill mapping s t cap nodes) =
    Ok (map (master L) (peers lr i p)).
Proof.
  intros [Hi _] Hpl Hph Hp Hcap. pose proof Hpl as [_ Hbino Hrad Hlog Hmap].
  assert (1 ≤ p ≤ nb) as Hp' by (unfold in_tree in Hp; lia). pose proof nb_bound.
  destruct phase_codes as (Hun&Hall&Hno&Hnr&Hns).
  assert (Hne : (p =? _auxsendph (_phases t)) = false ∧ (p =? _auxrecvph (_phases t)) = false).
  { rewrite Hph. unfold plan_phases. ops; destruct (has_aux L i); cbn [andb]; try destruct (i =? 0);
      cbn [_auxsendph _auxrecvph]; rewrite ?Hno; split; apply Z.eqb_neq; lia. }
  destruct Hne as [Hs1 Hr1]. unfold NEXT_NODES. rewrite Hs1, Hr1. cbn [andb orb negb].
  rewrite (ds_rank _ _ _ _ _ _ Hmap i), Hrad, Hlog, BINO_spec by done.
  pose proof (peers_length_bound i p). rewrite Ok_bind, (proj2 (Z.leb_le 1 _)) by lia.
  cbn [assert]. rewrite !Ok_bind. apply (fill_masters (Master i)); [done|lia|]. by apply peers_range.
Qed.

Lemma aux_step i ep t p cap (parent : bool) : at_site L (nb * lr) (Master i) ep → planned (Master i) t →
  _phases t = plan_phases L nb op (Master i) → has_aux L i = true → 127 ≤ cap →
  (if parent then p = _auxrecvph (_phases t) else p = _auxsendph (_phases t)) →
  (nodes ← NEXT_NODES t parent p; fill mapping s t cap nodes) = Ok (auxes_of L i).
Proof.
  intros Hsite Hpl Hph Ha Hcap Hp. pose proof (pl_map _ _ Hpl) as Hmap. unfold NEXT_NODES.
  replace ((p =? _auxsendph (_phases t)) && negb parent || (p =? _auxrecvph (_phases t)) && parent)
    with true by (destruct parent; subst p; rewrite Z.eqb_refl, ?andb_false_r, ?orb_true_r; done).
  rewrite (ds_is_aux _ _ _ _ _ _ Hmap), (ds_is_peer _ _ _ _ _ _ Hmap). fold (has_aux L i). rewrite Ha.
  destruct (ds_aux_for_peer _ _ _ _ _ _ Hmap i) as (ranks&->&Hlen&Hglob); [done| |].
  { by apply bool_decide_eq_true_1 in Ha. }
  rewrite Ok_bind. unfold fill. pose proof (lo_few _ _ HL i).
  rewrite (proj2 (Z.leb_le _ _)) by lia. cbn [defined]. by rewrite Ok_bind.
Qed.

Lemma outside_step i ep t p cap (parent : bool) : at_site L (nb * lr) (Aux i) ep → planned (Aux i) t →
  127 ≤ cap → (if parent then p = _auxrecvph (_phases t) else p = _auxsendph (_phases t)) →
  (nodes ← NEXT_NODES t parent p; fill mapping s t cap nodes) = Ok [master L i].
Proof.
  intros [Hi _] Hpl Hcap Hp. pose proof (pl_map _ _ Hpl) as Hmap. unfold NEXT_NODES.
  replace ((p =? _auxsendph (_phases t)) && negb parent || (p =? _auxrecvph (_phases t)) && parent)
    with true by (destruct parent; subst p; rewrite Z.eqb_refl, ?andb_false_r, ?orb_true_r; done).
  rewrite (ds_is_aux _ _ _ _ _ _ Hmap), (ds_peer_for_aux _ _ _ _ _ _ Hmap i) by done.
  rewrite !Ok_bind. apply (fill_masters (Aux i) t cap [i]); [done|cbn; lia|by constructor].
Qed.

(** * The lists of a phase *)

Lemma getSrcTopology_spec σ ep t p cap : at_site L (nb * lr) σ ep → planned σ t →
  _phases t = plan_phases L nb op σ → plan_first L nb op σ ≤ p < plan_last L nb op σ →
  127 ≤ cap → getSrcTopology mapping s p cap t = Ok (plan_src L lr nb op σ p).
Proof.
  intros Hsite Hpl Hph Hp Hcap. pose proof (plan_bounds σ ep p Hsite Hp) as Hpb.
  unfold getSrcTopology. rewrite (receives_spec σ ep) by done.
  unfold receives_in, plan_src. destruct σ as [i|i].
  - destruct (Z.eqb_spec p 0) as [->|Hp0]; cbn [andb orb].
    + change (in_tree nb 0) with false. cbn [andb orb]. rewrite orb_false_r.
      destruct (collects op) eqn:Hcol; cbn [andb]; [|rewrite Ok_bind; apply fill_nil; lia].
      destruct (has_aux L i) eqn:Ha.
      * apply (aux_step i ep); try done. rewrite Hph. unfold plan_phases. rewrite Ha, Hcol.
        ops; try destruct (i =? 0); done.
      * rewrite Ok_bind. unfold has_aux in Ha. apply bool_decide_eq_false_1 in Ha.
        destruct (auxes_of L i); [apply fill_nil; lia|by destruct Ha].
    + destruct (in_tree nb p) eqn:Ht; cbn [andb]; [|rewrite Ok_bind; apply fill_nil; lia].
      destruct (tree_receives op i p); [|rewrite Ok_bind; apply fill_nil; lia].
      by apply (tree_step i ep).
  - destruct (Z.eqb_spec p (nb + 1)) as [->|Hp0]; cbn [andb]; [|rewrite Ok_bind; apply fill_nil; lia].
    destruct (returns op) eqn:Hret; [|rewrite Ok_bind; apply fill_nil; lia].
    apply (outside_step i ep); try done. rewrite Hph. unfold plan_phases. by rewrite Hret.
Qed.

Lemma getDstTopology_spec σ ep t p cap : at_site L (nb * lr) σ ep → planned σ t →
  _phases t = plan_phases L nb op σ → plan_first L nb op σ ≤ p < plan_last L nb op σ →
  127 ≤ cap → getDstTopology mapping s p cap t = Ok (plan_dst L lr nb op σ p).
Proof.
  intros Hsite Hpl Hph Hp Hcap. pose proof (plan_bounds σ ep p Hsite Hp) as Hpb.
  unfold getDstTopology. rewrite (sends_spec σ ep) by done.
  unfold sends_in, plan_dst. destruct σ as [i|i].
  - destruct (Z.eqb_spec p (nb + 1)) as [->|Hp0]; cbn [andb orb].
    + replace (in_tree nb (nb + 1)) with false by (unfold in_tree; lia). cbn [andb orb].
      rewrite orb_false_r.
      destruct (returns op) eqn:Hret; cbn [andb]; [|rewrite Ok_bind; apply fill_nil; lia].
      destruct (has_aux L i) eqn:Ha.
      * apply (aux_step i ep); try done. rewrite Hph. unfold plan_phases. rewrite Ha, Hret.
        ops; try destruct (i =? 0); done.
      * rewrite Ok_bind. unfold has_aux in Ha. apply bool_decide_eq_false_1 in Ha.
        destruct (auxes_of L i); [apply fill_nil; lia|by destruct Ha].
    + destruct (in_tree nb p) eqn:Ht; cbn [andb]; [|rewrite Ok_bind; apply fill_nil; lia].
      destruct (tree_sends op i p); [|rewrite Ok_bind; apply fill_nil; lia].
      by apply (tree_step i ep).
  - destruct (Z.eqb_spec p 0) as [->|Hp0]; cbn [andb]; [|rewrite Ok_bind; apply fill_nil; lia].
    destruct (collects op) eqn:Hcol; [|rewrite Ok_bind; apply fill_nil; lia].
    apply (outside_step i ep); try done. rewrite Hph. unfold plan_phases. by rewrite Hcol.
Qed.
End tree.
