(* ===== verification/ScheduleSpec.v ===== *)
(** What the plan of a multinomial schedule achieves: sends and receives match, and the
    phases together gather what they should. *)
From stdpp Require Import list.
From S2P Require Import Prelude.
From S2P Require Import MultinomialMap.
From S2P Require Import MultinomialTree.
From S2P Require Import Schedule.
From S2P Require Import MultinomialSpec.
From S2P Require Import BarrierMachine.

(** * Peers *)

Lemma peers_sym lr i j p : j ∈ peers lr i p → i ∈ peers lr j p.
Proof.
  unfold peers. rewrite !list_elem_of_fmap. intros (r&->&Hr). exists r. split; [|done].
  by rewrite Z.lxor_assoc, Z.lxor_nilpotent, Z.lxor_0_r.
Qed.

Lemma peers_one i j p : 1 ≤ p → j ∈ peers 1 i p ↔ j = Z.lxor i (2 ^ (p - 1)).
Proof.
  intros Hp. unfold peers. change (seqZ 1 (2 ^ 1 - 1)) with [1]. cbn [map].
  by rewrite list_elem_of_singleton, Z.mul_1_r, Z.shiftl_1_l.
Qed.

Lemma testbit_flip i p k : 1 ≤ p → 0 ≤ k → Z.testbit (Z.lxor i (2 ^ (p - 1))) k =
  xorb (Z.testbit i k) (p - 1 =? k).
Proof. intros. rewrite Z.lxor_spec. f_equal. by apply Z.pow2_bits_eqb; lia. Qed.

Lemma lowest_zero i : 0 ≤ i → ∀ p, (i = 0 ∨ p < ffs i) ↔ ∀ k, 0 ≤ k < p → Z.testbit i k = false.
Proof.
  intros Hi p. split.
  - intros [->|Hp] k Hk; [apply Z.bits_0|]. destruct (decide (i = 0)) as [->|]; [apply Z.bits_0|].
    apply ffs_spec; lia.
  - intros Hlow. destruct (decide (i = 0)) as [|Hne]; [by left|right].
    destruct (ffs_spec i) as (H1&Hb&_); [lia|].
    destruct (Z.lt_ge_cases p (ffs i)); [done|]. rewrite Hlow in Hb by lia. done.
Qed.

Lemma highest_zero i : 0 ≤ i → ∀ p, 0 ≤ p → (i = 0 ∨ Z.log2 i < p) ↔ ∀ k, p ≤ k → Z.testbit i k = false.
Proof.
  intros Hi p Hp. split.
  - intros [->|Hl] k Hk; [apply Z.bits_0|].
    destruct (decide (i = 0)) as [->|]; [apply Z.bits_0|]. apply Z.bits_above_log2; lia.
  - intros Hk. destruct (decide (i = 0)) as [|Hne]; [by left|right].
    destruct (Z.lt_ge_cases (Z.log2 i) p); [done|].
    pose proof (Z.bit_log2 i ltac:(lia)) as Hb. rewrite Hk in Hb by lia. done.
Qed.

(** In a reduce a master sends to the one whose lowest bits it completes. *)
Lemma reduce_match i j p : 0 ≤ i → 0 ≤ j → 1 ≤ p → j = Z.lxor i (2 ^ (p - 1)) →
  (i ≠ 0 ∧ p = ffs i) ↔ (j = 0 ∨ p < ffs j).
Proof.
  intros Hi Hj Hp Hji. rewrite lowest_zero by done.
  assert (Hbits : ∀ k, 0 ≤ k → Z.testbit j k = xorb (Z.testbit i k) (p - 1 =? k))
    by (intros; rewrite Hji; by apply testbit_flip).
  split.
  - intros [H0 ->] k Hk. destruct (ffs_spec i) as (_&Hb&Hlow); [lia|]. rewrite Hbits by lia.
    destruct (Z.eqb_spec (ffs i - 1) k) as [<-|]; [by rewrite Hb|]. by rewrite Hlow by lia.
  - intros Hlow. assert (Hb : Z.testbit i (p - 1) = true).
    { specialize (Hlow (p - 1) ltac:(lia)). rewrite Hbits, Z.eqb_refl in Hlow by lia.
      by destruct (Z.testbit i (p - 1)). }
    assert (H0 : i ≠ 0) by (intros ->; by rewrite Z.bits_0 in Hb). split; [done|].
    symmetry. apply ffs_unique; [lia|done|done|]. intros k Hk. specialize (Hlow k ltac:(lia)).
    rewrite Hbits, (proj2 (Z.eqb_neq (p - 1) k)), xorb_false_r in Hlow by lia. done.
Qed.

(** In a broadcast it sends to the one that has a bit more at the top. *)
Lemma broadcast_match i j p : 0 ≤ i → 0 ≤ j → 1 ≤ p → j = Z.lxor i (2 ^ (p - 1)) →
  (i = 0 ∨ Z.log2 i + 1 < p) ↔ (j ≠ 0 ∧ p = Z.log2 j + 1).
Proof.
  intros Hi Hj Hp Hji.
  assert (Hbits : ∀ k, 0 ≤ k → Z.testbit j k = xorb (Z.testbit i k) (p - 1 =? k))
    by (intros; rewrite Hji; by apply testbit_flip).
  transitivity (i = 0 ∨ Z.log2 i < p - 1); [lia|]. rewrite highest_zero by lia. split.
  - intros Hhigh. assert (Hb : Z.testbit j (p - 1) = true)
      by (by rewrite Hbits, Z.eqb_refl, Hhigh by lia).
    assert (H0 : j ≠ 0) by (intros ->; by rewrite Z.bits_0 in Hb). split; [done|].
    destruct (proj2 (highest_zero j Hj p ltac:(lia))) as [?|Hlt]; [|done|].
    { intros k Hk. rewrite Hbits, (proj2 (Z.eqb_neq (p - 1) k)), xorb_false_r by lia. apply Hhigh. lia. }
    destruct (Z.lt_ge_cases (Z.log2 j) (p - 1)); [|lia].
    rewrite Z.bits_above_log2 in Hb by lia. done.
  - intros [H0 Hlog] k Hk. pose proof (Z.bit_log2 j ltac:(lia)) as Hb.
    replace (Z.log2 j) with (p - 1) in Hb by lia.
    destruct (Z.eqb_spec (p - 1) k) as [<-|Hne].
    + rewrite Hbits, Z.eqb_refl in Hb by lia. by destruct (Z.testbit i (p - 1)).
    + assert (Hz : Z.testbit j k = false) by (apply Z.bits_above_log2; lia).
      rewrite Hbits, (proj2 (Z.eqb_neq (p - 1) k)), xorb_false_r in Hz by lia. done.
Qed.

Section schedule.
Context (L : layout) (lr nb op : Z).
Context (HL : layout_ok L (nb * lr)) (Hlr : 1 ≤ lr ≤ 3) (Hnb : 0 ≤ nb) (Hop : is_op op).
Context (Hradix : is_barrier_or_allreduce op = true ∨ lr = 1).

Notation h := (2 ^ (nb * lr)).

Lemma op_cases : is_barrier_or_allreduce op = true ∨ lr = 1 ∧ op = REDUCE_OP ∨ lr = 1 ∧ op = BROADCAST_OP.
Proof.
  destruct Hop as [Ho|[Ho|[Ho|Ho]]]; rewrite Ho in *; auto; destruct Hradix as [|]; auto; done.
Qed.

Lemma tree_all i p : is_barrier_or_allreduce op = true →
  tree_sends op i p = true ∧ tree_receives op i p = true.
Proof. intros Ho. destruct Hop as [H|[H|[H|H]]]; rewrite H in *; done. Qed.

(** A master sends in a phase exactly when its peers receive. *)
Lemma tree_match i j p : 0 ≤ i → 0 ≤ j → 1 ≤ p → j ∈ peers lr i p →
  tree_sends op i p = true ↔ tree_receives op j p = true.
Proof.
  intros Hi Hj Hp Hin. destruct op_cases as [Ho|[[Hl Ho]|[Hl Ho]]].
  - destruct (tree_all i p Ho) as [-> _]. by destruct (tree_all j p Ho) as [_ ->].
  - rewrite Hl in Hin. apply peers_one in Hin; [|done]. pose proof (reduce_match i j p Hi Hj Hp Hin).
    unfold tree_sends, tree_receives. rewrite Ho. cbn [Z.eqb Pos.eqb REDUCE_OP].
    rewrite andb_true_iff, orb_true_iff, negb_true_iff, Z.eqb_neq, !Z.eqb_eq, Z.ltb_lt. done.
  - rewrite Hl in Hin. apply peers_one in Hin; [|done]. pose proof (broadcast_match i j p Hi Hj Hp Hin).
    unfold tree_sends, tree_receives. rewrite Ho. cbn [Z.eqb Pos.eqb REDUCE_OP BROADCAST_OP].
    rewrite andb_true_iff, orb_true_iff, negb_true_iff, Z.eqb_neq, !Z.eqb_eq, Z.ltb_lt. done.
Qed.

(** * Sites *)

Lemma master_lookup i : 0 ≤ i < h → masters L !! Z.to_nat i = Some (master L i).
Proof.
  intros Hi. unfold master. destruct (lookup_lt_is_Some_2 (masters L) (Z.to_nat i)) as [x Hx].
  - pose proof (lo_masters _ _ HL). lia.
  - by rewrite Hx.
Qed.

Lemma auxes_lookup i : 0 ≤ i < h → auxes L !! Z.to_nat i = Some (auxes_of L i).
Proof.
  intros Hi. unfold auxes_of. destruct (lookup_lt_is_Some_2 (auxes L) (Z.to_nat i)) as [x Hx].
  - pose proof (lo_auxes _ _ HL). lia.
  - by rewrite Hx.
Qed.

Lemma master_inj i j : 0 ≤ i < h → 0 ≤ j < h → master L i = master L j → i = j.
Proof.
  intros Hi Hj Heq. pose proof (lo_NoDup _ _ HL) as (Hnd&_&_)%NoDup_app.
  pose proof (master_lookup i Hi) as H1. pose proof (master_lookup j Hj) as H2. rewrite <- Heq in H2.
  pose proof (NoDup_lookup _ _ _ _ Hnd H1 H2). lia.
Qed.

Lemma elem_of_aux i ep : 0 ≤ i < h → ep ∈ auxes_of L i → ep ∈ mjoin (auxes L).
Proof.
  intros Hi Hin. apply list_elem_of_join. exists (auxes_of L i). split; [done|].
  eapply list_elem_of_lookup_2. by apply auxes_lookup.
Qed.

Lemma master_not_aux i j ep : 0 ≤ i < h → 0 ≤ j < h → ep ∈ auxes_of L j → master L i ≠ ep.
Proof.
  intros Hi Hj Hin <-. pose proof (lo_NoDup _ _ HL) as (_&Hd&_)%NoDup_app.
  apply (Hd (master L i)); [|by eapply elem_of_aux].
  eapply list_elem_of_lookup_2. by apply master_lookup.
Qed.

Lemma NoDup_join_disjoint (ls : list (list Z)) i j l l' x : NoDup (mjoin ls) →
  ls !! i = Some l → ls !! j = Some l' → x ∈ l → x ∈ l' → i = j.
Proof.
  revert i j. induction ls as [|k ls IH]; intros i j Hnd Hi Hj Hx Hx'; [done|].
  cbn in Hnd. apply NoDup_app in Hnd as (_&Hd&Hnd).
  destruct i as [|i], j as [|j]; cbn in *; simplify_eq; [done|exfalso|exfalso|f_equal; eauto];
    eapply Hd; try done; apply list_elem_of_join; eexists; (split; [|by eapply list_elem_of_lookup_2]); done.
Qed.

Lemma aux_inj i j ep : 0 ≤ i < h → 0 ≤ j < h → ep ∈ auxes_of L i → ep ∈ auxes_of L j → i = j.
Proof.
  intros Hi Hj H1 H2. pose proof (lo_NoDup _ _ HL) as (_&_&Hnd)%NoDup_app.
  pose proof (NoDup_join_disjoint _ _ _ _ _ _ Hnd (auxes_lookup i Hi) (auxes_lookup j Hj) H1 H2). lia.
Qed.

Lemma NoDup_auxes i : 0 ≤ i < h → NoDup (auxes_of L i).
Proof.
  intros Hi. pose proof (lo_NoDup _ _ HL) as (_&_&Hnd)%NoDup_app.
  pose proof (auxes_lookup i Hi) as Hl. apply list_elem_of_split_length in Hl as (l1&l2&Heq&_).
  rewrite Heq in Hnd. rewrite join_app in Hnd. cbn in Hnd.
  by apply NoDup_app in Hnd as (_&_&[? _]%NoDup_app).
Qed.

Lemma at_site_member σ ep : at_site L (nb * lr) σ ep → ep ∈ members L.
Proof.
  unfold members. rewrite elem_of_app. destruct σ as [i|i]; intros [Hi He].
  - left. subst ep. eapply list_elem_of_lookup_2. by apply master_lookup.
  - right. by eapply elem_of_aux.
Qed.

Lemma member_at_site ep : ep ∈ members L → ∃ σ, at_site L (nb * lr) σ ep.
Proof.
  unfold members. rewrite elem_of_app. intros [Hin|Hin].
  - apply list_elem_of_lookup in Hin as [n Hn]. pose proof (lookup_lt_Some _ _ _ Hn) as Hlt.
    pose proof (lo_masters _ _ HL). exists (Master (Z.of_nat n)). split; [lia|].
    unfold master. by rewrite Nat2Z.id, Hn.
  - apply list_elem_of_join in Hin as (l&He&Hl). apply list_elem_of_lookup in Hl as [n Hn].
    pose proof (lookup_lt_Some _ _ _ Hn) as Hlt. pose proof (lo_auxes _ _ HL).
    exists (Aux (Z.of_nat n)). split; [lia|]. unfold auxes_of. by rewrite Nat2Z.id, Hn.
Qed.

Lemma at_site_unique σ σ' ep : at_site L (nb * lr) σ ep → at_site L (nb * lr) σ' ep → σ = σ'.
Proof.
  destruct σ as [i|i], σ' as [j|j]; intros [Hi He] [Hj He'].
  - f_equal. apply master_inj; [done..|congruence].
  - exfalso. by eapply (master_not_aux i j ep).
  - exfalso. by eapply (master_not_aux j i ep).
  - f_equal. by apply (aux_inj i j ep).
Qed.

(** * The lists of the plan *)

Notation psrc := (plan_src L lr nb op).
Notation pdst := (plan_dst L lr nb op).

Lemma in_peers i p x : 0 ≤ i < h → 1 ≤ p ≤ nb → x ∈ map (master L) (peers lr i p) ↔
  ∃ j, 0 ≤ j < h ∧ x = master L j ∧ j ∈ peers lr i p.
Proof.
  intros Hi Hp. rewrite list_elem_of_fmap.
  assert (Hr : Forall (λ j, 0 ≤ j < h) (peers lr i p)) by by apply peers_range.
  rewrite Forall_forall in Hr. split.
  - intros (j&->&Hj). exists j. auto.
  - intros (j&_&->&Hj). by exists j.
Qed.

Lemma in_tree_spec p : in_tree nb p = true ↔ 1 ≤ p ≤ nb.
Proof. unfold in_tree. rewrite andb_true_iff. lia. Qed.

Lemma match_masters i j p : 0 ≤ i < h → 0 ≤ j < h →
  master L j ∈ pdst (Master i) p ↔ master L i ∈ psrc (Master j) p.
Proof.
  intros Hi Hj. unfold plan_dst, plan_src.
  assert (Hno : ∀ a b (c : bool), 0 ≤ a < h → 0 ≤ b < h → master L a ∉ if c then auxes_of L b else []).
  { intros a b c Ha Hb Hin. destruct c; [|by apply elem_of_nil in Hin].
    by apply (master_not_aux a b (master L a)). }
  destruct (in_tree nb p) eqn:Ht; cbn [andb].
  - pose proof (proj1 (in_tree_spec p) Ht) as Hp.
    rewrite (proj2 (Z.eqb_neq p (nb + 1))), (proj2 (Z.eqb_neq p 0)) by lia.
    assert (Hpeers : ∀ a b, 0 ≤ a < h → 0 ≤ b < h → master L b ∈ map (master L) (peers lr a p) ↔ b ∈ peers lr a p).
    { intros a b Ha Hb. rewrite in_peers by done. split; [|by exists b].
      intros (x&Hx&Heq&Hin). by rewrite (master_inj b x Hb Hx Heq). }
    assert (Hif : ∀ (c : bool) (x : Z) l, x ∈ (if c then l else []) ↔ c = true ∧ x ∈ l)
      by (intros [] x l; set_solver).
    rewrite !Hif, !Hpeers by done. split; intros [Hc Hin].
    + split; [|by apply peers_sym]. by apply (proj1 (tree_match i j p ltac:(lia) ltac:(lia) ltac:(lia) Hin)).
    + pose proof (peers_sym _ _ _ _ Hin) as Hin'. split; [|done].
      by apply (proj2 (tree_match i j p ltac:(lia) ltac:(lia) ltac:(lia) Hin')).
  - split; intros Hin; exfalso; revert Hin.
    + destruct (p =? nb + 1); [by apply Hno|by intros ?%elem_of_nil].
    + destruct (p =? 0); [by apply Hno|by intros ?%elem_of_nil].
Qed.

Lemma pdst_master_aux i j p x : 0 ≤ i < h → 0 ≤ j < h → x ∈ auxes_of L j →
  x ∈ pdst (Master i) p ↔ p = nb + 1 ∧ returns op = true ∧ i = j.
Proof.
  intros Hi Hj Hx. unfold plan_dst. destruct (Z.eqb_spec p (nb + 1)) as [->|Hp].
  - destruct (returns op); [|set_solver]. split; [|by intros (_&_&->)].
    intros Hin. split; [done|]. split; [done|]. by apply (aux_inj i j x).
  - split; [|naive_solver]. destruct (in_tree nb p && _) eqn:Ht; [|by intros ?%elem_of_nil].
    apply andb_true_iff in Ht as [Ht%in_tree_spec _]. rewrite in_peers by done.
    intros (k&Hk&->&_). exfalso. by apply (master_not_aux k j (master L k)).
Qed.

Lemma psrc_master_aux i j p x : 0 ≤ i < h → 0 ≤ j < h → x ∈ auxes_of L j →
  x ∈ psrc (Master i) p ↔ p = 0 ∧ collects op = true ∧ i = j.
Proof.
  intros Hi Hj Hx. unfold plan_src. destruct (Z.eqb_spec p 0) as [->|Hp].
  - destruct (collects op); [|set_solver]. split; [|by intros (_&_&->)].
    intros Hin. split; [done|]. split; [done|]. by apply (aux_inj i j x).
  - split; [|naive_solver]. destruct (in_tree nb p && _) eqn:Ht; [|by intros ?%elem_of_nil].
    apply andb_true_iff in Ht as [Ht%in_tree_spec _]. rewrite in_peers by done.
    intros (k&Hk&->&_). exfalso. by apply (master_not_aux k j (master L k)).
Qed.

Lemma pdst_aux i p x : x ∈ pdst (Aux i) p ↔ p = 0 ∧ collects op = true ∧ x = master L i.
Proof. unfold plan_dst. destruct (Z.eqb_spec p 0), (collects op); cbn; set_solver. Qed.

Lemma psrc_aux i p x : x ∈ psrc (Aux i) p ↔ p = nb + 1 ∧ returns op = true ∧ x = master L i.
Proof. unfold plan_src. destruct (Z.eqb_spec p (nb + 1)), (returns op); cbn; set_solver. Qed.

(** Who sends is who is received from. *)
Lemma plan_match σ σ' x y p : at_site L (nb * lr) σ x → at_site L (nb * lr) σ' y →
  y ∈ pdst σ p ↔ x ∈ psrc σ' p.
Proof.
  destruct σ as [i|i], σ' as [j|j]; intros [Hi Hx] [Hj Hy].
  - subst x y. by apply match_masters.
  - subst x. rewrite (pdst_master_aux i j), psrc_aux by done. split; [by intros (->&?&->)|].
    intros (->&?&Heq). split; [done|]. split; [done|]. by apply master_inj.
  - subst y. rewrite (psrc_master_aux j i), pdst_aux by done. split; [|by intros (->&?&->)].
    intros (->&?&Heq). split; [done|]. split; [done|]. by apply master_inj.
  - rewrite pdst_aux, psrc_aux. split.
    + intros (_&_&->). exfalso. by apply (master_not_aux i j (master L i)).
    + intros (_&_&->). exfalso. by apply (master_not_aux j i (master L j)).
Qed.

Lemma nonempty_aux i x : x ∈ auxes_of L i → has_aux L i = true.
Proof. intros Hx. apply bool_decide_eq_true_2. intros Hnil. rewrite Hnil in Hx. by apply elem_of_nil in Hx. Qed.

Lemma bounds_of i : 0 ≤ i < h → i ≠ 0 → lr = 1 → 1 ≤ ffs i ≤ nb ∧ 0 ≤ Z.log2 i < nb.
Proof.
  intros Hi H0 H1. rewrite H1, Z.mul_1_r in Hi. pose proof (ffs_bound i nb ltac:(lia)).
  pose proof (ffs_spec i ltac:(lia)). pose proof (log2_bound i nb ltac:(lia)).
  pose proof (Z.log2_nonneg i). lia.
Qed.

Lemma psrc_master_when i p y : y ∈ psrc (Master i) p →
  p = 0 ∧ collects op = true ∧ has_aux L i = true ∨ 1 ≤ p ≤ nb ∧ tree_receives op i p = true.
Proof.
  unfold plan_src. destruct (Z.eqb_spec p 0) as [->|Hp].
  - destruct (collects op); [|by intros ?%elem_of_nil]. intros Hy%nonempty_aux. by left.
  - destruct (in_tree nb p) eqn:Ht; cbn [andb]; [|by intros ?%elem_of_nil].
    apply in_tree_spec in Ht. destruct (tree_receives op i p); [by right|by intros ?%elem_of_nil].
Qed.

Lemma pdst_master_when i p y : y ∈ pdst (Master i) p →
  p = nb + 1 ∧ returns op = true ∧ has_aux L i = true ∨ 1 ≤ p ≤ nb ∧ tree_sends op i p = true.
Proof.
  unfold plan_dst. destruct (Z.eqb_spec p (nb + 1)) as [->|Hp].
  - destruct (returns op); [|by intros ?%elem_of_nil]. intros Hy%nonempty_aux. by left.
  - destruct (in_tree nb p) eqn:Ht; cbn [andb]; [|by intros ?%elem_of_nil].
    apply in_tree_spec in Ht. destruct (tree_sends op i p); [by right|by intros ?%elem_of_nil].
Qed.

Lemma plan_member σ x y p : at_site L (nb * lr) σ x → y ∈ psrc σ p ∨ y ∈ pdst σ p → y ∈ members L.
Proof.
  intros Hsite Hy. destruct σ as [i|i]; destruct Hsite as [Hi _].
  - assert (Ha : y ∈ auxes_of L i → y ∈ members L) by (intros Hin; by apply (at_site_member (Aux i) y)).
    assert (Hm : in_tree nb p = true → y ∈ map (master L) (peers lr i p) → y ∈ members L).
    { intros Hp%in_tree_spec. rewrite in_peers by done. intros (j&Hj&->&_).
      by apply (at_site_member (Master j)). }
    unfold plan_src, plan_dst in Hy. destruct (in_tree nb p); cbn [andb] in Hy;
      repeat case_match; destruct Hy as [Hy|Hy]; try (by apply elem_of_nil in Hy); auto.
  - rewrite psrc_aux, pdst_aux in Hy. apply (at_site_member (Master i)). split; [done|]. naive_solver.
Qed.

(** Outside of its phases an endpoint has nothing to do. *)
Lemma plan_active σ x y p : at_site L (nb * lr) σ x → y ∈ psrc σ p ∨ y ∈ pdst σ p →
  plan_first L nb op σ ≤ p < plan_last L nb op σ.
Proof.
  intros Hsite Hy. destruct σ as [i|i]; destruct Hsite as [Hi _].
  - pose proof (bounds_of i Hi) as Hb.
    assert (Hwhen : (p = 0 ∧ collects op = true ∧ has_aux L i = true ∨
        1 ≤ p ≤ nb ∧ tree_receives op i p = true) ∨
      (p = nb + 1 ∧ returns op = true ∧ has_aux L i = true ∨ 1 ≤ p ≤ nb ∧ tree_sends op i p = true)).
    { destruct Hy as [Hy|Hy]; [left; by apply psrc_master_when in Hy|right; by apply pdst_master_when in Hy]. }
    unfold plan_first, plan_last, collects, returns, tree_receives, tree_sends in *.
    destruct op_cases as [Ho|[[Hl Ho]|[Hl Ho]]].
    + destruct Hop as [Hop'|[Hop'|[Hop'|Hop']]]; rewrite Hop' in *; try done;
        cbn [Z.eqb Pos.eqb BARRIER_OP ALLREDUCE_OP REDUCE_OP BROADCAST_OP] in *; destruct (has_aux L i); lia.
    + rewrite Ho in *. cbn [Z.eqb Pos.eqb REDUCE_OP BROADCAST_OP negb] in *.
      destruct (has_aux L i), (Z.eqb_spec i 0); cbn [andb orb negb] in *; lia.
    + rewrite Ho in *. cbn [Z.eqb Pos.eqb REDUCE_OP BROADCAST_OP negb] in *.
      destruct (has_aux L i), (Z.eqb_spec i 0); cbn [andb orb negb] in *; lia.
  - rewrite psrc_aux, pdst_aux in Hy. unfold plan_first, plan_last, collects, returns in *.
    destruct (op =? BROADCAST_OP), (op =? REDUCE_OP); cbn [negb] in *; lia.
Qed.

Lemma plan_ordered σ x : at_site L (nb * lr) σ x →
  0 ≤ plan_first L nb op σ ≤ plan_last L nb op σ ∧ plan_last L nb op σ ≤ nb + 2.
Proof.
  intros Hsite. unfold plan_first, plan_last. destruct σ as [i|i]; destruct Hsite as [Hi _].
  - pose proof (bounds_of i Hi) as Hb.
    destruct op_cases as [Ho|[[Hl Ho]|[Hl Ho]]].
    + destruct Hop as [Hop'|[Hop'|[Hop'|Hop']]]; rewrite Hop' in *; try done;
        cbn [Z.eqb Pos.eqb BARRIER_OP ALLREDUCE_OP REDUCE_OP BROADCAST_OP] in *; destruct (has_aux L i); lia.
    + rewrite Ho. cbn [Z.eqb Pos.eqb REDUCE_OP BROADCAST_OP].
      destruct (has_aux L i), (Z.eqb_spec i 0); lia.
    + rewrite Ho. cbn [Z.eqb Pos.eqb REDUCE_OP BROADCAST_OP].
      destruct (has_aux L i), (Z.eqb_spec i 0); lia.
  - destruct (Z.eqb_spec op BROADCAST_OP), (Z.eqb_spec op REDUCE_OP); unfold BROADCAST_OP, REDUCE_OP in *; lia.
Qed.

Lemma NoDup_peers i p : 1 ≤ p → NoDup (peers lr i p).
Proof.
  intros Hp. unfold peers. apply NoDup_fmap_2_strong; [|apply NoDup_seqZ].
  intros r r' Hr%elem_of_seqZ Hr'%elem_of_seqZ Heq.
  assert (Hs : Z.shiftl r ((p - 1) * lr) = Z.shiftl r' ((p - 1) * lr)).
  { rewrite <- (Z.lxor_0_l (Z.shiftl r _)), <- (Z.lxor_0_l (Z.shiftl r' _)), <- (Z.lxor_nilpotent i).
    by rewrite !Z.lxor_assoc, Heq. }
  rewrite !Z.shiftl_mul_pow2 in Hs by nia. apply Z.mul_reg_r in Hs; [done|].
  pose proof (Z.pow_pos_nonneg 2 ((p - 1) * lr) ltac:(lia) ltac:(nia)). lia.
Qed.

Lemma NoDup_tree i p : 0 ≤ i < h → in_tree nb p = true → NoDup (map (master L) (peers lr i p)).
Proof.
  intros Hi Hp%in_tree_spec. apply NoDup_fmap_2_strong; [|apply NoDup_peers; lia].
  assert (Hr : Forall (λ j, 0 ≤ j < h) (peers lr i p)) by by apply peers_range.
  rewrite Forall_forall in Hr. intros a b Ha Hb. apply master_inj; auto.
Qed.

Lemma plan_lists σ x p : at_site L (nb * lr) σ x →
  NoDup (psrc σ p) ∧ NoDup (pdst σ p) ∧ Z.of_nat (length (psrc σ p)) ≤ 127 ∧
  Z.of_nat (length (pdst σ p)) ≤ 127.
Proof.
  intros Hsite. unfold plan_src, plan_dst. destruct σ as [i|i]; destruct Hsite as [Hi _].
  - pose proof (NoDup_auxes i Hi). pose proof (lo_few _ _ HL i). pose proof (NoDup_tree i p Hi) as Ht.
    assert (Hlen : Z.of_nat (length (map (master L) (peers lr i p))) ≤ 127).
    { rewrite length_map. pose proof (peers_length_bound lr Hlr i p). lia. }
    destruct (in_tree nb p); cbn [andb]; repeat case_match; repeat split; auto using NoDup_nil_2;
      cbn; lia.
  - repeat case_match; repeat split; auto using NoDup_nil_2, NoDup_singleton; cbn; lia.
Qed.
End schedule.
