(* ===== verification/ScheduleGather.v ===== *)
(** What the phases of a multinomial schedule bring together. *)
From stdpp Require Import list.
From S2P Require Import Prelude.
From S2P Require Import MultinomialMap.
From S2P Require Import MultinomialTree.
From S2P Require Import Schedule.
From S2P Require Import MultinomialSpec.
From S2P Require Import ScheduleSpec.
From S2P Require Import BarrierMachine.

(** * Lists *)

Lemma bind_perm_ext {A B} (f g : A → list B) l : (∀ x, x ∈ l → f x ≡ₚ g x) → l ≫= f ≡ₚ l ≫= g.
Proof.
  induction l as [|x l IH]; intros H; [done|]. rewrite !bind_cons. f_equiv.
  - apply H. by left.
  - apply IH. intros y Hy. apply H. by right.
Qed.

Lemma bind_bind {A B D} (f : A → list B) (g : B → list D) l : (l ≫= f) ≫= g = l ≫= λ x, f x ≫= g.
Proof. induction l as [|x l IH]; [done|]. by rewrite !bind_cons, bind_app, IH. Qed.

Lemma bind_map {A B D} (f : A → B) (g : B → list D) l : map f l ≫= g = l ≫= λ x, g (f x).
Proof. induction l as [|x l IH]; [done|]. cbn [map]. by rewrite !bind_cons, IH. Qed.

Lemma bind_single {A} (l : list A) : l ≫= (λ x, [x]) = l.
Proof. induction l as [|x l IH]; [done|]. by rewrite bind_cons, IH. Qed.

Lemma bind_heads {A B} (f : A → B) (g : A → list B) l : l ≫= (λ x, f x :: g x) ≡ₚ map f l ++ (l ≫= g).
Proof.
  induction l as [|x l IH]; [done|]. rewrite !bind_cons. cbn [map app]. f_equiv.
  rewrite IH, !(assoc_L (++)). f_equiv. apply Permutation_app_comm.
Qed.

Lemma bind_join {A B} (f : A → list B) l : l ≫= f = mjoin (map f l).
Proof. induction l as [|x l IH]; [done|]. by rewrite bind_cons, IH. Qed.

(** * What is gathered *)

Section gather.
Context (src : Z → Z → list Z) (replace : Z → Z → bool).

Notation gather := (gather src replace).

(** Phases in which an endpoint receives nothing. *)
Lemma gather_idle n k ep : (∀ p, Z.of_nat n ≤ p → src ep p = []) → gather (n + k) ep = gather n ep.
Proof.
  intros Hidle. induction k as [|k IH]; [by rewrite Nat.add_0_r|].
  rewrite Nat.add_succ_r. cbn [BarrierMachine.gather]. rewrite Hidle by lia.
  rewrite (bool_decide_eq_false_2 ([] ≠ [])) by naive_solver.
  by rewrite andb_false_r, app_nil_r, IH.
Qed.

(** Whether to replace matters only where something arrives, among endpoints that receive
    from each other. *)
Lemma gather_ext replace' (l : list Z) n ep :
  (∀ x p, x ∈ l → src x p ≠ [] → replace' x p = replace x p) → (∀ x p, x ∈ l → src x p ⊆ l) →
  ep ∈ l → BarrierMachine.gather src replace' n ep = gather n ep.
Proof.
  intros Hr Hl. revert ep. induction n as [|n IH]; intros ep Hep; [done|]. cbn [BarrierMachine.gather].
  rewrite (IH ep Hep). assert (Hb : src ep (Z.of_nat n) ≫= BarrierMachine.gather src replace' n =
    src ep (Z.of_nat n) ≫= gather n).
  { pose proof (Hl ep (Z.of_nat n) Hep) as Hin.
    induction (src ep (Z.of_nat n)) as [|x k IHk]; [done|]. rewrite !bind_cons, IH, IHk; [done| |].
    - intros y Hy. apply Hin. by right.
    - apply Hin. by left. }
  rewrite Hb. case_bool_decide; [by rewrite Hr|]. by rewrite !andb_false_r.
Qed.

Lemma gather_grows n k ep x : (∀ p, replace ep p = false) → x ∈ gather n ep → x ∈ gather (n + k) ep.
Proof.
  intros Hr Hx. induction k as [|k IH]; [by rewrite Nat.add_0_r|].
  rewrite Nat.add_succ_r. cbn [BarrierMachine.gather]. rewrite Hr. cbn [andb]. set_solver.
Qed.

Lemma gather_self n ep : (∀ p, replace ep p = false) → ep ∈ gather n ep.
Proof. intros Hr. apply (gather_grows 0 n ep ep Hr). cbn. set_solver. Qed.
End gather.

(** * Blocks of masters *)

Section blocks.
Context (lr nb : Z) (Hlr : 1 ≤ lr ≤ 3) (Hnb : 0 ≤ nb).

Notation h := (2 ^ (nb * lr)).

(** The masters that agree with [i] but for the last [p] digits. *)
Definition block (p i : Z) : list Z :=
  filter (λ j, Z.shiftr j (p * lr) = Z.shiftr i (p * lr)) (seqZ 0 h).

Lemma elem_of_block p i j : j ∈ block p i ↔ Z.shiftr j (p * lr) = Z.shiftr i (p * lr) ∧ 0 ≤ j < h.
Proof. unfold block. rewrite list_elem_of_filter, elem_of_seqZ. split; intros [? ?]; split; (done || lia). Qed.

Lemma NoDup_block p i : NoDup (block p i).
Proof. apply NoDup_filter, NoDup_seqZ. Qed.

Lemma block_zero i : 0 ≤ i < h → block 0 i = [i].
Proof.
  intros Hi. apply Permutation_singleton_r, NoDup_Permutation; [apply NoDup_block|apply NoDup_singleton|].
  intros j. rewrite elem_of_block, list_elem_of_singleton. change (0 * lr) with 0.
  rewrite !Z.shiftr_0_r. split; [by intros [-> _]|by intros ->].
Qed.

Lemma block_all i : 0 ≤ i < h → block nb i = seqZ 0 h.
Proof.
  intros Hi. apply filter_all, Forall_forall. intros j Hj%elem_of_seqZ.
  rewrite !Z.shiftr_div_pow2 by nia. rewrite !Z.div_small by lia. done.
Qed.

(** The digit in which a peer differs. *)
Lemma peer_digit p i r : 0 ≤ p → 0 ≤ r < 2 ^ lr →
  Z.shiftr (Z.lxor i (Z.shiftl r (p * lr))) (p * lr) = Z.lxor (Z.shiftr i (p * lr)) r.
Proof. intros Hp Hr. rewrite Z.shiftr_lxor, Z.shiftr_shiftl_l by nia. by rewrite Z.sub_diag, Z.shiftl_0_r. Qed.

Lemma same_high a b : 0 ≤ a → 0 ≤ b → Z.shiftr a lr = Z.shiftr b lr ↔ 0 ≤ Z.lxor a b < 2 ^ lr.
Proof.
  intros Ha Hb. rewrite <- Z.lxor_eq_0_iff, <- Z.shiftr_lxor.
  assert (Hx : 0 ≤ Z.lxor a b) by (apply Z.lxor_nonneg; lia).
  rewrite Z.shiftr_div_pow2 by lia. pose proof (Z.pow_pos_nonneg 2 lr). split.
  - intros Hz. apply Z.div_small_iff in Hz; [lia|lia].
  - intros Hz. apply Z.div_small. lia.
Qed.

(** A block is made of its own part and those of its peers. *)
Lemma block_next p i : 0 ≤ p < nb → 0 ≤ i < h →
  block (p + 1) i ≡ₚ block p i ++ (peers lr i (p + 1) ≫= block p).
Proof.
  intros Hp Hi.
  assert (Heq : block p i ++ (peers lr i (p + 1) ≫= block p) =
    seqZ 0 (2 ^ lr) ≫= λ r, block p (Z.lxor i (Z.shiftl r (p * lr)))).
  { pose proof (Z.pow_pos_nonneg 2 lr). rewrite (seqZ_cons 0) by lia. rewrite bind_cons.
    rewrite Z.shiftl_0_l, Z.lxor_0_r. f_equal. unfold peers. rewrite bind_map.
    replace (p + 1 - 1) with p by lia. by replace (Z.pred (2 ^ lr)) with (2 ^ lr - 1) by lia. }
  rewrite Heq. apply NoDup_Permutation; [apply NoDup_block| |].
  - apply NoDup_bind; [|intros; apply NoDup_block|apply NoDup_seqZ].
    intros r r' j Hr%elem_of_seqZ Hr'%elem_of_seqZ [Hj _]%elem_of_block [Hj' _]%elem_of_block.
    rewrite peer_digit in Hj, Hj' by lia. rewrite Hj in Hj'.
    rewrite <- (Z.lxor_0_l r), <- (Z.lxor_0_l r'), <- (Z.lxor_nilpotent (Z.shiftr i (p * lr))).
    by rewrite !Z.lxor_assoc, Hj'.
  - intros j. rewrite elem_of_block, list_elem_of_bind.
    assert (Hsplit : ∀ x, 0 ≤ x → Z.shiftr x ((p + 1) * lr) = Z.shiftr (Z.shiftr x (p * lr)) lr).
    { intros x Hx. rewrite Z.shiftr_shiftr by lia. f_equal. lia. }
    split.
    + intros [Hj Hrange]. rewrite !Hsplit in Hj by lia.
      apply same_high in Hj; [|apply Z.shiftr_nonneg; lia..].
      exists (Z.lxor (Z.shiftr j (p * lr)) (Z.shiftr i (p * lr))). split; [|apply elem_of_seqZ; lia].
      apply elem_of_block. split; [|done]. rewrite peer_digit by lia.
      rewrite (Z.lxor_comm (Z.shiftr j _)), <- Z.lxor_assoc, Z.lxor_nilpotent. by rewrite Z.lxor_0_l.
    + intros (r&[Hj Hrange]%elem_of_block&Hr%elem_of_seqZ). split; [|done].
      rewrite peer_digit in Hj by lia. rewrite !Hsplit by lia.
      apply same_high; [apply Z.shiftr_nonneg; lia..|].
      rewrite Hj, (Z.lxor_comm (Z.shiftr i _) r), Z.lxor_assoc, Z.lxor_nilpotent, Z.lxor_0_r. lia.
Qed.
End blocks.

(** * The gathering of a plan *)

Section plan.
Context (L : layout) (lr nb op : Z).
Context (HL : layout_ok L (nb * lr)) (Hlr : 1 ≤ lr ≤ 3) (Hnb : 0 ≤ nb) (Hop : is_op op).
Context (Hradix : is_barrier_or_allreduce op = true ∨ lr = 1).

Notation h := (2 ^ (nb * lr)).

(** The sources of each endpoint, by its site; masters never replace. *)
Context (src : Z → Z → list Z) (replace : Z → Z → bool).
Context (Hsrc : ∀ σ ep p, at_site L (nb * lr) σ ep → 0 ≤ p → src ep p = plan_src L lr nb op σ p).
Context (Hrep : ∀ i p, 0 ≤ i < h → replace (master L i) p = false).

Notation gather := (gather src replace).

Lemma src_master i p : 0 ≤ i < h → 0 ≤ p → src (master L i) p = plan_src L lr nb op (Master i) p.
Proof. intros Hi Hp. by apply Hsrc. Qed.

Lemma gather_step i n : 0 ≤ i < h → gather (S n) (master L i) =
  gather n (master L i) ++ (plan_src L lr nb op (Master i) (Z.of_nat n) ≫= gather n).
Proof.
  intros Hi. cbn [BarrierMachine.gather]. rewrite (Hrep i) by done. cbn [andb].
  by rewrite src_master by (done || lia).
Qed.

(** What a master has for itself and the endpoints behind it. *)
Definition own (i : Z) : list Z := master L i :: auxes_of L i.

Lemma all_own : seqZ 0 h ≫= own ≡ₚ members L.
Proof.
  unfold own. rewrite bind_heads. unfold members. f_equiv.
  - apply reflexive_eq, list_eq. intros k. rewrite list_lookup_fmap.
    destruct (decide (k < Z.to_nat h)%nat) as [Hk|Hk].
    + rewrite lookup_seqZ_lt by lia. cbn. rewrite <- (master_lookup L lr nb HL Hlr Hnb) by lia.
      f_equal. lia.
    + rewrite lookup_seqZ_ge by lia. symmetry. apply lookup_ge_None_2.
      pose proof (lo_masters _ _ HL). lia.
  - apply reflexive_eq. rewrite bind_join. f_equal. apply list_eq. intros k. rewrite list_lookup_fmap.
    destruct (decide (k < Z.to_nat h)%nat) as [Hk|Hk].
    + rewrite lookup_seqZ_lt by lia. cbn. rewrite <- (auxes_lookup L lr nb HL Hlr Hnb) by lia.
      f_equal. lia.
    + rewrite lookup_seqZ_ge by lia. symmetry. apply lookup_ge_None_2.
      pose proof (lo_auxes _ _ HL). lia.
Qed.

(** A master that has received in the first phases of the tree has its block. *)
Lemma gather_block (Hcol : collects op = true) p i : 0 ≤ i < h → Z.of_nat p ≤ nb →
  (∀ q, 1 ≤ q ≤ Z.of_nat p → tree_receives op i q = true) →
  gather (S p) (master L i) ≡ₚ block lr nb (Z.of_nat p) i ≫= own.
Proof.
  revert i. induction p as [|p IH]; intros i Hi Hp Hrec.
  - rewrite gather_step by done. cbn [BarrierMachine.gather Z.of_nat]. unfold plan_src. cbn [Z.eqb].
    rewrite Hcol, bind_single, (block_zero lr nb) by done. by rewrite bind_cons, app_nil_r.
  - rewrite gather_step by done. unfold plan_src.
    rewrite (proj2 (Z.eqb_neq _ _)) by lia.
    replace (in_tree nb (Z.of_nat (S p))) with true by (symmetry; apply in_tree_spec; lia).
    rewrite Hrec by lia. cbn [andb].
    rewrite (IH i) by (intros; try apply Hrec; lia). rewrite bind_map.
    replace (Z.of_nat (S p)) with (Z.of_nat p + 1) by lia.
    rewrite (block_next lr nb Hlr (Z.of_nat p) i) by lia. rewrite bind_app. f_equiv.
    rewrite bind_bind. apply bind_perm_ext. intros j Hj.
    assert (Hjr : 0 ≤ j < h).
    { assert (Hall : Forall (λ j, 0 ≤ j < h) (peers lr i (Z.of_nat p + 1))) by (apply peers_range; lia).
      rewrite Forall_forall in Hall. auto. }
    apply IH; [done|lia|]. intros q Hq.
    destruct (op_cases lr op Hop Hradix) as [Ho|[[Hl Ho]|[Hl Ho]]]; [by apply (tree_all lr op Hop Hradix)| |].
    + assert (Hs : tree_sends op j (Z.of_nat p + 1) = true).
      { apply (tree_match lr op Hop Hradix j i (Z.of_nat p + 1)); try lia; [by apply peers_sym|].
        apply Hrec. lia. }
      unfold tree_sends, tree_receives in *. rewrite Ho in *. cbn [Z.eqb Pos.eqb REDUCE_OP] in *. lia.
    + by rewrite Ho in Hcol.
Qed.

(** A master that receives in every phase of the tree has everything. *)
Lemma gather_tree i : collects op = true → 0 ≤ i < h →
  (∀ q, 1 ≤ q ≤ nb → tree_receives op i q = true) →
  gather (S (Z.to_nat nb)) (master L i) ≡ₚ members L.
Proof.
  intros Hcol Hi Hrec. rewrite gather_block by (done || lia || (intros; apply Hrec; lia)).
  rewrite Z2Nat.id, (block_all lr nb) by done. apply all_own.
Qed.

(** The last phase brings a master nothing. *)
Lemma gather_last i k : 0 ≤ i < h →
  gather (S (Z.to_nat nb) + k) (master L i) = gather (S (Z.to_nat nb)) (master L i).
Proof.
  intros Hi. apply gather_idle. intros p Hp. rewrite src_master by lia. unfold plan_src.
  rewrite (proj2 (Z.eqb_neq p 0)) by lia. unfold in_tree.
  by rewrite (proj2 (Z.leb_gt p nb)), andb_false_r by lia.
Qed.

(** An endpoint outside of the tree hears in the last phase what its master has. *)
Lemma gather_outside i ep : returns op = true → at_site L (nb * lr) (Aux i) ep →
  gather (S (S (Z.to_nat nb))) ep =
    (if replace ep (nb + 1) then [] else gather (S (Z.to_nat nb)) ep) ++
    gather (S (Z.to_nat nb)) (master L i).
Proof.
  intros Hret Hsite. replace (nb + 1) with (Z.of_nat (S (Z.to_nat nb))) by lia.
  cbn [BarrierMachine.gather]. 
  rewrite (Hsrc (Aux i) ep (Z.of_nat (S (Z.to_nat nb)))) by (done || lia). unfold plan_src.
  rewrite (proj2 (Z.eqb_eq _ _)) by lia. rewrite Hret. cbn [andb].
  rewrite (bool_decide_eq_true_2 ([master L i] ≠ [])) by done. rewrite andb_true_r, bind_cons, app_nil_r.
  by destruct (replace ep _).
Qed.

Lemma all_receive i q : is_barrier_or_allreduce op = true → tree_receives op i q = true.
Proof. intros Ho. by apply (tree_all lr op Hop Hradix). Qed.

(** After a barrier everyone has heard of everyone. *)
Lemma gather_barrier σ ep k : is_barrier_or_allreduce op = true → (∀ x p, replace x p = false) →
  at_site L (nb * lr) σ ep →
  members L ⊆ gather (Z.to_nat (plan_last L nb op σ) + k) ep.
Proof.
  intros Ho Hno Hsite x Hx. apply gather_grows; [done|].
  assert (Hb : op = BARRIER_OP ∨ op = ALLREDUCE_OP).
  { destruct Hop as [H|[H|[H|H]]]; rewrite H in *; auto; done. }
  assert (Hne : (op =? REDUCE_OP) = false ∧ collects op = true ∧ returns op = true)
    by (destruct Hb as [-> | ->]; done).
  destruct Hne as (Hne&Hcol&Hret). unfold plan_last.
  destruct σ as [i|i]; rewrite Hne.
  - destruct Hsite as [Hi <-].
    assert (Hin : x ∈ gather (S (Z.to_nat nb)) (master L i)).
    { rewrite gather_tree by (done || (intros; by apply all_receive)). done. }
    destruct (has_aux L i); [|by replace (Z.to_nat (nb + 1)) with (S (Z.to_nat nb)) by lia].
    replace (Z.to_nat (nb + 2)) with (S (Z.to_nat nb) + 1)%nat by lia. by apply gather_grows.
  - replace (Z.to_nat (nb + 2)) with (S (S (Z.to_nat nb))) by lia.
    rewrite (gather_outside i) by done. rewrite Hno. apply elem_of_app. right.
    destruct Hsite as [Hi _]. rewrite gather_tree by (done || (intros; by apply all_receive)). done.
Qed.

(** After an allreduce everyone has every contribution, once. *)
Lemma gather_allreduce σ ep : is_barrier_or_allreduce op = true →
  (∀ i ep, at_site L (nb * lr) (Aux i) ep → replace ep (nb + 1) = true) →
  at_site L (nb * lr) σ ep → gather (S (S (Z.to_nat nb))) ep ≡ₚ members L.
Proof.
  intros Ho Haux Hsite.
  assert (Hb : collects op = true ∧ returns op = true).
  { destruct Hop as [H|[H|[H|H]]]; rewrite H in *; done. }
  destruct Hb as [Hcol Hret]. destruct σ as [i|i].
  - destruct Hsite as [Hi <-]. pose proof (gather_last i 1 Hi) as Hl.
    rewrite Nat.add_1_r in Hl. rewrite Hl. apply gather_tree; try done. intros. by apply all_receive.
  - rewrite (gather_outside i), (Haux i) by done. destruct Hsite as [Hi _]. cbn [app].
    apply gather_tree; try done. intros. by apply all_receive.
Qed.

(** After a reduce the first master, its root, has. *)
Lemma gather_reduce : op = REDUCE_OP → gather (S (S (Z.to_nat nb))) (master L 0) ≡ₚ members L.
Proof.
  intros Ho. assert (Hi : 0 ≤ 0 < h) by (split; [done|apply Z.pow_pos_nonneg; nia]).
  pose proof (gather_last 0 1 Hi) as Hl. rewrite Nat.add_1_r in Hl. rewrite Hl.
  apply gather_tree; [by rewrite Ho|done|]. intros q Hq. unfold tree_receives. by rewrite Ho.
Qed.

(** In a broadcast everyone hears from the first master. *)
Lemma gather_broadcast_master i : op = BROADCAST_OP → 0 ≤ i < h →
  master L 0 ∈ gather (S (Z.to_nat nb)) (master L i) ∧
  (i ≠ 0 → master L 0 ∈ gather (Z.to_nat (Z.log2 i + 2)) (master L i)).
Proof.
  intros Ho Hi. assert (Hl1 : lr = 1).
  { destruct (op_cases lr op Hop Hradix) as [H|[[H _]|[H _]]]; [by rewrite Ho in H|done..]. }
  assert (Hnext : i ≠ 0 → master L 0 ∈ gather (Z.to_nat (Z.log2 i + 2)) (master L i)).
  { revert Hi. remember (Z.to_nat i) as n eqn:Hn. revert i Hn.
    induction n as [n IH] using lt_wf_ind. intros i Hn Hi H0.
    pose proof (bounds_of lr nb i Hi H0 Hl1) as [_ Hlog].
    set (p := Z.log2 i + 1). set (j := Z.lxor i (2 ^ (p - 1))).
    assert (Hji : i = Z.lxor j (2 ^ (p - 1))).
    { unfold j. by rewrite Z.lxor_assoc, Z.lxor_nilpotent, Z.lxor_0_r. }
    assert (Hjp : j ∈ peers lr i p) by (rewrite Hl1; apply peers_one; unfold p; [lia|done]).
    assert (Hj : 0 ≤ j < h).
    { assert (Hall : Forall (λ j, 0 ≤ j < h) (peers lr i p)) by (apply peers_range; unfold p; lia).
      rewrite Forall_forall in Hall. auto. }
    pose proof (broadcast_match j i p ltac:(lia) ltac:(lia) ltac:(unfold p; lia) Hji) as [_ Hm].
    specialize (Hm (conj H0 eq_refl)).
    replace (Z.to_nat (Z.log2 i + 2)) with (S (Z.to_nat p)) by (unfold p; lia).
    rewrite gather_step by done. apply elem_of_app. right. apply list_elem_of_bind.
    exists (master L j). split.
    - destruct (decide (j = 0)) as [->|Hj0]; [apply gather_self; intros; apply Hrep; split; [done|]|].
      { apply Z.pow_pos_nonneg; nia. }
      destruct Hm as [?|Hm]; [done|].
      assert (Hlt : 0 ≤ j < i).
      { split; [lia|]. apply Z.log2_lt_cancel. unfold p in Hm. lia. }
      specialize (IH (Z.to_nat j) ltac:(lia) j eq_refl Hj Hj0).
      replace (Z.to_nat p) with (Z.to_nat (Z.log2 j + 2) + Z.to_nat (p - Z.log2 j - 2))%nat
        by (pose proof (Z.log2_nonneg j); lia).
      apply gather_grows; [|done]. intros. by apply Hrep.
    - rewrite Z2Nat.id by (unfold p; lia). unfold plan_src.
      rewrite (proj2 (Z.eqb_neq p 0)) by (unfold p; lia).
      replace (in_tree nb p) with true by (symmetry; apply in_tree_spec; unfold p; lia).
      unfold tree_receives. rewrite Ho. cbn [Z.eqb Pos.eqb REDUCE_OP BROADCAST_OP].
      rewrite (proj2 (Z.eqb_neq i 0)) by done. fold p. rewrite Z.eqb_refl. cbn [negb andb].
      apply list_elem_of_fmap. by exists j. }
  split; [|done]. destruct (decide (i = 0)) as [->|H0].
  - apply gather_self. intros. by apply Hrep.
  - pose proof (bounds_of lr nb i Hi H0 Hl1) as [_ Hlog].
    replace (S (Z.to_nat nb)) with (Z.to_nat (Z.log2 i + 2) + Z.to_nat (nb - Z.log2 i - 1))%nat by lia.
    apply gather_grows; [intros; by apply Hrep|auto].
Qed.

Lemma gather_broadcast σ ep : op = BROADCAST_OP → at_site L (nb * lr) σ ep →
  master L 0 ∈ gather (S (S (Z.to_nat nb))) ep.
Proof.
  intros Ho Hsite. destruct σ as [i|i].
  - destruct Hsite as [Hi <-]. replace (S (S (Z.to_nat nb))) with (S (Z.to_nat nb) + 1)%nat by lia.
    apply gather_grows; [intros; by apply Hrep|]. by apply gather_broadcast_master.
  - rewrite (gather_outside i) by (done || by rewrite Ho). apply elem_of_app. right.
    destruct Hsite as [Hi _]. by apply gather_broadcast_master.
Qed.
End plan.
