(* ===== verification/TopologyMapSpec.v ===== *)
(** The map of a topology (TopologyMap of MultinomialMap.h) describes a layout: the
    endpoints of the topology in order from the root on, the first power of two of them
    masters, the rest behind the first ones. *)
From S2P Require Import Prelude.
From S2P Require Import Topology.
From S2P Require Import TopologyModel.
From S2P Require Import TopologyEndpoints.
From S2P Require Import Schedule.
From S2P Require Import MultinomialMap.
From S2P Require Import MultinomialTree.
From S2P Require Import MultinomialSpec.

#[local] Opaque w32 w64.

(** * What a schedule needs of a topology *)

Record endpoint_list (mapping : Mapping) (s : arrays) (t : Topology) (eps : list Z) : Prop := {
  el_NoDup : NoDup eps;
  el_size : size t = Z.of_nat (length eps);
  el_get i ep : 0 ≤ i → eps !! Z.to_nat i = Some ep → index2Endpoint mapping t i s = Ok ep;
  el_find i ep : 0 ≤ i → eps !! Z.to_nat i = Some ep → endpoint2Index mapping t ep s = Ok i
}.

Lemma denotes_endpoint_list m machine s t l k : mapping_ok m machine → denotes m s t l →
  endpoints_ok m k → contexts_ok k t l → endpoint_list m s t (endpoints m t l).
Proof.
  intros Hm Hd Hk Hc. split.
  - by apply (NoDup_endpoints m machine Hm s t l k).
  - by apply (size_endpoints m s t l k).
  - intros i ep Hi Hl. pose proof (lookup_lt_Some _ _ _ Hl).
    rewrite (index2Endpoint_spec m machine Hm s t l k) by (done || lia). by rewrite Hl.
  - intros i ep Hi Hl. by apply (endpoint2Index_spec m machine Hm s t l k).
Qed.

(** * The layout *)

Definition rotate_by (n : nat) (l : list Z) : list Z := drop n l ++ take n l.

Lemma rotate_perm n l : rotate_by n l ≡ₚ l.
Proof. unfold rotate_by. rewrite Permutation_app_comm. by rewrite take_drop. Qed.

Lemma rotate_lookup n l i : (n ≤ length l)%nat → (i < length l)%nat →
  rotate_by n l !! i = l !! (if decide (i + n < length l)%nat then i + n else i + n - length l)%nat.
Proof.
  intros Hn Hi. unfold rotate_by. case_decide.
  - rewrite lookup_app_l by (rewrite length_drop; lia). rewrite lookup_drop. f_equal. lia.
  - rewrite lookup_app_r by (rewrite length_drop; lia). rewrite length_drop, lookup_take_lt by lia.
    f_equal. lia.
Qed.

(** [eps] from index [root] on, in a tree of [2 ^ c] masters. *)
Definition layout_of (c : Z) (root : nat) (eps : list Z) : layout :=
  let l := rotate_by root eps in
  let h := Z.to_nat (2 ^ c) in
  mkLayout (take h l) (map (λ i, option_list (l !! (h + i)%nat)) (seq 0 h)).

Lemma join_lookups (l : list Z) k : (length l ≤ k)%nat →
  mjoin (map (λ i, option_list (l !! i)) (seq 0 k)) = l.
Proof.
  revert l. induction k as [|k IH]; intros l Hl.
  - by destruct l; cbn in Hl; [|lia].
  - cbn [seq map mjoin list_join]. rewrite <- seq_shift, map_map. destruct l as [|x l]; cbn in *.
    + clear. induction (seq 0 k); [done|]. done.
    + f_equal. apply IH. lia.
Qed.

Section layout.
Context (c : Z) (root : nat) (eps : list Z).
Context (Hc : 0 ≤ c ≤ 30) (Hn : 2 ^ c ≤ Z.of_nat (length eps) < 2 * 2 ^ c) (Hroot : (root < length eps)%nat).
Context (Hnd : NoDup eps).

Notation L := (layout_of c root eps).
Notation n := (length eps).
Notation h := (Z.to_nat (2 ^ c)).
Notation l := (rotate_by root eps).

Lemma length_rotated : length l = n.
Proof. apply Permutation_length, rotate_perm. Qed.

Lemma auxes_join : mjoin (auxes L) = drop h l.
Proof.
  unfold layout_of. cbn [auxes]. rewrite <- (join_lookups (drop h l) h).
  - f_equal. apply map_ext. intros i. by rewrite lookup_drop.
  - rewrite length_drop, length_rotated. lia.
Qed.

Lemma members_perm : members L ≡ₚ eps.
Proof. unfold members. rewrite auxes_join. cbn. rewrite take_drop. apply rotate_perm. Qed.

Lemma master_at i ep : 0 ≤ i < 2 ^ c → l !! Z.to_nat i = Some ep → master L i = ep.
Proof. intros Hi Hl. unfold master, layout_of. cbn. by rewrite lookup_take_lt, Hl by lia. Qed.

Lemma auxes_of_at i : 0 ≤ i < 2 ^ c → auxes_of L i = option_list (l !! (h + Z.to_nat i)%nat).
Proof.
  intros Hi. unfold auxes_of, layout_of. cbn [auxes]. rewrite list_lookup_fmap.
  rewrite lookup_seq_lt by lia. done.
Qed.

Lemma layout_of_ok : layout_ok L c.
Proof.
  split.
  - done.
  - cbn. rewrite length_take, length_rotated. lia.
  - cbn. rewrite length_map, length_seq. lia.
  - by rewrite members_perm.
  - intros i. unfold auxes_of, layout_of. cbn [auxes]. rewrite list_lookup_fmap.
    destruct (seq 0 h !! Z.to_nat i); cbn; [|lia]. destruct (l !! _); cbn; lia.
Qed.

(** The place of a rank. *)
Definition site_at (i : Z) : site := if i <? 2 ^ c then Master i else Aux (i - 2 ^ c).

Lemma site_at_site i ep : 0 ≤ i → l !! Z.to_nat i = Some ep → at_site L c (site_at i) ep.
Proof.
  intros Hi Hl. pose proof (lookup_lt_Some _ _ _ Hl) as Hlt. rewrite length_rotated in Hlt.
  unfold site_at. destruct (Z.ltb_spec i (2 ^ c)).
  - split; [lia|]. apply master_at; [lia|done].
  - assert (0 ≤ i - 2 ^ c < 2 ^ c) as Hr by lia. split; [done|]. rewrite auxes_of_at by done.
    replace (h + Z.to_nat (i - 2 ^ c))%nat with (Z.to_nat i) by lia. rewrite Hl. cbn. by left.
Qed.

(** The power of two test of [hasAuxPhases]. *)
Lemma land_pred m : 0 < m → (Z.land m (m - 1) =? 0) = (m =? 2 ^ Z.log2 m).
Proof.
  clear. intros Hm. pose proof (Z.log2_spec m Hm) as Hs. destruct (Z.eqb_spec m (2 ^ Z.log2 m)) as [Heq|Hne].
  - pose proof (Z.log2_nonneg m) as Hq. apply Z.eqb_eq. remember (Z.log2 m) as q. rewrite Heq.
    apply Z.bits_inj'. intros k Hk. rewrite Z.land_spec, Z.bits_0, Z.pow2_bits_eqb by done.
    destruct (Z.eqb_spec q k) as [<-|]; [|done]. cbn [andb].
    apply (testbit_high _ q); [|done]. lia.
  - apply Z.eqb_neq. intros Hz. pose proof (Z.bit_log2 m Hm) as Hb1.
    assert (Hlog : Z.log2 (m - 1) = Z.log2 m).
    { apply Z.log2_unique; [apply Z.log2_nonneg|]. unfold Z.succ in *. lia. }
    pose proof (Z.bit_log2 (m - 1)) as Hb2. rewrite Hlog in Hb2.
    assert (0 < m - 1) as Hpos.
    { assert (m ≠ 1) by (intros ->; by apply Hne). lia. }
    assert (Hland : Z.testbit (Z.land m (m - 1)) (Z.log2 m) = true) by (by rewrite Z.land_spec, Hb1, Hb2).
    rewrite Hz, Z.bits_0 in Hland. done.
Qed.
End layout.

(** * The map *)

Section map.
Context (mapping : Mapping) (s : arrays) (t : Topology) (eps : list Z).
Context (Hel : endpoint_list mapping s t eps).
Context (Hlen : 1 ≤ Z.of_nat (length eps) < 2 ^ 31).

Notation n := (Z.of_nat (length eps)).
Notation c := (Z.log2 n).

Lemma log2_length : 0 ≤ c ≤ 30 ∧ 2 ^ c ≤ n < 2 * 2 ^ c.
Proof.
  pose proof (Z.log2_spec n ltac:(lia)) as Hs. pose proof (Z.log2_nonneg n).
  pose proof (proj1 (Z.log2_lt_pow2 n 31 ltac:(lia))). rewrite <- Z.add_1_r, Z.pow_add_r in Hs by lia.
  change (2 ^ 1) with 2 in Hs. lia.
Qed.

(** Of [k]-th endpoint, with the root at index [root]. *)
Definition rank_of (root k : Z) : Z := if root <=? k then k - root else k + n - root.

Lemma rank_of_lookup root k ep : 0 ≤ root < n → 0 ≤ k → eps !! Z.to_nat k = Some ep →
  0 ≤ rank_of root k < n ∧ rotate_by (Z.to_nat root) eps !! Z.to_nat (rank_of root k) = Some ep.
Proof.
  intros Hr Hk Hep. pose proof (lookup_lt_Some _ _ _ Hep). unfold rank_of.
  destruct (Z.leb_spec root k); (split; [lia|]); rewrite rotate_lookup by lia; case_decide; try lia;
    rewrite <- Hep; f_equal; lia.
Qed.

Definition map_at (root k : Z) : TopologyMap := TopologyMap.mkMap (2 ^ c) root k t.

Lemma getGlobalRank_spec root k i ep : 0 ≤ root < n → 0 ≤ i < n →
  rotate_by (Z.to_nat root) eps !! Z.to_nat i = Some ep →
  TopologyMap.getGlobalRank mapping s i (map_at root k) = Ok ep.
Proof.
  intros Hr Hi Hl. unfold TopologyMap.getGlobalRank, TopologyMap.map_size. cbn.
  rewrite (w32_small (i + root)), (el_size _ _ _ _ Hel) by lia.
  rewrite rotate_lookup in Hl by lia.
  destruct (Z.leb_spec n (i + root)).
  - rewrite w32_small by lia. apply (el_get _ _ _ _ Hel); [lia|].
    rewrite <- Hl. f_equal. case_decide; lia.
  - apply (el_get _ _ _ _ Hel); [lia|]. rewrite <- Hl. f_equal. case_decide; lia.
Qed.

Lemma map_describes root k ep : 0 ≤ root < n → 0 ≤ k → eps !! Z.to_nat k = Some ep →
  at_site (layout_of c (Z.to_nat root) eps) c (site_at c (rank_of root k)) ep ∧
  describes mapping s (layout_of c (Z.to_nat root) eps) c (site_at c (rank_of root k)) (map_at root k).
Proof.
  intros Hr Hk Hep. pose proof log2_length as [Hc Hn]. pose proof (lookup_lt_Some _ _ _ Hep) as Hlt.
  destruct (rank_of_lookup root k ep Hr Hk Hep) as [Hrank Hlk].
  pose proof (Z.pow_le_mono_r 2 c 30 ltac:(lia) ltac:(lia)) as Hpow. change (2 ^ 30) with 1073741824 in Hpow.
  pose proof (length_rotated (Z.to_nat root) eps) as Hlr.
  split; [apply site_at_site; try done; lia|].
  assert (Hmy : TopologyMap.getMyRank (map_at root k) = rank_of root k).
  { unfold TopologyMap.getMyRank, TopologyMap.map_size, rank_of. cbn. rewrite (el_size _ _ _ _ Hel).
    destruct (Z.leb_spec root k); apply w32_small; lia. }
  assert (Hsz : w64 (size t - 2 ^ c) = n - 2 ^ c).
  { rewrite (el_size _ _ _ _ Hel). apply w64_small. lia. }
  assert (Haux : ∀ i, 0 ≤ i < 2 ^ c →
    auxes_of (layout_of c (Z.to_nat root) eps) i =
      option_list (rotate_by (Z.to_nat root) eps !! Z.to_nat (2 ^ c + i))).
  { intros i Hi. rewrite auxes_of_at by (done || lia). do 2 f_equal. lia. }
  assert (Hpeer : ∀ i, 0 ≤ i < 2 ^ c → (i <? n - 2 ^ c) =
    bool_decide (auxes_of (layout_of c (Z.to_nat root) eps) i ≠ [])).
  { intros i Hi. rewrite Haux by done. destruct (Z.ltb_spec i (n - 2 ^ c)).
    - destruct (lookup_lt_is_Some_2 (rotate_by (Z.to_nat root) eps) (Z.to_nat (2 ^ c + i))) as [x ->];
        [lia|done].
    - rewrite (lookup_ge_None_2 (rotate_by _ _)) by lia. done. }
  unfold site_at. split; cbn [getNumRanks hasAuxPhases isAuxProc isPeerProc getAuxForPeer getPeerForAux
    getGlobalRank getMyRank TopologyMap_map].
  - unfold TopologyMap.getNumRanks, TopologyMap.map_size. cbn. rewrite (el_size _ _ _ _ Hel).
    rewrite w32_small by lia. split; [lia|]. apply count_halvings_log2. lia.
  - unfold TopologyMap.hasAuxPhases, TopologyMap.map_size. cbn [map_at TopologyMap._topology].
    rewrite (el_size _ _ _ _ Hel), w64_small, land_pred by lia.
    rewrite (auxes_join c (Z.to_nat root) eps) by lia.
    destruct (Z.eqb_spec n (2 ^ c)) as [He|He]; cbn [negb]; symmetry.
    + apply bool_decide_eq_false_2. intros Hne. apply Hne, nil_length_inv. rewrite length_drop. lia.
    + apply bool_decide_eq_true_2. intros Hnil. apply (f_equal length) in Hnil.
      rewrite length_drop in Hnil. cbn in Hnil. lia.
  - intros i Hi. destruct (lookup_lt_is_Some_2 (rotate_by (Z.to_nat root) eps) (Z.to_nat i)) as [x Hx]; [lia|].
    rewrite (getGlobalRank_spec root k i x) by (done || lia). f_equal. symmetry.
    apply master_at; (done || lia).
  - unfold TopologyMap.isAuxProc. rewrite Hmy. cbn.
    destruct (Z.ltb_spec (rank_of root k) (2 ^ c)), (Z.leb_spec (2 ^ c) (rank_of root k)); (done || lia).
  - intros i Hi. rewrite Hmy. destruct (Z.ltb_spec (rank_of root k) (2 ^ c)); by simplify_eq.
  - unfold TopologyMap.isPeerProc. rewrite Hmy. unfold TopologyMap.map_size. cbn. rewrite Hsz.
    destruct (Z.ltb_spec (rank_of root k) (2 ^ c)); [apply Hpeer; lia|].
    apply Z.ltb_ge. lia.
  - intros i Hi Hne. destruct (Z.ltb_spec (rank_of root k) (2 ^ c)) as [Hm|]; [|done]. injection Hi as <-.
    unfold TopologyMap.getAuxForPeer, TopologyMap.isPeerProc. rewrite Hmy. unfold TopologyMap.map_size. cbn.
    rewrite Hsz, Hpeer by lia. rewrite bool_decide_eq_true_2 by done. cbn [assert]. rewrite Ok_bind.
    assert (Hi : rank_of root k < n - 2 ^ c).
    { apply Z.ltb_lt. rewrite Hpeer by lia. by apply bool_decide_eq_true_2. }
    rewrite Haux by lia. rewrite w32_small by lia.
    destruct (lookup_lt_is_Some_2 (rotate_by (Z.to_nat root) eps) (Z.to_nat (2 ^ c + rank_of root k)))
      as [x Hx]; [lia|]. rewrite Hx. exists [rank_of root k + 2 ^ c]. split; [done|]. split; [done|].
    cbn. rewrite Z.add_comm in Hx.
    by rewrite (getGlobalRank_spec root k (rank_of root k + 2 ^ c) x) by (done || lia).
  - intros i Hi. destruct (Z.ltb_spec (rank_of root k) (2 ^ c)) as [|Hm]; [done|]. injection Hi as <-.
    unfold TopologyMap.getPeerForAux, TopologyMap.isAuxProc. rewrite Hmy. cbn.
    rewrite (proj2 (Z.leb_le _ _)) by lia. cbn [assert]. rewrite Ok_bind, w32_small by lia. done.
Qed.
End map.
