(* ===== verification/ScheduleProps.v ===== *)
(** The multinomial schedules of a topology: sends and receives match, and each collective
    gathers what it should. *)
From S2P Require Import Prelude.
From S2P Require Import Topology.
From S2P Require Import Schedule.
From S2P Require Import MultinomialMap.
From S2P Require Import MultinomialTree.
From S2P Require Import ScheduleCache.
From S2P Require Import BarrierMachine.
From S2P Require Import MultinomialSpec.
From S2P Require Import ScheduleSpec.
From S2P Require Import ScheduleGather.
From S2P Require Import TopologyMapSpec.
From S2P Require Import TopologyGrid.
From S2P Require Import TopologyProps.

(** * The schedules of all the endpoints *)

Section schedules.
Context (T_MaxRadix : Z) (junk : phases) (mapping : Mapping) (s : arrays) (t : Topology) (op root : Z).

(** The schedule of an endpoint, made and initialised. *)
Definition schedule_of (ep : Z) : res (MultinomialTreeT TopologyMap * (Z * Z)) :=
  tree ← TopoMultinomial T_MaxRadix junk mapping s ep t;
  init mapping s root op tree.

(** Who it receives from and sends to in a phase, and nobody outside of its phases. *)
Definition phase_list (get : MultinomialTreeT TopologyMap → res (list Z)) (ep p : Z) : list Z :=
  match
    '(tree, (st, np)) ← schedule_of ep;
    if (st <=? p) && (p <? st + np) then get tree else mret []
  with Ok l => l | Err _ => [] end.

Definition sources (ep p : Z) : list Z := phase_list (getSrcTopology mapping s p SC_MAXRANKS) ep p.
Definition destinations (ep p : Z) : list Z := phase_list (getDstTopology mapping s p SC_MAXRANKS) ep p.

(** Whether what arrives is a result rather than a contribution: after the last phase of
    the reduction, which is the last phase where the schedule does not tell. *)
Definition replaces (ep p : Z) : bool :=
  match schedule_of ep with
  | Ok (tree, (st, np)) =>
      let l := getLastReducePhase tree in
      (if l =? UNDEFINED_PHASE then st + np - 1 else l) <? p
  | Err _ => false
  end.

(** Phases enough for every endpoint. *)
Definition num_phases (eps : list Z) : nat :=
  Z.to_nat ((getMaxPhases T_MaxRadix (Z.of_nat (length eps))).1 + 1).

(** The collectives that the schedules are for. *)
Record schedule_ok (eps : list Z) : Prop := {
  so_list : endpoint_list mapping s t eps;
  so_length : 1 ≤ Z.of_nat (length eps) < 2 ^ 31;
  so_op : is_op op;
  so_radix : is_barrier_or_allreduce op = true ∨ T_MaxRadix < 4;
  so_root : is_barrier_or_allreduce op = false → root ∈ eps ∧ 0 ≤ root < 2 ^ 32
}.

(** ** What they are *)

Context (eps : list Z) (Hok : schedule_ok eps).

Notation n := (Z.of_nat (length eps)).
Notation c := (Z.log2 n).

(** The index of the first master. *)
Definition root_index : Z := if is_barrier_or_allreduce op then 0 else default 0 (find_index root eps).
Definition radix_log : Z := Z.log2 (getRadix T_MaxRadix n).
Definition tree_phases : Z := (getMaxPhases T_MaxRadix n).2.
Definition the_layout : layout := layout_of c (Z.to_nat root_index) eps.

Notation lr := radix_log.
Notation nb := tree_phases.
Notation L := the_layout.

Lemma radix_facts : getRadix T_MaxRadix n = 2 ^ lr ∧ 1 ≤ lr ≤ 3 ∧ (T_MaxRadix < 4 → lr = 1) ∧
  (if getRadix T_MaxRadix n =? 8 then 3 else if getRadix T_MaxRadix n =? 4 then 2 else 1) = lr ∧
  getMaxPhases T_MaxRadix n = (nb + 1, nb) ∧ 0 ≤ nb ∧ nb * lr = c.
Proof.
  pose proof (so_length _ Hok) as Hn. pose proof (count_halvings_log2 n ltac:(lia)) as Hc.
  pose proof (Z.log2_nonneg n). unfold radix_log, tree_phases.
  destruct (getMaxPhases_spec T_MaxRadix n) as (lr&nb&Hr&Hlr&Hone&Hlog&Hmax&Hnb&Hc'); [lia|lia|].
  rewrite Hmax. rewrite Hr in *. rewrite Z.log2_pow2 by lia. cbn [fst snd]. rewrite <- Hc. done.
Qed.

Lemma radix_op : is_barrier_or_allreduce op = true ∨ lr = 1.
Proof. destruct (so_radix _ Hok); [by left|right]. by apply radix_facts. Qed.

Lemma root_index_spec : 0 ≤ root_index < n ∧
  (is_barrier_or_allreduce op = false → eps !! Z.to_nat root_index = Some root).
Proof.
  pose proof (so_length _ Hok) as Hn. unfold root_index.
  destruct (is_barrier_or_allreduce op) eqn:Hb; [split; [lia|done]|].
  destruct (proj1 (list_elem_of_lookup _ _) (proj1 (so_root _ Hok Hb))) as [i Hi].
  pose proof (lookup_lt_Some _ _ _ Hi).
  rewrite (TopologyModel.find_index_lookup eps i root (el_NoDup _ _ _ _ (so_list _ Hok)) Hi). cbn.
  rewrite Nat2Z.id. split; [lia|done].
Qed.

Lemma the_layout_ok : layout_ok L (nb * lr).
Proof.
  destruct radix_facts as (_&_&_&_&_&_&->). pose proof (log2_length eps (so_length _ Hok)) as [Hc Hn].
  pose proof root_index_spec as [? _].
  apply layout_of_ok; try (done || lia). apply (so_list _ Hok).
Qed.

Lemma the_members : members L ≡ₚ eps.
Proof.
  pose proof (log2_length eps (so_length _ Hok)) as [Hc Hn]. pose proof root_index_spec as [? _].
  apply members_perm; (done || lia).
Qed.

(** The schedule of each endpoint follows the plan. *)
Lemma schedule_of_spec ep : ep ∈ eps → ∃ σ tree, at_site L (nb * lr) σ ep ∧
  schedule_of ep = Ok (tree, (plan_first L nb op σ, plan_last L nb op σ - plan_first L nb op σ)) ∧
  planned mapping s L lr nb σ tree ∧ _phases tree = plan_phases L nb op σ ∧ _op tree = op.
Proof.
  intros Hep. destruct (proj1 (list_elem_of_lookup _ _) Hep) as [k Hk].
  pose proof (so_list _ Hok) as Hel. pose proof (so_length _ Hok) as Hlen.
  destruct (root_index_spec) as [Hri Hroot]. destruct radix_facts as (Hrad&Hlr&_&Hlog&Hmax&Hnb&Hc).
  pose proof (log2_length eps Hlen) as [Hc30 Hpow].
  assert (Hk' : eps !! Z.to_nat (Z.of_nat k) = Some ep) by by rewrite Nat2Z.id.
  destruct (map_describes mapping s t eps Hel Hlen root_index (Z.of_nat k) ep Hri ltac:(lia) Hk')
    as [Hsite Hds].
  set (σ := site_at c (rank_of eps root_index (Z.of_nat k))) in *. fold L in Hsite, Hds.
  exists σ. unfold schedule_of, TopoMultinomial, TopologyMap.new.
  rewrite (el_find _ _ _ _ Hel (Z.of_nat k)) by (done || lia). rewrite Ok_bind.
  rewrite (el_size _ _ _ _ Hel), w32_small, count_halvings_log2, int_power_Ok by lia. rewrite !Ok_bind.
  fold (map_at t eps 0 (Z.of_nat k)). unfold initBinoSched.
  assert (Hnr : getNumRanks (map_at t eps 0 (Z.of_nat k)) = n).
  { cbn. unfold TopologyMap.getNumRanks, TopologyMap.map_size. cbn.
    rewrite (el_size _ _ _ _ Hel). apply w32_small. lia. }
  rewrite Hnr, Hlog, Hmax, Hc, int_power_Ok by lia. rewrite !Ok_bind. unfold init.
  change (hasAuxPhases (map_at t eps 0 (Z.of_nat k))) with
    (hasAuxPhases (map_at t eps root_index (Z.of_nat k))).
  rewrite (ds_has_aux _ _ _ _ _ _ Hds).
  replace ((op =? BARRIER_OP) || (op =? ALLREDUCE_OP) || (op =? REDUCE_OP) || (op =? BROADCAST_OP)) with true
    by (destruct (so_op _ Hok) as [-> |[-> |[-> | ->]]]; done).
  cbn [assert]. rewrite !Ok_bind. cbn [_map].
  assert (Hmap : (if (op =? REDUCE_OP) || (op =? BROADCAST_OP)
      then setRoot mapping s (w32 root) (map_at t eps 0 (Z.of_nat k))
      else mret (map_at t eps 0 (Z.of_nat k))) = Ok (map_at t eps root_index (Z.of_nat k))).
  { cbn [setRoot TopologyMap_map]. unfold TopologyMap.setRoot. cbn [map_at TopologyMap._topology].
    destruct (is_barrier_or_allreduce op) eqn:Hba.
    - replace ((op =? REDUCE_OP) || (op =? BROADCAST_OP)) with false
        by (destruct (so_op _ Hok) as [Ho|[Ho|[Ho|Ho]]]; rewrite Ho in *; done).
      unfold root_index. by rewrite Hba.
    - rewrite w32_small by apply (so_root _ Hok Hba).
      rewrite (el_find _ _ _ _ Hel root_index) by (done || lia || auto).
      by destruct (so_op _ Hok) as [Ho|[Ho|[Ho|Ho]]]; rewrite Ho in *. }
  rewrite Hmap, Ok_bind. set (tree := with_op _ op (map_at t eps root_index (Z.of_nat k)) _).
  assert (Hpl : planned mapping s L lr nb σ tree).
  { split; [done|done|exact Hrad|done|]. by rewrite Hc. }
  rewrite <- Hc in Hsite.
  rewrite (setupContext_spec mapping s L lr nb op the_layout_ok Hlr Hnb (so_op _ Hok) radix_op σ ep tree
    Hsite Hpl eq_refl).
  rewrite Ok_bind. exists (with_op tree op (map_at t eps root_index (Z.of_nat k)) (plan_phases L nb op σ)).
  split; [by rewrite <- Hc|]. split; [|split; [|done]].
  - do 2 f_equal. unfold plan_phases. destruct σ as [i|i]; [|done].
    destruct (op =? REDUCE_OP), (op =? BROADCAST_OP), (i =? 0); done.
  - destruct Hpl. by split.
Qed.

Lemma site_schedule σ ep : at_site L (nb * lr) σ ep → ep ∈ eps ∧ ∃ tree,
  schedule_of ep = Ok (tree, (plan_first L nb op σ, plan_last L nb op σ - plan_first L nb op σ)) ∧
  planned mapping s L lr nb σ tree ∧ _phases tree = plan_phases L nb op σ ∧ _op tree = op.
Proof.
  intros Hsite. destruct radix_facts as (_&Hlr&_&_&_&Hnb&_).
  assert (Hep : ep ∈ eps).
  { rewrite <- the_members. by apply (at_site_member L lr nb the_layout_ok Hlr Hnb σ). }
  split; [done|]. destruct (schedule_of_spec ep Hep) as (σ'&tree&Hsite'&Hrest).
  rewrite (at_site_unique L lr nb the_layout_ok Hlr Hnb σ σ' ep Hsite Hsite'). eauto.
Qed.

Lemma endpoint_site ep : ep ∈ eps → ∃ σ, at_site L (nb * lr) σ ep.
Proof.
  destruct radix_facts as (_&Hlr&_&_&_&Hnb&_). intros Hep. rewrite <- the_members in Hep.
  by apply (member_at_site L lr nb the_layout_ok Hlr Hnb).
Qed.

(** The lists of a phase are those of the plan. *)
Lemma sources_plan σ ep p : at_site L (nb * lr) σ ep → sources ep p = plan_src L lr nb op σ p.
Proof.
  intros Hsite. destruct (site_schedule σ ep Hsite) as [_ (tree&Hrun&Hpl&Hph&_)].
  destruct radix_facts as (_&Hlr&_&_&_&Hnb&_).
  unfold sources, phase_list. rewrite Hrun, Ok_bind.
  destruct (decide (plan_first L nb op σ ≤ p < plan_last L nb op σ)) as [Hp|Hp].
  - rewrite (proj2 (Z.leb_le _ _)), (proj2 (Z.ltb_lt _ _)) by lia. cbn [andb].
    by rewrite (getSrcTopology_spec mapping s L lr nb op the_layout_ok Hlr Hnb (so_op _ Hok) radix_op σ ep).
  - replace ((plan_first L nb op σ <=? p) && _) with false by lia. symmetry.
    destruct (plan_src L lr nb op σ p) as [|x l] eqn:Hl; [done|]. exfalso. apply Hp.
    apply (plan_active L lr nb op the_layout_ok Hlr Hnb (so_op _ Hok) radix_op σ ep x p Hsite).
    left. rewrite Hl. by left.
Qed.

Lemma destinations_plan σ ep p : at_site L (nb * lr) σ ep → destinations ep p = plan_dst L lr nb op σ p.
Proof.
  intros Hsite. destruct (site_schedule σ ep Hsite) as [_ (tree&Hrun&Hpl&Hph&_)].
  destruct radix_facts as (_&Hlr&_&_&_&Hnb&_).
  unfold destinations, phase_list. rewrite Hrun, Ok_bind.
  destruct (decide (plan_first L nb op σ ≤ p < plan_last L nb op σ)) as [Hp|Hp].
  - rewrite (proj2 (Z.leb_le _ _)), (proj2 (Z.ltb_lt _ _)) by lia. cbn [andb].
    by rewrite (getDstTopology_spec mapping s L lr nb op the_layout_ok Hlr Hnb (so_op _ Hok) radix_op σ ep).
  - replace ((plan_first L nb op σ <=? p) && _) with false by lia. symmetry.
    destruct (plan_dst L lr nb op σ p) as [|x l] eqn:Hl; [done|]. exfalso. apply Hp.
    apply (plan_active L lr nb op the_layout_ok Hlr Hnb (so_op _ Hok) radix_op σ ep x p Hsite).
    right. rewrite Hl. by left.
Qed.

(** A phase of an endpoint: the lists come out, distinct and within the endpoints. *)
Definition phase_sound (tree : MultinomialTreeT TopologyMap) (p : Z) : Prop :=
  ∃ src dst, getSrcTopology mapping s p SC_MAXRANKS tree = Ok src ∧
    getDstTopology mapping s p SC_MAXRANKS tree = Ok dst ∧
    NoDup src ∧ NoDup dst ∧ src ⊆ eps ∧ dst ⊆ eps.

(** C30. In the schedule of a barrier, an allreduce, a reduce or a broadcast every endpoint
    of the topology gets a range of phases and, in each of them, lists of distinct
    endpoints of the topology to receive from and to send to; and one endpoint sends to
    another in a phase exactly when that one receives from it.  Any number of endpoints,
    any root, any radix for barrier and allreduce, radix 2 for the others. *)
Theorem schedule_matches :
  (∀ ep, ep ∈ eps → ∃ tree st np, schedule_of ep = Ok (tree, (st, np)) ∧ 0 ≤ st ∧ 0 ≤ np ∧
     ∀ p, st ≤ p < st + np → phase_sound tree p) ∧
  ∀ x y p, x ∈ eps → y ∈ eps → y ∈ destinations x p ↔ x ∈ sources y p.
Proof.
  destruct radix_facts as (_&Hlr&_&_&_&Hnb&_). split.
  - intros ep Hep. destruct (schedule_of_spec ep Hep) as (σ&tree&Hsite&Hrun&Hpl&Hph&_).
    pose proof (plan_ordered L lr nb op Hlr Hnb (so_op _ Hok) radix_op σ ep Hsite) as Hord.
    eexists _, _, _. split; [exact Hrun|]. split; [lia|]. split; [lia|]. intros p Hp.
    eexists _, _. split.
    { apply (getSrcTopology_spec mapping s L lr nb op the_layout_ok Hlr Hnb (so_op _ Hok) radix_op σ ep);
        try done. lia. }
    split.
    { apply (getDstTopology_spec mapping s L lr nb op the_layout_ok Hlr Hnb (so_op _ Hok) radix_op σ ep);
        try done. lia. }
    destruct (plan_lists L lr nb op the_layout_ok Hlr Hnb σ ep p Hsite) as (Hs&Hd&_&_).
    split; [done|]. split; [done|].
    split; intros x Hx; rewrite <- the_members;
      apply (plan_member L lr nb op the_layout_ok Hlr Hnb (so_op _ Hok) radix_op σ ep x p Hsite); auto.
  - intros x y p Hx Hy. destruct (endpoint_site x Hx) as [σ Hσ], (endpoint_site y Hy) as [σ' Hσ'].
    rewrite (destinations_plan σ), (sources_plan σ') by done.
    by apply (plan_match L lr nb op the_layout_ok Hlr Hnb (so_op _ Hok) radix_op).
Qed.

Lemma root_master : is_barrier_or_allreduce op = false → master L 0 = root.
Proof.
  intros Hb. destruct root_index_spec as [Hri Hroot]. pose proof (log2_length eps (so_length _ Hok)) as [Hc Hn].
  apply master_at; try (done || lia || by apply so_list). rewrite rotate_lookup by lia.
  case_decide; rewrite <- (Hroot Hb); f_equal; lia.
Qed.

(** Only the endpoints outside of the tree hear a result, in their last phase. *)
Lemma replaces_plan σ ep p : at_site L (nb * lr) σ ep → sources ep p ≠ [] →
  replaces ep p = match σ with Aux _ => op =? ALLREDUCE_OP | Master _ => false end.
Proof.
  intros Hsite Hne. rewrite (sources_plan σ) in Hne by done. destruct radix_facts as (_&Hlr&_&_&_&Hnb&_).
  destruct (plan_src L lr nb op σ p) as [|x l] eqn:Hl; [done|].
  pose proof (plan_active L lr nb op the_layout_ok Hlr Hnb (so_op _ Hok) radix_op σ ep x p Hsite
    ltac:(left; rewrite Hl; by left)) as Hp.
  destruct (site_schedule σ ep Hsite) as [_ (tree&Hrun&_&Hph&_)].
  unfold replaces. rewrite Hrun. unfold getLastReducePhase. rewrite Hph.
  assert (Hund : _lastrdcph (plan_phases L nb op σ) =
    match σ with Aux _ => if op =? ALLREDUCE_OP then nb else UNDEFINED_PHASE | Master _ => UNDEFINED_PHASE end).
  { unfold plan_phases. destruct σ; [|done]. by destruct (op =? REDUCE_OP), (op =? BROADCAST_OP), (i =? 0). }
  rewrite Hund. destruct σ as [i|i]; [rewrite Z.eqb_refl; lia|].
  destruct (op =? ALLREDUCE_OP); [|rewrite Z.eqb_refl; lia].
  pose proof (nb_bound L lr nb the_layout_ok Hlr Hnb). destruct phase_codes as [Hun _]. rewrite Hun.
  rewrite (proj2 (Z.eqb_neq nb _)) by lia.
  assert (Hx : x ∈ plan_src L lr nb op (Aux i) p) by (rewrite Hl; by left).
  apply (psrc_aux L lr nb op the_layout_ok Hlr Hnb (so_op _ Hok) radix_op) in Hx as (->&_). lia.
Qed.

(** What every endpoint has after all the phases of the collective. *)
Definition gathered (ep : Z) : list Z := gather sources replaces (num_phases eps) ep.

(** The sources, with a rule for replacing that depends on the site. *)
Lemma gathered_plan (rule : Z → Z → bool) ep : ep ∈ eps →
  (∀ σ x p, at_site L (nb * lr) σ x → sources x p ≠ [] →
     rule x p = match σ with Aux _ => op =? ALLREDUCE_OP | Master _ => false end) →
  gathered ep = gather sources rule (S (S (Z.to_nat nb))) ep.
Proof.
  intros Hep Hrule. unfold gathered, num_phases. destruct radix_facts as (_&Hlr&_&_&->&Hnb&_). cbn [fst].
  replace (Z.to_nat (nb + 1 + 1)) with (S (S (Z.to_nat nb))) by lia.
  apply (gather_ext _ _ _ eps); [|intros x p Hx|done].
  - intros x p Hx Hne. destruct (endpoint_site x Hx) as [σ Hσ].
    by rewrite (replaces_plan σ), (Hrule σ).
  - destruct (endpoint_site x Hx) as [σ Hσ]. rewrite (sources_plan σ) by done. intros y Hy.
    rewrite <- the_members. eapply (plan_member L lr nb op the_layout_ok Hlr Hnb (so_op _ Hok) radix_op σ x); eauto.
Qed.

(** The rule of an allreduce. *)
Definition outside (ep _ : Z) : bool := negb (bool_decide (ep ∈ masters L)).

Lemma outside_site σ ep p : at_site L (nb * lr) σ ep →
  outside ep p = match σ with Aux _ => true | Master _ => false end.
Proof.
  destruct radix_facts as (_&Hlr&_&_&_&Hnb&_). intros Hsite. unfold outside.
  destruct σ as [i|i]; destruct Hsite as [Hi He].
  - rewrite bool_decide_eq_true_2; [done|]. subst ep. eapply list_elem_of_lookup_2.
    by apply (master_lookup L lr nb the_layout_ok Hlr Hnb).
  - rewrite bool_decide_eq_false_2; [done|]. intros Hm.
    pose proof (lo_NoDup _ _ the_layout_ok) as (_&Hd&_)%NoDup_app. apply (Hd ep Hm).
    by apply (elem_of_aux L lr nb the_layout_ok Hlr Hnb i).
Qed.

(** C31. What reaches the endpoints when every phase runs: after an allreduce each has the
    contribution of every endpoint exactly once; after a reduce the root has; after a
    broadcast each has heard from the root; after a barrier each has heard from all. *)
Theorem schedule_gathers ep : ep ∈ eps →
  (op = ALLREDUCE_OP → gathered ep ≡ₚ eps) ∧
  (op = REDUCE_OP → gathered root ≡ₚ eps) ∧
  (op = BROADCAST_OP → root ∈ gathered ep) ∧
  (op = BARRIER_OP → eps ⊆ gathered ep).
Proof.
  intros Hep. destruct radix_facts as (_&Hlr&_&_&_&Hnb&_). pose proof the_members as Hm.
  assert (Hnone : op ≠ ALLREDUCE_OP → ∀ x, x ∈ eps →
    gathered x = gather sources (λ _ _, false) (S (S (Z.to_nat nb))) x).
  { intros Hne x Hx. apply gathered_plan; [done|]. intros σ y p _ _.
    rewrite (proj2 (Z.eqb_neq op ALLREDUCE_OP)) by done. by destruct σ. }
  assert (Hsrc : ∀ σ x p, at_site L (nb * lr) σ x → 0 ≤ p → sources x p = plan_src L lr nb op σ p)
    by (intros; by apply sources_plan).
  destruct (endpoint_site ep Hep) as [σ Hσ]. split; [|split; [|split]]; intros Ho.
  - rewrite (gathered_plan outside), <- Hm; [|done|].
    + eapply (gather_allreduce L lr nb op the_layout_ok Hlr Hnb (so_op _ Hok) radix_op sources outside Hsrc).
      * intros i p Hi. by apply (outside_site (Master i)).
      * by rewrite Ho.
      * intros i x Hx. by apply (outside_site (Aux i)).
      * exact Hσ.
    + intros τ x p Hx _. rewrite (outside_site τ) by done. by rewrite Ho.
  - rewrite Hnone, <- Hm by (by rewrite Ho || (apply (so_root _ Hok); by rewrite Ho)).
    rewrite <- root_master by by rewrite Ho.
    by apply (gather_reduce L lr nb op the_layout_ok Hlr Hnb (so_op _ Hok) radix_op sources _ Hsrc).
  - rewrite Hnone by (by rewrite Ho || done). rewrite <- root_master by by rewrite Ho.
    by apply (gather_broadcast L lr nb op Hlr Hnb (so_op _ Hok) radix_op sources _ Hsrc) with σ.
  - rewrite Hnone, <- Hm by (by rewrite Ho || done).
    pose proof (plan_ordered L lr nb op Hlr Hnb (so_op _ Hok) radix_op σ ep Hσ) as Hord.
    replace (S (S (Z.to_nat nb))) with
      (Z.to_nat (plan_last L nb op σ) + Z.to_nat (nb + 2 - plan_last L nb op σ))%nat by lia.
    apply (gather_barrier L lr nb op the_layout_ok Hlr Hnb (so_op _ Hok) radix_op sources _ Hsrc); try done.
    by rewrite Ho.
Qed.
End schedules.

(** * Three endpoints *)

Definition no_phases_yet : phases := mkPhases 0 0 0 0 0 0 0.

Lemma triple_endpoints : endpoint_list grid some_arrays triple [2; 1; 3].
Proof.
  apply (denotes_endpoint_list grid grid_machine some_arrays triple [2; 1; 3] 64 grid_ok triple_denotes
    grid_endpoints_ok).
  by vm_compute.
Qed.

Lemma triple_schedule_ok op : is_op op → schedule_ok 2 grid some_arrays triple op 3 [2; 1; 3].
Proof.
  intros Hop. split; [exact triple_endpoints|cbn; lia|done|by right|]. intros _. split; [set_solver|lia].
Qed.

Lemma schedule_matches_witness :
  1 ∈ destinations 2 no_phases_yet grid some_arrays triple REDUCE_OP 3 2 2 ↔
  2 ∈ sources 2 no_phases_yet grid some_arrays triple REDUCE_OP 3 1 2.
Proof.
  apply (schedule_matches 2 no_phases_yet grid some_arrays triple REDUCE_OP 3 [2; 1; 3]
    (triple_schedule_ok REDUCE_OP ltac:(right; right; by left))); set_solver.
Defined.

Lemma schedule_gathers_witness :
  gathered 2 no_phases_yet grid some_arrays triple ALLREDUCE_OP 3 [2; 1; 3] 3 ≡ₚ [2; 1; 3].
Proof.
  destruct (schedule_gathers 2 no_phases_yet grid some_arrays triple ALLREDUCE_OP 3 [2; 1; 3]
    (triple_schedule_ok ALLREDUCE_OP ltac:(right; by left)) 3 ltac:(set_solver)) as [Hall _].
  exact (Hall eq_refl).
Defined.
