(* ===== verification/BarrierProps.v ===== *)
(** Barriers over the endpoints of a topology: the executors that BarrierT makes, exchanging
    messages in any order. *)
From stdpp Require Import functions relations.
From S2P Require Import Prelude.
From S2P Require Import Topology.
From S2P Require Import Schedule.
From S2P Require Import ScheduleCache.
From S2P Require Import MultinomialMap.
From S2P Require Import MultinomialTree.
From S2P Require Import Barrier.
From S2P Require Import BarrierMachine.
From S2P Require Import BarrierSystem.
From S2P Require Import BarrierInvariant.
From S2P Require Import MultinomialSpec.
From S2P Require Import ScheduleSpec.
From S2P Require Import ScheduleGather.
From S2P Require Import TopologyMapSpec.
From S2P Require Import ScheduleProps.
From S2P Require Import TopologyGrid.
From S2P Require Import TopologyProps.

#[local] Opaque w32 w64.

(** * Arrays with room *)

Lemma mapM_length {A B} (f : A → res B) l l' : mapM f l = Ok l' → length l' = length l.
Proof.
  revert l'. induction l as [|x l IH]; intros l' Hrun; cbn in Hrun; inv_ok; [done|].
  cbn. f_equal. by apply IH.
Qed.

Lemma fill_room mapping s (t : MultinomialTreeT TopologyMap) cap cap' nodes l : fill mapping s t cap nodes = Ok l →
  Z.of_nat (length l) ≤ cap' → fill mapping s t cap' nodes = Ok l.
Proof.
  unfold fill. intros Hrun Hcap. apply bind_Ok in Hrun as (u&_&Hrun). pose proof (mapM_length _ _ _ Hrun).
  rewrite (proj2 (Z.leb_le _ _)) by lia. done.
Qed.

Section barriers.
Context (char_signed : bool) (T_MaxRadix : Z) (junk : phases) (mapping : Mapping) (s : arrays) (t : Topology).
Context (eps : list Z) (Hel : endpoint_list mapping s t eps).
(** So that the phases fit in CCMI_BARRIER_MAXPHASES. *)
Context (Hlen : 1 ≤ Z.of_nat (length eps) < 2 ^ 23).

Notation schedule_at := (schedule_of T_MaxRadix junk mapping s t BARRIER_OP (-1)).
Notation src := (sources T_MaxRadix junk mapping s t BARRIER_OP (-1)).
Notation dst := (destinations T_MaxRadix junk mapping s t BARRIER_OP (-1)).
Notation L := (the_layout BARRIER_OP (-1) eps).
Notation lr := (radix_log T_MaxRadix eps).
Notation nb := (tree_phases T_MaxRadix eps).

Lemma barrier_schedule_ok : schedule_ok T_MaxRadix mapping s t BARRIER_OP (-1) eps.
Proof. split; [done|lia|by left|by left|done]. Qed.

Definition first_phase (ep : Z) : Z := match schedule_at ep with Ok (_, (st, _)) => st | Err _ => 0 end.
Definition last_phase (ep : Z) : Z := match schedule_at ep with Ok (_, (st, np)) => st + np | Err _ => 0 end.

Lemma phases_plan σ ep : at_site L (nb * lr) σ ep →
  first_phase ep = plan_first L nb BARRIER_OP σ ∧ last_phase ep = plan_last L nb BARRIER_OP σ.
Proof.
  intros Hsite. destruct (site_schedule _ junk _ _ _ _ _ _ barrier_schedule_ok σ ep Hsite) as [_ (tree&Hrun&_)].
  unfold first_phase, last_phase. rewrite Hrun. lia.
Qed.

Lemma few_phases : nb + 2 ≤ CCMI_BARRIER_MAXPHASES.
Proof.
  destruct (radix_facts _ _ _ _ _ _ _ barrier_schedule_ok) as (_&Hlr&_&_&_&Hnb&Hc).
  pose proof (proj1 (Z.log2_lt_pow2 (Z.of_nat (length eps)) 23 ltac:(lia))).
  unfold CCMI_BARRIER_MAXPHASES. nia.
Qed.

#[local] Instance barrier_schedule : BarrierSchedule CCMI_BARRIER_MAXPHASES eps first_phase last_phase src dst.
Proof.
  pose proof barrier_schedule_ok as Hok. pose proof few_phases as Hfew.
  pose proof (the_layout_ok _ _ _ _ _ _ _ Hok) as HL. pose proof (so_op _ _ _ _ _ _ _ Hok) as Hop.
  pose proof (radix_op _ _ _ _ _ _ _ Hok) as Hrad.
  destruct (radix_facts _ _ _ _ _ _ _ Hok) as (_&Hlr&_&_&_&Hnb&_).
  assert (Hsite : ∀ ep, ep ∈ eps → ∃ σ, at_site L (nb * lr) σ ep) by (by apply endpoint_site with mapping s t).
  assert (Hsrc : ∀ σ ep p, at_site L (nb * lr) σ ep → src ep p = plan_src L lr nb BARRIER_OP σ p)
    by (by apply sources_plan).
  assert (Hdst : ∀ σ ep p, at_site L (nb * lr) σ ep → dst ep p = plan_dst L lr nb BARRIER_OP σ p)
    by (by apply destinations_plan).
  split.
  - intros ep Hep. destruct (Hsite ep Hep) as [σ Hσ]. destruct (phases_plan σ ep Hσ) as [-> ->].
    pose proof (plan_ordered L lr nb BARRIER_OP Hlr Hnb Hop Hrad σ ep Hσ). lia.
  - intros ep p Hep. destruct (Hsite ep Hep) as [σ Hσ]. rewrite (Hsrc σ) by done.
    by apply (plan_lists L lr nb BARRIER_OP HL Hlr Hnb σ ep p Hσ).
  - intros ep p Hep. destruct (Hsite ep Hep) as [σ Hσ]. rewrite (Hdst σ) by done.
    by apply (plan_lists L lr nb BARRIER_OP HL Hlr Hnb σ ep p Hσ).
  - intros ep p Hep. destruct (Hsite ep Hep) as [σ Hσ]. rewrite (Hsrc σ) by done.
    by apply (plan_lists L lr nb BARRIER_OP HL Hlr Hnb σ ep p Hσ).
  - intros ep p x Hep Hx. destruct (Hsite ep Hep) as [σ Hσ]. rewrite (Hsrc σ), (Hdst σ) in Hx by done.
    destruct (phases_plan σ ep Hσ) as [-> ->]. split.
    + rewrite <- (the_members _ _ _ _ _ _ _ Hok).
      by apply (plan_member L lr nb BARRIER_OP HL Hlr Hnb Hop Hrad σ ep x p Hσ).
    + by apply (plan_active L lr nb BARRIER_OP HL Hlr Hnb Hop Hrad σ ep x p Hσ).
  - intros i j p Hi Hj. destruct (Hsite i Hi) as [σ Hσ], (Hsite j Hj) as [σ' Hσ'].
    rewrite (Hdst σ), (Hsrc σ') by done.
    by apply (plan_match L lr nb BARRIER_OP HL Hlr Hnb Hop Hrad).
  - intros i j Hi Hj. destruct (Hsite j Hj) as [σ Hσ]. destruct (phases_plan σ j Hσ) as [_ ->].
    rewrite <- (the_members _ _ _ _ _ _ _ Hok) in Hi.
    pose proof (gather_barrier L lr nb BARRIER_OP HL Hlr Hnb Hop Hrad src (λ _ _, false)
      (λ σ ep p Hs _, Hsrc σ ep p Hs) (λ _ _ _, eq_refl) σ j 0 eq_refl (λ _ _, eq_refl) Hσ) as Hg.
    rewrite Nat.add_0_r in Hg. by apply Hg.
Qed.

(** The executor of an endpoint, before its first barrier. *)
Lemma BarrierT_spec ep : ep ∈ eps → ∃ e,
  BarrierT T_MaxRadix junk mapping s t ep = Ok e ∧ b_phase e = last_phase ep ∧
  represents (first := first_phase) (last := last_phase) (src := src) (dst := dst) char_signed e ep 0 (λ _ _, 0).
Proof.
  intros Hep. pose proof barrier_schedule_ok as Hok. pose proof few_phases as Hfew.
  pose proof (the_layout_ok _ _ _ _ _ _ _ Hok) as HL. pose proof (so_op _ _ _ _ _ _ _ Hok) as Hop.
  pose proof (radix_op _ _ _ _ _ _ _ Hok) as Hrad.
  destruct (radix_facts _ _ _ _ _ _ _ Hok) as (_&Hlr&_&_&_&Hnb&_).
  destruct (schedule_of_spec _ junk _ _ _ _ _ _ Hok ep Hep) as (σ&tree&Hσ&Hrun&Hpl&Hph&_).
  destruct (phases_plan σ ep Hσ) as [Hf Hl].
  pose proof (plan_ordered L lr nb BARRIER_OP Hlr Hnb Hop Hrad σ ep Hσ) as Hord.
  unfold schedule_of in Hrun. apply bind_Ok in Hrun as (sch&Hsch&Hinit).
  unfold BarrierT. rewrite Hsch, Ok_bind. unfold setCommSchedule.
  rewrite <- Hf, <- Hl in Hinit.
  assert (Hfew' : Z.of_nat (length (src ep 0)) ≤ 127) by by apply (bs_few ep 0).
  assert (Han : answers mapping s tree (src ep) (dst ep) (seqZ (first_phase ep) (last_phase ep - first_phase ep))).
  { pose proof (sources_plan _ junk _ _ _ _ _ _ Hok σ ep) as Hs.
    pose proof (destinations_plan _ junk _ _ _ _ _ _ Hok σ ep) as Hd.
    split; intros p; [intros cap Hp%elem_of_seqZ Hcap..|intros _].
    - cbn [sched_getSrcTopology MultinomialTreeT_schedule].
      pose proof (getSrcTopology_spec mapping s L lr nb BARRIER_OP HL Hlr Hnb Hop Hrad σ ep tree p 127 Hσ
        Hpl Hph ltac:(lia) ltac:(done)) as Hget. rewrite <- (Hs p Hσ) in Hget.
      unfold getSrcTopology in *. apply bind_Ok in Hget as (nodes&->&Hfill). rewrite Ok_bind.
      by eapply fill_room.
    - cbn [sched_getDstTopology MultinomialTreeT_schedule].
      pose proof (getDstTopology_spec mapping s L lr nb BARRIER_OP HL Hlr Hnb Hop Hrad σ ep tree p 127 Hσ
        Hpl Hph ltac:(lia) ltac:(done)) as Hget. rewrite <- (Hd p Hσ) in Hget.
      unfold getDstTopology in *. apply bind_Ok in Hget as (nodes&->&Hfill). rewrite Ok_bind.
      by eapply fill_room.
    - rewrite (Hs p Hσ), (Hd p Hσ). unfold SC_MAXRANKS.
      destruct (plan_lists L lr nb BARRIER_OP HL Hlr Hnb σ ep p Hσ) as (_&_&?&?). lia. }
  destruct (cache_init_spec mapping s tree _ _ (src ep) (dst ep) sch BARRIER_OP
    (cache_setRoot (-1) (setSchedule sch (b_cache BarrierExec_new))) ltac:(done) eq_refl Hinit Han)
    as (c&->&Hh&_).
  rewrite Ok_bind, (ho_start _ _ _ _ _ Hh), (ho_nphases _ _ _ _ _ Hh).
  rewrite (proj2 (Z.leb_le _ _)) by lia. cbn [assert]. rewrite Ok_bind.
  eexists. split; [reflexivity|]. cbn [b_phase]. split; [lia|].
  split; cbn [b_iteration b_start b_nphases b_cache b_phasevec]; [done|done|done| | |].
  - intros p Hp. apply (ho_src _ _ _ _ _ Hh). lia.
  - intros p Hp. apply (ho_dst _ _ _ _ _ Hh). lia.
  - intros p Hp. cbn [BarrierExec_new b_phasevec]. rewrite lookup_replicate_2.
    + by rewrite to_char_small.
    + unfold CCMI_BARRIER_MAXPHASES in *. lia.
Qed.

(** * Barriers *)

(** The executors as BarrierT makes them, nothing started and nothing under way. *)
Record initial (sy : system (MultinomialTreeT TopologyMap)) : Prop := {
  in_exec ep : ep ∈ eps → BarrierT T_MaxRadix junk mapping s t ep = Ok (sy_exec sy ep);
  in_counts ep : ep ∈ eps → sy_started sy ep = 0 ∧ sy_done sy ep = 0 ∧ sy_callbacks sy ep = [];
  in_flight_none : sy_flight sy = []
}.

Lemma reachable_invariant sy0 sy : initial sy0 → rtc (step char_signed eps) sy0 sy →
  invariant char_signed (eps := eps) (first := first_phase) (last := last_phase) (src := src) (dst := dst) sy.
Proof.
  intros [He Hc Hfl] Hsteps. apply (step_rtc_invariant char_signed sy0 sy Hsteps).
  apply (initial_invariant char_signed sy0 Hfl). intros i Hi. destruct (Hc i Hi) as (?&?&?).
  destruct (BarrierT_spec i Hi) as (e&Hrun&Hph&Hr). rewrite (He i Hi) in Hrun. injection Hrun as <-.
  done.
Qed.

(** C20. Barriers in sequence, the messages of all of them arriving and the multicasts
    completing in any order: no assertion fails, no counter is out of its array, no counter
    overflows where [char] is signed (an unsigned [char] counts modulo 256: a message that
    comes before its iteration has begun takes it from 0 to 255, and the start of the
    iteration takes it back), and no client is told that its [k]-th barrier is done before
    every client has started its [k]-th.  The executors tell two iterations apart by one
    bit, and never who sent. *)
Theorem barrier_safe sy0 sy : initial sy0 → rtc (step char_signed eps) sy0 sy →
  ¬ fails char_signed eps sy ∧ ∀ i j, i ∈ eps → j ∈ eps → sy_done sy j ≤ sy_started sy i.
Proof.
  intros Hin Hsteps. pose proof (reachable_invariant sy0 sy Hin Hsteps) as Hinv. split.
  - by apply (invariant_no_failure char_signed).
  - intros i j Hi Hj. by apply (invariant_safe char_signed).
Qed.

(** C21. A barrier ends: once every client has started its [k]-th barrier, whatever order
    the messages take, after finitely many of them nothing is left to happen, and then
    every client has been told that its [k]-th barrier is done. *)
Theorem barrier_completes sy0 sy k : initial sy0 → rtc (step char_signed eps) sy0 sy →
  (∀ i, i ∈ eps → sy_started sy i = k) →
  sn (progress char_signed eps) sy ∧
  ∀ sy', rtc (progress char_signed eps) sy sy' → (∀ sy'', ¬ progress char_signed eps sy' sy'') →
    ∀ i, i ∈ eps → sy_done sy' i = k.
Proof.
  intros Hin Hsteps Hk. pose proof (reachable_invariant sy0 sy Hin Hsteps) as Hinv. split.
  - by apply (progress_terminates char_signed).
  - intros sy' Hrun Hstuck. pose proof (progress_rtc_invariant char_signed _ _ Hrun Hinv) as Hinv'.
    apply (stuck_done char_signed sy' k Hinv' Hstuck). intros i Hi.
    rewrite (progress_started char_signed _ _ Hrun i). auto.
Qed.
End barriers.

(** * Three endpoints *)

Definition triple_exec (ep : Z) : BarrierExec (MultinomialTreeT TopologyMap) :=
  match BarrierT 2 no_phases_yet grid some_arrays triple ep with Ok e => e | Err _ => BarrierExec_new end.

Definition triple_system : system (MultinomialTreeT TopologyMap) :=
  mkSystem triple_exec (λ _, 0) (λ _, 0) [] (λ _, []).

Lemma triple_initial : initial 2 no_phases_yet grid some_arrays triple [2; 1; 3] triple_system.
Proof.
  split; [|done|done]. intros ep Hep.
  assert (ep = 2 ∨ ep = 1 ∨ ep = 3) as [-> |[-> | ->]] by set_solver; by vm_compute.
Qed.

Definition is_ok {A} (r : res A) : bool := match r with Ok _ => true | Err _ => false end.

(** The clients of all three start. *)
Definition started_at (sy : system (MultinomialTreeT TopologyMap)) (ep : Z) :
    system (MultinomialTreeT TopologyMap) :=
  match start true (sy_exec sy ep) with
  | Ok out => after (with_started sy ep) ep out
  | Err _ => sy
  end.
Definition triple_started : system (MultinomialTreeT TopologyMap) :=
  foldl started_at triple_system [2; 1; 3].

Fixpoint can_start (sy : system (MultinomialTreeT TopologyMap)) (l : list Z) : bool :=
  match l with
  | [] => true
  | ep :: l => bool_decide (ep ∈ [2; 1; 3]) && (sy_done sy ep =? sy_started sy ep) &&
      is_ok (start true (sy_exec sy ep)) && can_start (started_at sy ep) l
  end.

Lemma starts_run sy l : can_start sy l = true → rtc (step true [2; 1; 3]) sy (foldl started_at sy l).
Proof.
  revert sy. induction l as [|ep l IH]; intros sy Hcan; [apply rtc_refl|]. cbn in *.
  apply andb_true_iff in Hcan as [[[Hep Hd]%andb_true_iff Hok]%andb_true_iff Hrest].
  apply rtc_l with (started_at sy ep); [|by apply IH].
  apply bool_decide_eq_true_1 in Hep. apply Z.eqb_eq in Hd.
  unfold started_at. destruct (start true (sy_exec sy ep)) eqn:Hrun; [|done]. by apply step_start.
Qed.

Lemma triple_runs : rtc (step true [2; 1; 3]) triple_system triple_started.
Proof. apply starts_run. vm_compute. reflexivity. Qed.

Lemma triple_members : 1 ∈ [2; 1; 3] ∧ 2 ∈ [2; 1; 3] ∧ 3 ∈ [2; 1; 3].
Proof. set_solver. Qed.

Lemma barrier_safe_witness : ¬ fails true [2; 1; 3] triple_started ∧ sy_done triple_started 2 ≤ 1.
Proof.
  destruct (barrier_safe true 2 no_phases_yet grid some_arrays triple [2; 1; 3] triple_endpoints
    ltac:(cbn; lia) triple_system triple_started triple_initial triple_runs) as [Hno Hsafe].
  destruct triple_members as (H1&H2&_).
  split; [exact Hno|]. pose proof (Hsafe 1 2 H1 H2) as Hle.
  replace (sy_started triple_started 1) with 1 in Hle by (vm_compute; reflexivity). exact Hle.
Defined.

Lemma barrier_completes_witness : sn (progress true [2; 1; 3]) triple_started ∧
  ∀ sy', rtc (progress true [2; 1; 3]) triple_started sy' →
    (∀ sy'', ¬ progress true [2; 1; 3] sy' sy'') → sy_done sy' 3 = 1.
Proof.
  destruct (barrier_completes true 2 no_phases_yet grid some_arrays triple [2; 1; 3] triple_endpoints
    ltac:(cbn; lia) triple_system triple_started 1 triple_initial triple_runs) as [Hsn Hdone].
  { intros i Hi. assert (i = 2 ∨ i = 1 ∨ i = 3) as [-> |[-> | ->]] by set_solver; vm_compute; reflexivity. }
  split; [exact Hsn|]. intros sy' Hrun Hstuck. apply (Hdone sy' Hrun Hstuck). apply triple_members.
Defined.
