(* ===== verification/MemoryAllocator.v ===== *)
(** The pool of objects, src/components/memory/MemoryAllocator.h: objects of one size, taken
    from the heap a segment at a time and kept for reuse when they are returned. *)
From S2P Require Import Prelude.

(** The objects linked from [_head], and the segments. *)
Record MemoryAllocator := mkAllocator { al_head : list Z; al_segments : list Z }.

Definition MemoryAllocator_new : MemoryAllocator := mkAllocator [] [].

Section allocator.
(** [sizeof(memory_object_t)], [T_PREALLOC], and the addresses [memalign] gives. *)
Context (object_size prealloc : Z) (memalign : nat → Z).

(** The [i]-th object of a segment, [&object[i]]. *)
Definition object_at (segment i : Z) : Z := segment + object_size * i.

Definition returnObject (object : Z) (a : MemoryAllocator) : MemoryAllocator :=
  mkAllocator (object :: al_head a) (al_segments a).

Definition internalAllocate (a : MemoryAllocator) : Z * MemoryAllocator :=
  let object := memalign (length (al_segments a)) in
  let a := foldl (λ a i, returnObject (object_at object i) a) a (seqZ 1 (prealloc - 1)) in
  (object_at object 0, mkAllocator (al_head a) (object :: al_segments a)).

Definition allocateObject (a : MemoryAllocator) : Z * MemoryAllocator :=
  match al_head a with
  | object :: next => (object, mkAllocator next (al_segments a))
  | [] => internalAllocate a
  end.

(** * What the pool promises *)

(** The objects of the segments taken so far. *)
Definition pooled (a : MemoryAllocator) (x : Z) : Prop :=
  ∃ k i, (k < length (al_segments a))%nat ∧ 0 ≤ i < prealloc ∧ x = object_at (memalign k) i.

(** Every object is either free or in use. *)
Record pool (max_segments : nat) (a : MemoryAllocator) (used : gset Z) : Prop := {
  pool_segments : (length (al_segments a) ≤ max_segments)%nat;
  pool_nodup : NoDup (al_head a);
  pool_split x : pooled a x ↔ x ∈ al_head a ∨ x ∈ used;
  pool_disjoint x : x ∈ al_head a → x ∉ used
}.

(** The heap gives each segment memory of its own, as long as it has any. *)
Context (max_segments : nat).
Definition segments_apart : Prop := ∀ k i k' i', (k < max_segments)%nat → (k' < max_segments)%nat →
  0 ≤ i < prealloc → 0 ≤ i' < prealloc →
  object_at (memalign k) i = object_at (memalign k') i' → k = k' ∧ i = i'.

(** The next allocation can be served. *)
Definition can_allocate (a : MemoryAllocator) : Prop :=
  al_head a ≠ [] ∨ (length (al_segments a) < max_segments)%nat.


Lemma pool_new : pool max_segments MemoryAllocator_new ∅.
Proof.
  split; cbn; [lia|by apply NoDup_nil| |by intros x Hx%elem_of_nil].
  intros x. split; [intros (k&i&Hk&_); cbn in Hk; lia|set_solver].
Qed.

Lemma pool_used a used x : pool max_segments a used → x ∈ used →
  ∃ k i, (k < max_segments)%nat ∧ 0 ≤ i < prealloc ∧ x = object_at (memalign k) i.
Proof.
  intros [Hseg _ Hsp _] Hx. destruct (proj2 (Hsp x) (or_intror Hx)) as (k&i&Hk&Hi&->).
  exists k, i. split; [lia|done].
Qed.

Lemma pool_return a used x : pool max_segments a (used ∪ {[x]}) → x ∉ used → pool max_segments (returnObject x a) used.
Proof.
  intros [Hseg Hnd Hsp Hdis] Hx. split; cbn [returnObject al_head al_segments]; [done|..].
  - apply NoDup_cons. split; [|done]. intros Hin. apply (Hdis x Hin). set_solver.
  - intros y. change (pooled (returnObject x a) y) with (pooled a y). rewrite Hsp. set_solver.
  - intros y [->|Hy]%elem_of_cons; [done|]. specialize (Hdis y Hy). set_solver.
Qed.

Lemma returned_objects o l a : foldl (λ a i, returnObject (object_at o i) a) a l =
  mkAllocator (reverse (object_at o <$> l) ++ al_head a) (al_segments a).
Proof.
  revert a. induction l as [|i l IH]; intros a; [by destruct a|].
  cbn [foldl]. rewrite IH, fmap_cons, reverse_cons, <- (assoc_L (++)). done.
Qed.

Context (Hprealloc : 0 < prealloc) (Hapart : segments_apart).

Lemma pool_allocate a used : pool max_segments a used → can_allocate a →
  ∃ x a', allocateObject a = (x, a') ∧ x ∉ used ∧ pool max_segments a' (used ∪ {[x]}).
Proof.
  intros [Hseg Hnd Hsp Hdis] Hcan. unfold allocateObject. destruct (al_head a) as [|x l] eqn:Hh.
  - destruct Hcan as [|Hcan]; [congruence|]. unfold internalAllocate. rewrite returned_objects, Hh, app_nil_r. cbn [al_head al_segments].
    set (o := memalign (length (al_segments a))).
    assert (Hnew : ∀ i, 0 ≤ i < prealloc → object_at o i ∉ used).
    { intros i Hi Hin. assert (pooled a (object_at o i)) as (k&j&Hk&Hj&Heq) by (apply Hsp; by right).
      apply Hapart in Heq as [<- _]; [lia|done|lia|done..]. }
    eexists _, _. split; [reflexivity|]. split; [apply Hnew; lia|]. split; cbn [al_head al_segments]; [cbn; lia|..].
    + rewrite (reverse_Permutation _). apply NoDup_fmap_2_strong; [|apply NoDup_seqZ].
      intros i j Hi%elem_of_seqZ Hj%elem_of_seqZ Heq. apply Hapart in Heq as [_ ->]; [done|done..|lia|lia].
    + intros y. unfold pooled at 1. cbn [al_segments length]. rewrite elem_of_reverse, list_elem_of_fmap.
      rewrite elem_of_union, elem_of_singleton. split.
      * intros (k&i&Hk&Hi&->). destruct (decide (k = length (al_segments a))) as [->|Hne].
        -- destruct (decide (i = 0)) as [->|]; [by right; right|]. left. exists i.
           split; [done|]. apply elem_of_seqZ. lia.
        -- right. left. destruct (proj1 (Hsp (object_at (memalign k) i))) as [Hx|Hx]; [|by apply elem_of_nil in Hx|done].
           exists k, i. split; [lia|done].
      * intros [(i&->&Hi%elem_of_seqZ)|[Hy| ->]].
        -- exists (length (al_segments a)), i. split; [lia|]. split; [lia|done].
        -- destruct (proj2 (Hsp y) (or_intror Hy)) as (k&i&Hk&Hi&->). exists k, i. split; [lia|done].
        -- exists (length (al_segments a)), 0. split; [lia|]. split; [lia|done].
    + intros y (i&->&Hi%elem_of_seqZ)%elem_of_reverse%list_elem_of_fmap.
      rewrite not_elem_of_union, not_elem_of_singleton. split; [apply Hnew; lia|].
      intros Heq. apply Hapart in Heq as [_ ?]; lia.
  - apply NoDup_cons in Hnd as [Hx Hnd]. exists x, (mkAllocator l (al_segments a)). split; [done|].
    split; [apply Hdis; by left|]. split; cbn [al_head al_segments]; [done|done| |].
    + intros y. change (pooled (mkAllocator l (al_segments a)) y) with (pooled a y). rewrite Hsp. set_solver.
    + intros y Hy. assert (y ≠ x) by (by intros ->). specialize (Hdis y). set_solver.
Qed.
End allocator.
