(* ===== verification/EagerSimple.v ===== *)
(** The eager send protocol, src/p2p/protocols/send/eager/EagerSimple.h and its
    EagerSimple_packed_impl.h, EagerSimple_envelope_impl.h, EagerSimple_data_impl.h and
    EagerSimple_remotefn_impl.h: what an endpoint does when the client sends, when a packet
    comes in and when the device is through with what was posted. *)
From stdpp Require Import functions.
From S2P Require Import Prelude.
From S2P Require Import Memory.
From S2P Require Import TypeCode.
From S2P Require Import TypeFunc.
From S2P Require Import TypeMachine.
From S2P Require Import PamiType.
From S2P Require Import MemoryAllocator.

(** * Packets *)

(** The structures the protocol puts into packets; [origin] is the endpoint that sent them. *)
Inductive protocol_metadata :=
| packed_metadata (data_bytes header_bytes origin : Z)
| shortheader_metadata (bytes metabytes origin : Z)
| longheader_metadata (bytes metabytes origin : Z)
| endpoint_metadata (origin : Z)
| ack_metadata (remote_fn cookie context : Z) (invoke : bool).

(** [sizeof], where pointers and [size_t] have 8 bytes. *)
Definition sizeof_metadata (m : protocol_metadata) : Z :=
  match m with
  | packed_metadata _ _ _ => 8
  | shortheader_metadata _ _ _ => 16
  | longheader_metadata _ _ _ => 24
  | endpoint_metadata _ => 4
  | ack_metadata _ _ _ _ => 32
  end.
Definition sizeof_packed_metadata : Z := 8.
Definition sizeof_shortheader_metadata : Z := 16.

(** The six packet models of the protocol, each with its dispatch function. *)
Inductive packet_model :=
| envelope_model | longheader_envelope_model | longheader_message_model
| data_model | ack_model | short_model.

(** The metadata in the network header; the payload, which may start with a structure. *)
Record packet := mkPacket {
  p_model : packet_model; p_metadata : option protocol_metadata;
  p_struct : option protocol_metadata; p_payload : list Z
}.

Definition sizeof_struct (o : option protocol_metadata) : Z :=
  match o with Some m => sizeof_metadata m | None => 0 end.

(** The parameter [bytes] of a dispatch function. *)
Definition packet_bytes (p : packet) : Z :=
  sizeof_struct (p_struct p) + Z.of_nat (length (p_payload p)).

(** What the device calls when it is through with a post: nothing, or a function of the
    protocol with a state object. *)
Inductive done_fn :=
| no_fn | send_complete_fn (state : Z) | complete_data_fn (state : Z) | complete_remotefn_fn (state : Z).

(** A post that the device is not through with; a [po_multi] one takes as many packets as its
    payload needs. *)
Record post := mkPost {
  po_model : packet_model; po_metadata : option protocol_metadata;
  po_struct : option protocol_metadata; po_payload : list Z; po_multi : bool; po_done : done_fn
}.

(** What an endpoint hands to the device: a packet it takes at once, or a post. *)
Inductive effect := Now (dest : Z) (p : packet) | Posted (dest : Z) (p : post).

(** * States *)

(** [pami_recv_t]. *)
Record pami_recv_t := mkRecv {
  r_cookie : Z; r_local_fn : Z; r_addr : Z; r_type : Z; r_offset : Z; r_data_fn : Z; r_data_cookie : Z
}.
Definition no_recv : pami_recv_t := mkRecv 0 0 0 0 0 0 0.

(** The members of [origin_t] that are read later; of [data_t] the machine and the counts. *)
Record origin_t := mkOrigin {
  o_machine : option TypeMachine; o_base_addr : Z; o_bytes_remaining : Z; o_start_count : Z;
  o_target : Z; o_local_fn : Z; o_remote_fn : Z; o_cookie : Z
}.

(** [h_addr] is the buffer the header of a long envelope is received into. *)
Record target_t := mkTarget {
  t_machine : option TypeMachine; t_is_contiguous_copy_recv : bool;
  t_bytes_received : Z; t_bytes_total : Z;
  h_bytes_received : Z; h_bytes_total : Z; h_addr : list Z;
  t_info : pami_recv_t
}.

Inductive eager_state_t := S_origin (o : origin_t) | S_target (t : target_t).

(** What the client sees: its dispatch function is called, for the [k]-th time, with the data
    or without, and with a [pami_recv_t] to fill or without; a message is received, and [fn],
    unless it is NULL, is called with PAMI_SUCCESS; a receive fails; local and remote completion. *)
Inductive event :=
| Dispatched (k : nat) (origin : Z) (header : list Z) (data : option (list Z)) (bytes : Z)
    (recv : option pami_recv_t)
| Received (origin fn cookie : Z)
| Recv_failed (fn cookie : Z) (result : pami_result_t)
| Local_done (dest fn cookie : Z)
| Remote_done (dest fn cookie : Z).

(** An endpoint: its memory, its type objects, the pool of states and what they hold, the
    connections of the device by origin, the calls of the dispatch function. *)
Record endpoint := mkEndpoint {
  e_id : Z; e_mem : mem; e_types : heap; e_pool : MemoryAllocator; e_states : gmap Z eager_state_t;
  e_connection : gmap Z Z; e_calls : nat; e_log : list event
}.

Definition set_mem (s : mem) (e : endpoint) : endpoint :=
  mkEndpoint (e_id e) s (e_types e) (e_pool e) (e_states e) (e_connection e) (e_calls e) (e_log e).
Definition set_types (h : heap) (e : endpoint) : endpoint :=
  mkEndpoint (e_id e) (e_mem e) h (e_pool e) (e_states e) (e_connection e) (e_calls e) (e_log e).
Definition set_pool (a : MemoryAllocator) (e : endpoint) : endpoint :=
  mkEndpoint (e_id e) (e_mem e) (e_types e) a (e_states e) (e_connection e) (e_calls e) (e_log e).
Definition set_state (st : Z) (v : eager_state_t) (e : endpoint) : endpoint :=
  mkEndpoint (e_id e) (e_mem e) (e_types e) (e_pool e) (<[st := v]> (e_states e)) (e_connection e)
    (e_calls e) (e_log e).
Definition setConnection (st : Z) (o : Z) (e : endpoint) : endpoint :=
  mkEndpoint (e_id e) (e_mem e) (e_types e) (e_pool e) (e_states e) (<[o := st]> (e_connection e))
    (e_calls e) (e_log e).
Definition clearConnection (o : Z) (e : endpoint) : endpoint :=
  mkEndpoint (e_id e) (e_mem e) (e_types e) (e_pool e) (e_states e) (delete o (e_connection e))
    (e_calls e) (e_log e).
Definition add_event (ev : event) (e : endpoint) : endpoint :=
  mkEndpoint (e_id e) (e_mem e) (e_types e) (e_pool e) (e_states e) (e_connection e) (e_calls e)
    (e_log e ++ [ev]).
Definition count_call (e : endpoint) : endpoint :=
  mkEndpoint (e_id e) (e_mem e) (e_types e) (e_pool e) (e_states e) (e_connection e) (S (e_calls e))
    (e_log e).

(** A callback that is not NULL. *)
Definition call_unless_null (fn : Z) (ev : event) (e : endpoint) : endpoint :=
  if fn =? 0 then e else add_event ev e.

(** A message from [origin] is received, as [info] says. *)
Definition received (origin : Z) (info : pami_recv_t) (e : endpoint) : endpoint :=
  add_event (Received origin (r_local_fn info) (r_cookie info)) e.

Definition get_origin (st : Z) (e : endpoint) : res origin_t :=
  match e_states e !! st with Some (S_origin o) => Ok o | _ => Err Fault end.
Definition get_target (st : Z) (e : endpoint) : res target_t :=
  match e_states e !! st with Some (S_target t) => Ok t | _ => Err Fault end.
(** [getConnection], whose result is dereferenced. *)
Definition getConnection (o : Z) (e : endpoint) : res Z := of_option (e_connection e !! o).

Definition with_info (info : pami_recv_t) (t : target_t) : target_t :=
  mkTarget (t_machine t) (t_is_contiguous_copy_recv t) (t_bytes_received t) (t_bytes_total t)
    (h_bytes_received t) (h_bytes_total t) (h_addr t) info.
Definition with_machine (m : option TypeMachine) (t : target_t) : target_t :=
  mkTarget m (t_is_contiguous_copy_recv t) (t_bytes_received t) (t_bytes_total t)
    (h_bytes_received t) (h_bytes_total t) (h_addr t) (t_info t).
Definition with_contiguous (b : bool) (t : target_t) : target_t :=
  mkTarget (t_machine t) b (t_bytes_received t) (t_bytes_total t)
    (h_bytes_received t) (h_bytes_total t) (h_addr t) (t_info t).
Definition with_counts (received total : Z) (t : target_t) : target_t :=
  mkTarget (t_machine t) (t_is_contiguous_copy_recv t) received total
    (h_bytes_received t) (h_bytes_total t) (h_addr t) (t_info t).
Definition with_header (received total : Z) (addr : list Z) (t : target_t) : target_t :=
  mkTarget (t_machine t) (t_is_contiguous_copy_recv t) (t_bytes_received t) (t_bytes_total t)
    received total addr (t_info t).

(** A packet's payload laid down at [a]. *)
Definition write_bytes (a : Z) (l : list Z) (s : mem) : mem :=
  λ x, if (a <=? x) && (x <? a + Z.of_nat (length l)) then nth (Z.to_nat (x - a)) l 0 else s x.

Definition w16 (z : Z) : Z := z `mod` 2 ^ 16.

(** * The protocol *)

(** [pami_send_t], and what [pami_send_typed_t] has beyond it. *)
Record pami_send_t := mkSend {
  s_dest : Z; s_header : Z; s_header_len : Z; s_data : Z; s_data_len : Z;
  s_local_fn : Z; s_remote_fn : Z; s_cookie : Z
}.
Record pami_typed_t := mkTyped { ty_type : Z; ty_offset : Z; ty_data_fn : Z; ty_data_cookie : Z }.

(** The constants of [T_Model]. *)
Record model_t := mkModel {
  packet_model_payload_bytes : Z; packet_model_metadata_bytes : Z;
  packet_model_multi_metadata_bytes : Z; packet_model_immediate_bytes : Z
}.

(** [T_Option], ERROR_CHECKS, and the hints of the dispatch that [initialize] picks the
    dispatch functions by. *)
Record option_t := mkOptions {
  LONG_HEADER_DISABLE : bool; RECV_IMMEDIATE_FORCEON : bool; RECV_IMMEDIATE_FORCEOFF : bool;
  QUEUE_IMMEDIATE_DISABLE : bool; ERROR_CHECKS : bool; T_Contiguous : bool; T_Copy : bool
}.

(** What the protocol is used with: a model and options, [device.isPeer], the pool of states
    (object size, and what [memalign] gives each endpoint), the arguments of the type machine, the
    address of [PAMI_TYPE_BYTE], where in a state object its [packet] and its [pipeline] lie, where
    a dispatch function finds the payload, and the client. *)
Class EagerParams := {
  T_Model : model_t;
  T_Option : option_t;
  isPeer : Z → bool;
  object_size : Z;
  memalign : Z → nat → Z;
  contig_max : Z;
  big_endian : bool;
  floats : float_ops;
  user_fn : Z → Z → Z → Z → Z → mem → res mem;
  fuel : nat;
  PAMI_TYPE_BYTE : Z;
  packet_of : Z → Z;
  pipeline : Z → Z → Z;
  payload_at : Z;
  (* the dispatch function of an endpoint's client, at its [k]-th call: it gets the header, the
     data if they came with it, the number of bytes and the origin, and fills in the
     [pami_recv_t]; what that holds before, in a fresh state, is [junk] *)
  client : Z → nat → list Z → option (list Z) → Z → Z → pami_recv_t → pami_recv_t;
  junk : Z → pami_recv_t
}.

Section eager.
Context `{EagerParams}.

Notation payload_bytes := (packet_model_payload_bytes T_Model).
Notation metadata_bytes := (packet_model_metadata_bytes T_Model).

(** Which destinations the device can send to at once. *)
Implicit Type ready : Z → bool.
Implicit Type e : endpoint.

Definition maximum_short_packet_payload : Z :=
  w64 (payload_bytes - (if metadata_bytes <? sizeof_packed_metadata then sizeof_packed_metadata else 0)).
Definition maximum_eager_packet_payload : Z :=
  w64 (payload_bytes - (if metadata_bytes <? sizeof_shortheader_metadata then sizeof_shortheader_metadata else 0)).

(** [allocateState] and [freeState]; T_PREALLOC is 4. *)
Definition allocateState e : Z * endpoint :=
  let '(st, a) := allocateObject object_size 4 (memalign (e_id e)) (e_pool e) in (st, set_pool a e).
Definition freeState (st : Z) e : endpoint := set_pool (returnObject st (e_pool e)) e.

(** ** Posting *)

(** Metadata and payload beyond what the model transfers are cut off. *)
Definition fits (n : Z) (m : option protocol_metadata) : option protocol_metadata :=
  if sizeof_struct m <=? n then m else None.
Definition single_packet (mdl : packet_model) (meta str : option protocol_metadata) (bytes : list Z) : packet :=
  mkPacket mdl (fits metadata_bytes meta) (fits payload_bytes str)
    (take (Z.to_nat (payload_bytes - sizeof_struct str)) bytes).

Definition postPacket (dest : Z) (mdl : packet_model) (fn : done_fn)
    (meta str : option protocol_metadata) (bytes : list Z) : effect :=
  Posted dest (mkPost mdl meta str bytes false fn).
Definition postMultiPacket (dest : Z) (mdl : packet_model) (fn : done_fn)
    (meta : option protocol_metadata) (bytes : list Z) : effect :=
  Posted dest (mkPost mdl meta None bytes true fn).

(** ** remote_fn *)

Definition ack_state (d : Z) : eager_state_t := S_origin (mkOrigin None 0 0 0 d 0 0 0).

Definition send_remotefn ready (d fn cookie : Z) e : endpoint * list effect :=
  let m := Some (ack_metadata fn cookie (e_id e) false) in
  let origin := Some (endpoint_metadata (e_id e)) in
  if ready d then (e, [Now d (single_packet ack_model origin m [])])
  else
    let '(st, e) := allocateState e in
    (set_state st (ack_state d) e, [postPacket d ack_model (complete_remotefn_fn st) origin m []]).

(** [src] is the endpoint the packet comes from, for the log only. *)
Definition dispatch_remotefn (src : Z) ready (p : packet) e : res (endpoint * list effect) :=
  match p_struct p with
  | Some (ack_metadata fn cookie context true) =>
      mret (add_event (Remote_done src fn cookie) e, [])
  | Some (ack_metadata fn cookie context false) =>
      match p_metadata p with
      | Some (endpoint_metadata d) =>
          let m := Some (ack_metadata fn cookie context true) in
          if ready d then mret (e, [Now d (single_packet ack_model None m [])])
          else
            let '(st, e) := allocateState e in
            mret (set_state st (ack_state d) e,
                  [postPacket d ack_model (complete_remotefn_fn st) None m []])
      | _ => Err Fault
      end
  | _ => Err Fault
  end.

Definition complete_remotefn (st : Z) e : res (endpoint * list effect) :=
  _ ← get_origin st e; mret (freeState st e, []).

(** [state->origin] is read once more after [freeState], which leaves it as it is. *)
Definition send_complete ready (st : Z) e : res (endpoint * list effect) :=
  o ← get_origin st e;
  let e := call_unless_null (o_local_fn o) (Local_done (o_target o) (o_local_fn o) (o_cookie o)) e in
  let e := freeState st e in
  o ← get_origin st e;
  mret (if o_remote_fn o =? 0 then (e, [])
        else send_remotefn ready (o_target o) (o_remote_fn o) (o_cookie o) e).

(** ** Packed *)

(** The metadata of a packed packet, in the network header or before the payload. *)
Definition packed_in_header : bool := sizeof_packed_metadata <=? metadata_bytes.
Definition packed_meta (e : endpoint) (p : pami_send_t) : protocol_metadata :=
  packed_metadata (w16 (s_data_len p)) (w16 (s_header_len p)) (e_id e).

(** [send_packed] of an immediate send: the packet, if it is taken at once. *)
Definition send_packed_immediate ready (p : pami_send_t) e : option effect :=
  let bytes := read_bytes (s_header p) (s_header_len p) (e_mem e) ++
               read_bytes (s_data p) (s_data_len p) (e_mem e) in
  let m := Some (packed_meta e p) in
  if ready (s_dest p) then
    Some (Now (s_dest p) (if packed_in_header then single_packet short_model m None bytes
                          else single_packet short_model None m bytes))
  else None.

Definition post_packed (st : Z) (p : pami_send_t) (bytes : list Z) e : effect :=
  let m := Some (packed_meta e p) in
  if packed_in_header then postPacket (s_dest p) short_model (send_complete_fn st) m None bytes
  else postPacket (s_dest p) short_model (send_complete_fn st) None m bytes.

Definition send_packed_simple (st : Z) (p : pami_send_t) e : endpoint * list effect :=
  let bytes := read_bytes (s_header p) (s_header_len p) (e_mem e) ++
               read_bytes (s_data p) (s_data_len p) (e_mem e) in
  (e, [post_packed st p bytes e]).

(** The place of the header in [state->packet]. *)
Definition packed_ptr (st : Z) : Z :=
  packet_of st + (if packed_in_header then 0 else sizeof_packed_metadata).

(** An immediate send that is not taken at once is copied into the state. *)
Definition queue_immediate (st : Z) (p : pami_send_t) e : res (endpoint * list effect) :=
  let ptr := packed_ptr st in
  s ← memcpy ptr (s_header p) (s_header_len p) (e_mem e);
  s ← memcpy (ptr + s_header_len p) (s_data p) (s_data_len p) s;
  let e := set_mem s e in
  mret (e, [post_packed st p (read_bytes ptr (s_header_len p + s_data_len p) s) e]).

Definition open_machine (type offset data_fn data_cookie : Z) e : res (endpoint * TypeMachine) :=
  '(h, machine) ← TypeMachine_new contig_max (e_types e) type;
  machine ← SetCopyFunc h machine data_fn data_cookie;
  machine ← MoveCursor fuel h machine offset;
  mret (set_types h e, machine).

Definition send_packed_typed (st : Z) (p : pami_send_t) (ty : pami_typed_t) e :
    res (endpoint * list effect) :=
  '(e, machine) ← open_machine (ty_type ty) (ty_offset ty) (ty_data_fn ty) (ty_data_cookie ty) e;
  let ptr := packed_ptr st in
  s ← memcpy ptr (s_header p) (s_header_len p) (e_mem e);
  '(machine, s) ← Pack big_endian floats user_fn fuel (e_types e) machine (ptr + s_header_len p) (s_data p) (s_data_len p) s;
  let e := set_mem s e in
  let eff := post_packed st p (read_bytes ptr (s_header_len p + s_data_len p) s) e in
  h ← TypeMachine_delete (e_types e) machine;
  mret (set_types h e, [eff]).

(** [!type->IsCompleted()], which is only looked at with ERROR_CHECKS. *)
Definition incomplete_type (type : Z) e : res bool :=
  if ERROR_CHECKS T_Option then ty ← of_option (e_types e !! type); mret (negb (IsCompleted ty))
  else mret false.

(** [local_fn(context, cookie, PAMI_INVAL)]. *)
Definition refuse_recv (info : pami_recv_t) e : endpoint :=
  call_unless_null (r_local_fn info) (Recv_failed (r_local_fn info) (r_cookie info) PAMI_INVAL) e.

(** [is_contiguous_copy_recv]. *)
Definition is_contiguous_copy (info : pami_recv_t) : bool :=
  (r_type info =? PAMI_TYPE_BYTE) && (r_data_fn info =? 0).

Definition dispatch_packed (p : packet) e : res (endpoint * list effect) :=
  match (if metadata_bytes <? sizeof_packed_metadata then p_struct p else p_metadata p) with
  | Some (packed_metadata data_bytes header_bytes origin) =>
      let header := take (Z.to_nat header_bytes) (p_payload p) in
      let data := take (Z.to_nat data_bytes) (drop (Z.to_nat header_bytes) (p_payload p)) in
      let data_ptr := payload_at + header_bytes in
      defined (header_bytes + data_bytes <=? Z.of_nat (length (p_payload p)));;
      if RECV_IMMEDIATE_FORCEOFF T_Option then
        let info := client (e_id e) (e_calls e) header (Some data) data_bytes origin no_recv in
        let e := count_call (add_event
          (Dispatched (e_calls e) origin header (Some data) data_bytes (Some info)) e) in
        if 0 <? data_bytes then
          if is_contiguous_copy info then
            s ← memcpy (r_addr info) data_ptr data_bytes (e_mem e);
            mret (received origin info (set_mem s e), [])
          else
            incomplete ← incomplete_type (r_type info) e;
            if (incomplete : bool) then mret (refuse_recv info e, []) else
            '(e, machine) ← open_machine (r_type info) (r_offset info) (r_data_fn info) (r_data_cookie info) e;
            '(machine, s) ← Unpack big_endian floats user_fn fuel (e_types e) machine (r_addr info) data_ptr data_bytes (e_mem e);
            h ← TypeMachine_delete (e_types e) machine;
            mret (received origin info (set_types h (set_mem s e)), [])
        else mret (received origin info e, [])
      else
        mret (received origin no_recv (count_call (add_event
          (Dispatched (e_calls e) origin header (Some data) data_bytes None) e)), [])
  | _ => Err Fault
  end.

(** ** Envelopes *)

Definition short_in_header : bool := sizeof_shortheader_metadata <=? metadata_bytes.

(** [data_bytes] is in the metadata of the state already. *)
Definition send_envelope (st d : Z) (data_bytes : Z) (header : list Z) (fn : done_fn) e : list effect :=
  let n := Z.of_nat (length header) in
  if ERROR_CHECKS T_Option && LONG_HEADER_DISABLE T_Option && (maximum_eager_packet_payload <? n) then []
  else if negb (LONG_HEADER_DISABLE T_Option) && (maximum_eager_packet_payload <? n) then
    [postPacket d longheader_envelope_model no_fn None
       (Some (longheader_metadata data_bytes n (e_id e))) [];
     postMultiPacket d longheader_message_model fn (Some (endpoint_metadata (e_id e))) header]
  else
    let m := Some (shortheader_metadata data_bytes (w16 n) (e_id e)) in
    if short_in_header then [postPacket d envelope_model fn m None header]
    else [postPacket d envelope_model fn None m header].

(** [process_envelope]: the receive state after the dispatch function was called. *)
Definition process_envelope (header : list Z) (data_bytes origin : Z) (t : target_t) e :
    res (target_t * endpoint) :=
  let i := t_info t in
  let info := mkRecv (r_cookie i) (r_local_fn i) (r_addr i) PAMI_TYPE_BYTE (r_offset i) (r_data_fn i)
    (r_data_cookie i) in
  let info := client (e_id e) (e_calls e) header None data_bytes origin info in
  let e := count_call (add_event (Dispatched (e_calls e) origin header None data_bytes (Some info)) e) in
  let t := with_info info t in
  if T_Contiguous T_Option && T_Copy T_Option then mret (t, e) else
  let info :=
    if T_Contiguous T_Option then
      mkRecv (r_cookie info) (r_local_fn info) (r_addr info) PAMI_TYPE_BYTE 0 (r_data_fn info) (r_data_cookie info)
    else if T_Copy T_Option then
      mkRecv (r_cookie info) (r_local_fn info) (r_addr info) (r_type info) (r_offset info) 0 0
    else info in
  let t := with_info info t in
  incomplete ← incomplete_type (r_type info) e;
  if (incomplete : bool) then mret (t, refuse_recv info e)
  else
    let t := with_contiguous (is_contiguous_copy info) t in
    if is_contiguous_copy info then mret (t, e)
    else
      '(e, machine) ← open_machine (r_type info) (r_offset info) (r_data_fn info) (r_data_cookie info) e;
      mret (with_machine (Some machine) t, e).

(** A receive state with nothing in it; [junk] is left of the [pami_recv_t]. *)
Definition blank_target (info : pami_recv_t) : target_t := mkTarget None false 0 0 0 0 [] info.

Definition null_local_fn (i : pami_recv_t) : pami_recv_t :=
  mkRecv (r_cookie i) 0 (r_addr i) (r_type i) (r_offset i) (r_data_fn i) (r_data_cookie i).

Definition dispatch_envelope_packed (p : packet) e : res (endpoint * list effect) :=
  match (if metadata_bytes <? sizeof_shortheader_metadata then p_struct p else p_metadata p) with
  | Some (shortheader_metadata bytes metabytes origin) =>
      defined (metabytes <=? Z.of_nat (length (p_payload p)));;
      let header := take (Z.to_nat metabytes) (p_payload p) in
      let '(st, e) := allocateState e in
      '(t, e) ← process_envelope header bytes origin (blank_target (null_local_fn (junk st))) e;
      if bytes =? 0 then
        let e := set_state st (S_target t) e in
        mret (freeState st (received origin (t_info t) e), [])
      else
        let t := with_header (h_bytes_received t) metabytes (h_addr t) (with_counts 0 bytes t) in
        mret (setConnection st origin (set_state st (S_target t) e), [])
  | _ => Err Fault
  end.

Definition dispatch_envelope_metadata (p : packet) e : res (endpoint * list effect) :=
  match p_struct p with
  | Some (longheader_metadata bytes metabytes origin) =>
      let '(st, e) := allocateState e in
      let t := with_header 0 metabytes [] (with_counts 0 bytes (blank_target (junk st))) in
      mret (setConnection st origin (set_state st (S_target t) e), [])
  | _ => Err Fault
  end.

Definition dispatch_envelope_header (p : packet) e : res (endpoint * list effect) :=
  match p_metadata p with
  | Some (endpoint_metadata origin) =>
      st ← getConnection origin e;
      t ← get_target st e;
      let n := Z.min (packet_bytes p) (w64 (h_bytes_total t - h_bytes_received t)) in
      let addr := take (Z.to_nat (h_bytes_received t)) (h_addr t) ++ take (Z.to_nat n) (p_payload p) in
      let t := with_header (h_bytes_received t + n) (h_bytes_total t) addr t in
      let e := set_state st (S_target t) e in
      if h_bytes_total t =? h_bytes_received t then
        if t_bytes_total t =? 0 then
          let e := count_call (add_event (Dispatched (e_calls e) origin addr None 0 None) e) in
          mret (freeState st (clearConnection origin (received origin no_recv e)), [])
        else
          '(t, e) ← process_envelope addr (t_bytes_total t) origin t e;
          mret (set_state st (S_target t) e, [])
      else mret (e, [])
  | _ => Err Fault
  end.

(** ** Data *)

(** [sizeof(data_pipeline_t)]. *)
Definition sizeof_pipeline : Z := payload_bytes.

(** Packs [n] bytes into a pipeline of the state and posts them. *)
Definition pack_and_post (st which n : Z) (d : Z) (fn : done_fn) e : res (endpoint * effect) :=
  o ← get_origin st e;
  machine ← of_option (o_machine o);
  '(machine, s) ← Pack big_endian floats user_fn fuel (e_types e) machine (pipeline st which) (o_base_addr o) n (e_mem e);
  let o := mkOrigin (Some machine) (o_base_addr o) (o_bytes_remaining o) (o_start_count o) (o_target o)
    (o_local_fn o) (o_remote_fn o) (o_cookie o) in
  let e := set_state st (S_origin o) (set_mem s e) in
  mret (e, postMultiPacket d data_model fn (Some (endpoint_metadata (e_id e)))
             (read_bytes (pipeline st which) n s)).

Definition send_data_contiguous (st : Z) (p : pami_send_t) e : list effect :=
  [postMultiPacket (s_dest p) data_model (send_complete_fn st) (Some (endpoint_metadata (e_id e)))
     (read_bytes (s_data p) (s_data_len p) (e_mem e))].

Definition send_data_typed (st : Z) (p : pami_send_t) (ty : pami_typed_t) e : res (endpoint * list effect) :=
  type ← of_option (e_types e !! ty_type ty);
  incomplete ← incomplete_type (ty_type ty) e;
  if (incomplete : bool) then mret (e, []) else
  '(e, machine) ← open_machine (ty_type ty) (ty_offset ty) (ty_data_fn ty) (ty_data_cookie ty) e;
  if negb (payload_bytes `mod` GetAtomSize type =? 0) then Err Aborted else
  o ← get_origin st e;
  let n := s_data_len p in
  let d := s_dest p in
  let start := if n <=? w64 (sizeof_pipeline * 2) then o_start_count o else 2 in
  let e := set_state st (S_origin (mkOrigin (Some machine) (s_data p) n start (o_target o)
    (o_local_fn o) (o_remote_fn o) (o_cookie o))) e in
  if n <=? sizeof_pipeline then
    '(e, eff) ← pack_and_post st 0 n d (send_complete_fn st) e; mret (e, [eff])
  else if n <=? w64 (sizeof_pipeline * 2) then
    '(e, eff1) ← pack_and_post st 0 sizeof_pipeline d no_fn e;
    '(e, eff2) ← pack_and_post st 1 (n - sizeof_pipeline) d (send_complete_fn st) e;
    mret (e, [eff1; eff2])
  else
    '(e, eff1) ← pack_and_post st 0 sizeof_pipeline d (complete_data_fn st) e;
    '(e, eff2) ← pack_and_post st 1 sizeof_pipeline d (complete_data_fn st) e;
    mret (e, [eff1; eff2]).

Definition complete_data (st : Z) e : res (endpoint * list effect) :=
  o ← get_origin st e;
  let which := Z.land (o_start_count o) 1 in
  let n := o_bytes_remaining o in
  let with_remaining n := set_state st (S_origin (mkOrigin (o_machine o) (o_base_addr o) n
    (w64 (o_start_count o + 1)) (o_target o) (o_local_fn o) (o_remote_fn o) (o_cookie o))) e in
  if n <=? sizeof_pipeline then
    '(e, eff) ← pack_and_post st which n (o_target o) (send_complete_fn st) (with_remaining n);
    mret (e, [eff])
  else if n <=? w64 (sizeof_pipeline * 2) then
    '(e, eff) ← pack_and_post st which sizeof_pipeline (o_target o) no_fn
      (with_remaining (w64 (n - sizeof_pipeline)));
    mret (e, [eff])
  else
    '(e, eff) ← pack_and_post st which sizeof_pipeline (o_target o) (complete_data_fn st)
      (with_remaining (w64 (n - sizeof_pipeline)));
    mret (e, [eff]).

(** The bytes of a data packet copied to their place. *)
Definition copy_data (t : target_t) (ncopy : Z) e : res (target_t * endpoint) :=
  if (T_Contiguous T_Option && T_Copy T_Option) || t_is_contiguous_copy_recv t then
    s ← memcpy (w64 (r_addr (t_info t) + t_bytes_received t)) payload_at ncopy (e_mem e);
    mret (t, set_mem s e)
  else
    machine ← of_option (t_machine t);
    '(machine, s) ← Unpack big_endian floats user_fn fuel (e_types e) machine (r_addr (t_info t)) payload_at ncopy (e_mem e);
    mret (with_machine (Some machine) t, set_mem s e).

Definition dispatch_data (p : packet) e : res (endpoint * list effect) :=
  match p_metadata p with
  | Some (endpoint_metadata origin) =>
      st ← getConnection origin e;
      t ← get_target st e;
      let nbyte := t_bytes_received t in
      let nleft := w64 (t_bytes_total t - nbyte) in
      let bytes := packet_bytes p in
      let ncopy := Z.min nleft bytes in
      '(t, e) ← copy_data t ncopy e;
      let t := with_counts (w64 (nbyte + ncopy)) (t_bytes_total t) t in
      let e := set_state st (S_target t) e in
      if t_bytes_total t <=? w64 (nbyte + bytes) then
        let e := clearConnection origin e in
        mret (freeState st (received origin (t_info t) e), [])
      else mret (e, [])
  | _ => Err Fault
  end.

(** ** The sends *)

Definition send_state (p : pami_send_t) : eager_state_t :=
  S_origin (mkOrigin None 0 0 0 (s_dest p) (s_local_fn p) (s_remote_fn p) (s_cookie p)).

Definition immediate_impl ready (p : pami_send_t) e : res (endpoint * list effect * pami_result_t) :=
  if ERROR_CHECKS T_Option &&
    (packet_model_immediate_bytes T_Model <? w64 (s_data_len p + s_header_len p))
  then mret (e, [], PAMI_INVAL)
  else if negb (isPeer (s_dest p)) then mret (e, [], PAMI_INVAL)
  else
    match send_packed_immediate ready p e with
    | Some eff => mret (e, [eff], PAMI_SUCCESS)
    | None =>
        if QUEUE_IMMEDIATE_DISABLE T_Option then mret (e, [], PAMI_EAGAIN) else
        let '(st, e) := allocateState e in
        let e := set_state st (S_origin (mkOrigin None 0 0 0 (s_dest p) 0 0 0)) e in
        '(e, effs) ← queue_immediate st p e;
        mret (e, effs, PAMI_SUCCESS)
    end.

(** The short send, or the envelope and the data; [packed] and [data] are the
    implementations for simple and for typed sends. *)
Definition send_impl (packed data : Z → endpoint → res (endpoint * list effect)) (p : pami_send_t) e :
    res (endpoint * list effect * pami_result_t) :=
  if negb (isPeer (s_dest p)) then mret (e, [], PAMI_INVAL) else
  let total_bytes := w64 (s_header_len p + s_data_len p) in
  let fits_short := total_bytes <=? maximum_short_packet_payload in
  if ERROR_CHECKS T_Option && RECV_IMMEDIATE_FORCEON T_Option && negb fits_short
  then mret (e, [], PAMI_INVAL)
  else if RECV_IMMEDIATE_FORCEON T_Option || (negb (RECV_IMMEDIATE_FORCEOFF T_Option) && fits_short) then
    let '(st, e) := allocateState e in
    '(e, effs) ← packed st (set_state st (send_state p) e);
    mret (e, effs, PAMI_SUCCESS)
  else if ERROR_CHECKS T_Option && LONG_HEADER_DISABLE T_Option &&
    (maximum_eager_packet_payload <? s_header_len p)
  then mret (e, [], PAMI_INVAL)
  else
    let '(st, e) := allocateState e in
    let e := set_state st (send_state p) e in
    let header := read_bytes (s_header p) (s_header_len p) (e_mem e) in
    if s_data_len p =? 0 then
      mret (e, send_envelope st (s_dest p) (s_data_len p) header (send_complete_fn st) e, PAMI_SUCCESS)
    else
      let effs1 := send_envelope st (s_dest p) (s_data_len p) header no_fn e in
      '(e, effs2) ← data st e;
      mret (e, effs1 ++ effs2, PAMI_SUCCESS).

Definition simple_impl (p : pami_send_t) e : res (endpoint * list effect * pami_result_t) :=
  send_impl (λ st e, mret (send_packed_simple st p e)) (λ st e, mret (e, send_data_contiguous st p e)) p e.
Definition typed_impl (p : pami_send_t) (ty : pami_typed_t) e : res (endpoint * list effect * pami_result_t) :=
  send_impl (λ st, send_packed_typed st p ty) (λ st, send_data_typed st p ty) p e.

(** ** The device's calls *)

(** The dispatch function of the model of a packet. *)
Definition dispatch (src : Z) ready (p : packet) e : res (endpoint * list effect) :=
  let e := set_mem (write_bytes payload_at (p_payload p) (e_mem e)) e in
  match p_model p with
  | envelope_model => dispatch_envelope_packed p e
  | longheader_envelope_model => dispatch_envelope_metadata p e
  | longheader_message_model => dispatch_envelope_header p e
  | data_model => dispatch_data p e
  | ack_model => dispatch_remotefn src ready p e
  | short_model => dispatch_packed p e
  end.

(** The completion function of a post. *)
Definition completed_post ready (fn : done_fn) e : res (endpoint * list effect) :=
  match fn with
  | no_fn => mret (e, [])
  | send_complete_fn st => send_complete ready st e
  | complete_data_fn st => complete_data st e
  | complete_remotefn_fn st => complete_remotefn st e
  end.

(** * Endpoints and a network *)

(** From one endpoint to another: the posts the device is not through with, and the packets
    under way.  The network is reliable and keeps the order, as [reliable_packet_model] and
    [deterministic_packet_model] of PacketInterface.h say. *)
Record channel := mkChannel { c_out : list post; c_net : list packet }.
Definition no_channel : channel := mkChannel [] [].

Record world := mkWorld { w_endpoint : Z → endpoint; w_channel : gmap (Z * Z) channel }.

Definition chan (w : world) (s d : Z) : channel := default no_channel (w_channel w !! (s, d)).

Definition set_chan (s d : Z) (c : channel) (w : world) : world :=
  mkWorld (w_endpoint w) (<[(s, d) := c]> (w_channel w)).
Definition set_endpoint (s : Z) (e : endpoint) (w : world) : world :=
  mkWorld (<[s := e]> (w_endpoint w)) (w_channel w).

Definition apply_effect (s : Z) (w : world) (eff : effect) : world :=
  match eff with
  | Now d p => set_chan s d (mkChannel (c_out (chan w s d)) (c_net (chan w s d) ++ [p])) w
  | Posted d p => set_chan s d (mkChannel (c_out (chan w s d) ++ [p]) (c_net (chan w s d))) w
  end.
Definition apply_effects (s : Z) (effs : list effect) (w : world) : world :=
  foldl (apply_effect s) w effs.

(** The device can send at once where nothing waits, when it wants to. *)
Definition ready_at (w : world) (s : Z) (wants : Z → bool) (d : Z) : bool :=
  wants d && bool_decide (c_out (chan w s d) = []).

(** A function of the endpoint [s]. *)
Definition run_at (s : Z) (f : endpoint → res (endpoint * list effect)) (w : world) : res world :=
  '(e, effs) ← f (w_endpoint w s); mret (apply_effects s effs (set_endpoint s e w)).

Definition post_packet (p : post) (bytes : list Z) : packet :=
  if po_multi p then
    mkPacket (po_model p) (fits (packet_model_multi_metadata_bytes T_Model) (po_metadata p)) None bytes
  else single_packet (po_model p) (po_metadata p) (po_struct p) bytes.

(** The device sends the next packet from [s] to [d]; after the last one of a post it calls
    its completion function. *)
Definition inject (wants : Z → bool) (s d : Z) (w : world) : res world :=
  let c := chan w s d in
  match c_out c with
  | [] => mret w
  | p :: out =>
      let n := if po_multi p then Z.to_nat payload_bytes else length (po_payload p) in
      let net := c_net c ++ [post_packet p (take n (po_payload p))] in
      match drop n (po_payload p) with
      | [] =>
          let w := set_chan s d (mkChannel out net) w in
          run_at s (completed_post (ready_at w s wants) (po_done p)) w
      | rest =>
          let p := mkPost (po_model p) (po_metadata p) (po_struct p) rest (po_multi p) (po_done p) in
          mret (set_chan s d (mkChannel (p :: out) net) w)
      end
  end.

(** A packet from [s] reaches [d]. *)
Definition deliver (wants : Z → bool) (s d : Z) (w : world) : res world :=
  let c := chan w s d in
  match c_net c with
  | [] => mret w
  | p :: net =>
      let w := set_chan s d (mkChannel (c_out c) net) w in
      run_at d (dispatch s (ready_at w d wants) p) w
  end.
End eager.
