(* ===== verification/EagerData.v ===== *)
(** How the eager protocol moves bytes: what is packed at the origin, and what the pieces of a
    message leave in the memory of the target, through a type or not. *)
From S2P Require Import Prelude.
From S2P Require Import Layout.
From S2P Require Import Memory.
From S2P Require Import TypeCode.
From S2P Require Import TypeCodeSpec.
From S2P Require Import TypeFunc.
From S2P Require Import TypeMachine.
From S2P Require Import PamiType.
From S2P Require Import TypeMachineSpec.
From S2P Require Import TypeCursorSpec.
From S2P Require Import TypeTransfer.
From S2P Require Import TypeMachineProps.
From S2P Require Import PamiTransfer.
From S2P Require Import MemoryAllocator.
From S2P Require Import EagerSimple.

#[local] Opaque w64.

(** * Type objects that gain references *)

Definition grown (h0 h : heap) : Prop := ∀ a t, h0 !! a = Some t →
  ∃ t', h !! a = Some t' ∧ same_code t t' ∧ ref_cnt t ≤ ref_cnt t'.

Lemma same_code_trans t1 t2 t3 : same_code t1 t2 → same_code t2 t3 → same_code t1 t3.
Proof. intros (?&?&?) (?&?&?). repeat split; congruence. Qed.

Lemma grown_refl h : grown h h.
Proof. intros a t Ht. exists t. split; [done|]. split; [done|lia]. Qed.

Lemma grown_trans h1 h2 h3 : grown h1 h2 → grown h2 h3 → grown h1 h3.
Proof.
  intros H12 H23 a t Ht. destruct (H12 a t Ht) as (t2&Ht2&Hs2&Hr2).
  destruct (H23 a t2 Ht2) as (t3&Ht3&Hs3&Hr3). exists t3. split; [done|].
  split; [by eapply same_code_trans|lia].
Qed.

Lemma grown_acquire h a t : h !! a = Some t → grown h (<[a := AcquireReference t]> h).
Proof.
  intros Ha b u Hb. destruct (decide (a = b)) as [->|Hne].
  - rewrite Ha in Hb. injection Hb as ->. exists (AcquireReference u). rewrite lookup_insert_eq.
    split; [done|]. split; [done|]. cbn. lia.
  - exists u. rewrite lookup_insert_ne by done. split; [done|]. split; [done|lia].
Qed.

Lemma client_type_grown h0 h a t P : client_type h0 a t P → grown h0 h →
  ∃ t', client_type h a t' P ∧ same_code t t'.
Proof.
  intros [Ha Hd Hp Hr Hprim] Hg. destruct (Hg a t Ha) as (t'&Ha'&Hs&Hr').
  exists t'. split; [|done]. split; [done|by eapply same_code_denotes|done|lia|].
  unfold GetPrimitive in *. by destruct Hs as (->&_).
Qed.

Lemma contig_max_grown a h0 h : has_contig_max a h0 → grown h0 h → has_contig_max a h.
Proof.
  intros (t&Ht&Hd) Hg. destruct (Hg a t Ht) as (t'&Ht'&Hs&_). exists t'.
  split; [done|by eapply same_code_denotes].
Qed.

Lemma machine_at_grown h0 h m P o : machine_at h0 m P o → grown h0 h → machine_at h m P o.
Proof.
  intros (t&c&p&b&Ht&Hd&Hpos&Hcap&Hstk&Hinv) Hg. destruct (Hg _ _ Ht) as (t'&Ht'&Hs&_).
  exists t', c, p, b. split; [done|]. split; [by eapply same_code_denotes|]. split; [done|].
  split; [done|]. split; [done|]. by destruct (same_code_eq _ _ Hs) as (->&_&_).
Qed.

Lemma run_prog_same t t' P : same_code t t' → run_prog t' P = run_prog t P.
Proof. intros Hs. unfold run_prog. by destruct (same_code_eq _ _ Hs) as (_&->&_). Qed.

(** * Bytes *)

Lemma write_bytes_in a l s i : 0 ≤ i < Z.of_nat (length l) → write_bytes a l s (a + i) = nth (Z.to_nat i) l 0.
Proof.
  intros Hi. unfold write_bytes. rewrite (proj2 (Z.leb_le _ _)), (proj2 (Z.ltb_lt _ _)) by lia. cbn.
  f_equal. lia.
Qed.

Lemma write_bytes_out a l s x : x < a ∨ a + Z.of_nat (length l) ≤ x → write_bytes a l s x = s x.
Proof.
  intros Hx. unfold write_bytes. destruct (Z.leb_spec a x), (Z.ltb_spec x (a + Z.of_nat (length l))); try done; lia.
Qed.

(** * Typed data *)

Section data.
Context `{EagerParams}.

(** [n] bytes of the type at [ty], from an offset, that lie between [lo] and [hi]. *)
Record typed_data (h : heap) (ty off base n lo hi : Z) (t : TypeCode) (P : prog) : Prop := {
  td_type : client_type h ty t P;
  td_offset : 0 ≤ off;
  td_end : (off / psize (run_prog t P) + 1) * psize (run_prog t P) < 2 ^ 64;
  td_ops : ops (run_prog t P) ≤ Z.of_nat fuel;
  td_fuel : run_fuel (run_prog t P) n ≤ Z.of_nat fuel;
  td_region : typed_region lo hi base P off n
}.

Lemma typed_data_grown h0 h ty off base n lo hi t P : typed_data h0 ty off base n lo hi t P → grown h0 h →
  ∃ t', typed_data h ty off base n lo hi t' P ∧ same_code t t'.
Proof.
  intros [Hty Ho He Hops Hf Hr] Hg. destruct (client_type_grown _ _ _ _ _ Hty Hg) as (t'&Hty'&Hs).
  exists t'. split; [|done]. split; rewrite ?(run_prog_same _ _ _ Hs); done.
Qed.

(** A type that is completed is not refused. *)
Lemma complete_type e ty t : e_types e !! ty = Some t → IsCompleted t = true → incomplete_type ty e = Ok false.
Proof. intros Ht Hc. unfold incomplete_type. rewrite Ht. cbn. rewrite Hc. by destruct (ERROR_CHECKS T_Option). Qed.

Lemma open_machine_spec e ty off ck base n lo hi t P : has_contig_max contig_max (e_types e) →
  typed_data (e_types e) ty off base n lo hi t P →
  ∃ m, open_machine ty off 0 ck e = Ok (set_types (<[ty := AcquireReference t]> (e_types e)) e, m) ∧
    machine_at (<[ty := AcquireReference t]> (e_types e)) m (run_prog t P) off ∧ copies m ∧ GetType m = ty.
Proof.
  intros Hcm [[Ha Hd Hp Hr Hprim] Ho He Hops _ _]. unfold open_machine.
  destruct (TypeMachine_new_spec contig_max (e_types e) ty t P Hcm Ha Hd Hp) as (m&Hrun&Hm&Hcp&Ht&_).
  rewrite Hrun. cbn [mbind res_bind].
  destruct (SetCopyFunc_copy _ m (AcquireReference t) _ 0 ck Hm) as (m1&Hs&Hm1&Hcp1&Ht1).
  { rewrite Ht. apply lookup_insert_eq. }
  { done. }
  rewrite Hs. cbn [mbind res_bind].
  destruct (MoveCursor_machine _ m1 _ 0 off Hm1 ltac:(lia) Ho He fuel Hops) as (m2&Hmv&Hm2&Hcf&Ht2).
  rewrite Hmv. exists m2. split; [done|]. split; [done|]. split; [|congruence].
  unfold copies in *. by rewrite Hcf.
Qed.

Lemma run_prog_nonneg t P : type_denotes t P → nonneg (run_prog t P).
Proof.
  intros Hd. unfold run_prog. destruct (IsContiguous t); [|by apply wf_nonneg, td_wf with t].
  apply wf_nonneg, td_wf with contig_max_type, contig_max_denotes.
Qed.

Lemma typed_fuel h ty off base n lo hi t P c : typed_data h ty off base n lo hi t P → c ≤ n →
  run_fuel (run_prog t P) c ≤ Z.of_nat fuel.
Proof.
  intros [[_ Hd _ _ _] _ _ _ Hf _] Hc. pose proof (steps_pos _ (run_prog_nonneg _ _ Hd)).
  unfold run_fuel in *. nia.
Qed.

(** The stream of what a machine runs is that of the type. *)
Lemma typed_stream h ty off base n lo hi t P k : typed_data h ty off base n lo hi t P → 0 ≤ k →
  stream (run_prog t P) k = stream P k.
Proof. intros [[_ Hd Hp _ _] _ _ _ _ _] Hk. by apply run_prog_stream. Qed.

Lemma typed_region_run h ty off base n lo hi t P : typed_data h ty off base n lo hi t P →
  typed_region lo hi base (run_prog t P) off n.
Proof.
  intros Htd. pose proof (td_offset _ _ _ _ _ _ _ _ _ Htd).
  destruct (td_region _ _ _ _ _ _ _ _ _ Htd) as (Hlo&Hhi&Hall).
  split; [done|]. split; [done|]. intros k Hk. rewrite (typed_stream _ _ _ _ _ _ _ _ _ _ Htd) by lia. by apply Hall.
Qed.

(** The bytes of the data. *)
Definition typed_bytes (P : prog) (base off n : Z) (s : mem) : list Z :=
  map (λ i, s (address base (stream P (off + i)))) (seqZ 0 n).

Lemma typed_bytes_length P base off n s : 0 ≤ n → Z.of_nat (length (typed_bytes P base off n s)) = n.
Proof. intros Hn. unfold typed_bytes. rewrite length_map, length_seqZ. lia. Qed.

Lemma typed_bytes_app P base off n1 n2 s : 0 ≤ n1 → 0 ≤ n2 →
  typed_bytes P base off (n1 + n2) s = typed_bytes P base off n1 s ++ typed_bytes P base (off + n1) n2 s.
Proof.
  intros H1 H2. unfold typed_bytes. rewrite seqZ_app, map_app by done. f_equal.
  rewrite Z.add_0_l. replace (seqZ n1 n2) with (map (Z.add n1) (seqZ 0 n2)).
  - rewrite map_map. apply map_ext. intros. by rewrite Z.add_assoc.
  - by rewrite <- seqZ_shift, Z.add_0_l.
Qed.

(** Packing and unpacking a part of it. *)
Section part.
Context (h h' : heap) (ty off base n lo hi : Z) (t : TypeCode) (P : prog) (m : TypeMachine) (o c : Z).
Context (Htd : typed_data h ty off base n lo hi t P).
Context (Hm : machine_at h' m (run_prog t P) (off + o)) (Hcp : copies m).
Context (Ho : 0 ≤ o) (Hc : 0 ≤ c) (Hn : o + c ≤ n).

Lemma part_region : typed_region lo hi base (run_prog t P) (off + o) c.
Proof. eapply typed_region_sub; [by eapply typed_region_run|lia..]. Qed.

Lemma pack_part target s : 0 ≤ target → target + c < 2 ^ 64 → target + c ≤ lo ∨ hi ≤ target →
  ∃ m' s', Pack big_endian floats user_fn fuel h' m target base c s = Ok (m', s') ∧
    machine_at h' m' (run_prog t P) (off + o + c) ∧ copies m' ∧ GetType m' = GetType m ∧
    read_bytes target c s' = typed_bytes P base (off + o) c s ∧
    (∀ x, x < target ∨ target + c ≤ x → s' x = s x).
Proof.
  intros Ht Htc Hdis. pose proof (td_offset _ _ _ _ _ _ _ _ _ Htd).
  destruct (Pack_spec big_endian floats user_fn h' m (run_prog t P) (off + o) c lo hi target base Hm Hcp Hc)
    with (fuel := fuel) (s := s) as (m'&s'&Hrun&Hm'&Hcf&Hin&Hout); try done.
  { apply part_region. } { eapply typed_fuel; [done|lia]. }
  exists m', s'. split; [done|]. split; [done|]. split; [unfold copies in *; by rewrite Hcf|].
  split; [by eapply run_GetType|]. split; [|done].
  unfold read_bytes, typed_bytes. apply map_ext_in. intros i Hi%list_elem_of_In%elem_of_seqZ.
  rewrite Hin by lia. by rewrite (typed_stream _ _ _ _ _ _ _ _ _ _ Htd) by lia.
Qed.

Lemma unpack_part origin s : 
  (∀ j k, 0 ≤ j < n → 0 ≤ k < n →
    address base (stream P (off + j)) = address base (stream P (off + k)) → j = k) →
  0 ≤ origin → origin + c < 2 ^ 64 → origin + c ≤ lo ∨ hi ≤ origin →
  ∃ m' s', Unpack big_endian floats user_fn fuel h' m base origin c s = Ok (m', s') ∧
    machine_at h' m' (run_prog t P) (off + o + c) ∧ copies m' ∧ GetType m' = GetType m ∧
    (∀ i, 0 ≤ i < c → s' (address base (stream P (off + (o + i)))) = s (origin + i)) ∧
    (∀ x, (∀ i, 0 ≤ i < c → x ≠ address base (stream P (off + (o + i)))) → s' x = s x).
Proof.
  intros Hinj Hs Hsc Hdis. pose proof (td_offset _ _ _ _ _ _ _ _ _ Htd) as Hoff.
  assert (Hst : ∀ k, 0 ≤ k → stream (run_prog t P) k = stream P k).
  { intros. by eapply typed_stream. }
  destruct (Unpack_spec big_endian floats user_fn h' m (run_prog t P) (off + o) c lo hi base origin Hm Hcp Hc)
    with (fuel := fuel) (s := s) as (m'&s'&Hrun&Hm'&Hcf&Hin&Hout); try done.
  { apply part_region. }
  { intros j k Hj Hk. rewrite !Hst by lia. intros Heq.
    specialize (Hinj (j - off) (k - off)). replace (off + (j - off)) with j in Hinj by lia.
    replace (off + (k - off)) with k in Hinj by lia.
    specialize (Hinj ltac:(lia) ltac:(lia) (f_equal (address base) Heq)). lia. }
  { eapply typed_fuel; [done|lia]. }
  exists m', s'. split; [done|]. split; [done|]. split; [unfold copies in *; by rewrite Hcf|].
  split; [by eapply run_GetType|]. split.
  - intros i Hi. rewrite <- Hin by done. rewrite Hst by lia. do 3 f_equal. lia.
  - intros x Hx. apply Hout. intros i Hi. rewrite Hst by lia. rewrite <- Z.add_assoc. by apply Hx.
Qed.
End part.

(** * Where a message lands *)

(** [n] bytes between [lo] and [hi], the [i]-th at [f i]: one after the other, or through a type. *)
Inductive lands (h : heap) (info : pami_recv_t) (n lo hi : Z) : bool → (Z → Z) → Prop :=
| lands_contiguous : (0 < n → 0 < lo ≤ r_addr info ∧ r_addr info + n ≤ hi < 2 ^ 64) →
    lands h info n lo hi true (λ i, r_addr info + i)
| lands_typed t P : r_data_fn info = 0 →
    typed_data h (r_type info) (r_offset info) (r_addr info) n lo hi t P →
    (∀ j k, 0 ≤ j < n → 0 ≤ k < n → address (r_addr info) (stream P (r_offset info + j)) =
      address (r_addr info) (stream P (r_offset info + k)) → j = k) →
    lands h info n lo hi false (λ i, address (r_addr info) (stream P (r_offset info + i))).

Lemma address_range a d : 0 ≤ address a d < 2 ^ 64.
Proof. unfold address. apply w64_range. Qed.

Lemma lands_within h info n lo hi b f i : lands h info n lo hi b f → 0 ≤ i < n → lo ≤ f i < hi.
Proof.
  intros [Hr|t P _ Htd _] Hi; [lia|]. destruct (td_region _ _ _ _ _ _ _ _ _ Htd) as (_&_&Hr).
  apply Hr. lia.
Qed.

Lemma lands_injective h info n lo hi b f j k : lands h info n lo hi b f → 0 ≤ j < n → 0 ≤ k < n →
  f j = f k → j = k.
Proof. intros [Hr|t P _ Htd Hinj] Hj Hk Heq; [lia|by apply Hinj]. Qed.

Lemma lands_grown h0 h info n lo hi b f : lands h0 info n lo hi b f → grown h0 h →
  lands h info n lo hi b f.
Proof.
  intros [Hr|t P Hfn Htd Hinj] Hg; [by constructor|].
  destruct (typed_data_grown _ _ _ _ _ _ _ _ _ _ Htd Hg) as (t'&Htd'&_). by econstructor.
Qed.

(** What moving the bytes [o .. o + c) of a message from [origin] does to the memory. *)
Definition moved (f : Z → Z) (origin o c : Z) (s s' : mem) : Prop :=
  (∀ i, 0 ≤ i < c → s' (f (o + i)) = s (origin + i)) ∧
  (∀ x, (∀ i, 0 ≤ i < c → x ≠ f (o + i)) → s' x = s x).

(** The payload of a packet does not lie where the client receives. *)
Definition apart (origin c lo hi : Z) : Prop :=
  0 ≤ origin ∧ origin + c < 2 ^ 64 ∧ (origin + c ≤ lo ∨ hi ≤ origin).

Lemma memcpy_moved a origin o c s : 0 ≤ c → 0 ≤ o → 0 < a → a + o + c < 2 ^ 64 → apart origin c (a + o) (a + o + c) →
  ∃ s', memcpy (w64 (a + o)) origin c s = Ok s' ∧ moved (λ i, a + i) origin o c s s'.
Proof.
  intros Hc Ho Ha Hac (H1&H2&H3). rewrite w64_small by lia. rewrite memcpy_Ok by lia.
  eexists. split; [reflexivity|]. split.
  - intros i Hi. rewrite move_in by lia. f_equal. lia.
  - intros x Hx. apply move_out. destruct (Z.lt_ge_cases x (a + o)); [by left|].
    destruct (Z.le_gt_cases (a + o + c) x); [by right|]. destruct (Hx (x - a - o)); lia.
Qed.

(** A receive state whose first [o] of [n] bytes are in place. *)
Definition copies_flat (t : target_t) : bool :=
  (T_Contiguous T_Option && T_Copy T_Option) || t_is_contiguous_copy_recv t.

Inductive receiving (h : heap) (t : target_t) (n lo hi o : Z) : (Z → Z) → Prop :=
| receiving_contiguous f : copies_flat t = true → lands h (t_info t) n lo hi true f →
    receiving h t n lo hi o f
| receiving_typed m ty P : copies_flat t = false → t_machine t = Some m →
    typed_data h (r_type (t_info t)) (r_offset (t_info t)) (r_addr (t_info t)) n lo hi ty P →
    lands h (t_info t) n lo hi false (λ i, address (r_addr (t_info t)) (stream P (r_offset (t_info t) + i))) →
    machine_at h m (run_prog ty P) (r_offset (t_info t) + o) → copies m →
    receiving h t n lo hi o (λ i, address (r_addr (t_info t)) (stream P (r_offset (t_info t) + i))).

Lemma receiving_lands h t n lo hi o f : receiving h t n lo hi o f →
  ∃ b, lands h (t_info t) n lo hi b f.
Proof. intros [|]; eauto. Qed.

Lemma receiving_grown h0 h t n lo hi o f : receiving h0 t n lo hi o f → grown h0 h →
  receiving h t n lo hi o f.
Proof.
  intros [g Hfl Hl|m ty P Hfl Hm Htd Hl Hma Hcp] Hg.
  - apply receiving_contiguous; [done|by eapply lands_grown].
  - destruct (typed_data_grown _ _ _ _ _ _ _ _ _ _ Htd Hg) as (ty'&Htd'&Hs).
    eapply receiving_typed; [done..|by eapply lands_grown| |done].
    rewrite (run_prog_same _ _ _ Hs). by eapply machine_at_grown.
Qed.

Lemma receiving_counts h t n lo hi o f r total : receiving h t n lo hi o f →
  receiving h (with_counts r total t) n lo hi o f.
Proof. intros [g|m ty P]; [by apply receiving_contiguous|by eapply (receiving_typed _ (with_counts _ _ _))]. Qed.

Lemma receiving_header h t n lo hi o f r total a : receiving h t n lo hi o f →
  receiving h (with_header r total a t) n lo hi o f.
Proof. intros [g|m ty P]; [by apply receiving_contiguous|by eapply (receiving_typed _ (with_header _ _ _ _))]. Qed.

Lemma copy_data_spec t e n lo hi o c f : receiving (e_types e) t n lo hi o f →
  t_bytes_received t = o → 0 ≤ o → 0 ≤ c → o + c ≤ n → 0 < n → apart payload_at c lo hi →
  ∃ mch s', copy_data t c e = Ok (with_machine mch t, set_mem s' e) ∧
    receiving (e_types e) (with_machine mch t) n lo hi (o + c) f ∧
    moved f payload_at o c (e_mem e) s'.
Proof.
  intros [g Hfl Hl|m ty P Hfl Hm Htd Hl Hma Hcp] Hr Ho Hc Hn Hpos Hap; unfold copy_data;
    fold (copies_flat t); rewrite Hfl.
  - rewrite Hr. inversion Hl as [Hin|]; subst g. destruct Hap as (Hp1&Hp2&Hp3).
    destruct (memcpy_moved (r_addr (t_info t)) payload_at o c (e_mem e)) as (s'&Hs&Hmv); try lia.
    { split; [done|]. split; [done|lia]. }
    rewrite Hs, Ok_bind. exists (t_machine t), s'. split; [by destruct t|].
    split; [|done]. apply receiving_contiguous; [done|]. by destruct t.
  - destruct Hap as (Hp1&Hp2&Hp3). rewrite Hm. cbn [of_option]. rewrite Ok_bind.
    destruct (unpack_part _ _ _ _ _ _ _ _ _ _ m o c Htd Hma Hcp Ho Hc Hn payload_at (e_mem e))
      as (m'&s'&Hrun&Hm'&Hcp'&_&Hin&Hout); try done.
    { intros j k Hj Hk. exact (lands_injective _ _ _ _ _ _ _ j k Hl Hj Hk). }
    rewrite Hrun, Ok_bind. exists (Some m'), s'. split; [done|]. split; [|done].
    eapply (receiving_typed _ (with_machine (Some m') t)); try done. cbn. by rewrite Z.add_assoc.
Qed.
End data.
