(* ===== verification/EagerWire.v ===== *)
(** What the eager protocol puts on the wire: the packets of a message and of an
    acknowledgement, the posts they are made of, and what the device does with the posts. *)
From S2P Require Import Prelude.
From S2P Require Import MemoryAllocator.
From S2P Require Import PamiType.
From S2P Require Import EagerSimple.

(** * What goes from one endpoint to another *)

(** A message, as the client gave it; [m_packed] when it fits the short packet. *)
Record message := mkMessage {
  m_packed : bool; m_header : list Z; m_data : list Z; m_local_fn : Z; m_remote_fn : Z; m_cookie : Z
}.

(** A message, the question whether it has arrived, the answer. *)
Inductive item :=
| Message (m : message)
| Ping (fn cookie : Z)
| Pong (fn cookie : Z).

Definition messages (l : list item) : list message :=
  omap (λ i, match i with Message m => Some m | _ => None end) l.
Definition pings (l : list item) : list (Z * Z) :=
  omap (λ i, match i with Ping fn ck => Some (fn, ck) | _ => None end) l.
Definition pongs (l : list item) : list (Z * Z) :=
  omap (λ i, match i with Pong fn ck => Some (fn, ck) | _ => None end) l.
(** The callbacks that messages ask for. *)
Definition locals (l : list message) : list (Z * Z) :=
  omap (λ m, if m_local_fn m =? 0 then None else Some (m_local_fn m, m_cookie m)) l.
Definition remotes (l : list message) : list (Z * Z) :=
  omap (λ m, if m_remote_fn m =? 0 then None else Some (m_remote_fn m, m_cookie m)) l.

Lemma prefix_omap {A B} (f : A → option B) l1 l2 : l1 `prefix_of` l2 → omap f l1 `prefix_of` omap f l2.
Proof. intros [k ->]. rewrite omap_app. by apply prefix_app_r. Qed.

Definition len (l : list Z) : Z := Z.of_nat (length l).

(** * Packets *)

Section wire.
Context `{EagerParams}.

Notation payload_bytes := (packet_model_payload_bytes T_Model).

(** The model has room for the structures of the protocol. *)
Record model_ok : Prop := {
  ok_payload : 32 ≤ payload_bytes < 2 ^ 16;
  ok_metadata : 4 ≤ packet_model_metadata_bytes T_Model;
  ok_multi_metadata : 4 ≤ packet_model_multi_metadata_bytes T_Model
}.

(** A payload cut into packets; there is at least one. *)
Fixpoint pieces (fuel n : nat) (l : list Z) : list (list Z) :=
  match fuel with
  | O => []
  | S fuel => take n l :: match drop n l with [] => [] | rest => pieces fuel n rest end
  end.
Definition chunks (l : list Z) : list (list Z) := pieces (S (length l)) (Z.to_nat payload_bytes) l.

(** The packets a post is sent as. *)
Definition expand (p : post) : list packet :=
  if po_multi p then map (post_packet p) (chunks (po_payload p)) else [post_packet p (po_payload p)].

(** ** The packets of an item sent by [s] *)

Definition packed_packet (s : Z) (m : message) : packet :=
  let md := Some (packed_metadata (len (m_data m)) (len (m_header m)) s) in
  if packed_in_header then mkPacket short_model md None (m_header m ++ m_data m)
  else mkPacket short_model None md (m_header m ++ m_data m).

Definition long_header (m : message) : bool :=
  negb (LONG_HEADER_DISABLE T_Option) && (maximum_eager_packet_payload <? len (m_header m)).

Definition envelope_packet (s : Z) (m : message) : packet :=
  let md := Some (shortheader_metadata (len (m_data m)) (len (m_header m)) s) in
  if short_in_header then mkPacket envelope_model md None (m_header m)
  else mkPacket envelope_model None md (m_header m).
Definition longheader_packet (s : Z) (m : message) : packet :=
  mkPacket longheader_envelope_model None
    (Some (longheader_metadata (len (m_data m)) (len (m_header m)) s)) [].
Definition header_packet (s : Z) (l : list Z) : packet :=
  mkPacket longheader_message_model (Some (endpoint_metadata s)) None l.
Definition data_packet (s : Z) (l : list Z) : packet :=
  mkPacket data_model (Some (endpoint_metadata s)) None l.
Definition ping_packet (s fn cookie : Z) : packet :=
  mkPacket ack_model (Some (endpoint_metadata s)) (Some (ack_metadata fn cookie s false)) [].
Definition pong_packet (s fn cookie context : Z) : packet :=
  mkPacket ack_model None (Some (ack_metadata fn cookie context true)) [].

Definition envelope (s : Z) (m : message) : list packet :=
  if long_header m then longheader_packet s m :: map (header_packet s) (chunks (m_header m))
  else [envelope_packet s m].
Definition data_packets (s : Z) (l : list Z) : list packet :=
  match l with [] => [] | _ => map (data_packet s) (chunks l) end.

Definition wire (s d : Z) (i : item) : list packet :=
  match i with
  | Message m => if m_packed m then [packed_packet s m] else envelope s m ++ data_packets s (m_data m)
  | Ping fn ck => [ping_packet s fn ck]
  | Pong fn ck => [pong_packet s fn ck d]
  end.

(** ** Lemmas *)

Lemma pieces_fuel f f' n l : (0 < n)%nat → (length l < f)%nat → (length l < f')%nat →
  pieces f n l = pieces f' n l.
Proof.
  intros Hn. revert f' l. induction f as [|f IH]; intros f' l Hf Hf'; [lia|].
  destruct f' as [|f']; [lia|]. cbn [pieces]. f_equal. destruct (drop n l) eqn:Hd; [done|].
  rewrite <- Hd. assert (length (drop n l) ≠ 0%nat) by (by rewrite Hd). rewrite length_drop in *.
  apply IH; rewrite length_drop; lia.
Qed.

Lemma chunks_unfold l : 0 < payload_bytes → chunks l = take (Z.to_nat payload_bytes) l ::
  match drop (Z.to_nat payload_bytes) l with [] => [] | rest => chunks rest end.
Proof.
  intros Hp. unfold chunks at 1. cbn [pieces]. f_equal. destruct (drop _ l) eqn:Hd; [done|].
  rewrite <- Hd. assert (length (drop (Z.to_nat payload_bytes) l) ≠ 0%nat) by (by rewrite Hd).
  rewrite length_drop in *. apply pieces_fuel; rewrite ?length_drop; lia.
Qed.

Lemma chunks_small l : 0 < payload_bytes → len l ≤ payload_bytes → chunks l = [l].
Proof. unfold len. intros. rewrite chunks_unfold, take_ge, drop_ge by lia. done. Qed.

Lemma chunks_app l1 l2 : 0 < payload_bytes → len l1 = payload_bytes → l2 ≠ [] →
  chunks (l1 ++ l2) = l1 :: chunks l2.
Proof.
  unfold len. intros Hp Hl Hne. rewrite chunks_unfold by done.
  rewrite take_app_length', drop_app_length' by lia. by destruct l2.
Qed.

Lemma chunks_concat l : 0 < payload_bytes → concat (chunks l) = l.
Proof.
  intros Hp. induction l as [l IH] using (induction_ltof1 _ (@length Z)). rewrite chunks_unfold by done.
  destruct (drop _ l) as [|x rest] eqn:Hd; cbn [concat].
  - rewrite app_nil_r. apply take_ge. assert (length (drop (Z.to_nat payload_bytes) l) = 0%nat) by by rewrite Hd.
    rewrite length_drop in *. lia.
  - rewrite <- Hd, IH, take_drop; [done|]. unfold ltof.
    assert (length (drop (Z.to_nat payload_bytes) l) ≠ 0%nat) by by rewrite Hd. rewrite length_drop in *. lia.
Qed.

Lemma chunks_bounds l : 0 < payload_bytes → Forall (λ c, len c ≤ payload_bytes ∧ (l ≠ [] → c ≠ [])) (chunks l).
Proof.
  intros Hp. induction l as [l IH] using (induction_ltof1 _ (@length Z)). rewrite chunks_unfold by done.
  apply Forall_cons. split.
  - unfold len. rewrite length_take. split; [lia|]. intros Hl Ht. apply (f_equal length) in Ht.
    rewrite length_take in Ht. destruct l; [done|]. cbn in Ht. lia.
  - destruct (drop _ l) as [|x rest] eqn:Hd; [done|]. rewrite <- Hd.
    eapply Forall_impl; [apply IH|].
    + unfold ltof. assert (length (drop (Z.to_nat payload_bytes) l) ≠ 0%nat) by by rewrite Hd. rewrite length_drop in *. lia.
    + cbn. intros c [Hc1 Hc2]. split; [done|]. intros _. apply Hc2. by rewrite Hd.
Qed.

(** A packet in the middle of a payload. *)
Lemma chunks_split l cs c r : 0 < payload_bytes → chunks l = cs ++ c :: r →
  l = concat cs ++ c ++ concat r ∧ len c ≤ payload_bytes ∧
  (l ≠ [] → c ≠ [] ∧ (concat r = [] → r = [])).
Proof.
  intros Hp Hc. pose proof (chunks_concat l Hp) as Hl. pose proof (chunks_bounds l Hp) as Hb. rewrite Hc in *.
  rewrite concat_app in Hl. cbn in Hl. apply Forall_app in Hb as [_ [[Hb1 Hb2] Hr]%Forall_cons].
  split; [done|]. split; [done|]. intros Hne. split; [by apply Hb2|]. intros Hr'. destruct r as [|x r]; [done|].
  apply Forall_cons in Hr as [[_ Hx] _]. cbn in Hr'. apply app_nil in Hr' as [-> _]. by destruct (Hx Hne).
Qed.

Lemma chunks_ne l : chunks l ≠ [].
Proof. done. Qed.

Lemma expand_ne p : expand p ≠ [].
Proof. unfold expand. by destruct (po_multi p). Qed.

(** * Posts under way *)

Definition done_of (i : item) (st : Z) : done_fn :=
  match i with Message _ => send_complete_fn st | _ => complete_remotefn_fn st end.

(** The posts left of an item, of which the packets [pre] are sent; the device calls the
    completion function of the last. *)
Definition pending (s d : Z) (i : item) (st : Z) (ps : list post) (pre : list packet) : Prop :=
  wire s d i = pre ++ (ps ≫= expand) ∧
  ∃ ps' p, ps = ps' ++ [p] ∧ Forall (λ q, po_done q = no_fn) ps' ∧ po_done p = done_of i st.

Lemma pending_ne s d i st ps pre : pending s d i st ps pre → ps ≠ [] ∧ ps ≫= expand ≠ [].
Proof.
  intros (_&ps'&p&->&_). split; [by destruct ps'|]. rewrite bind_app. cbn. rewrite app_nil_r.
  pose proof (expand_ne p). by destruct (ps' ≫= expand).
Qed.

(** The first packet of a post, and what the post is after it. *)
Definition first_packet (p : post) : packet :=
  post_packet p (take (if po_multi p then Z.to_nat payload_bytes else length (po_payload p)) (po_payload p)).
Definition rest_payload (p : post) : list Z :=
  drop (if po_multi p then Z.to_nat payload_bytes else length (po_payload p)) (po_payload p).
Definition rest_post (p : post) : post :=
  mkPost (po_model p) (po_metadata p) (po_struct p) (rest_payload p) (po_multi p) (po_done p).

Lemma expand_last p : 0 < payload_bytes → rest_payload p = [] → expand p = [first_packet p].
Proof.
  unfold rest_payload, expand, first_packet. intros Hp Hr. destruct (po_multi p); [|by rewrite firstn_all].
  rewrite chunks_unfold, Hr by done. done.
Qed.

Lemma expand_more p : 0 < payload_bytes → rest_payload p ≠ [] →
  expand p = first_packet p :: expand (rest_post p).
Proof.
  unfold expand, first_packet, rest_post, rest_payload. destruct p as [mdl md str l [] fn];
    cbn [po_multi po_payload po_model po_metadata po_struct po_done]; intros Hp Hr;
    [|by rewrite drop_all in Hr].
  rewrite (chunks_unfold l) by done. by destruct (drop (Z.to_nat payload_bytes) l) eqn:Hd.
Qed.

Lemma pending_more s d i st p ps pre : 0 < payload_bytes → pending s d i st (p :: ps) pre → rest_payload p ≠ [] →
  pending s d i st (rest_post p :: ps) (pre ++ [first_packet p]).
Proof.
  intros Hp (Hw&ps'&q&Heq&Hno&Hdone) Hr. split.
  { rewrite Hw. cbn. rewrite (expand_more p Hp Hr), <- (assoc_L (++)). done. }
  destruct ps' as [|x ps']; cbn in Heq; injection Heq as -> ->.
  - by exists [], (rest_post q).
  - apply Forall_cons in Hno as [Hx Hno]. exists (rest_post x :: ps'), q. split; [done|].
    split; [|done]. by apply Forall_cons.
Qed.

Lemma pending_next s d i st p ps pre : 0 < payload_bytes → pending s d i st (p :: ps) pre → rest_payload p = [] →
  (ps = [] ∧ po_done p = done_of i st ∧ wire s d i = pre ++ [first_packet p]) ∨
  (po_done p = no_fn ∧ pending s d i st ps (pre ++ [first_packet p])).
Proof.
  intros Hp (Hw&ps'&q&Heq&Hno&Hdone) Hr. cbn in Hw. rewrite (expand_last p Hp Hr) in Hw.
  destruct ps' as [|x ps']; cbn in Heq; injection Heq as -> ->.
  - left. rewrite Hw. done.
  - right. apply Forall_cons in Hno as [Hx Hno]. split; [done|]. split; [|by exists ps', q].
    by rewrite Hw, <- (assoc_L (++)).
Qed.

(** ** The posts of a channel *)

(** Those of the items [B], each after the other. *)
Fixpoint waiting (s d : Z) (B : list (item * Z)) (out : list post) : Prop :=
  match B with
  | [] => out = []
  | (i, st) :: B => ∃ ps rest, out = ps ++ rest ∧ pending s d i st ps [] ∧ waiting s d B rest
  end.

(** The same, when packets [pre] of the first are sent. *)
Definition outgoing (s d : Z) (B : list (item * Z)) (pre : list packet) (out : list post) : Prop :=
  match B with
  | [] => out = [] ∧ pre = []
  | (i, st) :: B => ∃ ps rest, out = ps ++ rest ∧ pending s d i st ps pre ∧ waiting s d B rest
  end.

Lemma waiting_outgoing s d B out : waiting s d B out ↔ outgoing s d B [] out.
Proof. destruct B as [|[i st] B]; cbn; [naive_solver|done]. Qed.

Lemma waiting_snoc s d B out i st ps : waiting s d B out → pending s d i st ps [] →
  waiting s d (B ++ [(i, st)]) (out ++ ps).
Proof.
  revert out. induction B as [|[j t] B IH]; intros out; cbn.
  - intros -> Hp. exists ps, []. rewrite app_nil_r. done.
  - intros (ps'&rest&->&Hp'&Hw) Hp. exists ps', (rest ++ ps). rewrite (assoc_L (++)).
    split; [done|]. split; [done|]. by apply IH.
Qed.

Lemma outgoing_snoc s d B pre out i st ps : outgoing s d B pre out → pending s d i st ps [] →
  outgoing s d (B ++ [(i, st)]) pre (out ++ ps).
Proof.
  destruct B as [|[j t] B]; cbn.
  - intros [-> ->] Hp. exists ps, []. by rewrite app_nil_r.
  - intros (ps'&rest&->&Hp'&Hw) Hp. exists ps', (rest ++ ps). rewrite (assoc_L (++)).
    split; [done|]. split; [done|]. by apply waiting_snoc.
Qed.

Lemma outgoing_nil s d B pre : outgoing s d B pre [] → B = [] ∧ pre = [].
Proof.
  destruct B as [|[i st] B]; cbn; [naive_solver|]. intros (ps&rest&Heq&Hp&_).
  apply pending_ne in Hp as [Hne _]. by destruct ps.
Qed.

(** The packet sent next: of the first item, which it may complete. *)
Lemma outgoing_inject s d B pre p out : 0 < payload_bytes → outgoing s d B pre (p :: out) →
  (rest_payload p ≠ [] ∧ outgoing s d B (pre ++ [first_packet p]) (rest_post p :: out)) ∨
  (rest_payload p = [] ∧ po_done p = no_fn ∧ outgoing s d B (pre ++ [first_packet p]) out) ∨
  (rest_payload p = [] ∧ ∃ i st B', B = (i, st) :: B' ∧ po_done p = done_of i st ∧
    wire s d i = pre ++ [first_packet p] ∧ outgoing s d B' [] out).
Proof.
  intros Hp. destruct B as [|[i st] B]; cbn; [naive_solver|]. intros (ps&rest&Heq&Hpd&Hw).
  destruct ps as [|p' ps]; [by apply pending_ne in Hpd as [? _]|].
  cbn in Heq. injection Heq as <- ->. destruct (decide (rest_payload p = [])) as [Hr|Hr].
  - right. destruct (pending_next _ _ _ _ _ _ _ Hp Hpd Hr) as [(->&Hd&Hwire)|(Hd&Hpd')].
    + right. split; [done|]. exists i, st, B. split; [done|]. split; [done|]. split; [done|].
      cbn. by apply waiting_outgoing.
    + left. split; [done|]. split; [done|]. by exists ps, rest.
  - left. split; [done|]. exists (rest_post p :: ps), rest. split; [done|]. split; [|done].
    by apply pending_more.
Qed.

(** * A channel *)

(** Of what was sent on a channel: the items whose packets are all sent, those the device still
    has posts of, with the packets [g_pre] of the first that are sent; the items that arrived
    in full, and the packets [g_got] of the next that arrived. *)
Record ghost := mkGhost {
  g_sent : list item; g_out : list (item * Z); g_pre : list packet;
  g_rcvd : list item; g_got : list packet
}.
Definition g_all (g : ghost) : list item := g_sent g ++ (g_out g).*1.
Definition no_ghost : ghost := mkGhost [] [] [] [] [].

(** The packets sent are those that arrived and those under way, in this order. *)
Record linked (s d : Z) (g : ghost) (c : channel) : Prop := {
  li_out : outgoing s d (g_out g) (g_pre g) (c_out c);
  li_net : (g_rcvd g ≫= wire s d) ++ g_got g ++ c_net c = (g_sent g ≫= wire s d) ++ g_pre g;
  li_rcvd : g_rcvd g `prefix_of` g_sent g;
  li_got : g_got g = [] ∨ ∃ i k, g_rcvd g ++ [i] `prefix_of` g_all g ∧ wire s d i = g_got g ++ k ∧ k ≠ []
}.

Lemma wire_ne s d i : wire s d i ≠ [].
Proof.
  destruct i as [m| |]; cbn; [|done..]. destruct (m_packed m); [done|].
  unfold envelope. by destruct (long_header m).
Qed.

Lemma linked_no_ghost s d : linked s d no_ghost no_channel.
Proof. split; cbn; auto. Qed.

(** A packet handed to a device with nothing to post. *)
Lemma linked_now s d g c i p : linked s d g c → c_out c = [] → wire s d i = [p] →
  linked s d (mkGhost (g_sent g ++ [i]) (g_out g) (g_pre g) (g_rcvd g) (g_got g))
    (mkChannel (c_out c) (c_net c ++ [p])) ∧ g_out g = [].
Proof.
  intros [Ho Hn Hr Hg] Hc Hw. rewrite Hc in Ho. apply outgoing_nil in Ho as [Hb Hp].
  split; [|done]. split; cbn [c_out c_net g_sent g_out g_pre g_rcvd g_got].
  - by rewrite Hc, Hb, Hp.
  - rewrite bind_app. cbn. rewrite Hw, Hp, !app_nil_r. rewrite Hp, app_nil_r in Hn.
    rewrite <- Hn. by rewrite <- !(assoc_L (++)).
  - by apply prefix_app_r.
  - destruct Hg as [Hg|(j&k&Hj&Hk&Hne)]; [by left|right]. exists j, k. split; [|done].
    unfold g_all in *. cbn. rewrite Hb in *. cbn in *. rewrite app_nil_r in *. by apply prefix_app_r.
Qed.

(** Posts of one more item. *)
Lemma linked_posted s d g c i st ps : linked s d g c → pending s d i st ps [] →
  linked s d (mkGhost (g_sent g) (g_out g ++ [(i, st)]) (g_pre g) (g_rcvd g) (g_got g))
    (mkChannel (c_out c ++ ps) (c_net c)).
Proof.
  intros [Ho Hn Hr Hg] Hp. split; cbn [c_out c_net g_sent g_out g_pre g_rcvd g_got]; [|done..|].
  - by apply outgoing_snoc.
  - destruct Hg as [Hg|(j&k&Hj&Hk&Hne)]; [by left|right]. exists j, k. split; [|done].
    unfold g_all in *. cbn. rewrite fmap_app, (assoc_L (++)). by apply prefix_app_r.
Qed.

(** The next packet is sent: it completes an item or not. *)
Lemma linked_inject s d g c p out : 0 < payload_bytes → linked s d g c → c_out c = p :: out →
  let net := c_net c ++ [first_packet p] in
  (∃ out', out' = (if decide (rest_payload p = []) then out else rest_post p :: out) ∧
    (rest_payload p = [] → po_done p = no_fn) ∧
    linked s d (mkGhost (g_sent g) (g_out g) (g_pre g ++ [first_packet p]) (g_rcvd g) (g_got g))
      (mkChannel out' net)) ∨
  (rest_payload p = [] ∧ ∃ i st B, g_out g = (i, st) :: B ∧ po_done p = done_of i st ∧
    linked s d (mkGhost (g_sent g ++ [i]) B [] (g_rcvd g) (g_got g)) (mkChannel out net)).
Proof.
  intros Hpb [Ho Hn Hr Hg] Hc. rewrite Hc in Ho. cbn zeta.
  apply outgoing_inject in Ho as [(Hne&Ho)|[(He&Hd&Ho)|(He&i&st&B&HB&Hd&Hw&Ho)]]; [..|done].
  - left. eexists. split; [reflexivity|]. split; [done|]. rewrite decide_False by done.
    split; cbn [c_out c_net g_sent g_out g_pre g_rcvd g_got]; [done| |done|done].
    rewrite !(assoc_L (++)), <- Hn. by rewrite !(assoc_L (++)).
  - left. eexists. split; [reflexivity|]. split; [done|]. rewrite decide_True by done.
    split; cbn [c_out c_net g_sent g_out g_pre g_rcvd g_got]; [done| |done|done].
    rewrite !(assoc_L (++)), <- Hn. by rewrite !(assoc_L (++)).
  - right. split; [done|]. exists i, st, B. split; [done|]. split; [done|].
    split; cbn [c_out c_net g_sent g_out g_pre g_rcvd g_got]; [done| | |].
    + rewrite bind_app. cbn. rewrite Hw, !app_nil_r, !(assoc_L (++)), <- Hn.
      by rewrite !(assoc_L (++)).
    + by apply prefix_app_r.
    + destruct Hg as [Hg|(j&k&Hj&Hk&Hnk)]; [by left|right]. exists j, k. split; [|done].
      unfold g_all in *. cbn. rewrite HB in Hj. by rewrite <- (assoc_L (++)).
Qed.

(** The item that the next packet belongs to. *)
Lemma linked_next s d g c p net : linked s d g c → c_net c = p :: net →
  ∃ i k, g_rcvd g ++ [i] `prefix_of` g_all g ∧ wire s d i = g_got g ++ p :: k ∧
    (k = [] → g_rcvd g ++ [i] `prefix_of` g_sent g).
Proof.
  intros [Ho Hn [rest Hr] Hg] Hc. rewrite Hc, Hr, bind_app, <- (assoc_L (++)) in Hn.
  apply (inj (app _)) in Hn. unfold g_all in *. rewrite Hr in *.
  destruct rest as [|i rest].
  - (* the item the device is sending *)
    cbn in Hn. destruct (g_out g) as [|[i st] B] eqn:HB.
    { destruct Ho as [_ Hpre]. rewrite Hpre in Hn. by apply app_nil in Hn as [_ ?]. }
    destruct Ho as (ps&rest'&_&Hpd&_). pose proof (proj2 (pending_ne _ _ _ _ _ _ Hpd)) as Hne.
    destruct Hpd as (Hw&_). exists i, (net ++ (ps ≫= expand)). split.
    { cbn. rewrite app_nil_r. apply prefix_app, prefix_cons, prefix_nil. }
    rewrite Hw, <- Hn, <- (assoc_L (++)). split; [done|]. intros [_ ?]%app_nil. done.
  - cbn in Hn. assert (∃ q k, wire s d i = g_got g ++ q :: k) as (q&k&Hk).
    { destruct Hg as [->|(j&k&[l Hj]&Hk&Hnk)].
      - destruct (wire s d i) as [|q k] eqn:Hw; [by apply wire_ne in Hw|]. by exists q, k.
      - rewrite <- !(assoc_L (++)) in Hj. apply (inj (app _)) in Hj. cbn in Hj. injection Hj as <- _.
        destruct k as [|q k]; [done|]. by exists q, k. }
    rewrite Hk in Hn. rewrite <- !(assoc_L (++)) in Hn. apply (inj (app _)) in Hn. cbn in Hn.
    injection Hn as <- _. exists i, k. split; [|split; [done|]].
    + rewrite <- !(assoc_L (++)). apply prefix_app. cbn. apply prefix_cons, prefix_nil.
    + intros _. apply prefix_app, prefix_cons, prefix_nil.
Qed.

Lemma linked_deliver s d g c p net : linked s d g c → c_net c = p :: net →
  ∃ i, g_rcvd g ++ [i] `prefix_of` g_all g ∧
  ((wire s d i = g_got g ++ [p] ∧
    linked s d (mkGhost (g_sent g) (g_out g) (g_pre g) (g_rcvd g ++ [i]) []) (mkChannel (c_out c) net)) ∨
   (∃ q k, wire s d i = g_got g ++ p :: q :: k ∧
    linked s d (mkGhost (g_sent g) (g_out g) (g_pre g) (g_rcvd g) (g_got g ++ [p])) (mkChannel (c_out c) net))).
Proof.
  intros Hl Hc. destruct (linked_next s d g c p net Hl Hc) as (i&k&Hi&Hw&Hk).
  destruct Hl as [Ho Hn Hr Hg]. rewrite Hc in Hn. exists i. split; [done|]. destruct k as [|q k].
  - left. split; [done|]. split; cbn [c_out c_net g_sent g_out g_pre g_rcvd g_got]; [done| |by apply Hk|by left].
    rewrite bind_app. cbn. rewrite Hw, app_nil_r, <- Hn. by rewrite <- !(assoc_L (++)).
  - right. exists q, k. split; [done|].
    split; cbn [c_out c_net g_sent g_out g_pre g_rcvd g_got]; [done| |done|].
    + by rewrite <- !(assoc_L (++)).
    + right. exists i, (q :: k). split; [done|]. by rewrite <- (assoc_L (++)).
Qed.
End wire.
