(* ===== verification/EagerEndpoint.v ===== *)
(** What holds of an endpoint of the eager protocol between two calls: the states in use are
    those of the sends and receives under way, and the bytes that arrived are in place. *)
From S2P Require Import Prelude.
From S2P Require Import Layout.
From S2P Require Import Memory.
From S2P Require Import TypeCode.
From S2P Require Import TypeMachine.
From S2P Require Import PamiType.
From S2P Require Import TypeMachineProps.
From S2P Require Import MemoryAllocator.
From S2P Require Import EagerSimple.
From S2P Require Import EagerData.
From S2P Require Import EagerWire.

(** * What the endpoints have *)

(** The types of each endpoint when nothing was sent yet; where the protocol's own memory lies;
    where the client puts the data of its [k]-th dispatch call; how many states there can be,
    how many calls, how long a message's data. *)
Class EagerSetup := {
  types0 : Z → heap;
  lib_lo : Z; lib_hi : Z;
  room : Z → nat → Z * Z;
  max_segments : nat; max_calls : nat; max_data : Z
}.

Section endpoint.
Context `{EagerParams} `{EagerSetup}.

Notation payload_bytes := (packet_model_payload_bytes T_Model).

(** What the protocol makes of the [pami_recv_t] the client filled in: the hints of the dispatch
    change it where the data follow, not where they came with the header. *)
Definition effective (data : option (list Z)) (info : pami_recv_t) : pami_recv_t :=
  match data with
  | Some _ => info
  | None =>
      if T_Contiguous T_Option then
        if T_Copy T_Option then info
        else mkRecv (r_cookie info) (r_local_fn info) (r_addr info) PAMI_TYPE_BYTE 0 (r_data_fn info) (r_data_cookie info)
      else if T_Copy T_Option then
        mkRecv (r_cookie info) (r_local_fn info) (r_addr info) (r_type info) (r_offset info) 0 0
      else info
  end.
Definition effective_flat (data : option (list Z)) (info : pami_recv_t) : bool :=
  match data with
  | Some _ => is_contiguous_copy info
  | None => (T_Contiguous T_Option && T_Copy T_Option) || is_contiguous_copy (effective None info)
  end.

(** Where the [n] bytes of a message go that the client was called for as the [k]-th. *)
Definition landing (s : Z) (k : nat) (data : option (list Z)) (info : pami_recv_t) (n : Z) (f : Z → Z) : Prop :=
  lands (types0 s) (effective data info) n (room s k).1 (room s k).2 (effective_flat data info) f.

Definition in_library (a n : Z) : Prop := lib_lo ≤ a ∧ a + n ≤ lib_hi.
Definition outside_library (lo hi : Z) : Prop := hi ≤ lib_lo ∨ lib_hi ≤ lo.

Record eager_ok : Prop := {
  ok_model : model_ok;
  ok_segments s : segments_apart object_size 4 (memalign s) max_segments;
  ok_contig_max s : has_contig_max contig_max (types0 s);
  ok_byte s : ERROR_CHECKS T_Option = true →
    ∃ t, types0 s !! PAMI_TYPE_BYTE = Some t ∧ IsCompleted t = true;
  ok_library : 0 ≤ lib_lo ∧ lib_hi < 2 ^ 64;
  ok_packet s k i : (k < max_segments)%nat → 0 ≤ i < 4 →
    in_library (packet_of (object_at object_size (memalign s k) i)) payload_bytes;
  ok_pipeline s k i w : (k < max_segments)%nat → 0 ≤ i < 4 → 0 ≤ w < 2 →
    in_library (pipeline (object_at object_size (memalign s k) i) w) payload_bytes;
  ok_payload_at : in_library payload_at payload_bytes;
  ok_data : 0 ≤ max_data < 2 ^ 63;
  (* the client: it gives each message memory of its own *)
  ok_room s k : (k < max_calls)%nat → outside_library (room s k).1 (room s k).2;
  ok_rooms s j k : (j < max_calls)%nat → (k < max_calls)%nat → j ≠ k →
    (room s j).2 ≤ (room s k).1 ∨ (room s k).2 ≤ (room s j).1;
  ok_client s k header data n o i : (k < max_calls)%nat → 0 ≤ n ≤ max_data →
    (data ≠ None → RECV_IMMEDIATE_FORCEOFF T_Option = true) →
    ∃ f, landing s k data (client s k header data n o i) n f
}.

(** * The states in use *)

(** What came of a message: part of its header, or its header and [c] of its [n] bytes, which
    the client was called for as the [k]-th. *)
Inductive phase :=
| In_header (n total : Z) (got : list Z)
| In_data (k : nat) (n c : Z).

Inductive use :=
| Sending (d : Z) (i : item)
| Receiving (o : Z) (ph : phase).

(** A message whose bytes arrive: the [j]-th from [o], where the bytes go, those that came. *)
Record landed := mkLanded { la_slot : Z * nat; la_info : pami_recv_t; la_at : Z → Z; la_bytes : list Z }.

Definition sends_item (d : Z) (i : item) (o : origin_t) : Prop :=
  o_target o = d ∧
  match i with
  | Message m => o_local_fn o = m_local_fn m ∧ o_remote_fn o = m_remote_fn m ∧ o_cookie o = m_cookie m
  | _ => True
  end.

Definition receives (s : Z) (h : heap) (L : gmap nat landed) (o : Z) (ph : phase) (t : target_t) : Prop :=
  match ph with
  | In_header n total got =>
      t_bytes_received t = 0 ∧ t_bytes_total t = n ∧ h_bytes_received t = len got ∧
      h_bytes_total t = total ∧ h_addr t = got ∧ t_is_contiguous_copy_recv t = false
  | In_data k n c =>
      t_bytes_received t = c ∧ t_bytes_total t = n ∧
      ∃ la, L !! k = Some la ∧ (la_slot la).1 = o ∧ len (la_bytes la) = c ∧ t_info t = effective None (la_info la) ∧
        receiving h t n (room s k).1 (room s k).2 c (la_at la)
  end.

Definition use_ok (s : Z) (h : heap) (L : gmap nat landed) (u : use) (v : eager_state_t) : Prop :=
  match u, v with
  | Sending d i, S_origin o => sends_item d i o
  | Receiving o ph, S_target t => receives s h L o ph t
  | _, _ => False
  end.

(** The bytes of a message are where they belong. *)
Definition in_place (f : Z → Z) (l : list Z) (s : mem) : Prop :=
  ∀ i, 0 ≤ i < len l → s (f i) = nth (Z.to_nat i) l 0.

(** What is recorded of the messages is so in the memory [m]. *)
Definition ledger_ok (s : Z) (calls : nat) (m : mem) (L : gmap nat landed) : Prop := ∀ k la, L !! k = Some la →
  (k < calls)%nat ∧ in_place (la_at la) (la_bytes la) m ∧
  ∀ i, 0 ≤ i < len (la_bytes la) → (room s k).1 ≤ la_at la i < (room s k).2.

Record endpoint_ok (s : Z) (e : endpoint) (own : gmap Z use) (L : gmap nat landed) : Prop := {
  eo_id : e_id e = s;
  eo_types : grown (types0 s) (e_types e);
  eo_pool : pool object_size 4 (memalign s) max_segments (e_pool e) (dom own);
  eo_states st u : own !! st = Some u → ∃ v, e_states e !! st = Some v ∧ use_ok s (e_types e) L u v;
  eo_connection st o ph : own !! st = Some (Receiving o ph) → e_connection e !! o = Some st;
  eo_landed : ledger_ok s (e_calls e) (e_mem e) L;
  eo_calls : (e_calls e ≤ max_calls)%nat
}.

(** ** Small steps *)

(** No receive from [o] is under way. *)
Definition idle (own : gmap Z use) (o : Z) : Prop := ∀ st ph, own !! st ≠ Some (Receiving o ph).

Lemma use_ok_ledger s h L L' u v :
  (∀ k n c o, u = Receiving o (In_data k n c) → L' !! k = L !! k) → use_ok s h L u v → use_ok s h L' u v.
Proof.
  destruct u as [d i|o ph], v as [og|t]; cbn; [done..|]. intros HL. destruct ph as [n total got|k n c]; cbn; [done|].
  by rewrite (HL k n c o eq_refl).
Qed.

Lemma use_ok_grown s h h' L u v : grown h h' → use_ok s h L u v → use_ok s h' L u v.
Proof.
  intros Hg. destruct u as [d i|o ph], v as [og|t]; cbn; [done..|]. destruct ph as [n total got|k n c]; cbn; [done|].
  intros (?&?&la&?&?&?&?&?). split; [done|]. split; [done|]. exists la. eauto 10 using receiving_grown.
Qed.

Lemma endpoint_event s e own L ev : endpoint_ok s e own L → endpoint_ok s (add_event ev e) own L.
Proof. intros [? ? ? ? ? ? ?]. by split. Qed.

Lemma endpoint_call s e own L : endpoint_ok s e own L → (e_calls e < max_calls)%nat →
  endpoint_ok s (count_call e) own L.
Proof.
  intros [? ? ? ? ? Hla ?] Hc. split; cbn; try done.
  intros k la Hk. destruct (Hla k la Hk) as [? ?]. split; [lia|done].
Qed.

Lemma endpoint_types s e own L h : endpoint_ok s e own L → grown (e_types e) h →
  endpoint_ok s (set_types h e) own L.
Proof.
  intros [? ? ? Hst ? ? ?] Hg. split; cbn; try done; [by eapply grown_trans|].
  intros st u Hu. destruct (Hst st u Hu) as (v&Hv&Hok'). exists v. split; [done|]. by eapply use_ok_grown.
Qed.

Lemma endpoint_free s e own L st u : endpoint_ok s e own L → own !! st = Some u →
  endpoint_ok s (freeState st e) (delete st own) L.
Proof.
  intros [Hid Hty Hpool Hst Hconn Hla Hca] Hu. split; cbn; try done.
  - apply pool_return; rewrite dom_delete_L; [|set_solver].
    rewrite difference_union_L. replace (dom own ∪ {[st]}) with (dom own); [done|].
    apply elem_of_dom_2 in Hu. set_solver.
  - intros x v [Hne Hx]%lookup_delete_Some. by apply Hst.
  - intros x o ph [Hne Hx]%lookup_delete_Some. by eapply Hconn.
Qed.

(** A send or a receive gets on. *)
Lemma endpoint_set_state s e own L st u u' v : endpoint_ok s e own L → own !! st = Some u →
  use_ok s (e_types e) L u' v → (∀ o ph', u' = Receiving o ph' → ∃ ph, u = Receiving o ph) →
  endpoint_ok s (set_state st v e) (<[st := u']> own) L.
Proof.
  intros [Hid Hty Hpool Hst Hconn Hla Hca] Hu Hv Ho. split; cbn; try done.
  - rewrite dom_insert_lookup_L; [done|by eexists].
  - intros x w Hx. destruct (decide (x = st)) as [->|Hne].
    + rewrite lookup_insert_eq in Hx. injection Hx as <-. exists v. by rewrite lookup_insert_eq.
    + rewrite lookup_insert_ne in Hx by done. rewrite lookup_insert_ne by done. by apply Hst.
  - intros x o' ph'' Hx. destruct (decide (x = st)) as [->|Hne].
    + rewrite lookup_insert_eq in Hx. injection Hx as ->. destruct (Ho o' ph'' eq_refl) as [ph ->].
      by eapply Hconn.
    + rewrite lookup_insert_ne in Hx by done. by eapply Hconn.
Qed.

Lemma endpoint_update s e own L st o ph ph' t : endpoint_ok s e own L → own !! st = Some (Receiving o ph) →
  receives s (e_types e) L o ph' t →
  endpoint_ok s (set_state st (S_target t) e) (<[st := Receiving o ph']> own) L.
Proof.
  intros He Hu Ht. eapply endpoint_set_state; [done..|]. intros o' ph'' [= <- _]. by exists ph.
Qed.

Lemma endpoint_resend s e own L st d i o : endpoint_ok s e own L → own !! st = Some (Sending d i) →
  sends_item d i o → endpoint_ok s (set_state st (S_origin o) e) own L.
Proof.
  intros He Hu Ho. rewrite <- (insert_id own st (Sending d i)) by done.
  by eapply endpoint_set_state.
Qed.

(** The next bytes of a message, to the places [f], are put in place. *)
Definition puts (s : Z) (k : nat) (f : Z → Z) (n c : Z) (l : list Z) (m m' : mem) : Prop :=
  c + len l ≤ n ∧
  (∀ i, 0 ≤ i < n → (room s k).1 ≤ f i < (room s k).2) ∧
  (∀ i j, 0 ≤ i < n → 0 ≤ j < n → f i = f j → i = j) ∧
  (∀ j, (j < max_calls)%nat → j ≠ k → (room s j).2 ≤ (room s k).1 ∨ (room s k).2 ≤ (room s j).1) ∧
  (∀ i, 0 ≤ i < len l → m' (f (c + i)) = nth (Z.to_nat i) l 0) ∧
  (∀ x, (∀ i, 0 ≤ i < len l → x ≠ f (c + i)) → m' x = m x).

Lemma len_app l1 l2 : len (l1 ++ l2) = len l1 + len l2.
Proof. unfold len. rewrite length_app. lia. Qed.

Lemma ledger_store s calls m m' L k n la l : ledger_ok s calls m L → (calls ≤ max_calls)%nat → L !! k = Some la →
  puts s k (la_at la) n (len (la_bytes la)) l m m' →
  ledger_ok s calls m' (<[k := mkLanded (la_slot la) (la_info la) (la_at la) (la_bytes la ++ l)]> L).
Proof.
  intros Hla Hca HLk (Hcn&Hroom&Hinj&Hrooms&Hin&Hout) k' la' Hk'. destruct (decide (k' = k)) as [->|Hne].
  - rewrite lookup_insert_eq in Hk'. injection Hk' as <-. cbn. destruct (Hla k la HLk) as (Hlt&Hpl&_).
    split; [done|]. rewrite len_app. split; [|intros i Hi; apply Hroom; unfold len in *; lia].
    intros i Hi. rewrite len_app in Hi. destruct (Z.lt_ge_cases i (len (la_bytes la))).
    + rewrite Hout by (intros j Hj Heq; apply Hinj in Heq; unfold len in *; lia).
      rewrite app_nth1 by (unfold len in *; lia). apply Hpl. lia.
    + rewrite app_nth2 by (unfold len in *; lia). replace i with (len (la_bytes la) + (i - len (la_bytes la))) at 1 by lia.
      rewrite Hin by lia. f_equal. unfold len in *. lia.
  - rewrite lookup_insert_ne in Hk' by done. destruct (Hla k' la' Hk') as (Hlt&Hpl&Hrm).
    split; [done|]. split; [|done]. intros i Hi. rewrite Hout; [by apply Hpl|]. intros j Hj Heq.
    specialize (Hrm i Hi). specialize (Hroom (len (la_bytes la) + j) ltac:(unfold len in *; lia)).
    destruct (Hrooms k' ltac:(lia) Hne); lia.
Qed.

(** ... of a message with a state. *)
Lemma endpoint_store s e own L st o k n la l m t : endpoint_ok s e own L →
  own !! st = Some (Receiving o (In_data k n (len (la_bytes la)))) → L !! k = Some la → (la_slot la).1 = o →
  puts s k (la_at la) n (len (la_bytes la)) l (e_mem e) m →
  let c := len (la_bytes la) + len l in
  let L' := <[k := mkLanded (la_slot la) (la_info la) (la_at la) (la_bytes la ++ l)]> L in
  receives s (e_types e) L' o (In_data k n c) t →
  endpoint_ok s (set_state st (S_target t) (set_mem m e)) (<[st := Receiving o (In_data k n c)]> own) L'.
Proof.
  intros [Hid Hty Hpool Hst Hconn Hla Hca] Hu HLk Hslot Hput c L' Ht.
  split; cbn; try done.
  - rewrite dom_insert_lookup_L; [done|by eexists].
  - intros x v Hx. destruct (decide (x = st)) as [->|Hne].
    + rewrite lookup_insert_eq in Hx. injection Hx as <-. exists (S_target t). by rewrite lookup_insert_eq.
    + rewrite lookup_insert_ne in Hx by done. rewrite lookup_insert_ne by done.
      destruct (Hst x v Hx) as (w&Hw&Hok). exists w. split; [done|].
      apply (use_ok_ledger _ _ L); [|done]. intros k' n' c' o' ->. unfold L'.
      destruct (decide (k' = k)) as [->|]; [|by rewrite lookup_insert_ne].
      destruct w as [|t']; [done|]. destruct Hok as (_&_&la'&Hla'&Hslot'&_).
      rewrite HLk in Hla'. injection Hla' as <-. rewrite Hslot in Hslot'. subst o'.
      pose proof (Hconn _ _ _ Hx). pose proof (Hconn _ _ _ Hu). congruence.
  - intros x o' ph Hx. destruct (decide (x = st)) as [->|Hne].
    + rewrite lookup_insert_eq in Hx. injection Hx as <- _. by eapply Hconn.
    + rewrite lookup_insert_ne in Hx by done. by eapply Hconn.
  - by eapply ledger_store.
Qed.

(** ... of a message without one. *)
Lemma endpoint_put s e own L k n la l m : endpoint_ok s e own L → L !! k = Some la → la_bytes la = [] →
  (∀ st o n c, own !! st ≠ Some (Receiving o (In_data k n c))) →
  puts s k (la_at la) n 0 l (e_mem e) m →
  endpoint_ok s (set_mem m e) own (<[k := mkLanded (la_slot la) (la_info la) (la_at la) l]> L).
Proof.
  intros [Hid Hty Hpool Hst Hconn Hla Hca] HLk Hb Hown Hput. split; cbn; try done.
  - intros x u Hx. destruct (Hst x u Hx) as (v&Hv&Hu). exists v. split; [done|].
    apply (use_ok_ledger _ _ L); [|done]. intros k' n' c o ->. rewrite lookup_insert_ne; [done|].
    intros ->. by eapply Hown.
  - pose proof (ledger_store s _ _ m L k n la l Hla Hca HLk) as Hs. rewrite Hb in Hs. by apply Hs.
Qed.

(** A message that nothing has come of yet. *)
Lemma endpoint_expect s e own L k la : endpoint_ok s e own L → L !! k = None → (k < e_calls e)%nat →
  la_bytes la = [] → endpoint_ok s e own (<[k := la]> L).
Proof.
  intros [Hid Hty Hpool Hst Hconn Hla Hca] HLk Hk Hb. split; try done.
  - intros x u Hx. destruct (Hst x u Hx) as (v&Hv&Hu). exists v. split; [done|].
    apply (use_ok_ledger _ _ L); [|done]. intros k' n c o ->. destruct v as [|t]; [done|].
    destruct Hu as (_&_&la'&Hla'&_). rewrite lookup_insert_ne; [done|]. intros <-. congruence.
  - intros k' la' Hk'. destruct (decide (k' = k)) as [->|Hne].
    + rewrite lookup_insert_eq in Hk'. injection Hk' as <-. rewrite Hb. split; [done|].
      split; intros i Hi; change (len []) with 0 in Hi; lia.
    + rewrite lookup_insert_ne in Hk' by done. by apply Hla.
Qed.

Lemma endpoint_unused s e own L : endpoint_ok s e own L → L !! e_calls e = None.
Proof.
  intros He. destruct (L !! e_calls e) as [la|] eqn:Hk; [|done].
  destruct (eo_landed _ _ _ _ He _ _ Hk) as [? _]. lia.
Qed.

Lemma endpoint_disconnect s e own L o : endpoint_ok s e own L → idle own o →
  endpoint_ok s (clearConnection o e) own L.
Proof.
  intros [? ? ? ? Hconn ? ?] Hidle. split; cbn; try done. intros st o' ph Hst.
  rewrite lookup_delete_ne; [by eapply Hconn|]. intros ->. by eapply Hidle.
Qed.

Context (Hok : eager_ok).

Lemma room_outside s k x : (k < max_calls)%nat → (room s k).1 ≤ x < (room s k).2 → x < lib_lo ∨ lib_hi ≤ x.
Proof. intros Hk Hx. destruct (ok_room Hok s k Hk); lia. Qed.

(** The protocol writes into its own memory. *)
Lemma endpoint_library s e own L m : endpoint_ok s e own L →
  (∀ x, x < lib_lo ∨ lib_hi ≤ x → m x = e_mem e x) → endpoint_ok s (set_mem m e) own L.
Proof.
  intros [? ? ? ? ? Hla ?] Hm. split; cbn; try done. intros k la Hk.
  destruct (Hla k la Hk) as (Hlt&Hin&Hroom). split; [done|]. split; [|done].
  intros i Hi. rewrite Hm; [by apply Hin|]. apply (room_outside s k); [lia|by apply Hroom].
Qed.

(** The pool gives a state that is not in use, and its memory. *)
Lemma endpoint_alloc s e own L : endpoint_ok s e own L → can_allocate max_segments (e_pool e) →
  ∃ st a, allocateState e = (st, set_pool a e) ∧ own !! st = None ∧
    in_library (packet_of st) payload_bytes ∧ (∀ w, 0 ≤ w < 2 → in_library (pipeline st w) payload_bytes) ∧
    ∀ d i o, sends_item d i o →
      endpoint_ok s (set_state st (S_origin o) (set_pool a e)) (<[st := Sending d i]> own) L.
Proof.
  intros [Hid Hty Hpool Hst Hconn Hla Hca] Hcan. unfold allocateState. rewrite Hid.
  destruct (pool_allocate object_size 4 (memalign s) max_segments ltac:(lia) (ok_segments Hok s) _ _ Hpool Hcan)
    as (st&a&->&Hfresh&Hpool'). exists st, a. split; [done|].
  apply not_elem_of_dom in Hfresh. split; [done|].
  destruct (pool_used _ _ _ _ _ _ st Hpool') as (k&i&Hk&Hi&->); [set_solver|].
  split; [by apply (ok_packet Hok)|]. split; [intros; by apply (ok_pipeline Hok)|].
  intros d it o Ho. set (st := object_at _ _ _) in *. split; cbn; try done.
  - by rewrite dom_insert_L, union_comm_L.
  - intros x u Hx. destruct (decide (x = st)) as [->|Hne].
    + rewrite lookup_insert_eq in Hx. injection Hx as <-. exists (S_origin o). by rewrite lookup_insert_eq.
    + rewrite lookup_insert_ne in Hx by done. rewrite lookup_insert_ne by done. by apply Hst.
  - intros x o' ph Hx. destruct (decide (x = st)) as [->|Hne].
    + rewrite lookup_insert_eq in Hx. done.
    + rewrite lookup_insert_ne in Hx by done. by eapply Hconn.
Qed.

Lemma endpoint_alloc_target s e own L o st a : endpoint_ok s e own L → can_allocate max_segments (e_pool e) →
  idle own o → allocateObject object_size 4 (memalign s) (e_pool e) = (st, a) →
  own !! st = None ∧ ∀ ph t, receives s (e_types e) L o ph t →
    endpoint_ok s (setConnection st o (set_state st (S_target t) (set_pool a e))) (<[st := Receiving o ph]> own) L.
Proof.
  intros He Hcan Hidle Hobj. destruct (endpoint_alloc s e own L He Hcan) as (st'&a'&Ha&Hfresh&_&_&Hal).
  unfold allocateState in Ha. rewrite (eo_id _ _ _ _ He), Hobj in Ha. injection Ha as <- <-.
  split; [done|]. intros ph t Ht.
  destruct (Hal 0 (Ping 0 0) (mkOrigin None 0 0 0 0 0 0 0) (conj eq_refl I)) as [_ _ Hpool' _ _ _ _].
  destruct He as [Hid Hty Hpool Hst Hconn Hla Hca]. split; cbn; try done.
  - cbn in Hpool'. by rewrite dom_insert_L in *.
  - intros x u Hx. destruct (decide (x = st)) as [->|Hne].
    + rewrite lookup_insert_eq in Hx. injection Hx as <-. exists (S_target t). by rewrite lookup_insert_eq.
    + rewrite lookup_insert_ne in Hx by done. rewrite lookup_insert_ne by done. by apply Hst.
  - intros x o' ph' Hx. destruct (decide (x = st)) as [->|Hne].
    + rewrite lookup_insert_eq in Hx. injection Hx as <- _. by rewrite lookup_insert_eq.
    + rewrite lookup_insert_ne in Hx by done. rewrite lookup_insert_ne; [by eapply Hconn|].
      intros ->. by eapply Hidle.
Qed.

(** A state that is given back at once. *)
Lemma endpoint_spare s e own L st a v : endpoint_ok s e own L → can_allocate max_segments (e_pool e) →
  allocateObject object_size 4 (memalign s) (e_pool e) = (st, a) →
  endpoint_ok s (freeState st (set_state st v (set_pool a e))) own L.
Proof.
  intros He Hcan Hobj. destruct (endpoint_alloc s e own L He Hcan) as (st'&a'&Ha&Hfresh&_&_&Hal).
  unfold allocateState in Ha. rewrite (eo_id _ _ _ _ He), Hobj in Ha. injection Ha as <- <-.
  specialize (Hal 0 (Ping 0 0) (mkOrigin None 0 0 0 0 0 0 0) (conj eq_refl I)).
  eapply endpoint_free in Hal; [|apply lookup_insert_eq]. rewrite delete_insert_id in Hal by done.
  destruct Hal as [? ? ? _ ? ? ?]. destruct He as [_ _ _ Hst _ _ _]. split; cbn; try done.
  intros x u Hx. rewrite lookup_insert_ne by congruence. by apply Hst.
Qed.
End endpoint.
