(* ===== verification/EagerSend.v ===== *)
(** The sending half of the eager protocol: what each send of the client, each completion of a
    post and each question for an acknowledgement hands to the device. *)
From S2P Require Import Prelude.
From S2P Require Import Layout.
From S2P Require Import Memory.
From S2P Require Import TypeCode.
From S2P Require Import TypeCodeSpec.
From S2P Require Import TypeMachine.
From S2P Require Import PamiType.
From S2P Require Import TypeMachineSpec.
From S2P Require Import TypeTransfer.
From S2P Require Import TypeMachineProps.
From S2P Require Import PamiTransfer.
From S2P Require Import MemoryAllocator.
From S2P Require Import EagerSimple.
From S2P Require Import EagerData.
From S2P Require Import EagerWire.
From S2P Require Import EagerEndpoint.

Section send.
Context `{EagerParams} `{EagerSetup}.

Notation payload_bytes := (packet_model_payload_bytes T_Model).
Notation metadata_bytes := (packet_model_metadata_bytes T_Model).

(** * An item handed to the device *)

(** At once, or as posts with a state of their own. *)
Inductive emits (s : Z) (ready : Z → bool) (d : Z) (i : item) (own : gmap Z use) :
    list effect → gmap Z use → Prop :=
| emits_now p : ready d = true → wire s d i = [p] →
    match i with Message m => m_local_fn m = 0 ∧ m_remote_fn m = 0 | _ => True end →
    emits s ready d i own [Now d p] own
| emits_posted st ps : own !! st = None → pending s d i st ps [] →
    emits s ready d i own (map (Posted d) ps) (<[st := Sending d i]> own).

Context (Hok : eager_ok).

Lemma payload_small : 32 ≤ payload_bytes < 2 ^ 16.
Proof. apply (ok_payload (ok_model Hok)). Qed.

Lemma short_limit : maximum_short_packet_payload = payload_bytes - (if packed_in_header then 0 else 8).
Proof.
  pose proof payload_small. unfold maximum_short_packet_payload, packed_in_header, sizeof_packed_metadata.
  rewrite Z.leb_antisym. destruct (Z.ltb_spec metadata_bytes 8); cbn; rewrite w64_small; lia.
Qed.

Lemma eager_limit : maximum_eager_packet_payload = payload_bytes - (if short_in_header then 0 else 16).
Proof.
  pose proof payload_small. unfold maximum_eager_packet_payload, short_in_header, sizeof_shortheader_metadata.
  rewrite Z.leb_antisym. destruct (Z.ltb_spec metadata_bytes 16); cbn; rewrite w64_small; lia.
Qed.

Lemma fits_true n m : sizeof_metadata m ≤ n → fits n (Some m) = Some m.
Proof. intros Hn. unfold fits. cbn. by rewrite (proj2 (Z.leb_le _ _)). Qed.

Lemma fits_None n : fits n None = None.
Proof. unfold fits. by destruct (_ <=? _). Qed.

Lemma ping_single s fn ck : single_packet ack_model (Some (endpoint_metadata s))
  (Some (ack_metadata fn ck s false)) [] = ping_packet s fn ck.
Proof.
  pose proof (ok_model Hok) as [? ? ?]. unfold single_packet. rewrite !fits_true by (cbn; lia).
  by rewrite take_nil.
Qed.

Lemma pong_single s d fn ck : single_packet ack_model None (Some (ack_metadata fn ck d true)) [] =
  pong_packet s fn ck d.
Proof.
  pose proof (ok_model Hok) as [? ? ?]. unfold single_packet. rewrite fits_true, fits_None by (cbn; lia).
  by rewrite take_nil.
Qed.

Lemma expand_data s l fn : expand (mkPost data_model (Some (endpoint_metadata s)) None l true fn) =
  map (data_packet s) (chunks l).
Proof.
  pose proof (ok_model Hok) as [? ? ?]. unfold expand. cbn [po_multi po_payload].
  apply map_ext. intros l'. unfold post_packet. cbn [po_multi po_model po_metadata].
  by rewrite fits_true by (cbn; lia).
Qed.

Lemma expand_header s l fn : expand (mkPost longheader_message_model (Some (endpoint_metadata s)) None l true fn) =
  map (header_packet s) (chunks l).
Proof.
  pose proof (ok_model Hok) as [? ? ?]. unfold expand. cbn [po_multi po_payload].
  apply map_ext. intros l'. unfold post_packet. cbn [po_multi po_model po_metadata].
  by rewrite fits_true by (cbn; lia).
Qed.

(** ** Acknowledgements *)

Lemma pending_one s d i st p : expand p = wire s d i → po_done p = done_of i st → pending s d i st [p] [].
Proof.
  intros He Hd. split; [cbn; by rewrite He, app_nil_r|]. by exists [], p.
Qed.

(** A packet without payload that the device takes, or that is posted with a new state. *)
Lemma emit_ack s e own L (ready : Z → bool) d i : endpoint_ok s e own L → can_allocate max_segments (e_pool e) →
  (match i with Message _ => False | _ => True end) →
  ∀ meta m, [single_packet ack_model meta m []] = wire s d i →
  ∃ (e' : endpoint) (effs : list effect) (own' : gmap Z use),
    (if ready d then (e, [Now d (single_packet ack_model meta m [])])
     else let '(st, e) := allocateState e in
       (set_state st (ack_state d) e, [postPacket d ack_model (complete_remotefn_fn st) meta m []])) = (e', effs) ∧
    emits s ready d i own effs own' ∧ endpoint_ok s e' own' L ∧ e_log e' = e_log e ∧ e_calls e' = e_calls e.
Proof.
  intros He Hcan Hi meta m Hw. destruct (ready d) eqn:Hr.
  - do 3 eexists. split; [reflexivity|]. split; [by constructor; [..|destruct i]|done].
  - destruct (endpoint_alloc Hok s e own L He Hcan) as (st&a&->&Hf&_&_&Hal).
    do 3 eexists. split; [reflexivity|]. split; [|split; [|done]].
    + change ([postPacket d ack_model (complete_remotefn_fn st) meta m []]) with
        (map (Posted d) [mkPost ack_model meta m [] false (complete_remotefn_fn st)]).
      constructor; [done|]. apply pending_one; [done|by destruct i].
    + apply Hal. split; [done|by destruct i].
Qed.

Lemma send_remotefn_spec s e own L ready d fn ck : endpoint_ok s e own L → can_allocate max_segments (e_pool e) →
  ∃ e' effs own', send_remotefn ready d fn ck e = (e', effs) ∧
    emits s ready d (Ping fn ck) own effs own' ∧ endpoint_ok s e' own' L ∧ e_log e' = e_log e ∧ e_calls e' = e_calls e.
Proof.
  intros He Hcan. unfold send_remotefn. rewrite (eo_id _ _ _ _ He). apply emit_ack; [done..|].
  cbn. by rewrite ping_single.
Qed.

Lemma answer_spec s e own L ready o fn ck src : endpoint_ok s e own L → can_allocate max_segments (e_pool e) →
  ∃ e' effs own', dispatch_remotefn src ready (ping_packet o fn ck) e = Ok (e', effs) ∧
    emits s ready o (Pong fn ck) own effs own' ∧ endpoint_ok s e' own' L ∧ e_log e' = e_log e ∧ e_calls e' = e_calls e.
Proof.
  intros He Hcan. cbn.
  destruct (emit_ack s e own L ready o (Pong fn ck) He Hcan I None (Some (ack_metadata fn ck o true)))
    as (e'&effs&own'&Heq&Hres).
  { cbn. by rewrite (pong_single s). }
  exists e', effs, own'. split; [|done]. rewrite <- Heq. unfold mret, res_ret.
  destruct (ready o); [done|]. by destruct (allocateState e).
Qed.

(** ** Completions *)

Lemma get_origin_spec s e own L st d i : endpoint_ok s e own L → own !! st = Some (Sending d i) →
  ∃ o, get_origin st e = Ok o ∧ sends_item d i o.
Proof.
  intros He Hst. destruct (eo_states _ _ _ _ He _ _ Hst) as ([o|t]&Hv&Hu); [|done].
  exists o. split; [|done]. unfold get_origin. by rewrite Hv.
Qed.

Definition local_events (d : Z) (m : message) : list event :=
  if m_local_fn m =? 0 then [] else [Local_done d (m_local_fn m) (m_cookie m)].

Lemma call_unless_null_log fn ev e : e_log (call_unless_null fn ev e) = e_log e ++ (if fn =? 0 then [] else [ev]).
Proof. unfold call_unless_null. destruct (fn =? 0); [by rewrite app_nil_r|done]. Qed.

Lemma endpoint_callback s e own L fn ev : endpoint_ok s e own L → endpoint_ok s (call_unless_null fn ev e) own L.
Proof. intros He. unfold call_unless_null. destruct (fn =? 0); [done|by apply endpoint_event]. Qed.

Lemma send_complete_spec s e own L ready st d m : endpoint_ok s e own L → own !! st = Some (Sending d (Message m)) →
  ∃ e' effs own', send_complete ready st e = Ok (e', effs) ∧ endpoint_ok s e' own' L ∧
    e_log e' = e_log e ++ local_events d m ∧ e_calls e' = e_calls e ∧
    (if m_remote_fn m =? 0 then effs = [] ∧ own' = delete st own
     else emits s ready d (Ping (m_remote_fn m) (m_cookie m)) (delete st own) effs own').
Proof.
  intros He Hst. destruct (get_origin_spec _ _ _ _ _ _ _ He Hst) as (o&Ho&Hd&Hl&Hr&Hc).
  unfold send_complete. rewrite Ho, Ok_bind, Hl, Hc, Hd.
  set (e1 := freeState st (call_unless_null (m_local_fn m) (Local_done d (m_local_fn m) (m_cookie m)) e)).
  assert (He1 : endpoint_ok s e1 (delete st own) L).
  { subst e1. eapply endpoint_free; [by apply endpoint_callback|done]. }
  assert (Hlog : e_log e1 = e_log e ++ local_events d m) by apply call_unless_null_log.
  assert (Hcalls : e_calls e1 = e_calls e).
  { subst e1. unfold call_unless_null. by destruct (m_local_fn m =? 0). }
  assert (Ho' : get_origin st e1 = Ok o).
  { rewrite <- Ho. subst e1. unfold call_unless_null. by destruct (m_local_fn m =? 0). }
  rewrite Ho', Ok_bind, Hr, Hd, Hc. destruct (m_remote_fn m =? 0).
  - do 3 eexists. split; [reflexivity|]. done.
  - destruct (send_remotefn_spec s e1 _ L ready d (m_remote_fn m) (m_cookie m) He1) as (e'&effs&own'&Hrun&Hem&He'&Hl'&Hc').
    { left. subst e1. cbn. done. }
    rewrite Hrun. exists e', effs, own'. split; [done|]. rewrite Hl', Hc'. done.
Qed.

Lemma complete_remotefn_spec s e own L st d i : endpoint_ok s e own L → own !! st = Some (Sending d i) →
  complete_remotefn st e = Ok (freeState st e, []) ∧ endpoint_ok s (freeState st e) (delete st own) L.
Proof.
  intros He Hst. destruct (get_origin_spec _ _ _ _ _ _ _ He Hst) as (o&Ho&_).
  unfold complete_remotefn. rewrite Ho. split; [done|]. by eapply endpoint_free.
Qed.

(** * The sends of the client *)

Definition message_ok (m : message) : Prop :=
  len (m_data m) ≤ max_data ∧ len (m_header m) < 2 ^ 62 ∧
  (m_packed m = true → len (m_header m) + len (m_data m) ≤ maximum_short_packet_payload) ∧
  (m_packed m = false → LONG_HEADER_DISABLE T_Option = true → len (m_header m) ≤ maximum_eager_packet_payload).

(** The message of a send whose data are [data]. *)
Definition message_of (packed : bool) (p : pami_send_t) (data : list Z) (e : endpoint) : message :=
  mkMessage packed (read_bytes (s_header p) (s_header_len p) (e_mem e)) data
    (s_local_fn p) (s_remote_fn p) (s_cookie p).

(** The short packet takes it. *)
Definition fits_short (p : pami_send_t) : bool :=
  s_header_len p + s_data_len p <=? maximum_short_packet_payload.
Definition goes_short (p : pami_send_t) : bool :=
  RECV_IMMEDIATE_FORCEON T_Option || (negb (RECV_IMMEDIATE_FORCEOFF T_Option) && fits_short p).

Definition sizes_ok (p : pami_send_t) : Prop := 0 ≤ s_header_len p < 2 ^ 62 ∧ 0 ≤ s_data_len p ≤ max_data.

(** A send the protocol takes. *)
Record send_ok (p : pami_send_t) : Prop := {
  so_peer : isPeer (s_dest p) = true;
  so_header : 0 ≤ s_header_len p < 2 ^ 62;
  so_data : 0 ≤ s_data_len p ≤ max_data;
  so_forced : RECV_IMMEDIATE_FORCEON T_Option = true → fits_short p = true;
  so_long : goes_short p = false → LONG_HEADER_DISABLE T_Option = true →
    s_header_len p ≤ maximum_eager_packet_payload
}.

Lemma packed_post st p bytes e s : e_id e = s → 0 ≤ s_header_len p → 0 ≤ s_data_len p →
  len bytes = s_header_len p + s_data_len p → len bytes ≤ maximum_short_packet_payload →
  ∀ m, m_packed m = true → m_header m ++ m_data m = bytes → len (m_data m) = s_data_len p →
    len (m_header m) = s_header_len p → ∃ q, post_packed st p bytes e = Posted (s_dest p) q ∧
  pending s (s_dest p) (Message m) st [q] [].
Proof.
  intros He Hh Hd Hlen Hle m Hm Hb Hmd Hmh. pose proof payload_small. rewrite short_limit in Hle.
  unfold post_packed, packed_meta, w16. rewrite !Z.mod_small by (destruct packed_in_header; lia).
  unfold len in *.
  destruct packed_in_header eqn:Hp; (eexists; split; [reflexivity|]; apply pending_one; [|done]);
    cbn [wire]; rewrite Hm; unfold packed_packet; rewrite Hp, Hb, <- Hmd, <- Hmh, <- He;
    unfold expand; cbn [po_multi po_payload]; unfold post_packet, single_packet; cbn [po_multi po_model po_metadata po_struct];
    rewrite fits_true, fits_None, take_ge; try done; cbn; try lia.
  unfold packed_in_header, sizeof_packed_metadata in Hp. lia.
Qed.

Lemma send_envelope_spec s e st d m fn : e_id e = s → message_ok m → m_packed m = false →
  ∃ ps p, send_envelope st d (len (m_data m)) (m_header m) fn e = map (Posted d) (ps ++ [p]) ∧
    (ps ++ [p]) ≫= expand = envelope s m ∧ Forall (λ q, po_done q = no_fn) ps ∧ po_done p = fn.
Proof.
  intros He (_&_&_&Hlong) Hp. specialize (Hlong Hp). pose proof payload_small. pose proof eager_limit as Hlim.
  pose proof (ok_model Hok) as [_ _ _].
  unfold send_envelope, envelope, long_header. fold (len (m_header m)). rewrite He.
  destruct (LONG_HEADER_DISABLE T_Option) eqn:Hd, (maximum_eager_packet_payload <? len (m_header m)) eqn:Hm;
    cbn [negb andb]; rewrite ?andb_false_r; cbn [andb].
  { apply Z.ltb_lt in Hm. specialize (Hlong eq_refl). lia. }
  2: { eexists [_], _. split; [reflexivity|]. split; [|split; [by repeat constructor|done]].
    cbn [app mbind list_bind]. rewrite expand_header, app_nil_r. unfold expand. cbn [po_multi po_payload].
    unfold post_packet, single_packet. cbn [po_multi po_model po_metadata po_struct].
    rewrite fits_true, fits_None by (cbn; lia). cbn. by rewrite take_nil. }
  all: apply Z.ltb_ge in Hm; unfold w16; rewrite Z.mod_small by (unfold len in *; destruct short_in_header; lia);
    destruct short_in_header eqn:Hs; (eexists [], _; split; [reflexivity|]; split; [|done]);
    cbn [app mbind list_bind]; rewrite app_nil_r; unfold expand; cbn [po_multi po_payload];
    unfold post_packet, single_packet; cbn [po_multi po_model po_metadata po_struct];
    unfold envelope_packet; rewrite Hs, fits_true, fits_None, take_ge; try done; unfold len in *; cbn; try lia;
    unfold short_in_header, sizeof_shortheader_metadata in Hs; lia.
Qed.

(** ** Packing into the states *)

(** A block the client gives to [memcpy]: in memory, and not the protocol's. *)
Definition client_block (a n : Z) : Prop :=
  0 ≤ a ∧ a + n ≤ 2 ^ 64 ∧ (n = 0 ∨ outside_library a (a + n)).

Lemma typed_bytes_library P base off n lo hi m m' : typed_region lo hi base P off n → outside_library lo hi →
  (∀ x, x < lib_lo ∨ lib_hi ≤ x → m' x = m x) → typed_bytes P base off n m' = typed_bytes P base off n m.
Proof.
  intros (_&_&Hr) Hout Hm. unfold typed_bytes. apply map_ext_in. intros i Hi%list_elem_of_In%elem_of_seqZ.
  apply Hm. specialize (Hr (off + i) ltac:(lia)). destruct Hout; lia.
Qed.

Lemma read_bytes_library a n m m' : client_block a n →
  (∀ x, x < lib_lo ∨ lib_hi ≤ x → m' x = m x) → read_bytes a n m' = read_bytes a n m.
Proof.
  intros (H1&H2&Ho) Hm. apply read_bytes_ext. intros i Hi. apply Hm. destruct Ho as [|[|]]; lia.
Qed.

(** Copying into the protocol's memory. *)
Lemma memcpy_library to from n m : in_library to n → 0 ≤ n → client_block from n →
  ∃ m', memcpy to from n m = Ok m' ∧ read_bytes to n m' = read_bytes from n m ∧
    (∀ x, x < to ∨ to + n ≤ x → m' x = m x).
Proof.
  intros [Hlo Hhi] Hn (H1&H2&Ho). destruct (ok_library Hok). unfold outside_library in Ho.
  rewrite memcpy_Ok by lia. eexists. split; [reflexivity|]. split; [|intros; by apply move_out].
  apply read_bytes_ext. intros i Hi. rewrite move_in by lia. f_equal. lia.
Qed.

Definition with_o_machine (o : origin_t) (m : TypeMachine) : origin_t :=
  mkOrigin (Some m) (o_base_addr o) (o_bytes_remaining o) (o_start_count o) (o_target o)
    (o_local_fn o) (o_remote_fn o) (o_cookie o).

Definition data_post (s : Z) (l : list Z) (fn : done_fn) : post :=
  mkPost data_model (Some (endpoint_metadata s)) None l true fn.

Lemma pack_and_post_spec s e own L st w n d fn o m ty off N lo hi t P k dest it :
  endpoint_ok s e own L → own !! st = Some (Sending dest it) →
  e_states e !! st = Some (S_origin o) → sends_item dest it o →
  typed_data (types0 s) ty off (o_base_addr o) N lo hi t P → outside_library lo hi →
  o_machine o = Some m → machine_at (e_types e) m (run_prog t P) (off + k) → copies m →
  0 ≤ k → 0 ≤ n ≤ payload_bytes → k + n ≤ N → in_library (pipeline st w) payload_bytes →
  ∃ m' e', pack_and_post st w n d fn e = Ok (e', Posted d
      (data_post s (typed_bytes P (o_base_addr o) (off + k) n (e_mem e)) fn)) ∧
    endpoint_ok s e' own L ∧ e_states e' !! st = Some (S_origin (with_o_machine o m')) ∧
    machine_at (e_types e') m' (run_prog t P) (off + k + n) ∧ copies m' ∧
    e_log e' = e_log e ∧ e_calls e' = e_calls e ∧
    (∀ x, x < lib_lo ∨ lib_hi ≤ x → e_mem e' x = e_mem e x).
Proof.
  intros He Hst Hs Ho Htd Hout Hm Hma Hcp Hk Hn HN [Hl1 Hl2]. destruct (ok_library Hok).
  unfold pack_and_post, get_origin. rewrite Hs, Ok_bind, Hm. cbn [of_option]. rewrite Ok_bind.
  destruct (pack_part _ (e_types e) _ _ _ _ _ _ _ _ m k n Htd Hma Hcp Hk ltac:(lia) HN (pipeline st w) (e_mem e))
    as (m'&s'&Hrun&Hm'&Hcp'&_&Hrd&Hsame); [lia|lia|destruct Hout; lia|].
  rewrite Hrun, Ok_bind. exists m'. eexists. split.
  { unfold mret, res_ret, postMultiPacket, data_post. cbn [e_id set_state set_mem].
    rewrite (eo_id _ _ _ _ He), Hrd. reflexivity. }
  assert (Hmem : ∀ x, x < lib_lo ∨ lib_hi ≤ x → s' x = e_mem e x) by (intros; apply Hsame; lia).
  split; [|split; [|done]].
  - eapply endpoint_resend; [|done|done]. by apply (endpoint_library Hok).
  - cbn. by rewrite lookup_insert_eq.
Qed.

(** The machine of a send. *)
Lemma open_machine_endpoint s e own L ty off ck base n lo hi t P : endpoint_ok s e own L →
  typed_data (types0 s) ty off base n lo hi t P →
  ∃ u m, e_types e !! ty = Some u ∧ same_code t u ∧ 0 < ref_cnt u ∧ 
    open_machine ty off 0 ck e = Ok (set_types (<[ty := AcquireReference u]> (e_types e)) e, m) ∧
    machine_at (<[ty := AcquireReference u]> (e_types e)) m (run_prog t P) off ∧ copies m ∧ GetType m = ty ∧
    grown (e_types e) (<[ty := AcquireReference u]> (e_types e)).
Proof.
  intros He Htd. pose proof (eo_types _ _ _ _ He) as Hg.
  destruct (typed_data_grown _ _ _ _ _ _ _ _ _ _ Htd Hg) as (u&Htd'&Hsame).
  destruct (open_machine_spec e ty off ck base n lo hi u P) as (m&Hrun&Hma&Hcp&Ht).
  { eapply contig_max_grown; [by apply (ok_contig_max Hok)|done]. } { done. }
  destruct (td_type _ _ _ _ _ _ _ _ _ Htd') as [Hu _ _ Hr _].
  exists u, m. rewrite (run_prog_same _ _ _ Hsame) in Hma. do 7 (split; [done|]).
  by apply grown_acquire.
Qed.

(** ** Short sends *)

Lemma packed_ptr_library st n : in_library (packet_of st) payload_bytes → 0 ≤ n ≤ maximum_short_packet_payload →
  in_library (packed_ptr st) n.
Proof.
  pose proof short_limit as Hl. unfold in_library, packed_ptr. intros [Hp1 Hp2] Hn.
  unfold sizeof_packed_metadata. destruct packed_in_header; lia.
Qed.

Lemma packed_typed_spec s e own L st p ty lo hi t P dest it : send_ok p → endpoint_ok s e own L →
  own !! st = Some (Sending dest it) → in_library (packet_of st) payload_bytes →
  s_header_len p + s_data_len p ≤ maximum_short_packet_payload →
  typed_data (types0 s) (ty_type ty) (ty_offset ty) (s_data p) (s_data_len p) lo hi t P → outside_library lo hi →
  ty_data_fn ty = 0 → client_block (s_header p) (s_header_len p) →
  let m := message_of true p (typed_bytes P (s_data p) (ty_offset ty) (s_data_len p) (e_mem e)) e in
  ∃ e' q, send_packed_typed st p ty e = Ok (e', [Posted (s_dest p) q]) ∧ endpoint_ok s e' own L ∧
    e_log e' = e_log e ∧ e_calls e' = e_calls e ∧ pending s (s_dest p) (Message m) st [q] [].
Proof.
  intros [_ Hh Hd _ _] He Hst Hlib Hmax Htd Hout Hfn Hblk m. destruct (ok_library Hok).
  pose proof (packed_ptr_library st _ Hlib (conj (Z.add_nonneg_nonneg _ _ (proj1 Hh) (proj1 Hd)) Hmax)) as [Hp1 Hp2].
  destruct (open_machine_endpoint s e own L _ _ (ty_data_cookie ty) _ _ _ _ _ _ He Htd)
    as (u&mc&Hu&Hsame&Href&Hopen&Hma&Hcp&Hty&Hg).
  unfold send_packed_typed. rewrite Hfn, Hopen, Ok_bind. cbn [e_mem e_types set_types].
  destruct (memcpy_library (packed_ptr st) (s_header p) (s_header_len p) (e_mem e)) as (s1&Hc1&Hr1&Hs1);
    [split; lia|lia|done|].
  rewrite Hc1, Ok_bind.
  rewrite <- (Z.add_0_r (ty_offset ty)) in Hma.
  destruct (pack_part _ _ _ _ _ _ _ _ _ _ mc 0 (s_data_len p) Htd Hma Hcp ltac:(lia) ltac:(lia) ltac:(lia)
    (packed_ptr st + s_header_len p) s1) as (m'&s2&Hrun&Hm'&Hcp'&Ht'&Hrd&Hs2); [lia|lia|destruct Hout; lia|].
  rewrite Hrun, Ok_bind. cbn [e_types set_mem set_types].
  rewrite (delete_machine (e_types e) (ty_type ty) u m' Hu Href ltac:(congruence)), Ok_bind.
  rewrite Z.add_0_r in Hrd.
  rewrite (typed_bytes_library P _ _ _ lo hi (e_mem e) s1) in Hrd; [|by apply (td_region _ _ _ _ _ _ _ _ _ Htd)|done|
    intros; apply Hs1; lia].
  assert (Hread : read_bytes (packed_ptr st) (s_header_len p + s_data_len p) s2 = m_header m ++ m_data m).
  { rewrite read_bytes_app by lia. rewrite Hrd. cbn. f_equal. rewrite <- Hr1.
    apply read_bytes_ext. intros i Hi. apply Hs2. lia. }
  assert (Hlen : len (m_header m ++ m_data m) = s_header_len p + s_data_len p).
  { rewrite <- Hread. unfold len. apply read_bytes_length. lia. }
  destruct (packed_post st p (m_header m ++ m_data m) (set_mem s2 (set_types (<[ty_type ty:=AcquireReference u]> (e_types e)) e)) s)
    with (m := m) as (q&Hq&Hpd); try done; [by apply (eo_id _ _ _ _ He)|lia|lia|lia|..].
  { apply typed_bytes_length. lia. } { apply read_bytes_length. lia. }
  rewrite Hread, Hq. eexists _, q. split; [reflexivity|]. split; [|done].
  change (endpoint_ok s (set_mem s2 e) own L). eapply (endpoint_library Hok); [done|].
  intros x Hx. rewrite Hs2 by lia. apply Hs1. lia.
Qed.

Lemma queue_immediate_spec s e own L st p dest it : sizes_ok p → endpoint_ok s e own L →
  own !! st = Some (Sending dest it) → in_library (packet_of st) payload_bytes →
  s_header_len p + s_data_len p ≤ maximum_short_packet_payload →
  client_block (s_header p) (s_header_len p) → client_block (s_data p) (s_data_len p) →
  ∀ m, m_packed m = true → m_header m = read_bytes (s_header p) (s_header_len p) (e_mem e) →
  m_data m = read_bytes (s_data p) (s_data_len p) (e_mem e) →
  ∃ e' q, queue_immediate st p e = Ok (e', [Posted (s_dest p) q]) ∧ endpoint_ok s e' own L ∧
    e_log e' = e_log e ∧ e_calls e' = e_calls e ∧ pending s (s_dest p) (Message m) st [q] [].
Proof.
  intros [Hh Hd] He Hst Hlib Hmax Hbh Hbd m Hm Hmh Hmd. destruct (ok_library Hok).
  pose proof (packed_ptr_library st _ Hlib (conj (Z.add_nonneg_nonneg _ _ (proj1 Hh) (proj1 Hd)) Hmax)) as [Hp1 Hp2].
  unfold queue_immediate.
  destruct (memcpy_library (packed_ptr st) (s_header p) (s_header_len p) (e_mem e)) as (s1&Hc1&Hr1&Hs1);
    [split; lia|lia|done|].
  rewrite Hc1, Ok_bind.
  destruct (memcpy_library (packed_ptr st + s_header_len p) (s_data p) (s_data_len p) s1) as (s2&Hc2&Hr2&Hs2);
    [split; lia|lia|done|].
  rewrite Hc2, Ok_bind.
  assert (Hmem1 : ∀ x, x < lib_lo ∨ lib_hi ≤ x → s1 x = e_mem e x) by (intros; apply Hs1; lia).
  rewrite (read_bytes_library _ _ _ _ Hbd Hmem1), <- Hmd in Hr2.
  assert (Hread : read_bytes (packed_ptr st) (s_header_len p + s_data_len p) s2 = m_header m ++ m_data m).
  { rewrite read_bytes_app, Hr2 by lia. f_equal. rewrite Hmh, <- Hr1.
    apply read_bytes_ext. intros i Hi. apply Hs2. lia. }
  assert (Hlen : len (m_header m ++ m_data m) = s_header_len p + s_data_len p).
  { rewrite <- Hread. apply read_bytes_length. lia. }
  destruct (packed_post st p (m_header m ++ m_data m) (set_mem s2 e) s)
    with (m := m) as (q&Hq&Hpd); try done; [by apply (eo_id _ _ _ _ He)|lia|lia|lia|..].
  { rewrite Hmd. apply read_bytes_length. lia. } { rewrite Hmh. apply read_bytes_length. lia. }
  rewrite Hread, Hq. eexists _, q. split; [reflexivity|]. split; [|done].
  eapply (endpoint_library Hok); [done|]. intros x Hx. rewrite Hs2 by lia. by apply Hmem1.
Qed.

(** ** Data *)

Lemma typed_data_zero h ty off base n lo hi t P : typed_data h ty off base n lo hi t P → 0 < lo ∧ hi ≤ 2 ^ 64.
Proof. intros [_ _ _ _ _ (?&?&_)]. done. Qed.

(** Posts of data: the last completes the send. *)
Definition data_posts (s d : Z) (st : Z) (l : list Z) (ps : list post) : Prop :=
  ps ≫= expand = map (data_packet s) (chunks l) ∧
  ∃ ps' p, ps = ps' ++ [p] ∧ Forall (λ q, po_done q = no_fn) ps' ∧ po_done p = send_complete_fn st.

Lemma sizes_of p : send_ok p → sizes_ok p.
Proof. by intros [_ ? ? _ _]. Qed.

(** A typed send with its machine open, and how it goes on. *)
Section typed_send.
Context (s : Z) (e : endpoint) (own : gmap Z use) (L : gmap nat landed) (st : Z).
Context (p : pami_send_t) (ty : pami_typed_t) (lo hi N : Z) (t : TypeCode) (P : prog) (m : message).
Context (Hsize : 0 ≤ s_data_len p < 2 ^ 63) (He : endpoint_ok s e own L).
Context (Hst : own !! st = Some (Sending (s_dest p) (Message m))) (Hs : e_states e !! st = Some (send_state p)).
Context (Hsend : sends_item (s_dest p) (Message m)
  (mkOrigin None 0 0 0 (s_dest p) (s_local_fn p) (s_remote_fn p) (s_cookie p))).
Context (Hlib : ∀ w, 0 ≤ w < 2 → in_library (pipeline st w) payload_bytes).
Context (Htd : typed_data (types0 s) (ty_type ty) (ty_offset ty) (s_data p) N lo hi t P) (Hout : outside_library lo hi).
Context (Hfn : ty_data_fn ty = 0) (Hatom : payload_bytes `mod` GetAtomSize t = 0).

Definition open_origin (mc : TypeMachine) : origin_t :=
  mkOrigin (Some mc) (s_data p) (s_data_len p) (if s_data_len p <=? 2 * payload_bytes then 0 else 2)
    (s_dest p) (s_local_fn p) (s_remote_fn p) (s_cookie p).

Lemma send_data_typed_open : ∃ mc e1, endpoint_ok s e1 own L ∧ e_states e1 !! st = Some (S_origin (open_origin mc)) ∧
  machine_at (e_types e1) mc (run_prog t P) (ty_offset ty + 0) ∧ copies mc ∧
  e_mem e1 = e_mem e ∧ e_log e1 = e_log e ∧ e_calls e1 = e_calls e ∧
  let n := s_data_len p in
  send_data_typed st p ty e =
    if n <=? payload_bytes then
      '(e, eff) ← pack_and_post st 0 n (s_dest p) (send_complete_fn st) e1; mret (e, [eff])
    else if n <=? 2 * payload_bytes then
      '(e, eff1) ← pack_and_post st 0 payload_bytes (s_dest p) no_fn e1;
      '(e, eff2) ← pack_and_post st 1 (n - payload_bytes) (s_dest p) (send_complete_fn st) e;
      mret (e, [eff1; eff2])
    else
      '(e, eff1) ← pack_and_post st 0 payload_bytes (s_dest p) (complete_data_fn st) e1;
      '(e, eff2) ← pack_and_post st 1 payload_bytes (s_dest p) (complete_data_fn st) e;
      mret (e, [eff1; eff2]).
Proof.
  pose proof payload_small.
  destruct (open_machine_endpoint s e own L _ _ (ty_data_cookie ty) _ _ _ _ _ _ He Htd)
    as (u&mc&Hu&Hsame&Href&Hopen&Hma&Hcp&Hty&Hg).
  exists mc, (set_state st (S_origin (open_origin mc)) (set_types (<[ty_type ty:=AcquireReference u]> (e_types e)) e)).
  split; [eapply endpoint_resend; [by eapply endpoint_types|done|done]|].
  split; [apply lookup_insert_eq|]. split; [by rewrite Z.add_0_r|]. do 4 (split; [done|]).
  cbv zeta. unfold send_data_typed. rewrite Hu. cbn [of_option]. rewrite Ok_bind.
  rewrite (complete_type e _ u Hu), Ok_bind.
  2: { unfold IsCompleted. eapply td_completed, same_code_denotes; [done|]. apply (td_type _ _ _ _ _ _ _ _ _ Htd). }
  rewrite Hfn, Hopen, Ok_bind.
  assert (GetAtomSize u = GetAtomSize t) as ->.
  { unfold GetAtomSize. by destruct Hsame as (->&_). }
  rewrite Hatom. cbn [negb Z.eqb]. unfold get_origin. cbn [e_states set_types]. rewrite Hs.
  unfold send_state. rewrite Ok_bind. cbn [o_start_count o_target o_local_fn o_remote_fn o_cookie].
  unfold sizeof_pipeline. rewrite (w64_small (payload_bytes * 2)), (Z.mul_comm payload_bytes) by lia. done.
Qed.

Lemma send_data_typed_spec : N = s_data_len p → 0 < s_data_len p ≤ 2 * payload_bytes →
  ∃ e' ps, send_data_typed st p ty e = Ok (e', map (Posted (s_dest p)) ps) ∧ endpoint_ok s e' own L ∧
    e_log e' = e_log e ∧ e_calls e' = e_calls e ∧
    data_posts s (s_dest p) st (typed_bytes P (s_data p) (ty_offset ty) (s_data_len p) (e_mem e)) ps.
Proof.
  intros HN Hn. pose proof payload_small.
  destruct send_data_typed_open as (mc&e1&He1&Hs1&Hma1&Hcp&Hmem1&Hlog1&Hcalls1&Hopen). rewrite Hopen. cbv zeta.
  rewrite (proj2 (Z.leb_le (s_data_len p) (2 * payload_bytes))) by lia. set (o := open_origin mc) in *.
  subst N.
  destruct (Z.leb_spec (s_data_len p) payload_bytes).
  - destruct (pack_and_post_spec s e1 own L st 0 (s_data_len p) (s_dest p) (send_complete_fn st) o mc
      (ty_type ty) (ty_offset ty) (s_data_len p) lo hi t P 0 (s_dest p) (Message m))
      as (m'&e2&Hrun&He2&_&_&_&Hl2&Hk2&_); try done; try lia; try (apply Hlib; lia).
    rewrite Hrun, Ok_bind. eexists e2, [_]. split; [reflexivity|]. split; [done|]. split; [by rewrite Hl2|]. split; [by rewrite Hk2|].
    split; [|by exists [], (data_post s (typed_bytes P (o_base_addr o) (ty_offset ty + 0) (s_data_len p) (e_mem e1)) (send_complete_fn st))].
    cbn [mbind list_bind]. rewrite app_nil_r. unfold data_post. rewrite expand_data. cbn. by rewrite Z.add_0_r, Hmem1.
  - destruct (pack_and_post_spec s e1 own L st 0 payload_bytes (s_dest p) no_fn o mc
      (ty_type ty) (ty_offset ty) (s_data_len p) lo hi t P 0 (s_dest p) (Message m))
      as (m'&e2&Hrun&He2&Hs2&Hm2&Hcp2&Hl2&Hk2&Hmem2); try done; try lia; try (apply Hlib; lia).
    rewrite Hrun, Ok_bind.
    destruct (pack_and_post_spec s e2 own L st 1 (s_data_len p - payload_bytes) (s_dest p) (send_complete_fn st)
      (with_o_machine o m') m' (ty_type ty) (ty_offset ty) (s_data_len p) lo hi t P payload_bytes (s_dest p) (Message m))
      as (m''&e3&Hrun3&He3&_&_&_&Hl3&Hk3&_); try done; try lia; try (apply Hlib; lia).
    { by rewrite Z.add_0_r in Hm2. }
    rewrite Hrun3, Ok_bind. eexists e3, [_; _]. split; [reflexivity|]. split; [done|].
    split; [by rewrite Hl3, Hl2|]. split; [by rewrite Hk3, Hk2|].
    split; [|eexists [_], _; split; [reflexivity|]; split; [by repeat constructor|done]].
    cbn [mbind list_bind]. rewrite app_nil_r. unfold data_post. rewrite !expand_data, <- map_app. f_equal.
    cbn [o_base_addr with_o_machine o]. rewrite Z.add_0_r.
    rewrite Hmem1 in Hmem2 |- *.
    rewrite (typed_bytes_library P _ _ _ lo hi (e_mem e) (e_mem e2)); [|
      eapply typed_region_sub; [apply (td_region _ _ _ _ _ _ _ _ _ Htd)|lia..]|done|done].
    replace (s_data_len p) with (payload_bytes + (s_data_len p - payload_bytes)) at 2 by lia.
    assert (Hl : len (typed_bytes P (s_data p) (ty_offset ty) payload_bytes (e_mem e)) = payload_bytes).
    { apply typed_bytes_length. lia. }
    assert (Hl' : len (typed_bytes P (s_data p) (ty_offset ty + payload_bytes) (s_data_len p - payload_bytes) (e_mem e)) =
      s_data_len p - payload_bytes).
    { apply typed_bytes_length. lia. }
    assert (typed_bytes P (s_data p) (ty_offset ty + payload_bytes) (s_data_len p - payload_bytes) (e_mem e) ≠ []) as Hne.
    { intros Hnil. rewrite Hnil in Hl'. change (len []) with 0 in Hl'. lia. }
    change (o_base_addr o) with (s_data p).
    rewrite typed_bytes_app, chunks_app, !chunks_small by (done || lia). done.
Qed.

(** ... of more than two pipelines: the first two are posted, and all of the message is left. *)
Lemma send_data_typed_long : N = s_data_len p + 2 * payload_bytes → 2 * payload_bytes < s_data_len p →
  ∃ m' e', send_data_typed st p ty e = Ok (e',
      [Posted (s_dest p) (data_post s (typed_bytes P (s_data p) (ty_offset ty) payload_bytes (e_mem e)) (complete_data_fn st));
       Posted (s_dest p) (data_post s (typed_bytes P (s_data p) (ty_offset ty + payload_bytes) payload_bytes (e_mem e)) (complete_data_fn st))]) ∧
    endpoint_ok s e' own L ∧ e_states e' !! st = Some (S_origin (with_o_machine (open_origin m') m')) ∧
    machine_at (e_types e') m' (run_prog t P) (ty_offset ty + 2 * payload_bytes) ∧ copies m' ∧
    (∀ x, x < lib_lo ∨ lib_hi ≤ x → e_mem e' x = e_mem e x).
Proof.
  intros HN Hn. pose proof payload_small.
  destruct send_data_typed_open as (mc&e1&He1&Hs1&Hma1&Hcp&Hmem1&Hlog1&Hcalls1&Hopen). rewrite Hopen. cbv zeta.
  rewrite (proj2 (Z.leb_gt (s_data_len p) payload_bytes)), (proj2 (Z.leb_gt (s_data_len p) (2 * payload_bytes))) by lia.
  set (o := open_origin mc) in *.
  destruct (pack_and_post_spec s e1 own L st 0 payload_bytes (s_dest p) (complete_data_fn st) o mc
    (ty_type ty) (ty_offset ty) N lo hi t P 0 (s_dest p) (Message m))
    as (m'&e2&Hrun2&He2&Hs2&Hm2&Hcp2&_&_&Hmem2); try done; try lia; try (apply Hlib; lia).
  rewrite Hrun2, Ok_bind.
  destruct (pack_and_post_spec s e2 own L st 1 payload_bytes (s_dest p) (complete_data_fn st)
    (with_o_machine o m') m' (ty_type ty) (ty_offset ty) N lo hi t P payload_bytes (s_dest p) (Message m))
    as (m''&e3&Hrun3&He3&Hs3&Hm3&Hcp3&_&_&Hmem3); try done; try lia; try (apply Hlib; lia).
  { by rewrite Z.add_0_r in Hm2. }
  rewrite Hrun3, Ok_bind. exists m'', e3. split.
  - cbn [o_base_addr with_o_machine o open_origin]. rewrite Z.add_0_r, Hmem1.
    rewrite (typed_bytes_library P _ _ _ lo hi (e_mem e) (e_mem e2)); [done| |done|by rewrite <- Hmem1].
    eapply typed_region_sub; [apply (td_region _ _ _ _ _ _ _ _ _ Htd)|lia..].
  - split; [done|]. split; [done|]. split; [by replace (ty_offset ty + 2 * payload_bytes) with (ty_offset ty + payload_bytes + payload_bytes) by lia|].
    split; [done|]. intros x Hx. by rewrite Hmem3, Hmem2, Hmem1.
Qed.
End typed_send.

(** ** Calls *)

Inductive call := Simple (p : pami_send_t) | Typed (p : pami_send_t) (ty : pami_typed_t) | Immediate (p : pami_send_t).

Definition run_call (ready : Z → bool) (c : call) (e : endpoint) : res (endpoint * list effect * pami_result_t) :=
  match c with
  | Simple p => simple_impl p e
  | Typed p ty => typed_impl p ty e
  | Immediate p => immediate_impl ready p e
  end.

(** The sends that return PAMI_INVAL. *)
Definition refused (c : call) : Prop :=
  match c with
  | Immediate p => sizes_ok p ∧ (isPeer (s_dest p) = false ∨
      ERROR_CHECKS T_Option = true ∧ packet_model_immediate_bytes T_Model < s_data_len p + s_header_len p)
  | Simple p | Typed p _ => sizes_ok p ∧ (isPeer (s_dest p) = false ∨ ERROR_CHECKS T_Option = true ∧
      (RECV_IMMEDIATE_FORCEON T_Option = true ∧ fits_short p = false ∨
       goes_short p = false ∧ LONG_HEADER_DISABLE T_Option = true ∧ maximum_eager_packet_payload < s_header_len p))
  end.

(** What the client may ask, and the message it asks to send: a typed send of at most two
    pipelines, whose type and memory are as they should be. *)
Inductive issues (s : Z) (ready : Z → bool) (e : endpoint) : call → Z → list message → Prop :=
| issues_refused c d : refused c → issues s ready e c d []
| issues_simple p : send_ok p →
    issues s ready e (Simple p) (s_dest p)
      [message_of (goes_short p) p (read_bytes (s_data p) (s_data_len p) (e_mem e)) e]
| issues_typed p ty lo hi t P : send_ok p →
    typed_data (types0 s) (ty_type ty) (ty_offset ty) (s_data p) (s_data_len p) lo hi t P →
    outside_library lo hi → ty_data_fn ty = 0 → payload_bytes `mod` GetAtomSize t = 0 →
    client_block (s_header p) (s_header_len p) → s_data_len p ≤ 2 * payload_bytes →
    issues s ready e (Typed p ty) (s_dest p)
      [message_of (goes_short p) p (typed_bytes P (s_data p) (ty_offset ty) (s_data_len p) (e_mem e)) e]
| issues_immediate p : isPeer (s_dest p) = true → sizes_ok p → fits_short p = true →
    s_data_len p + s_header_len p ≤ packet_model_immediate_bytes T_Model →
    client_block (s_header p) (s_header_len p) → client_block (s_data p) (s_data_len p) →
    ready (s_dest p) = true ∨ QUEUE_IMMEDIATE_DISABLE T_Option = false →
    issues s ready e (Immediate p) (s_dest p)
      [mkMessage true (read_bytes (s_header p) (s_header_len p) (e_mem e))
         (read_bytes (s_data p) (s_data_len p) (e_mem e)) 0 0 0]
| issues_again p : isPeer (s_dest p) = true → sizes_ok p →
    s_data_len p + s_header_len p ≤ packet_model_immediate_bytes T_Model →
    ready (s_dest p) = false → QUEUE_IMMEDIATE_DISABLE T_Option = true →
    issues s ready e (Immediate p) (s_dest p) [].

(** The outcome of a call: nothing, or a message handed to the device. *)
Definition call_done (s : Z) (ready : Z → bool) (d : Z) (ms : list message) (own own' : gmap Z use)
    (effs : list effect) : Prop :=
  match ms with
  | [m] => message_ok m ∧ emits s ready d (Message m) own effs own'
  | _ => effs = [] ∧ own' = own
  end.

Lemma message_of_ok packed p data e : send_ok p → len data = s_data_len p →
  packed = goes_short p → message_ok (message_of packed p data e).
Proof.
  intros [_ Hh Hd Hf Hl] Hdata ->. unfold message_ok, message_of. cbn.
  assert (len (read_bytes (s_header p) (s_header_len p) (e_mem e)) = s_header_len p) as ->.
  { apply read_bytes_length. lia. }
  rewrite Hdata. split; [lia|]. split; [lia|]. split; [|done]. intros Hg. apply Z.leb_le.
  unfold goes_short in Hg. destruct (RECV_IMMEDIATE_FORCEON T_Option); [by apply Hf|].
  by apply andb_prop in Hg as [_ ?].
Qed.

(** The state of a send, allocated. *)
Lemma alloc_send s e own L p it : endpoint_ok s e own L → can_allocate max_segments (e_pool e) →
  sends_item (s_dest p) it (mkOrigin None 0 0 0 (s_dest p) (s_local_fn p) (s_remote_fn p) (s_cookie p)) →
  ∃ st a, allocateState e = (st, set_pool a e) ∧ own !! st = None ∧
    in_library (packet_of st) payload_bytes ∧ (∀ w, 0 ≤ w < 2 → in_library (pipeline st w) payload_bytes) ∧
    endpoint_ok s (set_state st (send_state p) (set_pool a e)) (<[st := Sending (s_dest p) it]> own) L.
Proof.
  intros He Hcan Hit. destruct (endpoint_alloc Hok s e own L He Hcan) as (st&a&Ha&Hf&Hl1&Hl2&Hal).
  exists st, a. split; [done|]. split; [done|]. split; [done|]. split; [done|]. by apply Hal.
Qed.

Lemma total_bytes p : sizes_ok p → w64 (s_header_len p + s_data_len p) = s_header_len p + s_data_len p.
Proof. intros [? ?]. pose proof (ok_data Hok). apply w64_small. lia. Qed.

(** The two ways of a send, for any implementation of the packed and of the data part. *)
Lemma send_impl_spec s e own L ready p packed data bytes :
  let m := message_of (goes_short p) p bytes e in
  send_ok p → len bytes = s_data_len p → endpoint_ok s e own L → can_allocate max_segments (e_pool e) →
  (∀ st a, let e1 := set_state st (send_state p) (set_pool a e) in
    let own1 := <[st := Sending (s_dest p) (Message m)]> own in
    endpoint_ok s e1 own1 L → in_library (packet_of st) payload_bytes →
    (∀ w, 0 ≤ w < 2 → in_library (pipeline st w) payload_bytes) →
    (goes_short p = true → s_header_len p + s_data_len p ≤ maximum_short_packet_payload →
      ∃ e' q, packed st e1 = Ok (e', [Posted (s_dest p) q]) ∧ endpoint_ok s e' own1 L ∧
      e_log e' = e_log e ∧ e_calls e' = e_calls e ∧ pending s (s_dest p) (Message m) st [q] []) ∧
    (goes_short p = false → 0 < s_data_len p → 
      ∃ e' ps, data st e1 = Ok (e', map (Posted (s_dest p)) ps) ∧ endpoint_ok s e' own1 L ∧
      e_log e' = e_log e ∧ e_calls e' = e_calls e ∧ data_posts s (s_dest p) st bytes ps)) →
  ∃ e' effs own', send_impl packed data p e = Ok (e', effs, PAMI_SUCCESS) ∧ endpoint_ok s e' own' L ∧
    e_log e' = e_log e ∧ e_calls e' = e_calls e ∧ call_done s ready (s_dest p) [m] own own' effs.
Proof.
  intros m Hp Hb He Hcan Himpl.
  pose proof (message_of_ok (goes_short p) p bytes e Hp Hb eq_refl) as Hm. fold m in Hm.
  destruct (alloc_send s e own L p (Message m) He Hcan) as (st&a&Ha&Hf&Hl1&Hl2&He1); [done|].
  specialize (Himpl st a He1 Hl1 Hl2) as [Hshort Hlong].
  unfold send_impl. rewrite (so_peer _ Hp), (total_bytes p (sizes_of p Hp)). cbn [negb].
  fold (fits_short p). fold (goes_short p).
  assert (ERROR_CHECKS T_Option && RECV_IMMEDIATE_FORCEON T_Option && negb (fits_short p) = false) as ->.
  { destruct (RECV_IMMEDIATE_FORCEON T_Option) eqn:Hfo; [|by rewrite andb_false_r].
    by rewrite (so_forced _ Hp Hfo), andb_false_r. }
  rewrite Ha. destruct (goes_short p) eqn:Hg.
  - destruct Hshort as (e'&q&Hrun&He'&Hl&Hk&Hpd); [done| |].
    { pose proof (proj1 (proj2 (proj2 Hm)) eq_refl) as Hle. rewrite <- Hb.
      assert (len (m_header m) = s_header_len p) as <- by (apply read_bytes_length; destruct Hp; lia). done. }
    rewrite Hrun, Ok_bind. eexists e', _, _. split; [reflexivity|]. split; [done|]. split; [done|].
    split; [done|]. split; [done|]. by apply (emits_posted s ready (s_dest p) (Message m) own st [q]).
  - assert (ERROR_CHECKS T_Option && LONG_HEADER_DISABLE T_Option && (maximum_eager_packet_payload <? s_header_len p) = false) as ->.
    { destruct (LONG_HEADER_DISABLE T_Option) eqn:Hd; [|by rewrite andb_false_r].
      by rewrite (proj2 (Z.ltb_ge _ _) (so_long _ Hp Hg Hd)), andb_false_r. }
    cbn [e_mem set_state set_pool].
    change (read_bytes (s_header p) (s_header_len p) (e_mem e)) with (m_header m).
    replace (s_data_len p) with (len (m_data m)) by done.
    destruct (Z.eqb_spec (len (m_data m)) 0) as [Hz|Hz].
    + destruct (send_envelope_spec s (set_state st (send_state p) (set_pool a e)) st (s_dest p) m (send_complete_fn st))
        as (ps&q&Henv&Hexp&Hno&Hdone); [by apply (eo_id _ _ _ _ He)|done|done|].
      rewrite Henv. eexists _, _, _. split; [reflexivity|]. split; [done|]. split; [done|].
      split; [done|]. split; [done|].
      apply (emits_posted s ready (s_dest p) (Message m) own st); [done|]. split; [|by exists ps, q].
      cbn [wire m_packed m message_of]. rewrite Hexp.
      assert (m_data m = []) as -> by (apply length_zero_iff_nil; unfold len in Hz; lia).
      by rewrite app_nil_r.
    + destruct (send_envelope_spec s (set_state st (send_state p) (set_pool a e)) st (s_dest p) m no_fn)
        as (ps&q&Henv&Hexp&Hno&Hdone); [by apply (eo_id _ _ _ _ He)|done|done|].
      destruct Hlong as (e'&ps2&Hrun&He'&Hl&Hk&Hexp2&ps3&q3&->&Hno3&Hdone3); [done| |].
      { rewrite <- Hb. change (len bytes) with (len (m_data m)). unfold len in *. lia. }
      rewrite Henv, Hrun, Ok_bind, <- map_app. eexists e', _, _. split; [reflexivity|]. split; [done|]. split; [done|].
      split; [done|]. split; [done|].
      apply (emits_posted s ready (s_dest p) (Message m) own st); [done|]. split.
      * cbn [wire m_packed m message_of]. rewrite bind_app, Hexp, Hexp2. cbn [m_data app]. f_equal.
        unfold data_packets. by destruct bytes.
      * exists ((ps ++ [q]) ++ ps3), q3. rewrite (assoc_L (++)). split; [done|]. split; [|done].
        apply Forall_app. split; [|done]. apply Forall_app. split; [done|]. by apply Forall_singleton.
Qed.

Lemma read_bytes_len a n s : 0 ≤ n → len (read_bytes a n s) = n.
Proof. apply read_bytes_length. Qed.

Lemma simple_spec s e own L ready p : send_ok p → endpoint_ok s e own L → can_allocate max_segments (e_pool e) →
  let m := message_of (goes_short p) p (read_bytes (s_data p) (s_data_len p) (e_mem e)) e in
  ∃ e' effs own', simple_impl p e = Ok (e', effs, PAMI_SUCCESS) ∧ endpoint_ok s e' own' L ∧
    e_log e' = e_log e ∧ e_calls e' = e_calls e ∧ call_done s ready (s_dest p) [m] own own' effs.
Proof.
  intros Hp He Hcan m. destruct (sizes_of p Hp) as [Hh Hd]. unfold simple_impl.
  apply send_impl_spec; [done|by apply read_bytes_len; lia|done|done|].
  intros st a e1 own1 He1 Hl1 Hl2. split.
  - intros Hg Hmax. cbn [e_mem set_state set_pool].
    destruct (packed_post st p (m_header m ++ m_data m) e1 s) with (m := m) as (q&Hq&Hpd); try done;
      [by apply (eo_id _ _ _ _ He)|lia|lia|unfold len; rewrite length_app, Nat2Z.inj_add..|by apply read_bytes_len; lia|
       by apply read_bytes_len; lia|].
    { f_equal; apply read_bytes_len; lia. }
    { etransitivity; [|exact Hmax]. apply Z.eq_le_incl. f_equal; apply read_bytes_len; lia. }
    exists e1, q. unfold send_packed_simple. cbn [e_mem e1 set_state set_pool].
    change (read_bytes (s_header p) (s_header_len p) (e_mem e) ++ read_bytes (s_data p) (s_data_len p) (e_mem e))
      with (m_header m ++ m_data m). rewrite Hq. done.
  - intros Hg Hpos. exists e1, [data_post s (read_bytes (s_data p) (s_data_len p) (e_mem e)) (send_complete_fn st)].
    unfold send_data_contiguous, postMultiPacket. cbn [e_id e_mem e1 set_state set_pool].
    rewrite (eo_id _ _ _ _ He). split; [done|]. split; [done|]. split; [done|]. split; [done|]. split.
    + cbn [mbind list_bind]. unfold data_post. by rewrite expand_data, app_nil_r.
    + by exists [], (data_post s (read_bytes (s_data p) (s_data_len p) (e_mem e)) (send_complete_fn st)).
Qed.

Lemma typed_spec s e own L ready p ty lo hi t P : send_ok p →
  typed_data (types0 s) (ty_type ty) (ty_offset ty) (s_data p) (s_data_len p) lo hi t P →
  outside_library lo hi → ty_data_fn ty = 0 → payload_bytes `mod` GetAtomSize t = 0 →
  client_block (s_header p) (s_header_len p) → s_data_len p ≤ 2 * payload_bytes →
  endpoint_ok s e own L → can_allocate max_segments (e_pool e) →
  let m := message_of (goes_short p) p (typed_bytes P (s_data p) (ty_offset ty) (s_data_len p) (e_mem e)) e in
  ∃ e' effs own', typed_impl p ty e = Ok (e', effs, PAMI_SUCCESS) ∧ endpoint_ok s e' own' L ∧
    e_log e' = e_log e ∧ e_calls e' = e_calls e ∧ call_done s ready (s_dest p) [m] own own' effs.
Proof.
  intros Hp Htd Hout Hfn Hatom Hblk H2 He Hcan m. destruct (sizes_of p Hp) as [Hh Hd]. unfold typed_impl.
  apply send_impl_spec; [done|by apply typed_bytes_length; lia|done|done|].
  intros st a e1 own1 He1 Hl1 Hl2. split.
  - intros Hg Hmax.
    destruct (packed_typed_spec s e1 own1 L st p ty lo hi t P (s_dest p)
      (Message (message_of (goes_short p) p (typed_bytes P (s_data p) (ty_offset ty) (s_data_len p) (e_mem e)) e)))
      as (e'&q&Hrun&He'&Hl&Hk&Hpd); try done.
    { apply lookup_insert_eq. }
    exists e', q. rewrite Hg. done.
  - intros Hg Hpos. pose proof (ok_data Hok).
    apply (send_data_typed_spec s e1 own1 L st p ty lo hi (s_data_len p) t P m); try done; first [apply lookup_insert_eq | lia].
Qed.

Lemma immediate_spec s e own L ready p : isPeer (s_dest p) = true → sizes_ok p → fits_short p = true →
  s_data_len p + s_header_len p ≤ packet_model_immediate_bytes T_Model →
  client_block (s_header p) (s_header_len p) → client_block (s_data p) (s_data_len p) →
  ready (s_dest p) = true ∨ QUEUE_IMMEDIATE_DISABLE T_Option = false →
  endpoint_ok s e own L → can_allocate max_segments (e_pool e) →
  let m := mkMessage true (read_bytes (s_header p) (s_header_len p) (e_mem e))
         (read_bytes (s_data p) (s_data_len p) (e_mem e)) 0 0 0 in
  ∃ e' effs own', immediate_impl ready p e = Ok (e', effs, PAMI_SUCCESS) ∧ endpoint_ok s e' own' L ∧
    e_log e' = e_log e ∧ e_calls e' = e_calls e ∧ call_done s ready (s_dest p) [m] own own' effs.
Proof.
  intros Hpeer [Hh Hd] Hfit Himm Hbh Hbd Hq He Hcan m. pose proof (ok_data Hok). pose proof payload_small.
  apply Z.leb_le in Hfit.
  assert (Hmh : len (m_header m) = s_header_len p) by (apply read_bytes_len; lia).
  assert (Hmd : len (m_data m) = s_data_len p) by (apply read_bytes_len; lia).
  assert (Hm : message_ok m) by (unfold message_ok; rewrite Hmh, Hmd; split; [lia|]; split; [lia|]; split; [intros _; lia|done]).
  unfold immediate_impl. rewrite w64_small, (proj2 (Z.ltb_ge _ _) Himm), andb_false_r, Hpeer by lia.
  cbn [negb]. unfold send_packed_immediate. destruct (ready (s_dest p)) eqn:Hr.
  - eexists e, _, own. split; [reflexivity|]. split; [done|]. split; [done|]. split; [done|].
    split; [done|]. apply emits_now; [done| |done]. cbn [wire]. f_equal.
    change (read_bytes (s_header p) (s_header_len p) (e_mem e) ++ read_bytes (s_data p) (s_data_len p) (e_mem e))
      with (m_header m ++ m_data m).
    rewrite short_limit in Hfit. unfold packed_meta, packed_packet, single_packet, w16.
    rewrite Hmh, Hmd, (eo_id _ _ _ _ He), !Z.mod_small by (destruct packed_in_header; lia).
    destruct packed_in_header eqn:Hp; rewrite fits_true, fits_None, take_ge; try done; subst m; cbn in *;
      rewrite ?length_app; unfold len in *; try lia.
    unfold packed_in_header, sizeof_packed_metadata in Hp. lia.
  - destruct Hq as [|Hq]; [done|]. rewrite Hq.
    destruct (endpoint_alloc Hok s e own L He Hcan) as (st&a&Ha&Hf&Hl1&Hl2&Hal).
    rewrite Ha. set (e1 := set_state st (S_origin (mkOrigin None 0 0 0 (s_dest p) 0 0 0)) (set_pool a e)).
    assert (He1 : endpoint_ok s e1 (<[st := Sending (s_dest p) (Message m)]> own) L) by by apply Hal.
    destruct (queue_immediate_spec s e1 (<[st := Sending (s_dest p) (Message m)]> own) L st p (s_dest p) (Message m)) with (m := m)
      as (e'&q&Hrun&He'&Hl&Hk&Hpd); try done.
    { apply lookup_insert_eq. }
    rewrite Hrun, Ok_bind. eexists e', _, _. split; [reflexivity|]. split; [done|]. split; [done|]. split; [done|].
    split; [done|]. by apply (emits_posted s ready (s_dest p) (Message m) own st [q]).
Qed.

Lemma refused_spec s e own L ready c d : refused c → endpoint_ok s e own L →
  ∃ e' effs own' r, run_call ready c e = Ok (e', effs, r) ∧ endpoint_ok s e' own' L ∧
    e_log e' = e_log e ∧ e_calls e' = e_calls e ∧ call_done s ready d [] own own' effs.
Proof.
  intros Hr He. pose proof (ok_data Hok).
  assert (Hsend : ∀ p packed data, refused (Simple p) → send_impl packed data p e = Ok (e, [], PAMI_INVAL)).
  { intros p packed data [Hsz Hwhy]. unfold send_impl. rewrite (total_bytes p Hsz). fold (fits_short p).
    fold (goes_short p). destruct Hwhy as [->|[-> [[-> ->]|(Hg&->&Hl)]]]; [done|by destruct (isPeer (s_dest p))|].
    destruct (isPeer (s_dest p)); [|done]. cbn [negb]. rewrite Hg, (proj2 (Z.ltb_lt _ _) Hl).
    by destruct (RECV_IMMEDIATE_FORCEON T_Option), (fits_short p). }
  exists e, [], own, PAMI_INVAL. split; [|done]. destruct c as [p|p ty|p]; cbn.
  - by apply Hsend.
  - by apply Hsend.
  - destruct Hr as [[Hh Hd] Hwhy]. unfold immediate_impl. rewrite w64_small by lia.
    destruct Hwhy as [->|[-> Hl]]; [by destruct (_ && _)|]. by rewrite (proj2 (Z.ltb_lt _ _) Hl).
Qed.

(** Every call returns; it hands the message to the device. *)
Lemma call_spec s e own L ready c d ms : issues s ready e c d ms → endpoint_ok s e own L →
  can_allocate max_segments (e_pool e) →
  ∃ e' effs own' r, run_call ready c e = Ok (e', effs, r) ∧ endpoint_ok s e' own' L ∧
    e_log e' = e_log e ∧ e_calls e' = e_calls e ∧ call_done s ready d ms own own' effs.
Proof.
  intros Hi He Hcan. destruct Hi as [c d Hr|p Hp|p ty lo hi t P Hp Htd Hout Hfn Ha Hb H2
    |p Hpeer Hsz Hfit Himm Hbh Hbd Hq|p Hpeer Hsz Himm Hr Hq].
  - by apply refused_spec.
  - destruct (simple_spec s e own L ready p Hp He Hcan) as (e'&effs&own'&Hrun&Hres). by exists e', effs, own', PAMI_SUCCESS.
  - destruct (typed_spec s e own L ready p ty lo hi t P Hp Htd Hout Hfn Ha Hb H2 He Hcan)
      as (e'&effs&own'&Hrun&Hres). by exists e', effs, own', PAMI_SUCCESS.
  - destruct (immediate_spec s e own L ready p Hpeer Hsz Hfit Himm Hbh Hbd Hq He Hcan)
      as (e'&effs&own'&Hrun&Hres). by exists e', effs, own', PAMI_SUCCESS.
  - exists e, [], own, PAMI_EAGAIN. split; [|done]. cbn. unfold immediate_impl. destruct Hsz as [Hh Hd].
    pose proof (ok_data Hok). rewrite w64_small, (proj2 (Z.ltb_ge _ _) Himm), andb_false_r, Hpeer by lia.
    cbn [negb]. unfold send_packed_immediate. by rewrite Hr, Hq.
Qed.
End send.
