(* ===== verification/EagerReceive.v ===== *)
(** The receiving half of the eager protocol: what each packet of a message does to the
    endpoint it arrives at, until all of the message is where the client wants it. *)
From S2P Require Import Prelude.
From S2P Require Import Layout.
From S2P Require Import Memory.
From S2P Require Import TypeCode.
From S2P Require Import TypeCodeSpec.
From S2P Require Import TypeMachine.
From S2P Require Import PamiType.
From S2P Require Import TypeMachineSpec.
From S2P Require Import TypeTransfer.
From S2P Require Import TypeMachineProps.
From S2P Require Import PamiTransfer.
From S2P Require Import MemoryAllocator.
From S2P Require Import EagerSimple.
From S2P Require Import EagerData.
From S2P Require Import EagerWire.
From S2P Require Import EagerEndpoint.
From S2P Require Import EagerSend.

(** * What the client saw *)

(** The calls of the dispatch function for messages from [o], and the completed receives. *)
Definition dispatches (o : Z) : list event → list event :=
  omap (λ ev, match ev with Dispatched _ o' _ _ _ _ => if o' =? o then Some ev else None | _ => None end).
Definition receipts (o : Z) : list event → list (Z * Z) :=
  omap (λ ev, match ev with Received o' fn ck => if o' =? o then Some (fn, ck) else None | _ => None end).
Definition local_dones (d : Z) : list event → list (Z * Z) :=
  omap (λ ev, match ev with Local_done d' fn ck => if d' =? d then Some (fn, ck) else None | _ => None end).
Definition remote_dones (d : Z) : list event → list (Z * Z) :=
  omap (λ ev, match ev with Remote_done d' fn ck => if d' =? d then Some (fn, ck) else None | _ => None end).

(** An event of the reception of a message from [o]. *)
Definition reception (o : Z) (ev : event) : Prop :=
  match ev with Dispatched _ o' _ _ _ _ => o' = o | Received o' _ _ => o' = o | _ => False end.

(** The callback that goes with a call of the dispatch function. *)
Definition callback_of (ev : event) : Z * Z :=
  match ev with
  | Dispatched _ _ _ _ _ (Some info) => (r_local_fn info, r_cookie info)
  | _ => (0, 0)
  end.

Section receive.
Context `{EagerParams} `{EagerSetup}.

Notation payload_bytes := (packet_model_payload_bytes T_Model).
Notation metadata_bytes := (packet_model_metadata_bytes T_Model).

(** The dispatch call [ev] is for [m], the [j]-th message from [o]: the client got its header, its
    length and its data, or else the bytes [l] of the data so far are where the client said. *)
Definition arrives (s : Z) (L : gmap nat landed) (o : Z) (j : nat) (m : message) (l : list Z) (ev : event) : Prop :=
  ∃ k data recv, ev = Dispatched k o (m_header m) data (len (m_data m)) recv ∧
    (data = None ∨ data = Some (m_data m)) ∧
    match recv with
    | None => data = Some (m_data m) ∨ m_data m = []
    | Some info => m_data m ≠ [] → ∃ la, L !! k = Some la ∧ la_slot la = (o, j) ∧ la_info la = info ∧
        landing s k data info (len (m_data m)) (la_at la) ∧ la_bytes la = l
    end.

(** The other messages' bytes. *)
Definition keeps_others (o : Z) (j : nat) (L L' : gmap nat landed) : Prop :=
  ∀ k la, L !! k = Some la → la_slot la ≠ (o, j) → L' !! k = Some la.

Lemma arrives_other s L L' o j o' j' m l ev : keeps_others o j L L' → (o', j') ≠ (o, j) →
  arrives s L o' j' m l ev → arrives s L' o' j' m l ev.
Proof.
  intros Hk Hne (k&data&recv&Hev&Hd&Hr). exists k, data, recv. split; [done|]. split; [done|].
  destruct recv as [info|]; [|done]. intros Hm. destruct (Hr Hm) as (la&HL&Hs&Hres).
  exists la. split; [|done]. apply Hk; [done|]. by rewrite Hs.
Qed.

(** The events of a reception, seen from elsewhere. *)
Lemma reception_dispatches o o' evs : o' ≠ o → Forall (reception o) evs → dispatches o' evs = [].
Proof.
  intros Hne. induction 1 as [|ev evs Hev _ IH]; [done|]. destruct ev; cbn in *; try done.
  - subst. rewrite (proj2 (Z.eqb_neq _ _)) by congruence. done.
Qed.
Lemma reception_receipts o o' evs : o' ≠ o → Forall (reception o) evs → receipts o' evs = [].
Proof.
  intros Hne. induction 1 as [|ev evs Hev _ IH]; [done|]. destruct ev; cbn in *; try done.
  - subst. rewrite (proj2 (Z.eqb_neq _ _)) by congruence. done.
Qed.
Lemma reception_local o d evs : Forall (reception o) evs → local_dones d evs = [].
Proof. by induction 1 as [|[] evs Hev _ IH]. Qed.
Lemma reception_remote o d evs : Forall (reception o) evs → remote_dones d evs = [].
Proof. by induction 1 as [|[] evs Hev _ IH]. Qed.

(** Only states that receive from [o] are taken or given back. *)
Definition of_origin (o : Z) (u : option use) : Prop := match u with Some (Receiving o' _) => o' = o | Some _ => False | None => True end.
Definition receives_only (o : Z) (own own' : gmap Z use) : Prop :=
  ∀ st, own' !! st = own !! st ∨ of_origin o (own !! st) ∧ of_origin o (own' !! st).

Lemma receives_only_insert o own st u : of_origin o (own !! st) → of_origin o (Some u) →
  receives_only o own (<[st := u]> own).
Proof.
  intros H1 H2 x. destruct (decide (x = st)) as [->|].
  - right. by rewrite lookup_insert_eq.
  - left. by rewrite lookup_insert_ne.
Qed.
Lemma receives_only_delete o own st : of_origin o (own !! st) → receives_only o own (delete st own).
Proof.
  intros H1 x. destruct (decide (x = st)) as [->|].
  - right. by rewrite lookup_delete_eq.
  - left. by rewrite lookup_delete_ne.
Qed.
Lemma receives_only_trans o own1 own2 own3 : receives_only o own1 own2 → receives_only o own2 own3 →
  receives_only o own1 own3.
Proof.
  intros H1 H2 x. destruct (H1 x) as [E1|[? ?]], (H2 x) as [E2|[? ?]].
  - left. congruence. - right. by rewrite <- E1. - right. by rewrite E2. - by right.
Qed.

Context (Hok : eager_ok).

(** ** The call of the dispatch function *)

Lemma effective_fn data info : r_local_fn (effective data info) = r_local_fn info ∧
  r_cookie (effective data info) = r_cookie info.
Proof. destruct data; [done|]. unfold effective. by destruct (T_Contiguous T_Option), (T_Copy T_Option). Qed.

Lemma landing_grown s k data info n f h : landing s k data info n f → grown (types0 s) h →
  lands h (effective data info) n (room s k).1 (room s k).2 (effective_flat data info) f.
Proof. intros Hl Hg. by eapply lands_grown. Qed.

(** The counters of a receive state. *)
Definition counts (t : target_t) : Z * Z * Z * Z * list Z :=
  (t_bytes_received t, t_bytes_total t, h_bytes_received t, h_bytes_total t, h_addr t).

Lemma process_envelope_spec s e header n o t : e_id e = s → grown (types0 s) (e_types e) → (e_calls e < max_calls)%nat →
  0 ≤ n ≤ max_data → t_is_contiguous_copy_recv t = false →
  let k := e_calls e in
  ∃ info f t' h, process_envelope header n o t e = Ok (t', set_types h (count_call (add_event
      (Dispatched k o header None n (Some info)) e))) ∧ grown (e_types e) h ∧
    landing s k None info n f ∧ t_info t' = effective None info ∧ counts t' = counts t ∧
    receiving h t' n (room s k).1 (room s k).2 0 f.
Proof.
  intros Hid Hty Hk Hn Hflat k. unfold process_envelope. rewrite Hid.
  set (i := mkRecv _ _ _ _ _ _ _). set (info := client s (e_calls e) header None n o i).
  destruct (ok_client Hok s k header None n o i) as (f&Hf); [done|done|done|]. fold k in info. fold info in Hf.
  pose proof (landing_grown _ _ _ _ _ _ _ Hf Hty) as Hl.
  set (e1 := count_call _).
  exists info, f. destruct (T_Contiguous T_Option && T_Copy T_Option) eqn:Hcc.
  { exists (with_info info t), (e_types e). split; [done|]. split; [apply grown_refl|]. split; [done|].
    assert (effective None info = info) as Hinfo.
    { unfold effective. by destruct (T_Contiguous T_Option), (T_Copy T_Option). }
    split; [done|]. split; [done|].
    apply receiving_contiguous; [by unfold copies_flat; rewrite Hcc|].
    unfold effective_flat in Hl. rewrite Hcc in Hl. cbn [orb] in Hl. by rewrite Hinfo in Hl. }
  change (if T_Contiguous T_Option then _ else _) with
    (if T_Contiguous T_Option then
      mkRecv (r_cookie info) (r_local_fn info) (r_addr info) PAMI_TYPE_BYTE 0 (r_data_fn info) (r_data_cookie info)
    else if T_Copy T_Option then
      mkRecv (r_cookie info) (r_local_fn info) (r_addr info) (r_type info) (r_offset info) 0 0
    else info).
  assert (Heff : (if T_Contiguous T_Option then
      mkRecv (r_cookie info) (r_local_fn info) (r_addr info) PAMI_TYPE_BYTE 0 (r_data_fn info) (r_data_cookie info)
    else if T_Copy T_Option then
      mkRecv (r_cookie info) (r_local_fn info) (r_addr info) (r_type info) (r_offset info) 0 0
    else info) = effective None info).
  { unfold effective. by destruct (T_Contiguous T_Option), (T_Copy T_Option). }
  rewrite Heff. set (eff := effective None info) in *.
  unfold effective_flat in Hl. rewrite Hcc in Hl. cbn [orb] in Hl. fold eff in Hl.
  assert (Hcomplete : incomplete_type (r_type eff) e1 = Ok false).
  { destruct (ERROR_CHECKS T_Option) eqn:Hec; [|unfold incomplete_type; by rewrite Hec].
    assert (∃ ty, e_types e !! r_type eff = Some ty ∧ IsCompleted ty = true) as (ty&?&?); [|by eapply complete_type].
    destruct (is_contiguous_copy eff) eqn:Hc.
    - apply andb_prop in Hc as [Hb%Z.eqb_eq _]. rewrite Hb. destruct (ok_byte Hok s Hec) as (ty&Hbt&Hcm).
      destruct (Hty _ _ Hbt) as (ty'&Hbt'&Hs&_). exists ty'. split; [done|].
      rewrite <- Hcm. unfold IsCompleted. by destruct Hs as (_&_&->).
    - inversion Hl as [|u P Hfn Htd Hinj]. destruct (td_type _ _ _ _ _ _ _ _ _ Htd) as [Hu Hd _ _ _].
      exists u. split; [done|]. by apply (td_completed _ _ Hd). }
  rewrite Hcomplete, Ok_bind. destruct (is_contiguous_copy eff) eqn:Hc.
  - eexists _, (e_types e). split; [reflexivity|]. split; [apply grown_refl|]. split; [done|].
    split; [done|]. split; [done|]. apply receiving_contiguous; [|done].
    unfold copies_flat. cbn. apply orb_true_r.
  - inversion Hl as [|u P Hfn Htd Hinj Hflag Hfe]. rewrite Hfn.
    destruct (open_machine_spec e1 (r_type eff) (r_offset eff) (r_data_cookie eff) (r_addr eff) n
      (room s k).1 (room s k).2 u P) as (mc&Hrun&Hma&Hcp&_); [|done|].
    { eapply contig_max_grown; [by apply (ok_contig_max Hok)|exact Hty]. }
    rewrite Hrun, Ok_bind. cbn [e_types e1 count_call add_event] in *.
    destruct (td_type _ _ _ _ _ _ _ _ _ Htd) as [Hu _ _ _ _].
    pose proof (grown_acquire _ _ _ Hu) as Hg.
    eexists _, _. split; [reflexivity|]. split; [done|]. split; [by rewrite Hfe|].
    split; [done|]. split; [done|].
    destruct (typed_data_grown _ _ _ _ _ _ _ _ _ _ Htd Hg) as (u'&Htd'&Hsame).
    eapply receiving_typed; [|reflexivity|exact Htd'|..|done].
    + unfold copies_flat. cbn. by rewrite Hcc.
    + eapply lands_grown; [|exact Hg]. rewrite <- Hfe in Hl. exact Hl.
    + cbn. rewrite Z.add_0_r. by rewrite (run_prog_same _ _ _ Hsame).
Qed.

(** ** A packet comes in *)

Definition incoming (p : packet) (e : endpoint) : endpoint :=
  set_mem (write_bytes payload_at (p_payload p) (e_mem e)) e.

Lemma endpoint_incoming s e own L p : endpoint_ok s e own L → len (p_payload p) ≤ payload_bytes →
  endpoint_ok s (incoming p e) own L.
Proof.
  intros He Hp. apply (endpoint_library Hok); [done|]. intros x Hx. apply write_bytes_out.
  destruct (ok_payload_at Hok). unfold len in *. lia.
Qed.

Lemma incoming_bytes p e i : 0 ≤ i < len (p_payload p) → e_mem (incoming p e) (payload_at + i) = nth (Z.to_nat i) (p_payload p) 0.
Proof. apply write_bytes_in. Qed.

(** The result of a step: [own], the ledger and the log of the endpoint after it. *)
Record stepped (s o : Z) (j : nat) (e : endpoint) (own : gmap Z use) (L : gmap nat landed)
    (e' : endpoint) (own' : gmap Z use) (L' : gmap nat landed) (evs : list event) : Prop := {
  st_ok : endpoint_ok s e' own' L';
  st_log : e_log e' = e_log e ++ evs;
  st_events : Forall (reception o) evs;
  st_others : keeps_others o j L L';
  st_own : receives_only o own own';
  st_calls : (e_calls e' ≤ S (e_calls e))%nat
}.

(** Moving the payload to where the client wants it. *)
Lemma landing_puts s k data info n f c l from m m' : (k < max_calls)%nat → landing s k data info n f →
  0 ≤ c → c + len l ≤ n →
  (∀ i, 0 ≤ i < len l → m (from + i) = nth (Z.to_nat i) l 0) → moved f from c (len l) m m' →
  puts s k f n c l m m'.
Proof.
  intros Hk Hl Hc Hn Hfrom [Hin Hout]. split; [done|].
  split; [intros i Hi; by eapply lands_within|].
  split; [intros i j Hi Hj; by eapply lands_injective|].
  split; [intros j Hj Hne; by apply (ok_rooms Hok)|].
  split; [|done]. intros i Hi. rewrite Hin by done. by apply Hfrom.
Qed.

Lemma payload_apart s k c d : (k < max_calls)%nat → 0 ≤ c → 0 ≤ d → c + d ≤ payload_bytes →
  apart (payload_at + c) d (room s k).1 (room s k).2.
Proof.
  intros Hk Hc Hd Hcd. destruct (ok_payload_at Hok), (ok_library Hok).
  destruct (ok_room Hok s k Hk); split; lia.
Qed.

Lemma unused_receive s e own L st o n c : endpoint_ok s e own L → own !! st ≠ Some (Receiving o (In_data (e_calls e) n c)).
Proof.
  intros He Hst. destruct (eo_states _ _ _ _ He _ _ Hst) as ([|t]&_&Hu); [done|].
  destruct Hu as (_&_&la&Hla&_). by rewrite (endpoint_unused _ _ _ _ He) in Hla.
Qed.

Lemma keeps_insert o j L k la : L !! k = None → keeps_others o j L (<[k := la]> L).
Proof. intros HLk k' la' Hk' _. rewrite lookup_insert_ne; [done|]. intros <-. congruence. Qed.

Lemma keeps_update o j L k la la' : L !! k = Some la → la_slot la = (o, j) → keeps_others o j L (<[k := la']> L).
Proof. intros HLk Hs k' la1 Hk' Hne. rewrite lookup_insert_ne; [done|]. intros <-. congruence. Qed.

(** Parts of a packet. *)
Lemma take_len (l1 l2 : list Z) : take (Z.to_nat (len l1)) (l1 ++ l2) = l1.
Proof. unfold len. rewrite Nat2Z.id. apply take_app_length. Qed.
Lemma drop_len (l1 l2 : list Z) : drop (Z.to_nat (len l1)) (l1 ++ l2) = l2.
Proof. unfold len. rewrite Nat2Z.id. apply drop_app_length. Qed.
Lemma take_all_len (l : list Z) : take (Z.to_nat (len l)) l = l.
Proof. unfold len. rewrite Nat2Z.id. apply firstn_all. Qed.

(** ** Short messages *)

(** The copy of the data of a packed message to where the client wants them. *)
Lemma packed_copy s e own L o k info n f from : endpoint_ok s e own L → (k < max_calls)%nat →
  ∀ data, landing s k (Some data) info n f → 0 < n → apart from n (room s k).1 (room s k).2 →
  ∃ m', (if is_contiguous_copy info then
      s ← memcpy (r_addr info) from n (e_mem e);
      mret (received o info (set_mem s e), [])
    else
      incomplete ← incomplete_type (r_type info) e;
      if (incomplete : bool) then mret (refuse_recv info e, []) else
      '(e, machine) ← open_machine (r_type info) (r_offset info) (r_data_fn info) (r_data_cookie info) e;
      '(machine, s) ← Unpack big_endian floats user_fn fuel (e_types e) machine (r_addr info) from n (e_mem e);
      h ← TypeMachine_delete (e_types e) machine;
      mret (received o info (set_types h (set_mem s e)), [])) = Ok (received o info (set_mem m' e), @nil effect) ∧
    moved f from 0 n (e_mem e) m'.
Proof.
  intros He Hk data Hl Hn Hap. pose proof (landing_grown _ _ _ _ _ _ _ Hl (eo_types _ _ _ _ He)) as Hl'.
  cbn [effective effective_flat] in Hl'. destruct Hap as (Hp1&Hp2&Hp3).
  destruct (is_contiguous_copy info).
  - inversion Hl' as [Hin Hf|]. destruct (Hin Hn) as [? ?].
    destruct (memcpy_moved (r_addr info) from 0 n (e_mem e)) as (m'&Hrun&Hmv); [lia..| |].
    { split; [lia|]. split; lia. }
    rewrite Z.add_0_r, w64_small in Hrun by lia. rewrite Hrun. by exists m'.
  - inversion Hl' as [|t P Hfn Htd Hinj Hflag Hf]. rewrite Hfn, (complete_type e (r_type info) t), Ok_bind;
      [|apply (td_type _ _ _ _ _ _ _ _ _ Htd)|eapply td_completed, ct_denotes, (td_type _ _ _ _ _ _ _ _ _ Htd)].
    destruct (open_machine_spec e (r_type info) (r_offset info) (r_data_cookie info) (r_addr info) n
      (room s k).1 (room s k).2 t P) as (mc&Hrun&Hma&Hcp&Hty); [|done|].
    { eapply contig_max_grown; [by apply (ok_contig_max Hok)|by apply (eo_types _ _ _ _ He)]. }
    rewrite Hrun, Ok_bind. rewrite <- (Z.add_0_r (r_offset info)) in Hma.
    destruct (unpack_part _ _ _ _ _ _ _ _ _ _ mc 0 n Htd Hma Hcp ltac:(lia) ltac:(lia) ltac:(lia) from (e_mem e) Hinj)
      as (mc'&m'&Hrun'&_&_&Hty'&Hin&Hout); [lia|lia|lia|].
    cbn [e_mem e_types set_types]. rewrite Hrun', Ok_bind. cbn [e_types set_mem set_types].
    destruct (td_type _ _ _ _ _ _ _ _ _ Htd) as [Hu _ _ Hr _].
    rewrite (delete_machine (e_types e) (r_type info) t mc' Hu Hr ltac:(congruence)), Ok_bind.
    exists m'. split; [done|]. by split.
Qed.

(** The log after some events. *)
#[local] Ltac log_eq := cbn; rewrite <- ?(assoc_L (++)); reflexivity.

Definition packed_bytes_ok (m : message) : Prop := len (m_header m) + len (m_data m) ≤ payload_bytes.

Lemma packed_limit m : message_ok m → m_packed m = true → packed_bytes_ok m.
Proof.
  intros (_&_&Hp&_) Hm. specialize (Hp Hm). rewrite (short_limit Hok) in Hp. unfold packed_bytes_ok.
  destruct packed_in_header; lia.
Qed.

Lemma packed_fields o m : p_payload (packed_packet o m) = m_header m ++ m_data m ∧
  (if metadata_bytes <? sizeof_packed_metadata then p_struct (packed_packet o m) else p_metadata (packed_packet o m)) =
    Some (packed_metadata (len (m_data m)) (len (m_header m)) o).
Proof.
  unfold packed_packet, packed_in_header. rewrite Z.leb_antisym.
  by destruct (metadata_bytes <? sizeof_packed_metadata).
Qed.

Lemma packed_step s e own L o j m : endpoint_ok s e own L → (e_calls e < max_calls)%nat →
  message_ok m → packed_bytes_ok m →
  ∃ e' L' ev, dispatch_packed (packed_packet o m) (incoming (packed_packet o m) e) = Ok (e', []) ∧
    stepped s o j e own L e' own L' [ev; Received o (callback_of ev).1 (callback_of ev).2] ∧
    dispatches o [ev] = [ev] ∧ receipts o [ev] = [] ∧ arrives s L' o j m (m_data m) ev.
Proof.
  intros He Hk (Hmax&_) Hfit. set (p := packed_packet o m). destruct (packed_fields o m) as [Hpay Hmeta].
  fold p in Hpay, Hmeta. pose proof Hfit as Hfit'. unfold packed_bytes_ok in Hfit.
  pose proof (endpoint_incoming s e own L p He) as Hin. rewrite Hpay, len_app in Hin. specialize (Hin Hfit).
  unfold dispatch_packed. rewrite Hmeta, Hpay, take_len, drop_len, take_all_len.
  rewrite (proj2 (Z.leb_le _ _)) by (unfold len; rewrite length_app; lia). cbn [defined]. rewrite Ok_bind.
  change (e_calls (incoming p e)) with (e_calls e).
  change (e_id (incoming p e)) with (e_id e). rewrite (eo_id _ _ _ _ He). set (k := e_calls e) in *.
  destruct (RECV_IMMEDIATE_FORCEOFF T_Option) eqn:Hoff.
  - set (info := client s k (m_header m) (Some (m_data m)) (len (m_data m)) o no_recv).
    set (ev := Dispatched k o (m_header m) (Some (m_data m)) (len (m_data m)) (Some info)).
    destruct (ok_client Hok s k (m_header m) (Some (m_data m)) (len (m_data m)) o no_recv) as (f&Hf);
      [done|unfold len in *; lia|done|]. fold info in Hf.
    set (e1 := count_call (add_event ev (incoming p e))).
    assert (He1 : endpoint_ok s e1 own L) by (apply endpoint_call; [by apply endpoint_event|done]).
    destruct (Z.ltb_spec 0 (len (m_data m))) as [Hpos|Hzero].
    + destruct (packed_copy s e1 own L o k info (len (m_data m)) f (payload_at + len (m_header m)) He1 Hk (m_data m) Hf Hpos)
        as (m'&Hrun&Hmv). { apply payload_apart; unfold len in *; lia || done. }
      rewrite Hrun.
      pose proof (endpoint_unused _ _ _ _ He) as HLk. fold k in HLk.
      set (la := mkLanded (o, j) info f []).
      assert (He2 : endpoint_ok s e1 own (<[k := la]> L)).
      { apply endpoint_expect; [done|done|cbn; lia|done]. }
      pose proof (endpoint_put s e1 own (<[k := la]> L) k (len (m_data m)) la (m_data m) m' He2) as Hput.
      rewrite lookup_insert_eq, insert_insert_eq in Hput.
      eexists _, (<[k := mkLanded (o, j) info f (m_data m)]> L), ev. split; [reflexivity|]. split; [|split; [|split; [done|]]].
      * split; [|log_eq| | | |done].
        -- apply endpoint_event. apply Hput; [done|done|..].
           ++ intros st o' n c. by apply (unused_receive s e own L).
           ++ eapply landing_puts; [done|done|lia|lia| |done].
              intros i Hi. cbn [e_mem e1 count_call add_event]. rewrite <- Z.add_assoc.
              rewrite incoming_bytes; rewrite Hpay; [|rewrite len_app; unfold len in *; lia].
              rewrite app_nth2 by (unfold len in *; lia). f_equal. unfold len in *. lia.
        -- repeat constructor.
        -- by apply keeps_insert.
        -- intros st. by left.
      * cbn. by rewrite Z.eqb_refl.
      * exists k, (Some (m_data m)), (Some info). split; [done|]. split; [by right|]. intros _.
        eexists. split; [apply lookup_insert_eq|done].
    + assert (m_data m = []) as Hnil by (apply length_zero_iff_nil; unfold len in Hzero; lia).
      exists (received o info e1), L, ev. split; [done|]. split; [|split; [|split; [done|]]].
      * split; [by apply endpoint_event|log_eq|by repeat constructor|by intros ?|intros st; by left|done].
      * cbn. by rewrite Z.eqb_refl.
      * exists k, (Some (m_data m)), (Some info). split; [done|]. split; [by right|]. done.
  - set (ev := Dispatched k o (m_header m) (Some (m_data m)) (len (m_data m)) None).
    eexists _, L, ev. split; [reflexivity|]. split; [|split; [|split; [done|]]].
    + split; [|log_eq|by repeat constructor|by intros ?|intros st; by left|done].
      apply endpoint_event, endpoint_call; [by apply endpoint_event|done].
    + cbn. by rewrite Z.eqb_refl.
    + exists k, (Some (m_data m)), None. split; [done|]. split; [by right|by left].
Qed.

(** ** Envelopes *)

Definition call_of (ev : event) : nat := match ev with Dispatched k _ _ _ _ _ => k | _ => 0%nat end.
(** The client was asked where to. *)
Definition asked (ev : event) : Prop := match ev with Dispatched _ _ _ _ _ (Some _) => True | _ => False end.

(** The endpoint after [process_envelope], and the record of the message. *)
Lemma endpoint_called s e own L ev h k info f o j m : endpoint_ok s e own L → (e_calls e < max_calls)%nat →
  grown (e_types e) h → k = e_calls e → landing s k None info (len (m_data m)) f →
  ev = Dispatched k o (m_header m) None (len (m_data m)) (Some info) →
  let e' := set_types h (count_call (add_event ev e)) in
  let L' := <[k := mkLanded (o, j) info f []]> L in
  endpoint_ok s e' own L' ∧ keeps_others o j L L' ∧ arrives s L' o j m [] ev ∧ call_of ev = k.
Proof.
  intros He Hk Hg -> Hf -> e' L'. pose proof (endpoint_unused _ _ _ _ He) as Hu.
  split; [|split; [by apply keeps_insert|split; [|done]]].
  - apply endpoint_expect; [|done|cbn; lia|done].
    apply endpoint_types; [|done]. apply endpoint_call; [by apply endpoint_event|done].
  - exists (e_calls e), None, (Some info). split; [done|]. split; [by left|]. intros _.
    eexists. split; [apply lookup_insert_eq|done].
Qed.

Lemma envelope_fields o m : p_payload (envelope_packet o m) = m_header m ∧
  (if metadata_bytes <? sizeof_shortheader_metadata then p_struct (envelope_packet o m) else p_metadata (envelope_packet o m)) =
    Some (shortheader_metadata (len (m_data m)) (len (m_header m)) o).
Proof.
  unfold envelope_packet, short_in_header. rewrite Z.leb_antisym.
  by destruct (metadata_bytes <? sizeof_shortheader_metadata).
Qed.

Lemma allocate_object e st a : allocateObject object_size 4 (memalign (e_id e)) (e_pool e) = (st, a) →
  allocateState e = (st, set_pool a e).
Proof. intros Ha. unfold allocateState. by rewrite Ha. Qed.

(** What is known once the client was called for a message whose data are to come. *)
Definition begun (s o : Z) (j : nat) (m : message) (own' : gmap Z use) (L' : gmap nat landed) (ev : event) : Prop :=
  dispatches o [ev] = [ev] ∧ receipts o [ev] = [] ∧ arrives s L' o j m [] ev ∧ asked ev ∧
  ∃ st, own' !! st = Some (Receiving o (In_data (call_of ev) (len (m_data m)) 0)).

(** ... and when it has none. *)
Definition ended (s o : Z) (j : nat) (m : message) (own' : gmap Z use) (L' : gmap nat landed) (ev : event) : Prop :=
  dispatches o [ev] = [ev] ∧ receipts o [ev] = [] ∧ arrives s L' o j m [] ev ∧ idle own' o.

Lemma envelope_step s e own L o j m : endpoint_ok s e own L → can_allocate max_segments (e_pool e) →
  (e_calls e < max_calls)%nat → idle own o → message_ok m → len (m_header m) ≤ payload_bytes →
  ∃ e' own' L' ev, dispatch_envelope_packed (envelope_packet o m) (incoming (envelope_packet o m) e) = Ok (e', []) ∧
    (if len (m_data m) =? 0 then
      stepped s o j e own L e' own' L' [ev; Received o (callback_of ev).1 (callback_of ev).2] ∧ ended s o j m own' L' ev
    else stepped s o j e own L e' own' L' [ev] ∧ begun s o j m own' L' ev).
Proof.
  intros He Hcan Hk Hidle (Hmax&_) Hfit. set (p := envelope_packet o m).
  destruct (envelope_fields o m) as [Hpay Hmeta]. fold p in Hpay, Hmeta.
  pose proof (endpoint_incoming s e own L p He) as Hin. rewrite Hpay in Hin. specialize (Hin Hfit).
  unfold dispatch_envelope_packed. rewrite Hmeta, Hpay, take_all_len, (proj2 (Z.leb_le _ _)) by done.
  cbn [defined]. rewrite Ok_bind.
  destruct (allocateObject object_size 4 (memalign s) (e_pool e)) as [st a] eqn:Ha.
  rewrite (allocate_object (incoming p e) st a) by (cbn; by rewrite (eo_id _ _ _ _ He)).
  destruct (process_envelope_spec s (set_pool a (incoming p e)) (m_header m) (len (m_data m)) o
    (blank_target (null_local_fn (junk st)))) as (info&f&t&h&Hrun&Hg&Hf&Hinfo&Hcnt&Hrcv);
    [by apply (eo_id _ _ _ _ He)|by apply (eo_types _ _ _ _ He)|done|unfold len in *; lia|done|].
  rewrite Hrun, Ok_bind. cbn [e_calls set_pool incoming set_mem] in *. set (k := e_calls e) in *.
  set (ev := Dispatched k o (m_header m) None (len (m_data m)) (Some info)) in *.
  destruct (endpoint_called s (incoming p e) own L ev h k info f o j m) as (He2&Hkeep&Harr&Hcall); try done.
  set (e2 := set_types h (count_call (add_event ev (incoming p e)))) in *.
  set (L' := <[k := mkLanded (o, j) info f []]> L) in *.
  assert (Hd : dispatches o [ev] = [ev]) by (cbn; by rewrite Z.eqb_refl).
  destruct (effective_fn None info) as [Hfn Hck].
  destruct (Z.eqb_spec (len (m_data m)) 0) as [Hz|Hnz].
  - eexists _, own, L', ev. split; [reflexivity|]. split; [|done]. split.
    + apply (endpoint_spare Hok s (received o (t_info t) e2) own L' st a (S_target t)); [by apply endpoint_event|done|done].
    + cbn. rewrite Hinfo, Hfn, Hck. log_eq.
    + by repeat constructor.
    + done.
    + intros x. by left.
    + done.
  - set (t1 := with_header _ _ _ _).
    destruct (endpoint_alloc_target Hok s e2 own L' o st a He2 Hcan Hidle Ha) as [Hfresh Hal].
    eexists _, (<[st := Receiving o (In_data k (len (m_data m)) 0)]> own), L', ev. split; [reflexivity|]. split.
    + split; [|log_eq|by repeat constructor|done| |done].
      * apply (Hal _ t1). split; [done|]. split; [done|]. eexists. split; [apply lookup_insert_eq|].
        split; [done|]. split; [done|]. split; [done|]. by apply receiving_header, receiving_counts.
      * apply receives_only_insert; [by rewrite Hfresh|done].
    + split; [done|]. split; [done|]. split; [done|]. split; [done|]. exists st. apply lookup_insert_eq.
Qed.

Lemma longheader_step s e own L o j m : endpoint_ok s e own L → can_allocate max_segments (e_pool e) →
  idle own o → 
  ∃ e' own' st, dispatch_envelope_metadata (longheader_packet o m) (incoming (longheader_packet o m) e) = Ok (e', []) ∧
    stepped s o j e own L e' own' L [] ∧
    own' !! st = Some (Receiving o (In_header (len (m_data m)) (len (m_header m)) [])).
Proof.
  intros He Hcan Hidle. set (p := longheader_packet o m).
  pose proof (endpoint_incoming s e own L p He) as Hin. pose proof (payload_small Hok).
  change (len (p_payload p)) with 0 in Hin. specialize (Hin ltac:(lia)).
  destruct (allocateObject object_size 4 (memalign s) (e_pool e)) as [st a] eqn:Ha.
  unfold dispatch_envelope_metadata. cbn [p_struct p longheader_packet].
  rewrite (allocate_object (incoming p e) st a) by (cbn; by rewrite (eo_id _ _ _ _ He)).
  destruct (endpoint_alloc_target Hok s (incoming p e) own L o st a Hin Hcan Hidle Ha) as [Hfresh Hal].
  eexists _, (<[st := Receiving o (In_header (len (m_data m)) (len (m_header m)) [])]> own), st.
  split; [reflexivity|]. split; [|apply lookup_insert_eq].
  split; [|cbn; by rewrite app_nil_r|done|by intros ?| |cbn; lia].
  - apply (Hal (In_header (len (m_data m)) (len (m_header m)) [])). done.
  - apply receives_only_insert; [by rewrite Hfresh|done].
Qed.

Lemma get_target_spec s e own L st o ph : endpoint_ok s e own L → own !! st = Some (Receiving o ph) →
  getConnection o e = Ok st ∧ ∃ t, get_target st e = Ok t ∧ receives s (e_types e) L o ph t.
Proof.
  intros He Hst. unfold getConnection. rewrite (eo_connection _ _ _ _ He _ _ _ Hst). split; [done|].
  destruct (eo_states _ _ _ _ He _ _ Hst) as ([|t]&Hv&Hu); [done|]. exists t. unfold get_target. by rewrite Hv.
Qed.

Lemma idle_delete s e own L st o ph : endpoint_ok s e own L → own !! st = Some (Receiving o ph) → idle (delete st own) o.
Proof.
  intros He Hst x ph' [Hne Hx]%lookup_delete_Some. pose proof (eo_connection _ _ _ _ He _ _ _ Hst).
  pose proof (eo_connection _ _ _ _ He _ _ _ Hx). congruence.
Qed.

Lemma header_step s e own L o j m st got l : endpoint_ok s e own L → (e_calls e < max_calls)%nat →
  message_ok m → len l ≤ payload_bytes →
  own !! st = Some (Receiving o (In_header (len (m_data m)) (len (m_header m)) got)) →
  ∀ rest, m_header m = got ++ l ++ rest →
  ∃ e' own' L', dispatch_envelope_header (header_packet o l) (incoming (header_packet o l) e) = Ok (e', []) ∧
   match rest with
   | [] => ∃ ev, if len (m_data m) =? 0 then
        stepped s o j e own L e' own' L' [ev; Received o (callback_of ev).1 (callback_of ev).2] ∧ ended s o j m own' L' ev
      else stepped s o j e own L e' own' L' [ev] ∧ begun s o j m own' L' ev
   | _ => stepped s o j e own L e' own' L' [] ∧
      own' !! st = Some (Receiving o (In_header (len (m_data m)) (len (m_header m)) (got ++ l)))
   end.
Proof.
  intros He Hk (Hmax&Hhdr&_) Hfit Hst rest Hh. set (p := header_packet o l).
  pose proof (endpoint_incoming s e own L p He Hfit) as Hin.
  unfold dispatch_envelope_header. cbn [p_metadata p header_packet]. fold p.
  destruct (get_target_spec s (incoming p e) own L st o _ Hin Hst) as (Hc&t&Ht&Hr&Htot&Hhr&Hht&Hha&Hflat).
  rewrite Hc, Ok_bind, Ht, Ok_bind.
  assert (Hlen : len (m_header m) = len got + len l + len rest) by (rewrite Hh, !len_app; lia).
  assert (Hmin : Z.min (packet_bytes p) (w64 (h_bytes_total t - h_bytes_received t)) = len l).
  { change (packet_bytes p) with (0 + len l). rewrite Hhr, Hht, w64_small; unfold len in *; lia. }
  rewrite Hmin, Hhr, Hha, Hht, take_all_len. cbn [p_payload p header_packet]. rewrite take_all_len.
  set (t1 := with_header _ _ _ _). cbn [h_bytes_total h_bytes_received with_header t1].
  set (e1 := set_state st (S_target t1) (incoming p e)).
  assert (He1 : endpoint_ok s e1 (<[st := Receiving o (In_header (len (m_data m)) (len (m_header m)) (got ++ l))]> own) L).
  { eapply endpoint_update; [done|done|]. cbn. by rewrite len_app. }
  assert (Hro : receives_only o own (<[st := Receiving o (In_header (len (m_data m)) (len (m_header m)) (got ++ l))]> own)).
  { apply receives_only_insert; [by rewrite Hst|done]. }
  destruct rest as [|x rest].
  - assert (len (m_header m) = len got + len l) as -> by (change (len []) with 0 in Hlen; lia).
    rewrite Z.eqb_refl. rewrite app_nil_r in Hh. rewrite <- Hh. rewrite <- Hh in He1, Hro.
    cbn [t_bytes_total with_header t1]. rewrite Htot.
    set (own1 := <[st := _]> own) in *. assert (Hst1 : own1 !! st = Some (Receiving o (In_header (len (m_data m)) (len (m_header m)) (m_header m)))).
    { apply lookup_insert_eq. }
    destruct (Z.eqb_spec (len (m_data m)) 0) as [Hz|Hnz].
    + set (ev := Dispatched (e_calls e) o (m_header m) None 0 None).
      eexists _, (delete st own1), L. split; [reflexivity|]. exists ev. split; [split|].
      * apply (endpoint_disconnect s (freeState st (received o no_recv (count_call (add_event ev e1))))).
        -- eapply endpoint_free; [|done]. apply endpoint_event, endpoint_call; [by apply endpoint_event|done].
        -- eapply idle_delete; [exact He1|done].
      * log_eq.
      * by repeat constructor.
      * by intros ?.
      * eapply receives_only_trans; [done|]. apply receives_only_delete. by rewrite Hst1.
      * done.
      * split; [cbn; by rewrite Z.eqb_refl|]. split; [done|]. split.
        -- exists (e_calls e), None, None. rewrite Hz. split; [done|]. split; [by left|]. right.
           apply length_zero_iff_nil. unfold len in Hz. lia.
        -- eapply idle_delete; [exact He1|done].
    + destruct (process_envelope_spec s e1 (m_header m) (len (m_data m)) o t1)
        as (info&f&t2&h&Hrun&Hg&Hf&Hinfo&Hcnt&Hrcv);
        [by apply (eo_id _ _ _ _ He)|by apply (eo_types _ _ _ _ He)|done|unfold len in *; lia|done|].
      rewrite Hrun, Ok_bind. change (e_calls e1) with (e_calls e) in *. set (k := e_calls e) in *.
      set (ev := Dispatched k o (m_header m) None (len (m_data m)) (Some info)) in *.
      destruct (endpoint_called s e1 own1 L ev h k info f o j m) as (He2&Hkeep&Harr&Hcall); try done.
      set (L' := <[k := mkLanded (o, j) info f []]> L) in *.
      eexists _, (<[st := Receiving o (In_data k (len (m_data m)) 0)]> own1), L'. split; [reflexivity|].
      exists ev. split; [split|].
      * eapply endpoint_update; [exact He2|done|]. injection Hcnt as Hc1 Hc2 Hc3 Hc4 Hc5.
        split; [by rewrite Hc1|]. split; [by rewrite Hc2|].
        eexists. split; [apply lookup_insert_eq|]. by repeat split.
      * log_eq.
      * by repeat constructor.
      * done.
      * eapply receives_only_trans; [done|]. apply receives_only_insert; [by rewrite Hst1|done].
      * done.
      * split; [cbn; by rewrite Z.eqb_refl|]. split; [done|]. split; [done|]. split; [done|]. exists st. apply lookup_insert_eq.
  - rewrite (proj2 (Z.eqb_neq _ _)) by (unfold len in *; cbn in *; lia).
    eexists _, _, L. split; [reflexivity|]. split; [|apply lookup_insert_eq].
    split; [done|cbn; by rewrite app_nil_r|done|by intros ?|done|cbn; lia].
Qed.

(** ** Data *)

Lemma data_step s e own L o j m st ev got l : endpoint_ok s e own L → message_ok m → l ≠ [] → len l ≤ payload_bytes →
  own !! st = Some (Receiving o (In_data (call_of ev) (len (m_data m)) (len got))) →
  arrives s L o j m got ev → asked ev →
  ∀ rest, m_data m = got ++ l ++ rest →
  ∃ e' own' L', dispatch_data (data_packet o l) (incoming (data_packet o l) e) = Ok (e', []) ∧
    arrives s L' o j m (got ++ l) ev ∧
    match rest with
    | [] => stepped s o j e own L e' own' L' [Received o (callback_of ev).1 (callback_of ev).2] ∧ idle own' o
    | _ => stepped s o j e own L e' own' L' [] ∧
        own' !! st = Some (Receiving o (In_data (call_of ev) (len (m_data m)) (len (got ++ l))))
    end.
Proof.
  intros He (Hmax&_) Hne Hfit Hst (k&data&recv&Hev&Hdata&Harr) Hask rest Hm. set (p := data_packet o l).
  pose proof (ok_data Hok) as Hmd.
  pose proof (endpoint_incoming s e own L p He Hfit) as Hin.
  assert (Hlen : len (m_data m) = len got + len l + len rest) by (rewrite Hm, !len_app; lia).
  assert (Hpos : 0 < len l) by (destruct l; [done|unfold len; cbn; lia]).
  assert (Hmne : m_data m ≠ []) by (rewrite Hm; destruct got; [by destruct l|done]).
  (* the state *)
  subst ev. cbn [call_of] in *. unfold dispatch_data. cbn [p_metadata p data_packet]. fold p.
  destruct (get_target_spec s (incoming p e) own L st o _ Hin Hst) as (Hc&t&Ht&Hr&Htot&la&HLk&Hslot&Hlal&Hinfo&Hrcv).
  rewrite Hc, Ok_bind, Ht, Ok_bind.
  destruct recv as [info|]; [|done].
  destruct (Harr Hmne) as (la'&HLk'&Hsl&Hli&Hland&Hbytes). rewrite HLk in HLk'. injection HLk' as <-.
  (* the copy *)
  change (packet_bytes p) with (0 + len l). rewrite Hr, Htot, Z.add_0_l, (w64_small (len (m_data m) - len got)) by (unfold len in *; lia).
  rewrite Z.min_r by (unfold len in *; lia).
  destruct (eo_landed _ _ _ _ Hin _ _ HLk) as (Hkc&_&_). pose proof (eo_calls _ _ _ _ Hin) as Hca.
  destruct (copy_data_spec t (incoming p e) (len (m_data m)) (room s k).1 (room s k).2 (len got) (len l) (la_at la) Hrcv)
    as (mc&m'&Hrun&Hrcv'&Hmv); [done|unfold len; lia|unfold len; lia|unfold len in *; lia|unfold len in *; lia| |].
  { rewrite <- (Z.add_0_r payload_at). apply payload_apart; lia. }
  rewrite Hrun, Ok_bind, !(w64_small (len got + len l)) by (unfold len in *; lia). set (t1 := with_counts _ _ _).
  set (L' := <[k := mkLanded (la_slot la) (la_info la) (la_at la) (la_bytes la ++ l)]> L).
  assert (Harr' : arrives s L' o j m (got ++ l) (Dispatched k o (m_header m) data (len (m_data m)) (Some info))).
  { exists k, data, (Some info). split; [done|]. split; [done|]. intros _. eexists. split; [apply lookup_insert_eq|].
    cbn. rewrite Hbytes. done. }
  set (e1 := set_state st (S_target t1) (set_mem m' (incoming p e))).
  assert (He1 : endpoint_ok s e1 (<[st := Receiving o (In_data k (len (m_data m)) (len got + len l))]> own) L').
  { rewrite <- Hlal in Hst |- *. eapply endpoint_store; [done..| |].
    - rewrite Hbytes. eapply landing_puts; [lia|done|unfold len; lia|unfold len in *; lia| |done].
      intros i Hi. by apply incoming_bytes.
    - split; [cbn [t_bytes_received t1 with_counts]; lia|]. split; [done|]. eexists. split; [apply lookup_insert_eq|].
      cbn. rewrite len_app, Hbytes. split; [by rewrite Hsl|]. split; [done|]. split; [done|]. 
      by apply receiving_counts. }
  assert (Hkeep : keeps_others o j L L') by by eapply keeps_update.
  change (t_bytes_total t1) with (t_bytes_total t). rewrite Htot. destruct rest as [|x rest].
  - change (len []) with 0 in Hlen. rewrite (proj2 (Z.leb_le _ _)) by lia.
    eexists _, _, L'. split; [reflexivity|]. split; [done|].
    assert (Hi' : idle (delete st (<[st := Receiving o (In_data k (len (m_data m)) (len got + len l))]> own)) o).
    { eapply idle_delete; [exact He1|apply lookup_insert_eq]. }
    split; [|exact Hi']. split.
    + apply (endpoint_disconnect s (freeState st (received o (t_info t) e1)));  [|done].
      eapply endpoint_free; [by apply endpoint_event|apply lookup_insert_eq].
    + cbn. rewrite Hinfo, Hli. by destruct (effective_fn None info) as [-> ->].
    + by repeat constructor.
    + done.
    + eapply receives_only_trans; [apply receives_only_insert|apply receives_only_delete]; [by rewrite Hst|done|].
      by rewrite lookup_insert_eq.
    + cbn. lia.
  - rewrite (proj2 (Z.leb_gt _ _)) by (unfold len in *; cbn in *; lia).
    eexists _, _, L'. split; [reflexivity|]. split; [done|]. split.
    + split; [exact He1|cbn; by rewrite app_nil_r|done|done| |cbn; lia].
      apply receives_only_insert; [by rewrite Hst|done].
    + rewrite lookup_insert_eq, len_app. done.
Qed.

(** * A message comes in *)

(** The [j]-th message from [o], of which the packets [got] arrived: nothing, part of its header,
    or its header and part of its data. *)
Inductive current (s : Z) (log : list event) (own : gmap Z use) (L : gmap nat landed) (o : Z) (j : nat) (m : message) :
    list packet → Prop :=
| current_fresh : idle own o → length (dispatches o log) = j → current s log own L o j m []
| current_header hs r st : m_packed m = false → long_header m = true → chunks (m_header m) = hs ++ r → r ≠ [] →
    own !! st = Some (Receiving o (In_header (len (m_data m)) (len (m_header m)) (concat hs))) →
    length (dispatches o log) = j →
    current s log own L o j m (longheader_packet o m :: map (header_packet o) hs)
| current_data ds r st evs ev : m_packed m = false → m_data m ≠ [] → chunks (m_data m) = ds ++ r → r ≠ [] →
    own !! st = Some (Receiving o (In_data (call_of ev) (len (m_data m)) (len (concat ds)))) →
    dispatches o log = evs ++ [ev] → length evs = j → arrives s L o j m (concat ds) ev → asked ev →
    current s log own L o j m (envelope o m ++ map (data_packet o) ds).

(** The message is complete: the client got the header and the length, the data are in place,
    and the callback was called. *)
Definition complete (s : Z) (log : list event) (own : gmap Z use) (L : gmap nat landed) (o : Z) (j : nat) (m : message)
    (evs : list event) : Prop :=
  idle own o ∧ ∃ ds ev, dispatches o log = ds ++ [ev] ∧ length ds = j ∧
    arrives s L o j m (m_data m) ev ∧ receipts o evs = [callback_of ev].

Lemma receipts_done o ev : receipts o [ev] = [] →
  receipts o [ev; Received o (callback_of ev).1 (callback_of ev).2] = [callback_of ev].
Proof.
  intros Hr. change [ev; ?r] with ([ev] ++ [r]). unfold receipts in *. rewrite omap_app, Hr. cbn.
  rewrite Z.eqb_refl. by destruct (callback_of ev).
Qed.

Lemma dispatches_app o l1 l2 : dispatches o (l1 ++ l2) = dispatches o l1 ++ dispatches o l2.
Proof. apply omap_app. Qed.

Lemma data_packets_cons o l : l ≠ [] → data_packets o l = map (data_packet o) (chunks l).
Proof. by destruct l. Qed.

Lemma payload_pos : 0 < payload_bytes.
Proof. pose proof (payload_small Hok). lia. Qed.

Section step.
Context (s : Z) (e : endpoint) (own : gmap Z use) (L : gmap nat landed) (o : Z) (j : nat) (m : message).
Context (He : endpoint_ok s e own L) (Hcan : can_allocate max_segments (e_pool e)).
Context (Hcalls : (e_calls e < max_calls)%nat) (Hm : message_ok m).

(** What a packet [p] that is not the last, or is, does. *)
Definition progress (src : Z) (ready : Z → bool) (got : list packet) (p : packet) (k : list packet) : Prop :=
  ∃ e' own' L' evs, dispatch src ready p e = Ok (e', []) ∧ stepped s o j e own L e' own' L' evs ∧
    ((k = [] ∧ complete s (e_log e') own' L' o j m evs) ∨
     (k ≠ [] ∧ current s (e_log e') own' L' o j m (got ++ [p]) ∧ receipts o evs = [])).

(** The client was called; the data are to come, or there are none. *)
Lemma after_envelope src ready got p e' own' L' ev : dispatch src ready p e = Ok (e', []) → m_packed m = false →
  length (dispatches o (e_log e)) = j → got ++ [p] = envelope o m →
  (if len (m_data m) =? 0 then
     stepped s o j e own L e' own' L' [ev; Received o (callback_of ev).1 (callback_of ev).2] ∧ ended s o j m own' L' ev
   else stepped s o j e own L e' own' L' [ev] ∧ begun s o j m own' L' ev) →
  progress src ready got p (data_packets o (m_data m)).
Proof.
  intros Hrun Hpk Hj Hgot. destruct (Z.eqb_spec (len (m_data m)) 0) as [Hz|Hnz].
  - intros [Hst (Hd&Hr&Ha&Hi)]. assert (m_data m = []) as Hnil.
    { apply length_zero_iff_nil. unfold len in Hz. lia. }
    eexists _, _, _, _. split; [exact Hrun|]. split; [exact Hst|]. left. rewrite Hnil. split; [done|]. split; [done|].
    exists (dispatches o (e_log e)), ev. rewrite (st_log _ _ _ _ _ _ _ _ _ _ Hst), dispatches_app.
    change [ev; ?r] with ([ev] ++ [r]). rewrite dispatches_app, Hd. rewrite Hnil.
    split; [done|]. split; [done|]. split; [done|]. by apply receipts_done.
  - intros [Hst (Hd&Hr&Ha&Hask&st&Hown)]. assert (m_data m ≠ []) as Hne.
    { intros Hnil. by rewrite Hnil in Hnz. }
    eexists _, _, _, _. split; [exact Hrun|]. split; [exact Hst|]. right.
    rewrite data_packets_cons by done. split; [done|]. split; [|done].
    rewrite Hgot. rewrite <- (app_nil_r (envelope o m)).
    apply (current_data s (e_log e') own' L' o j m [] (chunks (m_data m)) st (dispatches o (e_log e)) ev); try done.
    by rewrite (st_log _ _ _ _ _ _ _ _ _ _ Hst), dispatches_app, Hd.
Qed.

Lemma fresh_step src ready p k : idle own o → length (dispatches o (e_log e)) = j →
  wire o s (Message m) = p :: k → progress src ready [] p k.
Proof.
  intros Hidle Hj Hw. cbn [wire] in Hw. destruct (m_packed m) eqn:Hpk.
  - injection Hw as <- <-. pose proof (packed_limit m Hm Hpk) as Hfit.
    destruct (packed_step s e own L o j m He Hcalls Hm Hfit) as (e'&L'&ev&Hrun&Hst&Hd&Hr&Ha).
    assert (p_model (packed_packet o m) = short_model) as Hmodel by (unfold packed_packet; by destruct packed_in_header).
    eexists _, _, _, _. split; [unfold dispatch; rewrite Hmodel; exact Hrun|]. split; [exact Hst|].
    left. split; [done|]. split; [done|]. exists (dispatches o (e_log e)), ev.
    rewrite (st_log _ _ _ _ _ _ _ _ _ _ Hst), dispatches_app. change [ev; ?r] with ([ev] ++ [r]).
    rewrite dispatches_app, Hd. split; [done|]. split; [done|]. split; [done|]. by apply receipts_done.
  - unfold envelope in Hw. destruct (long_header m) eqn:Hlong; cbn [app] in Hw; injection Hw as <- <-.
    + destruct (longheader_step s e own L o j m He Hcan Hidle) as (e'&own'&st&Hrun&Hst&Hown).
      eexists _, _, _, _. split; [exact Hrun|]. split; [exact Hst|]. right. split; [done|]. split; [|done].
      apply (current_header s (e_log e') own' L o j m [] (chunks (m_header m)) st); try done.
      by rewrite (st_log _ _ _ _ _ _ _ _ _ _ Hst), app_nil_r.
    + assert (Hfit : len (m_header m) ≤ payload_bytes).
      { pose proof (eager_limit Hok) as Hlim. unfold long_header in Hlong.
        assert (len (m_header m) ≤ maximum_eager_packet_payload); [|destruct short_in_header; lia].
        destruct (LONG_HEADER_DISABLE T_Option) eqn:Hd.
        - by apply Hm. - cbn in Hlong. by apply Z.ltb_ge in Hlong. }
      destruct (envelope_step s e own L o j m He Hcan Hcalls Hidle Hm Hfit) as (e'&own'&L'&ev&Hrun&Hcase).
      eapply after_envelope; [|done|done| |exact Hcase].
      * unfold dispatch. assert (p_model (envelope_packet o m) = envelope_model) as ->; [|exact Hrun].
        unfold envelope_packet. by destruct short_in_header.
      * unfold envelope. by rewrite Hlong.
Qed.

Lemma more_header_step src ready hs r st p k : m_packed m = false → long_header m = true →
  chunks (m_header m) = hs ++ r → r ≠ [] →
  own !! st = Some (Receiving o (In_header (len (m_data m)) (len (m_header m)) (concat hs))) →
  length (dispatches o (e_log e)) = j →
  wire o s (Message m) = (longheader_packet o m :: map (header_packet o) hs) ++ p :: k →
  progress src ready (longheader_packet o m :: map (header_packet o) hs) p k.
Proof.
  intros Hpk Hlong Hch Hr Hst Hj Hw. cbn [wire] in Hw. rewrite Hpk in Hw. unfold envelope in Hw. rewrite Hlong in Hw.
  destruct r as [|c r]; [done|]. rewrite Hch, map_app in Hw. cbn [app map] in Hw. injection Hw as Hw.
  rewrite <- !(assoc_L (++)) in Hw. apply (inj (app _)) in Hw. cbn [app] in Hw. injection Hw as <- <-.
  destruct (chunks_split _ _ _ _ payload_pos Hch) as (Hh&Hc&Hne).
  assert (Hhne : m_header m ≠ []).
  { intros Hnil. unfold long_header in Hlong. rewrite Hnil in Hlong. pose proof (eager_limit Hok).
    pose proof (payload_small Hok). apply andb_prop in Hlong as [_ Hlt%Z.ltb_lt]. change (len []) with 0 in Hlt.
    destruct short_in_header; lia. }
  destruct (Hne Hhne) as [Hcne Hrnil].
  destruct (header_step s e own L o j m st (concat hs) c He Hcalls Hm Hc Hst (concat r) Hh)
    as (e'&own'&L'&Hrun&Hcase).
  destruct r as [|c' r]; cbn [concat] in Hcase.
  - destruct Hcase as (ev&Hcase). cbn [map app]. eapply after_envelope; [exact Hrun|done|done| |exact Hcase].
    unfold envelope. rewrite Hlong, Hch, map_app. done.
  - destruct (c' ++ concat r) as [|x l] eqn:Hrest; [by specialize (Hrnil Hrest)|]. destruct Hcase as [Hstep Hown].
    eexists _, _, _, _. split; [exact Hrun|]. split; [exact Hstep|]. right. split; [done|]. split; [|done].
    assert (map (header_packet o) hs ++ [header_packet o c] = map (header_packet o) (hs ++ [c])) as Heq by by rewrite map_app.
    cbn [app]. rewrite Heq. apply (current_header s (e_log e') own' L' o j m (hs ++ [c]) (c' :: r) st); try done.
    + by rewrite <- (assoc_L (++)).
    + by rewrite concat_app; cbn; rewrite app_nil_r.
    + by rewrite (st_log _ _ _ _ _ _ _ _ _ _ Hstep), app_nil_r.
Qed.

Lemma more_data_step src ready ds r st evs ev p k : m_packed m = false → m_data m ≠ [] → chunks (m_data m) = ds ++ r → r ≠ [] →
  own !! st = Some (Receiving o (In_data (call_of ev) (len (m_data m)) (len (concat ds)))) →
  dispatches o (e_log e) = evs ++ [ev] → length evs = j → arrives s L o j m (concat ds) ev → asked ev →
  wire o s (Message m) = (envelope o m ++ map (data_packet o) ds) ++ p :: k →
  progress src ready (envelope o m ++ map (data_packet o) ds) p k.
Proof.
  intros Hpk Hdne Hch Hr Hst Hd Hj Ha Hask Hw. cbn [wire] in Hw. rewrite Hpk, data_packets_cons in Hw by done.
  destruct r as [|c r]; [done|]. rewrite Hch, map_app in Hw. cbn [map] in Hw.
  rewrite <- !(assoc_L (++)) in Hw. do 2 apply (inj (app _)) in Hw. injection Hw as <- <-.
  destruct (chunks_split _ _ _ _ payload_pos Hch) as (Hdata&Hc&Hne). destruct (Hne Hdne) as [Hcne Hrnil].
  destruct (data_step s e own L o j m st ev (concat ds) c He Hm Hcne Hc Hst Ha Hask (concat r) Hdata)
    as (e'&own'&L'&Hrun&Ha'&Hcase).
  assert (Hcat : concat (ds ++ [c]) = concat ds ++ c) by (rewrite concat_app; cbn; by rewrite app_nil_r).
  destruct r as [|c' r]; cbn [concat] in Hcase.
  - destruct Hcase as [Hstep Hidle]. eexists _, _, _, _. split; [exact Hrun|]. split; [exact Hstep|]. left.
    split; [done|]. split; [done|]. exists evs, ev. rewrite (st_log _ _ _ _ _ _ _ _ _ _ Hstep), dispatches_app, Hd.
    cbn [concat] in Hdata. rewrite app_nil_r in Hdata. rewrite Hdata at 1.
    split; [by rewrite app_nil_r|]. split; [done|]. split; [done|]. cbn. rewrite Z.eqb_refl. by destruct (callback_of ev).
  - destruct (c' ++ concat r) as [|x l] eqn:Hrest; [by specialize (Hrnil Hrest)|]. destruct Hcase as [Hstep Hown].
    eexists _, _, _, _. split; [exact Hrun|]. split; [exact Hstep|]. right. split; [done|]. split; [|done].
    rewrite <- (assoc_L (++)). assert (map (data_packet o) ds ++ [data_packet o c] = map (data_packet o) (ds ++ [c])) as -> by by rewrite map_app.
    apply (current_data s (e_log e') own' L' o j m (ds ++ [c]) (c' :: r) st evs ev); try done.
    + by rewrite <- (assoc_L (++)).
    + by rewrite Hcat.
    + by rewrite (st_log _ _ _ _ _ _ _ _ _ _ Hstep), app_nil_r.
    + by rewrite Hcat.
Qed.

(** Every packet of a message is taken as what it is. *)
Lemma message_step src ready got p k : current s (e_log e) own L o j m got →
  wire o s (Message m) = got ++ p :: k → progress src ready got p k.
Proof.
  intros [Hidle Hj|hs r st ? ? ? ? ? ?|ds r st evs ev ? ? ? ? ? ? ? ? ?] Hw.
  - by apply fresh_step.
  - by eapply more_header_step.
  - by eapply more_data_step.
Qed.
End step.
End receive.
