(* ===== verification/EagerInvariant.v ===== *)
(** Endpoints and the channels between them under the eager protocol: for each channel, what
    was sent, what the device still has of it and what arrived, and how the logs, the states in
    use and the acknowledgements of the two endpoints agree with it. *)
From stdpp Require Import functions.
From S2P Require Import Prelude.
From S2P Require Import Memory.
From S2P Require Import PamiType.
From S2P Require Import MemoryAllocator.
From S2P Require Import EagerSimple.
From S2P Require Import EagerWire.
From S2P Require Import EagerEndpoint.
From S2P Require Import EagerSend.
From S2P Require Import EagerReceive.

Section invariant.
Context `{EagerParams} `{EagerSetup}.

Notation payload_bytes := (packet_model_payload_bytes T_Model).

(** * Two-place tables *)

Definition upd2 {A} (f : Z → Z → A) (s d : Z) (v : A) : Z → Z → A :=
  λ x y, if decide (x = s ∧ y = d) then v else f x y.

Lemma upd2_eq {A} (f : Z → Z → A) s d v : upd2 f s d v s d = v.
Proof. unfold upd2. by rewrite decide_True. Qed.
Lemma upd2_ne {A} (f : Z → Z → A) s d v x y : ¬ (x = s ∧ y = d) → upd2 f s d v x y = f x y.
Proof. intros Hn. unfold upd2. by rewrite decide_False. Qed.

(** * A channel *)

(** The sending end: the log [T] and the states [own] of the sender; [due] are the questions for
    an acknowledgement it has still to send. *)
Record sender_ok (d : Z) (g : ghost) (T : list event) (own : gmap Z use) (due : list (Z * Z)) : Prop := {
  se_states st i : own !! st = Some (Sending d i) ↔ (i, st) ∈ g_out g;
  se_nodup : NoDup (g_out g).*2;
  se_local : local_dones d T = locals (messages (g_sent g));
  se_pings : pings (g_all g) ++ due = remotes (messages (g_sent g));
  se_credit X : X `prefix_of` g_all g → pings X `prefix_of` remotes (messages X);
  se_messages : Forall message_ok (messages (g_all g))
}.

(** The receiving end, at [d] for what comes from [s]. *)
Record receiver_ok (d s : Z) (g : ghost) (T : list event) (own : gmap Z use) (L : gmap nat landed) : Prop := {
  re_current : (g_got g = [] ∧ idle own s ∧ length (dispatches s T) = length (messages (g_rcvd g))) ∨
    ∃ m, g_rcvd g ++ [Message m] `prefix_of` g_all g ∧
      current d T own L s (length (messages (g_rcvd g))) m (g_got g);
  re_received j m : messages (g_rcvd g) !! j = Some m →
    ∃ ev, dispatches s T !! j = Some ev ∧ arrives d L s j m (m_data m) ev ∧
      receipts s T !! j = Some (callback_of ev);
  re_receipts : length (receipts s T) = length (messages (g_rcvd g));
  re_remote : remote_dones s T = pongs (g_rcvd g)
}.

(** An item that is to be handed to the device before anything else happens. *)
Notation debt := (option (Z * Z * item)).
Definition due_pings (D : debt) (s d : Z) : list (Z * Z) :=
  match D with Some (x, y, Ping a b) => if decide (x = s ∧ y = d) then [(a, b)] else [] | _ => [] end.
Definition due_pongs (D : debt) (s d : Z) : list (Z * Z) :=
  match D with Some (x, y, Pong a b) => if decide (x = s ∧ y = d) then [(a, b)] else [] | _ => [] end.

Record channel_ok (C : Z → Z → channel) (T : Z → list event) (O : Z → gmap Z use) (L : Z → gmap nat landed)
    (G : Z → Z → ghost) (D : debt) (s d : Z) : Prop := {
  co_linked : linked s d (G s d) (C s d);
  co_sender : sender_ok d (G s d) (T s) (O s) (due_pings D s d);
  co_receiver : receiver_ok d s (G s d) (T d) (O d) (L d);
  co_pongs : pongs (g_all (G s d)) ++ due_pongs D s d = pings (g_rcvd (G d s))
}.

Definition channels_ok C T O L G D : Prop := ∀ s d, channel_ok C T O L G D s d.

(** ** What the ends depend on *)

Lemma sender_frame d g T T' own own' due : sender_ok d g T own due → local_dones d T' = local_dones d T →
  (∀ st i, own' !! st = Some (Sending d i) ↔ own !! st = Some (Sending d i)) → sender_ok d g T' own' due.
Proof.
  intros [? ? ? ? ? ?] HT Hown. split; try done; [|congruence]. intros st i. by rewrite Hown.
Qed.

Lemma current_frame d T T' own own' L L' s j m got : current d T own L s j m got →
  dispatches s T' = dispatches s T → (∀ st ph, own' !! st = Some (Receiving s ph) ↔ own !! st = Some (Receiving s ph)) →
  (∀ i m l ev, arrives d L s i m l ev → arrives d L' s i m l ev) →
  current d T' own' L' s j m got.
Proof.
  intros Hc HT Hown HL. destruct Hc as [Hi ?|hs r st ? ? ? ? ? ?|ds r st evs ev ? ? ? ? ? ? ? ? ?].
  - constructor; [|by rewrite HT]. intros st ph Hst. apply Hown in Hst. by apply Hi in Hst.
  - eapply (current_header d T' own' L' s j m hs r st); try done; [by apply Hown|by rewrite HT].
  - eapply (current_data d T' own' L' s j m ds r st evs ev); try done; [by apply Hown|by rewrite HT|by apply HL].
Qed.

Lemma receiver_frame d s g T T' own own' L L' : receiver_ok d s g T own L →
  dispatches s T' = dispatches s T → receipts s T' = receipts s T → remote_dones s T' = remote_dones s T →
  (∀ st ph, own' !! st = Some (Receiving s ph) ↔ own !! st = Some (Receiving s ph)) →
  (∀ i m l ev, arrives d L s i m l ev → arrives d L' s i m l ev) →
  receiver_ok d s g T' own' L'.
Proof.
  intros [Hcur Hrec Hlen Hrem] HTd HTr HTm Hown HL. split.
  - destruct Hcur as [(Hg&Hi&Hl)|(m&Hp&Hc)]; [left|right].
    + split; [done|]. split; [|by rewrite HTd]. intros st ph Hst. apply Hown in Hst. by apply Hi in Hst.
    + exists m. split; [done|]. by eapply current_frame.
  - intros j m Hj. destruct (Hrec j m Hj) as (ev&H1&H2&H3). exists ev. rewrite HTd, HTr. auto.
  - by rewrite HTr.
  - by rewrite HTm.
Qed.

(** More was sent. *)
Lemma receiver_ghost d s g g' T own L : receiver_ok d s g T own L → g_rcvd g' = g_rcvd g → g_got g' = g_got g →
  g_all g `prefix_of` g_all g' → receiver_ok d s g' T own L.
Proof.
  intros [Hcur Hrec Hlen Hrem] Hr Hg Ha. split; rewrite ?Hr, ?Hg; try done.
  destruct Hcur as [?|(m&Hp&Hc)]; [by left|right]. exists m. split; [by etrans|done].
Qed.

(** ** Handing an item to the device *)

Lemma pings_app l1 l2 : pings (l1 ++ l2) = pings l1 ++ pings l2.
Proof. apply omap_app. Qed.
Lemma pongs_app l1 l2 : pongs (l1 ++ l2) = pongs l1 ++ pongs l2.
Proof. apply omap_app. Qed.
Lemma messages_app l1 l2 : messages (l1 ++ l2) = messages l1 ++ messages l2.
Proof. apply omap_app. Qed.
Lemma remotes_app l1 l2 : remotes (l1 ++ l2) = remotes l1 ++ remotes l2.
Proof. apply omap_app. Qed.
Lemma locals_app l1 l2 : locals (l1 ++ l2) = locals l1 ++ locals l2.
Proof. apply omap_app. Qed.

(** Where effects end up. *)
Definition sent_to_device (c : channel) (effs : list effect) : channel :=
  foldl (λ c eff, match eff with
    | Now _ p => mkChannel (c_out c) (c_net c ++ [p])
    | Posted _ p => mkChannel (c_out c ++ [p]) (c_net c)
    end) c effs.

Lemma sent_posts c d ps : sent_to_device c (map (Posted d) ps) = mkChannel (c_out c ++ ps) (c_net c).
Proof.
  revert c. induction ps as [|p ps IH]; intros c; [destruct c; cbn; by rewrite app_nil_r|].
  cbn [map]. unfold sent_to_device in *. cbn [foldl]. rewrite IH. cbn. by rewrite <- (assoc_L (++)).
Qed.

(** The ghost of a channel to which an item is added. *)
Lemma emit_sender s d g c T own effs own' i ready due : linked s d g c → sender_ok d g T own due →
  emits s ready d i own effs own' → (ready d = true → c_out c = []) →
  match i with
  | Message m => message_ok m ∧ due = []
  | Ping a b => due = [(a, b)]
  | Pong a b => due = []
  end →
  ∃ g', linked s d g' (sent_to_device c effs) ∧ sender_ok d g' T own' [] ∧
    g_rcvd g' = g_rcvd g ∧ g_got g' = g_got g ∧ g_all g' = g_all g ++ [i].
Proof.
  intros Hl [Hst Hnd Hloc Hpg Hcr Hms] Hem Hready Hdue.
  assert (Hdp : pings (g_all g ++ [i]) = remotes (messages (g_sent g))).
  { rewrite pings_app, <- Hpg. f_equal. destruct i; cbn; [by destruct Hdue as [_ ->]|done|done]. }
  assert (Hcr' : ∀ X, X `prefix_of` g_all g ++ [i] → pings X `prefix_of` remotes (messages X)).
  { intros X [k Hk]. destruct (list_snoc_inv k) as [->|(k'&x&->)].
    - rewrite app_nil_r in Hk. subst X. rewrite Hdp. apply prefix_omap, prefix_omap.
      unfold g_all. by do 2 apply prefix_app_r.
    - rewrite (assoc_L (++)) in Hk. apply app_inj_tail in Hk as [Hk _]. apply Hcr. rewrite Hk. by apply prefix_app_r. }
  assert (Hms' : Forall message_ok (messages (g_all g ++ [i]))).
  { rewrite messages_app. apply Forall_app. split; [done|]. destruct i; cbn; [|done..].
    apply Forall_singleton. apply Hdue. }
  destruct Hem as [p Hr Hw Hnone|st ps Hfresh Hp].
  - destruct (linked_now s d g c i p Hl (Hready Hr) Hw) as [Hl' Hout].
    set (g' := mkGhost _ _ _ _ _) in Hl'. exists g'. split; [exact Hl'|].
    assert (Hall : g_all g' = g_all g ++ [i]).
    { unfold g_all. cbn [g_sent g_out g']. rewrite Hout. cbn. by rewrite !app_nil_r. }
    split; [|done]. split; rewrite ?Hall; cbn [g_sent g_out g']; rewrite ?app_nil_r; try done.
    + rewrite Hloc, messages_app, locals_app. destruct i as [m| |]; cbn; rewrite ?app_nil_r; [|done..].
      destruct Hnone as [-> _]. cbn. by rewrite app_nil_r.
    + rewrite Hdp, messages_app, remotes_app. destruct i as [m| |]; cbn; rewrite ?app_nil_r; [|done..].
      destruct Hnone as [_ ->]. cbn. by rewrite app_nil_r.
  - pose proof (linked_posted s d g c i st ps Hl Hp) as Hl'. rewrite sent_posts.
    eexists. split; [exact Hl'|].
    assert (Hall : g_all (mkGhost (g_sent g) (g_out g ++ [(i, st)]) (g_pre g) (g_rcvd g) (g_got g)) = g_all g ++ [i]).
    { unfold g_all. cbn [g_sent g_out]. by rewrite fmap_app, (assoc_L (++)). }
    rewrite Hall. split; [|done].
    assert (Hfr : ∀ j, (j, st) ∉ g_out g) by (intros j Hj; apply Hst in Hj; congruence).
    split; rewrite ?Hall; cbn [g_sent g_out]; try done.
    + intros x j. rewrite elem_of_app, list_elem_of_singleton, <- Hst. destruct (decide (x = st)) as [->|Hne].
      * rewrite lookup_insert_eq. split; [intros [= <-]; by right|].
        intros [Hx|[= ->]]; [congruence|done].
      * rewrite lookup_insert_ne by done. split; [by left|]. intros [?|[=]]; done.
    + rewrite fmap_app. cbn. apply NoDup_app. split; [done|]. split; [|apply NoDup_singleton].
      intros x Hx ->%list_elem_of_singleton. apply list_elem_of_fmap in Hx as ([j y]&->&Hj). by apply Hfr in Hj.
    + by rewrite app_nil_r.
Qed.

(** The other channels of the sender do not notice. *)
Lemma emits_others s ready d i own effs own' d' j st : emits s ready d i own effs own' → d' ≠ d →
  own' !! st = Some (Sending d' j) ↔ own !! st = Some (Sending d' j).
Proof.
  intros Hem Hne. destruct Hem as [p ? ? ?|st' ps Hfresh Hp]; [done|]. destruct (decide (st = st')) as [->|].
  - rewrite lookup_insert_eq, Hfresh. split; congruence.
  - by rewrite lookup_insert_ne.
Qed.

Lemma emits_receiving s ready d i own effs own' o ph st : emits s ready d i own effs own' →
  own' !! st = Some (Receiving o ph) ↔ own !! st = Some (Receiving o ph).
Proof.
  intros Hem. destruct Hem as [p ? ? ?|st' ps Hfresh Hp]; [done|]. destruct (decide (st = st')) as [->|].
  - rewrite lookup_insert_eq, Hfresh. split; congruence.
  - by rewrite lookup_insert_ne.
Qed.

Lemma emit_channels C T O L G s d i ready effs own' : channels_ok C T O L G (Some (s, d, i)) →
  emits s ready d i (O s) effs own' → (ready d = true → c_out (C s d) = []) →
  match i with Message m => message_ok m | _ => True end →
  ∃ G', channels_ok (upd2 C s d (sent_to_device (C s d) effs)) T (<[s := own']> O) L G' None ∧
    ∀ x y, messages (g_all (G' x y)) = messages (g_all (G x y)) ++ (if decide (x = s ∧ y = d) then messages [i] else []).
Proof.
  intros Hch Hem Hready Hm. destruct (Hch s d) as [Hl Hs Hr Hp].
  destruct (emit_sender s d (G s d) (C s d) (T s) (O s) effs own' i ready _ Hl Hs Hem Hready) as (g'&Hl'&Hs'&Hrc&Hgot&Hall).
  { destruct i; cbn; [done|by rewrite decide_True|done]. }
  exists (upd2 G s d g'). split.
  - intros x y. destruct (Hch x y) as [Hlx Hsx Hrx Hpx]. split.
    + unfold upd2. destruct (decide _) as [[-> ->]|]; done.
    + destruct (decide (x = s ∧ y = d)) as [[-> ->]|Hne].
      * rewrite upd2_eq, fn_lookup_insert. done.
      * rewrite upd2_ne by done. assert (due_pings None x y = due_pings (Some (s, d, i)) x y) as ->.
        { destruct i; cbn; [done| |done]. rewrite decide_False; [done|]. naive_solver. }
        destruct (decide (s = x)) as [<-|Hx]; [|by rewrite fn_lookup_insert_ne].
        rewrite fn_lookup_insert. eapply sender_frame; [exact Hsx|done|].
        intros st j. eapply emits_others; [done|]. naive_solver.
    + assert (Hr' : receiver_ok y x (upd2 G s d g' x y) (T y) (O y) (L y)).
      { unfold upd2. destruct (decide _) as [[-> ->]|]; [|done].
        eapply receiver_ghost; [done..|]. rewrite Hall. by apply prefix_app_r. }
      destruct (decide (s = y)) as [<-|Hy]; [|by rewrite fn_lookup_insert_ne].
      rewrite fn_lookup_insert. eapply receiver_frame; [exact Hr'|done..| |done].
      intros st ph. by eapply emits_receiving.
    + assert (g_rcvd (upd2 G s d g' y x) = g_rcvd (G y x)) as ->.
      { unfold upd2. destruct (decide _) as [[-> ->]|]; done. }
      rewrite <- Hpx. unfold upd2. destruct (decide (x = s ∧ y = d)) as [[-> ->]|Hne].
      * rewrite Hall, pongs_app, app_nil_r. f_equal. destruct i; cbn; [done|done|by rewrite decide_True].
      * f_equal. destruct i; cbn; [done|done|]. rewrite decide_False; [done|]. naive_solver.
  - intros x y. unfold upd2. destruct (decide _) as [[-> ->]|]; [by rewrite Hall, messages_app|by rewrite app_nil_r].
Qed.

Lemma channels_ext C C' T T' O O' L L' G D : (∀ x y, C' x y = C x y) → (∀ x, T' x = T x) → (∀ x, O' x = O x) →
  (∀ x, L' x = L x) → channels_ok C T O L G D → channels_ok C' T' O' L' G D.
Proof. intros HC HT HO HL Hch s d. destruct (Hch s d). split; by rewrite ?HC, ?HT, ?HO, ?HL. Qed.

(** ** The device sends a packet *)

Lemma events_other_sender d d' m : d' ≠ d → local_dones d' (local_events d m) = [].
Proof. intros Hne. unfold local_events. destruct (_ =? _); cbn; [done|]. by rewrite (proj2 (Z.eqb_neq _ _)). Qed.

Lemma local_dones_events d m : local_dones d (local_events d m) = locals [m].
Proof. unfold local_events. cbn. destruct (_ =? _); cbn; [done|]. by rewrite Z.eqb_refl. Qed.

Lemma local_events_receiver o d m : dispatches o (local_events d m) = [] ∧ receipts o (local_events d m) = [] ∧
  remote_dones o (local_events d m) = [].
Proof. unfold local_events. by destruct (_ =? _). Qed.

(** What follows the completion of an item. *)
Definition completion_events (d : Z) (i : item) : list event :=
  match i with Message m => local_events d m | _ => [] end.
Definition completion_debt (s d : Z) (i : item) : debt :=
  match i with
  | Message m => if m_remote_fn m =? 0 then None else Some (s, d, Ping (m_remote_fn m) (m_cookie m))
  | _ => None
  end.

Lemma completion_due s d i x y : due_pings (completion_debt s d i) x y =
  (if decide (s = x ∧ d = y) then remotes (messages [i]) else []) ∧ due_pongs (completion_debt s d i) x y = [].
Proof.
  destruct i as [m| |]; cbn; [|by destruct (decide _)..]. destruct (m_remote_fn m =? 0); cbn; by destruct (decide _).
Qed.

Lemma complete_sender s d g i st B T own c : linked s d g c → sender_ok d g T own [] → g_out g = (i, st) :: B →
  let g1 := mkGhost (g_sent g ++ [i]) B [] (g_rcvd g) (g_got g) in
  g_all g1 = g_all g ∧ own !! st = Some (Sending d i) ∧
  sender_ok d g1 (T ++ completion_events d i) (delete st own) (remotes (messages [i])).
Proof.
  intros Hl [Hst Hnd Hloc Hpg Hcr Hms] Hout g1.
  assert (Hall : g_all g1 = g_all g) by (unfold g_all; rewrite Hout; cbn; by rewrite <- (assoc_L (++))).
  split; [done|]. split; [apply Hst; rewrite Hout; by left|].
  rewrite Hout in *. cbn in Hnd. apply NoDup_cons in Hnd as [Hni Hnd].
  split; rewrite ?Hall; cbn [g_out g_sent g1]; try done.
  - intros x j. destruct (decide (x = st)) as [->|Hne].
    + rewrite lookup_delete_eq. split; [done|]. intros Hj. destruct Hni. apply list_elem_of_fmap. by exists (j, st).
    + rewrite lookup_delete_ne, Hst by done. split; [intros [[= <- <-]|?]%elem_of_cons; done|by right].
  - unfold local_dones in *. rewrite omap_app, Hloc, messages_app, locals_app. f_equal.
    destruct i as [m| |]; [|done..]. apply local_dones_events.
  - rewrite messages_app, remotes_app, <- Hpg, app_nil_r. done.
Qed.

Lemma inject_channels C T O L G s d p out : 0 < payload_bytes → channels_ok C T O L G None → c_out (C s d) = p :: out →
  let net := c_net (C s d) ++ [first_packet p] in
  (∃ G1, (rest_payload p = [] → po_done p = no_fn) ∧
    channels_ok (upd2 C s d (mkChannel (if decide (rest_payload p = []) then out else rest_post p :: out) net)) T O L G1 None ∧
    ∀ x y, g_all (G1 x y) = g_all (G x y)) ∨
  (rest_payload p = [] ∧ ∃ i st G1, po_done p = done_of i st ∧ O s !! st = Some (Sending d i) ∧
    channels_ok (upd2 C s d (mkChannel out net)) (<[s := T s ++ completion_events d i]> T)
      (<[s := delete st (O s)]> O) L G1 (completion_debt s d i) ∧
    ∀ x y, g_all (G1 x y) = g_all (G x y)).
Proof.
  intros Hp Hch Hout net. destruct (Hch s d) as [Hl Hs Hr Hpo].
  destruct (linked_inject s d (G s d) (C s d) p out Hp Hl Hout) as [(out'&->&Hno&Hl')|(Hr0&i&st&B&HB&Hdone&Hl')].
  - left. set (g1 := mkGhost _ _ _ _ _) in Hl'. exists (upd2 G s d g1). split; [done|].
    assert (Hsame : ∀ x y, g_all (upd2 G s d g1 x y) = g_all (G x y) ∧ g_rcvd (upd2 G s d g1 x y) = g_rcvd (G x y)).
    { intros x y. unfold upd2. destruct (decide (x = s ∧ y = d)) as [[-> ->]|]; done. }
    split; [|intros; apply Hsame]. intros x y. destruct (Hch x y) as [Hlx Hsx Hrx Hpx]. split.
    + unfold upd2. destruct (decide (x = s ∧ y = d)) as [[-> ->]|]; done.
    + unfold upd2. destruct (decide (x = s ∧ y = d)) as [[-> ->]|]; [|done]. by destruct Hsx.
    + unfold upd2. destruct (decide (x = s ∧ y = d)) as [[-> ->]|]; [|done]. by eapply receiver_ghost.
    + destruct (Hsame x y) as [-> _], (Hsame y x) as [_ ->]. done.
  - right. split; [done|]. destruct (complete_sender s d (G s d) i st B (T s) (O s) (C s d) Hl Hs HB) as (Hall&Hst&Hs').
    set (g1 := mkGhost _ _ _ _ _) in *. exists i, st, (upd2 G s d g1). split; [done|]. split; [done|].
    assert (Hsame : ∀ x y, g_all (upd2 G s d g1 x y) = g_all (G x y) ∧ g_rcvd (upd2 G s d g1 x y) = g_rcvd (G x y)).
    { intros x y. unfold upd2. destruct (decide (x = s ∧ y = d)) as [[-> ->]|]; done. }
    split; [|intros; apply Hsame]. intros x y. destruct (Hch x y) as [Hlx Hsx Hrx Hpx].
    destruct (completion_due s d i x y) as [Hdpi Hdpo]. split.
    + unfold upd2. destruct (decide (x = s ∧ y = d)) as [[-> ->]|]; done.
    + rewrite Hdpi. destruct (decide (x = s ∧ y = d)) as [[-> ->]|Hne].
      * by rewrite upd2_eq, !fn_lookup_insert, decide_True.
      * rewrite upd2_ne, decide_False by naive_solver. destruct (decide (s = x)) as [<-|Hx]; [|by rewrite !fn_lookup_insert_ne].
        rewrite !fn_lookup_insert. eapply sender_frame; [exact Hsx| |].
        -- unfold local_dones. rewrite omap_app. change (omap ?f) with (local_dones y).
           assert (local_dones y (completion_events d i) = []) as ->; [|by rewrite app_nil_r].
           destruct i as [m| |]; [|done..]. apply events_other_sender. naive_solver.
        -- intros st' j. destruct (decide (st' = st)) as [->|]; [|by rewrite lookup_delete_ne].
           rewrite lookup_delete_eq, Hst. split; [done|]. intros [= ->]. naive_solver.
    + assert (Hr' : receiver_ok y x (upd2 G s d g1 x y) (T y) (O y) (L y)).
      { unfold upd2. destruct (decide (x = s ∧ y = d)) as [[-> ->]|]; [|done]. eapply receiver_ghost; [done..|]. by rewrite Hall. }
      destruct (decide (s = y)) as [<-|Hy]; [|by rewrite !fn_lookup_insert_ne]. rewrite !fn_lookup_insert.
      assert (dispatches x (completion_events d i) = [] ∧ receipts x (completion_events d i) = [] ∧
        remote_dones x (completion_events d i) = []) as (E1&E2&E3).
      { destruct i; [apply local_events_receiver|done..]. }
      eapply receiver_frame; [exact Hr'|..|done].
      * by rewrite dispatches_app, E1, app_nil_r.
      * unfold receipts in *. by rewrite omap_app, E2, app_nil_r.
      * unfold remote_dones in *. by rewrite omap_app, E3, app_nil_r.
      * intros st' ph. destruct (decide (st' = st)) as [->|]; [|by rewrite lookup_delete_ne].
        rewrite lookup_delete_eq, Hst. split; done.
    + rewrite Hdpo. destruct (Hsame x y) as [-> _], (Hsame y x) as [_ ->]. done.
Qed.

(** ** A packet arrives *)

Lemma prefix_next {A} (l l' : list A) x y : l ++ [x] `prefix_of` l' → l ++ [y] `prefix_of` l' → x = y.
Proof.
  intros [k1 ->] [k2 Hk]. rewrite <- !(assoc_L (++)) in Hk. apply (inj (app _)) in Hk. cbn in Hk. congruence.
Qed.

(** The item the next packet is of, and how much of it there is. *)
Lemma next_item C T O L G s d p net : channels_ok C T O L G None → c_net (C s d) = p :: net →
  ∃ i (k : list packet), g_rcvd (G s d) ++ [i] `prefix_of` g_all (G s d) ∧ wire s d i = g_got (G s d) ++ p :: k ∧
    match i with
    | Message m => message_ok m ∧
        current d (T d) (O d) (L d) s (length (messages (g_rcvd (G s d)))) m (g_got (G s d))
    | _ => k = [] ∧ g_got (G s d) = [] ∧ idle (O d) s ∧
        length (dispatches s (T d)) = length (messages (g_rcvd (G s d)))
    end ∧
    linked s d (if decide (k = []) then mkGhost (g_sent (G s d)) (g_out (G s d)) (g_pre (G s d)) (g_rcvd (G s d) ++ [i]) []
      else mkGhost (g_sent (G s d)) (g_out (G s d)) (g_pre (G s d)) (g_rcvd (G s d)) (g_got (G s d) ++ [p]))
      (mkChannel (c_out (C s d)) net).
Proof.
  intros Hch Hnet. destruct (Hch s d) as [Hl Hs Hr _]. set (g := G s d) in *.
  assert (Hitem : ∃ i (k : list packet), g_rcvd g ++ [i] `prefix_of` g_all g ∧ wire s d i = g_got g ++ p :: k ∧
    linked s d (if decide (k = []) then mkGhost (g_sent g) (g_out g) (g_pre g) (g_rcvd g ++ [i]) []
      else mkGhost (g_sent g) (g_out g) (g_pre g) (g_rcvd g) (g_got g ++ [p]))
      (mkChannel (c_out (C s d)) net)).
  { destruct (linked_deliver s d g (C s d) p net Hl Hnet) as (i&Hi&[[Hw Hl']|(q&k&Hw&Hl')]).
    - exists i, []. rewrite decide_True by done. done.
    - exists i, (q :: k). rewrite decide_False by done. done. }
  destruct Hitem as (i&k&Hi&Hw&Hl'). exists i, k. split; [done|]. split; [done|]. split; [|done].
  destruct (re_current _ _ _ _ _ _ Hr) as [(Hgot&Hidle&Hlen)|(m&Hm&Hc)].
  - rewrite Hgot in *. destruct i as [m|a b|a b].
    + split; [|by constructor]. pose proof (se_messages _ _ _ _ _ Hs) as Hms. rewrite Forall_forall in Hms.
      apply Hms. destruct Hi as [l Hi]. rewrite Hi, !messages_app. cbn. set_solver.
    + cbn in Hw. by injection Hw as _ <-.
    + cbn in Hw. by injection Hw as _ <-.
  - assert (i = Message m) as -> by by eapply prefix_next. split; [|done].
    pose proof (se_messages _ _ _ _ _ Hs) as Hms. rewrite Forall_forall in Hms.
    apply Hms. destruct Hi as [l Hi]. rewrite Hi, !messages_app. cbn. set_solver.
Qed.

Lemma receives_only_sending o own own' st d i : receives_only o own own' →
  own' !! st = Some (Sending d i) ↔ own !! st = Some (Sending d i).
Proof.
  intros Hro. destruct (Hro st) as [->|[H1 H2]]; [done|].
  split; intros Hx; rewrite Hx in *; done.
Qed.

Lemma receives_only_other o own own' st o' ph : receives_only o own own' → o' ≠ o →
  own' !! st = Some (Receiving o' ph) ↔ own !! st = Some (Receiving o' ph).
Proof.
  intros Hro Hne. destruct (Hro st) as [->|[H1 H2]]; [done|].
  split; intros Hx; rewrite Hx in *; done.
Qed.

(** The receiver after a packet of a message. *)
Lemma receiver_message d s g T own L m evs own' L' : receiver_ok d s g T own L →
  g_rcvd g ++ [Message m] `prefix_of` g_all g → Forall (reception s) evs →
  keeps_others s (length (messages (g_rcvd g))) L L' →
  (∀ g', g_all g' = g_all g → g_rcvd g' = g_rcvd g ++ [Message m] → g_got g' = [] →
    complete d (T ++ evs) own' L' s (length (messages (g_rcvd g))) m evs →
    receiver_ok d s g' (T ++ evs) own' L') ∧
  (∀ g', g_all g' = g_all g → g_rcvd g' = g_rcvd g →
    current d (T ++ evs) own' L' s (length (messages (g_rcvd g))) m (g_got g') → receipts s evs = [] →
    receiver_ok d s g' (T ++ evs) own' L').
Proof.
  intros [Hcur Hrec Hlen Hrem] Hpre Hevs Hkeep. set (j := length (messages (g_rcvd g))) in *.
  assert (Hold : ∀ j' m', messages (g_rcvd g) !! j' = Some m' → ∃ ev, dispatches s (T ++ evs) !! j' = Some ev ∧
    arrives d L' s j' m' (m_data m') ev ∧ receipts s (T ++ evs) !! j' = Some (callback_of ev)).
  { intros j' m' Hj. destruct (Hrec j' m' Hj) as (ev&H1&H2&H3). exists ev. split; [|split].
    - rewrite dispatches_app. by apply lookup_app_l_Some.
    - eapply arrives_other; [exact Hkeep| |done]. intros [= Heq]. apply lookup_lt_Some in Hj. lia.
    - unfold receipts in *. rewrite omap_app. by apply lookup_app_l_Some. }
  assert (Hrem' : remote_dones s (T ++ evs) = pongs (g_rcvd g)).
  { unfold remote_dones in *. rewrite omap_app, Hrem. change (omap ?f evs) with (remote_dones s evs).
    by rewrite (reception_remote s s evs Hevs), app_nil_r. }
  split.
  - intros g' Ha Hr Hg (Hidle&ds&ev&Hd&Hds&Harr&Hrc).
    assert (Hmsg : messages (g_rcvd g') = messages (g_rcvd g) ++ [m]) by (rewrite Hr, messages_app; done).
    assert (Hrlen : receipts s (T ++ evs) = receipts s T ++ [callback_of ev]).
    { unfold receipts in *. by rewrite omap_app, Hrc. }
    split.
    + left. split; [done|]. split; [done|]. rewrite Hd, Hmsg, !length_app, Hds. done.
    + intros j' m' Hj. rewrite Hmsg in Hj. apply lookup_app_Some in Hj as [Hj|[Hge Hj]]; [by apply Hold|].
      assert (j' = j) as -> by (apply lookup_lt_Some in Hj; cbn in Hj; lia).
      rewrite Nat.sub_diag in Hj. injection Hj as <-. exists ev. split; [|split; [done|]].
      * rewrite Hd. rewrite lookup_app_r by lia. by rewrite Hds, Nat.sub_diag.
      * rewrite Hrlen, lookup_app_r by lia. by rewrite Hlen, Nat.sub_diag.
    + rewrite Hrlen, Hmsg, !length_app. cbn. lia.
    + by rewrite Hr, pongs_app, app_nil_r.
  - intros g' Ha Hr Hc Hrc. split; rewrite ?Hr; try done.
    + right. exists m. rewrite Ha. done.
    + unfold receipts in *. by rewrite omap_app, Hrc, app_nil_r.
Qed.

(** ... and all channels. *)
Lemma deliver_message C T O L G s d p (k : list packet) net m evs own' L' : channels_ok C T O L G None →
  g_rcvd (G s d) ++ [Message m] `prefix_of` g_all (G s d) →
  linked s d (if decide (k = []) then mkGhost (g_sent (G s d)) (g_out (G s d)) (g_pre (G s d)) (g_rcvd (G s d) ++ [Message m]) []
      else mkGhost (g_sent (G s d)) (g_out (G s d)) (g_pre (G s d)) (g_rcvd (G s d)) (g_got (G s d) ++ [p]))
      (mkChannel (c_out (C s d)) net) →
  Forall (reception s) evs → keeps_others s (length (messages (g_rcvd (G s d)))) (L d) L' → receives_only s (O d) own' →
  (k = [] ∧ complete d (T d ++ evs) own' L' s (length (messages (g_rcvd (G s d)))) m evs ∨
   k ≠ [] ∧ current d (T d ++ evs) own' L' s (length (messages (g_rcvd (G s d)))) m (g_got (G s d) ++ [p]) ∧ receipts s evs = []) →
  ∃ G1, channels_ok (upd2 C s d (mkChannel (c_out (C s d)) net)) (<[d := T d ++ evs]> T) (<[d := own']> O) (<[d := L']> L) G1 None ∧
    ∀ x y, g_all (G1 x y) = g_all (G x y).
Proof.
  intros Hch Hpre Hl' Hevs Hkeep Hro Hcase. destruct (Hch s d) as [Hl Hs Hr Hpo]. set (g := G s d) in *.
  destruct (receiver_message d s g (T d) (O d) (L d) m evs own' L' Hr Hpre Hevs Hkeep) as [Hfull Hpart].
  set (g1 := if decide (k = []) then _ else _) in Hl'. exists (upd2 G s d g1).
  assert (Hall : g_all g1 = g_all g) by (unfold g1; by destruct (decide (k = []))).
  assert (Hsame : ∀ x y, g_all (upd2 G s d g1 x y) = g_all (G x y) ∧ pings (g_rcvd (upd2 G s d g1 x y)) = pings (g_rcvd (G x y))).
  { intros x y. unfold upd2. destruct (decide (x = s ∧ y = d)) as [[-> ->]|]; [|done]. split; [done|].
    unfold g1. destruct (decide (k = [])); [|done]. cbn [g_rcvd]. by rewrite pings_app, app_nil_r. }
  split; [|intros; apply Hsame]. intros x y. destruct (Hch x y) as [Hlx Hsx Hrx Hpx]. split.
  - unfold upd2. by destruct (decide (x = s ∧ y = d)) as [[-> ->]|].
  - assert (Hs' : sender_ok y (upd2 G s d g1 x y) (T x) (O x) (due_pings None x y)).
    { unfold upd2. destruct (decide (x = s ∧ y = d)) as [[-> ->]|]; [|done].
      destruct Hsx. unfold g1. destruct (decide (k = [])); by split. }
    destruct (decide (d = x)) as [<-|Hx]; [|by rewrite !fn_lookup_insert_ne]. rewrite !fn_lookup_insert.
    eapply sender_frame; [exact Hs'| |].
    + unfold local_dones. rewrite omap_app. change (omap ?f evs) with (local_dones y evs).
      by rewrite (reception_local s y evs Hevs), app_nil_r.
    + intros st j. by eapply receives_only_sending.
  - destruct (decide (x = s ∧ y = d)) as [[-> ->]|Hne].
    + rewrite upd2_eq, !fn_lookup_insert. unfold g1.
      destruct Hcase as [[-> Hc]|(Hk&Hc&Hrc)].
      * rewrite decide_True by done. by apply Hfull.
      * rewrite decide_False by done. by apply Hpart.
    + rewrite upd2_ne by done. destruct (decide (d = y)) as [<-|Hy]; [|by rewrite !fn_lookup_insert_ne].
      rewrite !fn_lookup_insert. assert (x ≠ s) by naive_solver. eapply receiver_frame; [exact Hrx|..].
      * by rewrite dispatches_app, (reception_dispatches s x evs), app_nil_r.
      * unfold receipts. rewrite omap_app. change (omap ?f evs) with (receipts x evs).
        by rewrite (reception_receipts s x evs), app_nil_r.
      * unfold remote_dones. rewrite omap_app. change (omap ?f evs) with (remote_dones x evs).
        by rewrite (reception_remote s x evs), app_nil_r.
      * intros st ph. by eapply receives_only_other.
      * intros i m' l ev. eapply arrives_other; [exact Hkeep|]. congruence.
  - destruct (Hsame x y) as [-> _], (Hsame y x) as [_ ->]. done.
Qed.

(** An acknowledgement arrives. *)
Lemma deliver_ack C T O L G s d i net evs : channels_ok C T O L G None →
  g_rcvd (G s d) ++ [i] `prefix_of` g_all (G s d) → g_got (G s d) = [] → idle (O d) s →
  length (dispatches s (T d)) = length (messages (g_rcvd (G s d))) →
  linked s d (mkGhost (g_sent (G s d)) (g_out (G s d)) (g_pre (G s d)) (g_rcvd (G s d) ++ [i]) []) (mkChannel (c_out (C s d)) net) →
  match i with Message _ => False | Ping _ _ => evs = [] | Pong a b => evs = [Remote_done s a b] end →
  ∃ G1, channels_ok (upd2 C s d (mkChannel (c_out (C s d)) net)) (<[d := T d ++ evs]> T) O L G1
      (match i with Ping a b => Some (d, s, Pong a b) | _ => None end) ∧
    ∀ x y, g_all (G1 x y) = g_all (G x y).
Proof.
  intros Hch Hpre Hgot Hidle Hlen Hl' Hevs. destruct (Hch s d) as [Hl Hs Hr Hpo]. set (g := G s d) in *.
  set (g1 := mkGhost _ _ _ _ _) in Hl'. exists (upd2 G s d g1).
  assert (Hmsg : messages (g_rcvd g1) = messages (g_rcvd g)).
  { cbn [g_rcvd g1]. rewrite messages_app. destruct i; [done|apply app_nil_r..]. }
  assert (Hlog : ∀ o, dispatches o evs = [] ∧ receipts o evs = [] ∧ local_dones o evs = [] ∧
    remote_dones o evs = if decide (o = s) then pongs [i] else []).
  { intros o. destruct i as [|a b|a b]; [done| |]; subst evs; cbn; [by destruct (decide _)|].
    destruct (Z.eqb_spec s o), (decide (o = s)); try done; congruence. }
  assert (Hall : ∀ x y, g_all (upd2 G s d g1 x y) = g_all (G x y)).
  { intros x y. unfold upd2. destruct (decide (x = s ∧ y = d)) as [[-> ->]|]; done. }
  split; [|done]. intros x y. destruct (Hch x y) as [Hlx Hsx Hrx Hpx]. split.
  - unfold upd2. by destruct (decide (x = s ∧ y = d)) as [[-> ->]|].
  - assert (due_pings (match i with Ping a b => Some (d, s, Pong a b) | _ => None end) x y = []) as ->.
    { by destruct i. }
    assert (Hs' : sender_ok y (upd2 G s d g1 x y) (T x) (O x) []).
    { unfold upd2. destruct (decide (x = s ∧ y = d)) as [[-> ->]|]; [|done]. by destruct Hsx. }
    destruct (decide (d = x)) as [<-|Hx]; [|by rewrite !fn_lookup_insert_ne]. rewrite !fn_lookup_insert.
    eapply sender_frame; [exact Hs'| |done]. unfold local_dones. rewrite omap_app. change (omap ?f evs) with (local_dones y evs).
    by rewrite (proj1 (proj2 (proj2 (Hlog y)))), app_nil_r.
  - destruct (decide (d = y)) as [<-|Hy].
    + rewrite fn_lookup_insert. destruct (Hlog x) as (E1&E2&_&E4).
      assert (Hd : dispatches x (T d ++ evs) = dispatches x (T d)) by (by rewrite dispatches_app, E1, app_nil_r).
      assert (Hrc : receipts x (T d ++ evs) = receipts x (T d)) by (unfold receipts in *; by rewrite omap_app, E2, app_nil_r).
      assert (Hrm : remote_dones x (T d ++ evs) = remote_dones x (T d) ++ (if decide (x = s) then pongs [i] else [])).
      { unfold remote_dones in *. by rewrite omap_app, E4. }
      destruct (decide (x = s)) as [->|Hne].
      * rewrite upd2_eq. destruct Hr as [Hcur Hrec Hln Hrem]. split; rewrite ?Hmsg, ?Hd, ?Hrc, ?Hrm.
        -- by left.
        -- done.
        -- done.
        -- cbn [g_rcvd g1]. by rewrite pongs_app, Hrem.
      * rewrite upd2_ne by naive_solver. rewrite app_nil_r in Hrm. by eapply receiver_frame.
    + rewrite fn_lookup_insert_ne by done. by rewrite upd2_ne by naive_solver.
  - rewrite Hall. cbn [due_pongs] in Hpx. rewrite app_nil_r in Hpx. rewrite Hpx.
    unfold upd2. destruct (decide (y = s ∧ x = d)) as [[-> ->]|Hne].
    + cbn [g_rcvd g1]. rewrite pings_app. f_equal. destruct i; cbn; [done|by rewrite decide_True|done].
    + destruct i; cbn; rewrite ?app_nil_r; [done| |done]. rewrite decide_False by naive_solver. apply app_nil_r.
Qed.
End invariant.
