(* ===== verification/EagerWorld.v ===== *)
(** Runs of the eager protocol: clients call, devices send and receive, in any order.  Every
    step returns and keeps what holds of the endpoints and the channels. *)
From stdpp Require Import functions.
From S2P Require Import Prelude.
From S2P Require Import Memory.
From S2P Require Import TypeMachine.
From S2P Require Import PamiType.
From S2P Require Import MemoryAllocator.
From S2P Require Import EagerSimple.
From S2P Require Import EagerData.
From S2P Require Import EagerWire.
From S2P Require Import EagerEndpoint.
From S2P Require Import EagerSend.
From S2P Require Import EagerReceive.
From S2P Require Import EagerInvariant.

Section world.
Context `{EagerParams} `{EagerSetup}.

Notation payload_bytes := (packet_model_payload_bytes T_Model).

(** * Runs *)

(** [wants] is whether the device of an endpoint takes a packet for a destination at once. *)
Inductive action :=
| Client_calls (wants : Z → bool) (s : Z) (c : call)
| Device_sends (wants : Z → bool) (s d : Z)
| Device_receives (wants : Z → bool) (s d : Z).

Definition step (a : action) (w : world) : res world :=
  match a with
  | Client_calls wants s c =>
      run_at s (λ e, '(e, effs, r) ← run_call (ready_at w s wants) c e; mret (e, effs)) w
  | Device_sends wants s d => inject wants s d w
  | Device_receives wants s d => deliver wants s d w
  end.

(** Nothing was sent yet. *)
Definition start_endpoint (m : Z → mem) (s : Z) : endpoint :=
  mkEndpoint s (m s) (types0 s) MemoryAllocator_new ∅ ∅ 0 [].
Definition start (m : Z → mem) : world := mkWorld (start_endpoint m) ∅.

(** The heaps and the clients have memory for one step more. *)
Definition served (w : world) : Prop := ∀ s,
  can_allocate max_segments (e_pool (w_endpoint w s)) ∧ (e_calls (w_endpoint w s) < max_calls)%nat.

(** The worlds a run leads to, with the messages sent: from where, to where, in this order. *)
Inductive reached (m : Z → mem) : world → list (Z * Z * message) → Prop :=
| reached_start : reached m (start m) []
| reached_call w sent wants s c d ms w' : reached m w sent → served w →
    issues s (ready_at w s wants) (w_endpoint w s) c d ms → step (Client_calls wants s c) w = Ok w' →
    reached m w' (sent ++ map (λ x, (s, d, x)) ms)
| reached_device w sent a w' : reached m w sent → served w →
    (∀ wants s c, a ≠ Client_calls wants s c) → step a w = Ok w' → reached m w' sent.

(** The messages from [s] to [d]. *)
Definition sent_to (sent : list (Z * Z * message)) (s d : Z) : list message :=
  omap (λ '(x, y, m), if decide (x = s ∧ y = d) then Some m else None) sent.

(** * What holds in every run *)

Definition logs (w : world) (s : Z) : list event := e_log (w_endpoint w s).

Definition world_ok (w : world) (sent : list (Z * Z * message)) : Prop :=
  ∃ (O : Z → gmap Z use) (L : Z → gmap nat landed) (G : Z → Z → ghost),
    (∀ s, endpoint_ok s (w_endpoint w s) (O s) (L s)) ∧
    channels_ok (chan w) (logs w) O L G None ∧
    ∀ s d, messages (g_all (G s d)) = sent_to sent s d.

Context (Hok : eager_ok).

(** ** The channels after a step *)

Lemma chan_set_chan s d c w x y : chan (set_chan s d c w) x y = upd2 (chan w) s d c x y.
Proof.
  unfold chan, set_chan, upd2. cbn. destruct (decide (x = s ∧ y = d)) as [[-> ->]|Hne].
  - by rewrite lookup_insert_eq.
  - rewrite lookup_insert_ne; [done|]. intros [= -> ->]. naive_solver.
Qed.

Definition dest_of (eff : effect) : Z := match eff with Now d _ | Posted d _ => d end.

Lemma apply_effects_chan s d effs w : Forall (λ eff, dest_of eff = d) effs → ∀ x y,
  chan (apply_effects s effs w) x y = upd2 (chan w) s d (sent_to_device (chan w s d) effs) x y.
Proof.
  intros Hd. revert w. induction Hd as [|eff effs Heff _ IH]; intros w x y.
  - cbn. unfold upd2. by destruct (decide (x = s ∧ y = d)) as [[-> ->]|].
  - unfold apply_effects in *. cbn [foldl]. rewrite IH.
    assert (∀ x y, chan (apply_effect s w eff) x y = upd2 (chan w) s d (sent_to_device (chan w s d) [eff]) x y) as Hone.
    { intros x' y'. destruct eff; cbn in *; subst; apply chan_set_chan. }
    unfold upd2 at 1 2. destruct (decide (x = s ∧ y = d)) as [[-> ->]|Hne].
    + rewrite Hone, upd2_eq. done.
    + by rewrite Hone, upd2_ne.
Qed.

Lemma apply_effects_endpoint s effs w : w_endpoint (apply_effects s effs w) = w_endpoint w.
Proof.
  revert w. induction effs as [|eff effs IH]; intros w; [done|]. unfold apply_effects in *. cbn [foldl].
  rewrite IH. by destruct eff.
Qed.

Lemma emits_dest s ready d i own effs own' : emits s ready d i own effs own' → Forall (λ eff, dest_of eff = d) effs.
Proof.
  intros [p ? ? ?|st ps _ _]; [by repeat constructor|]. apply Forall_forall. intros eff Hin%list_elem_of_In%in_map_iff.
  by destruct Hin as (p&<-&_).
Qed.

Lemma sent_to_app l1 l2 s d : sent_to (l1 ++ l2) s d = sent_to l1 s d ++ sent_to l2 s d.
Proof. apply omap_app. Qed.

(** ** Handing over what is due *)

Lemma settle w O L G s d i ready effs own' sent :
  (∀ x, endpoint_ok x (w_endpoint w x) ((<[s := own']> O) x) (L x)) →
  channels_ok (chan w) (logs w) O L G (Some (s, d, i)) → emits s ready d i (O s) effs own' →
  (ready d = true → c_out (chan w s d) = []) → match i with Message m => message_ok m | _ => True end →
  (∀ x y, messages (g_all (G x y)) = sent_to sent x y) →
  world_ok (apply_effects s effs w) (sent ++ map (λ m, (s, d, m)) (messages [i])).
Proof.
  intros He Hch Hem Hready Hm Hsent.
  destruct (emit_channels (chan w) (logs w) O L G s d i ready effs own' Hch Hem Hready Hm) as (G'&Hch'&Hmsg).
  exists (<[s := own']> O), L, G'. split; [by rewrite apply_effects_endpoint|]. split.
  - eapply channels_ext; [| | | |exact Hch']; [|by unfold logs; rewrite apply_effects_endpoint|done..].
    intros x y. apply apply_effects_chan. by eapply emits_dest.
  - intros x y. rewrite Hmsg, sent_to_app, Hsent. f_equal. destruct i; cbn; unfold sent_to; cbn.
    + destruct (decide (x = s ∧ y = d)) as [[-> ->]|Hne]; [by rewrite decide_True|].
      rewrite decide_False; [done|]. naive_solver.
    + by destruct (decide _).
    + by destruct (decide _).
Qed.

Lemma ready_at_out w s wants d : ready_at w s wants d = true → c_out (chan w s d) = [].
Proof. unfold ready_at. intros [_ Hb]%andb_prop. by apply bool_decide_eq_true in Hb. Qed.

(** ** The steps *)

Lemma endpoint_start m s : endpoint_ok s (start_endpoint m s) ∅ ∅.
Proof.
  split; cbn.
  - done.
  - apply grown_refl.
  - rewrite dom_empty_L. by apply pool_new.
  - intros st u Hu. by rewrite lookup_empty in Hu.
  - intros st o ph Hu. by rewrite lookup_empty in Hu.
  - intros k la Hk. by rewrite lookup_empty in Hk.
  - lia.
Qed.

Lemma world_start m : world_ok (start m) [].
Proof.
  exists (λ _, ∅), (λ _, ∅), (λ _ _, no_ghost). split; [intros s; apply endpoint_start|split]; [|done].
  intros s d. split; cbn.
  - unfold chan. cbn. rewrite lookup_empty. apply linked_no_ghost.
  - split; cbn; try done; [|by apply NoDup_nil_2|].
    + intros st i. rewrite lookup_empty. split; [done|by intros ?%elem_of_nil].
    + intros X HX%prefix_nil_inv. by subst.
  - split; cbn; [left; by split; [done|split; [intros st ph; by rewrite lookup_empty|]]|done|done|done].
  - done.
Qed.

Lemma call_step w sent wants s c d ms : world_ok w sent → served w →
  issues s (ready_at w s wants) (w_endpoint w s) c d ms →
  ∃ w', step (Client_calls wants s c) w = Ok w' ∧ world_ok w' (sent ++ map (λ x, (s, d, x)) ms).
Proof.
  intros (O&L&G&He&Hch&Hsent) Hserved Hi. destruct (Hserved s) as [Hcan _].
  destruct (call_spec Hok s (w_endpoint w s) (O s) (L s) _ c d ms Hi (He s) Hcan)
    as (e'&effs&own'&r&Hrun&He'&Hlog&Hcalls&Hdone).
  cbn [step]. unfold run_at. rewrite Hrun, !Ok_bind. eexists. split; [reflexivity|].
  set (w1 := set_endpoint s e' w).
  assert (Hlogs : ∀ x, logs w1 x = logs w x).
  { intros x. unfold logs, w1. cbn. destruct (decide (s = x)) as [<-|]; [by rewrite fn_lookup_insert|by rewrite fn_lookup_insert_ne]. }
  assert (Hch1 : channels_ok (chan w1) (logs w1) O L G None) by by eapply channels_ext.
  assert (Hends : ∀ x, endpoint_ok x (w_endpoint w1 x) ((<[s := own']> O) x) (L x)).
  { intros x. cbn. destruct (decide (s = x)) as [<-|]; [by rewrite !fn_lookup_insert|by rewrite !fn_lookup_insert_ne]. }
  destruct ms as [|m [|m' ms]]; cbn in Hdone.
  - destruct Hdone as [-> ->]. cbn [map]. rewrite app_nil_r. exists (<[s := O s]> O), L, G. split; [done|]. split; [|done].
    eapply channels_ext; [| | | |exact Hch1]; try done. intros x.
    destruct (decide (s = x)) as [<-|]; [by rewrite fn_lookup_insert|by rewrite fn_lookup_insert_ne].
  - destruct Hdone as [Hm Hem].
    apply (settle w1 O L G s d (Message m) (ready_at w s wants) effs own' sent); try done.
    + intros x y. destruct (Hch1 x y) as [? ? ? ?]. by split.
    + exact (ready_at_out w s wants d).
  - inversion Hi.
Qed.

Lemma inject_eq wants s d w p out : c_out (chan w s d) = p :: out →
  let net := c_net (chan w s d) ++ [first_packet p] in
  inject wants s d w = match rest_payload p with
  | [] => let w := set_chan s d (mkChannel out net) w in
      run_at s (completed_post (ready_at w s wants) (po_done p)) w
  | _ => mret (set_chan s d (mkChannel (rest_post p :: out) net) w)
  end.
Proof.
  intros Hout net. unfold inject. rewrite Hout. unfold net, rest_post, first_packet, rest_payload.
  by destruct (drop _ (po_payload p)).
Qed.

Lemma set_endpoint_same w s x : w_endpoint (set_endpoint s (w_endpoint w s) w) x = w_endpoint w x.
Proof. cbn. destruct (decide (s = x)) as [<-|]; [by rewrite fn_lookup_insert|by rewrite fn_lookup_insert_ne]. Qed.

Lemma inject_step w sent wants s d : world_ok w sent → served w →
  ∃ w', step (Device_sends wants s d) w = Ok w' ∧ world_ok w' sent.
Proof.
  intros (O&L&G&He&Hch&Hsent) Hserved. cbn [step]. assert (Hpay : 0 < payload_bytes) by (pose proof (payload_small Hok); lia).
  destruct (c_out (chan w s d)) as [|p out] eqn:Hout.
  { exists w. unfold inject. rewrite Hout. split; [done|]. by exists O, L, G. }
  rewrite (inject_eq wants s d w p out Hout). cbn zeta.
  destruct (inject_channels (chan w) (logs w) O L G s d p out Hpay Hch Hout)
    as [(G1&Hno&Hch1&Hall)|(Hr&i&st&G1&Hdone&Hst&Hch1&Hall)].
  - assert (Hsent1 : ∀ x y, messages (g_all (G1 x y)) = sent_to sent x y) by (intros; by rewrite Hall).
    destruct (rest_payload p) as [|x l] eqn:Hr.
    + rewrite Hno by done. unfold run_at, completed_post. rewrite bind_ret. eexists. split; [reflexivity|].
      rewrite decide_True in Hch1 by done. exists O, L, G1. split; [|split; [|done]].
      * intros x. rewrite apply_effects_endpoint, set_endpoint_same. apply He.
      * eapply channels_ext; [| | | |exact Hch1]; [| |done..].
        -- intros x y. apply chan_set_chan.
        -- intros x. unfold logs. by rewrite apply_effects_endpoint, set_endpoint_same.
    + rewrite decide_False in Hch1 by done. eexists. split; [reflexivity|]. exists O, L, G1. split; [done|]. split; [|done].
      eapply channels_ext; [| | | |exact Hch1]; [|done..]. intros x1 y1. apply chan_set_chan.
  - rewrite Hr. set (w1 := set_chan s d _ w). unfold run_at. change (w_endpoint w1 s) with (w_endpoint w s).
    destruct (Hserved s) as [Hcan _].
    assert (Hcomp : ∃ e' effs own', completed_post (ready_at w1 s wants) (po_done p) (w_endpoint w s) = Ok (e', effs) ∧
      endpoint_ok s e' own' (L s) ∧ e_log e' = logs w s ++ completion_events d i ∧
      match completion_debt s d i with
      | Some (_, _, j) => emits s (ready_at w1 s wants) d j (delete st (O s)) effs own'
      | None => effs = [] ∧ own' = delete st (O s)
      end ∧ match completion_debt s d i with Some (x, y, Ping _ _) => x = s ∧ y = d | Some _ => False | None => True end).
    { rewrite Hdone. destruct i as [m|a b|a b]; cbn [done_of completed_post completion_debt completion_events].
      - destruct (send_complete_spec Hok s (w_endpoint w s) (O s) (L s) (ready_at w1 s wants) st d m (He s) Hst)
          as (e'&effs&own'&Hrun&He'&Hlog&_&Hem). exists e', effs, own'. split; [done|]. split; [done|]. split; [done|].
        by destruct (m_remote_fn m =? 0).
      - destruct (complete_remotefn_spec s (w_endpoint w s) (O s) (L s) st d (Ping a b) (He s) Hst) as [Hrun He'].
        eexists _, _, _. split; [exact Hrun|]. split; [exact He'|]. split; [cbn; by rewrite app_nil_r|done].
      - destruct (complete_remotefn_spec s (w_endpoint w s) (O s) (L s) st d (Pong a b) (He s) Hst) as [Hrun He'].
        eexists _, _, _. split; [exact Hrun|]. split; [exact He'|]. split; [cbn; by rewrite app_nil_r|done]. }
    destruct Hcomp as (e'&effs&own'&Hrun&He'&Hlog&Hem&Hshape). rewrite Hrun, Ok_bind.
    eexists. split; [reflexivity|]. set (w2 := set_endpoint s e' w1).
    assert (Hch2 : channels_ok (chan w2) (logs w2) (<[s := delete st (O s)]> O) L G1 (completion_debt s d i)).
    { eapply channels_ext; [| | | |exact Hch1]; [| |done..].
      - intros x y. apply chan_set_chan.
      - intros x. unfold logs, w2. cbn. destruct (decide (s = x)) as [<-|]; [by rewrite !fn_lookup_insert|by rewrite !fn_lookup_insert_ne]. }
    assert (Hends : ∀ x, endpoint_ok x (w_endpoint w2 x) ((<[s := own']> (<[s := delete st (O s)]> O)) x) (L x)).
    { intros x. cbn. destruct (decide (s = x)) as [<-|]; [by rewrite !fn_lookup_insert|by rewrite !fn_lookup_insert_ne]. }
    assert (Hsent1 : ∀ x y, messages (g_all (G1 x y)) = sent_to sent x y) by (intros; by rewrite Hall).
    destruct (completion_debt s d i) as [[[x y] j]|].
    + destruct j as [|a b|]; [done| |done]. destruct Hshape as [-> ->].
      rewrite <- (app_nil_r sent).
      apply (settle w2 (<[s := delete st (O s)]> O) L G1 s d (Ping a b) (ready_at w1 s wants) effs own' sent); try done.
      * by rewrite fn_lookup_insert.
      * exact (ready_at_out w1 s wants d).
    + destruct Hem as [-> ->]. eexists _, L, G1. split; [exact Hends|]. split; [|done].
      eapply channels_ext; [| | | |exact Hch2]; try done. intros x.
      destruct (decide (s = x)) as [<-|]; [by rewrite !fn_lookup_insert|by rewrite !fn_lookup_insert_ne].
Qed.

Lemma deliver_step w sent wants s d : world_ok w sent → served w →
  ∃ w', step (Device_receives wants s d) w = Ok w' ∧ world_ok w' sent.
Proof.
  intros (O&L&G&He&Hch&Hsent) Hserved. cbn [step]. unfold deliver.
  destruct (c_net (chan w s d)) as [|p net] eqn:Hnet; [by exists w; split; [done|exists O, L, G]|].
  set (w1 := set_chan s d (mkChannel (c_out (chan w s d)) net) w). unfold run_at.
  change (w_endpoint w1 d) with (w_endpoint w d). destruct (Hserved d) as [Hcan Hcalls].
  destruct (next_item (chan w) (logs w) O L G s d p net Hch Hnet) as (i&k&Hpre&Hw&Hitem&Hl').
  assert (Hchan1 : ∀ x y, chan w1 x y = upd2 (chan w) s d (mkChannel (c_out (chan w s d)) net) x y) by (intros; apply chan_set_chan).
  destruct i as [m|a b|a b].
  - destruct Hitem as [Hm Hcur].
    destruct (message_step Hok d (w_endpoint w d) (O d) (L d) s (length (messages (g_rcvd (G s d)))) m (He d) Hcan Hcalls Hm
      s (ready_at w1 d wants) (g_got (G s d)) p k Hcur Hw) as (e'&own'&L'&evs&Hrun&[He' Hlog Hevs Hkeep Hro _]&Hcase).
    rewrite Hrun, Ok_bind. eexists. split; [reflexivity|]. rewrite Hlog in Hcase.
    destruct (deliver_message (chan w) (logs w) O L G s d p k net m evs own' L' Hch Hpre Hl' Hevs Hkeep Hro Hcase)
      as (G1&Hch1&Hall).
    exists (<[d := own']> O), (<[d := L']> L), G1. split; [|split; [|intros; by rewrite Hall]].
    + intros x. cbn. destruct (decide (d = x)) as [<-|]; [by rewrite !fn_lookup_insert|by rewrite !fn_lookup_insert_ne].
    + eapply channels_ext; [| | | |exact Hch1]; [apply Hchan1| |done..].
      intros x. unfold logs. cbn. destruct (decide (d = x)) as [<-|]; [by rewrite !fn_lookup_insert|by rewrite !fn_lookup_insert_ne].
  - destruct Hitem as (->&Hgot&Hidle&Hlen). rewrite Hgot in Hw. cbn [wire app] in Hw. injection Hw as <-.
    rewrite decide_True in Hl' by done.
    destruct (deliver_ack (chan w) (logs w) O L G s d (Ping a b) net [] Hch Hpre Hgot Hidle Hlen Hl' eq_refl) as (G1&Hch1&Hall).
    destruct (answer_spec Hok d (incoming (ping_packet s a b) (w_endpoint w d)) (O d) (L d) (ready_at w1 d wants) s a b s)
      as (e'&effs&own'&Hrun&Hem&He'&Hlog&_); [|exact Hcan|].
    { apply (endpoint_incoming Hok); [done|]. pose proof (payload_small Hok). change (len (p_payload (ping_packet s a b))) with 0. lia. }
    unfold dispatch. cbn [p_model ping_packet]. unfold incoming in Hrun. cbn [p_payload ping_packet] in Hrun |- *.
    rewrite Hrun, Ok_bind. eexists. split; [reflexivity|].
    rewrite <- (app_nil_r sent).
    apply (settle (set_endpoint d e' w1) O L G1 d s (Pong a b) (ready_at w1 d wants) effs own' sent); try done.
    + intros x. cbn. destruct (decide (d = x)) as [<-|]; [by rewrite !fn_lookup_insert|by rewrite !fn_lookup_insert_ne].
    + eapply channels_ext; [| | | |exact Hch1]; [apply Hchan1| |done..].
      intros x. unfold logs. cbn. destruct (decide (d = x)) as [<-|]; [|by rewrite !fn_lookup_insert_ne].
      rewrite !fn_lookup_insert, app_nil_r. exact Hlog.
    + exact (ready_at_out w1 d wants s).
    + intros x y. by rewrite Hall.
  - destruct Hitem as (->&Hgot&Hidle&Hlen). rewrite Hgot in Hw. cbn [wire app] in Hw. injection Hw as <-.
    rewrite decide_True in Hl' by done.
    destruct (deliver_ack (chan w) (logs w) O L G s d (Pong a b) net [Remote_done s a b] Hch Hpre Hgot Hidle Hlen Hl' eq_refl) as (G1&Hch1&Hall).
    eexists. split; [reflexivity|]. exists O, L, G1. split; [|split; [|intros; by rewrite Hall]].
    + intros x. cbn. destruct (decide (d = x)) as [<-|]; [|by rewrite fn_lookup_insert_ne].
      rewrite fn_lookup_insert. apply endpoint_event.
      apply (endpoint_incoming Hok d (w_endpoint w d) (O d) (L d) (pong_packet s a b d)); [done|].
      pose proof (payload_small Hok). change (len (p_payload (pong_packet s a b d))) with 0. lia.
    + eapply channels_ext; [| | | |exact Hch1]; [apply Hchan1| |done..].
      intros x. unfold logs. cbn. destruct (decide (d = x)) as [<-|]; [by rewrite !fn_lookup_insert|by rewrite !fn_lookup_insert_ne].
Qed.

Lemma device_step w sent a : world_ok w sent → served w → (∀ wants s c, a ≠ Client_calls wants s c) →
  ∃ w', step a w = Ok w' ∧ world_ok w' sent.
Proof.
  intros Hw Hs Ha. destruct a as [wants s c|wants s d|wants s d].
  - by destruct (Ha wants s c).
  - by apply inject_step.
  - by apply deliver_step.
Qed.

Lemma reached_ok m w sent : reached m w sent → world_ok w sent.
Proof.
  induction 1 as [|w sent wants s c d ms w' Hr IH Hs Hi Hstep|w sent a w' Hr IH Hs Ha Hstep].
  - apply world_start.
  - destruct (call_step w sent wants s c d ms IH Hs Hi) as (w2&Hstep2&Hok2). congruence.
  - destruct (device_step w sent a IH Hs Ha) as (w2&Hstep2&Hok2). congruence.
Qed.
End world.
