(* ===== verification/EagerProgress.v ===== *)
(** Runs of the eager protocol end: each packet a device sends or takes brings the end nearer,
    and takes at most one state and one dispatch call. *)
From stdpp Require Import functions.
From S2P Require Import Prelude.
From S2P Require Import Memory.
From S2P Require Import TypeMachine.
From S2P Require Import PamiType.
From S2P Require Import MemoryAllocator.
From S2P Require Import EagerSimple.
From S2P Require Import EagerWire.
From S2P Require Import EagerEndpoint.
From S2P Require Import EagerSend.
From S2P Require Import EagerReceive.
From S2P Require Import EagerInvariant.
From S2P Require Import EagerWorld.

Section progress.
Context `{EagerParams} `{EagerSetup}.

Notation payload_bytes := (packet_model_payload_bytes T_Model).

(** * What is left to do *)

(** A packet under way; one that asks for an answer counts for the answer, too. *)
Definition packet_work (p : packet) : nat :=
  match p_struct p with Some (ack_metadata _ _ _ false) => 3 | _ => 1 end.
(** A packet not sent yet. *)
Definition unsent_work (p : packet) : nat := S (packet_work p).
Definition sum_of {A} (f : A → nat) (l : list A) : nat := foldr (λ x n, f x + n)%nat 0%nat l.
(** A post; the completion of a message may ask for an acknowledgement. *)
Definition post_work (p : post) : nat :=
  sum_of unsent_work (expand p) + match po_done p with send_complete_fn _ => 4 | _ => 0 end.
Definition channel_work (c : channel) : nat := (sum_of post_work (c_out c) + sum_of packet_work (c_net c))%nat.
Definition work (w : world) : nat := map_fold (λ _ c n, (channel_work c + n)%nat) 0%nat (w_channel w).
Definition effect_work (eff : effect) : nat :=
  match eff with Now _ p => packet_work p | Posted _ p => post_work p end.

Lemma sum_of_cons {A} (f : A → nat) x l : sum_of f (x :: l) = (f x + sum_of f l)%nat.
Proof. done. Qed.
Lemma sum_of_app {A} (f : A → nat) l1 l2 : sum_of f (l1 ++ l2) = (sum_of f l1 + sum_of f l2)%nat.
Proof. induction l1 as [|x l1 IH]; cbn; [done|]. unfold sum_of in *. lia. Qed.

Lemma packet_work_bounds p : (1 ≤ packet_work p ≤ 3)%nat.
Proof. unfold packet_work. repeat case_match; lia. Qed.

(** ** Changing a channel *)

Lemma work_delete w s d : work w = (channel_work (chan w s d) + work (mkWorld (w_endpoint w) (delete (s, d) (w_channel w))))%nat.
Proof.
  unfold chan, work. cbn [w_channel]. destruct (w_channel w !! (s, d)) as [c|] eqn:Hc; cbn [default].
  - rewrite (map_fold_delete_L _ _ (s, d) c); [done| |done]. intros. lia.
  - cbn. by rewrite delete_id.
Qed.

Lemma work_set_chan w s d c : (work (set_chan s d c w) + channel_work (chan w s d) = work w + channel_work c)%nat.
Proof.
  rewrite (work_delete w s d), (work_delete (set_chan s d c w) s d), chan_set_chan, upd2_eq.
  unfold set_chan. cbn [w_channel w_endpoint]. rewrite delete_insert_eq. unfold work. cbn [w_channel]. lia.
Qed.

Lemma work_apply_effects s effs w : work (apply_effects s effs w) = (work w + sum_of effect_work effs)%nat.
Proof.
  revert w. induction effs as [|eff effs IH]; intros w; [cbn; lia|]. unfold apply_effects in *. cbn [foldl].
  rewrite IH. assert (work (apply_effect s w eff) = work w + effect_work eff)%nat as ->; [|rewrite sum_of_cons; lia].
  destruct eff as [d p|d p]; cbn [apply_effect effect_work].
  - pose proof (work_set_chan w s d (mkChannel (c_out (chan w s d)) (c_net (chan w s d) ++ [p]))) as Hw.
    unfold channel_work in Hw. cbn [c_out c_net] in Hw. rewrite sum_of_app, sum_of_cons in Hw. change (sum_of _ []) with 0%nat in Hw. lia.
  - pose proof (work_set_chan w s d (mkChannel (c_out (chan w s d) ++ [p]) (c_net (chan w s d)))) as Hw.
    unfold channel_work in Hw. cbn [c_out c_net] in Hw. rewrite sum_of_app, sum_of_cons in Hw. change (sum_of _ []) with 0%nat in Hw. lia.
Qed.

(** ** What the protocol's functions ask of the device *)

Lemma send_remotefn_work ready d fn ck e e' effs : send_remotefn ready d fn ck e = (e', effs) →
  (sum_of effect_work effs ≤ 4)%nat.
Proof.
  unfold send_remotefn. destruct (ready d).
  - intros [= <- <-]. cbn. set (p := single_packet _ _ _ _). pose proof (packet_work_bounds p). lia.
  - destruct (allocateState e) as [st e1]. intros [= <- <-]. cbn. unfold post_work. cbn.
    unfold unsent_work. match goal with |- context [packet_work ?p] => pose proof (packet_work_bounds p) end. lia.
Qed.

Lemma completed_post_work ready fn e e' effs : completed_post ready fn e = Ok (e', effs) →
  (∀ st, fn ≠ complete_data_fn st) →
  (sum_of effect_work effs ≤ match fn with send_complete_fn _ => 4 | _ => 0 end)%nat.
Proof.
  intros Hr Hfn. destruct fn as [|st|st|st]; cbn [completed_post] in Hr; [|..|by destruct (Hfn st)|].
  - inv_ok. cbn. lia.
  - unfold send_complete in Hr. inv_ok. case_match; simplify_eq/=; [lia|]. by eapply send_remotefn_work.
  - unfold complete_remotefn in Hr. inv_ok. cbn. lia.
Qed.

(** A packet that is taken leaves less to do than it was. *)
#[local] Instance packet_model_eq_dec : EqDecision packet_model.
Proof. solve_decision. Defined.

Lemma answer_work src ready p e e' effs : dispatch_remotefn src ready p e = Ok (e', effs) →
  (S (sum_of effect_work effs) ≤ packet_work p)%nat.
Proof.
  unfold dispatch_remotefn, packet_work. destruct (p_struct p) as [[| | | |fn ck ctx [|]]|]; try done.
  - intros [= <- <-]. cbn. lia.
  - destruct (p_metadata p) as [[| | |d|]|]; try done. destruct (ready d).
    + intros [= <- <-]. cbn. unfold packet_work, single_packet, fits. cbn [p_struct]. destruct (_ <=? _); cbn; lia.
    + destruct (allocateState e) as [st e1]. intros [= <- <-]. cbn. unfold post_work, unsent_work. cbn.
      unfold packet_work, post_packet, single_packet, fits. cbn. destruct (_ <=? _); cbn; lia.
Qed.

Ltac run_cases := repeat first [case_match | progress inv_ok]; simplify_eq/=.

Lemma dispatch_effects src ready p e e' effs : dispatch src ready p e = Ok (e', effs) → p_model p ≠ ack_model → effs = [].
Proof.
  unfold dispatch. intros Hr Hm. destruct (p_model p); [..|done|].
  - unfold dispatch_envelope_packed in Hr. run_cases; done.
  - unfold dispatch_envelope_metadata in Hr. run_cases; done.
  - unfold dispatch_envelope_header in Hr. run_cases; done.
  - unfold dispatch_data in Hr. run_cases; done.
  - unfold dispatch_packed in Hr. run_cases; done.
Qed.

Lemma dispatch_work src ready p e e' effs : dispatch src ready p e = Ok (e', effs) →
  (S (sum_of effect_work effs) ≤ packet_work p)%nat.
Proof.
  intros Hr. destruct (decide (p_model p = ack_model)) as [Hm|Hm].
  - unfold dispatch in Hr. rewrite Hm in Hr. by eapply answer_work.
  - rewrite (dispatch_effects _ _ _ _ _ _ Hr Hm). cbn. apply packet_work_bounds.
Qed.

(** ** What a step takes *)

Definition segments (e : endpoint) : nat := length (al_segments (e_pool e)).

(** At most one segment and one call. *)
Definition takes_one (e e' : endpoint) : Prop :=
  (segments e' ≤ S (segments e))%nat ∧ (e_calls e' ≤ S (e_calls e))%nat.

Lemma allocate_segments e st e' : allocateState e = (st, e') →
  (segments e' ≤ S (segments e))%nat ∧ e_calls e' = e_calls e.
Proof.
  unfold allocateState, allocateObject, segments. intros Ha. destruct (al_head (e_pool e)) as [|x l].
  - unfold internalAllocate in Ha. rewrite returned_objects in Ha. injection Ha as _ <-. cbn. lia.
  - injection Ha as _ <-. cbn. lia.
Qed.

Lemma callback_same fn ev e : e_pool (call_unless_null fn ev e) = e_pool e ∧ e_calls (call_unless_null fn ev e) = e_calls e.
Proof. unfold call_unless_null. by destruct (fn =? 0). Qed.

Lemma open_machine_same ty off fn ck e e' m : open_machine ty off fn ck e = Ok (e', m) →
  e_pool e' = e_pool e ∧ e_calls e' = e_calls e.
Proof. unfold open_machine. intros Hr. run_cases; done. Qed.

Lemma process_envelope_same header n o t e t' e' : process_envelope header n o t e = Ok (t', e') →
  e_pool e' = e_pool e ∧ e_calls e' = S (e_calls e).
Proof.
  unfold process_envelope, refuse_recv. intros Hr. run_cases;
    try match goal with Hm : open_machine _ _ _ _ _ = _ |- _ => apply open_machine_same in Hm as [-> ->] end;
    rewrite ?(proj1 (callback_same _ _ _)), ?(proj2 (callback_same _ _ _)); done.
Qed.

Lemma copy_data_same t n e t' e' : copy_data t n e = Ok (t', e') → e_pool e' = e_pool e ∧ e_calls e' = e_calls e.
Proof. unfold copy_data. intros Hr. run_cases; done. Qed.

(** Where the pool and the calls of an endpoint come from. *)
Ltac trace_pool := repeat match goal with
  | Hm : open_machine _ _ _ _ _ = Ok _ |- _ => apply open_machine_same in Hm as [? ?]
  | Hm : process_envelope _ _ _ _ _ = Ok _ |- _ => apply process_envelope_same in Hm as [? ?]
  | Hm : copy_data _ _ _ = Ok _ |- _ => apply copy_data_same in Hm as [? ?]
  | Hm : allocateState _ = _ |- _ => apply allocate_segments in Hm as [? ?]
  end; unfold takes_one, segments in *; cbn in *;
  repeat match goal with
  | |- context [e_pool (call_unless_null ?f ?v ?e)] => rewrite (proj1 (callback_same f v e))
  | |- context [e_calls (call_unless_null ?f ?v ?e)] => rewrite (proj2 (callback_same f v e))
  | Hm : context [e_pool (call_unless_null ?f ?v ?e)] |- _ => rewrite (proj1 (callback_same f v e)) in Hm
  | Hm : context [e_calls (call_unless_null ?f ?v ?e)] |- _ => rewrite (proj2 (callback_same f v e)) in Hm
  | Hm : e_pool ?e = _ |- _ => rewrite Hm in *; clear Hm
  | Hm : e_calls ?e = _ |- _ => rewrite Hm in *; clear Hm
  end; cbn in *; split; lia.

Lemma answer_takes src ready p e e' effs : dispatch_remotefn src ready p e = Ok (e', effs) → takes_one e e'.
Proof. unfold dispatch_remotefn. intros Hr. run_cases; trace_pool. Qed.

Lemma packed_takes p e e' effs : dispatch_packed p e = Ok (e', effs) → takes_one e e'.
Proof. unfold dispatch_packed, refuse_recv. intros Hr. run_cases; trace_pool. Qed.

Lemma envelope_takes p e e' effs : dispatch_envelope_packed p e = Ok (e', effs) → takes_one e e'.
Proof. unfold dispatch_envelope_packed. intros Hr. run_cases; trace_pool. Qed.

Lemma longheader_takes p e e' effs : dispatch_envelope_metadata p e = Ok (e', effs) → takes_one e e'.
Proof. unfold dispatch_envelope_metadata. intros Hr. run_cases; trace_pool. Qed.

Lemma header_takes p e e' effs : dispatch_envelope_header p e = Ok (e', effs) → takes_one e e'.
Proof. unfold dispatch_envelope_header. intros Hr. run_cases; trace_pool. Qed.

Lemma data_takes p e e' effs : dispatch_data p e = Ok (e', effs) → takes_one e e'.
Proof. unfold dispatch_data. intros Hr. run_cases; trace_pool. Qed.

Lemma dispatch_takes src ready p e e' effs : dispatch src ready p e = Ok (e', effs) → takes_one e e'.
Proof.
  unfold dispatch. set (e1 := set_mem _ e). intros Hr. change (takes_one e1 e').
  destruct (p_model p); [by eapply envelope_takes|by eapply longheader_takes|by eapply header_takes|by eapply data_takes|
    by eapply answer_takes|by eapply packed_takes].
Qed.

Lemma completed_post_takes ready fn e e' effs : completed_post ready fn e = Ok (e', effs) →
  (∀ st, fn ≠ complete_data_fn st) → takes_one e e'.
Proof.
  intros Hr Hfn. destruct fn as [|st|st|st]; cbn [completed_post] in Hr; [|..|by destruct (Hfn st)|].
  - inv_ok. split; lia.
  - unfold send_complete, send_remotefn in Hr. run_cases; trace_pool.
  - unfold complete_remotefn in Hr. inv_ok. trace_pool.
Qed.

(** * Steps of the devices *)

(** A device has something to send, or a packet is there for it. *)
Definition productive (a : action) (w : world) : Prop :=
  match a with
  | Client_calls _ _ _ => False
  | Device_sends _ s d => c_out (chan w s d) ≠ []
  | Device_receives _ s d => c_net (chan w s d) ≠ []
  end.

(** Nothing is under way. *)
Definition at_rest (w : world) : Prop := ∀ s d, c_out (chan w s d) = [] ∧ c_net (chan w s d) = [].

Lemma quiet_or_productive w : at_rest w ∨ ∃ a, productive a w.
Proof.
  destruct (decide (map_Forall (λ _ c, c_out c = [] ∧ c_net c = []) (w_channel w))) as [Hq|Hn].
  - left. intros s d. unfold chan. destruct (w_channel w !! (s, d)) as [c|] eqn:Hc; [by apply (Hq (s, d))|done].
  - right. apply map_not_Forall in Hn as ([s d]&c&Hc&Hne); [|apply _].
    assert (chan w s d = c) as Heq by (unfold chan; by rewrite Hc).
    destruct (decide (c_out c = [])) as [Ho|Ho].
    + exists (Device_receives (λ _, true) s d). cbn. rewrite Heq. intros Hnet. by apply Hne.
    + exists (Device_sends (λ _, true) s d). cbn. by rewrite Heq.
Qed.

Context (Hok : eager_ok).

Lemma posts_completion w sent s d p out : world_ok w sent → c_out (chan w s d) = p :: out → rest_payload p = [] →
  ∀ st, po_done p ≠ complete_data_fn st.
Proof.
  intros (O&L&G&_&Hch&_) Hout Hr st.
  destruct (inject_channels (chan w) (logs w) O L G s d p out (payload_pos Hok) Hch Hout)
    as [(G1&Hno&_)|(_&i&st'&G1&Hdone&_)]; [by rewrite Hno|]. rewrite Hdone. by destruct i.
Qed.

Lemma takes_one_refl e : takes_one e e.
Proof. split; lia. Qed.

Lemma takes_one_at s e w x : takes_one (w_endpoint w s) e → takes_one (w_endpoint w x) (w_endpoint (set_endpoint s e w) x).
Proof.
  intros Ht. cbn. destruct (decide (s = x)) as [<-|]; [by rewrite fn_lookup_insert|].
  rewrite fn_lookup_insert_ne by done. apply takes_one_refl.
Qed.

Lemma post_work_last p : rest_payload p = [] →
  post_work p = (S (packet_work (first_packet p)) + match po_done p with send_complete_fn _ => 4 | _ => 0 end)%nat.
Proof.
  intros Hr. unfold post_work. rewrite (expand_last p (payload_pos Hok) Hr). rewrite sum_of_cons.
  unfold unsent_work. change (sum_of _ []) with 0%nat. lia.
Qed.

Lemma post_work_more p : rest_payload p ≠ [] → post_work p = (S (packet_work (first_packet p)) + post_work (rest_post p))%nat.
Proof.
  intros Hr. unfold post_work. rewrite (expand_more p (payload_pos Hok) Hr), sum_of_cons. unfold unsent_work.
  cbn [po_done rest_post]. lia.
Qed.

Lemma productive_step w sent a w' : world_ok w sent → productive a w → step a w = Ok w' →
  (work w' < work w)%nat ∧ ∀ x, takes_one (w_endpoint w x) (w_endpoint w' x).
Proof.
  intros Hw Hp Hstep. destruct a as [|wants s d|wants s d]; [done|..]; cbn [step productive] in *.
  - destruct (c_out (chan w s d)) as [|p out] eqn:Hout; [done|].
    rewrite (inject_eq wants s d w p out Hout) in Hstep. cbn zeta in Hstep.
    set (c1 := mkChannel out (c_net (chan w s d) ++ [first_packet p])) in Hstep.
    destruct (rest_payload p) as [|x l] eqn:Hr.
    + pose proof (work_set_chan w s d c1) as Hset.
      unfold run_at in Hstep. apply bind_Ok in Hstep as ([e' effs]&Hrun&[= <-]).
      pose proof (posts_completion w sent s d p out Hw Hout Hr) as Hdone.
      pose proof (completed_post_work _ _ _ _ _ Hrun Hdone) as Hwork.
      split; [|intros x; rewrite apply_effects_endpoint; apply (takes_one_at s e' (set_chan s d c1 w)); by eapply completed_post_takes].
      rewrite work_apply_effects. change (work (set_endpoint s e' (set_chan s d c1 w))) with (work (set_chan s d c1 w)).
      unfold channel_work in Hset. rewrite Hout in Hset. cbn [c_out c_net c1] in Hset.
      rewrite sum_of_cons, sum_of_app, sum_of_cons, (post_work_last p Hr) in Hset. change (sum_of packet_work []) with 0%nat in Hset. lia.
    + injection Hstep as <-. split; [|intros y; apply takes_one_refl].
      pose proof (work_set_chan w s d (mkChannel (rest_post p :: out) (c_net (chan w s d) ++ [first_packet p]))) as Hset.
      unfold channel_work in Hset. rewrite Hout in Hset. cbn [c_out c_net] in Hset.
      rewrite !sum_of_cons, sum_of_app, sum_of_cons, (post_work_more p ltac:(by rewrite Hr)) in Hset.
      change (sum_of packet_work []) with 0%nat in Hset. lia.
  - unfold deliver in Hstep. destruct (c_net (chan w s d)) as [|p net] eqn:Hnet; [done|].
    set (c1 := mkChannel (c_out (chan w s d)) net) in Hstep. pose proof (work_set_chan w s d c1) as Hset.
    unfold run_at in Hstep. apply bind_Ok in Hstep as ([e' effs]&Hrun&[= <-]).
    pose proof (dispatch_work _ _ _ _ _ _ Hrun) as Hwork.
    split; [|intros x; rewrite apply_effects_endpoint; apply (takes_one_at d e' (set_chan s d c1 w)); by eapply dispatch_takes].
    rewrite work_apply_effects. change (work (set_endpoint d e' (set_chan s d c1 w))) with (work (set_chan s d c1 w)).
    unfold channel_work in Hset. rewrite Hnet in Hset. cbn [c_out c_net c1] in Hset. rewrite sum_of_cons in Hset. lia.
Qed.

(** * Runs of the devices *)

(** [n] productive steps. *)
Inductive device_run : world → nat → world → Prop :=
| device_run_done w : device_run w 0 w
| device_run_step a w w1 n w' : productive a w → step a w = Ok w1 → device_run w1 n w' → device_run w (S n) w'.

(** There is room for all that is left to do. *)
Definition provided (w : world) : Prop := ∀ s,
  (segments (w_endpoint w s) + work w ≤ max_segments)%nat ∧ (e_calls (w_endpoint w s) + work w ≤ max_calls)%nat.

Lemma productive_work a w : productive a w → (0 < work w)%nat.
Proof.
  destruct a as [|wants s d|wants s d]; [done|..]; cbn; intros Hp; rewrite (work_delete w s d); unfold channel_work.
  - destruct (c_out (chan w s d)) as [|p out]; [done|]. rewrite sum_of_cons.
    unfold post_work. pose proof (expand_ne p). destruct (expand p); [done|]. rewrite sum_of_cons. unfold unsent_work. lia.
  - destruct (c_net (chan w s d)) as [|p net]; [done|]. rewrite sum_of_cons. pose proof (packet_work_bounds p). lia.
Qed.

Lemma provided_served w : provided w → (0 < work w)%nat → served w.
Proof. intros Hp Hw s. destruct (Hp s). unfold segments in *. split; [right; lia|lia]. Qed.

Lemma provided_step w sent a w' : world_ok w sent → provided w → productive a w → step a w = Ok w' → provided w'.
Proof.
  intros Hw Hp Ha Hstep s. destruct (productive_step w sent a w' Hw Ha Hstep) as [Hlt Ht].
  destruct (Hp s), (Ht s). lia.
Qed.

(** A run of the devices is as long as there is work, at most, and goes wrong nowhere. *)
Lemma device_run_ok w sent n w' : device_run w n w' → world_ok w sent → provided w →
  world_ok w' sent ∧ provided w' ∧ (n + work w' ≤ work w)%nat.
Proof.
  induction 1 as [w|a w w1 n w' Hp Hstep Hrun IH]; intros Hw Hprov; [auto|].
  destruct (device_step Hok w sent a Hw) as (w2&Hstep2&Hw2).
  { apply provided_served; [done|by eapply productive_work]. } { intros wants s c ->. done. }
  rewrite Hstep in Hstep2. injection Hstep2 as <-.
  destruct (IH Hw2 (provided_step _ _ _ _ Hw Hprov Hp Hstep)) as (?&?&?).
  destruct (productive_step w sent a w1 Hw Hp Hstep) as [? _]. split; [done|]. split; [done|]. lia.
Qed.

Lemma device_run_reached m w sent n w' : device_run w n w' → reached m w sent → provided w → reached m w' sent.
Proof.
  induction 1 as [w|a w w1 n w' Hp Hstep Hrun IH]; intros Hr Hprov; [done|].
  pose proof (reached_ok Hok m w sent Hr) as Hw.
  apply IH; [|by eapply provided_step]. eapply reached_device; [exact Hr| | |exact Hstep].
  - apply provided_served; [done|by eapply productive_work].
  - intros wants s c ->. done.
Qed.

(** The devices can always go on until nothing is under way. *)
Lemma device_run_quiet w sent : world_ok w sent → provided w → ∃ n w', device_run w n w' ∧ at_rest w'.
Proof.
  induction w as [w IH] using (induction_ltof1 _ work). intros Hw Hp.
  destruct (quiet_or_productive w) as [Hq|[a Ha]]; [exists 0%nat, w; split; [constructor|done]|].
  destruct (device_step Hok w sent a Hw) as (w1&Hstep&Hw1).
  { apply provided_served; [done|by eapply productive_work]. } { intros wants s c ->. done. }
  destruct (IH w1) as (n&w'&Hrun&Hq).
  - unfold ltof. by eapply productive_step.
  - done.
  - exact (provided_step w sent a w1 Hw Hp Ha Hstep).
  - exists (S n), w'. split; [by econstructor|done].
Qed.

(** A call takes at most one state, too. *)
Lemma pack_and_post_same st w n d fn e e' eff : pack_and_post st w n d fn e = Ok (e', eff) →
  e_pool e' = e_pool e ∧ e_calls e' = e_calls e.
Proof. unfold pack_and_post. intros Hr. run_cases; done. Qed.

Ltac trace_calls := repeat match goal with
  | Hm : pack_and_post _ _ _ _ _ _ = Ok _ |- _ => apply pack_and_post_same in Hm as [? ?]
  end; trace_pool.

Lemma call_takes ready c e e' effs r : run_call ready c e = Ok (e', effs, r) → takes_one e e'.
Proof.
  intros Hr. destruct c as [p|p ty|p]; cbn [run_call] in Hr.
  - unfold simple_impl, send_impl in Hr. run_cases; trace_calls.
  - unfold typed_impl, send_impl, send_packed_typed, send_data_typed in Hr. run_cases; trace_calls.
  - unfold immediate_impl, queue_immediate in Hr. run_cases; trace_calls.
Qed.
End progress.
