(* ===== verification/EagerProps.v ===== *)
(** The eager protocol as a whole: messages arrive in order and intact, callbacks come when they
    are due, the devices come to an end with everything delivered; and what a typed send of
    more than two pipelines does. *)
From stdpp Require Import functions.
From S2P Require Import Prelude.
From S2P Require Import Layout.
From S2P Require Import Memory.
From S2P Require Import TypeCode.
From S2P Require Import TypeMachine.
From S2P Require Import TypeCodeSpec.
From S2P Require Import TypeMachineSpec.
From S2P Require Import PamiType.
From S2P Require Import TypeTransfer.
From S2P Require Import TypeMachineProps.
From S2P Require Import PamiTransfer.
From S2P Require Import MemoryAllocator.
From S2P Require Import EagerSimple.
From S2P Require Import EagerData.
From S2P Require Import EagerWire.
From S2P Require Import EagerEndpoint.
From S2P Require Import EagerSend.
From S2P Require Import EagerReceive.
From S2P Require Import EagerInvariant.
From S2P Require Import EagerWorld.
From S2P Require Import EagerProgress.

Section props.
Context `{EagerParams} `{EagerSetup}.

(** * What the client sees of a message *)

(** The dispatch function is called for [m]: with its header, its length, and perhaps its data. *)
Definition announces (o : Z) (m : message) (ev : event) : Prop :=
  match ev with
  | Dispatched k o' header data n recv =>
      o' = o ∧ header = m_header m ∧ n = len (m_data m) ∧ (data = None ∨ data = Some (m_data m))
  | _ => False
  end.

(** The data of [m] came with the call, or are where the client then said. *)
Definition delivered (d : Z) (s : mem) (m : message) (ev : event) : Prop :=
  match ev with
  | Dispatched k o header data n (Some info) =>
      m_data m = [] ∨ ∃ f, landing d k data info (len (m_data m)) f ∧ in_place f (m_data m) s
  | Dispatched k o header data n None => data = Some (m_data m) ∨ m_data m = []
  | _ => False
  end.

(** All that was sent from [s] to [d] is received, and every callback was called. *)
Definition finished (w : world) (sent : list (Z * Z * message)) (s d : Z) : Prop :=
  length (receipts s (logs w d)) = length (sent_to sent s d) ∧
  local_dones d (logs w s) = locals (sent_to sent s d) ∧
  remote_dones d (logs w s) = remotes (sent_to sent s d).

(** Every state object of an endpoint is free. *)
Definition all_free (s : Z) (e : endpoint) : Prop :=
  ∀ x, pooled object_size 4 (memalign s) (e_pool e) x → x ∈ al_head (e_pool e).

(** * Lemmas *)

Lemma arrives_announces s L o j m l ev : arrives s L o j m l ev → announces o m ev.
Proof. intros (k&data&recv&->&Hd&_). done. Qed.

Lemma arrives_delivered s e own L o j m ev : endpoint_ok s e own L → arrives s L o j m (m_data m) ev →
  delivered s (e_mem e) m ev.
Proof.
  intros He (k&data&recv&->&Hd&Hr). destruct recv as [info|]; [|done]. cbn.
  destruct (decide (m_data m = [])) as [|Hne]; [by left|right].
  destruct (Hr Hne) as (la&HL&_&_&Hland&Hb). destruct (eo_landed _ _ _ _ He _ _ HL) as (_&Hpl&_).
  exists (la_at la). split; [done|]. by rewrite <- Hb.
Qed.

Lemma prefix_lookup_take {A} (l l' : list A) : l `prefix_of` l' → l = take (length l) l'.
Proof. intros [k ->]. by rewrite take_app_length. Qed.

(** The dispatch calls are for the messages in order. *)
Lemma dispatched_in_order d s g T own L j ev : receiver_ok d s g T own L → g_rcvd g `prefix_of` g_all g →
  dispatches s T !! j = Some ev → ∃ m, messages (g_all g) !! j = Some m ∧ announces s m ev.
Proof.
  intros [Hcur Hrec _ _] Hpre Hj.
  assert (Hold : (j < length (messages (g_rcvd g)))%nat → ∃ m, messages (g_all g) !! j = Some m ∧ announces s m ev).
  { intros Hlt. apply lookup_lt_is_Some in Hlt as [m Hm]. destruct (Hrec j m Hm) as (ev'&Hev&Harr&_).
    rewrite Hj in Hev. injection Hev as <-. exists m. split; [|by eapply arrives_announces].
    eapply prefix_lookup_Some; [exact Hm|]. by apply prefix_omap. }
  pose proof (lookup_lt_Some _ _ _ Hj) as Hlt.
  destruct Hcur as [(_&_&Hlen)|(m&Hm&Hc)]; [apply Hold; lia|].
  assert (Hnext : messages (g_all g) !! length (messages (g_rcvd g)) = Some m).
  { eapply prefix_lookup_Some; [|by apply (prefix_omap (λ i, match i with Message m => Some m | _ => None end)) in Hm].
    rewrite omap_app. rewrite lookup_app_r by done. by rewrite Nat.sub_diag. }
  destruct Hc as [_ Hlen|hs r st _ _ _ _ _ Hlen|ds r st evs ev' _ _ _ _ _ Hd Hlen Harr _]; [apply Hold; lia..|].
  rewrite Hd in Hj, Hlt. rewrite length_app in Hlt. cbn in Hlt.
  destruct (decide (j = length evs)) as [->|Hne]; [|apply Hold; lia].
  rewrite lookup_app_r, Nat.sub_diag in Hj by lia. injection Hj as <-. exists m. rewrite Hlen.
  split; [done|by eapply arrives_announces].
Qed.

Context (Hok : eager_ok) (m0 : Z → mem).

(** A channel with nothing under way has delivered everything. *)
Lemma quiet_channel s d g c : linked s d g c → c_out c = [] → c_net c = [] →
  g_out g = [] ∧ g_got g = [] ∧ g_rcvd g = g_sent g ∧ g_all g = g_sent g.
Proof.
  intros [Ho Hn [rest Hr] Hg] Hout Hnet. rewrite Hout in Ho. apply outgoing_nil in Ho as [HB Hp].
  assert (Hall : g_all g = g_sent g) by (unfold g_all; rewrite HB; apply app_nil_r).
  rewrite Hnet, Hp, Hr, bind_app, !app_nil_r in Hn. apply (inj (app _)) in Hn.
  split; [done|]. destruct rest as [|i rest].
  - rewrite app_nil_r in Hr. done.
  - exfalso. cbn in Hn. destruct Hg as [Hg|(j&k&[l Hj]&Hk&Hne)].
    + rewrite Hg in Hn. symmetry in Hn. apply app_nil in Hn as [Hw _]. by apply wire_ne in Hw.
    + rewrite Hall, Hr, <- (assoc_L (++)) in Hj. apply (inj (app _)) in Hj. injection Hj as -> _.
      rewrite Hk, <- (assoc_L (++)) in Hn. rewrite <- (app_nil_r (g_got g)) in Hn at 1.
      apply (inj (app _)) in Hn. symmetry in Hn. by apply app_nil in Hn as [? _].
Qed.

Lemma quiet_finished w sent : world_ok w sent → at_rest w →
  (∀ s d, finished w sent s d) ∧ ∀ s, all_free s (w_endpoint w s).
Proof.
  intros (O&L&G&He&Hch&Hsent) Hq.
  assert (Hquiet : ∀ s d, g_out (G s d) = [] ∧ g_got (G s d) = [] ∧ g_rcvd (G s d) = g_sent (G s d) ∧ g_all (G s d) = g_sent (G s d)).
  { intros s d. destruct (Hq s d). eapply quiet_channel; [apply Hch|done..]. }
  split.
  - intros s d. destruct (Hch s d) as [_ Hs Hr _], (Hch d s) as [_ _ Hr' Hp'].
    destruct (Hquiet s d) as (_&Hgot&Hrcvd&Hall), (Hquiet d s) as (_&_&Hrcvd'&Hall').
    cbn in Hp'. rewrite app_nil_r in Hp'. unfold finished. rewrite <- Hsent, Hall. split; [|split].
    + rewrite (re_receipts _ _ _ _ _ _ Hr). by rewrite Hrcvd.
    + apply (se_local _ _ _ _ _ Hs).
    + rewrite (re_remote _ _ _ _ _ _ Hr'), Hrcvd', <- Hall', Hp', Hrcvd, <- Hall.
      pose proof (se_pings _ _ _ _ _ Hs) as Hpg. cbn in Hpg. rewrite app_nil_r in Hpg. by rewrite Hpg, Hall.
  - intros s x Hx. destruct (eo_pool _ _ _ _ (He s)) as [_ _ Hsplit _]. apply Hsplit in Hx as [Hx|Hx]; [done|].
    apply elem_of_dom in Hx as [[d i|o ph] Hu].
    + destruct (Hch s d) as [_ Hs _ _]. apply (se_states _ _ _ _ _ Hs) in Hu.
      rewrite (proj1 (Hquiet s d)) in Hu. by apply elem_of_nil in Hu.
    + destruct (Hch o s) as [_ _ Hr _]. destruct (re_current _ _ _ _ _ _ Hr) as [(_&Hi&_)|(m&_&Hc)].
      * by apply Hi in Hu.
      * rewrite (proj1 (proj2 (Hquiet o s))) in Hc. inversion Hc as [Hi| |? ? ? ? ? ? ? ? ? ? ? ? ? ? Hnil].
        -- by apply Hi in Hu.
        -- apply app_nil in Hnil as [Hnil _]. unfold envelope in Hnil. by destruct (long_header m).
Qed.

(** * Theorems *)

(** C11. Messages are delivered. In every run the dispatch calls at [d] for
    messages from [s] are for the messages [s] sent to [d], in the order of the sends, each with the
    header and the length it was sent with; a message counts as received, with the callback
    and cookie the client gave, only when its bytes are the ones sent, each where the client said
    it should go (through a type or one after the other). At the sender, the local callbacks are
    called in the order of the sends, and the remote callbacks only for messages the target
    has received. *)
Theorem eager_delivers w sent s d : reached m0 w sent →
  let M := sent_to sent s d in
  (∀ j ev, dispatches s (logs w d) !! j = Some ev → ∃ m, M !! j = Some m ∧ announces s m ev) ∧
  (∀ j rc, receipts s (logs w d) !! j = Some rc → ∃ m ev, M !! j = Some m ∧
    dispatches s (logs w d) !! j = Some ev ∧ rc = callback_of ev ∧ delivered d (e_mem (w_endpoint w d)) m ev) ∧
  local_dones d (logs w s) `prefix_of` locals M ∧
  remote_dones d (logs w s) `prefix_of` remotes (take (length (receipts s (logs w d))) M).
Proof.
  intros Hr M. destruct (reached_ok Hok m0 w sent Hr) as (O&L&G&He&Hch&Hsent).
  destruct (Hch s d) as [Hl Hs Hrc _], (Hch d s) as [Hl' _ Hrc' Hp'].
  assert (HM : messages (g_all (G s d)) = M) by apply Hsent.
  assert (Hpre : g_rcvd (G s d) `prefix_of` g_all (G s d)).
  { etrans; [apply (li_rcvd _ _ _ _ Hl)|]. unfold g_all. by apply prefix_app_r. }
  assert (Hmsg : messages (g_rcvd (G s d)) `prefix_of` M) by (rewrite <- HM; by apply prefix_omap).
  split; [|split; [|split]].
  - intros j ev Hj. rewrite <- HM. by eapply dispatched_in_order.
  - intros j rc Hj. pose proof (lookup_lt_Some _ _ _ Hj) as Hlt. rewrite (re_receipts _ _ _ _ _ _ Hrc) in Hlt.
    apply lookup_lt_is_Some in Hlt as [m Hm]. destruct (re_received _ _ _ _ _ _ Hrc j m Hm) as (ev&Hev&Harr&Hcb).
    exists m, ev. split; [by eapply prefix_lookup_Some|]. split; [done|]. split; [congruence|]. by eapply arrives_delivered.
  - rewrite (se_local _ _ _ _ _ Hs), <- HM. do 2 apply prefix_omap. unfold g_all. by apply prefix_app_r.
  - rewrite (re_remote _ _ _ _ _ _ Hrc'). cbn in Hp'. rewrite app_nil_r in Hp'.
    assert (Hpre' : g_rcvd (G d s) `prefix_of` g_all (G d s)).
    { etrans; [apply (li_rcvd _ _ _ _ Hl')|]. unfold g_all. by apply prefix_app_r. }
    transitivity (pongs (g_all (G d s))); [by apply prefix_omap|]. rewrite Hp'.
    etrans; [apply (se_credit _ _ _ _ _ Hs); exact Hpre|].
    rewrite (re_receipts _ _ _ _ _ _ Hrc). by rewrite <- prefix_lookup_take.
Qed.

(** C12. Nothing goes wrong. In every run, as long as the heaps have memory for another
    segment of states and the clients for another message, every step of a device and every
    send that is as it should be returns: no assertion, no access to a state, connection or type that
    is not there, no loop that does not end. *)
Theorem eager_safe w sent : reached m0 w sent → served w →
  (∀ wants s d, ∃ w', step (Device_sends wants s d) w = Ok w') ∧
  (∀ wants s d, ∃ w', step (Device_receives wants s d) w = Ok w') ∧
  (∀ wants s c d ms, issues s (ready_at w s wants) (w_endpoint w s) c d ms →
    ∃ w', step (Client_calls wants s c) w = Ok w').
Proof.
  intros Hr Hs. pose proof (reached_ok Hok m0 w sent Hr) as Hw. split; [|split].
  - intros wants s d. destruct (inject_step Hok w sent wants s d Hw Hs) as (w'&Hstep&_). by exists w'.
  - intros wants s d. destruct (deliver_step Hok w sent wants s d Hw Hs) as (w'&Hstep&_). by exists w'.
  - intros wants s c d ms Hi. destruct (call_step Hok w sent wants s c d ms Hw Hs Hi) as (w'&Hstep&_). by exists w'.
Qed.

(** C13. All sends complete. From every world a run leads to, if there is room for
    what is under way, the devices take at most [work w] steps in any order; when they cannot take
    another, every message is received, every local and every remote callback was called, and
    every state object is back in its pool. *)
Theorem eager_completes w sent n w' : reached m0 w sent → provided w → device_run w n w' →
  (n ≤ work w)%nat ∧
  ((∃ a w'', productive a w' ∧ step a w' = Ok w'') ∨
   (∀ s d, finished w' sent s d) ∧ ∀ s, all_free s (w_endpoint w' s)).
Proof.
  intros Hr Hp Hrun. pose proof (reached_ok Hok m0 w sent Hr) as Hw.
  destruct (device_run_ok Hok w sent n w' Hrun Hw Hp) as (Hw'&Hp'&Hle). split; [lia|].
  destruct (quiet_or_productive w') as [Hq|[a Ha]]; [right; by apply quiet_finished|left].
  destruct (device_step Hok w' sent a Hw') as (w''&Hstep&_).
  { apply provided_served; [done|by eapply productive_work]. } { intros wants s c ->. done. }
  by exists a, w''.
Qed.

(** * A typed send of more than two pipelines *)

(** The bytes that the completions of the first posts go on to post, up to the post that
    completes the send. *)
Fixpoint drain (k : nat) (st : Z) (e : endpoint) : res (list Z) :=
  match k with
  | O => Err NoFuel
  | S k =>
      '(e, effs) ← complete_data st e;
      match effs with
      | [Posted _ q] =>
          match po_done q with
          | send_complete_fn _ => mret (po_payload q)
          | _ => l ← drain k st e; mret (po_payload q ++ l)
          end
      | _ => Err Fault
      end
  end.

Notation payload_bytes := (packet_model_payload_bytes T_Model).

Section overrun.
Context (s : Z) (own : gmap Z use) (L : gmap nat landed) (st d : Z) (it : item).
Context (ty off N lo hi base : Z) (t : TypeCode) (P : prog).
Context (Hst : own !! st = Some (Sending d it)).
Context (Htd : typed_data (types0 s) ty off base N lo hi t P) (Hout : outside_library lo hi).
Context (Hlib : ∀ w, 0 ≤ w < 2 → in_library (pipeline st w) payload_bytes).

(** A send of which [k] bytes are packed, that believes it has [r] bytes left. *)
Definition sending_at (e : endpoint) (k r : Z) : Prop :=
  endpoint_ok s e own L ∧ ∃ o m, e_states e !! st = Some (S_origin o) ∧ sends_item d it o ∧
    o_base_addr o = base ∧ o_bytes_remaining o = r ∧ o_machine o = Some m ∧
    machine_at (e_types e) m (run_prog t P) (off + k) ∧ copies m.

Lemma which_pipeline z : 0 ≤ Z.land z 1 < 2.
Proof. change 1 with (Z.ones 1). rewrite Z.land_ones by lia. apply Z.mod_pos_bound. lia. Qed.

Lemma complete_data_spec e k r : sending_at e k r → 0 ≤ k → 0 < r → r < 2 ^ 63 →
  k + r ≤ N →
  let c := if r <=? payload_bytes then r else payload_bytes in
  let fn := if r <=? payload_bytes then send_complete_fn st
    else if r <=? 2 * payload_bytes then no_fn else complete_data_fn st in
  ∃ e', complete_data st e = Ok (e', [Posted d (data_post s (typed_bytes P base (off + k) c (e_mem e)) fn)]) ∧
    sending_at e' (k + c) (if r <=? payload_bytes then r else r - payload_bytes) ∧
    (∀ x, x < lib_lo ∨ lib_hi ≤ x → e_mem e' x = e_mem e x).
Proof.
  intros [He (o&m&Hs&Hit&Hb&Hr&Hm&Hma&Hcp)] Hk Hpos Hbig HN c fn. pose proof (payload_small Hok) as Hpay.
  unfold complete_data, get_origin. rewrite Hs, Ok_bind, Hr. unfold sizeof_pipeline.
  rewrite (w64_small (payload_bytes * 2)) by lia. rewrite (Z.mul_comm payload_bytes 2).
  set (rest := if r <=? payload_bytes then r else r - payload_bytes).
  set (o' := mkOrigin (o_machine o) (o_base_addr o) rest (w64 (o_start_count o + 1)) (o_target o)
    (o_local_fn o) (o_remote_fn o) (o_cookie o)).
  set (e1 := set_state st (S_origin o') e).
  assert (He1 : endpoint_ok s e1 own L) by (eapply endpoint_resend; [done|done|by destruct it]).
  assert (Hs1 : e_states e1 !! st = Some (S_origin o')) by apply lookup_insert_eq.
  destruct (pack_and_post_spec Hok s e1 own L st (Z.land (o_start_count o) 1) c d fn o' m ty off N lo hi t P k d it)
    as (m'&e2&Hrun&He2&Hs2&Hm2&Hcp2&_&_&Hmem); try done.
  { by rewrite <- Hb in Htd. }
  { unfold c. destruct (Z.leb_spec r payload_bytes); lia. }
  { unfold c. destruct (Z.leb_spec r payload_bytes); lia. }
  { apply Hlib, which_pipeline. }
  exists e2. split; [|split; [|done]].
  - destruct Hit as [Htgt _]. rewrite Htgt. cbn [o_base_addr o'] in Hrun. rewrite Hb in Hrun. change (e_mem e1) with (e_mem e) in Hrun.
    unfold c, fn, e1, o', rest in *. rewrite Htgt in Hrun. destruct (Z.leb_spec r payload_bytes); [by rewrite Hrun|].
    rewrite (w64_small (r - payload_bytes)) by lia. destruct (Z.leb_spec r (2 * payload_bytes)); by rewrite Hrun.
  - split; [done|]. exists (with_o_machine o' m'), m'. split; [done|]. split; [by destruct it|].
    split; [done|]. split; [done|]. split; [done|]. split; [|done]. by rewrite Z.add_assoc.
Qed.

Lemma drain_spec n e k r : r ≤ Z.of_nat n * payload_bytes → sending_at e k r → 0 ≤ k → 0 < r → r < 2 ^ 63 → k + r ≤ N →
  drain n st e = Ok (typed_bytes P base (off + k) r (e_mem e)).
Proof.
  pose proof (payload_small Hok) as Hpay.
  revert e k r. induction n as [|n IH]; intros e k r Hn Hs Hk Hpos Hbig HN; [lia|].
  destruct (complete_data_spec e k r Hs Hk Hpos Hbig HN) as (e'&Hrun&Hs'&Hmem).
  cbn [drain]. rewrite Hrun, Ok_bind. cbn [po_done po_payload data_post].
  destruct (Z.leb_spec r payload_bytes) as [Hle|Hgt]; [done|].
  assert (Hrest : drain n st e' = Ok (typed_bytes P base (off + (k + payload_bytes)) (r - payload_bytes) (e_mem e))).
  { rewrite (IH e' (k + payload_bytes) (r - payload_bytes)); [|lia|done|lia..]. f_equal.
    eapply typed_bytes_library; [eapply typed_region_sub; [apply (td_region _ _ _ _ _ _ _ _ _ Htd)|lia..]|exact Hout|exact Hmem]. }
  rewrite Hrest. replace (typed_bytes P base (off + k) r (e_mem e)) with
    (typed_bytes P base (off + k) (payload_bytes + (r - payload_bytes)) (e_mem e)) by (f_equal; lia).
  rewrite typed_bytes_app, <- Z.add_assoc by lia.
  by destruct (r <=? 2 * payload_bytes).
Qed.
End overrun.

(** C40. A typed send of more than two pipelines sends too much. The first two
    pipelines are packed and posted without being counted: the completions of the two posts go on
    to pack and post as many bytes as the whole message has, until the send completes.  What the
    device is given is the message and two pipelines of what follows it in the client's memory;
    the target, which closes the connection after the message, faults at the rest
    ([typed_send_faults]). *)
Theorem typed_send_overruns s own L st p ty lo hi t P m e :
  0 ≤ s_data_len p < 2 ^ 63 → endpoint_ok s e own L →
  own !! st = Some (Sending (s_dest p) (Message m)) → e_states e !! st = Some (send_state p) →
  sends_item (s_dest p) (Message m) (mkOrigin None 0 0 0 (s_dest p) (s_local_fn p) (s_remote_fn p) (s_cookie p)) →
  (∀ w, 0 ≤ w < 2 → in_library (pipeline st w) payload_bytes) →
  typed_data (types0 s) (ty_type ty) (ty_offset ty) (s_data p) (s_data_len p + 2 * payload_bytes) lo hi t P →
  outside_library lo hi → ty_data_fn ty = 0 → payload_bytes `mod` GetAtomSize t = 0 →
  2 * payload_bytes < s_data_len p →
  ∃ e' q1 q2 k l, send_data_typed st p ty e = Ok (e', [Posted (s_dest p) q1; Posted (s_dest p) q2]) ∧
    po_done q1 = complete_data_fn st ∧ po_done q2 = complete_data_fn st ∧ drain k st e' = Ok l ∧
    po_payload q1 ++ po_payload q2 ++ l =
      typed_bytes P (s_data p) (ty_offset ty) (s_data_len p + 2 * payload_bytes) (e_mem e).
Proof.
  intros Hp He Hst Hs Hsend Hlib Htd Hout Hfn Hatom Hn. pose proof (payload_small Hok) as Hpay.
  destruct (send_data_typed_long Hok s e own L st p ty lo hi _ t P m He Hst Hs Hsend Hlib Htd Hout Hfn Hatom eq_refl Hn)
    as (m'&e'&Hrun&He'&Hs'&Hma&Hcp&Hmem).
  exists e', (data_post s (typed_bytes P (s_data p) (ty_offset ty) payload_bytes (e_mem e)) (complete_data_fn st)),
    (data_post s (typed_bytes P (s_data p) (ty_offset ty + payload_bytes) payload_bytes (e_mem e)) (complete_data_fn st)),
    (Z.to_nat (s_data_len p)), (typed_bytes P (s_data p) (ty_offset ty + 2 * payload_bytes) (s_data_len p) (e_mem e)).
  split; [exact Hrun|]. split; [done|]. split; [done|]. split.
  - rewrite (drain_spec s own L st (s_dest p) (Message m) (ty_type ty) (ty_offset ty) (s_data_len p + 2 * payload_bytes)
      lo hi (s_data p) t P Hst Htd Hout Hlib _ e' (2 * payload_bytes) (s_data_len p)); [|nia| |lia..].
    + f_equal. eapply typed_bytes_library; [eapply typed_region_sub; [apply (td_region _ _ _ _ _ _ _ _ _ Htd)|lia..]|exact Hout|exact Hmem].
    + split; [done|]. by exists (with_o_machine (open_origin p m') m'), m'.
  - cbn [po_payload data_post]. replace (s_data_len p + 2 * payload_bytes) with (payload_bytes + (payload_bytes + s_data_len p)) by lia.
    rewrite !typed_bytes_app by lia. do 3 f_equal. lia.
Qed.
End props.
