(* ===== verification/EagerDemo.v ===== *)
(** Two endpoints that use the eager protocol: concrete parameters, a message, and the typed
    send of more than two pipelines. *)
From stdpp Require Import functions.
From S2P Require Import Prelude.
From S2P Require Import Layout.
From S2P Require Import Memory.
From S2P Require Import TypeCode.
From S2P Require Import TypeCodeSpec.
From S2P Require Import TypeBuild.
From S2P Require Import TypeMachine.
From S2P Require Import PamiType.
From S2P Require Import TypeMachineSpec.
From S2P Require Import TypeTransfer.
From S2P Require Import TypeMachineProps.
From S2P Require Import PamiTransfer.
From S2P Require Import MemoryAllocator.
From S2P Require Import EagerSimple.
From S2P Require Import EagerData.
From S2P Require Import EagerWire.
From S2P Require Import EagerEndpoint.
From S2P Require Import EagerSend.
From S2P Require Import EagerReceive.
From S2P Require Import EagerInvariant.
From S2P Require Import EagerWorld.
From S2P Require Import EagerProgress.
From S2P Require Import EagerProps.

(** * The setting *)

(** [PAMI_TYPE_BYTE] at 3000, beside the objects of TypeMachineProps.v. *)
Definition byte_type : TypeCode :=
  Eval vm_compute in match TypeContig_primitive quiet PRIMITIVE_TYPE_BYTE with Ok t => t | Err _ => contig_max_type end.
Definition eager_types : heap := <[3000 := byte_type]> demo_objects.

(** Packets of 32 bytes, 4 bytes of metadata. *)
Definition small_model : model_t := mkModel 32 4 4 24.
Definition no_options : option_t := mkOptions false false false false true false false.

(** The first message is received through a type, the others one byte after the other. *)
Definition demo_client (s : Z) (k : nat) (header : list Z) (data : option (list Z)) (n o : Z) (i : pami_recv_t) : pami_recv_t :=
  match k with
  | O => mkRecv 7 5 4096 1000 0 0 0
  | _ => mkRecv 7 5 (50000 + 1000 * Z.of_nat k) 3000 0 0 0
  end.

#[local] Instance demo_params : EagerParams := {|
  T_Model := small_model; T_Option := no_options; isPeer := λ _, true; object_size := 1000;
  memalign := λ _ k, 1000000 + 100000 * Z.of_nat k; contig_max := 2000; big_endian := false;
  floats := no_float; user_fn := no_user; fuel := 10000; PAMI_TYPE_BYTE := 3000;
  packet_of := λ st, st + 100; pipeline := λ st w, st + 200 + 32 * w; payload_at := 900000;
  client := demo_client; junk := λ _, mkRecv 9 9 9 9 9 9 9
|}.

#[local] Instance demo_setup : EagerSetup := {|
  types0 := λ _, eager_types; lib_lo := 900000; lib_hi := 3000000;
  room := λ _ k, match k with O => (4096, 16384) | _ => (50000 + 1000 * Z.of_nat k, 51000 + 1000 * Z.of_nat k) end;
  max_segments := 20; max_calls := 20; max_data := 40
|}.

Lemma demo_typed_address : ∀ j k, 0 ≤ j < 40 → 0 ≤ k < 40 → address 4096 (stream demo_prog j) = address 4096 (stream demo_prog k) → j = k.
Proof.
  assert (Hnd : NoDup (map (λ j, address 4096 (stream demo_prog j)) (seqZ 0 40))).
  { refine (proj1 (bool_decide_eq_true _) _). vm_compute. reflexivity. }
  intros j k Hj Hk Heq. assert (Z.to_nat j = Z.to_nat k) as He; [|lia].
  eapply NoDup_lookup; [exact Hnd| |]; rewrite list_lookup_fmap, lookup_seqZ_lt by lia;
    cbn [fmap option_fmap option_map]; rewrite Z.add_0_l, Z2Nat.id by lia; [reflexivity|].
  by rewrite Heq.
Qed.

Lemma demo_typed n : 0 ≤ n ≤ 40 → typed_data eager_types 1000 0 4096 n 4096 16384 held_type demo_prog.
Proof.
  intros Hn. split.
  - split; [reflexivity|apply held_denotes|reflexivity|reflexivity|done].
  - lia.
  - vm_compute. reflexivity.
  - vm_compute. discriminate.
  - etransitivity; [by apply demo_fuel|]. vm_compute. discriminate.
  - destruct (demo_region 4096 (or_introl eq_refl)) as (H1&H2&H3). split; [done|]. split; [done|].
    intros k Hk. apply H3. lia.
Qed.

Lemma demo_ok : eager_ok.
Proof.
  split.
  - split; cbn; lia.
  - intros s k i k' i' Hk Hk' Hi Hi' Heq. unfold object_at in Heq. cbn in *. lia.
  - intros s. exists contig_max_type. split; [reflexivity|apply contig_max_denotes].
  - intros s _. exists byte_type. split; reflexivity.
  - cbn. lia.
  - intros s k i Hk Hi. unfold in_library, object_at. cbn in *. lia.
  - intros s k i w Hk Hi Hw. unfold in_library, object_at. cbn in *. lia.
  - unfold in_library. cbn. lia.
  - cbn. lia.
  - intros s k Hk. unfold outside_library. cbn in *. destruct k; cbn; lia.
  - intros s j k Hj Hk Hne. cbn in *. destruct j, k; cbn; lia.
  - intros s k header data n o i Hk Hn Hd. unfold landing.
    assert (Heff : ∀ info, effective data info = info ∧ effective_flat data info = is_contiguous_copy info).
    { intros info. unfold effective_flat, effective. by destruct data. }
    destruct (Heff (client s k header data n o i)) as [-> ->].
    destruct k as [|k].
    + eexists. apply (lands_typed _ (mkRecv 7 5 4096 1000 0 0 0) n 4096 16384 held_type demo_prog); [done|by apply demo_typed|].
      intros a b Ha Hb. apply demo_typed_address; cbn in *; lia.
    + eexists. apply (lands_contiguous _ (mkRecv 7 5 (50000 + 1000 * Z.of_nat (S k)) 3000 0 0 0)). cbn in *. lia.
Qed.

(** * A message *)

Definition demo_mem0 (s : Z) : mem := λ a, (a + s) `mod` 256.

(** 20 bytes of header and 40 of data from endpoint 0 to endpoint 1. *)
Definition demo_send : pami_send_t := mkSend 1 100 20 4096 40 11 12 13.
Definition demo_call : action := Client_calls (λ _, true) 0 (Simple demo_send).
Definition demo_message : message :=
  message_of false demo_send (read_bytes 4096 40 (demo_mem0 0)) (start_endpoint demo_mem0 0).
Definition demo_sent : list (Z * Z * message) := [(0, 1, demo_message)].

Definition world_after (r : res world) : world := match r with Ok w => w | Err _ => start demo_mem0 end.
Definition demo_world : world := world_after (step demo_call (start demo_mem0)).

Lemma demo_served : served (start demo_mem0).
Proof. intros s. split; [right; cbn; lia|cbn; lia]. Qed.

Lemma demo_send_ok : send_ok demo_send.
Proof. split; cbn; [done|lia|lia|done|done]. Qed.

Lemma demo_issues : issues 0 (ready_at (start demo_mem0) 0 (λ _, true)) (start_endpoint demo_mem0 0) (Simple demo_send) 1 [demo_message].
Proof. exact (issues_simple 0 _ (start_endpoint demo_mem0 0) demo_send demo_send_ok). Qed.

Lemma demo_step : step demo_call (start demo_mem0) = Ok demo_world.
Proof.
  destruct (call_step demo_ok (start demo_mem0) [] (λ _, true) 0 (Simple demo_send) 1 [demo_message]
    (world_start demo_mem0) demo_served demo_issues) as (w&Hw&_).
  unfold demo_world, demo_call. by rewrite Hw.
Qed.

Lemma demo_reached : reached demo_mem0 demo_world demo_sent.
Proof.
  exact (reached_call demo_mem0 _ [] (λ _, true) 0 (Simple demo_send) 1 [demo_message] demo_world
    (reached_start demo_mem0) demo_served demo_issues demo_step).
Qed.

Lemma demo_work : work demo_world = 12%nat.
Proof. vm_compute. reflexivity. Qed.

Lemma demo_takes s : takes_one (start_endpoint demo_mem0 s) (w_endpoint demo_world s).
Proof.
  pose proof demo_step as Hs. unfold demo_call in Hs. cbn [step] in Hs. unfold run_at in Hs.
  apply bind_Ok in Hs as ([e' effs]&Hrun&Hw). apply bind_Ok in Hrun as ([[e1 effs1] r]&Hrun&[= -> ->]).
  apply call_takes in Hrun. injection Hw as <-. rewrite apply_effects_endpoint.
  by apply (takes_one_at 0 e' (start demo_mem0)).
Qed.

Lemma demo_provided : provided demo_world.
Proof. intros s. rewrite demo_work. destruct (demo_takes s) as [H1 H2]. cbn in *. lia. Qed.

Lemma demo_end : ∃ n w, device_run demo_world n w ∧ at_rest w ∧ reached demo_mem0 w demo_sent.
Proof.
  pose proof (reached_ok demo_ok _ _ _ demo_reached) as Hw.
  destruct (device_run_quiet demo_ok demo_world demo_sent Hw demo_provided) as (n&w&Hrun&Hq).
  exists n, w. split; [done|]. split; [done|]. exact (device_run_reached demo_ok _ _ _ _ _ Hrun demo_reached demo_provided).
Qed.

(** * Too much data *)

Fixpoint steps (l : list action) (w : world) : res world :=
  match l with [] => mret w | a :: l => w ← step a w; steps l w end.

(** 100 bytes of [PAMI_TYPE_BYTE], where two pipelines hold 64. *)
Definition long_typed_call : action :=
  Client_calls (λ _, true) 0 (Typed (mkSend 1 100 10 4096 100 11 12 13) (mkTyped 3000 0 0 0)).
Definition exchange : list action := [Device_sends (λ _, true) 0 1; Device_receives (λ _, true) 0 1].

(** The message is received when the device has two packets of it left; the next that arrives
    is taken through a connection that is gone. *)
Lemma typed_send_faults :
  let w := steps (long_typed_call :: mjoin (replicate 5 exchange)) (start demo_mem0) in
  (w ← w; mret (receipts 0 (logs w 1), length (c_out (chan w 0 1)))) = Ok ([(5, 7)], 2%nat) ∧
  (w ← w; steps exchange w) = Err Fault.
Proof. split; vm_compute; reflexivity. Qed.

Lemma byte_denotes : type_denotes byte_type (PCopy 1 1 1 PEnd).
Proof.
  split; try done; try (by vm_compute).
  - eapply at_Copy; [reflexivity|]. by eapply at_End.
  - cbn. eauto 10.
  - cbn. eauto.
Qed.

(** 100 bytes, and 64 that follow. *)
Lemma long_typed_data : typed_data eager_types 3000 0 4096 (100 + 2 * 32) 4096 4260 byte_type (PCopy 1 1 1 PEnd).
Proof.
  split.
  - split; [reflexivity|apply byte_denotes|reflexivity|reflexivity|done].
  - lia.
  - vm_compute. reflexivity.
  - vm_compute. discriminate.
  - vm_compute. discriminate.
  - apply typed_regionb_spec; [lia|]. vm_compute. reflexivity.
Qed.

(** * Witnesses *)

Definition long_send : pami_send_t := mkSend 1 100 10 4096 100 11 12 13.

Lemma eager_delivers_witness : ∃ w, reached demo_mem0 w demo_sent ∧ at_rest w ∧
  (∀ j ev, dispatches 0 (logs w 1) !! j = Some ev → ∃ m, sent_to demo_sent 0 1 !! j = Some m ∧ announces 0 m ev) ∧
  (∀ j rc, receipts 0 (logs w 1) !! j = Some rc → ∃ m ev, sent_to demo_sent 0 1 !! j = Some m ∧
    dispatches 0 (logs w 1) !! j = Some ev ∧ rc = callback_of ev ∧ delivered 1 (e_mem (w_endpoint w 1)) m ev) ∧
  local_dones 1 (logs w 0) `prefix_of` locals (sent_to demo_sent 0 1) ∧
  remote_dones 1 (logs w 0) `prefix_of` remotes (take (length (receipts 0 (logs w 1))) (sent_to demo_sent 0 1)).
Proof.
  destruct demo_end as (n&w&_&Hq&Hr). exists w. split; [exact Hr|]. split; [exact Hq|].
  exact (eager_delivers demo_ok demo_mem0 w demo_sent 0 1 Hr).
Defined.

Lemma eager_safe_witness : served (start demo_mem0) ∧
  (∀ wants s d, ∃ w', step (Device_sends wants s d) (start demo_mem0) = Ok w') ∧
  (∀ wants s d, ∃ w', step (Device_receives wants s d) (start demo_mem0) = Ok w') ∧
  (∀ wants s c d ms, issues s (ready_at (start demo_mem0) s wants) (w_endpoint (start demo_mem0) s) c d ms →
    ∃ w', step (Client_calls wants s c) (start demo_mem0) = Ok w').
Proof.
  split; [exact demo_served|].
  exact (eager_safe demo_ok demo_mem0 (start demo_mem0) [] (reached_start demo_mem0) demo_served).
Defined.

Lemma eager_completes_witness : ∃ n w, device_run demo_world n w ∧ at_rest w ∧ (n ≤ work demo_world)%nat ∧
  ((∃ a w'', productive a w ∧ step a w = Ok w'') ∨
   (∀ s d, finished w demo_sent s d) ∧ ∀ s, all_free s (w_endpoint w s)).
Proof.
  destruct demo_end as (n&w&Hrun&Hq&_). exists n, w. split; [exact Hrun|]. split; [exact Hq|].
  exact (eager_completes demo_ok demo_mem0 demo_world demo_sent n w demo_reached demo_provided Hrun).
Defined.

Lemma typed_send_overruns_witness : ∃ st e' q1 q2 k l,
  let e := set_state st (send_state long_send) (set_pool (snd (allocateObject object_size 4 (memalign 0) MemoryAllocator_new))
    (start_endpoint demo_mem0 0)) in
  send_data_typed st long_send (mkTyped 3000 0 0 0) e = Ok (e', [Posted 1 q1; Posted 1 q2]) ∧
  po_done q1 = complete_data_fn st ∧ po_done q2 = complete_data_fn st ∧ drain k st e' = Ok l ∧
  po_payload q1 ++ po_payload q2 ++ l = typed_bytes (PCopy 1 1 1 PEnd) 4096 0 (100 + 2 * 32) (e_mem e).
Proof.
  destruct (alloc_send demo_ok 0 (start_endpoint demo_mem0 0) ∅ ∅ long_send
    (Message (message_of false long_send [] (start_endpoint demo_mem0 0))) (endpoint_start demo_mem0 0))
    as (st&a&Ha&_&_&Hlib&He); [right; cbn; lia|done|].
  assert (a = snd (allocateObject object_size 4 (memalign 0) MemoryAllocator_new)) as ->.
  { unfold allocateState in Ha. cbn [e_id e_pool start_endpoint] in Ha.
    destruct (allocateObject object_size 4 (memalign 0) MemoryAllocator_new). by injection Ha as _ <-. }
  exists st.
  apply (typed_send_overruns demo_ok 0 (<[st := Sending (s_dest long_send)
    (Message (message_of false long_send [] (start_endpoint demo_mem0 0)))]> ∅) ∅ st long_send (mkTyped 3000 0 0 0) 4096 4260 byte_type (PCopy 1 1 1 PEnd)
    (message_of false long_send [] (start_endpoint demo_mem0 0)) _); try done.
  - apply lookup_insert_eq.
  - apply lookup_insert_eq.
  - exact long_typed_data.
  - left. cbn. lia.
Defined.
