(* ===== verification/PacketFifo.v ===== *)
(** The packet fifos of shared memory, src/components/fifo/linear/LinearFifo.h and
    src/components/fifo/wrap/WrapFifo.h: any number of producers write packets into an array of
    slots, one consumer reads them, and nobody takes a lock. *)
From stdpp Require Import functions.
From S2P Require Import Prelude.
From S2P Require Import Atomics.

(** [(ssize_t)] of a [size_t]. *)
Definition to_ssize (z : Z) : Z := if z <? 2 ^ 63 then z else z - 2 ^ 64.

Lemma to_ssize_small z : 0 ≤ z < 2 ^ 63 → to_ssize z = z.
Proof. intros Hz. unfold to_ssize. by rewrite (proj2 (Z.ltb_lt z (2 ^ 63))) by lia. Qed.

(** * Who may use which slot *)

(** src/components/atomic/BoundedCounterInterface.h, with [bound_upper_store_and_add] of
    src/components/atomic/bgq/L2CounterBounded.h; the operations are the hardware's. *)
Class BoundedCounter (T : Type) := {
  bound_error : Z;
  fetch_and_inc_bounded : T → Z * T;
  bound_upper_fetch_and_inc : T → Z * T;
  bound_upper_store_and_add : T → T;
  bound_upper_clear : T → T;
  bound_lower_clear : T → T
}.

(** What differs between the two fifos: how a producer gets the index of a slot, with the
    [_last_packet_produced] it will leave, and what the consumer does when it is through with the
    slot of an index. *)
Class Tickets (T : Type) := {
  take_ticket : T → option (Z * Z) * T;
  release_ticket : Z → T → T
}.

Section tickets.
(** [T_Size]. *)
Context (T_Size : Z).

Definition mask : Z := T_Size - 1.

(** LinearFifo: the slots are given out from the first to the last, and again when the last one was
    consumed. *)
Definition linear_take `{Counter T} (tail : T) : option (Z * Z) * T :=
  let '(index, tail) := fetch_and_inc tail in
  (if index <? T_Size then Some (index, index) else None, tail).
Definition linear_release `{Counter T} (index : Z) (tail : T) : T :=
  if index =? T_Size - 1 then clear tail else tail.

(** WrapFifo: a slot is given out again as soon as it was consumed. *)
Definition wrap_take `{BoundedCounter T} (c : T) : option (Z * Z) * T :=
  let '(tail, c) := fetch_and_inc_bounded c in
  (if negb (tail =? bound_error) then Some (Z.land tail mask, tail) else None, c).
Definition wrap_release `{BoundedCounter T} (index : Z) (c : T) : T := bound_upper_store_and_add c.

Definition LinearFifo (T : Type) `{Counter T} : Tickets T :=
  {| take_ticket := linear_take; release_ticket := linear_release |}.
Definition WrapFifo (T : Type) `{BoundedCounter T} : Tickets T :=
  {| take_ticket := wrap_take; release_ticket := wrap_release |}.

(** What [packet_initialize] of WrapFifo does to the counter. *)
Definition wrap_initialize `{BoundedCounter T} (c : T) : T :=
  foldl (λ c _, snd (bound_upper_fetch_and_inc c)) (bound_upper_clear (bound_lower_clear c)) (seqZ 0 T_Size).
End tickets.

(** * A fifo in use *)

(** Where a producer is in [producePacket_impl]: it has a slot and writes what is left of the
    packet, one cell after the other; the packet is written; it is marked active. *)
Inductive producer :=
| P_Idle
| P_Write (index last : Z) (rest : list (Z * Z))
| P_Last (last : Z).

(** A producer's fifo object. *)
Record producing := mkProducing { p_pc : producer; _last_packet_produced : Z }.

(** Where the consumer is in [consumePacket_impl]: it has read the head; it saw the slot active;
    it reads the cells; it is about to advance the head; to release the slot. *)
Inductive consumer :=
| C_Idle
| C_Loaded (head : Z)
| C_Seen (head : Z)
| C_Read (head : Z) (got : list Z)
| C_Head (head : Z)
| C_Release (head : Z).

(** What happens: a producer gets a slot for the packet it is about to write, or finds none; it
    returns true; the consumer has read a packet, or finds none. *)
Inductive event :=
| Granted (p : Z) (packet : list (Z * Z))
| Refused (p : Z)
| Produced (p : Z)
| Consumed (packet : list Z)
| Empty.

(** Steps: a producer that is idle calls [producePacket]; it does what comes next; the
    consumer does. *)
Inductive action := Produce (p : Z) (packet : list (Z * Z)) | Producer (p : Z) | Consumer.

#[export] Instance action_eq_dec : EqDecision action.
Proof. solve_decision. Defined.

Section fifo.
Context (T_Size : Z) (cells : nat).
Context {T : Type} `{Tickets T}.

(** In shared memory: the packets with their cells, [_active], [_head] and the counter; then the
    producers and the consumer, and what happened. *)
Record fifo := mkFifo {
  f_packet : Z → Z → Z; f_active : Z → Z; f_head : Z; f_counter : T;
  f_producer : Z → producing; f_consumer : consumer; f_log : list event
}.
Implicit Type f : fifo.

Definition set_slot (i : Z) (pk : Z → Z) f : fifo :=
  mkFifo (<[i := pk]> (f_packet f)) (f_active f) (f_head f) (f_counter f) (f_producer f) (f_consumer f) (f_log f).
Definition set_active (i v : Z) f : fifo :=
  mkFifo (f_packet f) (<[i := v]> (f_active f)) (f_head f) (f_counter f) (f_producer f) (f_consumer f) (f_log f).
Definition set_head (h : Z) f : fifo :=
  mkFifo (f_packet f) (f_active f) h (f_counter f) (f_producer f) (f_consumer f) (f_log f).
Definition set_counter (c : T) f : fifo :=
  mkFifo (f_packet f) (f_active f) (f_head f) c (f_producer f) (f_consumer f) (f_log f).
Definition set_producer (p : Z) (x : producer) f : fifo :=
  mkFifo (f_packet f) (f_active f) (f_head f) (f_counter f)
    (<[p := mkProducing x (_last_packet_produced (f_producer f p))]> (f_producer f)) (f_consumer f) (f_log f).
Definition set_last (p last : Z) f : fifo :=
  mkFifo (f_packet f) (f_active f) (f_head f) (f_counter f)
    (<[p := mkProducing (p_pc (f_producer f p)) last]> (f_producer f)) (f_consumer f) (f_log f).
Definition set_consumer (c : consumer) f : fifo :=
  mkFifo (f_packet f) (f_active f) (f_head f) (f_counter f) (f_producer f) c (f_log f).
Definition add_event (ev : event) f : fifo :=
  mkFifo (f_packet f) (f_active f) (f_head f) (f_counter f) (f_producer f) (f_consumer f) (f_log f ++ [ev]).

Definition lastPacketProduced (p : Z) f : Z := _last_packet_produced (f_producer f p).
Definition lastPacketConsumed f : Z := f_head f - 1.

(** As [packet_initialize] and [initialize_impl] leave it; the packets hold anything. *)
Definition initialized (junk : Z → Z → Z) (c : T) : fifo :=
  mkFifo junk (λ _, 0) 0 c (λ _, mkProducing P_Idle (-1)) C_Idle [].

(** [producePacket_impl] of [p], one access to shared memory. *)
Definition produce_start (p : Z) (packet : list (Z * Z)) f : fifo :=
  match take_ticket (f_counter f) with
  | (Some (index, last), c) =>
      add_event (Granted p packet) (set_producer p (P_Write index last packet) (set_counter c f))
  | (None, c) => add_event (Refused p) (set_counter c f)
  end.
Definition produce_step (p : Z) f : fifo :=
  match p_pc (f_producer f p) with
  | P_Idle => f
  | P_Write index last ((cell, v) :: rest) =>
      set_producer p (P_Write index last rest) (set_slot index (<[cell := v]> (f_packet f index)) f)
  | P_Write index last [] => set_producer p (P_Last last) (set_active index 1 f)
  | P_Last last => add_event (Produced p) (set_producer p P_Idle (set_last p (to_ssize last) f))
  end.

(** [consumePacket_impl], one access to shared memory. *)
Definition consume_step f : fifo :=
  match f_consumer f with
  | C_Idle => set_consumer (C_Loaded (w64 (f_head f))) f
  | C_Loaded head =>
      if negb (f_active f (Z.land head (mask T_Size)) =? 0) then set_consumer (C_Seen head) f
      else add_event Empty (set_consumer C_Idle f)
  | C_Seen head => set_consumer (C_Read head []) (set_active (Z.land head (mask T_Size)) 0 f)
  | C_Read head got =>
      if (length got <? cells)%nat
      then set_consumer (C_Read head (got ++ [f_packet f (Z.land head (mask T_Size)) (Z.of_nat (length got))])) f
      else add_event (Consumed got) (set_consumer (C_Head head) f)
  | C_Head head => set_consumer (C_Release head) (set_head (to_ssize (w64 (head + 1))) f)
  | C_Release head =>
      set_consumer C_Idle (set_counter (release_ticket (Z.land head (mask T_Size)) (f_counter f)) f)
  end.

Definition step (a : action) f : fifo :=
  match a with
  | Produce p packet =>
      match p_pc (f_producer f p) with P_Idle => produce_start p packet f | _ => f end
  | Producer p => produce_step p f
  | Consumer => consume_step f
  end.

Definition run (l : list action) f : fifo := foldl (λ f a, step a f) f l.

(** * The packets given a slot, and those consumed *)

Definition granted (l : list event) : list (Z * list (Z * Z)) :=
  omap (λ ev, match ev with Granted p packet => Some (p, packet) | _ => None end) l.
Definition consumed (l : list event) : list (list Z) :=
  omap (λ ev, match ev with Consumed packet => Some packet | _ => None end) l.

(** The cells of a slot after a packet was written over what it held. *)
Definition write_cells (packet : list (Z * Z)) (old : Z → Z) : Z → Z :=
  foldl (λ pk '(cell, v), <[cell := v]> pk) old packet.
Definition cells_of (pk : Z → Z) : list Z := map pk (seqZ 0 (Z.of_nat cells)).

Lemma cells_of_length pk : length (cells_of pk) = cells.
Proof. unfold cells_of. by rewrite length_map, length_seqZ, Nat2Z.id. Qed.
End fifo.
Arguments mkFifo {T}.
Arguments f_packet {T} f.
Arguments f_active {T} f.
Arguments f_head {T} f.
Arguments f_counter {T} f.
Arguments f_producer {T} f.
Arguments f_consumer {T} f.
Arguments f_log {T} f.
