(* ===== verification/PacketFifoSpec.v ===== *)
(** What holds of a packet fifo whatever the order of the steps of its producers and its
    consumer, given what its tickets promise. *)
From stdpp Require Import functions.
From S2P Require Import Prelude.
From S2P Require Import Atomics.
From S2P Require Import PacketFifo.

Notation len l := (Z.of_nat (length l)).

(** * What tickets promise *)

(** [tickets_at c g r n]: [g] tickets were given out and [r] of them released, in [n] steps.
    Ticket [g] is for the slot [g mod T_Size]; there are never more than [T_Size] out, and
    a producer is turned away only while there is one. *)
Class TicketLaws (T_Size : Z) (T : Type) `{Tickets T} := {
  tickets_at : T → Z → Z → Z → Prop;
  last_of : Z → Z;
  tickets_bound c g r n : tickets_at c g r n → r ≤ g ≤ r + T_Size;
  tickets_later c g r n : tickets_at c g r n → tickets_at c g r (n + 1);
  tickets_take c g r n : tickets_at c g r n → 0 ≤ r → 0 ≤ n < 2 ^ 62 → g ≤ n → ∃ c',
    (take_ticket c = (Some (g mod T_Size, last_of g), c') ∧ g < r + T_Size ∧ tickets_at c' (g + 1) r (n + 1)) ∨
    (take_ticket c = (None, c') ∧ r < g ∧ tickets_at c' g r (n + 1));
  tickets_release c g r n : tickets_at c g r n → 0 ≤ r → 0 ≤ n < 2 ^ 62 → g ≤ n → r < g →
    tickets_at (release_ticket (r mod T_Size) c) g (r + 1) (n + 1)
}.

Section spec.
Context (k : Z) (Hk : 0 ≤ k).
Notation T_Size := (2 ^ k).
Context (cells : nat) {T : Type} `{TicketLaws T_Size T}.

Lemma slot_index h : Z.land h (mask T_Size) = h mod T_Size.
Proof. unfold mask. rewrite Z.sub_1_r, <- Z.ones_equiv. by apply Z.land_ones. Qed.

Lemma fifo_size_pos : 0 < T_Size.
Proof. by apply Z.pow_pos_nonneg. Qed.

Lemma same_slot i j : i mod T_Size = j mod T_Size → i < j + T_Size → j < i + T_Size → i = j.
Proof.
  pose proof fifo_size_pos as Hpos. intros Heq Hi Hj.
  assert (Di := Z.div_mod i T_Size ltac:(lia)). assert (Dj := Z.div_mod j T_Size ltac:(lia)).
  rewrite Heq in Di. destruct (Z.lt_trichotomy (i / T_Size) (j / T_Size)) as [?|[He|?]]; [nia|congruence|nia].
Qed.

(** * The invariant *)

Notation gr f := (granted (f_log f)).
Notation tk f := (consumed (f_log f)).

(** The tickets the consumer has released; the first ticket whose slot it has not yet cleared. *)
Definition released (f : @fifo T) : Z := match f_consumer f with C_Release _ => f_head f - 1 | _ => f_head f end.
Definition first (f : @fifo T) : Z := match f_consumer f with C_Read _ _ | C_Head _ => f_head f + 1 | _ => f_head f end.

(** The slot of ticket [i] holds the packet it was given for. *)
Definition filled (f : @fifo T) (i : Z) : Prop := ∃ p packet old,
  gr f !! Z.to_nat i = Some (p, packet) ∧ f_packet f (i mod T_Size) = write_cells packet old.

(** [W] has the tickets of the producers that write. *)
Definition producer_ok (f : @fifo T) (W : gmap Z Z) (p : Z) : Prop :=
  match p_pc (f_producer f p) with
  | P_Write index last rest => ∃ i written old, W !! p = Some i ∧ index = i mod T_Size ∧ last = last_of i ∧
      first f ≤ i < len (gr f) ∧ gr f !! Z.to_nat i = Some (p, written ++ rest) ∧
      f_packet f index = write_cells written old ∧ f_active f index = 0
  | _ => W !! p = None
  end.

Definition consumer_ok (f : @fifo T) : Prop :=
  match f_consumer f with
  | C_Idle => True
  | C_Loaded h => h = f_head f
  | C_Seen h => h = f_head f ∧ f_active f (h mod T_Size) = 1
  | C_Read h got => h = f_head f ∧ h < len (gr f) ∧ filled f h ∧
      got = take (length got) (cells_of cells (f_packet f (h mod T_Size)))
  | C_Head h => h = f_head f ∧ h < len (gr f)
  | C_Release h => f_head f = h + 1 ∧ h < len (gr f)
  end.

(** An active slot is that of a ticket of nobody who writes. *)
Definition active_ok (f : @fifo T) (W : gmap Z Z) (s : Z) : Prop := f_active f s = 0 ∨
  f_active f s = 1 ∧ ∃ i, first f ≤ i < len (gr f) ∧ s = i mod T_Size ∧ filled f i ∧ ∀ p, W !! p ≠ Some i.

Record inv (n : Z) (f : @fifo T) (W : gmap Z Z) : Prop := {
  inv_head : 0 ≤ released f;
  inv_steps : len (gr f) ≤ n;
  inv_tickets : tickets_at (f_counter f) (len (gr f)) (released f) n;
  inv_producers p : producer_ok f W p;
  inv_writers p q i : W !! p = Some i → W !! q = Some i → p = q;
  inv_writes p i : W !! p = Some i → ∃ index last rest, p_pc (f_producer f p) = P_Write index last rest;
  inv_consumer : consumer_ok f;
  inv_active s : active_ok f W s;
  (* a ticket that waits is written, or its slot is active *)
  inv_waits i : first f ≤ i < len (gr f) → (∃ p, W !! p = Some i) ∨ f_active f (i mod T_Size) = 1;
  inv_taken : len (tk f) = match f_consumer f with C_Head _ => f_head f + 1 | _ => f_head f end;
  inv_order j got : tk f !! j = Some got → ∃ p packet old,
    gr f !! j = Some (p, packet) ∧ got = cells_of cells (write_cells packet old)
}.

(** * Facts *)

Lemma granted_app l l' : granted (l ++ l') = granted l ++ granted l'.
Proof. apply omap_app. Qed.
Lemma consumed_app l l' : consumed (l ++ l') = consumed l ++ consumed l'.
Proof. apply omap_app. Qed.

Lemma write_cells_snoc l cell v old : write_cells (l ++ [(cell, v)]) old = <[cell := v]> (write_cells l old).
Proof. unfold write_cells. by rewrite foldl_app. Qed.

Section facts.
Context (n : Z) (f : @fifo T) (W : gmap Z Z) (Hi : inv n f W).

Lemma out_bound : released f ≤ len (gr f) ≤ released f + T_Size.
Proof. eapply tickets_bound, (inv_tickets _ _ _ Hi). Qed.

Lemma first_released : released f ≤ first f ≤ released f + 1.
Proof. unfold first, released. destruct (f_consumer f); lia. Qed.

Lemma write_at p i : W !! p = Some i → ∃ last rest written old,
  p_pc (f_producer f p) = P_Write (i mod T_Size) last rest ∧ last = last_of i ∧ first f ≤ i < len (gr f) ∧
  gr f !! Z.to_nat i = Some (p, written ++ rest) ∧
  f_packet f (i mod T_Size) = write_cells written old ∧ f_active f (i mod T_Size) = 0.
Proof.
  intros HW. destruct (inv_writes _ _ _ Hi p i HW) as (index&last&rest&Hpc).
  pose proof (inv_producers _ _ _ Hi p) as Hp. unfold producer_ok in Hp. rewrite Hpc in Hp.
  destruct Hp as (i'&written&old&HW'&->&?&?&?&?&?). rewrite HW in HW'. injection HW' as <-.
  exists last, rest, written, old. done.
Qed.

(** Two tickets that are out have two slots. *)
Lemma apart i j : released f ≤ i < len (gr f) → released f ≤ j < len (gr f) → i mod T_Size = j mod T_Size → i = j.
Proof. intros. pose proof out_bound. apply same_slot; [done|lia|lia]. Qed.

Lemma next_free : len (gr f) < released f + T_Size → f_active f (len (gr f) mod T_Size) = 0.
Proof.
  intros Hroom. destruct (inv_active _ _ _ Hi (len (gr f) mod T_Size)) as [|(_&i&Hr&Heq&_)]; [done|exfalso].
  pose proof first_released. apply same_slot in Heq; lia.
Qed.
End facts.

(** * Every step keeps it *)

Lemma filled_grant f p packet i c x : 0 ≤ i < len (gr f) → filled f i →
  filled (add_event (Granted p packet) (set_producer p x (set_counter c f))) i.
Proof.
  intros Hi (q&l&old&Hl&Hp). exists q, l, old. split; [|done]. cbn [f_log add_event set_producer set_counter].
  rewrite granted_app. rewrite lookup_app_l; [done|]. lia.
Qed.

Lemma grant_inv n f W p packet c last : inv n f W → p_pc (f_producer f p) = P_Idle → last = last_of (len (gr f)) →
  len (gr f) < released f + T_Size → tickets_at c (len (gr f) + 1) (released f) (n + 1) →
  inv (n + 1) (add_event (Granted p packet) (set_producer p (P_Write (len (gr f) mod T_Size) last packet) (set_counter c f)))
    (<[p := len (gr f)]> W).
Proof.
  intros Hi Hpc -> Hroom Hc. pose proof (inv_producers _ _ _ Hi p) as Hp. unfold producer_ok in Hp. rewrite Hpc in Hp.
  set (g := len (gr f)) in *. set (f' := add_event _ _).
  assert (Hgr : gr f' = gr f ++ [(p, packet)]) by apply granted_app.
  assert (Hlen : len (gr f') = g + 1) by (rewrite Hgr, length_app; cbn; lia).
  assert (Htk : tk f' = tk f) by (unfold f'; cbn [f_log add_event set_producer set_counter]; rewrite consumed_app; apply app_nil_r).
  assert (Hold : ∀ i x, gr f !! i = Some x → gr f' !! i = Some x) by (intros; rewrite Hgr; by apply lookup_app_l_Some).
  assert (Hfil : ∀ i, 0 ≤ i < g → filled f i → filled f' i) by (intros; by apply filled_grant).
  pose proof (first_released f) as Hfr. pose proof (inv_head _ _ _ Hi) as Hhead. change (first f') with (first f) in *.
  assert (Hne : ∀ q i, W !! q = Some i → q ≠ p ∧ i < g).
  { intros q i HW. destruct (write_at n f W Hi q i HW) as (?&?&?&?&_&_&?&_). split; [congruence|lia]. }
  split.
  - done.
  - rewrite Hlen. pose proof (inv_steps _ _ _ Hi). lia.
  - rewrite Hlen. exact Hc.
  - intros q. unfold producer_ok. destruct (decide (q = p)) as [->|Hqp].
    + unfold f' at 1. cbn [f_producer add_event set_producer]. rewrite fn_lookup_insert. cbn [p_pc].
      exists g, [], (f_packet f (g mod T_Size)). rewrite lookup_insert_eq. do 3 (split; [done|]).
      split; [rewrite Hlen; change (first f') with (first f); pose proof (out_bound n f W Hi) as Hb; fold g in Hb|].
      { destruct (f_consumer f) eqn:Hcons; unfold first, released in *; rewrite ?Hcons in *; try lia;
          pose proof (inv_consumer _ _ _ Hi) as Hco; unfold consumer_ok in Hco; rewrite Hcons in Hco; fold g in Hco; lia. }
      split; [rewrite Hgr, lookup_app_r by lia; by replace (Z.to_nat g - length (gr f))%nat with 0%nat by lia|].
      split; [done|]. by apply (next_free n f W Hi).
    + unfold f' at 1. cbn [f_producer add_event set_producer]. rewrite fn_lookup_insert_ne by done.
      rewrite lookup_insert_ne by done. pose proof (inv_producers _ _ _ Hi q) as Hq. unfold producer_ok in Hq.
      cbn [f_producer set_counter]. destruct (p_pc (f_producer f q)); [done| |done].
      destruct Hq as (i&written&old&?&?&?&?&?&?&?). exists i, written, old.
      repeat (split; [done|]). split; [rewrite Hlen; change (first f') with (first f); lia|]. by auto.
  - intros q q' i Hq Hq'. apply lookup_insert_Some in Hq as [[<- <-]|[? Hq]], Hq' as [[<- Hg]|[? Hq']]; [done|..].
    + apply Hne in Hq'. lia.
    + apply Hne in Hq. lia.
    + by eapply (inv_writers _ _ _ Hi).
  - intros q i Hq. unfold f'. cbn [f_producer add_event set_producer]. apply lookup_insert_Some in Hq as [[<- <-]|[? Hq]].
    + rewrite fn_lookup_insert. eauto.
    + rewrite fn_lookup_insert_ne by done. by apply (inv_writes _ _ _ Hi _ i).
  - pose proof (inv_consumer _ _ _ Hi) as Hco. unfold consumer_ok in *. change (f_consumer f') with (f_consumer f).
    rewrite Hlen. fold g in Hco. destruct (f_consumer f) eqn:Hcons; [done|done|done|..].
    + destruct Hco as (->&?&?&?). split; [done|]. split; [lia|]. split; [|done]. apply Hfil; [|done].
      unfold released in Hhead. rewrite Hcons in Hhead. lia.
    + destruct Hco as (?&?). split; [done|lia].
    + destruct Hco as (?&?). split; [done|lia].
  - intros s. destruct (inv_active _ _ _ Hi s) as [Ha|(Ha&i&Hr&?&?&HW)]; [by left|right]. fold g in Hr. split; [done|].
    exists i. rewrite Hlen. change (first f') with (first f). split; [lia|]. split; [done|]. split; [apply Hfil; [lia|done]|].
    intros q Hq. apply lookup_insert_Some in Hq as [[_ <-]|[? Hq]]; [lia|by apply (HW q)].
  - intros i Hr. rewrite Hlen in Hr. change (first f') with (first f) in Hr.
    destruct (decide (i = g)) as [->|]; [left; exists p; apply lookup_insert_eq|].
    destruct (inv_waits _ _ _ Hi i) as [[q Hq]|Ha]; [fold g; lia| |by right].
    left. exists q. rewrite lookup_insert_ne; [done|]. apply Hne in Hq as [? _]. congruence.
  - rewrite Htk. apply (inv_taken _ _ _ Hi).
  - intros j got. rewrite Htk. intros Hj. destruct (inv_order _ _ _ Hi j got Hj) as (q&l&old&Hl&Hgot). exists q, l, old. auto.
Qed.

(** A step that leaves the slots and the tickets of the producers alone. *)
Lemma frame_inv n n' f f' W : inv n f W → n ≤ n' → gr f' = gr f → tk f' = tk f →
  f_packet f' = f_packet f → f_active f' = f_active f →
  (∀ p, p_pc (f_producer f' p) = p_pc (f_producer f p) ∨ W !! p = None ∧ p_pc (f_producer f' p) = P_Idle) →
  first f' = first f → 0 ≤ released f' → tickets_at (f_counter f') (len (gr f)) (released f') n' →
  consumer_ok f' → len (tk f) = match f_consumer f' with C_Head _ => f_head f' + 1 | _ => f_head f' end →
  inv n' f' W.
Proof.
  intros Hi Hn Hgr Htk Hpk Hac Hpc Hfi Hre Hc Hco Hlen.
  assert (Hfil : ∀ i, filled f i → filled f' i) by (intros i; unfold filled; by rewrite Hgr, Hpk).
  split.
  - done.
  - rewrite Hgr. pose proof (inv_steps _ _ _ Hi). lia.
  - by rewrite Hgr.
  - intros p. unfold producer_ok. rewrite Hgr, Hpk, Hac, Hfi. destruct (Hpc p) as [->|[HW ->]]; [|done].
    apply (inv_producers _ _ _ Hi p).
  - apply (inv_writers _ _ _ Hi).
  - intros p i HW. destruct (Hpc p) as [->|[HW' _]]; [by apply (inv_writes _ _ _ Hi _ i)|congruence].
  - done.
  - intros s. unfold active_ok. rewrite Hac, Hfi, Hgr.
    destruct (inv_active _ _ _ Hi s) as [Ha|(Ha&i&?&?&?&?)]; [by left|right]. split; [done|]. exists i. auto.
  - intros i. rewrite Hac, Hfi, Hgr. apply (inv_waits _ _ _ Hi).
  - by rewrite Htk.
  - rewrite Htk, Hgr. apply (inv_order _ _ _ Hi).
Qed.

Lemma consumer_same f f' : consumer_ok f → f_consumer f' = f_consumer f → f_head f' = f_head f → gr f' = gr f →
  f_packet f' = f_packet f → f_active f' = f_active f → consumer_ok f'.
Proof. intros Hco Hc Hh Hg Hp Ha. unfold consumer_ok, filled in *. by rewrite Hc, Hh, Hg, Hp, Ha. Qed.

(** ** Producers *)

Lemma write_inv n f W p index last cell v rest : inv n f W →
  p_pc (f_producer f p) = P_Write index last ((cell, v) :: rest) →
  inv n (set_producer p (P_Write index last rest) (set_slot index (<[cell := v]> (f_packet f index)) f)) W.
Proof.
  intros Hi Hpc. set (f' := set_producer _ _ _).
  pose proof (inv_producers _ _ _ Hi p) as Hp. unfold producer_ok in Hp. rewrite Hpc in Hp.
  destruct Hp as (i&written&old&HW&->&->&Hr&Hg&Hpk&Ha). pose proof (first_released f) as Hfr.
  assert (Hslot : ∀ j, released f ≤ j < len (gr f) → j ≠ i → f_packet f' (j mod T_Size) = f_packet f (j mod T_Size)).
  { intros j Hj Hne. unfold f'. cbn [f_packet set_producer set_slot]. apply fn_lookup_insert_ne.
    intros Heq. apply (apart n f W Hi) in Heq; [congruence|lia|done]. }
  assert (Hfil : ∀ j, released f ≤ j < len (gr f) → j ≠ i → filled f j → filled f' j).
  { intros j Hj Hne (q&l&o&Hl&Ho). exists q, l, o. split; [done|]. by rewrite Hslot. }
  assert (Hproc : ∀ q, q ≠ p → f_producer f' q = f_producer f q).
  { intros q Hq. unfold f'. cbn [f_producer set_producer]. by rewrite fn_lookup_insert_ne. }
  split.
  - apply (inv_head _ _ _ Hi).
  - apply (inv_steps _ _ _ Hi).
  - apply (inv_tickets _ _ _ Hi).
  - intros q. unfold producer_ok. destruct (decide (q = p)) as [->|Hqp].
    + unfold f' at 1. cbn [f_producer set_producer]. rewrite fn_lookup_insert. cbn [p_pc].
      exists i, (written ++ [(cell, v)]), old. do 3 (split; [done|]). split; [done|].
      split; [by rewrite <- (assoc_L (++))|]. split; [|done].
      unfold f'. cbn [f_packet set_producer set_slot]. by rewrite fn_lookup_insert, write_cells_snoc, Hpk.
    + rewrite Hproc by done. pose proof (inv_producers _ _ _ Hi q) as Hq. unfold producer_ok in Hq.
      destruct (p_pc (f_producer f q)); [done| |done].
      destruct Hq as (j&w&o&HWq&->&?&Hrj&?&Ho&?). exists j, w, o. do 3 (split; [done|]). split; [done|]. split; [done|].
      split; [|done]. rewrite Hslot; [done| |].
      * change (first f') with (first f) in Hrj. lia.
      * intros ->. by destruct (Hqp (inv_writers _ _ _ Hi q p i HWq HW)).
  - apply (inv_writers _ _ _ Hi).
  - intros q j HWq. destruct (decide (q = p)) as [->|Hqp].
    + unfold f'. cbn [f_producer set_producer]. rewrite fn_lookup_insert. eauto.
    + rewrite Hproc by done. by apply (inv_writes _ _ _ Hi _ j).
  - pose proof (inv_consumer _ _ _ Hi) as Hco. unfold consumer_ok in *. change (f_consumer f') with (f_consumer f).
    destruct (f_consumer f) eqn:Hcons; [done..| |done|done]. destruct Hco as (->&Hh&Hf&Hgot).
    assert (Hrel : released f = f_head f) by (unfold released; by rewrite Hcons).
    assert (Hfst : first f = f_head f + 1) by (unfold first; by rewrite Hcons).
    split; [done|]. split; [done|]. split; [apply Hfil; [lia|lia|done]|]. rewrite Hslot by lia. done.
  - intros s. destruct (inv_active _ _ _ Hi s) as [|(Has&j&Hrj&->&Hf&HWj)]; [by left|right]. split; [done|]. exists j.
    do 2 (split; [done|]). split; [|done]. apply Hfil; [lia| |done]. intros ->. by apply (HWj p).
  - apply (inv_waits _ _ _ Hi).
  - apply (inv_taken _ _ _ Hi).
  - apply (inv_order _ _ _ Hi).
Qed.

Lemma activate_inv n f W p index last : inv n f W → p_pc (f_producer f p) = P_Write index last [] →
  inv n (set_producer p (P_Last last) (set_active index 1 f)) (delete p W) ∧ ∃ i, W !! p = Some i ∧ last = last_of i.
Proof.
  intros Hi Hpc. set (f' := set_producer _ _ _).
  pose proof (inv_producers _ _ _ Hi p) as Hp. unfold producer_ok in Hp. rewrite Hpc in Hp.
  destruct Hp as (i&written&old&HW&->&->&Hr&Hg&Hpk&Ha). pose proof (first_released f) as Hfr.
  rewrite app_nil_r in Hg. split; [|by exists i].
  assert (Hactive : ∀ s, s ≠ i mod T_Size → f_active f' s = f_active f s).
  { intros s Hs. unfold f'. cbn [f_active set_producer set_active]. by rewrite fn_lookup_insert_ne. }
  assert (Hself : f_active f' (i mod T_Size) = 1).
  { unfold f'. cbn [f_active set_producer set_active]. by rewrite fn_lookup_insert. }
  assert (Hproc : ∀ q, q ≠ p → f_producer f' q = f_producer f q).
  { intros q Hq. unfold f'. cbn [f_producer set_producer]. by rewrite fn_lookup_insert_ne. }
  split.
  - apply (inv_head _ _ _ Hi).
  - apply (inv_steps _ _ _ Hi).
  - apply (inv_tickets _ _ _ Hi).
  - intros q. unfold producer_ok. destruct (decide (q = p)) as [->|Hqp].
    + unfold f' at 1. cbn [f_producer set_producer]. rewrite fn_lookup_insert. apply lookup_delete_eq.
    + rewrite Hproc, lookup_delete_ne by done. pose proof (inv_producers _ _ _ Hi q) as Hq. unfold producer_ok in Hq.
      destruct (p_pc (f_producer f q)); [done| |done].
      destruct Hq as (j&w&o&HWq&->&?&Hrj&?&Ho&?). exists j, w, o. do 6 (split; [done|]). rewrite Hactive; [done|].
      intros Heq. apply (apart n f W Hi) in Heq as ->; [|lia..]. by destruct (Hqp (inv_writers _ _ _ Hi q p i HWq HW)).
  - intros q q' j Hq Hq'. apply lookup_delete_Some in Hq as [_ Hq], Hq' as [_ Hq']. by eapply (inv_writers _ _ _ Hi).
  - intros q j Hq. apply lookup_delete_Some in Hq as [Hne Hq]. rewrite Hproc by done. by apply (inv_writes _ _ _ Hi _ j).
  - pose proof (inv_consumer _ _ _ Hi) as Hco. unfold consumer_ok in *. change (f_consumer f') with (f_consumer f).
    destruct (f_consumer f) eqn:Hcons; [done|done| |exact Hco..]. destruct Hco as (->&Hh). split; [done|].
    destruct (decide (f_head f mod T_Size = i mod T_Size)) as [->|Hne]; [done|]. by rewrite Hactive.
  - intros s. destruct (decide (s = i mod T_Size)) as [->|Hs].
    + right. split; [done|]. exists i. do 2 (split; [done|]). split; [by exists p, written, old|].
      intros q Hq. apply lookup_delete_Some in Hq as [Hne Hq]. apply Hne. by eapply (inv_writers _ _ _ Hi).
    + unfold active_ok. rewrite Hactive by done. destruct (inv_active _ _ _ Hi s) as [|(Has&j&Hrj&->&Hf&HWj)]; [by left|right].
      split; [done|]. exists j. do 3 (split; [done|]). intros q Hq. apply lookup_delete_Some in Hq as [_ Hq]. by apply (HWj q).
  - intros j Hrj. change (first f ≤ j < len (gr f)) in Hrj. destruct (decide (j = i)) as [->|Hne]; [by right|].
    destruct (inv_waits _ _ _ Hi j Hrj) as [[q Hq]|Haj].
    + left. exists q. rewrite lookup_delete_ne; [done|]. intros ->. congruence.
    + right. rewrite Hactive; [done|]. intros Heq. apply (apart n f W Hi) in Heq; [congruence|lia|lia].
  - apply (inv_taken _ _ _ Hi).
  - apply (inv_order _ _ _ Hi).
Qed.

(** ** The consumer *)

Lemma clear_inv n f W h : inv n f W → f_consumer f = C_Seen h →
  inv n (set_consumer (C_Read h []) (set_active (h mod T_Size) 0 f)) W.
Proof.
  intros Hi Hcons. set (f' := set_consumer _ _).
  pose proof (inv_consumer _ _ _ Hi) as Hco. unfold consumer_ok in Hco. rewrite Hcons in Hco. destruct Hco as (->&Hone).
  assert (Hrel : released f = f_head f) by (unfold released; by rewrite Hcons).
  assert (Hfst : first f = f_head f) by (unfold first; by rewrite Hcons).
  pose proof (inv_active _ _ _ Hi (f_head f mod T_Size)) as [?|(_&h&Hh&Heq&Hfil&HW)]; [congruence|].
  apply (apart n f W Hi) in Heq as <-; [|lia..].
  assert (Hactive : ∀ s, s ≠ f_head f mod T_Size → f_active f' s = f_active f s).
  { intros s Hs. unfold f'. cbn [f_active set_consumer set_active]. by rewrite fn_lookup_insert_ne. }
  assert (Hself : f_active f' (f_head f mod T_Size) = 0).
  { unfold f'. cbn [f_active set_consumer set_active]. by rewrite fn_lookup_insert. }
  assert (Hother : ∀ i, f_head f ≤ i < len (gr f) → i ≠ f_head f → i mod T_Size ≠ f_head f mod T_Size).
  { intros i Hr Hne Heq. apply (apart n f W Hi) in Heq; [congruence|lia|lia]. }
  assert (Hfst' : first f' = f_head f + 1) by done.
  split.
  - pose proof (inv_head _ _ _ Hi). change (released f') with (f_head f). lia.
  - apply (inv_steps _ _ _ Hi).
  - change (released f') with (f_head f). rewrite <- Hrel. apply (inv_tickets _ _ _ Hi).
  - intros q. pose proof (inv_producers _ _ _ Hi q) as Hq. unfold producer_ok in *. change (f_producer f' q) with (f_producer f q).
    destruct (p_pc (f_producer f q)); [done| |done].
    destruct Hq as (j&w&o&HWq&->&?&Hrj&?&Ho&?). exists j, w, o.
    assert (j ≠ f_head f) by (intros ->; by apply (HW q)).
    do 3 (split; [done|]). split; [rewrite Hfst'; change (gr f') with (gr f); lia|]. do 2 (split; [done|]).
    rewrite Hactive; [done|]. apply Hother; [lia|done].
  - apply (inv_writers _ _ _ Hi).
  - apply (inv_writes _ _ _ Hi).
  - split; [done|]. split; [change (gr f') with (gr f); lia|]. split; [done|]. cbn. by rewrite take_0.
  - intros s. destruct (decide (s = f_head f mod T_Size)) as [->|Hs]; [by left|].
    unfold active_ok. rewrite Hactive by done.
    destruct (inv_active _ _ _ Hi s) as [|(Has&j&Hrj&->&Hf&HWj)]; [by left|right].
    split; [done|]. exists j. split; [|done]. rewrite Hfst'. change (gr f') with (gr f).
    assert (j ≠ f_head f) by (by intros ->). lia.
  - intros j Hrj. rewrite Hfst' in Hrj. change (gr f') with (gr f) in Hrj.
    destruct (inv_waits _ _ _ Hi j) as [HWj|Haj]; [lia|by left|right]. rewrite Hactive; [done|]. apply Hother; lia.
  - pose proof (inv_taken _ _ _ Hi) as Ht. by rewrite Hcons in Ht.
  - apply (inv_order _ _ _ Hi).
Qed.

Lemma take_inv n f W h got : inv n f W → f_consumer f = C_Read h got → (cells ≤ length got)%nat →
  inv n (add_event (Consumed got) (set_consumer (C_Head h) f)) W.
Proof.
  intros Hi Hcons Hgot. set (f' := add_event _ _).
  pose proof (inv_consumer _ _ _ Hi) as Hco. unfold consumer_ok in Hco. rewrite Hcons in Hco.
  destruct Hco as (->&Hh&Hfil&Heq). rewrite take_ge in Heq by (by rewrite cells_of_length).
  assert (Hgr : gr f' = gr f) by (unfold f'; cbn [f_log add_event set_consumer]; rewrite granted_app; apply app_nil_r).
  assert (Htk : tk f' = tk f ++ [got]) by apply consumed_app.
  assert (Hfst : first f' = first f) by (unfold first; by rewrite Hcons).
  assert (Hrel : released f' = released f) by (unfold released; by rewrite Hcons).
  pose proof (inv_taken _ _ _ Hi) as Ht. rewrite Hcons in Ht. pose proof (inv_head _ _ _ Hi) as Hhead.
  unfold released in Hhead. rewrite Hcons in Hhead.
  split.
  - rewrite Hrel. apply (inv_head _ _ _ Hi).
  - rewrite Hgr. apply (inv_steps _ _ _ Hi).
  - rewrite Hgr, Hrel. apply (inv_tickets _ _ _ Hi).
  - intros q. unfold producer_ok. rewrite Hgr, Hfst. apply (inv_producers _ _ _ Hi q).
  - apply (inv_writers _ _ _ Hi).
  - apply (inv_writes _ _ _ Hi).
  - split; [done|]. by rewrite Hgr.
  - intros s. unfold active_ok, filled. rewrite Hgr, Hfst. apply (inv_active _ _ _ Hi s).
  - intros j. rewrite Hgr, Hfst. apply (inv_waits _ _ _ Hi).
  - rewrite Htk, length_app. cbn. lia.
  - intros j g. rewrite Htk, Hgr. intros Hj. apply lookup_app_Some in Hj as [Hj|[Hlen Hj]]; [by apply (inv_order _ _ _ Hi)|].
    apply list_lookup_singleton_Some in Hj as [Hj <-]. destruct Hfil as (p&l&old&Hl&Hp). exists p, l, old.
    split; [|by rewrite Heq, Hp]. rewrite <- Hl. f_equal. lia.
Qed.

(** * Runs *)

Lemma inv_later n f W : inv n f W → inv (n + 1) f W.
Proof. intros Hi. destruct Hi. split; try done; [lia|]. by apply tickets_later. Qed.

Lemma small_head n f W : inv n f W → 0 ≤ n < 2 ^ 62 → 0 ≤ f_head f < 2 ^ 62 + 2.
Proof.
  intros Hi Hn. pose proof (inv_head _ _ _ Hi). pose proof (inv_steps _ _ _ Hi). pose proof (out_bound n f W Hi).
  unfold released in *. destruct (f_consumer f); lia.
Qed.

Lemma consume_inv n f W : inv n f W → 0 ≤ n < 2 ^ 62 → inv (n + 1) (consume_step T_Size cells f) W.
Proof.
  intros Hi Hn. pose proof (small_head n f W Hi Hn) as Hsmall.
  pose proof (inv_consumer _ _ _ Hi) as Hco. unfold consumer_ok in Hco. pose proof (inv_head _ _ _ Hi) as Hhead.
  pose proof (inv_taken _ _ _ Hi) as Ht. pose proof (tickets_later _ _ _ _ (inv_tickets _ _ _ Hi)) as Hlater.
  assert (Hsame : ∀ p, p_pc (f_producer f p) = p_pc (f_producer f p) ∨ W !! p = None ∧ p_pc (f_producer f p) = P_Idle) by (by left).
  unfold consume_step. destruct (f_consumer f) as [|h|h|h got|h|h] eqn:Hcons; rewrite ?slot_index.
  - apply (frame_inv n (n + 1) f _ W Hi); unfold first, released in *; cbn; rewrite ?Hcons in *; try done; try lia.
    by apply w64_small; lia.
  - subst h. destruct (Z.eqb_spec (f_active f (f_head f mod T_Size)) 0) as [Hz|Hnz]; cbn [negb].
    + apply (frame_inv n (n + 1) f _ W Hi); unfold first, released in *; cbn; rewrite ?Hcons in *;
        rewrite ?granted_app, ?consumed_app, ?app_nil_r; try done; lia.
    + apply (frame_inv n (n + 1) f _ W Hi); unfold first, released in *; cbn; rewrite ?Hcons in *; try done; try lia.
      split; [done|]. by destruct (inv_active _ _ _ Hi (f_head f mod T_Size)) as [|[? _]].
  - apply inv_later. by apply clear_inv.
  - destruct Hco as (->&Hh&Hfil&Hgot). destruct (Nat.ltb_spec (length got) cells) as [Hlt|Hge].
    + apply (frame_inv n (n + 1) f _ W Hi); unfold first, released in *; cbn; rewrite ?Hcons in *; try done; try lia.
      unfold consumer_ok. cbn [f_consumer set_consumer]. split; [done|]. split; [done|]. split; [done|]. cbn [f_packet set_consumer].
      rewrite length_app. cbn [length]. rewrite Nat.add_1_r.
      erewrite take_S_r; [by rewrite <- Hgot|]. unfold cells_of. rewrite list_lookup_fmap, lookup_seqZ_lt by lia. done.
    + apply inv_later. by apply take_inv.
  - destruct Hco as (->&Hh). rewrite w64_small, to_ssize_small by lia.
    apply (frame_inv n (n + 1) f _ W Hi); unfold first, released in *; cbn; rewrite ?Hcons in *; try done; try lia.
    by rewrite Z.add_simpl_r.
  - destruct Hco as (Hh&Hlt). apply (frame_inv n (n + 1) f _ W Hi); unfold first, released in *; cbn; rewrite ?Hcons in *; try done; try lia.
    pose proof (tickets_release _ _ _ _ (inv_tickets _ _ _ Hi)) as Hrel. unfold released in Hrel. rewrite Hcons, Hh in Hrel.
    pose proof (inv_steps _ _ _ Hi). rewrite Hh. rewrite Z.add_simpl_r in Hrel. apply Hrel; lia.
Qed.

Lemma step_inv n f W a : inv n f W → 0 ≤ n < 2 ^ 62 → ∃ W', inv (n + 1) (step T_Size cells a f) W'.
Proof.
  intros Hi Hn. destruct a as [p packet|p|]; cbn [step]; [..|exists W; by apply consume_inv].
  - destruct (p_pc (f_producer f p)) eqn:Hpc; [|exists W; by apply inv_later..]. unfold produce_start.
    destruct (tickets_take _ _ _ _ (inv_tickets _ _ _ Hi)) as (c'&[(->&Hroom&Hc)|(->&Hfull&Hc)]);
      [apply (inv_head _ _ _ Hi)|done|apply (inv_steps _ _ _ Hi)|eexists; by eapply grant_inv|].
    exists W. apply (frame_inv n (n + 1) f _ W Hi); cbn; rewrite ?granted_app, ?consumed_app, ?app_nil_r;
      try done; try lia; try (by left); [apply (inv_head _ _ _ Hi)| |apply (inv_taken _ _ _ Hi)].
    eapply consumer_same; [exact (inv_consumer _ _ _ Hi)|done|done| |done|done]. cbn. by rewrite granted_app, app_nil_r.
  - unfold produce_step. destruct (p_pc (f_producer f p)) as [|index last [|[cell v] rest]|last] eqn:Hpc.
    + exists W. by apply inv_later.
    + exists (delete p W). apply inv_later. by apply activate_inv.
    + exists W. apply inv_later. by eapply write_inv.
    + exists W. pose proof (inv_producers _ _ _ Hi p) as HW. unfold producer_ok in HW. rewrite Hpc in HW.
      apply (frame_inv n (n + 1) f _ W Hi); cbn; rewrite ?granted_app, ?consumed_app, ?app_nil_r;
        try done; try lia; [|apply (inv_head _ _ _ Hi)|apply tickets_later, (inv_tickets _ _ _ Hi)| |apply (inv_taken _ _ _ Hi)].
      2: { eapply consumer_same; [exact (inv_consumer _ _ _ Hi)|done|done| |done|done]. cbn. by rewrite granted_app, app_nil_r. }
      intros q. destruct (decide (q = p)) as [->|Hq]; [right|left].
      * by rewrite fn_lookup_insert.
      * by rewrite !fn_lookup_insert_ne.
Qed.
End spec.
