(* ===== verification/PacketFifoProps.v ===== *)
(** The packet fifos as a whole: what their counters promise, packets come out in order and
    intact, nothing gets stuck, and what the sequence numbers of the two fifos are worth. *)
From stdpp Require Import functions.
From S2P Require Import Prelude.
From S2P Require Import Atomics.
From S2P Require Import PacketFifo.
From S2P Require Import PacketFifoSpec.

(** * The two ways to give out slots *)

(** What a bounded counter does: it counts up to its upper bound, and answers [bound_error], the
    sign bit, from there on. *)
Class BoundedCounterLaws (T : Type) `{BoundedCounter T} := {
  bc_count : T → Z;
  bc_upper : T → Z;
  bc_error : bound_error (T := T) = 2 ^ 63;
  bc_inc c : bc_count c < bc_upper c →
    ∃ c', fetch_and_inc_bounded c = (bc_count c, c') ∧ bc_count c' = bc_count c + 1 ∧ bc_upper c' = bc_upper c;
  bc_full c : bc_count c = bc_upper c →
    ∃ c', fetch_and_inc_bounded c = (bound_error, c') ∧ bc_count c' = bc_count c ∧ bc_upper c' = bc_upper c;
  bc_store_add c : bc_count (bound_upper_store_and_add c) = bc_count c ∧
    bc_upper (bound_upper_store_and_add c) = w64 (bc_upper c + 1);
  bc_upper_inc c : bc_count (bound_upper_fetch_and_inc c).2 = bc_count c ∧
    bc_upper (bound_upper_fetch_and_inc c).2 = w64 (bc_upper c + 1);
  bc_upper_clear c : bc_count (bound_upper_clear c) = bc_count c ∧ bc_upper (bound_upper_clear c) = 0;
  bc_lower_clear c : bc_count (bound_lower_clear c) = bc_count c ∧ bc_upper (bound_lower_clear c) = bc_upper c
}.

Section tickets.
Context (k : Z) (Hk : 0 ≤ k ≤ 32).
Notation T_Size := (2 ^ k).

Lemma size_range : 0 < T_Size ≤ 2 ^ 32.
Proof. split; [apply Z.pow_pos_nonneg; lia|apply Z.pow_le_mono_r; lia]. Qed.

(** The linear fifo: since the last round ended, the counter was incremented [t] times. *)
Definition linear_at `{CounterLaws T} (c : T) (g r n : Z) : Prop :=
  0 ≤ counter_value c ≤ n ∧ g = T_Size * (r / T_Size) + Z.min (counter_value c) T_Size ∧ r ≤ g.

#[export] Program Instance linear_laws `{CounterLaws T} : @TicketLaws T_Size T (LinearFifo T_Size T) := {
  tickets_at := linear_at; last_of g := g mod T_Size
}.
Next Obligation.
  intros T ? ? c g r n (Hc&Hg&Hr). pose proof size_range. pose proof (Z.mod_pos_bound r T_Size).
  pose proof (Z.div_mod r T_Size). lia.
Qed.
Next Obligation. intros T ? ? c g r n (Hc&Hg&Hr). split; [lia|done]. Qed.
Next Obligation.
  intros T ? ? c g r n (Hc&Hg&Hr) Hr0 Hn Hgn. pose proof size_range. pose proof (Z.mod_pos_bound r T_Size).
  pose proof (Z.div_mod r T_Size). destruct (value_inc c) as (c'&Hinc&Hv). exists c'.
  rewrite w64_small in Hv by lia. cbn [take_ticket LinearFifo]. unfold linear_take. rewrite Hinc.
  destruct (Z.ltb_spec (counter_value c) T_Size) as [Hlt|Hge]; [left|right].
  - assert (Hmod : g mod T_Size = counter_value c).
    { rewrite Hg, Z.add_comm, Z.mul_comm, Z_mod_plus_full. rewrite Z.min_l by lia. apply Z.mod_small. lia. }
    rewrite Hmod. split; [done|]. split; [lia|]. split; [lia|]. rewrite Hv. lia.
  - split; [done|]. split; [lia|]. split; [lia|]. rewrite Hv. lia.
Qed.
Next Obligation.
  intros T ? ? c g r n (Hc&Hg&Hr) Hr0 Hn Hgn Hlt. pose proof size_range. pose proof (Z.mod_pos_bound r T_Size).
  pose proof (Z.div_mod r T_Size). cbn [release_ticket LinearFifo]. unfold linear_release, linear_at.
  destruct (Z.eqb_spec (r mod T_Size) (T_Size - 1)) as [Hlast|Hmore].
  - rewrite value_clear. assert ((r + 1) / T_Size = r / T_Size + 1) as ->; [|lia].
    symmetry. apply Z.div_unique with 0; lia.
  - assert ((r + 1) / T_Size = r / T_Size) as ->; [|lia].
    symmetry. apply Z.div_unique with (r mod T_Size + 1); lia.
Qed.

(** The wrapping fifo. *)
Definition wrap_at `{BoundedCounterLaws T} (c : T) (g r n : Z) : Prop :=
  bc_count c = g ∧ bc_upper c = r + T_Size ∧ r ≤ g ≤ r + T_Size.

#[export] Program Instance wrap_laws `{BoundedCounterLaws T} : @TicketLaws T_Size T (WrapFifo T_Size T) := {
  tickets_at := wrap_at; last_of g := g
}.
Next Obligation. by intros T ? ? c g r n (_&_&?). Qed.
Next Obligation. done. Qed.
Next Obligation.
  intros T ? ? c g r n (Hc&Hu&Hg) Hr0 Hn Hgn. pose proof size_range. cbn [take_ticket WrapFifo]. unfold wrap_take.
  destruct (decide (g = r + T_Size)) as [Hfull|Hroom].
  - destruct (bc_full c) as (c'&->&Hc'&Hu'); [lia|]. exists c'. right. rewrite Z.eqb_refl. split; [done|]. split; [lia|].
    split; [lia|]. lia.
  - destruct (bc_inc c) as (c'&->&Hc'&Hu'); [lia|]. exists c'. left. rewrite bc_error, (proj2 (Z.eqb_neq _ _)) by lia.
    cbn [negb]. rewrite slot_index, Hc by lia. split; [done|]. split; [lia|]. split; [lia|]. lia.
Qed.
Next Obligation.
  intros T ? ? c g r n (Hc&Hu&Hg) Hr0 Hn Hgn Hlt. pose proof size_range. cbn [release_ticket WrapFifo]. unfold wrap_release, wrap_at.
  destruct (bc_store_add c) as [-> ->]. rewrite w64_small by lia. lia.
Qed.

Lemma linear_start `{CounterLaws T} (c : T) : counter_value c = 0 → tickets_at (TicketLaws := linear_laws) c 0 0 0.
Proof. intros Hc. pose proof size_range. cbn. unfold linear_at. rewrite Hc, Z.div_0_l by lia. lia. Qed.

Lemma wrap_start `{BoundedCounterLaws T} (c : T) : bc_count c = 0 →
  tickets_at (TicketLaws := wrap_laws) (wrap_initialize T_Size c) 0 0 0.
Proof.
  intros Hc. pose proof size_range. cbn. unfold wrap_initialize.
  assert (∀ l c0, bc_count c0 = 0 → 0 ≤ bc_upper c0 → bc_upper c0 + len l ≤ 2 ^ 32 →
    let c1 := foldl (λ c (_ : Z), snd (bound_upper_fetch_and_inc c)) c0 l in bc_count c1 = 0 ∧ bc_upper c1 = bc_upper c0 + len l) as Hl.
  { induction l as [|x l IH]; intros c0 H0c H0u Hb; [cbn; lia|]. cbn [foldl]. cbn [length] in *.
    destruct (bc_upper_inc c0) as [E1 E2]. rewrite w64_small in E2 by lia.
    destruct (IH (snd (bound_upper_fetch_and_inc c0))) as [-> ->]; lia. }
  destruct (bc_upper_clear (bound_lower_clear c)) as [E1 E2]. destruct (bc_lower_clear c) as [E3 _].
  destruct (Hl (seqZ 0 T_Size) (bound_upper_clear (bound_lower_clear c))) as [F1 F2];
    rewrite ?length_seqZ in *; try lia.
  unfold wrap_at. rewrite F1, F2, E2. lia.
Qed.
End tickets.

(** * A fifo from its start *)

(** The packets come out in the order of the slots given out, with the cells their producers wrote,
    and there are never more than fit. *)
Definition in_order {T} (T_Size : Z) (cells : nat) (f : @fifo T) : Prop :=
  len (consumed (f_log f)) ≤ len (granted (f_log f)) ≤ len (consumed (f_log f)) + T_Size ∧
  ∀ j got, consumed (f_log f) !! j = Some got → ∃ p packet old,
    granted (f_log f) !! j = Some (p, packet) ∧ got = cells_of cells (write_cells packet old).

(** No producer is writing. *)
Definition all_idle {T} (f : @fifo T) : Prop := ∀ p, p_pc (f_producer f p) = P_Idle.

(** The steps a producer still has to take. *)
Definition steps_left (x : producer) : nat :=
  match x with P_Idle => 0 | P_Write _ _ rest => S (S (length rest)) | P_Last _ => 1 end.

Definition own_steps (p : Z) (l : list action) : nat :=
  length (filter (λ a, a = Producer p) l).

Section runs.
Context (k : Z) (Hk : 0 ≤ k) (cells : nat) {T : Type} `{TicketLaws (2 ^ k) T}.
Notation T_Size := (2 ^ k).
Notation gr f := (granted (f_log f)).
Notation tk f := (consumed (f_log f)).
Notation run := (run T_Size cells).
Notation step := (step T_Size cells).
Notation inv := (inv k cells).

Lemma fifo_start_inv junk c : tickets_at c 0 0 0 → inv 0 (initialized junk c) ∅.
Proof.
  intros Hc. split; try done; try lia.
  - intros s. by left.
  - intros i [Hi Hi']. cbn in Hi'. unfold first in Hi. cbn in Hi. lia.
Qed.

Lemma run_inv_from l n f W : inv n f W → 0 ≤ n → n + len l ≤ 2 ^ 62 → ∃ W', inv (n + len l) (run l f) W'.
Proof.
  revert n f W. induction l as [|a l IH]; intros n f W Hi Hn Hl.
  - exists W. cbn. by rewrite Z.add_0_r.
  - cbn [length] in *. destruct (step_inv k Hk cells n f W a Hi) as [W1 H1]; [lia|].
    destruct (IH (n + 1) (step a f) W1 H1) as [W' HW]; [lia..|]. exists W'.
    replace (n + Z.of_nat (S (length l))) with (n + 1 + len l) by lia. exact HW.
Qed.

Lemma run_inv junk c l : tickets_at c 0 0 0 → len l ≤ 2 ^ 62 → ∃ W, inv (len l) (run l (initialized junk c)) W.
Proof. intros Hc Hl. exact (run_inv_from l 0 _ ∅ (fifo_start_inv junk c Hc) (Z.le_refl 0) Hl). Qed.

Lemma inv_in_order n f W : inv n f W → in_order T_Size cells f.
Proof.
  intros Hi. split; [|apply (inv_order _ _ _ _ _ Hi)].
  pose proof (out_bound _ _ _ _ _ Hi) as Hb. pose proof (inv_taken _ _ _ _ _ Hi) as Ht.
  pose proof (inv_consumer _ _ _ _ _ Hi) as Hco. unfold released, consumer_ok in *.
  destruct (f_consumer f); lia.
Qed.

(** ** Nothing gets stuck *)

(** The steps the consumer needs to take everything out, when no producer is writing. *)
Definition rem (f : @fifo T) : Z :=
  (len (gr f) - first f) * (Z.of_nat cells + 6) +
  match f_consumer f with
  | C_Idle => 0 | C_Loaded _ => -1 | C_Seen _ => -2
  | C_Read _ got => Z.of_nat cells - len got + 3 | C_Head _ => 2 | C_Release _ => 1
  end.

Lemma no_writers n f W : inv n f W → all_idle f → ∀ p, W !! p = None.
Proof.
  intros Hi Hidle p. pose proof (inv_producers _ _ _ _ _ Hi p) as Hp. unfold producer_ok in Hp. by rewrite Hidle in Hp.
Qed.

Lemma consume_keeps f : gr (consume_step T_Size cells f) = gr f ∧ f_producer (consume_step T_Size cells f) = f_producer f.
Proof.
  unfold consume_step. destruct (f_consumer f) as [|h|h|h got|h|h]; try done.
  - destruct (negb _); [done|]. cbn. by rewrite granted_app, app_nil_r.
  - destruct (_ <? _)%nat; [done|]. cbn. by rewrite granted_app, app_nil_r.
Qed.

(** The consumer is done with all that was given out. *)
Definition drained (f : @fifo T) : Prop := len (tk f) = len (gr f).

Lemma consume_progress n f W : inv n f W → 0 ≤ n < 2 ^ 62 → all_idle f →
  drained f ∨ 0 < rem f ∧ rem (consume_step T_Size cells f) = rem f - 1.
Proof.
  intros Hi Hn Hidle. pose proof (no_writers n f W Hi Hidle) as HW.
  pose proof (inv_consumer _ _ _ _ _ Hi) as Hco. pose proof (inv_taken _ _ _ _ _ Hi) as Ht.
  pose proof (out_bound _ _ _ _ _ Hi) as Hb. pose proof (small_head k Hk cells n f W Hi Hn) as Hh.
  destruct (consume_keeps f) as [Hgr _]. unfold drained, rem. rewrite Hgr.
  destruct (decide (len (tk f) = len (gr f))) as [|Hne]; [by left|right].
  unfold consumer_ok, released, first in *. unfold consume_step.
  destruct (f_consumer f) as [|h|h|h got|h|h] eqn:Hcons; rewrite ?slot_index by done.
  - cbn. nia.
  - subst h. destruct (inv_waits _ _ _ _ _ Hi (f_head f)) as [[p Hp]|Ha]; [unfold first; rewrite Hcons; lia|by rewrite HW in Hp|].
    rewrite Ha. cbn. nia.
  - destruct Hco as [-> _]. cbn. nia.
  - destruct Hco as (->&?&_&Hgot). assert (len got ≤ Z.of_nat cells).
    { rewrite Hgot, length_take, cells_of_length. lia. }
    destruct (Nat.ltb_spec (length got) cells); cbn; [|nia]. rewrite length_app. cbn. nia.
  - destruct Hco as (->&?). rewrite w64_small, to_ssize_small by lia. cbn. nia.
  - destruct Hco as (?&?). cbn. nia.
Qed.

Lemma drained_stays n f W : inv n f W → 0 ≤ n < 2 ^ 62 → drained f → drained (consume_step T_Size cells f).
Proof.
  intros Hi Hn Hd. pose proof (consume_inv k Hk cells n f W Hi Hn) as Hi'.
  destruct (inv_in_order _ _ _ Hi') as [Hle _]. destruct (consume_keeps f) as [Hgr _]. rewrite Hgr in Hle.
  unfold drained in *. rewrite Hgr. assert (len (tk f) ≤ len (tk (consume_step T_Size cells f))); [|lia].
  unfold consume_step. destruct (f_consumer f) as [|h|h|h got|h|h]; try done.
  - destruct (negb _); [done|]. cbn. rewrite consumed_app, length_app. lia.
  - destruct (_ <? _)%nat; [done|]. cbn. rewrite consumed_app, length_app. lia.
Qed.

Lemma consume_all m n f W : inv n f W → 0 ≤ n → n + Z.of_nat m ≤ 2 ^ 62 → all_idle f → drained f ∨ rem f ≤ Z.of_nat m →
  drained (run (replicate m Consumer) f) ∧ gr (run (replicate m Consumer) f) = gr f ∧
  all_idle (run (replicate m Consumer) f).
Proof.
  revert n f W. induction m as [|m IH]; intros n f W Hi Hn Hm Hidle Hd.
  - split; [|done]. destruct Hd as [|Hd]; [done|].
    destruct (decide (len (tk f) = len (gr f))) as [|Hne]; [done|exfalso].
    assert (0 ≤ n < 2 ^ 62 ∨ n = 2 ^ 62) as [Hn'| ->] by lia.
    + destruct (consume_progress n f W Hi Hn' Hidle) as [|[? _]]; [done|lia].
    + pose proof (inv_taken _ _ _ _ _ Hi). pose proof (inv_consumer _ _ _ _ _ Hi) as Hco.
      pose proof (out_bound _ _ _ _ _ Hi). unfold rem, consumer_ok, released, first in *.
      destruct (f_consumer f) as [|h|h|h got|h|h]; try nia.
      destruct Hco as (_&_&_&Hgot). assert (len got ≤ Z.of_nat cells).
      { rewrite Hgot, length_take, cells_of_length. lia. }
      nia.
  - cbn [replicate PacketFifo.run foldl]. change (foldl _ ?x ?l) with (run l x). cbn [PacketFifo.step].
    pose proof (consume_inv k Hk cells n f W Hi ltac:(lia)) as Hi'. destruct (consume_keeps f) as [Hgr Hpr].
    rewrite <- Hgr. apply (IH (n + 1) _ W Hi'); [lia|lia|intros p; rewrite Hpr; apply Hidle|].
    destruct (consume_progress n f W Hi ltac:(lia) Hidle) as [Hdr|[_ Hrem]].
    + left. by apply (drained_stays n f W Hi); [lia|].
    + destruct Hd as [Hd|Hd]; [left; by apply (drained_stays n f W Hi); [lia|]|right; lia].
Qed.

(** A producer ends by its own steps, whatever the others do. *)
Lemma steps_left_run p l f : (∀ packet, Produce p packet ∉ l) →
  (steps_left (p_pc (f_producer (run l f) p)) ≤ steps_left (p_pc (f_producer f p)) - own_steps p l)%nat.
Proof.
  revert f. induction l as [|a l IH]; intros f Hno; [cbn; lia|].
  cbn [PacketFifo.run foldl]. change (foldl _ ?x ?l) with (run l x).
  etransitivity; [apply IH; intros packet Hin; apply (Hno packet); by right|].
  assert (Hstep : (steps_left (p_pc (f_producer (step a f) p)) ≤
    steps_left (p_pc (f_producer f p)) - (if decide (a = Producer p) then 1 else 0))%nat).
  { destruct (decide (a = Producer p)) as [->|Ha].
    - cbn [PacketFifo.step]. unfold produce_step.
      destruct (p_pc (f_producer f p)) as [|index last [|[cell v] rest]|last] eqn:Hpc; cbn; rewrite ?fn_lookup_insert, ?Hpc; cbn; lia.
    - assert (f_producer (step a f) p = f_producer f p) as ->; [|lia]. destruct a as [q packet|q|]; cbn [PacketFifo.step].
      + assert (q ≠ p) by (intros ->; apply (Hno packet); by left). destruct (p_pc (f_producer f q)); try done.
        unfold produce_start. destruct (take_ticket _) as [[[index last]|] c]; [|done]. cbn. by rewrite fn_lookup_insert_ne.
      + assert (q ≠ p) by congruence. unfold produce_step.
        destruct (p_pc (f_producer f q)) as [|index last [|[cell v] rest]|last]; try done; cbn; by rewrite !fn_lookup_insert_ne.
      + by rewrite (proj2 (consume_keeps f)). }
  unfold own_steps. rewrite filter_cons. destruct (decide (a = Producer p)); cbn [length]; lia.
Qed.
End runs.

(** * Sequence numbers *)

(** The last slot given to [p]. *)
Fixpoint latest (G : list (Z * list (Z * Z))) (p : Z) (from : nat) (o : option nat) : option nat :=
  match G with
  | [] => o
  | x :: G => latest G p (S from) (if decide (x.1 = p) then Some from else o)
  end.

Lemma latest_snoc G x p from o : latest (G ++ [x]) p from o =
  if decide (x.1 = p) then Some (from + length G)%nat else latest G p from o.
Proof.
  revert from o. induction G as [|y G IH]; intros from o; cbn [app latest length].
  - by rewrite Nat.add_0_r.
  - rewrite IH. destruct (decide (x.1 = p)); [|done]. f_equal. lia.
Qed.

Lemma latest_lookup G p i : latest G p 0 None = Some i → ∃ packet, G !! i = Some (p, packet).
Proof.
  induction G as [|[q packet] G IH] using rev_ind; [done|]. rewrite latest_snoc. cbn [fst].
  destruct (decide (q = p)) as [->|]; intros Hi.
  - injection Hi as <-. exists packet. by apply list_lookup_middle.
  - destruct (IH Hi) as [packet' Hl]. exists packet'. by apply lookup_app_l_Some.
Qed.

Section sequence.
Context (k : Z) (Hk : 0 ≤ k) (cells : nat) {T : Type} `{TicketLaws (2 ^ k) T}.
Notation T_Size := (2 ^ k).
Notation gr f := (granted (f_log f)).
Notation tk f := (consumed (f_log f)).
Notation inv := (inv k cells).

Definition sequence_of (o : option nat) : Z := match o with None => -1 | Some i => to_ssize (last_of (Z.of_nat i)) end.

(** Where a producer is, its sequence number is that of the last slot it was given. *)
Definition sequence_ok (f : @fifo T) (p : Z) : Prop :=
  match p_pc (f_producer f p) with
  | P_Idle => lastPacketProduced p f = sequence_of (latest (gr f) p 0 None)
  | P_Write _ last _ | P_Last last => to_ssize last = sequence_of (latest (gr f) p 0 None)
  end.

Lemma sequence_same f f' p : f_producer f' p = f_producer f p → gr f' = gr f → sequence_ok f p → sequence_ok f' p.
Proof. unfold sequence_ok, lastPacketProduced. by intros -> ->. Qed.

Lemma sequence_step n f W a : inv n f W → 0 ≤ n < 2 ^ 62 → (∀ p, sequence_ok f p) → ∀ p, sequence_ok (step T_Size cells a f) p.
Proof.
  intros Hi Hn Hs p. destruct a as [q packet|q|]; cbn [step].
  - destruct (p_pc (f_producer f q)) eqn:Hpc; [|apply Hs..]. unfold produce_start.
    destruct (tickets_take _ _ _ _ (inv_tickets _ _ _ _ _ Hi)) as (c'&[(->&_&_)|(->&_)]);
      [apply (inv_head _ _ _ _ _ Hi)|done|apply (inv_steps _ _ _ _ _ Hi)| |].
    + unfold sequence_ok, lastPacketProduced. cbn. rewrite granted_app. cbn [granted omap list_omap]. rewrite latest_snoc. cbn [fst].
      destruct (decide (q = p)) as [->|Hne].
      * rewrite fn_lookup_insert. cbn. done.
      * rewrite fn_lookup_insert_ne by done. apply Hs.
    + apply (sequence_same f); [done| |apply Hs]. cbn. by rewrite granted_app, app_nil_r.
  - unfold produce_step. pose proof (Hs p) as Hp.
    destruct (p_pc (f_producer f q)) as [|index last [|[cell v] rest]|last] eqn:Hpc; [done| | |];
      (destruct (decide (q = p)) as [->|Hne];
        [unfold sequence_ok, lastPacketProduced in *; rewrite Hpc in Hp; cbn;
           rewrite ?granted_app, ?app_nil_r, fn_lookup_insert; cbn; rewrite ?fn_lookup_insert; done
        |apply (sequence_same f); [| |exact Hp]; cbn; rewrite ?granted_app, ?app_nil_r, ?fn_lookup_insert_ne by done; done]).
  - destruct (consume_keeps k cells f) as [Hgr Hpr]. apply (sequence_same f); [by rewrite Hpr|exact Hgr|apply Hs].
Qed.

Lemma sequence_run junk c l : tickets_at c 0 0 0 → len l ≤ 2 ^ 62 → ∀ p, sequence_ok (run T_Size cells l (initialized junk c)) p.
Proof.
  intros Hc. induction l as [|a l IH] using rev_ind; intros Hl; [done|]. rewrite length_app in Hl. cbn [length] in Hl.
  unfold run. rewrite foldl_app. cbn [foldl]. destruct (run_inv k Hk cells junk c l Hc) as [W Hi]; [lia|].
  apply (sequence_step (len l) _ W); [exact Hi|lia|apply IH; lia].
Qed.
End sequence.

(** * Theorems *)

Definition linear_run {T} `{Counter T} (T_Size : Z) (cells : nat) (junk : Z → Z → Z) (c : T) (l : list action) : fifo :=
  run (H := LinearFifo T_Size T) T_Size cells l (initialized junk c).
Definition wrap_run {T} `{BoundedCounter T} (T_Size : Z) (cells : nat) (junk : Z → Z → Z) (c : T) (l : list action) : fifo :=
  run (H := WrapFifo T_Size T) T_Size cells l (initialized junk (wrap_initialize T_Size c)).

(** C16. Packets come out in order and intact. After any interleaving of the single accesses of
    any number of producers and the consumer of a linear or a wrapping fifo, the packets consumed
    are those whose producers got a slot, from the first on and each once, with every cell as
    its producer wrote it; no slot is given out while its packet waits. *)
Theorem packet_fifos_in_order (k : Z) (cells : nat) (junk : Z → Z → Z) (l : list action) :
  0 ≤ k ≤ 32 → len l ≤ 2 ^ 62 →
  (∀ T `{CounterLaws T} (c : T), counter_value c = 0 → in_order (2 ^ k) cells (linear_run (2 ^ k) cells junk c l)) ∧
  (∀ T `{BoundedCounterLaws T} (c : T), bc_count c = 0 → in_order (2 ^ k) cells (wrap_run (2 ^ k) cells junk c l)).
Proof.
  intros Hk Hl. split; intros T ? ? c Hc.
  - destruct (run_inv (H0 := linear_laws k Hk) k (proj1 Hk) cells junk c l (linear_start k Hk c Hc) Hl) as [W Hi].
    exact (inv_in_order (H0 := linear_laws k Hk) k (proj1 Hk) cells _ _ W Hi).
  - destruct (run_inv (H0 := wrap_laws k Hk) k (proj1 Hk) cells junk _ l (wrap_start k Hk c Hc) Hl) as [W Hi].
    exact (inv_in_order (H0 := wrap_laws k Hk) k (proj1 Hk) cells _ _ W Hi).
Qed.

(** What it means that nothing gets stuck: producers end by their own steps, then the consumer
    takes everything out, and then a slot is free. *)
Definition completes {T} `{Tickets T} (T_Size : Z) (cells : nat) (f : @fifo T) (room : Z) : Prop :=
  (∀ p l', (∀ packet, Produce p packet ∉ l') → (steps_left (p_pc (f_producer f p)) ≤ own_steps p l')%nat →
    p_pc (f_producer (run T_Size cells l' f) p) = P_Idle) ∧
  (∀ m, all_idle f → Z.of_nat m ≤ room →
    (len (granted (f_log f)) - len (consumed (f_log f)) + 1) * (Z.of_nat cells + 6) ≤ Z.of_nat m →
    let f' := run T_Size cells (replicate m Consumer) f in
    granted (f_log f') = granted (f_log f) ∧ len (consumed (f_log f')) = len (granted (f_log f'))) ∧
  (∀ p packet, len (consumed (f_log f)) = len (granted (f_log f)) → f_consumer f = C_Idle → p_pc (f_producer f p) = P_Idle →
    0 < room → granted (f_log (step T_Size cells (Produce p packet) f)) = granted (f_log f) ++ [(p, packet)]).

Lemma completes_inv (k : Z) (Hk : 0 ≤ k) (cells : nat) {T} `{TicketLaws (2 ^ k) T} n (f : @fifo T) W :
  inv k cells n f W → 0 ≤ n → completes (2 ^ k) cells f (2 ^ 62 - n).
Proof.
  intros Hi Hn. split; [|split].
  - intros p l' Hno Hle. pose proof (steps_left_run k Hk cells p l' f Hno) as Hs.
    destruct (p_pc (f_producer (run (2 ^ k) cells l' f) p)); [done|cbn [steps_left] in Hs; lia..].
  - intros m Hidle Hroom Hm.
    destruct (consume_all k Hk cells m n f W Hi Hn ltac:(lia) Hidle) as (Hd&Hg&_); [|by split].
    pose proof (inv_taken _ _ _ _ _ Hi) as Ht. pose proof (inv_consumer _ _ _ _ _ Hi) as Hco.
    right. unfold rem, first, consumer_ok in *. destruct (f_consumer f); try nia.
  - intros p packet Hd Hc Hp Hroom. cbn [step]. rewrite Hp. unfold produce_start.
    destruct (tickets_take _ _ _ _ (inv_tickets _ _ _ _ _ Hi)) as (c'&[(->&_&_)|(->&Hfull&_)]);
      [apply (inv_head _ _ _ _ _ Hi)|lia|apply (inv_steps _ _ _ _ _ Hi)| |].
    + cbn. by rewrite granted_app.
    + pose proof (inv_taken _ _ _ _ _ Hi) as Ht. unfold released in Hfull. rewrite Hc in *. lia.
Qed.

(** C17. Nothing gets stuck. Whatever happened before: a producer that is writing ends after its own
    remaining steps, however the others go on; when no producer is writing, a bounded number of
    the consumer's steps takes out every packet; and when all packets are taken out, the next
    producer gets a slot. *)
Theorem packet_fifos_complete (k : Z) (cells : nat) (junk : Z → Z → Z) (l : list action) :
  0 ≤ k ≤ 32 → len l ≤ 2 ^ 62 →
  (∀ T `{CounterLaws T} (c : T), counter_value c = 0 →
    completes (H := LinearFifo (2 ^ k) T) (2 ^ k) cells (linear_run (2 ^ k) cells junk c l) (2 ^ 62 - len l)) ∧
  (∀ T `{BoundedCounterLaws T} (c : T), bc_count c = 0 →
    completes (H := WrapFifo (2 ^ k) T) (2 ^ k) cells (wrap_run (2 ^ k) cells junk c l) (2 ^ 62 - len l)).
Proof.
  intros Hk Hl. split; intros T ? ? c Hc.
  - destruct (run_inv (H0 := linear_laws k Hk) k (proj1 Hk) cells junk c l (linear_start k Hk c Hc) Hl) as [W Hi].
    eapply (@completes_inv k (proj1 Hk) cells T _ (linear_laws k Hk)); [exact Hi|lia].
  - destruct (run_inv (H0 := wrap_laws k Hk) k (proj1 Hk) cells junk _ l (wrap_start k Hk c Hc) Hl) as [W Hi].
    eapply (@completes_inv k (proj1 Hk) cells T _ (wrap_laws k Hk)); [exact Hi|lia].
Qed.

(** A linear fifo of two slots, of which the third packet was not consumed yet. *)
Definition one_packet (v : Z) : list action := [Produce 0 [(0, v)]; Producer 0; Producer 0; Producer 0].
Definition third_waits : fifo :=
  linear_run (T := NativeAtomic) 2 1 (λ _ _, 0) 0
    (one_packet 10 ++ replicate 7 Consumer ++ one_packet 20 ++ replicate 7 Consumer ++ one_packet 30).

(** Sequence numbers. In a wrapping fifo [lastPacketProduced] of a producer that is not in
    [producePacket] is the place of its last packet among all, and it has reached
    [lastPacketConsumed] only when that packet was consumed, as RecPacketWork (ShmemWork.h) and
    activePackets (ShmemDevice.h) take it.  In a linear fifo it is the index of the slot: after
    the first round a packet counts as consumed that is not. *)
Theorem sequence_numbers (k : Z) (cells : nat) (junk : Z → Z → Z) (l : list action) (p : Z) :
  0 ≤ k ≤ 32 → len l ≤ 2 ^ 62 →
  (∀ T `{BoundedCounterLaws T} (c : T), bc_count c = 0 →
    let f := wrap_run (2 ^ k) cells junk c l in p_pc (f_producer f p) = P_Idle →
    match latest (granted (f_log f)) p 0 None with
    | None => lastPacketProduced p f = -1
    | Some i => lastPacketProduced p f = Z.of_nat i ∧
        (lastPacketProduced p f ≤ lastPacketConsumed f → is_Some (consumed (f_log f) !! i)) ∧
        (f_consumer f = C_Idle → is_Some (consumed (f_log f) !! i) → lastPacketProduced p f ≤ lastPacketConsumed f)
    end) ∧
  (lastPacketProduced 0 third_waits ≤ lastPacketConsumed third_waits ∧
   latest (granted (f_log third_waits)) 0 0 None = Some 2%nat ∧ consumed (f_log third_waits) = [[10]; [20]]).
Proof.
  intros Hk Hl. split; [|by vm_compute].
  intros T ? ? c Hc f Hp.
  destruct (run_inv (H0 := wrap_laws k Hk) k (proj1 Hk) cells junk _ l (wrap_start k Hk c Hc) Hl) as [W Hi].
  pose proof (sequence_run (H0 := wrap_laws k Hk) k (proj1 Hk) cells junk _ l (wrap_start k Hk c Hc) Hl p) as Hs.
  change (run _ _ _ _) with f in Hi, Hs. unfold sequence_ok in Hs. rewrite Hp in Hs. rewrite Hs.
  destruct (latest (granted (f_log f)) p 0 None) as [i|] eqn:Hlast; [|done].
  apply latest_lookup in Hlast as [packet Hg]. apply lookup_lt_Some in Hg.
  pose proof (inv_steps _ _ _ _ _ Hi). pose proof (inv_taken _ _ _ _ _ Hi) as Ht.
  cbn [sequence_of last_of wrap_laws]. rewrite to_ssize_small by lia. unfold lastPacketConsumed. split; [done|]. split.
  - intros Hle. apply lookup_lt_is_Some. destruct (f_consumer f); lia.
  - intros Hcons [got Hgot]. apply lookup_lt_Some in Hgot. rewrite Hcons in Ht. lia.
Qed.

(** * Witnesses *)

(** A bounded counter in software. *)
Definition SoftBounded : Type := Z * Z.
#[export] Instance soft_bounded : BoundedCounter SoftBounded := {
  bound_error := 2 ^ 63;
  fetch_and_inc_bounded c := if c.1 =? c.2 then (2 ^ 63, c) else (c.1, (c.1 + 1, c.2));
  bound_upper_fetch_and_inc c := (c.2, (c.1, w64 (c.2 + 1)));
  bound_upper_store_and_add c := (c.1, w64 (c.2 + 1));
  bound_upper_clear c := (c.1, 0);
  bound_lower_clear c := c
}.
#[export] Program Instance soft_bounded_laws : BoundedCounterLaws SoftBounded := { bc_count c := c.1; bc_upper c := c.2 }.
Next Obligation. done. Qed.
Next Obligation.
  intros [c u] Hc. cbn in *. rewrite (proj2 (Z.eqb_neq c u)) by lia. eexists. split; [reflexivity|done].
Qed.
Next Obligation. intros [c u] Hc. cbn in *. rewrite (proj2 (Z.eqb_eq c u)) by lia. eexists. split; [reflexivity|done]. Qed.
Next Obligation. done. Qed.
Next Obligation. done. Qed.
Next Obligation. done. Qed.
Next Obligation. done. Qed.

(** Two producers write into the slots of a fifo of two at the same time; the second one is first to
    be through. *)
Definition two_writers : list action :=
  [Produce 0 [(0, 10)]; Produce 1 [(0, 20)]; Producer 1; Producer 1; Producer 1; Consumer; Consumer;
   Producer 0; Producer 0; Producer 0] ++ replicate 14 Consumer.

Lemma packet_fifos_in_order_witness :
  consumed (f_log (linear_run (T := NativeAtomic) 2 1 (λ _ _, 0) 0 two_writers)) = [[10]; [20]] ∧
  in_order (2 ^ 1) 1 (linear_run (T := NativeAtomic) (2 ^ 1) 1 (λ _ _, 0) 0 two_writers) ∧
  in_order (2 ^ 1) 1 (wrap_run (T := SoftBounded) (2 ^ 1) 1 (λ _ _, 0) (0, 0) two_writers).
Proof.
  split; [by vm_compute|].
  destruct (packet_fifos_in_order 1 1 (λ _ _, 0) two_writers) as [H1 H2]; [lia|vm_compute; discriminate|].
  split; [exact (H1 NativeAtomic _ _ 0 eq_refl)|exact (H2 SoftBounded _ _ (0, 0) eq_refl)].
Defined.

Lemma packet_fifos_complete_witness :
  completes (H := LinearFifo (2 ^ 1) NativeAtomic) (2 ^ 1) 1 (linear_run (T := NativeAtomic) (2 ^ 1) 1 (λ _ _, 0) 0 two_writers)
    (2 ^ 62 - len two_writers) ∧
  completes (H := WrapFifo (2 ^ 1) SoftBounded) (2 ^ 1) 1 (wrap_run (T := SoftBounded) (2 ^ 1) 1 (λ _ _, 0) (0, 0) two_writers)
    (2 ^ 62 - len two_writers).
Proof.
  destruct (packet_fifos_complete 1 1 (λ _ _, 0) two_writers) as [H1 H2]; [lia|vm_compute; discriminate|].
  split; [exact (H1 NativeAtomic _ _ 0 eq_refl)|exact (H2 SoftBounded _ _ (0, 0) eq_refl)].
Defined.

Lemma sequence_numbers_witness :
  let f := wrap_run (T := SoftBounded) (2 ^ 1) 1 (λ _ _, 0) (0, 0) (two_writers ++ one_packet 30) in
  p_pc (f_producer f 0) = P_Idle ∧ latest (granted (f_log f)) 0 0 None = Some 2%nat ∧ lastPacketProduced 0 f = 2 ∧
  lastPacketConsumed f = 1.
Proof.
  destruct (sequence_numbers 1 1 (λ _ _, 0) (two_writers ++ one_packet 30) 0) as [H1 _]; [lia|vm_compute; discriminate|].
  pose proof (H1 SoftBounded _ _ (0, 0) eq_refl eq_refl) as H2. cbn zeta. split; [reflexivity|].
  assert (latest (granted (f_log (wrap_run (T := SoftBounded) (2 ^ 1) 1 (λ _ _, 0) (0, 0) (two_writers ++ one_packet 30)))) 0 0 None
    = Some 2%nat) as E by reflexivity.
  rewrite E in H2. destruct H2 as (H2&_). split; [exact E|]. split; [exact H2|reflexivity].
Defined.
