(* ===== verification/ShmemPacket.v ===== *)
(** Packets in shared memory, src/components/fifo/FifoPacket.h, and how the shared memory device
    fills and reads them, src/components/devices/shmem/ShmemPacket.h.  Then what they carry: a message
    in several packets comes out whole, and a packet put together from several buffers, which may be
    written past its end. *)
From S2P Require Import Prelude.
From S2P Require Import Memory.

Section packet.
(** [T_HeaderSize] and [payload_size]; the byte order. *)
Context (header_size payload_size : Z) (big_endian : bool).

(** * FifoPacket.h; a packet is at an address, its header first *)

Definition packet_size : Z := header_size + payload_size.
Definition getHeader (packet : Z) : Z := packet.
Definition getPayload (packet : Z) : Z := packet + header_size.

(** [memset]: every byte of the packet. *)
Definition clear_packet (packet : Z) (s : mem) : mem :=
  λ x, if (packet <=? x) && (x <? packet + packet_size) then 0 else s x.
Definition copyHeader (packet dst : Z) (s : mem) : res mem := memcpy dst packet header_size s.
Definition writeHeader_from (packet src : Z) (s : mem) : res mem := memcpy packet src header_size s.
(** What is copied goes into the packet. *)
Definition copyPayload (packet addr : Z) (s : mem) : res mem := memcpy (getPayload packet) addr payload_size s.

(** * Shmem::Packet *)

(** The index [(T_Packet::header_size>>1)-1] of the header as an array of [uint16_t]. *)
Definition dispatch_at (packet : Z) : Z := getHeader packet + 2 * (Z.shiftr header_size 1 - 1).
Definition setDispatch (packet dispatch : Z) (s : mem) : mem := store big_endian (dispatch_at packet) 2 dispatch s.
Definition getDispatch (packet : Z) (s : mem) : Z := load big_endian (dispatch_at packet) 2 s.
Definition getMetadata (packet : Z) : Z := getHeader packet.

(** [for (i = 0; i < n; i++) dst[i] = src[i]], the elements [size] bytes wide. *)
Fixpoint copy_elements (size : Z) (n : nat) (dst src : Z) (s : mem) : res mem :=
  match n with
  | O => mret s
  | S n => s ← copy_scalar dst src size s; copy_elements size n (dst + size) (src + size) s
  end.

(** The loop counter is an [unsigned]: [bytes] is below [2 ^ 32]. *)
Definition writeHeader (packet addr bytes : Z) (s : mem) : res mem :=
  copy_elements 1 (Z.to_nat bytes) (getHeader packet) addr s.

(** The number of 8-byte elements, rounded up. *)
Definition words (bytes : Z) : Z := Z.shiftr bytes 3 + (if Z.land bytes 7 =? 0 then 0 else 1).

Definition writePayload (packet payload bytes : Z) (s : mem) : res mem :=
  copy_elements 8 (Z.to_nat (words bytes)) (getPayload packet) payload s.

(** From an array of [iovec], each an address and a length; [n] is an [unsigned], and [dst] moves by
    what was written. *)
Fixpoint writePayload_iov (dst : Z) (iov : list (Z * Z)) (s : mem) : res mem :=
  match iov with
  | [] => mret s
  | (base, len) :: iov =>
      s ← copy_elements 8 (Z.to_nat (w32 (words len))) dst base s; writePayload_iov (dst + len) iov s
  end.

(** * The functors that write packets *)

(** PacketWriter and MultiPacketWriter. *)
Record writer := mkWriter { _dispatch : Z; _metadata : Z; _metasize : Z; _payload : Z; _length : Z }.
Implicit Type w : writer.

Definition isDone w : bool := _length w =? 0.

(** The header of a packet that [w] writes. *)
Definition write_header (packet : Z) w (s : mem) : res mem :=
  s ← writeHeader packet (_metadata w) (_metasize w) s; mret (setDispatch packet (_dispatch w) s).

Definition produce_one (packet : Z) w (s : mem) : res (writer * mem) :=
  s ← writePayload packet (_payload w) (_length w) s;
  s ← write_header packet w s;
  mret (mkWriter (_dispatch w) (_metadata w) (_metasize w) (_payload w) 0, s).

Definition produce_multi (packet : Z) w (s : mem) : res (writer * mem) :=
  let w0 := w in
  '(w, s) ← (if payload_size <=? _length w
    then s ← writePayload packet (_payload w) payload_size s;
         mret (mkWriter (_dispatch w) (_metadata w) (_metasize w) (_payload w + payload_size)
           (w64 (_length w - payload_size)), s)
    else s ← writePayload packet (_payload w) (_length w) s;
         mret (mkWriter (_dispatch w) (_metadata w) (_metasize w) (_payload w) 0, s));
  s ← write_header packet w s; mret (w, s).

(** PacketIovecWriter. *)
Record iovec_writer := mkIovecWriter {
  iw_dispatch : Z; iw_metadata : Z; iw_metasize : Z; iw_iov : list (Z * Z); iw_done : bool
}.

Definition produce_iov (packet : Z) (w : iovec_writer) (s : mem) : res (iovec_writer * mem) :=
  s ← writePayload_iov (getPayload packet) (iw_iov w) s;
  s ← writeHeader packet (iw_metadata w) (iw_metasize w) s;
  let s := setDispatch packet (iw_dispatch w) s in
  mret (mkIovecWriter (iw_dispatch w) (iw_metadata w) (iw_metasize w) (iw_iov w) true, s).

(** * What is read *)

(** Metadata, dispatch id and payload of a packet, as the consumer gets them. *)
Definition read_packet (packet metasize : Z) (s : mem) : list Z * Z * list Z :=
  (read_bytes (getMetadata packet) metasize s, getDispatch packet s, read_bytes (getPayload packet) payload_size s).

(** A multi-packet message written into the given slots, one packet in each: each packet as it is
    read; the slots may run out first. *)
Fixpoint write_packets (slots : list Z) w (s : mem) : res (list (list Z * Z * list Z) * mem) :=
  match slots with
  | [] => Err NoFuel
  | packet :: slots =>
      '(w, s) ← produce_multi packet w s;
      let r := read_packet packet (_metasize w) s in
      if isDone w then mret ([r], s)
      else '(l, s) ← write_packets slots w s; mret (r :: l, s)
  end.
End packet.

#[local] Notation len l := (Z.of_nat (length l)).

(** * Copying elements *)

(** [n] bytes at [a] and [m] bytes at [b] have no byte in common. *)
Definition apart (a n b m : Z) : Prop := a + n ≤ b ∨ b + m ≤ a.
Definition addressable (a n : Z) : Prop := 0 ≤ a ∧ a + n ≤ 2 ^ 64.

(** [s'] is [s] with the [n] bytes at [src] copied to [dst]. *)
Record copied (dst src n : Z) (s s' : mem) : Prop := {
  copied_in i : 0 ≤ i < n → s' (dst + i) = s (src + i);
  copied_out x : x < dst ∨ dst + n ≤ x → s' x = s x
}.

Lemma copy_elements_spec size n dst src s : 0 < size → addressable dst (size * Z.of_nat n) →
  addressable src (size * Z.of_nat n) → apart src (size * Z.of_nat n) dst (size * Z.of_nat n) →
  ∃ s', copy_elements size n dst src s = Ok s' ∧ copied dst src (size * Z.of_nat n) s s'.
Proof.
  intros Hs. revert dst src s. induction n as [|n IH]; intros dst src s Hd Hsrc Hap.
  - exists s. split; [done|]. split; [lia|done].
  - unfold addressable, apart in *. replace (size * Z.of_nat (S n)) with (size + size * Z.of_nat n) in * by lia.
    assert (0 ≤ size * Z.of_nat n) by nia. cbn [copy_elements]. rewrite copy_scalar_Ok by lia. rewrite Ok_bind.
    destruct (IH (dst + size) (src + size) (move dst src size s)) as (s'&Hrun&Hin&Hout); [lia..|].
    exists s'. split; [exact Hrun|]. split.
    + intros i Hi. destruct (decide (i < size)).
      * rewrite Hout, move_in by lia. f_equal. lia.
      * replace (dst + i) with (dst + size + (i - size)) by lia. rewrite Hin, move_out by lia. f_equal. lia.
    + intros x Hx. rewrite Hout, move_out by lia. done.
Qed.

Lemma words_bounds n : 0 ≤ n → n ≤ 8 * words n ≤ n + 7 ∧ 0 ≤ words n ∧ (n `mod` 8 = 0 → 8 * words n = n).
Proof.
  intros Hn. unfold words. rewrite Z.shiftr_div_pow2 by lia. replace (Z.land n 7) with (n mod 8) by (symmetry; apply (Z.land_ones n 3); lia).
  change (2 ^ 3) with 8. pose proof (Z.div_mod n 8). pose proof (Z.mod_pos_bound n 8).
  destruct (Z.eqb_spec (n mod 8) 0); lia.
Qed.

Lemma words_mono n m : 0 ≤ n ≤ m → 8 * words n ≤ 8 * words m.
Proof. intros Hn. pose proof (words_bounds n). pose proof (words_bounds m). lia. Qed.

(** A payload of whole words has room for the words of what fits. *)
Lemma words_fit n m : 0 ≤ n ≤ m → m `mod` 8 = 0 → 8 * words n ≤ m.
Proof. intros Hn Hm. pose proof (words_bounds n). pose proof (Z.div_mod m 8). lia. Qed.

Lemma copied_read dst src n m s s' : copied dst src n s s' → 0 ≤ m ≤ n → read_bytes dst m s' = read_bytes src m s.
Proof. intros [Hin _] Hm. apply read_bytes_ext. intros i Hi. apply Hin. lia. Qed.

Lemma read_same a n s s' : (∀ i, 0 ≤ i < n → s' (a + i) = s (a + i)) → read_bytes a n s' = read_bytes a n s.
Proof. intros Hs. by apply read_bytes_ext. Qed.

Lemma read_bytes_prefix a b n m s s' : read_bytes a n s' = read_bytes b n s → 0 ≤ m ≤ n →
  read_bytes a m s' = read_bytes b m s.
Proof.
  intros E Hm. replace n with (m + (n - m)) in E by lia. rewrite !read_bytes_app in E by lia.
  apply (app_inj_1 _ _ _ _) in E as [E _]; [done|]. pose proof (read_bytes_length a m s'). pose proof (read_bytes_length b m s). lia.
Qed.

Lemma take_read_bytes a n m s : 0 ≤ m ≤ n → take (Z.to_nat m) (read_bytes a n s) = read_bytes a m s.
Proof.
  intros Hm. replace n with (m + (n - m)) by lia. rewrite read_bytes_app by lia. rewrite take_app_le.
  - apply take_ge. pose proof (read_bytes_length a m s). lia.
  - pose proof (read_bytes_length a m s). lia.
Qed.

Lemma words_add n m : 0 ≤ n → 0 ≤ m → n `mod` 8 = 0 → n + 8 * words m = 8 * words (n + m).
Proof.
  intros Hn Hm H8. pose proof (Z.div_mod n 8 ltac:(lia)) as Hd. rewrite H8 in Hd. unfold words.
  assert (n + m = m + (n / 8) * 2 ^ 3) as E by lia. rewrite E, !Z.shiftr_div_pow2, Z.div_add by lia.
  replace (Z.land (m + n / 8 * 2 ^ 3) 7) with (Z.land m 7); [lia|].
  change 7 with (Z.ones 3). rewrite !Z.land_ones by lia. by rewrite Z_mod_plus_full.
Qed.

(** * Several buffers *)

Fixpoint total (iov : list (Z * Z)) : Z := match iov with [] => 0 | (_, n) :: iov => n + total iov end.
(** How far [writePayload_iov] writes: each buffer is rounded up to whole words where it stands. *)
Fixpoint span (iov : list (Z * Z)) : Z :=
  match iov with [] => 0 | (_, n) :: iov => Z.max (8 * words n) (n + span iov) end.
Definition gathered (iov : list (Z * Z)) (s : mem) : list Z := concat ((λ b : Z * Z, read_bytes b.1 b.2 s) <$> iov).

Lemma gathered_ext iov s s' : Forall (λ b, ∀ i, 0 ≤ i < b.2 → s' (b.1 + i) = s (b.1 + i)) iov →
  gathered iov s' = gathered iov s.
Proof.
  unfold gathered. induction 1 as [|[a n] iov Hb _ IH]; [done|]. cbn. f_equal; [|exact IH]. by apply read_same.
Qed.

(** A buffer that can be copied to the [m] bytes at [dst]. *)
Definition buffer_ok (dst m : Z) (b : Z * Z) : Prop :=
  0 ≤ b.2 < 2 ^ 32 ∧ addressable b.1 (8 * words b.2) ∧ apart b.1 (8 * words b.2) dst m.

Lemma words_small n : 0 ≤ n < 2 ^ 32 → w32 (words n) = words n.
Proof. intros Hn. apply w32_small. pose proof (words_bounds n). lia. Qed.

Lemma total_bounds dst m iov : Forall (buffer_ok dst m) iov → 0 ≤ total iov ≤ span iov ∧ span iov ≤ total iov + 7.
Proof.
  induction 1 as [|[a n] iov [Hn _] _ IH]; [done|]. cbn -[words] in *. pose proof (words_bounds n). lia.
Qed.

(** Buffers of whole words, the last one of any length, are not written past their end by more than
    their last word. *)
Lemma span_words dst m iov last : Forall (buffer_ok dst m) (iov ++ [last]) → Forall (λ b, b.2 `mod` 8 = 0) iov →
  span (iov ++ [last]) = 8 * words (total (iov ++ [last])).
Proof.
  intros Hb H8. induction iov as [|[a n] iov IH]; cbn -[words] in *.
  - destruct last as [a n]. apply Forall_cons in Hb as [[Hn _] _]. cbn -[words] in *. pose proof (words_bounds n).
    rewrite Z.add_0_r. lia.
  - apply Forall_cons in Hb as [[Hn _] Hb]. apply Forall_cons in H8 as [H8 H8s]. cbn -[words] in *. rewrite IH by done.
    pose proof (total_bounds _ _ _ Hb) as [Ht _]. rewrite <- (words_add n) by (lia || done). pose proof (words_bounds n).
    pose proof (words_bounds (total (iov ++ [last]))). lia.
Qed.

Lemma writePayload_iov_spec dst iov s : addressable dst (span iov) → Forall (buffer_ok dst (span iov)) iov →
  ∃ s', writePayload_iov dst iov s = Ok s' ∧ read_bytes dst (total iov) s' = gathered iov s ∧
    (∀ x, x < dst ∨ dst + span iov ≤ x → s' x = s x).
Proof.
  revert dst s. induction iov as [|[a n] iov IH]; intros dst s Hd Hb; [by exists s|].
  pose proof Hb as Hb0. apply Forall_cons in Hb as [[Hn [[Ha0 Ha1] Hap]] Hb].
  cbn -[words] in *. unfold addressable in *. pose proof (words_bounds n) as Hw. rewrite words_small by done.
  pose proof (total_bounds _ _ _ Hb) as [Ht _]. unfold apart in Hap.
  destruct (copy_elements_spec 8 (Z.to_nat (words n)) dst a s) as (s1&Hrun&Hc);
    rewrite ?Z2Nat.id in * by lia; [lia|split; lia|split; lia|unfold apart; lia|].
  destruct (IH (dst + n) s1) as (s2&Hrun2&Hread&Hout); [lia| |].
  { eapply Forall_impl; [exact Hb|]. intros [b m] (Hm&Hba&Hbap). unfold buffer_ok, apart in *. cbn -[words] in *.
    repeat split; try apply Hm; try apply Hba. lia. }
  rewrite Hrun, Ok_bind. exists s2. split; [exact Hrun2|]. split.
  - rewrite read_bytes_app by lia. unfold gathered. cbn. f_equal.
    + transitivity (read_bytes dst n s1); [|eapply copied_read; [exact Hc|lia]].
      apply read_same. intros i Hi. apply Hout. lia.
    + rewrite Hread. apply gathered_ext. eapply Forall_impl; [exact Hb|]. intros [b m] (Hm&Hba&Hbap) i Hi.
      unfold apart in *. cbn -[words] in *. pose proof (words_bounds m). apply (copied_out _ _ _ _ _ Hc). lia.
  - intros x Hx. rewrite Hout by lia. apply (copied_out _ _ _ _ _ Hc). lia.
Qed.

Section packets.
Context (header_size payload_size : Z) (big_endian : bool).
Context (Hh : 2 ≤ header_size) (Hp : 0 < payload_size < 2 ^ 32) (H8 : payload_size `mod` 8 = 0).

Notation size := (header_size + payload_size).

(** A message, its metadata and a slot for a packet of it. *)
Record slot_ok (w : writer) (packet : Z) : Prop := {
  slot_memory : addressable packet size;
  slot_metadata : addressable (_metadata w) (_metasize w) ∧ apart (_metadata w) (_metasize w) packet size;
  slot_payload : addressable (_payload w) (8 * words (_length w)) ∧
    apart (_payload w) (8 * words (_length w)) packet size
}.

Record writer_ok (w : writer) : Prop := {
  writer_dispatch : 0 ≤ _dispatch w < 2 ^ 16;
  writer_metasize : 0 ≤ _metasize w ≤ 2 * (Z.shiftr header_size 1 - 1);
  writer_length : 0 ≤ _length w < 2 ^ 63
}.

Lemma dispatch_in_header packet : packet ≤ dispatch_at header_size packet ∧
  dispatch_at header_size packet + 2 ≤ packet + header_size.
Proof.
  unfold dispatch_at, getHeader. rewrite Z.shiftr_div_pow2 by lia. change (2 ^ 1) with 2.
  pose proof (Z.div_mod header_size 2). pose proof (Z.mod_pos_bound header_size 2). lia.
Qed.

(** The header is written over whatever the payload is. *)
Lemma write_header_spec w packet s : writer_ok w → slot_ok w packet →
  ∃ s', write_header header_size big_endian packet w s = Ok s' ∧
    read_bytes packet (_metasize w) s' = read_bytes (_metadata w) (_metasize w) s ∧
    getDispatch header_size big_endian packet s' = _dispatch w ∧
    (∀ x, x < packet ∨ packet + header_size ≤ x → s' x = s x).
Proof.
  intros [Hd Hm _] [[Hk0 Hk1] [[Hm0 Hm1] Hma] _]. unfold apart in Hma. pose proof (dispatch_in_header packet) as Hat.
  unfold dispatch_at, getHeader in Hat. unfold write_header, writeHeader, getHeader.
  destruct (copy_elements_spec 1 (Z.to_nat (_metasize w)) packet (_metadata w) s) as (s1&Hrun&Hc);
    rewrite ?Z2Nat.id in * by lia; rewrite ?Z.mul_1_l in *; [lia|split; lia|split; lia|unfold apart; lia|].
  rewrite Hrun, Ok_bind. eexists. split; [reflexivity|]. unfold setDispatch. split; [|split].
  - transitivity (read_bytes packet (_metasize w) s1); [|eapply copied_read; [exact Hc|lia]].
    apply read_same. intros i Hi. apply store_out. unfold dispatch_at, getHeader. lia.
  - unfold getDispatch. apply load_store. cbn. lia.
  - intros x Hx. rewrite store_out by (unfold dispatch_at, getHeader; lia). apply (copied_out _ _ _ _ _ Hc). lia.
Qed.

(** A payload of at most a packet. *)
Lemma writePayload_spec w packet n s : slot_ok w packet → writer_ok w → 0 ≤ n ≤ payload_size → n ≤ _length w →
  ∃ s', writePayload header_size packet (_payload w) n s = Ok s' ∧
    read_bytes (packet + header_size) n s' = read_bytes (_payload w) n s ∧
    (∀ x, x < packet + header_size ∨ packet + size ≤ x → s' x = s x).
Proof.
  intros [[Hk0 Hk1] _ [[Hp0 Hp1] Hpa]] [_ _ Hl] Hn Hle. unfold apart in Hpa. unfold writePayload, getPayload.
  pose proof (words_bounds n ltac:(lia)) as (Hw1&Hw2&_). pose proof (words_fit n payload_size Hn H8) as Hfit.
  assert (8 * words n ≤ 8 * words (_length w)) as Hmono.
  { apply words_mono; lia. }
  destruct (copy_elements_spec 8 (Z.to_nat (words n)) (packet + header_size) (_payload w) s) as (s1&Hrun&Hc);
    rewrite ?Z2Nat.id in * by lia; [lia|split; lia|split; lia|unfold apart; lia|].
  exists s1. split; [exact Hrun|]. split; [eapply copied_read; [exact Hc|lia]|].
  intros x Hx. apply (copied_out _ _ _ _ _ Hc). lia.
Qed.
(** What [produce_multi] leaves of the message. *)
Definition next w : writer :=
  if payload_size <=? _length w
  then mkWriter (_dispatch w) (_metadata w) (_metasize w) (_payload w + payload_size) (_length w - payload_size)
  else mkWriter (_dispatch w) (_metadata w) (_metasize w) (_payload w) 0.

Lemma next_ok w : writer_ok w → writer_ok (next w).
Proof. intros [Hd Hm Hl]. unfold next. destruct (Z.leb_spec payload_size (_length w)); by split; cbn; try lia. Qed.

(** A whole packet is whole words. *)
Lemma words_next n : payload_size ≤ n → payload_size + 8 * words (n - payload_size) = 8 * words n.
Proof. intros Hn. rewrite words_add by (lia || done). do 2 f_equal. lia. Qed.

Lemma next_slot_ok w packet : writer_ok w → slot_ok w packet → slot_ok (next w) packet.
Proof.
  intros [_ _ Hl] [Hk Hm [[Hp0 Hp1] Hpa]]. unfold next. destruct (Z.leb_spec payload_size (_length w)); split; cbn; try done.
  - pose proof (words_next (_length w) ltac:(lia)). unfold addressable, apart in *. lia.
  - pose proof (words_bounds (_length w)). unfold addressable, apart in *. change (words 0) with 0. lia.
Qed.

Lemma produce_multi_spec w packet s : writer_ok w → slot_ok w packet →
  ∃ s', produce_multi header_size payload_size big_endian packet w s = Ok (next w, s') ∧
    read_bytes packet (_metasize w) s' = read_bytes (_metadata w) (_metasize w) s ∧
    getDispatch header_size big_endian packet s' = _dispatch w ∧
    (∀ n, 0 ≤ n ≤ payload_size → n ≤ _length w →
      read_bytes (packet + header_size) n s' = read_bytes (_payload w) n s) ∧
    (∀ x, x < packet ∨ packet + size ≤ x → s' x = s x).
Proof.
  intros Hw Hs. set (n := Z.min payload_size (_length w)). pose proof (writer_length w Hw).
  destruct (writePayload_spec w packet n s Hs Hw) as (s1&Hrun&Hread&Hout); [lia..|].
  destruct (write_header_spec (next w) packet s1) as (s2&Hrun2&Hmeta&Hdisp&Hout2); [by apply next_ok|by apply next_slot_ok|].
  exists s2. split; [|split; [|split; [|split]]].
  - unfold produce_multi, next in *. subst n. destruct (Z.leb_spec payload_size (_length w)).
    + rewrite Z.min_l in Hrun by lia. rewrite Hrun, !Ok_bind, w64_small by lia. by rewrite Hrun2.
    + rewrite Z.min_r in Hrun by lia. rewrite Hrun, !Ok_bind. by rewrite Hrun2.
  - assert (_metasize (next w) = _metasize w ∧ _metadata (next w) = _metadata w) as [E1 E2]
      by (unfold next; by destruct (_ <=? _)).
    rewrite E1, E2 in Hmeta. rewrite Hmeta. apply read_same. intros i Hi. apply Hout.
    destruct Hs as [_ [_ Hm] _]. unfold apart in Hm. lia.
  - rewrite Hdisp. unfold next. by destruct (_ <=? _).
  - intros m Hm Hle. transitivity (read_bytes (packet + header_size) m s1).
    { apply read_same. intros i Hi. apply Hout2. lia. }
    apply read_bytes_prefix with n; [exact Hread|lia].
  - intros x Hx. rewrite Hout2, Hout by lia. done.
Qed.
(** The number of packets of a message of [n] bytes; an empty one has a packet too. *)
Definition packets (n : Z) : Z := Z.max 1 ((n + payload_size - 1) / payload_size).

Lemma packets_last n : 0 ≤ n ≤ payload_size → packets n = 1.
Proof. intros Hn. unfold packets. pose proof (Z.div_lt_upper_bound (n + payload_size - 1) payload_size 2). lia. Qed.

Lemma packets_next n : payload_size < n → packets n = 1 + packets (n - payload_size).
Proof.
  intros Hn. unfold packets. replace (n + payload_size - 1) with (n - payload_size + payload_size - 1 + 1 * payload_size) by lia.
  rewrite Z.div_add by lia. pose proof (Z.div_le_lower_bound (n - payload_size + payload_size - 1) payload_size 1). lia.
Qed.

(** The source of a message is not touched by its own packets. *)
Lemma source_kept w packet s s' : slot_ok w packet → writer_ok w → (∀ x, x < packet ∨ packet + size ≤ x → s' x = s x) →
  (∀ a n, _payload w ≤ a → a + n ≤ _payload w + _length w → read_bytes a n s' = read_bytes a n s) ∧
  read_bytes (_metadata w) (_metasize w) s' = read_bytes (_metadata w) (_metasize w) s.
Proof.
  intros [_ [_ Hm] [_ Hpa]] [_ _ Hl] Hout. unfold apart in *. pose proof (words_bounds (_length w)).
  split; intros; apply read_same; intros i Hi; apply Hout; lia.
Qed.

Lemma next_done w : writer_ok w → isDone (next w) = (_length w <=? payload_size).
Proof.
  intros [_ _ Hl]. unfold next, isDone. destruct (Z.leb_spec payload_size (_length w)), (Z.leb_spec (_length w) payload_size); cbn;
    [apply Z.eqb_eq; lia|apply Z.eqb_neq; lia|done|lia].
Qed.

(** C18. A message comes out whole: it is cut into [packets] packets, each with the metadata and the
    dispatch id of the message, whose payloads one after the other begin with the bytes of the
    message; nothing outside the packets is written. *)
Theorem multi_packets w slots s : writer_ok w → Forall (slot_ok w) slots → packets (_length w) ≤ len slots →
  ∃ l s', write_packets header_size payload_size big_endian slots w s = Ok (l, s') ∧
    len l = packets (_length w) ∧
    Forall (λ r, r.1 = (read_bytes (_metadata w) (_metasize w) s, _dispatch w)) l ∧
    take (Z.to_nat (_length w)) (concat (snd <$> l)) = read_bytes (_payload w) (_length w) s ∧
    (∀ x, Forall (λ packet, x < packet ∨ packet + size ≤ x) slots → s' x = s x).
Proof.
  revert w s. induction slots as [|packet slots IH]; intros w s Hw Hs Hroom; [unfold packets in Hroom; cbn in Hroom; lia|].
  apply Forall_cons in Hs as [Hs Hrest]. cbn [length] in Hroom. cbn [write_packets].
  destruct (produce_multi_spec w packet s Hw Hs) as (s1&Hrun&Hmeta&Hdisp&Hread&Hout).
  destruct (source_kept w packet s s1 Hs Hw Hout) as [Hsrc Hsm]. pose proof (writer_length w Hw) as Hl.
  rewrite Hrun, Ok_bind. cbn beta iota. rewrite next_done by done.
  assert (_metasize (next w) = _metasize w ∧ _metadata (next w) = _metadata w ∧ _dispatch (next w) = _dispatch w) as (E1&E2&E3)
    by (unfold next; by destruct (_ <=? _)).
  assert ((read_packet header_size payload_size big_endian packet (_metasize (next w)) s1).1 =
    (read_bytes (_metadata w) (_metasize w) s, _dispatch w)) as Hfirst.
  { unfold read_packet, getMetadata, getHeader. cbn [fst]. by rewrite E1, Hmeta, Hdisp. }
  set (r := read_packet _ _ _ _ _ _) in *.
  assert (r.2 = read_bytes (packet + header_size) payload_size s1) as Hpay by done. clearbody r.
  destruct (Z.leb_spec (_length w) payload_size) as [Hle|Hgt].
  - exists [r], s1. rewrite packets_last by lia. repeat split; [by repeat constructor| |].
    + cbn. rewrite app_nil_r, Hpay. rewrite <- (Hread (_length w)) by lia. apply take_read_bytes; lia.
    + intros x Hx. apply Forall_cons in Hx as [Hx _]. by apply Hout.
  - destruct (IH (next w) s1) as (l&s2&Hrun2&Hlen&Hall&Hbytes&Hout2);
      [by apply next_ok|by eapply Forall_impl; [exact Hrest|intros; apply next_slot_ok]| |].
    { pose proof (packets_next (_length w) Hgt). unfold next. destruct (Z.leb_spec payload_size (_length w)); cbn; lia. }
    rewrite Hrun2, Ok_bind. exists (r :: l), s2. rewrite E1, E2, E3, Hsm in Hall.
    unfold next in Hlen, Hbytes. destruct (Z.leb_spec payload_size (_length w)); [|lia]. cbn in Hlen, Hbytes.
    repeat split; [rewrite packets_next by lia; cbn [length]; lia|by constructor| |].
    + cbn. replace (Z.to_nat (_length w)) with (Z.to_nat payload_size + Z.to_nat (_length w - payload_size))%nat by lia.
      assert (length r.2 = Z.to_nat payload_size) as Hrl
        by (rewrite Hpay; pose proof (read_bytes_length (packet + header_size) payload_size s1); lia).
      rewrite take_app_add' by done. rewrite Hbytes, Hpay, Hread, Hsrc by lia.
      rewrite <- read_bytes_app by lia. f_equal. lia.
    + intros x Hx. apply Forall_cons in Hx as [Hx Hx2]. rewrite Hout2, Hout; done.
Qed.

(** [copyPayload] fills the packet from the buffer it is documented to fill; the buffer keeps its bytes. *)
Theorem copyPayload_reads packet addr s : addressable packet size → addressable addr payload_size →
  apart packet size addr payload_size →
  ∃ s', copyPayload header_size payload_size packet addr s = Ok s' ∧
    read_bytes (packet + header_size) payload_size s' = read_bytes addr payload_size s ∧
    read_bytes addr payload_size s' = read_bytes addr payload_size s.
Proof.
  unfold addressable, apart. intros [Hk0 Hk1] [Ha0 Ha1] Hap. unfold copyPayload, getPayload. rewrite memcpy_Ok by lia.
  eexists. split; [reflexivity|]. split; apply read_bytes_ext; intros i Hi; [rewrite move_in by lia; f_equal; lia|by rewrite move_out by lia].
Qed.

(** * A packet from several buffers *)

Record iovec_writer_ok (w : iovec_writer) (packet room : Z) : Prop := {
  iovec_dispatch : 0 ≤ iw_dispatch w < 2 ^ 16;
  iovec_metasize : 0 ≤ iw_metasize w ≤ 2 * (Z.shiftr header_size 1 - 1);
  iovec_memory : addressable packet (header_size + room);
  iovec_metadata : addressable (iw_metadata w) (iw_metasize w) ∧
    apart (iw_metadata w) (iw_metasize w) packet (header_size + room);
  iovec_buffers : Forall (buffer_ok (packet + header_size) room) (iw_iov w)
}.

Lemma produce_iov_spec w packet s : let room := Z.max payload_size (span (iw_iov w)) in
  iovec_writer_ok w packet room →
  ∃ s1 s2, produce_iov header_size big_endian packet w s = Ok (mkIovecWriter (iw_dispatch w) (iw_metadata w) (iw_metasize w) (iw_iov w) true, s2) ∧
    writePayload_iov (packet + header_size) (iw_iov w) s = Ok s1 ∧
    (∀ x, packet + header_size ≤ x ∨ x < packet → s2 x = s1 x) ∧
    read_bytes packet (iw_metasize w) s2 = read_bytes (iw_metadata w) (iw_metasize w) s ∧
    getDispatch header_size big_endian packet s2 = iw_dispatch w ∧
    read_bytes (packet + header_size) (total (iw_iov w)) s1 = gathered (iw_iov w) s ∧
    (∀ x, x < packet + header_size ∨ packet + header_size + span (iw_iov w) ≤ x → s1 x = s x).
Proof.
  intros room [Hd Hm [Hk0 Hk1] [[Hm0 Hm1] Hma] Hb].
  assert (Forall (buffer_ok (packet + header_size) (span (iw_iov w))) (iw_iov w)) as Hb'.
  { eapply Forall_impl; [exact Hb|]. intros b (H1&H2&H3). split; [done|]. split; [done|]. unfold apart in *. lia. }
  pose proof (total_bounds _ _ _ Hb') as [Ht _].
  destruct (writePayload_iov_spec (packet + header_size) (iw_iov w) s) as (s1&Hrun&Hread&Hout);
    [unfold addressable; lia|done|].
  destruct (write_header_spec (mkWriter (iw_dispatch w) (iw_metadata w) (iw_metasize w) 0 0) packet s1)
    as (s2&Hrun2&Hmeta&Hdisp&Hout2).
  { by split; cbn. }
  { split; cbn -[words]; unfold addressable, apart in *; change (words 0) with 0; lia. }
  cbn in Hmeta, Hdisp. exists s1, s2. split.
  { unfold produce_iov, getPayload. rewrite Hrun, Ok_bind. unfold write_header in Hrun2. cbn [_metadata _metasize _dispatch] in Hrun2.
    destruct (writeHeader _ _ _ _) as [s3|]; [|done]. rewrite Ok_bind. cbn in Hrun2. by injection Hrun2 as <-. }
  split; [done|]. split; [intros; apply Hout2; lia|]. split; [|done]. rewrite Hmeta. apply read_same.
  intros i Hi. apply Hout. unfold apart in Hma. lia.
Qed.

(** C39. A packet put together from several buffers carries their bytes one after the other. It is written
    up to [span], at most 7 bytes past the data; within the packet when the buffers but the last one
    are whole words and the data fits. *)
Theorem iovec_packets w packet s : iovec_writer_ok w packet (Z.max payload_size (span (iw_iov w))) →
  ∃ w' s', produce_iov header_size big_endian packet w s = Ok (w', s') ∧ iw_done w' = true ∧
    read_bytes packet (iw_metasize w) s' = read_bytes (iw_metadata w) (iw_metasize w) s ∧
    getDispatch header_size big_endian packet s' = iw_dispatch w ∧
    read_bytes (packet + header_size) (total (iw_iov w)) s' = gathered (iw_iov w) s ∧
    (∀ x, x < packet ∨ packet + header_size + span (iw_iov w) ≤ x → s' x = s x) ∧
    span (iw_iov w) ≤ total (iw_iov w) + 7 ∧
    (∀ iov last, iw_iov w = iov ++ [last] → Forall (λ b, b.2 `mod` 8 = 0) iov →
      total (iw_iov w) ≤ payload_size → span (iw_iov w) ≤ payload_size).
Proof.
  intros Hw. destruct (produce_iov_spec w packet s Hw) as (s1&s2&Hrun&_&Hin&Hmeta&Hdisp&Hread&Hout).
  destruct Hw as [_ _ _ _ Hb]. pose proof (total_bounds _ _ _ Hb) as [Ht Hs]. eexists _, s2. repeat split; [exact Hrun|done..| | |done|].
  - rewrite <- Hread. apply read_same. intros i Hi. apply Hin. lia.
  - intros x Hx. rewrite Hin, Hout by lia. done.
  - intros iov last E H8s Hle. rewrite E in Hb, Ht, Hle |- *. rewrite (span_words _ _ _ _ Hb H8s).
    apply words_fit; [lia|done].
Qed.

(** Two buffers that fill a packet, the first one not of whole words, overrun it: the bytes that follow
    the second buffer where it comes from go to the beginning of the packet's successor. *)
Theorem iovec_overruns w packet s a n b m : iw_iov w = [(a, n); (b, m)] →
  iovec_writer_ok w packet (Z.max payload_size (span (iw_iov w))) → n + m = payload_size → n `mod` 8 ≠ 0 →
  ∃ w' s', produce_iov header_size big_endian packet w s = Ok (w', s') ∧
    8 * words m - m = n `mod` 8 ∧
    (∀ i, 0 ≤ i < n `mod` 8 → s' (packet + size + i) = s (b + m + i)).
Proof.
  intros E Hw Hnm Hn. destruct (produce_iov_spec w packet s Hw) as (s1&s2&Hrun&Hiov&Hin&_&_&_&_).
  destruct Hw as [_ _ [Hk0 Hk1] _ Hb]. rewrite E in *. apply Forall_cons in Hb as [(Hn0&Ha&Hap) Hb].
  apply Forall_cons in Hb as [(Hm0&Hba&Hbap) _]. cbn -[words] in *. unfold addressable, apart in *.
  assert (8 * words m - m = n mod 8) as Hover.
  { pose proof (words_bounds m ltac:(lia)) as (Hw1&_). pose proof (Z.div_mod n 8). pose proof (Z.div_mod payload_size 8).
    pose proof (Z.mod_pos_bound n 8). lia. }
  pose proof (words_bounds n) as Hwn. pose proof (words_bounds m) as Hwm.
  rewrite !words_small in Hiov by lia.
  destruct (copy_elements_spec 8 (Z.to_nat (words n)) (packet + header_size) a s) as (t1&Ht1&Hc1);
    rewrite ?Z2Nat.id in * by lia; [lia|split; lia|split; lia|unfold apart; lia|].
  destruct (copy_elements_spec 8 (Z.to_nat (words m)) (packet + header_size + n) b t1) as (t2&Ht2&Hc2);
    rewrite ?Z2Nat.id in * by lia; [lia|split; lia|split; lia|unfold apart; lia|].
  rewrite Ht1, Ok_bind, Ht2 in Hiov. cbn in Hiov. injection Hiov as ->.
  eexists _, s2. split; [exact Hrun|]. split; [done|]. intros i Hi. rewrite Hin by lia.
  replace (packet + size + i) with (packet + header_size + n + (m + i)) by lia.
  rewrite (copied_in _ _ _ _ _ Hc2) by lia. rewrite (copied_out _ _ _ _ _ Hc1) by lia. f_equal. lia.
Qed.
End packets.

(** * Concrete packets: a header of 8 bytes and a payload of 16 *)

Definition demo_memory : mem := λ a, a `mod` 251.

Lemma demo_header : 2 ≤ 8.
Proof. done. Qed.

Lemma demo_payload : 0 < 16 < 2 ^ 32.
Proof. done. Qed.

Ltac decide_bounds :=
  cbn [iw_iov];
  lazymatch goal with
  | |- Forall _ (_ :: _) => apply Forall_cons; split; decide_bounds
  | |- Forall _ _ => constructor
  | |- _ ∨ _ => (left; vm_compute; discriminate) || (right; vm_compute; discriminate)
  | |- apart _ _ _ _ => unfold apart; decide_bounds
  | |- addressable _ _ => split; decide_bounds
  | |- slot_ok _ _ _ _ => split; decide_bounds
  | |- writer_ok _ _ => split; decide_bounds
  | |- iovec_writer_ok _ _ _ _ => split; decide_bounds
  | |- buffer_ok _ _ _ => split; decide_bounds
  | |- _ ∧ _ => split; decide_bounds
  | |- _ < _ => vm_compute; exact eq_refl
  | |- _ => vm_compute; discriminate
  end.

Lemma multi_packets_witness : ∃ l s',
  write_packets 8 16 false [1000; 1024; 1048] (mkWriter 7 100 5 200 37) demo_memory = Ok (l, s') ∧
  Z.of_nat (length l) = 3 ∧ take 37 (concat (snd <$> l)) = read_bytes 200 37 demo_memory.
Proof.
  destruct (multi_packets 8 16 false demo_header demo_payload eq_refl (mkWriter 7 100 5 200 37) [1000; 1024; 1048] demo_memory)
    as (l&s'&Hrun&Hlen&_&Hbytes&_); [decide_bounds..|].
  exists l, s'. split; [exact Hrun|]. split; [exact Hlen|exact Hbytes].
Defined.

Lemma iovec_packets_witness : ∃ w' s',
  produce_iov 8 false 1000 (mkIovecWriter 7 100 5 [(200, 8); (300, 5)] false) demo_memory = Ok (w', s') ∧
  read_bytes 1008 13 s' = read_bytes 200 8 demo_memory ++ read_bytes 300 5 demo_memory.
Proof.
  destruct (iovec_packets 8 16 false demo_header demo_payload eq_refl (mkIovecWriter 7 100 5 [(200, 8); (300, 5)] false) 1000 demo_memory)
    as (w'&s'&Hrun&_&_&_&Hread&_); [decide_bounds|].
  exists w', s'. split; [exact Hrun|exact Hread].
Defined.

Lemma iovec_overruns_witness : ∃ w' s',
  produce_iov 8 false 1000 (mkIovecWriter 7 100 5 [(200, 3); (300, 13)] false) demo_memory = Ok (w', s') ∧
  s' 1024 = demo_memory 313.
Proof.
  destruct (iovec_overruns 8 16 false demo_header demo_payload eq_refl (mkIovecWriter 7 100 5 [(200, 3); (300, 13)] false) 1000
    demo_memory 200 3 300 13) as (w'&s'&Hrun&_&Hover); [reflexivity|decide_bounds|reflexivity|discriminate|].
  exists w', s'. split; [exact Hrun|]. apply (Hover 0). decide_bounds.
Defined.
