(* ===== verification/ShmemDispatch.v ===== *)
(** Who gets the packets that arrive in shared memory, src/components/devices/shmem/ShmemDispatch.h:
    a table of receive functions by dispatch id, in sets; the packets that come before their
    function is registered wait in a queue.  No packet is lost, and packets are delivered in the order
    they arrived unless one overtakes those that wait, which the table does not prevent. *)
From stdpp Require Import functions.
From S2P Require Import Prelude.
From S2P Require Import Memory.
From S2P Require Import ShmemPacket.

(** What the consumer reads of a packet: metadata, dispatch id, payload; also an [UnexpectedPacket],
    which is a copy of it. *)
Notation packet := (list Z * Z * list Z)%type.
Definition id_of (p : packet) : Z := p.1.2.

(** A receive function with its [clientdata]; [UnexpectedPacket::unexpected] comes with the queue of
    its dispatch set. *)
Inductive recv := unexpected (set : Z) | recv_function (function clientdata : Z).

Definition is_unexpected (r : recv) : bool := match r with unexpected _ => true | _ => false end.

(** [_function] with [_clientdata], [_ueQ], [_system_ueQ]; and the calls of receive functions so far,
    each with its client data and the packet. A circular queue is the list of its elements. *)
Record dispatcher := mkDispatcher {
  _function : Z → recv; _ueQ : Z → list packet; _system_ueQ : list packet; d_calls : list (Z * Z * packet)
}.

Section dispatch.
Context (T_SetCount T_SetSize : Z).
Implicit Type d : dispatcher.

Definition Dispatch_new : dispatcher := mkDispatcher (λ i, unexpected (i / T_SetSize)) (λ _, []) [] [].

Definition set_function (id : Z) (r : recv) d : dispatcher :=
  mkDispatcher (<[id := r]> (_function d)) (_ueQ d) (_system_ueQ d) (d_calls d).
Definition set_ueQ (set : Z) (q : list packet) d : dispatcher :=
  mkDispatcher (_function d) (<[set := q]> (_ueQ d)) (_system_ueQ d) (d_calls d).
Definition set_system_ueQ (q : list packet) d : dispatcher :=
  mkDispatcher (_function d) (_ueQ d) q (d_calls d).
Definition add_call (c : Z * Z * packet) d : dispatcher :=
  mkDispatcher (_function d) (_ueQ d) (_system_ueQ d) (d_calls d ++ [c]).

(** A call of [_function[id]]; there are no entries past the last set. *)
Definition call (p : packet) d : res dispatcher :=
  if (0 <=? id_of p) && (id_of p <? T_SetCount * T_SetSize) then
    mret match _function d (id_of p) with
         | unexpected set => set_ueQ set (_ueQ d set ++ [p]) d
         | recv_function function clientdata => add_call (function, clientdata, p) d
         end
  else Err Fault.

(** [consume_impl], and [dispatch]. *)
Definition consume (header_size payload_size : Z) (big_endian : bool) (a : Z) (s : mem) d : res dispatcher :=
  call (read_packet header_size payload_size big_endian a header_size s) d.

(** * registerUserDispatch *)

(** [for (id = set * T_SetSize; id < n; id++)], [id] an [uint16_t]: the first id that is free. *)
Fixpoint find_user (fuel : nat) (n id : Z) d : res (option Z) :=
  match fuel with
  | O => Err NoFuel
  | S fuel =>
      if id <? n then if is_unexpected (_function d id) then mret (Some id) else find_user fuel n ((id + 1) `mod` 2 ^ 16) d
      else mret None
  end.

(** The packets of a queue are delivered as far as their functions are registered. *)
Fixpoint deliver (q : list packet) d : list packet * dispatcher :=
  match q with
  | [] => ([], d)
  | p :: rest =>
      match _function d (id_of p) with
      | unexpected _ => (q, d)
      | recv_function function clientdata => deliver rest (add_call (function, clientdata, p) d)
      end
  end.

(** The id, or none: [PAMI_ERROR]. *)
Definition registerUserDispatch (fuel : nat) (set function clientdata : Z) d : res (option Z * dispatcher) :=
  if T_SetCount <=? set then mret (None, d) else
  found ← find_user fuel (set * T_SetSize + T_SetSize) ((set * T_SetSize) `mod` 2 ^ 16) d;
  match found with
  | None => mret (None, d)
  | Some id =>
      let d := set_function id (recv_function function clientdata) d in
      let '(q, d) := deliver (_ueQ d set) d in
      mret (Some id, set_ueQ set q d)
  end.

(** * registerSystemDispatch *)

(** [for (id = T_SetSize * T_SetCount - 1; id > 0; id--)]: the last id that is free; not 0. *)
Fixpoint find_system (n : nat) d : option Z :=
  match n with
  | O => None
  | S m => if is_unexpected (_function d (Z.of_nat n)) then Some (Z.of_nat n) else find_system m d
  end.

(** A waiting packet without function makes the loop an endless one. *)
Definition deliver_system d : res dispatcher :=
  match deliver (_system_ueQ d) d with
  | ([], d) => mret (set_system_ueQ [] d)
  | _ => Err NoFuel
  end.

Definition registerSystemDispatch (function clientdata : Z) d : res (option Z * dispatcher) :=
  match find_system (Z.to_nat (T_SetSize * T_SetCount - 1)) d with
  | None => mret (None, d)
  | Some id =>
      d ← deliver_system (set_function id (recv_function function clientdata) d); mret (Some id, d)
  end.

(** * What happens to a dispatcher *)

Inductive dispatch_event :=
| Arrive (p : packet)
| RegisterUser (set function clientdata : Z)
| RegisterSystem (function clientdata : Z).

(** More than all ids. *)
Definition all_ids : nat := Z.to_nat (2 ^ 17).

Definition dispatch_step (ev : dispatch_event) d : res dispatcher :=
  match ev with
  | Arrive p => call p d
  | RegisterUser set function clientdata => '(_, d) ← registerUserDispatch all_ids set function clientdata d; mret d
  | RegisterSystem function clientdata => '(_, d) ← registerSystemDispatch function clientdata d; mret d
  end.

Fixpoint dispatch_run (l : list dispatch_event) d : res dispatcher :=
  match l with
  | [] => mret d
  | ev :: l => d ← dispatch_step ev d; dispatch_run l d
  end.

(** The packets of a set that arrived, and those that were delivered, in order. *)
Definition of_set (set : Z) (p : packet) : Prop := id_of p / T_SetSize = set.
#[global] Instance of_set_dec set p : Decision (of_set set p) := Z.eq_dec _ _.
Definition arrived (set : Z) (l : list dispatch_event) : list packet :=
  filter (of_set set) (omap (λ ev, match ev with Arrive p => Some p | _ => None end) l).
Definition delivered (set : Z) d : list packet := filter (of_set set) (snd <$> d_calls d).

(** A packet of the set that finds its function registered finds no other waiting. *)
Fixpoint quiet (set : Z) (l : list dispatch_event) d : bool :=
  match l with
  | [] => true
  | ev :: l =>
      match ev with
      | Arrive p =>
          bool_decide (¬ of_set set p ∨ _ueQ d set = []) || is_unexpected (_function d (id_of p))
      | _ => true
      end && match dispatch_step ev d with Ok d => quiet set l d | Err _ => false end
  end.
End dispatch.

(** * Delivery of a queue *)

(** [p] is delivered by [c] as the table says. *)
Definition as_registered (f : Z → recv) (p : packet) (c : Z * Z * packet) : Prop :=
  f (id_of p) = recv_function c.1.1 c.1.2 ∧ c.2 = p.

Lemma deliver_spec q d : ∃ done rest cs, q = done ++ rest ∧
  deliver q d = (rest, mkDispatcher (_function d) (_ueQ d) (_system_ueQ d) (d_calls d ++ cs)) ∧
  Forall2 (as_registered (_function d)) done cs ∧
  match rest with [] => True | p :: _ => is_unexpected (_function d (id_of p)) = true end.
Proof.
  revert d. induction q as [|p q IH]; intros d; cbn.
  - exists [], [], []. rewrite !app_nil_r. by destruct d.
  - destruct (_function d (id_of p)) as [k|fn cd] eqn:Hf.
    + exists [], (p :: q), []. rewrite !app_nil_r. split; [done|]. split; [by destruct d|]. split; [constructor|]. by rewrite Hf.
    + destruct (IH (add_call (fn, cd, p) d)) as (done&rest&cs&->&Hrun&Hall&Hrest).
      exists (p :: done), rest, ((fn, cd, p) :: cs). split; [done|]. split.
      { rewrite Hrun. cbn. by rewrite <- app_assoc. }
      split; [constructor; [by split|done]|done].
Qed.

Lemma as_registered_packets f done cs : Forall2 (as_registered f) done cs → snd <$> cs = done.
Proof. induction 1 as [|p c done cs [_ Hp] _ IH]; [done|]. cbn. congruence. Qed.

Lemma as_registered_calls f done cs : Forall2 (as_registered f) done cs →
  Forall (λ c, f (id_of c.2) = recv_function c.1.1 c.1.2) cs.
Proof. induction 1 as [|p c done cs [Hf Hp] _ IH]; constructor; [by rewrite Hp|done]. Qed.

(** * The packets of a set *)

Lemma arrived_one size k p : arrived size k [Arrive p] = if decide (of_set size k p) then [p] else [].
Proof. change (arrived size k [Arrive p]) with (filter (of_set size k) [p]). rewrite filter_cons. by case_decide. Qed.

Lemma filter_every {A} (P : A → Prop) `{!∀ x, Decision (P x)} l : Forall P l → filter P l = l.
Proof. induction 1 as [|x l Hx _ IH]; [done|]. rewrite filter_cons_True by done. by rewrite IH. Qed.

Lemma filter_without {A} (P : A → Prop) `{!∀ x, Decision (P x)} l : Forall (λ x, ¬ P x) l → filter P l = [].
Proof. induction 1 as [|x l Hx _ IH]; [done|]. by rewrite filter_cons_False by done. Qed.

Lemma delivered_call size k fn cd p d :
  delivered size k (add_call (fn, cd, p) d) = delivered size k d ++ arrived size k [Arrive p].
Proof. unfold delivered, arrived. cbn. by rewrite fmap_app, filter_app. Qed.

Lemma queue_appended size k set p d : set = id_of p / size →
  delivered size k d ++ _ueQ (set_ueQ set (_ueQ d set ++ [p]) d) k = (delivered size k d ++ _ueQ d k) ++ arrived size k [Arrive p].
Proof.
  intros ->. rewrite arrived_one. cbn. unfold insert, fn_insert, of_set. rewrite <- app_assoc.
  repeat case_decide; subst; try done. by rewrite app_nil_r.
Qed.

Section dispatch.
Context (T_SetCount T_SetSize : Z).
Context (Hcount : 0 < T_SetCount) (Hsize : 0 < T_SetSize) (Hids : T_SetCount * T_SetSize < 2 ^ 16).
Implicit Type d : dispatcher.

Notation ids := (T_SetCount * T_SetSize).

(** * The ids *)

(** The first free id in a range, or none. *)
Definition first_free d (id n : Z) (r : option Z) : Prop :=
  match r with
  | Some i => id ≤ i < n ∧ is_unexpected (_function d i) = true ∧ ∀ j, id ≤ j < i → is_unexpected (_function d j) = false
  | None => ∀ j, id ≤ j < n → is_unexpected (_function d j) = false
  end.

Lemma find_user_spec fuel n id d : 0 ≤ id ≤ n → n < 2 ^ 16 → n - id < Z.of_nat fuel →
  ∃ r, find_user fuel n id d = Ok r ∧ first_free d id n r.
Proof.
  revert id. induction fuel as [|fuel IH]; intros id Hid Hn Hfuel; [lia|]. cbn [find_user].
  destruct (Z.ltb_spec id n); [|exists None; split; [done|]; intros j Hj; lia].
  destruct (is_unexpected (_function d id)) eqn:Hf; [exists (Some id); repeat split; [lia..|done|intros; lia]|].
  rewrite Z.mod_small by lia. destruct (IH (id + 1)) as (r&Hrun&Hr); [lia..|]. exists r. split; [done|].
  destruct r as [i|]; cbn in *.
  - destruct Hr as (Hi&Hfi&Hlow). repeat split; [lia..|done|]. intros j Hj. destruct (decide (j = id)) as [->|]; [done|].
    apply Hlow. lia.
  - intros j Hj. destruct (decide (j = id)) as [->|]; [done|]. apply Hr. lia.
Qed.

Lemma find_system_spec n d : match find_system n d with
  | Some i => 0 < i ≤ Z.of_nat n ∧ is_unexpected (_function d i) = true
  | None => True
  end.
Proof.
  induction n as [|n IH]; [done|]. cbn [find_system].
  destruct (is_unexpected _) eqn:Hf; [by repeat split; [lia..|]|]. destruct (find_system n d); [|done]. destruct IH. repeat split; [lia..|done].
Qed.

(** * The invariant *)

(** Only the free ids have a queue, the one of their set; the system queue is never used; what waits
    belongs to its set, and what was called is what is registered. *)
Record dispatch_inv d : Prop := {
  inv_queue i k : 0 ≤ i < ids → _function d i = unexpected k → k = i / T_SetSize;
  inv_system : _system_ueQ d = [];
  inv_set k : Forall (λ p, of_set T_SetSize k p) (_ueQ d k);
  inv_calls : Forall (λ c, _function d (id_of c.2) = recv_function c.1.1 c.1.2) (d_calls d)
}.

Lemma new_inv : dispatch_inv (Dispatch_new T_SetSize).
Proof. split; cbn; intros; try done. congruence. Qed.

(** A free id gets a function. *)
Lemma set_function_inv id fn cd d : is_unexpected (_function d id) = true → dispatch_inv d →
  dispatch_inv (set_function id (recv_function fn cd) d).
Proof.
  intros Hfree [Hq Hs Hset Hc]. split; cbn; [|done|done|].
  - intros i k Hi. unfold insert, fn_insert. destruct (decide (id = i)); [done|]. by apply Hq.
  - eapply Forall_impl; [exact Hc|]. intros c Hcc. cbn in *. rewrite fn_lookup_insert_ne; [done|].
    intros E. rewrite E, Hcc in Hfree. done.
Qed.

(** The queue of a set is delivered as far as it can be. *)
Lemma deliver_inv k d : dispatch_inv d → ∃ done cs rest, _ueQ d k = done ++ rest ∧
  deliver (_ueQ d k) d = (rest, mkDispatcher (_function d) (_ueQ d) (_system_ueQ d) (d_calls d ++ cs)) ∧
  snd <$> cs = done ∧ Forall (of_set T_SetSize k) done ∧
  dispatch_inv (set_ueQ k rest (mkDispatcher (_function d) (_ueQ d) (_system_ueQ d) (d_calls d ++ cs))) ∧
  match rest with [] => True | p :: _ => is_unexpected (_function d (id_of p)) = true end.
Proof.
  intros [Hq Hs Hset Hc]. destruct (deliver_spec (_ueQ d k) d) as (done&rest&cs&E&Hrun&Hall&Hrest).
  pose proof (Hset k) as Hk. rewrite E in Hk. apply Forall_app in Hk as [Hk1 Hk2].
  exists done, cs, rest. split; [done|]. split; [done|]. split; [by eapply as_registered_packets|]. split; [done|]. split; [|done].
  split; cbn; [done|done| |apply Forall_app; split; [done|by eapply as_registered_calls]].
  intros k'. destruct (decide (k = k')) as [<-|]; [by rewrite fn_lookup_insert|by rewrite fn_lookup_insert_ne].
Qed.

(** * One event *)

(** Packets have an id of the table. *)
Definition event_ok (ev : dispatch_event) : Prop :=
  match ev with Arrive p => 0 ≤ id_of p < ids | RegisterUser set _ _ => 0 ≤ set | RegisterSystem _ _ => True end.

(** What came of the packets of a set. *)
Definition accounted (k : Z) d : list packet := delivered T_SetSize k d ++ _ueQ d k.

(** The first packet that waits waits for a function. *)
Definition head_free (k : Z) d : Prop :=
  match _ueQ d k with [] => True | p :: _ => is_unexpected (_function d (id_of p)) = true end.

Definition is_system (ev : dispatch_event) : bool := match ev with RegisterSystem _ _ => true | _ => false end.

(** What an event has to do: nothing is lost, the order is kept when it is quiet. *)
Record step_spec (ev : dispatch_event) d d' : Prop := {
  step_inv : dispatch_inv d';
  step_conserves k : accounted k d' ≡ₚ accounted k d ++ arrived T_SetSize k [ev];
  step_in_order k : quiet T_SetCount T_SetSize k [ev] d = true → accounted k d' = accounted k d ++ arrived T_SetSize k [ev];
  step_head k : is_system ev = false → head_free k d → head_free k d'
}.

Lemma arrive_step p d : dispatch_inv d → event_ok (Arrive p) →
  ∃ d', dispatch_step T_SetCount T_SetSize (Arrive p) d = Ok d' ∧ step_spec (Arrive p) d d'.
Proof.
  intros Hd Hp. cbn in Hp. assert ((0 <=? id_of p) && (id_of p <? ids) = true) as Hin by lia.
  cbn [dispatch_step]. unfold call. rewrite Hin. eexists. split; [reflexivity|].
  destruct Hd as [Hq Hs Hset Hc]. destruct (_function d (id_of p)) as [set|fn cd] eqn:Hf.
  - pose proof (Hq _ set Hp Hf) as Hk. split.
    + split; cbn; [done|done| |done]. intros k. unfold insert, fn_insert. destruct (decide (set = k)) as [<-|]; [|done].
      apply Forall_app. split; [done|]. constructor; [by unfold of_set|constructor].
    + intros k. unfold accounted. by rewrite <- (queue_appended _ _ set p d).
    + intros k _. unfold accounted. by rewrite <- (queue_appended _ _ set p d).
    + intros k _ Hh. unfold head_free in *. cbn. unfold insert, fn_insert. destruct (decide (set = k)) as [<-|]; [|done].
      destruct (_ueQ d set); cbn; [by rewrite Hf|done].
  - split.
    + split; cbn; [done|done|done|]. apply Forall_app. split; [done|]. by constructor.
    + intros k. unfold accounted. rewrite delivered_call. rewrite <- !app_assoc. apply Permutation_app_head, Permutation_app_comm.
    + intros k Hquiet. unfold accounted. rewrite delivered_call. cbn [quiet] in Hquiet.
      apply andb_true_iff in Hquiet as [Hquiet _]. rewrite Hf, orb_false_r, bool_decide_eq_true in Hquiet.
      rewrite arrived_one. destruct (decide (of_set T_SetSize k p)); [|by rewrite !app_nil_r].
      change (_ueQ (add_call (fn, cd, p) d) k) with (_ueQ d k). destruct Hquiet as [?|E]; [done|]. by rewrite E, !app_nil_r.
    + done.
Qed.

(** Ids of different sets are different. *)
Lemma id_of_set set id : set * T_SetSize ≤ id < set * T_SetSize + T_SetSize → id / T_SetSize = set.
Proof. intros Hid. symmetry. apply Z.div_unique with (id - set * T_SetSize); lia. Qed.

(** A registration that finds no id, or no packets, changes nothing for the packets. *)
Lemma same_step ev d : dispatch_inv d → (∀ k, arrived T_SetSize k [ev] = []) → step_spec ev d d.
Proof. intros Hd Hev. split; intros; [done|by rewrite Hev, app_nil_r..|done]. Qed.

(** A free id of the set is given a function and the queue of the set is delivered. *)
Lemma register_step set id fn cd d : dispatch_inv d → is_unexpected (_function d id) = true →
  set * T_SetSize ≤ id < set * T_SetSize + T_SetSize →
  ∃ rest d', (let '(q, e) := deliver (_ueQ d set) (set_function id (recv_function fn cd) d) in
    set_ueQ set q e) = d' ∧ _ueQ d' set = rest ∧ step_spec (RegisterUser set fn cd) d d'.
Proof.
  intros Hd Hfree Hid. destruct (deliver_inv set _ (set_function_inv id fn cd d Hfree Hd)) as (done&cs&rest&E&Hrun&Hcs&Hdone&Hinv&Hhead).
  cbn in E, Hrun, Hinv, Hhead. rewrite Hrun. exists rest. eexists. split; [reflexivity|]. split; [cbn; by rewrite fn_lookup_insert|].
  assert (∀ k, accounted k (set_ueQ set rest (mkDispatcher (<[id:=recv_function fn cd]> (_function d)) (_ueQ d) (_system_ueQ d)
      (d_calls d ++ cs))) = accounted k d ++ arrived T_SetSize k [RegisterUser set fn cd]) as Hsame.
  { intros k. unfold accounted, delivered. cbn. rewrite fmap_app, filter_app, Hcs, app_nil_r.
    unfold insert, fn_insert. destruct (decide (set = k)) as [<-|Hne].
    - rewrite E, (filter_every _ _ Hdone). by rewrite app_assoc.
    - rewrite (filter_without (of_set T_SetSize k) done), app_nil_r; [done|].
      eapply Forall_impl; [exact Hdone|]. unfold of_set. intros p <-. done. }
  split; [done|intros k; by rewrite Hsame|intros k _; by rewrite Hsame|].
  intros k _ Hk. unfold head_free in *. cbn. destruct (decide (set = k)) as [<-|Hne];
    [rewrite fn_lookup_insert; exact Hhead|rewrite fn_lookup_insert_ne by done].
  pose proof (inv_set _ Hd k) as Hset. destruct (_ueQ d k) as [|p q]; [done|]. apply Forall_cons in Hset as [Hp _].
  unfold insert, fn_insert. destruct (decide (id = id_of p)) as [->|]; [|exact Hk]. unfold of_set in Hp.
  by rewrite (id_of_set set) in Hp.
Qed.

Lemma user_step set fn cd d : dispatch_inv d → event_ok (RegisterUser set fn cd) →
  ∃ d', dispatch_step T_SetCount T_SetSize (RegisterUser set fn cd) d = Ok d' ∧ step_spec (RegisterUser set fn cd) d d'.
Proof.
  intros Hd Hset. cbn in Hset. cbn [dispatch_step]. unfold registerUserDispatch.
  destruct (Z.leb_spec T_SetCount set); [exists d; split; [done|by apply same_step]|].
  assert (set * T_SetSize + T_SetSize ≤ ids) by nia. assert (0 ≤ set * T_SetSize) by nia. rewrite Z.mod_small by lia.
  destruct (find_user_spec all_ids (set * T_SetSize + T_SetSize) (set * T_SetSize) d) as (r&Hrun&Hr); [lia..|unfold all_ids; lia|].
  rewrite Hrun, Ok_bind. destruct r as [id|]; [|exists d; split; [done|by apply same_step]].
  destruct Hr as (Hid&Hfree&_). destruct (register_step set id fn cd d Hd Hfree Hid) as (rest&d'&Hd'&_&Hspec).
  exists d'. split; [|done]. rewrite <- Hd'. by destruct (deliver _ _).
Qed.

(** The queue of the system functions is empty: what waits for one is not delivered. *)
Lemma registerSystemDispatch_spec fn cd d : dispatch_inv d → ∃ r,
  registerSystemDispatch T_SetCount T_SetSize fn cd d =
    Ok (r, match r with Some id => set_function id (recv_function fn cd) d | None => d end) ∧
  match r with Some id => 0 < id < ids ∧ is_unexpected (_function d id) = true | None => True end.
Proof.
  intros Hd. unfold registerSystemDispatch. pose proof (find_system_spec (Z.to_nat (T_SetSize * T_SetCount - 1)) d) as Hfind.
  destruct (find_system _ d) as [id|]; [|by exists None]. exists (Some id). destruct Hfind as [Hid Hfree]. split; [|split; [lia|done]].
  unfold deliver_system. cbn. rewrite (inv_system _ Hd). cbn. unfold set_system_ueQ. cbn. by rewrite <- (inv_system _ Hd).
Qed.

Lemma system_step fn cd d : dispatch_inv d →
  ∃ d', dispatch_step T_SetCount T_SetSize (RegisterSystem fn cd) d = Ok d' ∧ step_spec (RegisterSystem fn cd) d d'.
Proof.
  intros Hd. destruct (registerSystemDispatch_spec fn cd d Hd) as (r&Hrun&Hr). cbn [dispatch_step]. rewrite Hrun, Ok_bind.
  eexists. split; [reflexivity|]. destruct r as [id|]; [|by apply same_step]. destruct Hr as [_ Hfree].
  split; [by apply set_function_inv| | |done]; intros k; unfold accounted, delivered; cbn; by rewrite app_nil_r.
Qed.

Lemma dispatch_step_spec ev d : dispatch_inv d → event_ok ev →
  ∃ d', dispatch_step T_SetCount T_SetSize ev d = Ok d' ∧ step_spec ev d d'.
Proof. destruct ev; intros; [by apply arrive_step|by apply user_step|by apply system_step]. Qed.

(** * All events *)

Lemma arrived_cons k ev l : arrived T_SetSize k (ev :: l) = arrived T_SetSize k [ev] ++ arrived T_SetSize k l.
Proof. unfold arrived. rewrite <- filter_app. f_equal. by destruct ev. Qed.

Lemma quiet_cons k ev l d d' : dispatch_step T_SetCount T_SetSize ev d = Ok d' →
  quiet T_SetCount T_SetSize k (ev :: l) d = quiet T_SetCount T_SetSize k [ev] d && quiet T_SetCount T_SetSize k l d'.
Proof. intros Hrun. cbn [quiet]. rewrite Hrun. by rewrite andb_true_r. Qed.

Lemma dispatch_run_spec l d : dispatch_inv d → Forall event_ok l → ∃ d', dispatch_run T_SetCount T_SetSize l d = Ok d' ∧
  dispatch_inv d' ∧
  ∀ k, accounted k d' ≡ₚ accounted k d ++ arrived T_SetSize k l ∧
    (quiet T_SetCount T_SetSize k l d = true → accounted k d' = accounted k d ++ arrived T_SetSize k l) ∧
    (Forall (λ ev, is_system ev = false) l → head_free k d → head_free k d').
Proof.
  revert d. induction l as [|ev l IH]; intros d Hd Hl.
  - exists d. split; [done|]. split; [done|]. intros k. change (arrived T_SetSize k []) with ([] : list packet).
    rewrite app_nil_r. done.
  - apply Forall_cons in Hl as [Hev Hl]. destruct (dispatch_step_spec ev d Hd Hev) as (d1&Hrun1&[Hd1 Hcons Hord Hhead]).
    destruct (IH d1 Hd1 Hl) as (d2&Hrun2&Hd2&Hspec). exists d2. cbn [dispatch_run]. rewrite Hrun1, Ok_bind.
    split; [done|]. split; [done|]. intros k. destruct (Hspec k) as (Hc2&Ho2&Hh2). rewrite arrived_cons. split; [|split].
    + by rewrite Hc2, Hcons, <- app_assoc.
    + rewrite (quiet_cons _ _ _ _ _ Hrun1). intros [Hq1 Hq2]%andb_true_iff. by rewrite Ho2, Hord, <- app_assoc.
    + intros Hs. apply Forall_cons in Hs as [Hs1 Hs2]. auto.
Qed.

(** C19. Whatever arrives and whatever is registered, no packet of a dispatch set is lost or delivered
    twice, and each goes to the function registered for its id. They are delivered in the order they
    arrived if none arrives for a registered function while others of its set wait. When no system
    function is ever registered, nothing waits once all packets that wait have a function; a packet that
    waits for a system function is never delivered by its registration ([system_packets_wait]). The
    number of ids, sets times their size, is less than [2^16], and every packet has an id of the table. *)
Theorem dispatch_in_order l : Forall event_ok l →
  ∃ d, dispatch_run T_SetCount T_SetSize l (Dispatch_new T_SetSize) = Ok d ∧
    Forall (λ c, _function d (id_of c.2) = recv_function c.1.1 c.1.2) (d_calls d) ∧
    ∀ k, delivered T_SetSize k d ++ _ueQ d k ≡ₚ arrived T_SetSize k l ∧
      (quiet T_SetCount T_SetSize k l (Dispatch_new T_SetSize) = true →
        delivered T_SetSize k d ++ _ueQ d k = arrived T_SetSize k l) ∧
      (Forall (λ ev, is_system ev = false) l →
        Forall (λ p, is_unexpected (_function d (id_of p)) = false) (_ueQ d k) → _ueQ d k = []).
Proof.
  intros Hl. destruct (dispatch_run_spec l _ new_inv Hl) as (d&Hrun&Hd&Hspec). exists d. split; [done|].
  split; [apply Hd|]. intros k. destruct (Hspec k) as (Hc&Ho&Hh). split; [exact Hc|]. split; [exact Ho|].
  intros Hs Hreg. specialize (Hh Hs I). unfold head_free in Hh. destruct (_ueQ d k) as [|p q]; [done|].
  apply Forall_cons in Hreg as [Hp _]. congruence.
Qed.

Lemma register_user_run set i fn cd d : 0 ≤ set < T_SetCount → set * T_SetSize ≤ i < set * T_SetSize + T_SetSize →
  is_unexpected (_function d i) = true → (∀ j, set * T_SetSize ≤ j < i → is_unexpected (_function d j) = false) →
  dispatch_step T_SetCount T_SetSize (RegisterUser set fn cd) d =
    let '(q, e) := deliver (_ueQ d set) (set_function i (recv_function fn cd) d) in Ok (set_ueQ set q e).
Proof.
  intros Hset Hi Hfree Hlow. cbn [dispatch_step]. unfold registerUserDispatch. rewrite (proj2 (Z.leb_gt _ _)) by lia.
  assert (set * T_SetSize + T_SetSize ≤ ids) by nia. assert (0 ≤ set * T_SetSize) by nia. rewrite Z.mod_small by lia.
  destruct (find_user_spec all_ids (set * T_SetSize + T_SetSize) (set * T_SetSize) d) as (r&Hrun&Hr); [lia..|unfold all_ids; lia|].
  rewrite Hrun, Ok_bind. destruct r as [i'|]; cbn in Hr; [|by rewrite Hr in Hfree].
  destruct Hr as (Hi'&Hfree'&Hlow'). assert (i' = i) as ->; [|by destruct (deliver _ _)].
  destruct (Z.lt_trichotomy i' i) as [Hlt|[E|Hgt]]; [by rewrite Hlow in Hfree' by lia|done|by rewrite Hlow' in Hfree by lia].
Qed.

Lemma call_run p d : 0 ≤ id_of p < ids → dispatch_step T_SetCount T_SetSize (Arrive p) d =
  Ok match _function d (id_of p) with
     | unexpected set => set_ueQ set (_ueQ d set ++ [p]) d
     | recv_function function clientdata => add_call (function, clientdata, p) d
     end.
Proof. intros Hp. cbn [dispatch_step]. unfold call. by assert ((0 <=? id_of p) && (id_of p <? ids) = true) as -> by lia. Qed.

(** The table does not keep the order by itself: a packet for the second id of a set and two for the
    first, the last of which comes after the first id was registered and before the second was,
    are delivered the last one first. *)
Theorem dispatch_overtakes set f g c p q r : 0 ≤ set < T_SetCount → 2 ≤ T_SetSize →
  id_of p = set * T_SetSize + 1 → id_of q = set * T_SetSize → id_of r = set * T_SetSize →
  ∃ d, dispatch_run T_SetCount T_SetSize
      [Arrive p; Arrive q; RegisterUser set f c; Arrive r; RegisterUser set g c] (Dispatch_new T_SetSize) = Ok d ∧
    d_calls d = [(f, c, r); (g, c, p); (f, c, q)] ∧ _ueQ d set = [].
Proof.
  intros Hset H2 Hp Hq Hr. assert (set * T_SetSize + T_SetSize ≤ ids) by nia. assert (0 ≤ set * T_SetSize) by nia.
  assert ((set * T_SetSize) / T_SetSize = set) as E0 by (apply id_of_set; lia).
  assert ((set * T_SetSize + 1) / T_SetSize = set) as E1 by (apply id_of_set; lia).
  cbn [dispatch_run]. rewrite call_run, Hp, Ok_bind by lia. cbn [_function Dispatch_new]. rewrite E1.
  rewrite call_run, Hq, Ok_bind by lia. cbn [_function Dispatch_new set_ueQ]. rewrite E0.
  rewrite (register_user_run set (set * T_SetSize)); [|lia..|done|intros; lia].
  cbn [_ueQ set_ueQ Dispatch_new]. rewrite !fn_lookup_insert. cbn [deliver app].
  rewrite Hp. cbn [_function set_function set_ueQ Dispatch_new]. rewrite fn_lookup_insert_ne by lia. rewrite Ok_bind.
  rewrite call_run, Hr by lia. cbn [_function set_function set_ueQ Dispatch_new]. rewrite fn_lookup_insert, Ok_bind.
  rewrite (register_user_run set (set * T_SetSize + 1)); [|lia..| |];
    cbn [_function set_function set_ueQ _ueQ add_call Dispatch_new].
  - rewrite fn_lookup_insert. cbn [deliver _function set_function set_ueQ add_call Dispatch_new].
    rewrite Hp, fn_lookup_insert, Hq, fn_lookup_insert_ne, fn_lookup_insert by lia.
    eexists. split; [reflexivity|]. split; [reflexivity|]. cbn. by rewrite fn_lookup_insert.
  - by rewrite fn_lookup_insert_ne by lia.
  - intros j Hj. replace j with (set * T_SetSize) by lia. by rewrite fn_lookup_insert.
Qed.

(** Nothing that waits is delivered by the registration of a system function. *)
Theorem system_packets_wait l fn cd : Forall event_ok l →
  ∃ d d' r, dispatch_run T_SetCount T_SetSize l (Dispatch_new T_SetSize) = Ok d ∧
    registerSystemDispatch T_SetCount T_SetSize fn cd d = Ok (r, d') ∧ d_calls d' = d_calls d ∧ _ueQ d' = _ueQ d.
Proof.
  intros Hl. destruct (dispatch_run_spec l _ new_inv Hl) as (d&Hrun&Hd&_).
  destruct (registerSystemDispatch_spec fn cd d Hd) as (r&Hreg&_). exists d. eexists. exists r. split; [done|]. split; [exact Hreg|].
  by destruct r.
Qed.
End dispatch.

(** * All 65536 ids in use *)

Lemma find_user_skip k fuel n id d : id + Z.of_nat k ≤ n → n ≤ 2 ^ 16 → 0 ≤ id →
  (∀ j, id ≤ j < id + Z.of_nat k → is_unexpected (_function d j) = false) →
  find_user (k + fuel) n (id `mod` 2 ^ 16) d = find_user fuel n ((id + Z.of_nat k) `mod` 2 ^ 16) d.
Proof.
  revert id. induction k as [|k IH]; intros id Hk Hn Hid Hall; [by rewrite Z.add_0_r|].
  cbn [Nat.add find_user]. rewrite (Z.mod_small id) by lia. rewrite (proj2 (Z.ltb_lt id n)) by lia. rewrite Hall by lia.
  rewrite IH; [do 2 f_equal; lia|lia..|]. intros j Hj. apply Hall. lia.
Qed.

(** The constructor allows [T_SetCount * T_SetSize] to be 65536, but then the counter of the loop over
    the last set never reaches the end: when that set is full, an id of the first one is given. *)
Theorem last_set_wraps T_SetCount T_SetSize fn cd d : 0 < T_SetCount → 0 < T_SetSize → T_SetCount * T_SetSize = 2 ^ 16 →
  (∀ j, (T_SetCount - 1) * T_SetSize ≤ j < 2 ^ 16 → is_unexpected (_function d j) = false) →
  is_unexpected (_function d 0) = true →
  ∃ d', registerUserDispatch T_SetCount T_SetSize all_ids (T_SetCount - 1) fn cd d = Ok (Some 0, d').
Proof.
  intros Hc Hs Hall Hfull Hfree. unfold registerUserDispatch. rewrite (proj2 (Z.leb_gt _ _)) by lia.
  replace ((T_SetCount - 1) * T_SetSize + T_SetSize) with (2 ^ 16) by lia.
  assert (0 ≤ (T_SetCount - 1) * T_SetSize ≤ 2 ^ 16) by nia. set (k := Z.to_nat (2 ^ 16 - (T_SetCount - 1) * T_SetSize)).
  assert (∃ fuel, all_ids = (k + S fuel)%nat) as [fuel ->] by (exists (all_ids - k - 1)%nat; unfold all_ids; lia).
  rewrite find_user_skip; [|lia..|intros; apply Hfull; lia].
  replace ((T_SetCount - 1) * T_SetSize + Z.of_nat k) with (2 ^ 16) by lia. rewrite Z_mod_same_full. cbn [find_user].
  rewrite (proj2 (Z.ltb_lt 0 (2 ^ 16))) by lia. rewrite Hfree. cbn [mret res_ret]. rewrite Ok_bind. destruct (deliver _ _). by eexists.
Qed.

(** * A table of two sets of two ids *)

Definition demo_packet (id v : Z) : list Z * Z * list Z := ([], id, [v]).

Lemma dispatch_in_order_witness : ∃ d,
  dispatch_run 2 2 [Arrive (demo_packet 2 10); Arrive (demo_packet 3 11); Arrive (demo_packet 2 12); RegisterUser 1 5 6;
    RegisterUser 1 7 8; Arrive (demo_packet 2 13)] (Dispatch_new 2) = Ok d ∧
  delivered 2 1 d ++ _ueQ d 1 = [demo_packet 2 10; demo_packet 3 11; demo_packet 2 12; demo_packet 2 13].
Proof.
  destruct (dispatch_in_order 2 2 ltac:(vm_compute; exact eq_refl) ltac:(vm_compute; exact eq_refl) ltac:(vm_compute; exact eq_refl)
    [Arrive (demo_packet 2 10); Arrive (demo_packet 3 11); Arrive (demo_packet 2 12); RegisterUser 1 5 6;
     RegisterUser 1 7 8; Arrive (demo_packet 2 13)]) as (d&Hrun&_&Hspec).
  - repeat (constructor; [cbn; lia|]). constructor.
  - exists d. split; [exact Hrun|]. apply (Hspec 1). vm_compute. exact eq_refl.
Defined.

Lemma dispatch_overtakes_witness : ∃ d,
  dispatch_run 2 2 [Arrive (demo_packet 3 10); Arrive (demo_packet 2 11); RegisterUser 1 5 6; Arrive (demo_packet 2 12);
    RegisterUser 1 7 6] (Dispatch_new 2) = Ok d ∧
  d_calls d = [(5, 6, demo_packet 2 12); (7, 6, demo_packet 3 10); (5, 6, demo_packet 2 11)] ∧ _ueQ d 1 = [].
Proof.
  apply (dispatch_overtakes 2 2); first [vm_compute; exact eq_refl|cbn; lia].
Defined.
