(* ===== verification/ShmemSend.v ===== *)
(** How the shared memory device sends, src/components/devices/shmem/ShmemPacketModel.h with
    ShmemPacketMessage.h, ShmemMessage.h, and the messages of the generic device
    (src/components/devices/generic/Device.h): a packet goes into the fifo of its destination if
    there is room and nothing waits for that fifo; otherwise a message waits in the send queue of
    the fifo, and the generic device goes on with the first one of each queue. *)
From stdpp Require Import functions.
From S2P Require Import Prelude.
From S2P Require Import Memory.
From S2P Require Import ShmemPacket.

(** * What is sent *)

(** The functors that write packets, with the metadata of the message as the bytes it had when it was
    posted: they are written at once or copied behind the message. *)
Inductive functor :=
| OnePacket (metadata : list Z) (dispatch payload length : Z)
| ManyPackets (metadata : list Z) (dispatch payload length : Z)
| Gathered (metadata : list Z) (dispatch : Z) (iov : list (Z * Z)) (done : bool).

(** A packet as it is read: metadata, dispatch id and data. *)
Notation packet := (list Z * Z * list Z)%type.

Definition gather (iov : list (Z * Z)) (s : mem) : list Z := concat ((λ b : Z * Z, read_bytes b.1 b.2 s) <$> iov).

(** A message of the send queue; its id is its address, the state the client gave to the post. *)
Record message := mkMessage { m_functor : functor; m_fnum : Z; m_done : bool }.

(** A context's device: the memory of the process; for each fifo of the node how many packets it
    takes before it refuses one, what this context produced into it, and the send queue; the
    messages; of the generic device the private and the posted work and the messages to complete;
    the calls of completion functions so far, with the fifo; and the posts so far, with the id if
    there is one, and what was to be sent.  A queue is the list of its elements. *)
Record sender := mkSender {
  s_mem : mem; s_room : Z → nat; s_fifo : Z → list packet; s_sendQ : Z → list Z; s_message : Z → message;
  s_threads : list Z; s_posted : list Z; s_generic : list Z; s_called : list (Z * Z);
  s_posts : list (option Z * Z * list packet)
}.

Section send.
(** [T_Device::payload_size]. *)
Context (payload_size : Z).
Implicit Types (st : sender) (w : functor).

Definition isDone_of w : bool :=
  match w with
  | OnePacket _ _ _ length | ManyPackets _ _ _ length => length =? 0
  | Gathered _ _ _ done => done
  end.

(** [produce_impl], as the consumer will read the packet. *)
Definition produce w (s : mem) : packet * functor :=
  match w with
  | OnePacket metadata dispatch payload length =>
      ((metadata, dispatch, read_bytes payload length s), OnePacket metadata dispatch payload 0)
  | ManyPackets metadata dispatch payload length =>
      if payload_size <=? length
      then ((metadata, dispatch, read_bytes payload payload_size s),
            ManyPackets metadata dispatch (payload + payload_size) (length - payload_size))
      else ((metadata, dispatch, read_bytes payload length s), ManyPackets metadata dispatch payload 0)
  | Gathered metadata dispatch iov _ => ((metadata, dispatch, gather iov s), Gathered metadata dispatch iov true)
  end.

Definition set_room f r st : sender :=
  mkSender (s_mem st) (<[f := r]> (s_room st)) (s_fifo st) (s_sendQ st) (s_message st) (s_threads st) (s_posted st)
    (s_generic st) (s_called st) (s_posts st).
Definition add_packets f ps st : sender :=
  mkSender (s_mem st) (s_room st) (<[f := s_fifo st f ++ ps]> (s_fifo st)) (s_sendQ st) (s_message st) (s_threads st)
    (s_posted st) (s_generic st) (s_called st) (s_posts st).
Definition set_sendQ f q st : sender :=
  mkSender (s_mem st) (s_room st) (s_fifo st) (<[f := q]> (s_sendQ st)) (s_message st) (s_threads st) (s_posted st)
    (s_generic st) (s_called st) (s_posts st).
Definition set_message id m st : sender :=
  mkSender (s_mem st) (s_room st) (s_fifo st) (s_sendQ st) (<[id := m]> (s_message st)) (s_threads st) (s_posted st)
    (s_generic st) (s_called st) (s_posts st).
Definition set_works threads posted st : sender :=
  mkSender (s_mem st) (s_room st) (s_fifo st) (s_sendQ st) (s_message st) threads posted (s_generic st) (s_called st) (s_posts st).
Definition set_generic l st : sender :=
  mkSender (s_mem st) (s_room st) (s_fifo st) (s_sendQ st) (s_message st) (s_threads st) (s_posted st) l (s_called st) (s_posts st).
Definition call_fn id f st : sender :=
  mkSender (s_mem st) (s_room st) (s_fifo st) (s_sendQ st) (s_message st) (s_threads st) (s_posted st) (s_generic st)
    (s_called st ++ [(id, f)]) (s_posts st).
Definition log_post id f ps st : sender :=
  mkSender (s_mem st) (s_room st) (s_fifo st) (s_sendQ st) (s_message st) (s_threads st) (s_posted st) (s_generic st)
    (s_called st) (s_posts st ++ [(id, f, ps)]).
Definition set_mem s st : sender :=
  mkSender s (s_room st) (s_fifo st) (s_sendQ st) (s_message st) (s_threads st) (s_posted st) (s_generic st) (s_called st) (s_posts st).

Definition Sender_new (s : mem) : sender :=
  mkSender s (λ _, O) (λ _, []) (λ _, []) (λ _, mkMessage (OnePacket [] 0 0 0) 0 false) [] [] [] [] [].

(** * Posting *)

(** [PacketMessage::write]: packets as long as the fifo takes them; whether all were written. *)
Fixpoint write_loop (room : nat) w (s : mem) : list packet * functor * nat * bool :=
  match room with
  | O => ([], w, O, false)
  | S room =>
      let '(p, w) := produce w s in
      if isDone_of w then ([p], w, room, true)
      else let '(ps, w, room, done) := write_loop room w s in (p :: ps, w, room, done)
  end.

(** The loop of [postMultiPacket_impl], which asks [isDone] also when no packet was produced. *)
Fixpoint multi_loop (room : nat) w (s : mem) : list packet * functor * nat * bool :=
  match room with
  | O => ([], w, O, isDone_of w)
  | S room =>
      let '(p, w) := produce w s in
      if isDone_of w then ([p], w, room, true)
      else let '(ps, w, room, done) := multi_loop room w s in (p :: ps, w, room, done)
  end.

(** [SendQueue::Message::postNext]. *)
Definition postNext id st : sender :=
  set_works (s_threads st) (s_posted st ++ [id]) (set_generic (s_generic st ++ [id]) st).

(** [SendQueue::post]. *)
Definition send_post f id st : sender :=
  let st := match s_sendQ st f with [] => postNext id st | _ => st end in
  set_sendQ f (s_sendQ st f ++ [id]) st.

(** The message is made in the state and posted. *)
Definition post_message id f w st : sender := send_post f id (set_message id (mkMessage w f false) st).

(** [postPacket_impl]: one attempt. *)
Definition postPacket id f w st : bool * sender :=
  match s_sendQ st f, s_room st f with
  | [], S room => (true, call_fn id f (add_packets f [fst (produce w (s_mem st))] (set_room f room st)))
  | _, _ => (false, post_message id f w st)
  end.

(** [postPacket_impl] without a state: the packet is sent at once or not at all. *)
Definition postPacket_immediate f w st : bool * sender :=
  match s_sendQ st f, s_room st f with
  | [], S room => (true, add_packets f [fst (produce w (s_mem st))] (set_room f room st))
  | _, _ => (false, st)
  end.

Definition postMultiPacket id f w st : bool * sender :=
  match s_sendQ st f with
  | [] =>
      let '(ps, w, room, done) := multi_loop (s_room st f) w (s_mem st) in
      let st := add_packets f ps (set_room f room st) in
      if done then (true, call_fn id f st) else (false, post_message id f w st)
  | _ => (false, post_message id f w st)
  end.

(** * Advancing the generic device *)

(** [PacketMessage::advance] of the work of a message: [PAMI_EAGAIN] or not. *)
Definition execute_work id st : bool * sender :=
  let m := s_message st id in
  let f := m_fnum m in
  let '(ps, w, room, done) := write_loop (s_room st f) (m_functor m) (s_mem st) in
  (negb done, set_message id (mkMessage w f done) (add_packets f ps (set_room f room st))).

(** The loops over work: each is called, and those stay that ask to be called again. *)
Fixpoint run_works (l : list Z) st : list Z * sender :=
  match l with
  | [] => ([], st)
  | id :: l =>
      let '(again, st) := execute_work id st in
      let '(kept, st) := run_works l st in ((if again then id :: kept else kept), st)
  end.

(** A message that is done leaves both queues, the next one of its send queue is posted, the
    completion function is called. *)
Definition complete_message id st : sender :=
  let f := m_fnum (s_message st id) in
  let st := set_sendQ f (filter (.≠ id) (s_sendQ st f)) (set_generic (filter (.≠ id) (s_generic st)) st) in
  call_fn id f match s_sendQ st f with [] => st | next :: _ => postNext next st end.

(** The loop over the messages: the message after the current one is read before that is looked at,
    so what is posted meanwhile is met unless the current one is the last. *)
Fixpoint message_loop (fuel : nat) (todo : list Z) st : res sender :=
  match todo, fuel with
  | [], _ => mret st
  | _, O => Err NoFuel
  | id :: rest, S fuel =>
      if m_done (s_message st id) then
        let posted := match filter (.≠ id) (s_sendQ st (m_fnum (s_message st id))) with [] => [] | next :: _ => [next] end in
        message_loop fuel match rest with [] => [] | _ => rest ++ posted end (complete_message id st)
      else message_loop fuel rest st
  end.

Definition send_advance st : res sender :=
  let '(kept, st) := run_works (s_threads st) st in
  let posted := s_posted st in
  let '(again, st) := run_works posted (set_works kept [] st) in
  let st := set_works (kept ++ again) (s_posted st) st in
  message_loop (S (2 * length (s_generic st))) (s_generic st) st.

(** * What happens to a device *)

(** The client posts; it writes a byte; the device is advanced; a fifo has room for so many packets. *)
Inductive send_event :=
| PostPacket (id f : Z) w
| PostImmediate (f : Z) w
| PostMultiPacket (id f : Z) w
| ClientWrites (a v : Z)
| Advance
| Room (f : Z) (room : nat).

(** The packets a functor is about to write, one after the other. *)
Definition message_packets w (s : mem) : list packet :=
  match w with
  | OnePacket metadata dispatch payload length => [(metadata, dispatch, read_bytes payload length s)]
  | ManyPackets metadata dispatch payload length =>
      map (λ i, (metadata, dispatch,
        read_bytes (payload + i * payload_size) (Z.min payload_size (length - i * payload_size)) s))
        (seqZ 0 (Z.max 1 ((length + payload_size - 1) / payload_size)))
  | Gathered metadata dispatch iov _ => [(metadata, dispatch, gather iov s)]
  end.

Definition send_step (ev : send_event) st : res sender :=
  match ev with
  | PostPacket id f w => mret (log_post (Some id) f (message_packets w (s_mem st)) (snd (postPacket id f w st)))
  | PostImmediate f w =>
      let '(sent, st') := postPacket_immediate f w st in
      mret (if (sent : bool) then log_post None f (message_packets w (s_mem st)) st' else st')
  | PostMultiPacket id f w => mret (log_post (Some id) f (message_packets w (s_mem st)) (snd (postMultiPacket id f w st)))
  | ClientWrites a v => mret (set_mem (<[a := v]> (s_mem st)) st)
  | Advance => send_advance st
  | Room f room => mret (set_room f room st)
  end.

(** What is left to write of a message. *)
Definition rest_of st id : list packet :=
  let m := s_message st id in if m_done m then [] else message_packets (m_functor m) (s_mem st).

(** The posts to a fifo: id and packets. *)
Definition posts_to f st : list (option Z * list packet) :=
  omap (λ '(id, f', ps), if decide (f' = f) then Some (id, ps) else None) (s_posts st).
Definition called_for f st : list Z := omap (λ '(id, f'), if decide (f' = f) then Some id else None) (s_called st).

(** The bytes a functor still reads. *)
Definition source w (a : Z) : Prop :=
  match w with
  | OnePacket _ _ payload length | ManyPackets _ _ payload length => payload ≤ a < payload + length
  | Gathered _ _ iov _ => Exists (λ b, b.1 ≤ a < b.1 + b.2) iov
  end.

(** What [postPacket] and [postMultiPacket] make. *)
Definition is_multi w : bool := match w with ManyPackets _ _ _ _ => true | _ => false end.

(** What can be posted: a message in several packets has data. *)
Definition functor_ok w : Prop :=
  match w with
  | OnePacket _ _ _ length => 0 ≤ length ≤ payload_size
  | ManyPackets _ _ _ length => 0 < length
  | Gathered _ _ iov done => done = false
  end.

(** A state is the client's again after the completion function; until then the data stay as they are. *)
Definition send_ok (ev : send_event) st : Prop :=
  match ev with
  | PostPacket id f w => functor_ok w ∧ is_multi w = false ∧ ∀ f, id ∉ s_sendQ st f
  | PostMultiPacket id f w => functor_ok w ∧ is_multi w = true ∧ ∀ f, id ∉ s_sendQ st f
  | PostImmediate f w => functor_ok w ∧ is_multi w = false
  | ClientWrites a _ => ∀ f id, id ∈ s_sendQ st f → ¬ source (m_functor (s_message st id)) a
  | Advance | Room _ _ => True
  end.

Fixpoint send_run (l : list send_event) st : res sender :=
  match l with
  | [] => mret st
  | ev :: l => st ← send_step ev st; send_run l st
  end.

Fixpoint sends_ok (l : list send_event) st : Prop :=
  match l with
  | [] => True
  | ev :: l => send_ok ev st ∧ ∀ st', send_step ev st = Ok st' → sends_ok l st'
  end.
End send.
