(* ===== verification/ShmemSendProps.v ===== *)
(** What the shared memory device promises of its sends: the packets of the posts to a fifo come in
    the order of the posts, a completion function is called when its packets are written, and
    everything is written once there is room. *)
From stdpp Require Import functions.
From S2P Require Import Prelude.
From S2P Require Import Memory.
From S2P Require Import ShmemPacket.
From S2P Require Import ShmemSend.

Section send.
Context (payload_size : Z) (Hp : 0 < payload_size).
Implicit Types (st : sender) (w : functor).

Notation packets_of := (message_packets payload_size).
Notation rest := (rest_of payload_size).
Notation ok := (functor_ok payload_size).

(** * One functor *)

Lemma seqZ_shift_map {A} (g h : Z → A) a b n : 0 ≤ n → (∀ i, 0 ≤ i < n → g (a + i) = h (b + i)) →
  map g (seqZ a n) = map h (seqZ b n).
Proof.
  intros Hn Hgh. apply list_eq. intros i. rewrite !list_lookup_fmap. destruct (decide (Z.of_nat i < n)).
  - rewrite !lookup_seqZ_lt by lia. cbn. f_equal. apply Hgh. lia.
  - by rewrite !lookup_seqZ_ge by lia.
Qed.

(** Writing a packet takes it off what is left. *)
Lemma produce_spec w s p w' : ok w → produce payload_size w s = (p, w') →
  packets_of w s = p :: (if isDone_of w' then [] else packets_of w' s) ∧ (isDone_of w' = false → ok w') ∧
  (∀ a, source w' a → source w a).
Proof.
  intros Hw. destruct w as [m d a n|m d a n|m d iov dn]; cbn in Hw; cbn [produce].
  - intros [= <- <-]. split; [done|]. split; [done|]. cbn. lia.
  - destruct (Z.leb_spec payload_size n) as [Hle|Hgt]; intros [= <- <-].
    + split; [|split; [intros Hd%Z.eqb_neq; cbn; lia|cbn; lia]]. cbn [isDone_of message_packets].
      destruct (Z.eqb_spec (n - payload_size) 0) as [Hz|Hz].
      * assert (n = payload_size) as -> by lia.
        assert ((payload_size + payload_size - 1) / payload_size = 1) as ->
          by (symmetry; apply Z.div_unique with (payload_size - 1); lia).
        change (seqZ 0 (Z.max 1 1)) with [0]. cbn [map]. by rewrite Z.mul_0_l, Z.add_0_r, Z.sub_0_r, Z.min_id.
      * set (k := (n - payload_size + payload_size - 1) / payload_size).
        assert ((n + payload_size - 1) / payload_size = k + 1) as ->.
        { unfold k. replace (n + payload_size - 1) with (n - payload_size + payload_size - 1 + 1 * payload_size) by lia.
          by rewrite Z.div_add by lia. }
        assert (1 ≤ k) by (apply Z.div_le_lower_bound; lia). rewrite !Z.max_r by lia.
        rewrite seqZ_cons by lia. cbn [map]. rewrite Z.mul_0_l, Z.add_0_r, Z.sub_0_r, Z.min_l by lia. f_equal.
        replace (Z.pred (k + 1)) with k by lia. apply seqZ_shift_map; [lia|]. intros i Hi. do 2 f_equal; lia.
    + split; [|split; [done|cbn; lia]]. cbn [isDone_of message_packets].
      assert ((n + payload_size - 1) / payload_size = 1) as ->
        by (symmetry; apply Z.div_unique with (n - 1); lia).
      change (seqZ 0 (Z.max 1 1)) with [0]. cbn [map]. by rewrite Z.mul_0_l, Z.add_0_r, Z.sub_0_r, Z.min_r by lia.
  - intros [= <- <-]. by split.
Qed.

(** What a loop over a fifo with room for [room] packets leaves. *)
Record written (room : nat) w (s : mem) (ps : list (list Z * Z * list Z)) w' (room' : nat) (done : bool) : Prop := {
  w_packets : packets_of w s = ps ++ (if done then [] else packets_of w' s);
  w_ok : done = false → ok w';
  w_source a : source w' a → source w a;
  w_some : (0 < room)%nat → (0 < length ps)%nat
}.

Lemma write_loop_spec room w s : ok w → let '(ps, w', room', done) := write_loop payload_size room w s in
  written room w s ps w' room' done.
Proof.
  revert w. induction room as [|room IH]; intros w Hw; cbn [write_loop]; [by split; [|..|lia]|].
  destruct (produce payload_size w s) as [p w1] eqn:Hpr. destruct (produce_spec w s p w1 Hw Hpr) as (Hps&Hok&Hsrc).
  destruct (isDone_of w1) eqn:Hd; [split; try done; cbn; lia|].
  specialize (IH w1 (Hok eq_refl)). destruct (write_loop payload_size room w1 s) as [[[ps w'] room'] done].
  destruct IH as [H1 H2 H3 _]. split; [by rewrite Hps, H1|done|auto|cbn; lia].
Qed.

Lemma multi_loop_spec room w s : ok w → isDone_of w = false → multi_loop payload_size room w s = write_loop payload_size room w s.
Proof.
  revert w. induction room as [|room IH]; intros w Hw Hd; cbn [write_loop multi_loop]; [by rewrite Hd|].
  destruct (produce payload_size w s) as [p w1] eqn:Hpr. destruct (produce_spec w s p w1 Hw Hpr) as (_&Hok&_).
  destruct (isDone_of w1) eqn:Hd1; [done|]. by rewrite IH by auto.
Qed.

(** * The invariant *)

(** The posts that wait for a fifo, by its send queue: of the first one [part] is in the fifo. *)
Definition waiting_of (part : list (list Z * Z * list Z)) (q : list Z) st : list (option Z * list (list Z * Z * list Z)) :=
  match q with [] => [] | id :: q => (Some id, part ++ rest st id) :: ((λ i, (Some i, rest st i)) <$> q) end.

(** A fifo holds the packets of the posts that are completed and a part of the first one that waits. *)
Definition in_order f st : Prop := ∃ sent part,
  posts_to f st = sent ++ waiting_of part (s_sendQ st f) st ∧ omap fst sent = called_for f st ∧
  s_fifo st f = concat (snd <$> sent) ++ part ∧ (s_sendQ st f = [] → part = []).

Record fifo_inv f st : Prop := {
  fi_message id : id ∈ s_sendQ st f →
    m_fnum (s_message st id) = f ∧ (m_done (s_message st id) = false → ok (m_functor (s_message st id)));
  fi_nodup : NoDup (s_sendQ st f);
  fi_first id l : s_sendQ st f = id :: l → Forall (λ i, m_done (s_message st i) = false) l;
  fi_in_order : in_order f st
}.

(** The first message of each send queue is with the generic device: its work is in [act] until it is
    done. *)
Record send_inv (act : list Z) st : Prop := {
  si_fifo f : fifo_inv f st;
  si_act : NoDup act;
  si_act_in id : id ∈ act ↔ ∃ f, head (s_sendQ st f) = Some id ∧ m_done (s_message st id) = false;
  si_generic : NoDup (s_generic st);
  si_generic_in id : id ∈ s_generic st ↔ ∃ f, head (s_sendQ st f) = Some id
}.

(** The packets that are left for a fifo. *)
Definition left_for f st : nat := length (concat (rest st <$> s_sendQ st f)).

Lemma send_inv_perm act act' st : act ≡ₚ act' → send_inv act st → send_inv act' st.
Proof. intros E [H1 H2 H3 H4 H5]. split; [done|by rewrite <- E| |done|done]. intros id. rewrite <- E. apply H3. Qed.

#[local] Instance send_inv_proper : Proper ((≡ₚ) ==> eq ==> iff) send_inv.
Proof. intros a b E st _ <-. split; apply send_inv_perm; [done|by symmetry]. Qed.

Lemma waiting_ext part q st st' : (∀ id, id ∈ q → rest st' id = rest st id) → waiting_of part q st' = waiting_of part q st.
Proof.
  intros Hq. destruct q as [|id q]; [done|]. cbn. rewrite Hq by by left. f_equal. apply list_fmap_ext.
  intros i x Hx%list_elem_of_lookup_2. by rewrite Hq by by right.
Qed.

(** What concerns a fifo is untouched. *)
Record fifo_same f st st' : Prop := {
  fs_sendQ : s_sendQ st' f = s_sendQ st f;
  fs_fifo : s_fifo st' f = s_fifo st f;
  fs_posts : posts_to f st' = posts_to f st;
  fs_called : called_for f st' = called_for f st;
  fs_message id : id ∈ s_sendQ st f → s_message st' id = s_message st id;
  fs_rest id : id ∈ s_sendQ st f → rest st' id = rest st id
}.

Lemma fifo_frame f st st' : fifo_same f st st' → fifo_inv f st → fifo_inv f st'.
Proof.
  intros [Hq Hf Hps Hc Hm Hr] [H1 H2 H3 (sent&part&H4&H5&H6&H7)]. split.
  - intros id. rewrite Hq. intros Hid. rewrite Hm by done. by apply H1.
  - by rewrite Hq.
  - intros id l. rewrite Hq. intros E. pose proof (H3 id l E) as Hl. rewrite Forall_forall in Hl |- *.
    intros i Hi. rewrite Hm; [by apply Hl|]. rewrite E. by right.
  - exists sent, part. by rewrite Hq, Hf, Hps, Hc, (waiting_ext part _ st st' Hr).
Qed.

Lemma left_same f st st' : fifo_same f st st' → left_for f st' = left_for f st.
Proof.
  intros [Hq _ _ _ _ Hr]. unfold left_for. rewrite Hq. do 2 f_equal. apply list_fmap_ext.
  intros i id Hid%list_elem_of_lookup_2. by apply Hr.
Qed.

(** A message is in one queue only. *)
Lemma one_queue st f g id : (∀ f, fifo_inv f st) → id ∈ s_sendQ st f → id ∈ s_sendQ st g → f = g.
Proof. intros Hi Hf Hg. destruct (fi_message f st (Hi f) id Hf) as [<- _]. by destruct (fi_message g st (Hi g) id Hg) as [<- _]. Qed.

Lemma head_in {A} (x : A) l : head l = Some x → x ∈ l.
Proof. destruct l; [done|]. intros [= ->]. by left. Qed.

Lemma left_cons f st id l : s_sendQ st f = id :: l → left_for f st = (length (rest st id) + length (concat (rest st <$> l)))%nat.
Proof. intros E. unfold left_for. rewrite E. cbn. by rewrite length_app. Qed.

(** * Work *)

(** What calling work leaves as it is. *)
Record work_same st st' : Prop := {
  ws_mem : s_mem st' = s_mem st;
  ws_sendQ : s_sendQ st' = s_sendQ st;
  ws_threads : s_threads st' = s_threads st;
  ws_posted : s_posted st' = s_posted st;
  ws_generic : s_generic st' = s_generic st;
  ws_posts : s_posts st' = s_posts st
}.

Lemma work_same_trans st1 st2 st3 : work_same st1 st2 → work_same st2 st3 → work_same st1 st3.
Proof. intros [] []. split; congruence. Qed.

(** The first message of a fifo after some of its packets were written. *)
Lemma written_fifo id f l ps m room' st : fifo_inv f st → s_sendQ st f = id :: l → id ∉ l →
  m_fnum m = f → (m_done m = false → ok (m_functor m)) →
  let st' := set_message id m (add_packets f ps (set_room f room' st)) in
  rest st id = ps ++ rest st' id → (∀ i, i ∈ l → rest st' i = rest st i) → fifo_inv f st'.
Proof.
  intros [H1 H2 H3 (sent&part&H4&H5&H6&H7)] Eq Hnl Hfn Hok st' Hrest Hrest'. split.
  - intros i. change (s_sendQ st' f) with (s_sendQ st f). intros Hi. subst st'. cbn.
    destruct (decide (id = i)) as [<-|]; [rewrite fn_lookup_insert|rewrite fn_lookup_insert_ne by done; by apply H1]. by split.
  - done.
  - intros i k Ei. change (s_sendQ st' f) with (s_sendQ st f) in Ei. rewrite Eq in Ei. injection Ei as <- <-.
    pose proof (H3 id l Eq) as Hl. rewrite Forall_forall in Hl |- *. intros i Hi. subst st'. cbn.
    rewrite fn_lookup_insert_ne; [by apply Hl|]. by intros ->.
  - exists sent, (part ++ ps). change (s_sendQ st' f) with (s_sendQ st f). rewrite Eq in *. change (posts_to f st') with (posts_to f st).
    change (called_for f st') with (called_for f st). rewrite H4. split; [|split; [done|split; [|done]]].
    + cbn. rewrite Hrest, <- app_assoc. do 2 f_equal. apply list_fmap_ext. intros i x Hx%list_elem_of_lookup_2. by rewrite Hrest'.
    + subst st'. cbn. rewrite fn_lookup_insert, H6. by rewrite app_assoc.
Qed.

Lemma execute_work_spec id act st : send_inv (id :: act) st → ∃ f st' again,
  execute_work payload_size id st = (again, st') ∧ head (s_sendQ st f) = Some id ∧ work_same st st' ∧
  send_inv (if (again : bool) then id :: act else act) st' ∧
  (∀ g, g ≠ f → left_for g st' = left_for g st ∧ s_room st' g = s_room st g) ∧
  (left_for f st' ≤ left_for f st)%nat ∧ ((0 < s_room st f)%nat → (left_for f st' < left_for f st)%nat).
Proof.
  intros [Hfifo Hact Hactin Hgen Hgenin]. destruct (proj1 (Hactin id) ltac:(by left)) as (f&Hf&Hd).
  destruct (fi_message f st (Hfifo f) id (head_in _ _ Hf)) as [Hfn Hok]. specialize (Hok Hd).
  unfold execute_work. rewrite Hfn. pose proof (write_loop_spec (s_room st f) (m_functor (s_message st id)) (s_mem st) Hok) as Hw.
  destruct (write_loop payload_size (s_room st f) (m_functor (s_message st id)) (s_mem st)) as [[[ps w'] room'] dn].
  destruct Hw as [Hps Hok' _ Hsome]. set (st' := set_message _ _ _). exists f, st', (negb dn).
  destruct (s_sendQ st f) as [|id0 l] eqn:Eq; [done|]. injection Hf as ->.
  assert (id ∉ l) as Hnl by (pose proof (fi_nodup f st (Hfifo f)) as Hn; rewrite Eq in Hn; by apply NoDup_cons in Hn as [? _]).
  assert (∀ g, g ≠ f → fifo_same g st st') as Hother.
  { intros g Hg. assert (∀ i, i ∈ s_sendQ st g → i ≠ id) as Hne.
    { intros i Hi ->. apply Hg. apply (one_queue st g f id Hfifo Hi). rewrite Eq. by left. }
    split; subst st'; [done|cbn; by rewrite fn_lookup_insert_ne by congruence|done|done| |];
      intros i Hi; specialize (Hne i Hi); unfold rest_of; cbn; by rewrite fn_lookup_insert_ne by congruence. }
  assert (rest st id = ps ++ rest st' id) as Hrest.
  { unfold rest_of. subst st'. cbn. rewrite fn_lookup_insert. cbn. rewrite Hd, Hps. by destruct dn. }
  assert (∀ i, i ∈ l → rest st' i = rest st i) as Hrest'.
  { intros i Hi. unfold rest_of. subst st'. cbn. rewrite fn_lookup_insert_ne; [done|]. by intros ->. }
  assert (left_for f st' + length ps = left_for f st)%nat as Hleft.
  { rewrite (left_cons f st id l Eq), (left_cons f st' id l Eq), Hrest, length_app.
    rewrite (list_fmap_ext (rest st') (rest st) l); [lia|]. intros i x Hx%list_elem_of_lookup_2. by apply Hrest'. }
  split; [done|]. split; [done|]. split; [by split|]. split; [|split; [|split; [lia|intros Hr; specialize (Hsome Hr); lia]]].
  - split.
    + intros g. destruct (decide (g = f)) as [->|Hg]; [|by eapply fifo_frame, Hfifo; apply Hother].
      by eapply written_fifo.
    + destruct dn; [by apply NoDup_cons in Hact as [_ ?]|done].
    + intros i. change (s_sendQ st') with (s_sendQ st). apply NoDup_cons in Hact as [Hna _].
      destruct (decide (i = id)) as [->|Hi].
      * subst st'. cbn. rewrite fn_lookup_insert. cbn. destruct dn; cbn; [split; [done|by intros (?&_&?)]|].
        split; [|by left]. intros _. exists f. by rewrite Eq.
      * subst st'. cbn. rewrite fn_lookup_insert_ne by done. rewrite <- Hactin, elem_of_cons. destruct dn; cbn; [|rewrite elem_of_cons]; tauto.
    + done.
    + done.
  - intros g Hg. split; [by apply left_same, Hother|]. subst st'. cbn. by rewrite fn_lookup_insert_ne.
Qed.

(** Work that is called, one after the other: nothing more is left for any fifo, and less for those
    with room whose first message is called. *)
Lemma run_works_spec l other st : send_inv (l ++ other) st → ∃ kept st',
  run_works payload_size l st = (kept, st') ∧ work_same st st' ∧ send_inv (kept ++ other) st' ∧
  (∀ g, (left_for g st' ≤ left_for g st)%nat) ∧
  (∀ g id, head (s_sendQ st g) = Some id → id ∉ l → s_room st' g = s_room st g) ∧
  (∀ g id, head (s_sendQ st g) = Some id → id ∈ l → (0 < s_room st g)%nat → (left_for g st' < left_for g st)%nat).
Proof.
  revert other st. induction l as [|id l IH]; intros other st Hi; cbn [run_works].
  { exists [], st. split; [done|]. split; [done|]. split; [done|]. split; [done|]. split; [done|]. intros g i _ Hin. by apply elem_of_nil in Hin. }
  destruct (execute_work_spec id (l ++ other) st Hi) as (f&st1&again&Hrun&Hf&Hsame&Hi1&Hg&Hle&Hlt). rewrite Hrun.
  set (other' := if (again : bool) then id :: other else other).
  assert (send_inv (l ++ other') st1) as Hi2.
  { subst other'. destruct again; [|done]. eapply send_inv_perm; [|exact Hi1]. by rewrite Permutation_middle. }
  destruct (IH other' st1 Hi2) as (kept&st2&Hrun2&Hsame2&Hi3&Hle2&Hroom2&Hlt2). rewrite Hrun2.
  pose proof (ws_sendQ _ _ Hsame) as Eq. eexists _, st2. split; [reflexivity|]. split; [by eapply work_same_trans|].
  assert (∀ g, (left_for g st1 ≤ left_for g st)%nat) as Hle1
    by (intros g; destruct (decide (g = f)) as [->|Hgf]; [done|]; destruct (Hg g Hgf); lia).
  assert (∀ g i, head (s_sendQ st g) = Some i → i ≠ id → g ≠ f) as Hne by (intros g i Hh Hii ->; congruence).
  assert (id ∉ l) as Hnl by (destruct (proj1 (NoDup_cons _ _) (si_act _ _ Hi)) as [Hn _]; set_solver).
  split; [|split; [|split]].
  - subst other'. destruct again; [|done]. eapply send_inv_perm; [|exact Hi3]. cbn. by rewrite Permutation_middle.
  - intros g. specialize (Hle1 g). specialize (Hle2 g). lia.
  - intros g i Hh Hni. apply not_elem_of_cons in Hni as [Hni1 Hni2]. rewrite (Hroom2 g i); [|by rewrite Eq|done].
    apply Hg. by eapply Hne.
  - intros g i Hh Hil Hr. pose proof (Hle1 g). pose proof (Hle2 g). apply elem_of_cons in Hil as [->|Hil].
    + assert (g = f) as ->; [|specialize (Hlt Hr); lia].
      apply (one_queue st g f id (si_fifo _ _ Hi)); by apply head_in.
    + assert (i ≠ id) as Hii by (by intros ->). destruct (Hg g (Hne g i Hh Hii)) as [E1 E2].
      assert (head (s_sendQ st1 g) = Some i) as Hh1 by (by rewrite Eq).
      specialize (Hlt2 g i Hh1 Hil ltac:(lia)). lia.
Qed.

(** * Completion *)

Lemma filter_neq (id : Z) (l : list Z) : id ∉ l → filter (.≠ id) l = l.
Proof.
  induction l as [|x l IH]; intros Hn; [done|]. apply not_elem_of_cons in Hn as [Hx Hl].
  rewrite filter_cons_True by done. by rewrite IH.
Qed.

(** The message behind the one that is done. *)
Definition next_of id st : list Z :=
  match filter (.≠ id) (s_sendQ st (m_fnum (s_message st id))) with [] => [] | next :: _ => [next] end.

(** The first message of a send queue is done and leaves. *)
Definition completed id f l st : sender :=
  mkSender (s_mem st) (s_room st) (s_fifo st) (<[f := l]> (s_sendQ st)) (s_message st) (s_threads st)
    (s_posted st ++ take 1 l) (filter (.≠ id) (s_generic st) ++ take 1 l) (s_called st ++ [(id, f)]) (s_posts st).

Lemma in_take_1 (i : Z) (l : list Z) : i ∈ take 1 l ↔ head l = Some i.
Proof.
  destruct l as [|x k]; cbn; [split; [by intros ?%elem_of_nil|done]|]. rewrite list_elem_of_singleton. split; congruence.
Qed.

Section complete.
Context (id : Z) (act : list Z) st (f : Z) (l : list Z).
Context (Hi : send_inv act st) (Eq : s_sendQ st f = id :: l) (Hd : m_done (s_message st id) = true).

Lemma first_not_behind : id ∉ l.
Proof. pose proof (fi_nodup f st (si_fifo _ _ Hi f)) as Hnd. rewrite Eq in Hnd. by apply NoDup_cons in Hnd as [? _]. Qed.

Lemma complete_message_run : m_fnum (s_message st id) = f ∧ next_of id st = take 1 l ∧ complete_message id st = completed id f l st.
Proof.
  destruct (fi_message f st (si_fifo _ _ Hi f) id ltac:(rewrite Eq; by left)) as [Hfn _]. split; [done|].
  assert (filter (.≠ id) (id :: l) = l) as Efil
    by (rewrite filter_cons_False by tauto; apply filter_neq, first_not_behind).
  split; [unfold next_of; rewrite Hfn, Eq, Efil; by destruct l|].
  unfold complete_message, completed. cbn. rewrite Hfn, Eq, Efil. unfold call_fn, postNext. cbn. rewrite fn_lookup_insert.
  destruct l; cbn; [by rewrite !app_nil_r|done].
Qed.

Lemma completed_other g : g ≠ f → fifo_same g st (completed id f l st).
Proof.
  intros Hg. split; cbn; try done; [by rewrite fn_lookup_insert_ne by congruence|].
  unfold called_for. cbn. rewrite omap_app. cbn. rewrite decide_False by congruence. by rewrite app_nil_r.
Qed.

Lemma completed_fifo g : fifo_inv g (completed id f l st).
Proof.
  pose proof (si_fifo _ _ Hi) as Hfifo. destruct (decide (g = f)) as [->|Hg]; [|by eapply fifo_frame, Hfifo; apply completed_other].
  destruct (Hfifo f) as [H1 H2 H3 (sent&part&H4&H5&H6&H7)]. pose proof (H3 id l Eq) as Hl. rewrite Eq in *.
  split; cbn; rewrite ?fn_lookup_insert.
  - intros i Hin. apply H1. by right.
  - by apply NoDup_cons in H2 as [_ ?].
  - intros i k ->. by apply Forall_cons in Hl as [_ ?].
  - exists (sent ++ [(Some id, part)]), []. cbn [s_sendQ s_fifo completed]. rewrite fn_lookup_insert. split; [|split; [|split; [|done]]].
    + change (posts_to f (completed id f l st)) with (posts_to f st). rewrite H4. cbn [waiting_of].
      assert (rest st id = []) as -> by (unfold rest_of; by rewrite Hd). rewrite app_nil_r, <- app_assoc. by destruct l.
    + rewrite omap_app, H5. unfold called_for. cbn. rewrite omap_app. cbn. by rewrite decide_True.
    + by rewrite fmap_app, concat_app, H6, app_nil_r; cbn; rewrite app_nil_r.
Qed.

(** The message that comes first now was with the generic device for no queue. *)
Lemma next_is_new i : head l = Some i → ∀ g, head (s_sendQ st g) ≠ Some i.
Proof.
  intros Hh g Hg. assert (g = f) as ->.
  { apply (one_queue st g f i (si_fifo _ _ Hi)); [by apply head_in|]. rewrite Eq. right. by apply head_in. }
  assert (id = i) as E by (rewrite Eq in Hg; by injection Hg). apply first_not_behind. rewrite E. by apply head_in.
Qed.

Lemma completed_heads i : (∃ g, head (<[f := l]> (s_sendQ st) g) = Some i) ↔
  head l = Some i ∨ ((∃ g, head (s_sendQ st g) = Some i) ∧ i ≠ id).
Proof.
  split.
  - intros (g&Hg). destruct (decide (f = g)) as [<-|Hfg]; [rewrite fn_lookup_insert in Hg; by left|].
    rewrite fn_lookup_insert_ne in Hg by done. right. split; [by exists g|]. intros ->. apply Hfg.
    apply (one_queue st f g id (si_fifo _ _ Hi)); [rewrite Eq; by left|by apply head_in].
  - intros [Hh|[[g Hg] Hne]]; [exists f; by rewrite fn_lookup_insert|]. exists g.
    rewrite fn_lookup_insert_ne; [done|]. intros <-. rewrite Eq in Hg. by injection Hg.
Qed.

Lemma completed_inv : send_inv (act ++ take 1 l) (completed id f l st).
Proof.
  pose proof Hi as [Hfifo Hact Hactin Hgen Hgenin]. pose proof (fi_first f st (Hfifo f) id l Eq) as Hl.
  assert (NoDup (take 1 l)) as Ht by (destruct l; cbn; [constructor|apply NoDup_singleton]).
  split; cbn [s_generic s_sendQ s_message completed].
  - apply completed_fifo.
  - apply NoDup_app. split; [done|]. split; [|done]. intros i Hia Hin%in_take_1. apply Hactin in Hia as (g&Hg&_).
    by apply (next_is_new i Hin g).
  - intros i. rewrite elem_of_app, in_take_1. split.
    + intros [Hia|Hh].
      * apply Hactin in Hia as (g&Hg&Hdi). assert (i ≠ id) by congruence.
        destruct (proj2 (completed_heads i)) as (g'&Hg'); [right; split; [by exists g|done]|]. by exists g'.
      * destruct (proj2 (completed_heads i)) as (g'&Hg'); [by left|]. exists g'. split; [done|].
        destruct l; [done|]. injection Hh as ->. by apply Forall_cons in Hl as [? _].
    + intros (g&Hg&Hdi). destruct (proj1 (completed_heads i)) as [Hh|[[g' Hg'] _]]; [by exists g|by right|].
      left. apply Hactin. by exists g'.
  - apply NoDup_app. split; [by apply NoDup_filter|]. split; [|done]. intros i Hig Hin%in_take_1.
    apply list_elem_of_filter in Hig as [_ Hig]. apply Hgenin in Hig as [g Hg]. by apply (next_is_new i Hin g).
  - intros i. rewrite elem_of_app, in_take_1, list_elem_of_filter, Hgenin, completed_heads. tauto.
Qed.

Lemma completed_left g : left_for g (completed id f l st) = left_for g st.
Proof.
  destruct (decide (g = f)) as [->|Hg]; [|by apply left_same, completed_other].
  rewrite (left_cons f st id l Eq). unfold left_for. cbn. rewrite fn_lookup_insert. unfold rest_of at 2. by rewrite Hd.
Qed.
End complete.

Notation done_in st := (λ i, m_done (s_message st i) = true).

(** The loop over the messages ends, and completes those that are done. *)
Lemma message_loop_spec fuel todo act st : send_inv act st → NoDup todo → (∀ i, i ∈ todo → i ∈ s_generic st) →
  (∀ i, i ∈ s_generic st → m_done (s_message st i) = true → i ∈ todo) →
  (length todo + length (filter (done_in st) todo) ≤ fuel)%nat →
  ∃ st' new, message_loop fuel todo st = Ok st' ∧ send_inv (act ++ new) st' ∧
    s_threads st' = s_threads st ∧ s_posted st' = s_posted st ++ new ∧ s_posts st' = s_posts st ∧
    (∀ i, i ∈ s_generic st' → m_done (s_message st' i) = false) ∧ (∀ g, left_for g st' = left_for g st).
Proof.
  revert todo act st. induction fuel as [|fuel IH]; intros todo act st Hi Hnd Hin Hdone Hfuel.
  all: destruct todo as [|id todo]; [exists st, []; rewrite !app_nil_r; split; [done|]; split; [done|]; split; [done|]; split; [done|];
    split; [done|]; split; [|done]; intros i Hg; destruct (m_done (s_message st i)) eqn:E; [|done]; by apply Hdone, elem_of_nil in E|].
  { cbn in Hfuel. lia. }
  apply NoDup_cons in Hnd as [Hnid Hnd]. cbn [message_loop]. destruct (m_done (s_message st id)) eqn:Hd.
  - destruct (proj1 (si_generic_in _ _ Hi id) (Hin id ltac:(by left))) as (f&Hf).
    destruct (s_sendQ st f) as [|id' l] eqn:Eq; [done|]. injection Hf as ->.
    destruct (complete_message_run id act st f l Hi Eq) as (Hfn&Hnext&Hrun). fold (next_of id st). rewrite Hnext, Hrun.
    assert (∀ i, i ∈ take 1 l → m_done (s_message st i) = false) as Hnew.
    { intros i Hil. pose proof (fi_first f st (si_fifo _ _ Hi f) id l Eq) as Hl. rewrite Forall_forall in Hl. apply Hl.
      apply in_take_1 in Hil. by apply head_in. }
    destruct (IH match todo with [] => [] | _ => todo ++ take 1 l end (act ++ take 1 l) (completed id f l st))
      as (st'&new&Hrun'&Hi'&Hthr&Hpst&Hposts&Hnone&Hleft).
    + by apply completed_inv.
    + destruct todo as [|i0 todo]; [constructor|]. apply NoDup_app. split; [done|]. split.
      * intros i Hti Hil%in_take_1. assert (i ∈ s_generic st) as Hg by (apply Hin; by right).
        apply (si_generic_in _ _ Hi) in Hg as [g Hg]. by apply (next_is_new id act st f l Hi Eq i Hil g).
      * destruct l; cbn; [constructor|apply NoDup_singleton].
    + intros i Hti. cbn. destruct todo as [|i0 todo]; [by apply elem_of_nil in Hti|]. rewrite elem_of_app, list_elem_of_filter.
      apply elem_of_app in Hti as [Hti|Hti]; [left|by right]. split; [by intros ->|]. apply Hin. by right.
    + intros i Hg Hdi. cbn in Hg, Hdi. apply elem_of_app in Hg as [Hg|Hg]; [|by rewrite Hnew in Hdi].
      apply list_elem_of_filter in Hg as [Hne Hg]. specialize (Hdone i Hg Hdi). apply elem_of_cons in Hdone as [?|Ht]; [done|].
      destruct todo; [done|]. apply elem_of_app. by left.
    + change (s_message (completed id f l st)) with (s_message st).
      assert (filter (done_in st) (take 1 l) = []) as Hnf.
      { destruct l as [|x k]; [done|]. cbn [take firstn] in *. rewrite filter_cons_False; [done|]. rewrite Hnew; [done|by left]. }
      rewrite filter_cons_True in Hfuel by done. cbn in Hfuel.
      destruct todo as [|i0 todo]; [cbn; lia|]. rewrite filter_app, Hnf, app_nil_r, length_app.
      assert (length (take 1 l) ≤ 1)%nat by (rewrite length_take; lia). lia.
    + exists st', (take 1 l ++ new). rewrite app_assoc. split; [done|]. split; [done|]. split; [done|].
      split; [rewrite Hpst; cbn; by rewrite app_assoc|]. split; [done|]. split; [done|]. intros g. rewrite Hleft. by eapply completed_left.
  - rewrite filter_cons_False in Hfuel by (by rewrite Hd). cbn in Hfuel. destruct (IH todo act st Hi Hnd) as (st'&new&Hrun'&Hrest).
    + intros i Hti. apply Hin. by right.
    + intros i Hg Hdi. specialize (Hdone i Hg Hdi). apply elem_of_cons in Hdone as [->|?]; [congruence|done].
    + lia.
    + by exists st', new.
Qed.

(** * Between two calls *)

(** No message is done. *)
Record at_rest st : Prop := {
  ar_inv : send_inv (s_threads st ++ s_posted st) st;
  ar_done i : i ∈ s_generic st → m_done (s_message st i) = false
}.

Lemma set_works_inv act threads posted st : send_inv act st → send_inv act (set_works threads posted st).
Proof. intros [H1 H2 H3 H4 H5]. split; try done. intros f. destruct (H1 f). by split. Qed.

(** Advancing: no failure, and what is left for a fifo with room becomes less. *)
Lemma send_advance_spec st : at_rest st → ∃ st', send_advance payload_size st = Ok st' ∧ at_rest st' ∧
  s_posts st' = s_posts st ∧
  (∀ g, (left_for g st' ≤ left_for g st)%nat) ∧
  (∀ g, s_sendQ st g ≠ [] → (0 < s_room st g)%nat → (left_for g st' < left_for g st)%nat).
Proof.
  intros [Hi Hnd]. unfold send_advance.
  destruct (run_works_spec (s_threads st) (s_posted st) st Hi) as (kept&st1&Hrun1&Hs1&Hi1&Hle1&Hroom1&Hlt1). rewrite Hrun1.
  rewrite (ws_posted _ _ Hs1). set (st1' := set_works kept [] st1).
  destruct (run_works_spec (s_posted st) kept st1') as (again&st2&Hrun2&Hs2&Hi2&Hle2&Hroom2&Hlt2).
  { apply set_works_inv. by rewrite (Permutation_app_comm (s_posted st)). }
  rewrite Hrun2. assert (s_posted st2 = []) as -> by exact (ws_posted _ _ Hs2).
  set (st2' := set_works (kept ++ again) [] st2).
  assert (s_generic st2' = s_generic st) as Hgen.
  { transitivity (s_generic st1); [exact (ws_generic _ _ Hs2)|exact (ws_generic _ _ Hs1)]. }
  change (s_generic st2) with (s_generic st2').
  destruct (message_loop_spec (S (2 * length (s_generic st2'))) (s_generic st2') (again ++ kept) st2')
    as (st3&new&Hrun3&Hi3&Hthr&Hpst&Hposts&Hnone&Hleft); [by apply set_works_inv|exact (si_generic _ _ Hi2)|done|done| |].
  { pose proof (length_filter (done_in st2') (s_generic st2')). lia. }
  exists st3. split; [exact Hrun3|]. split; [|split; [|split]].
  - split; [|exact Hnone]. rewrite Hthr, Hpst. cbn. eapply send_inv_perm; [|exact Hi3]. by rewrite (Permutation_app_comm again).
  - rewrite Hposts. transitivity (s_posts st1); [exact (ws_posts _ _ Hs2)|exact (ws_posts _ _ Hs1)].
  - intros g. rewrite Hleft. specialize (Hle1 g). specialize (Hle2 g). unfold left_for, rest_of in *. cbn in *. lia.
  - intros g Hq Hr. rewrite Hleft. specialize (Hle1 g). specialize (Hle2 g).
    destruct (head (s_sendQ st g)) as [id|] eqn:Hh; [|by destruct (s_sendQ st g)].
    assert (id ∈ s_threads st ++ s_posted st) as Hin.
    { apply (si_act_in _ _ Hi). exists g. split; [done|]. apply Hnd, (si_generic_in _ _ Hi). by exists g. }
    change (left_for g st2') with (left_for g st2). change (left_for g st1') with (left_for g st1) in *.
    destruct (decide (id ∈ s_threads st)) as [Ht|Ht]; [specialize (Hlt1 g id Hh Ht Hr); lia|].
    apply elem_of_app in Hin as [?|Hin]; [done|].
    assert (head (s_sendQ st1' g) = Some id) as Hh1 by (cbn; by rewrite (ws_sendQ _ _ Hs1)).
    specialize (Hlt2 g id Hh1 Hin). change (s_room st1' g) with (s_room st1 g) in Hlt2. rewrite (Hroom1 g id Hh Ht) in Hlt2.
    specialize (Hlt2 Hr). change (left_for g st1') with (left_for g st1) in Hlt2. lia.
Qed.

(** * Posting *)

Lemma posts_log o f f' ps st : posts_to f (log_post o f' ps st) = posts_to f st ++ (if decide (f' = f) then [(o, ps)] else []).
Proof. unfold posts_to, log_post. cbn. rewrite omap_app. cbn. by case_decide. Qed.

(** A packet that is written when nothing waits. *)
Lemma sent_at_once o f pk r st : at_rest st → s_sendQ st f = [] →
  at_rest (log_post o f pk (match o with Some id => call_fn id f | None => λ x, x end (add_packets f pk (set_room f r st)))).
Proof.
  intros [[Hfifo Hact Hactin Hgen Hgenin] Hnd] Eq. set (st1 := match o with Some _ => _ | None => _ end _).
  assert (s_sendQ st1 = s_sendQ st ∧ s_fifo st1 = <[f := s_fifo st f ++ pk]> (s_fifo st) ∧ s_message st1 = s_message st ∧
    s_posts st1 = s_posts st ∧ s_generic st1 = s_generic st ∧ s_threads st1 = s_threads st ∧ s_posted st1 = s_posted st ∧
    s_mem st1 = s_mem st ∧ s_called st1 = s_called st ++ match o with Some id => [(id, f)] | None => [] end)
    as (E1&E2&E3&E4&E5&E6&E7&E8&E9) by (subst st1; destruct o; cbn; by rewrite ?app_nil_r).
  clearbody st1. assert (∀ g, posts_to g st1 = posts_to g st) as Eposts by (intros g; unfold posts_to; by rewrite E4).
  assert (∀ g, called_for g st1 = called_for g st ++ omap (λ x : option Z, x) (if decide (f = g) then [o] else [])) as Ecalled.
  { intros g. unfold called_for. rewrite E9, omap_app. f_equal. by case_decide; destruct o; cbn; try case_decide; simplify_eq. }
  split; [split; cbn; rewrite ?E1, ?E3, ?E5, ?E6, ?E7; try done|cbn; by rewrite E3, E5]. intros g. destruct (decide (f = g)) as [<-|Hg].
  - destruct (Hfifo f) as [H1 H2 H3 (sent&part&H4&H5&H6&H7)]. rewrite Eq in H4. rewrite (H7 Eq) in H4, H6.
    split; cbn; rewrite ?E1, ?E3; try done. exists (sent ++ [(o, pk)]), []. rewrite posts_log, decide_True, Eposts, H4 by done.
    cbn [s_sendQ s_fifo log_post]. rewrite E1, E2, Eq, fn_lookup_insert. split; [by rewrite !app_nil_r|]. split; [|split; [|done]].
    + change (called_for f (log_post o f pk st1)) with (called_for f st1). rewrite Ecalled, decide_True, omap_app, H5 by done. done.
    + rewrite fmap_app, concat_app, H6. cbn. by rewrite !app_nil_r.
  - eapply fifo_frame, Hfifo. split; cbn [s_sendQ s_fifo s_message log_post]; [by rewrite E1|by rewrite E2, fn_lookup_insert_ne|..].
    + rewrite posts_log, decide_False, Eposts by done. by rewrite app_nil_r.
    + change (called_for g (log_post o f pk st1)) with (called_for g st1). rewrite Ecalled, decide_False by done. by rewrite app_nil_r.
    + by rewrite E3.
    + intros id _. unfold rest_of. cbn. by rewrite E3, E8.
Qed.

Section post.
Context (id f : Z) (w : functor) (st : sender) (Hrest : at_rest st) (Hok : ok w) (Hid : ∀ g, id ∉ s_sendQ st g).

(** A message that is posted leaves what concerns other fifos alone. *)
Lemma posted_other g pk st1 : f ≠ g → s_sendQ st1 g = s_sendQ st g → s_fifo st1 g = s_fifo st g → s_posts st1 = s_posts st →
  s_called st1 = s_called st → s_message st1 = <[id := mkMessage w f false]> (s_message st) → s_mem st1 = s_mem st →
  fifo_same g st (log_post (Some id) f pk st1).
Proof.
  intros Hg E1 E2 E4 E9 E3 E8. assert (∀ i, i ∈ s_sendQ st g → i ≠ id) as Hne by (intros i Hi ->; by apply (Hid g)).
  split; cbn [s_sendQ s_fifo s_message log_post]; [done|done|..].
  - rewrite posts_log, decide_False, app_nil_r by done. unfold posts_to. by rewrite E4.
  - unfold called_for. cbn. by rewrite E9.
  - intros i Hi. rewrite E3. by rewrite fn_lookup_insert_ne by (specialize (Hne i Hi); congruence).
  - intros i Hi. unfold rest_of. cbn. rewrite E3, E8. by rewrite fn_lookup_insert_ne by (specialize (Hne i Hi); congruence).
Qed.

Lemma not_with_device : id ∉ s_threads st ++ s_posted st ∧ id ∉ s_generic st.
Proof.
  destruct Hrest as [Hi _]. split; intros Hin.
  - apply (si_act_in _ _ Hi) in Hin as (g&Hg&_). by apply (Hid g), head_in.
  - apply (si_generic_in _ _ Hi) in Hin as (g&Hg). by apply (Hid g), head_in.
Qed.

(** Behind others. *)
Lemma post_behind : s_sendQ st f ≠ [] →
  at_rest (log_post (Some id) f (packets_of w (s_mem st)) (post_message id f w st)).
Proof.
  intros Hne. destruct Hrest as [[Hfifo Hact Hactin Hgen Hgenin] Hnd]. unfold post_message, send_post. cbn [s_sendQ set_message].
  destruct (s_sendQ st f) as [|i0 q] eqn:Eq; [done|]. cbn [s_sendQ set_message]. rewrite Eq. set (st1 := set_sendQ _ _ _).
  assert (∀ g, head (s_sendQ st1 g) = head (s_sendQ st g)) as Hheads.
  { intros g. subst st1. cbn. destruct (decide (f = g)) as [<-|]; [by rewrite fn_lookup_insert, Eq|by rewrite fn_lookup_insert_ne]. }
  assert (∀ i g, head (s_sendQ st g) = Some i → s_message st1 i = s_message st i) as Hmsg.
  { intros i g Hh. subst st1. cbn. rewrite fn_lookup_insert_ne; [done|]. intros <-. by apply (Hid g), head_in. }
  split; [split|]; cbn [s_sendQ s_threads s_posted s_generic s_message log_post].
  - intros g. destruct (decide (f = g)) as [<-|Hg]; [|eapply fifo_frame, Hfifo; by apply posted_other; subst st1; cbn; rewrite ?fn_lookup_insert_ne].
    destruct (Hfifo f) as [H1 H2 H3 (sent&part&H4&H5&H6&H7)]. rewrite Eq in *. specialize (Hid f). rewrite Eq in Hid.
    assert (∀ i, i ∈ i0 :: q → s_message st1 i = s_message st i ∧ rest (log_post (Some id) f (packets_of w (s_mem st)) st1) i = rest st i) as Hsame.
    { intros i Hi. unfold rest_of. subst st1. cbn. by rewrite fn_lookup_insert_ne by (intros <-; done). }
    split; cbn [s_sendQ log_post s_message]; subst st1; cbn [s_sendQ set_sendQ s_message set_message]; rewrite ?fn_lookup_insert.
    + intros i [Hi|Hi]%elem_of_app; [destruct (Hsame i Hi) as [E _]; cbn in E; rewrite E; by apply H1|].
      apply list_elem_of_singleton in Hi as ->. by rewrite fn_lookup_insert.
    + apply NoDup_app. split; [done|]. split; [|apply NoDup_singleton]. intros i Hi ->%list_elem_of_singleton. done.
    + intros i l [= <- <-]. pose proof (H3 i0 q eq_refl) as Hq. apply Forall_app. split.
      * rewrite Forall_forall in Hq |- *. intros i Hi. destruct (Hsame i ltac:(by right)) as [E _]. cbn in E. rewrite E. by apply Hq.
      * constructor; [by rewrite fn_lookup_insert|constructor].
    + exists sent, part. rewrite posts_log, decide_True by done. cbn [s_sendQ log_post set_sendQ]. rewrite fn_lookup_insert.
      change (posts_to f (set_sendQ f _ _)) with (posts_to f st). rewrite H4. split; [|by split].
      cbn [waiting_of app] in Hsame |- *. rewrite <- app_assoc. cbn [app]. rewrite (proj2 (Hsame i0 ltac:(by left))). do 3 f_equal. rewrite fmap_app. f_equal.
      * apply list_fmap_ext. intros k i Hi%list_elem_of_lookup_2. by rewrite (proj2 (Hsame i ltac:(by right))).
      * cbn. unfold rest_of. cbn. by rewrite fn_lookup_insert.
  - done.
  - intros i. change (s_threads st1 ++ s_posted st1) with (s_threads st ++ s_posted st). rewrite Hactin.
    split; intros (g&Hg&Hd); exists g.
    + rewrite Hheads, (Hmsg i g Hg). by split.
    + rewrite Hheads in Hg. rewrite (Hmsg i g Hg) in Hd. by split.
  - done.
  - intros i. change (s_generic st1) with (s_generic st). rewrite Hgenin. split; intros (g&Hg); exists g; by rewrite Hheads in *.
  - intros i Hi. pose proof Hi as (g&Hg)%Hgenin. rewrite (Hmsg i g Hg). by apply Hnd.
Qed.

(** As the first one, after some packets were written. *)
Lemma post_first ps r : s_sendQ st f = [] →
  at_rest (log_post (Some id) f (ps ++ packets_of w (s_mem st)) (post_message id f w (add_packets f ps (set_room f r st)))).
Proof.
  intros Eq. destruct Hrest as [[Hfifo Hact Hactin Hgen Hgenin] Hnd]. destruct not_with_device as [Hna Hng].
  unfold post_message, send_post. cbn [s_sendQ set_message add_packets set_room]. rewrite Eq. cbn [postNext s_sendQ set_works set_generic set_message add_packets set_room]. rewrite Eq.
  set (st1 := set_sendQ _ _ _).
  assert (∀ i, (∃ g, head (s_sendQ st1 g) = Some i) ↔ (∃ g, head (s_sendQ st g) = Some i) ∨ i = id) as Hheads.
  { intros i. subst st1. cbn. split.
    - intros (g&Hg). destruct (decide (f = g)) as [<-|]; [rewrite fn_lookup_insert in Hg; injection Hg as ->; by right|].
      rewrite fn_lookup_insert_ne in Hg by done. left. by exists g.
    - intros [(g&Hg)| ->]; [exists g; rewrite fn_lookup_insert_ne; [done|intros <-; by rewrite Eq in Hg]|].
      exists f. by rewrite fn_lookup_insert. }
  assert (∀ i g, head (s_sendQ st g) = Some i → i ≠ id) as Hne by (intros i g Hh ->; by apply (Hid g), head_in).
  assert (∀ i, i ≠ id → s_message st1 i = s_message st i) as Hmsg by (intros i Hi; subst st1; cbn; by rewrite fn_lookup_insert_ne by congruence).
  assert (s_message st1 id = mkMessage w f false) as Hmid by (subst st1; cbn; by rewrite fn_lookup_insert).
  split; [split|]; cbn [s_sendQ s_threads s_posted s_generic s_message log_post].
  - intros g. destruct (decide (f = g)) as [<-|Hg]; [|eapply fifo_frame, Hfifo; by apply posted_other; subst st1; cbn; rewrite ?fn_lookup_insert_ne].
    destruct (Hfifo f) as [H1 H2 H3 (sent&part&H4&H5&H6&H7)]. rewrite Eq in *. rewrite (H7 eq_refl) in H4, H6.
    assert (s_sendQ st1 f = [id]) as Eq1 by (subst st1; cbn; by rewrite fn_lookup_insert).
    split; cbn [s_sendQ log_post s_message]; rewrite ?Eq1.
    + intros i ->%list_elem_of_singleton. by rewrite Hmid.
    + apply NoDup_singleton.
    + by intros i l [= <- <-].
    + exists sent, ps. rewrite posts_log, decide_True by done. cbn [s_sendQ log_post]. rewrite Eq1.
      change (posts_to f st1) with (posts_to f st). rewrite H4. cbn. split; [|split; [done|split; [|done]]].
      * rewrite !app_nil_r. unfold rest_of. cbn. by rewrite fn_lookup_insert.
      * rewrite fn_lookup_insert, H6. by rewrite app_nil_r.
  - change (NoDup (s_threads st ++ s_posted st ++ [id])). rewrite app_assoc. apply NoDup_app. split; [done|].
    split; [|apply NoDup_singleton]. by intros i Hi ->%list_elem_of_singleton.
  - intros i. change (s_threads st1 ++ s_posted st1) with (s_threads st ++ s_posted st ++ [id]). rewrite app_assoc, elem_of_app, list_elem_of_singleton, Hactin. split.
    + intros [(g&Hg&Hd)| ->].
      * destruct (proj2 (Hheads i) ltac:(left; by exists g)) as (g'&Hg'). exists g'. split; [done|]. by rewrite Hmsg by by eapply Hne.
      * destruct (proj2 (Hheads id) ltac:(by right)) as (g'&Hg'). exists g'. by rewrite Hmid.
    + intros (g&Hg&Hd). destruct (proj1 (Hheads i) ltac:(by exists g)) as [(g'&Hg')| ->]; [left|by right].
      exists g'. split; [done|]. by rewrite Hmsg in Hd by by eapply Hne.
  - change (NoDup (s_generic st ++ [id])). apply NoDup_app. split; [done|]. split; [|apply NoDup_singleton].
    by intros i Hi ->%list_elem_of_singleton.
  - intros i. change (s_generic st1) with (s_generic st ++ [id]). by rewrite elem_of_app, list_elem_of_singleton, Hgenin, Hheads.
  - change (s_generic st1) with (s_generic st ++ [id]). intros i [Hi|Hi]%elem_of_app; [|apply list_elem_of_singleton in Hi as ->; by rewrite Hmid].
    pose proof Hi as (g&Hg)%Hgenin. rewrite Hmsg by by eapply Hne. by apply Hnd.
Qed.
End post.

(** * Every event *)

Lemma packets_single w s : is_multi w = false → packets_of w s = [fst (produce payload_size w s)].
Proof. by destruct w. Qed.

(** The packets of a message depend on its data only. *)
Lemma packets_ext w s s' : ok w → (∀ a, source w a → s' a = s a) → packets_of w s' = packets_of w s.
Proof.
  intros Hw Hs. destruct w as [m d a n|m d a n|m d iov dn]; cbn in *.
  - do 2 f_equal. apply read_bytes_ext. intros i Hi. apply Hs. lia.
  - apply map_ext_in. intros i Hi%list_elem_of_In%elem_of_seqZ. f_equal. apply read_bytes_ext. intros j Hj. apply Hs.
    assert (0 ≤ i * payload_size) by nia. lia.
  - do 2 f_equal. unfold gather. f_equal. apply list_fmap_ext. intros i b Hb. apply read_bytes_ext. intros j Hj. apply Hs.
    apply Exists_exists. exists b. split; [by eapply list_elem_of_lookup_2|lia].
Qed.

Lemma client_writes a v st : at_rest st → (∀ f id, id ∈ s_sendQ st f → ¬ source (m_functor (s_message st id)) a) →
  at_rest (set_mem (<[a := v]> (s_mem st)) st).
Proof.
  intros [[Hfifo Hact Hactin Hgen Hgenin] Hnd] Hsrc. split; [split|]; try done. intros f. eapply fifo_frame, Hfifo.
  split; try done. intros id Hid. unfold rest_of. cbn [s_message s_mem set_mem].
  destruct (fi_message f st (Hfifo f) id Hid) as [_ Hok]. destruct (m_done (s_message st id)); [done|].
  apply packets_ext; [by apply Hok|]. intros x Hx. rewrite fn_lookup_insert_ne; [done|]. intros <-. by apply (Hsrc f id Hid).
Qed.

(** The fifos as functions, and the room in them, do not matter. *)
Lemma at_rest_ext st st' : s_sendQ st' = s_sendQ st → s_message st' = s_message st → s_mem st' = s_mem st →
  s_threads st' = s_threads st → s_posted st' = s_posted st → s_generic st' = s_generic st → s_called st' = s_called st →
  s_posts st' = s_posts st → (∀ g, s_fifo st' g = s_fifo st g) → at_rest st → at_rest st'.
Proof.
  intros E1 E2 E3 E4 E5 E6 E7 E8 E9 [[Hfifo Hact Hactin Hgen Hgenin] Hnd].
  split; [split|]; rewrite ?E1, ?E2, ?E4, ?E5, ?E6; try done. intros g. eapply fifo_frame, Hfifo.
  split; intros; rewrite ?E1; unfold posts_to, called_for, rest_of; by rewrite ?E2, ?E3, ?E7, ?E8, ?E9.
Qed.

Lemma new_at_rest s : at_rest (Sender_new s).
Proof.
  split; [split|]; cbn; try constructor; try done.
  - intros i Hi. by apply elem_of_nil in Hi.
  - constructor.
  - by exists [], [].
  - by intros ?%elem_of_nil.
  - intros (g&?&_). done.
  - by intros ?%elem_of_nil.
  - by intros (g&?).
Qed.

Lemma packet_step id f w st : at_rest st → send_ok payload_size (PostPacket id f w) st →
  at_rest (log_post (Some id) f (packets_of w (s_mem st)) (postPacket payload_size id f w st).2).
Proof.
  intros Hi (Hw&Hm&Hid). unfold postPacket. destruct (s_sendQ st f) as [|i0 q] eqn:Eq; [|by apply post_behind; rewrite ?Eq].
  destruct (s_room st f) as [|r] eqn:Er.
  - pose proof (post_first id f w st Hi Hw Hid [] O Eq) as H. eapply at_rest_ext; [..|exact H];
      unfold post_message, send_post; cbn; rewrite ?Eq; cbn; rewrite ?Eq; try done. intros g.
    destruct (decide (f = g)) as [<-|]; [by rewrite fn_lookup_insert, app_nil_r|by rewrite fn_lookup_insert_ne].
  - rewrite packets_single by done. by apply (sent_at_once (Some id)).
Qed.

Lemma multi_step id f w st : at_rest st → send_ok payload_size (PostMultiPacket id f w) st →
  at_rest (log_post (Some id) f (packets_of w (s_mem st)) (postMultiPacket payload_size id f w st).2).
Proof.
  intros Hi (Hw&Hm&Hid). unfold postMultiPacket. destruct (s_sendQ st f) as [|i0 q] eqn:Eq; [|by apply post_behind; rewrite ?Eq].
  assert (isDone_of w = false) as Hd by (destruct w; try done; cbn in *; by apply Z.eqb_neq; lia).
  rewrite multi_loop_spec by done. pose proof (write_loop_spec (s_room st f) w (s_mem st) Hw) as Hl.
  destruct (write_loop payload_size (s_room st f) w (s_mem st)) as [[[ps w'] r] dn]. destruct Hl as [Hps Hok' _ _].
  destruct dn; cbn [snd].
  - rewrite Hps, app_nil_r. by apply (sent_at_once (Some id)).
  - rewrite Hps. by apply (post_first id f w' st Hi (Hok' eq_refl) Hid ps r).
Qed.

Lemma send_step_spec ev st : at_rest st → send_ok payload_size ev st →
  ∃ st', send_step payload_size ev st = Ok st' ∧ at_rest st'.
Proof.
  intros Hi Hok. destruct ev as [id f w|f w|id f w|a v| |f r]; cbn [send_step].
  - eexists. split; [reflexivity|]. by apply packet_step.
  - destruct Hok as (Hw&Hm). unfold postPacket_immediate. destruct (s_sendQ st f) as [|i0 q] eqn:Eq; [|by exists st].
    destruct (s_room st f) as [|r]; [by exists st|]. eexists. split; [reflexivity|]. rewrite packets_single by done.
    by apply (sent_at_once None).
  - eexists. split; [reflexivity|]. by apply multi_step.
  - eexists. split; [reflexivity|]. by apply client_writes.
  - destruct (send_advance_spec st Hi) as (st'&Hrun&Hi'&_). by exists st'.
  - eexists. split; [reflexivity|]. by apply (at_rest_ext st).
Qed.

Lemma send_run_spec l st : at_rest st → sends_ok payload_size l st → ∃ st', send_run payload_size l st = Ok st' ∧ at_rest st'.
Proof.
  revert st. induction l as [|ev l IH]; intros st Hi Hl; [by exists st|]. destruct Hl as [Hev Hl].
  destruct (send_step_spec ev st Hi Hev) as (st1&Hrun&Hi1). destruct (IH st1 Hi1 (Hl st1 Hrun)) as (st2&Hrun2&Hi2).
  exists st2. cbn [send_run]. by rewrite Hrun.
Qed.

(** * What the device promises *)

(** C14. Sends in shared memory keep their order. Whatever a context posts, in any order, while its
    fifos take packets now and then and clients leave the data alone, no assertion fails and no loop
    goes on for ever; and each fifo holds, of what this context sent, all packets of the posts that
    are completed, in the order of the posts and with the bytes of then, and after them the beginning
    of the first post that waits; completion functions are called once each, in order, when all
    packets are in the fifo. *)
Theorem shmem_sends_in_order l s : sends_ok payload_size l (Sender_new s) →
  ∃ st, send_run payload_size l (Sender_new s) = Ok st ∧ ∀ f, ∃ sent part,
    posts_to f st = sent ++ waiting_of part (s_sendQ st f) st ∧ s_fifo st f = concat (snd <$> sent) ++ part ∧
    called_for f st = omap fst sent ∧ (s_sendQ st f = [] → part = []).
Proof.
  intros Hl. destruct (send_run_spec l _ (new_at_rest s) Hl) as (st&Hrun&[Hi _]). exists st. split; [done|].
  intros f. destruct (fi_in_order f st (si_fifo _ _ Hi f)) as (sent&part&H1&H2&H3&H4). by exists sent, part.
Qed.

Lemma packets_some w s : ok w → (0 < length (packets_of w s))%nat.
Proof. intros Hw. destruct (produce payload_size w s) as [p w'] eqn:E. destruct (produce_spec w s p w' Hw E) as (->&_). cbn. lia. Qed.

Lemma nothing_left f st : at_rest st → left_for f st = O → s_sendQ st f = [].
Proof.
  intros [Hi Hnd] Hleft. destruct (s_sendQ st f) as [|id q] eqn:Eq; [done|]. rewrite (left_cons f st id q Eq) in Hleft.
  assert (m_done (s_message st id) = false) as Hd by (apply Hnd, (si_generic_in _ _ Hi); exists f; by rewrite Eq).
  destruct (fi_message f st (si_fifo _ _ Hi f) id ltac:(rewrite Eq; by left)) as [_ Hok].
  unfold rest_of in Hleft. rewrite Hd in Hleft. pose proof (packets_some (m_functor (s_message st id)) (s_mem st) (Hok Hd)). lia.
Qed.

(** The fifo takes a packet, the device is advanced; [n] times. *)
Definition rounds (n : nat) (f : Z) : list send_event := concat (replicate n [Room f 1; Advance]).

Lemma rounds_spec n f st : at_rest st → ∃ st', send_run payload_size (rounds n f) st = Ok st' ∧ at_rest st' ∧
  s_posts st' = s_posts st ∧ (left_for f st' ≤ left_for f st - n)%nat.
Proof.
  revert st. induction n as [|n IH]; intros st Hi; [exists st; split; [done|]; split; [done|]; split; [done|lia]|].
  set (st1 := set_room f 1 st). assert (at_rest st1) as Hi1 by by apply (at_rest_ext st).
  destruct (send_advance_spec st1 Hi1) as (st2&Hrun&Hi2&Hposts&Hle&Hlt). destruct (IH st2 Hi2) as (st3&Hrun3&Hi3&Hposts3&Hle3).
  exists st3. unfold rounds. cbn [replicate concat app send_run send_step mbind res_bind mret res_ret]. fold st1. rewrite Hrun.
  cbn [mbind res_bind]. split; [exact Hrun3|]. split; [done|]. split; [by rewrite Hposts3, Hposts|].
  assert (left_for f st1 = left_for f st) as E by done. specialize (Hle f). specialize (Hlt f).
  change (s_sendQ st1 f) with (s_sendQ st f) in Hlt.
  destruct (decide (s_sendQ st f = [])) as [Eq|Eq]; 
    [assert (left_for f st = O) by (unfold left_for; by rewrite Eq); lia|].
  specialize (Hlt Eq). assert (s_room st1 f = 1%nat) as Er by (cbn; by rewrite fn_lookup_insert). rewrite Er in Hlt. lia.
Qed.

(** C15. Sends in shared memory end. After any posts, when the fifo takes at least one packet before
    each advance, as many advances as there are packets left write them all: no send is left, the
    fifo has got every packet of every post in order and every completion function was called. *)
Theorem shmem_sends_complete l s f n st : sends_ok payload_size l (Sender_new s) → send_run payload_size l (Sender_new s) = Ok st →
  (left_for f st ≤ n)%nat → ∃ st', send_run payload_size (rounds n f) st = Ok st' ∧ s_sendQ st' f = [] ∧
    s_fifo st' f = concat (snd <$> posts_to f st) ∧ called_for f st' = omap fst (posts_to f st).
Proof.
  intros Hl Hrun Hn. destruct (send_run_spec l _ (new_at_rest s) Hl) as (st0&Hrun0&Hi). rewrite Hrun in Hrun0. injection Hrun0 as <-.
  destruct (rounds_spec n f st Hi) as (st'&Hrun'&Hi'&Hposts&Hle). exists st'. split; [done|].
  assert (s_sendQ st' f = []) as Eq by (apply nothing_left; [done|lia]). split; [done|].
  destruct Hi' as [Hi' _]. destruct (fi_in_order f st' (si_fifo _ _ Hi' f)) as (sent&part&H1&H2&H3&H4).
  assert (posts_to f st = sent) as ->.
  { transitivity (posts_to f st'); [unfold posts_to; by rewrite Hposts|]. rewrite H1, Eq. cbn. by rewrite app_nil_r. }
  rewrite H3, (H4 Eq), app_nil_r. by split.
Qed.

(** A post in several packets of no data is taken for done when its fifo refuses the packet: the
    completion function is called and nothing is sent. *)
Theorem empty_message_lost id f metadata dispatch payload st : s_sendQ st f = [] → s_room st f = O →
  ∃ st', postMultiPacket payload_size id f (ManyPackets metadata dispatch payload 0) st = (true, st') ∧
    s_fifo st' f = s_fifo st f ∧ s_sendQ st' f = [] ∧ s_called st' = s_called st ++ [(id, f)].
Proof.
  intros Eq Er. unfold postMultiPacket. rewrite Eq, Er. cbn. eexists. split; [reflexivity|]. cbn.
  by rewrite fn_lookup_insert, app_nil_r.
Qed.
End send.

(** [produce] is what [produce_multi] (ShmemPacket) writes into a slot and the consumer reads there. *)
Theorem produce_refines header_size payload_size big_endian (w : writer) slot s : 2 ≤ header_size → 0 < payload_size < 2 ^ 32 →
  payload_size `mod` 8 = 0 → writer_ok header_size w → slot_ok header_size payload_size w slot →
  let '((metadata, dispatch, data), _) :=
    produce payload_size (ManyPackets (read_bytes (_metadata w) (_metasize w) s) (_dispatch w) (_payload w) (_length w)) s in
  ∃ w' s', produce_multi header_size payload_size big_endian slot w s = Ok (w', s') ∧
    read_bytes (getMetadata slot) (_metasize w) s' = metadata ∧ getDispatch header_size big_endian slot s' = dispatch ∧
    read_bytes (getPayload header_size slot) (Z.of_nat (length data)) s' = data.
Proof.
  intros Hh Hp H8 Hw Hs. destruct (produce_multi_spec header_size payload_size big_endian Hh Hp H8 w slot s Hw Hs)
    as (s'&Hrun&Hmeta&Hdisp&Hread&_). pose proof (writer_length _ _ Hw). cbn [produce].
  destruct (Z.leb_spec payload_size (_length w)); eexists _, s'; (split; [exact Hrun|]); (split; [exact Hmeta|]);
    (split; [exact Hdisp|]); rewrite read_bytes_length by lia; apply Hread; lia.
Qed.

(** * A context that sends: payloads of 16 bytes, a fifo that refuses at first *)

Definition demo_bytes : mem := λ a, a `mod` 251.
Definition demo_posts : list send_event :=
  [PostPacket 1 0 (OnePacket [7] 3 100 5); PostMultiPacket 2 0 (ManyPackets [8] 4 200 40); Room 0 2].

Lemma demo_posts_ok : sends_ok 16 demo_posts (Sender_new demo_bytes).
Proof.
  split; [split; [cbn; lia|]; split; [done|]; by intros f ?%elem_of_nil|]. intros st [= <-].
  split; [split; [cbn; lia|]; split; [done|]|].
  - intros f. cbn. unfold insert, fn_insert. case_decide; [|by intros ?%elem_of_nil]. by intros ?%list_elem_of_singleton.
  - intros st [= <-]. split; [done|]. by intros st [= <-].
Qed.

Lemma shmem_sends_in_order_witness : sends_ok 16 demo_posts (Sender_new demo_bytes) ∧
  ∃ st, send_run 16 demo_posts (Sender_new demo_bytes) = Ok st ∧ ∃ sent part,
    posts_to 0 st = sent ++ waiting_of 16 part (s_sendQ st 0) st ∧ s_fifo st 0 = concat (snd <$> sent) ++ part.
Proof.
  split; [exact demo_posts_ok|].
  destruct (shmem_sends_in_order 16 ltac:(vm_compute; exact eq_refl) demo_posts demo_bytes demo_posts_ok) as (st&Hrun&Hf).
  exists st. split; [exact Hrun|]. destruct (Hf 0) as (sent&part&H1&H2&_). exists sent, part. split; [exact H1|exact H2].
Defined.

Lemma shmem_sends_complete_witness : ∃ st st', send_run 16 demo_posts (Sender_new demo_bytes) = Ok st ∧
  send_run 16 (rounds 4 0) st = Ok st' ∧ s_sendQ st' 0 = [] ∧
  s_fifo st' 0 = concat (snd <$> posts_to 0 st) ∧ called_for 0 st' = [1; 2].
Proof.
  destruct (send_run 16 demo_posts (Sender_new demo_bytes)) as [st|] eqn:Hrun; [|discriminate].
  assert (left_for 16 0 st = 4%nat) as Hleft by (injection Hrun as <-; vm_compute; exact eq_refl).
  assert (omap fst (posts_to 0 st) = [1; 2]) as Hids by (injection Hrun as <-; vm_compute; exact eq_refl).
  destruct (shmem_sends_complete 16 ltac:(vm_compute; exact eq_refl) demo_posts demo_bytes 0 4 st demo_posts_ok Hrun)
    as (st'&Hrun'&Hq&Hf&Hc); [rewrite Hleft; apply le_n|].
  exists st, st'. split; [exact eq_refl|]. split; [exact Hrun'|]. split; [exact Hq|]. split; [exact Hf|]. rewrite Hc. exact Hids.
Defined.
